(* ===== verification/_CoqProject ===== *)
-Q . S2P
Prelude.v
Machine.v
MirIr.v
MirUses.v
MirSem.v
Passes.v
Backend.v
ScalarLang.v
Liveness.v
AsyncLower.v
AsyncFrame.v
AsyncSound.v
AsyncExamples.v
Consteval.v
FoldSound.v
Strength.v
Dce.v
Tco.v
Inline.v
Pure.v
Token.v
Utf8.v
Text.v
Lexer.v
LexerSafe.v
LexerSpec.v
Ast.v
ParseCore.v
ParseType.v
ParseExpr.v
ParseStmt.v
ParseDecl.v
ParseLogic.v
ParseTotal.v
FrontEnd.v
AstWalk.v
OwnState.v
OwnPaths.v
OwnFrame.v
Ownership.v
OwnCopy.v
OwnReal.v
OwnExamples.v
ParseInt.v
ParseRun.v
ExprPrint.v
ParsePratt.v
Semver.v
Manifest.v
Resolve.v
Lock.v
DateTime.v
Capability.v
Builtins.v
HashMap.v
MapHeap.v
StrMap.v
Threads.v
Channel.v
Executor.v
CapRow.v
CapCycles.v
Ty.v
TypeEnv.v
Exhaustive.v
Suggest.v
CapVars.v
CapSolve.v
CapFlow.v
CapOps.v
Infer.v
InferResolve.v
InferSound.v
InferUnify.v
CapDeny.v
CapReplay.v
CapSettle.v
