(* ===== verification/Prelude.v ===== *)
(** * Verification of the core of the Kryos compiler

    Kryos is a compiled language with capabilities in its types.  Its compiler is
    the Rust workspace [src/compiler/crates]: a lexer, a parser and a type checker,
    a mid-level representation (MIR) with its optimiser, three code generators,
    the runtime that compiled programs link to, and a package manager.  Paths
    below are relative to that directory.  This development models the parts that
    carry the compiler's own reasoning and proves what they promise.

    ** How the parts interact

    The lexer turns bytes into tokens for the parser.  The ownership analysis
    walks the tree and reports uses of moved values.  The type checker drives an
    inference engine, which unifies types and, beside them, the capability rows of
    function types; at the end of a module the engine gives the verdict of every
    [deny!] block, in the terms of the capability model.  Typed programs are
    lowered to MIR; liveness analysis serves the lowering of suspensions, and the
    optimiser rewrites MIR function by function under a meaning of instructions
    that the code generators and the runtime fix.  Compiled programs keep their
    maps in the runtime's hash tables.  The package manager picks the versions of
    the packages a program is built from.

    ** Files and what they model

    - [Prelude.v], [Machine.v], [Text.v], [Utf8.v]: results ([res]: a value, a
      panic, or the model's own lack of fuel), 64-bit integers and doubles, and
      the parts of Rust's [str] and UTF-8 that the code uses.
    - [Token.v], [Lexer.v], [LexerSafe.v], [LexerSpec.v]: [kryos-lexer/src].  The
      fields of [Lexer] are a record; each [scan_*] method is a definition.  The
      lexer never panics on UTF-8 input, and words and string literals are read as
      meant.
    - [Ast.v]: the syntax tree of [kryos-ast/src].  [ParseCore.v], [ParseType.v],
      [ParseExpr.v], [ParseStmt.v], [ParseDecl.v]: [kryos-parser/src/parser.rs], one
      definition per method over the record [Parser], in the monad [P] of state and
      panics; the mutual recursion is tied by [levels], one level per native call.
      [ParseLogic.v] has the judgements on parser runs, [ParseTotal.v] shows that
      every method ends without a panic, and [FrontEnd.v] composes this with the
      lexer.  [ParseInt.v] gives the value of integer literals.  [ExprPrint.v] prints
      expressions with the parentheses they need, [ParseRun.v] runs the parser on
      known tokens, and [ParsePratt.v] shows that what is printed is parsed back.
    - [AstWalk.v]: the nodes below a node of the tree, and induction on them.
      [OwnState.v]: the state of [kryos-ownership/src/analysis.rs], what is a copy type,
      and the queries of [arc.rs]; [Ownership.v]: the walk itself, one definition per
      method.  [OwnPaths.v] has, independently of it, the paths through a function as
      sequences of events, early exits among them, and the state of a variable along a
      path; [OwnFrame.v] the analyzer's view of one variable, and [OwnCopy.v] that a name
      declared with copy types only is never moved.  The walk ends in a well-formed
      state ([Ownership.v]), and a use after move or an uninitialized use that it reports
      happens on a path ([OwnReal.v]).  [OwnExamples.v] runs it on programs, some of which
      it misjudges.
    - [Capability.v], [Builtins.v]: [kryos-capabilities/src/model.rs] and
      [native_symbols.rs].  Containment of authority, attenuation, and what a
      builtin or a native symbol requires.
    - [TypeEnv.v]: the scopes of [kryos-types/src/env.rs], over any iteration order of
      their maps.  [Exhaustive.v]: [exhaustive.rs], with a meaning of patterns against
      which its verdict is exact.  [Suggest.v]: [suggest.rs], whose distance is the least
      number of edits.
    - [CapRow.v], [Ty.v]: [kryos-types/src/ty.rs]; [CapVars.v], [CapDeny.v],
      [Infer.v]: the state and the operations of [kryos-types/src/infer.rs], one
      definition per method.  [CapCycles.v] and [CapSolve.v] show what resolving a
      row computes, whatever its caches hold; [CapFlow.v] and [CapOps.v] that
      binding ends, only widens rows and keeps the invariant of the engine;
      [CapReplay.v] and [CapSettle.v] that the verdicts end and leave no denied
      authority unreported; [InferResolve.v], [InferSound.v] and [InferUnify.v]
      that unification ends and is sound.
    - [MirIr.v], [MirUses.v]: the data of [kryos-mir/src/ir.rs] and the reads and
      writes of instructions.  [MirSem.v] gives MIR a meaning over the interface
      [MirLang]; [Passes.v] lifts the correctness of a pass from functions to
      programs; [Backend.v] and [ScalarLang.v] instantiate the interface on scalars
      with what the Cranelift generator emits.
    - [Liveness.v], [Consteval.v], [FoldSound.v], [Strength.v], [Dce.v], [Tco.v],
      [Inline.v], [Pure.v]: [kryos-mir/src/liveness.rs], [consteval.rs] and
      [optimize/].  Each pass as written, and that it preserves every call.
    - [AsyncLower.v]: [kryos-mir/src/async_lower.rs], plans, state structs and the split of
      async functions at their suspensions.  [AsyncFrame.v] says what polling means and what
      is expected of the state struct; [AsyncSound.v] that the split function, polled,
      computes what the original does, by the soundness of liveness; [AsyncExamples.v] has
      an instance, and functions that the split changes.
    - [HashMap.v], [MapHeap.v], [StrMap.v]: [kryos-rt/src/map.rs] and what it uses
      of [string.rs] and [lib.rs].  The tables refine finite maps, and handles
      refine owners of them.
    - [Threads.v], [Channel.v]: [kryos-rt/src/channel.rs].  Every exported function is a
      program of atomic actions, and any schedule of the threads is allowed; the clock of a
      timed receive moves on as it likes.  Nothing happens to a channel once its box is
      freed.  Messages arrive in order; as long as calls are made on handles that are
      held, a channel is freed once, with no call in progress, and every call that can
      end does.
    - [Executor.v]: [kryos-rt/src/executor.rs], over [Threads.v].  The tasks are scripts of
      calls, every critical section is an action.  One task runs at a time, the run
      ends under every schedule, and the order of the tasks is round robin.
    - [DateTime.v]: [kryos-stdlib-native/src/datetime.rs], the Gregorian calendar.
    - [Semver.v], [Manifest.v], [Resolve.v], [Lock.v]: [kryos-package/src].

    ** Kinds of results

    Refinements of an abstract specification ([MapHeap.heap_refines],
    [StrMap.str_map_refines]), equivalence of a rewritten program with the original
    (the passes), exactness of an algorithm against a declarative definition
    ([CapCycles.cycle_nodes_spec], [CapSolve.resolve_cap_row_spec],
    [CapSettle.settle_denies_spec], [Liveness.analyze_least_fixpoint]), invariants
    of a state kept by every operation ([CapOps.engine_invariant],
    [CapReplay.records_invariant]), reports that an independent meaning of the program
    confirms ([OwnReal.reports_are_real]), liveness under every schedule ([Channel.calls_settle],
    [Executor.coop_run_completes]), totality ([LexerSafe.tokenize_total],
    [Resolve.resolve_outcome]), and round trips.  Where the code does not do what
    it says, a lemma shows it on an input: [Consteval.fold_pow_truncates],
    [Dce.dce_drops_trap], [Pure.cse_stale_after_reassignment],
    [Resolve.resolve_path_conflict_panics], [Resolve.resolve_order_dependent],
    [StrMap.null_key_missed], [Channel.close_loses_wakeup], [CapSolve.expand_differs],
    [CapOps.lambda_helper_store_lost], [CapSettle.same_triple_loses_verdict],
    [FrontEnd.let_else_escapes_guard], [FrontEnd.ast_deeper_than_limit],
    [FrontEnd.semicolon_after_limit], [FrontEnd.int_literal_wraps],
    [Tco.tco_shares_slots], [ParsePratt.cast_then_less],
    [TypeEnv.second_impl_replaces], [Exhaustive.nested_pattern_counts],
    [AsyncExamples.temporary_lost], and the last part of [OwnExamples.v].

    ** Bounds and fuel

    A loop that is not structural takes a fuel, and a theorem says which fuel is
    enough.  One round per byte and 65 levels of nested interpolation for the
    lexer; the blocks times the locals for liveness ([analyze_fuel]); the blocks
    for reachability ([bfs_fuel]); one more than the tokens for the loops of the
    parser, 257 native calls for types and patterns ([MAX_LEVELS]), and 513 for the
    whole parser, plus two per [let-else] ([stack_bound]); 64 rounds for an integer power; the capacity of
    the table for probing and shifting; [S (size registry)] for resolution; one
    round per edge of the substitution for its cycles and for chasing rows
    ([cycle_fuel], [chase_fuel]); [n(n+17)+1] for [n] row variables for binding
    ([bind_fuel]: a row widens at most [n+17] times); [(v+1) * 4097 + 1] for [v]
    type variables for unification ([unify_fuel]); the filed blocks plus the
    triples of the worklist times the references for verdicts ([settle_fuel]).

    ** Parameters

    Code outside the repository is an argument: the instructions of Cranelift
    ([ClifOps], with their documented meaning as [ClifLaws]), the file system
    ([read_manifest]), the answers of the allocator ([Grant]), the iteration order
    of hash sets and maps ([hash_order], [states_order]: any permutation), and for the optimiser the meaning
    of instructions ([MirLang], with [ScalarLang.v] and [AsyncExamples.v] as instances).

    ** Not modelled

    References to locals in MIR: [MirSem.v] gives [RV_AddrOf] no value but a panic, so
    that the theorems about the passes say nothing about locals whose address is taken.
    The wording of diagnostics and of debug dumps; the wrap-around of the counters
    of variables (2^32 of them); the passes over the syntax tree ([cfg_strip.rs],
    [derive_expand.rs]), the lowering to MIR, the type checker's and the capability
    checker's walks over the tree; the text and bytes the
    generators emit; weak memory, files, sockets and foreign functions of the runtime;
    the command line, the language server and the other tools, which are input and
    output. *)

From Stdlib Require Export ZArith List Bool Ascii String Lia.
From stdpp Require Export base decidable list list_numbers gmap strings pretty sorting.

#[global] Set Default Goal Selector "!".

Create HintDb kryos.

(* ------------------------------------------------------------------ *)
(** ** Results: the outcomes of a fuelled computation                  *)
(* ------------------------------------------------------------------ *)

(** [OutOfFuel] is a property of the model only; [Panic] is the code's abort
    (a Rust panic, or a trap of the compiled program). *)
Inductive res (A : Type) : Type :=
| Done (a : A)
| Panic
| OutOfFuel.
Arguments Done {A} a.
Arguments Panic {A}.
Arguments OutOfFuel {A}.

#[export] Instance res_ret : MRet res := fun A a => Done a.
#[export] Instance res_bind : MBind res := fun A B f m =>
  match m with
  | Done a => f a
  | Panic => Panic
  | OutOfFuel => OutOfFuel
  end.
#[export] Instance res_fmap : FMap res := fun A B f m =>
  match m with
  | Done a => Done (f a)
  | Panic => Panic
  | OutOfFuel => OutOfFuel
  end.

(** [Option::unwrap] *)
Definition of_option {A} (o : option A) : res A :=
  match o with Some a => Done a | None => Panic end.

Lemma res_bind_Done {A B} (m : res A) (f : A -> res B) b :
  m ≫= f = Done b <-> exists a, m = Done a /\ f a = Done b.
Proof. destruct m; cbn; naive_solver. Qed.

Lemma res_bind_OutOfFuel {A B} (m : res A) (f : A -> res B) :
  m ≫= f <> OutOfFuel -> m <> OutOfFuel.
Proof. destruct m; naive_solver. Qed.

(** [m1] is below [m2] when running out of fuel is their only difference. *)
Definition res_le {A} (m1 m2 : res A) : Prop := m1 = OutOfFuel \/ m1 = m2.

#[export] Instance res_le_refl {A} : Reflexive (@res_le A).
Proof. intros m. by right. Qed.

Lemma res_le_bind {A B} (m1 m2 : res A) (f g : A -> res B) :
  res_le m1 m2 -> (forall a, res_le (f a) (g a)) -> res_le (m1 ≫= f) (m2 ≫= g).
Proof.
  intros [->| ->] Hf; [by left|].
  destruct m2; [apply Hf|by right|by right].
Qed.

Lemma res_le_Done {A} (m1 m2 : res A) :
  res_le m1 m2 -> m1 <> OutOfFuel -> m2 = m1.
Proof. intros [?|?] ?; congruence. Qed.

(** Two computations end the same way, with related values. *)
Definition res_rel {A B} (R : A -> B -> Prop) (m1 : res A) (m2 : res B) : Prop :=
  match m1, m2 with
  | Done a, Done b => R a b
  | Panic, Panic | OutOfFuel, OutOfFuel => True
  | _, _ => False
  end.

Lemma res_rel_bind {A B A' B'} (R : A -> B -> Prop) (R' : A' -> B' -> Prop)
    (m1 : res A) (m2 : res B) (f : A -> res A') (g : B -> res B') :
  res_rel R m1 m2 -> (forall a b, R a b -> res_rel R' (f a) (g b)) ->
  res_rel R' (m1 ≫= f) (m2 ≫= g).
Proof. destruct m1, m2; cbn; naive_solver. Qed.

Lemma res_rel_eq {A} (m1 m2 : res A) : res_rel eq m1 m2 <-> m1 = m2.
Proof. destruct m1, m2; cbn; naive_solver. Qed.

Lemma res_rel_refl {A} (R : A -> A -> Prop) (m : res A) :
  (forall a, R a a) -> res_rel R m m.
Proof. destruct m; cbn; auto. Qed.

Lemma mapM_Done {A B} (f : A -> res B) (g : A -> B) l :
  (forall a, a ∈ l -> f a = Done (g a)) -> mapM f l = Done (map g l).
Proof.
  induction l as [|a l IH]; intros Hf; cbn; [done|].
  rewrite Hf by constructor. cbn. rewrite IH; [done|]. intros. apply Hf. by constructor.
Qed.

Lemma size_union_le (X Y : gset N) : (size (X ∪ Y) <= size X + size Y)%nat.
Proof.
  rewrite size_union_alt. pose proof (subseteq_size (Y ∖ X) Y ltac:(set_solver)). lia.
Qed.

(** A list has at least as many elements as the set of them. *)
Lemma size_list_to_set_le (l : list N) : (size (list_to_set l : gset N) <= length l)%nat.
Proof.
  induction l as [|x l IH]; [done|]. cbn [list_to_set foldr length].
  etrans; [apply (size_union_le {[x]} (list_to_set l : gset N))|]. rewrite size_singleton. lia.
Qed.

(* ------------------------------------------------------------------ *)
(** ** Strings as lists of characters                                  *)
(* ------------------------------------------------------------------ *)

Lemma list_ascii_of_string_app a b :
  list_ascii_of_string (a ++ b) = list_ascii_of_string a ++ list_ascii_of_string b.
Proof. induction a as [|x a IH]; [done|exact (f_equal (cons x) IH)]. Qed.

Lemma list_ascii_of_string_inj a b : list_ascii_of_string a = list_ascii_of_string b -> a = b.
Proof.
  intros He. by rewrite <-(string_of_list_ascii_of_string a), He, string_of_list_ascii_of_string.
Qed.
