(* ===== verification/Machine.v ===== *)
(** 64-bit machine integers and IEEE doubles as the Rust code uses them:
    [i64] as the integers of [-2^63, 2^63), with wrap-around, the [checked_*]
    operations of the standard library, casts to [u32], and [f64] arithmetic
    as IEEE-754 binary64 (precision 53, [emax] 1024). *)

From Stdlib Require Import SpecFloat.
From S2P Require Import Prelude.

Open Scope Z_scope.

Definition i64_min : Z := - 2 ^ 63.
Definition i64_max : Z := 2 ^ 63 - 1.
Definition in_i64 (z : Z) : bool := (i64_min <=? z) && (z <=? i64_max).

(** Two's-complement wrap-around to 64 bits. *)
Definition wrap64 (z : Z) : Z := (z + 2 ^ 63) mod 2 ^ 64 - 2 ^ 63.

Definition checked (z : Z) : option Z := if in_i64 z then Some z else None.

Definition checked_add (a b : Z) : option Z := checked (a + b).
Definition checked_sub (a b : Z) : option Z := checked (a - b).
Definition checked_mul (a b : Z) : option Z := checked (a * b).
Definition checked_neg (a : Z) : option Z := checked (- a).
(** [None] on a zero divisor and on the one overflowing quotient. *)
Definition checked_div (a b : Z) : option Z :=
  if b =? 0 then None else checked (Z.quot a b).
Definition checked_rem (a b : Z) : option Z :=
  if b =? 0 then None else if (a =? i64_min) && (b =? -1) then None else Some (Z.rem a b).
(** [exp : u32]; [None] when the power does not fit. *)
Definition checked_pow (a exp : Z) : option Z := checked (a ^ exp).
(** [rhs : u32]; [None] when the shift amount reaches the width. *)
Definition checked_shl (a rhs : Z) : option Z :=
  if rhs <? 64 then Some (wrap64 (Z.shiftl a rhs)) else None.
Definition checked_shr (a rhs : Z) : option Z :=
  if rhs <? 64 then Some (Z.shiftr a rhs) else None.

(** [v as u32] and [v as u64] of an [i64]. *)
Definition as_u32 (z : Z) : Z := z mod 2 ^ 32.
Definition as_u64 (z : Z) : Z := z mod 2 ^ 64.

Definition f64_add := SFadd 53 1024.
Definition f64_sub := SFsub 53 1024.
Definition f64_mul := SFmul 53 1024.
Definition f64_div := SFdiv 53 1024.
Definition f64_zero : spec_float := S754_zero false.

(** [f64::to_bits], with the canonical quiet NaN. *)
Definition f64_to_bits (x : spec_float) : Z :=
  let sign (s : bool) := if s then 2 ^ 63 else 0 in
  match x with
  | S754_zero s => sign s
  | S754_infinity s => sign s + 2047 * 2 ^ 52
  | S754_nan => 2047 * 2 ^ 52 + 2 ^ 51
  | S754_finite s m e =>
      let m := Zpos m in
      if m <? 2 ^ 52 then sign s + m
      else sign s + (e + 1075) * 2 ^ 52 + (m - 2 ^ 52)
  end.

(* ------------------------------------------------------------------ *)
(** ** Facts                                                           *)
(* ------------------------------------------------------------------ *)

Lemma in_i64_spec z : in_i64 z = true <-> i64_min <= z <= i64_max.
Proof. unfold in_i64. rewrite andb_true_iff, !Z.leb_le. done. Qed.

Lemma wrap64_range z : i64_min <= wrap64 z <= i64_max.
Proof.
  unfold wrap64, i64_min, i64_max.
  pose proof (Z.mod_pos_bound (z + 2 ^ 63) (2 ^ 64) ltac:(lia)). lia.
Qed.

Lemma wrap64_id z : in_i64 z = true -> wrap64 z = z.
Proof.
  rewrite in_i64_spec. unfold wrap64, i64_min, i64_max. intros Hz.
  rewrite Z.mod_small by lia. lia.
Qed.

(** [wrap64] only depends on the residue modulo 2^64. *)
Lemma wrap64_eqm a b : a mod 2 ^ 64 = b mod 2 ^ 64 -> wrap64 a = wrap64 b.
Proof.
  intros Hm. unfold wrap64. f_equal.
  by rewrite <-(Zplus_mod_idemp_l a), Hm, Zplus_mod_idemp_l.
Qed.

Lemma wrap64_mod z : wrap64 z mod 2 ^ 64 = z mod 2 ^ 64.
Proof.
  unfold wrap64. rewrite <-Zminus_mod_idemp_l, Zmod_mod, Zminus_mod_idemp_l.
  f_equal. lia.
Qed.

Lemma wrap64_mul_l a b : wrap64 (wrap64 a * b) = wrap64 (a * b).
Proof.
  apply wrap64_eqm. by rewrite <-Zmult_mod_idemp_l, wrap64_mod, Zmult_mod_idemp_l.
Qed.

Lemma wrap64_mul_r a b : wrap64 (a * wrap64 b) = wrap64 (a * b).
Proof. rewrite !(Z.mul_comm a). apply wrap64_mul_l. Qed.

Lemma checked_Some z v : checked z = Some v <-> in_i64 z = true /\ v = z.
Proof. unfold checked. destruct (in_i64 z); naive_solver. Qed.

Lemma checked_pow_Some a e v : checked_pow a e = Some v -> in_i64 (a ^ e) = true /\ v = a ^ e.
Proof. apply checked_Some. Qed.

(* ------------------------------------------------------------------ *)
(** ** Bit patterns identify doubles                                   *)
(* ------------------------------------------------------------------ *)

Lemma digits2_pos_bounds m :
  2 ^ (Zpos (digits2_pos m) - 1) <= Zpos m < 2 ^ Zpos (digits2_pos m).
Proof.
  induction m as [m IH|m IH|]; cbn [digits2_pos]; [..|by cbn].
  all: rewrite Pos2Z.inj_succ; replace (Z.succ (Zpos (digits2_pos m)) - 1)
    with (Z.succ (Zpos (digits2_pos m) - 1)) by lia; rewrite !Z.pow_succ_r by lia; lia.
Qed.

(** A finite double: a subnormal, or a normal with a 53-bit significand. *)
Lemma valid_finite s m e :
  valid_binary 53 1024 (S754_finite s m e) = true ->
  (e = -1074 /\ Zpos m < 2 ^ 52) \/ (-1074 <= e <= 971 /\ 2 ^ 52 <= Zpos m < 2 ^ 53).
Proof.
  cbn [valid_binary]. unfold bounded, canonical_mantissa, fexp, SpecFloat.emin.
  rewrite andb_true_iff. intros [Hc He]. apply Z.eqb_eq in Hc. apply Z.leb_le in He.
  pose proof (digits2_pos_bounds m) as Hb. set (d := Zpos (digits2_pos m)) in *.
  assert (Hd : d <= 53) by lia.
  destruct (Z.eq_dec d 53) as [Hd53|Hd53].
  - rewrite Hd53 in *. right. cbn -[Z.pow] in *. lia.
  - left. split; [lia|]. assert (2 ^ d <= 2 ^ 52) by (apply Z.pow_le_mono_r; lia). lia.
Qed.

Lemma f64_to_bits_inj x y :
  valid_binary 53 1024 x = true -> valid_binary 53 1024 y = true ->
  f64_to_bits x = f64_to_bits y -> x = y.
Proof.
  intros Hx Hy.
  assert (Hfin : forall s m e, valid_binary 53 1024 (S754_finite s m e) = true ->
    exists k, f64_to_bits (S754_finite s m e) = (if s then 2 ^ 63 else 0) + k /\ 0 < k < 2047 * 2 ^ 52
      /\ (e = -1074 /\ k = Zpos m /\ k < 2 ^ 52
          \/ k = (e + 1075) * 2 ^ 52 + (Zpos m - 2 ^ 52) /\ 2 ^ 52 <= Zpos m < 2 ^ 53 /\ -1074 <= e)).
  { intros s m e Hv. apply valid_finite in Hv. unfold f64_to_bits.
    destruct (Z.ltb_spec (Zpos m) (2 ^ 52)); eexists; (split; [rewrite <-?Z.add_assoc; reflexivity|]); lia. }
  destruct x as [sx|sx| |sx mx ex], y as [sy|sy| |sy my ey];
    repeat match goal with
    | H : valid_binary 53 1024 (S754_finite ?s ?m ?e) = true |- _ =>
        destruct (Hfin s m e H) as (? & -> & ? & ?); clear H
    end; unfold f64_to_bits; destruct_all bool; intros He; try lia; try done.
  all: repeat match goal with H : _ /\ _ |- _ => destruct H | H : _ \/ _ |- _ => destruct H end.
  all: f_equal; try lia.
Qed.

#[export] Hint Resolve wrap64_id : kryos.
