(* ===== verification/MirIr.v ===== *)
(** The MIR data structures of [kryos-mir/src/ir.rs]: types, operands,
    r-values, instructions, terminators, basic blocks, functions, modules. *)

From Stdlib Require Import SpecFloat.
From S2P Require Import Prelude.

(** [LocalId(u32)] and [BlockId(u32)] are newtypes over [u32]. *)
Abbreviation LocalId := N (only parsing).
Abbreviation BlockId := N (only parsing).
(** An [f64] is its IEEE-754 datum. *)
Abbreviation f64 := spec_float (only parsing).

Inductive MirType :=
| Ty_I8 | Ty_I16 | Ty_I32 | Ty_I64 | Ty_I128
| Ty_U8 | Ty_U16 | Ty_U32 | Ty_U64 | Ty_U128
| Ty_F32 | Ty_F64 | Ty_Bool | Ty_Char | Ty_Str | Ty_Void
| Ty_Ptr (inner : MirType)
| Ty_Ref (inner : MirType) (mutable : bool)
| Ty_Shared (inner : MirType)
| Ty_Array (elem : MirType) (size : option N)
| Ty_Tuple (elems : list MirType)
| Ty_Struct (name : string)
| Ty_Enum (name : string)
| Ty_Function (params : list MirType) (ret : MirType)
| Ty_DynTrait (name : string)
| Ty_Map (key value : MirType).

Inductive Constant :=
| C_Int (v : Z)
| C_Float (v : f64)
| C_Bool (b : bool)
| C_Str (s : string)
| C_None.

Inductive Operand :=
| Op_Local (id : LocalId)
| Op_Constant (c : Constant).

Inductive MirBinOp :=
| Bin_Add | Bin_Sub | Bin_Mul | Bin_Div | Bin_Mod | Bin_Pow
| Bin_Eq | Bin_Neq | Bin_Lt | Bin_Gt | Bin_LtEq | Bin_GtEq
| Bin_And | Bin_Or
| Bin_BitAnd | Bin_BitOr | Bin_BitXor | Bin_Shl | Bin_Shr.

Inductive MirUnOp := Un_Neg | Un_Not | Un_BitNot.

Inductive RValue :=
| RV_Use (op : Operand)
| RV_BinOp (op : MirBinOp) (left right : Operand)
| RV_UnOp (op : MirUnOp) (operand : Operand)
| RV_Call (func : string) (args : list Operand)
| RV_CallIndirect (callee : Operand) (args : list Operand)
| RV_ConstInt (v : Z)
| RV_ConstFloat (v : f64)
| RV_ConstBool (b : bool)
| RV_ConstString (s : string)
| RV_ConstNone
| RV_Array (elems : list Operand)
| RV_Tuple (elems : list Operand)
| RV_Struct (name : string) (fields : list (string * Operand))
| RV_Field (object : Operand) (field : string)
| RV_Index (object index : Operand)
| RV_ArcAlloc (inner : Operand)
| RV_Cast (operand : Operand) (ty : MirType)
| RV_EnumVariant (enum_name : string) (variant_idx : N) (fields : list Operand)
| RV_EnumTag (operand : Operand)
| RV_EnumPayload (operand : Operand) (enum_name : string) (variant_idx field_idx : N)
| RV_Closure (func_name : string) (captures : list Operand)
| RV_Map (pairs : list (Operand * Operand))
| RV_StringConcat (parts : list Operand)
| RV_Range (start end_ : option Operand) (inclusive : bool)
| RV_AddrOf (local : LocalId) (mutable : bool)
| RV_Deref (operand : Operand)
| RV_Comptime (inner : RValue)
| RV_MakeTraitObject (value : Operand) (concrete_type trait_name : string) (owns_data : bool)
| RV_VtableCall (object : Operand) (method_index : N) (args : list Operand) (return_ty : MirType).

Inductive Instruction :=
| I_Assign (dest : LocalId) (value : RValue)
| I_ArcRetain (ptr : LocalId)
| I_ArcRelease (ptr : LocalId)
| I_Drop (local : LocalId)
| I_DropIfNe (old : LocalId) (new : Operand) (ty : MirType) (retained_by_store via_map : bool)
| I_StoreField (object : Operand) (field : string) (value : Operand)
| I_StoreDeref (ptr value : Operand)
| I_Nop
| I_DebugLine (line : N)
| I_Spawn (func : string) (args : list Operand)
| I_Send (channel value : LocalId)
| I_Receive (dest channel : LocalId)
| I_ActorSpawn (dest : LocalId) (dispatch_fn : string) (state : Operand)
| I_ActorSend (actor : LocalId) (handler_tag : N) (args : list Operand)
| I_ActorStateLoad (dest state_ptr : LocalId) (field_offset : N)
| I_ActorStateStore (state_ptr : LocalId) (field_offset : N) (value : Operand).

Inductive Terminator :=
| T_Return (op : option Operand)
| T_Goto (target : BlockId)
| T_Branch (cond : Operand) (then_block else_block : BlockId)
| T_Switch (value : Operand) (targets : list (Z * BlockId)) (default : BlockId)
| T_Unreachable.

Record BasicBlock := mkBlock {
  bb_id : BlockId;
  bb_instructions : list Instruction;
  bb_terminator : Terminator
}.

(** A formal parameter refers to a local slot. *)
Record MirParam := mkParam { p_local : LocalId; p_ty : MirType }.

(** A local variable: parameter, temporary or user binding. *)
Record MirLocal := mkLocal {
  l_id : LocalId;
  l_name : option string;
  l_ty : MirType;
  l_mutable : bool
}.

(** Source-level attributes; the passes modelled here read [inline] and [pure_fn]. *)
Record MirAttributes := mkAttrs {
  attr_inline : bool;
  attr_pure_fn : bool;
  attr_test : bool;
  attr_bench : bool;
  attr_deprecated : bool;
  attr_is_async : bool;
  attr_mutated_capture_slot : option N;
  attr_mutated_capture_ptr_slots : list N;
  attr_needs_capture_lock : bool;
  attr_mutated_scalar_writeback_pairs : list (N * N);
  attr_non_owned_locals : list N
}.

Record MirFunction := mkFunction {
  f_name : string;
  f_params : list MirParam;
  f_ret_ty : MirType;
  f_blocks : list BasicBlock;
  f_locals : list MirLocal;
  f_attributes : MirAttributes;
  f_source_file : option string;
  f_source_line : N
}.

Record EnumVariantDef := mkVariant { ev_name : string; ev_fields : list MirType }.

Record MirModule := mkModule {
  m_functions : list MirFunction;
  m_struct_defs : list (string * list (string * MirType));
  m_enum_defs : list (string * list EnumVariantDef);
  m_trait_vtables : list ((string * string) * list string);
  m_copy_structs : list string
}.

(** Functional updates of the fields the passes write through [&mut]. *)
Definition set_blocks (f : MirFunction) (bs : list BasicBlock) : MirFunction :=
  mkFunction (f_name f) (f_params f) (f_ret_ty f) bs (f_locals f)
    (f_attributes f) (f_source_file f) (f_source_line f).
Definition set_locals (f : MirFunction) (ls : list MirLocal) : MirFunction :=
  mkFunction (f_name f) (f_params f) (f_ret_ty f) (f_blocks f) ls
    (f_attributes f) (f_source_file f) (f_source_line f).
Definition set_functions (m : MirModule) (fs : list MirFunction) : MirModule :=
  mkModule fs (m_struct_defs m) (m_enum_defs m) (m_trait_vtables m) (m_copy_structs m).
Definition set_instructions (b : BasicBlock) (insts : list Instruction) : BasicBlock :=
  mkBlock (bb_id b) insts (bb_terminator b).

(* ------------------------------------------------------------------ *)
(** ** Helpers of [MirFunction] and [BasicBlock]                       *)
(* ------------------------------------------------------------------ *)

(** [self.blocks[0]]: a Rust panic on a function with no block. *)
Definition entry_block (f : MirFunction) : res BasicBlock :=
  match f_blocks f with b :: _ => Done b | [] => Panic end.

Definition block_count (f : MirFunction) : nat := length (f_blocks f).

(** [self.blocks[id.0 as usize]]: the id is used as an index. *)
Definition block (f : MirFunction) (id : BlockId) : res BasicBlock :=
  match f_blocks f !! N.to_nat id with Some b => Done b | None => Panic end.

Definition is_unreachable (b : BasicBlock) : bool :=
  match bb_terminator b with T_Unreachable => true | _ => false end.

Definition term_successors (t : Terminator) : list BlockId :=
  match t with
  | T_Return _ | T_Unreachable => []
  | T_Goto target => [target]
  | T_Branch _ then_block else_block => [then_block; else_block]
  | T_Switch _ targets default => map snd targets ++ [default]
  end.

Definition successors (b : BasicBlock) : list BlockId := term_successors (bb_terminator b).

(** A tuple whose array-element release is sound on both backends. *)
Fixpoint tuple_array_elem_releasable (elem : MirType) : bool :=
  match elem with
  | Ty_Tuple es =>
      negb (match es with [] => true | _ => false end) &&
      forallb (fun e =>
        match e with
        | Ty_I8 | Ty_I16 | Ty_I32 | Ty_I64 | Ty_U8 | Ty_U16 | Ty_U32 | Ty_U64
        | Ty_F32 | Ty_F64 | Ty_Bool | Ty_Char | Ty_Str
        | Ty_Array _ _ | Ty_Map _ _ => true
        | Ty_Tuple _ => tuple_array_elem_releasable e
        | _ => false
        end) es
  | _ => false
  end.

(* ------------------------------------------------------------------ *)
(** ** Decidable equality                                              *)
(* ------------------------------------------------------------------ *)

#[export] Instance spec_float_eq_dec : EqDecision spec_float.
Proof. solve_decision. Defined.
#[export] Instance constant_eq_dec : EqDecision Constant.
Proof. solve_decision. Defined.
#[export] Instance operand_eq_dec : EqDecision Operand.
Proof. solve_decision. Defined.
#[export] Instance mirbinop_eq_dec : EqDecision MirBinOp.
Proof. solve_decision. Defined.
#[export] Instance mirunop_eq_dec : EqDecision MirUnOp.
Proof. solve_decision. Defined.
