(* ===== verification/MirUses.v ===== *)
(** Which locals an instruction reads and writes ([kryos-mir/src/liveness.rs],
    [inst_defs_uses] and its helpers), and the renaming of locals that
    [kryos-mir/src/optimize/inline.rs] applies to a callee's body. *)

From S2P Require Import Prelude MirIr.

(* ------------------------------------------------------------------ *)
(** ** Reads and writes                                                *)
(* ------------------------------------------------------------------ *)

(** The [*_uses] functions return what the code appends to [out]. *)
Definition operand_uses (op : Operand) : list LocalId :=
  match op with Op_Local id => [id] | Op_Constant _ => [] end.

Definition opt_operand_uses (o : option Operand) : list LocalId :=
  match o with Some op => operand_uses op | None => [] end.

Definition operands_uses (ops : list Operand) : list LocalId := flat_map operand_uses ops.

Fixpoint rvalue_uses (rv : RValue) : list LocalId :=
  match rv with
  | RV_Use o => operand_uses o
  | RV_BinOp _ lhs rhs => operand_uses lhs ++ operand_uses rhs
  | RV_UnOp _ operand => operand_uses operand
  | RV_Call _ args => operands_uses args
  | RV_CallIndirect callee args => operand_uses callee ++ operands_uses args
  | RV_ConstInt _ | RV_ConstFloat _ | RV_ConstBool _ | RV_ConstString _ | RV_ConstNone => []
  | RV_Array items | RV_Tuple items => operands_uses items
  | RV_Struct _ fields => flat_map (fun '(_, o) => operand_uses o) fields
  | RV_Field object _ => operand_uses object
  | RV_Index object index => operand_uses object ++ operand_uses index
  | RV_ArcAlloc inner => operand_uses inner
  | RV_Cast operand _ => operand_uses operand
  | RV_EnumVariant _ _ fields => operands_uses fields
  | RV_EnumTag operand => operand_uses operand
  | RV_EnumPayload operand _ _ _ => operand_uses operand
  | RV_Closure _ captures => operands_uses captures
  | RV_Map pairs => flat_map (fun '(k, v) => operand_uses k ++ operand_uses v) pairs
  | RV_StringConcat items => operands_uses items
  | RV_Range start end_ _ => opt_operand_uses start ++ opt_operand_uses end_
  | RV_AddrOf local _ => [local]
  | RV_Deref operand => operand_uses operand
  | RV_Comptime inner => rvalue_uses inner
  | RV_MakeTraitObject value _ _ _ => operand_uses value
  | RV_VtableCall object _ args _ => operand_uses object ++ operands_uses args
  end.

(** Computes (defs, uses) for an instruction. *)
Definition inst_defs_uses (inst : Instruction) : list LocalId * list LocalId :=
  match inst with
  | I_Assign dest value => ([dest], rvalue_uses value)
  | I_ArcRetain ptr | I_ArcRelease ptr => ([], [ptr])
  | I_Drop local => ([], [local])
  | I_DropIfNe old new _ _ _ => ([], old :: operand_uses new)
  | I_StoreField object _ value => ([], operand_uses object ++ operand_uses value)
  | I_StoreDeref ptr value => ([], operand_uses ptr ++ operand_uses value)
  | I_Nop | I_DebugLine _ => ([], [])
  | I_Spawn _ args => ([], operands_uses args)
  | I_Send channel value => ([], [channel; value])
  | I_Receive dest channel => ([dest], [channel])
  | I_ActorSpawn dest _ state => ([dest], operand_uses state)
  | I_ActorSend actor _ args => ([], actor :: operands_uses args)
  | I_ActorStateLoad dest state_ptr _ => ([dest], [state_ptr])
  | I_ActorStateStore state_ptr _ value => ([], state_ptr :: operand_uses value)
  end.

Definition inst_defs (inst : Instruction) : list LocalId := fst (inst_defs_uses inst).
Definition inst_uses (inst : Instruction) : list LocalId := snd (inst_defs_uses inst).

(** The operand a terminator reads. *)
Definition term_operand (t : Terminator) : option Operand :=
  match t with
  | T_Return op => op
  | T_Branch cond _ _ => Some cond
  | T_Switch value _ _ => Some value
  | T_Goto _ | T_Unreachable => None
  end.

Definition term_uses (t : Terminator) : list LocalId := opt_operand_uses (term_operand t).

(** The locals a function mentions: parameters, reads and writes. *)
Definition block_locals (b : BasicBlock) : list LocalId :=
  flat_map (fun i => inst_defs i ++ inst_uses i) (bb_instructions b)
  ++ term_uses (bb_terminator b).

(* ------------------------------------------------------------------ *)
(** ** Renaming of locals                                              *)
(* ------------------------------------------------------------------ *)

Section Rename.
Context (σ : LocalId -> LocalId).

Definition rename_operand (op : Operand) : Operand :=
  match op with Op_Local id => Op_Local (σ id) | Op_Constant c => Op_Constant c end.

Fixpoint rename_rvalue (rv : RValue) : RValue :=
  match rv with
  | RV_Use op => RV_Use (rename_operand op)
  | RV_BinOp op lhs rhs => RV_BinOp op (rename_operand lhs) (rename_operand rhs)
  | RV_UnOp op operand => RV_UnOp op (rename_operand operand)
  | RV_Call func args => RV_Call func (map rename_operand args)
  | RV_CallIndirect callee args =>
      RV_CallIndirect (rename_operand callee) (map rename_operand args)
  | RV_ConstInt v => RV_ConstInt v
  | RV_ConstFloat v => RV_ConstFloat v
  | RV_ConstBool v => RV_ConstBool v
  | RV_ConstString s => RV_ConstString s
  | RV_ConstNone => RV_ConstNone
  | RV_Array elems => RV_Array (map rename_operand elems)
  | RV_Tuple elems => RV_Tuple (map rename_operand elems)
  | RV_Struct name fields =>
      RV_Struct name (map (fun '(n, op) => (n, rename_operand op)) fields)
  | RV_Field object field => RV_Field (rename_operand object) field
  | RV_Index object index => RV_Index (rename_operand object) (rename_operand index)
  | RV_ArcAlloc inner => RV_ArcAlloc (rename_operand inner)
  | RV_Cast operand ty => RV_Cast (rename_operand operand) ty
  | RV_EnumVariant enum_name variant_idx fields =>
      RV_EnumVariant enum_name variant_idx (map rename_operand fields)
  | RV_EnumTag operand => RV_EnumTag (rename_operand operand)
  | RV_EnumPayload operand enum_name variant_idx field_idx =>
      RV_EnumPayload (rename_operand operand) enum_name variant_idx field_idx
  | RV_Closure func_name captures => RV_Closure func_name (map rename_operand captures)
  | RV_Map pairs =>
      RV_Map (map (fun '(k, v) => (rename_operand k, rename_operand v)) pairs)
  | RV_StringConcat parts => RV_StringConcat (map rename_operand parts)
  | RV_Range start end_ inclusive =>
      RV_Range (option_map rename_operand start) (option_map rename_operand end_) inclusive
  | RV_AddrOf local mutable => RV_AddrOf (σ local) mutable
  | RV_Deref operand => RV_Deref (rename_operand operand)
  | RV_Comptime inner => RV_Comptime (rename_rvalue inner)
  | RV_MakeTraitObject value concrete_type trait_name owns_data =>
      RV_MakeTraitObject (rename_operand value) concrete_type trait_name owns_data
  | RV_VtableCall object method_index args return_ty =>
      RV_VtableCall (rename_operand object) method_index (map rename_operand args) return_ty
  end.

Definition rename_instruction (inst : Instruction) : Instruction :=
  match inst with
  | I_Assign dest value => I_Assign (σ dest) (rename_rvalue value)
  | I_ArcRetain ptr => I_ArcRetain (σ ptr)
  | I_ArcRelease ptr => I_ArcRelease (σ ptr)
  | I_Drop local => I_Drop (σ local)
  | I_DropIfNe old new ty retained_by_store via_map =>
      I_DropIfNe (σ old) (rename_operand new) ty retained_by_store via_map
  | I_Send channel value => I_Send (σ channel) (σ value)
  | I_Receive dest channel => I_Receive (σ dest) (σ channel)
  | I_Spawn func args => I_Spawn func (map rename_operand args)
  | I_ActorSpawn dest dispatch_fn state =>
      I_ActorSpawn (σ dest) dispatch_fn (rename_operand state)
  | I_ActorSend actor handler_tag args =>
      I_ActorSend (σ actor) handler_tag (map rename_operand args)
  | I_ActorStateLoad dest state_ptr field_offset =>
      I_ActorStateLoad (σ dest) (σ state_ptr) field_offset
  | I_ActorStateStore state_ptr field_offset value =>
      I_ActorStateStore (σ state_ptr) field_offset (rename_operand value)
  | I_StoreField object field value =>
      I_StoreField (rename_operand object) field (rename_operand value)
  | I_StoreDeref ptr value => I_StoreDeref (rename_operand ptr) (rename_operand value)
  | I_Nop => I_Nop
  | I_DebugLine line => I_DebugLine line
  end.
End Rename.

(* ------------------------------------------------------------------ *)
(** ** How renaming acts on reads and writes                           *)
(* ------------------------------------------------------------------ *)

Lemma flat_map_map_comm {A B C} (f : B -> list C) (g : A -> B) (h : A -> list C) l :
  (forall a, f (g a) = h a) -> flat_map f (map g l) = flat_map h l.
Proof. intros Hf. induction l as [|a l IH]; cbn; [done|]. by rewrite Hf, IH. Qed.

Lemma map_flat_map {A B C} (g : B -> C) (f : A -> list B) l :
  map g (flat_map f l) = flat_map (fun a => map g (f a)) l.
Proof. induction l as [|a l IH]; cbn; [done|]. by rewrite map_app, IH. Qed.

Section RenameUses.
Context (σ : LocalId -> LocalId).

Lemma operand_uses_rename op :
  operand_uses (rename_operand σ op) = map σ (operand_uses op).
Proof. by destruct op. Qed.

Lemma opt_operand_uses_rename o :
  opt_operand_uses (option_map (rename_operand σ) o) = map σ (opt_operand_uses o).
Proof. destruct o; cbn; [apply operand_uses_rename|done]. Qed.

Lemma operands_uses_rename ops :
  operands_uses (map (rename_operand σ) ops) = map σ (operands_uses ops).
Proof.
  unfold operands_uses. rewrite map_flat_map.
  apply flat_map_map_comm, operand_uses_rename.
Qed.

Lemma struct_uses_rename (fields : list (string * Operand)) :
  flat_map (fun '(_, o) => operand_uses o)
    (map (fun '(n, op) => (n, rename_operand σ op)) fields)
  = map σ (flat_map (fun '(_, o) => operand_uses o) fields).
Proof.
  rewrite map_flat_map. apply flat_map_map_comm.
  intros [n o]. apply operand_uses_rename.
Qed.

Lemma map_uses_rename (pairs : list (Operand * Operand)) :
  flat_map (fun '(k, v) => operand_uses k ++ operand_uses v)
    (map (fun '(k, v) => (rename_operand σ k, rename_operand σ v)) pairs)
  = map σ (flat_map (fun '(k, v) => operand_uses k ++ operand_uses v) pairs).
Proof.
  rewrite map_flat_map. apply flat_map_map_comm.
  intros [k v]. by rewrite map_app, !operand_uses_rename.
Qed.
End RenameUses.

Create Rewrite HintDb mir_rename.
#[export] Hint Rewrite operand_uses_rename opt_operand_uses_rename operands_uses_rename
  struct_uses_rename map_uses_rename : mir_rename.

Lemma rvalue_uses_rename σ rv :
  rvalue_uses (rename_rvalue σ rv) = map σ (rvalue_uses rv).
Proof.
  induction rv; cbn; autorewrite with mir_rename; rewrite <-?map_app; auto.
Qed.

Lemma inst_defs_uses_rename σ inst :
  inst_defs_uses (rename_instruction σ inst)
  = (map σ (inst_defs inst), map σ (inst_uses inst)).
Proof.
  destruct inst; unfold inst_defs, inst_uses; cbn;
    rewrite ?rvalue_uses_rename; autorewrite with mir_rename;
    rewrite <-?map_app; reflexivity.
Qed.

Lemma inst_uses_rename σ inst :
  inst_uses (rename_instruction σ inst) = map σ (inst_uses inst).
Proof. unfold inst_uses at 1. by rewrite inst_defs_uses_rename. Qed.

Lemma inst_defs_rename σ inst :
  inst_defs (rename_instruction σ inst) = map σ (inst_defs inst).
Proof. unfold inst_defs at 1. by rewrite inst_defs_uses_rename. Qed.

(** Renaming twice is renaming by the composition. *)
Lemma rename_operand_compose σ τ op :
  rename_operand σ (rename_operand τ op) = rename_operand (fun x => σ (τ x)) op.
Proof. by destruct op. Qed.

Lemma map_rename_operand_compose σ τ ops :
  map (rename_operand σ) (map (rename_operand τ) ops)
  = map (rename_operand (fun x => σ (τ x))) ops.
Proof. rewrite map_map. apply map_ext, rename_operand_compose. Qed.

Lemma option_rename_operand_compose σ τ o :
  option_map (rename_operand σ) (option_map (rename_operand τ) o)
  = option_map (rename_operand (fun x => σ (τ x))) o.
Proof. destruct o; cbn; by rewrite ?rename_operand_compose. Qed.

#[export] Hint Rewrite rename_operand_compose map_rename_operand_compose
  option_rename_operand_compose : mir_rename.

Lemma rename_rvalue_compose σ τ rv :
  rename_rvalue σ (rename_rvalue τ rv) = rename_rvalue (fun x => σ (τ x)) rv.
Proof.
  induction rv; cbn; autorewrite with mir_rename; try congruence.
  - f_equal. rewrite map_map. apply map_ext. intros [? ?].
    by rewrite rename_operand_compose.
  - f_equal. rewrite map_map. apply map_ext. intros [? ?].
    by rewrite !rename_operand_compose.
Qed.

Lemma rename_instruction_compose σ τ inst :
  rename_instruction σ (rename_instruction τ inst)
  = rename_instruction (fun x => σ (τ x)) inst.
Proof.
  destruct inst; cbn; autorewrite with mir_rename;
    rewrite ?rename_rvalue_compose; reflexivity.
Qed.

(** Every instruction writes at most one local. *)
Lemma inst_defs_shape inst : inst_defs inst = [] \/ exists d, inst_defs inst = [d].
Proof. destruct inst; cbn; eauto. Qed.
