(* ===== verification/MirSem.v ===== *)
(** A value semantics for MIR, parameterised by an interface.

    [MirLang] is what the code generators and the runtime promise to the MIR
    optimiser: the meaning of every primitive r-value and instruction as a
    function of the instruction's shape (its text with the names of locals
    erased), of the values of the locals it reads and of the world (heap,
    channels, output).  That an instruction depends on nothing else is thereby
    part of the interface.  Executions that take the address of a local
    ([RV_AddrOf]) are outside the semantics and end in [Panic]. *)

From S2P Require Import Prelude MirIr MirUses.

(** An instruction's shape: the names of its locals erased. *)
Definition erase : LocalId -> LocalId := fun _ => 0%N.
Definition shape_rvalue (rv : RValue) : RValue := rename_rvalue erase rv.
Definition shape_inst (i : Instruction) : Instruction := rename_instruction erase i.

Class MirLang := {
  val : Type;
  world : Type;
  (** what a local reads before its first assignment (0 under Cranelift) *)
  undef_val : val;
  (** the value of a call whose callee returns nothing *)
  none_val : val;
  const_val : Constant -> val;
  (** a primitive r-value; [None] is a runtime panic or trap *)
  prim_rvalue : RValue -> list val -> world -> option (val * world);
  (** an instruction other than [I_Assign], with the value of its destination if it has one *)
  prim_effect : Instruction -> list val -> world -> option (val * world);
  (** the function an indirect or vtable call reaches, with its full arguments *)
  resolve_call : RValue -> list val -> world -> option (string * list val);
  (** a call of a function outside the module (runtime or builtin) *)
  extern_call : string -> list val -> world -> option (val * world);
  (** [brif] takes the first target *)
  branch_on : val -> bool;
  (** the integer a [Switch] compares with its cases *)
  switch_on : val -> Z
}.

Section Env.
Context `{MirLang}.

Definition env : Type := LocalId -> val.
Definition empty_env : env := fun _ => undef_val.
Definition upd (ρ : env) (x : LocalId) (v : val) : env :=
  fun y => if N.eqb y x then v else ρ y.

Definition operand_val (ρ : env) (op : Operand) : val :=
  match op with Op_Local x => ρ x | Op_Constant c => const_val c end.

Definition upd_defs (ρ : env) (defs : list LocalId) (v : val) : env :=
  foldr (fun x ρ => upd ρ x v) ρ defs.

Section Exec.
(** the meaning of a call of a named function *)
Context (callf : string -> list val -> world -> res (val * world)).

(** A [Comptime] wrapper has no meaning of its own at run time. *)
Fixpoint eval_rvalue (ρ : env) (w : world) (rv : RValue) : res (val * world) :=
  match rv with
  | RV_Comptime inner => eval_rvalue ρ w inner
  | RV_Call func args => callf func (map (operand_val ρ) args) w
  | RV_CallIndirect _ _ | RV_VtableCall _ _ _ _ =>
      '(func, args) ← of_option (resolve_call (shape_rvalue rv) (map ρ (rvalue_uses rv)) w);
      callf func args w
  | RV_AddrOf _ _ => Panic
  | _ => of_option (prim_rvalue (shape_rvalue rv) (map ρ (rvalue_uses rv)) w)
  end.

Definition exec_inst (i : Instruction) (ρ : env) (w : world) : res (env * world) :=
  match i with
  | I_Assign dest value =>
      '(v, w') ← eval_rvalue ρ w value;
      Done (upd ρ dest v, w')
  | _ =>
      '(v, w') ← of_option (prim_effect (shape_inst i) (map ρ (inst_uses i)) w);
      Done (upd_defs ρ (inst_defs i) v, w')
  end.

Fixpoint exec_insts (insts : list Instruction) (ρ : env) (w : world) : res (env * world) :=
  match insts with
  | [] => Done (ρ, w)
  | i :: rest => '(ρ', w') ← exec_inst i ρ w; exec_insts rest ρ' w'
  end.
End Exec.

(** Where a terminator goes: return a value, or enter a block. *)
Inductive next := Return_ (v : option val) | Jump (b : BlockId).

Fixpoint switch_target (k : Z) (targets : list (Z * BlockId)) (default : BlockId) : BlockId :=
  match targets with
  | [] => default
  | (c, b) :: rest => if Z.eqb k c then b else switch_target k rest default
  end.

Definition exec_term (t : Terminator) (ρ : env) : res next :=
  match t with
  | T_Return op => Done (Return_ (option_map (operand_val ρ) op))
  | T_Goto b => Done (Jump b)
  | T_Branch cond b1 b2 => Done (Jump (if branch_on (operand_val ρ cond) then b1 else b2))
  | T_Switch value targets default =>
      Done (Jump (switch_target (switch_on (operand_val ρ value)) targets default))
  | T_Unreachable => Panic
  end.

Definition find_block (f : MirFunction) (id : BlockId) : option BasicBlock :=
  find (fun b => N.eqb (bb_id b) id) (f_blocks f).

Definition find_function (fs : list MirFunction) (name : string) : option MirFunction :=
  find (fun f => String.eqb (f_name f) name) fs.

Fixpoint bind_params (ps : list LocalId) (vs : list val) (ρ : env) : env :=
  match ps, vs with
  | p :: ps', v :: vs' => bind_params ps' vs' (upd ρ p v)
  | _, _ => ρ
  end.

Definition param_ids (f : MirFunction) : list LocalId := map p_local (f_params f).

Definition entry_id (f : MirFunction) : option BlockId :=
  option_map bb_id (head (f_blocks f)).

(** [run fuel fs f id ρ w]: execute [f] from block [id]; [fuel] bounds the
    number of blocks entered on the deepest call path. *)
Fixpoint run (fuel : nat) (fs : list MirFunction) (f : MirFunction) (id : BlockId)
    (ρ : env) (w : world) : res (option val * world) :=
  match fuel with
  | O => OutOfFuel
  | S n =>
      let callf := fun name args w =>
        match find_function fs name with
        | Some g =>
            id0 ← of_option (entry_id g);
            '(r, w') ← run n fs g id0 (bind_params (param_ids g) args empty_env) w;
            Done (default none_val r, w')
        | None => of_option (extern_call name args w)
        end in
      b ← of_option (find_block f id);
      '(ρ', w') ← exec_insts callf (bb_instructions b) ρ w;
      nx ← exec_term (bb_terminator b) ρ';
      match nx with
      | Return_ v => Done (v, w')
      | Jump id' => run n fs f id' ρ' w'
      end
  end.

(** A call of a function of the module, or of an extern. *)
Definition call (fuel : nat) (fs : list MirFunction) (name : string) (args : list val)
    (w : world) : res (val * world) :=
  match find_function fs name with
  | Some g =>
      id0 ← of_option (entry_id g);
      '(r, w') ← run fuel fs g id0 (bind_params (param_ids g) args empty_env) w;
      Done (default none_val r, w')
  | None => of_option (extern_call name args w)
  end.

Lemma run_S n fs f id ρ w :
  run (S n) fs f id ρ w =
    (b ← of_option (find_block f id);
     '(ρ', w') ← exec_insts (call n fs) (bb_instructions b) ρ w;
     nx ← exec_term (bb_terminator b) ρ';
     match nx with
     | Return_ v => Done (v, w')
     | Jump id' => run n fs f id' ρ' w'
     end).
Proof. reflexivity. Qed.
End Env.

(* ------------------------------------------------------------------ *)
(** ** More fuel never changes a result                                *)
(* ------------------------------------------------------------------ *)

Section Fuel.
Context `{MirLang}.
Implicit Types (ρ : env) (w : world).

Definition call_le (c1 c2 : string -> list val -> world -> res (val * world)) : Prop :=
  forall name args w, res_le (c1 name args w) (c2 name args w).

Lemma eval_rvalue_le c1 c2 ρ w rv :
  call_le c1 c2 -> res_le (eval_rvalue c1 ρ w rv) (eval_rvalue c2 ρ w rv).
Proof.
  intros Hc. induction rv; cbn; try reflexivity; auto; try apply Hc.
  all: apply res_le_bind; [reflexivity|intros []; apply Hc].
Qed.

Lemma exec_inst_le c1 c2 i ρ w :
  call_le c1 c2 -> res_le (exec_inst c1 i ρ w) (exec_inst c2 i ρ w).
Proof.
  intros Hc. destruct i; cbn; try reflexivity.
  apply res_le_bind; [by apply eval_rvalue_le|]. intros [v w']. reflexivity.
Qed.

Lemma exec_insts_le c1 c2 insts ρ w :
  call_le c1 c2 -> res_le (exec_insts c1 insts ρ w) (exec_insts c2 insts ρ w).
Proof.
  intros Hc. revert ρ w. induction insts as [|i insts IH]; intros ρ w; cbn; [reflexivity|].
  apply res_le_bind; [by apply exec_inst_le|]. intros [ρ' w']. apply IH.
Qed.

Lemma call_mono n fs :
  (forall f id ρ w, res_le (run n fs f id ρ w) (run (S n) fs f id ρ w)) ->
  call_le (call n fs) (call (S n) fs).
Proof.
  intros Hr name args w. unfold call. destruct (find_function fs name) as [g|]; [|reflexivity].
  apply res_le_bind; [reflexivity|]. intros id0.
  apply res_le_bind; [apply Hr|]. intros [r w']. reflexivity.
Qed.

Lemma run_mono_S n fs f id ρ w : res_le (run n fs f id ρ w) (run (S n) fs f id ρ w).
Proof.
  revert f id ρ w. induction n as [|n IH]; intros f id ρ w; [by left|].
  rewrite (run_S (S n)), (run_S n).
  apply res_le_bind; [reflexivity|]. intros b.
  apply res_le_bind; [by apply exec_insts_le, call_mono|]. intros [ρ' w'].
  apply res_le_bind; [reflexivity|]. intros [v|id']; [reflexivity|apply IH].
Qed.

Lemma run_mono n m fs f id ρ w :
  (n <= m)%nat -> res_le (run n fs f id ρ w) (run m fs f id ρ w).
Proof.
  induction 1 as [|m Hle IH]; [reflexivity|].
  destruct IH as [IH|IH]; [by left|]. rewrite IH. apply run_mono_S.
Qed.

Lemma run_more n m fs f id ρ w r :
  (n <= m)%nat -> run n fs f id ρ w = r -> r <> OutOfFuel -> run m fs f id ρ w = r.
Proof.
  intros Hle <- Hr. eapply res_le_Done; [by apply run_mono|done].
Qed.

Lemma call_more n m fs name args w r :
  (n <= m)%nat -> call n fs name args w = r -> r <> OutOfFuel ->
  call m fs name args w = r.
Proof.
  unfold call. intros Hle <- Hr. destruct (find_function fs name) as [g|]; [|done].
  destruct (entry_id g) as [id0|]; [|done]. cbn in *.
  rewrite (run_more n m _ _ _ _ _ _ Hle eq_refl); [done|].
  intros He. by rewrite He in Hr.
Qed.

(** The result of running a function, whatever the fuel. *)
Definition run_result (fs : list MirFunction) (f : MirFunction) (id : BlockId)
    (ρ : env) (w : world) (r : res (option val * world)) : Prop :=
  r <> OutOfFuel /\ exists n, run n fs f id ρ w = r.

Lemma run_result_det fs f id ρ w r1 r2 :
  run_result fs f id ρ w r1 -> run_result fs f id ρ w r2 -> r1 = r2.
Proof.
  intros [Hr1 [n1 H1]] [Hr2 [n2 H2]].
  rewrite <-(run_more n1 (max n1 n2) _ _ _ _ _ _ ltac:(lia) H1 Hr1).
  by rewrite (run_more n2 (max n1 n2) _ _ _ _ _ _ ltac:(lia) H2 Hr2).
Qed.
End Fuel.

(* ------------------------------------------------------------------ *)
(** ** Agreement of environments on a set of locals                    *)
(* ------------------------------------------------------------------ *)

Section Agree.
Context `{MirLang}.
Implicit Types (ρ : env) (w : world) (S T : LocalId -> Prop).

Definition agree (P : LocalId -> Prop) (ρ1 ρ2 : env) : Prop := forall x, P x -> ρ1 x = ρ2 x.

Lemma agree_mono (P Q : LocalId -> Prop) ρ1 ρ2 :
  (forall x, P x -> Q x) -> agree Q ρ1 ρ2 -> agree P ρ1 ρ2.
Proof. unfold agree. auto. Qed.

Lemma upd_eq ρ x v : upd ρ x v x = v.
Proof. unfold upd. by rewrite N.eqb_refl. Qed.

Lemma upd_ne ρ x y v : x <> y -> upd ρ x v y = ρ y.
Proof. intros Hne. unfold upd. destruct (N.eqb_spec y x); congruence. Qed.

Lemma agree_upd (P : LocalId -> Prop) ρ1 ρ2 x v :
  agree (fun y => P y /\ y <> x) ρ1 ρ2 -> agree P (upd ρ1 x v) (upd ρ2 x v).
Proof.
  intros Ha y Hy. unfold upd. destruct (N.eqb_spec y x) as [->|Hne]; [done|auto].
Qed.

Lemma agree_upd_dead (P : LocalId -> Prop) ρ1 ρ2 x v :
  agree P ρ1 ρ2 -> ~ P x -> agree P (upd ρ1 x v) ρ2.
Proof.
  intros Ha Hx y Hy. unfold upd. destruct (N.eqb_spec y x) as [->|Hne]; [done|auto].
Qed.

Lemma map_agree (P : LocalId -> Prop) ρ1 ρ2 xs :
  agree P ρ1 ρ2 -> (forall x, In x xs -> P x) -> map ρ1 xs = map ρ2 xs.
Proof. intros Ha Hxs. apply map_ext_in. auto. Qed.

Lemma operand_val_agree (P : LocalId -> Prop) ρ1 ρ2 op :
  agree P ρ1 ρ2 -> (forall x, In x (operand_uses op) -> P x) ->
  operand_val ρ1 op = operand_val ρ2 op.
Proof. intros Ha Hop. destruct op; cbn in *; [apply Ha; auto|done]. Qed.

Lemma operands_val_agree (P : LocalId -> Prop) ρ1 ρ2 ops :
  agree P ρ1 ρ2 -> (forall x, In x (operands_uses ops) -> P x) ->
  map (operand_val ρ1) ops = map (operand_val ρ2) ops.
Proof.
  intros Ha Hops. apply map_ext_in. intros op Hin.
  eapply operand_val_agree; [done|]. intros x Hx. apply Hops.
  apply in_flat_map. eauto.
Qed.

Section WithCall.
Context (callf : string -> list val -> world -> res (val * world)).

Lemma eval_rvalue_agree (P : LocalId -> Prop) ρ1 ρ2 w rv :
  agree P ρ1 ρ2 -> (forall x, In x (rvalue_uses rv) -> P x) ->
  eval_rvalue callf ρ1 w rv = eval_rvalue callf ρ2 w rv.
Proof.
  intros Ha Hrv. induction rv; cbn [eval_rvalue]; auto;
    try (by rewrite (map_agree P ρ1 ρ2)).
  by rewrite (operands_val_agree P ρ1 ρ2).
Qed.
End WithCall.
End Agree.

(* ------------------------------------------------------------------ *)
(** ** Sequences of copies and the binding of parameters               *)
(* ------------------------------------------------------------------ *)

(** The interface of a plain copy; a [@copy] aggregate counts as its value. *)
Class CopyUse (M : MirLang) :=
  use_copies (ρ : env) w o :
    prim_rvalue (shape_rvalue (RV_Use o)) (map ρ (rvalue_uses (RV_Use o))) w
      = Some (operand_val ρ o, w).

Definition assign_use (dest : LocalId) (op : Operand) : Instruction := I_Assign dest (RV_Use op).

Lemma exec_insts_app `{MirLang} callf l1 l2 (ρ : env) w :
  exec_insts callf (l1 ++ l2) ρ w
  = ('(ρ', w') ← exec_insts callf l1 ρ w; exec_insts callf l2 ρ' w').
Proof.
  revert ρ w. induction l1 as [|i l1 IH]; intros ρ w; cbn; [done|].
  destruct (exec_inst callf i ρ w) as [[ρ' w']| |]; cbn; auto.
Qed.

Section Copies.
Context {M : MirLang} {CU : CopyUse M}.
Implicit Types (ρ : env) (w : world).

Lemma bind_params_other ps vs ρ x : x ∉ ps -> bind_params ps vs ρ x = ρ x.
Proof.
  revert vs ρ. induction ps as [|p ps IH]; intros vs ρ Hx; destruct vs as [|v vs]; cbn; try done.
  apply not_elem_of_cons in Hx as [Hne Hx]. rewrite IH by done. by rewrite upd_ne.
Qed.

Lemma bind_params_ext ps vs ρ1 ρ2 x :
  (forall y, ρ1 y = ρ2 y) -> bind_params ps vs ρ1 x = bind_params ps vs ρ2 x.
Proof.
  revert vs ρ1 ρ2. induction ps as [|p ps IH]; intros vs ρ1 ρ2 He; destruct vs as [|v vs]; cbn; try done.
  apply IH. intros y. unfold upd. by destruct (N.eqb _ _).
Qed.

Lemma bind_params_agree ps vs ρ1 ρ2 :
  length vs = length ps -> agree (fun x => x ∈ ps) (bind_params ps vs ρ1) (bind_params ps vs ρ2).
Proof.
  intros Hl x Hx. revert vs ρ1 ρ2 Hl. induction ps as [|p ps IH]; intros vs ρ1 ρ2 Hl; [set_solver|].
  destruct vs as [|v vs]; [done|]. cbn. destruct (decide (x ∈ ps)) as [Hin|Hin].
  - apply IH; [done|]. by injection Hl.
  - rewrite !bind_params_other by done. apply elem_of_cons in Hx as [->|]; [|done].
    by rewrite !upd_eq.
Qed.

Lemma bind_params_values ps vs ρ :
  NoDup ps -> length vs = length ps -> map (bind_params ps vs ρ) ps = vs.
Proof.
  revert vs ρ. induction ps as [|p ps IH]; intros vs ρ Hnd Hl; destruct vs as [|v vs]; try done.
  apply NoDup_cons in Hnd as [Hp Hnd]. cbn. rewrite bind_params_other, upd_eq by done.
  f_equal. apply IH; [done|]. by injection Hl.
Qed.

(** A sequence of copies whose destinations none of them reads is parallel. *)
Lemma exec_copies callf dests ops ρ w :
  length ops = length dests -> (forall d, d ∈ dests -> d ∉ operands_uses ops) ->
  exec_insts callf (zip_with assign_use dests ops) ρ w
  = Done (bind_params dests (map (operand_val ρ) ops) ρ, w).
Proof.
  revert ops ρ. induction dests as [|d dests IH]; intros ops ρ Hl Hd;
    destruct ops as [|o ops]; try done.
  assert (Hfresh : forall y, d ∉ operand_uses y -> forall v, operand_val (upd ρ d v) y = operand_val ρ y).
  { intros [y|c] Hy v; [|done]. unfold operand_val. apply upd_ne. intros ->. apply Hy. by left. }
  cbn [zip_with exec_insts exec_inst eval_rvalue assign_use].
  rewrite use_copies. cbn. rewrite IH.
  - do 2 f_equal. f_equal. apply map_ext_in. intros y Hy. apply Hfresh. intros Hin.
    apply (Hd d); [by left|]. cbn. apply elem_of_app. right. unfold operands_uses.
    apply list_elem_of_In, in_flat_map. exists y. split; [done|by apply list_elem_of_In].
  - by injection Hl.
  - intros x Hx Hin. apply (Hd x); [by right|]. cbn. apply elem_of_app. by right.
Qed.
End Copies.

(* ------------------------------------------------------------------ *)
(** ** Passes that rewrite assigned values                             *)
(* ------------------------------------------------------------------ *)

Lemma res_le_antisym {A} (m1 m2 : res A) : res_le m1 m2 -> res_le m2 m1 -> m1 = m2.
Proof. intros [?|?] [?|?]; congruence. Qed.

Section Ext.
Context `{MirLang}.
Implicit Types (ρ : env) (w : world).

Lemma exec_insts_ext c1 c2 insts ρ w :
  (forall name args w, c1 name args w = c2 name args w) ->
  exec_insts c1 insts ρ w = exec_insts c2 insts ρ w.
Proof.
  intros Hc. apply res_le_antisym; apply exec_insts_le; intros name args w'; by rewrite Hc.
Qed.

(** The r-values a function assigns. *)
Definition inst_rvalues (i : Instruction) : list RValue :=
  match i with I_Assign _ value => [value] | _ => [] end.
Definition block_rvalues (b : BasicBlock) : list RValue :=
  flat_map inst_rvalues (bb_instructions b).
Definition fun_rvalues (f : MirFunction) : list RValue := flat_map block_rvalues (f_blocks f).
End Ext.

Lemma entry_head f id :
  entry_id f = Some id -> exists b bs, f_blocks f = b :: bs /\ bb_id b = id.
Proof. unfold entry_id. destruct (f_blocks f) as [|b bs]; naive_solver. Qed.

Lemma find_block_In f id b : find_block f id = Some b -> In b (f_blocks f) /\ bb_id b = id.
Proof. intros [Hin He%N.eqb_eq]%find_some. done. Qed.

Lemma exec_term_jump `{MirLang} t (ρ : env) id : exec_term t ρ = Done (Jump id) -> In id (term_successors t).
Proof.
  destruct t as [| |c b1 b2|v targets default|]; cbn; intros [= <-]; auto.
  - destruct (branch_on _); auto.
  - generalize (switch_on (operand_val ρ v)) as k. intros k.
    induction targets as [|[c b] targets IH]; cbn; [auto|].
    destruct (Z.eqb k c); auto.
Qed.

(** Blocks rewritten one by one keep their ids. *)
Lemma find_block_Forall2 (P : BasicBlock -> BasicBlock -> Prop) f f' id :
  (forall b b', P b b' -> bb_id b' = bb_id b) -> Forall2 P (f_blocks f) (f_blocks f') ->
  match find_block f id, find_block f' id with
  | Some b, Some b' => P b b'
  | None, None => True
  | _, _ => False
  end.
Proof.
  intros Hid HF. unfold find_block. induction HF as [|b b' bs bs' Hb Hbs IH]; cbn; [done|].
  rewrite (Hid _ _ Hb). by destruct (N.eqb _ _).
Qed.

Lemma entry_id_Forall2 (P : BasicBlock -> BasicBlock -> Prop) f f' :
  (forall b b', P b b' -> bb_id b' = bb_id b) -> Forall2 P (f_blocks f) (f_blocks f') ->
  entry_id f' = entry_id f.
Proof. intros Hid HF. unfold entry_id. destruct HF; cbn; [done|]. f_equal. by apply Hid. Qed.

Section AgreeExec.
Context `{MirLang} (P : LocalId -> Prop).
Implicit Types (ρ : env) (w : world).

Lemma agree_upd_same ρ1 ρ2 ds v :
  agree P ρ1 ρ2 -> agree P (upd_defs ρ1 ds v) (upd_defs ρ2 ds v).
Proof.
  intros Ha. unfold upd_defs. induction ds as [|d ds IH]; cbn; [done|].
  apply agree_upd. intros x [Hx _]. by apply IH.
Qed.

Lemma exec_inst_agree_on callf i ρ1 ρ2 w :
  agree P ρ1 ρ2 -> (forall x, In x (inst_uses i) -> P x) ->
  res_rel (fun p q => agree P (fst p) (fst q) /\ snd p = snd q)
    (exec_inst callf i ρ1 w) (exec_inst callf i ρ2 w).
Proof.
  intros Ha Hu.
  assert (Hupd : forall v, agree P (upd_defs ρ1 (inst_defs i) v) (upd_defs ρ2 (inst_defs i) v))
    by (intros v; by apply agree_upd_same).
  destruct i; unfold exec_inst; try rewrite (map_agree _ ρ1 ρ2 _ Ha Hu);
    [rewrite (eval_rvalue_agree callf _ ρ1 ρ2 w value Ha Hu)|..];
    (apply res_rel_bind with (R := eq); [by apply res_rel_eq|]);
    intros [v w'] _ <-; (split; [apply (Hupd v)|done]).
Qed.

Lemma exec_term_agree_on t ρ1 ρ2 :
  agree P ρ1 ρ2 -> (forall x, In x (term_uses t) -> P x) -> exec_term t ρ1 = exec_term t ρ2.
Proof.
  intros Ha Hu.
  assert (Hop : forall op, term_operand t = Some op -> operand_val ρ1 op = operand_val ρ2 op).
  { intros op Ht. eapply operand_val_agree; [done|]. intros x Hx.
    apply Hu. unfold term_uses. by rewrite Ht. }
  destruct t as [[op|]| | | |]; cbn in *; try done; by rewrite Hop.
Qed.
End AgreeExec.
