(* ===== verification/Passes.v ===== *)
(** How a pass that rewrites functions one by one acts on whole programs.

    [frun] is [MirSem.run] with the meaning of calls left open, so that a pass
    is verified one function at a time, against any meaning of calls;
    [call_pass] assembles the module. [ResOrder] is the interface between the
    two: what it means for the outcome of the rewritten program to be allowed
    by the original one (equality, equality up to fuel, or preservation of
    normal results). *)

From S2P Require Import Prelude MirIr MirUses MirSem.

Class ResOrder (R : forall A, relation (res A)) := {
  res_order_pre A :: PreOrder (R A);
  res_order_bind A B (m1 m2 : res A) (f g : A -> res B) :
    R A m1 m2 -> (forall a, R B (f a) (g a)) -> R B (m1 ≫= f) (m2 ≫= g)
}.

#[export] Instance eq_order : ResOrder (fun A => @eq (res A)).
Proof.
  split; [apply _|]. intros A B m1 m2 f g -> Hf. destruct m2; cbn; auto.
Qed.

(** Every normal result of [m1] is the result of [m2]. *)
Definition done_le {A} (m1 m2 : res A) : Prop := forall a, m1 = Done a -> m2 = Done a.

#[export] Instance res_le_order : ResOrder (@res_le).
Proof.
  split.
  - intros A. split; [apply _|]. intros m1 m2 m3 [->| ->] H2; [by left|done].
  - intros A B m1 m2 f g. apply res_le_bind.
Qed.

#[export] Instance done_le_order : ResOrder (@done_le).
Proof.
  split.
  - intros A. split; [by intros m a|]. intros m1 m2 m3 H1 H2 a Ha. by apply H2, H1.
  - intros A B m1 m2 f g Hm Hf b. rewrite !res_bind_Done. intros (a & Ha & Hb).
    exists a. split; [by apply Hm|by apply Hf].
Qed.

Section Frun.
Context `{MirLang}.
Implicit Types (ρ : env) (w : world).

Definition callf : Type := string -> list val -> world -> res (val * world).

Fixpoint frun (c : nat -> callf) (n : nat) (f : MirFunction) (id : BlockId) ρ w
  : res (option val * world) :=
  match n with
  | O => OutOfFuel
  | S n =>
      b ← of_option (find_block f id);
      '(ρ', w') ← exec_insts (c n) (bb_instructions b) ρ w;
      nx ← exec_term (bb_terminator b) ρ';
      match nx with
      | Return_ v => Done (v, w')
      | Jump id' => frun c n f id' ρ' w'
      end
  end.

Definition fcall (c : nat -> callf) (n : nat) (f : MirFunction) (args : list val) w
  : res (val * world) :=
  id0 ← of_option (entry_id f);
  '(r, w') ← frun c n f id0 (bind_params (param_ids f) args empty_env) w;
  Done (default none_val r, w').

(** The meaning of calls in a module. *)
Definition calls (fs : list MirFunction) : nat -> callf := fun k => call k fs.

Lemma frun_run fs n f id ρ w : run n fs f id ρ w = frun (calls fs) n f id ρ w.
Proof.
  revert id ρ w. induction n as [|n IH]; intros id ρ w; [done|].
  rewrite run_S. cbn [frun]. destruct (of_option (find_block f id)) as [b| |]; cbn; [|done..].
  fold (calls fs n). destruct (exec_insts _ _ ρ w) as [[ρ' w']| |]; cbn; [|done..].
  destruct (exec_term _ ρ') as [[v|id']| |]; cbn; auto.
Qed.

Lemma call_fcall fs n name args w :
  call n fs name args w =
    match find_function fs name with
    | Some f => fcall (calls fs) n f args w
    | None => of_option (extern_call name args w)
    end.
Proof.
  unfold call, fcall. destruct (find_function fs name) as [f|]; [|done].
  destruct (entry_id f) as [id0|]; cbn; [|done]. by rewrite frun_run.
Qed.

Section Order.
Context (R : forall A, relation (res A)) {RO : ResOrder R}.

Lemma exec_insts_order (c1 c2 : callf) insts ρ w :
  (forall name args w, R _ (c1 name args w) (c2 name args w)) ->
  R _ (exec_insts c1 insts ρ w) (exec_insts c2 insts ρ w).
Proof.
  intros Hc.
  assert (Hrv : forall ρ w rv, R _ (eval_rvalue c1 ρ w rv) (eval_rvalue c2 ρ w rv)).
  { intros ρ1 w1 rv. induction rv; cbn; try reflexivity; auto.
    all: apply res_order_bind; [reflexivity|intros []; apply Hc]. }
  revert ρ w. induction insts as [|i insts IH]; intros ρ w; [reflexivity|].
  cbn. apply res_order_bind; [|by intros []].
  destruct i; try reflexivity.
  cbn. apply res_order_bind; [apply Hrv|intros []; reflexivity].
Qed.

Lemma frun_order (c1 c2 : nat -> callf) n f id ρ w :
  (forall k name args w, (k < n)%nat -> R _ (c1 k name args w) (c2 k name args w)) ->
  R _ (frun c1 n f id ρ w) (frun c2 n f id ρ w).
Proof.
  revert id ρ w. induction n as [|n IH]; intros id ρ w Hc; [reflexivity|].
  cbn [frun]. apply res_order_bind; [reflexivity|]. intros b.
  apply res_order_bind; [apply exec_insts_order; intros; apply Hc; lia|]. intros [ρ' w'].
  apply res_order_bind; [reflexivity|]. intros [v|id']; [reflexivity|].
  apply IH. intros; apply Hc; lia.
Qed.

Lemma fcall_order (c1 c2 : nat -> callf) n f args w :
  (forall k name args w, (k < n)%nat -> R _ (c1 k name args w) (c2 k name args w)) ->
  R _ (fcall c1 n f args w) (fcall c2 n f args w).
Proof.
  intros Hc. unfold fcall. apply res_order_bind; [reflexivity|]. intros id0.
  apply res_order_bind; [by apply frun_order|]. intros [r w']. reflexivity.
Qed.

(** [f'] may stand for [f] where calls mean [c]. *)
Definition fun_refined (c : nat -> callf) (f f' : MirFunction) : Prop :=
  f_name f' = f_name f /\
  forall n args w, R _ (fcall c n f args w) (fcall c n f' args w).

Lemma find_function_Forall2 (P : MirFunction -> MirFunction -> Prop) fs fs' name :
  (forall f f', P f f' -> f_name f' = f_name f) -> Forall2 P fs fs' ->
  match find_function fs name, find_function fs' name with
  | Some f, Some f' => P f f'
  | None, None => True
  | _, _ => False
  end.
Proof.
  intros Hname HF. induction HF as [|f f' fs fs' HP HF IH]; cbn; [done|].
  rewrite (Hname _ _ HP). by destruct (String.eqb _ _).
Qed.

Lemma call_pass fs fs' n name args w :
  Forall2 (fun_refined (calls fs)) fs fs' ->
  R _ (call n fs name args w) (call n fs' name args w).
Proof.
  intros HF. revert name args w. induction (lt_wf n) as [n _ IH]. intros name args w.
  rewrite !call_fcall.
  pose proof (find_function_Forall2 (fun_refined (calls fs)) fs fs' name
    (fun f f' H => proj1 H) HF) as Hf.
  destruct (find_function fs name) as [f|], (find_function fs' name) as [f'|]; try done.
  destruct Hf as [_ Hf]. etrans; [apply Hf|].
  apply fcall_order. intros k name' args' w' Hk. by apply (IH k).
Qed.
End Order.
End Frun.

(** Function names identify functions. *)
Definition names_unique (fs : list MirFunction) : bool := bool_decide (NoDup (map f_name fs)).

Lemma find_function_unique fs f :
  names_unique fs = true -> In f fs -> find_function fs (f_name f) = Some f.
Proof.
  unfold names_unique. rewrite bool_decide_eq_true. unfold find_function.
  induction fs as [|g fs IH]; [done|]. cbn. intros [Hg Hnd]%NoDup_cons [->|Hf].
  - by rewrite String.eqb_refl.
  - destruct (String.eqb_spec (f_name g) (f_name f)) as [He|_]; [|by apply IH].
    destruct Hg. rewrite He. by apply list_elem_of_In, in_map.
Qed.
