(* ===== verification/Backend.v ===== *)
(** The scalar part of the Cranelift backend: the lowering of MIR binary and
    unary operators ([kryos-codegen-cranelift/src/codegen.rs], the [BinOp] and
    [UnOp] arms of [translate_rvalue], [translate_binop*], [translate_unop])
    with the runtime functions it calls ([kryos-rt/src/builtins.rs]:
    [kryos_ipow], [kryos_check_sdiv_i64]).

    Cranelift itself is a third-party library: [ClifOps] names the instructions
    the lowering emits, [ClifLaws] states their documented meaning on 64-bit
    registers (an [I64] register is read as a signed integer). *)

From Stdlib Require Import SpecFloat.
From S2P Require Import Prelude Machine MirIr.

Class ClifOps := {
  iadd : Z -> Z -> Z;
  isub : Z -> Z -> Z;
  imul : Z -> Z -> Z;
  sdiv : Z -> Z -> Z;
  srem : Z -> Z -> Z;
  band : Z -> Z -> Z;
  bor : Z -> Z -> Z;
  bxor : Z -> Z -> Z;
  ishl : Z -> Z -> Z;
  sshr : Z -> Z -> Z;
  ineg : Z -> Z;
  bnot : Z -> Z;
  fadd : spec_float -> spec_float -> spec_float;
  fsub : spec_float -> spec_float -> spec_float;
  fmul : spec_float -> spec_float -> spec_float;
  fdiv : spec_float -> spec_float -> spec_float;
  fneg : spec_float -> spec_float
}.

(** The documented meaning, on in-range operands. *)
Class ClifLaws (C : ClifOps) := {
  iadd_wraps a b : iadd a b = wrap64 (a + b);
  isub_wraps a b : isub a b = wrap64 (a - b);
  imul_wraps a b : imul a b = wrap64 (a * b);
  (* the trapping cases are excluded by the check emitted before the division *)
  sdiv_truncates a b : b <> 0 -> ~ (a = i64_min /\ b = -1) -> sdiv a b = Z.quot a b;
  srem_truncates a b : b <> 0 -> ~ (a = i64_min /\ b = -1) -> srem a b = Z.rem a b;
  band_land a b : band a b = Z.land a b;
  bor_lor a b : bor a b = Z.lor a b;
  bxor_lxor a b : bxor a b = Z.lxor a b;
  (* the shift amount is taken modulo the register width *)
  ishl_masks a b : ishl a b = wrap64 (Z.shiftl a (b mod 64));
  sshr_masks a b : sshr a b = Z.shiftr a (b mod 64);
  ineg_wraps a : ineg a = wrap64 (- a);
  bnot_lnot a : bnot a = Z.lnot a;
  fadd_ieee a b : fadd a b = f64_add a b;
  fsub_ieee a b : fsub a b = f64_sub a b;
  fmul_ieee a b : fmul a b = f64_mul a b;
  fdiv_ieee a b : fdiv a b = f64_div a b;
  fneg_ieee a : fneg a = SFopp a
}.

(* ------------------------------------------------------------------ *)
(** ** Runtime functions                                               *)
(* ------------------------------------------------------------------ *)

(** The loop of [kryos_ipow]; [e] is a [u64], so 64 iterations always suffice. *)
Fixpoint ipow_loop (fuel : nat) (result b e : Z) : option Z :=
  if e >? 0 then
    match fuel with
    | O => None
    | S fuel' =>
        let result := if Z.land e 1 =? 1 then wrap64 (result * b) else result in
        ipow_loop fuel' result (wrap64 (b * b)) (Z.shiftr e 1)
    end
  else Some result.

Definition kryos_ipow (base exp : Z) : option Z :=
  if exp <? 0 then
    Some (if base =? 1 then 1
          else if base =? -1 then (if Z.rem exp 2 =? 0 then 1 else -1)
          else 0)
  else ipow_loop 64 1 base (as_u64 exp).

(** [true] when [kryos_check_sdiv_i64] returns, [false] when it panics. *)
Definition kryos_check_sdiv_i64 (dividend divisor bits : Z) : bool :=
  if divisor =? 0 then false
  else
    let min :=
      if bits =? 8 then - 2 ^ 7
      else if bits =? 16 then - 2 ^ 15
      else if bits =? 32 then - 2 ^ 31
      else i64_min in
    negb ((divisor =? -1) && (dividend =? min)).

(* ------------------------------------------------------------------ *)
(** ** Operators on registers                                          *)
(* ------------------------------------------------------------------ *)

(** The contents of the registers the scalar MIR types live in: [I64], [I8]
    holding a boolean, [F64]; and a string handle, read as the string. *)
Inductive scalar :=
| S_I64 (z : Z)
| S_Bool (b : bool)
| S_F64 (x : spec_float)
| S_Str (s : string).

#[export] Instance scalar_eq_dec : EqDecision scalar.
Proof. solve_decision. Defined.

Definition scalar_ok (s : scalar) : bool :=
  match s with S_I64 z => in_i64 z | _ => true end.

Section Lowering.
Context `{C : ClifOps}.

(** Signed [I64] operands; [None] is a trap or a lowering error. *)
Definition translate_binop_int (checked_arithmetic : bool) (op : MirBinOp) (lhs rhs : Z)
  : option scalar :=
  let overflowing exact wrapped :=
    if checked_arithmetic && negb (in_i64 exact) then None else Some (S_I64 wrapped) in
  match op with
  | Bin_Add => overflowing (lhs + rhs) (iadd lhs rhs)
  | Bin_Sub => overflowing (lhs - rhs) (isub lhs rhs)
  | Bin_Mul => overflowing (lhs * rhs) (imul lhs rhs)
  | Bin_Div => Some (S_I64 (sdiv lhs rhs))
  | Bin_Mod => Some (S_I64 (srem lhs rhs))
  | Bin_Pow => None
  | Bin_Eq => Some (S_Bool (lhs =? rhs))
  | Bin_Neq => Some (S_Bool (negb (lhs =? rhs)))
  | Bin_Lt => Some (S_Bool (lhs <? rhs))
  | Bin_Gt => Some (S_Bool (lhs >? rhs))
  | Bin_LtEq => Some (S_Bool (lhs <=? rhs))
  | Bin_GtEq => Some (S_Bool (lhs >=? rhs))
  | Bin_And | Bin_BitAnd => Some (S_I64 (band lhs rhs))
  | Bin_Or | Bin_BitOr => Some (S_I64 (bor lhs rhs))
  | Bin_BitXor => Some (S_I64 (bxor lhs rhs))
  | Bin_Shl => Some (S_I64 (ishl lhs rhs))
  | Bin_Shr => Some (S_I64 (sshr lhs rhs))
  end.

Definition translate_binop_float (op : MirBinOp) (lhs rhs : spec_float) : option scalar :=
  match op with
  | Bin_Add => Some (S_F64 (fadd lhs rhs))
  | Bin_Sub => Some (S_F64 (fsub lhs rhs))
  | Bin_Mul => Some (S_F64 (fmul lhs rhs))
  | Bin_Div => Some (S_F64 (fdiv lhs rhs))
  | Bin_Eq => Some (S_Bool (SFeqb lhs rhs))
  | Bin_Neq => Some (S_Bool (negb (SFeqb lhs rhs)))
  | Bin_Lt => Some (S_Bool (SFltb lhs rhs))
  | Bin_Gt => Some (S_Bool (SFltb rhs lhs))
  | Bin_LtEq => Some (S_Bool (SFleb lhs rhs))
  | Bin_GtEq => Some (S_Bool (SFleb rhs lhs))
  | _ => None
  end.

(** The [BinOp] arm on operands of one scalar type: strings go to the runtime,
    [**] to [kryos_ipow], [/] and [%] are preceded by their check. Mixed
    operands, float [**] and [%] (calls into libm) and comparisons of strings
    are outside this model and give [None]. *)
Definition binop_value (checked_arithmetic : bool) (op : MirBinOp) (lhs rhs : scalar)
  : option scalar :=
  match lhs, rhs with
  | S_Str a, S_Str b =>
      match op with Bin_Add => Some (S_Str (a ++ b)) | _ => None end
  | S_F64 a, S_F64 b => translate_binop_float op a b
  | S_Bool a, S_Bool b =>
      match op with
      | Bin_And | Bin_BitAnd => Some (S_Bool (a && b))
      | Bin_Or | Bin_BitOr => Some (S_Bool (a || b))
      | Bin_BitXor => Some (S_Bool (xorb a b))
      | Bin_Eq => Some (S_Bool (Bool.eqb a b))
      | Bin_Neq => Some (S_Bool (negb (Bool.eqb a b)))
      | _ => None
      end
  | S_I64 a, S_I64 b =>
      match op with
      | Bin_Pow => option_map S_I64 (kryos_ipow a b)
      | Bin_Div | Bin_Mod =>
          if kryos_check_sdiv_i64 a b 64
          then translate_binop_int checked_arithmetic op a b else None
      | _ => translate_binop_int checked_arithmetic op a b
      end
  | _, _ => None
  end.

Definition translate_unop (op : MirUnOp) (v : scalar) : option scalar :=
  match op, v with
  | Un_Neg, S_F64 x => Some (S_F64 (fneg x))
  | Un_Neg, S_I64 z => Some (S_I64 (ineg z))
  | Un_Not, S_Bool b => Some (S_Bool (negb b))
  | Un_Not, S_I64 z => Some (S_Bool (z =? 0))
  | Un_BitNot, S_I64 z => Some (S_I64 (bnot z))
  | _, _ => None
  end.
End Lowering.

(** The register an inline constant is materialised in. *)
Definition constant_scalar (c : Constant) : scalar :=
  match c with
  | C_Int n => S_I64 n
  | C_Float x => S_F64 x
  | C_Bool b => S_Bool b
  | C_Str s => S_Str s
  | C_None => S_I64 0
  end.

(** The instance that computes the documented meaning. *)
Definition clif_i64 : ClifOps := {|
  iadd a b := wrap64 (a + b);
  isub a b := wrap64 (a - b);
  imul a b := wrap64 (a * b);
  sdiv a b := Z.quot a b;
  srem a b := Z.rem a b;
  band := Z.land;
  bor := Z.lor;
  bxor := Z.lxor;
  ishl a b := wrap64 (Z.shiftl a (b mod 64));
  sshr a b := Z.shiftr a (b mod 64);
  ineg a := wrap64 (- a);
  bnot := Z.lnot;
  fadd := f64_add;
  fsub := f64_sub;
  fmul := f64_mul;
  fdiv := f64_div;
  fneg := SFopp
|}.

Lemma clif_i64_laws : ClifLaws clif_i64.
Proof. by split. Qed.
#[export] Existing Instance clif_i64_laws.

(* ------------------------------------------------------------------ *)
(** ** [kryos_ipow] is modular exponentiation                          *)
(* ------------------------------------------------------------------ *)

Lemma land_1_odd e : (Z.land e 1 =? 1) = Z.odd e.
Proof.
  replace (Z.land e 1) with (e mod 2) by (symmetry; apply (Z.land_ones e 1); lia).
  rewrite Zmod_odd. by destruct (Z.odd e).
Qed.

Lemma pow_halve b e :
  0 <= e -> b ^ e = (if Z.odd e then b else 1) * (b * b) ^ (Z.shiftr e 1).
Proof.
  intros He. rewrite Z.shiftr_div_pow2 by lia. change (2 ^ 1) with 2.
  assert (H2 : 0 <= e / 2) by (apply Z.div_pos; lia).
  rewrite (Z.pow_mul_l b b), <-Z.pow_add_r by done.
  pose proof (Z_div_mod_eq_full e 2) as Heq. rewrite Zmod_odd in Heq.
  destruct (Z.odd e).
  - replace (b ^ e) with (b ^ (1 + (e / 2 + e / 2))) by (f_equal; lia).
    rewrite Z.pow_add_r by lia. by rewrite Z.pow_1_r.
  - rewrite Z.mul_1_l. f_equal. lia.
Qed.

Lemma ipow_loop_spec fuel result b e :
  0 <= e < 2 ^ Z.of_nat fuel ->
  ipow_loop fuel (wrap64 result) b e = Some (wrap64 (result * b ^ e)).
Proof.
  revert result b e. induction fuel as [|fuel IH]; intros result b e He.
  - assert (e = 0) as -> by (change (2 ^ Z.of_nat 0) with 1 in He; lia).
    cbn. by rewrite Z.mul_1_r.
  - cbn [ipow_loop]. destruct (Z.gtb_spec e 0) as [Hpos|Hnp].
    + assert (Hs : 0 <= Z.shiftr e 1 < 2 ^ Z.of_nat fuel).
      { rewrite Z.shiftr_div_pow2 by lia. change (2 ^ 1) with 2.
        rewrite Nat2Z.inj_succ, Z.pow_succ_r in He by lia.
        split; [apply Z.div_pos; lia|apply Z.div_lt_upper_bound; lia]. }
      rewrite land_1_odd, (pow_halve b e) by lia.
      assert (Hb : forall r, wrap64 (r * wrap64 (b * b) ^ Z.shiftr e 1)
                           = wrap64 (r * (b * b) ^ Z.shiftr e 1)).
      { intros r. apply wrap64_eqm. rewrite <-Zmult_mod_idemp_r.
        rewrite <-(Z.mod_pow_l (wrap64 (b * b))), wrap64_mod, Z.mod_pow_l.
        apply Zmult_mod_idemp_r. }
      destruct (Z.odd e).
      * rewrite wrap64_mul_l, IH, Hb by done. f_equal. f_equal. ring.
      * rewrite IH, Hb by done. by rewrite Z.mul_1_l.
    + assert (e = 0) as -> by lia. by rewrite Z.pow_0_r, Z.mul_1_r.
Qed.

Lemma kryos_ipow_nonneg base exp :
  0 <= exp < 2 ^ 63 -> kryos_ipow base exp = Some (wrap64 (base ^ exp)).
Proof.
  intros He. unfold kryos_ipow, as_u64. destruct (Z.ltb_spec exp 0); [lia|].
  rewrite Z.mod_small by lia. change 1 with (wrap64 1) at 1.
  rewrite ipow_loop_spec; [by rewrite Z.mul_1_l|]. change (Z.of_nat 64) with 64. lia.
Qed.

Lemma quot_pow_small base e :
  1 < Z.abs base -> 0 < e -> Z.quot 1 (base ^ e) = 0.
Proof.
  intros Hb He. apply Z.quot_small_iff.
  - apply Z.pow_nonzero; lia.
  - rewrite Z.abs_pow. pose proof (Z.pow_gt_1 (Z.abs base) e Hb). cbn; lia.
Qed.

Lemma neg_one_pow e : 0 <= e -> (-1) ^ e = if Z.even e then 1 else -1.
Proof.
  intros He. destruct (Z.even e) eqn:Hev.
  - apply Z.even_spec in Hev as [k ->]. rewrite Z.pow_mul_r by lia. apply Z.pow_1_l; lia.
  - assert (Hod : Z.odd e = true) by (by rewrite <-Z.negb_even, Hev).
    apply Z.odd_spec in Hod as [k ->]. rewrite Z.pow_add_r, Z.pow_mul_r by lia.
    change ((-1) ^ 2) with 1. rewrite Z.pow_1_l by lia. reflexivity.
Qed.

(** [kryos_ipow] is exponentiation modulo 2^64 for a non-negative exponent
    and the truncated quotient [1 / base^(-exp)] (0 for base 0) for a negative one. *)
Lemma kryos_ipow_spec base exp :
  in_i64 exp = true ->
  kryos_ipow base exp =
    Some (if 0 <=? exp then wrap64 (base ^ exp)
          else if base =? 0 then 0 else Z.quot 1 (base ^ (- exp))).
Proof.
  rewrite in_i64_spec. unfold i64_min, i64_max. intros He.
  destruct (Z.leb_spec 0 exp) as [Hp|Hn]; [apply kryos_ipow_nonneg; lia|].
  unfold kryos_ipow. destruct (Z.ltb_spec exp 0); [|lia]. f_equal.
  destruct (Z.eqb_spec base 0) as [->|Hb]; [done|].
  destruct (Z.eqb_spec base 1) as [->|Hb1]; [by rewrite Z.pow_1_l by lia|].
  destruct (Z.eqb_spec base (-1)) as [->|Hbm]; [|symmetry; apply quot_pow_small; lia].
  rewrite neg_one_pow, Z.even_opp by lia.
  destruct (Z.eqb_spec (Z.rem exp 2) 0) as [Hr|Hr].
  - apply Z.rem_divide in Hr; [|lia]. destruct Hr as [k ->]. by rewrite Z.even_mul, orb_true_r.
  - destruct (Z.even exp) eqn:Hev; [|done]. apply Z.even_spec in Hev as [k ->].
    destruct Hr. rewrite Z.mul_comm. by apply Z.rem_mul.
Qed.

Lemma kryos_ipow_spec_witness :
  kryos_ipow 3 (-1) =
    Some (if 0 <=? -1 then wrap64 (3 ^ (-1)) else if 3 =? 0 then 0 else Z.quot 1 (3 ^ (- (-1)))).
Proof. apply (kryos_ipow_spec 3 (-1)). vm_compute. reflexivity. Defined.

Lemma check_sdiv_spec a b :
  kryos_check_sdiv_i64 a b 64 = true <-> b <> 0 /\ ~ (a = i64_min /\ b = -1).
Proof.
  unfold kryos_check_sdiv_i64. destruct (Z.eqb_spec b 0); [naive_solver|]. cbn.
  rewrite negb_true_iff, andb_false_iff, !Z.eqb_neq. lia.
Qed.
