(* ===== verification/ScalarLang.v ===== *)
(** The interface between the optimiser and the code generator on scalars:
    a MIR semantics whose constants, binary and unary operators on scalar
    values are those of the Cranelift backend, and a concrete instance. *)

From Stdlib Require Import SpecFloat.
From S2P Require Import Prelude Machine MirIr MirUses MirSem Backend.

(** The scalar a constant r-value leaves in its destination. *)
Definition rvalue_scalar (rv : RValue) : option scalar :=
  match rv with
  | RV_ConstInt v => Some (S_I64 v)
  | RV_ConstFloat x => Some (S_F64 x)
  | RV_ConstBool b => Some (S_Bool b)
  | RV_ConstString s => Some (S_Str s)
  | RV_ConstNone => Some (S_I64 0)
  | _ => None
  end.

Class ScalarLang (M : MirLang) (C : ClifOps) := {
  checked_arithmetic : bool;
  of_scalar : scalar -> val;
  const_is_scalar c : const_val c = of_scalar (constant_scalar c);
  prim_const rv s w :
    rvalue_scalar rv = Some s -> prim_rvalue rv [] w = Some (of_scalar s, w);
  prim_binop (ρ : env) w op l r a b s :
    operand_val ρ l = of_scalar a -> operand_val ρ r = of_scalar b ->
    binop_value checked_arithmetic op a b = Some s ->
    prim_rvalue (shape_rvalue (RV_BinOp op l r)) (map ρ (rvalue_uses (RV_BinOp op l r))) w
      = Some (of_scalar s, w);
  prim_unop (ρ : env) w op o a s :
    operand_val ρ o = of_scalar a -> translate_unop op a = Some s ->
    prim_rvalue (shape_rvalue (RV_UnOp op o)) (map ρ (rvalue_uses (RV_UnOp op o))) w
      = Some (of_scalar s, w);
  scalar_copy_use :: CopyUse M
}.

(* ------------------------------------------------------------------ *)
(** ** The scalar language                                             *)
(* ------------------------------------------------------------------ *)

(** Operand values in order, the erased locals filled from [vs]. *)
Definition fill (o : Operand) (vs : list scalar) : option (scalar * list scalar) :=
  match o with
  | Op_Constant c => Some (constant_scalar c, vs)
  | Op_Local _ => match vs with v :: vs' => Some (v, vs') | [] => None end
  end.

Definition scalar_prim (C : ClifOps) (checked : bool) (rv : RValue) (vs : list scalar)
  : option scalar :=
  match rv with
  | RV_Use o => '(a, _) ← fill o vs; Some a
  | RV_BinOp op l r =>
      '(a, vs) ← fill l vs; '(b, _) ← fill r vs; binop_value checked op a b
  | RV_UnOp op o => '(a, _) ← fill o vs; translate_unop op a
  | _ => rvalue_scalar rv
  end.

(** Scalars only; the world is the output printed so far, and the one extern
    is [println] of a scalar. Everything else is a panic. *)
Definition scalar_lang (C : ClifOps) (checked : bool) : MirLang := {|
  val := scalar;
  world := list scalar;
  undef_val := S_I64 0;
  none_val := S_I64 0;
  const_val := constant_scalar;
  prim_rvalue rv vs w := s ← scalar_prim C checked rv vs; Some (s, w);
  prim_effect i vs w :=
    match i with I_Nop | I_DebugLine _ | I_Drop _ => Some (S_I64 0, w) | _ => None end;
  resolve_call _ _ _ := None;
  extern_call name args w :=
    match args with
    | [a] => if String.eqb name "println" then Some (S_I64 0, w ++ [a]) else None
    | _ => None
    end;
  branch_on v := match v with S_I64 z => negb (z =? 0) | S_Bool b => b | _ => false end;
  switch_on v := match v with S_I64 z => z | S_Bool b => if b then 1 else 0 | _ => 0 end
|}.

#[export] Instance scalar_lang_ok (C : ClifOps) (checked : bool) :
  ScalarLang (scalar_lang C checked) C.
Proof.
  refine {| checked_arithmetic := checked; of_scalar := fun s : scalar => (s : @val (scalar_lang C checked)) |}.
  - done.
  - intros rv s w Hs. destruct rv; cbn in *; by simplify_eq.
  - intros ρ w op l r a b s Hl Hr Hs.
    destruct l, r; cbn in *; subst; by rewrite Hs.
  - intros ρ w op o a s Ho Hs. destruct o; cbn in *; subst; by rewrite Hs.
  - intros ρ w o. by destruct o.
Defined.

#[export] Instance scalar_lang_copy C chk : CopyUse (scalar_lang C chk).
Proof. intros ρ w o. by destruct o. Qed.

(** The instance the examples run in: the documented Cranelift, release mode. *)
Abbreviation clif_lang := (scalar_lang clif_i64 false).

(* ------------------------------------------------------------------ *)
(** ** Small concrete programs                                         *)
(* ------------------------------------------------------------------ *)

Definition plain_attrs (inline pure_fn : bool) : MirAttributes :=
  mkAttrs inline pure_fn false false false false None [] false [] [].

Definition i64_locals (ids : list LocalId) : list MirLocal :=
  map (fun x => mkLocal x None Ty_I64 true) ids.

(** A function on [i64] whose first [arity] of [nlocals] locals are its parameters. *)
Definition i64_function (attrs : MirAttributes) (name : string) (arity nlocals : nat)
    (blocks : list BasicBlock) : MirFunction :=
  let ids k := map N.of_nat (seq 0 k) in
  mkFunction name (map (fun x => mkParam x Ty_I64) (ids arity)) Ty_I64 blocks
    (i64_locals (ids nlocals)) attrs None 0%N.

Definition module_of (fs : list MirFunction) : MirModule := mkModule fs [] [] [] [].

Definition int (z : Z) : Operand := Op_Constant (C_Int z).
Definition loc (x : LocalId) : Operand := Op_Local x.

(** [fn main() { let _0 = 2 + 3; let _1 = comptime { 10 * 4 }; return _0 + _1 }] *)
Definition main_sum : MirModule :=
  module_of [i64_function (plain_attrs false false) "main" 0 3
    [mkBlock 0%N [I_Assign 0%N (RV_BinOp Bin_Add (int 2) (int 3));
                  I_Assign 1%N (RV_Comptime (RV_BinOp Bin_Mul (int 10) (int 4)));
                  I_Assign 2%N (RV_BinOp Bin_Add (loc 0%N) (loc 1%N))]
       (T_Return (Some (loc 2%N)))]].

(** [fn gcd(a, b) { if b == 0 { return a } return gcd(b, a % b) }] *)
Definition gcd_function : MirFunction :=
  i64_function (plain_attrs false false) "gcd" 2 5
    [mkBlock 0%N [I_Assign 2%N (RV_BinOp Bin_Eq (loc 1%N) (int 0))] (T_Branch (loc 2%N) 1%N 2%N);
     mkBlock 1%N [] (T_Return (Some (loc 0%N)));
     mkBlock 2%N [I_Assign 3%N (RV_BinOp Bin_Mod (loc 0%N) (loc 1%N));
                  I_Assign 4%N (RV_Call "gcd" [loc 1%N; loc 3%N])]
       (T_Return (Some (loc 4%N)))].
