(* ===== verification/Liveness.v ===== *)
(** Backward liveness analysis ([kryos-mir/src/liveness.rs]): the worklist
    algorithm, its termination, its fixpoint equations, minimality of its
    result, and what the result means for execution. *)

From S2P Require Import Prelude MirIr MirUses MirSem Backend ScalarLang.

(* ------------------------------------------------------------------ *)
(** ** Transfer functions                                              *)
(* ------------------------------------------------------------------ *)

(** Removes the defs from [live], then inserts the uses. *)
Definition transfer_instruction (inst : Instruction) (live : gset N) : gset N :=
  let '(defs, uses) := inst_defs_uses inst in
  let killed := fold_left (fun s d => s ∖ {[d]}) defs live in
  fold_left (fun s u => {[u]} ∪ s) uses killed.

(** [for inst in block.instructions.iter().rev() { transfer_instruction(..) }] *)
Definition transfer_block (insts : list Instruction) (live : gset N) : gset N :=
  fold_right transfer_instruction live insts.

(** Inserts the locals a terminator reads into [out]. *)
Definition terminator_uses (term : Terminator) (out : gset N) : gset N :=
  match term with
  | T_Return (Some (Op_Local id)) => {[id]} ∪ out
  | T_Return (Some (Op_Constant _)) => out
  | T_Return None => out
  | T_Goto _ => out
  | T_Branch (Op_Local id) _ _ => {[id]} ∪ out
  | T_Branch (Op_Constant _) _ _ => out
  | T_Switch (Op_Local id) _ _ => {[id]} ∪ out
  | T_Switch (Op_Constant _) _ _ => out
  | T_Unreachable => out
  end.

(* ------------------------------------------------------------------ *)
(** ** The analysis                                                    *)
(* ------------------------------------------------------------------ *)

Record Liveness := mkLiveness {
  live_in : gmap N (gset N);
  live_out : gmap N (gset N)
}.

(** [preds.entry(k).or_default().push(v)] *)
Definition push_pred (k v : N) (preds : gmap N (list N)) : gmap N (list N) :=
  <[k := default [] (preds !! k) ++ [v]]> preds.

Definition build_preds (bs : list BasicBlock) : gmap N (list N) :=
  fold_left (fun m b => fold_left (fun m s => push_pred s (bb_id b) m) (successors b) m)
    bs (fold_left (fun m b => <[bb_id b := default [] (m !! bb_id b)]> m) bs ∅).

(** Appends each of [ps] that is not yet on the queue. *)
Fixpoint requeue (ps : list N) (worklist : list N) (on_queue : gset N) : list N * gset N :=
  match ps with
  | [] => (worklist, on_queue)
  | p :: ps' =>
      if decide (p ∈ on_queue) then requeue ps' worklist on_queue
      else requeue ps' (worklist ++ [p]) ({[p]} ∪ on_queue)
  end.

(** [new_out]: the union of the successors' [live_in], with the terminator's reads. *)
Definition block_out (lin : gmap N (gset N)) (b : BasicBlock) : gset N :=
  terminator_uses (bb_terminator b)
    (fold_left (fun acc s => match lin !! s with Some s_in => acc ∪ s_in | None => acc end)
       (successors b) ∅).

Definition block_in (lin : gmap N (gset N)) (b : BasicBlock) : gset N :=
  transfer_block (bb_instructions b) (block_out lin b).

(** The [while let Some(bid) = worklist.pop_front()] loop. *)
Fixpoint analyze_loop (fuel : nat) (f : MirFunction) (preds : gmap N (list N))
    (lin lout : gmap N (gset N)) (worklist : list N) (on_queue : gset N) : res Liveness :=
  match worklist with
  | [] => Done (mkLiveness lin lout)
  | bid :: rest =>
      match fuel with
      | O => OutOfFuel
      | S fuel' =>
          let on_queue := on_queue ∖ {[bid]} in
          b ← block f bid;
          let new_out := block_out lin b in
          let new_in := block_in lin b in
          let changed_out := negb (bool_decide (lout !! bid = Some new_out)) in
          let changed_in := negb (bool_decide (lin !! bid = Some new_in)) in
          let lout := <[bid := new_out]> lout in
          let lin := <[bid := new_in]> lin in
          if changed_in || changed_out then
            match preds !! bid with
            | Some ps =>
                let '(wl, oq) := requeue ps rest on_queue in
                analyze_loop fuel' f preds lin lout wl oq
            | None => analyze_loop fuel' f preds lin lout rest on_queue
            end
          else analyze_loop fuel' f preds lin lout rest on_queue
      end
  end.

Definition init_sets (bs : list BasicBlock) : gmap N (gset N) :=
  fold_left (fun m b => <[bb_id b := ∅]> m) bs ∅.

Definition analyze (fuel : nat) (f : MirFunction) : res Liveness :=
  let ids := map bb_id (f_blocks f) in
  analyze_loop fuel f (build_preds (f_blocks f))
    (init_sets (f_blocks f)) (init_sets (f_blocks f)) ids (list_to_set ids).

(** The locals live immediately after instruction [inst_idx] of a block. *)
Definition live_after_instruction (l : Liveness) (f : MirFunction) (block_id : N)
    (inst_idx : nat) : res (gset N) :=
  b ← block f block_id;
  let live := default ∅ (live_out l !! block_id) in
  Done (transfer_block (drop (S inst_idx) (bb_instructions b)) live).

(** [live_after]: the same as a vector in increasing order ([BTreeSet::into_iter]). *)
Definition live_after (f : MirFunction) (l : Liveness) (block_id : N) (inst_idx : nat)
  : res (list N) :=
  s ← live_after_instruction l f block_id inst_idx;
  Done (merge_sort N.le (elements s)).

Definition program_point_count (b : BasicBlock) : nat := length (bb_instructions b) + 1.

(* ------------------------------------------------------------------ *)
(** ** The transfer functions as set equations                         *)
(* ------------------------------------------------------------------ *)

Lemma elem_of_fold_remove (ds : list N) (s : gset N) x :
  x ∈ fold_left (fun s d => s ∖ {[d]}) ds s <-> x ∈ s /\ ~ In x ds.
Proof. revert s. induction ds as [|d ds IH]; intros s; cbn; [naive_solver|]. rewrite IH. set_solver. Qed.

Lemma elem_of_fold_insert (us : list N) (s : gset N) x :
  x ∈ fold_left (fun s u => {[u]} ∪ s) us s <-> x ∈ s \/ In x us.
Proof. revert s. induction us as [|u us IH]; intros s; cbn; [naive_solver|]. rewrite IH. set_solver. Qed.

Lemma elem_of_transfer_instruction i (s : gset N) x :
  x ∈ transfer_instruction i s <-> In x (inst_uses i) \/ (x ∈ s /\ ~ In x (inst_defs i)).
Proof.
  unfold transfer_instruction, inst_uses, inst_defs. destruct (inst_defs_uses i) as [ds us].
  rewrite elem_of_fold_insert, elem_of_fold_remove. cbn. tauto.
Qed.

Lemma elem_of_terminator_uses t (s : gset N) x :
  x ∈ terminator_uses t s <-> In x (term_uses t) \/ x ∈ s.
Proof. destruct t as [[[]|]| |[]|[]|]; cbn; set_solver. Qed.

Lemma elem_of_block_out lin b x :
  x ∈ block_out lin b <->
  In x (term_uses (bb_terminator b)) \/
  exists s S, In s (successors b) /\ lin !! s = Some S /\ x ∈ S.
Proof.
  unfold block_out. rewrite elem_of_terminator_uses. apply or_iff_compat_l.
  enough (Hg : forall acc : gset N,
    x ∈ fold_left (fun acc s => match lin !! s with Some s_in => acc ∪ s_in | None => acc end)
          (successors b) acc <->
    x ∈ acc \/ exists s S, In s (successors b) /\ lin !! s = Some S /\ x ∈ S).
  { rewrite Hg. set_solver. }
  induction (successors b) as [|s ss IH]; intros acc; cbn; [naive_solver|].
  rewrite IH. destruct (lin !! s) as [S|] eqn:Hs; set_solver.
Qed.

Lemma transfer_block_app l1 l2 (s : gset N) :
  transfer_block (l1 ++ l2) s = transfer_block l1 (transfer_block l2 s).
Proof. apply fold_right_app. Qed.

Lemma transfer_block_mono insts (s1 s2 : gset N) :
  s1 ⊆ s2 -> transfer_block insts s1 ⊆ transfer_block insts s2.
Proof.
  intros Hs. induction insts as [|i insts IH]; cbn; [done|].
  intros x. rewrite !elem_of_transfer_instruction. set_solver.
Qed.

(** [lin1] is below [lin2] when every set of [lin1] is included in [lin2]'s. *)
Definition sets_le (lin1 lin2 : gmap N (gset N)) : Prop :=
  forall k S, lin1 !! k = Some S -> exists S', lin2 !! k = Some S' /\ S ⊆ S'.

Lemma block_out_mono lin1 lin2 b : sets_le lin1 lin2 -> block_out lin1 b ⊆ block_out lin2 b.
Proof.
  intros Hle x. rewrite !elem_of_block_out. intros [?|(s & S & Hs & HS & Hx)]; [by left|right].
  destruct (Hle _ _ HS) as (S' & HS' & Hsub). exists s, S'. set_solver.
Qed.

Lemma block_in_mono lin1 lin2 b : sets_le lin1 lin2 -> block_in lin1 b ⊆ block_in lin2 b.
Proof. intros Hle. by apply transfer_block_mono, block_out_mono. Qed.

Lemma sets_le_insert lin k S S' :
  lin !! k = Some S -> S ⊆ S' -> sets_le lin (<[k := S']> lin).
Proof.
  intros Hk HS j T Hj. destruct (decide (k = j)) as [->|Hne].
  - exists S'. rewrite lookup_insert_eq. by simplify_eq.
  - exists T. by rewrite lookup_insert_ne.
Qed.

(* ------------------------------------------------------------------ *)
(** ** Predecessors and the queue                                      *)
(* ------------------------------------------------------------------ *)

Lemma elem_of_push_pred k v (m : gmap N (list N)) j p :
  p ∈ default [] (push_pred k v m !! j) <-> p ∈ default [] (m !! j) \/ (p = v /\ j = k).
Proof.
  unfold push_pred. destruct (decide (k = j)) as [->|Hne].
  - rewrite lookup_insert_eq. cbn. set_solver.
  - rewrite lookup_insert_ne by done. naive_solver.
Qed.

Lemma elem_of_push_succs (ss : list N) v (m : gmap N (list N)) j p :
  p ∈ default [] (fold_left (fun m s => push_pred s v m) ss m !! j) <->
  p ∈ default [] (m !! j) \/ (p = v /\ In j ss).
Proof.
  revert m. induction ss as [|s ss IH]; intros m; cbn; [naive_solver|].
  rewrite IH, elem_of_push_pred. naive_solver.
Qed.

Lemma elem_of_build_preds bs j p :
  p ∈ default [] (build_preds bs !! j) <->
  exists b, In b bs /\ bb_id b = p /\ In j (successors b).
Proof.
  unfold build_preds.
  set (m0 := fold_left (fun m b => <[bb_id b := default [] (m !! bb_id b)]> m) bs ∅).
  assert (Hm0 : default [] (m0 !! j) = []).
  { unfold m0. enough (Hg : forall m : gmap N (list N), default [] (m !! j) = [] ->
      default [] (fold_left (fun m b => <[bb_id b := default [] (m !! bb_id b)]> m) bs m !! j) = [])
      by (apply Hg; by rewrite lookup_empty).
    induction bs as [|b bs IH]; intros m Hm; cbn; [done|]. apply IH.
    destruct (decide (bb_id b = j)) as [->|Hne];
      [by rewrite lookup_insert_eq|by rewrite lookup_insert_ne]. }
  enough (Hg : forall m : gmap N (list N),
    p ∈ default [] (fold_left (fun m b => fold_left (fun m s => push_pred s (bb_id b) m)
                       (successors b) m) bs m !! j) <->
    p ∈ default [] (m !! j) \/ exists b, In b bs /\ bb_id b = p /\ In j (successors b)).
  { rewrite Hg, Hm0. set_solver. }
  clear. induction bs as [|b bs IH]; intros m; cbn; [naive_solver|].
  rewrite IH, elem_of_push_succs. naive_solver.
Qed.

Lemma requeue_spec ps wl oq wl' oq' :
  requeue ps wl oq = (wl', oq') -> NoDup wl -> oq = list_to_set wl ->
  NoDup wl' /\ oq' = list_to_set wl' /\ (forall x, x ∈ wl' <-> x ∈ wl \/ x ∈ ps).
Proof.
  revert wl oq. induction ps as [|p ps IH]; intros wl oq Hr Hnd Hoq; cbn in Hr.
  - simplify_eq. split_and!; [done|done|set_solver].
  - case_decide as Hp.
    + destruct (IH _ _ Hr Hnd Hoq) as (? & ? & Hx). split_and!; [done|done|].
      intros x. rewrite Hx. rewrite Hoq, elem_of_list_to_set in Hp. set_solver.
    + rewrite Hoq, elem_of_list_to_set in Hp.
      destruct (IH _ _ Hr) as (? & ? & Hx).
      * apply NoDup_app. split_and!; [done|set_solver|apply NoDup_singleton].
      * subst oq. rewrite list_to_set_app_L. set_solver.
      * split_and!; [done|done|]. intros x. rewrite Hx. set_solver.
Qed.

Lemma lookup_init_sets bs k :
  init_sets bs !! k = (if decide (k ∈ map bb_id bs) then Some ∅ else None).
Proof.
  unfold init_sets.
  enough (Hg : forall m : gmap N (gset N), fold_left (fun m b => <[bb_id b := ∅]> m) bs m !! k =
    if decide (k ∈ map bb_id bs) then Some ∅ else m !! k) by (by rewrite Hg, lookup_empty).
  induction bs as [|b bs IH]; intros m; cbn [map fold_left].
  { rewrite decide_False; [done|set_solver]. }
  rewrite IH. destruct (decide (k ∈ map bb_id bs)).
  - rewrite decide_True; [done|set_solver].
  - destruct (decide (bb_id b = k)) as [<-|Hne].
    + rewrite lookup_insert_eq, decide_True; [done|set_solver].
    + rewrite lookup_insert_ne by done. rewrite decide_False; [done|set_solver].
Qed.

(* ------------------------------------------------------------------ *)
(** ** Solutions of the dataflow equations                             *)
(* ------------------------------------------------------------------ *)

(** Block ids are the blocks' positions, which [MirFunction::block] relies on. *)
Definition dense (f : MirFunction) : Prop :=
  forall i b, f_blocks f !! i = Some b -> bb_id b = N.of_nat i.

Definition dense_b (f : MirFunction) : bool :=
  bool_decide (map bb_id (f_blocks f) = map N.of_nat (seq 0 (length (f_blocks f)))).

Definition solution (f : MirFunction) (l : Liveness) : Prop :=
  forall b, In b (f_blocks f) ->
    live_out l !! bb_id b = Some (block_out (live_in l) b) /\
    live_in l !! bb_id b = Some (block_in (live_in l) b).

(** A family of sets closed under the backward equations: an upper bound. *)
Definition post_solution (f : MirFunction) (T : gmap N (gset N)) : Prop :=
  forall b, In b (f_blocks f) -> exists S, T !! bb_id b = Some S /\ block_in T b ⊆ S.

(** Every local the function reads. *)
Definition fun_uses (f : MirFunction) : gset N :=
  list_to_set (flat_map (fun b =>
    flat_map inst_uses (bb_instructions b) ++ term_uses (bb_terminator b)) (f_blocks f)).

(** Iterations that always suffice: the sets can grow [2 * |blocks| * |uses|]
    times, and between two growths at most [|blocks|] blocks leave the queue. *)
Definition analyze_fuel (f : MirFunction) : nat :=
  let n := length (f_blocks f) in
  2 * n * size (fun_uses f) * (n + 1) + n.

Lemma dense_b_spec f : dense_b f = true -> dense f.
Proof.
  unfold dense_b, dense. rewrite bool_decide_eq_true. intros Hm i b Hi.
  assert (Hl : map bb_id (f_blocks f) !! i = Some (bb_id b))
    by (by rewrite list_lookup_fmap, Hi).
  rewrite Hm, list_lookup_fmap in Hl. pose proof (lookup_lt_Some _ _ _ Hi).
  rewrite lookup_seq_lt in Hl by done. cbn in Hl. naive_solver.
Qed.

Section Dense.
Context (f : MirFunction) (Hdense : dense f).

Lemma dense_block b : In b (f_blocks f) -> block f (bb_id b) = Done b.
Proof.
  intros Hb. apply list_elem_of_In, list_elem_of_lookup in Hb as [i Hi].
  unfold block. by rewrite (Hdense _ _ Hi), Nat2N.id, Hi.
Qed.

Lemma dense_inj b1 b2 :
  In b1 (f_blocks f) -> In b2 (f_blocks f) -> bb_id b1 = bb_id b2 -> b1 = b2.
Proof.
  intros H1 H2 He. pose proof (dense_block _ H1) as Hb. rewrite He, dense_block in Hb; congruence.
Qed.

Lemma dense_NoDup : NoDup (map bb_id (f_blocks f)).
Proof.
  apply NoDup_fmap_2_strong; [|].
  - intros b1 b2 H1%list_elem_of_In H2%list_elem_of_In. by apply dense_inj.
  - apply NoDup_alt. intros i j b Hi Hj.
    pose proof (Hdense _ _ Hi). pose proof (Hdense _ _ Hj). lia.
Qed.

Lemma dense_find b : In b (f_blocks f) -> find_block f (bb_id b) = Some b.
Proof.
  intros Hb. unfold find_block.
  destruct (find _ (f_blocks f)) as [b'|] eqn:Hf.
  - apply find_some in Hf as [Hin He%N.eqb_eq]. f_equal. by apply dense_inj.
  - apply (find_none _ _ Hf) in Hb. by rewrite N.eqb_refl in Hb.
Qed.
End Dense.

(* ------------------------------------------------------------------ *)
(** ** The worklist loop: invariant and measure                        *)
(* ------------------------------------------------------------------ *)

Definition weight (bs : list BasicBlock) (m : gmap N (gset N)) : nat :=
  sum_list_with (fun b => size (default ∅ (m !! bb_id b))) bs.

Lemma weight_insert_notin bs m k S :
  ~ In k (map bb_id bs) -> weight bs (<[k := S]> m) = weight bs m.
Proof.
  unfold weight. induction bs as [|b bs IH]; intros Hk; cbn in *; [done|].
  rewrite lookup_insert_ne by naive_solver. rewrite IH by naive_solver. done.
Qed.

Lemma weight_insert bs m b S :
  NoDup (map bb_id bs) -> In b bs ->
  weight bs (<[bb_id b := S]> m) + size (default ∅ (m !! bb_id b)) = weight bs m + size S.
Proof.
  intros Hnd Hb. induction bs as [|c bs IH]; [done|].
  apply NoDup_cons in Hnd as [Hc Hnd]. unfold weight in *. cbn.
  destruct Hb as [->|Hb].
  - rewrite lookup_insert_eq. cbn. fold (weight bs (<[bb_id b := S]> m)).
    rewrite weight_insert_notin; [unfold weight; lia|by rewrite <-list_elem_of_In].
  - assert (bb_id b <> bb_id c) as Hne.
    { intros He. apply Hc. rewrite <-He. by apply list_elem_of_In, in_map. }
    rewrite lookup_insert_ne by done. specialize (IH Hnd Hb). lia.
Qed.

Lemma weight_bound bs m (U : gset N) :
  (forall k S, m !! k = Some S -> S ⊆ U) -> weight bs m <= length bs * size U.
Proof.
  intros HU. unfold weight. induction bs as [|b bs IH]; cbn; [lia|].
  assert (size (default ∅ (m !! bb_id b)) <= size U); [|lia].
  apply subseteq_size. destruct (m !! bb_id b) eqn:Hm; cbn; [by eapply HU|set_solver].
Qed.

Section Loop.
Context (f : MirFunction) (Hdense : dense f).
Let ids := map bb_id (f_blocks f).

Lemma block_out_uses lin b :
  In b (f_blocks f) -> (forall k S, lin !! k = Some S -> S ⊆ fun_uses f) ->
  block_out lin b ⊆ fun_uses f.
Proof.
  intros Hb Hlin x. rewrite elem_of_block_out. intros [Hx|(s & S & _ & HS & Hx)].
  - apply elem_of_list_to_set, list_elem_of_In, in_flat_map.
    exists b. split; [done|]. apply in_app_iff. by right.
  - by eapply Hlin.
Qed.

Lemma block_in_uses lin b :
  In b (f_blocks f) -> (forall k S, lin !! k = Some S -> S ⊆ fun_uses f) ->
  block_in lin b ⊆ fun_uses f.
Proof.
  intros Hb Hlin. unfold block_in.
  enough (Hg : forall insts, (forall i, In i insts -> In i (bb_instructions b)) ->
    transfer_block insts (block_out lin b) ⊆ fun_uses f) by (apply Hg; auto).
  induction insts as [|i insts IH]; intros Hin; cbn; [by apply block_out_uses|].
  intros x. rewrite elem_of_transfer_instruction. intros [Hx|[Hx _]].
  - apply elem_of_list_to_set, list_elem_of_In, in_flat_map. exists b. split; [done|].
    apply in_app_iff. left. apply in_flat_map. exists i. naive_solver.
  - apply IH; [naive_solver|done].
Qed.

Record loop_inv (lin lout : gmap N (gset N)) (wl : list N) (oq : gset N) : Prop := {
  inv_queue : oq = list_to_set wl;
  inv_nodup : NoDup wl;
  inv_ids : forall x, x ∈ wl -> x ∈ ids;
  inv_solved : forall b, In b (f_blocks f) -> bb_id b ∉ wl ->
    lout !! bb_id b = Some (block_out lin b) /\ lin !! bb_id b = Some (block_in lin b);
  inv_below : forall b, In b (f_blocks f) -> exists So Si,
    lout !! bb_id b = Some So /\ lin !! bb_id b = Some Si /\
    So ⊆ block_out lin b /\ Si ⊆ block_in lin b;
  inv_uses : (forall k S, lin !! k = Some S -> S ⊆ fun_uses f) /\
             (forall k S, lout !! k = Some S -> S ⊆ fun_uses f);
  inv_least : forall T, post_solution f T -> sets_le lin T
}.

(** The loop's measure: room left in the sets, then the queue's length. *)
Definition loop_measure (lin lout : gmap N (gset N)) (wl : list N) : nat :=
  (2 * length (f_blocks f) * size (fun_uses f)
   - (weight (f_blocks f) lin + weight (f_blocks f) lout)) * (length (f_blocks f) + 1)
  + length wl.

Lemma inv_wl_length lin lout wl oq : loop_inv lin lout wl oq -> length wl <= length (f_blocks f).
Proof.
  intros Hi. rewrite <-(length_map bb_id).
  apply submseteq_length, NoDup_submseteq; [by eapply inv_nodup|]. by eapply inv_ids.
Qed.

Lemma inv_init :
  loop_inv (init_sets (f_blocks f)) (init_sets (f_blocks f)) ids (list_to_set ids).
Proof.
  assert (Hl : forall b, In b (f_blocks f) -> init_sets (f_blocks f) !! bb_id b = Some ∅).
  { intros b Hb. rewrite lookup_init_sets, decide_True; [done|].
    by apply list_elem_of_In, in_map. }
  assert (He : forall k S, init_sets (f_blocks f) !! k = Some S -> S = ∅).
  { intros k S. rewrite lookup_init_sets. case_decide; naive_solver. }
  split; [done|by apply dense_NoDup|done| | | |].
  - intros b Hb Hn. exfalso. apply Hn. by apply list_elem_of_In, in_map.
  - intros b Hb. exists ∅, ∅. rewrite !Hl by done. set_solver.
  - split; intros k S ->%He; set_solver.
  - intros T HT k S Hk. pose proof (He _ _ Hk) as ->.
    rewrite lookup_init_sets in Hk. case_decide as Hin; [|done].
    apply list_elem_of_In, in_map_iff in Hin as (b & <- & Hb).
    destruct (HT b Hb) as (S & HS & _). exists S. set_solver.
Qed.

Lemma block_out_insert_other lin b k S :
  ~ In k (successors b) -> block_out (<[k := S]> lin) b = block_out lin b.
Proof.
  intros Hk. apply set_eq. intros x. rewrite !elem_of_block_out.
  apply or_iff_compat_l. split; intros (s & T & Hs & HT & Hx); exists s, T.
  - rewrite lookup_insert_ne in HT by naive_solver. done.
  - rewrite lookup_insert_ne by naive_solver. done.
Qed.

Lemma block_in_insert_other lin b k S :
  ~ In k (successors b) -> block_in (<[k := S]> lin) b = block_in lin b.
Proof. intros Hk. unfold block_in. by rewrite block_out_insert_other. Qed.

Section Step.
Context (lin lout : gmap N (gset N)) (rest : list N) (oq : gset N) (b : BasicBlock).
Context (Hinv : loop_inv lin lout (bb_id b :: rest) oq) (Hb : In b (f_blocks f)).
Let lin' := <[bb_id b := block_in lin b]> lin.
Let lout' := <[bb_id b := block_out lin b]> lout.

Lemma step_grows : sets_le lin lin'.
Proof.
  destruct (inv_below _ _ _ _ Hinv b Hb) as (So & Si & _ & HSi & _ & Hsub).
  by eapply sets_le_insert.
Qed.

Lemma step_rest_nodup : NoDup rest /\ bb_id b ∉ rest.
Proof. pose proof (inv_nodup _ _ _ _ Hinv) as Hnd. apply NoDup_cons in Hnd. tauto. Qed.

Lemma step_queue : oq ∖ {[bb_id b]} = list_to_set rest.
Proof. rewrite (inv_queue _ _ _ _ Hinv). pose proof step_rest_nodup. set_solver. Qed.

(** Facts that survive the update, whatever the new queue. *)
Lemma step_below : forall c, In c (f_blocks f) -> exists So Si,
  lout' !! bb_id c = Some So /\ lin' !! bb_id c = Some Si /\
  So ⊆ block_out lin' c /\ Si ⊆ block_in lin' c.
Proof.
  intros c Hc. pose proof (block_out_mono _ _ c step_grows) as Ho.
  pose proof (block_in_mono _ _ c step_grows) as Hi.
  destruct (decide (bb_id b = bb_id c)) as [He|Hne].
  - pose proof (dense_inj f Hdense _ _ Hb Hc He) as <-.
    exists (block_out lin b), (block_in lin b).
    unfold lin', lout' at 1. by rewrite !lookup_insert_eq.
  - destruct (inv_below _ _ _ _ Hinv c Hc) as (So & Si & HSo & HSi & H1 & H2).
    exists So, Si. unfold lin' at 1, lout'. rewrite !lookup_insert_ne by done. set_solver.
Qed.

Lemma step_uses : (forall k S, lin' !! k = Some S -> S ⊆ fun_uses f) /\
                  (forall k S, lout' !! k = Some S -> S ⊆ fun_uses f).
Proof.
  destruct (inv_uses _ _ _ _ Hinv) as [Hi Ho]. unfold lin', lout'.
  split; intros k S; (destruct (decide (bb_id b = k)) as [<-|Hne];
    [rewrite lookup_insert_eq; intros [= <-]|rewrite lookup_insert_ne by done; eauto]).
  - by apply block_in_uses.
  - by apply block_out_uses.
Qed.

Lemma step_least : forall T, post_solution f T -> sets_le lin' T.
Proof.
  intros T HT k S. unfold lin'. destruct (decide (bb_id b = k)) as [<-|Hne].
  - rewrite lookup_insert_eq. intros [= <-].
    destruct (HT b Hb) as (S & HS & Hsub). exists S. split; [done|].
    etrans; [apply block_in_mono, (inv_least _ _ _ _ Hinv T HT)|done].
  - rewrite lookup_insert_ne by done. by apply (inv_least _ _ _ _ Hinv T HT).
Qed.

Lemma step_solved_rest : lout !! bb_id b = Some (block_out lin b) ->
  lin !! bb_id b = Some (block_in lin b) -> loop_inv lin lout rest (oq ∖ {[bb_id b]}).
Proof.
  intros Ho Hi. pose proof step_rest_nodup as [Hnd _]. destruct Hinv as [? ? Hids Hsol ? ? ?].
  split; [by rewrite <-step_queue|done|set_solver| |done|done|done].
  intros c Hc Hn. destruct (decide (bb_id c = bb_id b)) as [He|Hne].
  - by rewrite (dense_inj f Hdense _ _ Hc Hb He).
  - apply Hsol; [done|]. set_solver.
Qed.

Lemma step_changed wl' oq' :
  requeue (default [] (build_preds (f_blocks f) !! bb_id b)) rest (oq ∖ {[bb_id b]})
    = (wl', oq') ->
  loop_inv lin' lout' wl' oq'.
Proof.
  intros Hr. pose proof step_rest_nodup as [Hnd Hnin].
  destruct (requeue_spec _ _ _ _ _ Hr Hnd step_queue) as (Hnd' & Hoq' & Hx).
  split; [done|done| | |apply step_below|apply step_uses|apply step_least].
  - intros x. rewrite Hx. intros [Hxr|Hxp].
    + apply (inv_ids _ _ _ _ Hinv). set_solver.
    + apply elem_of_build_preds in Hxp as (c & Hc & <- & _).
      by apply list_elem_of_In, in_map.
  - intros c Hc Hn. rewrite Hx in Hn.
    assert (Hs : ~ In (bb_id b) (successors c)).
    { intros Hs. apply Hn. right. apply elem_of_build_preds. eauto. }
    unfold lin' at 1 3. rewrite block_out_insert_other, block_in_insert_other by done.
    unfold lin', lout'. destruct (decide (bb_id b = bb_id c)) as [He|Hne].
    + rewrite <-(dense_inj f Hdense _ _ Hb Hc He), !lookup_insert_eq. done.
    + rewrite !lookup_insert_ne by done. apply (inv_solved _ _ _ _ Hinv); [done|set_solver].
Qed.

Lemma step_measure wl' :
  (lout !! bb_id b <> Some (block_out lin b) \/ lin !! bb_id b <> Some (block_in lin b)) ->
  length wl' <= length (f_blocks f) ->
  loop_measure lin' lout' wl' < loop_measure lin lout (bb_id b :: rest).
Proof.
  intros Hch Hlen. unfold loop_measure. cbn [length].
  destruct (inv_below _ _ _ _ Hinv b Hb) as (So & Si & HSo & HSi & Hsubo & Hsubi).
  pose proof (dense_NoDup f Hdense) as Hnd.
  pose proof (weight_insert (f_blocks f) lin b (block_in lin b) Hnd Hb) as Hwi.
  pose proof (weight_insert (f_blocks f) lout b (block_out lin b) Hnd Hb) as Hwo.
  fold lin' in Hwi. fold lout' in Hwo. rewrite HSo in Hwo. rewrite HSi in Hwi. cbn in Hwi, Hwo.
  destruct step_uses as [Hu1 Hu2].
  pose proof (weight_bound (f_blocks f) _ _ Hu1). pose proof (weight_bound (f_blocks f) _ _ Hu2).
  pose proof (subseteq_size _ _ Hsubo). pose proof (subseteq_size _ _ Hsubi).
  assert (size So < size (block_out lin b) \/ size Si < size (block_in lin b)) as Hlt.
  { destruct Hch as [Hch|Hch]; [left|right]; apply subset_size; split; try done;
      intros Hback; apply Hch; rewrite ?HSo, ?HSi; f_equal; set_solver. }
  nia.
Qed.
End Step.

Lemma analyze_loop_spec fuel lin lout wl oq :
  loop_inv lin lout wl oq -> loop_measure lin lout wl <= fuel ->
  exists l, analyze_loop fuel f (build_preds (f_blocks f)) lin lout wl oq = Done l /\
    solution f l /\ (forall T, post_solution f T -> sets_le (live_in l) T) /\
    (forall k S, live_in l !! k = Some S -> S ⊆ fun_uses f).
Proof.
  revert lin lout wl oq. induction fuel as [|fuel IH]; intros lin lout wl oq Hinv Hm;
    (destruct wl as [|bid rest];
     [exists (mkLiveness lin lout); split; [done|]; split_and!;
      [intros b Hb; apply (inv_solved _ _ _ _ Hinv b Hb); set_solver
      |apply (inv_least _ _ _ _ Hinv)|apply (inv_uses _ _ _ _ Hinv)]|]).
  { unfold loop_measure in Hm. cbn [length] in Hm. rewrite Nat.add_succ_r in Hm. inversion Hm. }
  assert (Hbid : bid ∈ ids) by (apply (inv_ids _ _ _ _ Hinv); set_solver).
  apply list_elem_of_In, in_map_iff in Hbid as (b & <- & Hb).
  cbn [analyze_loop]. rewrite (dense_block f Hdense b Hb). cbn.
  destruct (decide (lout !! bb_id b = Some (block_out lin b) /\
                    lin !! bb_id b = Some (block_in lin b))) as [[Ho Hi]|Hch].
  - rewrite !bool_decide_eq_true_2 by done. cbn. rewrite !insert_id by done.
    apply IH; [by apply step_solved_rest|]. unfold loop_measure in *. cbn in Hm. lia.
  - replace (_ || _) with true; [|symmetry; rewrite orb_true_iff, !negb_true_iff,
      !bool_decide_eq_false; destruct (decide (lout !! bb_id b = Some (block_out lin b)));
      naive_solver].
    assert (Hch' : lout !! bb_id b <> Some (block_out lin b) \/
                   lin !! bb_id b <> Some (block_in lin b)).
    { destruct (decide (lout !! bb_id b = Some (block_out lin b))); naive_solver. }
    assert (Hnext : forall wl' oq', requeue (default [] (build_preds (f_blocks f) !! bb_id b))
        rest (oq ∖ {[bb_id b]}) = (wl', oq') ->
      loop_inv (<[bb_id b := block_in lin b]> lin) (<[bb_id b := block_out lin b]> lout) wl' oq'
      /\ loop_measure (<[bb_id b := block_in lin b]> lin)
           (<[bb_id b := block_out lin b]> lout) wl' <= fuel).
    { intros wl' oq' Hr. pose proof (step_changed _ _ _ _ _ Hinv Hb _ _ Hr) as Hinv'.
      split; [done|]. pose proof (inv_wl_length _ _ _ _ Hinv') as Hlen.
      pose proof (step_measure _ _ _ _ _ Hinv Hb wl' Hch' Hlen). lia. }
    destruct (build_preds (f_blocks f) !! bb_id b) as [ps|].
    + destruct (requeue ps rest (oq ∖ {[bb_id b]})) as [wl' oq'] eqn:Hr.
      destruct (Hnext _ _ Hr). by apply IH.
    + destruct (Hnext _ _ eq_refl). by apply IH.
Qed.

Lemma analyze_spec fuel :
  analyze_fuel f <= fuel ->
  exists l, analyze fuel f = Done l /\ solution f l /\
    (forall T, post_solution f T -> sets_le (live_in l) T) /\
    (forall k S, live_in l !! k = Some S -> S ⊆ fun_uses f).
Proof.
  intros Hf. apply analyze_loop_spec; [apply inv_init|].
  unfold loop_measure, analyze_fuel in *. unfold ids. rewrite length_map.
  etrans; [apply Nat.add_le_mono_r, Nat.mul_le_mono_r, Nat.le_sub_l|lia].
Qed.
End Loop.

(* ------------------------------------------------------------------ *)
(** ** What the sets mean for execution                                *)
(* ------------------------------------------------------------------ *)

Section Sound.
Context `{MirLang}.
Implicit Types (ρ : env) (w : world).

Definition agree_set (s : gset N) : env -> env -> Prop := agree (fun x => x ∈ s).

Lemma agree_set_mono (s t : gset N) ρ1 ρ2 :
  s ⊆ t -> agree_set t ρ1 ρ2 -> agree_set s ρ1 ρ2.
Proof. intros Hst. apply agree_mono. set_solver. Qed.

(** Same world, environments that agree on [s]. *)
Definition state_agree (s : gset N) (p q : env * world) : Prop :=
  agree_set s (fst p) (fst q) /\ snd p = snd q.

Lemma exec_inst_agree callf i (s : gset N) ρ1 ρ2 w :
  agree_set (transfer_instruction i s) ρ1 ρ2 ->
  res_rel (state_agree s) (exec_inst callf i ρ1 w) (exec_inst callf i ρ2 w).
Proof.
  intros Ha.
  assert (Hu : forall x, In x (inst_uses i) -> x ∈ transfer_instruction i s)
    by (intros x ?; apply elem_of_transfer_instruction; auto).
  assert (Hupd : forall v, agree_set s (upd_defs ρ1 (inst_defs i) v)
                                       (upd_defs ρ2 (inst_defs i) v)).
  { intros v. destruct (inst_defs_shape i) as [Hd|[d Hd]]; rewrite Hd; cbn.
    - intros x Hx. apply Ha, elem_of_transfer_instruction. rewrite Hd. naive_solver.
    - apply agree_upd. intros x [Hx Hne]. apply Ha, elem_of_transfer_instruction.
      rewrite Hd. cbn. naive_solver. }
  destruct i; unfold exec_inst; try rewrite (map_agree _ ρ1 ρ2 _ Ha Hu);
    [rewrite (eval_rvalue_agree callf _ ρ1 ρ2 w value Ha Hu)|..];
    (apply res_rel_bind with (R := eq); [by apply res_rel_eq|]);
    intros [v w'] _ <-; (split; [apply (Hupd v)|done]).
Qed.

Lemma exec_insts_agree callf insts (s : gset N) ρ1 ρ2 w :
  agree_set (transfer_block insts s) ρ1 ρ2 ->
  res_rel (state_agree s) (exec_insts callf insts ρ1 w) (exec_insts callf insts ρ2 w).
Proof.
  revert ρ1 ρ2 w. induction insts as [|i insts IH]; intros ρ1 ρ2 w Ha; cbn; [done|].
  eapply res_rel_bind; [by apply exec_inst_agree|].
  intros [ρ1' w1] [ρ2' w2] [Ha' Hw]. cbn in *. subst w2. by apply IH.
Qed.

Lemma exec_term_agree t (s : gset N) ρ1 ρ2 :
  agree_set (terminator_uses t s) ρ1 ρ2 -> exec_term t ρ1 = exec_term t ρ2.
Proof.
  intros Ha. apply (exec_term_agree_on _ _ _ _ Ha). intros x Hx.
  apply elem_of_terminator_uses. by left.
Qed.

(** A family of sets that satisfies the equations with inclusions is enough
    for soundness. *)
Definition live_at (lin : gmap N (gset N)) (id : N) : gset N := default ∅ (lin !! id).

Lemma solution_post f l : solution f l -> post_solution f (live_in l).
Proof. intros Hs b Hb. exists (block_in (live_in l) b). destruct (Hs b Hb). done. Qed.

Lemma live_at_block f T b :
  post_solution f T -> In b (f_blocks f) -> block_in T b ⊆ live_at T (bb_id b).
Proof. intros HT Hb. unfold live_at. destruct (HT b Hb) as (S & -> & Hsub). done. Qed.

Lemma live_at_succ T b id :
  In id (successors b) -> live_at T id ⊆ block_out T b.
Proof.
  intros Hid x Hx. apply elem_of_block_out. right. unfold live_at in Hx.
  destruct (T !! id) as [S|] eqn:HS; cbn in Hx; [eauto 10|set_solver].
Qed.

(** Runs from environments that agree on what is live have the same result,
    where the call of each function may go through a different program. *)
Lemma run_agree n fs f T id ρ1 ρ2 w :
  post_solution f T -> agree_set (live_at T id) ρ1 ρ2 ->
  run n fs f id ρ1 w = run n fs f id ρ2 w.
Proof.
  intros HT. revert id ρ1 ρ2 w. induction n as [|n IH]; intros id ρ1 ρ2 w Ha; [done|].
  rewrite !run_S. destruct (find_block f id) as [b|] eqn:Hfb; [|done]. cbn.
  apply find_block_In in Hfb as [Hb <-].
  assert (Hin : agree_set (block_in T b) ρ1 ρ2)
    by (eapply agree_set_mono; [by apply (live_at_block f)|done]).
  apply res_rel_eq. eapply res_rel_bind; [by apply (exec_insts_agree _ _ (block_out T b))|].
  intros [ρ1' w1] [ρ2' w2] [Ha' Hw]. cbn in Ha', Hw. subst w2.
  unfold block_out in Ha'. rewrite (exec_term_agree _ _ _ _ Ha').
  destruct (exec_term (bb_terminator b) ρ2') as [[v|id']| |] eqn:Ht; try done.
  cbn. apply res_rel_eq, IH. eapply agree_set_mono; [|exact Ha'].
  by apply live_at_succ, exec_term_jump with ρ2'.
Qed.

(** The rest of a block from a program point, then the run from its successor. *)
Definition run_from (n : nat) (fs : list MirFunction) (f : MirFunction) (b : BasicBlock)
    (idx : nat) (ρ : env) (w : world) : res (option val * world) :=
  '(ρ', w') ← exec_insts (call n fs) (drop (S idx) (bb_instructions b)) ρ w;
  nx ← exec_term (bb_terminator b) ρ';
  match nx with
  | Return_ v => Done (v, w')
  | Jump id' => run n fs f id' ρ' w'
  end.
End Sound.

(* ------------------------------------------------------------------ *)
(** ** Theorems                                                        *)
(* ------------------------------------------------------------------ *)

(** C17: the worklist loop of [analyze] terminates on every function whose block
    ids are positions, without a panic, within an explicit number of
    iterations; its result satisfies the dataflow equations of the module's
    documentation at every block, and its [live_in] is the least family of
    sets closed under them. *)
Theorem analyze_least_fixpoint f fuel :
  dense f -> analyze_fuel f <= fuel ->
  exists l, analyze fuel f = Done l /\ solution f l /\
    (forall T, post_solution f T -> sets_le (live_in l) T).
Proof. intros Hd Hf. destruct (analyze_spec f Hd fuel Hf) as (l & ? & ? & ? & ?). eauto. Qed.

(** C29: soundness of the analysis, for functions whose block ids are positions:
    after [analyze], two executions that start at the same block in the same
    world, from environments that agree on the locals reported live there, have
    the same result for every fuel. *)
Theorem liveness_sound `{MirLang} f fuel l fs n id (ρ1 ρ2 : env) w :
  dense f -> analyze_fuel f <= fuel -> analyze fuel f = Done l ->
  (forall x, x ∈ live_at (live_in l) id -> ρ1 x = ρ2 x) ->
  run n fs f id ρ1 w = run n fs f id ρ2 w.
Proof.
  intros Hd Hf Ha Hag. destruct (analyze_spec f Hd fuel Hf) as (l' & Ha' & Hs & _).
  assert (l' = l) as -> by congruence. eapply run_agree; [by apply solution_post|done].
Qed.

(** The set [live_after_instruction] reports at a program point is enough to
    resume there: continuing from environments that agree on it gives the same
    result, so no other local has to survive a suspension at that point. *)
Lemma live_after_instruction_sound `{MirLang} f fuel l fs n b idx s (ρ1 ρ2 : env) w :
  dense f -> analyze_fuel f <= fuel -> analyze fuel f = Done l -> In b (f_blocks f) ->
  live_after_instruction l f (bb_id b) idx = Done s ->
  (forall x, x ∈ s -> ρ1 x = ρ2 x) ->
  run_from n fs f b idx ρ1 w = run_from n fs f b idx ρ2 w.
Proof.
  intros Hd Hf Ha Hb Hl Hag. destruct (analyze_spec f Hd fuel Hf) as (l' & Ha' & Hs & _).
  assert (l' = l) as -> by congruence. unfold live_after_instruction in Hl.
  rewrite dense_block in Hl by done. destruct (Hs b Hb) as [Ho _]. rewrite Ho in Hl.
  cbn in Hl. simplify_eq. unfold run_from.
  apply res_rel_eq. eapply res_rel_bind; [by apply (exec_insts_agree _ _ (block_out (live_in l) b))|].
  intros [ρ1' w1] [ρ2' w2] [Ha2 Hw]. cbn in Ha2, Hw. subst w2.
  unfold block_out in Ha2. rewrite (exec_term_agree _ _ _ _ Ha2).
  destruct (exec_term (bb_terminator b) ρ2') as [[v|id']| |] eqn:Ht; try done.
  cbn. apply res_rel_eq. eapply run_agree; [by apply solution_post|].
  eapply agree_set_mono; [|exact Ha2]. by apply live_at_succ, exec_term_jump with ρ2'.
Qed.

(* ------------------------------------------------------------------ *)
(** ** On a concrete function                                          *)
(* ------------------------------------------------------------------ *)

Definition gcd_live : Liveness :=
  match analyze (analyze_fuel gcd_function) gcd_function with
  | Done l => l
  | _ => mkLiveness ∅ ∅
  end.

(** Two environments that differ on the remainder's temporary only. *)
Definition gcd_env (t : Z) : LocalId -> scalar := fun x =>
  if N.eqb x 0 then S_I64 48 else if N.eqb x 1 then S_I64 18 else S_I64 t.

Lemma gcd_dense : dense gcd_function.
Proof. apply dense_b_spec. vm_compute. reflexivity. Qed.

Lemma gcd_env_agree t1 t2 (s : gset N) :
  s = {[0%N; 1%N]} -> forall x, x ∈ s -> gcd_env t1 x = gcd_env t2 x.
Proof. intros ->. intros x [->%elem_of_singleton| ->%elem_of_singleton]%elem_of_union; done. Qed.

Lemma analyze_least_fixpoint_witness :
  exists l, analyze (analyze_fuel gcd_function) gcd_function = Done l /\ solution gcd_function l /\
    (forall T, post_solution gcd_function T -> sets_le (live_in l) T).
Proof. apply (analyze_least_fixpoint gcd_function); [apply gcd_dense|reflexivity]. Defined.

Lemma liveness_sound_witness :
  run (H := clif_lang) 9 [gcd_function] gcd_function 2%N (gcd_env 1) []
  = run (H := clif_lang) 9 [gcd_function] gcd_function 2%N (gcd_env 2) [].
Proof.
  apply (liveness_sound (H := clif_lang) gcd_function (analyze_fuel gcd_function) gcd_live);
    [apply gcd_dense|reflexivity|vm_compute; reflexivity|].
  apply gcd_env_agree. vm_compute. reflexivity.
Defined.

Lemma live_after_instruction_sound_witness :
  exists b s, live_after_instruction gcd_live gcd_function 0%N 0 = Done s /\
    run_from (H := clif_lang) 9 [gcd_function] gcd_function b 0 (gcd_env 1) []
    = run_from (H := clif_lang) 9 [gcd_function] gcd_function b 0 (gcd_env 1) [].
Proof.
  do 2 eexists. split; [vm_compute; reflexivity|].
  apply (live_after_instruction_sound (H := clif_lang) gcd_function (analyze_fuel gcd_function)
    gcd_live [gcd_function] 9
    (mkBlock 0%N [I_Assign 2%N (RV_BinOp Bin_Eq (loc 1%N) (int 0))] (T_Branch (loc 2%N) 1%N 2%N))
    0 {[0%N; 1%N; 2%N]});
    [apply gcd_dense|reflexivity|vm_compute; reflexivity|vm_compute; tauto
    |vm_compute; reflexivity|done].
Defined.
