(* ===== verification/AsyncLower.v ===== *)
(** The lowering of async functions to state machines ([kryos-mir/src/async_lower.rs]): the
    plans of the functions, the structs of their states, and the split of a function at its
    suspension points. *)

From S2P Require Import Prelude MirIr MirUses Liveness.
Open Scope string_scope.

(* ------------------------------------------------------------------ *)
(** ** Plans                                                           *)
(* ------------------------------------------------------------------ *)

Record CapturedLocal := mkCaptured { cap_id : LocalId; cap_name : string; cap_ty : MirType; cap_is_param : bool }.
Record AsyncPlan := mkPlan {
  source_name : string;
  state_struct_name : string;
  poll_fn_name : string;
  captured_locals : list CapturedLocal;
  result_ty : MirType
}.
Record AsyncLoweringError := mkAsyncError { ae_function : string; ae_message : string }.
(** A [BTreeMap] is the list of its entries in the order of the keys. *)
Record AsyncLoweringReport := mkReport { plans : list (string * AsyncPlan); errors : list AsyncLoweringError }.

Fixpoint btree_insert {A} (k : string) (v : A) (l : list (string * A)) : list (string * A) :=
  match l with
  | [] => [(k, v)]
  | (k', v') :: l' => match String.compare k k' with
    | Lt => (k, v) :: l
    | Eq => (k, v) :: l'
    | Gt => (k', v') :: btree_insert k v l'
    end
  end.
Definition btree_get {A} (k : string) (l : list (string * A)) : option A := snd <$> find (fun e => String.eqb e.1 k) l.

Definition poll_fn_name_for (source_name : string) : string := "__kryos_poll_" ++ source_name.
Definition state_struct_name_for (source_name : string) : string := "__kryos_state_" ++ source_name.
Definition is_async_artifact_name (name : string) : bool :=
  String.prefix "__kryos_poll_" name || String.prefix "__kryos_state_" name.

Definition capture (func : MirFunction) (l : MirLocal) : option CapturedLocal :=
  (fun name => mkCaptured (l_id l) name (l_ty l) (existsb (fun p => N.eqb (p_local p) (l_id l)) (f_params func))) <$> l_name l.
(** Called for async functions only. *)
Definition analyse_function (func : MirFunction) : AsyncLoweringError + AsyncPlan :=
  if attr_inline (f_attributes func) then inl (mkAsyncError (f_name func) "async fn cannot also be @inline")
  else inr (mkPlan (f_name func) (state_struct_name_for (f_name func)) (poll_fn_name_for (f_name func))
    (omap (capture func) (f_locals func))
    (match f_ret_ty func with Ty_Void => Ty_I64 | other => other end)).
Definition run_async (m : MirModule) : AsyncLoweringReport :=
  fold_left (fun report func =>
    if attr_is_async (f_attributes func) then
      match analyse_function func with
      | inr plan => mkReport (btree_insert (source_name plan) plan (plans report)) (errors report)
      | inl err => mkReport (plans report) (errors report ++ [err])%list
      end
    else report) (m_functions m) (mkReport [] []).

(** [struct_defs.insert]: the module's structs are a hash map. *)
Definition insert_struct (name : string) (fields : list (string * MirType)) (m : MirModule) : MirModule :=
  mkModule (m_functions m) ((name, fields) :: filter (fun e => e.1 <> name) (m_struct_defs m))
    (m_enum_defs m) (m_trait_vtables m) (m_copy_structs m).
Definition state_fields (plan : AsyncPlan) : list (string * MirType) :=
  (("state", Ty_I32) :: map (fun c => (cap_name c, cap_ty c)) (captured_locals plan) ++ [("result", result_ty plan)])%list.
Definition apply_state_structs (m : MirModule) (report : AsyncLoweringReport) : MirModule * nat :=
  fold_left (fun '(m, inserted) '(_, plan) =>
    (insert_struct (state_struct_name plan) (state_fields plan) m, S inserted)) (plans report) (m, 0).

(* ------------------------------------------------------------------ *)
(** ** The split at suspension points                                  *)
(* ------------------------------------------------------------------ *)

Record SplitPoint := mkSplit { sp_block : BlockId; sp_inst_idx : nat }.
Inductive SplitError :=
| BadBlock (b : BlockId)
| BadInstIdx (block : BlockId) (idx : nat)
| DuplicateBlock (b : BlockId)
| MissingStatePtrParam.
Record SplitOutcome := mkOutcome { resume_blocks : list BlockId; saved_locals : list (list LocalId) }.

(** Refuses the first split point that is out of range, or in a block that is split already. *)
Fixpoint validate (blocks : list BasicBlock) (seen : gset N) (splits : list SplitPoint) : option SplitError :=
  match splits with
  | [] => None
  | sp :: splits => match blocks !! N.to_nat (sp_block sp) with
    | None => Some (BadBlock (sp_block sp))
    | Some blk =>
        if Nat.leb (length (bb_instructions blk)) (sp_inst_idx sp) then Some (BadInstIdx (sp_block sp) (sp_inst_idx sp))
        else if bool_decide (sp_block sp ∈ seen) then Some (DuplicateBlock (sp_block sp))
        else validate blocks ({[sp_block sp]} ∪ seen) splits
    end
  end.

Definition local_name (id : LocalId) (locals : list MirLocal) : option string :=
  l ← find (fun l => N.eqb (l_id l) id) locals; l_name l.
(** The locals to save with the names of their fields: without the state pointer and the
    locals that have no name. *)
Definition to_save (locals : list MirLocal) (state_ptr : LocalId) (live : list LocalId) : list (LocalId * string) :=
  omap (fun id => if N.eqb id state_ptr then None else (fun name => (id, name)) <$> local_name id locals) live.

Definition save (state_ptr : LocalId) (state_id : Z) (saved : list (LocalId * string)) : list Instruction :=
  I_StoreField (Op_Local state_ptr) "state" (Op_Constant (C_Int state_id))
  :: map (fun '(lid, name) => I_StoreField (Op_Local state_ptr) name (Op_Local lid)) saved.
Definition reload (state_ptr : LocalId) (saved : list (LocalId * string)) : list Instruction :=
  map (fun '(lid, name) => I_Assign lid (RV_Field (Op_Local state_ptr) name)) saved.
Definition suspend_term : Terminator := T_Return (Some (Op_Constant (C_Int 0))).

(** The block up to the suspension, and the rest of it. *)
Definition first_half (state_ptr : LocalId) (split_index : nat) (sp : SplitPoint) (blk : BasicBlock)
    (saved : list (LocalId * string)) : BasicBlock :=
  mkBlock (bb_id blk)
    (take (S (sp_inst_idx sp)) (bb_instructions blk) ++ save state_ptr (Z.of_nat split_index + 1) saved)%list suspend_term.
Definition resume_half (state_ptr : LocalId) (id : BlockId) (sp : SplitPoint) (blk : BasicBlock)
    (saved : list (LocalId * string)) : BasicBlock :=
  mkBlock id (reload state_ptr saved ++ drop (S (sp_inst_idx sp)) (bb_instructions blk))%list (bb_terminator blk).

Section Split.
Context (live : Liveness) (state_ptr : LocalId).

(** One round of the loop over the split points, with its index. *)
Definition split_block (f : MirFunction) (split_index : nat) (sp : SplitPoint) : res (MirFunction * list LocalId) :=
  ids ← live_after f live (sp_block sp) (sp_inst_idx sp);
  let saved := to_save (f_locals f) state_ptr ids in
  blk ← block f (sp_block sp);
  let new_block_id := N.of_nat (length (f_blocks f)) in
  Done (set_blocks f (<[N.to_nat (sp_block sp) := first_half state_ptr split_index sp blk saved]> (f_blocks f)
    ++ [resume_half state_ptr new_block_id sp blk saved])%list, map fst saved).
Fixpoint split_blocks (f : MirFunction) (split_index : nat) (splits : list SplitPoint)
    : res (MirFunction * list BlockId * list (list LocalId)) :=
  match splits with
  | [] => Done (f, [], [])
  | sp :: splits =>
      let new_block_id := N.of_nat (length (f_blocks f)) in
      '(f, saved) ← split_block f split_index sp;
      '(f, ids, savedss) ← split_blocks f (S split_index) splits;
      Done (f, new_block_id :: ids, saved :: savedss)
  end.
End Split.

Definition rewrite_terminator_ids (id_remap : gmap N N) (t : Terminator) : Terminator :=
  let remap b := default b (id_remap !! b) in
  match t with
  | T_Return _ | T_Unreachable => t
  | T_Goto b => T_Goto (remap b)
  | T_Branch cond b1 b2 => T_Branch cond (remap b1) (remap b2)
  | T_Switch value targets def => T_Switch value (map (fun '(k, b) => (k, remap b)) targets) (remap def)
  end.
(** The blocks take their positions as ids; a later block of the same id wins. *)
Definition number_all (blocks : list BasicBlock) : gmap N N :=
  fold_left (fun m '(i, b) => <[bb_id b := N.of_nat i]> m) (zip (seq 0 (length blocks)) blocks) ∅.
Definition reid_block (id_remap : gmap N N) (i : nat) (b : BasicBlock) : BasicBlock :=
  mkBlock (N.of_nat i) (bb_instructions b) (rewrite_terminator_ids id_remap (bb_terminator b)).

Definition dispatch_block (state_ptr d : LocalId) (id prev_entry : BlockId) (resumes : list BlockId) : BasicBlock :=
  mkBlock id [I_Assign d (RV_Field (Op_Local state_ptr) "state")]
    (T_Switch (Op_Local d) (zip_with (fun i b => (Z.of_nat i + 1, b)%Z) (seq 0 (length resumes)) resumes) prev_entry).
(** The entry block that dispatches on the state, and the new numbers of the blocks. *)
Definition add_dispatch (f : MirFunction) (name : string) (state_ptr : LocalId) (resumes : list BlockId)
    : res (MirFunction * list BlockId) :=
  prev_entry ← entry_block f;
  let d := N.of_nat (length (f_locals f)) in
  let locals := (f_locals f ++ [mkLocal d (Some (String.append "__kryos_state_disc_" name)) Ty_I32 false])%list in
  let dispatch := dispatch_block state_ptr d (N.of_nat (length (f_blocks f))) (bb_id prev_entry) resumes in
  let blocks := dispatch :: f_blocks f in
  let id_remap := number_all blocks in
  resumes ← mapM (fun b => of_option (id_remap !! b)) resumes;
  Done (set_locals (set_blocks f (imap (reid_block id_remap) blocks)) locals, resumes).

(** An error leaves the function unchanged. *)
Definition split_at_await (f : MirFunction) (name : string) (splits : list SplitPoint)
    : res (SplitError + MirFunction * SplitOutcome) :=
  match splits with
  | [] => Done (inr (f, mkOutcome [] []))
  | _ =>
    match validate (f_blocks f) ∅ splits, f_params f with
    | Some e, _ => Done (inl e)
    | None, [] => Done (inl MissingStatePtrParam)
    | None, p :: _ =>
        live ← analyze (analyze_fuel f) f;
        '(f, resumes, saved) ← split_blocks live (p_local p) f 0 splits;
        '(f, resumes) ← add_dispatch f name (p_local p) resumes;
        Done (inr (f, mkOutcome resumes saved))
    end
  end.

(* ------------------------------------------------------------------ *)
(** ** The driver                                                      *)
(* ------------------------------------------------------------------ *)

Definition is_await (async_callees : list string) (i : Instruction) : bool :=
  match i with I_Assign _ (RV_Call callee _) => existsb (String.eqb callee) async_callees | _ => false end.
Definition split_le (a b : SplitPoint) : Prop :=
  (sp_block a < sp_block b)%N \/ (sp_block a = sp_block b /\ sp_inst_idx a <= sp_inst_idx b).
#[export] Instance split_le_dec a b : Decision (split_le a b).
Proof. unfold split_le. apply _. Defined.
Definition find_split_points (f : MirFunction) (async_callees : list string) : list SplitPoint :=
  merge_sort split_le (flat_map (fun b =>
    omap (fun '(idx, i) => if is_await async_callees i then Some (mkSplit (bb_id b) idx) else None)
      (zip (seq 0 (length (bb_instructions b))) (bb_instructions b))) (f_blocks f)).
(** The first split of each block. *)
Fixpoint first_per_block (seen : gset N) (l : list SplitPoint) : list SplitPoint :=
  match l with
  | [] => []
  | sp :: l => if bool_decide (sp_block sp ∈ seen) then first_per_block seen l
               else sp :: first_per_block ({[sp_block sp]} ∪ seen) l
  end.
Definition apply_split (report : AsyncLoweringReport) (f : MirFunction) : res (MirFunction * nat) :=
  if negb (attr_is_async (f_attributes f)) then Done (f, 0)
  else match btree_get (f_name f) (plans report) with
  | None => Done (f, 0)
  | Some plan =>
      match find_split_points f (map fst (plans report)) with
      | [] => Done (f, 0)
      | raw_points =>
          r ← split_at_await f (state_struct_name plan) (first_per_block ∅ raw_points);
          Done (match r with inr (f', _) => (f', 1) | inl _ => (f, 0) end)
      end
  end.
Definition apply_split_at_awaits (m : MirModule) (report : AsyncLoweringReport) : res (MirModule * nat) :=
  l ← mapM (apply_split report) (m_functions m);
  Done (set_functions m (map fst l), sum_list (map snd l)).
(** The hook of later passes; it sets nothing. *)
Definition stamp_attributes (m : MirModule) : MirModule := m.
