(* ===== verification/AsyncFrame.v ===== *)
(** Polling a function until it returns, what is expected of the struct that holds its state, and
    two runs beside each other in worlds that differ in that struct only. *)

From S2P Require Import Prelude MirIr MirUses MirSem Liveness.

(* ------------------------------------------------------------------ *)
(** ** Polling                                                         *)
(* ------------------------------------------------------------------ *)

Section Poll.
Context `{MirLang}.

(** [drive fuel fs f susp fresh id ρ w]: like [run], but when a block of [susp] returns the function
    is entered again, in the world it left and with the locals [fresh]. *)
Fixpoint drive (fuel : nat) (fs : list MirFunction) (f : MirFunction) (susp : list BlockId) (fresh : env)
    (id : BlockId) (ρ : env) (w : world) : res (option val * world) :=
  match fuel with
  | O => OutOfFuel
  | S n =>
      b ← of_option (find_block f id);
      '(ρ', w') ← exec_insts (call n fs) (bb_instructions b) ρ w;
      nx ← exec_term (bb_terminator b) ρ';
      match nx with
      | Return_ v =>
          if bool_decide (id ∈ susp) then
            id0 ← of_option (entry_id f);
            drive n fs f susp fresh id0 fresh w'
          else Done (v, w')
      | Jump id' => drive n fs f susp fresh id' ρ' w'
      end
  end.
End Poll.

(* ------------------------------------------------------------------ *)
(** ** The state struct                                                *)
(* ------------------------------------------------------------------ *)

(** What is expected of the struct at [p]: its fields hold what was stored last, and
    a program that is not given [p] neither reads nor writes it.  [same_rest w1 w2]: the worlds
    agree but for the struct. *)
Class StateStruct (M : MirLang) (p : val) := {
  same_rest : world -> world -> Prop;
  fld : world -> string -> val;
  store_law (ρ : env) w q name o :
    ρ q = p -> exists v w',
      prim_effect (shape_inst (I_StoreField (Op_Local q) name o)) (map ρ (inst_uses (I_StoreField (Op_Local q) name o))) w
        = Some (v, w')
      /\ (forall w0, same_rest w0 w -> same_rest w0 w')
      /\ (forall n, fld w' n = if String.eqb n name then operand_val ρ o else fld w n);
  load_law (ρ : env) w q name :
    ρ q = p ->
    prim_rvalue (shape_rvalue (RV_Field (Op_Local q) name)) (map ρ (rvalue_uses (RV_Field (Op_Local q) name))) w
      = Some (fld w name, w);
  const_not_p c : const_val c <> p;
  undef_not_p : undef_val <> p;
  none_not_p : none_val <> p;
  switch_const k : (0 <= k < 2 ^ 31)%Z -> switch_on (const_val (C_Int k)) = k;
  prim_rvalue_frame rv vs w1 w2 :
    Forall (fun v => v <> p) vs -> same_rest w1 w2 ->
    option_Forall2 (fun a b => a.1 = b.1 /\ a.1 <> p /\ same_rest a.2 b.2 /\ forall n, fld b.2 n = fld w2 n)
      (prim_rvalue rv vs w1) (prim_rvalue rv vs w2);
  prim_effect_frame i vs w1 w2 :
    Forall (fun v => v <> p) vs -> same_rest w1 w2 ->
    option_Forall2 (fun a b => a.1 = b.1 /\ a.1 <> p /\ same_rest a.2 b.2 /\ forall n, fld b.2 n = fld w2 n)
      (prim_effect i vs w1) (prim_effect i vs w2);
  resolve_frame rv vs w1 w2 :
    Forall (fun v => v <> p) vs -> same_rest w1 w2 ->
    resolve_call rv vs w1 = resolve_call rv vs w2
    /\ forall name args, resolve_call rv vs w1 = Some (name, args) -> Forall (fun v => v <> p) args;
  extern_frame name args w1 w2 :
    Forall (fun v => v <> p) args -> same_rest w1 w2 ->
    option_Forall2 (fun a b => a.1 = b.1 /\ a.1 <> p /\ same_rest a.2 b.2 /\ forall n, fld b.2 n = fld w2 n)
      (extern_call name args w1) (extern_call name args w2)
}.

(* ------------------------------------------------------------------ *)
(** ** Two runs beside each other                                      *)
(* ------------------------------------------------------------------ *)

Section Beside.
Context {M : MirLang} (p : val) {SS : StateStruct M p}.
Context (left_ok right_ok : Prop).
Implicit Types (ρ : env) (w : world).

(** Related results, unless a side that may has run out of fuel. *)
Definition Sim {A B} (R : A -> B -> Prop) (m1 : res A) (m2 : res B) : Prop :=
  (m1 = OutOfFuel /\ left_ok) \/ (m2 = OutOfFuel /\ right_ok) \/ res_rel R m1 m2.

Lemma Sim_bind {A B A' B'} (R : A -> B -> Prop) (R' : A' -> B' -> Prop)
    (m1 : res A) (m2 : res B) (f : A -> res A') (g : B -> res B') :
  Sim R m1 m2 -> (forall a b, R a b -> Sim R' (f a) (g b)) -> Sim R' (m1 ≫= f) (m2 ≫= g).
Proof.
  intros [[-> ?]|[[-> ?]|Hr]] Hf; [by left|by right; left|].
  destruct m1, m2; cbn in Hr; try done; [by apply Hf|by right; right..].
Qed.
Lemma Sim_weaken {A B} (R R' : A -> B -> Prop) (m1 : res A) (m2 : res B) :
  Sim R m1 m2 -> (forall a b, R a b -> R' a b) -> Sim R' m1 m2.
Proof.
  intros [?|[?|Hr]] Hw; [by left|by right; left|]. right; right. destruct m1, m2; cbn in *; auto.
Qed.
Lemma Sim_option {A B} (R : A -> B -> Prop) o1 o2 : option_Forall2 R o1 o2 -> Sim R (of_option o1) (of_option o2).
Proof. intros []; right; right; cbn; done. Qed.

(** The results of an instruction or a call that starts in [w2] on the right. *)
Definition value_rel (w2 : world) (a b : val * world) : Prop :=
  a.1 = b.1 /\ a.1 <> p /\ same_rest a.2 b.2 /\ forall n, fld b.2 n = fld w2 n.
Definition callf_sim (c1 c2 : string -> list val -> world -> res (val * world)) : Prop :=
  forall name args w1 w2, Forall (fun v => v <> p) args -> same_rest w1 w2 ->
    Sim (value_rel w2) (c1 name args w1) (c2 name args w2).
(** The environments agree on the locals of [P], which do not hold the struct. *)
Definition close (P : LocalId -> Prop) (ρ1 ρ2 : env) : Prop := forall x, P x -> ρ1 x = ρ2 x /\ ρ1 x <> p.
Definition state_rel (P : LocalId -> Prop) (keep : LocalId -> Prop) (ρ2 : env) (w2 : world) (a b : env * world) : Prop :=
  close P a.1 b.1 /\ same_rest a.2 b.2 /\ (forall n, fld b.2 n = fld w2 n) /\ (forall x, keep x -> b.1 x = ρ2 x).

Lemma close_map P ρ1 ρ2 xs :
  close P ρ1 ρ2 -> (forall x, In x xs -> P x) -> map ρ1 xs = map ρ2 xs /\ Forall (fun v => v <> p) (map ρ1 xs).
Proof.
  intros Hc Hx. split.
  - apply map_ext_in. intros x Hin. by apply Hc, Hx.
  - apply List.Forall_forall. intros v (x & <- & Hin)%in_map_iff. by apply Hc, Hx.
Qed.
Lemma close_operand P ρ1 ρ2 o :
  close P ρ1 ρ2 -> (forall x, In x (operand_uses o) -> P x) -> operand_val ρ1 o = operand_val ρ2 o /\ operand_val ρ1 o <> p.
Proof. intros Hc Ho. destruct o as [x|c]; cbn in *; [apply Hc, Ho; auto|]. split; [done|apply const_not_p]. Qed.
Lemma close_operands P ρ1 ρ2 os :
  close P ρ1 ρ2 -> (forall x, In x (operands_uses os) -> P x) ->
  map (operand_val ρ1) os = map (operand_val ρ2) os /\ Forall (fun v => v <> p) (map (operand_val ρ1) os).
Proof.
  intros Hc Ho. assert (He : forall o, In o os -> operand_val ρ1 o = operand_val ρ2 o /\ operand_val ρ1 o <> p).
  { intros o Hin. apply (close_operand P); [done|]. intros x Hx. apply Ho, in_flat_map. eauto. }
  split; [apply map_ext_in; intros o Hin; by apply He|].
  apply List.Forall_forall. intros v (o & <- & Hin)%in_map_iff. by apply He.
Qed.

Section Calls.
Context (c1 c2 : string -> list val -> world -> res (val * world)) (Hcalls : callf_sim c1 c2).

Lemma eval_rvalue_sim P rv ρ1 ρ2 w1 w2 :
  close P ρ1 ρ2 -> (forall x, In x (rvalue_uses rv) -> P x) -> same_rest w1 w2 ->
  Sim (value_rel w2) (eval_rvalue c1 ρ1 w1 rv) (eval_rvalue c2 ρ2 w2 rv).
Proof.
  intros Hc Hu Hw.
  assert (Hprim : forall rv, (forall x, In x (rvalue_uses rv) -> P x) ->
    Sim (value_rel w2) (of_option (prim_rvalue (shape_rvalue rv) (map ρ1 (rvalue_uses rv)) w1))
      (of_option (prim_rvalue (shape_rvalue rv) (map ρ2 (rvalue_uses rv)) w2))).
  { clear rv Hu. intros rv Hu. destruct (close_map P ρ1 ρ2 (rvalue_uses rv) Hc Hu) as [<- Hp]. by apply Sim_option, prim_rvalue_frame. }
  assert (Hres : forall rv, (forall x, In x (rvalue_uses rv) -> P x) -> Sim (value_rel w2)
    ('(func, args) ← of_option (resolve_call (shape_rvalue rv) (map ρ1 (rvalue_uses rv)) w1); c1 func args w1)
    ('(func, args) ← of_option (resolve_call (shape_rvalue rv) (map ρ2 (rvalue_uses rv)) w2); c2 func args w2)).
  { clear rv Hu. intros rv Hu. destruct (close_map P ρ1 ρ2 (rvalue_uses rv) Hc Hu) as [<- Hp].
    destruct (resolve_frame (shape_rvalue rv) _ w1 w2 Hp Hw) as [<- Ha].
    destruct (resolve_call _ _ w1) as [[name args]|]; cbn; [|by right; right]. apply Hcalls; [by apply (Ha name)|done]. }
  induction rv; try exact (Hprim _ Hu); try exact (Hres _ Hu); cbn [eval_rvalue].
  - destruct (close_operands P ρ1 ρ2 args Hc Hu) as [<- Hp]. by apply Hcalls.
  - by right; right.
  - auto.
Qed.

Lemma close_defs P ρ1 ρ2 ds v :
  (forall x, P x -> x ∉ ds -> ρ1 x = ρ2 x /\ ρ1 x <> p) -> v <> p -> close P (upd_defs ρ1 ds v) (upd_defs ρ2 ds v).
Proof.
  intros Hc Hv. unfold upd_defs. intros x Hx. specialize (Hc x Hx). revert Hc. clear Hx.
  induction ds as [|d ds IH]; cbn; intros Hc; [apply Hc; set_solver|].
  unfold upd. destruct (N.eqb_spec x d) as [->|Hne]; [done|]. apply IH. intros Hin. apply Hc. set_solver.
Qed.
Lemma defs_untouched ρ ds v x : x ∉ ds -> upd_defs ρ ds v x = ρ x.
Proof.
  unfold upd_defs. induction ds as [|d ds IH]; cbn; intros Hx; [done|]. apply not_elem_of_cons in Hx as [Hne Hx].
  rewrite upd_ne by done. by apply IH.
Qed.

Lemma exec_inst_sim P i ρ1 ρ2 w1 w2 :
  (forall x, In x (inst_uses i) -> ρ1 x = ρ2 x /\ ρ1 x <> p) ->
  (forall x, P x -> x ∉ inst_defs i -> ρ1 x = ρ2 x /\ ρ1 x <> p) -> same_rest w1 w2 ->
  Sim (state_rel P (fun x => x ∉ inst_defs i) ρ2 w2) (exec_inst c1 i ρ1 w1) (exec_inst c2 i ρ2 w2).
Proof.
  intros Hu Hp Hw.
  assert (Hend : forall a b, value_rel w2 a b ->
    Sim (state_rel P (fun x => x ∉ inst_defs i) ρ2 w2) (let '(v, w') := a in Done (upd_defs ρ1 (inst_defs i) v, w'))
      (let '(v, w') := b in Done (upd_defs ρ2 (inst_defs i) v, w'))).
  { intros [v1 w1'] [v2 w2'] (Hv & Hn & Hw' & Hk). cbn in *. subst v2. right; right. split; [by apply close_defs|].
    split; [done|]. split; [done|]. intros x Hx. by apply defs_untouched. }
  assert (Heff : Sim (value_rel w2) (of_option (prim_effect (shape_inst i) (map ρ1 (inst_uses i)) w1))
                   (of_option (prim_effect (shape_inst i) (map ρ2 (inst_uses i)) w2))).
  { destruct (close_map (fun x => In x (inst_uses i)) ρ1 ρ2 (inst_uses i)) as [<- Hf]; [done|auto|].
    by apply Sim_option, prim_effect_frame. }
  destruct i; try (exact (Sim_bind _ _ _ _ _ _ Heff Hend)).
  cbn [exec_inst]. eapply Sim_bind; [|exact Hend]. by apply (eval_rvalue_sim (fun x => In x (rvalue_uses value))).
Qed.

(** Instructions that do not mention [q]. *)
Lemma exec_insts_sim q (s : gset N) insts ρ1 ρ2 w1 w2 :
  (forall i, In i insts -> (q ∉ inst_defs i) /\ q ∉ inst_uses i) ->
  close (fun x => (x ∈ transfer_block insts s) /\ x <> q) ρ1 ρ2 -> same_rest w1 w2 ->
  Sim (state_rel (fun x => (x ∈ s) /\ x <> q) (eq q) ρ2 w2) (exec_insts c1 insts ρ1 w1) (exec_insts c2 insts ρ2 w2).
Proof.
  intros Hq. revert ρ1 ρ2 w1 w2. induction insts as [|i insts IH]; intros ρ1 ρ2 w1 w2 Hc Hw; cbn [exec_insts].
  { right; right. by repeat split; try apply Hc. }
  destruct (Hq i (or_introl eq_refl)) as [Hd Hu]. cbn [transfer_block foldr] in Hc.
  eapply Sim_bind.
  - apply (exec_inst_sim (fun x => (x ∈ transfer_block insts s) /\ x <> q)); [| |done].
    + intros x Hx. apply Hc. split; [apply elem_of_transfer_instruction; auto|].
      intros ->. by apply Hu, list_elem_of_In.
    + intros x [Hx Hne] Hnd. apply Hc. split; [|done]. apply elem_of_transfer_instruction. right. split; [done|]. by rewrite <-list_elem_of_In.
  - intros [ρ1' w1'] [ρ2' w2'] (Hc' & Hw' & Hk & Hkeep). cbn in *.
    eapply Sim_weaken; [apply IH; [intros j Hj; apply Hq; auto|done|done]|].
    intros a b (Ha & Hs & Hf & He). split; [done|]. split; [done|]. split; [intros n; by rewrite Hf|].
    intros x <-. rewrite He by done. by apply Hkeep.
Qed.
(** Instructions of a function that is not given the struct. *)
Lemma exec_insts_all insts ρ1 ρ2 w1 w2 :
  close (fun _ => True) ρ1 ρ2 -> same_rest w1 w2 ->
  Sim (state_rel (fun _ => True) (fun _ => False) ρ2 w2) (exec_insts c1 insts ρ1 w1) (exec_insts c2 insts ρ2 w2).
Proof.
  revert ρ1 ρ2 w1 w2. induction insts as [|i insts IH]; intros ρ1 ρ2 w1 w2 Hc Hw; cbn [exec_insts].
  { right; right. by repeat split; try apply Hc. }
  eapply Sim_bind; [apply (exec_inst_sim (fun _ => True)); auto|].
  intros [ρ1' w1'] [ρ2' w2'] (Hc' & Hw' & Hk & _). cbn in *. eapply Sim_weaken; [by apply IH|].
  intros a b (Ha & Hs & Hf & He). split; [done|]. split; [done|]. split; [intros n; by rewrite Hf|done].
Qed.
End Calls.

Definition next_rel (nx : next) : Prop := match nx with Return_ v => v <> Some p | Jump _ => True end.
Lemma exec_term_close P t ρ1 ρ2 :
  close P ρ1 ρ2 -> (forall x, In x (term_uses t) -> P x) ->
  exec_term t ρ1 = exec_term t ρ2 /\ match exec_term t ρ1 with Done nx => next_rel nx | _ => True end.
Proof.
  intros Hc Hu. assert (Ho : forall o, term_operand t = Some o -> operand_val ρ1 o = operand_val ρ2 o /\ operand_val ρ1 o <> p).
  { intros o Ht. apply (close_operand P); [done|]. intros x Hx. apply Hu. unfold term_uses. by rewrite Ht. }
  destruct t as [[o|]| |c b1 b2|v targets def|]; cbn in *; try done.
  - destruct (Ho o eq_refl) as [<- Hn]. split; [done|]. by intros [= ?].
  - by destruct (Ho c eq_refl) as [<- _].
  - by destruct (Ho v eq_refl) as [<- _].
Qed.

(** Calls beside each other. *)
Definition result_rel (w2 : world) (a b : option val * world) : Prop :=
  a.1 = b.1 /\ a.1 <> Some p /\ same_rest a.2 b.2 /\ forall n, fld b.2 n = fld w2 n.
Lemma bind_params_close ps vs ρ : Forall (fun v => v <> p) vs -> (forall x, ρ x <> p) -> forall x, bind_params ps vs ρ x <> p.
Proof.
  revert vs ρ. induction ps as [|y ps IH]; intros vs ρ Hv Hρ x; destruct vs as [|v vs]; cbn; auto.
  apply Forall_cons in Hv as [Hv Hvs]. apply IH; [done|]. intros z. unfold upd. by destruct (N.eqb _ _).
Qed.
Lemma call_beside k (c : nat) fs name args w1 w2 :
  (forall f id ρ1 ρ2 w1 w2, close (fun _ => True) ρ1 ρ2 -> same_rest w1 w2 ->
    Sim (result_rel w2) (run k fs f id ρ1 w1) (run c fs f id ρ2 w2)) ->
  Forall (fun v => v <> p) args -> same_rest w1 w2 ->
  Sim (value_rel w2) (call k fs name args w1) (call c fs name args w2).
Proof.
  intros Hr Ha Hw. unfold call. destruct (find_function fs name) as [g|]; [|by apply Sim_option, extern_frame].
  destruct (entry_id g) as [id0|]; cbn; [|by right; right]. eapply Sim_bind.
  - apply Hr; [|done]. intros x _. split; [done|]. apply bind_params_close; [done|]. intros y. apply undef_not_p.
  - intros [r1 w1'] [r2 w2'] (Hv & Hn & Hs & Hf). cbn in *. subst r2. right; right. split; [done|]. split; [|done].
    destruct r1 as [v|]; cbn; [congruence|apply none_not_p].
Qed.
Lemma run_beside n fs f id ρ1 ρ2 w1 w2 :
  close (fun _ => True) ρ1 ρ2 -> same_rest w1 w2 -> Sim (result_rel w2) (run n fs f id ρ1 w1) (run n fs f id ρ2 w2).
Proof.
  revert f id ρ1 ρ2 w1 w2. induction n as [|n IH]; intros f id ρ1 ρ2 w1 w2 Hc Hw; [by right; right|].
  rewrite !run_S. destruct (find_block f id) as [b|]; cbn; [|by right; right].
  eapply Sim_bind.
  - apply exec_insts_all; [|done|done]. intros name args w1' w2'. apply call_beside. intros. by apply IH.
  - intros [ρ1' w1'] [ρ2' w2'] (Hc' & Hw' & Hk & _). cbn in Hc', Hw', Hk.
    destruct (exec_term_close (fun _ => True) (bb_terminator b) ρ1' ρ2' Hc') as [<- Hnx]; [done|].
    destruct (exec_term (bb_terminator b) ρ1') as [[v|id']| |]; [|..]; cbn; try (by right; right).
    eapply Sim_weaken; [by apply IH|]. intros a c (H1 & H2 & H3 & H4). repeat split; try done. intros x. by rewrite H4.
Qed.
End Beside.

(** Calls with different fuels. *)
Lemma calls_sim {M : MirLang} p {SS : StateStruct M p} left_ok right_ok k1 k2 fs :
  (left_ok /\ k1 <= k2)%nat \/ (right_ok /\ k2 <= k1)%nat ->
  callf_sim p left_ok right_ok (call k1 fs) (call k2 fs).
Proof.
  intros Hk name args w1 w2 Ha Hw.
  assert (Hsame : forall k, res_rel (value_rel p w2) (call k fs name args w1) (call k fs name args w2)).
  { intros k. destruct (call_beside p False False k k fs name args w1 w2) as [[_ []]|[[_ []]|H]]; try done.
    intros. by apply run_beside. }
  destruct Hk as [[Hok Hle]|[Hok Hle]].
  - specialize (Hsame k1). destruct (call k1 fs name args w1) as [a| |] eqn:E1; [| |by left]; right; right;
      destruct (call k1 fs name args w2) as [b| |] eqn:E2; try done; by rewrite (call_more k1 k2 _ _ _ _ _ Hle E2).
  - specialize (Hsame k2). destruct (call k2 fs name args w2) as [b| |] eqn:E2; [| |by right; left]; right; right;
      destruct (call k2 fs name args w1) as [a| |] eqn:E1; try done; by rewrite (call_more k2 k1 _ _ _ _ _ Hle E1).
Qed.
