(* ===== verification/AsyncSound.v ===== *)
(** What the split of an async function preserves ([kryos-mir/src/async_lower.rs]): polled until
    it returns other than by a suspension, with all its locals lost between two polls, the
    split function computes what the original computes. *)

From S2P Require Import Prelude MirIr MirUses MirSem Liveness AsyncLower AsyncFrame.

(* ------------------------------------------------------------------ *)
(** ** The blocks of the split function                                *)
(* ------------------------------------------------------------------ *)

Section Shape.
Context (live : Liveness) (q : LocalId).

Definition saved_at (locals : list MirLocal) (sp : SplitPoint) (blk : BasicBlock) : list (LocalId * string) :=
  to_save locals q (merge_sort N.le (elements
    (transfer_block (drop (S (sp_inst_idx sp)) (bb_instructions blk)) (default ∅ (live_out live !! sp_block sp))))).

Lemma split_block_eq g k sp blk :
  f_blocks g !! N.to_nat (sp_block sp) = Some blk ->
  split_block live q g k sp
  = Done (set_blocks g (<[N.to_nat (sp_block sp) := first_half q k sp blk (saved_at (f_locals g) sp blk)]> (f_blocks g)
      ++ [resume_half q (N.of_nat (length (f_blocks g))) sp blk (saved_at (f_locals g) sp blk)]),
    map fst (saved_at (f_locals g) sp blk)).
Proof. intros Hb. unfold split_block, live_after, live_after_instruction, block. by rewrite Hb. Qed.

Lemma split_blocks_spec splits : forall g k,
  NoDup (map sp_block splits) -> (forall sp, sp ∈ splits -> is_Some (f_blocks g !! N.to_nat (sp_block sp))) ->
  exists g' ids saved, split_blocks live q g k splits = Done (g', ids, saved)
  /\ f_locals g' = f_locals g
  /\ length (f_blocks g') = length (f_blocks g) + length splits
  /\ ids = map (fun j => N.of_nat (length (f_blocks g) + j)) (seq 0 (length splits))
  /\ (forall i, i < length (f_blocks g) -> N.of_nat i ∉ map sp_block splits -> f_blocks g' !! i = f_blocks g !! i)
  /\ forall j sp blk, splits !! j = Some sp -> f_blocks g !! N.to_nat (sp_block sp) = Some blk ->
      f_blocks g' !! N.to_nat (sp_block sp) = Some (first_half q (k + j) sp blk (saved_at (f_locals g) sp blk))
      /\ f_blocks g' !! (length (f_blocks g) + j)
         = Some (resume_half q (N.of_nat (length (f_blocks g) + j)) sp blk (saved_at (f_locals g) sp blk)).
Proof.
  induction splits as [|sp splits IH]; intros g k Hnd Hin.
  { exists g, [], []. by repeat split. }
  apply NoDup_cons in Hnd as [Hsp Hnd]. destruct (Hin sp (list_elem_of_here _ _)) as [blk Hblk].
  pose proof (lookup_lt_Some _ _ _ Hblk) as Hlt.
  cbn [split_blocks]. rewrite (split_block_eq _ _ _ _ Hblk). cbn [mbind res_bind].
  set (saved := saved_at (f_locals g) sp blk). set (g1 := set_blocks g _).
  assert (Hlen : length (f_blocks g1) = S (length (f_blocks g))) by (cbn; rewrite length_app, length_insert; cbn; lia).
  assert (Hother : forall i, i < length (f_blocks g) -> i <> N.to_nat (sp_block sp) -> f_blocks g1 !! i = f_blocks g !! i).
  { intros i Hi Hne. cbn. rewrite lookup_app_l by (by rewrite length_insert). by apply list_lookup_insert_ne. }
  assert (Hfirst : f_blocks g1 !! N.to_nat (sp_block sp) = Some (first_half q k sp blk saved)).
  { cbn. rewrite lookup_app_l by (by rewrite length_insert). by apply list_lookup_insert_eq. }
  assert (Hlast : f_blocks g1 !! length (f_blocks g) = Some (resume_half q (N.of_nat (length (f_blocks g))) sp blk saved)).
  { cbn. rewrite lookup_app_r; rewrite length_insert; [|done]. by rewrite Nat.sub_diag. }
  assert (Hsame : forall sp', sp' ∈ splits -> f_blocks g1 !! N.to_nat (sp_block sp') = f_blocks g !! N.to_nat (sp_block sp')).
  { intros sp' Hsp'. destruct (Hin sp') as [b' Hb']; [by right|]. apply Hother; [by apply (lookup_lt_Some _ _ _ Hb')|].
    intros He%N2Nat.inj. apply Hsp. rewrite <-He. by apply list_elem_of_fmap_2. }
  destruct (IH g1 (S k) Hnd) as (g' & ids & savedss & -> & Hloc & Hl & -> & Hun & Hsplit).
  { intros sp' Hsp'. rewrite Hsame by done. apply Hin. by right. }
  cbn [mbind res_bind]. do 3 eexists. split; [reflexivity|]. split; [done|]. rewrite Hlen in *. split; [cbn; lia|]. split.
  { cbn [length seq map]. f_equal; [f_equal; lia|]. rewrite <-seq_shift, map_map. apply map_ext. intros j. f_equal. lia. }
  split.
  - intros i Hi Hni. apply not_elem_of_cons in Hni as [Hne Hni]. rewrite Hun by (done || lia). apply Hother; [done|]. lia.
  - intros [|j] sp' blk' Hj Hb'.
    + injection Hj as <-. rewrite Hblk in Hb'. injection Hb' as <-. rewrite !Nat.add_0_r. split.
      * by rewrite Hun by (rewrite ?N2Nat.id; done || lia).
      * rewrite Hun; [done|lia|]. intros (sp' & He & Hsp')%list_elem_of_fmap.
        destruct (Hin sp') as [b' Hb']; [by right|]. apply lookup_lt_Some in Hb'. lia.
    + cbn in Hj. apply list_elem_of_lookup_2 in Hj as Hel. rewrite <-(Hsame _ Hel) in Hb'.
      destruct (Hsplit j sp' blk' Hj Hb') as [H1 H2].
      replace (k + S j) with (S k + j) by lia. replace (length (f_blocks g) + S j) with (S (length (f_blocks g)) + j) by lia.
      done.
Qed.
End Shape.

Lemma number_all_lookup (l : list BasicBlock) s (m : gmap N N) i b :
  NoDup (map bb_id l) -> l !! i = Some b ->
  fold_left (fun (m : gmap N N) '(i, b) => <[bb_id b := N.of_nat i]> m) (zip (seq s (length l)) l) m !! bb_id b = Some (N.of_nat (s + i)).
Proof.
  revert s m i. induction l as [|c l IH]; intros s m i Hnd Hi; [done|]. apply NoDup_cons in Hnd as [Hc Hnd].
  cbn [length seq zip zip_with fold_left]. destruct i as [|i].
  - injection Hi as ->. rewrite Nat.add_0_r. clear IH Hnd.
    assert (Hkeep : forall s m, m !! bb_id b = Some (N.of_nat s) -> forall s', 
      fold_left (fun (m : gmap N N) '(i, b) => <[bb_id b := N.of_nat i]> m) (zip (seq s' (length l)) l) m !! bb_id b = Some (N.of_nat s)).
    { clear m s. induction l as [|d l IH]; intros s m Hm s'; [done|]. apply not_elem_of_cons in Hc as [Hd Hc].
      cbn. apply IH; [done|]. by rewrite lookup_insert_ne. }
    apply Hkeep. apply lookup_insert_eq.
  - rewrite (IH (S s) _ i Hnd Hi). do 2 f_equal. lia.
Qed.
Lemma dense_ids (l : list BasicBlock) :
  (forall i b, l !! i = Some b -> bb_id b = N.of_nat i) -> map bb_id l = map N.of_nat (seq 0 (length l)).
Proof.
  intros Hd. apply list_eq. intros i. rewrite !list_lookup_fmap. destruct (l !! i) as [b|] eqn:Hi; cbn.
  - rewrite lookup_seq_lt by (by apply lookup_lt_Some in Hi). cbn. f_equal. by apply Hd.
  - apply lookup_ge_None in Hi. by rewrite lookup_seq_ge.
Qed.
Definition shift_id (b : BlockId) : BlockId := (b + 1)%N.
Lemma number_all_shift (d : BasicBlock) l :
  (forall i b, l !! i = Some b -> bb_id b = N.of_nat i) -> bb_id d = N.of_nat (length l) ->
  forall b, (b < N.of_nat (length l))%N -> number_all (d :: l) !! b = Some (shift_id b).
Proof.
  intros Hl Hd b Hb. destruct (lookup_lt_is_Some_2 l (N.to_nat b)) as [c Hc]; [lia|].
  pose proof (Hl _ _ Hc) as Hid. rewrite N2Nat.id in Hid. rewrite <-Hid.
  unfold number_all. rewrite (number_all_lookup _ _ _ (S (N.to_nat b)) c); [unfold shift_id; f_equal; lia| |done].
  cbn. rewrite Hd, dense_ids by done. apply NoDup_cons. split.
  - intros (i & Hi & Hin)%list_elem_of_fmap. apply elem_of_seq in Hin. lia.
  - apply NoDup_fmap_2; [intros x y; lia|]. apply NoDup_seq.
Qed.

(** The terminator of a block whose targets are blocks. *)
Definition shift_term (t : Terminator) : Terminator :=
  match t with
  | T_Return _ | T_Unreachable => t
  | T_Goto b => T_Goto (shift_id b)
  | T_Branch cond b1 b2 => T_Branch cond (shift_id b1) (shift_id b2)
  | T_Switch value targets def => T_Switch value (map (fun '(k, b) => (k, shift_id b)) targets) (shift_id def)
  end.
Lemma rewrite_shift m n t :
  (forall b, (b < n)%N -> m !! b = Some (shift_id b)) -> (forall b, In b (term_successors t) -> (b < n)%N) ->
  rewrite_terminator_ids m t = shift_term t.
Proof.
  intros Hm Ht. destruct t as [|b|c b1 b2|v targets def|]; cbn in *; try done.
  - by rewrite Hm by auto.
  - by rewrite !Hm by auto.
  - rewrite (Hm def) by (apply Ht, in_or_app; right; by left). f_equal. apply map_ext_in. intros [k b] Hin. cbn.
    rewrite Hm; [done|]. apply Ht, in_or_app. left. apply in_map_iff. by exists (k, b).
Qed.
Lemma exec_shift_term `{MirLang} t (ρ : env) :
  exec_term (shift_term t) ρ = (nx ← exec_term t ρ; Done match nx with Return_ v => Return_ v | Jump b => Jump (shift_id b) end).
Proof.
  destruct t as [|b|c b1 b2|v targets def|]; cbn; try done.
  - by destruct (branch_on _).
  - do 2 f_equal. generalize (switch_on (operand_val ρ v)) as k. intros k. induction targets as [|[c b] targets IH]; cbn; [done|].
    by destruct (Z.eqb k c).
Qed.

(* ------------------------------------------------------------------ *)
(** ** Saving and reloading                                            *)
(* ------------------------------------------------------------------ *)

Section SaveReload.
Context {M : MirLang} (p : val) {SS : StateStruct M p} (callf : string -> list val -> world -> res (val * world)).
Implicit Types (ρ : env) (w : world).

Lemma exec_stores q (l : list (string * Operand)) ρ w :
  ρ q = p -> NoDup (map fst l) ->
  exists w', exec_insts callf (map (fun '(name, o) => I_StoreField (Op_Local q) name o) l) ρ w = Done (ρ, w')
  /\ (forall w0, same_rest w0 w -> same_rest w0 w')
  /\ (forall name o, (name, o) ∈ l -> fld w' name = operand_val ρ o)
  /\ (forall name, name ∉ map fst l -> fld w' name = fld w name).
Proof.
  intros Hq. revert w. induction l as [|[name o] l IH]; intros w Hnd.
  { exists w. repeat split; try done. set_solver. }
  apply NoDup_cons in Hnd as [Hn Hnd]. destruct (store_law ρ w q name o Hq) as (v & w1 & He & Hs & Hf).
  destruct (IH w1 Hnd) as (w2 & He2 & Hs2 & Hin & Hout). exists w2. split.
  { cbn [map exec_insts exec_inst]. rewrite He. cbn. exact He2. }
  split; [auto|]. split.
  - intros n o' [[= -> ->]|Hl]%elem_of_cons; [|by apply Hin]. rewrite Hout by done. by rewrite Hf, String.eqb_refl.
  - intros n [Hne Hl]%not_elem_of_cons. rewrite Hout, Hf by done. by rewrite (proj2 (String.eqb_neq n name) Hne).
Qed.
Lemma exec_save q k saved ρ w :
  ρ q = p -> NoDup ("state"%string :: map snd saved) ->
  exists w', exec_insts callf (save q k saved) ρ w = Done (ρ, w')
  /\ (forall w0, same_rest w0 w -> same_rest w0 w')
  /\ fld w' "state" = const_val (C_Int k)
  /\ forall x name, (x, name) ∈ saved -> fld w' name = ρ x.
Proof.
  intros Hq Hnd.
  destruct (exec_stores q (("state"%string, Op_Constant (C_Int k)) :: map (fun '(x, name) => (name, Op_Local x)) saved) ρ w Hq)
    as (w' & He & Hs & Hin & _).
  { cbn. rewrite map_map. erewrite map_ext; [exact Hnd|]. by intros [x name]. }
  exists w'. split; [|split; [done|split]].
  - rewrite <-He. unfold save. cbn [map]. rewrite map_map. f_equal. f_equal. apply map_ext. by intros [x name].
  - apply (Hin _ (Op_Constant (C_Int k))). by left.
  - intros x name Hx. apply (Hin _ (Op_Local x)). right. apply list_elem_of_fmap. by exists (x, name).
Qed.
Lemma exec_reload q saved ρ w :
  ρ q = p -> q ∉ map fst saved -> NoDup (map fst saved) ->
  exists ρ', exec_insts callf (reload q saved) ρ w = Done (ρ', w)
  /\ (forall x name, (x, name) ∈ saved -> ρ' x = fld w name)
  /\ forall x, x ∉ map fst saved -> ρ' x = ρ x.
Proof.
  revert ρ. induction saved as [|[x name] saved IH]; intros ρ Hq Hnq Hnd.
  { exists ρ. repeat split; try done. set_solver. }
  apply not_elem_of_cons in Hnq as [Hne Hnq]. apply NoDup_cons in Hnd as [Hx Hnd]. cbn in Hne, Hx.
  destruct (IH (upd ρ x (fld w name))) as (ρ' & He & Hin & Hout); [by rewrite upd_ne|done|done|].
  exists ρ'. split; [|split].
  - cbn [reload map exec_insts exec_inst eval_rvalue]. rewrite load_law by done. cbn. exact He.
  - intros y n [[= -> ->]|Hy]%elem_of_cons; [|by apply Hin]. rewrite Hout by done. by rewrite upd_eq.
  - intros y [Hny Hy]%not_elem_of_cons. cbn in Hny. rewrite Hout by done. by rewrite upd_ne.
Qed.
End SaveReload.

Lemma bind_assoc {A B C} (m : res A) (f : A -> res B) (g : B -> res C) :
  (m ≫= f) ≫= g = m ≫= fun x => f x ≫= g.
Proof. by destruct m. Qed.
Lemma find_dense f id : dense f -> find_block f id = f_blocks f !! N.to_nat id.
Proof.
  intros Hd. destruct (f_blocks f !! N.to_nat id) as [b|] eqn:Hb.
  - pose proof (Hd _ _ Hb) as Hid. rewrite N2Nat.id in Hid. rewrite <-Hid. apply dense_find; [done|].
    apply list_elem_of_In. by apply list_elem_of_lookup_2 in Hb.
  - destruct (find_block f id) as [b|] eqn:Hf; [|done]. apply find_block_In in Hf as [Hin Hid].
    apply list_elem_of_In, list_elem_of_lookup in Hin as [i Hi]. pose proof (Hd _ _ Hi). subst id.
    rewrite H, Nat2N.id in Hb. congruence.
Qed.

(** Where the locals that are saved come from. *)
Lemma to_save_spec locals q live x name :
  (x, name) ∈ to_save locals q live <-> x ∈ live /\ x <> q /\ local_name x locals = Some name.
Proof.
  unfold to_save. rewrite list_elem_of_omap. split.
  - intros (y & Hy & He). destruct (N.eqb_spec y q); [done|]. destruct (local_name y locals) eqn:Hn; [|done].
    cbn in He. by injection He as -> ->.
  - intros (Hx & Hne & Hn). exists x. split; [done|]. destruct (N.eqb_spec x q); [done|]. by rewrite Hn.
Qed.
Lemma to_save_NoDup locals q live : NoDup live -> NoDup (map fst (to_save locals q live)).
Proof.
  intros Hnd. induction Hnd as [|x live Hx Hnd IH]; [constructor|]. unfold to_save in *. cbn.
  destruct (N.eqb x q); [done|]. destruct (local_name x locals) as [name|]; cbn; [|done]. apply NoDup_cons. split; [|done].
  intros ([y n] & -> & Hy)%list_elem_of_fmap. apply (to_save_spec locals q) in Hy as [Hy _]. done.
Qed.

(* ------------------------------------------------------------------ *)
(** ** The split function beside the original                          *)
(* ------------------------------------------------------------------ *)

Section Main.
Context {M : MirLang} (p : val) {SS : StateStruct M p} (left_ok right_ok : Prop).
Context (fs : list MirFunction) (f f' : MirFunction) (live : Liveness) (q d : LocalId) (splits : list SplitPoint).
Implicit Types (ρ : env) (w : world).
Let len := length (f_blocks f).
Let resumes := map (fun j => N.of_nat (S (len + j))) (seq 0 (length splits)).
Let susp := map (fun sp => shift_id (sp_block sp)) splits.
Context (Hdense : dense f) (Hsol : solution f live) (Hdense' : dense f').
Context (Hentry : f_blocks f' !! 0 = Some (mkBlock 0%N [I_Assign d (RV_Field (Op_Local q) "state")]
  (T_Switch (Op_Local d) (zip_with (fun i b => (Z.of_nat i + 1, b)%Z) (seq 0 (length splits)) resumes) 1%N))).
Context (Hplain : forall i b, f_blocks f !! i = Some b -> N.of_nat i ∉ map sp_block splits ->
  f_blocks f' !! S i = Some (mkBlock (N.of_nat (S i)) (bb_instructions b) (shift_term (bb_terminator b)))).
Context (Hsplit : forall j sp b, splits !! j = Some sp -> f_blocks f !! N.to_nat (sp_block sp) = Some b ->
  let saved := saved_at live q (f_locals f) sp b in
  f_blocks f' !! S (N.to_nat (sp_block sp))
    = Some (mkBlock (shift_id (sp_block sp)) (take (S (sp_inst_idx sp)) (bb_instructions b) ++ save q (Z.of_nat j + 1) saved) suspend_term)
  /\ f_blocks f' !! S (len + j)
    = Some (mkBlock (N.of_nat (S (len + j))) (reload q saved ++ drop (S (sp_inst_idx sp)) (bb_instructions b)) (shift_term (bb_terminator b)))).
Context (Hvalid : forall sp, sp ∈ splits -> is_Some (f_blocks f !! N.to_nat (sp_block sp))).
Context (Hrange : forall b t, In b (f_blocks f) -> In t (successors b) -> (t < N.of_nat len)%N).
Context (Hq : forall b, In b (f_blocks f) -> q ∉ block_locals b).
Context (Hdq : d <> q) (Hcount : (Z.of_nat (length splits) < 2 ^ 31)%Z).
Context (Hnames : forall sp b, sp ∈ splits -> f_blocks f !! N.to_nat (sp_block sp) = Some b ->
  NoDup ("state"%string :: map snd (saved_at live q (f_locals f) sp b))
  /\ forall x, x ∈ transfer_block (drop (S (sp_inst_idx sp)) (bb_instructions b)) (block_out (live_in live) b) -> x <> q ->
      is_Some (local_name x (f_locals f))).
Context (fresh : env) (Hfresh : fresh q = p).

Definition fuels (n m : nat) : Prop := (left_ok /\ 3 * n <= m)%nat \/ (right_ok /\ m <= n)%nat.
Definition same_result (a b : option val * world) : Prop := a.1 = b.1 /\ same_rest a.2 b.2.

Lemma not_mentioned b i : In b (f_blocks f) -> In i (bb_instructions b) -> (q ∉ inst_defs i) /\ q ∉ inst_uses i.
Proof.
  intros Hb Hi. pose proof (Hq b Hb) as Hn. unfold block_locals in Hn.
  split; intros Hin; apply Hn, elem_of_app; left; apply list_elem_of_In, in_flat_map; exists i; (split; [done|]);
    apply in_or_app; [left|right]; by apply list_elem_of_In.
Qed.
(** The terminator of a block, on both sides. *)
Lemma next_block n m (susp' : bool) id' b ρ1 ρ2 w1 w2 :
  In b (f_blocks f) -> (susp' = bool_decide (id' ∈ susp)) -> susp' = false ->
  (forall i ρ1 ρ2 w1 w2, i < len -> close p (fun x => (x ∈ live_at (live_in live) (N.of_nat i)) /\ x <> q) ρ1 ρ2 ->
    ρ2 q = p -> same_rest w1 w2 ->
    Sim left_ok right_ok same_result (run n fs f (N.of_nat i) ρ1 w1) (drive m fs f' susp fresh (N.of_nat (S i)) ρ2 w2)) ->
  close p (fun x => (x ∈ block_out (live_in live) b) /\ x <> q) ρ1 ρ2 -> ρ2 q = p -> same_rest w1 w2 ->
  Sim left_ok right_ok same_result
    (nx ← exec_term (bb_terminator b) ρ1;
     match nx with Return_ v => Done (v, w1) | Jump id' => run n fs f id' ρ1 w1 end)
    (nx ← exec_term (shift_term (bb_terminator b)) ρ2;
     match nx with
     | Return_ v => if bool_decide (id' ∈ susp) then (id0 ← of_option (entry_id f'); drive m fs f' susp fresh id0 fresh w2) else Done (v, w2)
     | Jump id' => drive m fs f' susp fresh id' ρ2 w2
     end).
Proof.
  intros Hb He Hs IH Hc Hp Hw. rewrite <-He, Hs. rewrite exec_shift_term.
  destruct (exec_term_close p _ (bb_terminator b) ρ1 ρ2 Hc) as [Ht _].
  { intros x Hx. split; [apply elem_of_terminator_uses; by left|]. intros ->. apply (Hq b Hb). unfold block_locals.
    apply elem_of_app. right. by apply list_elem_of_In. }
  rewrite <-Ht. destruct (exec_term (bb_terminator b) ρ1) as [[v|t]| |] eqn:Hx; cbn; [by right; right| |by right; right..].
  apply exec_term_jump in Hx. pose proof (Hrange b t Hb Hx) as Hlt.
  pose proof (IH (N.to_nat t) ρ1 ρ2 w1 w2) as IHt. rewrite N2Nat.id in IHt.
  replace (N.of_nat (S (N.to_nat t))) with (shift_id t) in IHt by (unfold shift_id; lia).
  apply IHt; [lia| |done|done]. intros x [Hl Hne]. apply Hc. split; [|done]. by apply (live_at_succ _ b t).
Qed.

Lemma switch_resume k j : (j < k)%nat -> forall s (l : list BlockId) def, length l = k ->
  switch_target (Z.of_nat (s + j) + 1) (zip_with (fun i b => (Z.of_nat i + 1, b)%Z) (seq s k) l) def = l !!! j.
Proof.
  revert j. induction k as [|k IH]; intros j Hj s l def Hl; [lia|]. destruct l as [|b l]; [done|]. cbn.
  destruct j as [|j].
  - rewrite (proj2 (Z.eqb_eq _ _)) by lia. done.
  - rewrite (proj2 (Z.eqb_neq _ _)) by lia. replace (s + S j) with (S s + j) by lia.
    exact (IH j ltac:(lia) (S s) l def ltac:(cbn in Hl; lia)).
Qed.

Lemma drive_S n id ρ w :
  drive (S n) fs f' susp fresh id ρ w
  = (b ← of_option (find_block f' id);
     '(ρ', w') ← exec_insts (call n fs) (bb_instructions b) ρ w;
     nx ← exec_term (bb_terminator b) ρ';
     match nx with
     | Return_ v => if bool_decide (id ∈ susp) then (id0 ← of_option (entry_id f'); drive n fs f' susp fresh id0 fresh w') else Done (v, w')
     | Jump id' => drive n fs f' susp fresh id' ρ' w'
     end).
Proof. reflexivity. Qed.

(** The dispatch on a saved state. *)
Lemma drive_dispatch n j ρ w :
  ρ q = p -> j < length splits -> fld w "state" = const_val (C_Int (Z.of_nat j + 1)) ->
  drive (S n) fs f' susp fresh 0%N ρ w
  = drive n fs f' susp fresh (N.of_nat (S (len + j))) (upd ρ d (const_val (C_Int (Z.of_nat j + 1)))) w.
Proof.
  intros Hp Hj Hs. rewrite drive_S. rewrite find_dense by done. change (N.to_nat 0) with 0. rewrite Hentry. cbn [of_option mbind res_bind bb_instructions].
  cbn [exec_insts exec_inst eval_rvalue]. rewrite load_law by done. cbn [of_option mbind res_bind bb_terminator exec_term operand_val].
  rewrite Hs, upd_eq, switch_const by lia.
  change (Z.of_nat j) with (Z.of_nat (0 + j)) at 1. rewrite switch_resume; [|done|unfold resumes; by rewrite length_map, length_seq].
  assert (Hr : resumes !!! j = N.of_nat (S (len + j))).
  { apply list_lookup_total_correct. unfold resumes. rewrite list_lookup_fmap, lookup_seq_lt by done. done. }
  by rewrite Hr.
Qed.

Lemma entry_split : entry_id f' = Some 0%N.
Proof. pose proof Hentry as He. unfold entry_id. destruct (f_blocks f'); [done|]. by injection He as ->. Qed.

Lemma saved_elem sp b x name :
  In b (f_blocks f) -> f_blocks f !! N.to_nat (sp_block sp) = Some b ->
  (x, name) ∈ saved_at live q (f_locals f) sp b
  <-> x ∈ transfer_block (drop (S (sp_inst_idx sp)) (bb_instructions b)) (block_out (live_in live) b)
      /\ x <> q /\ local_name x (f_locals f) = Some name.
Proof.
  intros Hin Hb. unfold saved_at. rewrite to_save_spec. rewrite merge_sort_Permutation, elem_of_elements.
  pose proof (Hdense _ _ Hb) as Hid. rewrite N2Nat.id in Hid. destruct (Hsol b Hin) as [Ho _]. by rewrite <-Hid, Ho.
Qed.
Lemma saved_q sp b : q ∉ map fst (saved_at live q (f_locals f) sp b).
Proof. intros ([x name] & He & Hin)%list_elem_of_fmap. cbn in He. subst x. apply to_save_spec in Hin as (_ & Hne & _). done. Qed.
Lemma saved_NoDup sp b : NoDup (map fst (saved_at live q (f_locals f) sp b)).
Proof. apply to_save_NoDup. rewrite merge_sort_Permutation. apply NoDup_elements. Qed.

(** The rest of a split block after its locals are reloaded. *)
Lemma resume_rest n m j sp b ρ1 ρ2 w1 v w3 :
  In b (f_blocks f) -> splits !! j = Some sp -> f_blocks f !! N.to_nat (sp_block sp) = Some b ->
  fuels (S n) (S (S (S m))) ->
  (forall i ρ1 ρ2 w1 w2, i < len -> close p (fun x => (x ∈ live_at (live_in live) (N.of_nat i)) /\ x <> q) ρ1 ρ2 ->
    ρ2 q = p -> same_rest w1 w2 ->
    Sim left_ok right_ok same_result (run n fs f (N.of_nat i) ρ1 w1) (drive m fs f' susp fresh (N.of_nat (S i)) ρ2 w2)) ->
  close p (fun x => (x ∈ transfer_block (drop (S (sp_inst_idx sp)) (bb_instructions b)) (block_out (live_in live) b)) /\ x <> q) ρ1 ρ2 ->
  same_rest w1 w3 ->
  (forall x name, (x, name) ∈ saved_at live q (f_locals f) sp b -> fld w3 name = ρ2 x) ->
  Sim left_ok right_ok same_result
    ('(ρ', w') ← exec_insts (call n fs) (drop (S (sp_inst_idx sp)) (bb_instructions b)) ρ1 w1;
     nx ← exec_term (bb_terminator b) ρ';
     match nx with Return_ v => Done (v, w') | Jump id' => run n fs f id' ρ' w' end)
    (drive (S m) fs f' susp fresh (N.of_nat (S (len + j))) (upd fresh d v) w3).
Proof.
  intros Hb Hj Hblk Hfuel IH Hc Hw Hf. rewrite drive_S, find_dense, Nat2N.id by done.
  destruct (Hsplit j sp b Hj Hblk) as [_ ->]. cbn [of_option mbind res_bind bb_instructions bb_terminator].
  rewrite exec_insts_app.
  destruct (exec_reload p (call m fs) q (saved_at live q (f_locals f) sp b) (upd fresh d v) w3) as (ρ3 & -> & Hin & Hout);
    [by rewrite upd_ne|apply saved_q|apply saved_NoDup|]. cbn [mbind res_bind].
  destruct (Hnames sp b (list_elem_of_lookup_2 _ _ _ Hj) Hblk) as [_ Hnamed].
  eapply Sim_bind.
  - apply (exec_insts_sim p left_ok right_ok (call n fs) (call m fs) ltac:(apply calls_sim; destruct Hfuel as [[? ?]|[? ?]]; [left|right]; split; (done || lia)) q (block_out (live_in live) b)).
    + intros i Hi. apply (not_mentioned b); [done|]. rewrite <-(take_drop (S (sp_inst_idx sp)) (bb_instructions b)). apply in_or_app. by right.
    + intros x [Hx Hne]. destruct (Hnamed x Hx Hne) as [name Hname].
      assert (Hs : (x, name) ∈ saved_at live q (f_locals f) sp b) by (by apply saved_elem).
      rewrite (Hin x name Hs), (Hf x name Hs). by apply Hc.
    + exact Hw.
  - intros [ρ1' w1'] [ρ2' w2'] (Hc' & Hw' & _ & Hk). cbn in Hc', Hw', Hk.
    apply (next_block n m (bool_decide (N.of_nat (S (len + j)) ∈ susp))); try done.
    + apply bool_decide_eq_false. intros (sp' & He & Hsp')%list_elem_of_fmap. unfold shift_id in He.
      destruct (Hvalid sp' Hsp') as [b' Hb']. apply lookup_lt_Some in Hb'. lia.
    + rewrite (Hk q eq_refl), Hout by apply saved_q. by rewrite upd_ne.
Qed.

(** The two functions beside each other. *)
Lemma blocks_beside n : forall m i ρ1 ρ2 w1 w2,
  fuels n m -> i < len -> close p (fun x => (x ∈ live_at (live_in live) (N.of_nat i)) /\ x <> q) ρ1 ρ2 ->
  ρ2 q = p -> same_rest w1 w2 ->
  Sim left_ok right_ok same_result (run n fs f (N.of_nat i) ρ1 w1) (drive m fs f' susp fresh (N.of_nat (S i)) ρ2 w2).
Proof.
  induction n as [|n IH]; intros m i ρ1 ρ2 w1 w2 Hfuel Hi Hc Hp Hw.
  { destruct Hfuel as [[Hl _]|[Hr Hm]]; [by left|]. assert (m = 0) as -> by lia. by right; left. }
  destruct m as [|m]; [destruct Hfuel as [[_ ?]|[Hr _]]; [lia|by right; left]|].
  destruct (lookup_lt_is_Some_2 (f_blocks f) i Hi) as [b Hbi].
  assert (Hb : In b (f_blocks f)) by (apply list_elem_of_In; by apply list_elem_of_lookup_2 in Hbi).
  pose proof (Hdense _ _ Hbi) as Hid.
  rewrite run_S, drive_S, !find_dense, !Nat2N.id by done. rewrite Hbi. cbn [of_option mbind res_bind].
  assert (Hin : close p (fun x => (x ∈ block_in (live_in live) b) /\ x <> q) ρ1 ρ2).
  { intros x [Hx Hne]. apply Hc. split; [|done]. rewrite <-Hid. by apply (live_at_block f); [by apply solution_post|..]. }
  assert (Hcalls : callf_sim p left_ok right_ok (call n fs) (call m fs)).
  { apply calls_sim. destruct Hfuel as [[? ?]|[? ?]]; [left|right]; (split; [done|lia]). }
  destruct (decide (N.of_nat i ∈ map sp_block splits)) as [Hs|Hs].
  - apply list_elem_of_fmap in Hs as (sp & Hsp & Hin').
    apply list_elem_of_lookup in Hin' as [j Hj].
    assert (Hblk : f_blocks f !! N.to_nat (sp_block sp) = Some b) by (by rewrite <-Hsp, Nat2N.id).
    destruct (Hsplit j sp b Hj Hblk) as [Hfirst _]. rewrite <-Hsp, Nat2N.id in Hfirst. rewrite Hfirst.
    cbn [of_option mbind res_bind bb_instructions bb_terminator].
    rewrite exec_insts_app. rewrite <-(take_drop (S (sp_inst_idx sp)) (bb_instructions b)) at 1. rewrite exec_insts_app, !bind_assoc.
    unfold block_in in Hin. rewrite <-(take_drop (S (sp_inst_idx sp)) (bb_instructions b)), transfer_block_app in Hin.
    eapply Sim_bind.
    + apply (exec_insts_sim p left_ok right_ok _ _ Hcalls q (transfer_block (drop (S (sp_inst_idx sp)) (bb_instructions b)) (block_out (live_in live) b))); [|exact Hin|exact Hw].
      intros k Hk. apply (not_mentioned b); [done|]. rewrite <-(take_drop (S (sp_inst_idx sp)) (bb_instructions b)). apply in_or_app. by left.
    + intros [ρ1' w1'] [ρ2' w2'] (Hc' & Hw' & _ & Hk). cbn in Hc', Hw', Hk.
      destruct (Hnames sp b (list_elem_of_lookup_2 _ _ _ Hj) Hblk) as [Hnd _].
      destruct (exec_save p (call m fs) q (Z.of_nat j + 1) (saved_at live q (f_locals f) sp b) ρ2' w2') as (w3 & -> & Hs3 & Hst & Hf3);
        [by rewrite (Hk q eq_refl)|done|]. cbn [mbind res_bind suspend_term exec_term option_map].
      rewrite bool_decide_eq_true_2 by (apply list_elem_of_fmap; exists sp; split; [unfold shift_id; lia|by apply list_elem_of_lookup_2 in Hj]).
      rewrite entry_split. cbn [of_option mbind res_bind].
      destruct m as [|m]; [destruct Hfuel as [[_ ?]|[Hr _]]; [lia|by right; left]|].
      rewrite (drive_dispatch m j) by (done || by apply lookup_lt_Some in Hj).
      destruct m as [|m]; [destruct Hfuel as [[_ ?]|[Hr _]]; [lia|by right; left]|].
      apply (resume_rest n m j sp b ρ1' ρ2'); try done; [|by apply Hs3].
      intros i' ρ1x ρ2x w1x w2x Hi' Hcx Hpx Hwx. apply IH; try done. destruct Hfuel as [[? ?]|[? ?]]; [left|right]; (split; [done|lia]).
  - rewrite (Hplain i b Hbi Hs). cbn [of_option mbind res_bind bb_instructions bb_terminator].
    eapply Sim_bind.
    + apply (exec_insts_sim p left_ok right_ok _ _ Hcalls q (block_out (live_in live) b)); [|exact Hin|exact Hw].
      intros k Hk. by apply (not_mentioned b).
    + intros [ρ1' w1'] [ρ2' w2'] (Hc' & Hw' & _ & Hk). cbn in Hc', Hw', Hk.
      apply (next_block n m (bool_decide (N.of_nat (S i) ∈ susp))); try done; [| |by rewrite (Hk q eq_refl)].
      * apply bool_decide_eq_false. intros (sp' & He & Hsp')%list_elem_of_fmap. unfold shift_id in He. apply Hs.
        apply list_elem_of_fmap. exists sp'. split; [lia|done].
      * intros i' ρ1x ρ2x w1x w2x Hi' Hcx Hpx Hwx. apply IH; try done. destruct Hfuel as [[? ?]|[? ?]]; [left|right]; (split; [done|lia]).
Qed.

Lemma switch_start s k (l : list BlockId) def :
  switch_target 0 (zip_with (fun i b => (Z.of_nat i + 1, b)%Z) (seq s k) l) def = def.
Proof.
  revert s l. induction k as [|k IH]; intros s l; [done|]. destruct l as [|b l]; [done|]. cbn -[Z.eqb].
  rewrite (proj2 (Z.eqb_neq _ _)) by lia. apply IH.
Qed.
Lemma drive_start n ρ w :
  ρ q = p -> switch_on (fld w "state") = 0%Z ->
  drive (S n) fs f' susp fresh 0%N ρ w = drive n fs f' susp fresh 1%N (upd ρ d (fld w "state")) w.
Proof.
  intros Hp Hs. rewrite drive_S. rewrite find_dense by done. change (N.to_nat 0) with 0. rewrite Hentry.
  cbn [of_option mbind res_bind bb_instructions exec_insts exec_inst eval_rvalue]. rewrite load_law by done.
  cbn [of_option mbind res_bind bb_terminator exec_term operand_val]. by rewrite upd_eq, Hs, switch_start.
Qed.
(** From the first poll on. *)
Lemma poll_beside n m ρ w1 w2 :
  fuels n m -> 0 < len -> ρ q = p -> (forall x, x <> q -> ρ x <> p) ->
  (forall x, x ∈ live_at (live_in live) 0%N -> x <> d) -> same_rest w1 w2 -> switch_on (fld w2 "state") = 0%Z ->
  Sim left_ok right_ok same_result (run n fs f 0%N ρ w1) (drive (S m) fs f' susp fresh 0%N ρ w2).
Proof.
  intros Hf Hlen Hp Hv Hd Hw Hs. rewrite drive_start by done. apply (blocks_beside n m 0); try done.
  - intros x [Hx Hne]. rewrite upd_ne by (by apply not_eq_sym, Hd). split; [done|by apply Hv].
  - by rewrite upd_ne.
Qed.
End Main.

(* ------------------------------------------------------------------ *)
(** ** The theorem                                                     *)
(* ------------------------------------------------------------------ *)

(** What a split point saves is enough: every local live after it has a name, and the names
    are different from each other and from the field of the discriminant. *)
Definition saves_ok (f : MirFunction) (live : Liveness) (q : LocalId) (sp : SplitPoint) : bool :=
  match f_blocks f !! N.to_nat (sp_block sp) with
  | Some b =>
      bool_decide (NoDup ("state"%string :: map snd (saved_at live q (f_locals f) sp b)))
      && forallb (fun x => N.eqb x q || bool_decide (is_Some (local_name x (f_locals f))))
           (elements (transfer_block (drop (S (sp_inst_idx sp)) (bb_instructions b)) (default ∅ (live_out live !! sp_block sp))))
  | None => false
  end.
Definition avoids (f : MirFunction) (x : LocalId) : bool :=
  forallb (fun b => negb (existsb (N.eqb x) (block_locals b))) (f_blocks f).
(** Ids are positions, targets are blocks, and the body mentions neither the state pointer nor
    the local that the dispatch will use. *)
Definition splittable (f : MirFunction) (splits : list SplitPoint) : bool :=
  match f_params f, analyze (analyze_fuel f) f with
  | par :: _, Done live =>
      let q := p_local par in
      let d := N.of_nat (length (f_locals f)) in
      dense_b f
      && forallb (fun b => forallb (fun t => N.ltb t (N.of_nat (length (f_blocks f)))) (successors b)) (f_blocks f)
      && avoids f q && avoids f d && negb (N.eqb d q)
      && forallb (saves_ok f live q) splits
      && Z.ltb (Z.of_nat (length splits)) (2 ^ 31)
  | _, _ => false
  end.

Lemma avoids_spec f x b : avoids f x = true -> In b (f_blocks f) -> x ∉ block_locals b.
Proof.
  unfold avoids. rewrite forallb_forall. intros Ha Hb Hin. specialize (Ha b Hb). apply negb_true_iff in Ha.
  assert (Hex : existsb (N.eqb x) (block_locals b) = true); [|congruence].
  apply existsb_exists. exists x. split; [by apply list_elem_of_In|apply N.eqb_refl].
Qed.
Lemma validate_None blocks splits seen :
  validate blocks seen splits = None ->
  NoDup (map sp_block splits)
  /\ forall sp, sp ∈ splits -> (sp_block sp ∉ seen) /\
       exists blk, blocks !! N.to_nat (sp_block sp) = Some blk /\ sp_inst_idx sp < length (bb_instructions blk).
Proof.
  revert seen. induction splits as [|sp splits IH]; intros seen Hv; cbn in Hv; [split; [constructor|set_solver]|].
  destruct (blocks !! N.to_nat (sp_block sp)) as [blk|] eqn:Hb; [|done].
  destruct (Nat.leb_spec (length (bb_instructions blk)) (sp_inst_idx sp)) as [|Hlt]; [done|].
  case_bool_decide as Hs; [done|]. destruct (IH _ Hv) as [Hnd Hin]. split.
  - apply NoDup_cons. split; [|done]. intros (sp' & He & Hsp')%list_elem_of_fmap. destruct (Hin sp' Hsp') as [Hn _]. set_solver.
  - intros sp' [->|Hsp']%elem_of_cons; [split; [done|by exists blk]|]. destruct (Hin sp' Hsp') as [Hn He]. split; [set_solver|done].
Qed.
Lemma mapM_res_Done {A B} (g : A -> res B) (h : A -> B) l : (forall x, x ∈ l -> g x = Done (h x)) -> mapM g l = Done (map h l).
Proof.
  induction l as [|x l IH]; intros Hg; [done|]. cbn. rewrite Hg by (by left). cbn. by rewrite IH by (intros y Hy; apply Hg; by right).
Qed.

Lemma dispatch_targets s (ids : list BlockId) k :
  map (fun '(k, b) => (k, shift_id b)) (zip_with (fun (i : nat) b => (Z.of_nat i + 1, b)%Z) (seq s k) ids)
  = zip_with (fun i b => (Z.of_nat i + 1, b)%Z) (seq s k) (map shift_id ids).
Proof. revert s k. induction ids as [|x ids IH]; intros s k; destruct k as [|k]; cbn; [done..|]. by rewrite IH. Qed.
Lemma target_in s k (ids : list BlockId) t :
  In t (map snd (zip_with (fun (i : nat) b => (Z.of_nat i + 1, b)%Z) (seq s k) ids)) -> t ∈ ids.
Proof.
  revert s k. induction ids as [|x ids IH]; intros s k; destruct k as [|k]; cbn; [done..|].
  intros [->|Ht]; [by left|right; by apply (IH (S s) k)].
Qed.

(** The shape of the result. *)
Lemma split_shape f name splits live par ps :
  splits <> [] -> dense f ->
  f_params f = par :: ps -> analyze (analyze_fuel f) f = Done live -> validate (f_blocks f) ∅ splits = None -> f_blocks f <> [] ->
  (forall b t, In b (f_blocks f) -> In t (successors b) -> (t < N.of_nat (length (f_blocks f)))%N) ->
  let q := p_local par in let d := N.of_nat (length (f_locals f)) in let len := length (f_blocks f) in
  let resumes := map (fun j => N.of_nat (S (len + j))) (seq 0 (length splits)) in
  exists f' saved, split_at_await f name splits = Done (inr (f', mkOutcome resumes saved)) /\ dense f'
  /\ f_blocks f' !! 0 = Some (mkBlock 0%N [I_Assign d (RV_Field (Op_Local q) "state")]
      (T_Switch (Op_Local d) (zip_with (fun i b => (Z.of_nat i + 1, b)%Z) (seq 0 (length splits)) resumes) 1%N))
  /\ (forall i b, f_blocks f !! i = Some b -> N.of_nat i ∉ map sp_block splits ->
      f_blocks f' !! S i = Some (mkBlock (N.of_nat (S i)) (bb_instructions b) (shift_term (bb_terminator b))))
  /\ forall j sp b, splits !! j = Some sp -> f_blocks f !! N.to_nat (sp_block sp) = Some b ->
      let saved := saved_at live q (f_locals f) sp b in
      f_blocks f' !! S (N.to_nat (sp_block sp))
        = Some (mkBlock (shift_id (sp_block sp)) (take (S (sp_inst_idx sp)) (bb_instructions b) ++ save q (Z.of_nat j + 1) saved) suspend_term)
      /\ f_blocks f' !! S (len + j)
        = Some (mkBlock (N.of_nat (S (len + j))) (reload q saved ++ drop (S (sp_inst_idx sp)) (bb_instructions b)) (shift_term (bb_terminator b))).
Proof.
  intros Hne Hdense Hpar Hlive Hval Hblocks Hrange q d len resumes.
  destruct (validate_None _ _ _ Hval) as [Hnd Hvalid].
  assert (Hvs : forall sp, sp ∈ splits -> is_Some (f_blocks f !! N.to_nat (sp_block sp))).
  { intros sp Hsp. destruct (Hvalid sp Hsp) as (_ & blk & -> & _). done. }
  destruct (split_blocks_spec live q splits f 0 Hnd Hvs) as (g & ids & saved & Hsb & Hloc & Hlen & Hids & Hun & Hspl).
  fold len in Hlen, Hids, Hun, Hspl. cbn [Nat.add] in Hspl.
  assert (Hgid : forall i b, f_blocks g !! i = Some b -> bb_id b = N.of_nat i).
  { intros i b Hi. pose proof (lookup_lt_Some _ _ _ Hi) as Hlt. destruct (decide (i < len)) as [Hil|Hil].
    - destruct (lookup_lt_is_Some_2 (f_blocks f) i Hil) as [b0 Hb0].
      destruct (decide (N.of_nat i ∈ map sp_block splits)) as [Hs|Hs]; [|rewrite Hun in Hi by done; by apply Hdense].
      apply list_elem_of_fmap in Hs as (sp & Hsp & Hin). apply list_elem_of_lookup in Hin as [j Hj].
      destruct (Hspl j sp b0 Hj) as [H1 _]; [by rewrite <-Hsp, Nat2N.id|]. rewrite <-Hsp, Nat2N.id, Hi in H1.
      injection H1 as ->. cbn. by apply Hdense.
    - destruct (lookup_lt_is_Some_2 splits (i - len)) as [sp Hsp]; [lia|].
      destruct (Hvs sp (list_elem_of_lookup_2 _ _ _ Hsp)) as [b0 Hb0]. destruct (Hspl _ _ _ Hsp Hb0) as [_ H2].
      replace (len + (i - len)) with i in H2 by lia. rewrite Hi in H2. by injection H2 as ->. }
  assert (Hr : split_at_await f name splits = ('(f, resumes) ← add_dispatch g name q ids; Done (inr (f, mkOutcome resumes saved)))).
  { unfold split_at_await. destruct splits; [done|]. rewrite Hval, Hpar, Hlive. cbn [mbind res_bind].
    fold q. by rewrite Hsb. }
  rewrite Hr. clear Hr. unfold add_dispatch, entry_block. destruct (f_blocks g) as [|b0 bs0] eqn:Hg.
  { destruct (f_blocks f); [done|]. unfold len in Hlen. cbn in Hlen. lia. }
  assert (Hb0 : bb_id b0 = 0%N) by (by apply (Hgid 0)). cbn [mbind res_bind]. rewrite <-Hg in *.
  rewrite Hb0, Hloc. fold d.
  set (disp := dispatch_block q d (N.of_nat (length (f_blocks g))) 0%N ids).
  pose proof (number_all_shift disp (f_blocks g) Hgid eq_refl) as Hshift.
  set (remap := number_all (disp :: f_blocks g)) in *.
  assert (Hres : map shift_id ids = resumes).
  { rewrite Hids, map_map. apply map_ext. intros j. unfold shift_id. lia. }
  assert (Hidlt : forall x, x ∈ ids -> (x < N.of_nat (length (f_blocks g)))%N).
  { intros x Hx. rewrite Hids in Hx. apply list_elem_of_fmap in Hx as (j & -> & Hj). apply elem_of_seq in Hj. rewrite Hlen. lia. }
  rewrite (mapM_res_Done _ shift_id) by (intros x Hx; by rewrite Hshift by (by apply Hidlt)).
  cbn [mbind res_bind]. rewrite Hres.
  set (f' := set_locals _ _).
  assert (Hl' : forall i, f_blocks f' !! i = reid_block remap i <$> (disp :: f_blocks g) !! i) by (intros i; apply list_lookup_imap).
  exists f', saved. split; [done|]. split.
  { intros i b Hi. rewrite Hl' in Hi. destruct ((disp :: f_blocks g) !! i) as [c|]; [|done]. by injection Hi as <-. }
  assert (Hterm : forall b, In b (f_blocks f) -> rewrite_terminator_ids remap (bb_terminator b) = shift_term (bb_terminator b)).
  { intros b Hb. apply (rewrite_shift _ (N.of_nat (length (f_blocks g)))); [done|]. intros t Ht.
    pose proof (Hrange b t Hb Ht). rewrite Hlen. lia. }
  assert (Hlids : length ids = length splits) by (by rewrite Hids, length_map, length_seq).
  split; [|split].
  - rewrite Hl'. cbn [lookup list_lookup fmap option_fmap option_map]. f_equal. unfold reid_block. cbn [bb_instructions bb_terminator disp dispatch_block].
    f_equal. rewrite (rewrite_shift _ (N.of_nat (length (f_blocks g)))); [|done|].
    + cbn [shift_term]. f_equal. rewrite <-Hres, Hlids. apply dispatch_targets.
    + intros t [Ht|[<-|[]]]%in_app_or; [|rewrite Hlen; destruct (f_blocks f); [done|cbn in len; lia]].
      apply Hidlt. by apply (target_in _ _ _ _ Ht).
  - intros i b Hi Hs. rewrite Hl', lookup_cons. rewrite Hun by (done || by apply lookup_lt_Some in Hi). rewrite Hi. cbn. unfold reid_block.
    rewrite Hterm; [done|]. apply list_elem_of_In. by apply list_elem_of_lookup_2 in Hi.
  - intros j sp b Hj Hb. destruct (Hspl j sp b Hj Hb) as [H1 H2].
    assert (Hin : In b (f_blocks f)) by (apply list_elem_of_In; by apply list_elem_of_lookup_2 in Hb).
    split; rewrite Hl', lookup_cons.
    + rewrite H1. cbn [fmap option_fmap option_map]. unfold reid_block, first_half. cbn. do 2 f_equal. unfold shift_id. lia.
    + rewrite H2. cbn [fmap option_fmap option_map]. unfold reid_block, resume_half. cbn. by rewrite Hterm.
Qed.


(* ------------------------------------------------------------------ *)
(** ** The driver                                                      *)
(* ------------------------------------------------------------------ *)

(** Every field that a split stores is declared in the state struct. *)
Lemma saved_declared f plan live q sp b x name :
  analyse_function f = inr plan -> (x, name) ∈ saved_at live q (f_locals f) sp b -> name ∈ map fst (state_fields plan).
Proof.
  unfold analyse_function. destruct (attr_inline _); [done|]. intros [= <-] Hs.
  apply to_save_spec in Hs as (_ & _ & Hn). unfold local_name in Hn.
  destruct (find _ (f_locals f)) as [l|] eqn:Hl; [|done]. cbn in Hn. apply find_some in Hl as [Hin _].
  unfold state_fields. cbn [map]. right. rewrite map_app. apply elem_of_app. left. rewrite map_map. apply list_elem_of_fmap. cbn.
  eexists. split; [|apply list_elem_of_omap; exists l; split; [by apply list_elem_of_In|]; unfold capture; by rewrite Hn]. done.
Qed.

Definition targets_in_range (f : MirFunction) : Prop :=
  forall b t, In b (f_blocks f) -> In t (successors b) -> (t < N.of_nat (length (f_blocks f)))%N.
Definition awaits (callees : list string) (f : MirFunction) : bool :=
  existsb (fun b => existsb (is_await callees) (bb_instructions b)) (f_blocks f).

Lemma find_split_points_spec f callees sp :
  sp ∈ find_split_points f callees <->
  exists b i, In b (f_blocks f) /\ bb_id b = sp_block sp /\ bb_instructions b !! sp_inst_idx sp = Some i /\ is_await callees i = true.
Proof.
  unfold find_split_points. rewrite merge_sort_Permutation, list_elem_of_In, in_flat_map. split.
  - intros (b & Hb & Hin). apply list_elem_of_In, list_elem_of_omap in Hin as ([idx i] & Hin & Hi).
    destruct (is_await callees i) eqn:Ha; [|done]. injection Hi as <-. exists b, i. split; [done|]. split; [done|]. split; [|done].
    apply list_elem_of_lookup in Hin as [k Hk]. apply lookup_zip_Some in Hk as [Hk Hi]. cbn.
    apply lookup_seq in Hk as [-> _]. done.
  - intros (b & i & Hb & Hid & Hi & Ha). exists b. split; [done|]. apply list_elem_of_In, list_elem_of_omap.
    exists (sp_inst_idx sp, i). rewrite Ha. split; [|destruct sp; cbn in *; congruence].
    apply list_elem_of_lookup. exists (sp_inst_idx sp). apply lookup_zip_Some. split; [|done].
    apply lookup_seq. apply lookup_lt_Some in Hi. done.
Qed.
Lemma first_per_block_spec seen l :
  NoDup (map sp_block (first_per_block seen l))
  /\ forall sp, sp ∈ first_per_block seen l -> sp ∈ l /\ sp_block sp ∉ seen.
Proof.
  revert seen. induction l as [|sp l IH]; intros seen; cbn; [split; [constructor|set_solver]|].
  case_bool_decide as Hs; [destruct (IH seen) as [H1 H2]; split; [done|]; intros sp' Hin; destruct (H2 sp' Hin); split; [by right|done]|].
  destruct (IH ({[sp_block sp]} ∪ seen)) as [H1 H2]. split.
  - apply NoDup_cons. split; [|done]. intros (sp' & He & Hin)%list_elem_of_fmap. destruct (H2 sp' Hin). set_solver.
  - intros sp' [->|Hin]%elem_of_cons; [split; [by left|done]|]. destruct (H2 sp' Hin). split; [by right|set_solver].
Qed.
Lemma first_per_block_nil l : first_per_block ∅ l = [] <-> l = [].
Proof. destruct l as [|sp l]; [done|]. cbn. by rewrite bool_decide_eq_false_2 by set_solver. Qed.
Lemma validate_valid blocks seen splits :
  NoDup (map sp_block splits) ->
  (forall sp, sp ∈ splits -> (sp_block sp ∉ seen)
    /\ exists blk, blocks !! N.to_nat (sp_block sp) = Some blk /\ sp_inst_idx sp < length (bb_instructions blk)) ->
  validate blocks seen splits = None.
Proof.
  revert seen. induction splits as [|sp splits IH]; intros seen Hnd Hin; [done|]. apply NoDup_cons in Hnd as [Hsp Hnd]. cbn.
  destruct (Hin sp) as (Hs & blk & -> & Hlt); [by left|]. destruct (Nat.leb_spec (length (bb_instructions blk)) (sp_inst_idx sp)); [lia|].
  rewrite bool_decide_eq_false_2 by done. apply IH; [done|]. intros sp' Hsp'. destruct (Hin sp') as (Hs' & He); [by right|].
  split; [|done]. intros [He'%elem_of_singleton|?]%elem_of_union; [|done]. apply Hsp. rewrite <-He'. by apply list_elem_of_fmap_2.
Qed.

(** Whether a function is split. *)
Definition is_split (report : AsyncLoweringReport) (f : MirFunction) : bool :=
  attr_is_async (f_attributes f) && bool_decide (is_Some (btree_get (f_name f) (plans report)))
  && negb (match f_params f with [] => true | _ => false end) && awaits (map fst (plans report)) f.
Definition split_of (report : AsyncLoweringReport) (f f' : MirFunction) : Prop :=
  if is_split report f then exists plan out, btree_get (f_name f) (plans report) = Some plan
    /\ split_at_await f (state_struct_name plan) (first_per_block ∅ (find_split_points f (map fst (plans report)))) = Done (inr (f', out))
  else f' = f.

Lemma awaits_points f callees : awaits callees f = false <-> find_split_points f callees = [].
Proof.
  split.
  - intros Ha. destruct (find_split_points f callees) as [|sp l] eqn:Hf; [done|].
    assert (Hin : sp ∈ find_split_points f callees) by (rewrite Hf; by left).
    apply find_split_points_spec in Hin as (b & i & Hb & _ & Hi & Haw).
    assert (Hex : awaits callees f = true); [|congruence]. apply existsb_exists. exists b. split; [done|].
    apply existsb_exists. exists i. split; [|done]. apply list_elem_of_In. by apply list_elem_of_lookup_2 in Hi.
  - intros Hf. destruct (awaits callees f) eqn:Ha; [|done].
    apply existsb_exists in Ha as (b & Hb & Ha). apply existsb_exists in Ha as (i & Hi & Ha).
    apply list_elem_of_In, list_elem_of_lookup in Hi as [k Hk].
    assert (Hin : mkSplit (bb_id b) k ∈ find_split_points f callees) by (apply find_split_points_spec; by exists b, i).
    rewrite Hf in Hin. set_solver.
Qed.
Lemma apply_split_spec report f :
  dense f -> targets_in_range f ->
  exists f', apply_split report f = Done (f', if is_split report f then 1 else 0) /\ split_of report f f'.
Proof.
  intros Hd Ht. unfold split_of. unfold apply_split, is_split. destruct (attr_is_async (f_attributes f)); cbn [negb andb]; [|by exists f].
  destruct (btree_get (f_name f) (plans report)) as [plan|] eqn:Hplan; [|by exists f].
  rewrite bool_decide_eq_true_2 by done. cbn [andb].
  destruct (find_split_points f (map fst (plans report))) as [|sp0 l0] eqn:Hf.
  { apply awaits_points in Hf. rewrite Hf, andb_false_r. by exists f. }
  assert (Ha : awaits (map fst (plans report)) f = true).
  { destruct (awaits (map fst (plans report)) f) eqn:Ha; [done|]. apply awaits_points in Ha. by rewrite Hf in Ha. }
  rewrite Ha, andb_true_r. rewrite <-Hf. set (splits := first_per_block _ _).
  destruct (first_per_block_spec ∅ (find_split_points f (map fst (plans report)))) as [Hnd Hin]. fold splits in Hnd, Hin.
  assert (Hne : splits <> []) by (unfold splits; rewrite first_per_block_nil, Hf; done).
  assert (Hval : validate (f_blocks f) ∅ splits = None).
  { apply validate_valid; [done|]. intros sp Hsp. split; [set_solver|]. apply Hin in Hsp as [Hsp _].
    apply find_split_points_spec in Hsp as (b & i & Hb & Hid & Hi & _). exists b.
    apply list_elem_of_In, list_elem_of_lookup in Hb as [k Hk]. rewrite <-Hid, (Hd _ _ Hk), Nat2N.id.
    split; [done|by apply lookup_lt_Some in Hi]. }
  assert (Hblocks : f_blocks f <> []).
  { intros He. unfold awaits in Ha. by rewrite He in Ha. }
  destruct (f_params f) as [|par ps] eqn:Hpar.
  { cbn [negb]. exists f. split; [|done]. unfold split_at_await. destruct splits; [done|]. by rewrite Hval, Hpar. }
  destruct (analyze_spec f Hd (analyze_fuel f)) as (live & Hlive & _); [done|].
  destruct (split_shape f (state_struct_name plan) splits live par ps Hne Hd Hpar Hlive Hval Hblocks Ht) as (f' & saved & Hr & _).
  exists f'. rewrite Hr. cbn. split; [done|]. eauto.
Qed.

(** C19: on a module whose functions are well formed the driver never panics and no split is refused for its
    points; it splits exactly the async functions that have a plan, a parameter and an await, at the first
    await of each of their blocks, counts them, and leaves the others as they are. *)
Theorem apply_split_at_awaits_total m report :
  (forall f, In f (m_functions m) -> dense f /\ targets_in_range f) ->
  exists m', apply_split_at_awaits m report = Done (m', length (List.filter (is_split report) (m_functions m)))
  /\ Forall2 (split_of report) (m_functions m) (m_functions m').
Proof.
  unfold apply_split_at_awaits. destruct m as [fs ? ? ? ?]. cbn [m_functions]. intros Hwf.
  assert (Hl : exists l, mapM (apply_split report) fs = Done l
    /\ Forall2 (split_of report) fs (map fst l) /\ sum_list (map snd l) = length (List.filter (is_split report) fs)).
  { induction fs as [|f fs IH]; [by exists []|].
    destruct (Hwf f) as [Hd Ht]; [by left|]. destruct (apply_split_spec report f Hd Ht) as (f' & Hf & Hs).
    destruct IH as (l & Hm & HF & Hsum); [intros g Hg; apply Hwf; by right|].
    eexists. cbn. rewrite Hf. cbn. rewrite Hm. cbn. split; [reflexivity|]. split; [by constructor|]. cbn. rewrite Hsum.
    by destruct (is_split report f). }
  destruct Hl as (l & -> & HF & Hsum). cbn. rewrite Hsum. eexists. split; [reflexivity|done].
Qed.
