(* ===== verification/AsyncExamples.v ===== *)
(** Async functions on an instance of the language with a state struct: the split keeps the
    meaning of a function whose locals have names, and changes it without that. *)

From S2P Require Import Prelude MirIr MirUses MirSem Liveness ScalarLang AsyncLower AsyncFrame AsyncSound.
Open Scope string_scope.

(* ------------------------------------------------------------------ *)
(** ** A language with a state struct                                  *)
(* ------------------------------------------------------------------ *)

Inductive cval := CV_int (z : Z) | CV_state.
#[export] Instance cval_eq_dec : EqDecision cval.
Proof. solve_decision. Defined.
Definition cconst (c : Constant) : cval := match c with C_Int z => CV_int z | _ => CV_int 0 end.
(** The fields of the struct, and the arguments of the calls of other functions so far. *)
Definition cworld : Type := gmap string cval * list cval.
Definition cfill (o : Operand) (vs : list cval) : option (cval * list cval) :=
  match o with
  | Op_Constant c => Some (cconst c, vs)
  | Op_Local _ => match vs with v :: vs => Some (v, vs) | [] => None end
  end.
Definition cprim (rv : RValue) (vs : list cval) (w : cworld) : option (cval * cworld) :=
  match rv with
  | RV_Use o => '(v, _) ← cfill o vs; Some (v, w)
  | RV_BinOp Bin_Add l r =>
      '(a, vs) ← cfill l vs; '(b, _) ← cfill r vs;
      match a, b with CV_int a, CV_int b => Some (CV_int (a + b), w) | _, _ => None end
  | RV_Field (Op_Local _) name => match vs with [CV_state] => Some (default (CV_int 0) (w.1 !! name), w) | _ => None end
  | _ => None
  end.
Definition ceffect (i : Instruction) (vs : list cval) (w : cworld) : option (cval * cworld) :=
  match i with
  | I_StoreField (Op_Local _) name o =>
      match vs with
      | CV_state :: vs => '(v, _) ← cfill o vs; Some (CV_int 0, (<[name := v]> w.1, w.2))
      | _ => None
      end
  | I_Nop => Some (CV_int 0, w)
  | _ => None
  end.
Definition cextern (name : string) (args : list cval) (w : cworld) : option (cval * cworld) :=
  if forallb (fun v => bool_decide (v <> CV_state)) args then Some (CV_int 7, (w.1, w.2 ++ args)%list) else None.
Definition cell_lang : MirLang := {|
  val := cval; world := cworld; undef_val := CV_int 0; none_val := CV_int 0; const_val := cconst;
  prim_rvalue := cprim; prim_effect := ceffect; resolve_call _ _ _ := None; extern_call := cextern;
  branch_on v := match v with CV_int z => negb (z =? 0)%Z | CV_state => true end;
  switch_on v := match v with CV_int z => z | CV_state => 0%Z end
|}.

Lemma cfill_not_state o vs v vs' : Forall (fun v => v <> CV_state) vs -> cfill o vs = Some (v, vs') ->
  v <> CV_state /\ Forall (fun v => v <> CV_state) vs'.
Proof.
  intros Hf. destruct o as [x|c]; cbn; [|intros [= <- <-]; split; [by destruct c|done]].
  destruct vs as [|u vs]; [done|]. apply Forall_cons in Hf as [Hu Hf]. by intros [= <- <-].
Qed.
Definition crest (w1 w2 : cworld) : Prop := w1.2 = w2.2.
Definition cfld (w : cworld) (n : string) : cval := default (CV_int 0) (w.1 !! n).
#[export] Instance cell_state : StateStruct cell_lang CV_state.
Proof.
  refine {| same_rest := (crest : @world cell_lang -> @world cell_lang -> Prop); fld := (cfld : @world cell_lang -> string -> @val cell_lang) |}; unfold crest, cfld.
  - intros ρ w q name o Hq. destruct o as [x|c]; cbn in *; rewrite Hq; do 2 eexists; (split; [reflexivity|]); (split; [done|]); intros n;
      cbn; (destruct (String.eqb_spec n name) as [->|Hne]; [by rewrite lookup_insert_eq|by rewrite lookup_insert_ne]).
  - intros ρ w q name Hq. cbn in *. by rewrite Hq.
  - by intros [].
  - done.
  - done.
  - done.
  - intros rv vs w1 w2 Hf Hw. cbn in *. destruct rv; cbn; try constructor.
    + destruct (cfill _ vs) as [[v vs']|] eqn:E; cbn; constructor. by destruct (cfill_not_state _ _ _ _ Hf E).
    + destruct op; try constructor. destruct (cfill left vs) as [[a vs1]|]; cbn; [|constructor].
      destruct (cfill right vs1) as [[b vs2]|]; cbn; [|constructor]. destruct a, b; constructor; done.
    + destruct object; [|constructor]. destruct vs as [|[] []]; try constructor. by apply Forall_cons in Hf as [? _].
  - intros i vs w1 w2 Hf Hw. cbn in *. destruct i; cbn; try constructor; [|done].
    destruct object; [|constructor]. destruct vs as [|[] vs]; try constructor. by apply Forall_cons in Hf as [? _].
  - intros rv vs w1 w2 Hf Hw. done.
  - intros name args w1 w2 Hf Hw. cbn in *. unfold cextern. destruct (forallb _ args); constructor. cbn. by rewrite Hw.
Defined.

(* ------------------------------------------------------------------ *)
(** ** Functions                                                       *)
(* ------------------------------------------------------------------ *)

Definition named (x : LocalId) (name : string) : MirLocal := mkLocal x (Some name) Ty_I64 false.
Definition async_attrs : MirAttributes := mkAttrs false false false false false true None [] false [] [].
(** [fn demo(state) { a = first(); b = await second(); return a + b }] *)
Definition demo (locals : list MirLocal) : MirFunction :=
  mkFunction "demo" [mkParam 0%N Ty_I64] Ty_I64
    [mkBlock 0%N [I_Assign 1%N (RV_Call "first" []); I_Assign 2%N (RV_Call "second" []);
                  I_Assign 3%N (RV_BinOp Bin_Add (loc 1%N) (loc 2%N))] (T_Return (Some (loc 3%N)))]
    locals async_attrs None 0%N.
Definition demo_ok : MirFunction := demo [named 0 "__state"; named 1 "a"; named 2 "b"; named 3 "c"].
Definition at_second : list SplitPoint := [mkSplit 0%N 1].
Definition split_demo (f : MirFunction) : MirFunction :=
  match split_at_await f "S" at_second with Done (inr (f', _)) => f' | _ => f end.

(** The state pointer in the first local, and nothing else. *)
Definition start_env : @env cell_lang := fun x => if N.eqb x 0 then CV_state else CV_int 0.
Definition start_world : @world cell_lang := (∅, []).
Definition run_demo (f : MirFunction) : res (option cval) :=
  fst <$> run (H := cell_lang) 5 [] f 0%N start_env start_world.
Definition poll_demo (n : nat) (f : MirFunction) : res (option cval) :=
  fst <$> drive (H := cell_lang) n [] (split_demo f) [1%N] start_env 0%N start_env start_world.

Lemma demo_polled : run_demo demo_ok = Done (Some (CV_int 14)) /\ poll_demo 16 demo_ok = Done (Some (CV_int 14)).
Proof. split; vm_compute; reflexivity. Qed.

(** The lowering gives its temporaries no name, and locals without a name are not saved. *)
Definition demo_temp : MirFunction := demo [named 0 "__state"; mkLocal 1 None Ty_I64 false; named 2 "b"; named 3 "c"].
Lemma temporary_lost : run_demo demo_temp = Done (Some (CV_int 14)) /\ poll_demo 16 demo_temp = Done (Some (CV_int 7)).
Proof. split; vm_compute; reflexivity. Qed.
(** Two locals of one name share a field. *)
Definition demo_shadowed : MirFunction :=
  mkFunction "demo" [mkParam 0%N Ty_I64] Ty_I64
    [mkBlock 0%N [I_Assign 1%N (RV_Use (int 1)); I_Assign 2%N (RV_Call "second" []);
                  I_Assign 3%N (RV_BinOp Bin_Add (loc 1%N) (loc 2%N))] (T_Return (Some (loc 3%N)))]
    [named 0 "__state"; named 1 "x"; named 2 "x"; named 3 "c"] async_attrs None 0%N.
Lemma shadowed_local_lost : run_demo demo_shadowed = Done (Some (CV_int 8)) /\ poll_demo 16 demo_shadowed = Done (Some (CV_int 14)).
Proof. split; vm_compute; reflexivity. Qed.
(** A local with the name of the discriminant's field overwrites it: no poll finds its state again. *)
Definition demo_state : MirFunction := demo [named 0 "__state"; named 1 "state"; named 2 "b"; named 3 "c"].
Lemma local_named_state : run_demo demo_state = Done (Some (CV_int 14)) /\ poll_demo 99 demo_state = OutOfFuel.
Proof. split; vm_compute; reflexivity. Qed.

(* ------------------------------------------------------------------ *)
(** ** A module                                                        *)
(* ------------------------------------------------------------------ *)

(** [async fn work(x) { await tick(x); return x }] and [async fn tick(x) { return x }] *)
Definition tick : MirFunction :=
  mkFunction "tick" [mkParam 0%N Ty_I64] Ty_I64 [mkBlock 0%N [] (T_Return (Some (loc 0%N)))] [named 0 "x"] async_attrs None 0%N.
Definition work : MirFunction :=
  mkFunction "work" [mkParam 0%N Ty_I64] Ty_I64
    [mkBlock 0%N [I_Assign 1%N (RV_Call "tick" [loc 0%N])] (T_Return (Some (loc 0%N)))]
    [named 0 "x"; named 1 "t"] async_attrs None 0%N.
Definition two_functions : MirModule := module_of [tick; work].
Definition two_report : AsyncLoweringReport := run_async two_functions.

Lemma apply_split_at_awaits_total_witness :
  exists m', apply_split_at_awaits two_functions two_report
    = Done (m', length (List.filter (is_split two_report) (m_functions two_functions)))
  /\ Forall2 (split_of two_report) (m_functions two_functions) (m_functions m').
Proof.
  apply (apply_split_at_awaits_total two_functions two_report).
  intros f [<-|[<-|[]]]; (split; [apply dense_b_spec; reflexivity|]); intros b t [<-|[]] [].
Defined.
Lemma work_is_split : map (is_split two_report) (m_functions two_functions) = [false; true].
Proof. vm_compute. reflexivity. Qed.

(** The driver takes the first parameter of the source for the state pointer: polled with its argument,
    the split function panics. *)
Definition work_split : MirFunction :=
  match apply_split_at_awaits two_functions two_report with Done (m, _) => nth 1 (m_functions m) work | _ => work end.
Definition argument_env : @env cell_lang := fun x => if N.eqb x 0 then CV_int 5 else CV_int 0.
Lemma parameter_taken_for_state :
  fst <$> run (H := cell_lang) 5 [tick] work 0%N argument_env start_world = Done (Some (CV_int 5))
  /\ drive (H := cell_lang) 16 [tick] work_split [1%N] argument_env 0%N argument_env start_world = Panic.
Proof. split; vm_compute; reflexivity. Qed.
