(* ===== verification/Consteval.v ===== *)
(** Compile-time evaluation and constant folding ([kryos-mir/src/consteval.rs],
    [kryos-mir/src/optimize/constant_fold.rs]). *)

From Stdlib Require Import SpecFloat.
From S2P Require Import Prelude Machine MirIr Backend.

Definition operand_to_const (op : Operand) : option Constant :=
  match op with
  | Op_Constant c => Some c
  | Op_Local _ => None
  end.

Definition const_to_operand (c : Constant) : Operand := Op_Constant c.

(** The fold, or the operation itself when [checked_*] gives [None]. *)
Definition fold_int (r : option Z) (unfolded : RValue) : RValue :=
  match r with Some v => RV_ConstInt v | None => unfolded end.

Definition eval_binop (op : MirBinOp) (lhs rhs : Constant) : RValue :=
  let unfolded := RV_BinOp op (const_to_operand lhs) (const_to_operand rhs) in
  match op, lhs, rhs with
  (* integer arithmetic (checked: overflow is unfoldable) *)
  | Bin_Add, C_Int a, C_Int b => fold_int (checked_add a b) unfolded
  | Bin_Sub, C_Int a, C_Int b => fold_int (checked_sub a b) unfolded
  | Bin_Mul, C_Int a, C_Int b => fold_int (checked_mul a b) unfolded
  | Bin_Div, C_Int a, C_Int b =>
      if negb (b =? 0) then fold_int (checked_div a b) unfolded else unfolded
  | Bin_Mod, C_Int a, C_Int b =>
      if negb (b =? 0) then fold_int (checked_rem a b) unfolded else unfolded
  | Bin_Pow, C_Int a, C_Int b =>
      if 0 <=? b then fold_int (checked_pow a (as_u32 b)) unfolded else unfolded
  (* float arithmetic *)
  | Bin_Add, C_Float a, C_Float b => RV_ConstFloat (f64_add a b)
  | Bin_Sub, C_Float a, C_Float b => RV_ConstFloat (f64_sub a b)
  | Bin_Mul, C_Float a, C_Float b => RV_ConstFloat (f64_mul a b)
  | Bin_Div, C_Float a, C_Float b =>
      if negb (SFeqb b f64_zero) then RV_ConstFloat (f64_div a b) else unfolded
  (* integer comparisons *)
  | Bin_Eq, C_Int a, C_Int b => RV_ConstBool (a =? b)
  | Bin_Neq, C_Int a, C_Int b => RV_ConstBool (negb (a =? b))
  | Bin_Lt, C_Int a, C_Int b => RV_ConstBool (a <? b)
  | Bin_LtEq, C_Int a, C_Int b => RV_ConstBool (a <=? b)
  | Bin_Gt, C_Int a, C_Int b => RV_ConstBool (a >? b)
  | Bin_GtEq, C_Int a, C_Int b => RV_ConstBool (a >=? b)
  (* float comparisons *)
  | Bin_Eq, C_Float a, C_Float b => RV_ConstBool (SFeqb a b)
  | Bin_Neq, C_Float a, C_Float b => RV_ConstBool (negb (SFeqb a b))
  | Bin_Lt, C_Float a, C_Float b => RV_ConstBool (SFltb a b)
  | Bin_LtEq, C_Float a, C_Float b => RV_ConstBool (SFleb a b)
  | Bin_Gt, C_Float a, C_Float b => RV_ConstBool (SFltb b a)
  | Bin_GtEq, C_Float a, C_Float b => RV_ConstBool (SFleb b a)
  (* boolean logic *)
  | Bin_And, C_Bool a, C_Bool b => RV_ConstBool (a && b)
  | Bin_Or, C_Bool a, C_Bool b => RV_ConstBool (a || b)
  (* bitwise integer operations *)
  | Bin_BitAnd, C_Int a, C_Int b => RV_ConstInt (Z.land a b)
  | Bin_BitOr, C_Int a, C_Int b => RV_ConstInt (Z.lor a b)
  | Bin_BitXor, C_Int a, C_Int b => RV_ConstInt (Z.lxor a b)
  | Bin_Shl, C_Int a, C_Int b => fold_int (checked_shl a (as_u32 b)) unfolded
  | Bin_Shr, C_Int a, C_Int b => fold_int (checked_shr a (as_u32 b)) unfolded
  (* string concatenation *)
  | Bin_Add, C_Str a, C_Str b => RV_ConstString (a ++ b)
  (* cannot fold (division by zero, mixed types, ...) *)
  | _, _, _ => unfolded
  end.

Definition eval_unop (op : MirUnOp) (operand : Constant) : RValue :=
  let unfolded := RV_UnOp op (const_to_operand operand) in
  match op, operand with
  | Un_Neg, C_Int v => fold_int (checked_neg v) unfolded
  | Un_Neg, C_Float v => RV_ConstFloat (SFopp v)
  | Un_Not, C_Bool v => RV_ConstBool (negb v)
  | Un_BitNot, C_Int v => RV_ConstInt (Z.lnot v)
  | _, _ => unfolded
  end.

Fixpoint eval_comptime (rvalue : RValue) : RValue :=
  match rvalue with
  | RV_ConstInt v => RV_ConstInt v
  | RV_ConstFloat v => RV_ConstFloat v
  | RV_ConstBool v => RV_ConstBool v
  | RV_ConstString s => RV_ConstString s
  | RV_ConstNone => RV_ConstNone
  | RV_Comptime inner => eval_comptime inner
  | RV_BinOp op lhs rhs =>
      match operand_to_const lhs, operand_to_const rhs with
      | Some l, Some r => eval_binop op l r
      | _, _ => rvalue
      end
  | RV_UnOp op operand =>
      match operand_to_const operand with
      | Some c => eval_unop op c
      | None => rvalue
      end
  | other => other
  end.

(** Attempts to fold an r-value; the original if it is not foldable. *)
Definition try_fold (rvalue : RValue) : RValue :=
  match rvalue with
  | RV_BinOp op lhs rhs =>
      match operand_to_const lhs, operand_to_const rhs with
      | Some l, Some r => eval_binop op l r
      | _, _ => rvalue
      end
  | RV_UnOp op operand =>
      match operand_to_const operand with
      | Some c => eval_unop op c
      | None => rvalue
      end
  | _ => rvalue
  end.

(** Rewrites the value of every [Assign]; the shape shared by the passes that
    walk all instructions of all blocks. *)
Definition map_assign (g : RValue -> RValue) (inst : Instruction) : Instruction :=
  match inst with I_Assign dest value => I_Assign dest (g value) | _ => inst end.

Definition map_block_values (g : RValue -> RValue) (b : BasicBlock) : BasicBlock :=
  set_instructions b (map (map_assign g) (bb_instructions b)).

Definition map_function_values (g : RValue -> RValue) (f : MirFunction) : MirFunction :=
  set_blocks f (map (map_block_values g) (f_blocks f)).

(** [*value = eval_comptime(inner)] where the value is [Comptime(inner)]. *)
Definition comptime_value (value : RValue) : RValue :=
  match value with RV_Comptime inner => eval_comptime inner | _ => value end.

Definition run_comptime_block (b : BasicBlock) : BasicBlock :=
  map_block_values comptime_value b.

Definition run_comptime_function (f : MirFunction) : MirFunction :=
  set_blocks f (map run_comptime_block (f_blocks f)).

Definition run_comptime_pass (m : MirModule) : MirModule :=
  set_functions m (map run_comptime_function (m_functions m)).

Definition run_constant_fold_pass (m : MirModule) : MirModule :=
  set_functions m (map (map_function_values try_fold) (m_functions m)).

(** [optimize::constant_fold::fold_constants] *)
Definition fold_constants (m : MirModule) : MirModule := run_constant_fold_pass m.

(** The exponent cast [*b as u32] makes the folder disagree with the
    runtime: [2 ** 4294967296] folds to 1, and [kryos_ipow] returns 0. *)
Lemma fold_pow_truncates :
  try_fold (RV_BinOp Bin_Pow (Op_Constant (C_Int 2)) (Op_Constant (C_Int (2 ^ 32))))
    = RV_ConstInt 1
  /\ kryos_ipow 2 (2 ^ 32) = Some 0.
Proof. split; vm_compute; reflexivity. Qed.
