(* ===== verification/FoldSound.v ===== *)
(** Constant folding and compile-time evaluation compute what the backend's
    code would have computed. *)

From Stdlib Require Import SpecFloat.
From S2P Require Import Prelude Machine MirIr MirUses MirSem Passes Consteval Backend ScalarLang.

(* ------------------------------------------------------------------ *)
(** ** A pass that rewrites values preserves runs                      *)
(* ------------------------------------------------------------------ *)

Section MapValues.
Context `{M : MirLang} (g : RValue -> RValue) (ok : RValue -> Prop).
Context (Hg : forall callf (ρ : env) w rv, ok rv ->
  eval_rvalue callf ρ w (g rv) = eval_rvalue callf ρ w rv).
Implicit Types (ρ : env) (w : world).

Lemma exec_inst_map callf i ρ w :
  Forall ok (inst_rvalues i) -> exec_inst callf (map_assign g i) ρ w = exec_inst callf i ρ w.
Proof.
  intros Hok. destruct i; try done. apply Forall_inv in Hok. cbn. by rewrite Hg.
Qed.

Lemma exec_insts_map callf insts ρ w :
  Forall ok (flat_map inst_rvalues insts) ->
  exec_insts callf (map (map_assign g) insts) ρ w = exec_insts callf insts ρ w.
Proof.
  revert ρ w. induction insts as [|i insts IH]; intros ρ w Hok; [done|].
  apply Forall_app in Hok as [Hi Hrest]. cbn. rewrite exec_inst_map by done.
  destruct (exec_inst callf i ρ w) as [[ρ' w']| |]; cbn; auto.
Qed.

Lemma find_block_map f id :
  find_block (map_function_values g f) id = option_map (map_block_values g) (find_block f id).
Proof.
  unfold find_block. cbn. induction (f_blocks f) as [|b bs IH]; cbn; [done|].
  by destruct (N.eqb _ _).
Qed.

Lemma entry_id_map f : entry_id (map_function_values g f) = entry_id f.
Proof. unfold entry_id. cbn. by destruct (f_blocks f). Qed.

Lemma frun_map_values c n f id ρ w :
  Forall ok (fun_rvalues f) -> frun c n (map_function_values g f) id ρ w = frun c n f id ρ w.
Proof.
  intros Hf. revert id ρ w. induction n as [|n IH]; intros id ρ w; [done|].
  cbn [frun]. rewrite find_block_map. destruct (find_block f id) as [b|] eqn:Hb; cbn; [|done].
  apply find_some in Hb as [Hb _]. rewrite exec_insts_map.
  - destruct (exec_insts _ _ ρ w) as [[ρ' w']| |]; cbn; try done.
    destruct (exec_term _ ρ') as [[v|id']| |]; cbn; auto.
  - rewrite List.Forall_forall in Hf |- *. intros rv Hrv. apply Hf, in_flat_map. eauto.
Qed.

Lemma call_map_values n fs name args w :
  Forall (fun h => Forall ok (fun_rvalues h)) fs ->
  call n (map (map_function_values g) fs) name args w = call n fs name args w.
Proof.
  intros Hfs. symmetry. apply (call_pass (fun A => @eq (res A))).
  apply Forall2_fmap_r, Forall_Forall2_diag. eapply Forall_impl; [done|]. intros f Hf.
  split; [done|]. intros k args' w'. unfold fcall. rewrite entry_id_map.
  destruct (entry_id f) as [id0|]; cbn; [|done]. by rewrite frun_map_values.
Qed.
End MapValues.

(* ------------------------------------------------------------------ *)
(** ** The evaluator against the backend                               *)
(* ------------------------------------------------------------------ *)

Definition const_ok (c : Constant) : bool := scalar_ok (constant_scalar c).

(** The exponents [*b as u32] does not truncate. *)
Definition pow_ok (op : MirBinOp) (r : Constant) : bool :=
  match op, r with Bin_Pow, C_Int e => e <? 2 ^ 32 | _, _ => true end.

Definition fold_ok (rv : RValue) : bool :=
  match rv with
  | RV_BinOp op (Op_Constant l) (Op_Constant r) => const_ok l && const_ok r && pow_ok op r
  | RV_UnOp _ (Op_Constant c) => const_ok c
  | _ => true
  end.

Section Eval.
Context {C : ClifOps} {L : ClifLaws C}.

Lemma overflow_folds chk exact v :
  checked exact = Some v ->
  (if chk && negb (in_i64 exact) then None else Some (S_I64 (wrap64 exact))) = Some (S_I64 v).
Proof.
  rewrite checked_Some. intros [Hr ->]. by rewrite Hr, andb_false_r, wrap64_id.
Qed.

Lemma pow_folds a b v :
  0 <= b < 2 ^ 32 -> checked_pow a (as_u32 b) = Some v -> kryos_ipow a b = Some v.
Proof.
  intros Hb Hp. unfold as_u32 in Hp. rewrite Z.mod_small in Hp by lia.
  apply checked_pow_Some in Hp as [Hr ->].
  rewrite kryos_ipow_nonneg by lia. by rewrite wrap64_id.
Qed.

Lemma shift_masks b : b mod 2 ^ 32 < 64 -> b mod 64 = b mod 2 ^ 32.
Proof.
  intros Hb. pose proof (Z.mod_pos_bound b (2 ^ 32) ltac:(lia)).
  rewrite <-(Z.mod_small (b mod 2 ^ 32) 64) by lia.
  change (2 ^ 32) with (64 * 2 ^ 26). rewrite Z.rem_mul_r by lia.
  rewrite Z.mul_comm, Z_mod_plus_full. by rewrite Zmod_mod.
Qed.

(** What an r-value left by the evaluator says: nothing new, or the value the
    backend's code would leave in the register. *)
Definition folds_to (rv unfolded : RValue) (v : option scalar) : Prop :=
  rv = unfolded \/ exists s, rvalue_scalar rv = Some s /\ v = Some s.

Lemma folds_int r unfolded v :
  (forall z, r = Some z -> v = Some (S_I64 z)) -> folds_to (fold_int r unfolded) unfolded v.
Proof. intros Hv. destruct r as [z|]; [right; exists (S_I64 z); auto|by left]. Qed.

Lemma eval_binop_int chk op a b :
  const_ok (C_Int b) = true -> pow_ok op (C_Int b) = true ->
  folds_to (eval_binop op (C_Int a) (C_Int b))
    (RV_BinOp op (Op_Constant (C_Int a)) (Op_Constant (C_Int b)))
    (binop_value chk op (S_I64 a) (S_I64 b)).
Proof.
  intros Hb Hp. destruct op; cbn -[Z.pow checked_pow];
    try (right; eexists; split; [reflexivity|];
         rewrite ?band_land, ?bor_lor, ?bxor_lxor; reflexivity); try by left.
  - apply folds_int. intros z Hz. rewrite iadd_wraps. by apply overflow_folds.
  - apply folds_int. intros z Hz. rewrite isub_wraps. by apply overflow_folds.
  - apply folds_int. intros z Hz. rewrite imul_wraps. by apply overflow_folds.
  - destruct (negb (b =? 0)) eqn:Hb0; [|by left]. apply folds_int. intros z Hz.
    unfold checked_div in Hz. apply negb_true_iff in Hb0. rewrite Hb0 in Hz.
    apply Z.eqb_neq in Hb0. apply checked_Some in Hz as [Hr ->].
    assert (Hno : ~ (a = i64_min /\ b = -1))
      by (intros [-> ->]; vm_compute in Hr; done).
    rewrite (proj2 (check_sdiv_spec a b)) by done. by rewrite sdiv_truncates.
  - destruct (negb (b =? 0)) eqn:Hb0; [|by left]. apply folds_int. intros z Hz.
    unfold checked_rem in Hz. apply negb_true_iff in Hb0. rewrite Hb0 in Hz.
    apply Z.eqb_neq in Hb0. destruct ((a =? i64_min) && (b =? -1)) eqn:Hm; [done|].
    assert (Hno : ~ (a = i64_min /\ b = -1)) by (intros [-> ->]; done).
    rewrite (proj2 (check_sdiv_spec a b)) by done. rewrite srem_truncates by done. congruence.
  - destruct (Z.leb_spec 0 b); [|by left]. apply folds_int. intros z Hz.
    cbn -[Z.pow] in Hp. apply Z.ltb_lt in Hp. by rewrite (pow_folds a b z (conj H Hp) Hz).
  - apply folds_int. intros z Hz. unfold checked_shl, as_u32 in Hz.
    destruct (Z.ltb_spec (b mod 2 ^ 32) 64); [|done]. rewrite ishl_masks, shift_masks by done.
    congruence.
  - apply folds_int. intros z Hz. unfold checked_shr, as_u32 in Hz.
    destruct (Z.ltb_spec (b mod 2 ^ 32) 64); [|done]. rewrite sshr_masks, shift_masks by done.
    congruence.
Qed.

Lemma eval_binop_sound chk op l r :
  const_ok r = true -> pow_ok op r = true ->
  folds_to (eval_binop op l r) (RV_BinOp op (Op_Constant l) (Op_Constant r))
    (binop_value chk op (constant_scalar l) (constant_scalar r)).
Proof.
  intros Hr Hp. destruct l as [a|x|p|s|], r as [b|y|q|t|];
    try (destruct op; by left); [by apply eval_binop_int|..].
  - destruct op; cbn; try (by left);
      try (case_match; [|by left]);
      right; eexists; (split; [reflexivity|]);
      rewrite ?fadd_ieee, ?fsub_ieee, ?fmul_ieee, ?fdiv_ieee; reflexivity.
  - destruct op; cbn; try (by left); right; eexists; done.
  - destruct op; cbn; try (by left); right; eexists; done.
Qed.

Lemma eval_unop_sound op c :
  folds_to (eval_unop op c) (RV_UnOp op (Op_Constant c)) (translate_unop op (constant_scalar c)).
Proof.
  destruct op, c; cbn; try (by left).
  - apply folds_int. intros z [Hz ->]%checked_Some. by rewrite ineg_wraps, wrap64_id.
  - right. eexists. split; [reflexivity|]. by rewrite fneg_ieee.
  - right. eexists. done.
  - right. eexists. split; [reflexivity|]. by rewrite bnot_lnot.
Qed.
End Eval.

(* ------------------------------------------------------------------ *)
(** ** The passes preserve every call                                  *)
(* ------------------------------------------------------------------ *)

(** What a [Comptime] block contains must be foldable without truncation. *)
Fixpoint comptime_ok (rv : RValue) : bool :=
  match rv with RV_Comptime inner => comptime_ok inner | _ => fold_ok rv end.

Definition rvalues_ok (p : RValue -> bool) (fs : list MirFunction) : bool :=
  forallb (fun f => forallb p (fun_rvalues f)) fs.

Lemma rvalues_ok_Forall p fs :
  rvalues_ok p fs = true ->
  Forall (fun f => Forall (fun rv => p rv = true) (fun_rvalues f)) fs.
Proof.
  unfold rvalues_ok. intros Hp. apply List.Forall_forall. intros f Hf.
  rewrite forallb_forall in Hp. apply List.Forall_forall, forallb_forall, Hp, Hf.
Qed.

Section Passes.
Context {C : ClifOps} {L : ClifLaws C} {M : MirLang} {SL : ScalarLang M C}.
Context (callf : string -> list val -> world -> res (val * world)).
Implicit Types (ρ : env) (w : world).

Lemma eval_scalar ρ w rv s :
  rvalue_scalar rv = Some s -> eval_rvalue callf ρ w rv = Done (of_scalar s, w).
Proof.
  intros Hs. pose proof (prim_const rv s w Hs) as Hp.
  destruct rv; try done; cbn in *; by rewrite Hp.
Qed.

Lemma eval_folds_to ρ w rv unfolded v :
  folds_to rv unfolded v ->
  (forall s, v = Some s -> eval_rvalue callf ρ w unfolded = Done (of_scalar s, w)) ->
  eval_rvalue callf ρ w rv = eval_rvalue callf ρ w unfolded.
Proof.
  intros [->|(s & Hs & Hv)] Hu; [done|]. by rewrite (Hu s Hv), (eval_scalar _ _ _ s).
Qed.

Lemma try_fold_eval ρ w rv :
  fold_ok rv = true ->
  eval_rvalue callf ρ w (try_fold rv) = eval_rvalue callf ρ w rv.
Proof.
  intros Hok. destruct rv; try done.
  - destruct left as [|l], right as [|r]; try done. cbn in Hok.
    apply andb_true_iff in Hok as [[_ Hr]%andb_true_iff Hp].
    eapply eval_folds_to; [by apply eval_binop_sound|]. intros s Hs.
    cbn [eval_rvalue]. erewrite prim_binop; [reflexivity|..|apply Hs]; apply const_is_scalar.
  - destruct operand as [|c]; try done.
    eapply eval_folds_to; [by apply eval_unop_sound|]. intros s Hs.
    cbn [eval_rvalue]. erewrite prim_unop; [reflexivity|apply const_is_scalar|apply Hs].
Qed.

Lemma eval_comptime_eval ρ w rv :
  comptime_ok rv = true ->
  eval_rvalue callf ρ w (eval_comptime rv) = eval_rvalue callf ρ w rv.
Proof.
  induction rv as [| |op o| | | | | | | | | | | | | | | | | | | | | | | |inner IH| |];
    intros Hok; try exact (IH Hok); first [exact (try_fold_eval ρ w _ Hok)|done].
Qed.

Lemma comptime_value_eval ρ w rv :
  comptime_ok rv = true ->
  eval_rvalue callf ρ w (comptime_value rv) = eval_rvalue callf ρ w rv.
Proof. intros Hok. destruct rv; try done. by apply (eval_comptime_eval ρ w rv). Qed.
End Passes.

Section Programs.
Context {C : ClifOps} {L : ClifLaws C} {M : MirLang} {SL : ScalarLang M C}.

(** C30: constant folding changes the outcome of no call of a module's
    functions (result, world, panic), whatever the fuel, if its constants are
    64-bit and no constant exponent reaches 2^32. *)
Theorem fold_constants_correct n m name args (w : world) :
  rvalues_ok fold_ok (m_functions m) = true ->
  call n (m_functions (fold_constants m)) name args w = call n (m_functions m) name args w.
Proof.
  intros Hok. apply (call_map_values _ (fun rv => fold_ok rv = true)).
  - intros. by apply (try_fold_eval (C := C)).
  - by apply rvalues_ok_Forall.
Qed.

(** C31: the compile-time pass replaces a [comptime] expression by a value the
    backend's code would compute at run time, so no call changes. *)
Theorem run_comptime_pass_correct n m name args (w : world) :
  rvalues_ok comptime_ok (m_functions m) = true ->
  call n (m_functions (run_comptime_pass m)) name args w
  = call n (m_functions m) name args w.
Proof.
  intros Hok. apply (call_map_values _ (fun rv => comptime_ok rv = true)).
  - intros. by apply (comptime_value_eval (C := C)).
  - by apply rvalues_ok_Forall.
Qed.
End Programs.


Lemma fold_constants_correct_witness :
  call (H := clif_lang) 5 (m_functions (fold_constants main_sum)) "main" [] []
  = Done (S_I64 45, []).
Proof.
  rewrite (fold_constants_correct (C := clif_i64) (M := clif_lang) (SL := scalar_lang_ok clif_i64 false)
    5 main_sum "main" [] [])
    by (vm_compute; reflexivity).
  vm_compute. reflexivity.
Defined.

Lemma run_comptime_pass_correct_witness :
  call (H := clif_lang) 5 (m_functions (run_comptime_pass main_sum)) "main" [] []
  = Done (S_I64 45, []).
Proof.
  rewrite (run_comptime_pass_correct (C := clif_i64) (M := clif_lang) (SL := scalar_lang_ok clif_i64 false)
    5 main_sum "main" [] [])
    by (vm_compute; reflexivity).
  vm_compute. reflexivity.
Defined.
