(* ===== verification/Strength.v ===== *)
(** Strength reduction ([kryos-mir/src/optimize/strength.rs]) on 64-bit
    integers: the shift or copy that replaces an operation computes the same
    register. *)

From S2P Require Import Prelude Machine MirIr MirUses MirSem Consteval Backend ScalarLang.

(* ------------------------------------------------------------------ *)
(** ** The pass                                                        *)
(* ------------------------------------------------------------------ *)

(** [u64::count_ones] and [u64::trailing_zeros] on a non-zero word. *)
Fixpoint count_ones (p : positive) : N :=
  match p with
  | xH => 1
  | xO p => count_ones p
  | xI p => 1 + count_ones p
  end.

Fixpoint trailing_zeros (p : positive) : N :=
  match p with xO p => 1 + trailing_zeros p | _ => 0 end.

Definition is_power_of_two (u : Z) : bool :=
  match u with Zpos p => N.eqb (count_ones p) 1 | _ => false end.

Definition is_int_const (op : Operand) (expected : Z) : bool :=
  match op with Op_Constant (C_Int v) => v =? expected | _ => false end.

Definition power_of_two_const (op : Operand) : option N :=
  match op with
  | Op_Constant (C_Int v) =>
      if v >? 1 then
        let u := as_u64 v in
        match u with
        | Zpos p => if is_power_of_two u then Some (trailing_zeros p) else None
        | _ => None
        end
      else None
  | _ => None
  end.

Definition shl_by (x : Operand) (n : N) : RValue :=
  RV_BinOp Bin_Shl x (Op_Constant (C_Int (Z.of_N n))).

Definition try_reduce_binop (op : MirBinOp) (left right : Operand) : option RValue :=
  match op with
  | Bin_Mul =>
      if is_int_const right 0 || is_int_const left 0 then Some (RV_ConstInt 0)
      else if is_int_const right 1 then Some (RV_Use left)
      else if is_int_const left 1 then Some (RV_Use right)
      else match power_of_two_const right with
      | Some n => Some (shl_by left n)
      | None =>
          match power_of_two_const left with
          | Some n => Some (shl_by right n)
          | None => None
          end
      end
  | Bin_Div => if is_int_const right 1 then Some (RV_Use left) else None
  | Bin_Mod => if is_int_const right 1 then Some (RV_ConstInt 0) else None
  | Bin_Add =>
      if is_int_const right 0 then Some (RV_Use left)
      else if is_int_const left 0 then Some (RV_Use right)
      else None
  | Bin_Sub => if is_int_const right 0 then Some (RV_Use left) else None
  | _ => None
  end.

Definition try_reduce (rv : RValue) : option RValue :=
  match rv with
  | RV_BinOp op lhs rhs => try_reduce_binop op lhs rhs
  | _ => None
  end.

(** [if let Some(reduced) = try_reduce(value) { *value = reduced }] *)
Definition reduced (rv : RValue) : RValue := default rv (try_reduce rv).

Definition reduce_strength (m : MirModule) : MirModule :=
  set_functions m (map (map_function_values reduced) (m_functions m)).

(* ------------------------------------------------------------------ *)
(** ** Powers of two                                                   *)
(* ------------------------------------------------------------------ *)

Lemma count_ones_pos p : (1 <= count_ones p)%N.
Proof. induction p; cbn; lia. Qed.

Lemma count_ones_1 p : count_ones p = 1%N -> Zpos p = 2 ^ Z.of_N (trailing_zeros p).
Proof.
  induction p as [p _|p IH|]; cbn [count_ones trailing_zeros]; intros Hc; [|..|done].
  - pose proof (count_ones_pos p). lia.
  - rewrite Pos2Z.inj_xO, IH, N2Z.inj_add, Z.pow_add_r by lia. done.
Qed.

Lemma power_of_two_const_spec op n :
  (forall v, op = Op_Constant (C_Int v) -> in_i64 v = true) ->
  power_of_two_const op = Some n ->
  (1 <= n <= 62)%N /\ op = Op_Constant (C_Int (2 ^ Z.of_N n)).
Proof.
  intros Hr. destruct op as [|[v| | | |]]; try done. cbn -[Z.pow].
  destruct (Z.gtb_spec v 1); [|done]. specialize (Hr v eq_refl).
  apply in_i64_spec in Hr. unfold i64_min, i64_max in Hr.
  unfold as_u64. rewrite Z.mod_small by lia.
  destruct v as [|p|p]; try done. cbn [is_power_of_two].
  destruct (N.eqb_spec (count_ones p) 1) as [Hc|]; [|done]. intros [= <-].
  apply count_ones_1 in Hc. rewrite <-Hc. split; [|done].
  rewrite Hc in Hr, H. split.
  - destruct (trailing_zeros p); [done|lia].
  - assert (Z.of_N (trailing_zeros p) < 63) by (apply (Z.pow_lt_mono_r_iff 2); lia). lia.
Qed.

Lemma is_int_const_spec op k : is_int_const op k = true -> op = Op_Constant (C_Int k).
Proof. destruct op as [|[v| | | |]]; cbn; try done. by intros ->%Z.eqb_eq. Qed.

(* ------------------------------------------------------------------ *)
(** ** Reduction keeps the value                                       *)
(* ------------------------------------------------------------------ *)

Definition operand_ok (op : Operand) : bool :=
  match op with Op_Constant (C_Int v) => in_i64 v | _ => true end.

(** The register a binary operation on [I64] operands leaves, by a reduced form. *)
Section Values.
Context {C : ClifOps} {L : ClifLaws C}.

Lemma mul_pow_shl a n :
  (n <= 62)%N ->
  binop_value false Bin_Shl (S_I64 a) (S_I64 (Z.of_N n))
  = binop_value false Bin_Mul (S_I64 a) (S_I64 (2 ^ Z.of_N n)).
Proof.
  intros Hn. cbn -[Z.pow]. rewrite ishl_masks, imul_wraps, Z.mod_small by lia.
  by rewrite Z.shiftl_mul_pow2 by lia.
Qed.

Lemma mul_comm_value a b :
  binop_value false Bin_Mul (S_I64 a) (S_I64 b) = binop_value false Bin_Mul (S_I64 b) (S_I64 a).
Proof. cbn. by rewrite !imul_wraps, Z.mul_comm. Qed.

Lemma add_comm_value a b :
  binop_value false Bin_Add (S_I64 a) (S_I64 b) = binop_value false Bin_Add (S_I64 b) (S_I64 a).
Proof. cbn. by rewrite !iadd_wraps, Z.add_comm. Qed.

Lemma unit_values a :
  in_i64 a = true ->
  binop_value false Bin_Mul (S_I64 a) (S_I64 1) = Some (S_I64 a)
  /\ binop_value false Bin_Div (S_I64 a) (S_I64 1) = Some (S_I64 a)
  /\ binop_value false Bin_Mod (S_I64 a) (S_I64 1) = Some (S_I64 0)
  /\ binop_value false Bin_Add (S_I64 a) (S_I64 0) = Some (S_I64 a)
  /\ binop_value false Bin_Sub (S_I64 a) (S_I64 0) = Some (S_I64 a)
  /\ binop_value false Bin_Mul (S_I64 a) (S_I64 0) = Some (S_I64 0).
Proof.
  intros Ha. cbn. rewrite !imul_wraps, iadd_wraps, isub_wraps, sdiv_truncates, srem_truncates by lia.
  by rewrite Z.mul_1_r, Z.quot_1_r, Z.rem_1_r, Z.add_0_r, Z.sub_0_r, Z.mul_0_r, wrap64_id.
Qed.
End Values.

Section Reduce.
Context {C : ClifOps} {L : ClifLaws C} {M : MirLang} {SL : ScalarLang M C}.
Context (callf : string -> list val -> world -> res (val * world)).
Context (Hrelease : checked_arithmetic = false).
Implicit Types (ρ : env) (w : world).

(** [x] is an [I64] operand with the register [a]. *)
Definition holds ρ (x : Operand) (a : Z) : Prop :=
  in_i64 a = true /\
  match x with
  | Op_Local y => ρ y = of_scalar (S_I64 a)
  | Op_Constant c => c = C_Int a
  end.

Lemma holds_val ρ x a : holds ρ x a -> operand_val ρ x = of_scalar (S_I64 a).
Proof. intros [_ Hx]. destruct x as [y|c]; [done|]. subst c. apply (const_is_scalar (C_Int a)). Qed.

Lemma holds_int_const ρ x a k : is_int_const x k = true -> holds ρ x a -> a = k.
Proof. intros ->%is_int_const_spec [_ Hx]. by simplify_eq. Qed.

Lemma holds_pow2 ρ x a n :
  power_of_two_const x = Some n -> holds ρ x a -> (n <= 62)%N /\ a = 2 ^ Z.of_N n.
Proof.
  intros Hp [Ha Hx]. apply power_of_two_const_spec in Hp as [Hn ->].
  - cbn in Hx. split; [lia|congruence].
  - intros v ->. cbn in Hx. by simplify_eq.
Qed.

Lemma eval_i64_binop ρ w op l r a b s :
  holds ρ l a -> holds ρ r b -> binop_value false op (S_I64 a) (S_I64 b) = Some s ->
  eval_rvalue callf ρ w (RV_BinOp op l r) = Done (of_scalar s, w).
Proof.
  intros Hl%holds_val Hr%holds_val Hv. cbn [eval_rvalue].
  rewrite (prim_binop ρ w op l r (S_I64 a) (S_I64 b) s); [done..|]. by rewrite Hrelease.
Qed.

(** What it means for [rv] to leave [s]; the goals below are about it. *)
Definition computes ρ w (rv : RValue) (s : scalar) : Prop :=
  eval_rvalue callf ρ w rv = Done (of_scalar s, w).

Lemma computes_zero ρ w : computes ρ w (RV_ConstInt 0) (S_I64 0).
Proof. unfold computes. cbn. by rewrite (prim_const (RV_ConstInt 0) (S_I64 0)). Qed.

Lemma computes_use ρ w x a : holds ρ x a -> computes ρ w (RV_Use x) (S_I64 a).
Proof. intros Hx%holds_val. unfold computes. cbn [eval_rvalue]. rewrite use_copies. by rewrite Hx. Qed.

Lemma computes_shl ρ w x a n :
  (n <= 62)%N -> holds ρ x a ->
  computes ρ w (shl_by x n) (S_I64 (wrap64 (a * 2 ^ Z.of_N n))).
Proof.
  intros Hn Hx. eapply eval_i64_binop; [done| |].
  - split; [|reflexivity]. apply in_i64_spec. unfold i64_min, i64_max. lia.
  - rewrite mul_pow_shl by done. cbn -[Z.pow]. by rewrite imul_wraps.
Qed.

(** The reduced form computes what the operation would have. *)
Lemma try_reduce_computes ρ w op l r a b rv :
  holds ρ l a -> holds ρ r b -> try_reduce_binop op l r = Some rv ->
  exists s, binop_value false op (S_I64 a) (S_I64 b) = Some s /\ computes ρ w rv s.
Proof.
  intros Hl Hr. pose proof (unit_values a (proj1 Hl)) as (Hm1 & Hd & Hm & Ha0 & Hs0 & Hm0).
  pose proof (unit_values b (proj1 Hr)) as (Hm1' & _ & _ & Ha0' & _ & Hm0').
  destruct op; cbn [try_reduce_binop]; try done.
  - destruct (is_int_const r 0) eqn:Hr0.
    { intros [= <-]. rewrite (holds_int_const _ _ _ _ Hr0 Hr). eauto using computes_use. }
    destruct (is_int_const l 0) eqn:Hl0; [|done].
    intros [= <-]. rewrite (holds_int_const _ _ _ _ Hl0 Hl), add_comm_value.
    eauto using computes_use.
  - destruct (is_int_const r 0) eqn:Hr0; [|done].
    intros [= <-]. rewrite (holds_int_const _ _ _ _ Hr0 Hr). eauto using computes_use.
  - destruct (is_int_const r 0) eqn:Hr0.
    { intros [= <-]. rewrite (holds_int_const _ _ _ _ Hr0 Hr). eauto using computes_zero. }
    destruct (is_int_const l 0) eqn:Hl0.
    { intros [= <-]. rewrite (holds_int_const _ _ _ _ Hl0 Hl), mul_comm_value.
      eauto using computes_zero. }
    destruct (is_int_const r 1) eqn:Hr1.
    { intros [= <-]. rewrite (holds_int_const _ _ _ _ Hr1 Hr). eauto using computes_use. }
    destruct (is_int_const l 1) eqn:Hl1.
    { intros [= <-]. rewrite (holds_int_const _ _ _ _ Hl1 Hl), mul_comm_value.
      eauto using computes_use. }
    destruct (power_of_two_const r) as [n|] eqn:Hpr.
    { intros [= <-]. destruct (holds_pow2 _ _ _ _ Hpr Hr) as [Hn ->].
      eexists. split; [|by apply computes_shl]. cbn -[Z.pow]. by rewrite imul_wraps. }
    destruct (power_of_two_const l) as [n|] eqn:Hpl; [|done].
    intros [= <-]. destruct (holds_pow2 _ _ _ _ Hpl Hl) as [Hn ->].
    rewrite mul_comm_value.
    eexists. split; [|by apply computes_shl]. cbn -[Z.pow]. by rewrite imul_wraps.
  - destruct (is_int_const r 1) eqn:Hr1; [|done].
    intros [= <-]. rewrite (holds_int_const _ _ _ _ Hr1 Hr). eauto using computes_use.
  - destruct (is_int_const r 1) eqn:Hr1; [|done].
    intros [= <-]. rewrite (holds_int_const _ _ _ _ Hr1 Hr). eauto using computes_zero.
Qed.
End Reduce.

(** C39: on 64-bit integer operands in release mode (wrapping arithmetic) an
    r-value and its strength-reduced form leave the same register. *)
Theorem try_reduce_correct {C : ClifOps} {L : ClifLaws C} {M : MirLang} {SL : ScalarLang M C}
    callf (ρ : env) (w : world) op l r a b :
  checked_arithmetic = false -> holds (C := C) ρ l a -> holds (C := C) ρ r b ->
  eval_rvalue callf ρ w (reduced (RV_BinOp op l r)) = eval_rvalue callf ρ w (RV_BinOp op l r).
Proof.
  intros Hrel Hl Hr. unfold reduced. cbn [try_reduce].
  destruct (try_reduce_binop op l r) as [rv|] eqn:Hred; [|done]. cbn [default].
  destruct (try_reduce_computes callf Hrel ρ w op l r a b rv Hl Hr Hred) as (s & Hs & Hrv).
  rewrite Hrv. symmetry. by apply (eval_i64_binop callf Hrel ρ w op l r a b).
Qed.

Lemma try_reduce_correct_witness :
  eval_rvalue (H := clif_lang) (fun _ _ _ => Panic) (fun _ => S_I64 (-7)) []
    (reduced (RV_BinOp Bin_Mul (loc 0%N) (int 8)))
  = Done (S_I64 (-56), []).
Proof.
  rewrite (try_reduce_correct (C := clif_i64) (M := clif_lang) (SL := scalar_lang_ok clif_i64 false)
    (fun _ _ _ => Panic) (fun _ => S_I64 (-7)) [] Bin_Mul (loc 0%N) (int 8) (-7) 8);
    [vm_compute; reflexivity|reflexivity|by split..].
Defined.
