(* ===== verification/Dce.v ===== *)
(** Dead code elimination ([kryos-mir/src/optimize/dce.rs]): blocks that the
    entry does not reach, and assignments nothing reads. *)

From S2P Require Import Prelude MirIr MirUses MirSem Passes Liveness Backend ScalarLang.

(* ------------------------------------------------------------------ *)
(** ** Pass 1: unreachable blocks                                      *)
(* ------------------------------------------------------------------ *)

(** [id_to_index]: collecting into a [HashMap] keeps the last index of an id. *)
Fixpoint index_blocks (bs : list BasicBlock) (i : nat) (m : gmap N nat) : gmap N nat :=
  match bs with
  | [] => m
  | b :: rest => index_blocks rest (S i) (<[bb_id b := i]> m)
  end.

Definition id_to_index (f : MirFunction) : gmap N nat := index_blocks (f_blocks f) 0 ∅.

(** [for succ in block.successors() { if reachable.insert(..) { queue.push_back(..) } }] *)
Fixpoint visit (succs : list BlockId) (reachable : gset N) (queue : list BlockId)
  : gset N * list BlockId :=
  match succs with
  | [] => (reachable, queue)
  | s :: rest =>
      if decide (s ∈ reachable) then visit rest reachable queue
      else visit rest ({[s]} ∪ reachable) (queue ++ [s])
  end.

(** The successors of the block with an id, none if the id is not declared. *)
Definition id_successors (f : MirFunction) (id : BlockId) : list BlockId :=
  match id_to_index f !! id ≫= fun vec_idx => f_blocks f !! vec_idx with
  | Some b => successors b
  | None => []
  end.

Fixpoint bfs (fuel : nat) (f : MirFunction) (reachable : gset N) (queue : list BlockId)
  : res (gset N) :=
  match queue with
  | [] => Done reachable
  | block_id :: queue =>
      match fuel with
      | O => OutOfFuel
      | S n =>
          let '(reachable, queue) := visit (id_successors f block_id) reachable queue in
          bfs n f reachable queue
      end
  end.

(** Every round pops one of the ids ever queued: 0 and the successors. *)
Definition bfs_fuel (f : MirFunction) : nat :=
  S (length (flat_map successors (f_blocks f))).

Definition reachable_ids (f : MirFunction) : res (gset N) := bfs (bfs_fuel f) f {[0%N]} [0%N].

(** [old_to_new], filled in block order. *)
Fixpoint number_blocks (reachable : gset N) (bs : list BasicBlock) (new_idx : N)
    (m : gmap N N) : gmap N N :=
  match bs with
  | [] => m
  | b :: rest =>
      if decide (bb_id b ∈ reachable)
      then number_blocks reachable rest (new_idx + 1)%N (<[bb_id b := new_idx]> m)
      else number_blocks reachable rest new_idx m
  end.

Definition remap_id (m : gmap N N) (b : BlockId) : BlockId := default b (m !! b).

Definition remap_terminator (m : gmap N N) (term : Terminator) : Terminator :=
  match term with
  | T_Return op => T_Return op
  | T_Unreachable => T_Unreachable
  | T_Goto b => T_Goto (remap_id m b)
  | T_Branch cond then_block else_block =>
      T_Branch cond (remap_id m then_block) (remap_id m else_block)
  | T_Switch value targets default =>
      T_Switch value (map (fun '(v, b) => (v, remap_id m b)) targets) (remap_id m default)
  end.

(** The indexing [old_to_new[&block.id.0]] panics on a missing key. *)
Definition renumber_block (m : gmap N N) (b : BasicBlock) : res BasicBlock :=
  match m !! bb_id b with
  | Some new_id =>
      Done (mkBlock new_id (bb_instructions b) (remap_terminator m (bb_terminator b)))
  | None => Panic
  end.

Definition in_set (s : gset N) (x : N) : bool := bool_decide (x ∈ s).

Definition remove_unreachable_blocks (f : MirFunction) : res MirFunction :=
  match f_blocks f with
  | [] => Done f
  | _ =>
      reachable ← reachable_ids f;
      if Nat.eqb (size reachable) (length (f_blocks f)) then Done f
      else
        let old_to_new := number_blocks reachable (f_blocks f) 0 ∅ in
        bs ← mapM (renumber_block old_to_new)
               (List.filter (fun b => in_set reachable (bb_id b)) (f_blocks f));
        Done (set_blocks f bs)
  end.

(* ------------------------------------------------------------------ *)
(** ** Pass 2: dead assignments                                        *)
(* ------------------------------------------------------------------ *)

Definition collect_locals_in_operand (op : Operand) (used : gset N) : gset N :=
  match op with Op_Local id => {[id]} ∪ used | Op_Constant _ => used end.

(** [for o in ops { collect_locals_in_operand(o, used) }] *)
Definition collect_operands (ops : list Operand) (used : gset N) : gset N :=
  foldl (fun used op => collect_locals_in_operand op used) used ops.

Fixpoint collect_locals_in_rvalue (rv : RValue) (used : gset N) : gset N :=
  match rv with
  | RV_Use op => collect_locals_in_operand op used
  | RV_BinOp _ lhs rhs =>
      collect_locals_in_operand rhs (collect_locals_in_operand lhs used)
  | RV_UnOp _ operand => collect_locals_in_operand operand used
  | RV_Call _ args => collect_operands args used
  | RV_CallIndirect callee args =>
      collect_operands args (collect_locals_in_operand callee used)
  | RV_Array elems | RV_Tuple elems => collect_operands elems used
  | RV_Struct _ fields => collect_operands (map snd fields) used
  | RV_Field object _ => collect_locals_in_operand object used
  | RV_Index object index =>
      collect_locals_in_operand index (collect_locals_in_operand object used)
  | RV_ArcAlloc inner => collect_locals_in_operand inner used
  | RV_Cast operand _ => collect_locals_in_operand operand used
  | RV_EnumVariant _ _ fields => collect_operands fields used
  | RV_EnumTag operand => collect_locals_in_operand operand used
  | RV_EnumPayload operand _ _ _ => collect_locals_in_operand operand used
  | RV_Closure _ captures => collect_operands captures used
  | RV_Map pairs =>
      foldl (fun used '(k, v) =>
        collect_locals_in_operand v (collect_locals_in_operand k used)) used pairs
  | RV_StringConcat parts => collect_operands parts used
  | RV_Range start end_ _ =>
      let used := match start with Some s => collect_locals_in_operand s used | None => used end in
      match end_ with Some e => collect_locals_in_operand e used | None => used end
  | RV_AddrOf local _ => {[local]} ∪ used
  | RV_Deref operand => collect_locals_in_operand operand used
  | RV_Comptime inner => collect_locals_in_rvalue inner used
  | RV_MakeTraitObject value _ _ _ => collect_locals_in_operand value used
  | RV_VtableCall object _ args _ =>
      collect_operands args (collect_locals_in_operand object used)
  | RV_ConstInt _ | RV_ConstFloat _ | RV_ConstBool _ | RV_ConstString _ | RV_ConstNone => used
  end.

Definition collect_locals_in_instruction (inst : Instruction) (used : gset N) : gset N :=
  match inst with
  | I_Assign _ value => collect_locals_in_rvalue value used
  | I_ArcRetain ptr | I_ArcRelease ptr => {[ptr]} ∪ used
  | I_Drop local => {[local]} ∪ used
  | I_DropIfNe old new _ _ _ => collect_locals_in_operand new ({[old]} ∪ used)
  | I_Spawn _ args => collect_operands args used
  | I_Send channel value => {[value]} ∪ ({[channel]} ∪ used)
  | I_Receive _ channel => {[channel]} ∪ used
  | I_ActorSpawn _ _ state => collect_locals_in_operand state used
  | I_ActorSend actor _ args => collect_operands args ({[actor]} ∪ used)
  | I_ActorStateLoad _ state_ptr _ => {[state_ptr]} ∪ used
  | I_ActorStateStore state_ptr _ value =>
      collect_locals_in_operand value ({[state_ptr]} ∪ used)
  | I_StoreField object _ value =>
      collect_locals_in_operand value (collect_locals_in_operand object used)
  | I_StoreDeref ptr value =>
      collect_locals_in_operand value (collect_locals_in_operand ptr used)
  | I_Nop | I_DebugLine _ => used
  end.

Definition collect_locals_in_terminator (term : Terminator) (used : gset N) : gset N :=
  match term with
  | T_Return (Some op) => collect_locals_in_operand op used
  | T_Branch cond _ _ => collect_locals_in_operand cond used
  | T_Switch value _ _ => collect_locals_in_operand value used
  | T_Return None | T_Goto _ | T_Unreachable => used
  end.

Definition collect_block (used : gset N) (b : BasicBlock) : gset N :=
  collect_locals_in_terminator (bb_terminator b)
    (foldl (fun used inst => collect_locals_in_instruction inst used) used (bb_instructions b)).

Definition collect_used_locals (f : MirFunction) : gset N :=
  foldl collect_block ∅ (f_blocks f).

Definition has_side_effects (rv : RValue) : bool :=
  match rv with
  | RV_Call _ _ | RV_CallIndirect _ _ | RV_VtableCall _ _ _ _ | RV_ArcAlloc _ => true
  | _ => false
  end.

(** The closure given to [retain]. *)
Definition keep_instruction (used : gset N) (inst : Instruction) : bool :=
  match inst with
  | I_Assign dest value => negb (negb (in_set used dest) && negb (has_side_effects value))
  | _ => true
  end.

Definition remove_dead_assignments (f : MirFunction) : MirFunction :=
  let used := collect_used_locals f in
  set_blocks f
    (map (fun b => set_instructions b (List.filter (keep_instruction used) (bb_instructions b)))
       (f_blocks f)).

Definition eliminate_dead_code (m : MirModule) : res MirModule :=
  fs ← mapM (fun f => f ← remove_unreachable_blocks f; Done (remove_dead_assignments f))
         (m_functions m);
  Done (set_functions m fs).

(* ------------------------------------------------------------------ *)
(** ** The traversal computes reachability                             *)
(* ------------------------------------------------------------------ *)

Section Bfs.
Context (f : MirFunction).
Implicit Types (R : gset N) (Q : list BlockId).

Definition succ_of (a b : BlockId) : Prop := b ∈ id_successors f a.
Definition reaches : relation BlockId := rtc succ_of.

Lemma visit_spec succs R Q :
  exists new, visit succs R Q = (list_to_set succs ∪ R, Q ++ new)
    /\ (forall x, x ∈ new <-> x ∈ succs /\ x ∉ R)
    /\ size (list_to_set succs ∪ R) = (size R + length new)%nat.
Proof.
  revert R Q. induction succs as [|s succs IH]; intros R Q; cbn.
  - exists []. rewrite app_nil_r. repeat split; [f_equal; set_solver|set_solver..|].
    rewrite Nat.add_0_r. f_equal. set_solver.
  - destruct (decide (s ∈ R)) as [Hs|Hs].
    + destruct (IH R Q) as (new & Hv & Hnew & Hsz). exists new. rewrite Hv.
      replace ({[s]} ∪ list_to_set succs ∪ R) with (list_to_set succs ∪ R) by set_solver.
      repeat split; [set_solver..|done].
    + destruct (IH ({[s]} ∪ R) (Q ++ [s])) as (new & Hv & Hnew & Hsz).
      exists (s :: new). rewrite Hv, <-app_assoc.
      replace ({[s]} ∪ list_to_set succs ∪ R) with (list_to_set succs ∪ ({[s]} ∪ R)) by set_solver.
      split; [done|]. split.
      * intros x. rewrite elem_of_cons, Hnew. destruct (decide (x = s)); set_solver.
      * rewrite Hsz, size_union, size_singleton by set_solver. cbn. lia.
Qed.

(** What a round maintains: everything seen is reachable, and what has left
    the queue has its successors seen. *)
Definition bfs_inv R Q : Prop :=
  0%N ∈ R /\ (forall x, x ∈ Q -> x ∈ R) /\ (forall x, x ∈ R -> reaches 0%N x)
  /\ (forall x y, x ∈ R -> x ∉ Q -> succ_of x y -> y ∈ R).

Lemma bfs_inv_round R Q x new :
  bfs_inv R (x :: Q) ->
  (forall y, y ∈ new <-> y ∈ id_successors f x /\ y ∉ R) ->
  bfs_inv (list_to_set (id_successors f x) ∪ R) (Q ++ new).
Proof.
  intros (H0 & HQ & HR & HS) Hnew. split; [set_solver|]. split; [|split].
  - intros y. rewrite elem_of_app, elem_of_union, elem_of_list_to_set. rewrite Hnew.
    intros [Hy|Hy]; [right; apply HQ; by right|left; apply Hy].
  - intros y. rewrite elem_of_union, elem_of_list_to_set. intros [Hy|Hy]; [|auto].
    eapply rtc_r; [apply HR, HQ; by left|done].
  - intros y z. rewrite !elem_of_union, elem_of_app, !elem_of_list_to_set, Hnew.
    intros Hy Hnq Hz. destruct (decide (y = x)) as [->|Hne]; [by left|right].
    destruct (decide (y ∈ R)) as [HyR|HyR]; [|tauto].
    apply (HS y z); [done| |done]. rewrite elem_of_cons. tauto.
Qed.

Lemma bfs_inv_done R : bfs_inv R [] -> forall x, x ∈ R <-> reaches 0%N x.
Proof.
  intros (H0 & _ & HR & HS) x. split; [apply HR|]. revert x.
  apply (rtc_ind_r (fun x => x ∈ R) 0%N H0). intros x y _ Hxy Hx.
  apply (HS x y); [done|set_solver|done].
Qed.

Lemma bfs_sound n R Q R' :
  bfs_inv R Q -> bfs n f R Q = Done R' -> forall x, x ∈ R' <-> reaches 0%N x.
Proof.
  revert R Q. induction n as [|n IH]; intros R Q Hinv Hb;
    (destruct Q as [|x Q]; [injection Hb as <-; by apply bfs_inv_done|]); [done|]. cbn in Hb.
  destruct (visit_spec (id_successors f x) R Q) as (new & Hv & Hnew & _). rewrite Hv in Hb.
  eapply IH; [|done]. by apply bfs_inv_round.
Qed.

(** The ids that can ever be queued. *)
Definition universe : gset N := {[0%N]} ∪ list_to_set (flat_map successors (f_blocks f)).

Lemma id_successors_in x y : y ∈ id_successors f x -> y ∈ universe.
Proof.
  unfold id_successors, universe. destruct (id_to_index f !! x ≫= _) as [b|] eqn:Hb; [|set_solver].
  intros Hy. apply elem_of_union_r, elem_of_list_to_set, list_elem_of_In, in_flat_map.
  exists b. split; [|by apply list_elem_of_In].
  destruct (id_to_index f !! x) as [i|]; [|done]. cbn in Hb.
  by eapply list_elem_of_In, list_elem_of_lookup_2.
Qed.

Lemma bfs_total n R Q :
  R ⊆ universe -> (size universe - size R + length Q <= n)%nat ->
  exists R', bfs n f R Q = Done R'.
Proof.
  revert R Q. induction n as [|n IH]; intros R Q HR Hn; (destruct Q as [|x Q]; cbn; [eauto|]).
  - cbn in Hn. lia.
  - destruct (visit_spec (id_successors f x) R Q) as (new & Hv & _ & Hsz). rewrite Hv.
    assert (HU : list_to_set (id_successors f x) ∪ R ⊆ universe).
    { intros y. rewrite elem_of_union, elem_of_list_to_set.
      intros [Hy|Hy]; [by eapply id_successors_in|auto]. }
    apply IH; [done|]. pose proof (subseteq_size _ _ HU). rewrite length_app.
    cbn [length] in Hn. lia.
Qed.

Lemma reachable_ids_spec :
  exists R, reachable_ids f = Done R /\ forall x, x ∈ R <-> reaches 0%N x.
Proof.
  destruct (bfs_total (bfs_fuel f) {[0%N]} [0%N]) as [R HR].
  - unfold universe. set_solver.
  - unfold universe, bfs_fuel. rewrite size_singleton. cbn [length].
    pose proof (size_union_le {[0%N]} (list_to_set (flat_map successors (f_blocks f)))) as Hu.
    pose proof (size_list_to_set_le (flat_map successors (f_blocks f))).
    rewrite size_singleton in Hu. lia.
  - exists R. split; [done|]. apply (bfs_sound (bfs_fuel f) {[0%N]} [0%N]); [|done].
    repeat split; [set_solver..| |set_solver].
    intros x ->%elem_of_singleton. apply rtc_refl.
Qed.
End Bfs.

(* ------------------------------------------------------------------ *)
(** ** Renumbering                                                     *)
(* ------------------------------------------------------------------ *)

(** The control-flow graphs lowering produces: distinct ids, entry 0 first,
    every target declared. *)
Definition declared (f : MirFunction) (id : BlockId) : Prop := id ∈ map bb_id (f_blocks f).

#[export] Instance declared_dec f id : Decision (declared f id).
Proof. unfold declared. apply _. Defined.

Definition wf_cfg (f : MirFunction) : bool :=
  bool_decide (NoDup (map bb_id (f_blocks f)))
  && bool_decide (entry_id f = Some 0%N)
  && forallb (fun b => forallb (fun s => bool_decide (declared f s)) (successors b)) (f_blocks f).

Lemma wf_cfg_spec f :
  wf_cfg f = true ->
  NoDup (map bb_id (f_blocks f)) /\ entry_id f = Some 0%N /\
  forall b s, In b (f_blocks f) -> s ∈ successors b -> declared f s.
Proof.
  unfold wf_cfg. rewrite !andb_true_iff, !bool_decide_eq_true. intros [[Hnd He] Hc].
  split; [done|]. split; [done|]. intros b s Hb Hs%list_elem_of_In.
  rewrite forallb_forall in Hc. specialize (Hc b Hb). rewrite forallb_forall in Hc.
  by eapply bool_decide_eq_true_1, Hc.
Qed.

Lemma index_blocks_not_in bs i m id :
  id ∉ map bb_id bs -> index_blocks bs i m !! id = m !! id.
Proof.
  revert i m. induction bs as [|b bs IH]; intros i m Hid; cbn in *; [done|].
  apply not_elem_of_cons in Hid as [Hne Hid]. rewrite IH by done. by rewrite lookup_insert_ne.
Qed.

Lemma index_blocks_lookup bs i m j b :
  NoDup (map bb_id bs) -> bs !! j = Some b ->
  index_blocks bs i m !! bb_id b = Some (i + j)%nat.
Proof.
  revert i m j. induction bs as [|c bs IH]; intros i m j Hnd Hj; [done|].
  cbn in Hnd. apply NoDup_cons in Hnd as [Hc Hnd]. destruct j as [|j]; cbn in Hj |- *.
  - injection Hj as ->. rewrite index_blocks_not_in, lookup_insert_eq by done. f_equal. lia.
  - rewrite (IH _ _ j) by done. f_equal. lia.
Qed.

Lemma id_successors_block f b :
  NoDup (map bb_id (f_blocks f)) -> In b (f_blocks f) -> id_successors f (bb_id b) = successors b.
Proof.
  intros Hnd Hb. apply list_elem_of_In, list_elem_of_lookup in Hb as [j Hj].
  unfold id_successors, id_to_index.
  rewrite (index_blocks_lookup _ _ _ j b) by done. cbn. by rewrite Hj.
Qed.

Definition live_blocks (R : gset N) (bs : list BasicBlock) : list BasicBlock :=
  List.filter (fun b => in_set R (bb_id b)) bs.

Lemma in_live_blocks R bs b : In b (live_blocks R bs) <-> In b bs /\ bb_id b ∈ R.
Proof. unfold live_blocks, in_set. by rewrite filter_In, bool_decide_eq_true. Qed.

Lemma number_blocks_not_in R bs k m id :
  id ∉ map bb_id bs -> number_blocks R bs k m !! id = m !! id.
Proof.
  revert k m. induction bs as [|b bs IH]; intros k m Hid; cbn in *; [done|].
  apply not_elem_of_cons in Hid as [Hne Hid]. destruct (decide (bb_id b ∈ R)); rewrite IH by done; [|done].
  by rewrite lookup_insert_ne.
Qed.

Lemma number_blocks_lookup R bs k m j b :
  NoDup (map bb_id bs) -> live_blocks R bs !! j = Some b ->
  number_blocks R bs k m !! bb_id b = Some (k + N.of_nat j)%N.
Proof.
  revert k m j. induction bs as [|c bs IH]; intros k m j Hnd Hj; [done|].
  cbn in Hnd. apply NoDup_cons in Hnd as [Hc Hnd]. cbn [number_blocks].
  unfold live_blocks, in_set in Hj. cbn in Hj. fold (live_blocks R bs) in Hj.
  destruct (decide (bb_id c ∈ R)) as [Hin|Hin].
  - rewrite bool_decide_eq_true_2 in Hj by done. destruct j as [|j]; cbn in Hj.
    + injection Hj as ->. rewrite number_blocks_not_in, lookup_insert_eq by done. f_equal. lia.
    + rewrite (IH _ _ j) by done. f_equal. lia.
  - rewrite bool_decide_eq_false_2 in Hj by done. by apply IH.
Qed.

(** Looking a key up after an injective change of keys. *)
Lemma find_map_key {A B} (k : A -> N) (k' : B -> N) (g : A -> B) (σ : N -> N) l id :
  (forall a, In a l -> k' (g a) = σ (k a)) ->
  (forall a, In a l -> σ (k a) = σ id -> k a = id) ->
  find (fun b => N.eqb (k' b) (σ id)) (map g l) = option_map g (find (fun a => N.eqb (k a) id) l).
Proof.
  induction l as [|a l IH]; intros Hk Hinj; cbn; [done|].
  rewrite Hk by (by left). destruct (N.eqb_spec (σ (k a)) (σ id)) as [He|Hne].
  - rewrite (proj2 (N.eqb_eq (k a) id)); [done|]. apply Hinj; [by left|done].
  - destruct (N.eqb_spec (k a) id) as [He|_]; [congruence|].
    apply IH; intros; [apply Hk|apply Hinj]; auto using in_cons.
Qed.

Lemma find_live_blocks R bs id :
  id ∈ R ->
  find (fun b => N.eqb (bb_id b) id) (live_blocks R bs) = find (fun b => N.eqb (bb_id b) id) bs.
Proof.
  intros Hid. unfold live_blocks, in_set.
  induction bs as [|b bs IH]; cbn; [done|]. destruct (N.eqb_spec (bb_id b) id) as [He|Hne].
  - rewrite He, bool_decide_eq_true_2 by done. cbn. by rewrite He, N.eqb_refl.
  - destruct (bool_decide _); [|done]. cbn. by apply N.eqb_neq in Hne as ->.
Qed.

Section Renumber.
Context (f : MirFunction) (R : gset N).
Context (Hwf : wf_cfg f = true) (HR : forall x, x ∈ R <-> reaches f 0%N x).

Let m := number_blocks R (f_blocks f) 0 ∅.
Let σ := remap_id m.

Definition renumbered_block (b : BasicBlock) : BasicBlock :=
  mkBlock (σ (bb_id b)) (bb_instructions b) (remap_terminator m (bb_terminator b)).
Definition renumbered : MirFunction :=
  set_blocks f (map renumbered_block (live_blocks R (f_blocks f))).

Lemma remap_live j b : live_blocks R (f_blocks f) !! j = Some b -> m !! bb_id b = Some (N.of_nat j).
Proof. intros Hj. apply wf_cfg_spec in Hwf as (Hnd & _). by apply (number_blocks_lookup _ _ 0). Qed.

Lemma renumber_blocks_Done :
  mapM (renumber_block m) (live_blocks R (f_blocks f)) = Done (f_blocks renumbered).
Proof.
  apply mapM_Done. intros b [j Hj]%list_elem_of_lookup.
  unfold renumber_block, renumbered_block, σ, remap_id. by rewrite (remap_live j).
Qed.

Lemma remap_inj b1 b2 :
  In b1 (live_blocks R (f_blocks f)) -> In b2 (live_blocks R (f_blocks f)) ->
  σ (bb_id b1) = σ (bb_id b2) -> b1 = b2.
Proof.
  intros [j1 H1]%list_elem_of_In%list_elem_of_lookup [j2 H2]%list_elem_of_In%list_elem_of_lookup.
  unfold σ, remap_id. rewrite (remap_live j1), (remap_live j2) by done. cbn.
  intros ->%Nat2N.inj. congruence.
Qed.

Lemma live_declared id :
  id ∈ R -> declared f id -> exists b, In b (live_blocks R (f_blocks f)) /\ bb_id b = id.
Proof.
  intros Hid (b & -> & Hb%list_elem_of_In)%list_elem_of_fmap. exists b.
  by rewrite in_live_blocks.
Qed.

Lemma find_block_renumbered id :
  id ∈ R -> declared f id ->
  find_block renumbered (σ id) = option_map renumbered_block (find_block f id).
Proof.
  intros Hid Hd. unfold find_block, renumbered. cbn.
  rewrite <-(find_live_blocks R (f_blocks f) id) by done.
  apply (find_map_key bb_id bb_id renumbered_block σ); [done|].
  destruct (live_declared id Hid Hd) as (c & Hc & <-). intros b Hb Heq.
  by rewrite (remap_inj b c).
Qed.

Lemma reached_successor b s :
  In b (f_blocks f) -> bb_id b ∈ R -> In s (successors b) -> s ∈ R /\ declared f s.
Proof.
  intros Hb Hr%HR Hs%list_elem_of_In. pose proof (wf_cfg_spec f Hwf) as (Hnd & _ & Hcl).
  split; [|by eapply Hcl]. apply HR. eapply rtc_r; [done|].
  unfold succ_of. by rewrite id_successors_block.
Qed.

Lemma exec_term_remap `{MirLang} t (ρ : env) :
  exec_term (remap_terminator m t) ρ =
    fmap (fun nx => match nx with Jump b => Jump (σ b) | r => r end) (exec_term t ρ).
Proof.
  destruct t as [o|b|c b1 b2|v targets default|]; cbn; try done.
  - by destruct (branch_on _).
  - do 2 f_equal. generalize (switch_on (operand_val ρ v)) as k. intros k.
    induction targets as [|[c b] targets IH]; cbn; [done|]. by destruct (Z.eqb k c).
Qed.

Lemma frun_renumbered `{MirLang} c n id (ρ : env) w :
  id ∈ R -> declared f id -> frun c n renumbered (σ id) ρ w = frun c n f id ρ w.
Proof.
  revert id ρ w. induction n as [|n IH]; intros id ρ w Hid Hd; [done|].
  cbn [frun]. rewrite find_block_renumbered by done.
  destruct (find_block f id) as [b|] eqn:Hb; cbn; [|done]. apply find_block_In in Hb as [Hb <-].
  destruct (exec_insts _ _ ρ w) as [[ρ' w']| |]; cbn; try done. rewrite exec_term_remap.
  destruct (exec_term _ ρ') as [[v|id']| |] eqn:Ht; cbn; try done.
  apply exec_term_jump in Ht. by apply IH; eapply reached_successor.
Qed.

Lemma entry_live : 0%N ∈ R /\ declared f 0%N.
Proof.
  pose proof (wf_cfg_spec f Hwf) as (_ & (b & bs & Hbs & Hb)%entry_head & _).
  split; [apply HR, rtc_refl|]. unfold declared. rewrite Hbs, <-Hb. by left.
Qed.

Lemma entry_renumbered : entry_id renumbered = Some (σ 0%N).
Proof.
  pose proof (wf_cfg_spec f Hwf) as (_ & (b & bs & Hbs & Hb)%entry_head & _).
  unfold entry_id, renumbered. cbn. rewrite Hbs. unfold live_blocks, in_set. cbn.
  rewrite Hb, bool_decide_eq_true_2 by apply entry_live. cbn. by rewrite Hb.
Qed.

Lemma fcall_renumbered `{MirLang} c n args w : fcall c n renumbered args w = fcall c n f args w.
Proof.
  pose proof (wf_cfg_spec f Hwf) as (_ & He & _). destruct entry_live as [H0 Hd].
  unfold fcall. rewrite entry_renumbered, He. cbn. by rewrite frun_renumbered.
Qed.

Lemma dense_renumbered : dense renumbered.
Proof.
  intros j b Hj. cbn in Hj. apply list_lookup_fmap_Some in Hj as (b0 & -> & Hj).
  cbn. unfold σ, remap_id. by rewrite (remap_live j).
Qed.

Lemma term_successors_remap t :
  term_successors (remap_terminator m t) = map σ (term_successors t).
Proof.
  destruct t as [| | |v targets default|]; cbn; try done.
  rewrite map_app, !map_map. f_equal. apply map_ext. by intros [? ?].
Qed.

Lemma reaches_renumbered id : id ∈ R -> declared f id /\ reaches renumbered (σ 0%N) (σ id).
Proof.
  intros Hid%HR. revert id Hid.
  apply (rtc_ind_r (fun x => declared f x /\ reaches renumbered (σ 0%N) (σ x))).
  { split; [apply entry_live|apply rtc_refl]. }
  intros x y Hx Hxy [Hd IH]. apply HR in Hx.
  destruct (live_declared x Hx Hd) as (b & Hlive & <-).
  pose proof (proj1 (in_live_blocks _ _ _) Hlive) as [Hb _].
  pose proof (wf_cfg_spec f Hwf) as (Hnd & _ & Hcl).
  unfold succ_of in Hxy. rewrite id_successors_block in Hxy by done.
  split; [by eapply Hcl|]. eapply rtc_r; [apply IH|]. unfold succ_of.
  change (σ (bb_id b)) with (bb_id (renumbered_block b)). rewrite id_successors_block.
  - unfold successors. cbn. rewrite term_successors_remap. by apply list_elem_of_fmap_2.
  - apply dense_NoDup, dense_renumbered.
  - cbn. by apply in_map.
Qed.

Lemma renumbered_all_reached b : In b (f_blocks renumbered) -> reaches renumbered 0%N (bb_id b).
Proof.
  intros Hb. cbn in Hb. apply in_map_iff in Hb as (b0 & <- & Hb0).
  apply in_live_blocks in Hb0 as [_ Hb0]. destruct (reaches_renumbered (bb_id b0) Hb0) as [_ Hr].
  assert (σ 0%N = 0%N) as H0; [|by rewrite H0 in Hr].
  pose proof entry_renumbered as He. unfold entry_id in He.
  destruct (f_blocks renumbered) as [|b1 bs] eqn:Hbs; [done|].
  injection He as <-. apply (dense_renumbered 0). by rewrite Hbs.
Qed.
End Renumber.

(** If as many ids are reached as there are blocks, every block is reached. *)
Lemma all_reached f (R : gset N) b :
  wf_cfg f = true -> (forall x, x ∈ R <-> reaches f 0%N x) ->
  size R = length (f_blocks f) -> In b (f_blocks f) -> reaches f 0%N (bb_id b).
Proof.
  intros Hwf HR Hsz Hb. pose proof (wf_cfg_spec f Hwf) as (Hnd & _).
  set (D := list_to_set (map bb_id (f_blocks f)) : gset N).
  assert (HRD : R ⊆ D).
  { intros x Hx. apply elem_of_list_to_set.
    by destruct (reaches_renumbered f R Hwf HR x Hx). }
  assert (HD : size D = length (f_blocks f)).
  { unfold D. rewrite size_list_to_set by done. apply length_map. }
  apply HR. assert (R ≡ D) as -> by (apply set_subseteq_size_equiv; [done|lia]).
  apply elem_of_list_to_set, list_elem_of_In. by apply in_map.
Qed.

(** The two outcomes of the pass. *)
Lemma remove_unreachable_cases f :
  wf_cfg f = true ->
  exists R, (forall x, x ∈ R <-> reaches f 0%N x) /\
    (size R = length (f_blocks f) /\ remove_unreachable_blocks f = Done f
     \/ remove_unreachable_blocks f = Done (renumbered f R)).
Proof.
  intros Hwf. destruct (reachable_ids_spec f) as (R & HRd & HR). exists R. split; [done|].
  pose proof (wf_cfg_spec f Hwf) as (_ & (b0 & bs & Hbs & _)%entry_head & _).
  assert (remove_unreachable_blocks f =
    if Nat.eqb (size R) (length (f_blocks f)) then Done f
    else bs ← mapM (renumber_block (number_blocks R (f_blocks f) 0 ∅)) (live_blocks R (f_blocks f));
         Done (set_blocks f bs)) as ->.
  { unfold remove_unreachable_blocks. rewrite HRd. by rewrite Hbs. }
  destruct (Nat.eqb_spec (size R) (length (f_blocks f))); [by left|right].
  by rewrite (renumber_blocks_Done f R Hwf).
Qed.

(** On a well-formed control-flow graph the removal of unreachable blocks
    succeeds, every block it leaves is reachable from the entry, ids are the
    blocks' positions whenever a block was removed, and no call of the function
    changes, whatever calls mean. *)
Lemma remove_unreachable_blocks_correct `{MirLang} f :
  wf_cfg f = true ->
  exists f', remove_unreachable_blocks f = Done f'
    /\ (forall b, In b (f_blocks f') -> reaches f' 0%N (bb_id b))
    /\ (f' = f \/ dense f')
    /\ (forall c n args w, fcall c n f' args w = fcall c n f args w).
Proof.
  intros Hwf. destruct (remove_unreachable_cases f Hwf) as (R & HR & [[Hsz Hrem]|Hrem]).
  - exists f. repeat split; [done| |by left]. intros b Hb. by eapply all_reached.
  - exists (renumbered f R). split; [done|]. split; [by intros; apply renumbered_all_reached|].
    split; [right; by apply dense_renumbered|]. intros. by apply fcall_renumbered.
Qed.

(* ------------------------------------------------------------------ *)
(** ** The collected reads                                             *)
(* ------------------------------------------------------------------ *)

(** [collected g uses]: [g] adds the locals [uses] to its accumulator. *)
Definition collected (g : gset N -> gset N) (uses : list LocalId) : Prop :=
  forall used, g used = list_to_set uses ∪ used.

Lemma collected_operand op : collected (collect_locals_in_operand op) (operand_uses op).
Proof. intros used. destruct op; cbn; set_solver. Qed.

Lemma collected_opt o :
  collected (fun used => match o with Some s => collect_locals_in_operand s used | None => used end)
    (opt_operand_uses o).
Proof. intros used. destruct o; cbn; [apply collected_operand|set_solver]. Qed.

Lemma collected_fold {A} (g : A -> gset N -> gset N) (u : A -> list LocalId) l :
  (forall a, collected (g a) (u a)) ->
  collected (fun used => foldl (fun used a => g a used) used l) (flat_map u l).
Proof.
  intros Hg. induction l as [|a l IH]; intros used; cbn; [set_solver|].
  rewrite IH, Hg, list_to_set_app_L. set_solver.
Qed.

Lemma collected_operands ops : collected (collect_operands ops) (operands_uses ops).
Proof. apply (collected_fold collect_locals_in_operand), collected_operand. Qed.

Lemma collected_comp g1 g2 u1 u2 :
  collected g1 u1 -> collected g2 u2 -> collected (fun used => g2 (g1 used)) (u1 ++ u2).
Proof. intros H1 H2 used. rewrite H2, H1, list_to_set_app_L. set_solver. Qed.

Lemma collected_one x : collected (fun used => {[x]} ∪ used) [x].
Proof. intros used. set_solver. Qed.

Lemma collected_cons x g u :
  collected g u -> collected (fun used => g ({[x]} ∪ used)) (x :: u).
Proof. apply (collected_comp _ g [x]), collected_one. Qed.

Lemma collected_id : collected (fun used => used) [].
Proof. intros used. set_solver. Qed.

#[export] Hint Resolve collected_operand collected_operands collected_opt collected_comp
  collected_one collected_cons collected_id : kryos.

Lemma collected_rvalue rv : collected (collect_locals_in_rvalue rv) (rvalue_uses rv).
Proof.
  induction rv; cbn; auto with kryos.
  - intros used. rewrite (collected_operands (map snd fields)). do 2 f_equal.
    apply flat_map_map_comm. by intros [? ?].
  - intros used. etrans; [|apply (collected_fold (fun p used =>
        collect_locals_in_operand (snd p) (collect_locals_in_operand (fst p) used))
        (fun '(k, v) => operand_uses k ++ operand_uses v))].
    + revert used. induction pairs as [|[k v] pairs IH]; intros used; cbn; [done|apply IH].
    + intros [k v]. cbn. auto with kryos.
  - exact (collected_comp _ _ _ _ (collected_opt start) (collected_opt end_)).
Qed.

Lemma collected_instruction i : collected (collect_locals_in_instruction i) (inst_uses i).
Proof.
  destruct i; unfold inst_uses, collect_locals_in_instruction; cbn; auto using collected_rvalue with kryos.
Qed.

Lemma collected_terminator t : collected (collect_locals_in_terminator t) (term_uses t).
Proof.
  destruct t as [[op|]| | | |]; unfold collect_locals_in_terminator; cbn; auto with kryos.
Qed.

Lemma collected_block b :
  collected (fun used => collect_block used b)
    (flat_map inst_uses (bb_instructions b) ++ term_uses (bb_terminator b)).
Proof.
  apply (collected_comp
    (fun used => foldl (fun used inst => collect_locals_in_instruction inst used) used _)).
  - apply (collected_fold collect_locals_in_instruction), collected_instruction.
  - apply collected_terminator.
Qed.

Lemma collected_blocks bs :
  collected (fun used => foldl collect_block used bs)
    (flat_map (fun b => flat_map inst_uses (bb_instructions b) ++ term_uses (bb_terminator b)) bs).
Proof. apply (collected_fold (fun b used => collect_block used b)), collected_block. Qed.

(** the reads the pass collects are the reads of the liveness analysis:
    the two hand-written traversals of the IR agree. *)
Lemma collect_used_locals_fun_uses f : collect_used_locals f = fun_uses f.
Proof. unfold collect_used_locals. by rewrite collected_blocks, union_empty_r_L. Qed.

(* ------------------------------------------------------------------ *)
(** ** Dead assignments                                                *)
(* ------------------------------------------------------------------ *)

(** The r-values the pass may drop, [Comptime] looked through: nothing else
    than their value is observed. *)
Fixpoint droppable (rv : RValue) : bool :=
  match rv with RV_Comptime inner => droppable inner | _ => negb (has_side_effects rv) end.

(** No [Comptime] hides an effect; [run_comptime_pass] leaves none at all. *)
Definition no_hidden_effect (f : MirFunction) : bool :=
  forallb (fun rv => has_side_effects rv || droppable rv) (fun_rvalues f).

(** The interface: computing a droppable r-value leaves the observable world as it is. *)
Class QuietRvalues (M : MirLang) := {
  quiet_rvalue rv vs w v w' :
    has_side_effects rv = false -> prim_rvalue rv vs w = Some (v, w') -> w' = w
}.

#[export] Instance scalar_lang_quiet C chk : QuietRvalues (scalar_lang C chk).
Proof.
  split. intros rv vs w v w' _ Hp. cbn in Hp. apply bind_Some in Hp as (s & _ & [= _ <-]). done.
Qed.

(** *** Filtering instructions *)

(** A pass that drops instructions which write only locals the function does
    not read, and change nothing else. *)
Section Filter.
Context {M : MirLang} (f : MirFunction) (keep : Instruction -> bool) (c : nat -> callf).
Implicit Types (ρ : env) (w : world).

Definition quiet_drop (used : gset N) (i : Instruction) : Prop :=
  keep i = false -> forall k ρ w ρ' w',
    exec_inst (c k) i ρ w = Done (ρ', w') -> agree_set used ρ' ρ /\ w' = w.

Let used := fun_uses f.
Context (Hquiet : forall b i, In b (f_blocks f) -> In i (bb_instructions b) -> quiet_drop used i).

Definition filter_block (b : BasicBlock) : BasicBlock :=
  set_instructions b (List.filter keep (bb_instructions b)).
Definition filter_function : MirFunction := set_blocks f (map filter_block (f_blocks f)).

Lemma used_spec b x :
  In b (f_blocks f) ->
  In x (flat_map inst_uses (bb_instructions b) ++ term_uses (bb_terminator b)) -> x ∈ used.
Proof.
  intros Hb Hx. apply elem_of_list_to_set, list_elem_of_In, in_flat_map. eauto.
Qed.

Lemma exec_insts_filter k insts ρ1 ρ2 w ρ1' w' :
  (forall x, In x (flat_map inst_uses insts) -> x ∈ used) ->
  (forall i, In i insts -> quiet_drop used i) ->
  agree_set used ρ1 ρ2 ->
  exec_insts (c k) insts ρ1 w = Done (ρ1', w') ->
  exists ρ2', exec_insts (c k) (List.filter keep insts) ρ2 w = Done (ρ2', w')
    /\ agree_set used ρ1' ρ2'.
Proof.
  revert ρ1 ρ2 w. induction insts as [|i insts IH]; intros ρ1 ρ2 w Hu Hq Ha Hex.
  { injection Hex as <- <-. by exists ρ2. }
  cbn [exec_insts] in Hex. apply res_bind_Done in Hex as ([ρ1m w1] & Hex1 & Hex2).
  assert (Hrest : forall x, In x (flat_map inst_uses insts) -> x ∈ used)
    by (intros x Hx; apply Hu; cbn; apply in_app_iff; by right).
  cbn [List.filter]. destruct (keep i) eqn:Hkeep.
  - assert (Hrel : res_rel (fun p q => agree_set used (fst p) (fst q) /\ snd p = snd q)
      (exec_inst (c k) i ρ1 w) (exec_inst (c k) i ρ2 w)).
    { apply exec_inst_agree_on; [done|]. intros x Hx. apply Hu. cbn. apply in_app_iff. by left. }
    rewrite Hex1 in Hrel. cbn [exec_insts].
    destruct (exec_inst (c k) i ρ2 w) as [[ρ2m w2]| |]; try done. destruct Hrel as [Ham Hw].
    cbn in Ham, Hw. subst w2. apply (IH ρ1m); auto. intros; apply Hq; by right.
  - destruct (Hq i (or_introl eq_refl) Hkeep k ρ1 w ρ1m w1 Hex1) as [Hag ->].
    apply (IH ρ1m); auto; [intros; apply Hq; by right|].
    intros x Hx. rewrite (Hag x Hx). by apply Ha.
Qed.

Lemma frun_filter n id ρ1 ρ2 w r :
  agree_set used ρ1 ρ2 -> frun c n f id ρ1 w = Done r -> frun c n filter_function id ρ2 w = Done r.
Proof.
  revert id ρ1 ρ2 w. induction n as [|n IH]; intros id ρ1 ρ2 w Ha Hr; [done|].
  cbn [frun] in *. apply res_bind_Done in Hr as (b & Hb & Hr).
  assert (Hb' : find_block filter_function id = option_map filter_block (find_block f id))
    by (by apply (find_map_key bb_id bb_id filter_block (fun x => x))).
  rewrite Hb'. destruct (find_block f id) as [b0|] eqn:Hf; [|done]. injection Hb as ->.
  apply find_block_In in Hf as [Hin _].
  apply res_bind_Done in Hr as ([ρ1' w'] & Hex & Hr).
  apply (exec_insts_filter n _ ρ1 ρ2) in Hex as (ρ2' & Hex' & Ha'); [| |intros i Hi; by apply (Hquiet b)|done].
  - cbn. rewrite Hex'. cbn. rewrite <-(exec_term_agree_on _ (bb_terminator b) _ _ Ha').
    + destruct (exec_term _ ρ1') as [[v|id']| |]; try done. by apply (IH id' ρ1').
    + intros x Hx. apply (used_spec b); [done|]. apply in_app_iff. by right.
  - intros x Hx. apply (used_spec b); [done|]. apply in_app_iff. by left.
Qed.

Lemma fcall_filter n args w : done_le (fcall c n f args w) (fcall c n filter_function args w).
Proof.
  unfold fcall. replace (entry_id filter_function) with (entry_id f)
    by (unfold entry_id; cbn; by destruct (f_blocks f)).
  apply res_order_bind; [reflexivity|]. intros id0.
  apply res_order_bind; [|intros []; reflexivity].
  intros r. by apply frun_filter.
Qed.
End Filter.

Section DeadFunction.
Context {M : MirLang} {QM : QuietRvalues M} (f : MirFunction).
Context (Hok : no_hidden_effect f = true).
Implicit Types (ρ : env) (w : world).

Lemma droppable_quiet (c : callf) ρ w rv v w' :
  droppable rv = true -> eval_rvalue c ρ w rv = Done (v, w') -> w' = w.
Proof.
  assert (Hprim : forall rv, has_side_effects (shape_rvalue rv) = false ->
    of_option (prim_rvalue (shape_rvalue rv) (map ρ (rvalue_uses rv)) w) = Done (v, w') -> w' = w).
  { intros rv' Hs. destruct (prim_rvalue _ _ _) as [[v0 w0]|] eqn:Hp; [|done].
    intros [= <- <-]. by eapply quiet_rvalue. }
  induction rv; intros Hd; cbn [eval_rvalue]; auto; try done; by apply Hprim.
Qed.

Lemma fcall_dead c n args w :
  done_le (fcall c n f args w) (fcall c n (remove_dead_assignments f) args w).
Proof.
  assert (remove_dead_assignments f = filter_function f (keep_instruction (fun_uses f))) as ->.
  { unfold remove_dead_assignments, collect_used_locals.
    by rewrite collected_blocks, union_empty_r_L. }
  apply fcall_filter. intros b i Hb Hi Hkeep k ρ w0 ρ' w' Hex.
  destruct i; try done. cbn in Hkeep, Hex. apply negb_false_iff, andb_true_iff in Hkeep as [Hd Hs].
  apply negb_true_iff in Hd, Hs. unfold in_set in Hd. apply bool_decide_eq_false_1 in Hd.
  assert (Hdrop : droppable value = true).
  { unfold no_hidden_effect in Hok. rewrite forallb_forall in Hok.
    specialize (Hok value). rewrite Hs in Hok. apply Hok, in_flat_map. exists b.
    split; [done|]. apply in_flat_map. exists (I_Assign dest value). split; [done|by left]. }
  apply res_bind_Done in Hex as ([v w1] & Hv & [= <- <-]).
  apply droppable_quiet in Hv; [|done]. split; [|done]. by apply agree_upd_dead.
Qed.
End DeadFunction.

Lemma no_hidden_effect_renumbered f R :
  no_hidden_effect f = true -> no_hidden_effect (renumbered f R) = true.
Proof.
  unfold no_hidden_effect. rewrite !forallb_forall. intros Hok rv (b & Hb & Hrv)%in_flat_map.
  cbn in Hb. apply in_map_iff in Hb as (b0 & <- & [Hb0 _]%in_live_blocks).
  apply Hok, in_flat_map. eauto.
Qed.

Definition dce_function (f : MirFunction) : res MirFunction :=
  f ← remove_unreachable_blocks f; Done (remove_dead_assignments f).

Lemma dce_function_refined {M : MirLang} {QM : QuietRvalues M} f c :
  wf_cfg f = true -> no_hidden_effect f = true ->
  exists f', dce_function f = Done f' /\ fun_refined (@done_le) c f f'.
Proof.
  intros Hwf Hok. unfold dce_function.
  destruct (remove_unreachable_cases f Hwf) as (R & HR & [[_ ->]| ->]); cbn;
    eexists; (split; [reflexivity|]); (split; [done|]); intros n args w.
  - by apply fcall_dead.
  - rewrite <-(fcall_renumbered f R Hwf HR). by apply fcall_dead, no_hidden_effect_renumbered.
Qed.

(** C2: on well-formed functions dead code elimination succeeds and preserves
    every call that returns: same result, same world, same fuel. *)
Theorem eliminate_dead_code_correct {M : MirLang} {QM : QuietRvalues M} m :
  forallb wf_cfg (m_functions m) = true ->
  forallb no_hidden_effect (m_functions m) = true ->
  exists m', eliminate_dead_code m = Done m' /\
    forall n name args (w : world) r,
      call n (m_functions m) name args w = Done r ->
      call n (m_functions m') name args w = Done r.
Proof.
  rewrite !forallb_forall. intros Hwf Hok. set (fs := m_functions m).
  assert (Hfs : exists fs', mapM dce_function fs = Done fs'
                  /\ Forall2 (fun_refined (@done_le) (calls fs)) fs fs').
  { generalize (calls fs) as c. intros c.
    assert (Hall : forall f, In f fs -> exists f', dce_function f = Done f' /\ fun_refined (@done_le) c f f')
      by (intros f Hf; apply dce_function_refined; auto).
    clearbody fs. clear Hwf Hok. induction fs as [|f fs IH]; cbn; [by exists []|].
    destruct (Hall f) as (f' & -> & Hf'); [by left|].
    destruct IH as (fs' & -> & Hfs'); [intros; apply Hall; by right|].
    exists (f' :: fs'). split; [done|by constructor]. }
  destruct Hfs as (fs' & Hm & HF). exists (set_functions m fs').
  unfold eliminate_dead_code. fold fs dce_function. rewrite Hm. split; [done|].
  intros n name args w r. by apply (call_pass (@done_le)).
Qed.

(** A function with an unreachable block, a gap in its ids and a dead assignment. *)
Definition gappy : MirFunction :=
  i64_function (plain_attrs false false) "main" 0 2
    [mkBlock 0%N [I_Assign 0%N (RV_BinOp Bin_Add (int 1) (int 1))] (T_Goto 3%N);
     mkBlock 2%N [] (T_Goto 3%N);
     mkBlock 3%N [I_Assign 1%N (RV_ConstInt 7)] (T_Return (Some (loc 1%N)))].

Lemma remove_unreachable_blocks_correct_witness :
  exists f', remove_unreachable_blocks gappy = Done f'
    /\ (forall b, In b (f_blocks f') -> reaches f' 0%N (bb_id b))
    /\ (f' = gappy \/ dense f')
    /\ (forall c n args w,
          fcall (H := clif_lang) c n f' args w = fcall (H := clif_lang) c n gappy args w).
Proof. apply (remove_unreachable_blocks_correct gappy). vm_compute. reflexivity. Defined.

Lemma eliminate_dead_code_correct_witness :
  exists m', eliminate_dead_code (module_of [gappy]) = Done m' /\
    forall n name args w r,
      call (H := clif_lang) n [gappy] name args w = Done r ->
      call (H := clif_lang) n (m_functions m') name args w = Done r.
Proof.
  apply (eliminate_dead_code_correct (M := clif_lang) (module_of [gappy])); vm_compute; reflexivity.
Defined.

(** [fn main() { let _0 = 1 / 0; return 5 }] *)
Definition dead_division : MirModule :=
  module_of [i64_function (plain_attrs false false) "main" 0 1
    [mkBlock 0%N [I_Assign 0%N (RV_BinOp Bin_Div (int 1) (int 0))] (T_Return (Some (int 5)))]].

(** A dead division is removed although it traps: the program that panics
    in a debug build returns normally after the pass. *)
Lemma dce_drops_trap :
  call (H := clif_lang) 1 (m_functions dead_division) "main" [] [] = Panic
  /\ (m ← eliminate_dead_code dead_division;
      call (H := clif_lang) 1 (m_functions m) "main" [] []) = Done (S_I64 5, []).
Proof. split; vm_compute; reflexivity. Qed.
