(* ===== verification/Tco.v ===== *)
(** Tail call optimisation ([kryos-mir/src/optimize/tco.rs]): a self-call in
    tail position becomes parameter assignments and a jump to the entry. *)

From S2P Require Import Prelude MirIr MirUses MirSem Passes Liveness Backend ScalarLang.

(* ------------------------------------------------------------------ *)
(** ** The pass                                                        *)
(* ------------------------------------------------------------------ *)

Definition is_tail_self_call (b : BasicBlock) (self_name : string) : bool :=
  match bb_terminator b with
  | T_Return (Some (Op_Local ret_local)) =>
      match last (bb_instructions b) with
      | Some (I_Assign dest (RV_Call func _)) =>
          String.eqb func self_name && N.eqb dest ret_local
      | _ => false
      end
  | _ => false
  end.

(** [if let Some(local) = locals.iter_mut().find(|l| l.id == *pl) { local.mutable = true }] *)
Fixpoint mark_mutable (pl : LocalId) (locals : list MirLocal) : list MirLocal :=
  match locals with
  | [] => []
  | l :: rest =>
      if N.eqb (l_id l) pl then mkLocal (l_id l) (l_name l) (l_ty l) true :: rest
      else l :: mark_mutable pl rest
  end.

(** [locals.iter().map(|l| l.id.0).max().map(|m| m + 1).unwrap_or(0)] *)
Definition next_free_id (locals : list MirLocal) : N :=
  match locals with
  | [] => 0
  | _ => foldr N.max 0 (map l_id locals) + 1
  end%N.

Definition local_ty (locals : list MirLocal) (pl : LocalId) : MirType :=
  match find (fun l => N.eqb (l_id l) pl) locals with Some l => l_ty l | None => Ty_I64 end.

(** One fresh snapshot temporary per parameter. *)
Fixpoint alloc_temps (ps : list LocalId) (locals : list MirLocal) (next_id : N)
  : list LocalId * list MirLocal * N :=
  match ps with
  | [] => ([], locals, next_id)
  | pl :: rest =>
      let '(temps, locals, next_id') :=
        alloc_temps rest (locals ++ [mkLocal next_id None (local_ty locals pl) false])
          (next_id + 1)%N in
      (next_id :: temps, locals, next_id')
  end.

(** The block with its call replaced: snapshots, parameter writes, back edge. *)
Definition loop_block (ps temps : list LocalId) (call_args : list Operand) (b : BasicBlock)
  : BasicBlock :=
  mkBlock (bb_id b)
    (removelast (bb_instructions b)
     ++ zip_with assign_use temps call_args
     ++ zip_with assign_use ps (map Op_Local temps))
    (T_Goto 0%N).

(** The arguments of the call the loop body rewrites, if it rewrites the block. *)
Definition tail_call_args (self_name : string) (ps : list LocalId) (b : BasicBlock)
  : option (list Operand) :=
  if is_tail_self_call b self_name then
    match last (bb_instructions b) with
    | Some (I_Assign _ (RV_Call _ call_args)) =>
        if Nat.eqb (length call_args) (length ps) then Some call_args else None
    | _ => None
    end
  else None.

Fixpoint tco_blocks (self_name : string) (ps : list LocalId) (bs : list BasicBlock)
    (locals : list MirLocal) (next_id : N) : list BasicBlock * list MirLocal :=
  match bs with
  | [] => ([], locals)
  | b :: rest =>
      match tail_call_args self_name ps b with
      | None =>
          let '(rest', locals) := tco_blocks self_name ps rest locals next_id in
          (b :: rest', locals)
      | Some call_args =>
          let '(temps, locals, next_id) := alloc_temps ps locals next_id in
          let '(rest', locals) := tco_blocks self_name ps rest locals next_id in
          (loop_block ps temps call_args b :: rest', locals)
      end
  end.

Definition optimize_function (f : MirFunction) : MirFunction :=
  let self_name := f_name f in
  let param_locals := param_ids f in
  if existsb (fun b => is_tail_self_call b self_name) (f_blocks f) then
    let locals := foldl (fun ls pl => mark_mutable pl ls) (f_locals f) param_locals in
    let '(bs, locals) := tco_blocks self_name param_locals (f_blocks f) locals (next_free_id locals) in
    set_locals (set_blocks f bs) locals
  else f.

Definition optimize_tail_calls (m : MirModule) : MirModule :=
  set_functions m (map optimize_function (m_functions m)).

(* ------------------------------------------------------------------ *)
(** ** Fresh temporaries                                               *)
(* ------------------------------------------------------------------ *)

Lemma mark_mutable_ids pl ls : map l_id (mark_mutable pl ls) = map l_id ls.
Proof. induction ls as [|l ls IH]; cbn; [done|]. destruct (N.eqb _ _); cbn; congruence. Qed.

Lemma mark_all_ids ps ls : map l_id (foldl (fun ls pl => mark_mutable pl ls) ls ps) = map l_id ls.
Proof. revert ls. induction ps as [|p ps IH]; intros ls; cbn; [done|]. by rewrite IH, mark_mutable_ids. Qed.

Lemma next_free_id_fresh ls x : In x (map l_id ls) -> (x < next_free_id ls)%N.
Proof.
  unfold next_free_id. destruct ls as [|l ls]; [done|].
  generalize (map l_id (l :: ls)) as ids. clear l ls.
  induction ids as [|y ids IH]; cbn; [done|]. intros [->|Hx]; [lia|]. specialize (IH Hx). lia.
Qed.

Lemma alloc_temps_spec ps ls k temps ls' k' :
  alloc_temps ps ls k = (temps, ls', k') ->
  length temps = length ps /\ NoDup temps /\ (k <= k')%N
  /\ forall t, t ∈ temps -> (k <= t < k')%N.
Proof.
  revert ls k temps ls' k'. induction ps as [|p ps IH]; intros ls k temps ls' k' Ha; cbn in Ha.
  - injection Ha as <- <- <-. repeat split; [constructor|lia|set_solver..].
  - destruct (alloc_temps ps _ _) as [[ts ls1] k1] eqn:He. injection Ha as <- <- <-.
    apply IH in He as (Hl & Hnd & Hk & Hts). cbn. split; [congruence|].
    split; [|split; [lia|]].
    + constructor; [|done]. intros Hin. apply Hts in Hin. lia.
    + intros t [->|Ht]%elem_of_cons; [lia|]. apply Hts in Ht. lia.
Qed.

(** The shape of the rewritten blocks: the block itself, or its loop form with
    temporaries above every declared local. *)
Definition tco_block_of (self_name : string) (ps : list LocalId) (k : N) (b b' : BasicBlock) : Prop :=
  (tail_call_args self_name ps b = None /\ b' = b)
  \/ exists temps call_args,
       tail_call_args self_name ps b = Some call_args /\ length temps = length ps
       /\ NoDup temps /\ (forall t, t ∈ temps -> (k <= t)%N)
       /\ b' = loop_block ps temps call_args b.

Lemma tco_blocks_spec self ps k0 bs ls k :
  (k0 <= k)%N -> Forall2 (tco_block_of self ps k0) bs (fst (tco_blocks self ps bs ls k)).
Proof.
  revert ls k. induction bs as [|b bs IH]; intros ls k Hk; cbn; [constructor|].
  destruct (tail_call_args self ps b) as [args|] eqn:Hargs.
  - destruct (alloc_temps ps ls k) as [[temps ls1] k1] eqn:Ha.
    apply alloc_temps_spec in Ha as (Hl & Hnd & Hk1 & Hts).
    specialize (IH ls1 k1 ltac:(lia)). destruct (tco_blocks self ps bs ls1 k1) as [bs' ls'].
    constructor; [|done]. right. exists temps, args. repeat split; auto.
    intros t Ht. apply Hts in Ht. lia.
  - specialize (IH ls k Hk). destruct (tco_blocks self ps bs ls k) as [bs' ls'].
    constructor; [|done]. by left.
Qed.

Lemma tail_call_args_spec self ps b args :
  tail_call_args self ps b = Some args ->
  exists dest init, bb_instructions b = init ++ [I_Assign dest (RV_Call self args)]
    /\ bb_terminator b = T_Return (Some (Op_Local dest)) /\ length args = length ps.
Proof.
  unfold tail_call_args, is_tail_self_call.
  destruct (bb_terminator b) as [[[ret|]|]| | | |]; try done.
  destruct (last (bb_instructions b)) as [i|] eqn:Hl; [|done].
  destruct i as [dest rv| | | | | | | | | | | | | | |]; try done. destruct rv; try done.
  destruct (String.eqb_spec func self) as [->|]; [|done].
  destruct (N.eqb_spec dest ret) as [->|]; [|done]. cbn.
  destruct (Nat.eqb_spec (length args0) (length ps)); [|done]. intros [= ->].
  apply last_Some in Hl as [init Hi]. eauto.
Qed.

(* ------------------------------------------------------------------ *)
(** ** The loop computes what the recursion did                        *)
(* ------------------------------------------------------------------ *)

Lemma operands_uses_locals xs : operands_uses (map Op_Local xs) = xs.
Proof. unfold operands_uses. induction xs as [|x xs IH]; cbn; congruence. Qed.

Section LoopBlock.
Context {M : MirLang} {CU : CopyUse M}.

(** The inserted assignments bind the parameters to the arguments' values, as
    a call would, whatever the parameters the arguments read. *)
Lemma exec_param_writes (c : callf) ps temps args (ρ : env) w :
  length temps = length ps -> length args = length ps -> NoDup temps ->
  (forall t, t ∈ temps -> t ∉ operands_uses args) -> (forall t, t ∈ temps -> t ∉ ps) ->
  exec_insts c (zip_with assign_use temps args ++ zip_with assign_use ps (map Op_Local temps)) ρ w
  = Done (bind_params ps (map (operand_val ρ) args)
            (bind_params temps (map (operand_val ρ) args) ρ), w).
Proof.
  intros Ht Ha Hnd Hargs Hps. rewrite exec_insts_app, exec_copies by (done || congruence). cbn.
  set (vs := map (operand_val ρ) args). set (ρt := bind_params temps vs ρ).
  rewrite exec_copies.
  - assert (map (operand_val ρt) (map Op_Local temps) = vs) as ->; [|done].
    rewrite map_map. apply bind_params_values; [done|]. unfold vs. rewrite length_map. congruence.
  - by rewrite length_map.
  - intros p Hp. rewrite operands_uses_locals. intros Hin. by eapply Hps.
Qed.
End LoopBlock.

Section Loop.
Context {M : MirLang} {CU : CopyUse M} (f f' : MirFunction) (c : nat -> callf).
Context (T : gmap N (gset N)) (k : N).
Context (Hblocks : Forall2 (tco_block_of (f_name f) (param_ids f) k) (f_blocks f) (f_blocks f')).
Context (HT : post_solution f T) (Hentry : entry_id f = Some 0%N).
Context (Hlive : live_at T 0%N ⊆ list_to_set (param_ids f)).
Context (Hbound : forall x b, In b (f_blocks f) -> x ∈ block_locals b \/ x ∈ param_ids f -> (x < k)%N).
Context (Hself : forall n args w, c n (f_name f) args w = fcall c n f args w).
Implicit Types (ρ : env) (w : world).

(** What the caller sees of a result: [None] and the value [none_val] alike. *)
Definition same_result (p q : option val * world) : Prop :=
  default none_val (fst p) = default none_val (fst q) /\ snd p = snd q.

Lemma tco_block_id b b' : tco_block_of (f_name f) (param_ids f) k b b' -> bb_id b' = bb_id b.
Proof. by intros [[_ ->]|(? & ? & _ & _ & _ & _ & ->)]. Qed.

Lemma frun_loop_block n b temps args dest init ρ1 ρ2 w :
  In b (f_blocks f) ->
  bb_instructions b = init ++ [I_Assign dest (RV_Call (f_name f) args)] ->
  bb_terminator b = T_Return (Some (Op_Local dest)) ->
  length args = length (param_ids f) -> length temps = length (param_ids f) ->
  NoDup temps -> (forall t, t ∈ temps -> (k <= t)%N) ->
  agree_set (block_in T b) ρ1 ρ2 ->
  (forall ρ1 ρ2 w, agree_set (live_at T 0%N) ρ1 ρ2 ->
    res_rel same_result (frun c n f 0%N ρ1 w) (frun c n f' 0%N ρ2 w)) ->
  res_rel same_result
    ('(ρ', w') ← exec_insts (c n) (bb_instructions b) ρ1 w;
     Done (Some (ρ' dest), w'))
    ('(ρ', w') ← exec_insts (c n) (bb_instructions (loop_block (param_ids f) temps args b)) ρ2 w;
     frun c n f' 0%N ρ' w').
Proof.
  intros Hb Hi Ht Hla Hlt Hnd Hfresh Ha IH. cbn [bb_instructions loop_block].
  unfold block_in in Ha. rewrite Hi in Ha. rewrite Hi, removelast_last, !(exec_insts_app _ init).
  rewrite transfer_block_app in Ha. unfold transfer_block at 2 in Ha. cbn [fold_right] in Ha.
  pose proof (exec_insts_agree (c n) init _ ρ1 ρ2 w Ha) as Hinit.
  destruct (exec_insts (c n) init ρ1 w) as [[ρ1' w1]| |],
    (exec_insts (c n) init ρ2 w) as [[ρ2' w2]| |]; try contradiction; [|done..].
  destruct Hinit as [Ha' Hw]. cbn [fst snd] in Ha', Hw. subst w2. cbn.
  assert (Hargs : forall x, x ∈ operands_uses args -> x ∈ block_locals b).
  { intros x Hx. unfold block_locals. apply elem_of_app. left. rewrite Hi, flat_map_app.
    apply elem_of_app. right. cbn. rewrite app_nil_r. apply elem_of_cons. by right. }
  rewrite exec_param_writes; try done.
  - cbn. rewrite Hself. unfold fcall. rewrite Hentry. cbn.
    assert (Hv : map (operand_val ρ1') args = map (operand_val ρ2') args).
    { apply (operands_val_agree _ _ _ _ Ha'). intros x Hx.
      apply elem_of_transfer_instruction. by left. }
    rewrite Hv. set (vs := map (operand_val ρ2') args).
    assert (Hrun : res_rel same_result
      (frun c n f 0%N (bind_params (param_ids f) vs empty_env) w1)
      (frun c n f' 0%N (bind_params (param_ids f) vs (bind_params temps vs ρ2')) w1)).
    { apply IH. eapply agree_mono; [|apply bind_params_agree; unfold vs; by rewrite length_map].
      intros x Hx%Hlive. by apply elem_of_list_to_set in Hx. }
    destruct (frun c n f 0%N _ w1) as [[r wr]| |], (frun c n f' 0%N _ w1) as [[r' wr']| |];
      cbn in *; try done.
    unfold same_result in *. cbn in *. by rewrite upd_eq.
  - intros t Htt Hin. apply Hargs in Hin. pose proof (Hbound t b Hb (or_introl Hin)).
    apply Hfresh in Htt. lia.
  - intros t Htt Hin. pose proof (Hbound t b Hb (or_intror Hin)). apply Hfresh in Htt. lia.
Qed.

Lemma frun_tco n id ρ1 ρ2 w :
  agree_set (live_at T id) ρ1 ρ2 ->
  res_rel same_result (frun c n f id ρ1 w) (frun c n f' id ρ2 w).
Proof.
  revert id ρ1 ρ2 w. induction n as [|n IH]; intros id ρ1 ρ2 w Ha; [done|].
  cbn [frun]. pose proof (find_block_Forall2 _ f f' id tco_block_id Hblocks) as Hfb.
  destruct (find_block f id) as [b|] eqn:Hb, (find_block f' id) as [b'|]; try done.
  apply find_block_In in Hb as [Hb <-]. cbn [of_option mbind res_bind].
  assert (Hin : agree_set (block_in T b) ρ1 ρ2)
    by (eapply agree_set_mono; [by apply (live_at_block f)|done]).
  destruct Hfb as [[_ ->]|(temps & args & Hargs & Hlt & Hnd & Hfresh & ->)].
  - eapply res_rel_bind; [by apply (exec_insts_agree _ _ (block_out T b))|].
    intros [ρ1' w1] [ρ2' w2] [Ha' Hw]. cbn [fst snd] in Ha', Hw. subst w2.
    unfold block_out in Ha'. rewrite (exec_term_agree _ _ _ _ Ha').
    destruct (exec_term (bb_terminator b) ρ2') as [[v|id']| |] eqn:Ht; try done.
    cbn. apply IH. eapply agree_set_mono; [|exact Ha'].
    by apply live_at_succ, exec_term_jump with ρ2'.
  - apply tail_call_args_spec in Hargs as (dest & init & Hi & Ht & Hla).
    pose proof (frun_loop_block n b temps args dest init ρ1 ρ2 w
                  Hb Hi Ht Hla Hlt Hnd Hfresh Hin (IH 0%N)) as HL.
    rewrite Ht. cbn [loop_block bb_terminator].
    destruct (exec_insts (c n) (bb_instructions b) ρ1 w) as [[ρ1' w1]| |],
      (exec_insts (c n) (bb_instructions (loop_block _ _ _ _)) ρ2 w) as [[ρ2' w2]| |];
      exact HL.
Qed.

Lemma fcall_tco n args w :
  param_ids f' = param_ids f -> fcall c n f args w = fcall c n f' args w.
Proof.
  intros Hp. unfold fcall. rewrite Hp.
  rewrite (entry_id_Forall2 _ f f' tco_block_id Hblocks).
  rewrite Hentry. cbn.
  pose proof (frun_tco n 0%N (bind_params (param_ids f) args empty_env) _ w (fun x _ => eq_refl)) as Hr.
  destruct (frun c n f 0%N _ w) as [[r wr]| |], (frun c n f' 0%N _ w) as [[r' wr']| |]; try done.
  destruct Hr as [Hr Hw]. cbn in *. congruence.
Qed.
End Loop.

(* ------------------------------------------------------------------ *)
(** ** The pass on a module                                            *)
(* ------------------------------------------------------------------ *)

(** Every local the function mentions is declared. *)
Definition locals_declared (f : MirFunction) : bool :=
  forallb (fun x => bool_decide (x ∈ map l_id (f_locals f)))
    (param_ids f ++ flat_map block_locals (f_blocks f)).

(** Nothing but the parameters is read before it is written. *)
Definition inputs_are_params (f : MirFunction) : bool :=
  match analyze (analyze_fuel f) f with
  | Done l => bool_decide (live_at (live_in l) 0%N ⊆ list_to_set (param_ids f))
  | _ => false
  end.

(** No local has its address taken.  The frames of the recursive calls become one frame, in
    which a local has one slot: a function that hands the address of a local to its own tail
    call is not within the theorem (see [tco_shares_slots]). *)
Fixpoint takes_address (rv : RValue) : bool :=
  match rv with RV_AddrOf _ _ => true | RV_Comptime inner => takes_address inner | _ => false end.
Definition no_address (f : MirFunction) : bool :=
  forallb (fun b =>
    forallb (fun i => match i with I_Assign _ rv => negb (takes_address rv) | _ => true end) (bb_instructions b))
    (f_blocks f).

Definition tco_ok (f : MirFunction) : bool :=
  dense_b f && bool_decide (entry_id f = Some 0%N) && locals_declared f && inputs_are_params f && no_address f.

Lemma optimize_function_refined {M : MirLang} {CU : CopyUse M} fs f :
  names_unique fs = true -> In f fs -> tco_ok f = true ->
  fun_refined (fun A => @eq (res A)) (calls fs) f (optimize_function f).
Proof.
  intros Hu Hf Hok. unfold tco_ok in Hok. rewrite !andb_true_iff, bool_decide_eq_true in Hok.
  destruct Hok as [[[[Hd%dense_b_spec He] Hdecl] Hin] _]. unfold optimize_function.
  destruct (existsb _ _); [|by split].
  set (ls := foldl _ (f_locals f) (param_ids f)).
  pose proof (tco_blocks_spec (f_name f) (param_ids f) (next_free_id ls) (f_blocks f) ls
                (next_free_id ls) ltac:(lia)) as HF.
  destruct (tco_blocks _ _ _ _ _) as [bs ls']. cbn [fst] in HF. split; [done|]. intros n args w.
  destruct (analyze_spec f Hd (analyze_fuel f) ltac:(lia)) as (l & Hl & Hs & _).
  unfold inputs_are_params in Hin. rewrite Hl, bool_decide_eq_true in Hin.
  eapply (fcall_tco _ _ _ (live_in l) (next_free_id ls)); try done.
  - by apply solution_post.
  - intros x b Hb Hx. apply next_free_id_fresh. unfold ls. rewrite mark_all_ids.
    unfold locals_declared in Hdecl. rewrite forallb_forall in Hdecl.
    apply list_elem_of_In. eapply bool_decide_eq_true_1, Hdecl.
    apply in_app_iff. destruct Hx as [Hx|Hx]; [right|left; by apply list_elem_of_In].
    apply in_flat_map. exists b. split; [done|by apply list_elem_of_In].
  - intros k args' w'. unfold calls. rewrite call_fcall.
    by rewrite (find_function_unique fs f Hu Hf).
Qed.

(** C5: turning tail self-calls into loops changes the outcome of no call, at
    any fuel: a function that swaps or reuses its parameters in the recursive
    call computes what it did, panics where it did and needs no more steps.  The
    functions have names of their own, blocks whose ids are their positions, the
    entry first; their locals are declared, only parameters are read before they
    are written, and no local has its address taken. *)
Theorem optimize_tail_calls_correct {M : MirLang} {CU : CopyUse M} m n name args (w : world) :
  names_unique (m_functions m) = true -> forallb tco_ok (m_functions m) = true ->
  call n (m_functions (optimize_tail_calls m)) name args w = call n (m_functions m) name args w.
Proof.
  intros Hu Hok. symmetry. apply (call_pass (fun A => @eq (res A))).
  cbn. apply Forall2_fmap_r, Forall_Forall2_diag, List.Forall_forall. intros f Hf.
  apply optimize_function_refined; [done..|]. rewrite forallb_forall in Hok. by apply Hok.
Qed.

(** After the pass no block of a function ends in a self-call with the
    function's arity: every such call has become a jump to the entry block. *)
Lemma optimize_function_no_tail_calls f b :
  In b (f_blocks (optimize_function f)) -> tail_call_args (f_name f) (param_ids f) b = None.
Proof.
  unfold optimize_function. destruct (existsb _ _) eqn:Hex.
  - set (ls := foldl _ _ _).
    pose proof (tco_blocks_spec (f_name f) (param_ids f) 0 (f_blocks f) ls
                  (next_free_id ls) ltac:(lia)) as HF.
    destruct (tco_blocks _ _ _ _ _) as [bs ls']. cbn in *. intros Hb.
    apply list_elem_of_In, list_elem_of_lookup in Hb as [i Hi].
    destruct (Forall2_lookup_r _ _ _ _ _ HF Hi) as (b0 & _ & [[Hn ->]|(? & ? & _ & _ & _ & _ & ->)]);
      done.
  - intros Hb. unfold tail_call_args. destruct (is_tail_self_call b (f_name f)) eqn:Ht; [|done].
    assert (existsb (fun b => is_tail_self_call b (f_name f)) (f_blocks f) = true); [|congruence].
    apply existsb_exists. eauto.
Qed.

Lemma optimize_tail_calls_correct_witness :
  call (H := clif_lang) 20 (m_functions (optimize_tail_calls (module_of [gcd_function]))) "gcd"
    [S_I64 48; S_I64 18] [] = Done (S_I64 6, []).
Proof.
  rewrite (optimize_tail_calls_correct (M := clif_lang) (module_of [gcd_function]) 20)
    by (vm_compute; reflexivity).
  vm_compute. reflexivity.
Defined.

Lemma optimize_function_no_tail_calls_witness :
  exists b, f_blocks (optimize_function gcd_function) !! 2%nat = Some b /\
    tail_call_args "gcd" [0%N; 1%N] b = None.
Proof.
  eexists. split; [vm_compute; reflexivity|].
  apply (optimize_function_no_tail_calls gcd_function). vm_compute. tauto.
Defined.

(** [fn go(n: i64, p: &i64, q: &i64) -> i64 { if n == 0 { return *q }; return go(n - 1, &n, p) }]:
    every call hands on the address of its own [n], and keeps the one of its caller. *)
Definition go_function : MirFunction :=
  i64_function (plain_attrs false false) "go" 3 8
    [mkBlock 0%N [I_Assign 3%N (RV_BinOp Bin_Eq (loc 0%N) (int 0))] (T_Branch (loc 3%N) 1%N 2%N);
     mkBlock 1%N [I_Assign 4%N (RV_Deref (loc 2%N))] (T_Return (Some (loc 4%N)));
     mkBlock 2%N [I_Assign 5%N (RV_BinOp Bin_Sub (loc 0%N) (int 1));
                  I_Assign 6%N (RV_AddrOf 0%N false);
                  I_Assign 7%N (RV_Call "go" [loc 5%N; loc 6%N; loc 1%N])]
       (T_Return (Some (loc 7%N)))].
(** The pass does not look at the addresses: in the loop both references are the address of
    the one local 0, which every round writes, where the calls had a local each. *)
Lemma tco_shares_slots :
  no_address go_function = false
  /\ bb_instructions <$> f_blocks (optimize_function go_function) !! 2%nat
     = Some [I_Assign 5%N (RV_BinOp Bin_Sub (loc 0%N) (int 1)); I_Assign 6%N (RV_AddrOf 0%N false);
             assign_use 8%N (loc 5%N); assign_use 9%N (loc 6%N); assign_use 10%N (loc 1%N);
             assign_use 0%N (loc 8%N); assign_use 1%N (loc 9%N); assign_use 2%N (loc 10%N)]
  /\ bb_terminator <$> f_blocks (optimize_function go_function) !! 2%nat = Some (T_Goto 0%N).
Proof. split_and!; vm_compute; reflexivity. Qed.
