(* ===== verification/Inline.v ===== *)
(** Inlining of small leaf functions ([kryos-mir/src/optimize/inline.rs]). *)

From S2P Require Import Prelude MirIr MirUses MirSem Passes Backend ScalarLang Liveness.

(* ------------------------------------------------------------------ *)
(** ** Candidates                                                      *)
(* ------------------------------------------------------------------ *)

Record InlineCandidate := mkCandidate {
  ic_instructions : list Instruction;
  ic_locals : list MirLocal;
  ic_param_locals : list LocalId;
  ic_ret_operand : option Operand
}.

Definition is_call (inst : Instruction) : bool :=
  match inst with
  | I_Assign _ (RV_Call _ _) | I_Assign _ (RV_CallIndirect _ _)
  | I_Assign _ (RV_VtableCall _ _ _ _) | I_Spawn _ _ => true
  | _ => false
  end.

Definition contains_call (instructions : list Instruction) : bool := existsb is_call instructions.

(** The body of the loop of [find_candidates]: what a function contributes. *)
Definition candidate_of (threshold : nat) (f : MirFunction) : option InlineCandidate :=
  match f_blocks f with
  | [b] =>
      if negb (attr_inline (f_attributes f)) && (threshold <? length (bb_instructions b))%nat
      then None
      else if contains_call (bb_instructions b) then None
      else match bb_terminator b with
      | T_Return op =>
          Some (mkCandidate (bb_instructions b) (f_locals f) (param_ids f) op)
      | _ => None
      end
  | _ => None
  end.

Definition find_candidates (m : MirModule) (threshold : nat) : gmap string InlineCandidate :=
  foldl (fun cands f =>
    match candidate_of threshold f with
    | Some cand => <[f_name f := cand]> cands
    | None => cands
    end) ∅ (m_functions m).

(* ------------------------------------------------------------------ *)
(** ** Inlining                                                        *)
(* ------------------------------------------------------------------ *)

Definition offset_by (offset : N) (x : LocalId) : LocalId := (x + offset)%N.

Definition remap_operand (op : Operand) (offset : N) : Operand :=
  rename_operand (offset_by offset) op.

Definition remap_rvalue (rv : RValue) (offset : N) : RValue :=
  rename_rvalue (offset_by offset) rv.

Definition remap_instruction (inst : Instruction) (offset : N) : Instruction :=
  rename_instruction (offset_by offset) inst.

(** What replaces [dest = func(args)]. *)
Definition inlined_call (cand : InlineCandidate) (offset : N) (dest : LocalId)
    (args : list Operand) : list Instruction :=
  zip_with assign_use (map (offset_by offset) (ic_param_locals cand)) args
  ++ map (fun i => remap_instruction i offset) (ic_instructions cand)
  ++ match ic_ret_operand cand with
     | Some ret_op => [assign_use dest (remap_operand ret_op offset)]
     | None => []
     end.

Definition remap_local (offset : N) (l : MirLocal) : MirLocal :=
  mkLocal (offset_by offset (l_id l)) (l_name l) (l_ty l) (l_mutable l).

(** The call site [inst] is, if it is to be inlined into [self]. *)
Definition inline_site (cands : gmap string InlineCandidate) (self : string) (inst : Instruction)
  : option (LocalId * list Operand * InlineCandidate) :=
  match inst with
  | I_Assign dest (RV_Call func args) =>
      if String.eqb func self then None
      else match cands !! func with
      | Some cand => Some (dest, args, cand)
      | None => None
      end
  | _ => None
  end.

Fixpoint inline_instructions (cands : gmap string InlineCandidate) (self : string)
    (insts : list Instruction) (locals : list MirLocal) : list Instruction * list MirLocal :=
  match insts with
  | [] => ([], locals)
  | inst :: rest =>
      match inline_site cands self inst with
      | Some (dest, args, cand) =>
          let local_offset := N.of_nat (length locals) in
          let locals := locals ++ map (remap_local local_offset) (ic_locals cand) in
          let '(rest', locals) := inline_instructions cands self rest locals in
          (inlined_call cand local_offset dest args ++ rest', locals)
      | None =>
          let '(rest', locals) := inline_instructions cands self rest locals in
          (inst :: rest', locals)
      end
  end.

Fixpoint inline_blocks (cands : gmap string InlineCandidate) (self : string)
    (bs : list BasicBlock) (locals : list MirLocal) : list BasicBlock * list MirLocal :=
  match bs with
  | [] => ([], locals)
  | b :: rest =>
      let '(insts, locals) := inline_instructions cands self (bb_instructions b) locals in
      let '(rest', locals) := inline_blocks cands self rest locals in
      (set_instructions b insts :: rest', locals)
  end.

Definition inline_calls_in_function (cands : gmap string InlineCandidate) (f : MirFunction)
  : MirFunction :=
  let '(bs, locals) := inline_blocks cands (f_name f) (f_blocks f) (f_locals f) in
  set_locals (set_blocks f bs) locals.

Definition inline_functions (m : MirModule) (threshold : nat) : MirModule :=
  let candidates := find_candidates m threshold in
  if bool_decide (candidates = ∅) then m
  else set_functions m (map (inline_calls_in_function candidates) (m_functions m)).

(* ------------------------------------------------------------------ *)
(** ** Renaming a computation                                          *)
(* ------------------------------------------------------------------ *)

Section RenameExec.
Context {M : MirLang} (σ : LocalId -> LocalId) (Hinj : Inj (=) (=) σ).
Implicit Types (ρ : env) (w : world).

(** An environment seen through the renaming. *)
Definition through ρ : env := fun x => ρ (σ x).

Lemma shape_rename rv : shape_rvalue (rename_rvalue σ rv) = shape_rvalue rv.
Proof. apply rename_rvalue_compose. Qed.

Lemma shape_inst_rename i : shape_inst (rename_instruction σ i) = shape_inst i.
Proof. apply rename_instruction_compose. Qed.

Lemma operand_val_rename ρ op : operand_val ρ (rename_operand σ op) = operand_val (through ρ) op.
Proof. by destruct op. Qed.

Lemma eval_rvalue_rename c ρ w rv :
  eval_rvalue c ρ w (rename_rvalue σ rv) = eval_rvalue c (through ρ) w rv.
Proof.
  assert (Hu : forall rv, map ρ (rvalue_uses (rename_rvalue σ rv)) = map (through ρ) (rvalue_uses rv)).
  { intros rv'. by rewrite rvalue_uses_rename, map_map. }
  induction rv; try exact IHrv; try reflexivity;
    lazymatch goal with
    | |- eval_rvalue _ _ _ (rename_rvalue σ ?rv) = _ =>
        pose proof (shape_rename rv) as Hs; pose proof (Hu rv) as Hv;
        cbn [rename_rvalue] in Hs, Hv |- *; cbn [eval_rvalue]; rewrite ?Hs, ?Hv; try done
    end.
  rewrite map_map. f_equal. apply map_ext, operand_val_rename.
Qed.

Lemma through_upd_defs ρ ds v x :
  through (upd_defs ρ (map σ ds) v) x = upd_defs (through ρ) ds v x.
Proof.
  unfold upd_defs. induction ds as [|d ds IH]; cbn; [done|].
  unfold through, upd in *. destruct (N.eqb_spec (σ x) (σ d)) as [He|Hne], (N.eqb_spec x d); try done.
  - by apply Hinj in He.
  - congruence.
Qed.

Lemma upd_defs_other ρ ds v y : (forall x, y <> σ x) -> upd_defs ρ (map σ ds) v y = ρ y.
Proof.
  intros Hy. unfold upd_defs. induction ds as [|d ds IH]; cbn; [done|]. by rewrite upd_ne.
Qed.

(** The renamed state: the same values under new names, other locals kept. *)
Definition renamed ρ0 (p q : env * world) : Prop :=
  (forall x, through (fst q) x = fst p x)
  /\ (forall y, (forall x, y <> σ x) -> fst q y = ρ0 y) /\ snd p = snd q.

Lemma exec_inst_rename c i ρ1 ρ w :
  (forall x, through ρ x = ρ1 x) ->
  res_rel (renamed ρ) (exec_inst c i ρ1 w) (exec_inst c (rename_instruction σ i) ρ w).
Proof.
  intros Hρ.
  assert (Hdefs : forall v w', renamed ρ (upd_defs ρ1 (inst_defs i) v, w')
                        (upd_defs ρ (inst_defs (rename_instruction σ i)) v, w')).
  { intros v w'. rewrite inst_defs_rename. repeat split; cbn [fst snd].
    - intros x. rewrite through_upd_defs. unfold upd_defs.
      induction (inst_defs i) as [|d ds IH]; cbn; [apply Hρ|]. unfold upd. by destruct (N.eqb _ _).
    - intros y Hy. by apply upd_defs_other. }
  assert (Huse : map ρ (inst_uses (rename_instruction σ i)) = map ρ1 (inst_uses i)).
  { rewrite inst_uses_rename, map_map. by apply map_ext. }
  pose proof (shape_inst_rename i) as Hs.
  destruct i; cbn [rename_instruction] in *; unfold exec_inst; rewrite ?Hs, ?Huse.
  1: rewrite eval_rvalue_rename, (eval_rvalue_agree c (fun _ => True) (through ρ) ρ1)
       by (try done; intros x _; apply Hρ).
  all: (apply res_rel_bind with (R := eq); [by apply res_rel_eq|]); intros [v w'] _ <-; apply Hdefs.
Qed.

Lemma exec_insts_rename c insts ρ1 ρ w :
  (forall x, through ρ x = ρ1 x) ->
  res_rel (renamed ρ) (exec_insts c insts ρ1 w) (exec_insts c (map (rename_instruction σ) insts) ρ w).
Proof.
  revert ρ1 ρ w. induction insts as [|i insts IH]; intros ρ1 ρ w Hρ; [done|].
  cbn. eapply res_rel_bind; [by apply exec_inst_rename|].
  intros [ρ1' w1] [ρ' w'] (Hρ' & Hframe & Hw). cbn in Hρ', Hframe, Hw. subst w'.
  specialize (IH ρ1' ρ' w1 Hρ').
  destruct (exec_insts c insts ρ1' w1) as [p| |], (exec_insts c _ ρ' w1) as [q| |]; try done.
  destruct IH as (H1 & H2 & H3). repeat split; [done| |done].
  intros y Hy. rewrite H2 by done. by apply Hframe.
Qed.

Lemma through_bind_params ps vs ρ x :
  through (bind_params (map σ ps) vs ρ) x = bind_params ps vs (through ρ) x.
Proof.
  revert vs ρ. induction ps as [|p ps IH]; intros vs ρ; destruct vs as [|v vs]; cbn [map bind_params]; try done.
  rewrite IH. apply (bind_params_ext ps vs). intros y.
  unfold through, upd. destruct (N.eqb_spec (σ y) (σ p)) as [He|Hne], (N.eqb_spec y p); try done.
  - by apply Hinj in He.
  - congruence.
Qed.
End RenameExec.

(* ------------------------------------------------------------------ *)
(** ** Leaf bodies                                                     *)
(* ------------------------------------------------------------------ *)

Fixpoint leaf_rvalue (rv : RValue) : bool :=
  match rv with
  | RV_Call _ _ | RV_CallIndirect _ _ | RV_VtableCall _ _ _ _ => false
  | RV_Comptime inner => leaf_rvalue inner
  | _ => true
  end.

Lemma exec_leaf_insts {M : MirLang} c1 c2 insts (ρ : env) w :
  forallb leaf_rvalue (flat_map inst_rvalues insts) = true ->
  exec_insts c1 insts ρ w = exec_insts c2 insts ρ w.
Proof.
  assert (Hrv : forall ρ w rv, leaf_rvalue rv = true -> eval_rvalue c1 ρ w rv = eval_rvalue c2 ρ w rv).
  { intros ρ0 w0 rv. induction rv; intros Hl; try done. cbn. auto. }
  revert ρ w. induction insts as [|i insts IH]; intros ρ w Hl; [done|].
  cbn [flat_map] in Hl. rewrite forallb_app in Hl. apply andb_true_iff in Hl as [Hi Hl].
  cbn. assert (exec_inst c1 i ρ w = exec_inst c2 i ρ w) as ->.
  { destruct i; try done. cbn in *. rewrite andb_true_r in Hi. by rewrite Hrv. }
  destruct (exec_inst c2 i ρ w) as [[ρ' w']| |]; cbn; auto.
Qed.

(* ------------------------------------------------------------------ *)
(** ** An inlined call site                                            *)
(* ------------------------------------------------------------------ *)

(** A candidate that returns a value, has no call hidden in a [Comptime] and
    reads no local but its parameters before writing it. *)
Definition candidate_ok (cand : InlineCandidate) : bool :=
  match ic_ret_operand cand with
  | Some op =>
      forallb leaf_rvalue (flat_map inst_rvalues (ic_instructions cand))
      && bool_decide (transfer_block (ic_instructions cand) (list_to_set (operand_uses op))
                        ⊆ (list_to_set (ic_param_locals cand) : gset N))
  | None => false
  end.

#[export] Instance offset_by_inj off : Inj (=) (=) (offset_by off).
Proof. intros x y. unfold offset_by. lia. Qed.

Section Site.
Context {M : MirLang} {CU : CopyUse M} (K : N).
Implicit Types (ρ : env) (w : world).

(** The caller's own locals, and the world. *)
Definition low (p q : env * world) : Prop :=
  agree (fun x => (x < K)%N) (fst p) (fst q) /\ snd p = snd q.

Lemma low_args args ρ1 ρ2 :
  (forall x, x ∈ operands_uses args -> (x < K)%N) ->
  agree (fun x => (x < K)%N) ρ1 ρ2 -> map (operand_val ρ1) args = map (operand_val ρ2) args.
Proof.
  intros Hargs Ha. apply (operands_val_agree _ _ _ _ Ha). intros x Hx. apply Hargs.
  by apply list_elem_of_In.
Qed.

(** The body under its new names, from an environment where the parameters
    hold the arguments, against the callee's own run. *)
Lemma inlined_body c0 c cand op off vs ρ w :
  candidate_ok cand = true -> ic_ret_operand cand = Some op ->
  length vs = length (ic_param_locals cand) -> (K <= off)%N ->
  res_rel (fun p q => operand_val (fst q) (remap_operand op off) = operand_val (fst p) op
             /\ agree (fun x => (x < K)%N) ρ (fst q) /\ snd p = snd q)
    (exec_insts c0 (ic_instructions cand) (bind_params (ic_param_locals cand) vs empty_env) w)
    (exec_insts c (map (fun i => remap_instruction i off) (ic_instructions cand))
       (bind_params (map (offset_by off) (ic_param_locals cand)) vs ρ) w).
Proof.
  intros Hok Hret Hlen Hoff. unfold candidate_ok in Hok. rewrite Hret, andb_true_iff, bool_decide_eq_true in Hok.
  destruct Hok as [Hleaf Hlive]. set (ps := ic_param_locals cand) in *.
  set (ρa := bind_params (map (offset_by off) ps) vs ρ).
  assert (Hhigh : forall y, (y < K)%N -> forall x, y <> offset_by off x)
    by (unfold offset_by; lia).
  assert (Hρa : forall y, (y < K)%N -> ρa y = ρ y).
  { intros y Hy. apply bind_params_other. intros (x & Hx & _)%list_elem_of_fmap.
    by apply (Hhigh y Hy x). }
  rewrite (exec_leaf_insts c0 c) by done.
  pose proof (exec_insts_rename (offset_by off) _ c (ic_instructions cand)
                (bind_params ps vs (through (offset_by off) ρ)) ρa w
                (through_bind_params (offset_by off) _ ps vs ρ)) as Hren.
  assert (Hag : agree_set (transfer_block (ic_instructions cand) (list_to_set (operand_uses op)))
                  (bind_params ps vs empty_env) (bind_params ps vs (through (offset_by off) ρ))).
  { eapply agree_mono; [|by apply bind_params_agree]. intros x Hx%Hlive.
    by apply elem_of_list_to_set in Hx. }
  apply (exec_insts_agree c _ _ _ _ w) in Hag.
  unfold remap_instruction, remap_operand.
  destruct (exec_insts c _ (bind_params ps vs empty_env) w) as [[ρ1 w1]| |],
    (exec_insts c _ (bind_params ps vs (through _ ρ)) w) as [[ρ2 w2]| |]; try done;
    destruct (exec_insts c _ ρa w) as [[ρ3 w3]| |]; try done.
  destruct Hag as [Hag Hw12], Hren as (Hren & Hframe & Hw23). cbn [fst snd] in *. subst w2 w3.
  cbn [res_rel fst snd]. rewrite operand_val_rename. split; [|split; [|done]].
  - transitivity (operand_val ρ2 op).
    + destruct op; cbn; [apply Hren|done].
    + symmetry. apply (operand_val_agree _ _ _ _ Hag). intros x Hx.
      apply elem_of_list_to_set. by apply list_elem_of_In.
  - intros y Hy. rewrite Hframe by (by apply Hhigh). symmetry. by apply Hρa.
Qed.

Lemma inlined_call_correct c0 c cand op off dest args ρ1 ρ2 w :
  candidate_ok cand = true -> ic_ret_operand cand = Some op ->
  length args = length (ic_param_locals cand) -> (K <= off)%N ->
  (forall x, x ∈ operands_uses args -> (x < K)%N) ->
  agree (fun x => (x < K)%N) ρ1 ρ2 ->
  res_rel low
    ('(ρ', w') ← exec_insts c0 (ic_instructions cand)
       (bind_params (ic_param_locals cand) (map (operand_val ρ1) args) empty_env) w;
     Done (upd ρ1 dest (operand_val ρ' op), w'))
    (exec_insts c (inlined_call cand off dest args) ρ2 w).
Proof.
  intros Hok Hret Hlen Hoff Hargs Ha. unfold inlined_call.
  rewrite exec_insts_app, exec_copies.
  - cbn [mbind res_bind]. rewrite (low_args args ρ1 ρ2) by done. rewrite Hret, exec_insts_app.
    eapply res_rel_bind; [by apply (inlined_body c0 c cand op off); [..|rewrite length_map|]|].
    intros [ρ1' w1] [ρ2' w2] (Hv & Hlow & Hw). cbn [fst snd] in *. subst w2.
    cbn [exec_insts exec_inst eval_rvalue assign_use]. rewrite use_copies. cbn.
    split; [|done]. cbn. rewrite Hv. apply agree_upd. intros y [Hy _]. rewrite <-Hlow by done. by apply Ha.
  - by rewrite length_map.
  - intros d (x & -> & _)%list_elem_of_fmap Hin. apply Hargs in Hin. unfold offset_by in Hin. lia.
Qed.
End Site.

(* ------------------------------------------------------------------ *)
(** ** A function with its calls inlined                               *)
(* ------------------------------------------------------------------ *)

(** All locals of the function are below its number of locals, as the offset
    of the inlined names supposes, and call sites have the callee's arity. *)
Definition site_ok (cands : gmap string InlineCandidate) (self : string) (inst : Instruction)
  : bool :=
  match inline_site cands self inst with
  | Some (_, args, cand) => Nat.eqb (length args) (length (ic_param_locals cand))
  | None => true
  end.

Definition below (K : N) (xs : list LocalId) : bool := forallb (fun x => N.ltb x K) xs.

Definition inline_ok (cands : gmap string InlineCandidate) (f : MirFunction) : bool :=
  let K := N.of_nat (length (f_locals f)) in
  forallb (fun b => below K (block_locals b)
                    && forallb (site_ok cands (f_name f)) (bb_instructions b)) (f_blocks f).

Section Function.
Context {M : MirLang} {CU : CopyUse M} (K : N) (cands : gmap string InlineCandidate) (self : string).
Context (Hcands : forall name cand, cands !! name = Some cand -> candidate_ok cand = true).
Implicit Types (ρ : env) (w : world).

(** A call of a candidate runs its body (unless fuel runs out). *)
Definition runs_candidates (c : callf) : Prop :=
  forall name cand vs w, cands !! name = Some cand ->
    c name vs w = OutOfFuel \/
    exists c0 op, ic_ret_operand cand = Some op /\
      c name vs w =
        ('(ρ', w') ← exec_insts c0 (ic_instructions cand)
           (bind_params (ic_param_locals cand) vs empty_env) w;
         Done (operand_val ρ' op, w')).

Definition sim (m1 m2 : res (env * world)) : Prop := m1 = OutOfFuel \/ res_rel (low K) m1 m2.

Lemma sim_bind m1 m2 (k1 k2 : env * world -> res (env * world)) :
  sim m1 m2 -> (forall p q, low K p q -> sim (k1 p) (k2 q)) -> sim (m1 ≫= k1) (m2 ≫= k2).
Proof.
  intros [->|Hm] Hk; [by left|]. destruct m1 as [p| |], m2 as [q| |]; try done; [by apply Hk|by right..].
Qed.

Lemma inline_site_spec inst dest args cand :
  inline_site cands self inst = Some (dest, args, cand) ->
  exists func, inst = I_Assign dest (RV_Call func args) /\ cands !! func = Some cand.
Proof.
  unfold inline_site. destruct inst as [d rv| | | | | | | | | | | | | | |]; try done. destruct rv; try done.
  destruct (String.eqb func self); [done|].
  destruct (cands !! func) as [cd|] eqn:Hc; [|done]. intros [= -> -> ->]. eauto.
Qed.

Lemma exec_inline (c : callf) insts locals ρ1 ρ2 w :
  runs_candidates c -> (K <= N.of_nat (length locals))%N ->
  below K (flat_map (fun i => inst_defs i ++ inst_uses i) insts) = true ->
  forallb (site_ok cands self) insts = true ->
  agree (fun x => (x < K)%N) ρ1 ρ2 ->
  sim (exec_insts c insts ρ1 w)
    (exec_insts c (fst (inline_instructions cands self insts locals)) ρ2 w).
Proof.
  intros Hc. revert locals ρ1 ρ2 w.
  induction insts as [|inst insts IH]; intros locals ρ1 ρ2 w HK Hlow Hsites Ha; [by right|].
  cbn [flat_map] in Hlow. unfold below in Hlow. rewrite forallb_app in Hlow.
  apply andb_true_iff in Hlow as [Hi Hlow]. cbn in Hsites. apply andb_true_iff in Hsites as [Hs Hsites].
  assert (Huses : forall x, In x (inst_uses inst) -> (x < K)%N).
  { intros x Hx. rewrite forallb_forall in Hi. apply N.ltb_lt, Hi, in_app_iff. by right. }
  cbn [inline_instructions]. unfold site_ok in Hs.
  destruct (inline_site cands self inst) as [[[dest args] cand]|] eqn:Hsite.
  - set (locals' := locals ++ _).
    specialize (IH locals'). destruct (inline_instructions cands self insts locals') as [rest' ls'].
    cbn [fst] in *. rewrite exec_insts_app. cbn [exec_insts].
    apply inline_site_spec in Hsite as (func & -> & Hcand). apply Nat.eqb_eq in Hs.
    apply sim_bind.
    + cbn [exec_inst eval_rvalue].
      destruct (Hc func cand (map (operand_val ρ1) args) w Hcand) as [->|(c0 & op & Hret & ->)]; [by left|].
      right. epose proof (inlined_call_correct K c0 c cand op (N.of_nat (length locals)) dest args
        ρ1 ρ2 w (Hcands _ _ Hcand) Hret Hs HK _ Ha) as Hsim.
      destruct (exec_insts c0 _ _ w) as [[ρ' w']| |]; exact Hsim.
    + intros [ρ1' w1] [ρ2' w2] [Ha' Hw]. cbn in Hw. subst w2. apply IH; auto.
      unfold locals'. rewrite length_app. lia.
  - specialize (IH locals). destruct (inline_instructions cands self insts locals) as [rest' ls'].
    cbn [fst exec_insts] in *. apply sim_bind.
    + right. by apply exec_inst_agree_on.
    + intros [ρ1' w1] [ρ2' w2] [Ha' Hw]. cbn in Hw. subst w2. by apply IH.
  Unshelve.
  intros x Hx. apply Huses. by apply list_elem_of_In.
Qed.

Definition inlined_block (b b' : BasicBlock) : Prop :=
  exists locals, (K <= N.of_nat (length locals))%N /\
    b' = set_instructions b (fst (inline_instructions cands self (bb_instructions b) locals)).

Lemma inline_instructions_length insts locals :
  (length locals <= length (snd (inline_instructions cands self insts locals)))%nat.
Proof.
  revert locals. induction insts as [|i insts IH]; intros locals; cbn; [done|].
  destruct (inline_site cands self i) as [[[dest args] cand]|].
  - set (locals' := locals ++ _). specialize (IH locals').
    destruct (inline_instructions cands self insts locals'). cbn in *.
    unfold locals' in IH. rewrite length_app in IH. lia.
  - specialize (IH locals). by destruct (inline_instructions cands self insts locals).
Qed.

Lemma inline_blocks_spec bs locals :
  (K <= N.of_nat (length locals))%N ->
  Forall2 inlined_block bs (fst (inline_blocks cands self bs locals)).
Proof.
  revert locals. induction bs as [|b bs IH]; intros locals HK; cbn; [constructor|].
  pose proof (inline_instructions_length (bb_instructions b) locals) as Hlen.
  destruct (inline_instructions cands self (bb_instructions b) locals) as [insts ls] eqn:He.
  cbn in Hlen. specialize (IH ls ltac:(lia)). destruct (inline_blocks cands self bs ls).
  constructor; [|done]. exists locals. by rewrite He.
Qed.

Lemma inlined_block_id b b' : inlined_block b b' -> bb_id b' = bb_id b.
Proof. by intros (? & _ & ->). Qed.

Lemma frun_inline (c : nat -> callf) f f' n id ρ1 ρ2 w :
  (forall k, runs_candidates (c k)) ->
  Forall2 inlined_block (f_blocks f) (f_blocks f') ->
  (forall b, In b (f_blocks f) ->
     below K (block_locals b) = true /\ forallb (site_ok cands self) (bb_instructions b) = true) ->
  agree (fun x => (x < K)%N) ρ1 ρ2 ->
  res_le (frun c n f id ρ1 w) (frun c n f' id ρ2 w).
Proof.
  intros Hc HF Hok. revert id ρ1 ρ2 w. induction n as [|n IH]; intros id ρ1 ρ2 w Ha; [by left|].
  cbn [frun]. pose proof (find_block_Forall2 _ f f' id inlined_block_id HF) as Hfb.
  destruct (find_block f id) as [b|] eqn:Hb, (find_block f' id) as [b'|]; try done.
  apply find_block_In in Hb as [Hb _]. destruct Hfb as (locals & HK & ->).
  destruct (Hok b Hb) as [Hlow Hsites]. unfold block_locals, below in Hlow.
  rewrite forallb_app in Hlow. apply andb_true_iff in Hlow as [Hlow Hterm].
  cbn [of_option mbind res_bind set_instructions bb_instructions bb_terminator].
  destruct (exec_inline (c n) (bb_instructions b) locals ρ1 ρ2 w (Hc n) HK Hlow Hsites Ha)
    as [->|Hsim]; [by left|].
  destruct (exec_insts (c n) (bb_instructions b) ρ1 w) as [[ρ1' w1]| |],
    (exec_insts (c n) (fst _) ρ2 w) as [[ρ2' w2]| |]; try contradiction; [|done..].
  destruct Hsim as [Ha' Hw]. cbn [fst snd] in Ha', Hw. subst w2. cbn.
  rewrite (exec_term_agree_on _ _ ρ1' ρ2' Ha').
  - destruct (exec_term _ ρ2') as [[v|id']| |]; cbn; try done. by apply IH.
  - intros x Hx. rewrite forallb_forall in Hterm. by apply N.ltb_lt, Hterm.
Qed.
End Function.

(* ------------------------------------------------------------------ *)
(** ** The pass on a module                                            *)
(* ------------------------------------------------------------------ *)

Lemma find_candidates_spec m threshold name cand :
  find_candidates m threshold !! name = Some cand ->
  exists g, In g (m_functions m) /\ f_name g = name /\ candidate_of threshold g = Some cand.
Proof.
  unfold find_candidates.
  assert (Hgen : forall fs (cands : gmap string InlineCandidate),
    foldl (fun cands f => match candidate_of threshold f with
                          | Some cand => <[f_name f := cand]> cands | None => cands end) cands fs
      !! name = Some cand ->
    cands !! name = Some cand
    \/ exists g, In g fs /\ f_name g = name /\ candidate_of threshold g = Some cand).
  { intros fs. induction fs as [|f fs IH]; intros cands Hc; cbn in Hc; [by left|].
    destruct (IH _ Hc) as [Hin|(g & Hg & ?)]; [|right; exists g; split; [by right|done]].
    destruct (candidate_of threshold f) as [cd|] eqn:Hf; [|by left].
    destruct (decide (f_name f = name)) as [He|Hne].
    - rewrite He, lookup_insert_eq in Hin. right. exists f. split; [by left|]. split; congruence.
    - rewrite lookup_insert_ne in Hin by done. by left. }
  intros Hc. by destruct (Hgen _ _ Hc) as [?|?].
Qed.

Lemma fcall_candidate {M : MirLang} threshold g cand (c : nat -> callf) k vs w :
  candidate_of threshold g = Some cand ->
  fcall c k g vs w = OutOfFuel \/
  exists c0, fcall c k g vs w =
    ('(ρ', w') ← exec_insts c0 (ic_instructions cand)
       (bind_params (ic_param_locals cand) vs empty_env) w;
     Done (default none_val (option_map (operand_val ρ') (ic_ret_operand cand)), w')).
Proof.
  unfold candidate_of. destruct (f_blocks g) as [|b [|? ?]] eqn:Hbs; try done.
  destruct (negb _ && _); [done|]. destruct (contains_call _); [done|].
  destruct (bb_terminator b) as [op| | | |] eqn:Ht; try done. intros [= <-]. cbn.
  unfold fcall, entry_id. rewrite Hbs. cbn. destruct k as [|k]; [by left|right]. exists (c k).
  cbn [frun]. unfold find_block. rewrite Hbs. cbn. rewrite N.eqb_refl. cbn.
  destruct (exec_insts (c k) _ _ w) as [[ρ' w']| |]; cbn; [|done..]. by rewrite Ht.
Qed.

Definition inline_module_ok (threshold : nat) (m : MirModule) : bool :=
  let cands := find_candidates m threshold in
  names_unique (m_functions m)
  && forallb (fun '(_, cand) => candidate_ok cand) (map_to_list cands)
  && forallb (inline_ok cands) (m_functions m).

(** C7: inlining preserves every outcome a call reaches within its fuel, normal
    or panic.  Every candidate returns a value, reads no local but its parameters
    before writing it, and has no call inside a [Comptime]; the calls of
    candidates have their arity, the ids of locals are below the number of
    locals, and the functions have names of their own. *)
Theorem inline_functions_correct {M : MirLang} {CU : CopyUse M} m threshold n name args (w : world) r :
  inline_module_ok threshold m = true -> r <> OutOfFuel ->
  call n (m_functions m) name args w = r ->
  call n (m_functions (inline_functions m threshold)) name args w = r.
Proof.
  unfold inline_module_ok. rewrite !andb_true_iff, !forallb_forall. intros [[Hu Hcands] Hok] Hr <-.
  unfold inline_functions. destruct (bool_decide _); [done|].
  set (cands := find_candidates m threshold) in *.
  assert (Hcand : forall name cand, cands !! name = Some cand -> candidate_ok cand = true).
  { intros nm cand Hc. apply (Hcands (nm, cand)). by apply list_elem_of_In, elem_of_map_to_list. }
  assert (Hruns : forall k, runs_candidates cands (calls (m_functions m) k)).
  { intros k nm cand vs w' Hc. unfold calls. rewrite call_fcall.
    destruct (find_candidates_spec m threshold nm cand Hc) as (g & Hg & <- & Hgc).
    rewrite (find_function_unique _ g Hu Hg).
    destruct (fcall_candidate threshold g cand (calls (m_functions m)) k vs w' Hgc) as [->|[c0 ->]];
      [by left|right]. exists c0.
    pose proof (Hcand _ _ Hc) as Hco. unfold candidate_ok in Hco.
    destruct (ic_ret_operand cand) as [op|]; [|done]. by exists op. }
  apply (fun H => res_le_Done _ _ H Hr).
  apply (call_pass (@res_le)). cbn. apply Forall2_fmap_r, Forall_Forall2_diag, List.Forall_forall.
  intros f Hf. specialize (Hok f Hf). unfold inline_ok in Hok. rewrite forallb_forall in Hok.
  change (fun_refined (@res_le) (calls (m_functions m)) f (inline_calls_in_function cands f)).
  unfold inline_calls_in_function.
  pose proof (inline_blocks_spec (N.of_nat (length (f_locals f))) cands (f_name f) (f_blocks f)
                (f_locals f) ltac:(lia)) as HF.
  destruct (inline_blocks _ _ _ _) as [bs ls]. cbn [fst] in HF. split; [done|].
  intros k args' w'. unfold fcall.
  rewrite <-(entry_id_Forall2 _ f (set_locals (set_blocks f bs) ls)
    (inlined_block_id _ cands (f_name f)) HF).
  apply res_order_bind; [reflexivity|]. intros id0.
  apply res_order_bind; [|intros []; reflexivity].
  eapply frun_inline; try done. intros b Hb. by apply andb_true_iff, Hok.
Qed.

(** [fn square(x) { x * x }  fn main() { square(3) + square(4) }] *)
Definition squares : MirModule :=
  module_of
    [i64_function (plain_attrs false true) "square" 1 2
       [mkBlock 0%N [I_Assign 1%N (RV_BinOp Bin_Mul (loc 0%N) (loc 0%N))]
          (T_Return (Some (loc 1%N)))];
     i64_function (plain_attrs false false) "main" 0 3
       [mkBlock 0%N [I_Assign 0%N (RV_Call "square" [int 3]);
                     I_Assign 1%N (RV_Call "square" [int 4]);
                     I_Assign 2%N (RV_BinOp Bin_Add (loc 0%N) (loc 1%N))]
          (T_Return (Some (loc 2%N)))]].

Lemma inline_functions_correct_witness :
  call (H := clif_lang) 2 (m_functions (inline_functions squares 20)) "main" [] []
  = Done (S_I64 25, []).
Proof.
  apply (inline_functions_correct (M := clif_lang) squares 20 2);
    [vm_compute; reflexivity|done|vm_compute; reflexivity].
Defined.
