(* ===== verification/Pure.v ===== *)
(** Optimisation of [@pure] calls ([kryos-mir/src/optimize/pure.rs]): common
    subexpressions within a block, and calls whose result nothing reads. *)

From Stdlib Require Import SpecFloat.
From S2P Require Import Prelude Machine MirIr MirUses MirSem Passes Backend ScalarLang Liveness Dce Inline.

(* ------------------------------------------------------------------ *)
(** ** Keys                                                            *)
(* ------------------------------------------------------------------ *)

Inductive OperandKey :=
| Key_Local (id : N)
| Key_ConstInt (v : Z)
| Key_ConstFloat (bits : Z)
| Key_ConstBool (b : bool)
| Key_ConstString (s : string)
| Key_ConstNone.

#[export] Instance operand_key_eq_dec : EqDecision OperandKey.
Proof. solve_decision. Defined.

Record PureCallKey := mkKey { key_func : string; key_args : list OperandKey }.

#[export] Instance pure_call_key_eq_dec : EqDecision PureCallKey.
Proof. solve_decision. Defined.

Definition operand_to_key (op : Operand) : option OperandKey :=
  match op with
  | Op_Local id => Some (Key_Local id)
  | Op_Constant c =>
      match c with
      | C_Int v => Some (Key_ConstInt v)
      | C_Float v => Some (Key_ConstFloat (f64_to_bits v))
      | C_Bool v => Some (Key_ConstBool v)
      | C_Str s => Some (Key_ConstString s)
      | C_None => Some Key_ConstNone
      end
  end.

Definition make_call_key (func : string) (args : list Operand) : option PureCallKey :=
  option_map (mkKey func) (mapM operand_to_key args).

(* ------------------------------------------------------------------ *)
(** ** Common subexpressions                                           *)
(* ------------------------------------------------------------------ *)

(** [seen]: a [HashMap] that is only inserted into when the key is absent. *)
Definition lookup_key (key : PureCallKey) (seen : list (PureCallKey * LocalId)) : option LocalId :=
  option_map snd (find (fun '(k, _) => bool_decide (k = key)) seen).

Fixpoint cse_instructions (pure_fns : gset string) (seen : list (PureCallKey * LocalId))
    (insts : list Instruction) : list Instruction :=
  match insts with
  | [] => []
  | inst :: rest =>
      match inst with
      | I_Assign dest (RV_Call callee args) =>
          if bool_decide (callee ∈ pure_fns) then
            match make_call_key callee args with
            | Some key =>
                match lookup_key key seen with
                | Some prev_dest =>
                    I_Assign dest (RV_Use (Op_Local prev_dest))
                    :: cse_instructions pure_fns seen rest
                | None => inst :: cse_instructions pure_fns ((key, dest) :: seen) rest
                end
            | None => inst :: cse_instructions pure_fns seen rest
            end
          else inst :: cse_instructions pure_fns seen rest
      | _ => inst :: cse_instructions pure_fns seen rest
      end
  end.

Definition cse_block (pure_fns : gset string) (b : BasicBlock) : BasicBlock :=
  set_instructions b (cse_instructions pure_fns [] (bb_instructions b)).

Definition cse_pure_calls (pure_fns : gset string) (f : MirFunction) : MirFunction :=
  set_blocks f (map (cse_block pure_fns) (f_blocks f)).

(* ------------------------------------------------------------------ *)
(** ** Dead calls                                                      *)
(* ------------------------------------------------------------------ *)

Definition collect_operand_reads (op : Operand) (used : gset N) : gset N :=
  match op with Op_Local id => {[id]} ∪ used | Op_Constant _ => used end.

Definition collect_reads (ops : list Operand) (used : gset N) : gset N :=
  foldl (fun used op => collect_operand_reads op used) used ops.

Fixpoint collect_rvalue_reads (rv : RValue) (used : gset N) : gset N :=
  match rv with
  | RV_Use op | RV_Cast op _ | RV_Deref op | RV_EnumTag op | RV_Field op _ | RV_ArcAlloc op =>
      collect_operand_reads op used
  | RV_BinOp _ lhs rhs | RV_Index lhs rhs =>
      collect_operand_reads rhs (collect_operand_reads lhs used)
  | RV_UnOp _ operand => collect_operand_reads operand used
  | RV_Call _ args => collect_reads args used
  | RV_CallIndirect callee args => collect_reads args (collect_operand_reads callee used)
  | RV_VtableCall object _ args _ => collect_reads args (collect_operand_reads object used)
  | RV_Array elems | RV_Tuple elems | RV_StringConcat elems => collect_reads elems used
  | RV_Struct _ fields => collect_reads (map snd fields) used
  | RV_Closure _ captures => collect_reads captures used
  | RV_EnumVariant _ _ fields => collect_reads fields used
  | RV_EnumPayload operand _ _ _ => collect_operand_reads operand used
  | RV_Map pairs =>
      foldl (fun used '(k, v) => collect_operand_reads v (collect_operand_reads k used)) used pairs
  | RV_Range start end_ _ =>
      let used := match start with Some s => collect_operand_reads s used | None => used end in
      match end_ with Some e => collect_operand_reads e used | None => used end
  | RV_AddrOf local _ => {[local]} ∪ used
  | RV_Comptime inner => collect_rvalue_reads inner used
  | RV_MakeTraitObject value _ _ _ => collect_operand_reads value used
  | RV_ConstInt _ | RV_ConstFloat _ | RV_ConstBool _ | RV_ConstString _ | RV_ConstNone => used
  end.

Definition collect_inst_reads (inst : Instruction) (used : gset N) : gset N :=
  match inst with
  | I_Assign _ value => collect_rvalue_reads value used
  | I_ArcRetain ptr | I_ArcRelease ptr => {[ptr]} ∪ used
  | I_Drop local => {[local]} ∪ used
  | I_DropIfNe old new _ _ _ => collect_operand_reads new ({[old]} ∪ used)
  | I_Send channel value => {[value]} ∪ ({[channel]} ∪ used)
  | I_Receive _ channel => {[channel]} ∪ used
  | I_Spawn _ args => collect_reads args used
  | I_ActorSpawn _ _ state => collect_operand_reads state used
  | I_ActorSend actor _ args => collect_reads args ({[actor]} ∪ used)
  | I_ActorStateLoad _ state_ptr _ => {[state_ptr]} ∪ used
  | I_ActorStateStore state_ptr _ value => collect_operand_reads value ({[state_ptr]} ∪ used)
  | I_StoreField object _ value => collect_operand_reads value (collect_operand_reads object used)
  | I_StoreDeref ptr value => collect_operand_reads value (collect_operand_reads ptr used)
  | I_Nop | I_DebugLine _ => used
  end.

Definition collect_term_reads (term : Terminator) (used : gset N) : gset N :=
  match term with
  | T_Return (Some op) => collect_operand_reads op used
  | T_Branch cond _ _ => collect_operand_reads cond used
  | T_Switch value _ _ => collect_operand_reads value used
  | _ => used
  end.

Definition collect_block_reads (used : gset N) (b : BasicBlock) : gset N :=
  collect_term_reads (bb_terminator b)
    (foldl (fun used inst => collect_inst_reads inst used) used (bb_instructions b)).

Definition collect_used_locals (f : MirFunction) : gset N :=
  foldl collect_block_reads ∅ (f_blocks f).

(** The closure given to [retain]. *)
Definition keep_call (pure_fns : gset string) (used : gset N) (inst : Instruction) : bool :=
  match inst with
  | I_Assign dest (RV_Call callee _) =>
      negb (bool_decide (callee ∈ pure_fns) && negb (in_set used dest))
  | _ => true
  end.

Definition remove_dead_pure_calls (pure_fns : gset string) (f : MirFunction) : MirFunction :=
  let used := collect_used_locals f in
  set_blocks f
    (map (fun b => set_instructions b (List.filter (keep_call pure_fns used) (bb_instructions b)))
       (f_blocks f)).

Definition pure_names (m : MirModule) : gset string :=
  list_to_set (map f_name (List.filter (fun f => attr_pure_fn (f_attributes f)) (m_functions m))).

Definition optimize_pure (m : MirModule) : MirModule :=
  let pure_fns := pure_names m in
  if bool_decide (pure_fns = ∅) then m
  else
    let m := set_functions m (map (cse_pure_calls pure_fns) (m_functions m)) in
    set_functions m (map (remove_dead_pure_calls pure_fns) (m_functions m)).

(* ------------------------------------------------------------------ *)
(** ** The collected reads                                             *)
(* ------------------------------------------------------------------ *)

(** The reads this file collects are those of the liveness analysis too. *)
Lemma collect_used_locals_eq f : collect_used_locals f = Dce.collect_used_locals f.
Proof. reflexivity. Qed.

(* ------------------------------------------------------------------ *)
(** ** Keys identify argument lists                                    *)
(* ------------------------------------------------------------------ *)

Definition operand_valid (op : Operand) : bool :=
  match op with Op_Constant (C_Float x) => SpecFloat.valid_binary 53 1024 x | _ => true end.

Lemma operand_to_key_inj o1 o2 :
  operand_valid o1 = true -> operand_valid o2 = true ->
  operand_to_key o1 = operand_to_key o2 -> o1 = o2.
Proof.
  intros H1 H2. destruct o1 as [x|[]], o2 as [y|[]]; cbn in *; try congruence.
  intros [= He]. apply f64_to_bits_inj in He; congruence.
Qed.


Lemma operands_to_key_inj a1 a2 k :
  forallb operand_valid a1 = true -> forallb operand_valid a2 = true ->
  mapM operand_to_key a1 = Some k -> mapM operand_to_key a2 = Some k -> a1 = a2.
Proof.
  revert a2 k. induction a1 as [|o1 a1 IH]; intros a2 k H1 H2 Hk1 Hk2.
  - injection Hk1 as <-. destruct a2 as [|o2 a2]; [done|].
    cbn in Hk2. apply bind_Some in Hk2 as (? & _ & (? & _ & [=])%bind_Some).
  - cbn in Hk1, H1. apply bind_Some in Hk1 as (k1 & Ho1 & (ks1 & Ha1 & [= <-])%bind_Some).
    apply andb_true_iff in H1 as [Hv1 H1]. destruct a2 as [|o2 a2]; [done|].
    cbn in Hk2, H2. apply bind_Some in Hk2 as (k2 & Ho2 & (ks2 & Ha2 & [= -> ->])%bind_Some).
    apply andb_true_iff in H2 as [Hv2 H2].
    f_equal; [by apply operand_to_key_inj; [..|congruence]|by eapply IH].
Qed.

Lemma mapM_operand_to_key args : exists ks, mapM operand_to_key args = Some ks.
Proof.
  induction args as [|o args [ks IH]]; [by exists []|]. cbn. rewrite IH.
  destruct o as [|[]]; cbn; eauto.
Qed.

Lemma call_key_same f1 f2 a1 a2 k :
  forallb operand_valid a1 = true -> forallb operand_valid a2 = true ->
  make_call_key f1 a1 = Some k -> make_call_key f2 a2 = Some k -> f1 = f2 /\ a1 = a2.
Proof.
  unfold make_call_key. intros H1 H2.
  destruct (mapM operand_to_key a1) as [k1|] eqn:E1; [|done].
  destruct (mapM operand_to_key a2) as [k2|] eqn:E2; [|done]. cbn. intros [= <-] [= -> ->].
  split; [done|by eapply operands_to_key_inj].
Qed.

(* ------------------------------------------------------------------ *)
(** ** Reusing a result                                                *)
(* ------------------------------------------------------------------ *)

(** The contract of [@pure]: a result depends on the arguments only, and the
    world stays as it is. *)
Definition pure_callf `{MirLang} (pure_fns : gset string) (c : callf) : Prop :=
  forall name args w v w', name ∈ pure_fns -> c name args w = Done (v, w') ->
    w' = w /\ forall w2, c name args w2 = Done (v, w2).

(** A block in which no local that a remembered call reads or defines is
    written again: [prot] are the locals of the calls seen so far. *)
Fixpoint cse_safe (pure_fns : gset string) (prot : list LocalId) (insts : list Instruction) : bool :=
  match insts with
  | [] => true
  | inst :: rest =>
      forallb (fun d => bool_decide (d ∉ prot)) (inst_defs inst) &&
      match inst with
      | I_Assign dest (RV_Call callee args) =>
          if bool_decide (callee ∈ pure_fns) then
            bool_decide (dest ∉ operands_uses args) && forallb operand_valid args
            && cse_safe pure_fns (dest :: operands_uses args ++ prot) rest
          else cse_safe pure_fns prot rest
      | _ => cse_safe pure_fns prot rest
      end
  end.

Definition cse_ok (pure_fns : gset string) (f : MirFunction) : bool :=
  forallb (fun b => cse_safe pure_fns [] (bb_instructions b)) (f_blocks f).

Section Cse.
Context {M : MirLang} {CU : CopyUse M} (pure_fns : gset string).
Implicit Types (ρ : env) (w : world).

(** Each remembered call would now return what its destination holds. *)
Definition seen_ok (c : callf) (prot : list LocalId) (seen : list (PureCallKey * LocalId)) ρ : Prop :=
  forall key d, In (key, d) seen ->
    d ∈ prot /\
    exists callee args, make_call_key callee args = Some key /\ forallb operand_valid args = true
      /\ (forall x, x ∈ operands_uses args -> x ∈ prot)
      /\ forall w, c callee (map (operand_val ρ) args) w = Done (ρ d, w).

Lemma seen_ok_agree c prot seen ρ ρ' :
  seen_ok c prot seen ρ -> agree (fun x => x ∈ prot) ρ ρ' -> seen_ok c prot seen ρ'.
Proof.
  intros Hs Ha key d Hin. destruct (Hs key d Hin) as (Hd & callee & args & Hk & Hv & Hu & Hc).
  split; [done|]. exists callee, args. repeat split; try done. intros w.
  rewrite <-(Ha d Hd), <-(Hc w). f_equal. symmetry. apply (operands_val_agree _ _ _ _ Ha).
  intros x Hx. by apply Hu, list_elem_of_In.
Qed.

Lemma seen_ok_weaken c prot prot' seen ρ :
  (forall x, x ∈ prot -> x ∈ prot') -> seen_ok c prot seen ρ -> seen_ok c prot' seen ρ.
Proof.
  intros Hp Hs key d Hin. destruct (Hs key d Hin) as (Hd & callee & args & Hk & Hv & Hu & Hc).
  split; [auto|]. exists callee, args. repeat split; auto.
Qed.

Lemma lookup_key_in key seen d : lookup_key key seen = Some d -> In (key, d) seen.
Proof.
  unfold lookup_key. destruct (find _ seen) as [[k d']|] eqn:Hf; [|done]. intros [= <-].
  apply find_some in Hf as [Hin Hk%bool_decide_eq_true]. by subst k.
Qed.

(** An instruction that writes no protected local keeps them. *)
Lemma exec_inst_keeps c i (prot : list LocalId) ρ w ρ' w' :
  forallb (fun d => bool_decide (d ∉ prot)) (inst_defs i) = true ->
  exec_inst c i ρ w = Done (ρ', w') -> agree (fun x => x ∈ prot) ρ ρ'.
Proof.
  intros Hd Hex.
  assert (exists v, ρ' = upd_defs ρ (inst_defs i) v) as [v ->].
  { destruct i; cbn in Hex; apply res_bind_Done in Hex as ([v w1] & _ & [= <- <-]); by exists v. }
  intros x Hx. destruct (inst_defs_shape i) as [He|[d He]]; rewrite He in *; [done|].
  cbn in *. rewrite andb_true_r in Hd. apply bool_decide_eq_true in Hd.
  rewrite upd_ne; [done|]. by intros ->.
Qed.

Lemma exec_cse (c : callf) prot seen insts ρ w :
  pure_callf pure_fns c -> cse_safe pure_fns prot insts = true -> seen_ok c prot seen ρ ->
  exec_insts c (cse_instructions pure_fns seen insts) ρ w = exec_insts c insts ρ w.
Proof.
  intros Hpure. revert prot seen ρ w.
  induction insts as [|inst insts IH]; intros prot seen ρ w Hsafe Hseen; [done|].
  cbn [cse_safe] in Hsafe. apply andb_true_iff in Hsafe as [Hdefs Hsafe].
  assert (Hkeep : forall prot', cse_safe pure_fns prot' insts = true -> (forall x, x ∈ prot' <-> x ∈ prot) ->
    exec_insts c (inst :: cse_instructions pure_fns seen insts) ρ w = exec_insts c (inst :: insts) ρ w).
  { intros prot' Hs Hp. cbn [exec_insts].
    destruct (exec_inst c inst ρ w) as [[ρ' w']| |] eqn:Hex; cbn; try done.
    apply (IH prot'); [done|]. eapply seen_ok_weaken; [intros x; apply Hp|].
    eapply seen_ok_agree; [done|]. by eapply exec_inst_keeps. }
  assert (Hkeep' : cse_safe pure_fns prot insts = true ->
    exec_insts c (inst :: cse_instructions pure_fns seen insts) ρ w = exec_insts c (inst :: insts) ρ w)
    by (intros Hs; by apply (Hkeep prot)).
  destruct inst as [dest rv| | | | | | | | | | | | | | |]; try exact (Hkeep' Hsafe).
  destruct rv; try exact (Hkeep' Hsafe). cbn [cse_instructions].
  destruct (bool_decide (func ∈ pure_fns)) eqn:Hp; [|exact (Hkeep' Hsafe)].
  apply bool_decide_eq_true in Hp. rewrite !andb_true_iff, bool_decide_eq_true in Hsafe.
  destruct Hsafe as [[Hdest Hvalid] Hsafe]. clear Hkeep Hkeep'.
  destruct (mapM_operand_to_key args) as [ks Hks].
  assert (Hkey : make_call_key func args = Some (mkKey func ks)) by (unfold make_call_key; by rewrite Hks).
  rewrite Hkey. cbn in Hdefs. rewrite andb_true_r in Hdefs. apply bool_decide_eq_true in Hdefs.
  assert (Hupd : forall v, agree (fun x => x ∈ prot) ρ (upd ρ dest v)).
  { intros v x Hx. rewrite upd_ne; [done|]. by intros ->. }
  destruct (lookup_key (mkKey func ks) seen) as [prev|] eqn:Hlook; cbn [exec_insts exec_inst eval_rvalue].
  - apply lookup_key_in in Hlook.
    destruct (Hseen _ _ Hlook) as (_ & callee & args' & Hk' & Hv' & _ & Hc').
    destruct (call_key_same func callee args args' _ Hvalid Hv' Hkey Hk') as [<- <-].
    rewrite use_copies, Hc'. cbn. apply (IH (dest :: operands_uses args ++ prot)); [done|].
    eapply seen_ok_weaken; [|by eapply seen_ok_agree]. set_solver.
  - destruct (c func (map (operand_val ρ) args) w) as [[v w']| |] eqn:Hcall; cbn; try done.
    apply (IH (dest :: operands_uses args ++ prot)); [done|].
    intros key d [Hkd|Hin].
    + injection Hkd as <- <-. split; [by left|]. exists func, args. repeat split; try done; [set_solver|].
      intros w2. rewrite upd_eq. destruct (Hpure _ _ _ _ _ Hp Hcall) as [_ Hw2].
      rewrite <-(Hw2 w2). f_equal. apply (operands_val_agree (fun x => x <> dest)).
      * intros x Hx. by apply upd_ne.
      * intros x Hx%list_elem_of_In ->. done.
    + apply (seen_ok_weaken c prot (dest :: operands_uses args ++ prot) seen); [set_solver| |done].
      by eapply seen_ok_agree.
Qed.

Lemma frun_cse (c : nat -> callf) f n id ρ w :
  (forall k, pure_callf pure_fns (c k)) -> cse_ok pure_fns f = true ->
  frun c n (cse_pure_calls pure_fns f) id ρ w = frun c n f id ρ w.
Proof.
  intros Hpure Hok. revert id ρ w. induction n as [|n IH]; intros id ρ w; [done|]. cbn [frun].
  assert (find_block (cse_pure_calls pure_fns f) id
          = option_map (cse_block pure_fns) (find_block f id)) as ->
    by (by apply (find_map_key bb_id bb_id (cse_block pure_fns) (fun x => x))).
  destruct (find_block f id) as [b|] eqn:Hb; [|done]. apply find_block_In in Hb as [Hb _].
  cbn. rewrite (exec_cse (c n) []); [..|done].
  - destruct (exec_insts (c n) _ ρ w) as [[ρ' w']| |]; cbn; try done.
    destruct (exec_term _ ρ') as [[v|id']| |]; cbn; auto.
  - apply Hpure.
  - unfold cse_ok in Hok. rewrite forallb_forall in Hok. by apply Hok.
Qed.

Lemma cse_refined c f :
  (forall k, pure_callf pure_fns (c k)) -> cse_ok pure_fns f = true ->
  fun_refined (fun A => @eq (res A)) c f (cse_pure_calls pure_fns f).
Proof.
  intros Hpure Hok. split; [done|]. intros n args w. unfold fcall.
  assert (entry_id (cse_pure_calls pure_fns f) = entry_id f) as ->
    by (unfold entry_id; cbn; by destruct (f_blocks f)).
  destruct (entry_id f) as [id0|]; cbn; [|done]. by rewrite frun_cse.
Qed.

Lemma remove_dead_pure_calls_refined c f :
  (forall k, pure_callf pure_fns (c k)) ->
  fun_refined (@done_le) c f (remove_dead_pure_calls pure_fns f).
Proof.
  intros Hpure. split; [done|]. intros n args w.
  assert (remove_dead_pure_calls pure_fns f
          = filter_function f (keep_call pure_fns (fun_uses f))) as ->.
  { unfold remove_dead_pure_calls. rewrite collect_used_locals_eq. unfold Dce.collect_used_locals.
    by rewrite collected_blocks, union_empty_r_L. }
  apply fcall_filter. intros b i Hb Hi Hkeep k ρ w0 ρ' w' Hex.
  destruct i as [dest rv| | | | | | | | | | | | | | |]; try done. destruct rv; try done.
  cbn in Hkeep, Hex. apply negb_false_iff, andb_true_iff in Hkeep as [Hp Hd].
  apply bool_decide_eq_true in Hp. apply negb_true_iff, bool_decide_eq_false_1 in Hd.
  apply res_bind_Done in Hex as ([v w1] & Hv & [= <- <-]).
  destruct (Hpure _ _ _ _ _ _ Hp Hv) as [-> _]. split; [|done]. by apply agree_upd_dead.
Qed.
End Cse.

(** C32: when [@pure] functions keep their contract and no local of a
    remembered call is written again in its block, the pass preserves every
    call that returns. *)
Theorem optimize_pure_correct {M : MirLang} {CU : CopyUse M} m :
  (forall k, pure_callf (pure_names m) (calls (m_functions m) k)) ->
  forallb (cse_ok (pure_names m)) (m_functions m) = true ->
  forall n name args (w : world) r,
    call n (m_functions m) name args w = Done r ->
    call n (m_functions (optimize_pure m)) name args w = Done r.
Proof.
  intros Hpure Hok. unfold optimize_pure. destruct (bool_decide _); [done|].
  set (ps := pure_names m) in *. set (fs1 := map (cse_pure_calls ps) (m_functions m)).
  assert (Hcse : forall n name args w, call n (m_functions m) name args w = call n fs1 name args w).
  { intros n name args w. apply (call_pass (fun A => @eq (res A))).
    apply Forall2_fmap_r, Forall_Forall2_diag, List.Forall_forall. intros f Hf.
    apply cse_refined; [done|]. rewrite forallb_forall in Hok. by apply Hok. }
  intros n name args w r Hr. cbn. rewrite Hcse in Hr. revert r Hr. apply (call_pass (@done_le)).
  apply Forall2_fmap_r, Forall_Forall2_diag, List.Forall_forall. intros f Hf.
  apply remove_dead_pure_calls_refined. intros k nm vs w0 v w' Hnm Hc.
  unfold calls in *. rewrite <-Hcse in Hc. destruct (Hpure k nm vs w0 v w' Hnm Hc) as [-> Hw2].
  split; [done|]. intros w2. rewrite <-Hcse. apply Hw2.
Qed.

Lemma squares_pure k : pure_callf (H := clif_lang) {["square"]} (calls (m_functions squares) k).
Proof.
  intros name args w v w' ->%elem_of_singleton. unfold calls. rewrite call_fcall. cbn.
  unfold fcall. cbn. destruct k as [|k]; [done|]. cbn.
  destruct args as [|a args]; cbn; [by intros [= <- <-]|].
  destruct a; cbn; try done. all: by intros [= <- <-].
Qed.

Lemma optimize_pure_correct_witness :
  call (H := clif_lang) 2 (m_functions (optimize_pure squares)) "main" [] [] = Done (S_I64 25, []).
Proof.
  apply (optimize_pure_correct (M := clif_lang) squares); [|vm_compute; reflexivity|vm_compute; reflexivity].
  assert (pure_names squares = {["square"]}) as -> by (vm_compute; reflexivity). apply squares_pure.
Defined.

(** [fn main() { let mut x = 3; let a = square(x); x = 4; let b = square(x); return b }] *)
Definition reassigned : MirModule :=
  module_of
    [i64_function (plain_attrs false true) "square" 1 2
       [mkBlock 0%N [I_Assign 1%N (RV_BinOp Bin_Mul (loc 0%N) (loc 0%N))]
          (T_Return (Some (loc 1%N)))];
     i64_function (plain_attrs false false) "main" 0 3
       [mkBlock 0%N [I_Assign 0%N (RV_Use (int 3)); I_Assign 1%N (RV_Call "square" [loc 0%N]);
                     I_Assign 0%N (RV_Use (int 4)); I_Assign 2%N (RV_Call "square" [loc 0%N])]
          (T_Return (Some (loc 2%N)))]].

(** The table of remembered calls is not invalidated by an assignment: a
    call repeated after its argument variable changed returns the stale value. *)
Lemma cse_stale_after_reassignment :
  call (H := clif_lang) 2 (m_functions reassigned) "main" [] [] = Done (S_I64 16, [])
  /\ call (H := clif_lang) 2 (m_functions (optimize_pure reassigned)) "main" [] []
     = Done (S_I64 9, []).
Proof. split; vm_compute; reflexivity. Qed.
