(* ===== verification/Token.v ===== *)
(** Tokens of the Kryos lexer ([kryos-lexer/src/token.rs]) and source spans
    ([kryos-errors/src/lib.rs]). *)

From S2P Require Import Prelude Machine.

Inductive TokenKind :=
(* literals *)
| TK_Integer | TK_Float | TK_String | TK_StringPart | TK_InterpStart | TK_InterpEnd
| TK_Char | TK_True | TK_False | TK_None
(* identifiers *)
| TK_Ident | TK_TypeIdent
(* keywords *)
| TK_Let | TK_Mut | TK_Fn | TK_Return | TK_If | TK_Else | TK_Elif | TK_For | TK_While
| TK_Loop | TK_In | TK_Break | TK_Continue | TK_Struct | TK_Enum | TK_Impl | TK_Trait
| TK_Dyn | TK_Pub | TK_Use | TK_Extern | TK_As | TK_Mod | TK_Type | TK_Actor | TK_Spawn
| TK_Select | TK_Send | TK_Recv | TK_Chan | TK_Parallel | TK_Quantum | TK_Comptime
| TK_Unsafe | TK_Match | TK_And | TK_Or | TK_Not | TK_Try | TK_Catch | TK_Throw | TK_Async
| TK_Await | TK_Shared | TK_Weak | TK_Move
(* operators *)
| TK_Plus | TK_Minus | TK_Star | TK_Slash | TK_Percent | TK_Power | TK_At | TK_EqEq
| TK_BangEq | TK_Bang | TK_Lt | TK_Gt | TK_LtEq | TK_GtEq | TK_Eq | TK_PlusEq | TK_MinusEq
| TK_StarEq | TK_SlashEq | TK_PercentEq | TK_Amp | TK_AmpAmp | TK_Pipe | TK_PipePipe
| TK_Caret | TK_Tilde | TK_Shl | TK_Shr | TK_Hash | TK_Question
(* punctuation *)
| TK_Arrow | TK_FatArrow | TK_ColonColon | TK_DotDot | TK_DotDotEq | TK_Dot | TK_Colon
| TK_Semicolon | TK_Comma
(* grouping *)
| TK_LParen | TK_RParen | TK_LBrace | TK_RBrace | TK_LBracket | TK_RBracket
(* special *)
| TK_DocComment | TK_Newline | TK_Eof | TK_Error.

#[export] Instance token_kind_eq_dec : EqDecision TokenKind.
Proof. solve_decision. Defined.

(** All kinds, in declaration order. *)
Definition all_kinds : list TokenKind :=
  [TK_Integer; TK_Float; TK_String; TK_StringPart; TK_InterpStart; TK_InterpEnd; TK_Char;
   TK_True; TK_False; TK_None; TK_Ident; TK_TypeIdent; TK_Let; TK_Mut; TK_Fn; TK_Return;
   TK_If; TK_Else; TK_Elif; TK_For; TK_While; TK_Loop; TK_In; TK_Break; TK_Continue;
   TK_Struct; TK_Enum; TK_Impl; TK_Trait; TK_Dyn; TK_Pub; TK_Use; TK_Extern; TK_As; TK_Mod;
   TK_Type; TK_Actor; TK_Spawn; TK_Select; TK_Send; TK_Recv; TK_Chan; TK_Parallel;
   TK_Quantum; TK_Comptime; TK_Unsafe; TK_Match; TK_And; TK_Or; TK_Not; TK_Try; TK_Catch;
   TK_Throw; TK_Async; TK_Await; TK_Shared; TK_Weak; TK_Move; TK_Plus; TK_Minus; TK_Star;
   TK_Slash; TK_Percent; TK_Power; TK_At; TK_EqEq; TK_BangEq; TK_Bang; TK_Lt; TK_Gt;
   TK_LtEq; TK_GtEq; TK_Eq; TK_PlusEq; TK_MinusEq; TK_StarEq; TK_SlashEq; TK_PercentEq;
   TK_Amp; TK_AmpAmp; TK_Pipe; TK_PipePipe; TK_Caret; TK_Tilde; TK_Shl; TK_Shr; TK_Hash;
   TK_Question; TK_Arrow; TK_FatArrow; TK_ColonColon; TK_DotDot; TK_DotDotEq; TK_Dot;
   TK_Colon; TK_Semicolon; TK_Comma; TK_LParen; TK_RParen; TK_LBrace; TK_RBrace;
   TK_LBracket; TK_RBracket; TK_DocComment; TK_Newline; TK_Eof; TK_Error].

Definition is_keyword (k : TokenKind) : bool :=
  match k with
  | TK_Let | TK_Mut | TK_Fn | TK_Return | TK_If | TK_Else | TK_Elif | TK_For | TK_While
  | TK_Loop | TK_In | TK_Break | TK_Continue | TK_Struct | TK_Enum | TK_Impl | TK_Trait
  | TK_Dyn | TK_Pub | TK_Use | TK_Extern | TK_As | TK_Mod | TK_Type | TK_Actor | TK_Spawn
  | TK_Select | TK_Send | TK_Recv | TK_Chan | TK_Parallel | TK_Quantum | TK_Comptime
  | TK_Unsafe | TK_Match | TK_And | TK_Or | TK_Not | TK_Try | TK_Catch | TK_Throw
  | TK_Async | TK_Await | TK_Shared | TK_Weak | TK_Move | TK_True | TK_False | TK_None => true
  | _ => false
  end.

(** [impl fmt::Display for TokenKind] *)
Definition kind_display (k : TokenKind) : string :=
  match k with
  | TK_Integer => "integer literal"
  | TK_Float => "float literal"
  | TK_String => "string literal"
  | TK_StringPart => "string interpolation part"
  | TK_InterpStart => "interpolation start"
  | TK_InterpEnd => "interpolation end"
  | TK_Char => "character literal"
  | TK_True => "'true'"
  | TK_False => "'false'"
  | TK_None => "'none'"
  | TK_Ident => "identifier"
  | TK_TypeIdent => "type identifier"
  | TK_Let => "'let'"
  | TK_Mut => "'mut'"
  | TK_Fn => "'fn'"
  | TK_Return => "'return'"
  | TK_If => "'if'"
  | TK_Else => "'else'"
  | TK_Elif => "'elif'"
  | TK_For => "'for'"
  | TK_While => "'while'"
  | TK_Loop => "'loop'"
  | TK_In => "'in'"
  | TK_Break => "'break'"
  | TK_Continue => "'continue'"
  | TK_Struct => "'struct'"
  | TK_Enum => "'enum'"
  | TK_Impl => "'impl'"
  | TK_Trait => "'trait'"
  | TK_Dyn => "'dyn'"
  | TK_Pub => "'pub'"
  | TK_Use => "'use'"
  | TK_Extern => "'extern'"
  | TK_As => "'as'"
  | TK_Mod => "'mod'"
  | TK_Type => "'type'"
  | TK_Actor => "'actor'"
  | TK_Spawn => "'spawn'"
  | TK_Select => "'select'"
  | TK_Send => "'send'"
  | TK_Recv => "'recv'"
  | TK_Chan => "'chan'"
  | TK_Parallel => "'parallel'"
  | TK_Quantum => "'quantum'"
  | TK_Comptime => "'comptime'"
  | TK_Unsafe => "'unsafe'"
  | TK_Match => "'match'"
  | TK_And => "'and'"
  | TK_Or => "'or'"
  | TK_Not => "'not'"
  | TK_Try => "'try'"
  | TK_Catch => "'catch'"
  | TK_Throw => "'throw'"
  | TK_Async => "'async'"
  | TK_Await => "'await'"
  | TK_Shared => "'shared'"
  | TK_Weak => "'weak'"
  | TK_Move => "'move'"
  | TK_Plus => "'+'"
  | TK_Minus => "'-'"
  | TK_Star => "'*'"
  | TK_Slash => "'/'"
  | TK_Percent => "'%'"
  | TK_Power => "'**'"
  | TK_At => "'@'"
  | TK_EqEq => "'=='"
  | TK_BangEq => "'!='"
  | TK_Bang => "'!'"
  | TK_Lt => "'<'"
  | TK_Gt => "'>'"
  | TK_LtEq => "'<='"
  | TK_GtEq => "'>='"
  | TK_Eq => "'='"
  | TK_PlusEq => "'+='"
  | TK_MinusEq => "'-='"
  | TK_StarEq => "'*='"
  | TK_SlashEq => "'/='"
  | TK_PercentEq => "'%='"
  | TK_Amp => "'&'"
  | TK_AmpAmp => "'&&'"
  | TK_Pipe => "'|'"
  | TK_PipePipe => "'||'"
  | TK_Caret => "'^'"
  | TK_Tilde => "'~'"
  | TK_Shl => "'<<'"
  | TK_Shr => "'>>'"
  | TK_Hash => "'#'"
  | TK_Question => "'?'"
  | TK_Arrow => "'->'"
  | TK_FatArrow => "'=>'"
  | TK_ColonColon => "'::'"
  | TK_DotDot => "'..'"
  | TK_DotDotEq => "'..='"
  | TK_Dot => "'.'"
  | TK_Colon => "':'"
  | TK_Semicolon => "';'"
  | TK_Comma => "','"
  | TK_LParen => "'('"
  | TK_RParen => "')'"
  | TK_LBrace => "'{'"
  | TK_RBrace => "'}'"
  | TK_LBracket => "'['"
  | TK_RBracket => "']'"
  | TK_DocComment => "doc comment"
  | TK_Newline => "newline"
  | TK_Eof => "end of file"
  | TK_Error => "error"
  end.

(** A [match] on string literals, as its table. *)
Definition keyword_table : list (string * TokenKind) :=
  [("let", TK_Let); ("mut", TK_Mut); ("fn", TK_Fn); ("return", TK_Return); ("if", TK_If);
   ("else", TK_Else); ("elif", TK_Elif); ("for", TK_For); ("while", TK_While);
   ("loop", TK_Loop); ("in", TK_In); ("break", TK_Break); ("continue", TK_Continue);
   ("struct", TK_Struct); ("enum", TK_Enum); ("impl", TK_Impl); ("trait", TK_Trait);
   ("dyn", TK_Dyn); ("pub", TK_Pub); ("use", TK_Use); ("extern", TK_Extern); ("as", TK_As);
   ("mod", TK_Mod); ("type", TK_Type); ("true", TK_True); ("false", TK_False);
   ("none", TK_None); ("actor", TK_Actor); ("spawn", TK_Spawn); ("select", TK_Select);
   ("send", TK_Send); ("recv", TK_Recv); ("chan", TK_Chan); ("parallel", TK_Parallel);
   ("quantum", TK_Quantum); ("comptime", TK_Comptime); ("unsafe", TK_Unsafe);
   ("match", TK_Match); ("and", TK_And); ("or", TK_Or); ("not", TK_Not); ("try", TK_Try);
   ("catch", TK_Catch); ("throw", TK_Throw); ("async", TK_Async); ("await", TK_Await);
   ("shared", TK_Shared); ("weak", TK_Weak); ("move", TK_Move)].

Definition keyword_lookup (word : string) : option TokenKind :=
  option_map snd (find (fun e => String.eqb (fst e) word) keyword_table).

Definition is_builtin_type (name : string) : bool :=
  existsb (String.eqb name)
    ["i8"; "i16"; "i32"; "i64"; "i128"; "u8"; "u16"; "u32"; "u64"; "u128"; "f32"; "f64";
     "bool"; "str"; "char"; "usize"; "isize"; "Tensor"; "Vec"; "Map"; "Set"; "Option";
     "Result"; "Secret"; "Qubit"; "Qureg"].

Definition attribute_lookup (word : string) : bool :=
  existsb (String.eqb word)
    ["capabilities"; "compute"; "export"; "layout"; "real_time"; "no_std"; "zero_copy";
     "target"; "differentiable"; "test"; "bench"; "actor"; "budget"; "sandbox"; "repr";
     "copy"; "allocator"].

(** Byte offsets are [u32]. *)
Record Span := mkSpan { sp_file_id : Z; sp_start : Z; sp_end : Z }.

Definition dummy_span : Span := mkSpan 0 0 0.

(** The [debug_assert] on the file ids is checked in debug builds only. *)
Definition merge (a b : Span) : Span :=
  mkSpan (sp_file_id a) (Z.min (sp_start a) (sp_start b)) (Z.max (sp_end a) (sp_end b)).

(** A token; [t_text] holds the bytes of the Rust [String]. *)
Record Token := mkToken {
  t_kind : TokenKind;
  t_span : Span;
  t_text : list Z;
  t_newline_before : bool
}.

Definition dummy_token (k : TokenKind) : Token := mkToken k dummy_span [] false.

(* ------------------------------------------------------------------ *)
(** ** Keywords                                                        *)
(* ------------------------------------------------------------------ *)

Lemma keyword_lookup_in w k : keyword_lookup w = Some k -> In (w, k) keyword_table.
Proof.
  unfold keyword_lookup. destruct (find _ keyword_table) as [[w' k']|] eqn:Hf; [|done].
  intros [= <-]. apply find_some in Hf as [Hin Hw%String.eqb_eq]. cbn in *. by subst w'.
Qed.

Lemma string_app_inj_r (a b c : string) : (a ++ c)%string = (b ++ c)%string -> a = b.
Proof.
  intros He. apply list_ascii_of_string_inj. apply (f_equal list_ascii_of_string) in He.
  rewrite !list_ascii_of_string_app in He. by apply app_inv_tail in He.
Qed.

(** The table is consistent with the two other descriptions of a keyword. *)
Definition table_consistent (e : string * TokenKind) : bool :=
  let '(w, k) := e in
  is_keyword k && String.eqb (kind_display k) ("'" ++ w ++ "'")
  && bool_decide (keyword_lookup w = Some k).

(** a word is lexed as a keyword kind exactly when [is_keyword] holds of
    the kind and its [Display] text is the word in quotes: the three tables of
    the module describe one bijection between words and keyword kinds. *)
Lemma keyword_lookup_spec w k :
  keyword_lookup w = Some k <->
  is_keyword k = true /\ kind_display k = ("'" ++ w ++ "'")%string.
Proof.
  assert (Hall : forallb table_consistent keyword_table = true) by (vm_compute; reflexivity).
  rewrite forallb_forall in Hall. split.
  - intros Hk%keyword_lookup_in%Hall. cbn in Hk. rewrite !andb_true_iff in Hk.
    destruct Hk as [[Hkw He] _]. by apply String.eqb_eq in He.
  - intros [Hkw Hd].
    assert (exists v, In (v, k) keyword_table) as [v Hv].
    { destruct k; try discriminate Hkw; eexists; unfold keyword_table; cbn; eauto 60. }
    apply Hall in Hv. cbn in Hv. rewrite !andb_true_iff, bool_decide_eq_true in Hv.
    destruct Hv as [[_ He%String.eqb_eq] Hl]. rewrite Hd in He.
    injection He as He. by rewrite (string_app_inj_r w v _ He).
Qed.
