(* ===== verification/Utf8.v ===== *)
(** UTF-8 as the Rust standard library has it: [char::encode_utf8],
    [str::from_utf8], character boundaries and [str::trim_end], on bytes as
    integers of [0, 256). *)

From S2P Require Import Prelude Machine.

(** A Unicode scalar value: what a [char] holds. *)
Definition is_scalar (c : Z) : bool :=
  ((0 <=? c) && (c <? 0xD800)) || ((0xE000 <=? c) && (c <=? 0x10FFFF)).

Definition encode_utf8 (c : Z) : list Z :=
  if c <? 0x80 then [c]
  else if c <? 0x800 then [0xC0 + c / 64; 0x80 + c mod 64]
  else if c <? 0x10000 then [0xE0 + c / 4096; 0x80 + (c / 64) mod 64; 0x80 + c mod 64]
  else [0xF0 + c / 262144; 0x80 + (c / 4096) mod 64; 0x80 + (c / 64) mod 64; 0x80 + c mod 64].

Definition in_range (lo hi b : Z) : bool := (lo <=? b) && (b <=? hi).

(** A continuation byte: [10xxxxxx]. *)
Definition is_cont (b : Z) : bool := in_range 0x80 0xBF b.

(** The first character of a byte string, with its width, if its bytes are well
    formed (no overlong form, no surrogate, nothing above U+10FFFF). *)
Definition decode_char (l : list Z) : option (Z * nat) :=
  match l with
  | [] => None
  | b0 :: r =>
      if in_range 0 0x7F b0 then Some (b0, 1%nat)
      else match r with
      | [] => None
      | b1 :: r =>
          if in_range 0xC2 0xDF b0 then
            if is_cont b1 then Some ((b0 - 0xC0) * 64 + (b1 - 0x80), 2%nat) else None
          else match r with
          | [] => None
          | b2 :: r =>
              if in_range 0xE0 0xEF b0 then
                if in_range (if b0 =? 0xE0 then 0xA0 else 0x80) (if b0 =? 0xED then 0x9F else 0xBF) b1
                   && is_cont b2
                then Some ((b0 - 0xE0) * 4096 + (b1 - 0x80) * 64 + (b2 - 0x80), 3%nat) else None
              else match r with
              | [] => None
              | b3 :: _ =>
                  if in_range 0xF0 0xF4 b0
                     && in_range (if b0 =? 0xF0 then 0x90 else 0x80) (if b0 =? 0xF4 then 0x8F else 0xBF) b1
                     && is_cont b2 && is_cont b3
                  then Some ((b0 - 0xF0) * 262144 + (b1 - 0x80) * 4096 + (b2 - 0x80) * 64 + (b3 - 0x80),
                             4%nat)
                  else None
              end
          end
      end
  end.

Fixpoint chars_fuel (n : nat) (l : list Z) : option (list Z) :=
  match l with
  | [] => Some []
  | _ =>
      match n with
      | O => None
      | S n =>
          match decode_char l with
          | Some (c, k) => option_map (cons c) (chars_fuel n (drop k l))
          | None => None
          end
      end
  end.

(** [str::from_utf8] followed by [chars]: a character takes at least one byte. *)
Definition utf8_chars (l : list Z) : option (list Z) := chars_fuel (length l) l.

Definition utf8_valid (l : list Z) : bool := match utf8_chars l with Some _ => true | None => false end.

Definition encode_all (cs : list Z) : list Z := flat_map encode_utf8 cs.

(** [str::is_char_boundary] *)
Definition is_char_boundary (l : list Z) (i : nat) : bool :=
  Nat.eqb i 0 ||
  match l !! i with
  | Some b => negb (is_cont b)
  | None => Nat.eqb i (length l)
  end.

(** [char::is_whitespace]: the White_Space property. *)
Definition is_whitespace (c : Z) : bool :=
  in_range 0x09 0x0D c || (c =? 0x20) || (c =? 0x85) || (c =? 0xA0) || (c =? 0x1680)
  || in_range 0x2000 0x200A c || (c =? 0x2028) || (c =? 0x2029) || (c =? 0x202F)
  || (c =? 0x205F) || (c =? 0x3000).

Fixpoint drop_while {A} (p : A -> bool) (l : list A) : list A :=
  match l with [] => [] | a :: l' => if p a then drop_while p l' else l end.

(** [str::trim_end] *)
Definition trim_end (l : list Z) : list Z :=
  match utf8_chars l with
  | Some cs => encode_all (rev (drop_while is_whitespace (rev cs)))
  | None => l
  end.

(* ------------------------------------------------------------------ *)
(** ** Round trip                                                      *)
(* ------------------------------------------------------------------ *)

Lemma in_range_spec lo hi b : in_range lo hi b = true <-> lo <= b <= hi.
Proof. unfold in_range. rewrite andb_true_iff, !Z.leb_le. done. Qed.

Lemma in_range_false lo hi b : b < lo \/ hi < b -> in_range lo hi b = false.
Proof. unfold in_range. rewrite andb_false_iff, !Z.leb_gt. done. Qed.

Lemma is_scalar_spec c : is_scalar c = true <-> 0 <= c < 0xD800 \/ 0xE000 <= c <= 0x10FFFF.
Proof. unfold is_scalar. rewrite orb_true_iff, !andb_true_iff, !Z.leb_le, Z.ltb_lt. done. Qed.

#[local] Ltac Zify.zify_post_hook ::= Z.div_mod_to_equations.

Ltac range :=
  repeat first
    [ rewrite in_range_false by lia
    | match goal with
      | |- context [in_range ?lo ?hi ?b] =>
          rewrite (proj2 (in_range_spec lo hi b)) by (repeat case_match; lia)
      end ]; cbn [andb].

Lemma decode_encode c l :
  is_scalar c = true ->
  decode_char (encode_utf8 c ++ l) = Some (c, length (encode_utf8 c)).
Proof.
  rewrite is_scalar_spec. intros Hc. unfold encode_utf8, decode_char, is_cont.
  destruct (Z.ltb_spec c 0x80); [|destruct (Z.ltb_spec c 0x800); [|destruct (Z.ltb_spec c 0x10000)]];
    cbn [app]; range; cbn [length]; do 2 f_equal; lia.
Qed.

Lemma decode_char_spec l c k :
  decode_char l = Some (c, k) ->
  is_scalar c = true /\ k = length (encode_utf8 c) /\ l = encode_utf8 c ++ drop k l.
Proof.
  unfold decode_char, is_cont. rewrite is_scalar_spec.
  destruct l as [|b0 l]; [done|]. destruct (in_range 0 0x7F b0) eqn:H0.
  { apply in_range_spec in H0. intros [= <- <-]. unfold encode_utf8.
    destruct (Z.ltb_spec b0 0x80); [|lia]. split; [lia|]. split; [done|]. by destruct l. }
  destruct l as [|b1 l]; [done|]. destruct (in_range 0xC2 0xDF b0) eqn:H1.
  { apply in_range_spec in H1. destruct (in_range 0x80 0xBF b1) eqn:Hb1; [|done].
    apply in_range_spec in Hb1. intros [= <- <-]. unfold encode_utf8.
    destruct (Z.ltb_spec ((b0 - 0xC0) * 64 + (b1 - 0x80)) 0x80); [lia|].
    destruct (Z.ltb_spec ((b0 - 0xC0) * 64 + (b1 - 0x80)) 0x800); [|lia].
    split; [lia|]. split; [done|]. cbn [app drop]. repeat f_equal; try lia; by destruct l. }
  destruct l as [|b2 l]; [done|]. destruct (in_range 0xE0 0xEF b0) eqn:H2.
  { apply in_range_spec in H2. destruct (_ && _) eqn:Hb; [|done].
    apply andb_true_iff in Hb as [Hb1 Hb2]. apply in_range_spec in Hb1, Hb2.
    intros [= <- <-]. set (c := (b0 - 0xE0) * 4096 + (b1 - 0x80) * 64 + (b2 - 0x80)).
    assert (Hc : 0x800 <= c < 0xD800 \/ 0xE000 <= c < 0x10000).
    { unfold c. destruct (Z.eqb_spec b0 0xE0), (Z.eqb_spec b0 0xED); lia. }
    assert (Hr : 0x80 <= b1 <= 0xBF) by (destruct (Z.eqb b0 0xE0), (Z.eqb b0 0xED); lia).
    unfold encode_utf8. destruct (Z.ltb_spec c 0x80); [lia|]. destruct (Z.ltb_spec c 0x800); [lia|].
    destruct (Z.ltb_spec c 0x10000); [|lia]. unfold c in *.
    split; [lia|]. split; [done|]. cbn [app drop]. repeat f_equal; try lia; by destruct l. }
  destruct l as [|b3 l]; [done|]. destruct (_ && _) eqn:Hb; [|done].
  rewrite !andb_true_iff, !in_range_spec in Hb. destruct Hb as [[[Hb0 Hb1] Hb2] Hb3].
  intros [= <- <-].
  set (c := (b0 - 0xF0) * 262144 + (b1 - 0x80) * 4096 + (b2 - 0x80) * 64 + (b3 - 0x80)).
  assert (Hc : 0x10000 <= c <= 0x10FFFF).
  { unfold c. destruct (Z.eqb_spec b0 0xF0), (Z.eqb_spec b0 0xF4); lia. }
  assert (Hr : 0x80 <= b1 <= 0xBF) by (destruct (Z.eqb b0 0xF0), (Z.eqb b0 0xF4); lia).
  unfold encode_utf8. destruct (Z.ltb_spec c 0x80); [lia|]. destruct (Z.ltb_spec c 0x800); [lia|].
  destruct (Z.ltb_spec c 0x10000); [lia|]. unfold c in *.
  split; [lia|]. split; [done|]. cbn [app drop]. repeat f_equal; try lia; by destruct l.
Qed.

Lemma encode_utf8_length c : (1 <= length (encode_utf8 c) <= 4)%nat.
Proof. unfold encode_utf8. repeat case_match; cbn; lia. Qed.

Lemma chars_fuel_encode n cs :
  Forall (fun c => is_scalar c = true) cs -> (length (encode_all cs) <= n)%nat ->
  chars_fuel n (encode_all cs) = Some cs.
Proof.
  revert n. induction cs as [|c cs IH]; intros n Hcs Hn; [by destruct n|].
  inversion_clear Hcs as [|? ? Hc Hcs']. cbn [encode_all flat_map] in *.
  fold (encode_all cs) in *. rewrite length_app in Hn. pose proof (encode_utf8_length c).
  destruct n as [|n]; [lia|].
  assert (encode_utf8 c ++ encode_all cs <> []) by (destruct (encode_utf8 c); [cbn in *; lia|done]).
  cbn [chars_fuel]. destruct (encode_utf8 c ++ encode_all cs) eqn:He; [done|]. rewrite <-He.
  rewrite decode_encode by done. rewrite drop_app_length. by rewrite IH by (done || lia).
Qed.

Lemma chars_fuel_sound n l cs :
  chars_fuel n l = Some cs -> l = encode_all cs /\ Forall (fun c => is_scalar c = true) cs.
Proof.
  revert l cs. induction n as [|n IH]; intros l cs Hl; destruct l as [|b l]; cbn [chars_fuel] in Hl;
    try done; try (injection Hl as <-; done).
  destruct (decode_char (b :: l)) as [[c k]|] eqn:Hd; [|done].
  apply decode_char_spec in Hd as (Hc & _ & Heq).
  destruct (chars_fuel n (drop k (b :: l))) as [cs'|] eqn:Hr; [|done]. injection Hl as <-.
  apply IH in Hr as [Hr Hcs]. split; [|by constructor]. cbn [encode_all flat_map].
  fold (encode_all cs'). rewrite <-Hr. apply Heq.
Qed.

Definition scalars (cs : list Z) : Prop := Forall (fun c => is_scalar c = true) cs.

Lemma utf8_chars_encode cs : scalars cs -> utf8_chars (encode_all cs) = Some cs.
Proof. intros Hcs. by apply chars_fuel_encode. Qed.

Lemma utf8_chars_sound l cs : utf8_chars l = Some cs -> l = encode_all cs /\ scalars cs.
Proof. apply chars_fuel_sound. Qed.

Lemma utf8_valid_spec l : utf8_valid l = true <-> exists cs, l = encode_all cs /\ scalars cs.
Proof.
  unfold utf8_valid. split.
  - destruct (utf8_chars l) as [cs|] eqn:Hl; [|done]. intros _. exists cs. by apply utf8_chars_sound.
  - intros (cs & -> & Hcs). by rewrite utf8_chars_encode.
Qed.

(* ------------------------------------------------------------------ *)
(** ** Character boundaries                                            *)
(* ------------------------------------------------------------------ *)

Lemma encode_utf8_head c :
  is_scalar c = true -> exists b r, encode_utf8 c = b :: r /\ is_cont b = false
    /\ Forall (fun b => is_cont b = true) r /\ (c < 0x80 -> b = c /\ r = []) /\ (0x80 <= c -> 0x80 <= b).
Proof.
  rewrite is_scalar_spec. intros Hc. unfold encode_utf8, is_cont.
  destruct (Z.ltb_spec c 0x80); [|destruct (Z.ltb_spec c 0x800); [|destruct (Z.ltb_spec c 0x10000)]];
    do 2 eexists; (split; [reflexivity|]);
    (split; [apply in_range_false; lia|]);
    (split; [repeat constructor; apply in_range_spec; lia|]);
    (split; [intros ?; split; [lia|first [reflexivity|exfalso; lia]]|lia]).
Qed.

(** The lead byte tells the width. *)
Lemma encode_utf8_lead c b r :
  is_scalar c = true -> 0x80 <= c -> encode_utf8 c = b :: r ->
  (length (encode_utf8 c) = 2%nat /\ 0xC2 <= b <= 0xDF)
  \/ (length (encode_utf8 c) = 3%nat /\ 0xE0 <= b <= 0xEF)
  \/ (length (encode_utf8 c) = 4%nat /\ 0xF0 <= b <= 0xF4).
Proof.
  rewrite is_scalar_spec. intros Hs Hc. unfold encode_utf8. destruct (Z.ltb_spec c 0x80); [lia|].
  destruct (Z.ltb_spec c 0x800); [|destruct (Z.ltb_spec c 0x10000)]; intros [= <- _]; cbn [length]; lia.
Qed.

(** Position [i] is at the start of a character, or at the end. *)
Definition at_char (src : list Z) (i : nat) : Prop :=
  (i <= length src)%nat /\ exists cs, drop i src = encode_all cs /\ scalars cs.

Lemma at_char_0 src : utf8_valid src = true -> at_char src 0.
Proof. rewrite utf8_valid_spec. split; [lia|done]. Qed.

Lemma at_char_end src : at_char src (length src).
Proof. split; [lia|]. exists []. split; [by rewrite drop_all|constructor]. Qed.

(** A position whose byte does not continue a character starts one. *)
Lemma at_char_noncont src i b :
  utf8_valid src = true -> src !! i = Some b -> is_cont b = false -> at_char src i.
Proof.
  rewrite utf8_valid_spec. intros (cs & -> & Hcs). revert i.
  induction Hcs as [|c cs Hc Hcs IH]; intros i Hi Hb; [done|].
  cbn [encode_all flat_map] in *. fold (encode_all cs) in *.
  destruct (encode_utf8_head c Hc) as (b0 & r & He & _ & Hr & _ & _).
  destruct (decide (i < length (encode_utf8 c))%nat) as [Hlt|Hge].
  - rewrite lookup_app_l in Hi by done. destruct i as [|i].
    + split; [lia|]. exists (c :: cs). rewrite drop_0. split; [done|by constructor].
    + rewrite He in Hi. cbn in Hi. eapply Forall_lookup_1 in Hr; [|done]. congruence.
  - rewrite lookup_app_r in Hi by lia. destruct (IH _ Hi Hb) as [Hlen (cs' & Hd & Hcs')].
    split; [rewrite length_app; lia|]. exists cs'. split; [|done].
    rewrite <-Hd, drop_app_ge by lia. done.
Qed.

Lemma at_char_boundary src i : at_char src i -> is_char_boundary src i = true.
Proof.
  intros [Hlen (cs & Hd & Hcs)]. unfold is_char_boundary. apply orb_true_iff. right.
  destruct (src !! i) as [b|] eqn:Hb.
  - destruct Hcs as [|c cs Hc Hcs].
    + apply (f_equal length) in Hd. rewrite length_drop in Hd. cbn in Hd.
      apply lookup_lt_Some in Hb. lia.
    + destruct (encode_utf8_head c Hc) as (b0 & r & He & Hb0 & _).
      assert (src !! i = Some b0) as Hb'; [|by simplify_eq; rewrite Hb0].
      rewrite <-(Nat.add_0_r i), <-lookup_drop, Hd. cbn. by rewrite He.
  - apply lookup_ge_None in Hb. apply Nat.eqb_eq. lia.
Qed.

(** The character at a position. *)
Lemma at_char_next src i b :
  at_char src i -> src !! i = Some b ->
  exists c cs, drop i src = encode_utf8 c ++ encode_all cs /\ is_scalar c = true /\ scalars cs
    /\ at_char src (i + length (encode_utf8 c)) /\ head (encode_utf8 c) = Some b.
Proof.
  intros [Hlen (cs & Hd & Hcs)] Hb. destruct Hcs as [|c cs Hc Hcs].
  { apply (f_equal length) in Hd. rewrite length_drop in Hd. cbn in Hd.
    apply lookup_lt_Some in Hb. lia. }
  exists c, cs. cbn [encode_all flat_map] in Hd. fold (encode_all cs) in Hd.
  split; [done|]. split; [done|]. split; [done|]. split.
  - split.
    + apply (f_equal length) in Hd. rewrite length_drop, length_app in Hd. lia.
    + exists cs. split; [|done]. rewrite <-drop_drop, Hd. apply drop_app_length.
  - rewrite <-(Nat.add_0_r i), <-lookup_drop, Hd in Hb.
    destruct (encode_utf8_head c Hc) as (b0 & r & He & _). rewrite He in *. done.
Qed.

Lemma at_char_ascii src i b :
  at_char src i -> src !! i = Some b -> b < 0x80 -> at_char src (S i).
Proof.
  intros Hi Hb Hlt. destruct (at_char_next src i b Hi Hb) as (c & cs & Hd & Hc & _ & Hn & Hh).
  destruct (encode_utf8_head c Hc) as (b0 & r & He & _ & _ & Hsmall & Hbig).
  rewrite He in *. cbn in Hh. injection Hh as ->.
  assert (c < 0x80) as Hc80 by (destruct (Z.lt_ge_cases c 0x80); [done|]; specialize (Hbig ltac:(done)); lia).
  destruct (Hsmall Hc80) as [_ ->]. cbn in Hn. by rewrite Nat.add_1_r in Hn.
Qed.
