(* ===== verification/Text.v ===== *)
(** The operations of the Rust standard library on [str] that the lexer and the
    package manager use. A [str] is the list of its bytes. *)

From S2P Require Import Prelude Machine Utf8.

Abbreviation str := (list Z).

(** [b'x'] *)
Definition chr (s : string) : Z :=
  match s with String a _ => Z.of_N (N_of_ascii a) | EmptyString => 0 end.

(** The bytes of a string, and the string of bytes. *)
Definition bytes (s : string) : str := map (fun a => Z.of_N (N_of_ascii a)) (list_ascii_of_string s).
Definition string_of_bytes (l : str) : string :=
  string_of_list_ascii (map (fun b => ascii_of_N (Z.to_N b)) l).

(** [u8::is_ascii_digit] *)
Definition is_digit (b : Z) : bool := in_range (chr "0") (chr "9") b.

(** [s.strip_prefix(p)] *)
Fixpoint strip_prefix (p s : str) : option str :=
  match p, s with
  | [], _ => Some s
  | a :: p, b :: s => if a =? b then strip_prefix p s else None
  | _ :: _, [] => None
  end.

Definition starts_with (p s : str) : bool := bool_decide (is_Some (strip_prefix p s)).

(** [s.find(c)] for an ASCII [c], with the text on both sides of the match. *)
Fixpoint split_first (c : Z) (s : str) : option (str * str) :=
  match s with
  | [] => None
  | b :: r => if b =? c then Some ([], r) else prod_map (cons b) id <$> split_first c r
  end.

(** [s.rfind(c)], likewise. *)
Fixpoint split_last (c : Z) (s : str) : option (str * str) :=
  match s with
  | [] => None
  | b :: r =>
      match split_last c r with
      | Some (x, y) => Some (b :: x, y)
      | None => if b =? c then Some ([], r) else None
      end
  end.

(** [s.split(c)]: one piece more than there are separators. *)
Fixpoint split (c : Z) (s : str) : list str :=
  match s with
  | [] => [[]]
  | b :: r =>
      if b =? c then [] :: split c r
      else match split c r with p :: ps => (b :: p) :: ps | [] => [[b]] end
  end.

(** [s.trim()] *)
Definition trim (s : str) : str :=
  match utf8_chars s with
  | Some cs => encode_all (rev (drop_while is_whitespace (rev (drop_while is_whitespace cs))))
  | None => s
  end.

(** One digit of [u64::from_str]: [checked_mul], then [checked_add]. *)
Definition parse_digit (acc : option Z) (b : Z) : option Z :=
  n ← acc;
  if is_digit b && (n * 10 + (b - chr "0") <? 2 ^ 64) then Some (n * 10 + (b - chr "0")) else None.

(** [s.parse::<u64>()]: an optional plus sign, then at least one digit. *)
Definition parse_u64 (s : str) : option Z :=
  match s with
  | [] => None
  | b :: r =>
      match (if b =? chr "+" then r else s) with
      | [] => None
      | ds => foldl parse_digit (Some 0) ds
      end
  end.

Fixpoint print_digits (fuel : nat) (n : Z) (acc : str) : str :=
  match fuel with
  | O => acc
  | S fuel =>
      let acc := (chr "0" + n mod 10) :: acc in
      if n <? 10 then acc else print_digits fuel (n / 10) acc
  end.

(** [u64]'s [Display]: at most twenty digits. *)
Definition print_u64 (n : Z) : str := print_digits 20 n [].

(** [str::cmp]: lexicographic on bytes. *)
Fixpoint str_cmp (a b : str) : comparison :=
  match a, b with
  | [], [] => Eq
  | [], _ :: _ => Lt
  | _ :: _, [] => Gt
  | x :: a, y :: b => match x ?= y with Eq => str_cmp a b | c => c end
  end.

(* ------------------------------------------------------------------ *)
(** ** Laws                                                            *)
(* ------------------------------------------------------------------ *)

Lemma bytes_app a b : bytes (a ++ b) = bytes a ++ bytes b.
Proof. unfold bytes. by rewrite list_ascii_of_string_app, map_app. Qed.

Lemma strip_prefix_app p s : strip_prefix p (p ++ s) = Some s.
Proof. induction p as [|a p IH]; cbn; [done|]. by rewrite Z.eqb_refl. Qed.

Lemma strip_prefix_Some p s r : strip_prefix p s = Some r <-> s = p ++ r.
Proof.
  split; [|intros ->; apply strip_prefix_app].
  revert s. induction p as [|a p IH]; intros [|b s]; cbn; [congruence..|].
  destruct (Z.eqb_spec a b) as [-> |]; [|done]. intros He. f_equal. by apply IH.
Qed.

Lemma split_first_app c a b : c ∉ a -> split_first c (a ++ c :: b) = Some (a, b).
Proof.
  induction a as [|x a IH]; cbn; intros Hc; [by rewrite Z.eqb_refl|].
  rewrite not_elem_of_cons in Hc. rewrite (proj2 (Z.eqb_neq x c)) by (intros ->; tauto).
  by rewrite IH by tauto.
Qed.

Lemma split_first_None c a : c ∉ a -> split_first c a = None.
Proof.
  induction a as [|x a IH]; cbn; intros Hc; [done|].
  rewrite not_elem_of_cons in Hc. rewrite (proj2 (Z.eqb_neq x c)) by (intros ->; tauto).
  by rewrite IH by tauto.
Qed.

Lemma split_last_None c a : c ∉ a -> split_last c a = None.
Proof.
  induction a as [|x a IH]; cbn; intros Hc; [done|].
  rewrite not_elem_of_cons in Hc. rewrite IH by tauto.
  by rewrite (proj2 (Z.eqb_neq x c)) by (intros ->; tauto).
Qed.

Lemma split_last_app c a b : c ∉ b -> split_last c (a ++ c :: b) = Some (a, b).
Proof.
  intros Hc. induction a as [|x a IH]; cbn; [|by rewrite IH].
  by rewrite split_last_None, Z.eqb_refl.
Qed.

Lemma split_none c a : c ∉ a -> split c a = [a].
Proof.
  induction a as [|x a IH]; cbn; intros Hc; [done|].
  rewrite not_elem_of_cons in Hc. rewrite (proj2 (Z.eqb_neq x c)) by (intros ->; tauto).
  by rewrite IH by tauto.
Qed.

Lemma split_app c a b : c ∉ a -> split c (a ++ c :: b) = a :: split c b.
Proof.
  induction a as [|x a IH]; cbn; intros Hc; [by rewrite Z.eqb_refl|].
  rewrite not_elem_of_cons in Hc. rewrite (proj2 (Z.eqb_neq x c)) by (intros ->; tauto).
  by rewrite IH by tauto.
Qed.

(** *** Decimal numbers *)

Definition digits (l : str) : Prop := Forall (fun b => is_digit b = true) l.

Lemma is_digit_spec b : is_digit b = true <-> 48 <= b <= 57.
Proof. apply in_range_spec. Qed.

Lemma digit_not_ws b : 48 <= b <= 57 -> is_whitespace b = false.
Proof.
  intros Hb. unfold is_whitespace.
  rewrite (in_range_false 0x09 0x0D), (in_range_false 0x2000 0x200A) by lia.
  repeat rewrite (proj2 (Z.eqb_neq b _)) by lia. done.
Qed.

Lemma digits_not_in l b : digits l -> is_digit b = false -> b ∉ l.
Proof. unfold digits. rewrite Forall_forall. intros Hl Hb Hin%Hl. congruence. Qed.

Lemma foldl_parse_None l : foldl parse_digit None l = None.
Proof. by induction l. Qed.

Lemma print_digits_spec fuel n acc :
  (0 < fuel)%nat -> 0 <= n < 10 ^ Z.of_nat fuel ->
  exists ds, print_digits fuel n acc = ds ++ acc /\ ds <> [] /\ digits ds
    /\ (n < 2 ^ 64 -> foldl parse_digit (Some 0) ds = Some n).
Proof.
  revert n acc. induction fuel as [|fuel IH]; intros n acc Hf Hn; [lia|].
  assert (Hd : forall k, 0 <= k < 10 -> is_digit (chr "0" + k) = true)
    by (intros k Hk; apply is_digit_spec; cbn; lia).
  assert (Hstep : forall m k, 0 <= k < 10 -> m * 10 + k < 2 ^ 64 ->
    parse_digit (Some m) (chr "0" + k) = Some (m * 10 + k)).
  { intros m k Hk Hm. unfold parse_digit. cbn [mbind option_bind]. rewrite Hd by done.
    replace (chr "0" + k - chr "0") with k by lia. by rewrite (proj2 (Z.ltb_lt _ _)). }
  cbn [print_digits]. destruct (Z.ltb_spec n 10) as [Hlt|Hge].
  - rewrite (Z.mod_small n 10) by lia. exists [chr "0" + n]. split_and!; try done.
    + constructor; [|done]. apply Hd. lia.
    + intros _. apply (Hstep 0 n); lia.
  - assert (Hq : 0 <= n / 10 < 10 ^ Z.of_nat fuel).
    { split; [apply Z.div_pos; lia|]. apply Z.div_lt_upper_bound; [lia|].
      rewrite Nat2Z.inj_succ, Z.pow_succ_r in Hn by lia. lia. }
    assert (Hm : 0 <= n mod 10 < 10) by (apply Z.mod_pos_bound; lia).
    assert (fuel <> O) by (intros ->; cbn in Hq; assert (1 <= n / 10) by (apply Z.div_le_lower_bound; lia); lia).
    destruct (IH (n / 10) ((chr "0" + n mod 10) :: acc) ltac:(lia) Hq) as (ds & He & Hne & Hds & Hp).
    exists (ds ++ [chr "0" + n mod 10]). split_and!.
    + by rewrite He, <-app_assoc.
    + by destruct ds.
    + apply Forall_app. split; [done|]. constructor; [|done]. by apply Hd.
    + intros Hb. pose proof (Z.div_mod n 10 ltac:(lia)). rewrite foldl_app, Hp by lia. cbn [foldl].
      rewrite Hstep by lia. f_equal. lia.
Qed.

(** What the formatting of a [u64] looks like. *)
Lemma print_u64_spec n :
  0 <= n < 2 ^ 64 -> print_u64 n <> [] /\ digits (print_u64 n) /\ parse_u64 (print_u64 n) = Some n.
Proof.
  intros Hn. destruct (print_digits_spec 20 n [] ltac:(lia)) as (ds & He & Hne & Hds & Hp).
  { cbn. lia. }
  unfold print_u64. rewrite He, app_nil_r. split_and!; [done|done|].
  destruct ds as [|b ds]; [done|]. unfold parse_u64.
  assert (Hb : is_digit b = true) by (by inversion Hds).
  apply is_digit_spec in Hb. rewrite (proj2 (Z.eqb_neq _ _)) by (cbn; lia). apply Hp. lia.
Qed.

Lemma parse_u64_bounds s n : parse_u64 s = Some n -> 0 <= n < 2 ^ 64.
Proof.
  assert (Hfold : forall ds acc, 0 <= acc < 2 ^ 64 -> foldl parse_digit (Some acc) ds = Some n ->
    0 <= n < 2 ^ 64).
  { induction ds as [|b ds IH]; intros acc Hacc; cbn [foldl]; [naive_solver|].
    unfold parse_digit at 2. cbn [mbind option_bind].
    destruct (is_digit b && _) eqn:Hb; [|by rewrite foldl_parse_None].
    apply andb_true_iff in Hb as [Hd%is_digit_spec Hlt%Z.ltb_lt]. apply IH. cbn in *. lia. }
  unfold parse_u64. destruct s as [|b r]; [done|].
  destruct (if b =? chr "+" then r else b :: r); [done|]. apply Hfold. lia.
Qed.

(** *** Trimming *)

Definition last_not_ws (cs : list Z) : Prop :=
  match last cs with Some c => is_whitespace c = false | None => False end.
Definition first_not_ws (cs : list Z) : Prop :=
  match cs with c :: _ => is_whitespace c = false | [] => False end.

Lemma trim_id cs :
  scalars cs -> first_not_ws cs -> last_not_ws cs -> trim (encode_all cs) = encode_all cs.
Proof.
  intros Hcs Hf Hl. unfold trim. rewrite utf8_chars_encode by done.
  assert (drop_while is_whitespace cs = cs) as ->
    by (destruct cs as [|c cs]; cbn in *; [done|by rewrite Hf]).
  assert (drop_while is_whitespace (rev cs) = rev cs) as ->; [|by rewrite rev_involutive].
  unfold last_not_ws in Hl. destruct cs as [|c cs _] using rev_ind; [done|].
  rewrite last_snoc in Hl. rewrite rev_app_distr. cbn. by rewrite Hl.
Qed.

Lemma encode_all_app a b : encode_all (a ++ b) = encode_all a ++ encode_all b.
Proof. apply flat_map_app. Qed.

(** ASCII text is its own list of characters. *)
Lemma ascii_chars l : Forall (fun b => 0 <= b < 0x80) l -> encode_all l = l /\ scalars l.
Proof.
  induction 1 as [|b l Hb Hl [IH Hs]]; [split; [done|constructor]|]. split.
  - change (encode_all (b :: l)) with (encode_utf8 b ++ encode_all l). rewrite IH.
    unfold encode_utf8. by rewrite (proj2 (Z.ltb_lt _ _)) by lia.
  - constructor; [|done]. apply is_scalar_spec. lia.
Qed.

(** *** Order *)

Lemma str_cmp_eq a b : str_cmp a b = Eq <-> a = b.
Proof.
  revert b. induction a as [|x a IH]; intros [|y b]; cbn; try naive_solver.
  destruct (Z.compare_spec x y) as [-> | |]; [rewrite IH; naive_solver|split; [done|intros [= -> ->]; lia]..].
Qed.

Lemma str_cmp_antisym a b : str_cmp b a = CompOpp (str_cmp a b).
Proof.
  revert b. induction a as [|x a IH]; intros [|y b]; cbn; try done.
  rewrite (Z.compare_antisym x y). destruct (x ?= y); cbn; auto.
Qed.

Lemma str_cmp_trans a b c : str_cmp a b = Lt -> str_cmp b c = Lt -> str_cmp a c = Lt.
Proof.
  revert b c. induction a as [|x a IH]; intros [|y b] [|z c]; cbn; try done.
  destruct (Z.compare_spec x y), (Z.compare_spec y z), (Z.compare_spec x z); try done; try lia. apply IH.
Qed.
