(* ===== verification/Lexer.v ===== *)
(** The lexer ([kryos-lexer/src/lexer.rs]).

    A source is its list of bytes; the lexer's mutable fields are the record
    [Lexer], threaded through the functions. Slicing and indexing that can panic
    in Rust give [Panic] here. The mutual recursion of [scan_token] and
    [scan_string] is bounded by the argument [levels]: the native stack the
    recursion needs; the other loops carry a fuel of one round per byte. *)

From S2P Require Import Prelude Machine Token Utf8 Text.

Definition quote : Z := 34.
Definition apostrophe : Z := 39.
Definition backslash : Z := 92.
Definition newline : Z := 10.

Definition MAX_INTERP_DEPTH : nat := 64.

(** The diagnostics the lexer builds, their texts left out: a label's span and
    the data the message quotes. *)
Inductive Diagnostic :=
| D_UnterminatedBlockComment (span : Span)
| D_NonAsciiSource (span : Span)
| D_InterpolationTooDeep (span : Span)
| D_DollarBeforeInterpolation (span : Span)
| D_InvalidInterpolationCharacter (span : Span) (text : list Z)
| D_UnknownEscape (span : Span) (c : Z)
| D_UnterminatedString (span : Span) (has_interpolation : bool)
| D_EmptyChar (span : Span)
| D_UnterminatedChar (span : Span)
| D_LongChar (span : Span)
| D_MissingExponent (span : Span)
| D_NonAsciiIdentifier (span : Span).

Record Lexer := mkLexer {
  pos : nat;
  tokens : list Token;
  diagnostics : list Diagnostic;
  last_token_end : nat;
  interp_depth : nat
}.

Definition new_lexer : Lexer := mkLexer 0 [] [] 0 0.

Definition set_pos (st : Lexer) (p : nat) : Lexer :=
  mkLexer p (tokens st) (diagnostics st) (last_token_end st) (interp_depth st).
Definition emit_diag (st : Lexer) (d : Diagnostic) : Lexer :=
  mkLexer (pos st) (tokens st) (diagnostics st ++ [d]) (last_token_end st) (interp_depth st).
Definition set_interp_depth (st : Lexer) (n : nat) : Lexer :=
  mkLexer (pos st) (tokens st) (diagnostics st) (last_token_end st) n.

(** Byte classes. *)
Definition is_hexdigit (b : Z) : bool :=
  is_digit b || in_range (chr "a") (chr "f") b || in_range (chr "A") (chr "F") b.
Definition is_alpha (b : Z) : bool :=
  in_range (chr "a") (chr "z") b || in_range (chr "A") (chr "Z") b.
Definition is_alphanumeric (b : Z) : bool := is_alpha b || is_digit b.
Definition is_underscore (b : Z) : bool := b =? chr "_".
Definition is_ws (b : Z) : bool := (b =? 32) || (b =? 9) || (b =? 13) || (b =? newline).

Definition not_newline (b : Z) : bool := negb (b =? newline).

Fixpoint take_while {A} (p : A -> bool) (l : list A) : list A :=
  match l with [] => [] | a :: l' => if p a then a :: take_while p l' else [] end.

(** The arms of [scan_token] that emit a one-byte token. *)
Definition single_tokens : list (Z * TokenKind) :=
  [(chr "(", TK_LParen); (chr ")", TK_RParen); (chr "{", TK_LBrace); (chr "}", TK_RBrace);
   (chr "[", TK_LBracket); (chr "]", TK_RBracket); (chr ";", TK_Semicolon); (chr ",", TK_Comma);
   (chr "~", TK_Tilde); (chr "@", TK_At); (chr "#", TK_Hash); (chr "?", TK_Question);
   (chr "^", TK_Caret)].

(** The arms that try second bytes in turn: (first, [(second, kind)], kind alone). *)
Definition operator_tokens : list (Z * (list (Z * TokenKind) * TokenKind)) :=
  [(chr "&", ([(chr "&", TK_AmpAmp)], TK_Amp));
   (chr "+", ([(chr "=", TK_PlusEq)], TK_Plus));
   (chr "-", ([(chr ">", TK_Arrow); (chr "=", TK_MinusEq)], TK_Minus));
   (chr "*", ([(chr "*", TK_Power); (chr "=", TK_StarEq)], TK_Star));
   (chr "/", ([(chr "=", TK_SlashEq)], TK_Slash));
   (chr "%", ([(chr "=", TK_PercentEq)], TK_Percent));
   (chr "=", ([(chr "=", TK_EqEq); (chr ">", TK_FatArrow)], TK_Eq));
   (chr "!", ([(chr "=", TK_BangEq)], TK_Bang));
   (chr "<", ([(chr "=", TK_LtEq); (chr "<", TK_Shl)], TK_Lt));
   (chr ">", ([(chr "=", TK_GtEq); (chr ">", TK_Shr)], TK_Gt));
   (chr "|", ([(chr "|", TK_PipePipe)], TK_Pipe));
   (chr ":", ([(chr ":", TK_ColonColon)], TK_Colon))].

Definition assoc {A} (k : Z) (l : list (Z * A)) : option A :=
  option_map snd (find (fun e => fst e =? k) l).

(** The escapes of string literals; any other byte is kept with its backslash. *)
Definition unescape_string (esc : Z) : list Z :=
  if esc =? chr "n" then [10] else if esc =? chr "t" then [9] else if esc =? chr "r" then [13]
  else if esc =? backslash then [backslash] else if esc =? quote then [quote]
  else if esc =? chr "0" then [0] else if esc =? chr "{" then [chr "{"]
  else if esc =? chr "}" then [chr "}"]
  else [backslash; esc].

(** The escapes of character literals; any other byte is read as a code point. *)
Definition unescape_char (esc : Z) : Z :=
  if esc =? chr "n" then 10 else if esc =? chr "t" then 9 else if esc =? chr "r" then 13
  else if esc =? backslash then backslash else if esc =? apostrophe then apostrophe
  else if esc =? chr "0" then 0 else esc.

Section Lex.
Context (src : list Z) (file_id : Z).

Definition span (a b : nat) : Span := mkSpan file_id (as_u32 (Z.of_nat a)) (as_u32 (Z.of_nat b)).

Definition at_end (st : Lexer) : bool := (length src <=? pos st)%nat.
Definition peek_at (st : Lexer) (offset : nat) : Z := default 0 (src !! (pos st + offset)%nat).
Definition peek (st : Lexer) : Z := peek_at st 0.

Definition advance (st : Lexer) : Z * Lexer :=
  if at_end st then (0, st) else (peek st, set_pos st (S (pos st))).
(** [self.advance();] *)
Definition skip (st : Lexer) : Lexer := snd (advance st).

Definition replacement : Z := 0xFFFD.

Definition utf8_width (b0 : Z) : option nat :=
  if in_range 0xC2 0xDF b0 then Some 2%nat
  else if in_range 0xE0 0xEF b0 then Some 3%nat
  else if in_range 0xF0 0xF4 b0 then Some 4%nat
  else None.

Definition advance_utf8 (st : Lexer) : res (Z * Lexer) :=
  if at_end st then Done (replacement, st)
  else
    let b0 := peek st in
    if b0 <? 0x80 then Done (b0, set_pos st (S (pos st)))
    else match utf8_width b0 with
    | None => Done (replacement, set_pos st (S (pos st)))
    | Some width =>
        if (length src <? pos st + width)%nat then Done (replacement, set_pos st (S (pos st)))
        else match utf8_chars (take width (drop (pos st) src)) with
        | Some (ch :: _) => Done (ch, set_pos st (pos st + width))
        | Some [] => Panic
        | None => Done (replacement, set_pos st (S (pos st)))
        end
    end.

Definition match_char (expected : Z) (st : Lexer) : bool * Lexer :=
  if at_end st || negb (peek st =? expected) then (false, st)
  else (true, set_pos st (S (pos st))).

(** [bytes[a..b]] and [src[a..b]]. *)
Definition slice_bytes (a b : nat) : res (list Z) :=
  if ((a <=? b) && (b <=? length src))%nat then Done (take (b - a) (drop a src)) else Panic.
Definition slice_str (a b : nat) : res (list Z) :=
  if is_char_boundary src a && is_char_boundary src b then slice_bytes a b else Panic.

Definition emit (kind : TokenKind) (start end_ : nat) (text : list Z) (st : Lexer) : res Lexer :=
  gap ← slice_bytes (last_token_end st) (Nat.max start (last_token_end st));
  let newline_before := existsb (Z.eqb newline) gap in
  Done (mkLexer (pos st) (tokens st ++ [mkToken kind (span start end_) text newline_before])
          (diagnostics st) end_ (interp_depth st)).

(** [while !self.at_end() && p(self.peek()) { self.advance(); }] *)
Definition skip_while (p : Z -> bool) (st : Lexer) : Lexer :=
  set_pos st (pos st + length (take_while p (drop (pos st) src)))%nat.

(** The block-comment loop on the rest of the source: bytes consumed, final depth. *)
Fixpoint block_comment (l : list Z) (depth : nat) : nat * nat :=
  match depth, l with
  | O, _ => (O, O)
  | _, [] => (O, depth)
  | S d, b :: r =>
      match r with
      | c :: r' =>
          if (b =? chr "/") && (c =? chr "*") then
            let '(n, dep) := block_comment r' (S depth) in (S (S n), dep)
          else if (b =? chr "*") && (c =? chr "/") then
            let '(n, dep) := block_comment r' d in (S (S n), dep)
          else let '(n, dep) := block_comment r depth in (S n, dep)
      | [] => (1%nat, depth)
      end
  end.

(** One round per byte always suffices. *)
Definition loop_fuel : nat := S (length src).

Fixpoint skip_whitespace_and_comments (fuel : nat) (st : Lexer) : res Lexer :=
  match fuel with
  | O => OutOfFuel
  | S n =>
      let st := skip_while is_ws st in
      if at_end st then Done st
      else if (peek st =? chr "/") && (peek_at st 1 =? chr "/") then
        if (peek_at st 2 =? chr "/") && negb (peek_at st 3 =? chr "/") then
          let start := pos st in
          let st := skip (skip (skip st)) in
          let st := if negb (at_end st) && (peek st =? 32) then skip st else st in
          let content_start := pos st in
          let st := skip_while not_newline st in
          content ← slice_str content_start (pos st);
          st ← emit TK_DocComment start (pos st) (trim_end content) st;
          skip_whitespace_and_comments n st
        else skip_whitespace_and_comments n (skip_while not_newline st)
      else if (peek st =? chr "/") && (peek_at st 1 =? chr "*") then
        let block_start := pos st in
        let st := skip (skip st) in
        let '(consumed, depth) := block_comment (drop (pos st) src) 1 in
        let st := set_pos st (pos st + consumed)%nat in
        let st :=
          if (0 <? depth)%nat
          then emit_diag st (D_UnterminatedBlockComment (span block_start (block_start + 2)))
          else st in
        skip_whitespace_and_comments n st
      else Done st
  end.

(* ---------------------------------------------------------------- *)
(** *** Literals and identifiers                                     *)
(* ---------------------------------------------------------------- *)

(** [src[start..pos]] as a token. *)
Definition emit_slice (kind : TokenKind) (start : nat) (st : Lexer) : res Lexer :=
  text ← slice_str start (pos st);
  emit kind start (pos st) text st.

(** A number with a radix prefix: the prefix letter, then its digits. *)
Definition scan_radix (digit : Z -> bool) (start : nat) (st : Lexer) : res Lexer :=
  emit_slice TK_Integer start (skip_while (fun b => digit b || is_underscore b) (skip st)).

Definition scan_decimal (start : nat) (st : Lexer) : res Lexer :=
  let digits := skip_while (fun b => is_digit b || is_underscore b) in
  let st := digits st in
  let '(is_float, st) :=
    if negb (at_end st) && (peek st =? chr ".") && negb (peek_at st 1 =? chr ".")
       && is_digit (peek_at st 1)
    then (true, digits (skip st)) else (false, st) in
  let '(is_float, st) :=
    if negb (at_end st) && ((peek st =? chr "e") || (peek st =? chr "E")) then
      let st := skip st in
      let st :=
        if negb (at_end st) && ((peek st =? chr "+") || (peek st =? chr "-")) then skip st else st in
      let st' := skip_while is_digit st in
      let exp_digits := (pos st' - pos st)%nat in
      (true, if Nat.eqb exp_digits 0 then emit_diag st' (D_MissingExponent (span start (pos st'))) else st')
    else (is_float, st) in
  emit_slice (if is_float then TK_Float else TK_Integer) start st.

Definition scan_number (start : nat) (st : Lexer) : res Lexer :=
  if (default 0 (src !! start) =? chr "0") && negb (at_end st) then
    if (peek st =? chr "x") || (peek st =? chr "X") then scan_radix is_hexdigit start st
    else if (peek st =? chr "b") || (peek st =? chr "B")
    then scan_radix (fun b => (b =? chr "0") || (b =? chr "1")) start st
    else if (peek st =? chr "o") || (peek st =? chr "O")
    then scan_radix (in_range (chr "0") (chr "7")) start st
    else scan_decimal start st
  else scan_decimal start st.

Fixpoint identifier_loop (fuel : nat) (has_non_ascii : bool) (st : Lexer) : res (bool * Lexer) :=
  match fuel with
  | O => OutOfFuel
  | S n =>
      if at_end st then Done (has_non_ascii, st)
      else
        let b := peek st in
        if is_alphanumeric b || is_underscore b then identifier_loop n has_non_ascii (skip st)
        else if 0x80 <=? b then
          '(_, st) ← advance_utf8 st;
          identifier_loop n true st
        else Done (has_non_ascii, st)
  end.

Definition word_kind (word : string) : TokenKind :=
  match keyword_lookup word with
  | Some kw => kw
  | None => if is_builtin_type word then TK_TypeIdent else TK_Ident
  end.

Definition scan_identifier (start : nat) (st : Lexer) : res Lexer :=
  '(has_non_ascii, st) ← identifier_loop loop_fuel false st;
  word ← slice_str start (pos st);
  if (has_non_ascii : bool) then
    emit TK_Error start (pos st) word (emit_diag st (D_NonAsciiIdentifier (span start (pos st))))
  else emit (word_kind (string_of_bytes word)) start (pos st) word st.

Fixpoint skip_chars (fuel : nat) (st : Lexer) : res Lexer :=
  match fuel with
  | O => OutOfFuel
  | S n =>
      if negb (at_end st) && negb (peek st =? apostrophe) && negb (peek st =? newline) then
        '(_, st) ← advance_utf8 st;
        skip_chars n st
      else Done st
  end.

(** What follows the content of a character literal. *)
Definition close_char (start : nat) (st : Lexer) : res Lexer :=
  if negb (at_end st) && (peek st =? apostrophe) then Done (skip st)
  else if at_end st then Done (emit_diag st (D_UnterminatedChar (span start (start + 1))))
  else
    st ← skip_chars loop_fuel st;
    if negb (at_end st) && (peek st =? apostrophe) then
      let st := skip st in Done (emit_diag st (D_LongChar (span start (pos st))))
    else Done (emit_diag st (D_UnterminatedChar (span start (start + 1)))).

Definition char_content (st : Lexer) : res (Z * Lexer) :=
  if peek st =? backslash then
    let '(esc, st) := advance (skip st) in Done (unescape_char esc, st)
  else advance_utf8 st.

Definition scan_char (start : nat) (st : Lexer) : res Lexer :=
  if negb (at_end st) && (peek st =? apostrophe) then
    let st := skip st in
    emit TK_Char start (pos st) [0] (emit_diag st (D_EmptyChar (span start (pos st))))
  else
    '(ch, st) ← char_content st;
    st ← close_char start st;
    emit TK_Char start (pos st) (encode_utf8 ch) st.

(* ---------------------------------------------------------------- *)
(** *** Strings and tokens                                           *)
(* ---------------------------------------------------------------- *)

Definition last_is_error (st : Lexer) : option Token :=
  match last (tokens st) with
  | Some t => if decide (t_kind t = TK_Error) then Some t else None
  | None => None
  end.

Definition ends_with_dollar (text : list Z) : bool :=
  match last text with Some b => b =? chr "$" | None => false end.

Definition end_string (start : nat) (text : list Z) (has_interpolation : bool) (st : Lexer)
  : res Lexer :=
  let st :=
    if negb (at_end st) then skip st
    else emit_diag st (D_UnterminatedString (span start (start + 1)) has_interpolation) in
  emit (if has_interpolation then TK_StringPart else TK_String) start (pos st) text st.

(** A backslash in a string: what it appends to the text. *)
Definition scan_escape (st : Lexer) : res (list Z * Lexer) :=
  let st := skip st in
  if negb (at_end st) then
    if 0x80 <=? peek st then
      let esc_start := (pos st - 1)%nat in
      '(c, st) ← advance_utf8 st;
      Done (backslash :: encode_utf8 c, emit_diag st (D_UnknownEscape (span esc_start (pos st)) c))
    else
      let '(esc, st) := advance st in Done (unescape_string esc, st)
  else Done ([], st).

Section Nested.
(** [self.scan_token()], one level of nesting deeper. *)
Context (scan_token : Lexer -> res Lexer).

(** The tokens of an interpolated expression, and whether an error ended it. *)
Fixpoint interp_loop (fuel : nat) (brace_depth : Z) (st : Lexer) : res (Lexer * bool) :=
  match fuel with
  | O => OutOfFuel
  | S n =>
      if at_end st then Done (st, false)
      else
        st ← skip_whitespace_and_comments loop_fuel st;
        if at_end st then Done (st, false)
        else
          let c := peek st in
          if (c =? chr "}") && (brace_depth =? 0) then Done (st, false)
          else
            let brace_depth :=
              if c =? chr "{" then brace_depth + 1
              else if c =? chr "}" then brace_depth - 1 else brace_depth in
            st ← scan_token st;
            match last_is_error st with
            | Some bad =>
                Done (emit_diag st (D_InvalidInterpolationCharacter (t_span bad) (t_text bad)), true)
            | None => interp_loop n brace_depth st
            end
  end.

(** The part of the literal before an interpolation becomes a token. *)
Definition flush_part (start : nat) (text : list Z) (has_interpolation : bool) (st : Lexer)
  : res (list Z * Lexer) :=
  if negb (match text with [] => true | _ => false end) || negb has_interpolation then
    st ← emit TK_StringPart start (pos st) text st;
    Done ([], st)
  else Done (text, st).

(** An interpolation from its [{]: the pending text, the state after its [}],
    and whether the literal is given up. *)
Definition scan_interpolation (start : nat) (text : list Z) (has_interpolation : bool) (st : Lexer)
  : res (list Z * Lexer * bool) :=
  '(text, st) ← flush_part start text has_interpolation st;
  let brace_start := pos st in
  let st := skip st in
  st ← emit TK_InterpStart brace_start (pos st) [chr "{"] st;
  '(st, interp_lex_error) ← interp_loop loop_fuel 0 (set_interp_depth st (S (interp_depth st)));
  let st := set_interp_depth st (pred (interp_depth st)) in
  if (interp_lex_error : bool) then
    st ← emit TK_StringPart start (pos st) text st;
    Done (text, st, true)
  else if negb (at_end st) then
    let end_start := pos st in
    let st := skip st in
    st ← emit TK_InterpEnd end_start (pos st) [chr "}"] st;
    Done (text, st, false)
  else Done (text, st, false).

Fixpoint string_loop (fuel : nat) (start : nat) (text : list Z) (has_interpolation : bool)
    (st : Lexer) : res Lexer :=
  match fuel with
  | O => OutOfFuel
  | S n =>
      if at_end st || (peek st =? quote) then end_string start text has_interpolation st
      else if peek st =? chr "{" then
        if peek_at st 1 =? chr "{" then
          string_loop n start (text ++ [chr "{"]) has_interpolation (skip (skip st))
        else
          let st :=
            if ends_with_dollar text
            then emit_diag st (D_DollarBeforeInterpolation (span (pos st - 1) (pos st + 1)))
            else st in
          if (peek_at st 1 =? quote) || (peek_at st 1 =? chr "}") then
            string_loop n start (text ++ [chr "{"]) has_interpolation (skip st)
          else
            '(text, st, abandon) ← scan_interpolation start text has_interpolation st;
            if (abandon : bool) then Done st else string_loop n start text true st
      else if (peek st =? chr "}") && (peek_at st 1 =? chr "}") then
        string_loop n start (text ++ [chr "}"]) has_interpolation (skip (skip st))
      else if peek st =? backslash then
        '(more, st) ← scan_escape st;
        string_loop n start (text ++ more) has_interpolation st
      else
        '(c, st) ← advance_utf8 st;
        string_loop n start (text ++ encode_utf8 c) has_interpolation st
  end.

Definition scan_string (start : nat) (st : Lexer) : res Lexer :=
  if (MAX_INTERP_DEPTH <=? interp_depth st)%nat then
    let st := emit_diag st (D_InterpolationTooDeep (span start (start + 1))) in
    let end_ := length src in
    emit TK_Error start end_ [] (set_pos st end_)
  else string_loop loop_fuel start [] false st.

Definition scan_operator (ch : Z) (alternatives : list (Z * TokenKind)) (alone : TokenKind)
    (start : nat) (st : Lexer) : res Lexer :=
  match (if at_end st then None else assoc (peek st) alternatives) with
  | Some kind =>
      let second := peek st in
      let st := set_pos st (S (pos st)) in
      emit kind start (pos st) [ch; second] st
  | None => emit alone start (pos st) [ch] st
  end.

Definition scan_dots (start : nat) (st : Lexer) : res Lexer :=
  let '(two, st) := match_char (chr ".") st in
  if (two : bool) then
    let '(eq, st) := match_char (chr "=") st in
    if (eq : bool) then emit TK_DotDotEq start (pos st) (bytes "..=") st
    else emit TK_DotDot start (pos st) (bytes "..") st
  else emit TK_Dot start (pos st) (bytes ".") st.

Fixpoint skip_high (fuel : nat) (st : Lexer) : res Lexer :=
  match fuel with
  | O => OutOfFuel
  | S n =>
      if negb (at_end st) && (0x80 <=? peek st) then
        '(_, st) ← advance_utf8 st;
        skip_high n st
      else Done st
  end.

(** A byte no token starts with. *)
Definition scan_invalid (ch : Z) (start : nat) (st : Lexer) : res Lexer :=
  if 0x80 <=? ch then
    st ← skip_high loop_fuel (skip_while (fun b => Z.land b 0xC0 =? 0x80) st);
    text ← slice_str start (pos st);
    emit TK_Error start (pos st) text (emit_diag st (D_NonAsciiSource (span start (pos st))))
  else emit TK_Error start (pos st) [ch] st.

(** [scan_token], its recursive calls at the next level. *)
Definition scan_token_body (st : Lexer) : res Lexer :=
  let start := pos st in
  let '(ch, st) := advance st in
  match assoc ch single_tokens, assoc ch operator_tokens with
  | Some kind, _ => emit kind start (pos st) [ch] st
  | None, Some (alternatives, alone) => scan_operator ch alternatives alone start st
  | None, None =>
      if ch =? chr "." then scan_dots start st
      else if ch =? quote then scan_string start st
      else if ch =? apostrophe then scan_char start st
      else if is_digit ch then scan_number start st
      else if is_alpha ch || is_underscore ch then scan_identifier start st
      else scan_invalid ch start st
  end.
End Nested.

Fixpoint scan_token (levels : nat) (st : Lexer) : res Lexer :=
  match levels with
  | O => OutOfFuel
  | S levels => scan_token_body (scan_token levels) st
  end.

(** One level per live interpolation, and the outermost. *)
Definition max_levels : nat := S MAX_INTERP_DEPTH.

Fixpoint tokenize_loop (fuel : nat) (st : Lexer) : res Lexer :=
  match fuel with
  | O => OutOfFuel
  | S n =>
      if at_end st then Done st
      else
        st ← skip_whitespace_and_comments loop_fuel st;
        if at_end st then Done st
        else
          st ← scan_token max_levels st;
          tokenize_loop n st
  end.

Definition tokenize_with_diagnostics : res (list Token * list Diagnostic) :=
  st ← tokenize_loop loop_fuel new_lexer;
  st ← emit TK_Eof (pos st) (pos st) [] st;
  Done (tokens st, diagnostics st).

Definition tokenize : res (list Token) := fmap fst tokenize_with_diagnostics.
End Lex.

(** Kind and text of the tokens, for examples. *)
Definition lexed (s : string) : res (list (TokenKind * string)) :=
  fmap (map (fun t => (t_kind t, string_of_bytes (t_text t)))) (tokenize (bytes s) 0).

Example lex_let :
  lexed "let x = 0x1F .. y // done"
  = Done [(TK_Let, "let"); (TK_Ident, "x"); (TK_Eq, "="); (TK_Integer, "0x1F"); (TK_DotDot, "..");
          (TK_Ident, "y"); (TK_Eof, "")]%string.
Proof. vm_compute. reflexivity. Qed.
