(* ===== verification/LexerSafe.v ===== *)
(** The lexer is total: on UTF-8 input it never panics, every loop ends within
    one round per byte, and its recursion within [max_levels] levels. *)

From S2P Require Import Prelude Machine Token Utf8 Text Lexer.

Section Safe.
Context (src : list Z) (file_id : Z) (Hsrc : utf8_valid src = true).
Implicit Types (st : Lexer) (i : nat).

(** A token whose span is a slice of the source at character boundaries. *)
Definition token_ok (t : Token) : Prop :=
  exists a b, t_span t = span file_id a b /\ (a <= b)%nat /\ at_char src a /\ at_char src b.

Record wf st : Prop := {
  wf_pos : (pos st <= length src)%nat;
  wf_last : (last_token_end st <= length src)%nat;
  wf_depth : (interp_depth st <= MAX_INTERP_DEPTH)%nat;
  wf_tokens : Forall token_ok (tokens st)
}.

Definition good st : Prop := wf st /\ at_char src (pos st).

(** The computation ends normally in a good state, at [p] or further, at the
    same interpolation depth. *)
Definition reaches_pos (p d : nat) (r : res Lexer) : Prop :=
  exists st', r = Done st' /\ good st' /\ (p <= pos st')%nat /\ interp_depth st' = d.

Lemma reaches_pos_le p q d r : (p <= q)%nat -> reaches_pos q d r -> reaches_pos p d r.
Proof. intros Hle (st' & ? & ? & ? & ?). exists st'. split_and!; try done. lia. Qed.

Lemma reaches_pos_bind p q d e (r : res Lexer) k :
  reaches_pos q e r ->
  (forall st', good st' -> (q <= pos st')%nat -> interp_depth st' = e -> reaches_pos p d (k st')) ->
  reaches_pos p d (r ≫= k).
Proof. intros (st' & -> & Hg & Hq & He) Hk. cbn. by apply Hk. Qed.

(** *** Single steps *)

Lemma wf_set_pos st p : wf st -> (p <= length src)%nat -> wf (set_pos st p).
Proof. intros [] ?. by split. Qed.

Lemma wf_emit_diag st d : wf st -> wf (emit_diag st d).
Proof. intros []. by split. Qed.

Lemma good_set_pos st p : wf st -> at_char src p -> good (set_pos st p).
Proof. intros Hw Hp. split; [|done]. apply wf_set_pos; [done|apply Hp]. Qed.

Lemma good_emit_diag st d : good st -> good (emit_diag st d).
Proof. intros [? ?]. split; [by apply wf_emit_diag|done]. Qed.

Lemma good_set_depth st n : good st -> (n <= MAX_INTERP_DEPTH)%nat -> good (set_interp_depth st n).
Proof. intros [[] ?] ?. split; [by split|done]. Qed.

Lemma at_end_false st : at_end src st = false -> (pos st < length src)%nat.
Proof. unfold at_end. rewrite Nat.leb_gt. done. Qed.

Lemma peek_at_lookup st k b : peek_at src st k = b -> b <> 0 -> src !! (pos st + k)%nat = Some b.
Proof. unfold peek_at. intros <- Hb. destruct (src !! _); [done|by cbn in Hb]. Qed.

Lemma peek_lookup st : at_end src st = false -> src !! pos st = Some (peek src st).
Proof.
  intros Hlt%at_end_false. unfold peek, peek_at. rewrite Nat.add_0_r.
  by destruct (lookup_lt_is_Some_2 src (pos st) Hlt) as [b ->].
Qed.

Lemma peek_nonzero st b : peek src st = b -> b <> 0 -> src !! pos st = Some b /\ at_end src st = false.
Proof.
  intros Hp Hb. apply (peek_at_lookup st 0) in Hp; [|done]. rewrite Nat.add_0_r in Hp.
  split; [done|]. unfold at_end. apply Nat.leb_gt. by eapply lookup_lt_Some.
Qed.

Lemma skip_pos st : at_end src st = false -> skip src st = set_pos st (S (pos st)).
Proof. intros He. unfold skip, advance. by rewrite He. Qed.

(** Skipping a byte known to be ASCII. *)
Lemma skip_good st b :
  good st -> src !! pos st = Some b -> b < 0x80 ->
  good (skip src st) /\ pos (skip src st) = S (pos st)
  /\ interp_depth (skip src st) = interp_depth st.
Proof.
  intros [Hw Hc] Hb Hlt. assert (He : at_end src st = false)
    by (unfold at_end; apply Nat.leb_gt; by eapply lookup_lt_Some).
  rewrite skip_pos by done. split; [|done]. apply good_set_pos; [done|by eapply at_char_ascii].
Qed.

Lemma skip_char_good st k :
  good st -> (peek src st =? k) = true -> 0 < k < 0x80 ->
  good (skip src st) /\ pos (skip src st) = S (pos st)
  /\ interp_depth (skip src st) = interp_depth st.
Proof.
  intros Hg Hk%Z.eqb_eq Hr. destruct (peek_nonzero st k Hk ltac:(lia)) as [Hb _].
  eapply skip_good; [done..|lia].
Qed.

Lemma peek_at_skip st k : at_end src st = false -> peek_at src (skip src st) k = peek_at src st (S k).
Proof. intros He. rewrite skip_pos by done. unfold peek_at. cbn. by rewrite Nat.add_succ_r. Qed.

(** Two bytes known to be ASCII. *)
Lemma skip2_good st k1 k2 :
  good st -> (peek src st =? k1) = true -> (peek_at src st 1 =? k2) = true ->
  0 < k1 < 0x80 -> 0 < k2 < 0x80 ->
  good (skip src (skip src st)) /\ pos (skip src (skip src st)) = S (S (pos st))
  /\ interp_depth (skip src (skip src st)) = interp_depth st.
Proof.
  intros Hg H1 H2 Hr1 Hr2. destruct (skip_char_good st k1 Hg H1 Hr1) as (Hg1 & Hp1 & Hd1).
  apply Z.eqb_eq in H1. destruct (peek_nonzero st k1 H1 ltac:(lia)) as [_ He].
  destruct (skip_char_good (skip src st) k2 Hg1) as (Hg2 & Hp2 & Hd2); [|done|].
  - unfold peek. by rewrite peek_at_skip.
  - split_and!; [done|congruence|congruence].
Qed.

Lemma emit_good kind start end_ text st :
  good st -> (start <= end_)%nat -> at_char src start -> at_char src end_ ->
  reaches_pos (pos st) (interp_depth st) (emit src file_id kind start end_ text st).
Proof.
  intros [[Hp Hl Hd Ht] Hc] Hle Hs He. unfold emit, slice_bytes.
  pose proof (proj1 Hs). pose proof (proj1 He).
  assert (Nat.leb (last_token_end st) (Nat.max start (last_token_end st))
          && Nat.leb (Nat.max start (last_token_end st)) (length src) = true) as ->.
  { apply andb_true_iff. rewrite !Nat.leb_le. lia. }
  cbn. eexists. split; [reflexivity|]. split_and!; cbn; [|lia|done]. split; [|done].
  split; cbn; [done|lia|done|]. apply Forall_app. split; [done|]. constructor; [|done].
  by exists start, end_.
Qed.

Lemma slice_str_ok a b : at_char src a -> at_char src b -> (a <= b)%nat ->
  slice_str src a b = Done (take (b - a) (drop a src)).
Proof.
  intros Ha Hb Hle. unfold slice_str, slice_bytes. rewrite !at_char_boundary by done. cbn.
  assert (Nat.leb a b && Nat.leb b (length src) = true) as ->; [|done].
  apply andb_true_iff. rewrite !Nat.leb_le. pose proof (proj1 Hb). lia.
Qed.

(** *** Runs of bytes *)

Lemma take_while_prefix (p : Z -> bool) l :
  l = take_while p l ++ drop_while p l.
Proof. induction l as [|b l IH]; cbn; [done|]. destruct (p b); cbn; congruence. Qed.

Lemma drop_while_stop (p : Z -> bool) l b r : drop_while p l = b :: r -> p b = false.
Proof. induction l as [|c l IH]; cbn; [done|]. destruct (p c) eqn:Hc; naive_solver. Qed.

Lemma drop_skip_while p st :
  drop (pos (skip_while src p st)) src = drop_while p (drop (pos st) src).
Proof.
  unfold skip_while. cbn. rewrite <-drop_drop. generalize (drop (pos st) src) as l. intros l.
  rewrite (take_while_prefix p l) at 2. apply drop_app_length.
Qed.

Lemma skip_while_stop p st b :
  src !! pos (skip_while src p st) = Some b -> p b = false.
Proof.
  rewrite <-(Nat.add_0_r (pos _)), <-lookup_drop, drop_skip_while.
  destruct (drop_while p (drop (pos st) src)) as [|c r] eqn:Hd; [done|].
  intros [= <-]. by eapply drop_while_stop.
Qed.

Lemma skip_while_range p st :
  (pos st <= length src)%nat -> (pos st <= pos (skip_while src p st) <= length src)%nat.
Proof.
  intros Hp. unfold skip_while. cbn. pose proof (take_while_prefix p (drop (pos st) src)) as He.
  apply (f_equal length) in He. rewrite length_app, length_drop in He. lia.
Qed.

(** A position that ends the source or holds no continuation byte. *)
Lemma at_char_stop i :
  (i <= length src)%nat -> (forall b, src !! i = Some b -> is_cont b = false) -> at_char src i.
Proof.
  intros Hle Hb. destruct (src !! i) as [b|] eqn:Hi.
  - eapply at_char_noncont; eauto.
  - apply lookup_ge_None in Hi. replace i with (length src) by lia. apply at_char_end.
Qed.

(** The run stops where the predicate fails; there a character starts. *)
Lemma skip_while_good_stop p st :
  wf st -> (forall b, p b = false -> is_cont b = false) ->
  good (skip_while src p st) /\ (pos st <= pos (skip_while src p st))%nat
  /\ interp_depth (skip_while src p st) = interp_depth st.
Proof.
  intros Hw Hp. pose proof (skip_while_range p st (wf_pos _ Hw)) as Hr.
  split; [|split; [lia|done]]. apply good_set_pos; [done|].
  apply at_char_stop; [apply Hr|]. intros b Hb. apply Hp. by apply (skip_while_stop p st).
Qed.

(** The run is over ASCII bytes. *)
Lemma skip_while_good p st :
  good st -> (forall b, p b = true -> b < 0x80) ->
  good (skip_while src p st) /\ (pos st <= pos (skip_while src p st))%nat
  /\ interp_depth (skip_while src p st) = interp_depth st.
Proof.
  intros [Hw Hc] Hp. split; [|split; [unfold skip_while; cbn; lia|done]].
  apply good_set_pos; [done|]. clear Hw. revert Hc. generalize (pos st) as i. intros i Hc.
  remember (drop i src) as l eqn:Hl. revert i Hc Hl.
  induction l as [|b l IH]; intros i Hc Hl; cbn; [by rewrite Nat.add_0_r|].
  destruct (p b) eqn:Hb; cbn; [|by rewrite Nat.add_0_r].
  assert (Hi : src !! i = Some b) by (rewrite <-(Nat.add_0_r i), <-lookup_drop, <-Hl; done).
  rewrite Nat.add_succ_r. apply (IH (S i)); [eapply at_char_ascii; eauto|].
  rewrite <-Nat.add_1_r, <-drop_drop, <-Hl. done.
Qed.

(** *** Characters *)

(** From any position, mid-character ones included, one step forward. *)
Lemma advance_utf8_steps st :
  wf st -> at_end src st = false ->
  exists c p, advance_utf8 src st = Done (c, set_pos st p) /\ (pos st < p <= length src)%nat.
Proof.
  intros Hw He. pose proof (at_end_false st He) as Hlt. unfold advance_utf8. rewrite He.
  destruct (peek src st <? 0x80); [do 2 eexists; split; [reflexivity|lia]|].
  destruct (utf8_width (peek src st)) as [width|] eqn:Hwd; [|do 2 eexists; split; [reflexivity|lia]].
  assert (2 <= width)%nat by (unfold utf8_width in Hwd; repeat case_match; simplify_eq; lia).
  destruct (Nat.ltb_spec (length src) (pos st + width)); [do 2 eexists; split; [reflexivity|lia]|].
  destruct (utf8_chars (take width (drop (pos st) src))) as [[|c cs]|] eqn:Hc;
    [|do 2 eexists; split; [reflexivity|lia]..].
  apply utf8_chars_sound in Hc as [Hc _]. apply (f_equal length) in Hc.
  rewrite length_take, length_drop in Hc. cbn in Hc. lia.
Qed.

(** At the start of a character the step is over the character. *)
Lemma advance_utf8_char st c l :
  drop (pos st) src = encode_utf8 c ++ l -> is_scalar c = true ->
  advance_utf8 src st = Done (c, set_pos st (pos st + length (encode_utf8 c))%nat).
Proof.
  intros Hd Hs. destruct (encode_utf8_head c Hs) as (b0 & r & Heq & _ & _ & Hsm & Hbg).
  assert (Hlen : (length src - pos st = length (encode_utf8 c) + length l)%nat)
    by (apply (f_equal length) in Hd; by rewrite length_drop, length_app in Hd).
  pose proof (encode_utf8_length c). unfold advance_utf8, at_end.
  rewrite (proj2 (Nat.leb_gt _ _)) by lia.
  assert (peek src st = b0) as ->.
  { unfold peek, peek_at. by rewrite <-lookup_drop, Hd, Heq. }
  destruct (Z.ltb_spec b0 0x80) as [Hlt|Hge].
  - assert (c < 0x80) as Hc80 by (destruct (Z.lt_ge_cases c 0x80); [done|]; specialize (Hbg ltac:(done)); lia).
    destruct (Hsm Hc80) as [-> ->]. rewrite Heq. cbn. by rewrite Nat.add_1_r.
  - assert (Hc80 : 0x80 <= c) by (destruct (Z.le_gt_cases 0x80 c); [done|]; destruct (Hsm ltac:(done)); lia).
    assert (utf8_width b0 = Some (length (encode_utf8 c))) as ->.
    { unfold utf8_width.
      destruct (encode_utf8_lead c b0 r Hs Hc80 Heq) as [[-> ?]|[[-> ?]|[-> ?]]]; by range. }
    rewrite (proj2 (Nat.ltb_ge _ _)) by lia.
    rewrite Hd, take_app_length. assert (encode_utf8 c = encode_all [c]) as ->
      by (cbn; by rewrite app_nil_r).
    rewrite utf8_chars_encode; [done|by constructor].
Qed.

Lemma advance_utf8_good st :
  good st -> at_end src st = false ->
  exists c p, advance_utf8 src st = Done (c, set_pos st p) /\ (pos st < p)%nat /\ at_char src p
    /\ drop (pos st) src = encode_utf8 c ++ drop p src /\ is_scalar c = true.
Proof.
  intros [Hw Hc] He. destruct (at_char_next src _ _ Hc (peek_lookup st He)) as
    (c & cs & Hd & Hs & Hcs & Hn & Hh).
  exists c, (pos st + length (encode_utf8 c))%nat. pose proof (encode_utf8_length c).
  assert (Hrest : drop (pos st + length (encode_utf8 c)) src = encode_all cs)
    by (rewrite <-drop_drop, Hd; apply drop_app_length).
  split_and!; [by eapply advance_utf8_char|lia|done|by rewrite Hrest|done].
Qed.

Lemma advance_utf8_advances st :
  good st -> at_end src st = false ->
  exists c st', advance_utf8 src st = Done (c, st') /\ good st' /\ (S (pos st) <= pos st')%nat
    /\ interp_depth st' = interp_depth st.
Proof.
  intros Hg He. destruct (advance_utf8_good st Hg He) as (c & p & Ha & Hlt & Hp & _).
  exists c, (set_pos st p). split_and!; [done|by apply good_set_pos; [apply Hg|]|done|done].
Qed.

(** *** Comments *)

Lemma block_comment_cons2 b c r d :
  block_comment (b :: c :: r) (S d) =
    if (b =? chr "/") && (c =? chr "*") then
      let '(n, dep) := block_comment r (S (S d)) in (S (S n), dep)
    else if (b =? chr "*") && (c =? chr "/") then
      let '(n, dep) := block_comment r d in (S (S n), dep)
    else let '(n, dep) := block_comment (c :: r) (S d) in (S n, dep).
Proof. reflexivity. Qed.

(** The comment ends just after a [/], or is unterminated and takes the rest. *)
Lemma block_comment_spec l depth :
  (fst (block_comment l (S depth)) <= length l)%nat /\
  (fst (block_comment l (S depth)) = length l
   \/ exists n, fst (block_comment l (S depth)) = S n /\ l !! n = Some (chr "/")).
Proof.
  remember (length l) as k eqn:Hk. revert l depth Hk. induction (lt_wf k) as [k _ IH].
  intros l depth ->. destruct l as [|b [|c r]]; [cbn; auto| |].
  { cbn. split; [lia|by left]. }
  rewrite block_comment_cons2. cbn [length].
  destruct (_ && _); [|destruct ((b =? chr "*") && (c =? chr "/")) eqn:Hclose].
  - destruct (IH (length r) ltac:(cbn; lia) r (S depth) eq_refl) as [Hle Hend].
    destruct (block_comment r (S (S depth))) as [n dep]. cbn in *.
    split; [lia|]. destruct Hend as [->|(m & -> & Hm)]; [by left|right]. by exists (S (S m)).
  - apply andb_true_iff in Hclose as [_ Hc%Z.eqb_eq]. destruct depth as [|d].
    + assert (block_comment r 0 = (0, 0)%nat) as -> by (by destruct r). cbn.
      split; [lia|right]. exists 1%nat. cbn. by subst c.
    + destruct (IH (length r) ltac:(cbn; lia) r d eq_refl) as [Hle Hend].
      destruct (block_comment r (S d)) as [n dep]. cbn in *.
      split; [lia|]. destruct Hend as [->|(m & -> & Hm)]; [by left|right]. by exists (S (S m)).
  - destruct (IH (length (c :: r)) ltac:(cbn; lia) (c :: r) depth eq_refl) as [Hle Hend].
    destruct (block_comment (c :: r) (S depth)) as [n dep]. cbn in *.
    split; [lia|]. destruct Hend as [->|(m & -> & Hm)]; [by left|right]. by exists (S m).
Qed.

Lemma at_char_after_ascii i b : src !! i = Some b -> b < 0x80 -> at_char src (S i).
Proof.
  intros Hi Hb. apply (at_char_ascii src i b); [|done|done].
  apply (at_char_noncont src i b); [done|done|]. apply in_range_false. lia.
Qed.

Lemma block_comment_good st :
  good st ->
  good (set_pos st (pos st + fst (block_comment (drop (pos st) src) 1))%nat).
Proof.
  intros [Hw Hc]. apply good_set_pos; [done|].
  destruct (block_comment_spec (drop (pos st) src) 0) as [_ [->|(n & -> & Hn)]].
  - rewrite length_drop. replace (pos st + (length src - pos st))%nat with (length src)
      by (pose proof (wf_pos st Hw); lia). apply at_char_end.
  - rewrite lookup_drop in Hn. rewrite Nat.add_succ_r. by eapply at_char_after_ascii.
Qed.

Lemma not_newline_cont b : not_newline b = false -> is_cont b = false.
Proof. unfold not_newline. rewrite negb_false_iff, Z.eqb_eq. by intros ->. Qed.

Lemma is_ws_ascii b : is_ws b = true -> b < 0x80.
Proof. unfold is_ws, newline. rewrite !orb_true_iff, !Z.eqb_eq. lia. Qed.

(** A line comment, from its first slash to the end of the line. *)
Lemma skip_line_good st :
  good st -> good (skip_while src not_newline st)
  /\ (pos st <= pos (skip_while src not_newline st))%nat
  /\ interp_depth (skip_while src not_newline st) = interp_depth st.
Proof. intros [Hw _]. apply skip_while_good_stop; [done|apply not_newline_cont]. Qed.

Lemma doc_comment_good st :
  good st -> (peek src st =? chr "/") = true -> (peek_at src st 1 =? chr "/") = true ->
  (peek_at src st 2 =? chr "/") = true ->
  let st1 := skip src (skip src (skip src st)) in
  let st2 := if negb (at_end src st1) && (peek src st1 =? 32) then skip src st1 else st1 in
  good st2 /\ (pos st + 3 <= pos st2)%nat /\ interp_depth st2 = interp_depth st.
Proof.
  intros Hg H1 H2 H3 st1.
  destruct (skip2_good st _ _ Hg H1 H2 ltac:(done) ltac:(done)) as (Hg2 & Hp2 & Hd2).
  assert (H3' : (peek src (skip src (skip src st)) =? chr "/") = true).
  { apply Z.eqb_eq in H3. apply Z.eqb_eq. rewrite <-H3. unfold peek, peek_at. rewrite Hp2.
    f_equal. f_equal. lia. }
  destruct (skip_char_good _ _ Hg2 H3' ltac:(done)) as (Hg3 & Hp3 & Hd3). fold st1 in Hg3, Hp3, Hd3.
  cbv zeta. destruct (negb (at_end src st1) && (peek src st1 =? 32)) eqn:Hsp.
  - apply andb_true_iff in Hsp as [_ Hsp].
    destruct (skip_char_good _ _ Hg3 Hsp ltac:(done)) as (Hg4 & Hp4 & Hd4).
    split_and!; [done|lia|congruence].
  - split_and!; [done|lia|congruence].
Qed.

(** Whitespace and comments: total, in as many rounds as there are bytes. *)
Lemma skip_whitespace_good fuel st :
  good st -> (length src - pos st < fuel)%nat ->
  reaches_pos (pos st) (interp_depth st) (skip_whitespace_and_comments src file_id fuel st).
Proof.
  revert st. induction fuel as [|n IH]; intros st Hg Hfuel; [lia|].
  destruct (skip_while_good is_ws st Hg is_ws_ascii) as (Hg1 & Hp1 & Hd1).
  cbn [skip_whitespace_and_comments]. set (st1 := skip_while src is_ws st) in *.
  assert (Hrec : forall st', good st' -> (pos st1 < pos st')%nat -> interp_depth st' = interp_depth st ->
    reaches_pos (pos st) (interp_depth st) (skip_whitespace_and_comments src file_id n st')).
  { intros st' Hg' Hlt Hd'. rewrite <-Hd'. apply (reaches_pos_le _ (pos st')); [lia|].
    apply IH; [done|]. pose proof (wf_pos _ (proj1 Hg')). lia. }
  destruct (at_end src st1) eqn:Hend; [by exists st1|].
  destruct ((peek src st1 =? chr "/") && (peek_at src st1 1 =? chr "/")) eqn:Hline;
    [|destruct ((peek src st1 =? chr "/") && (peek_at src st1 1 =? chr "*")) eqn:Hblock].
  - apply andb_true_iff in Hline as [Hs1 Hs2].
    destruct ((peek_at src st1 2 =? chr "/") && negb (peek_at src st1 3 =? chr "/")) eqn:Hdoc.
    + apply andb_true_iff in Hdoc as [Hs3 _].
      destruct (doc_comment_good st1 Hg1 Hs1 Hs2 Hs3) as (Hg2 & Hp2 & Hd2). cbv zeta in *.
      set (sk := skip src (skip src (skip src st1))) in *.
      set (st2 := if negb (at_end src sk) && (peek src sk =? 32) then skip src sk else sk) in *.
      destruct (skip_line_good st2 Hg2) as (Hg3 & Hp3 & Hd3).
      set (st3 := skip_while src _ st2) in *.
      rewrite slice_str_ok by (apply Hg2 || apply Hg3 || done). cbn [mbind res_bind].
      eapply reaches_pos_bind; [apply emit_good; [done|lia|apply Hg1|apply Hg3]|].
      intros st' Hg' Hp' Hd'. apply Hrec; [done|lia|congruence].
    + destruct (skip_line_good st1 Hg1) as (Hg3 & Hp3 & Hd3).
      apply Hrec; [done| |congruence].
      destruct (peek_nonzero st1 (chr "/")) as [Hb _]; [by apply Z.eqb_eq|done|].
      assert (pos (skip_while src not_newline st1) <> pos st1); [|lia].
      intros Heq. assert (Hstop : not_newline (chr "/") = false); [|done].
      apply (skip_while_stop not_newline st1). by rewrite Heq.
  - apply andb_true_iff in Hblock as [Hs1 Hs2].
    destruct (skip2_good st1 _ _ Hg1 Hs1 Hs2 ltac:(done) ltac:(done)) as (Hg2 & Hp2 & Hd2).
    pose proof (block_comment_good _ Hg2) as Hg3.
    destruct (block_comment _ 1) as [consumed depth]. cbn in Hg3.
    destruct (0 <? depth)%nat.
    + apply Hrec; [by apply good_emit_diag|cbn [pos emit_diag set_pos]; lia|etrans; [apply Hd2|done]].
    + apply Hrec; [done|cbn [pos set_pos]; lia|etrans; [apply Hd2|done]].
  - exists st1. by split_and!.
Qed.

(** *** Numbers, identifiers, characters *)

(** From [st] to a good [st'] at [p] or further, same depth. *)
Definition forward (st : Lexer) (p : nat) (st' : Lexer) : Prop :=
  good st' /\ (p <= pos st')%nat /\ interp_depth st' = interp_depth st.

Ltac fwd := unfold forward; split_and!.

Lemma forward_refl st : good st -> forward st (pos st) st.
Proof. intros Hg. by fwd. Qed.

Lemma forward_trans st p st1 q st2 : forward st p st1 -> forward st1 q st2 -> (p <= pos st1)%nat ->
  (pos st1 <= q)%nat -> forward st q st2.
Proof. intros (? & ? & ?) (? & ? & ?) ? ?. fwd; [done|lia|congruence]. Qed.

Lemma emit_slice_good kind start st :
  good st -> at_char src start -> (start <= pos st)%nat ->
  reaches_pos (pos st) (interp_depth st) (emit_slice src file_id kind start st).
Proof.
  intros Hg Hs Hle. unfold emit_slice. rewrite slice_str_ok by (done || apply Hg). cbn.
  apply emit_good; [done|done|done|apply Hg].
Qed.

Lemma is_digit_ascii b : is_digit b = true -> b < 0x80.
Proof. unfold is_digit. rewrite in_range_spec. change (chr "9") with 57. lia. Qed.

Lemma is_underscore_ascii b : is_underscore b = true -> b < 0x80.
Proof. unfold is_underscore. rewrite Z.eqb_eq. by intros ->. Qed.

Lemma digit_run_ascii (digit : Z -> bool) b :
  (forall b, digit b = true -> b < 0x80) -> digit b || is_underscore b = true -> b < 0x80.
Proof. intros Hd [H|H]%orb_true_iff; [by apply Hd|by apply is_underscore_ascii]. Qed.

Lemma scan_radix_good digit start st k :
  (forall b, digit b = true -> b < 0x80) ->
  good st -> at_char src start -> (start <= pos st)%nat -> (peek src st =? k) = true -> 0 < k < 0x80 ->
  reaches_pos (pos st) (interp_depth st) (scan_radix src file_id digit start st).
Proof.
  intros Hdig Hg Hs Hle Hk Hr. destruct (skip_char_good st k Hg Hk Hr) as (Hg1 & Hp1 & Hd1).
  unfold scan_radix.
  destruct (skip_while_good (fun b => digit b || is_underscore b) _ Hg1) as (Hg2 & Hp2 & Hd2);
    [intros b; by apply digit_run_ascii|].
  rewrite <-Hd1, <-Hd2. eapply reaches_pos_le; [|apply emit_slice_good]; [lia|done|done|lia].
Qed.

(** The optional parts of a decimal number, each from a good state to a good one. *)
Lemma scan_decimal_good start st :
  good st -> at_char src start -> (start <= pos st)%nat ->
  reaches_pos (pos st) (interp_depth st) (scan_decimal src file_id start st).
Proof.
  intros Hg Hs Hle. unfold scan_decimal.
  set (digits := skip_while src (fun b => is_digit b || is_underscore b)).
  assert (Hdigits : forall st, good st -> forward st (pos st) (digits st)).
  { intros st' Hg'. apply skip_while_good; [done|].
    intros b. apply (digit_run_ascii is_digit), is_digit_ascii. }
  destruct (Hdigits st Hg) as (Hg1 & Hp1 & Hd1). set (st1 := digits st) in *.
  set (frac := if negb (at_end src st1) && (peek src st1 =? chr ".") && _ && _ then _ else _).
  assert (Hfrac : forward st1 (pos st1) (snd frac)).
  { unfold frac. destruct (_ && _) eqn:Hc; [|by apply forward_refl].
    rewrite !andb_true_iff in Hc. destruct Hc as [[[_ Hdot] _] _].
    destruct (skip_char_good st1 _ Hg1 Hdot ltac:(done)) as (Hg2 & Hp2 & Hd2).
    destruct (Hdigits _ Hg2) as (Hg3 & Hp3 & Hd3). cbn [snd]. fwd; [done|lia|congruence]. }
  destruct frac as [is_float st2]. cbn [snd] in Hfrac. destruct Hfrac as (Hg2 & Hp2 & Hd2).
  set (expo := if negb (at_end src st2) && _ then _ else _).
  assert (Hexpo : forward st2 (pos st2) (snd expo)).
  { unfold expo. destruct (_ && _) eqn:Hc; [|by apply forward_refl].
    apply andb_true_iff in Hc as [_ Hc].
    assert (Hskip : forward st2 (S (pos st2)) (skip src st2)).
    { apply orb_true_iff in Hc as [Hc|Hc];
        (destruct (skip_char_good st2 _ Hg2 Hc ltac:(done)) as (? & ? & ?); fwd; [done|lia|done]). }
    destruct Hskip as (Hg3 & Hp3 & Hd3). set (st3 := skip src st2) in *.
    set (st4 := if negb (at_end src st3) && _ then _ else _).
    assert (Hst4 : forward st3 (pos st3) st4).
    { unfold st4. destruct (_ && _) eqn:Hsg; [|by apply forward_refl].
      apply andb_true_iff in Hsg as [_ Hsg]. apply orb_true_iff in Hsg as [Hsg|Hsg];
        (destruct (skip_char_good st3 _ Hg3 Hsg ltac:(done)) as (? & ? & ?); fwd; [done|lia|done]). }
    destruct Hst4 as (Hg4 & Hp4 & Hd4).
    destruct (skip_while_good is_digit st4 Hg4 is_digit_ascii) as (Hg5 & Hp5 & Hd5).
    cbn [snd]. destruct (Nat.eqb _ 0); (fwd; [try apply good_emit_diag; done|cbn [emit_diag pos]; lia|]).
    all: transitivity (interp_depth (skip_while src is_digit st4)); [done|congruence]. }
  destruct expo as [is_float' st3]. cbn [snd] in Hexpo. destruct Hexpo as (Hg3 & Hp3 & Hd3).
  replace (interp_depth st) with (interp_depth st3) by congruence.
  eapply reaches_pos_le; [|apply emit_slice_good]; [lia|done|done|lia].
Qed.

Lemma scan_number_good start st :
  good st -> at_char src start -> (start <= pos st)%nat ->
  reaches_pos (pos st) (interp_depth st) (scan_number src file_id start st).
Proof.
  intros Hg Hs Hle. unfold scan_number.
  destruct (_ && _); [|by apply scan_decimal_good].
  destruct (_ || _) eqn:Hx; [|clear Hx; destruct (_ || _) eqn:Hx; [|clear Hx; destruct (_ || _) eqn:Hx]];
    [..|by apply scan_decimal_good]; apply orb_true_iff in Hx as [Hx|Hx];
    (eapply scan_radix_good; [|done..|exact Hx|done]); intros b.
  all: unfold is_hexdigit, is_digit;
    rewrite ?orb_true_iff, ?in_range_spec, ?Z.eqb_eq; cbn -[Z.le Z.lt]; lia.
Qed.

Lemma is_alphanumeric_ascii b : is_alphanumeric b || is_underscore b = true -> b < 0x80.
Proof.
  unfold is_alphanumeric, is_alpha, is_digit, is_underscore.
  rewrite !orb_true_iff, !in_range_spec, Z.eqb_eq. cbn -[Z.le Z.lt]. lia.
Qed.

Lemma identifier_loop_good fuel flag st :
  good st -> (length src - pos st < fuel)%nat ->
  exists b st', identifier_loop src fuel flag st = Done (b, st') /\ forward st (pos st) st'.
Proof.
  revert flag st. induction fuel as [|n IH]; intros flag st Hg Hf; [lia|].
  cbn [identifier_loop]. destruct (at_end src st) eqn:He.
  { do 2 eexists. split; [reflexivity|by apply forward_refl]. }
  pose proof (at_end_false st He).
  destruct (is_alphanumeric (peek src st) || is_underscore (peek src st)) eqn:Ha.
  - destruct (skip_good st _ Hg (peek_lookup st He) (is_alphanumeric_ascii _ Ha)) as (Hg1 & Hp1 & Hd1).
    destruct (IH flag _ Hg1 ltac:(lia)) as (b & st' & -> & Hg2 & Hp2 & Hd2).
    do 2 eexists. split; [reflexivity|]. fwd; [done|lia|congruence].
  - destruct (0x80 <=? peek src st).
    + destruct (advance_utf8_advances st Hg He) as (c & st1 & -> & Hg1 & Hp1 & Hd1). cbn.
      destruct (IH true st1 Hg1 ltac:(lia)) as (b & st' & -> & Hg2 & Hp2 & Hd2).
      do 2 eexists. split; [reflexivity|]. fwd; [done|lia|congruence].
    + do 2 eexists. split; [reflexivity|by apply forward_refl].
Qed.

Lemma scan_identifier_good start st :
  good st -> at_char src start -> (start <= pos st)%nat ->
  reaches_pos (pos st) (interp_depth st) (scan_identifier src file_id start st).
Proof.
  intros Hg Hs Hle. unfold scan_identifier, loop_fuel.
  destruct (identifier_loop_good (S (length src)) false st Hg ltac:(lia)) as (b & st' & -> & Hg1 & Hp1 & Hd1).
  cbn [mbind res_bind]. rewrite slice_str_ok by (apply Hg1 || done || lia). cbn [mbind res_bind].
  rewrite <-Hd1. destruct b.
  - eapply reaches_pos_le; [exact Hp1|].
    apply (emit_good TK_Error start (pos st') _ (emit_diag st' _)); [by apply good_emit_diag|lia|done|apply Hg1].
  - eapply reaches_pos_le; [exact Hp1|]. apply emit_good; [done|lia|done|apply Hg1].
Qed.

(** Inside a character literal the position may be mid-character, until the
    closing quote, the end of the line or the end of the source. *)
Lemma skip_chars_steps fuel st :
  wf st -> (length src - pos st < fuel)%nat ->
  exists p, skip_chars src fuel st = Done (set_pos st p) /\ (pos st <= p)%nat /\ at_char src p.
Proof.
  revert st. induction fuel as [|n IH]; intros st Hw Hf; [lia|].
  cbn [skip_chars]. destruct (_ && _) eqn:Hc.
  - rewrite !andb_true_iff, negb_true_iff in Hc. destruct Hc as [[He _] _].
    destruct (advance_utf8_steps st Hw He) as (c & p & -> & Hp). cbn.
    destruct (IH (set_pos st p)) as (q & -> & Hq & Hat); [apply wf_set_pos; [done|lia]|cbn; lia|].
    exists q. split_and!; [done|cbn in Hq; lia|done].
  - exists (pos st). split_and!; [by destruct st|lia|].
    apply at_char_stop; [apply (wf_pos _ Hw)|]. intros b Hb.
    assert (peek src st = b) as Hpk by (unfold peek, peek_at; rewrite Nat.add_0_r; by rewrite Hb).
    assert (at_end src st = false) as He
      by (unfold at_end; apply Nat.leb_gt; by eapply lookup_lt_Some).
    rewrite Hpk, He in Hc. cbn in Hc.
    apply andb_false_iff in Hc as [Hc|Hc]; apply negb_false_iff, Z.eqb_eq in Hc; by subst b.
Qed.

Lemma close_char_good start st :
  wf st -> reaches_pos (pos st) (interp_depth st) (close_char src file_id start st).
Proof.
  intros Hw. unfold close_char.
  assert (Hquote : forall st, wf st -> negb (at_end src st) && (peek src st =? apostrophe) = true ->
    good (skip src st) /\ pos (skip src st) = S (pos st)
    /\ interp_depth (skip src st) = interp_depth st).
  { intros st' Hw' [_ Hq]%andb_true_iff. apply (skip_char_good st' apostrophe); [|done|done].
    split; [done|]. apply Z.eqb_eq in Hq. destruct (peek_nonzero st' _ Hq ltac:(done)) as [Hb _].
    by eapply (at_char_noncont src). }
  destruct (negb (at_end src st) && _) eqn:Hq.
  { destruct (Hquote st Hw Hq) as (Hg1 & Hp1 & Hd1). eexists. split_and!; [done|done|lia|done]. }
  destruct (at_end src st) eqn:He.
  { eexists. split_and!; [done| |done|done]. apply good_emit_diag. split; [done|].
    unfold at_end in He. apply Nat.leb_le in He. pose proof (wf_pos _ Hw).
    replace (pos st) with (length src) by lia. apply at_char_end. }
  unfold loop_fuel.
  destruct (skip_chars_steps (S (length src)) st Hw ltac:(lia)) as (p & -> & Hp & Hat).
  cbn [mbind res_bind]. pose proof (good_set_pos st p Hw Hat) as Hg1.
  destruct (negb (at_end src (set_pos st p)) && _) eqn:Hq2.
  - destruct (Hquote _ (proj1 Hg1) Hq2) as (Hg2 & Hp2 & Hd2).
    eexists. split_and!; [done|by apply good_emit_diag|cbn [emit_diag pos]; rewrite Hp2; cbn; lia|done].
  - eexists. split_and!; [done|by apply good_emit_diag|done|done].
Qed.

Lemma char_content_steps st :
  good st -> exists c st', char_content src st = Done (c, st') /\ wf st' /\ (pos st <= pos st')%nat
    /\ interp_depth st' = interp_depth st.
Proof.
  intros Hg. unfold char_content. destruct (peek src st =? backslash) eqn:Hb.
  - destruct (skip_char_good st _ Hg Hb ltac:(done)) as (Hg1 & Hp1 & Hd1). unfold advance.
    destruct (at_end src (skip src st)) eqn:He.
    + do 2 eexists. split_and!; [done|apply Hg1|lia|done].
    + do 2 eexists. split_and!; [done| |cbn [set_pos pos]; lia|done].
      apply wf_set_pos; [apply Hg1|]. apply at_end_false in He. lia.
  - destruct (at_end src st) eqn:He.
    + unfold advance_utf8. rewrite He. do 2 eexists. split_and!; [done|apply Hg|lia|done].
    + destruct (advance_utf8_advances st Hg He) as (c & st1 & -> & Hg1 & Hp1 & Hd1).
      do 2 eexists. split_and!; [done|apply Hg1|lia|done].
Qed.

Lemma scan_char_good start st :
  good st -> at_char src start -> (start <= pos st)%nat ->
  reaches_pos (pos st) (interp_depth st) (scan_char src file_id start st).
Proof.
  intros Hg Hs Hle. unfold scan_char. destruct (negb (at_end src st) && _) eqn:Hq.
  - apply andb_true_iff in Hq as [_ Hq].
    destruct (skip_char_good st _ Hg Hq ltac:(done)) as (Hg1 & Hp1 & Hd1). rewrite <-Hd1.
    apply (reaches_pos_le _ (pos (skip src st))); [lia|].
    apply (emit_good _ _ _ _ (emit_diag (skip src st) _)); [by apply good_emit_diag|lia|done|apply Hg1].
  - destruct (char_content_steps st Hg) as (c & st1 & -> & Hw1 & Hp1 & Hd1). cbn [mbind res_bind].
    eapply reaches_pos_bind; [by apply close_char_good|]. intros st2 Hg2 Hp2 Hd2.
    replace (interp_depth st) with (interp_depth st2) by congruence.
    eapply reaches_pos_le; [|apply emit_good]; [lia|done|lia|done|apply Hg2].
Qed.

(** *** Strings *)

(** What [scan_token] promises at interpolation depth [d]. *)
Definition scans (d : nat) (scan : Lexer -> res Lexer) : Prop :=
  forall st, good st -> at_end src st = false -> interp_depth st = d ->
    reaches_pos (S (pos st)) d (scan st).

Lemma forward_diag st p st' d : forward st p st' -> forward st p (emit_diag st' d).
Proof. intros (? & ? & ?). fwd; [by apply good_emit_diag|done|done]. Qed.

(** The loop over an interpolated expression stops at an error, at the end of
    the source, or at the closing brace. *)
Lemma interp_loop_good scan d fuel depth st :
  scans d scan -> good st -> interp_depth st = d -> (length src - pos st < fuel)%nat ->
  exists st' b, interp_loop src file_id scan fuel depth st = Done (st', b)
    /\ forward st (pos st) st'
    /\ (b = false -> at_end src st' = false -> (peek src st' =? chr "}") = true).
Proof.
  intros Hscan. revert depth st. induction fuel as [|n IH]; intros depth st Hg Hd Hf; [lia|].
  cbn [interp_loop]. destruct (at_end src st) eqn:He.
  { do 2 eexists. split_and!; [reflexivity|by apply forward_refl|congruence]. }
  destruct (skip_whitespace_good (loop_fuel src) st Hg ltac:(unfold loop_fuel; lia))
    as (st1 & -> & Hg1 & Hp1 & Hd1). cbn [mbind res_bind].
  destruct (at_end src st1) eqn:He1.
  { do 2 eexists. split_and!; [reflexivity|by fwd|congruence]. }
  destruct ((peek src st1 =? chr "}") && _) eqn:Hclose.
  { apply andb_true_iff in Hclose as [Hclose _].
    do 2 eexists. split_and!; [reflexivity|by fwd|done]. }
  destruct (Hscan st1 Hg1 He1 ltac:(congruence)) as (st2 & -> & Hg2 & Hp2 & Hd2). cbn [mbind res_bind].
  destruct (last_is_error st2) as [bad|].
  { do 2 eexists. split_and!; [reflexivity| |done]. apply forward_diag. fwd; [done|lia|congruence]. }
  apply at_end_false in He1.
  match goal with |- context [interp_loop _ _ _ _ ?dep st2] =>
    destruct (IH dep st2 Hg2 ltac:(congruence) ltac:(lia)) as (st3 & b & -> & (Hg3 & Hp3 & Hd3) & Hb) end.
  do 2 eexists. split_and!; [reflexivity| |done]. fwd; [done|lia|congruence].
Qed.

Lemma flush_part_good start text flag st :
  good st -> at_char src start -> (start <= pos st)%nat ->
  exists text' st', flush_part src file_id start text flag st = Done (text', st')
    /\ forward st (pos st) st'.
Proof.
  intros Hg Hs Hle. unfold flush_part. destruct (_ || _).
  - destruct (emit_good TK_StringPart start (pos st) text st Hg Hle Hs (proj2 Hg))
      as (st1 & -> & Hg1 & Hp1 & Hd1). do 2 eexists. split; [reflexivity|by fwd].
  - do 2 eexists. split; [reflexivity|by apply forward_refl].
Qed.

(** The closing brace of an interpolation, if the source goes on. *)
Lemma end_interpolation_good st :
  good st -> at_end src st = false -> (peek src st =? chr "}") = true ->
  reaches_pos (pos st) (interp_depth st)
    (emit src file_id TK_InterpEnd (pos st) (pos (skip src st)) [chr "}"] (skip src st)).
Proof.
  intros Hg He Hb. destruct (skip_char_good st _ Hg Hb ltac:(done)) as (Hg1 & Hp1 & Hd1).
  rewrite <-Hd1. apply (reaches_pos_le _ (pos (skip src st))); [lia|].
  apply emit_good; [done|lia|apply Hg|apply Hg1].
Qed.

Lemma scan_interpolation_good scan start text flag st :
  scans (S (interp_depth st)) scan -> (interp_depth st < MAX_INTERP_DEPTH)%nat ->
  good st -> at_char src start -> (start <= pos st)%nat -> (peek src st =? chr "{") = true ->
  exists text' st' b, scan_interpolation src file_id scan start text flag st = Done (text', st', b)
    /\ forward st (S (pos st)) st'.
Proof.
  intros Hscan Hdepth Hg Hs Hle Hbrace. unfold scan_interpolation.
  destruct (flush_part_good start text flag st Hg Hs Hle) as (text1 & st1 & Hfl & Hg1 & Hp1 & Hd1).
  assert (Hpos1 : pos st1 = pos st).
  { unfold flush_part in Hfl. destruct (_ || _); [|by injection Hfl as _ ->].
    apply res_bind_Done in Hfl as (st2 & He & [= _ <-]). unfold emit in He.
    apply res_bind_Done in He as (gap & _ & [= <-]). done. }
  rewrite Hfl. cbn [mbind res_bind].
  assert (Hbrace1 : (peek src st1 =? chr "{") = true)
    by (unfold peek, peek_at in *; by rewrite Hpos1).
  destruct (skip_char_good st1 _ Hg1 Hbrace1 ltac:(done)) as (Hg2 & Hp2 & Hd2).
  destruct (emit_good TK_InterpStart (pos st1) (pos (skip src st1)) [chr "{"] (skip src st1) Hg2
    ltac:(lia) (proj2 Hg1) (proj2 Hg2)) as (st3 & -> & Hg3 & Hp3 & Hd3). cbn [mbind res_bind].
  assert (Hin : good (set_interp_depth st3 (S (interp_depth st3))))
    by (apply good_set_depth; [done|lia]).
  destruct (interp_loop_good scan (S (interp_depth st)) (loop_fuel src) 0 _ Hscan Hin)
    as (st4 & b & -> & (Hg4 & Hp4 & Hd4) & Hb); [cbn; lia|cbn; unfold loop_fuel; lia|].
  cbn [mbind res_bind]. cbn [set_interp_depth pos interp_depth] in Hp4, Hd4.
  set (st5 := set_interp_depth st4 (pred (interp_depth st4))).
  assert (Hg5 : good st5) by (apply good_set_depth; [done|lia]).
  assert (Hd5 : interp_depth st5 = interp_depth st) by (cbn; lia).
  assert (Hp5 : (S (pos st) <= pos st5)%nat) by (cbn; lia).
  destruct b.
  - destruct (emit_good TK_StringPart start (pos st5) text1 st5 Hg5 ltac:(lia) Hs (proj2 Hg5))
      as (st6 & -> & Hg6 & Hp6 & Hd6).
    do 3 eexists. split; [reflexivity|]. fwd; [done|lia|congruence].
  - destruct (at_end src st5) eqn:He.
    + do 3 eexists. split; [reflexivity|]. by fwd.
    + destruct (end_interpolation_good st5 Hg5 He (Hb eq_refl He)) as (st6 & -> & Hg6 & Hp6 & Hd6).
      do 3 eexists. split; [reflexivity|]. fwd; [done|lia|congruence].
Qed.

Lemma scan_escape_good st :
  good st -> (peek src st =? backslash) = true ->
  exists more st', scan_escape src file_id st = Done (more, st') /\ forward st (S (pos st)) st'.
Proof.
  intros Hg Hb. destruct (skip_char_good st _ Hg Hb ltac:(done)) as (Hg1 & Hp1 & Hd1).
  unfold scan_escape. set (st1 := skip src st) in *. destruct (at_end src st1) eqn:He; cbn [negb].
  { do 2 eexists. split; [reflexivity|]. fwd; [done|lia|done]. }
  destruct (Z.leb_spec 0x80 (peek src st1)) as [Hhi|Hlo].
  - destruct (advance_utf8_advances st1 Hg1 He) as (c & st2 & -> & Hg2 & Hp2 & Hd2).
    do 2 eexists. split; [reflexivity|]. apply forward_diag. fwd; [done|lia|congruence].
  - destruct (skip_good st1 _ Hg1 (peek_lookup st1 He) Hlo) as (Hg2 & Hp2 & Hd2).
    unfold skip in Hg2, Hp2, Hd2. destruct (advance src st1) as [esc st2]. cbn [snd] in *.
    do 2 eexists. split; [reflexivity|]. fwd; [done|lia|congruence].
Qed.

Lemma end_string_good start text flag st :
  good st -> at_char src start -> (start <= pos st)%nat ->
  at_end src st || (peek src st =? quote) = true ->
  reaches_pos (pos st) (interp_depth st) (end_string src file_id start text flag st).
Proof.
  intros Hg Hs Hle Hend. unfold end_string. destruct (at_end src st); cbn [negb].
  - eapply (emit_good _ _ _ _ (emit_diag st _)); [by apply good_emit_diag|done|done|apply Hg].
  - destruct (skip_char_good st _ Hg Hend ltac:(done)) as (Hg1 & Hp1 & Hd1). rewrite <-Hd1.
    eapply reaches_pos_le; [|apply emit_good]; [lia|done|lia|done|apply Hg1].
Qed.

Lemma string_loop_good scan fuel start text flag st :
  scans (S (interp_depth st)) scan -> (interp_depth st < MAX_INTERP_DEPTH)%nat ->
  good st -> at_char src start -> (start <= pos st)%nat -> (length src - pos st < fuel)%nat ->
  reaches_pos (pos st) (interp_depth st) (string_loop src file_id scan fuel start text flag st).
Proof.
  revert text flag st. induction fuel as [|n IH]; intros text flag st Hscan Hdepth Hg Hs Hle Hf; [lia|].
  cbn [string_loop]. destruct (at_end src st || (peek src st =? quote)) eqn:Hend;
    [by apply end_string_good|].
  apply orb_false_iff in Hend as [He _]. pose proof (at_end_false st He) as Hlt.
  assert (Hrec : forall text' flag' st', forward st (S (pos st)) st' ->
    reaches_pos (pos st) (interp_depth st) (string_loop src file_id scan n start text' flag' st')).
  { intros text' flag' st' (Hg' & Hp' & Hd'). rewrite <-Hd' in Hscan, Hdepth |- *.
    apply (reaches_pos_le _ (pos st')); [lia|]. apply IH; auto; lia. }
  destruct (peek src st =? chr "{") eqn:Hbrace.
  - destruct (peek_at src st 1 =? chr "{") eqn:Hb2.
    { destruct (skip2_good st _ _ Hg Hbrace Hb2 ltac:(done) ltac:(done)) as (Hg1 & Hp1 & Hd1).
      apply Hrec. fwd; [done|lia|done]. }
    set (st1 := if ends_with_dollar text then _ else st).
    assert (Hst1 : good st1 /\ pos st1 = pos st /\ interp_depth st1 = interp_depth st
                   /\ forall k, peek_at src st1 k = peek_at src st k).
    { unfold st1. destruct (ends_with_dollar text); split_and!; try done. by apply good_emit_diag. }
    clearbody st1. destruct Hst1 as (Hg1 & Hp1 & Hd1 & Hpk).
    assert (Hbrace1 : (peek src st1 =? chr "{") = true) by (unfold peek in *; by rewrite Hpk).
    destruct (_ || _).
    + destruct (skip_char_good st1 _ Hg1 Hbrace1 ltac:(done)) as (Hg2 & Hp2 & Hd2).
      apply Hrec. fwd; [done|lia|congruence].
    + destruct (scan_interpolation_good scan start text flag st1) as (text2 & st2 & b & -> & Hg2 & Hp2 & Hd2);
        [by rewrite Hd1|lia|done|done|lia|done|]. cbn [mbind res_bind].
      assert (Hfw : forward st (S (pos st)) st2) by (fwd; [done|lia|congruence]).
      destruct b; [|by apply Hrec]. destruct Hfw as (? & ? & ?).
      exists st2. split_and!; [done|done|lia|done].
  - destruct (_ && _) eqn:Hclose; [|destruct (peek src st =? backslash) eqn:Hbs].
    + apply andb_true_iff in Hclose as [H1 H2].
      destruct (skip2_good st _ _ Hg H1 H2 ltac:(done) ltac:(done)) as (Hg1 & Hp1 & Hd1).
      apply Hrec. fwd; [done|lia|done].
    + destruct (scan_escape_good st Hg Hbs) as (more & st1 & -> & Hfw). by apply Hrec.
    + destruct (advance_utf8_advances st Hg He) as (c & st1 & -> & Hg1 & Hp1 & Hd1).
      apply Hrec. fwd; [done|lia|congruence].
Qed.

Lemma scan_string_good scan start st :
  ((interp_depth st < MAX_INTERP_DEPTH)%nat -> scans (S (interp_depth st)) scan) ->
  good st -> at_char src start -> (start <= pos st)%nat ->
  reaches_pos (pos st) (interp_depth st) (scan_string src file_id scan start st).
Proof.
  intros Hscan Hg Hs Hle. unfold scan_string.
  destruct (Nat.leb_spec MAX_INTERP_DEPTH (interp_depth st)).
  - pose proof (wf_pos _ (proj1 Hg)).
    destruct (emit_good TK_Error start (length src) []
      (set_pos (emit_diag st (D_InterpolationTooDeep (span file_id start (start + 1)))) (length src)))
      as (st' & -> & Hg' & Hp' & Hd'); [|lia|done|apply at_char_end|].
    + apply good_set_pos; [|apply at_char_end]. apply wf_emit_diag, Hg.
    + exists st'. split_and!; [done|done|cbn in Hp'; lia|done].
  - apply string_loop_good; auto. unfold loop_fuel. lia.
Qed.

(** *** Tokens *)

Lemma scan_operator_good ch alts alone start st :
  good st -> at_char src start -> (start <= pos st)%nat ->
  (forall k kind, assoc k alts = Some kind -> k < 0x80) ->
  reaches_pos (pos st) (interp_depth st) (scan_operator src file_id ch alts alone start st).
Proof.
  intros Hg Hs Hle Halts. unfold scan_operator. destruct (at_end src st) eqn:He.
  { apply emit_good; [done|done|done|apply Hg]. }
  destruct (assoc (peek src st) alts) as [kind|] eqn:Ha; [|apply emit_good; [done|done|done|apply Hg]].
  assert (Hg1 : good (set_pos st (S (pos st)))).
  { apply good_set_pos; [apply Hg|]. eapply at_char_ascii; [apply Hg|by apply peek_lookup|by eapply Halts]. }
  eapply (reaches_pos_le _ (S (pos st))); [lia|].
  apply (emit_good _ _ _ _ (set_pos st (S (pos st)))); [done|cbn; lia|done|apply Hg1].
Qed.

Lemma match_char_good k st :
  good st -> 0 < k < 0x80 -> forward st (pos st) (snd (match_char src k st)).
Proof.
  intros Hg Hk. unfold match_char. destruct (at_end src st) eqn:He; cbn [orb]; [by apply forward_refl|].
  destruct (peek src st =? k) eqn:Hp; cbn [negb snd]; [|by apply forward_refl].
  destruct (skip_char_good st k Hg Hp Hk) as (Hg1 & Hp1 & Hd1).
  rewrite skip_pos in Hg1 by done. fwd; [done|cbn; lia|done].
Qed.

Lemma scan_dots_good start st :
  good st -> at_char src start -> (start <= pos st)%nat ->
  reaches_pos (pos st) (interp_depth st) (scan_dots src file_id start st).
Proof.
  intros Hg Hs Hle. unfold scan_dots.
  destruct (match_char_good (chr ".") st Hg ltac:(done)) as (Hg1 & Hp1 & Hd1).
  destruct (match_char src (chr ".") st) as [two st1]. cbn [snd] in *. rewrite <-Hd1.
  apply (reaches_pos_le _ (pos st1)); [lia|].
  destruct two; [|apply emit_good; [done|lia|done|apply Hg1]].
  destruct (match_char_good (chr "=") st1 Hg1 ltac:(done)) as (Hg2 & Hp2 & Hd2).
  destruct (match_char src (chr "=") st1) as [eq st2]. cbn [snd] in *. rewrite <-Hd2.
  apply (reaches_pos_le _ (pos st2)); [lia|].
  destruct eq; (apply emit_good; [done|lia|done|apply Hg2]).
Qed.

Lemma skip_high_good fuel st :
  good st -> (length src - pos st < fuel)%nat ->
  exists st', skip_high src fuel st = Done st' /\ forward st (pos st) st'.
Proof.
  revert st. induction fuel as [|n IH]; intros st Hg Hf; [lia|]. cbn [skip_high].
  destruct (negb (at_end src st) && _) eqn:Hc; [|eexists; split; [reflexivity|by apply forward_refl]].
  apply andb_true_iff in Hc as [He%negb_true_iff _]. pose proof (at_end_false st He).
  destruct (advance_utf8_advances st Hg He) as (c & st1 & -> & Hg1 & Hp1 & Hd1). cbn.
  destruct (IH st1 Hg1 ltac:(lia)) as (st2 & -> & Hg2 & Hp2 & Hd2).
  eexists. split; [reflexivity|]. fwd; [done|lia|congruence].
Qed.

Definition top_bits_cont (b : Z) : bool := Z.land b 0xC0 =? 0x80.

Lemma top_bits_cont_spec b : top_bits_cont b = false -> is_cont b = false.
Proof.
  intros Hb. destruct (is_cont b) eqn:Hc; [|done]. exfalso. apply in_range_spec in Hc.
  assert (Hall : forallb (fun k => top_bits_cont (0x80 + Z.of_nat k)) (seq 0 64) = true)
    by (vm_compute; reflexivity).
  rewrite forallb_forall in Hall. specialize (Hall (Z.to_nat (b - 0x80)) ltac:(apply in_seq; lia)).
  replace (0x80 + Z.of_nat (Z.to_nat (b - 0x80))) with b in Hall by lia. congruence.
Qed.

Lemma scan_invalid_good ch start st :
  wf st -> at_char src start -> (start <= pos st)%nat -> (ch < 0x80 -> at_char src (pos st)) ->
  reaches_pos (pos st) (interp_depth st) (scan_invalid src file_id ch start st).
Proof.
  intros Hw Hs Hle Hch. unfold scan_invalid. destruct (Z.leb_spec 0x80 ch).
  - destruct (skip_while_good_stop top_bits_cont st Hw top_bits_cont_spec) as (Hg1 & Hp1 & Hd1).
    change (fun b => Z.land b 0xC0 =? 0x80) with top_bits_cont.
    destruct (skip_high_good (loop_fuel src) (skip_while src top_bits_cont st) Hg1 ltac:(unfold loop_fuel; lia))
      as (st2 & -> & Hg2 & Hp2 & Hd2). cbn [mbind res_bind].
    rewrite slice_str_ok by (apply Hg2 || done || lia). cbn [mbind res_bind].
    replace (interp_depth st) with (interp_depth st2) by congruence.
    apply (reaches_pos_le _ (pos st2)); [lia|].
    apply (emit_good _ _ _ _ (emit_diag st2 _)); [by apply good_emit_diag|lia|done|apply Hg2].
  - assert (Hg : good st) by (split; auto). apply emit_good; [done|done|done|apply Hg].
Qed.

Lemma assoc_in {A} k (l : list (Z * A)) a : assoc k l = Some a -> In (k, a) l.
Proof.
  unfold assoc. destruct (find _ l) as [[k' a']|] eqn:Hf; [|done]. intros [= <-].
  apply find_some in Hf as [Hin Hk%Z.eqb_eq]. cbn in *. by subst k'.
Qed.

Lemma single_tokens_ascii k kind : assoc k single_tokens = Some kind -> 0 < k < 0x80.
Proof.
  intros Hin%assoc_in. assert (Hall : forallb (fun e => (0 <? fst e) && (fst e <? 0x80)) single_tokens = true)
    by (vm_compute; reflexivity).
  rewrite forallb_forall in Hall. apply Hall in Hin. cbn in Hin. lia.
Qed.

Lemma operator_tokens_ascii k alts alone :
  assoc k operator_tokens = Some (alts, alone) ->
  0 < k < 0x80 /\ forall k' kind, assoc k' alts = Some kind -> k' < 0x80.
Proof.
  intros Hin%assoc_in.
  assert (Hall : forallb (fun e => (0 <? fst e) && (fst e <? 0x80)
    && forallb (fun e' => fst e' <? 0x80) (fst (snd e))) operator_tokens = true)
    by (vm_compute; reflexivity).
  rewrite forallb_forall in Hall. apply Hall in Hin. cbn in Hin.
  apply andb_true_iff in Hin as [Hk Halts]. split; [lia|]. intros k' kind Hin'%assoc_in.
  rewrite forallb_forall in Halts. apply Halts in Hin'. cbn in Hin'. lia.
Qed.

Lemma scan_token_body_good scan st :
  ((interp_depth st < MAX_INTERP_DEPTH)%nat -> scans (S (interp_depth st)) scan) ->
  good st -> at_end src st = false ->
  reaches_pos (S (pos st)) (interp_depth st) (scan_token_body src file_id scan st).
Proof.
  intros Hscan Hg He. unfold scan_token_body, advance. rewrite He.
  set (ch := peek src st). set (st1 := set_pos st (S (pos st))).
  pose proof (proj2 Hg) as Hs. pose proof (at_end_false st He).
  assert (Hw1 : wf st1) by (apply wf_set_pos; [apply Hg|lia]).
  assert (Hg1 : ch < 0x80 -> good st1).
  { intros Hlt. apply good_set_pos; [apply Hg|]. eapply at_char_ascii; [done|by apply peek_lookup|done]. }
  assert (Hle : (pos st <= pos st1)%nat) by (cbn; lia).
  change (S (pos st)) with (pos st1). change (interp_depth st) with (interp_depth st1).
  destruct (assoc ch single_tokens) as [kind|] eqn:H1.
  { apply single_tokens_ascii in H1. apply emit_good; [apply Hg1; lia|done|done|apply Hg1; lia]. }
  destruct (assoc ch operator_tokens) as [[alts alone]|] eqn:H2.
  { apply operator_tokens_ascii in H2 as [Hr Halts].
    apply scan_operator_good; [apply Hg1; lia|done|done|done]. }
  destruct (Z.eqb_spec ch (chr ".")) as [Hd|_]; [apply scan_dots_good; try done; apply Hg1; by rewrite Hd|].
  destruct (Z.eqb_spec ch quote) as [Hd|_]; [apply scan_string_good; try done; apply Hg1; by rewrite Hd|].
  destruct (Z.eqb_spec ch apostrophe) as [Hd|_]; [apply scan_char_good; try done; apply Hg1; by rewrite Hd|].
  destruct (is_digit ch) eqn:Hdig.
  { apply is_digit_ascii in Hdig. apply scan_number_good; auto. }
  destruct (is_alpha ch || is_underscore ch) eqn:Hid.
  { apply scan_identifier_good; auto. apply Hg1, is_alphanumeric_ascii.
    unfold is_alphanumeric. apply orb_true_iff in Hid as [-> | ->]; [done|by rewrite orb_true_r]. }
  apply scan_invalid_good; [done|done|done|]. intros Hlt. by apply Hg1.
Qed.

(** The levels of the recursion: one per interpolation still allowed. *)
Lemma scan_token_good levels st :
  (MAX_INTERP_DEPTH < levels + interp_depth st)%nat -> good st -> at_end src st = false ->
  reaches_pos (S (pos st)) (interp_depth st) (scan_token src file_id levels st).
Proof.
  revert st. induction levels as [|levels IH]; intros st Hl Hg He.
  - pose proof (wf_depth _ (proj1 Hg)). lia.
  - cbn [scan_token]. apply scan_token_body_good; [|done|done].
    intros Hlt st' Hg' He' Hd'. rewrite <-Hd'. apply IH; [lia|done|done].
Qed.

Lemma tokenize_loop_good fuel st :
  good st -> interp_depth st = O -> (length src - pos st < fuel)%nat ->
  reaches_pos (pos st) 0 (tokenize_loop src file_id fuel st).
Proof.
  revert st. induction fuel as [|n IH]; intros st Hg Hd Hf; [lia|]. cbn [tokenize_loop].
  destruct (at_end src st) eqn:He; [by exists st|].
  destruct (skip_whitespace_good (loop_fuel src) st Hg ltac:(unfold loop_fuel; lia))
    as (st1 & -> & Hg1 & Hp1 & Hd1). cbn [mbind res_bind].
  destruct (at_end src st1) eqn:He1; [exists st1; split_and!; [done|done|lia|congruence]|].
  destruct (scan_token_good max_levels st1) as (st2 & -> & Hg2 & Hp2 & Hd2);
    [unfold max_levels; lia|done|done|]. cbn [mbind res_bind].
  apply at_end_false in He1. apply (reaches_pos_le _ (pos st2)); [lia|].
  apply IH; [done|congruence|lia].
Qed.
End Safe.

Lemma tokenize_good src file_id :
  utf8_valid src = true ->
  exists toks diags eof,
    tokenize_with_diagnostics src file_id = Done (toks ++ [eof], diags)
    /\ t_kind eof = TK_Eof /\ t_text eof = []
    /\ Forall (token_ok src file_id) (toks ++ [eof]).
Proof.
  intros Hsrc. unfold tokenize_with_diagnostics.
  assert (Hg0 : good src file_id new_lexer).
  { split; [|by apply at_char_0]. split; cbn; [lia|lia|lia|constructor]. }
  destruct (tokenize_loop_good src file_id Hsrc (loop_fuel src) new_lexer Hg0 eq_refl
    ltac:(unfold loop_fuel; cbn; lia)) as (st & -> & Hg & _). cbn [mbind res_bind].
  destruct (emit_good src file_id TK_Eof (pos st) (pos st) [] st Hg ltac:(done) (proj2 Hg) (proj2 Hg))
    as (st' & He & Hg' & _). rewrite He. cbn [mbind res_bind].
  unfold emit in He. apply res_bind_Done in He as (gap & _ & [= <-]).
  do 3 eexists. split; [reflexivity|]. split; [done|]. split; [done|]. apply (wf_tokens _ _ _ (proj1 Hg')).
Qed.

(** C1: the lexer is total on UTF-8 sources: within one round per byte in each
    loop and 65 levels of recursion, whatever the nesting of interpolations, it
    returns without a panic; the stream ends with the one [Eof] token it adds,
    and every token's span is a slice of the source between character
    boundaries. *)
Theorem tokenize_total src file_id :
  utf8_valid src = true ->
  exists toks diags eof,
    tokenize_with_diagnostics src file_id = Done (toks ++ [eof], diags)
    /\ t_kind eof = TK_Eof /\ t_text eof = []
    /\ Forall (token_ok src file_id) (toks ++ [eof]).
Proof. apply tokenize_good. Qed.

Lemma tokenize_total_witness :
  exists toks diags eof,
    tokenize_with_diagnostics (bytes "let s = 1.5e // x") 7 = Done (toks ++ [eof], diags)
    /\ t_kind eof = TK_Eof /\ t_text eof = []
    /\ Forall (token_ok (bytes "let s = 1.5e // x") 7) (toks ++ [eof]).
Proof. apply (tokenize_total (bytes "let s = 1.5e // x") 7). vm_compute. reflexivity. Defined.
