(* ===== verification/LexerSpec.v ===== *)
(** What the lexer recognises: words are one token of their kind, and string
    literals read back the text their escapes stand for. *)

From S2P Require Import Prelude Machine Token Utf8 Text Lexer LexerSafe.

Section Single.
Context (src : list Z) (file_id : Z).
Implicit Types (st : Lexer).

(** Nothing to skip before a byte that is neither white space nor a slash. *)
Lemma skip_nothing b r n :
  src = b :: r -> is_ws b = false -> b <> chr "/" ->
  skip_whitespace_and_comments src file_id (S n) new_lexer = Done new_lexer.
Proof.
  intros Hs Hws Hsl. cbn [skip_whitespace_and_comments].
  assert (skip_while src is_ws new_lexer = new_lexer) as ->.
  { unfold skip_while. cbn [pos new_lexer]. rewrite drop_0, Hs. cbn. by rewrite Hws. }
  assert (at_end src new_lexer = false) as -> by (by rewrite Hs).
  assert (peek src new_lexer = b) as -> by (by rewrite Hs).
  rewrite (proj2 (Z.eqb_neq _ _) Hsl). done.
Qed.

(** A source that is one token. *)
Lemma tokenize_single b r st :
  src = b :: r -> is_ws b = false -> b <> chr "/" ->
  scan_token src file_id max_levels new_lexer = Done st ->
  pos st = length src -> last_token_end st = length src ->
  tokenize_with_diagnostics src file_id
  = Done (tokens st ++ [mkToken TK_Eof (span file_id (length src) (length src)) [] false], diagnostics st).
Proof.
  intros Hs Hws Hsl Hscan Hp Hl. unfold tokenize_with_diagnostics.
  assert (Hend : at_end src st = true) by (unfold at_end; apply Nat.leb_le; lia).
  assert (tokenize_loop src file_id (loop_fuel src) new_lexer = Done st) as ->.
  { unfold loop_fuel at 1. cbn [tokenize_loop].
    assert (at_end src new_lexer = false) as He by (by rewrite Hs). rewrite He.
    unfold loop_fuel. rewrite (skip_nothing b r) by done. cbn [mbind res_bind]. rewrite He, Hscan.
    cbn [mbind res_bind]. rewrite Hs at 2. cbn [length tokenize_loop]. by rewrite Hend. }
  cbn [mbind res_bind]. unfold emit, slice_bytes. rewrite Hp, Hl, Nat.max_id, Nat.leb_refl.
  cbn. by rewrite Nat.sub_diag.
Qed.
End Single.

(* ------------------------------------------------------------------ *)
(** ** Characters                                                      *)
(* ------------------------------------------------------------------ *)

(** The lead byte decides how many bytes a character has; the bytes after them
    do not matter. *)
Lemma decode_char_width b0 r c k :
  decode_char (b0 :: r) = Some (c, k) -> 0 <= b0 -> 0x80 <= b0 ->
  utf8_width b0 = Some k /\ (k <= length (b0 :: r))%nat
  /\ decode_char (take k (b0 :: r)) = Some (c, k) /\ (1 < k)%nat.
Proof.
  intros Hd H0 H80. unfold decode_char in Hd. rewrite in_range_false in Hd by lia.
  unfold utf8_width.
  destruct r as [|b1 r]; [done|]. destruct (in_range 0xC2 0xDF b0) eqn:H2.
  { destruct (is_cont b1) eqn:Hc; [|done]. injection Hd as <- <-. split_and!; [done|cbn; lia| |lia].
    cbn [take decode_char]. rewrite in_range_false by lia. by rewrite H2, Hc. }
  destruct r as [|b2 r]; [done|]. destruct (in_range 0xE0 0xEF b0) eqn:H3.
  { destruct (_ && _) eqn:Hc in Hd; [|done]. injection Hd as <- <-. split_and!; [done|cbn; lia| |lia].
    cbn [take decode_char]. rewrite in_range_false by lia. by rewrite H2, H3, Hc. }
  destruct r as [|b3 r]; [done|]. destruct (in_range 0xF0 0xF4 b0) eqn:H4; [|done].
  destruct (_ && _) eqn:Hc in Hd; [|done]. injection Hd as <- <-. split_and!; [done|cbn; lia| |lia].
  cbn [take decode_char]. rewrite in_range_false by lia. by rewrite H2, H3, H4, Hc.
Qed.

(** A slice that is not one character decodes to nothing. *)
Lemma utf8_chars_slice b0 r width :
  utf8_width b0 = Some width -> (width <= length (b0 :: r))%nat -> 0x80 <= b0 ->
  utf8_chars (take width (b0 :: r))
  = match decode_char (b0 :: r) with Some (c, _) => Some [c] | None => None end.
Proof.
  intros Hw Hlen H80. assert (2 <= width)%nat by (unfold utf8_width in Hw; repeat case_match; simplify_eq; lia).
  unfold utf8_chars. destruct (decode_char (b0 :: r)) as [[c k]|] eqn:Hd.
  - destruct (decode_char_width b0 r c k Hd ltac:(lia) H80) as (Hk & _ & Ht & _).
    rewrite Hw in Hk. injection Hk as <-. rewrite length_take, Nat.min_l by done.
    destruct width as [|n]; [lia|]. cbn [take chars_fuel] in *. rewrite Ht.
    rewrite drop_ge by (cbn; rewrite length_take; lia). by destruct n.
  - rewrite length_take, Nat.min_l by done. destruct width as [|n]; [lia|]. cbn [take chars_fuel].
    destruct (decode_char (b0 :: take n r)) as [[c k]|] eqn:Ht; [|done].
    destruct (decode_char_width b0 (take n r) c k Ht ltac:(lia) H80) as (Hk & _ & _ & _).
    rewrite Hw in Hk. injection Hk as <-.
    (* decoding looks at [width] bytes only *)
    exfalso. revert Hd Ht Hw Hlen. unfold decode_char, utf8_width. rewrite in_range_false by lia.
    destruct r as [|b1 r]; [cbn; lia|].
    destruct (in_range 0xC2 0xDF b0); [intros Hd Ht [= <-]; cbn in Ht; by rewrite Hd in Ht|].
    destruct (in_range 0xE0 0xEF b0).
    { intros Hd Ht [= <-] Hl. destruct r as [|b2 r]; [cbn in Hl; lia|]. cbn in Ht. by rewrite Hd in Ht. }
    destruct (in_range 0xF0 0xF4 b0); [|done].
    intros Hd Ht [= <-] Hl. destruct r as [|b2 [|b3 r]]; [cbn in Hl; lia..|]. cbn in Hd, Ht. by rewrite Hd in Ht.
Qed.

(** The character read at a position, and the state after it. *)
Definition char_at (src : list Z) (st : Lexer) : Z * Lexer :=
  match decode_char (drop (pos st) src) with
  | Some (c, k) => (c, set_pos st (pos st + k)%nat)
  | None => (replacement, set_pos st (S (pos st)))
  end.

(** on any bytes, well formed or not, [advance_utf8] reads the character that
    starts at the position and moves past its bytes; where none starts it moves
    by one byte and yields U+FFFD. It never panics. *)
Lemma advance_utf8_spec src st :
  Forall (fun b => 0 <= b < 256) src -> at_end src st = false ->
  advance_utf8 src st = Done (char_at src st).
Proof.
  intros Hb He. unfold char_at. pose proof (peek_lookup src st He) as Hp. unfold advance_utf8. rewrite He.
  set (b0 := peek src st) in *.
  assert (Hd : drop (pos st) src = b0 :: drop (S (pos st)) src) by (by apply drop_S).
  assert (H0 : 0 <= b0 < 256) by (rewrite Forall_lookup in Hb; by eapply Hb).
  destruct (Z.ltb_spec b0 0x80) as [Hlt|Hge].
  { rewrite Hd. cbn [decode_char]. rewrite (proj2 (in_range_spec 0 0x7F b0)) by lia.
    by rewrite Nat.add_1_r. }
  destruct (utf8_width b0) as [width|] eqn:Hw.
  2: { destruct (decode_char (drop (pos st) src)) as [[c k]|] eqn:Hdc; [|done].
       rewrite Hd in Hdc. apply decode_char_width in Hdc as [Hk _]; [congruence|lia|lia]. }
  destruct (Nat.ltb_spec (length src) (pos st + width)) as [Hover|Hfits].
  { destruct (decode_char (drop (pos st) src)) as [[c k]|] eqn:Hdc; [|done].
    rewrite Hd in Hdc. apply decode_char_width in Hdc as (Hk & Hl & _); [|lia|lia].
    rewrite <-Hd, length_drop in Hl. rewrite Hw in Hk. injection Hk as <-.
    apply at_end_false in He. lia. }
  rewrite Hd, (utf8_chars_slice b0 _ width Hw) by (lia || (rewrite <-Hd, length_drop; lia)).
  destruct (decode_char _) as [[c k]|] eqn:Hdc; [|done].
  apply decode_char_width in Hdc as [Hk _]; [|lia|lia]. rewrite Hw in Hk. by injection Hk as <-.
Qed.

Lemma advance_utf8_spec_witness :
  advance_utf8 [0xE2; 0x82; 0xAC; 33] new_lexer = Done (0x20AC, set_pos new_lexer 3).
Proof.
  rewrite (advance_utf8_spec [0xE2; 0x82; 0xAC; 33] new_lexer); [vm_compute; reflexivity|..].
  - repeat constructor; discriminate || lia.
  - reflexivity.
Defined.

(* ------------------------------------------------------------------ *)
(** ** Words                                                           *)
(* ------------------------------------------------------------------ *)

Definition word_byte (b : Z) : bool := is_alphanumeric b || is_underscore b.

Definition is_word (l : list Z) : bool :=
  match l with b :: r => (is_alpha b || is_underscore b) && forallb word_byte r | [] => false end.

Lemma word_byte_range b : word_byte b = true -> 0 < b < 0x80.
Proof.
  unfold word_byte, is_alphanumeric, is_alpha, is_digit, is_underscore.
  rewrite !orb_true_iff, !in_range_spec, Z.eqb_eq. cbn -[Z.le Z.lt]. lia.
Qed.

Lemma identifier_loop_word src fuel flag st pre w :
  src = pre ++ w -> pos st = length pre -> forallb word_byte w = true -> (length w < fuel)%nat ->
  identifier_loop src fuel flag st = Done (flag, set_pos st (length src)).
Proof.
  revert st pre fuel. induction w as [|b w IH]; intros st pre fuel Hs Hp Hw Hf;
    (destruct fuel as [|n]; [cbn in Hf; lia|]); cbn [identifier_loop].
  - assert (at_end src st = true) as ->.
    { unfold at_end. apply Nat.leb_le. rewrite Hs, app_nil_r. lia. }
    rewrite Hs, app_nil_r, <-Hp. by destruct st.
  - assert (src !! pos st = Some b) as Hb by (rewrite Hs, Hp; by rewrite list_lookup_middle).
    assert (at_end src st = false) as He by (unfold at_end; apply Nat.leb_gt; by eapply lookup_lt_Some).
    cbn in Hw. apply andb_true_iff in Hw as [Hwb Hw].
    assert (peek src st = b) as -> by (unfold peek, peek_at; by rewrite Nat.add_0_r, Hb).
    rewrite He. unfold word_byte in Hwb. rewrite Hwb. rewrite skip_pos by done.
    rewrite (IH _ (pre ++ [b])); [done|by rewrite <-app_assoc|rewrite length_app; cbn; lia|done|cbn in Hf; lia].
Qed.

Lemma word_valid w : forallb word_byte w = true -> utf8_valid w = true.
Proof.
  intros Hw. apply utf8_valid_spec. exists w. induction w as [|b w IH]; [split; [done|constructor]|].
  cbn in Hw. apply andb_true_iff in Hw as [Hb Hw]. destruct (IH Hw) as [He Hs].
  apply word_byte_range in Hb. split.
  - change (encode_all (b :: w)) with (encode_utf8 b ++ encode_all w). rewrite <-He.
    unfold encode_utf8. by destruct (Z.ltb_spec b 0x80); [|lia].
  - constructor; [|done]. apply is_scalar_spec. lia.
Qed.

(** No word starts with the byte of another arm of [scan_token]. *)
Lemma word_start_arm b :
  is_alpha b || is_underscore b = true ->
  assoc b single_tokens = None /\ assoc b operator_tokens = None /\ is_digit b = false
  /\ b <> chr "." /\ b <> quote /\ b <> apostrophe /\ b <> chr "/" /\ is_ws b = false.
Proof.
  intros Hb.
  assert (Hr : 65 <= b <= 90 \/ b = 95 \/ 97 <= b <= 122).
  { unfold is_alpha, is_underscore in Hb. rewrite !orb_true_iff, !in_range_spec, Z.eqb_eq in Hb.
    cbn -[Z.le] in Hb. tauto. }
  assert (Hnone : forall A (l : list (Z * A)),
    forallb (fun e => negb (is_alpha (fst e) || is_underscore (fst e))) l = true -> assoc b l = None).
  { intros A l Hl. destruct (assoc b l) as [a|] eqn:Ha; [|done]. apply assoc_in in Ha.
    rewrite forallb_forall in Hl. apply Hl in Ha. cbn in Ha. by rewrite Hb in Ha. }
  split_and!; [by apply Hnone|by apply Hnone| | | | | |];
    unfold is_digit, is_ws, newline, quote, apostrophe; cbn -[Z.le in_range Z.eqb];
    try (apply in_range_false); rewrite ?orb_false_iff, ?Z.eqb_neq; lia.
Qed.

(** A word is lexed as one token that covers it, of the kind its table
    entry gives: keyword, builtin type or identifier. *)
Lemma tokenize_word w file_id :
  is_word w = true ->
  tokenize_with_diagnostics w file_id
  = Done ([mkToken (word_kind (string_of_bytes w)) (span file_id 0 (length w)) w false;
           mkToken TK_Eof (span file_id (length w) (length w)) [] false], []).
Proof.
  intros Hw. destruct w as [|b r]; [done|]. set (w := b :: r) in *.
  assert (Hstart : is_alpha b || is_underscore b = true)
    by (unfold w in Hw; cbn in Hw; by apply andb_true_iff in Hw as [? _]).
  assert (Hr : forallb word_byte r = true)
    by (unfold w in Hw; cbn in Hw; by apply andb_true_iff in Hw as [_ ?]).
  assert (Hall : forallb word_byte w = true).
  { cbn. rewrite Hr, andb_true_r. unfold word_byte, is_alphanumeric.
    apply orb_true_iff in Hstart as [-> | ->]; [done|by rewrite orb_true_r]. }
  destruct (word_start_arm b Hstart) as (H1 & H2 & H3 & H4 & H5 & H6 & H7 & H8).
  apply (tokenize_single w file_id b r (mkLexer (length w)
    [mkToken (word_kind (string_of_bytes w)) (span file_id 0 (length w)) w false] [] (length w) 0));
    try done.
  unfold max_levels. cbn [scan_token]. unfold scan_token_body, advance.
  assert (at_end w new_lexer = false) as -> by done. cbn [pos new_lexer].
  assert (peek w new_lexer = b) as -> by done.
  rewrite H1, H2, (proj2 (Z.eqb_neq _ _) H4), (proj2 (Z.eqb_neq _ _) H5),
    (proj2 (Z.eqb_neq _ _) H6), H3, Hstart.
  unfold scan_identifier. rewrite (identifier_loop_word w _ _ _ [b] r); [|done|done|done|unfold loop_fuel; cbn; lia].
  cbn [mbind res_bind pos set_pos].
  rewrite slice_str_ok; [|apply at_char_0; by apply word_valid|apply at_char_end|cbn; lia].
  cbn [mbind res_bind]. rewrite drop_0, Nat.sub_0_r, firstn_all. reflexivity.
Qed.

Lemma tokenize_word_witness :
  tokenize_with_diagnostics (bytes "spawn") 0
  = Done ([mkToken TK_Spawn (mkSpan 0 0 5) (bytes "spawn") false; mkToken TK_Eof (mkSpan 0 5 5) [] false], []).
Proof. rewrite (tokenize_word (bytes "spawn") 0); vm_compute; reflexivity. Defined.

(* ------------------------------------------------------------------ *)
(** ** String literals                                                 *)
(* ------------------------------------------------------------------ *)

(** How a character is written inside a literal. *)
Definition escape_char (c : Z) : list Z :=
  if c =? quote then [backslash; quote] else if c =? backslash then [backslash; backslash]
  else if c =? 10 then [backslash; chr "n"] else if c =? 9 then [backslash; chr "t"]
  else if c =? 13 then [backslash; chr "r"] else if c =? 0 then [backslash; chr "0"]
  else if c =? chr "{" then [chr "{"; chr "{"] else if c =? chr "}" then [chr "}"; chr "}"]
  else encode_utf8 c.

Definition escape_all (cs : list Z) : list Z := flat_map escape_char cs.

Section Literal.
Context (src : list Z) (file_id : Z) (scan : Lexer -> res Lexer).
Implicit Types (st : Lexer).

Lemma drop_at_end st b l : drop (pos st) src = b :: l -> at_end src st = false.
Proof.
  intros Hd. apply (f_equal length) in Hd. rewrite length_drop in Hd. cbn in Hd.
  unfold at_end. apply Nat.leb_gt. lia.
Qed.

Lemma drop_peek st k l b : drop (pos st) src = l -> l !! k = Some b -> peek_at src st k = b.
Proof. intros Hd Hk. unfold peek_at. by rewrite <-lookup_drop, Hd, Hk. Qed.

Lemma drop_skip st b l :
  drop (pos st) src = b :: l ->
  skip src st = set_pos st (S (pos st)) /\ drop (S (pos st)) src = l.
Proof.
  intros Hd. split; [apply skip_pos; by eapply drop_at_end|].
  by rewrite <-Nat.add_1_r, <-drop_drop, Hd.
Qed.

(** One round of the loop reads one escaped character. *)
Lemma string_loop_char n start text flag st c l :
  is_scalar c = true -> drop (pos st) src = escape_char c ++ l ->
  string_loop src file_id scan (S n) start text flag st
  = string_loop src file_id scan n start (text ++ encode_utf8 c) flag
      (set_pos st (pos st + length (escape_char c))%nat).
Proof.
  intros Hs. unfold escape_char.
  repeat match goal with |- context [if c =? ?k then _ else _] => destruct (Z.eqb_spec c k) as [-> |?] end;
    intros Hd; cbn [string_loop].
  9: {
    destruct (encode_utf8_head c Hs) as (b & r & He & _ & _ & Hsm & Hbg).
    assert (Hb : forall k, 0 <= k < 0x80 -> c <> k -> (b =? k) = false).
    { intros k Hk Hck. apply Z.eqb_neq. destruct (Z.lt_ge_cases c 0x80) as [Hlt|Hge].
      - destruct (Hsm Hlt) as [-> _]. done.
      - specialize (Hbg Hge). lia. }
    assert (Hd' : drop (pos st) src = b :: (r ++ l)) by (rewrite Hd, He; done).
    rewrite (drop_at_end _ _ _ Hd'). unfold peek. rewrite (drop_peek st 0 _ b Hd') by done.
    rewrite !Hb by (done || (unfold quote, backslash, chr; cbn; lia)). cbn [orb andb].
    rewrite (advance_utf8_char src st c l) by done. done. }
  all: cbn [app] in Hd; rewrite (drop_at_end _ _ _ Hd); unfold peek;
    rewrite (drop_peek st 0 _ _ Hd eq_refl), ?(drop_peek st 1 _ _ Hd eq_refl); cbn -[string_loop skip].
  all: unfold scan_escape; destruct (drop_skip _ _ _ Hd) as [-> Hd1].
  all: pose proof (drop_skip (set_pos st (S (pos st))) _ _ Hd1) as [Hsk _].
  7-8: rewrite Hsk; cbn -[string_loop]; by replace (pos st + 2)%nat with (S (S (pos st))) by lia.
  all: rewrite (drop_at_end (set_pos st (S (pos st))) _ _ Hd1); unfold peek;
    rewrite (drop_peek (set_pos st (S (pos st))) 0 _ _ Hd1 eq_refl);
    unfold advance; rewrite (drop_at_end (set_pos st (S (pos st))) _ _ Hd1); unfold peek;
    rewrite (drop_peek (set_pos st (S (pos st))) 0 _ _ Hd1 eq_refl);
    cbn -[string_loop]; by replace (pos st + 2)%nat with (S (S (pos st))) by lia.
Qed.
(** The whole loop, up to the closing quote. *)
Lemma string_loop_escaped cs n start text flag st l :
  scalars cs -> drop (pos st) src = escape_all cs ++ quote :: l -> (length cs < n)%nat ->
  string_loop src file_id scan n start text flag st
  = end_string src file_id start (text ++ encode_all cs) flag
      (set_pos st (pos st + length (escape_all cs))%nat).
Proof.
  intros Hcs. revert n text st. induction Hcs as [|c cs Hc Hcs IH]; intros n text st Hd Hn;
    (destruct n as [|n]; [cbn in Hn; lia|]).
  - cbn [string_loop escape_all flat_map app] in *. unfold peek.
    rewrite (drop_peek st 0 _ _ Hd eq_refl), Z.eqb_refl, orb_true_r, app_nil_r, Nat.add_0_r.
    by destruct st.
  - cbn [escape_all flat_map] in Hd. fold (escape_all cs) in Hd. rewrite <-app_assoc in Hd.
    rewrite (string_loop_char n start text flag st c _ Hc Hd). rewrite IH; [|..|cbn in Hn; lia].
    + cbn. by rewrite length_app, Nat.add_assoc, <-app_assoc.
    + cbn [pos set_pos]. rewrite <-drop_drop, Hd. apply drop_app_length.
Qed.
End Literal.

Lemma escape_char_length c : (1 <= length (escape_char c))%nat.
Proof.
  unfold escape_char. repeat (destruct (_ =? _); [cbn; lia|]). apply encode_utf8_length.
Qed.

Lemma escape_all_length cs : (length cs <= length (escape_all cs))%nat.
Proof.
  induction cs as [|c cs IH]; [done|]. cbn [escape_all flat_map length]. fold (escape_all cs).
  rewrite length_app. pose proof (escape_char_length c). lia.
Qed.

(** C40: writing a text as a string literal and lexing it gives the text back:
    every character, escaped where it must be, is read as itself, and the
    literal is a single [String] token that starts no interpolation. *)
Theorem tokenize_string_literal cs file_id :
  scalars cs ->
  let src := quote :: escape_all cs ++ [quote] in
  tokenize_with_diagnostics src file_id
  = Done ([mkToken TK_String (span file_id 0 (length src)) (encode_all cs) false;
           mkToken TK_Eof (span file_id (length src) (length src)) [] false], []).
Proof.
  intros Hcs src.
  assert (Hlen : length src = S (length (escape_all cs) + 1)) by (cbn; by rewrite length_app).
  apply (tokenize_single src file_id quote (escape_all cs ++ [quote]) (mkLexer (length src)
    [mkToken TK_String (span file_id 0 (length src)) (encode_all cs) false] [] (length src) 0));
    try done.
  unfold max_levels. cbn [scan_token]. unfold scan_token_body, advance.
  assert (at_end src new_lexer = false) as -> by done. cbn [pos new_lexer].
  assert (peek src new_lexer = quote) as -> by done. cbn [assoc].
  assert (assoc quote single_tokens = None) as -> by done.
  assert (assoc quote operator_tokens = None) as -> by done.
  assert ((quote =? chr ".") = false) as -> by done. rewrite Z.eqb_refl.
  unfold scan_string. cbn [interp_depth set_pos new_lexer MAX_INTERP_DEPTH Nat.leb].
  rewrite (string_loop_escaped src file_id _ cs _ _ _ _ _ []); [|done|done|].
  2: { unfold loop_fuel. pose proof (escape_all_length cs). lia. }
  unfold end_string, at_end. cbn [pos set_pos].
  rewrite (proj2 (Nat.leb_gt _ _)) by lia. cbn [negb].
  rewrite skip_pos by (unfold at_end; cbn [pos set_pos]; apply Nat.leb_gt; lia).
  cbn [pos set_pos]. replace (S (1 + length (escape_all cs)))%nat with (length src) by lia.
  reflexivity.
Qed.

Lemma tokenize_string_literal_witness :
  let src := quote :: escape_all [34; 92; 10; 123; 0x20AC; 125] ++ [quote] in
  tokenize_with_diagnostics src 3
  = Done ([mkToken TK_String (span 3 0 (length src)) (encode_all [34; 92; 10; 123; 0x20AC; 125]) false;
           mkToken TK_Eof (span 3 (length src) (length src)) [] false], []).
Proof.
  apply (tokenize_string_literal [34; 92; 10; 123; 0x20AC; 125] 3).
  repeat constructor.
Defined.
