(* ===== verification/Ast.v ===== *)
(** The syntax tree ([kryos-ast/src/expr.rs], [stmt.rs], [types.rs], [decl.rs]).
    A [Box] is its content, an [i64] and a [char] are their values in [Z], an [f64]
    is a [spec_float] and a [String] is the list of its bytes. *)

From Stdlib Require Import SpecFloat.
From S2P Require Import Prelude Machine Utf8 Text Token.

(* ------------------------------------------------------------------ *)
(** ** Types                                                           *)
(* ------------------------------------------------------------------ *)

Inductive TypeExpr :=
| TE_Simple (name : str) (span : Span)
| TE_Generic (name : str) (args : list TypeExpr) (span : Span)
| TE_Array (element : TypeExpr) (size : option Z) (span : Span)
| TE_Tuple (elements : list TypeExpr) (span : Span)
| TE_Function (params : list TypeExpr) (ret : TypeExpr) (span : Span)
| TE_Optional (inner : TypeExpr) (span : Span)
| TE_Reference (inner : TypeExpr) (mutable : bool) (span : Span)
| TE_Shared (inner : TypeExpr) (span : Span)
| TE_Weak (inner : TypeExpr) (span : Span)
| TE_Pointer (inner : TypeExpr) (mutable : bool) (span : Span)
| TE_DynTrait (trait_name : str) (span : Span)
| TE_Inferred (span : Span).

(** [TypeExpr::span] *)
Definition type_span (t : TypeExpr) : Span :=
  match t with
  | TE_Simple _ s | TE_Generic _ _ s | TE_Array _ _ s | TE_Tuple _ s | TE_Function _ _ s
  | TE_Optional _ s | TE_Reference _ _ s | TE_Shared _ s | TE_Weak _ s | TE_Pointer _ _ s
  | TE_DynTrait _ s | TE_Inferred s => s
  end.

(* ------------------------------------------------------------------ *)
(** ** Expressions and statements                                      *)
(* ------------------------------------------------------------------ *)

Inductive BinOp :=
| B_Add | B_Sub | B_Mul | B_Div | B_Mod | B_Pow | B_Eq | B_Neq | B_Lt | B_Gt | B_LtEq
| B_GtEq | B_And | B_Or | B_BitAnd | B_BitOr | B_BitXor | B_Shl | B_Shr | B_Pipe | B_MatMul.

Inductive UnOp := U_Neg | U_Not | U_BitNot.

Inductive AssignOp :=
| A_Assign | A_AddAssign | A_SubAssign | A_MulAssign | A_DivAssign | A_ModAssign.

Inductive Expr : Set :=
| E_IntLiteral (value : Z) (span : Span)
| E_FloatLiteral (value : spec_float) (span : Span)
| E_StringLiteral (value : str) (span : Span)
| E_InterpolatedString (parts : list StringPart) (span : Span)
| E_CharLiteral (value : Z) (span : Span)
| E_BoolLiteral (value : bool) (span : Span)
| E_NoneLiteral (span : Span)
| E_Identifier (name : str) (span : Span)
| E_FieldAccess (object : Expr) (field : str) (span : Span)
| E_IndexAccess (object index : Expr) (span : Span)
| E_BinaryOp (op : BinOp) (left right : Expr) (span : Span)
| E_UnaryOp (op : UnOp) (operand : Expr) (span : Span)
| E_FnCall (callee : Expr) (args : list Expr) (span : Span)
| E_MethodCall (object : Expr) (method : str) (args : list Expr) (span : Span)
| E_StaticMethodCall (type_name method : str) (args : list Expr) (span : Span)
| E_ArrayLiteral (elements : list Expr) (span : Span)
| E_TupleLiteral (elements : list Expr) (span : Span)
| E_MapLiteral (entries : list (Expr * Expr)) (span : Span)
| E_StructLiteral (name : str) (fields : list (str * Expr)) (span : Span)
| E_Lambda (params : list Param) (ret_ty : option TypeExpr) (body : Expr) (span : Span)
| E_IfExpr (condition : Expr) (then_branch : Block) (else_branch : option Block) (span : Span)
| E_MatchExpr (subject : Expr) (arms : list MatchArm) (span : Span)
| E_RangeExpr (start end_ : option Expr) (inclusive : bool) (span : Span)
| E_PipeExpr (left right : Expr) (span : Span)
| E_Borrow (inner : Expr) (mutable : bool) (span : Span)
| E_Deref (inner : Expr) (span : Span)
| E_SharedExpr (inner : Expr) (span : Span)
| E_MoveExpr (inner : Expr) (span : Span)
| E_WeakExpr (inner : Expr) (span : Span)
| E_ComptimeBlock (body : Block) (span : Span)
| E_QuantumBlock (body : Block) (span : Span)
| E_UnsafeBlock (body : Block) (span : Span)
| E_Cast (expr : Expr) (ty : TypeExpr) (span : Span)
| E_Block (block : Block) (span : Span)
| E_Await (value : Expr) (span : Span)
with Stmt : Set :=
| S_Let (name : str) (mutable : bool) (ty : option TypeExpr) (value : option Expr)
    (pattern : option Pattern) (span : Span)
| S_Assign (target : Expr) (op : AssignOp) (value : Expr) (span : Span)
| S_Return (value : option Expr) (span : Span)
| S_If (condition : Expr) (then_block : Block) (elif_clauses : list (Expr * Block))
    (else_block : option Block) (span : Span)
| S_For (is_parallel : bool) (pattern : Pattern) (iterable : Expr) (body : Block) (span : Span)
| S_While (condition : Expr) (body : Block) (span : Span)
| S_Break (span : Span)
| S_Continue (span : Span)
| S_Expr (expr : Expr) (span : Span)
| S_Spawn (expr : Expr) (span : Span)
| S_Select (branches : list SelectBranch) (timeout : option SelectTimeout) (span : Span)
| S_TryCatch (try_block : Block) (catch_name : str) (catch_block : Block) (span : Span)
| S_Throw (expr : Expr) (span : Span)
| S_DenyBlock (denied : list str) (body : Block) (span : Span)
with Block : Set := mkBlock (stmts : list Stmt) (span : Span)
with Param : Set := mkParam (name : str) (ty : option TypeExpr) (default : option Expr) (span : Span)
with MatchArm : Set := mkArm (pattern : Pattern) (guard : option Expr) (body : Expr) (span : Span)
with SelectBranch : Set := mkBranch (pattern : str) (channel : Expr) (body : Block) (span : Span)
with SelectTimeout : Set := mkTimeout (duration_ms : Expr) (body : Block) (span : Span)
with Pattern : Set :=
| P_Wildcard (span : Span)
| P_Ident (name : str) (mutable : bool) (span : Span)
| P_Literal (expr : Expr) (span : Span)
| P_Tuple (elements : list Pattern) (span : Span)
| P_Struct (name : str) (fields : list (str * Pattern)) (span : Span)
| P_Enum (name variant : str) (fields : list Pattern) (span : Span)
| P_Or (patterns : list Pattern) (span : Span)
with StringPart : Set := SP_Literal (text : str) | SP_Expr (expr : Expr).

(** [Expr::span] *)
Definition expr_span (e : Expr) : Span :=
  match e with
  | E_IntLiteral _ s | E_FloatLiteral _ s | E_StringLiteral _ s | E_InterpolatedString _ s
  | E_CharLiteral _ s | E_BoolLiteral _ s | E_NoneLiteral s | E_Identifier _ s
  | E_FieldAccess _ _ s | E_IndexAccess _ _ s | E_BinaryOp _ _ _ s | E_UnaryOp _ _ s
  | E_FnCall _ _ s | E_MethodCall _ _ _ s | E_StaticMethodCall _ _ _ s | E_ArrayLiteral _ s
  | E_TupleLiteral _ s | E_MapLiteral _ s | E_StructLiteral _ _ s | E_Lambda _ _ _ s
  | E_IfExpr _ _ _ s | E_MatchExpr _ _ s | E_RangeExpr _ _ _ s | E_PipeExpr _ _ s
  | E_Borrow _ _ s | E_Deref _ s | E_SharedExpr _ s | E_MoveExpr _ s | E_WeakExpr _ s
  | E_ComptimeBlock _ s | E_QuantumBlock _ s | E_UnsafeBlock _ s | E_Cast _ _ s
  | E_Block _ s | E_Await _ s => s
  end.

(** [Stmt::span] *)
Definition stmt_span (st : Stmt) : Span :=
  match st with
  | S_Let _ _ _ _ _ s | S_Assign _ _ _ s | S_Return _ s | S_If _ _ _ _ s | S_For _ _ _ _ s
  | S_While _ _ s | S_Break s | S_Continue s | S_Expr _ s | S_Spawn _ s | S_Select _ _ s
  | S_TryCatch _ _ _ s | S_Throw _ s | S_DenyBlock _ _ s => s
  end.

(** [Pattern::span] *)
Definition pattern_span (p : Pattern) : Span :=
  match p with
  | P_Wildcard s | P_Ident _ _ s | P_Literal _ s | P_Tuple _ s | P_Struct _ _ s
  | P_Enum _ _ _ s | P_Or _ s => s
  end.

Definition block_stmts (b : Block) : list Stmt := let 'mkBlock ss _ := b in ss.
Definition block_span (b : Block) : Span := let 'mkBlock _ s := b in s.

(** [Stmt::as_value_if_expr]: the clauses are folded from the last one. *)
Definition as_value_if_expr (st : Stmt) : option Expr :=
  match st with
  | S_If condition then_block elif_clauses (Some final_else) span =>
      let nest '(econd, eblock) else_branch :=
        mkBlock [S_Expr (E_IfExpr econd eblock (Some else_branch) span) span] span in
      Some (E_IfExpr condition then_block (Some (foldr nest final_else elif_clauses)) span)
  | _ => None
  end.

(* ------------------------------------------------------------------ *)
(** ** Declarations                                                    *)
(* ------------------------------------------------------------------ *)

Record Annotation := mkAnnotation { an_name : str; an_args : list str; an_span : Span }.
Record GenericParam := mkGeneric { gp_name : str; gp_bounds : list str; gp_span : Span }.
Record StructField := mkField {
  sf_name : str; sf_ty : TypeExpr; sf_public : bool; sf_default : option Expr; sf_span : Span }.
Record EnumVariant := mkVariant { ev_name : str; ev_fields : list TypeExpr; ev_span : Span }.
Record MessageHandler := mkHandler {
  mh_name : str; mh_params : list Param; mh_ret_ty : option TypeExpr; mh_body : Block;
  mh_span : Span }.
Record ImportPath := mkImport {
  ip_segments : list str; ip_alias : option str; ip_items : list str; ip_span : Span }.

Inductive Decl :=
| D_Function (name : str) (generics : list GenericParam) (params : list Param)
    (ret_ty : option TypeExpr) (body : option Block) (public is_async : bool)
    (annotations : list Annotation) (doc_comments : list str) (span : Span)
| D_Struct (name : str) (generics : list GenericParam) (fields : list StructField)
    (public : bool) (annotations : list Annotation) (doc_comments : list str) (span : Span)
| D_Enum (name : str) (generics : list GenericParam) (variants : list EnumVariant)
    (public : bool) (annotations : list Annotation) (doc_comments : list str) (span : Span)
| D_Trait (name : str) (generics : list GenericParam) (methods : list Decl) (public : bool)
    (doc_comments : list str) (span : Span)
| D_Impl (target : str) (trait_name : option str) (generics : list GenericParam)
    (methods : list Decl) (doc_comments : list str) (span : Span)
| D_Actor (name : str) (state_fields : list StructField) (handlers : list MessageHandler)
    (annotations : list Annotation) (doc_comments : list str) (span : Span)
| D_TypeAlias (name : str) (generics : list GenericParam) (ty : TypeExpr) (public : bool)
    (doc_comments : list str) (span : Span)
| D_Import (path : ImportPath) (doc_comments : list str) (span : Span)
| D_Extern (abi : str) (items : list Decl) (doc_comments : list str) (span : Span)
| D_Const (name : str) (ty : option TypeExpr) (value : Expr) (public mutable : bool)
    (doc_comments : list str) (span : Span).

(** [Decl::span] *)
Definition decl_span (d : Decl) : Span :=
  match d with
  | D_Function _ _ _ _ _ _ _ _ _ s | D_Struct _ _ _ _ _ _ s | D_Enum _ _ _ _ _ _ s
  | D_Trait _ _ _ _ _ s | D_Impl _ _ _ _ _ s | D_Actor _ _ _ _ _ s | D_TypeAlias _ _ _ _ _ s
  | D_Import _ _ s | D_Extern _ _ _ s | D_Const _ _ _ _ _ _ s => s
  end.

Record Module_ := mkModule { mo_name : str; mo_declarations : list Decl; mo_span : Span }.
