(* ===== verification/ParseCore.v ===== *)
(** The state of the parser and its moves on the token stream
    ([kryos-parser/src/parser.rs], lines 1-444), the readers of literals (lines
    2760-2820 and 4200-4242), and loops.

    A method is a computation [P A]: it takes the parser, and returns a value with
    the parser it leaves, or panics.  [Panic] covers the empty token list, an index
    out of range, an arithmetic underflow and [unreachable!].  The texts of
    diagnostics, labels and notes are left out: a diagnostic is its level, its code
    and the span of its label. *)

From Stdlib Require Import SpecFloat.
From S2P Require Import Prelude Machine Utf8 Text Token Ast.

(** Two kinds are the same: [==] on [TokenKind]. *)
Definition kind_eq (a b : TokenKind) : bool := bool_decide (a = b).

(** [kryos_errors::codes], those the parser uses. *)
Inductive Code := E0001 | E0002 | E0003 | E0004 | E0009 | E0010 | W0001.

(** [kryos_errors::Diagnostic]. *)
Record Diagnostic := mkDiag { is_error : bool; d_code : option Code; d_span : Span }.

Record Parser := mkParser {
  tokens : list Token;
  pos : nat;
  diagnostics : list Diagnostic;
  no_struct_literal : bool;
  fresh_counter : N;
  nest_depth : N;
  rec_depth : N;
  nesting_poisoned : bool
}.

Definition MAX_NESTING_DEPTH : N := 2048.
Definition MAX_RECURSION_DEPTH : N := 256.
Definition POSTFIX_BP : N := 28.

(** [Parser::new] *)
Definition new_parser (ts : list Token) : Parser := mkParser ts 0 [] false 0 0 0 false.

Definition with_tokens (ts : list Token) (p : Parser) : Parser :=
  mkParser ts (pos p) (diagnostics p) (no_struct_literal p) (fresh_counter p) (nest_depth p)
    (rec_depth p) (nesting_poisoned p).
Definition with_pos (n : nat) (p : Parser) : Parser :=
  mkParser (tokens p) n (diagnostics p) (no_struct_literal p) (fresh_counter p) (nest_depth p)
    (rec_depth p) (nesting_poisoned p).
Definition with_diagnostics (ds : list Diagnostic) (p : Parser) : Parser :=
  mkParser (tokens p) (pos p) ds (no_struct_literal p) (fresh_counter p) (nest_depth p)
    (rec_depth p) (nesting_poisoned p).
Definition with_no_struct (b : bool) (p : Parser) : Parser :=
  mkParser (tokens p) (pos p) (diagnostics p) b (fresh_counter p) (nest_depth p)
    (rec_depth p) (nesting_poisoned p).
Definition with_fresh (n : N) (p : Parser) : Parser :=
  mkParser (tokens p) (pos p) (diagnostics p) (no_struct_literal p) n (nest_depth p)
    (rec_depth p) (nesting_poisoned p).
Definition with_depths (nd rd : N) (p : Parser) : Parser :=
  mkParser (tokens p) (pos p) (diagnostics p) (no_struct_literal p) (fresh_counter p) nd rd
    (nesting_poisoned p).
Definition with_poisoned (p : Parser) : Parser :=
  mkParser (tokens p) (pos p) (diagnostics p) (no_struct_literal p) (fresh_counter p)
    (nest_depth p) (rec_depth p) true.

(* ------------------------------------------------------------------ *)
(** ** Computations on the parser                                      *)
(* ------------------------------------------------------------------ *)

Definition P (A : Type) : Type := Parser -> res (A * Parser).

#[export] Instance P_ret : MRet P := fun A a p => Done (a, p).
#[export] Instance P_bind : MBind P := fun A B f m p =>
  match m p with
  | Done (a, p') => f a p'
  | Panic => Panic
  | OutOfFuel => OutOfFuel
  end.
#[export] Instance P_fmap : FMap P := fun A B f m => m ≫= fun a => mret (f a).

Definition panic {A} : P A := fun _ => Panic.
Definition out_of_levels {A} : P A := fun _ => OutOfFuel.
(** Reading and writing fields. *)
Definition gets {A} (f : Parser -> A) : P A := fun p => Done (f p, p).
Definition modify (f : Parser -> Parser) : P unit := fun p => Done (tt, f p).
Definition lift {A} (o : res A) : P A := fun p => a ← o; Done (a, p).

(** A round of a loop goes on with a new state or leaves the loop. *)
Inductive flow (S A : Type) := Continue (s : S) | Break (a : A).
Arguments Continue {S A} s.
Arguments Break {S A} a.

Fixpoint loop {S A} (fuel : nat) (body : S -> P (flow S A)) (s : S) : P A :=
  match fuel with
  | O => out_of_levels
  | Datatypes.S fuel =>
      r ← body s;
      match r with Continue s => loop fuel body s | Break a => mret a end
  end.

(** [loop { .. }]: one round more than there are tokens. *)
Definition loop_ {S A} (body : S -> P (flow S A)) (s : S) : P A :=
  fun p => loop (Datatypes.S (length (tokens p))) body s p.

(* ------------------------------------------------------------------ *)
(** ** Token navigation                                                *)
(* ------------------------------------------------------------------ *)

(** [self.tokens[i]] *)
Definition token_at (i : nat) : P Token := fun p => lift (of_option (tokens p !! i)) p.

(** [self.tokens[f(pos).min(self.tokens.len() - 1)]] *)
Definition clamped (f : nat -> nat) : P Token := fun p =>
  match length (tokens p) with
  | O => Panic
  | S last => token_at (f (pos p) `min` last) p
  end.

Definition peek : P Token := clamped id.
Definition peek_kind : P TokenKind := t_kind <$> peek.
Definition peek_nth (n : nat) : P TokenKind := t_kind <$> clamped (fun i => i + n)%nat.

(** [self.tokens[self.pos.saturating_sub(1).min(self.tokens.len() - 1)].span] *)
Definition prev_span : P Span := t_span <$> clamped pred.

(** [self.tokens.get(self.pos + n).map(|t| t.kind)] *)
Definition get_kind (n : nat) : P (option TokenKind) :=
  gets (fun p => t_kind <$> tokens p !! (pos p + n)%nat).

Definition check (kind : TokenKind) : P bool := (fun k => kind_eq k kind) <$> peek_kind.
Definition at_end : P bool := check TK_Eof.

Definition advance : P Token :=
  tok ← peek;
  e ← at_end;
  if e : bool then mret tok else _ ← modify (fun p => with_pos (S (pos p)) p); mret tok.

Definition eat (kind : TokenKind) : P bool :=
  c ← check kind; if c : bool then _ ← advance; mret true else mret false.

Definition peek_span : P Span := t_span <$> peek.

(** [while !self.check(k) && !self.at_end() { .. }] *)
Definition while_not {S} (k : TokenKind) (body : S -> P (flow S S)) : S -> P S :=
  loop_ (fun s =>
    c ← check k; e ← at_end;
    if c || e then mret (Break s) else body s).

(** [while self.eat(k) { .. }] *)
Definition while_eat {S} (k : TokenKind) (body : S -> P (flow S S)) : S -> P S :=
  loop_ (fun s => c ← eat k; if c : bool then body s else mret (Break s)).

(** At the end of a round. *)
Definition next {S A} (m : P S) : P (flow S A) := Continue <$> m.

(** The tokens from a [(] on: is its balanced group followed by [=>] or [if]? *)
Fixpoint paren_scan (depth : nat) (ts : list Token) : bool :=
  match ts with
  | [] => false
  | t :: ts =>
      match t_kind t with
      | TK_LParen | TK_LBracket | TK_LBrace => paren_scan (S depth) ts
      | TK_RParen | TK_RBracket | TK_RBrace =>
          match pred depth with
          | O =>
              match ts with
              | t' :: _ => kind_eq (t_kind t') TK_FatArrow || kind_eq (t_kind t') TK_If
              | [] => false
              end
          | S d => paren_scan (S d) ts
          end
      | TK_Eof => false
      | _ => paren_scan depth ts
      end
  end.
Definition paren_group_starts_arm (p : Parser) : bool := paren_scan 0 (drop (pos p) (tokens p)).

(* ------------------------------------------------------------------ *)
(** ** Diagnostics and the nesting guard                               *)
(* ------------------------------------------------------------------ *)

Definition push_diag (d : Diagnostic) : P unit :=
  modify (fun p => with_diagnostics (diagnostics p ++ [d]) p).

Definition error_with_code (span : Span) (code : Code) : P unit :=
  b ← gets nesting_poisoned;
  if b : bool then mret tt else push_diag (mkDiag true (Some code) span).
Definition error (span : Span) : P unit := error_with_code span E0009.

Definition warn_asi_trap (span : Span) : P unit := push_diag (mkDiag false (Some W0001) span).

Definition nesting_exhausted (p : Parser) : bool :=
  (MAX_NESTING_DEPTH <=? nest_depth p)%N || (MAX_RECURSION_DEPTH <=? rec_depth p)%N.

Definition nesting_overflow : P unit :=
  b ← gets nesting_poisoned;
  if b : bool then mret tt
  else span ← peek_span;
       _ ← push_diag (mkDiag true (Some E0010) span); modify with_poisoned.

(** [self.nest_depth += 1] and [self.nest_depth -= n]. *)
Definition charge_nest : P unit :=
  modify (fun p => with_depths (nest_depth p + 1) (rec_depth p) p).
Definition release_nest (n : N) : P unit := fun p =>
  if (n <=? nest_depth p)%N then Done (tt, with_depths (nest_depth p - n) (rec_depth p) p)
  else Panic.
Definition charge_rec : P unit :=
  modify (fun p => with_depths (nest_depth p) (rec_depth p + 1) p).
Definition release_rec : P unit := fun p =>
  if (1 <=? rec_depth p)%N then Done (tt, with_depths (nest_depth p) (rec_depth p - 1) p)
  else Panic.

(** The two lines before and after a guarded production. *)
Definition nested {A} (m : P A) : P A :=
  _ ← charge_nest; _ ← charge_rec;
  a ← m;
  _ ← release_rec; _ ← release_nest 1; mret a.

(** The guard at the head of the recursive productions: past a limit, the result
    is built from the span of the next token, and one token is passed over. *)
Definition guarded {A} (abandoned : Span -> A) (m : P A) : P A :=
  full ← gets nesting_exhausted;
  if full : bool then
    _ ← nesting_overflow;
    span ← peek_span;
    e ← at_end;
    _ ← (if e : bool then mret tt else _ ← advance; mret tt);
    mret (abandoned span)
  else nested m.

(** [u64] counter, which no run exhausts. *)
Definition fresh_name (hint : string) : P str :=
  n ← gets fresh_counter;
  _ ← modify (fun p => with_fresh (fresh_counter p + 1) p);
  mret (bytes "__kry_try_" ++ bytes hint ++ bytes "_" ++ print_u64 (Z.of_N n)).

(* ------------------------------------------------------------------ *)
(** ** Expecting tokens                                                *)
(* ------------------------------------------------------------------ *)

Definition advance_unless_end : P unit :=
  e ← at_end; if e : bool then mret tt else _ ← advance; mret tt.

Definition expect (kind : TokenKind) : P Token :=
  c ← check kind;
  if c : bool then advance
  else
    span ← peek_span;
    _ ← error span;
    _ ← advance_unless_end;
    mret (mkToken kind span [] false).

Definition is_name_kind (k : TokenKind) : bool := kind_eq k TK_Ident || kind_eq k TK_TypeIdent.

Definition expect_ident_code (code : Code) : P (str * Span) :=
  tok ← peek;
  if is_name_kind (t_kind tok) then _ ← advance; mret (t_text tok, t_span tok)
  else
    _ ← error_with_code (t_span tok) code;
    _ ← advance_unless_end;
    mret (bytes "<error>", t_span tok).

(** The two functions differ in the code of their diagnostic. *)
Definition expect_ident : P (str * Span) := expect_ident_code E0002.
Definition expect_name : P (str * Span) := expect_ident_code E0009.

Definition expect_path_segment : P (str * Span) :=
  tok ← peek;
  if (is_name_kind (t_kind tok) || is_keyword (t_kind tok))
     && bool_decide (t_text tok <> []) then
    _ ← advance; mret (t_text tok, t_span tok)
  else expect_ident.

(** The tokens at which [synchronize] stops. *)
Definition recovery_kinds : list TokenKind :=
  [TK_Fn; TK_Struct; TK_Enum; TK_Trait; TK_Impl; TK_Actor; TK_Type; TK_Use; TK_Extern; TK_Pub;
   TK_At; TK_Let; TK_Return; TK_If; TK_For; TK_While; TK_Break; TK_Continue; TK_Spawn;
   TK_Select; TK_Try; TK_Throw; TK_RBrace].

Definition synchronize : P unit :=
  loop_ (fun _ : unit =>
    e ← at_end;
    if e : bool then mret (Break tt)
    else
      k ← peek_kind;
      if existsb (kind_eq k) recovery_kinds then mret (Break tt)
      else _ ← advance; mret (Continue tt)) tt.

(** [let x = if self.eat(k) { Some(m) } else { None }] *)
Definition if_eat {A} (k : TokenKind) (m : P A) : P (option A) :=
  c ← eat k; if c : bool then Some <$> m else mret None.

(** [while !self.check(close) && !self.at_end() { xs.push(m);
    if !self.check(close) { self.expect(Comma); } }] *)
Definition comma_list {A} (close : TokenKind) (m : P A) : P (list A) :=
  while_not close (fun xs =>
    x ← m;
    c ← check close;
    _ ← (if c : bool then mret tt else _ ← expect TK_Comma; mret tt);
    mret (Continue (xs ++ [x]))) [].

(** [if !self.check(close) { self.eat(Comma); }] *)
Definition eat_comma_before (close : TokenKind) : P unit :=
  c ← check close; if c : bool then mret tt else _ ← eat TK_Comma; mret tt.

(* ------------------------------------------------------------------ *)
(** ** Literals                                                        *)
(* ------------------------------------------------------------------ *)

(** [char::to_digit(radix)] *)
Definition digit_val (radix b : Z) : option Z :=
  let v := if in_range (chr "0") (chr "9") b then b - chr "0"
           else if in_range (chr "a") (chr "z") b then b - chr "a" + 10
           else if in_range (chr "A") (chr "Z") b then b - chr "A" + 10
           else radix in
  if v <? radix then Some v else None.

(** The digits of [from_str_radix], each taken in with a check of the range. *)
Fixpoint digits_val (ok : Z -> bool) (radix sign acc : Z) (s : str) : option Z :=
  match s with
  | [] => Some acc
  | b :: s =>
      d ← digit_val radix b;
      let acc := acc * radix + sign * d in
      if ok acc then digits_val ok radix sign acc s else None
  end.

Definition in_u64 (z : Z) : bool := (0 <=? z) && (z <? 2 ^ 64).

(** [i64::from_str_radix] and [u64::from_str_radix]: a sign, then at least one
    digit; the unsigned one takes no minus sign. *)
Definition i64_from_str_radix (s : str) (radix : Z) : option Z :=
  match s with
  | [] => None
  | b :: r =>
      if (b =? chr "+") || (b =? chr "-") then
        match r with
        | [] => None
        | _ => digits_val in_i64 radix (if b =? chr "-" then -1 else 1) 0 r
        end
      else digits_val in_i64 radix 1 0 s
  end.
Definition u64_from_str_radix (s : str) (radix : Z) : option Z :=
  match s with
  | [] => None
  | b :: r =>
      if b =? chr "+" then match r with [] => None | _ => digits_val in_u64 radix 1 0 r end
      else digits_val in_u64 radix 1 0 s
  end.

(** [text.replace('_', "")] *)
Definition without_underscores (s : str) : str := filter (fun b => b <> chr "_") s.

(** [a.or_else(|| b)] *)
Definition or_else {A} (a b : option A) : option A := match a with Some _ => a | None => b end.

(** [None] stands for [Err]: every failure is reported in the same way. *)
Definition parse_int_literal_checked (text : str) : option Z :=
  let clean := without_underscores text in
  let prefixed (a b : string) := or_else (strip_prefix (bytes a) clean) (strip_prefix (bytes b) clean) in
  let '(radix, body) :=
    match prefixed "0x" "0X" with
    | Some rest => (16, rest)
    | None =>
        match prefixed "0b" "0B" with
        | Some rest => (2, rest)
        | None =>
            match prefixed "0o" "0O" with Some rest => (8, rest) | None => (10, clean) end
        end
    end%string in
  match body with
  | [] => None
  | _ =>
      match i64_from_str_radix body radix with
      | Some v => Some v
      | None => wrap64 <$> u64_from_str_radix body radix
      end
  end.

(** A literal that does not parse is reported and read as 0. *)
Definition int_value (tok : Token) : P Z :=
  match parse_int_literal_checked (t_text tok) with
  | Some v => mret v
  | None => _ ← error (t_span tok); mret 0
  end.

(** The double nearest to [m * 10 ^ e], ties to even. *)
Definition f64_of_decimal (neg : bool) (m e : Z) : spec_float :=
  match m with
  | Z.pos m =>
      if 0 <=? e then
        match Z.pos m * 10 ^ e with
        | Z.pos n => binary_round 53 1024 neg n 0
        | _ => S754_zero neg
        end
      else
        match 10 ^ (- e) with
        | Z.pos d => SFdiv 53 1024 (S754_finite neg m 0) (S754_finite false d 0)
        | _ => S754_zero neg
        end
  | _ => S754_zero neg
  end.

(** The leading decimal digits: their value, their number, and what follows. *)
Fixpoint take_digits (acc : Z) (count : nat) (s : str) : Z * nat * str :=
  match s with
  | b :: r => if is_digit b then take_digits (acc * 10 + (b - chr "0")) (S count) r else (acc, count, s)
  | [] => (acc, count, s)
  end.

(** The exponent of [str::parse::<f64>]: [e] or [E], a sign, at least one digit. *)
Definition parse_exponent (s : str) : option Z :=
  match s with
  | [] => Some 0
  | b :: r =>
      if (b =? chr "e") || (b =? chr "E") then
        let '(sign, r) :=
          match r with
          | c :: r' => if c =? chr "-" then (-1, r') else if c =? chr "+" then (1, r') else (1, r)
          | [] => (1, r)
          end in
        match take_digits 0 0 r with
        | (v, S _, []) => Some (sign * v)
        | _ => None
        end
      else None
  end.

(** [s.parse::<f64>()] on a text that starts with a digit, as a [Float] token
    does: digits, at most one point, an exponent. *)
Definition parse_f64 (s : str) : option spec_float :=
  let '(whole, n, r) := take_digits 0 0 s in
  let '(m, k, r) :=
    match r with
    | b :: r' => if b =? chr "." then take_digits whole 0 r' else (whole, 0%nat, r)
    | [] => (whole, 0%nat, r)
    end in
  match (n + k)%nat with
  | O => None
  | _ => (fun e => f64_of_decimal false m (e - Z.of_nat k)) <$> parse_exponent r
  end.

(** [tok.text.replace('_', "").parse().unwrap_or(0.0)] *)
Definition float_value (text : str) : spec_float :=
  default f64_zero (parse_f64 (without_underscores text)).

(** [tok.text.chars().next().unwrap_or('\0')] *)
Definition first_char (text : str) : Z :=
  match decode_char text with Some (c, _) => c | None => 0 end.
