(* ===== verification/ParseType.v ===== *)
(** Types and patterns ([kryos-parser/src/parser.rs], lines 3617-4168).  The
    recursion is bounded by [levels], the native stack it needs: the nesting guard
    ends it within [MAX_LEVELS]. *)

From S2P Require Import Prelude Machine Utf8 Text Token Ast ParseCore.

Definition MAX_LEVELS : nat := 257.

(* ------------------------------------------------------------------ *)
(** ** Types                                                           *)
(* ------------------------------------------------------------------ *)

(** A [>>] becomes a single [>], which is left to close the enclosing list. *)
Definition expect_generic_gt : P Token :=
  c ← check TK_Shr;
  if c : bool then
    i ← gets pos;
    t ← token_at i;
    let t' := mkToken TK_Gt (t_span t) (bytes ">") (t_newline_before t) in
    _ ← modify (fun p => with_tokens (<[i := t']> (tokens p)) p);
    mret t'
  else expect TK_Gt.

Section Type_.
Context (parse_type : P TypeExpr).

(** [self.advance()], then a type that the built one ends with. *)
Definition type_prefix (tok : Token) (mk : TypeExpr -> Span -> TypeExpr) : P TypeExpr :=
  inner ← parse_type;
  mret (mk inner (merge (t_span tok) (type_span inner))).

(** [fn(..) -> T], or a bare [fn]: any callable. *)
Definition parse_fn_type (tok : Token) : P TypeExpr :=
  _ ← advance;
  c ← check TK_LParen;
  if negb c then
    let any := TE_Simple (bytes "any") (t_span tok) in
    mret (TE_Function [any] any (t_span tok))
  else
    _ ← expect TK_LParen;
    params ← comma_list TK_RParen parse_type;
    _ ← expect TK_RParen;
    arrow ← eat TK_Arrow;
    '(ret, end_) ←
      (if arrow : bool then r ← parse_type; mret (r, type_span r)
       else mret (TE_Simple (bytes "void") (t_span tok), t_span tok));
    mret (TE_Function params ret (merge (t_span tok) end_)).

(** The size of [[T; N]]. *)
Definition parse_array_size : P (option Z) :=
  semi ← eat TK_Semicolon;
  if semi : bool then
    size_tok ← expect TK_Integer;
    match parse_int_literal_checked (t_text size_tok) with
    | Some n =>
        if 0 <=? n then mret (Some n) else _ ← error (t_span size_tok); mret (Some 0)
    | None => _ ← error (t_span size_tok); mret (Some 0)
    end
  else mret None.

(** A name with the arguments of its generic application. *)
Definition parse_named_type (tok : Token) : P TypeExpr :=
  _ ← advance;
  lt ← eat TK_Lt;
  if lt : bool then
    args ←
      loop_ (fun args =>
        gt ← check TK_Gt; shr ← check TK_Shr; e ← at_end;
        if gt || shr || e then mret (Break args)
        else
          t ← parse_type;
          gt ← check TK_Gt; shr ← check TK_Shr;
          _ ← (if negb gt && negb shr then _ ← expect TK_Comma; mret tt else mret tt);
          mret (Continue (args ++ [t]))) [];
    gt ← expect_generic_gt;
    mret (TE_Generic (t_text tok) args (merge (t_span tok) (t_span gt)))
  else mret (TE_Simple (t_text tok) (t_span tok)).

Definition parse_type_inner : P TypeExpr :=
  tok ← peek;
  match t_kind tok with
  | TK_Bang => _ ← advance; mret (TE_Simple (bytes "never") (t_span tok))
  | TK_Question => _ ← advance; type_prefix tok TE_Optional
  | TK_Amp =>
      _ ← advance; mutable ← eat TK_Mut; type_prefix tok (fun t => TE_Reference t mutable)
  | TK_Star =>
      _ ← advance; mutable ← eat TK_Mut; type_prefix tok (fun t => TE_Pointer t mutable)
  | TK_Shared => _ ← advance; type_prefix tok TE_Shared
  | TK_Weak => _ ← advance; type_prefix tok TE_Weak
  | TK_Fn => parse_fn_type tok
  | TK_LBracket =>
      _ ← advance;
      element ← parse_type;
      size ← parse_array_size;
      rbracket ← expect TK_RBracket;
      mret (TE_Array element size (merge (t_span tok) (t_span rbracket)))
  | TK_LParen =>
      _ ← advance;
      elements ← comma_list TK_RParen parse_type;
      rparen ← expect TK_RParen;
      mret (TE_Tuple elements (merge (t_span tok) (t_span rparen)))
  | TK_Chan =>
      _ ← advance;
      lt ← eat TK_Lt;
      if lt : bool then
        inner ← parse_type;
        gt ← expect_generic_gt;
        mret (TE_Generic (bytes "chan") [inner] (merge (t_span tok) (t_span gt)))
      else mret (TE_Simple (bytes "chan") (t_span tok))
  | TK_Dyn =>
      _ ← advance;
      c ← check TK_TypeIdent;
      name_tok ← (if c : bool then advance else expect TK_Ident);
      mret (TE_DynTrait (t_text name_tok) (merge (t_span tok) (t_span name_tok)))
  | TK_LBrace =>
      _ ← advance;
      rbrace ← expect TK_RBrace;
      mret (TE_Simple (bytes "Map") (merge (t_span tok) (t_span rbrace)))
  | TK_Ident | TK_TypeIdent => parse_named_type tok
  | _ =>
      _ ← error_with_code (t_span tok) E0004;
      _ ← advance;
      mret (TE_Inferred (t_span tok))
  end.
End Type_.

Fixpoint parse_type_levels (levels : nat) : P TypeExpr :=
  match levels with
  | O => out_of_levels
  | S levels =>
      guarded (TE_Simple (bytes "i64")) (parse_type_inner (parse_type_levels levels))
  end.
Definition parse_type : P TypeExpr := parse_type_levels MAX_LEVELS.

(* ------------------------------------------------------------------ *)
(** ** Patterns                                                        *)
(* ------------------------------------------------------------------ *)

Section Pattern_.
Context (parse_pattern : P Pattern).

(** [-1]: the literal is folded, with [wrapping_neg]. *)
Definition parse_neg_pattern (tok : Token) : P Pattern :=
  _ ← advance;
  int_tok ← peek;
  _ ← advance;
  raw ← int_value int_tok;
  let span := merge (t_span tok) (t_span int_tok) in
  mret (P_Literal (E_IntLiteral (wrap64 (- raw)) span) span).

(** [Name { field, field: pattern }] *)
Definition parse_struct_pattern (tok : Token) : P Pattern :=
  _ ← advance;
  fields ←
    while_not TK_RBrace (fun fields =>
      '(fname, _) ← expect_name;
      colon ← eat TK_Colon;
      pat ← (if colon : bool then parse_pattern
             else s ← prev_span; mret (P_Ident fname false s));
      _ ← eat_comma_before TK_RBrace;
      mret (Continue (fields ++ [(fname, pat)]))) [];
  rbrace ← expect TK_RBrace;
  mret (P_Struct (t_text tok) fields (merge (t_span tok) (t_span rbrace))).

(** A name and what follows it: a variant, a struct, or a binding. *)
Definition parse_named_pattern (tok : Token) : P Pattern :=
  _ ← advance;
  path ← eat TK_ColonColon;
  dot ← (if path : bool then mret true else eat TK_Dot);
  if dot : bool then
    '(variant, variant_span) ← expect_name;
    paren ← eat TK_LParen;
    '(fields, end_) ←
      (if paren : bool then
         fields ← comma_list TK_RParen parse_pattern;
         rparen ← expect TK_RParen;
         mret (fields, t_span rparen)
       else mret ([], variant_span));
    mret (P_Enum (t_text tok) variant fields (merge (t_span tok) end_))
  else
    brace ← check TK_LBrace;
    if brace : bool then parse_struct_pattern tok
    else
      paren ← check TK_LParen;
      if paren : bool then
        _ ← advance;
        fields ← comma_list TK_RParen parse_pattern;
        rparen ← expect TK_RParen;
        mret (P_Enum [] (t_text tok) fields (merge (t_span tok) (t_span rparen)))
      else mret (P_Ident (t_text tok) false (t_span tok)).

Definition pattern_unexpected (tok : Token) : P Pattern :=
  _ ← error (t_span tok);
  _ ← advance;
  mret (P_Wildcard (t_span tok)).

Definition parse_pattern_inner : P Pattern :=
  tok ← peek;
  let literal (e : Span -> Expr) : P Pattern :=
    _ ← advance; mret (P_Literal (e (t_span tok)) (t_span tok)) in
  match t_kind tok with
  | TK_Mut =>
      _ ← advance;
      '(name, span) ← expect_name;
      mret (P_Ident name true (merge (t_span tok) span))
  | TK_LParen =>
      _ ← advance;
      elements ← comma_list TK_RParen parse_pattern;
      rparen ← expect TK_RParen;
      mret (P_Tuple elements (merge (t_span tok) (t_span rparen)))
  | TK_Integer =>
      _ ← advance;
      value ← int_value tok;
      mret (P_Literal (E_IntLiteral value (t_span tok)) (t_span tok))
  | TK_Minus =>
      k ← get_kind 1;
      if bool_decide (k = Some TK_Integer) then parse_neg_pattern tok
      else pattern_unexpected tok
  | TK_String => literal (E_StringLiteral (t_text tok))
  | TK_True => literal (E_BoolLiteral true)
  | TK_False => literal (E_BoolLiteral false)
  | TK_Ident =>
      if bool_decide (t_text tok = bytes "_") then _ ← advance; mret (P_Wildcard (t_span tok))
      else parse_named_pattern tok
  | TK_TypeIdent => parse_named_pattern tok
  | _ => pattern_unexpected tok
  end.
End Pattern_.

Fixpoint parse_pattern_levels (levels : nat) : P Pattern :=
  match levels with
  | O => out_of_levels
  | S levels => guarded P_Wildcard (parse_pattern_inner (parse_pattern_levels levels))
  end.
Definition parse_pattern : P Pattern := parse_pattern_levels MAX_LEVELS.
