(* ===== verification/ParseExpr.v ===== *)
(** Expressions ([kryos-parser/src/parser.rs], lines 12-74, 762-811, 2101-3611 and
    4175-4198): a Pratt parser.

    Expressions, blocks and statements are mutually recursive.  The productions of
    this file and of [ParseStmt.v] are written over the four through which every
    cycle of the recursion goes, the record [Entries]; [ParseStmt.v] ties the knot. *)

From S2P Require Import Prelude Machine Utf8 Text Token Ast ParseCore ParseType.

Record Entries := mkEntries {
  parse_expr_bp : N -> P Expr;
  parse_block : P Block;
  parse_statement : P (option Stmt);
  parse_block_stmts : P (list Stmt)
}.

(* ------------------------------------------------------------------ *)
(** ** Operators                                                       *)
(* ------------------------------------------------------------------ *)

(** The left and the right binding power of a binary operator. *)
Definition infix_binding_power (kind : TokenKind) (next : option TokenKind) : option (N * N) :=
  match kind with
  | TK_Pipe => if bool_decide (next = Some TK_Gt) then Some (2, 3) else Some (10, 11)
  | TK_Or | TK_PipePipe => Some (4, 5)
  | TK_And | TK_AmpAmp => Some (6, 7)
  | TK_EqEq | TK_BangEq | TK_Lt | TK_Gt | TK_LtEq | TK_GtEq => Some (8, 9)
  | TK_Caret => Some (12, 13)
  | TK_Amp => Some (14, 15)
  | TK_Shl | TK_Shr => Some (16, 17)
  | TK_Plus | TK_Minus => Some (18, 19)
  | TK_Star | TK_Slash | TK_Percent => Some (20, 21)
  | TK_Power => Some (23, 22)
  | TK_As => Some (25, 26)
  | TK_DotDot | TK_DotDotEq => Some (1, 1)
  | _ => None
  end%N.

Definition prefix_binding_power (kind : TokenKind) : option N :=
  match kind with
  | TK_Minus | TK_Bang | TK_Tilde | TK_Star | TK_Amp => Some 24
  | TK_Not => Some 7
  | TK_Shared | TK_Move | TK_Weak | TK_Await => Some 3
  | _ => None
  end%N.

(** [None] stands for [unreachable!]. *)
Definition token_to_binop (kind : TokenKind) : option BinOp :=
  match kind with
  | TK_Plus => Some B_Add
  | TK_Minus => Some B_Sub
  | TK_Star => Some B_Mul
  | TK_Slash => Some B_Div
  | TK_Percent => Some B_Mod
  | TK_Power => Some B_Pow
  | TK_EqEq => Some B_Eq
  | TK_BangEq => Some B_Neq
  | TK_Lt => Some B_Lt
  | TK_Gt => Some B_Gt
  | TK_LtEq => Some B_LtEq
  | TK_GtEq => Some B_GtEq
  | TK_And | TK_AmpAmp => Some B_And
  | TK_Or | TK_PipePipe => Some B_Or
  | TK_Amp => Some B_BitAnd
  | TK_Pipe => Some B_BitOr
  | TK_Caret => Some B_BitXor
  | TK_Shl => Some B_Shl
  | TK_Shr => Some B_Shr
  | _ => None
  end.

(** Does this token continue an expression at the level [min_bp]? *)
Definition extends_chain (kind : TokenKind) (next : option TokenKind) (min_bp : N) : bool :=
  match kind with
  | TK_Dot | TK_LBracket | TK_LParen | TK_Question => (min_bp <=? POSTFIX_BP)%N
  | TK_DotDot | TK_DotDotEq => (min_bp <=? 1)%N
  | _ =>
      match infix_binding_power kind next with
      | Some (l_bp, _) => (min_bp <=? l_bp)%N
      | None => false
      end
  end.

(** The tokens after which a range has no end. *)
Definition ends_range (k : TokenKind) : bool :=
  match k with
  | TK_Eof | TK_RBrace | TK_RBracket | TK_RParen | TK_Comma | TK_Semicolon | TK_LBrace => true
  | _ => false
  end.

(** What the loop of [parse_expr_bp_inner] keeps, beside its count of levels. *)
Record Chain := mkChain {
  lhs : Expr;
  seen_pipe_or_chain : bool;
  seen_minus_chain : bool;
  seen_lbracket_chain : bool;
  seen_lparen_chain : bool
}.
Definition new_chain (e : Expr) : Chain := mkChain e false false false false.
Definition set_lhs (e : Expr) (c : Chain) : Chain :=
  mkChain e (seen_pipe_or_chain c) (seen_minus_chain c) (seen_lbracket_chain c)
    (seen_lparen_chain c).

(** The body of a lambda: a block of one expression is that expression. *)
Definition lambda_body (b : Block) : Expr :=
  match block_stmts b with
  | [S_Expr e _] => e
  | _ => E_Block b (block_span b)
  end.

(** The clauses of an [if] chain, each in the [else] of the one before; the last
    one has [tail]. *)
Fixpoint nest_if_expr (end_ : Span) (tail : option Block) (levels : list (Span * Expr * Block))
    : option Expr :=
  match levels with
  | [] => None
  | (st, condition, then_branch) :: levels =>
      let else_branch :=
        match nest_if_expr end_ tail levels with
        | Some nested_if =>
            let span := expr_span nested_if in Some (mkBlock [S_Expr nested_if span] span)
        | None => tail
        end in
      Some (E_IfExpr condition then_branch else_branch (merge st end_))
  end.

Section Exprs.
Context (E : Entries).

Definition parse_expr : P Expr := parse_expr_bp E 0.

Definition parse_expr_no_struct_lit : P Expr :=
  prev ← gets no_struct_literal;
  _ ← modify (with_no_struct true);
  e ← parse_expr;
  _ ← modify (with_no_struct prev);
  mret e.

Definition parse_param : P Param :=
  t ← peek;
  if bool_decide (t_text t = bytes "self") then
    tok ← advance;
    ty ← if_eat TK_Colon parse_type;
    end_ ← prev_span;
    mret (mkParam (bytes "self") ty None (merge (t_span tok) end_))
  else
    '(name, name_span) ← expect_name;
    ty ← if_eat TK_Colon parse_type;
    default ← if_eat TK_Eq parse_expr;
    end_ ← prev_span;
    mret (mkParam name ty default (merge name_span end_)).

Definition parse_param_list : P (list Param) :=
  while_not TK_RParen (fun params =>
    before ← gets pos;
    param ← parse_param;
    c ← check TK_RParen;
    _ ← (if c : bool then mret tt else _ ← expect TK_Comma; mret tt);
    now ← gets pos;
    _ ← (if Nat.eqb now before then _ ← advance; mret tt else mret tt);
    mret (Continue (params ++ [param]))) [].

Definition parse_arg_list : P (list Expr) := comma_list TK_RParen parse_expr.

(** [(args)] with the opening parenthesis already consumed. *)
Definition parse_call_args : P (list Expr * Span) :=
  args ← parse_arg_list;
  rparen ← expect TK_RParen;
  mret (args, t_span rparen).

(* ------------------------------------------------------------------ *)
(** ** Primary expressions                                             *)
(* ------------------------------------------------------------------ *)

Definition parse_interpolated (tok : Token) : P Expr :=
  let text_part (text : str) (parts : list StringPart) :=
    match text with [] => parts | _ => parts ++ [SP_Literal text] end in
  _ ← advance;
  parts ←
    while_eat TK_InterpStart (fun parts =>
      e ← parse_expr;
      let parts := parts ++ [SP_Expr e] in
      c ← check TK_InterpEnd;
      _ ← (if c : bool then _ ← advance; mret tt else mret tt);
      c ← check TK_StringPart;
      if c : bool then
        t ← peek;
        _ ← advance;
        mret (Continue (text_part (t_text t) parts))
      else mret (Continue parts)) (text_part (t_text tok) []);
  mret (E_InterpolatedString parts (t_span tok)).

Definition parse_struct_literal (name : str) (start : Span) : P Expr :=
  _ ← expect TK_LBrace;
  fields ←
    while_not TK_RBrace (fun fields =>
      '(fname, _) ← expect_name;
      _ ← expect TK_Colon;
      value ← parse_expr;
      closed ← check TK_RBrace;
      comma ← (if closed : bool then mret true else eat TK_Comma);
      _ ← (if comma : bool then mret tt
           else
             span ← peek_span;
             k ← peek_kind;
             if is_name_kind k then
               b ← gets nesting_poisoned;
               if b : bool then mret tt else push_diag (mkDiag true None span)
             else error span);
      mret (Continue (fields ++ [(fname, value)]))) [];
  rbrace ← expect TK_RBrace;
  mret (E_StructLiteral name fields (merge start (t_span rbrace))).

(** [name], [Name { .. }], [a::b] or [a::b::c(..)]. *)
Definition parse_path_expr (tok : Token) : P Expr :=
  _ ← advance;
  let name := t_text tok in
  let start := t_span tok in
  brace ← check TK_LBrace;
  nsl ← gets no_struct_literal;
  if brace && negb nsl then parse_struct_literal name start
  else
    path ← eat TK_ColonColon;
    if path : bool then
      '(method, _) ← expect_name;
      '(type_name, method) ←
        while_eat TK_ColonColon (fun '(_, method) =>
          '(next, _) ← expect_name; mret (Continue (method, next))) (name, method);
      paren ← eat TK_LParen;
      if paren : bool then
        '(args, end_) ← parse_call_args;
        mret (E_StaticMethodCall type_name method args (merge start end_))
      else mret (E_Identifier (type_name ++ bytes "::" ++ method) start)
    else mret (E_Identifier name start).

Definition parse_pipe_closure_body : P Expr :=
  c ← check TK_LBrace;
  if c : bool then b ← parse_block E; mret (lambda_body b) else parse_expr.

Definition parse_closure_rest (params : list Param) (start : Span) : P Expr :=
  ret_ty ← if_eat TK_Arrow parse_type;
  body ← parse_pipe_closure_body;
  mret (E_Lambda params ret_ty body (merge start (expr_span body))).

Definition parse_pipe_closure : P Expr :=
  open ← expect TK_Pipe;
  empty ← check TK_Pipe;
  params ←
    (if empty : bool then mret []
     else
       loop_ (fun params =>
         '(pname, pspan) ← expect_name;
         pty ← if_eat TK_Colon parse_type;
         let params := params ++ [mkParam pname pty None pspan] in
         comma ← eat TK_Comma;
         mret (if comma : bool then Continue params else Break params)) []);
  _ ← expect TK_Pipe;
  parse_closure_rest params (t_span open).

Definition parse_pipe_pipe_closure : P Expr :=
  open ← expect TK_PipePipe;
  parse_closure_rest [] (t_span open).

(** [fn(params) -> T { .. }] from the parenthesis on, with the span of its block. *)
Definition parse_fn_rest : P (list Param * option TypeExpr * Expr * Span) :=
  _ ← expect TK_LParen;
  params ← parse_param_list;
  _ ← expect TK_RParen;
  ret_ty ← if_eat TK_Arrow parse_type;
  b ← parse_block E;
  mret (params, ret_ty, lambda_body b, block_span b).

Definition parse_lambda : P Expr :=
  fn_tok ← expect TK_Fn;
  '(params, ret_ty, body, end_) ← parse_fn_rest;
  mret (E_Lambda params ret_ty body (merge (t_span fn_tok) end_)).

(** The next clause of an [if] chain and where it starts, or the [else] block. *)
Definition next_if_clause (cur : Span) : P (Span + option Block) :=
  elif ← check TK_Elif;
  if elif : bool then _ ← advance; mret (inl cur)
  else
    els ← eat TK_Else;
    if els : bool then
      c ← check TK_If;
      if c : bool then t ← advance; mret (inl (t_span t))
      else b ← parse_block E; mret (inr (Some b))
    else mret (inr None).

(** A further clause is charged to [nest_depth] only; the loop gives back the
    charges. *)
Definition if_expr_step '((levels, spine, cur) : list (Span * Expr * Block) * N * Span)
    : P (flow (list (Span * Expr * Block) * N * Span) (list (Span * Expr * Block) * N * option Block)) :=
  condition ← parse_expr_no_struct_lit;
  then_branch ← parse_block E;
  let levels := levels ++ [(cur, condition, then_branch)] in
  more ← next_if_clause cur;
  match more with
  | inr tail => mret (Break (levels, spine, tail))
  | inl cur =>
      nd ← gets nest_depth;
      if (MAX_NESTING_DEPTH <=? nd + 1)%N then
        _ ← nesting_overflow; mret (Break (levels, spine, None))
      else _ ← charge_nest; mret (Continue (levels, (spine + 1)%N, cur))
  end.

Definition parse_if_expr_chain (start : Span) : P Expr :=
  '(levels, spine, tail) ← loop_ if_expr_step ([], 0%N, start);
  _ ← release_nest spine;
  end_ ← prev_span;
  lift (of_option (nest_if_expr end_ tail levels)).

Definition parse_if_expr : P Expr :=
  guarded (E_IntLiteral 0)
    (kw ← expect TK_If; parse_if_expr_chain (t_span kw)).

Definition parse_array_literal : P Expr :=
  lbracket ← expect TK_LBracket;
  elements ← comma_list TK_RBracket parse_expr;
  rbracket ← expect TK_RBracket;
  mret (E_ArrayLiteral elements (merge (t_span lbracket) (t_span rbracket))).

Definition parse_paren_or_tuple : P Expr :=
  lparen ← expect TK_LParen;
  let start := t_span lparen in
  unit_ ← check TK_RParen;
  if unit_ : bool then
    rparen ← expect TK_RParen;
    mret (E_TupleLiteral [] (merge start (t_span rparen)))
  else
    first ← parse_expr;
    tuple ← check TK_Comma;
    if tuple : bool then
      elements ←
        while_eat TK_Comma (fun elements =>
          c ← check TK_RParen;
          if c : bool then mret (Break elements)
          else x ← parse_expr; mret (Continue (elements ++ [x]))) [first];
      rparen ← expect TK_RParen;
      mret (E_TupleLiteral elements (merge start (t_span rparen)))
    else _ ← expect TK_RParen; mret first.

Definition parse_map_literal_body (start : Span) : P Expr :=
  entries ←
    while_not TK_RBrace (fun entries =>
      key ← parse_expr;
      _ ← expect TK_Colon;
      value ← parse_expr;
      _ ← eat_comma_before TK_RBrace;
      mret (Continue (entries ++ [(key, value)]))) [];
  rbrace ← expect TK_RBrace;
  mret (E_MapLiteral entries (merge start (t_span rbrace))).

Definition parse_hash_map_literal : P Expr :=
  hash_tok ← expect TK_Hash;
  lbrace ← expect TK_LBrace;
  c ← check TK_RBrace;
  if c : bool then
    rbrace ← expect TK_RBrace;
    mret (E_MapLiteral [] (merge (t_span hash_tok) (t_span rbrace)))
  else parse_map_literal_body (merge (t_span hash_tok) (t_span lbrace)).

(** Report and consume a token that no statement of a block starts with. *)
Definition recover_stray_block_token : P unit :=
  c ← check TK_RBrace; e ← at_end;
  if c || e then mret tt
  else span ← peek_span; _ ← error span; _ ← advance; mret tt.

(** The same without a report. *)
Definition skip_stray_block_token : P unit :=
  c ← check TK_RBrace; e ← at_end;
  if c || e then mret tt else _ ← advance; mret tt.

(** After a statement that started at [before]: one that consumed nothing is
    followed by a forced step. *)
Definition force_progress (before : nat) : P unit :=
  now ← gets pos; if Nat.eqb now before then recover_stray_block_token else mret tt.

Definition parse_map_or_block_expr : P Expr :=
  lbrace ← expect TK_LBrace;
  let start := t_span lbrace in
  empty ← check TK_RBrace;
  if empty : bool then
    rbrace ← expect TK_RBrace;
    mret (E_MapLiteral [] (merge start (t_span rbrace)))
  else
    k ← peek_kind;
    k' ← peek_nth 1;
    if (is_name_kind k || kind_eq k TK_String || kind_eq k TK_Integer) && kind_eq k' TK_Colon
    then parse_map_literal_body start
    else
      stmts ←
        while_not TK_RBrace (fun stmts =>
          before ← gets pos;
          r ← parse_statement E;
          match r with
          | Some st => _ ← force_progress before; mret (Continue (stmts ++ [st]))
          | None => _ ← skip_stray_block_token; mret (Continue stmts)
          end) [];
      rbrace ← expect TK_RBrace;
      let span := merge start (t_span rbrace) in
      mret (E_Block (mkBlock stmts span) span).

(** [return e] and [throw e] as the body of an arm: a block with one statement. *)
Definition stmt_body (mk : Expr -> Span -> Stmt) (kw : Token) : P Expr :=
  value ← parse_expr;
  let span := merge (t_span kw) (expr_span value) in
  mret (E_Block (mkBlock [mk value span] span) span).

Definition parse_arm_pattern : P Pattern :=
  pattern ← parse_pattern;
  c ← check TK_Pipe;
  if c : bool then
    alts ←
      while_eat TK_Pipe (fun alts => alt ← parse_pattern; mret (Continue (alts ++ [alt])))
        [pattern];
    let pstart := pattern_span pattern in
    let pend := from_option pattern_span pstart (last alts) in
    mret (P_Or alts (merge pstart pend))
  else mret pattern.

Definition parse_arm_body : P Expr :=
  ret ← check TK_Return;
  explicit_return ← (if ret : bool then Some <$> advance else mret None);
  brace ← check TK_LBrace;
  k' ← peek_nth 1;
  if brace && kind_eq k' TK_RBrace then
    lbrace ← advance;
    rbrace ← advance;
    let span := merge (t_span lbrace) (t_span rbrace) in
    mret (E_Block (mkBlock [] span) span)
  else
    match explicit_return with
    | Some ret_kw => stmt_body (fun v => S_Return (Some v)) ret_kw
    | None =>
        throw ← check TK_Throw;
        if throw : bool then kw ← advance; stmt_body S_Throw kw
        else if brace : bool then parse_map_or_block_expr
        else parse_expr
    end.

Definition is_error_expr (e : Expr) : bool :=
  match e with E_Identifier name _ => bool_decide (name = bytes "<error>") | _ => false end.

Definition parse_match_expr : P Expr :=
  kw ← expect TK_Match;
  let start := t_span kw in
  subject ← parse_expr_no_struct_lit;
  if is_error_expr subject then mret (E_MatchExpr subject [] start)
  else
    _ ← expect TK_LBrace;
    arms ←
      while_not TK_RBrace (fun arms =>
        pattern ← parse_arm_pattern;
        guard ← if_eat TK_If parse_expr;
        _ ← expect TK_FatArrow;
        body ← parse_arm_body;
        _ ← eat_comma_before TK_RBrace;
        mret (Continue (arms ++ [mkArm pattern guard body (merge start (expr_span body))]))) [];
    rbrace ← expect TK_RBrace;
    mret (E_MatchExpr subject arms (merge start (t_span rbrace))).

(** [comptime], [unsafe] and [quantum] blocks. *)
Definition parse_block_expr (mk : Block -> Span -> Expr) (tok : Token) : P Expr :=
  _ ← advance;
  body ← parse_block E;
  mret (mk body (merge (t_span tok) (block_span body))).

(** A closing delimiter or a comma is left to the enclosing construct. *)
Definition primary_unexpected (tok : Token) : P Expr :=
  _ ← error_with_code (t_span tok) E0003;
  _ ← (match t_kind tok with
       | TK_RParen | TK_RBracket | TK_RBrace | TK_Comma => mret tt
       | _ => _ ← advance; mret tt
       end);
  mret (E_Identifier (bytes "<error>") (t_span tok)).

Definition parse_primary : P Expr :=
  tok ← peek;
  let literal (e : Span -> Expr) : P Expr := _ ← advance; mret (e (t_span tok)) in
  match t_kind tok with
  | TK_Integer => _ ← advance; value ← int_value tok; mret (E_IntLiteral value (t_span tok))
  | TK_Float => literal (E_FloatLiteral (float_value (t_text tok)))
  | TK_String => literal (E_StringLiteral (t_text tok))
  | TK_StringPart => parse_interpolated tok
  | TK_Char => literal (E_CharLiteral (first_char (t_text tok)))
  | TK_True => literal (E_BoolLiteral true)
  | TK_False => literal (E_BoolLiteral false)
  | TK_None => literal E_NoneLiteral
  | TK_Ident | TK_TypeIdent => parse_path_expr tok
  | TK_Chan | TK_Send | TK_Recv => literal (E_Identifier (t_text tok))
  | TK_Fn => parse_lambda
  | TK_Pipe => parse_pipe_closure
  | TK_PipePipe => parse_pipe_pipe_closure
  | TK_If => parse_if_expr
  | TK_Match => parse_match_expr
  | TK_Comptime => parse_block_expr E_ComptimeBlock tok
  | TK_Unsafe => parse_block_expr E_UnsafeBlock tok
  | TK_Quantum => parse_block_expr E_QuantumBlock tok
  | TK_LBracket => parse_array_literal
  | TK_LParen => parse_paren_or_tuple
  | TK_LBrace => parse_map_or_block_expr
  | TK_Hash => parse_hash_map_literal
  | _ => primary_unexpected tok
  end.

(** The operand of a prefix operator. *)
Definition prefix_operand (bp : N) (tok : Token) (mk : Expr -> Span -> Expr) : P Expr :=
  operand ← parse_expr_bp E bp;
  mret (mk operand (merge (t_span tok) (expr_span operand))).

Definition parse_prefix : P Expr :=
  kind ← peek_kind;
  match prefix_binding_power kind with
  | Some bp =>
      tok ← advance;
      match kind with
      | TK_Minus => prefix_operand bp tok (E_UnaryOp U_Neg)
      | TK_Not | TK_Bang => prefix_operand bp tok (E_UnaryOp U_Not)
      | TK_Tilde => prefix_operand bp tok (E_UnaryOp U_BitNot)
      | TK_Amp => mutable ← eat TK_Mut; prefix_operand bp tok (fun e => E_Borrow e mutable)
      | TK_Star => prefix_operand bp tok E_Deref
      | TK_Shared => prefix_operand bp tok E_SharedExpr
      | TK_Move => prefix_operand bp tok E_MoveExpr
      | TK_Weak => prefix_operand bp tok E_WeakExpr
      | TK_Await => prefix_operand bp tok E_Await
      | _ => panic
      end
  | None => parse_primary
  end.

(* ------------------------------------------------------------------ *)
(** ** The chain of postfix and infix operators                        *)
(* ------------------------------------------------------------------ *)

(** A [Float] token after a [.] is two tuple indices glued together. *)
Definition tuple_indices (text : str) : option (str * str) :=
  match split (chr ".") text with
  | [a; b] =>
      if bool_decide (a <> []) && bool_decide (b <> []) && forallb is_digit (a ++ b)
      then Some (a, b) else None
  | _ => None
  end.

Definition chain_dot (c : Chain) : P Chain :=
  let object := lhs c in
  let start := expr_span object in
  _ ← advance;
  tok ← peek;
  let field_access :=
    '(field, field_span) ← expect_name;
    paren ← eat TK_LParen;
    if paren : bool then
      '(args, end_) ← parse_call_args;
      mret (set_lhs (E_MethodCall object field args (merge start end_)) c)
    else mret (set_lhs (E_FieldAccess object field (merge start field_span)) c) in
  match t_kind tok with
  | TK_Integer =>
      _ ← advance;
      mret (set_lhs (E_FieldAccess object (t_text tok) (merge start (t_span tok))) c)
  | TK_Float =>
      match tuple_indices (t_text tok) with
      | Some (a, b) =>
          _ ← advance;
          let span := merge start (t_span tok) in
          mret (set_lhs (E_FieldAccess (E_FieldAccess object a span) b span) c)
      | None => field_access
      end
  | _ => field_access
  end.

(** A warning for an operator that opens a line, once per chain. *)
Definition warn_fresh_line (seen : bool) : P unit :=
  tok ← peek;
  if negb seen && t_newline_before tok then warn_asi_trap (t_span tok) else mret tt.

Definition chain_index (c : Chain) : P Chain :=
  _ ← warn_fresh_line (seen_lbracket_chain c);
  _ ← advance;
  index ← parse_expr;
  rbracket ← expect TK_RBracket;
  let e := E_IndexAccess (lhs c) index (merge (expr_span (lhs c)) (t_span rbracket)) in
  mret (mkChain e (seen_pipe_or_chain c) (seen_minus_chain c) true (seen_lparen_chain c)).

(** A parenthesised pattern on a fresh line is the next arm of a [match]. *)
Definition chain_call (c : Chain) : P (flow Chain Chain) :=
  tok ← peek;
  arm ← gets paren_group_starts_arm;
  if t_newline_before tok && arm then mret (Break c)
  else
    _ ← warn_fresh_line (seen_lparen_chain c);
    _ ← advance;
    '(args, end_) ← parse_call_args;
    let e := E_FnCall (lhs c) args (merge (expr_span (lhs c)) end_) in
    mret (Continue (mkChain e (seen_pipe_or_chain c) (seen_minus_chain c)
      (seen_lbracket_chain c) true)).

(** [e?] is a match on [Result] whose [Err] arm returns. *)
Definition try_match (subject : Expr) (v_name e_name : str) (q : Span) (span : Span) : Expr :=
  let variant (v : string) (name : str) :=
    P_Enum (bytes "Result") (bytes v) [P_Ident name false q] q in
  let err := E_MethodCall (E_Identifier (bytes "Result") q) (bytes "Err") [E_Identifier e_name q] q in
  E_MatchExpr subject
    [mkArm (variant "Ok" v_name) None (E_Identifier v_name q) q;
     mkArm (variant "Err" e_name) None (E_Block (mkBlock [S_Return (Some err) q] q) q) q] span.

Definition chain_try (c : Chain) : P Chain :=
  q_span ← peek_span;
  _ ← advance;
  v_name ← fresh_name "v";
  e_name ← fresh_name "e";
  mret (set_lhs (try_match (lhs c) v_name e_name q_span (merge (expr_span (lhs c)) q_span)) c).

Definition chain_range (kind : TokenKind) (c : Chain) : P Chain :=
  _ ← advance;
  k ← peek_kind;
  end_expr ← (if ends_range k then mret None else Some <$> parse_expr_bp E 2);
  prev ← prev_span;
  let span_end := from_option expr_span prev end_expr in
  mret (set_lhs (E_RangeExpr (Some (lhs c)) end_expr (kind_eq kind TK_DotDotEq)
    (merge (expr_span (lhs c)) span_end)) c).

(** A right operand, and the expression over both. *)
Definition chain_operand (r_bp : N) (mk : Expr -> Expr -> Span -> Expr) (c : Chain) : P Chain :=
  rhs ← parse_expr_bp E r_bp;
  mret (set_lhs (mk (lhs c) rhs (merge (expr_span (lhs c)) (expr_span rhs))) c).

Definition chain_binop (kind : TokenKind) (r_bp : N) (c : Chain) : P Chain :=
  let is_pipe_pipe := kind_eq kind TK_PipePipe in
  let is_minus := kind_eq kind TK_Minus in
  _ ← (if is_pipe_pipe then warn_fresh_line (seen_pipe_or_chain c) else mret tt);
  _ ← (if is_minus then warn_fresh_line (seen_minus_chain c) else mret tt);
  _ ← advance;
  rhs ← parse_expr_bp E r_bp;
  op ← lift (of_option (token_to_binop kind));
  let e := E_BinaryOp op (lhs c) rhs (merge (expr_span (lhs c)) (expr_span rhs)) in
  mret (mkChain e (seen_pipe_or_chain c || is_pipe_pipe) (seen_minus_chain c || is_minus)
    (seen_lbracket_chain c) (seen_lparen_chain c)).

Definition chain_infix (kind : TokenKind) (next_kind : option TokenKind) (min_bp : N) (c : Chain)
    : P (flow Chain Chain) :=
  match infix_binding_power kind next_kind with
  | Some (l_bp, r_bp) =>
      if (l_bp <? min_bp)%N then mret (Break c)
      else if kind_eq kind TK_Pipe && bool_decide (next_kind = Some TK_Gt) then
        _ ← advance; _ ← advance; next (chain_operand r_bp E_PipeExpr c)
      else if kind_eq kind TK_As then
        _ ← advance;
        ty ← parse_type;
        mret (Continue (set_lhs (E_Cast (lhs c) ty (merge (expr_span (lhs c)) (type_span ty))) c))
      else next (chain_binop kind r_bp c)
  | None => mret (Break c)
  end.

(** The operator at hand, applied to the expression so far. *)
Definition chain_apply (kind : TokenKind) (next_kind : option TokenKind) (min_bp : N) (c : Chain)
    : P (flow Chain Chain) :=
  match kind with
  | TK_Dot => next (chain_dot c)
  | TK_LBracket => next (chain_index c)
  | TK_LParen => chain_call c
  | TK_Question => next (chain_try c)
  | TK_DotDot | TK_DotDotEq => next (chain_range kind c)
  | _ => chain_infix kind next_kind min_bp c
  end.

(** A round of the loop: an operator that extends the expression is charged one level
    of nesting, and counted in [spine]. *)
Definition chain_step (min_bp : N) '((c, spine) : Chain * N) : P (flow (Chain * N) (Chain * N)) :=
  e ← at_end;
  if e : bool then mret (Break (c, spine))
  else
    kind ← peek_kind;
    next_kind ← (if kind_eq kind TK_Pipe then Some <$> peek_nth 1 else mret None);
    if negb (extends_chain kind next_kind min_bp) then mret (Break (c, spine))
    else
      let spine := (spine + 1)%N in
      _ ← charge_nest;
      nd ← gets nest_depth;
      if (MAX_NESTING_DEPTH <=? nd)%N then _ ← nesting_overflow; mret (Break (c, spine))
      else
        r ← chain_apply kind next_kind min_bp c;
        mret (match r with
              | Continue c => Continue (c, spine)
              | Break c => Break (c, spine)
              end).

(** [name!(..)] is reported, and read as [name(..)]. *)
Definition reject_macro (e : Expr) : P unit :=
  match e with
  | E_Identifier _ span =>
      k ← peek_kind;
      k' ← peek_nth 1;
      if kind_eq k TK_Bang && kind_eq k' TK_LParen then
        s ← peek_span;
        _ ← error (merge span s);
        _ ← advance;
        mret tt
      else mret tt
  | _ => mret tt
  end.

Definition parse_expr_bp_inner (min_bp : N) : P Expr :=
  e ← parse_prefix;
  _ ← reject_macro e;
  '(c, spine) ← loop_ (chain_step min_bp) (new_chain e, 0%N);
  _ ← release_nest spine;
  mret (lhs c).

Definition parse_expr_bp_body (min_bp : N) : P Expr :=
  guarded (E_IntLiteral 0) (parse_expr_bp_inner min_bp).
End Exprs.
