(* ===== verification/ParseStmt.v ===== *)
(** Blocks and statements ([kryos-parser/src/parser.rs], lines 138-158 and
    1217-2133), and the knot of the mutual recursion with expressions.

    [levels n] unrolls the four entries of the recursion [n] times: [n] is the
    native stack that a run may use, in calls of an entry. *)

From S2P Require Import Prelude Machine Utf8 Text Token Ast ParseCore ParseType ParseExpr.

(** A clause [let pattern = subject { .. }] of an [if let] chain. *)
Record LetClause := mkLetClause {
  lc_start : Span; lc_pattern : Pattern; lc_subject : Expr; lc_then : Block }.

(** [match subject { pattern => body, _ => other }] *)
Definition match_or_else (subject : Expr) (pattern : Pattern) (body other : Expr) (span : Span)
    : Expr :=
  E_MatchExpr subject
    [mkArm pattern None body span; mkArm (P_Wildcard span) None other span] span.

(** The clauses of an [if let] chain, each in the wildcard arm of the one before;
    the last one has [tail]. *)
Fixpoint nest_if_let (end_ : Span) (tail : Expr) (cs : list LetClause) : option Stmt :=
  match cs with
  | [] => None
  | c :: cs =>
      let else_body :=
        match nest_if_let end_ tail cs with
        | Some st => E_Block (mkBlock [st] (lc_start c)) (lc_start c)
        | None => tail
        end in
      let span := merge (lc_start c) end_ in
      let body := E_Block (lc_then c) (block_span (lc_then c)) in
      Some (S_Expr (match_or_else (lc_subject c) (lc_pattern c) body else_body span) span)
  end.

Definition empty_block_expr (span : Span) : Expr := E_Block (mkBlock [] span) span.
Definition empty_stmt (span : Span) : Stmt := S_Expr (empty_block_expr span) span.

(** [let [mut] Name .] or [let [mut] Name ::] *)
Definition is_let_else_ahead : P bool :=
  k ← peek_kind;
  if negb (kind_eq k TK_Let) then mret false
  else
    m ← get_kind 1;
    let i := if bool_decide (m = Some TK_Mut) then 2%nat else 1%nat in
    name ← get_kind i;
    sep ← get_kind (i + 1);
    mret (match name with Some k => is_name_kind k | None => false end
          && (bool_decide (sep = Some TK_Dot) || bool_decide (sep = Some TK_ColonColon))).

Definition assign_op (k : TokenKind) : option AssignOp :=
  match k with
  | TK_Eq => Some A_Assign
  | TK_PlusEq => Some A_AddAssign
  | TK_MinusEq => Some A_SubAssign
  | TK_StarEq => Some A_MulAssign
  | TK_SlashEq => Some A_DivAssign
  | TK_PercentEq => Some A_ModAssign
  | _ => None
  end.

Section Stmts.
Context (E : Entries).
Abbreviation parse_expr := (parse_expr E).
Abbreviation parse_block := (parse_block E).
Abbreviation parse_expr_no_struct_lit := (parse_expr_no_struct_lit E).

Definition hint_assign_in_condition : P unit :=
  k ← peek_kind;
  if kind_eq k TK_Eq then
    span ← peek_span;
    _ ← error span;
    _ ← advance;
    _ ← parse_expr_no_struct_lit;
    mret tt
  else mret tt.

(* ------------------------------------------------------------------ *)
(** ** Blocks                                                          *)
(* ------------------------------------------------------------------ *)

(** [let PAT = EXPR else { D }] and the rest of the block:
    [match EXPR { PAT => { rest }, _ => { D } }]. *)
Definition parse_let_else_desugar : P Stmt :=
  kw ← expect TK_Let;
  let span := t_span kw in
  _ ← eat TK_Mut;
  pattern ← parse_pattern;
  _ ← if_eat TK_Colon parse_type;
  _ ← expect TK_Eq;
  value ← parse_expr;
  els ← eat TK_Else;
  diverge ← (if els : bool then parse_block else _ ← error span; mret (mkBlock [] span));
  rest ← ParseExpr.parse_block_stmts E;
  let body := E_Block (mkBlock rest span) span in
  mret (S_Expr (match_or_else value pattern body (E_Block diverge span) span) span).

Definition parse_block_stmts_body : P (list Stmt) :=
  while_not TK_RBrace (fun stmts =>
    ahead ← is_let_else_ahead;
    if ahead : bool then st ← parse_let_else_desugar; mret (Break (stmts ++ [st]))
    else
      before ← gets pos;
      r ← parse_statement E;
      match r with
      | Some st => _ ← force_progress before; mret (Continue (stmts ++ [st]))
      | None => _ ← recover_stray_block_token; mret (Continue stmts)
      end) [].

Definition parse_block_body : P Block :=
  guarded (mkBlock [])
    (lbrace ← expect TK_LBrace;
     stmts ← parse_block_stmts_body;
     rbrace ← expect TK_RBrace;
     mret (mkBlock stmts (merge (t_span lbrace) (t_span rbrace)))).

(* ------------------------------------------------------------------ *)
(** ** Conditionals and loops                                          *)
(* ------------------------------------------------------------------ *)

(** A condition and its block. *)
Definition parse_clause : P (Expr * Block) :=
  cond ← parse_expr_no_struct_lit;
  _ ← hint_assign_in_condition;
  b ← parse_block;
  mret (cond, b).

(** [else] and then [if]: both are consumed. *)
Definition eat_else_if : P (option Token) :=
  k ← peek_kind;
  k' ← get_kind 1;
  if kind_eq k TK_Else && bool_decide (k' = Some TK_If)
  then _ ← advance; Some <$> advance else mret None.

(** [parse_if_rest_inner] where no [let] follows. *)
Definition parse_if_plain (start : Span) : P Stmt :=
  '(condition, then_block) ← parse_clause;
  elifs ←
    while_eat TK_Elif (fun cs => c ← parse_clause; mret (Continue (cs ++ [c]))) [];
  elifs ←
    loop_ (fun cs =>
      more ← eat_else_if;
      match more with
      | Some _ => c ← parse_clause; mret (Continue (cs ++ [c]))
      | None => mret (Break cs)
      end) elifs;
  else_block ← if_eat TK_Else parse_block;
  end_ ← prev_span;
  mret (S_If condition then_block elifs else_block (merge start end_)).

(** [elif] or [else if]: the span of the keyword that starts the next clause. *)
Definition eat_next_clause : P (option Span) :=
  c ← check TK_Elif;
  if c : bool then (fun t => Some (t_span t)) <$> advance
  else fmap t_span <$> eat_else_if.

(** [let PAT = EXPR { .. }] *)
Definition parse_let_clause (start : Span) : P LetClause :=
  _ ← expect TK_Let;
  pattern ← parse_pattern;
  _ ← expect TK_Eq;
  subject ← parse_expr_no_struct_lit;
  then_block ← parse_block;
  mret (mkLetClause start pattern subject then_block).

(** The wildcard arm of the last clause: a plain chain, an [else] block, or nothing.
    The call of [parse_if_rest_inner] in the code finds no [let]. *)
Definition if_let_tail (cur : Span) (next_kw : option Span) : P Expr :=
  match next_kw with
  | Some kw => nested ← parse_if_plain kw; mret (E_Block (mkBlock [nested] cur) cur)
  | None =>
      b ← if_eat TK_Else parse_block;
      mret (match b with Some b => E_Block b (block_span b) | None => empty_block_expr cur end)
  end.

(** A further [let] clause is charged to [nest_depth] only; the loop gives back the
    charges. *)
Definition if_let_step '((clauses, spine, cur) : list LetClause * N * Span)
    : P (flow (list LetClause * N * Span) (list LetClause * N * Expr)) :=
  c ← parse_let_clause cur;
  let clauses := clauses ++ [c] in
  next_kw ← eat_next_clause;
  is_let ← check TK_Let;
  match next_kw, is_let with
  | Some kw, true =>
      nd ← gets nest_depth;
      if (MAX_NESTING_DEPTH <=? nd + 1)%N then
        _ ← nesting_overflow; mret (Break (clauses, spine, empty_block_expr cur))
      else _ ← charge_nest; mret (Continue (clauses, (spine + 1)%N, kw))
  | _, _ => tail ← if_let_tail cur next_kw; mret (Break (clauses, spine, tail))
  end.

Definition parse_if_let (start : Span) : P Stmt :=
  '(clauses, spine, tail) ← loop_ if_let_step ([], 0%N, start);
  _ ← release_nest spine;
  end_ ← prev_span;
  lift (of_option (nest_if_let end_ tail clauses)).

Definition parse_if_rest_inner (start : Span) : P Stmt :=
  c ← check TK_Let;
  if c : bool then parse_if_let start else parse_if_plain start.

Definition parse_if_rest (start : Span) : P Stmt :=
  guarded empty_stmt (parse_if_rest_inner start).

Definition parse_if_stmt : P Stmt := kw ← expect TK_If; parse_if_rest (t_span kw).

(** [PAT in ITER { .. }] *)
Definition parse_for_rest (is_parallel : bool) (start : Span) : P Stmt :=
  pattern ← parse_pattern;
  _ ← expect TK_In;
  iterable ← parse_expr_no_struct_lit;
  body ← parse_block;
  end_ ← prev_span;
  mret (S_For is_parallel pattern iterable body (merge start end_)).

Definition parse_for : P Stmt := kw ← expect TK_For; parse_for_rest false (t_span kw).

Definition parse_parallel_for : P Stmt :=
  kw ← expect TK_Parallel; _ ← expect TK_For; parse_for_rest true (t_span kw).

Definition parse_loop : P Stmt :=
  kw ← expect TK_Loop;
  body ← parse_block;
  end_ ← prev_span;
  mret (S_While (E_BoolLiteral true (t_span kw)) body (merge (t_span kw) end_)).

(** [while true { match EXPR { PAT => { BODY }, _ => { break } } }] *)
Definition parse_while_let (start : Span) : P Stmt :=
  _ ← expect TK_Let;
  pattern ← parse_pattern;
  _ ← expect TK_Eq;
  subject ← parse_expr_no_struct_lit;
  body ← parse_block;
  end_ ← prev_span;
  let span := merge start end_ in
  let break_ := E_Block (mkBlock [S_Break span] span) span in
  let e := match_or_else subject pattern (E_Block body (block_span body)) break_ span in
  mret (S_While (E_BoolLiteral true start) (mkBlock [S_Expr e span] span) span).

Definition parse_while : P Stmt :=
  kw ← expect TK_While;
  let start := t_span kw in
  c ← check TK_Let;
  if c : bool then parse_while_let start
  else
    '(condition, body) ← parse_clause;
    end_ ← prev_span;
    mret (S_While condition body (merge start end_)).

(* ------------------------------------------------------------------ *)
(** ** The other statements                                            *)
(* ------------------------------------------------------------------ *)

(** The pattern is a tuple pattern or a name. *)
Definition parse_let : P Stmt :=
  kw ← expect TK_Let;
  mutable ← eat TK_Mut;
  paren ← check TK_LParen;
  '(name, pattern) ←
    (if paren : bool then pattern ← parse_pattern; mret ([], Some pattern)
     else '(name, _) ← expect_name; mret (name, None));
  ty ← if_eat TK_Colon parse_type;
  value ← if_eat TK_Eq parse_expr;
  end_ ← prev_span;
  mret (S_Let name mutable ty value pattern (merge (t_span kw) end_)).

Definition parse_return : P Stmt :=
  kw ← expect TK_Return;
  c ← check TK_RBrace; e ← at_end; semi ← check TK_Semicolon;
  value ← (if c || e || semi then mret None else Some <$> parse_expr);
  end_ ← prev_span;
  mret (S_Return value (merge (t_span kw) end_)).

Definition parse_spawn : P Stmt :=
  kw ← expect TK_Spawn;
  e ← parse_expr;
  mret (S_Spawn e (merge (t_span kw) (expr_span e))).

(** [deny!(cap, cap:sub) { .. }] *)
Definition parse_deny_block : P Stmt :=
  kw ← advance;
  _ ← expect TK_Bang;
  _ ← expect TK_LParen;
  denied ←
    while_not TK_RParen (fun denied =>
      '(name, _) ← expect_ident;
      sub ← if_eat TK_Colon expect_ident;
      let name := match sub with Some (s, _) => name ++ bytes ":" ++ s | None => name end in
      let denied := denied ++ [name] in
      comma ← eat TK_Comma;
      mret (if comma : bool then Continue denied else Break denied)) [];
  _ ← expect TK_RParen;
  body ← parse_block;
  mret (S_DenyBlock denied body (merge (t_span kw) (block_span body))).

(** What follows the first word of a branch of [select]. *)
Definition parse_branch (tok : Token) : P (Expr * Block * Span) :=
  e ← parse_expr;
  _ ← expect TK_FatArrow;
  body ← parse_block;
  end_ ← prev_span;
  mret (e, body, merge (t_span tok) end_).

Definition parse_select : P Stmt :=
  kw ← expect TK_Select;
  _ ← expect TK_LBrace;
  '(branches, timeout) ←
    while_not TK_RBrace (fun '(branches, timeout) =>
      tok ← peek;
      let is_timeout_branch :=
        kind_eq (t_kind tok) TK_Ident && bool_decide (t_text tok = bytes "timeout") in
      if negb is_timeout_branch && negb (kind_eq (t_kind tok) TK_Ident) then
        _ ← error (t_span tok); _ ← advance; mret (Continue (branches, timeout))
      else
        _ ← advance;
        if is_timeout_branch then
          _ ← (match timeout with Some _ => error (t_span tok) | None => mret tt end);
          '(duration_ms, body, span) ← parse_branch tok;
          mret (Continue (branches,
            match timeout with
            | Some t => Some t
            | None => Some (mkTimeout duration_ms body span)
            end))
        else
          '(channel, body, span) ← parse_branch tok;
          mret (Continue (branches ++ [mkBranch (t_text tok) channel body span], timeout)))
      ([], None);
  rbrace ← expect TK_RBrace;
  mret (S_Select branches timeout (merge (t_span kw) (t_span rbrace))).

(** Both [catch name] and [catch (name)]. *)
Definition parse_try_catch : P Stmt :=
  kw ← expect TK_Try;
  try_block ← parse_block;
  _ ← expect TK_Catch;
  has_parens ← eat TK_LParen;
  '(catch_name, _) ← expect_name;
  _ ← (if has_parens : bool then _ ← expect TK_RParen; mret tt else mret tt);
  catch_block ← parse_block;
  end_ ← prev_span;
  mret (S_TryCatch try_block catch_name catch_block (merge (t_span kw) end_)).

Definition parse_throw : P Stmt :=
  kw ← expect TK_Throw;
  e ← parse_expr;
  mret (S_Throw e (merge (t_span kw) (expr_span e))).

(** [let name = fn(..) -> T { .. }] *)
Definition parse_inner_fn : P Stmt :=
  fn_tok ← expect TK_Fn;
  '(name, _) ← expect_name;
  '(params, ret_ty, body, end_) ← parse_fn_rest E;
  let span := merge (t_span fn_tok) end_ in
  mret (S_Let name false None (Some (E_Lambda params ret_ty body span)) None span).

Definition parse_expr_or_assign : P Stmt :=
  e ← parse_expr;
  k ← peek_kind;
  match assign_op k with
  | Some op =>
      _ ← advance;
      value ← parse_expr;
      mret (S_Assign e op value (merge (expr_span e) (expr_span value)))
  | None => mret (S_Expr e (merge (expr_span e) (expr_span e)))
  end.

(** [;] is reported whether or not the nesting limit has fired. *)
Definition parse_semicolon : P (option Stmt) :=
  tok ← advance;
  _ ← push_diag (mkDiag true (Some E0009) (t_span tok));
  full ← gets nesting_exhausted;
  if full : bool then _ ← nesting_overflow; mret None
  else nested (parse_statement E).

Definition parse_statement_body : P (option Stmt) :=
  tok ← peek;
  k' ← get_kind 1;
  match t_kind tok with
  | TK_Let => Some <$> parse_let
  | TK_Return => Some <$> parse_return
  | TK_If => Some <$> parse_if_stmt
  | TK_Parallel =>
      if bool_decide (k' = Some TK_For) then Some <$> parse_parallel_for
      else Some <$> parse_expr_or_assign
  | TK_For => Some <$> parse_for
  | TK_While => Some <$> parse_while
  | TK_Loop => Some <$> parse_loop
  | TK_Break => _ ← advance; mret (Some (S_Break (t_span tok)))
  | TK_Continue => _ ← advance; mret (Some (S_Continue (t_span tok)))
  | TK_Spawn => Some <$> parse_spawn
  | TK_Select => Some <$> parse_select
  | TK_Try => Some <$> parse_try_catch
  | TK_Throw => Some <$> parse_throw
  | TK_Fn =>
      if bool_decide (k' = Some TK_Ident) then Some <$> parse_inner_fn
      else Some <$> parse_expr_or_assign
  | TK_Ident =>
      if bool_decide (t_text tok = bytes "deny") && bool_decide (k' = Some TK_Bang)
      then Some <$> parse_deny_block else Some <$> parse_expr_or_assign
  | TK_RBrace => mret None
  | TK_Semicolon => parse_semicolon
  | _ => Some <$> parse_expr_or_assign
  end.
End Stmts.

(* ------------------------------------------------------------------ *)
(** ** The knot                                                        *)
(* ------------------------------------------------------------------ *)

Fixpoint levels (n : nat) : Entries :=
  match n with
  | O => mkEntries (fun _ => out_of_levels) out_of_levels out_of_levels out_of_levels
  | S n =>
      let E := levels n in
      mkEntries (parse_expr_bp_body E) (parse_block_body E) (parse_statement_body E)
        (parse_block_stmts_body E)
  end.
