(* ===== verification/ParseDecl.v ===== *)
(** Declarations and modules ([kryos-parser/src/parser.rs], lines 446-1211), and the
    two entry points of the crate ([kryos-parser/src/lib.rs]). *)

From S2P Require Import Prelude Machine Utf8 Text Token Ast ParseCore ParseType ParseExpr ParseStmt.

Definition collect_doc_comments : P (list str) :=
  loop_ (fun docs =>
    c ← check TK_DocComment;
    if c : bool then tok ← advance; mret (Continue (docs ++ [t_text tok]))
    else mret (Break docs)) [].

(** [buf.push_str] with a space between adjacent words. *)
Definition push_word (buf text : str) : str :=
  match last buf with
  | None => buf ++ text
  | Some b =>
      if (b =? chr "(") || (b =? chr ",") || (b =? chr ":") then buf ++ text
      else buf ++ bytes " " ++ text
  end.

(** One argument of an annotation, with its nested parentheses. *)
Definition parse_annotation_arg : P str :=
  '(buf, _) ←
    loop_ (fun '(buf, depth) =>
      e ← at_end; comma ← check TK_Comma; rparen ← check TK_RParen;
      if e || (Nat.eqb depth 0 && (comma || rparen)) then mret (Break (buf, depth))
      else
        tok ← advance;
        '(buf, depth) ←
          match t_kind tok with
          | TK_LParen => mret (buf ++ bytes "(", S depth)
          | TK_RParen => lift (match depth with O => Panic | S d => Done (buf ++ bytes ")", d) end)
          | TK_Comma => mret (buf ++ bytes ",", depth)
          | TK_Colon => mret (buf ++ bytes ":", depth)
          | _ => mret (push_word buf (t_text tok), depth)
          end;
        e ← at_end;
        mret (if e : bool then Break (buf, depth) else Continue (buf, depth))) ([], O);
  mret (trim buf).

Definition parse_annotation : P Annotation :=
  at_tok ← expect TK_At;
  '(name, _) ← expect_ident;
  end_ ← prev_span;
  paren ← eat TK_LParen;
  '(args, end_) ←
    (if paren : bool then
       args ←
         loop_ (fun args =>
           c ← check TK_RParen;
           if c : bool then mret (Break args)
           else
             arg ← parse_annotation_arg;
             let args := args ++ [arg] in
             comma ← eat TK_Comma;
             mret (if comma : bool then Continue args else Break args)) [];
       rparen ← expect TK_RParen;
       mret (args, t_span rparen)
     else mret ([], end_));
  mret (mkAnnotation name args (merge (t_span at_tok) end_)).

Definition parse_annotations : P (list Annotation) :=
  loop_ (fun annotations =>
    c ← check TK_At;
    if c : bool then a ← parse_annotation; mret (Continue (annotations ++ [a]))
    else mret (Break annotations)) [].

(** [Bound1 + Bound2] *)
Definition parse_bounds : P (list str) :=
  '(b, _) ← expect_name;
  while_eat TK_Plus (fun bounds =>
    '(b, _) ← expect_name; mret (Continue (bounds ++ [b]))) [b].

Definition parse_generics : P (list GenericParam) :=
  lt ← eat TK_Lt;
  if negb lt then mret []
  else
    generics ←
      while_not TK_Gt (fun generics =>
        '(name, span_start) ← expect_name;
        bounds ← if_eat TK_Colon parse_bounds;
        span_end ← prev_span;
        c ← check TK_Gt;
        _ ← (if c : bool then mret tt else _ ← expect TK_Comma; mret tt);
        mret (Continue (generics ++
          [mkGeneric name (default [] bounds) (merge span_start span_end)]))) [];
    _ ← expect TK_Gt;
    mret generics.

(** [if !g.bounds.contains(b) { g.bounds.push(b) }], for each bound. *)
Definition add_bounds (bounds : list str) (g : GenericParam) : GenericParam :=
  mkGeneric (gp_name g)
    (foldl (fun acc b => if bool_decide (b ∈ acc) then acc else acc ++ [b]) (gp_bounds g) bounds)
    (gp_span g).

(** The first parameter of that name, if any. *)
Fixpoint merge_bounds (name : str) (bounds : list str) (gs : list GenericParam)
    : list GenericParam :=
  match gs with
  | [] => []
  | g :: gs =>
      if bool_decide (gp_name g = name) then add_bounds bounds g :: gs
      else g :: merge_bounds name bounds gs
  end.

Definition parse_where_clause_into (generics : list GenericParam) : P (list GenericParam) :=
  tok ← peek;
  if bool_decide (generics = []) || negb (kind_eq (t_kind tok) TK_Ident)
     || negb (bool_decide (t_text tok = bytes "where"))
  then mret generics
  else
    _ ← advance;
    loop_ (fun generics =>
      brace ← check TK_LBrace; semi ← check TK_Semicolon; e ← at_end;
      if brace || semi || e then mret (Break generics)
      else
        '(type_name, _) ← expect_name;
        _ ← expect TK_Colon;
        bounds ← parse_bounds;
        let generics := merge_bounds type_name bounds generics in
        comma ← eat TK_Comma;
        mret (if comma : bool then Continue generics else Break generics)) generics.

(** [<T, U, ..>] after the target of an [impl]: parsed and dropped. *)
Definition skip_impl_target_type_args : P unit :=
  lt ← eat TK_Lt;
  if lt : bool then
    _ ← while_not TK_Gt (fun _ : unit =>
          _ ← parse_type;
          comma ← eat TK_Comma;
          mret (if comma : bool then Continue tt else Break tt)) tt;
    _ ← expect TK_Gt;
    mret tt
  else mret tt.

(** [use a::b::{c, d}], [use a::b::*], [use a::b as c] *)
Definition parse_import (doc_comments : list str) : P Decl :=
  kw ← expect TK_Use;
  let start := t_span kw in
  '(first, _) ← expect_path_segment;
  '(segments, items) ←
    while_eat TK_ColonColon (fun '(segments, _) =>
      star ← eat TK_Star;
      if star : bool then mret (Break (segments, None))
      else
        brace ← eat TK_LBrace;
        if brace : bool then
          items ← comma_list TK_RBrace (fst <$> expect_name);
          rbrace ← expect TK_RBrace;
          mret (Break (segments, Some (items, t_span rbrace)))
        else
          '(seg, _) ← expect_path_segment;
          mret (Continue (segments ++ [seg], None))) ([first], None);
  match items with
  | Some (items, s) =>
      let span := merge start s in
      mret (D_Import (mkImport segments None items span) doc_comments span)
  | None =>
      alias ← if_eat TK_As (fst <$> expect_name);
      end_ ← prev_span;
      let span := merge start end_ in
      mret (D_Import (mkImport segments alias [] span) doc_comments span)
  end.

Section Decls.
Context (E : Entries).
Abbreviation parse_expr := (parse_expr E).
Abbreviation parse_block := (parse_block E).

Definition parse_fn_decl (public is_async : bool) (annotations : list Annotation)
    (doc_comments : list str) : P Decl :=
  fn_tok ← expect TK_Fn;
  '(name, _) ← expect_name;
  generics ← parse_generics;
  _ ← expect TK_LParen;
  params ← parse_param_list E;
  _ ← expect TK_RParen;
  ret_ty ← if_eat TK_Arrow parse_type;
  generics ← parse_where_clause_into generics;
  c ← check TK_LBrace;
  body ← (if c : bool then Some <$> parse_block else _ ← eat TK_Semicolon; mret None);
  end_ ← prev_span;
  mret (D_Function name generics params ret_ty body public is_async annotations doc_comments
    (merge (t_span fn_tok) end_)).

Definition parse_struct_field : P StructField :=
  field_public ← eat TK_Pub;
  '(fname, fspan) ← expect_name;
  _ ← expect TK_Colon;
  ty ← parse_type;
  default ← if_eat TK_Eq parse_expr;
  end_ ← prev_span;
  mret (mkField fname ty field_public default (merge fspan end_)).

Definition parse_struct_decl (public : bool) (annotations : list Annotation)
    (doc_comments : list str) : P Decl :=
  kw ← expect TK_Struct;
  '(name, _) ← expect_name;
  generics ← parse_generics;
  _ ← expect TK_LBrace;
  fields ←
    while_not TK_RBrace (fun fields =>
      f ← parse_struct_field;
      _ ← eat_comma_before TK_RBrace;
      mret (Continue (fields ++ [f]))) [];
  rbrace ← expect TK_RBrace;
  mret (D_Struct name generics fields public annotations doc_comments
    (merge (t_span kw) (t_span rbrace))).

(** [(T, U)]; the fields of [{ x: T }] are reported, and kept by position. *)
Definition parse_variant_fields : P (list TypeExpr) :=
  paren ← eat TK_LParen;
  if paren : bool then
    fields ← comma_list TK_RParen parse_type;
    _ ← expect TK_RParen;
    mret fields
  else
    brace ← check TK_LBrace;
    if brace : bool then
      lb ← peek_span;
      _ ← error lb;
      _ ← eat TK_LBrace;
      fields ←
        while_not TK_RBrace (fun fields =>
          _ ← expect_name;
          _ ← expect TK_Colon;
          t ← parse_type;
          _ ← eat_comma_before TK_RBrace;
          mret (Continue (fields ++ [t]))) [];
      _ ← expect TK_RBrace;
      mret fields
    else mret [].

Definition parse_enum_decl (public : bool) (annotations : list Annotation)
    (doc_comments : list str) : P Decl :=
  kw ← expect TK_Enum;
  '(name, _) ← expect_name;
  generics ← parse_generics;
  _ ← expect TK_LBrace;
  variants ←
    while_not TK_RBrace (fun variants =>
      loop_start ← gets pos;
      '(vname, vspan) ← expect_name;
      fields ← parse_variant_fields;
      end_ ← prev_span;
      _ ← eat_comma_before TK_RBrace;
      now ← gets pos; e ← at_end;
      _ ← (if Nat.eqb now loop_start && negb e then _ ← advance; mret tt else mret tt);
      mret (Continue (variants ++ [mkVariant vname fields (merge vspan end_)]))) [];
  rbrace ← expect TK_RBrace;
  mret (D_Enum name generics variants public annotations doc_comments
    (merge (t_span kw) (t_span rbrace))).

Definition parse_trait_decl (public : bool) (doc_comments : list str) : P Decl :=
  kw ← expect TK_Trait;
  '(name, _) ← expect_name;
  generics ← parse_generics;
  _ ← expect TK_LBrace;
  methods ←
    while_not TK_RBrace (fun methods =>
      method_docs ← collect_doc_comments;
      m ← parse_fn_decl false false [] method_docs;
      mret (Continue (methods ++ [m]))) [];
  rbrace ← expect TK_RBrace;
  mret (D_Trait name generics methods public doc_comments (merge (t_span kw) (t_span rbrace))).

Definition parse_impl_decl (doc_comments : list str) : P Decl :=
  kw ← expect TK_Impl;
  generics ← parse_generics;
  '(first_name, _) ← expect_name;
  _ ← skip_impl_target_type_args;
  target ← if_eat TK_For ('(tgt, _) ← expect_name; _ ← skip_impl_target_type_args; mret tgt);
  _ ← expect TK_LBrace;
  methods ←
    while_not TK_RBrace (fun methods =>
      method_docs ← collect_doc_comments;
      method_annotations ← parse_annotations;
      pub_method ← eat TK_Pub;
      m ← parse_fn_decl pub_method false method_annotations method_docs;
      mret (Continue (methods ++ [m]))) [];
  rbrace ← expect TK_RBrace;
  let '(target, trait_name) :=
    match target with Some tgt => (tgt, Some first_name) | None => (first_name, None) end in
  mret (D_Impl target trait_name generics methods doc_comments
    (merge (t_span kw) (t_span rbrace))).

Definition parse_handler : P MessageHandler :=
  fn_tok ← expect TK_Fn;
  '(hname, _) ← expect_name;
  _ ← expect TK_LParen;
  params ← parse_param_list E;
  _ ← expect TK_RParen;
  ret_ty ← if_eat TK_Arrow parse_type;
  body ← parse_block;
  end_ ← prev_span;
  mret (mkHandler hname params ret_ty body (merge (t_span fn_tok) end_)).

Definition parse_state_field : P StructField :=
  '(fname, fspan) ← expect_name;
  _ ← expect TK_Colon;
  ty ← parse_type;
  end_ ← prev_span;
  rbrace ← check TK_RBrace; fn ← check TK_Fn;
  _ ← (if negb rbrace && negb fn then eat TK_Comma else mret false);
  mret (mkField fname ty false None (merge fspan end_)).

Definition parse_actor_decl (annotations : list Annotation) (doc_comments : list str) : P Decl :=
  kw ← expect TK_Actor;
  '(name, _) ← expect_name;
  _ ← expect TK_LBrace;
  '(state_fields, handlers) ←
    while_not TK_RBrace (fun '(state_fields, handlers) =>
      fn ← check TK_Fn;
      if fn : bool then h ← parse_handler; mret (Continue (state_fields, handlers ++ [h]))
      else f ← parse_state_field; mret (Continue (state_fields ++ [f], handlers))) ([], []);
  rbrace ← expect TK_RBrace;
  mret (D_Actor name state_fields handlers annotations doc_comments
    (merge (t_span kw) (t_span rbrace))).

Definition parse_type_alias (public : bool) (doc_comments : list str) : P Decl :=
  kw ← expect TK_Type;
  '(name, _) ← expect_name;
  generics ← parse_generics;
  _ ← expect TK_Eq;
  ty ← parse_type;
  mret (D_TypeAlias name generics ty public doc_comments (merge (t_span kw) (type_span ty))).

Definition parse_const_decl (public : bool) (doc_comments : list str) : P Decl :=
  kw ← expect TK_Let;
  mutable ← eat TK_Mut;
  '(name, _) ← expect_name;
  ty ← if_eat TK_Colon parse_type;
  _ ← expect TK_Eq;
  value ← parse_expr;
  end_ ← prev_span;
  mret (D_Const name ty value public mutable doc_comments (merge (t_span kw) end_)).

Definition parse_extern (doc_comments : list str) : P Decl :=
  kw ← expect TK_Extern;
  c ← check TK_String;
  abi ← (if c : bool then t_text <$> advance else mret (bytes "C"));
  _ ← expect TK_LBrace;
  items ←
    while_not TK_RBrace (fun items =>
      d ← parse_fn_decl false false [] []; mret (Continue (items ++ [d]))) [];
  rbrace ← expect TK_RBrace;
  mret (D_Extern abi items doc_comments (merge (t_span kw) (t_span rbrace))).

Definition parse_declaration : P (option Decl) :=
  doc_comments ← collect_doc_comments;
  annotations ← parse_annotations;
  public ← eat TK_Pub;
  k ← peek_kind;
  match k with
  | TK_Fn => Some <$> parse_fn_decl public false annotations doc_comments
  | TK_Async =>
      _ ← advance;
      fn ← check TK_Fn;
      if fn : bool then Some <$> parse_fn_decl public true annotations doc_comments
      else span ← peek_span; _ ← error span; mret None
  | TK_Struct => Some <$> parse_struct_decl public annotations doc_comments
  | TK_Enum => Some <$> parse_enum_decl public annotations doc_comments
  | TK_Trait => Some <$> parse_trait_decl public doc_comments
  | TK_Impl => Some <$> parse_impl_decl doc_comments
  | TK_Actor => Some <$> parse_actor_decl annotations doc_comments
  | TK_Type => Some <$> parse_type_alias public doc_comments
  | TK_Use => Some <$> parse_import doc_comments
  | TK_Extern => Some <$> parse_extern doc_comments
  | TK_Let => Some <$> parse_const_decl public doc_comments
  | _ =>
      _ ← (if negb (bool_decide (length annotations = 0%nat)) || public then
             span ← peek_span; _ ← error span; synchronize
           else mret tt);
      mret None
  end.

(** What cannot start a declaration is reported and skipped. *)
Definition skip_to_declaration : P unit :=
  e ← at_end;
  if e : bool then mret tt
  else
    span ← peek_span;
    _ ← error_with_code span E0001;
    before ← gets pos;
    _ ← synchronize;
    now ← gets pos; e ← at_end;
    if Nat.eqb now before && negb e then _ ← advance; mret tt else mret tt.

Definition parse_module_body : P Module_ :=
  start_span ← peek_span;
  declarations ←
    loop_ (fun declarations =>
      e ← at_end;
      if e : bool then mret (Break declarations)
      else
        d ← parse_declaration;
        match d with
        | Some decl => mret (Continue (declarations ++ [decl]))
        | None => _ ← skip_to_declaration; mret (Continue declarations)
        end) [];
  let end_span := from_option decl_span start_span (last declarations) in
  mret (mkModule [] declarations (merge start_span end_span)).
End Decls.

(** [Parser::parse_module] on a native stack of [n] calls. *)
Definition parse_module (n : nat) : P Module_ := parse_module_body (levels n).

(** [kryos_parser::parse]: [inl] is [Ok]. *)
Definition parse (n : nat) (ts : list Token) : res (Module_ + list Diagnostic) :=
  '(m, p) ← parse_module n (new_parser ts);
  Done (if existsb is_error (diagnostics p) then inr (diagnostics p) else inl m).

(** [kryos_parser::parse_with_diagnostics] *)
Definition parse_with_diagnostics (n : nat) (ts : list Token)
    : res (option Module_ * list Diagnostic) :=
  '(m, p) ← parse_module n (new_parser ts);
  let has_error := existsb is_error (diagnostics p) in
  Done (if has_error then None else Some m, diagnostics p).
