(* ===== verification/ParseLogic.v ===== *)
(** A logic for the totality of the parser: what every method keeps of the state,
    and the bound on the recursion that it runs within.

    [ok s b m] says that [m] returns from every state whose [budget] is at most
    [b], and leaves a state in [frame]; with [s], that it moves on unless it starts
    at the end.  The rules follow the syntax of the monad. *)

From S2P Require Import Prelude Machine Utf8 Text Token Ast ParseCore ParseType ParseExpr ParseStmt.

(* ------------------------------------------------------------------ *)
(** ** What is kept                                                    *)
(* ------------------------------------------------------------------ *)

(** The parser rewrites [>>] to [>]; up to that the kinds are constant. *)
Definition norm (k : TokenKind) : TokenKind := match k with TK_Shr => TK_Gt | _ => k end.
Definition kinds (p : Parser) : list TokenKind := map (fun t => norm (t_kind t)) (tokens p).
Definition cur (p : Parser) : option TokenKind := kinds p !! pos p.

(** A token stream as the lexer makes it: it ends with [Eof]. *)
Definition wf (p : Parser) : Prop :=
  last (kinds p) = Some TK_Eof /\ (pos p < length (kinds p))%nat.

#[export] Instance code_eq_dec : EqDecision Code.
Proof. solve_decision. Defined.

(** The [E0010] reported so far. *)
Definition is_e0010 (d : Diagnostic) : bool := bool_decide (d_code d = Some E0010).
Definition e0010_count (p : Parser) : nat := length (List.filter is_e0010 (diagnostics p)).
Definition poison_count (p : Parser) : nat := if nesting_poisoned p then 1 else 0.

Record frame_nest (p p' : Parser) : Prop := mkFrame {
  fr_wf : wf p';
  fr_kinds : kinds p' = kinds p;
  fr_pos : (pos p <= pos p')%nat;
  fr_nsl : no_struct_literal p' = no_struct_literal p;
  fr_rec : rec_depth p' = rec_depth p;
  fr_poison : (poison_count p <= poison_count p')%nat;
  fr_e0010 : (e0010_count p' + poison_count p = e0010_count p + poison_count p')%nat
}.
Definition frame (p p' : Parser) : Prop := frame_nest p p' /\ nest_depth p' = nest_depth p.

Lemma frame_nest_trans p p' p'' : frame_nest p p' -> frame_nest p' p'' -> frame_nest p p''.
Proof. intros [] []. split; first [done|congruence|lia]. Qed.
Lemma frame_trans p p' p'' : frame p p' -> frame p' p'' -> frame p p''.
Proof. intros [] []. split; [by eapply frame_nest_trans|congruence]. Qed.
Lemma frame_refl p : wf p -> frame p p.
Proof. by split; [split|]. Qed.

(** No progress means that the same kind is next. *)
Lemma frame_cur p p' : frame_nest p p' -> (pos p' <= pos p)%nat -> cur p' = cur p.
Proof. intros [] ?. unfold cur. rewrite fr_kinds0. f_equal. lia. Qed.

(* ------------------------------------------------------------------ *)
(** ** The budget of the recursion                                     *)
(* ------------------------------------------------------------------ *)

(** The kinds from a [let] on start a [let-else]. *)
Definition le_head (ks : list TokenKind) : bool :=
  match ks with
  | TK_Let :: ks =>
      match (match ks with TK_Mut :: ks' => ks' | _ => ks end) with
      | name :: sep :: _ => is_name_kind name && (kind_eq sep TK_Dot || kind_eq sep TK_ColonColon)
      | _ => false
      end
  | _ => false
  end.

(** The [let-else] heads in a list of kinds. *)
Fixpoint let_elses (ks : list TokenKind) : nat :=
  match ks with
  | [] => 0
  | _ :: ks' => (if le_head ks then 1 else 0) + let_elses ks'
  end.

(** How far the recursion may go: units of [rec_depth] left, and [let-else] heads. *)
Record Budget := mkBudget { b_rec : nat; b_let : nat }.
Definition within (b : Budget) (p : Parser) : Prop :=
  (N.to_nat (MAX_RECURSION_DEPTH - rec_depth p) <= b_rec b)%nat /\
  (let_elses (drop (pos p) (kinds p)) <= b_let b)%nat.

Lemma let_elses_drop n ks : (let_elses (drop n ks) <= let_elses ks)%nat.
Proof.
  revert n. induction ks as [|k ks IH]; intros [|n]; try done.
  change (drop (S n) (k :: ks)) with (drop n ks). specialize (IH n). cbn [let_elses]. lia.
Qed.

Lemma within_frame b p p' : frame_nest p p' -> within b p -> within b p'.
Proof.
  intros [] [Hr Hl]. split; [by rewrite fr_rec0|]. rewrite fr_kinds0.
  replace (pos p') with (pos p + (pos p' - pos p))%nat by lia.
  rewrite <-drop_drop. pose proof (let_elses_drop (pos p' - pos p) (drop (pos p) (kinds p))). lia.
Qed.

(* ------------------------------------------------------------------ *)
(** ** The judgements                                                  *)
(* ------------------------------------------------------------------ *)

Definition ok {A} (s : bool) (b : Budget) (m : P A) : Prop :=
  forall p, wf p -> within b p ->
    exists a p', m p = Done (a, p') /\ frame p p'
      /\ (s = true -> (pos p < pos p')%nat \/ cur p = Some TK_Eof).

(** The same, that moves on when its value satisfies [c]. *)
Definition ok_when {A} (c : A -> bool) (b : Budget) (m : P A) : Prop :=
  forall p, wf p -> within b p ->
    exists a p', m p = Done (a, p') /\ frame p p' /\ (c a = true -> (pos p < pos p')%nat).

(** A round of a loop that moves on whenever the loop continues. *)
Definition continues {S A} (r : flow S A) : bool := match r with Continue _ => true | Break _ => false end.
Definition ok_round {S A} (b : Budget) (m : P (flow S A)) : Prop := ok_when continues b m.

(** The same for a round that starts at a token that is neither [k] (unless it is a
    [>]) nor the end. *)
Definition ok_body {A} (c : A -> bool) (k : TokenKind) (b : Budget) (m : P A) : Prop :=
  forall p, wf p -> within b p ->
    exists r p', m p = Done (r, p') /\ frame p p'
      /\ (cur p <> Some TK_Eof -> (k <> TK_Gt -> cur p <> Some k) ->
          c r = true -> (pos p < pos p')%nat).

Lemma ok_weak {A} s b (m : P A) : ok true b m -> ok s b m.
Proof. intros Hm p Hp Hb. destruct (Hm p Hp Hb) as (a & p' & ? & ? & ?). exists a, p'. auto. Qed.
Lemma ok_le {A} s b b' (m : P A) :
  ok s b m -> (forall p, wf p -> within b' p -> within b p) -> ok s b' m.
Proof. intros Hm Hle p Hp Hb. apply Hm; auto. Qed.

Lemma ok_ret {A} b (a : A) : ok false b (mret a).
Proof. intros p Hp _. exists a, p. split; [done|]. split; [by apply frame_refl|done]. Qed.

(** A bind moves on when one of its parts does. *)
Lemma ok_bind_gen {A B} s1 s2 b (m : P A) (f : A -> P B) :
  ok s1 b m -> (forall a, ok s2 b (f a)) -> ok (s1 || s2) b (m ≫= f).
Proof.
  intros Hm Hf p Hp Hb. destruct (Hm p Hp Hb) as (a & p1 & E1 & F1 & S1).
  destruct (Hf a p1 (fr_wf _ _ (proj1 F1)) (within_frame _ _ _ (proj1 F1) Hb)) as (a' & p2 & E2 & F2 & S2).
  exists a', p2. split_and!.
  - unfold mbind, P_bind. by rewrite E1.
  - by eapply frame_trans.
  - pose proof (fr_pos _ _ (proj1 F1)). pose proof (fr_pos _ _ (proj1 F2)).
    intros Hs. apply orb_true_iff in Hs as [Hs|Hs].
    + destruct (S1 Hs) as [?|?]; [left; lia|by right].
    + destruct (S2 Hs) as [?|Hend]; [left; lia|].
      destruct (decide (pos p < pos p1)%nat); [left; lia|right].
      rewrite <-Hend. symmetry. apply (frame_cur _ _ (proj1 F1)). lia.
Qed.
Lemma ok_bind {A B} b (m : P A) (f : A -> P B) :
  ok false b m -> (forall a, ok false b (f a)) -> ok false b (m ≫= f).
Proof. apply (ok_bind_gen false false). Qed.
Lemma ok_bind_l {A B} b (m : P A) (f : A -> P B) :
  ok true b m -> (forall a, ok false b (f a)) -> ok true b (m ≫= f).
Proof. apply (ok_bind_gen true false). Qed.
Lemma ok_bind_r {A B} b (m : P A) (f : A -> P B) :
  ok false b m -> (forall a, ok true b (f a)) -> ok true b (m ≫= f).
Proof. apply (ok_bind_gen false true). Qed.
Lemma ok_fmap {A B} s b (f : A -> B) (m : P A) : ok s b m -> ok s b (f <$> m).
Proof.
  intros Hm. replace s with (s || false) by apply orb_false_r.
  apply (ok_bind_gen s false); [done|]. intros a. apply ok_ret.
Qed.

(* ------------------------------------------------------------------ *)
(** ** Navigation                                                      *)
(* ------------------------------------------------------------------ *)

Lemma kinds_length p : length (kinds p) = length (tokens p).
Proof. apply length_map. Qed.

Lemma clamped_Done f p : wf p -> exists t, clamped f p = Done (t, p).
Proof.
  intros [_ Hpos]. rewrite kinds_length in Hpos. unfold clamped.
  destruct (length (tokens p)) as [|n] eqn:Hn; [lia|].
  destruct (lookup_lt_is_Some_2 (tokens p) (f (pos p) `min` n)) as [t Ht]; [lia|].
  exists t. unfold token_at, lift. by rewrite Ht.
Qed.

Lemma peek_Done p : wf p -> exists t, peek p = Done (t, p) /\ tokens p !! pos p = Some t.
Proof.
  intros [_ Hpos]. rewrite kinds_length in Hpos. unfold peek, clamped.
  destruct (length (tokens p)) as [|n] eqn:Hn; [lia|].
  destruct (lookup_lt_is_Some_2 (tokens p) (pos p)) as [t Ht]; [lia|].
  exists t. unfold token_at, lift, id. replace (pos p `min` n)%nat with (pos p) by lia. by rewrite Ht.
Qed.

(** The kind of the next token, and its trace in [cur]. *)
Lemma peek_kind_Done p :
  wf p -> exists t, peek_kind p = Done (t_kind t, p) /\ tokens p !! pos p = Some t
    /\ cur p = Some (norm (t_kind t)).
Proof.
  intros Hp. destruct (peek_Done p Hp) as (t & Ht & Hl). exists t. split_and!; [|done|].
  - unfold peek_kind, fmap, P_fmap, mbind, P_bind. by rewrite Ht.
  - unfold cur, kinds. by rewrite list_lookup_fmap, Hl.
Qed.

Lemma check_Done k p :
  wf p -> exists t, check k p = Done (kind_eq (t_kind t) k, p) /\ tokens p !! pos p = Some t
    /\ cur p = Some (norm (t_kind t)).
Proof.
  intros Hp. destruct (peek_kind_Done p Hp) as (t & Ht & Hl & Hc). exists t. split_and!; [|done..].
  unfold check, fmap, P_fmap, mbind, P_bind. by rewrite Ht.
Qed.

Lemma kind_eq_spec a b : reflect (a = b) (kind_eq a b).
Proof. unfold kind_eq. case_bool_decide; by constructor. Qed.
Lemma kind_eq_refl k : kind_eq k k = true.
Proof. by apply bool_decide_eq_true. Qed.

Lemma norm_eof k : norm k = TK_Eof <-> k = TK_Eof.
Proof. destruct k; done. Qed.
Lemma norm_other k k' : k <> TK_Gt -> k <> TK_Shr -> norm k' = k <-> k' = k.
Proof. intros. destruct k'; cbn; split; congruence. Qed.

(** [at_end] is [cur p = Some Eof]. *)
Lemma at_end_Done p : wf p -> at_end p = Done (bool_decide (cur p = Some TK_Eof), p).
Proof.
  intros Hp. destruct (check_Done TK_Eof p Hp) as (t & Ht & _ & Hc). unfold at_end. rewrite Ht.
  f_equal. f_equal. unfold kind_eq. apply bool_decide_ext. rewrite Hc, <-norm_eof. split; congruence.
Qed.

(** Kinds other than [>] and [>>] are read from [cur]. *)
Lemma check_cur k p :
  wf p -> k <> TK_Gt -> k <> TK_Shr -> check k p = Done (bool_decide (cur p = Some k), p).
Proof.
  intros Hp ??. destruct (check_Done k p Hp) as (t & Ht & _ & Hc). rewrite Ht.
  f_equal. f_equal. unfold kind_eq. apply bool_decide_ext.
  rewrite Hc, <-(norm_other k (t_kind t)) by done. split; congruence.
Qed.

Lemma advance_Done p :
  wf p -> exists t p', advance p = Done (t, p') /\ frame p p' /\ tokens p !! pos p = Some t
    /\ (cur p = Some TK_Eof /\ p' = p \/ pos p' = S (pos p)).
Proof.
  intros Hp. destruct (peek_Done p Hp) as (t & Ht & Hl). exists t.
  unfold advance. unfold mbind at 1, P_bind. rewrite Ht. unfold mbind, P_bind.
  rewrite (at_end_Done p Hp). case_bool_decide as He; cbn.
  - exists p. split_and!; [done|by apply frame_refl|done|by left].
  - exists (with_pos (S (pos p)) p). split_and!; [done| |done|by right].
    split; [|done]. split; try first [done|exact (le_n _)|cbn; lia]. destruct Hp as [Hlast Hpos].
    split; [done|]. change (S (pos p) < length (kinds p))%nat.
    destruct (decide (S (pos p) = length (kinds p))) as [He'|]; [|lia]. exfalso.
    apply He. unfold cur. rewrite last_lookup, <-He' in Hlast. exact Hlast.
Qed.

Lemma ok_pure {A} b (m : P A) : (forall p, wf p -> exists a, m p = Done (a, p)) -> ok false b m.
Proof.
  intros Hm p Hp _. destruct (Hm p Hp) as [a Ha]. exists a, p.
  split; [done|]. split; [by apply frame_refl|done].
Qed.

Lemma ok_gets {A} b (f : Parser -> A) : ok false b (gets f).
Proof. apply ok_pure. intros p _. by exists (f p). Qed.
Lemma ok_clamped b f : ok false b (clamped f).
Proof. apply ok_pure. apply clamped_Done. Qed.
Lemma ok_peek b : ok false b peek.
Proof. apply ok_clamped. Qed.
Lemma ok_peek_kind b : ok false b peek_kind.
Proof. apply ok_fmap, ok_clamped. Qed.
Lemma ok_peek_nth b n : ok false b (peek_nth n).
Proof. apply ok_fmap, ok_clamped. Qed.
Lemma ok_prev_span b : ok false b prev_span.
Proof. apply ok_fmap, ok_clamped. Qed.
Lemma ok_peek_span b : ok false b peek_span.
Proof. apply ok_fmap, ok_clamped. Qed.
Lemma ok_get_kind b n : ok false b (get_kind n).
Proof. apply ok_gets. Qed.
Lemma ok_check b k : ok false b (check k).
Proof. apply ok_fmap, ok_peek_kind. Qed.
Lemma ok_at_end b : ok false b at_end.
Proof. apply ok_check. Qed.
Lemma ok_advance b : ok true b advance.
Proof.
  intros p Hp _. destruct (advance_Done p Hp) as (t & p' & ? & ? & _ & Hadv). exists t, p'.
  split_and!; [done..|]. intros _. destruct Hadv as [[? _]| ->]; [by right|left; lia].
Qed.

Create HintDb ok.
#[export] Hint Resolve ok_ret ok_gets ok_peek ok_peek_kind ok_peek_nth ok_prev_span ok_peek_span
  ok_get_kind ok_check ok_at_end ok_advance : ok.
#[export] Hint Resolve ok_fmap : ok.

(** Take the next step through the syntax of the monad. *)
Ltac ok_leaf := first [solve [auto 2 with ok] | solve [apply ok_weak; auto 2 with ok]].
Ltac ok_step :=
  lazymatch goal with
  | |- forall _, _ => intro
  | |- ok _ _ (let '_ := ?x in _) => destruct x
  | |- ok _ _ (if ?c then _ else _) => destruct c
  | |- ok _ _ (match ?x with _ => _ end) => destruct x
  | |- ok false _ (_ ≫= _) => apply ok_bind
  | |- ok true _ (_ ≫= _) =>
      first [apply ok_bind_l; [ok_leaf|] | apply ok_bind_r; [ok_leaf|]]
  | |- ok _ _ (_ <$> _) => apply ok_fmap
  | |- ok _ _ _ => ok_leaf
  end.
Ltac ok := repeat (cbv zeta; ok_step).

(* ------------------------------------------------------------------ *)
(** ** Changes of the other fields                                     *)
(* ------------------------------------------------------------------ *)

Lemma ok_error_with_code b s c : c <> E0010 -> ok false b (error_with_code s c).
Proof.
  intros Hc p Hp _. unfold error_with_code, gets, mbind, P_bind.
  destruct (nesting_poisoned p) eqn:Hn; (eexists _, _; split; [done|]; split; [|done]);
    [by apply frame_refl|].
  split; [|done]. split; try first [done|exact (le_n _)]. unfold e0010_count. cbn.
  rewrite List.filter_app, length_app. cbn. unfold is_e0010 at 2. cbn.
  rewrite bool_decide_eq_false_2 by congruence. unfold poison_count. cbn. lia.
Qed.
Lemma ok_error b s : ok false b (error s).
Proof. by apply ok_error_with_code. Qed.

Lemma ok_push_diag b d : d_code d <> Some E0010 -> ok false b (push_diag d).
Proof.
  intros Hd p Hp _. eexists _, _. split; [done|]. split; [|done].
  split; [|done]. split; try first [done|exact (le_n _)]. unfold e0010_count. cbn.
  rewrite List.filter_app, length_app. cbn. unfold is_e0010 at 2.
  rewrite bool_decide_eq_false_2 by done. unfold poison_count. cbn. lia.
Qed.
Lemma ok_warn b s : ok false b (warn_asi_trap s).
Proof. by apply ok_push_diag. Qed.

Lemma ok_nesting_overflow b : ok false b nesting_overflow.
Proof.
  intros p Hp Hb. unfold nesting_overflow, gets. unfold mbind at 1, P_bind.
  destruct (nesting_poisoned p) eqn:Hn; [exists tt, p; split; [done|]; by split; [apply frame_refl|]|].
  destruct (ok_peek_span b p Hp Hb) as (s & p' & Hs & _).
  assert (p' = p) as ->.
  { destruct (peek_Done p Hp) as (t & Ht & _).
    unfold peek_span, fmap, P_fmap, mbind, P_bind in Hs. rewrite Ht in Hs. by injection Hs. }
  unfold mbind at 1, P_bind. rewrite Hs. eexists _, _. split; [done|]. split; [|done].
  split; [|done]. split; try done.
  - unfold poison_count. rewrite Hn. cbn. lia.
  - unfold e0010_count, poison_count. cbn. rewrite Hn, List.filter_app, length_app.
    cbn. assert (is_e0010 (mkDiag true (Some E0010) s) = true) as -> by by apply bool_decide_eq_true.
    cbn. lia.
Qed.

Lemma ok_fresh_name b h : ok false b (fresh_name h).
Proof.
  intros p Hp _. eexists _, _. split; [done|]. split; [|done]. split; [|done].
  by split; try exact (le_n _).
Qed.

Lemma ok_lift_Some {A} b (o : option A) : is_Some o -> ok false b (lift (of_option o)).
Proof. intros [a ->]. apply ok_ret. Qed.

#[export] Hint Resolve ok_error ok_warn ok_nesting_overflow ok_fresh_name : ok.
#[export] Hint Extern 1 (ok _ _ (error_with_code _ _)) => apply ok_error_with_code; discriminate : ok.
#[export] Hint Extern 1 (ok _ _ (push_diag _)) => apply ok_push_diag; discriminate : ok.

(* ------------------------------------------------------------------ *)
(** ** Expecting tokens                                                *)
(* ------------------------------------------------------------------ *)

(** A successful [eat] moves on. *)
Lemma eat_Done k p :
  wf p -> k <> TK_Eof -> exists c p', eat k p = Done (c, p') /\ frame p p'
    /\ (c = true -> (pos p < pos p')%nat)
    /\ (c = false -> p' = p).
Proof.
  intros Hp Hk. destruct (check_Done k p Hp) as (t & Ht & Hl & Hc).
  unfold eat. unfold mbind at 1, P_bind. rewrite Ht.
  destruct (kind_eq_spec (t_kind t) k) as [He|He].
  - destruct (advance_Done p Hp) as (t' & p' & Hadv & Hf & _ & Hpos).
    unfold mbind, P_bind. rewrite Hadv. exists true, p'. split_and!; [done..| |done].
    intros _. destruct Hpos as [[Hend _]| ->]; [|lia]. exfalso.
    rewrite Hend in Hc. injection Hc as Hn. symmetry in Hn. apply (proj1 (norm_eof _)) in Hn. congruence.
  - exists false, p. split_and!; [done|by apply frame_refl|done|done].
Qed.

Lemma ok_eat b k : ok false b (eat k).
Proof. unfold eat. ok. Qed.
#[export] Hint Resolve ok_eat : ok.

Lemma ok_advance_unless_end b : ok true b advance_unless_end.
Proof.
  intros p Hp _. unfold advance_unless_end. unfold mbind at 1, P_bind. rewrite (at_end_Done p Hp).
  case_bool_decide as He.
  - exists tt, p. split_and!; [done|by apply frame_refl|by right].
  - destruct (advance_Done p Hp) as (t & p' & Hadv & Hf & _ & Hpos).
    unfold mbind, P_bind. rewrite Hadv. exists tt, p'. split_and!; [done..|]. intros _.
    destruct Hpos as [[? _]| ->]; [done|left; lia].
Qed.
#[export] Hint Resolve ok_advance_unless_end : ok.

Lemma ok_expect b k : ok true b (expect k).
Proof. unfold expect. ok. Qed.
Lemma ok_expect_ident_code b c : c <> E0010 -> ok true b (expect_ident_code c).
Proof. intros Hc. pose proof (ok_error_with_code b). unfold expect_ident_code. ok. Qed.
Lemma ok_expect_ident b : ok true b expect_ident.
Proof. by apply ok_expect_ident_code. Qed.
Lemma ok_expect_name b : ok true b expect_name.
Proof. by apply ok_expect_ident_code. Qed.
#[export] Hint Resolve ok_expect ok_expect_ident ok_expect_name : ok.
Lemma ok_expect_path_segment b : ok true b expect_path_segment.
Proof. unfold expect_path_segment. ok. Qed.

Lemma ok_if_eat {A} b k (m : P A) : ok false b m -> ok false b (if_eat k m).
Proof. intros Hm. unfold if_eat. ok. Qed.
Lemma ok_eat_comma_before b k : ok false b (eat_comma_before k).
Proof. unfold eat_comma_before. ok. Qed.
Lemma ok_int_value b t : ok false b (int_value t).
Proof. unfold int_value. ok. Qed.
#[export] Hint Resolve ok_expect_path_segment ok_if_eat ok_eat_comma_before ok_int_value : ok.

(* ------------------------------------------------------------------ *)
(** ** Loops                                                           *)
(* ------------------------------------------------------------------ *)

(** Rounds that move on when they continue end within the fuel of [loop_]; an
    invariant of the state may relate it to the parser. *)
Lemma loop_Done {S A} b (I : S -> Parser -> Prop) (Q : A -> Parser -> Prop) (body : S -> P (flow S A)) :
  (forall s p, I s p -> wf p -> within b p ->
    exists r p', body s p = Done (r, p') /\ frame_nest p p'
      /\ match r with
         | Continue s' => (pos p < pos p')%nat /\ I s' p'
         | Break a => Q a p'
         end) ->
  forall s p, I s p -> wf p -> within b p ->
    exists a p', loop_ body s p = Done (a, p') /\ frame_nest p p' /\ Q a p'.
Proof.
  intros Hbody s p HI Hp Hb. unfold loop_.
  assert (Hf : (length (kinds p) - pos p < Datatypes.S (length (tokens p)))%nat)
    by (rewrite kinds_length; lia).
  generalize dependent (Datatypes.S (length (tokens p))). intros fuel.
  revert s p HI Hp Hb. induction fuel as [|fuel IH]; intros s p HI Hp Hb Hf; [lia|]. cbn [loop].
  destruct (Hbody s p HI Hp Hb) as (r & p' & Hr & Hfr & Hcont).
  pose proof (within_frame _ _ _ Hfr Hb) as Hb'. pose proof (fr_wf _ _ Hfr) as Hw.
  unfold mbind, P_bind. rewrite Hr. destruct r as [s'|a]; [|by exists a, p'].
  destruct Hcont as [Hpos HI']. pose proof (proj2 Hp). pose proof (fr_kinds _ _ Hfr) as Hk.
  destruct (IH s' p' HI' Hw Hb') as (a & p'' & Ha & Hfr' & HQ).
  { rewrite Hk. lia. }
  exists a, p''. split_and!; [done|by eapply frame_nest_trans|done].
Qed.

Lemma ok_loop {S A} b (body : S -> P (flow S A)) s :
  (forall s, ok_round b (body s)) -> ok false b (loop_ body s).
Proof.
  intros Hbody p Hp Hb.
  destruct (loop_Done b (fun _ q => nest_depth q = nest_depth p) (fun _ q => nest_depth q = nest_depth p)
              body) with (s := s) (p := p) as (a & p' & Ha & Hf & Hn); [|done..|].
  - intros s0 q Hq Hwq Hbq. destruct (Hbody s0 q Hwq Hbq) as (r & q' & Hr & [Hfr Hn] & Hc).
    exists r, q'. split_and!; [done..|]. destruct r; [split; [by apply Hc|]|]; congruence.
  - exists a, p'. split_and!; [done|by split|done].
Qed.

Lemma ok_when_ret {A} (c : A -> bool) b (a : A) : c a = false -> ok_when c b (mret a).
Proof. intros Hc p Hp _. exists a, p. split_and!; [done|by apply frame_refl|congruence]. Qed.
Lemma ok_when_bind {A B} c b (m : P A) (f : A -> P B) :
  ok false b m -> (forall a, ok_when c b (f a)) -> ok_when c b (m ≫= f).
Proof.
  intros Hm Hf p Hp Hb. destruct (Hm p Hp Hb) as (a & p1 & E1 & F1 & _).
  destruct (Hf a p1 (fr_wf _ _ (proj1 F1)) (within_frame _ _ _ (proj1 F1) Hb)) as (r & p2 & E2 & F2 & Hc).
  exists r, p2. split_and!.
  - unfold mbind, P_bind. by rewrite E1.
  - by eapply frame_trans.
  - intros Hs. pose proof (fr_pos _ _ (proj1 F1)). specialize (Hc Hs). lia.
Qed.
(** What follows a computation whose values, when it moves on, are known. *)
Lemma ok_when_bind_when {A B} c c' b (m : P A) (f : A -> P B) :
  ok_when c' b m -> (forall a, if c' a then ok false b (f a) else ok_when c b (f a)) ->
  ok_when c b (m ≫= f).
Proof.
  intros Hm Hf p Hp Hb. destruct (Hm p Hp Hb) as (a & p1 & E1 & F1 & S1). specialize (Hf a).
  assert (exists r p2, f a p1 = Done (r, p2) /\ frame p1 p2
    /\ (c r = true -> (pos p < pos p2)%nat)) as (r & p2 & E2 & F2 & Hc).
  { pose proof (fr_pos _ _ (proj1 F1)). destruct (c' a).
    - destruct (Hf p1 (fr_wf _ _ (proj1 F1)) (within_frame _ _ _ (proj1 F1) Hb)) as (r & p2 & ? & F2 & _).
      exists r, p2. split_and!; [done..|]. pose proof (fr_pos _ _ (proj1 F2)). specialize (S1 eq_refl). lia.
    - destruct (Hf p1 (fr_wf _ _ (proj1 F1)) (within_frame _ _ _ (proj1 F1) Hb)) as (r & p2 & ? & F2 & Hc).
      exists r, p2. split_and!; [done..|]. intros Hr. specialize (Hc Hr). lia. }
  exists r, p2. split_and!; [|by eapply frame_trans|done]. unfold mbind, P_bind. by rewrite E1.
Qed.
Lemma ok_when_eat_self b k : k <> TK_Eof -> ok_when id b (eat k).
Proof.
  intros Hk p Hp Hb. destruct (eat_Done k p Hp Hk) as (c & p' & Hc & Hfr & Ht & He). by exists c, p'.
Qed.
(** After [eat] has succeeded, anything may follow. *)
Lemma ok_when_eat {A} c b k (f g : P A) :
  k <> TK_Eof -> ok false b f -> ok_when c b g ->
  ok_when c b (e ← eat k; if e : bool then f else g).
Proof.
  intros Hk Hf Hg. apply (ok_when_bind_when _ id); [by apply ok_when_eat_self|].
  by intros [].
Qed.
Lemma ok_round_eat_ret {S A} b k (s : S) (a : A) :
  k <> TK_Eof -> ok_round b (c ← eat k; mret (if c : bool then Continue s else Break a)).
Proof.
  intros Hk. apply (ok_when_bind_when _ id); [by apply ok_when_eat_self|].
  intros []; [apply ok_ret|by apply ok_when_ret].
Qed.
(** A round that looks whether it is at the end of the tokens. *)
Lemma ok_round_at_end {S A} b (f : bool -> P (flow S A)) :
  ok_round b (f true) -> ok_body continues TK_Gt b (f false) -> ok_round b (at_end ≫= f).
Proof.
  intros Hf Hg p Hp Hb. unfold mbind, P_bind. rewrite (at_end_Done p Hp).
  case_bool_decide as He; [by apply Hf|].
  destruct (Hg p Hp Hb) as (r & p' & Hr & Hfr & Hs). exists r, p'. split_and!; [done..|].
  by apply Hs.
Qed.
Lemma ok_when_check {A} c b k (f g : P A) :
  k <> TK_Eof -> ok true b f -> ok_when c b g ->
  ok_when c b (e ← check k; if e : bool then f else g).
Proof.
  intros Hk Hf Hg p Hp Hb. destruct (check_Done k p Hp) as (t & Ht & _ & Hc).
  unfold mbind, P_bind. rewrite Ht. destruct (kind_eq_spec (t_kind t) k) as [He|]; [|by apply Hg].
  destruct (Hf p Hp Hb) as (r & p' & Hr & Hfr & Hs). exists r, p'. split_and!; [done..|].
  intros _. destruct (Hs eq_refl) as [|Hend]; [done|]. exfalso. rewrite Hend in Hc.
  injection Hc as Hn. symmetry in Hn. apply (proj1 (norm_eof _)) in Hn. congruence.
Qed.

Lemma ok_while_eat {S} b k (body : S -> P (flow S S)) s :
  k <> TK_Eof -> (forall s, ok false b (body s)) -> ok false b (while_eat k body s).
Proof.
  intros Hk Hbody. apply ok_loop. intros s'. apply ok_when_eat; [done..|]. by apply ok_when_ret.
Qed.

Lemma ok_while_not {S} b k (body : S -> P (flow S S)) s :
  (forall s, ok_body continues k b (body s)) -> ok false b (while_not k body s).
Proof.
  intros Hbody. apply ok_loop. intros s' p Hp Hb. unfold mbind at 1, P_bind.
  destruct (check_Done k p Hp) as (t & Ht & _ & Hc). rewrite Ht.
  unfold mbind at 1, P_bind. rewrite (at_end_Done p Hp).
  destruct (kind_eq_spec (t_kind t) k) as [He|He]; cbn [orb].
  { exists (Break s'), p. split_and!; [done|by apply frame_refl|done]. }
  case_bool_decide as Hend.
  { exists (Break s'), p. split_and!; [done|by apply frame_refl|done]. }
  destruct (Hbody s' p Hp Hb) as (r & p' & Hr & Hf & Hs). exists r, p'. split_and!; [done..|].
  apply Hs; [done|]. intros Hk Hcur. rewrite Hcur in Hc. injection Hc as Hc.
  destruct (t_kind t); cbn in Hc; congruence.
Qed.

Lemma ok_body_strict {A} c k b (m : P A) : ok true b m -> ok_body c k b m.
Proof.
  intros Hm p Hp Hb. destruct (Hm p Hp Hb) as (r & p' & Hr & Hf & Hs).
  exists r, p'. split_and!; [done..|]. intros He _ _. by destruct (Hs eq_refl).
Qed.
Lemma ok_body_ret {A} (c : A -> bool) k b (a : A) : c a = false -> ok_body c k b (mret a).
Proof. intros Hc p Hp _. exists a, p. split_and!; [done|by apply frame_refl|congruence]. Qed.
Lemma ok_body_bind {A B} c k b (m : P A) (f : A -> P B) :
  ok false b m -> (forall a, ok_body c k b (f a)) -> ok_body c k b (m ≫= f).
Proof.
  intros Hm Hf p Hp Hb. destruct (Hm p Hp Hb) as (a & p1 & E1 & F1 & _).
  destruct (Hf a p1 (fr_wf _ _ (proj1 F1)) (within_frame _ _ _ (proj1 F1) Hb)) as (r & p2 & E2 & F2 & Hc).
  exists r, p2. split_and!.
  - unfold mbind, P_bind. by rewrite E1.
  - by eapply frame_trans.
  - intros He Hk Hs. pose proof (fr_pos _ _ (proj1 F1)). pose proof (fr_pos _ _ (proj1 F2)).
    destruct (decide (pos p < pos p1)%nat); [lia|].
    rewrite <-(frame_cur _ _ (proj1 F1)) in He, Hk by lia. specialize (Hc He Hk Hs). lia.
Qed.

(** The closing token of a list is not one that the elements may rewrite. *)
Lemma ok_comma_list {A} b k (m : P A) :
  k <> TK_Gt -> k <> TK_Shr -> ok false b m -> ok false b (comma_list k m).
Proof.
  intros Hk Hk' Hm. apply ok_while_not. intros xs p Hp Hb.
  destruct (Hm p Hp Hb) as (a & p1 & Ha & Hf1 & _). pose proof (fr_wf _ _ (proj1 Hf1)) as Hp1.
  unfold mbind at 1, P_bind. rewrite Ha. unfold mbind at 1, P_bind. rewrite (check_cur k p1) by done.
  case_bool_decide as Hc.
  - eexists _, _. split_and!; [done..|]. intros _ Hne _. pose proof (fr_pos _ _ (proj1 Hf1)).
    destruct (decide (pos p < pos p1)%nat); [done|]. exfalso. apply (Hne Hk). rewrite <-Hc.
    symmetry. apply (frame_cur _ _ (proj1 Hf1)). lia.
  - destruct (ok_expect b TK_Comma p1 Hp1 (within_frame _ _ _ (proj1 Hf1) Hb)) as (t & p2 & Ht & Hf2 & Hs).
    unfold mbind, P_bind. rewrite Ht. eexists _, _. split_and!; [done|by eapply frame_trans|].
    intros He _ _. pose proof (fr_pos _ _ (proj1 Hf1)). pose proof (fr_pos _ _ (proj1 Hf2)).
    destruct (Hs eq_refl) as [|Hend]; [lia|].
    destruct (decide (pos p < pos p1)%nat); [lia|]. exfalso. apply He. rewrite <-Hend.
    symmetry. apply (frame_cur _ _ (proj1 Hf1)). lia.
Qed.

Ltac ok_leaf ::=
  first
    [ solve [auto 2 with ok]
    | solve [apply ok_weak; auto 2 with ok]
    | lazymatch goal with
      | |- ok false _ (if_eat _ _) => apply ok_if_eat; ok_leaf
      | |- ok false _ (comma_list _ _) => apply ok_comma_list; [discriminate|discriminate|ok_leaf]
      | |- ok _ _ (_ <$> _) => apply ok_fmap; ok_leaf
      end ].

Ltac ok_round_step :=
  lazymatch goal with
  | |- forall _, _ => intro
  | |- ok_round _ (_ ≫= _) =>
      first [apply ok_round_eat_ret; discriminate | apply ok_round_at_end; cbv beta; rewrite ?orb_true_r; cbv iota
            | unfold ok_round]
  | |- ok_round _ _ => unfold ok_round
  | |- ok_when _ _ (mret _) => apply ok_when_ret; reflexivity
  | |- ok_when _ _ (let '_ := ?x in _) => destruct x
  | |- ok_when _ _ (eat _ ≫= _) =>
      first [apply ok_round_eat_ret; discriminate | apply ok_when_eat; [discriminate| |] | apply ok_when_bind]
  | |- ok_when _ _ (check _ ≫= _) => first [apply ok_when_check; [discriminate|ok_strict|] | apply ok_when_bind]
  | |- ok_when continues _ (at_end ≫= _) => apply ok_round_at_end; cbv beta; rewrite ?orb_true_r; cbv iota
  | |- ok_when _ _ (_ ≫= _) => apply ok_when_bind
  | |- ok_when _ _ (if ?c then _ else _) => destruct c
  | |- ok_when _ _ (match ?x with _ => _ end) => destruct x
  | |- ok false _ (if_eat _ _) => apply ok_if_eat
  | |- ok false _ (comma_list _ _) => apply ok_comma_list; [discriminate|discriminate|]
  | |- ok _ _ (while_eat _ _ _) => apply ok_while_eat; [discriminate|]
  | |- ok _ _ (while_not _ _ _) => apply ok_while_not
  | |- ok _ _ (loop_ _ _) => apply ok_loop
  | |- ok_body _ _ _ (mret _) => apply ok_body_ret; reflexivity
  | |- ok_body _ _ _ (_ <$> _) => apply ok_body_strict
  | |- ok_body _ _ _ (?m ≫= _) =>
      first [apply ok_body_strict, ok_bind_l; [ok_leaf|] | apply ok_body_bind; [ok_leaf|]
            | apply ok_body_strict]
  | |- ok_body _ _ _ (let '_ := ?x in _) => destruct x
  | |- ok_body _ _ _ (if ?c then _ else _) => destruct c
  | |- ok_body _ _ _ (match ?x with _ => _ end) => destruct x
  | |- ok _ _ _ => ok_step
  end
with ok_strict := solve [repeat (cbv zeta; ok_round_step)].
Ltac ok ::= repeat (cbv zeta; ok_round_step).

Lemma ok_synchronize b : ok false b synchronize.
Proof. unfold synchronize. ok. Qed.
#[export] Hint Resolve ok_synchronize : ok.

(* ------------------------------------------------------------------ *)
(** ** The nesting guard                                               *)
(* ------------------------------------------------------------------ *)

Lemma frame_nest_depths p nd :
  wf p -> frame_nest p (with_depths nd (rec_depth p) p).
Proof. intros Hp. by split; try exact (le_n _). Qed.

(** A guarded production spends one unit of [rec_depth]. *)
Lemma ok_nested {A} s b (m : P A) p :
  (forall r, b_rec b = S r -> ok s (mkBudget r (b_let b)) m) ->
  nesting_exhausted p = false -> wf p -> within b p ->
  exists a p', nested m p = Done (a, p') /\ frame p p'
    /\ (s = true -> (pos p < pos p')%nat \/ cur p = Some TK_Eof).
Proof.
  intros Hm Hex Hp Hb. apply orb_false_iff in Hex as [_ Hrec%N.leb_gt].
  set (q := with_depths (nest_depth p + 1) (rec_depth p + 1) p).
  destruct Hb as [Hbr Hbl]. destruct b as [[|r] l]; cbn [b_rec b_let] in *; [lia|].
  assert (Hbq : within (mkBudget r l) q).
  { split; [|done]. change (rec_depth q) with (rec_depth p + 1)%N. cbn [b_rec]. lia. }
  destruct (Hm r eq_refl q Hp Hbq) as (a & q' & Ha & [[] Hn] & Hs).
  change (rec_depth q) with (rec_depth p + 1)%N in fr_rec0.
  change (nest_depth q) with (nest_depth p + 1)%N in Hn.
  exists a, (with_depths (nest_depth p) (rec_depth p) q').
  assert (Hrun : nested m p = Done (a, with_depths (nest_depth p) (rec_depth p) q')).
  { unfold nested. unfold mbind at 1 2, P_bind, charge_nest, charge_rec, modify.
    change (with_depths (nest_depth (with_depths (nest_depth p + 1) (rec_depth p) p))
      (rec_depth (with_depths (nest_depth p + 1) (rec_depth p) p) + 1)
      (with_depths (nest_depth p + 1) (rec_depth p) p)) with q.
    unfold mbind, P_bind. rewrite Ha. unfold release_rec, release_nest. rewrite fr_rec0.
    rewrite (proj2 (N.leb_le 1 (rec_depth p + 1))) by lia. cbn. rewrite Hn.
    rewrite (proj2 (N.leb_le 1 (nest_depth p + 1))) by lia.
    unfold with_depths. cbn. by rewrite !N.add_sub. }
  split; [done|]. split; [|exact Hs]. split; [|done]. by split.
Qed.

Lemma ok_guarded {A} s b (f : Span -> A) (m : P A) :
  (forall r, b_rec b = S r -> ok s (mkBudget r (b_let b)) m) -> ok s b (guarded f m).
Proof.
  intros Hm p Hp Hb. unfold guarded, gets. unfold mbind at 1, P_bind.
  destruct (nesting_exhausted p) eqn:Hex; [|by eapply ok_nested].
  apply (ok_weak s b); [|done..]. pose proof (ok_advance_unless_end b) as Hadv.
  apply ok_bind_r; [apply ok_nesting_overflow|intros _].
  apply ok_bind_r; [apply ok_peek_span|intros sp]. 
  change (ok true b (e ← at_end;
    _ ← (if e : bool then mret tt else _ ← advance; mret tt); mret (f sp))).
  intros q Hq Hbq. destruct (Hadv q Hq Hbq) as (u & q' & Hu & Hfq & Hsq).
  exists (f sp), q'. split_and!; [|done..]. unfold advance_unless_end in Hu.
  unfold mbind, P_bind in Hu |- *. rewrite (at_end_Done q Hq) in Hu |- *.
  by destruct (bool_decide _); rewrite ?Hu.
Qed.

Lemma ok_guarded_le {A} s b (f : Span -> A) (m : P A) : ok s b m -> ok s b (guarded f m).
Proof.
  intros Hm. apply ok_guarded. intros r Hr. apply (ok_le _ b); [done|].
  intros p _ [? ?]. cbn in *. split; [lia|done].
Qed.
