(* ===== verification/ParseTotal.v ===== *)
(** The parser is total: on a token stream as the lexer makes it, every method
    returns, within a recursion that the nesting guard and the [let-else] heads of
    the stream bound. *)

From S2P Require Import Prelude Machine Utf8 Text Token Ast ParseCore ParseType ParseExpr ParseStmt ParseDecl ParseLogic.

(* ------------------------------------------------------------------ *)
(** ** Types and patterns                                              *)
(* ------------------------------------------------------------------ *)

Lemma ok_expect_generic_gt b : ok false b expect_generic_gt.
Proof.
  intros p Hp Hb. destruct (check_Done TK_Shr p Hp) as (t & Ht & Hl & Hc).
  unfold expect_generic_gt. unfold mbind at 1, P_bind. rewrite Ht.
  destruct (kind_eq_spec (t_kind t) TK_Shr) as [He|He]; [|by apply (ok_weak false b), Hb; [apply ok_expect|]].
  unfold mbind, P_bind, gets. unfold token_at, lift. rewrite Hl. cbn.
  eexists _, _. split; [done|]. split; [|done]. split; [|done].
  set (t' := mkToken _ _ _ _). set (p' := with_tokens _ p).
  assert (Hk : kinds p' = kinds p).
  { unfold kinds, p'. cbn. rewrite list_fmap_insert. apply list_insert_id.
    rewrite list_lookup_fmap, Hl. cbn. by rewrite He. }
  split; try first [done|exact (le_n _)]. split; rewrite Hk; apply Hp.
Qed.
#[export] Hint Resolve ok_expect_generic_gt : ok.

Lemma ok_type_inner b (rec : P TypeExpr) : ok true b rec -> ok true b (parse_type_inner rec).
Proof.
  intros Hrec. unfold parse_type_inner. apply ok_bind_r; [ok_leaf|]. intros tok.
  unfold type_prefix, parse_fn_type, parse_array_size, parse_named_type.
  destruct (t_kind tok); ok.
Qed.

(** A recursion whose every level is guarded ends. *)
Lemma guarded_levels {A} (f : Span -> A) (inner : P A -> P A) (rec : nat -> P A) :
  (forall n, rec (S n) = guarded f (inner (rec n))) ->
  (forall b m, ok true b m -> ok true b (inner m)) ->
  forall b, ok true b (rec MAX_LEVELS).
Proof.
  intros Hrec Hinner.
  assert (Hlev : forall n r l, (r < n)%nat -> ok true (mkBudget r l) (rec n)).
  { induction n as [|n IH]; intros r l Hr; [lia|]. rewrite Hrec. apply ok_guarded.
    intros r' Hr'. apply Hinner, IH. cbn in *. lia. }
  intros b. apply (ok_le _ (mkBudget 256 (b_let b))); [by apply Hlev; unfold MAX_LEVELS; lia|].
  intros p _ [_ Hl]. split; [|done]. cbn. unfold MAX_RECURSION_DEPTH. lia.
Qed.

Lemma ok_parse_type b : ok true b parse_type.
Proof. revert b. by apply (guarded_levels (TE_Simple (bytes "i64")) parse_type_inner); [|apply ok_type_inner]. Qed.
#[export] Hint Resolve ok_parse_type : ok.

Lemma ok_pattern_inner b (rec : P Pattern) : ok true b rec -> ok true b (parse_pattern_inner rec).
Proof.
  intros Hrec. unfold parse_pattern_inner. apply ok_bind_r; [ok_leaf|]. intros tok.
  unfold parse_named_pattern, parse_struct_pattern, parse_neg_pattern, pattern_unexpected.
  destruct (t_kind tok); ok.
Qed.
Lemma ok_parse_pattern b : ok true b parse_pattern.
Proof. revert b. by apply (guarded_levels P_Wildcard parse_pattern_inner); [|apply ok_pattern_inner]. Qed.
#[export] Hint Resolve ok_parse_pattern : ok.

(* ------------------------------------------------------------------ *)
(** ** Expressions                                                     *)
(* ------------------------------------------------------------------ *)

Definition need (b : Budget) : nat := (2 * b_rec b + 2 * b_let b)%nat.

(** What [n] levels of the four entries promise. *)
Record entries_ok (n : nat) (E : Entries) : Prop := {
  eo_expr b bp : (need b + 1 <= n)%nat -> ok false b (parse_expr_bp E bp);
  eo_block b : (need b + 1 <= n)%nat -> ok true b (parse_block E);
  eo_stmt b : (need b + 2 <= n)%nat -> ok false b (parse_statement E);
  eo_stmts b : (need b + 3 <= n)%nat -> ok false b (parse_block_stmts E)
}.

(** A computation with the flag set, and then restored. *)
Lemma ok_no_struct {A} b (m : P A) :
  ok false b m ->
  ok false b (prev ← gets no_struct_literal; _ ← modify (with_no_struct true); e ← m;
              _ ← modify (with_no_struct prev); mret e).
Proof.
  intros Hm p Hp Hb. set (q := with_no_struct true p).
  destruct (Hm q Hp Hb) as (a & q' & Ha & [[] Hn] & _).
  exists a, (with_no_struct (no_struct_literal p) q').
  split; [|split; [|done]]; [|by split; [split|]].
  unfold gets, modify, mbind, P_bind. change (with_no_struct true p) with q. by rewrite Ha.
Qed.

(** A loop that charges [nest_depth] once per round; what follows gives back what the
    rounds have charged. *)
Lemma ok_spine_loop {S A B} b (charge : S -> N) (charged : A -> N) (good : A -> Prop)
    (body : S -> P (flow S A)) s (k : A -> P B) :
  (forall s p, wf p -> within b p ->
    exists r p', body s p = Done (r, p') /\ frame_nest p p'
      /\ match r with
         | Continue s' => (pos p < pos p')%nat /\ (nest_depth p' + charge s = nest_depth p + charge s')%N
         | Break a => good a /\ (nest_depth p' + charge s = nest_depth p + charged a)%N
         end) ->
  (forall a p q, good a -> frame_nest p q -> within b q -> nest_depth q = (nest_depth p + charged a)%N ->
    exists r p', k a q = Done (r, p') /\ frame p p') ->
  charge s = 0%N -> ok false b (loop_ body s ≫= k).
Proof.
  intros Hbody Hk Hs p Hp Hb.
  destruct (loop_Done b (fun s q => nest_depth q = (nest_depth p + charge s)%N)
    (fun a q => good a /\ nest_depth q = (nest_depth p + charged a)%N) body)
    with (s := s) (p := p) as (a & q & Ha & Hf & Hg & Hn); [|by rewrite Hs; lia|done..|].
  - intros s0 q Hq Hwq Hbq. destruct (Hbody s0 q Hwq Hbq) as (r & q' & Hr & Hf & Hc).
    exists r, q'. split_and!; [done..|]. destruct r; (split; [apply Hc|]); destruct Hc; lia.
  - destruct (Hk a p q Hg Hf (within_frame _ _ _ Hf Hb) Hn) as (r & p' & Hr & Hfr).
    exists r, p'. split_and!; [|done..]. unfold mbind, P_bind. by rewrite Ha.
Qed.

Lemma release_then {B} b n (m : P B) p q :
  ok false b m -> frame_nest p q -> within b q -> nest_depth q = (nest_depth p + n)%N ->
  exists r p', (_ ← release_nest n; m) q = Done (r, p') /\ frame p p'.
Proof.
  intros Hm Hf Hb Hn. set (q' := with_depths (nest_depth q - n) (rec_depth q) q).
  assert (Hf' : frame p q').
  { split; [|cbn; lia]. destruct Hf. by split. }
  destruct (Hm q' (fr_wf _ _ (proj1 Hf'))) as (r & p' & Hr & Hfr & _).
  { destruct Hb. by split. }
  exists r, p'. split; [|by eapply frame_trans]. unfold release_nest, mbind, P_bind.
  rewrite (proj2 (N.leb_le n (nest_depth q))) by lia. exact Hr.
Qed.

(** One more unit of [nest_depth]. *)
Lemma charge_frame p q : frame p q ->
  frame_nest p (with_depths (nest_depth q + 1) (rec_depth q) q).
Proof. intros [[] _]. by split. Qed.

(** Run the next computation of a bind by its totality. *)
Ltac run_step H x q F S :=
  lazymatch type of H with
  | ok _ _ _ => idtac | ok_when _ _ _ => idtac
  end;
  let Hw := fresh "Hw" in let Hb := fresh "Hb" in let Er := fresh "Er" in
  lazymatch goal with
  | Hwf : wf ?p, Hbd : within _ ?p |- context [(_ ≫= _) ?p] =>
      destruct (H p Hwf Hbd) as (x & q & Er & F & S);
      pose proof (fr_wf _ _ (proj1 F)) as Hw; pose proof (within_frame _ _ _ (proj1 F) Hbd) as Hb;
      unfold mbind at 1; unfold P_bind; rewrite Er; clear Hwf Hbd
  end.

Section Exprs.
Context {n : nat} {E : Entries} (HE : entries_ok n E) {b : Budget} (Hb1 : (need b + 1 <= n)%nat).

Lemma ok_parse_expr_bp bp : ok false b (parse_expr_bp E bp).
Proof. by apply (eo_expr n E HE). Qed.
Lemma ok_parse_expr : ok false b (parse_expr E).
Proof. apply ok_parse_expr_bp. Qed.
Lemma ok_parse_block : ok true b (parse_block E).
Proof. by apply (eo_block n E HE). Qed.
Hint Resolve ok_parse_expr_bp ok_parse_expr ok_parse_block : ok.

Lemma ok_parse_expr_no_struct_lit : ok false b (parse_expr_no_struct_lit E).
Proof. apply ok_no_struct, ok_parse_expr. Qed.
Hint Resolve ok_parse_expr_no_struct_lit : ok.

Lemma ok_parse_param : ok true b (parse_param E).
Proof. unfold parse_param. apply ok_bind_r; [ok_leaf|]. ok. Qed.
Hint Resolve ok_parse_param : ok.
Lemma ok_parse_param_list : ok false b (parse_param_list E).
Proof. unfold parse_param_list. ok. Qed.
Hint Resolve ok_parse_param_list : ok.
Lemma ok_parse_call_args : ok false b (parse_call_args E).
Proof. unfold parse_call_args, parse_arg_list. ok. Qed.
Lemma ok_parse_interpolated t : ok false b (parse_interpolated E t).
Proof. unfold parse_interpolated. ok. Qed.
Lemma ok_parse_struct_literal nm s : ok false b (parse_struct_literal E nm s).
Proof. unfold parse_struct_literal. ok. Qed.
Hint Resolve ok_parse_call_args ok_parse_interpolated ok_parse_struct_literal : ok.
Lemma ok_parse_path_expr t : ok false b (parse_path_expr E t).
Proof. unfold parse_path_expr. ok. Qed.
Lemma ok_parse_closure_rest ps s : ok false b (parse_closure_rest E ps s).
Proof. unfold parse_closure_rest, parse_pipe_closure_body. ok. Qed.
Hint Resolve ok_parse_path_expr ok_parse_closure_rest : ok.
Lemma ok_parse_pipe_closure : ok false b (parse_pipe_closure E).
Proof. unfold parse_pipe_closure. ok. Qed.
Lemma ok_parse_pipe_pipe_closure : ok false b (parse_pipe_pipe_closure E).
Proof. unfold parse_pipe_pipe_closure. ok. Qed.
Lemma ok_parse_fn_rest : ok true b (parse_fn_rest E).
Proof. unfold parse_fn_rest. ok. Qed.
Hint Resolve ok_parse_pipe_closure ok_parse_pipe_pipe_closure ok_parse_fn_rest : ok.
Lemma ok_parse_lambda : ok false b (parse_lambda E).
Proof. unfold parse_lambda. ok. Qed.
Lemma ok_parse_array_literal : ok false b (parse_array_literal E).
Proof. unfold parse_array_literal. ok. Qed.
Lemma ok_parse_paren_or_tuple : ok false b (parse_paren_or_tuple E).
Proof. unfold parse_paren_or_tuple. ok. Qed.
Lemma ok_parse_map_literal_body s : ok false b (parse_map_literal_body E s).
Proof. unfold parse_map_literal_body. ok. Qed.
Hint Resolve ok_parse_lambda ok_parse_array_literal ok_parse_paren_or_tuple ok_parse_map_literal_body : ok.
Lemma ok_parse_hash_map_literal : ok false b (parse_hash_map_literal E).
Proof. unfold parse_hash_map_literal. ok. Qed.
Lemma ok_parse_block_expr mk t : ok false b (parse_block_expr E mk t).
Proof. unfold parse_block_expr. ok. Qed.
Lemma ok_parse_arm_pattern : ok true b parse_arm_pattern.
Proof. unfold parse_arm_pattern. ok. Qed.
Lemma ok_stmt_body mk kw : ok false b (stmt_body E mk kw).
Proof. unfold stmt_body. ok. Qed.
Hint Resolve ok_parse_hash_map_literal ok_parse_block_expr ok_parse_arm_pattern ok_stmt_body : ok.

(** *** Chains of [if] expressions *)

Definition is_inl {A B} (x : A + B) : bool := match x with inl _ => true | inr _ => false end.

Lemma ok_next_if_clause s : ok_when is_inl b (next_if_clause E s).
Proof. unfold next_if_clause. ok. Qed.

Lemma nest_if_expr_Some end_ tail l : l <> [] -> is_Some (nest_if_expr end_ tail l).
Proof. destruct l as [|[[? ?] ?] l]; [done|]. by eexists. Qed.

Lemma if_expr_step_Done s p : wf p -> within b p ->
  exists r p', if_expr_step E s p = Done (r, p') /\ frame_nest p p'
    /\ match r with
       | Continue s' => (pos p < pos p')%nat /\ (nest_depth p' + s.1.2 = nest_depth p + s'.1.2)%N
       | Break a => a.1.1 <> [] /\ (nest_depth p' + s.1.2 = nest_depth p + a.1.2)%N
       end.
Proof.
  intros Hp Hb. destruct s as [[l sp] cu]. unfold if_expr_step.
  run_step ok_parse_expr_no_struct_lit e p1 F1 S1.
  run_step ok_parse_block bl p2 F2 S2. cbv zeta.
  run_step (ok_next_if_clause cu) more p3 F3 S3.
  pose proof (frame_trans _ _ _ F1 (frame_trans _ _ _ F2 F3)) as F. clear S1 S2.
  assert (l ++ [(cu, e, bl)] <> []) by (by destruct l).
  destruct more as [cu'|tail]; cycle 1.
  { eexists _, _. split; [done|]. split; [apply F|]. split; [done|]. cbn. by rewrite (proj2 F). }
  unfold gets. unfold mbind at 1, P_bind. destruct (N.leb_spec MAX_NESTING_DEPTH (nest_depth p3 + 1)).
  - run_step (ok_nesting_overflow b) u p4 F4 S4.
    pose proof (frame_trans _ _ _ F F4) as F'. eexists _, _. split; [done|]. split; [apply F'|].
    split; [done|]. cbn. by rewrite (proj2 F').
  - unfold mbind, P_bind, charge_nest, modify. eexists _, _. split; [done|].
    split; [by apply charge_frame|]. cbn. rewrite (proj2 F).
    pose proof (fr_pos _ _ (proj1 F1)). pose proof (fr_pos _ _ (proj1 F2)).
    pose proof (S3 eq_refl). split; lia.
Qed.

Lemma ok_parse_if_expr_chain s : ok false b (parse_if_expr_chain E s).
Proof.
  unfold parse_if_expr_chain.
  apply (ok_spine_loop b (fun s => s.1.2) (fun a => a.1.2) (fun a => a.1.1 <> [])); [|intros|done].
  - apply if_expr_step_Done.
  - destruct a as [[l sp] tail]. eapply release_then; [|done..].
    apply ok_bind; [ok_leaf|]. intros. by apply ok_lift_Some, nest_if_expr_Some.
Qed.
Hint Resolve ok_parse_if_expr_chain : ok.
Lemma ok_parse_if_expr : ok false b (parse_if_expr E).
Proof. apply ok_guarded_le. ok. Qed.
Hint Resolve ok_parse_if_expr : ok.

(* ------------------------------------------------------------------ *)
(** ** Statements                                                      *)
(* ------------------------------------------------------------------ *)

Lemma ok_hint_assign : ok false b (hint_assign_in_condition E).
Proof. unfold hint_assign_in_condition. ok. Qed.
Hint Resolve ok_hint_assign : ok.
Lemma ok_parse_clause : ok true b (parse_clause E).
Proof. unfold parse_clause. apply ok_bind_r; [ok_leaf|]. intros. apply ok_bind_r; [ok_leaf|]. ok. Qed.
Hint Resolve ok_parse_clause : ok.

Definition found {A} (o : option A) : bool := match o with Some _ => true | None => false end.

Lemma ok_eat_else_if : ok_when found b eat_else_if.
Proof.
  unfold eat_else_if. intros p Hp Hb. destruct (peek_kind_Done p Hp) as (t & Ht & _ & Hc).
  unfold mbind at 1, P_bind. rewrite Ht. unfold get_kind, gets. unfold mbind at 1, P_bind.
  destruct (_ && _) eqn:He.
  - apply andb_true_iff in He as [He _]. destruct (kind_eq_spec (t_kind t) TK_Else) as [Hk|]; [|done].
    assert (Hadv : ok true b (_ ← advance; Some <$> advance)) by ok.
    destruct (Hadv p Hp Hb) as (r & p' & Hr & Hf & Hs). exists r, p'. split_and!; [done..|].
    intros _. destruct (Hs eq_refl) as [|Hend]; [done|]. rewrite Hend, Hk in Hc. done.
  - exists None, p. split_and!; [done|by apply frame_refl|done].
Qed.
Lemma ok_eat_else_if_plain : ok false b eat_else_if.
Proof. intros p Hp Hb. destruct (ok_eat_else_if p Hp Hb) as (r & p' & ? & ? & _). by exists r, p'. Qed.
Hint Resolve ok_eat_else_if_plain : ok.

Lemma ok_parse_if_plain s : ok true b (parse_if_plain E s).
Proof.
  unfold parse_if_plain. apply ok_bind_l; [ok_leaf|]. intros [c t]. apply ok_bind; [ok|]. intros l.
  apply ok_bind; [|ok]. apply ok_loop. intros l'. apply (ok_when_bind_when _ found).
  - apply ok_eat_else_if.
  - intros [?|]; cbn [found]; [ok|by apply ok_when_ret].
Qed.
Hint Resolve ok_parse_if_plain : ok.

Lemma ok_eat_next_clause : ok_when found b eat_next_clause.
Proof.
  unfold eat_next_clause. apply ok_when_check; [done|ok|].
  intros p Hp Hb. destruct (ok_eat_else_if p Hp Hb) as (r & p' & Hr & Hf & Hs).
  eexists (fmap t_span r), p'. split_and!; [|done|by destruct r].
  unfold fmap at 1, P_fmap, mbind, P_bind. by rewrite Hr.
Qed.

Lemma nest_if_let_Some end_ tail l : l <> [] -> is_Some (nest_if_let end_ tail l).
Proof. destruct l as [|c l]; [done|]. by eexists. Qed.

Lemma ok_parse_let_clause s : ok false b (parse_let_clause E s).
Proof. unfold parse_let_clause. ok. Qed.
Lemma ok_if_let_tail s kw : ok false b (if_let_tail E s kw).
Proof. unfold if_let_tail. destruct kw; ok. Qed.

Lemma if_let_step_Done s p : wf p -> within b p ->
  exists r p', if_let_step E s p = Done (r, p') /\ frame_nest p p'
    /\ match r with
       | Continue s' => (pos p < pos p')%nat /\ (nest_depth p' + s.1.2 = nest_depth p + s'.1.2)%N
       | Break a => a.1.1 <> [] /\ (nest_depth p' + s.1.2 = nest_depth p + a.1.2)%N
       end.
Proof.
  intros Hp Hb. destruct s as [[l sp] cu]. unfold if_let_step.
  run_step (ok_parse_let_clause cu) c p1 F1 S1. cbv zeta. run_step ok_eat_next_clause kw p2 F2 S2.
  run_step (ok_check b TK_Let) il p3 F3 S3.
  pose proof (frame_trans _ _ _ F1 (frame_trans _ _ _ F2 F3)) as F. clear S1 S3.
  assert (Hne : l ++ [c] <> []) by (by destruct l).
  destruct kw as [kw|]; [destruct il|]; [|run_step (ok_if_let_tail cu (Some kw)) ta p4 F4 S4
    |run_step (ok_if_let_tail cu None) ta p4 F4 S4]; cycle 1.
  1,2: pose proof (frame_trans _ _ _ F F4) as F'; eexists _, _; (split; [done|]);
    (split; [apply F'|]); (split; [done|]); cbn; by rewrite (proj2 F').
  unfold gets. unfold mbind at 1, P_bind. destruct (N.leb_spec MAX_NESTING_DEPTH (nest_depth p3 + 1)).
  - run_step (ok_nesting_overflow b) u p4 F4 S4. pose proof (frame_trans _ _ _ F F4) as F'.
    eexists _, _. split; [done|]. split; [apply F'|]. split; [done|]. cbn. by rewrite (proj2 F').
  - unfold mbind, P_bind, charge_nest, modify. eexists _, _. split; [done|].
    split; [by apply charge_frame|]. cbn. rewrite (proj2 F). pose proof (S2 eq_refl).
    pose proof (fr_pos _ _ (proj1 F1)). pose proof (fr_pos _ _ (proj1 F3)). split; lia.
Qed.

Lemma ok_parse_if_let s : ok false b (parse_if_let E s).
Proof.
  unfold parse_if_let.
  apply (ok_spine_loop b (fun s => s.1.2) (fun a => a.1.2) (fun a => a.1.1 <> [])); [|intros|done].
  - apply if_let_step_Done.
  - destruct a as [[l sp] tail]. eapply release_then; [|done..].
    apply ok_bind; [ok_leaf|]. intros. by apply ok_lift_Some, nest_if_let_Some.
Qed.
Hint Resolve ok_parse_if_let : ok.
Lemma ok_parse_if_stmt : ok false b (parse_if_stmt E).
Proof.
  unfold parse_if_stmt. apply ok_bind; [ok_leaf|]. intros kw. apply ok_guarded_le.
  unfold parse_if_rest_inner. ok.
Qed.
Lemma ok_parse_for_rest par s : ok false b (parse_for_rest E par s).
Proof. unfold parse_for_rest. ok. Qed.
Lemma ok_parse_while_let s : ok false b (parse_while_let E s).
Proof. unfold parse_while_let. ok. Qed.
Hint Resolve ok_parse_if_stmt ok_parse_for_rest ok_parse_while_let : ok.
Lemma ok_parse_loops : ok false b (parse_for E) /\ ok false b (parse_parallel_for E)
  /\ ok false b (parse_loop E) /\ ok false b (parse_while E).
Proof. unfold parse_for, parse_parallel_for, parse_loop, parse_while. split_and!; ok. Qed.
Lemma ok_parse_let : ok false b (parse_let E).
Proof. unfold parse_let. ok. Qed.
Lemma ok_parse_return : ok false b (parse_return E).
Proof. unfold parse_return. ok. Qed.
Lemma ok_parse_spawn_throw : ok false b (parse_spawn E) /\ ok false b (parse_throw E).
Proof. unfold parse_spawn, parse_throw. split; ok. Qed.
Lemma ok_parse_deny_block : ok false b (parse_deny_block E).
Proof. unfold parse_deny_block. ok. Qed.
Lemma ok_parse_branch t : ok false b (parse_branch E t).
Proof. unfold parse_branch. ok. Qed.
Hint Resolve ok_parse_branch : ok.
Lemma ok_parse_select : ok false b (parse_select E).
Proof.
  unfold parse_select. apply ok_bind; [ok_leaf|]. intros kw. apply ok_bind; [ok_leaf|]. intros _.
  apply ok_bind; [|ok]. apply ok_while_not. intros [br timeout]. apply ok_body_bind; [ok_leaf|].
  intros tok. cbv zeta. destruct (_ && _).
  - apply ok_body_strict, ok_bind_r; [ok_leaf|]. ok.
  - apply ok_body_strict, ok_bind_l; [ok_leaf|]. ok.
Qed.
Lemma ok_parse_try_catch : ok false b (parse_try_catch E).
Proof. unfold parse_try_catch. ok. Qed.
Lemma ok_parse_inner_fn : ok false b (parse_inner_fn E).
Proof. unfold parse_inner_fn. ok. Qed.
Lemma ok_parse_expr_or_assign : ok false b (parse_expr_or_assign E).
Proof. unfold parse_expr_or_assign. ok. Qed.
Lemma ok_parse_semicolon : ok false b (parse_semicolon E).
Proof.
  unfold parse_semicolon. apply ok_bind; [ok_leaf|]. intros tok. apply ok_bind; [ok_leaf|]. intros _.
  intros p Hp Hb. unfold gets. unfold mbind at 1, P_bind.
  destruct (nesting_exhausted p) eqn:Hex.
  - assert (Hm : ok false b (_ ← nesting_overflow; mret (None : option Stmt))) by ok. by apply Hm.
  - eapply ok_nested; [|done..]. intros r Hr. apply (eo_stmt n E HE). unfold need in *. cbn. lia.
Qed.
Hint Resolve ok_parse_let ok_parse_return ok_parse_deny_block ok_parse_select ok_parse_try_catch
  ok_parse_inner_fn ok_parse_expr_or_assign ok_parse_semicolon : ok.

Lemma ok_parse_statement_body : ok false b (parse_statement_body E).
Proof.
  destruct ok_parse_loops as (? & ? & ? & ?), ok_parse_spawn_throw as [? ?].
  unfold parse_statement_body. apply ok_bind; [ok_leaf|]. intros tok. apply ok_bind; [ok_leaf|].
  intros k'. destruct (t_kind tok); ok.
Qed.

(* ------------------------------------------------------------------ *)
(** ** Blocks and the expressions that hold statements                 *)
(* ------------------------------------------------------------------ *)

Context (Hb2 : (need b + 2 <= n)%nat).

Lemma ok_parse_statement : ok false b (parse_statement E).
Proof. by apply (eo_stmt n E HE). Qed.
Hint Resolve ok_parse_statement : ok.

Lemma ok_recover : ok false b recover_stray_block_token.
Proof. unfold recover_stray_block_token. ok. Qed.
Lemma ok_force_progress m : ok false b (force_progress m).
Proof. pose proof ok_recover. unfold force_progress. ok. Qed.

(** Where neither [}] nor the end is next, a token is passed over. *)
Lemma skip_moves (m : P unit) p :
  wf p -> within b p -> ok true b m -> cur p <> Some TK_Eof -> cur p <> Some TK_RBrace ->
  exists p', (c ← check TK_RBrace; e ← at_end; if c || e then mret tt else m) p = Done (tt, p')
    /\ frame p p' /\ (pos p < pos p')%nat.
Proof.
  intros Hp Hb Hm He Hr. unfold mbind, P_bind. rewrite (check_cur _ p Hp), (at_end_Done p Hp) by done.
  rewrite !bool_decide_eq_false_2 by done. cbn [orb].
  destruct (Hm p Hp Hb) as ([] & p' & Hr' & Hf & Hs). exists p'. split_and!; [done..|].
  by destruct (Hs eq_refl).
Qed.

(** The round of a block: a statement, and a step over the token at which one that
    consumed nothing has stopped. *)
Lemma ok_block_round (stmts : list Stmt) (recover m : P unit) :
  recover = (c ← check TK_RBrace; e ← at_end; if c || e then mret tt else m) ->
  ok true b m ->
  ok_body (A:=flow (list Stmt) (list Stmt)) continues TK_RBrace b
    (before ← gets pos; r ← parse_statement E;
     match r with
     | Some st => _ ← force_progress before; mret (Continue (stmts ++ [st]))
     | None => _ ← recover; mret (Continue stmts)
     end).
Proof.
  intros Hrec Hm p Hp Hb. unfold gets. unfold mbind at 1, P_bind.
  destruct (ok_parse_statement p Hp Hb) as (r & p1 & Er & F1 & _).
  pose proof (fr_wf _ _ (proj1 F1)) as Hp1. pose proof (within_frame _ _ _ (proj1 F1) Hb) as Hb1'.
  pose proof (fr_pos _ _ (proj1 F1)) as Hpos.
  unfold mbind at 1, P_bind. rewrite Er.
  assert (Hgo : forall (rec : P unit) (l : list Stmt), ok false b rec ->
    (pos p1 = pos p -> cur p <> Some TK_Eof -> cur p <> Some TK_RBrace ->
      exists p', rec p1 = Done (tt, p') /\ frame p1 p' /\ (pos p1 < pos p')%nat) ->
    exists r0 p', (_ ← rec; mret (Continue (A:=list Stmt) l)) p1 = Done (r0, p') /\ frame p p'
      /\ (cur p <> Some TK_Eof -> (TK_RBrace <> TK_Gt -> cur p <> Some TK_RBrace) ->
          continues r0 = true -> (pos p < pos p')%nat)).
  { intros rec l Hok Hmove. destruct (Hok p1 Hp1 Hb1') as ([] & p2 & E2 & F2 & _).
    unfold mbind, P_bind. rewrite E2. eexists _, _. split; [done|].
    split; [by eapply frame_trans|]. intros He Hr _. pose proof (fr_pos _ _ (proj1 F2)).
    destruct (decide (pos p1 = pos p)) as [Heq|]; [|lia].
    destruct (Hmove Heq He (Hr ltac:(done))) as (p' & E2' & _ & Hlt).
    rewrite E2 in E2'. injection E2' as <-. lia. }
  assert (Hcur : pos p1 = pos p -> cur p1 = cur p) by (intros; apply (frame_cur _ _ (proj1 F1)); lia).
  destruct r as [st|]; apply Hgo.
  - apply ok_force_progress.
  - intros Heq He Hr. unfold force_progress, gets. unfold mbind at 1, P_bind.
    rewrite (proj2 (Nat.eqb_eq _ _) Heq). apply skip_moves; rewrite ?Hcur; try done. ok.
  - rewrite Hrec. ok.
  - intros Heq He Hr. rewrite Hrec. by apply skip_moves; rewrite ?Hcur.
Qed.

Lemma ok_parse_map_or_block_expr : ok false b (parse_map_or_block_expr E).
Proof.
  unfold parse_map_or_block_expr. apply ok_bind; [ok_leaf|]. intros lb. cbv zeta.
  apply ok_bind; [ok_leaf|]. intros c. destruct c; [ok|].
  apply ok_bind; [ok_leaf|]. intros k. apply ok_bind; [ok_leaf|]. intros k'. destruct (_ && _); [ok|].
  apply ok_bind; [|ok]. apply ok_while_not. intros stmts.
  apply (ok_block_round stmts skip_stray_block_token (_ ← advance; mret tt)); [done|ok].
Qed.
Hint Resolve ok_parse_map_or_block_expr : ok.
Lemma ok_parse_arm_body : ok false b (parse_arm_body E).
Proof. unfold parse_arm_body. ok. Qed.
Hint Resolve ok_parse_arm_body : ok.
Lemma ok_parse_match_expr : ok false b (parse_match_expr E).
Proof. unfold parse_match_expr. ok. Qed.
Lemma ok_primary_unexpected t : ok false b (primary_unexpected t).
Proof. unfold primary_unexpected. apply ok_bind; [ok_leaf|]. intros _. apply ok_bind; [|ok]. destruct (t_kind t); ok. Qed.
Hint Resolve ok_parse_match_expr ok_primary_unexpected : ok.
Lemma ok_parse_primary : ok false b (parse_primary E).
Proof. unfold parse_primary. apply ok_bind; [ok_leaf|]. intros tok. cbv zeta. destruct (t_kind tok); ok. Qed.
Hint Resolve ok_parse_primary : ok.
Lemma ok_prefix_operand bp t mk : ok false b (prefix_operand E bp t mk).
Proof. unfold prefix_operand. ok. Qed.
Hint Resolve ok_prefix_operand : ok.
(** The kinds with a prefix binding power are those the code handles. *)
Lemma ok_parse_prefix : ok false b (parse_prefix E).
Proof. unfold parse_prefix. apply ok_bind; [ok_leaf|]. intros kind. destruct kind; cbn [prefix_binding_power]; ok. Qed.
Hint Resolve ok_parse_prefix : ok.

(** *** The chain of operators *)

Lemma ok_chain_dot c : ok true b (chain_dot E c).
Proof. unfold chain_dot. cbv zeta. apply ok_bind_l; [ok_leaf|]. intros _. apply ok_bind; [ok_leaf|]. intros tok. destruct (t_kind tok); ok. Qed.
Lemma ok_warn_fresh_line s : ok false b (warn_fresh_line s).
Proof. unfold warn_fresh_line. ok. Qed.
Hint Resolve ok_warn_fresh_line : ok.
Lemma ok_chain_index c : ok true b (chain_index E c).
Proof. unfold chain_index. apply ok_bind_r; [ok_leaf|]. ok. Qed.
Lemma ok_chain_try c : ok true b (chain_try c).
Proof. unfold chain_try. apply ok_bind_r; [ok_leaf|]. ok. Qed.
Lemma ok_chain_range k c : ok true b (chain_range E k c).
Proof. unfold chain_range. ok. Qed.
Lemma ok_chain_operand r mk c : ok false b (chain_operand E r mk c).
Proof. unfold chain_operand. ok. Qed.
Hint Resolve ok_chain_dot ok_chain_index ok_chain_try ok_chain_range ok_chain_operand : ok.
Lemma ok_chain_binop k nx l r c : infix_binding_power k nx = Some (l, r) -> k <> TK_As ->
  k <> TK_DotDot -> k <> TK_DotDotEq -> ok true b (chain_binop E k r c).
Proof.
  intros Hk ???. unfold chain_binop. cbv zeta. apply ok_bind_r; [destruct (kind_eq _ _); ok|]. intros _.
  apply ok_bind_r; [destruct (kind_eq _ _); ok|]. intros _. apply ok_bind_l; [ok_leaf|]. intros _.
  apply ok_bind; [ok_leaf|]. intros rhs. apply ok_bind; [|ok]. apply ok_lift_Some.
  destruct k; try discriminate Hk; try done; by eexists.
Qed.

Lemma ok_chain_apply k nx l c : ok_body continues TK_Gt b (chain_apply E k nx l c).
Proof.
  assert (Hcall : ok_body continues TK_Gt b (chain_call E c)) by (unfold chain_call; ok).
  assert (Hinfix : k <> TK_DotDot -> k <> TK_DotDotEq -> ok_body continues TK_Gt b (chain_infix E k nx l c)).
  { intros H1 H2. unfold chain_infix. destruct (infix_binding_power k nx) as [[lb rb]|] eqn:Hk; [|ok].
    destruct (lb <? l)%N; [ok|]. destruct (_ && _); [unfold next; ok|].
    destruct (kind_eq_spec k TK_As); [ok|]. apply ok_body_strict, ok_fmap. by eapply ok_chain_binop. }
  unfold chain_apply, next. destruct k; first [exact Hcall|by apply Hinfix|ok].
Qed.

Lemma chain_step_Done l s p : wf p -> within b p ->
  exists r p', chain_step E l s p = Done (r, p') /\ frame_nest p p'
    /\ match r with
       | Continue s' => (pos p < pos p')%nat /\ (nest_depth p' + s.2 = nest_depth p + s'.2)%N
       | Break a => True /\ (nest_depth p' + s.2 = nest_depth p + a.2)%N
       end.
Proof.
  intros Hp Hb. destruct s as [c sp]. unfold chain_step.
  assert (Hstop : exists r p', mret (M:=P) (Break (S:=Chain * N) (c, sp)) p = Done (r, p') /\ frame_nest p p'
    /\ match r with
       | Continue s' => (pos p < pos p')%nat /\ (nest_depth p' + sp = nest_depth p + s'.2)%N
       | Break a => True /\ (nest_depth p' + sp = nest_depth p + a.2)%N
       end).
  { eexists _, p. split; [done|]. split; [by apply frame_refl|done]. }
  unfold mbind at 1, P_bind. rewrite (at_end_Done p Hp). case_bool_decide as He; [done|].
  destruct (peek_kind_Done p Hp) as (t & Ht & _ & _). unfold mbind at 1, P_bind. rewrite Ht.
  assert (exists nx, (if kind_eq (t_kind t) TK_Pipe then Some <$> peek_nth 1 else mret None) p = Done (nx, p)) as [nx Hnx].
  { destruct (kind_eq _ _); [|by eexists]. destruct (clamped_Done (fun i => i + 1)%nat p Hp) as [t' Ht'].
    eexists. unfold peek_nth, fmap, P_fmap, mbind, P_bind. by rewrite Ht'. }
  unfold mbind at 1, P_bind. rewrite Hnx. destruct (negb _); [done|]. cbv zeta.
  unfold mbind at 1, P_bind, charge_nest, modify. set (q := with_depths _ _ p).
  assert (Fq : frame_nest p q) by (by apply charge_frame, frame_refl).
  assert (Hq : wf q) by apply Fq. assert (Hbq : within b q) by done.
  assert (Hnq : nest_depth q = (nest_depth p + 1)%N) by done.
  unfold gets. unfold mbind at 1, P_bind. destruct (MAX_NESTING_DEPTH <=? nest_depth q)%N.
  - run_step (ok_nesting_overflow b) u q1 F1 S1. eexists _, _. split; [done|].
    split; [eapply frame_nest_trans; [done|apply F1]|]. split; [done|]. cbn. rewrite (proj2 F1). lia.
  - destruct (ok_chain_apply (t_kind t) nx l c q Hq Hbq) as (r & q1 & Er & F1 & S1).
    unfold mbind, P_bind. rewrite Er. eexists _, _. split; [done|].
    split; [eapply frame_nest_trans; [done|apply F1]|]. destruct r; (split; [|cbn; rewrite (proj2 F1); lia]); [|done].
    apply S1; done.
Qed.

Lemma ok_reject_macro e : ok false b (reject_macro e).
Proof. unfold reject_macro. destruct e; ok. Qed.
Hint Resolve ok_reject_macro : ok.

Lemma ok_parse_expr_bp_inner l : ok false b (parse_expr_bp_inner E l).
Proof.
  unfold parse_expr_bp_inner. apply ok_bind; [ok_leaf|]. intros e. apply ok_bind; [ok_leaf|]. intros _.
  apply (ok_spine_loop b snd snd (fun _ => True)); [|intros|done].
  - apply chain_step_Done.
  - destruct a as [c sp]. by eapply release_then; [apply ok_ret|..].
Qed.

End Exprs.

(* ------------------------------------------------------------------ *)
(** ** The heads of [let-else]                                         *)
(* ------------------------------------------------------------------ *)

Lemma norm_name k : is_name_kind (norm k) = is_name_kind k.
Proof. by destruct k. Qed.
Lemma norm_eq k k' : k' <> TK_Gt -> k' <> TK_Shr -> kind_eq (norm k) k' = kind_eq k k'.
Proof. intros. apply bool_decide_ext. by apply norm_other. Qed.
Lemma kind_eq_Some k k' : bool_decide (Some k = Some k') = kind_eq k k'.
Proof. apply bool_decide_ext. split; congruence. Qed.

(** The name and the separator that follow [let] and [mut]. *)
Definition name_sep (name sep : option TokenKind) : bool :=
  match name with Some k => is_name_kind k | None => false end
  && (bool_decide (sep = Some TK_Dot) || bool_decide (sep = Some TK_ColonColon)).

Lemma name_sep_norm ts :
  name_sep (t_kind <$> ts !! 0%nat) (t_kind <$> ts !! 1%nat)
  = match map (fun t => norm (t_kind t)) ts with
    | name :: sep :: _ => is_name_kind name && (kind_eq sep TK_Dot || kind_eq sep TK_ColonColon)
    | _ => false
    end.
Proof.
  destruct ts as [|t [|t' ts]]; [done|apply andb_false_r|].
  unfold name_sep. cbn. by rewrite norm_name, !norm_eq, !kind_eq_Some by done.
Qed.

Lemma let_else_Done p : wf p -> is_let_else_ahead p = Done (le_head (drop (pos p) (kinds p)), p).
Proof.
  intros Hp. destruct (peek_kind_Done p Hp) as (t & Ht & Hl & _). unfold is_let_else_ahead.
  unfold mbind at 1, P_bind. rewrite Ht. unfold kinds. rewrite skipn_map, (drop_S _ t) by done.
  change (map ?f (t :: ?r)) with (f t :: map f r). unfold le_head. set (ts := drop _ _).
  assert (Hget : forall i, tokens p !! (pos p + S i)%nat = ts !! i).
  { intros i. unfold ts. by rewrite lookup_drop, Nat.add_succ_r. }
  destruct (kind_eq_spec (t_kind t) TK_Let) as [Hk|Hk]; cbn [negb]; cycle 1.
  { destruct (t_kind t); try done. }
  rewrite Hk. cbn [norm]. unfold get_kind, gets, mret, P_ret. unfold mbind, P_bind.
  f_equal. f_equal. fold (name_sep (t_kind <$> tokens p !! (pos p + (if bool_decide (t_kind <$> tokens p !! (pos p + 1)%nat = Some TK_Mut) then 2 else 1))%nat)
    (t_kind <$> tokens p !! (pos p + ((if bool_decide (t_kind <$> tokens p !! (pos p + 1)%nat = Some TK_Mut) then 2 else 1) + 1))%nat)).
  rewrite (Hget 0%nat). case_bool_decide as Hm.
  - destruct ts as [|t1 ts']; [done|]. cbn in Hm. injection Hm as Hm.
    change (2 + 1)%nat with 3%nat.
    rewrite !Hget. change ((t1 :: ts') !! 1%nat) with (ts' !! 0%nat).
    change ((t1 :: ts') !! 2%nat) with (ts' !! 1%nat). rewrite name_sep_norm. cbn [map]. by rewrite Hm.
  - change (1 + 1)%nat with 2%nat. rewrite !Hget. rewrite name_sep_norm. destruct ts as [|t1 ts']; [done|]. cbn [map].
    destruct (t_kind t1) eqn:Hk1; cbn [norm]; try done. exfalso. apply Hm. cbn. by rewrite Hk1.
Qed.

(** Past a head there is one head less. *)
Lemma let_elses_head ks : le_head ks = true -> let_elses ks = S (let_elses (drop 1 ks)).
Proof.
  destruct ks as [|k ks]; [done|]. intros Hh.
  change (drop 1 (k :: ks)) with ks. cbn [let_elses]. by rewrite Hh.
Qed.

Section Knot.
Context {n : nat} {E : Entries} (HE : entries_ok n E) {b : Budget} (Hb1 : (need b + 1 <= n)%nat).

(** A [let-else] consumes its [let]: what follows has one head less. *)
Lemma let_else_desugar_Done p :
  wf p -> within b p -> le_head (drop (pos p) (kinds p)) = true ->
  exists st p', parse_let_else_desugar E p = Done (st, p') /\ frame p p'.
Proof.
  intros Hp [Hr Hl] Hh. pose proof (let_elses_head _ Hh) as Hcount. rewrite drop_drop in Hcount.
  destruct b as [r [|l]]; cbn [b_rec b_let] in *; [lia|].
  assert (Hcur : cur p = Some TK_Let).
  { unfold cur. rewrite <-(Nat.add_0_r (pos p)), <-lookup_drop.
    destruct (drop (pos p) (kinds p)) as [|k ks]; [done|]. by destruct k. }
  destruct (advance_Done p Hp) as (t & p1 & Hadv & F1 & _ & Hpos).
  assert (Hexp : expect TK_Let p = Done (t, p1)).
  { unfold expect. unfold mbind, P_bind. rewrite (check_cur _ p Hp) by done.
    by rewrite bool_decide_eq_true_2. }
  assert (Hp1 : pos p1 = S (pos p)) by (destruct Hpos as [[? _]|]; congruence).
  assert (Hw1 : within (mkBudget r l) p1).
  { split; cbn; [by rewrite (fr_rec _ _ (proj1 F1))|]. rewrite (fr_kinds _ _ (proj1 F1)), Hp1.
    replace (S (pos p)) with (pos p + 1)%nat by lia. lia. }
  assert (Hn : (need (mkBudget r l) + 3 <= n)%nat) by (unfold need in *; cbn in *; lia).
  pose proof (eo_expr n E HE (mkBudget r l) 0 ltac:(lia)) as He.
  pose proof (eo_block n E HE (mkBudget r l) ltac:(lia)) as Hb.
  pose proof (eo_stmts n E HE (mkBudget r l) Hn) as Hs.
  assert (Hrest : ok false (mkBudget r l)
    (_ ← eat TK_Mut; pattern ← parse_pattern; _ ← if_eat TK_Colon parse_type; _ ← expect TK_Eq;
     value ← ParseExpr.parse_expr E; els ← eat TK_Else;
     diverge ← (if els : bool then parse_block E
                else _ ← error (t_span t); mret (mkBlock [] (t_span t)));
     rest ← ParseExpr.parse_block_stmts E;
     mret (S_Expr (match_or_else value pattern (E_Block (mkBlock rest (t_span t)) (t_span t))
       (E_Block diverge (t_span t)) (t_span t)) (t_span t)))).
  { unfold ParseExpr.parse_expr. ok. }
  destruct (Hrest p1 (fr_wf _ _ (proj1 F1)) Hw1) as (st & p' & Hst & F' & _).
  exists st, p'. split; [|by eapply frame_trans]. unfold parse_let_else_desugar.
  unfold mbind at 1, P_bind. rewrite Hexp. exact Hst.
Qed.

Context (Hb2 : (need b + 2 <= n)%nat).

Lemma ok_block_stmts_body : ok false b (parse_block_stmts_body E).
Proof.
  apply ok_while_not. intros stmts p Hp Hb. unfold mbind at 1, P_bind.
  rewrite (let_else_Done p Hp). destruct (le_head _) eqn:Hh.
  - destruct (let_else_desugar_Done p Hp Hb Hh) as (st & p' & Hst & F).
    unfold mbind, P_bind. rewrite Hst. eexists _, _. split_and!; [done..|discriminate].
  - apply (ok_block_round HE Hb1 Hb2 stmts recover_stray_block_token
      (span ← peek_span; _ ← error span; _ ← advance; mret tt)); [done| |done..].
    apply ok_bind_r; [ok_leaf|]. intros s. apply ok_bind_r; [ok_leaf|]. ok.
Qed.
End Knot.

(** Each level adds its entries to what the ones below promise. *)
Lemma levels_ok n : entries_ok n (levels n).
Proof.
  induction n as [|n IH]; [split; intros; lia|]. split; cbn [levels parse_expr_bp parse_block
    parse_statement parse_block_stmts]; intros b; intros.
  - apply ok_guarded. intros r Hr.
    apply (ok_parse_expr_bp_inner IH); unfold need in *; cbn in *; lia.
  - apply ok_guarded. intros r Hr. apply ok_bind_l; [ok_leaf|]. intros lb.
    apply ok_bind; [apply (ok_block_stmts_body IH); unfold need in *; cbn in *; lia|]. ok.
  - apply (ok_parse_statement_body IH). lia.
  - apply (ok_block_stmts_body IH); lia.
Qed.

(* ------------------------------------------------------------------ *)
(** ** Declarations                                                    *)
(* ------------------------------------------------------------------ *)

Lemma ok_collect_doc_comments b : ok false b collect_doc_comments.
Proof. unfold collect_doc_comments. ok. Qed.

(** A closing parenthesis outside any other ends the argument before its turn. *)
Lemma annotation_arg_round b buf depth :
  ok_round (A:=str * nat) b
    (e ← at_end; comma ← check TK_Comma; rparen ← check TK_RParen;
     if e || (Nat.eqb depth 0 && (comma || rparen)) then mret (Break (buf, depth))
     else
       tok ← advance;
       '(buf, depth) ←
         match t_kind tok with
         | TK_LParen => mret (buf ++ bytes "(", S depth)
         | TK_RParen => lift (match depth with O => Panic | S d => Done (buf ++ bytes ")", d) end)
         | TK_Comma => mret (buf ++ bytes ",", depth)
         | TK_Colon => mret (buf ++ bytes ":", depth)
         | _ => mret (push_word buf (t_text tok), depth)
         end;
       e ← at_end;
       mret (if e : bool then Break (buf, depth) else Continue (buf, depth))).
Proof.
  apply ok_round_at_end; cbv beta.
  - apply ok_when_bind; [ok_leaf|]. intros c. apply ok_when_bind; [ok_leaf|]. intros r. by apply ok_when_ret.
  - intros p Hp Hb. unfold mbind at 1, P_bind. rewrite (check_cur _ p Hp) by done.
    destruct (check_Done TK_RParen p Hp) as (t & Ht & Hl & _). unfold mbind at 1, P_bind. rewrite Ht.
    cbn [orb]. destruct (_ && _) eqn:Hstop.
    { eexists _, p. split_and!; [done|by apply frame_refl|done]. }
    destruct (advance_Done p Hp) as (t' & p' & Hadv & F & Hl' & Hpos).
    rewrite Hl in Hl'. injection Hl' as <-.
    unfold mbind at 1, P_bind. rewrite Hadv. pose proof (fr_wf _ _ (proj1 F)) as Hp'.
    assert (Hgo : forall buf depth, exists r p'', (e ← at_end;
      mret (if e : bool then Break (A:=str * nat) (buf, depth) else Continue (buf, depth))) p' = Done (r, p'')
      /\ frame p p'' /\ (cur p <> Some TK_Eof -> (TK_Gt <> TK_Gt -> cur p <> Some TK_Gt) ->
          continues r = true -> (pos p < pos p'')%nat)).
    { intros buf' depth'. unfold mbind, P_bind. rewrite (at_end_Done p' Hp').
      eexists _, p'. split_and!; [done..|]. intros He _ _. destruct Hpos as [[? _]| ->]; [done|lia]. }
    destruct (t_kind t); try exact (Hgo _ _).
    destruct depth as [|d]; [|exact (Hgo _ _)]. cbn in Hstop. by rewrite orb_true_r in Hstop.
Qed.
Lemma ok_parse_annotation_arg b : ok false b parse_annotation_arg.
Proof.
  unfold parse_annotation_arg. apply ok_bind; [|ok]. apply ok_loop. intros [buf depth].
  apply annotation_arg_round.
Qed.
#[export] Hint Resolve ok_collect_doc_comments ok_parse_annotation_arg : ok.
Lemma ok_parse_annotation b : ok true b parse_annotation.
Proof. unfold parse_annotation. ok. Qed.
#[export] Hint Resolve ok_parse_annotation : ok.
Lemma ok_parse_annotations b : ok false b parse_annotations.
Proof. unfold parse_annotations. ok. Qed.
Lemma ok_parse_bounds b : ok true b parse_bounds.
Proof. unfold parse_bounds. ok. Qed.
#[export] Hint Resolve ok_parse_annotations ok_parse_bounds : ok.
Lemma ok_parse_generics b : ok false b parse_generics.
Proof. unfold parse_generics. ok. Qed.
Lemma ok_parse_where_clause_into b gs : ok false b (parse_where_clause_into gs).
Proof. unfold parse_where_clause_into. ok. Qed.
Lemma ok_skip_impl_target_type_args b : ok false b skip_impl_target_type_args.
Proof. unfold skip_impl_target_type_args. ok. Qed.
Lemma ok_parse_import b ds : ok true b (parse_import ds).
Proof. unfold parse_import. ok. Qed.
#[export] Hint Resolve ok_parse_generics ok_parse_where_clause_into ok_skip_impl_target_type_args
  ok_parse_import : ok.

Section Decls.
Context {n : nat} {E : Entries} (HE : entries_ok n E) {b : Budget} (Hb1 : (need b + 1 <= n)%nat).
Let ok_expr : ok false b (parse_expr E) := ok_parse_expr HE Hb1.
Let ok_block : ok true b (parse_block E) := ok_parse_block HE Hb1.
Let ok_params : ok false b (parse_param_list E) := ok_parse_param_list HE Hb1.
Hint Resolve ok_expr ok_block ok_params : ok.

Lemma ok_parse_fn_decl pu a an ds : ok true b (parse_fn_decl E pu a an ds).
Proof. unfold parse_fn_decl. ok. Qed.
Lemma ok_parse_struct_field : ok true b (parse_struct_field E).
Proof. unfold parse_struct_field. apply ok_bind_r; [ok_leaf|]. ok. Qed.
Lemma ok_parse_variant_fields : ok false b parse_variant_fields.
Proof. unfold parse_variant_fields. ok. Qed.
Lemma ok_parse_handler : ok true b (parse_handler E).
Proof. unfold parse_handler. ok. Qed.
Lemma ok_parse_state_field : ok true b parse_state_field.
Proof. unfold parse_state_field. ok. Qed.
Hint Resolve ok_parse_fn_decl ok_parse_struct_field ok_parse_variant_fields ok_parse_handler
  ok_parse_state_field : ok.
Lemma ok_parse_struct_decl pu an ds : ok true b (parse_struct_decl E pu an ds).
Proof. unfold parse_struct_decl. ok. Qed.
Lemma ok_parse_enum_decl pu an ds : ok true b (parse_enum_decl pu an ds).
Proof. unfold parse_enum_decl. ok. Qed.
Lemma ok_parse_trait_decl pu ds : ok true b (parse_trait_decl E pu ds).
Proof. unfold parse_trait_decl. ok. Qed.
Lemma ok_parse_impl_decl ds : ok true b (parse_impl_decl E ds).
Proof. unfold parse_impl_decl. ok. Qed.
Lemma ok_parse_actor_decl an ds : ok true b (parse_actor_decl E an ds).
Proof. unfold parse_actor_decl. ok. Qed.
Lemma ok_parse_type_alias pu ds : ok true b (parse_type_alias pu ds).
Proof. unfold parse_type_alias. ok. Qed.
Lemma ok_parse_const_decl pu ds : ok true b (parse_const_decl E pu ds).
Proof. unfold parse_const_decl. ok. Qed.
Lemma ok_parse_extern ds : ok true b (parse_extern E ds).
Proof. unfold parse_extern. ok. Qed.
Hint Resolve ok_parse_struct_decl ok_parse_enum_decl ok_parse_trait_decl ok_parse_impl_decl
  ok_parse_actor_decl ok_parse_type_alias ok_parse_const_decl ok_parse_extern : ok.

(** A declaration that is returned has consumed a token. *)
Lemma ok_parse_declaration : ok_body found TK_Gt b (parse_declaration E).
Proof.
  unfold parse_declaration. do 4 (apply ok_body_bind; [ok_leaf|]; intros ?).
  lazymatch goal with |- ok_body _ _ _ (match ?k with _ => _ end) => destruct k end;
    try (apply ok_body_strict; ok; fail).
  all: apply ok_body_bind; [ok|]; intros _; by apply ok_body_ret.
Qed.

Lemma ok_skip_to_declaration : ok true b skip_to_declaration.
Proof.
  intros p Hp Hb. unfold skip_to_declaration. unfold mbind at 1, P_bind. rewrite (at_end_Done p Hp).
  case_bool_decide as He.
  { exists tt, p. split_and!; [done|by apply frame_refl|by right]. }
  run_step (ok_peek_span b) s p1 F1 S1. run_step (ok_error_with_code b s E0001 ltac:(done)) u p2 F2 S2.
  unfold gets. unfold mbind at 1, P_bind. run_step (ok_synchronize b) v p3 F3 S3.
  unfold mbind at 1, P_bind. unfold mbind at 1, P_bind.
  pose proof (frame_trans _ _ _ F1 F2) as F12. pose proof (frame_trans _ _ _ F12 F3) as F.
  pose proof (fr_pos _ _ (proj1 F3)) as Hpos3. pose proof (fr_pos _ _ (proj1 F12)) as Hpos2.
  rewrite (at_end_Done p3) by done. destruct (Nat.eqb_spec (pos p3) (pos p2)) as [Hpos|Hpos]; cbn [andb].
  - case_bool_decide as He3; cbn [negb].
    + exists tt, p3. split_and!; [done..|]. intros _. destruct (decide (pos p < pos p3)%nat); [by left|].
      right. rewrite <-He3. symmetry. apply (frame_cur _ _ (proj1 F)). lia.
    + run_step (ok_advance b) t p4 F4 S4. exists tt, p4. split; [done|]. split; [by eapply frame_trans|].
      intros _. left. pose proof (fr_pos _ _ (proj1 F4)). destruct (S4 eq_refl); [lia|done].
  - exists tt, p3. split_and!; [done..|]. intros _. left. lia.
Qed.

Lemma ok_parse_module_body : ok false b (parse_module_body E).
Proof.
  unfold parse_module_body. apply ok_bind; [ok_leaf|]. intros s. apply ok_bind; [|ok].
  apply ok_loop. intros ds. apply ok_round_at_end; cbv beta iota; [by apply ok_when_ret|].
  intros p Hp Hb. destruct (ok_parse_declaration p Hp Hb) as (d & p1 & Ed & F1 & S1).
  unfold mbind at 1, P_bind. rewrite Ed. pose proof (fr_pos _ _ (proj1 F1)).
  destruct d as [d|]; [exists (Continue (ds ++ [d])), p1; split_and!; [done..|]; intros; by apply S1|].
  destruct (ok_skip_to_declaration p1 (fr_wf _ _ (proj1 F1)) (within_frame _ _ _ (proj1 F1) Hb))
    as ([] & p2 & E2 & F2 & S2).
  unfold mbind, P_bind. rewrite E2. exists (Continue ds), p2.
  split_and!; [done|by eapply frame_trans|]. intros He _ _. pose proof (fr_pos _ _ (proj1 F2)).
  destruct (S2 eq_refl) as [|Hend]; [lia|]. destruct (decide (pos p < pos p1)%nat); [lia|].
  exfalso. apply He. rewrite <-Hend. symmetry. apply (frame_cur _ _ (proj1 F1)). lia.
Qed.
End Decls.

(* ------------------------------------------------------------------ *)
(** ** Modules                                                         *)
(* ------------------------------------------------------------------ *)

(** A token stream as the lexer makes it. *)
Definition ends_with_eof (ts : list Token) : Prop := exists t, last ts = Some t /\ t_kind t = TK_Eof.

(** The native stack that a parse needs: two calls per unit of [rec_depth], and two per
    [let-else]. *)
Definition stack_bound (ts : list Token) : nat :=
  (513 + 2 * let_elses (map (fun t => norm (t_kind t)) ts))%nat.

Lemma new_parser_wf ts : ends_with_eof ts -> wf (new_parser ts).
Proof.
  intros (t & Hl & Ht). unfold wf, kinds. cbn. split.
  - rewrite fmap_last, Hl. cbn. by rewrite Ht.
  - rewrite length_map. destruct ts; [done|]. cbn. lia.
Qed.

Lemma parse_module_Done ts n :
  ends_with_eof ts -> (stack_bound ts <= n)%nat ->
  exists m p', parse_module n (new_parser ts) = Done (m, p') /\ frame (new_parser ts) p'.
Proof.
  intros Hts Hn. pose proof (new_parser_wf ts Hts) as Hp.
  set (b := mkBudget 256 (let_elses (kinds (new_parser ts)))).
  assert (Hb1 : (need b + 1 <= n)%nat).
  { unfold need, stack_bound in *. unfold kinds in b. cbn in *. lia. }
  destruct (ok_parse_module_body (levels_ok n) Hb1 (new_parser ts) Hp) as (m & p' & Hm & Hf & _).
  { split; [done|]. cbn [pos new_parser]. by rewrite drop_0. }
  by exists m, p'.
Qed.

(** A loop that returns has left through a [Break]. *)
Lemma loop_break {S A} fuel (body : S -> P (flow S A)) s p a p' :
  loop fuel body s p = Done (a, p') -> exists s' q, body s' q = Done (Break a, p').
Proof.
  revert s p. induction fuel as [|fuel IH]; intros s p; [done|]. cbn [loop].
  unfold mbind, P_bind. destruct (body s p) as [[[s'|a'] q]| |] eqn:Hr; [by apply IH| |done..].
  intros [= -> ->]. by exists s, p.
Qed.

(** Nothing of the input is left over. *)
Lemma parse_module_at_end E p m p' :
  parse_module_body E p = Done (m, p') -> at_end p' = Done (true, p').
Proof.
  unfold parse_module_body. unfold mbind at 1, P_bind. destruct (peek_span p) as [[s q]| |]; [|done..].
  unfold mbind at 1, P_bind. destruct (loop_ _ _ q) as [[ds q']| |] eqn:Hl; [|done..].
  intros [= _ <-]. unfold loop_ in Hl. apply loop_break in Hl as (ds' & q0 & Hb).
  unfold mbind in Hb at 1. unfold P_bind in Hb. destruct (at_end q0) as [[[] q1]| |] eqn:He; [| |done..].
  - injection Hb as _ ->. clear -He. unfold at_end, check, peek_kind, fmap, P_fmap, mbind, P_bind in *.
    unfold peek in *. destruct (clamped id q0) as [[t q2]| |] eqn:Hc; [|done..].
    assert (q2 = q0) as ->.
    { unfold clamped, token_at, lift in Hc. destruct (length (tokens q0)); [done|].
      destruct (tokens q0 !! _); cbn in Hc; congruence. }
    injection He as He <-. rewrite Hc. cbn. by rewrite He.
  - unfold mbind in Hb at 1. unfold P_bind in Hb.
    destruct (parse_declaration E q1) as [[[d|] q2]| |]; [done| |done..].
    unfold mbind, P_bind in Hb. destruct (skip_to_declaration q2) as [[[] q3]| |]; done.
Qed.

(** C3: the parser is total on the token streams of the lexer: on a native stack of 513
    calls, and two more for each [let-else] of the stream, it returns without a panic.
    It has read the whole stream, its nesting counters are back at zero, and it has
    reported the nesting limit at most once, namely when it has fired. *)
Theorem parse_module_total ts n :
  ends_with_eof ts -> (stack_bound ts <= n)%nat ->
  exists m p', parse_module n (new_parser ts) = Done (m, p') /\ at_end p' = Done (true, p')
    /\ nest_depth p' = 0%N /\ rec_depth p' = 0%N /\ no_struct_literal p' = false
    /\ e0010_count p' = (if nesting_poisoned p' then 1 else 0)%nat.
Proof.
  intros Hts Hn. destruct (parse_module_Done ts n Hts Hn) as (m & p' & Hm & Hf & Hnd).
  exists m, p'. split_and!; [done|by eapply parse_module_at_end|done|apply Hf|apply Hf|].
  pose proof (fr_e0010 _ _ Hf) as He. change (e0010_count (new_parser ts)) with 0%nat in He.
  change (poison_count (new_parser ts)) with 0%nat in He. unfold poison_count in He. lia.
Qed.
