(* ===== verification/FrontEnd.v ===== *)
(** The lexer and the parser together: from the bytes of a file to its syntax tree.
    Inputs on which the parser does not do what its comments say are here too. *)

From S2P Require Import Prelude Machine Utf8 Text Token LexerSafe Ast ParseCore ParseType ParseExpr ParseStmt ParseDecl ParseLogic ParseTotal.
From S2P Require Lexer.

(** C27: every UTF-8 source is lexed and parsed without a panic, on a native stack that its
    tokens bound: the front end always answers, with a module or with errors. *)
Theorem front_end_total src file_id :
  utf8_valid src = true ->
  exists toks r, Lexer.tokenize src file_id = Done toks
    /\ parse (stack_bound toks) toks = Done r.
Proof.
  intros Hsrc. destruct (tokenize_good src file_id Hsrc) as (ts & ds & eof & Ht & He & _).
  exists (ts ++ [eof]). unfold Lexer.tokenize. rewrite Ht.
  destruct (parse_module_Done (ts ++ [eof]) (stack_bound (ts ++ [eof]))) as (m & p & Hm & _).
  - exists eof. by rewrite last_snoc.
  - done.
  - eexists. split; [done|]. unfold parse. by rewrite Hm.
Qed.

Definition tokens_of (s : string) : list Token :=
  match Lexer.tokenize (bytes s) 0 with Done ts => ts | _ => [] end.

Lemma front_end_total_witness :
  exists toks r, Lexer.tokenize (bytes "fn main() { let x = f(1 + ) }") 0 = Done toks
    /\ parse (stack_bound toks) toks = Done r.
Proof. apply (front_end_total (bytes "fn main() { let x = f(1 + ) }") 0). vm_compute. reflexivity. Defined.

Lemma parse_module_total_witness :
  exists m p', parse_module 515 (new_parser (tokens_of "fn f() { let A.B = x else { } }")) = Done (m, p')
    /\ at_end p' = Done (true, p')
    /\ nest_depth p' = 0%N /\ rec_depth p' = 0%N /\ no_struct_literal p' = false
    /\ e0010_count p' = (if nesting_poisoned p' then 1 else 0)%nat.
Proof.
  apply (parse_module_total (tokens_of "fn f() { let A.B = x else { } }") 515).
  - eexists. split; vm_compute; reflexivity.
  - vm_compute. lia.
Defined.

(* ------------------------------------------------------------------ *)
(** ** Limits that do not hold                                         *)
(* ------------------------------------------------------------------ *)

Definition tok_of (k : TokenKind) (text : string) : Token := mkToken k dummy_span (bytes text) false.

(** [let A.B = x else { }], and [k] of them at the end of a block. *)
Definition let_else_tokens : list Token :=
  [tok_of TK_Let ""; tok_of TK_Ident "A"; tok_of TK_Dot ""; tok_of TK_Ident "B"; tok_of TK_Eq "";
   tok_of TK_Ident "x"; tok_of TK_Else ""; tok_of TK_LBrace ""; tok_of TK_RBrace ""].
Definition let_else_block (k : nat) : list Token :=
  concat (repeat let_else_tokens k) ++ [tok_of TK_RBrace ""; tok_of TK_Eof ""].

(** A parser in the middle of a program, with its two depths. *)
Definition parser_at (ts : list Token) (nd rd : N) : Parser := mkParser ts 0 [] false 0 nd rd false.

Definition outcome {A} (r : res (A * Parser)) : option (list (option Code)) :=
  match r with Done (_, p) => Some (map d_code (diagnostics p)) | _ => None end.

(** A run of [let-else] statements recurses once for each of them, without a charge to
    the limits: with one unit of [rec_depth] left, twenty of them need more than twenty
    nested calls, and nothing is reported. *)
Lemma let_else_escapes_guard :
  outcome (parse_block_stmts (levels 20) (parser_at (let_else_block 20) 300 254)) = None
  /\ outcome (parse_block_stmts (levels 45) (parser_at (let_else_block 20) 300 254)) = Some [].
Proof. split; vm_compute; reflexivity. Qed.

(** [(x.f.f.f.f.f).f.f.f.f.f] *)
Definition dots (k : nat) : list Token := concat (repeat [tok_of TK_Dot ""; tok_of TK_Ident "f"] k).
Definition two_chains : list Token :=
  [tok_of TK_LParen ""; tok_of TK_Ident "x"] ++ dots 5 ++ [tok_of TK_RParen ""] ++ dots 5
  ++ [tok_of TK_Eof ""].

Fixpoint field_depth (e : Expr) : N :=
  match e with E_FieldAccess object _ _ => 1 + field_depth object | _ => 0 end.

(** The levels charged for a chain are given back at its end, although the tree keeps
    them: at depth 2040 of [MAX_NESTING_DEPTH] = 2048, a tree ten levels deep is built,
    and nothing is reported. *)
Lemma ast_deeper_than_limit :
  exists e p, parse_expr_bp (levels 10) 0 (parser_at two_chains 2040 10) = Done (e, p)
    /\ (2040 + field_depth e = 2050)%N /\ diagnostics p = [] /\ at_end p = Done (true, p).
Proof. eexists _, _. split; [vm_compute; reflexivity|]. vm_compute. done. Qed.

(** [((1)) ; ;] with one unit of [rec_depth] left. *)
Definition deep_then_semicolons : list Token :=
  [tok_of TK_LParen ""; tok_of TK_LParen ""; tok_of TK_Integer "1"; tok_of TK_RParen "";
   tok_of TK_RParen ""; tok_of TK_Semicolon ""; tok_of TK_Semicolon ""; tok_of TK_RBrace "";
   tok_of TK_Eof ""].

(** A [;] is reported after the nesting limit has fired. *)
Lemma semicolon_after_limit :
  outcome (parse_block_stmts (levels 20) (parser_at deep_then_semicolons 300 254))
  = Some [Some E0010; Some E0009; Some E0009].
Proof. vm_compute. reflexivity. Qed.

(** A decimal literal between 2^63 and 2^64 is read as a negative number, and so is the
    pattern [-9223372036854775809]: neither is reported. *)
Lemma int_literal_wraps :
  parse_int_literal_checked (bytes "9223372036854775808") = Some (- 2 ^ 63)
  /\ outcome (parse_pattern (parser_at [tok_of TK_Minus ""; tok_of TK_Integer "9223372036854775809";
       tok_of TK_Eof ""] 0 0)) = Some [].
Proof. split; vm_compute; reflexivity. Qed.
