(* ===== verification/AstWalk.v ===== *)
(** Walks over the syntax tree: the nodes below a node, and induction on them. *)

From S2P Require Import Prelude Machine Utf8 Text Token Ast.

(** An expression, a statement or a block. *)
Inductive node := N_expr (e : Expr) | N_stmt (s : Stmt) | N_block (b : Block).

Definition opt {A} (f : A -> node) (o : option A) : list node :=
  match o with Some x => [f x] | None => [] end.
Definition part_nodes (p : StringPart) : list node :=
  match p with SP_Literal _ => [] | SP_Expr e => [N_expr e] end.
Definition arm_nodes (a : MatchArm) : list node :=
  let 'mkArm _ guard body _ := a in opt N_expr guard ++ [N_expr body].
Definition branch_nodes (b : SelectBranch) : list node :=
  let 'mkBranch _ channel body _ := b in [N_expr channel; N_block body].
Definition timeout_nodes (t : SelectTimeout) : list node :=
  let 'mkTimeout d body _ := t in [N_expr d; N_block body].

(** The nodes right below a node, in the order of the source; the expressions of
    patterns and of default parameters are not walked. *)
Definition expr_children (e : Expr) : list node :=
  match e with
  | E_IntLiteral _ _ | E_FloatLiteral _ _ | E_StringLiteral _ _ | E_CharLiteral _ _
  | E_BoolLiteral _ _ | E_NoneLiteral _ | E_Identifier _ _ => []
  | E_InterpolatedString parts _ => flat_map part_nodes parts
  | E_FieldAccess e _ _ | E_UnaryOp _ e _ | E_Borrow e _ _ | E_Deref e _ | E_SharedExpr e _
  | E_MoveExpr e _ | E_WeakExpr e _ | E_Cast e _ _ | E_Await e _ | E_Lambda _ _ e _ => [N_expr e]
  | E_IndexAccess e1 e2 _ | E_BinaryOp _ e1 e2 _ | E_PipeExpr e1 e2 _ => [N_expr e1; N_expr e2]
  | E_FnCall e args _ | E_MethodCall e _ args _ => N_expr e :: map N_expr args
  | E_StaticMethodCall _ _ es _ | E_ArrayLiteral es _ | E_TupleLiteral es _ => map N_expr es
  | E_MapLiteral entries _ => flat_map (fun '(k, v) => [N_expr k; N_expr v]) entries
  | E_StructLiteral _ fields _ => map (fun '(_, v) => N_expr v) fields
  | E_IfExpr c b1 b2 _ => N_expr c :: N_block b1 :: opt N_block b2
  | E_MatchExpr e arms _ => N_expr e :: flat_map arm_nodes arms
  | E_RangeExpr e1 e2 _ _ => opt N_expr e1 ++ opt N_expr e2
  | E_ComptimeBlock b _ | E_QuantumBlock b _ | E_UnsafeBlock b _ | E_Block b _ => [N_block b]
  end.
Definition stmt_children (s : Stmt) : list node :=
  match s with
  | S_Let _ _ _ value _ _ => opt N_expr value
  | S_Assign target _ value _ => [N_expr target; N_expr value]
  | S_Return value _ => opt N_expr value
  | S_If c b elifs b2 _ =>
      N_expr c :: N_block b :: flat_map (fun '(c, b) => [N_expr c; N_block b]) elifs ++ opt N_block b2
  | S_For _ _ e b _ | S_While e b _ => [N_expr e; N_block b]
  | S_Break _ | S_Continue _ => []
  | S_Expr e _ | S_Spawn e _ | S_Throw e _ => [N_expr e]
  | S_Select branches timeout _ =>
      flat_map branch_nodes branches
      ++ match timeout with Some t => timeout_nodes t | None => [] end
  | S_TryCatch b1 _ b2 _ => [N_block b1; N_block b2]
  | S_DenyBlock _ b _ => [N_block b]
  end.
Definition children (n : node) : list node :=
  match n with
  | N_expr e => expr_children e
  | N_stmt s => stmt_children s
  | N_block (mkBlock ss _) => map N_stmt ss
  end.

(** Induction: what holds for a node when it holds for the nodes right below it. *)
Section Induction.
Context (P : node -> Prop) (step : forall n, Forall P (children n) -> P n).

Ltac walk expr_ind stmt_ind block_ind :=
  repeat first
    [ apply expr_ind | apply stmt_ind | apply block_ind | apply Forall_nil_2
    | apply Forall_cons_2 | apply Forall_app_2
    | progress cbn
    | match goal with
      | |- Forall _ (map _ ?l) => induction l
      | |- Forall _ (flat_map _ ?l) => induction l
      | |- Forall _ (opt _ ?o) => destruct o
      | |- Forall _ (part_nodes ?x) => destruct x
      | |- Forall _ (arm_nodes ?x) => destruct x
      | |- Forall _ (branch_nodes ?x) => destruct x
      | |- Forall _ (timeout_nodes ?x) => destruct x
      | |- Forall _ (let '(_, _) := ?x in _) => destruct x
      | |- P (let '(_, _) := ?x in _) => destruct x
      | |- Forall _ (match ?x with Some _ => _ | None => _ end) => destruct x
      end
    | assumption ].

Fixpoint expr_induction (e : Expr) : P (N_expr e)
with stmt_induction (s : Stmt) : P (N_stmt s)
with block_induction (b : Block) : P (N_block b).
Proof.
  - apply step. destruct e; cbn; walk expr_induction stmt_induction block_induction.
  - apply step. destruct s; cbn; walk expr_induction stmt_induction block_induction.
  - apply step. destruct b; cbn; walk expr_induction stmt_induction block_induction.
Qed.
Lemma node_induction n : P n.
Proof. destruct n; [apply expr_induction|apply stmt_induction|apply block_induction]. Qed.
End Induction.

(** Induction with two levels below the node. *)
Lemma node_induction2 (P : node -> Prop) :
  (forall n, Forall P (children n) -> Forall (fun c => Forall P (children c)) (children n) -> P n) -> forall n, P n.
Proof.
  intros step n. enough (H : P n /\ Forall P (children n)) by apply H.
  induction n as [n IH] using node_induction.
  assert (H1 : Forall P (children n)) by (eapply Forall_impl; [exact IH|]; by intros ? [? _]).
  split; [|done]. apply step; [done|]. eapply Forall_impl; [exact IH|]. by intros ? [_ ?].
Qed.

(** A node and all nodes below it. *)
Section Below.
Fixpoint expr_below (e : Expr) : list node :=
  N_expr e ::
  match e with
  | E_IntLiteral _ _ | E_FloatLiteral _ _ | E_StringLiteral _ _ | E_CharLiteral _ _
  | E_BoolLiteral _ _ | E_NoneLiteral _ | E_Identifier _ _ => []
  | E_InterpolatedString parts _ =>
      flat_map (fun p => match p with SP_Literal _ => [] | SP_Expr e => expr_below e end) parts
  | E_FieldAccess e _ _ | E_UnaryOp _ e _ | E_Borrow e _ _ | E_Deref e _ | E_SharedExpr e _
  | E_MoveExpr e _ | E_WeakExpr e _ | E_Cast e _ _ | E_Await e _ | E_Lambda _ _ e _ => expr_below e
  | E_IndexAccess e1 e2 _ | E_BinaryOp _ e1 e2 _ | E_PipeExpr e1 e2 _ => expr_below e1 ++ expr_below e2
  | E_FnCall e args _ | E_MethodCall e _ args _ => expr_below e ++ flat_map expr_below args
  | E_StaticMethodCall _ _ es _ | E_ArrayLiteral es _ | E_TupleLiteral es _ => flat_map expr_below es
  | E_MapLiteral entries _ => flat_map (fun '(k, v) => expr_below k ++ expr_below v) entries
  | E_StructLiteral _ fields _ => flat_map (fun '(_, v) => expr_below v) fields
  | E_IfExpr c b1 b2 _ => expr_below c ++ block_below b1 ++ from_option block_below [] b2
  | E_MatchExpr e arms _ =>
      expr_below e ++ flat_map (fun a => let 'mkArm _ guard body _ := a in
        from_option expr_below [] guard ++ expr_below body) arms
  | E_RangeExpr e1 e2 _ _ => from_option expr_below [] e1 ++ from_option expr_below [] e2
  | E_ComptimeBlock b _ | E_QuantumBlock b _ | E_UnsafeBlock b _ | E_Block b _ => block_below b
  end
with stmt_below (s : Stmt) : list node :=
  N_stmt s ::
  match s with
  | S_Let _ _ _ value _ _ => from_option expr_below [] value
  | S_Assign target _ value _ => expr_below target ++ expr_below value
  | S_Return value _ => from_option expr_below [] value
  | S_If c b elifs b2 _ =>
      expr_below c ++ block_below b
      ++ flat_map (fun '(c, b) => expr_below c ++ block_below b) elifs
      ++ from_option block_below [] b2
  | S_For _ _ e b _ | S_While e b _ => expr_below e ++ block_below b
  | S_Break _ | S_Continue _ => []
  | S_Expr e _ | S_Spawn e _ | S_Throw e _ => expr_below e
  | S_Select branches timeout _ =>
      flat_map (fun b => let 'mkBranch _ channel body _ := b in
        expr_below channel ++ block_below body) branches
      ++ from_option (fun t => let 'mkTimeout d body _ := t in expr_below d ++ block_below body) [] timeout
  | S_TryCatch b1 _ b2 _ => block_below b1 ++ block_below b2
  | S_DenyBlock _ b _ => block_below b
  end
with block_below (b : Block) : list node :=
  N_block b :: let 'mkBlock ss _ := b in flat_map stmt_below ss.
End Below.
Definition below (n : node) : list node :=
  match n with N_expr e => expr_below e | N_stmt s => stmt_below s | N_block b => block_below b end.

Lemma flat_map_map {A B C} (f : A -> B) (g : B -> list C) l : flat_map g (map f l) = flat_map (fun x => g (f x)) l.
Proof. induction l; cbn; congruence. Qed.
Lemma flat_map_flat_map {A B C} (f : A -> list B) (g : B -> list C) l :
  flat_map g (flat_map f l) = flat_map (fun x => flat_map g (f x)) l.
Proof. induction l; cbn; [done|]. rewrite flat_map_app. congruence. Qed.
Lemma flat_map_opt {A B} (f : A -> node) (g : node -> list B) o :
  flat_map g (opt f o) = from_option (fun x => g (f x)) [] o.
Proof. destruct o; cbn; by rewrite ?app_nil_r. Qed.

Lemma below_children n : below n = n :: flat_map below (children n).
Proof.
  destruct n as [e|s|[ss sp]]; [destruct e|destruct s|]; cbn;
    rewrite ?flat_map_app, ?flat_map_map, ?flat_map_flat_map, ?flat_map_opt; cbn; rewrite ?app_nil_r;
    try reflexivity; f_equal.
  all: repeat first
    [ reflexivity | apply flat_map_ext; intros | progress f_equal
    | match goal with
      | |- context [match ?x with _ => _ end] => destruct x; cbn
      | |- context [flat_map below (arm_nodes ?x)] => destruct x; cbn
      | |- context [flat_map below (branch_nodes ?x)] => destruct x; cbn
      end
    | rewrite app_nil_r ].
  all: rewrite flat_map_app, flat_map_opt; cbn; by rewrite app_nil_r.
Qed.

(** A condition on all nodes below a node. *)
Definition everywhere (p : node -> bool) (n : node) : bool := forallb p (below n).
Lemma everywhere_children p n : everywhere p n = p n && forallb (everywhere p) (children n).
Proof.
  unfold everywhere. rewrite below_children. cbn. f_equal.
  induction (children n) as [|c l IH]; cbn; [done|]. by rewrite forallb_app, IH.
Qed.
