(* ===== verification/OwnState.v ===== *)
(** The state of the ownership analysis ([kryos-ownership/src/lib.rs], [analysis.rs]): the
    states of variables by scope, the diagnostics, what is a copy type, and the steps
    of the walk on a single variable. *)

From S2P Require Import Prelude Machine Utf8 Text Token Ast.

(* ------------------------------------------------------------------ *)
(** ** Data                                                            *)
(* ------------------------------------------------------------------ *)

Inductive OwnershipState := OS_Owned | OS_Moved | OS_Shared | OS_PartiallyMoved | OS_Uninitialized.
#[export] Instance OwnershipState_eq_dec : EqDecision OwnershipState.
Proof. solve_decision. Defined.

Inductive ArcReason := AR_ExplicitShared | AR_ClosureCaptureMut | AR_ActorBoundary.
#[export] Instance ArcReason_eq_dec : EqDecision ArcReason.
Proof. solve_decision. Defined.
Record ArcInsertion := mkArc { arc_variable : str; arc_scope_span : Span; arc_reason : ArcReason }.

Record VarInfo := mkVar {
  v_state : OwnershipState;
  v_mutable : bool;
  v_is_copy : bool;
  v_decl_span : Span;
  v_moved_span : option Span;
  v_moved_fields : gset str
}.
Abbreviation Scope := (gmap str VarInfo).

(** The diagnostics, without their wording: E0300, E0301, E0303 and W0300. *)
Inductive OwnDiag :=
| OD_UseAfterMove (name : str) (use_span moved_span : Span)
| OD_UseUninitialized (name : str) (use_span decl_span : Span)
| OD_PartialMove (name field : str) (use_span : Span)
| OD_ConditionalMove (name : str) (span : Span).

(** The tables of [OwnershipAnalyzer] about types. *)
Record Tables := mkTables {
  copy_structs : gset str;
  fn_copy_returns : gmap str bool;
  fn_return_struct_names : gmap str str;
  struct_fields : gmap str (gmap str TypeExpr);
  enum_variant_fields : gmap (str * str) (list TypeExpr);
  var_struct_names : gmap str str;
  var_elem_is_copy : gmap str bool;
  fn_return_tuple_elems : gmap str (list TypeExpr);
  var_tuple_elem_types : gmap str (list TypeExpr)
}.
(** [OwnershipAnalyzer]; the innermost scope is the first of the list. *)
Record Analyzer := mkAnalyzer {
  scopes : list Scope;
  od_diagnostics : list OwnDiag;
  arc_insertions : list ArcInsertion;
  tables : Tables
}.

Definition with_scopes (s : list Scope) (a : Analyzer) : Analyzer :=
  mkAnalyzer s (od_diagnostics a) (arc_insertions a) (tables a).
Definition add_diag (d : OwnDiag) (a : Analyzer) : Analyzer :=
  mkAnalyzer (scopes a) (od_diagnostics a ++ [d]) (arc_insertions a) (tables a).
Definition push_arc (i : ArcInsertion) (a : Analyzer) : Analyzer :=
  mkAnalyzer (scopes a) (od_diagnostics a) (arc_insertions a ++ [i]) (tables a).
Definition with_tables (f : Tables -> Tables) (a : Analyzer) : Analyzer :=
  mkAnalyzer (scopes a) (od_diagnostics a) (arc_insertions a) (f (tables a)).

Definition insert_copy_struct (s : str) (t : Tables) : Tables :=
  mkTables ({[s]} ∪ copy_structs t) (fn_copy_returns t) (fn_return_struct_names t) (struct_fields t)
    (enum_variant_fields t) (var_struct_names t) (var_elem_is_copy t) (fn_return_tuple_elems t)
    (var_tuple_elem_types t).
Definition insert_fn_copy_return (f : str) (b : bool) (t : Tables) : Tables :=
  mkTables (copy_structs t) (<[f := b]> (fn_copy_returns t)) (fn_return_struct_names t) (struct_fields t)
    (enum_variant_fields t) (var_struct_names t) (var_elem_is_copy t) (fn_return_tuple_elems t)
    (var_tuple_elem_types t).
Definition insert_fn_return_struct (f s : str) (t : Tables) : Tables :=
  mkTables (copy_structs t) (fn_copy_returns t) (<[f := s]> (fn_return_struct_names t)) (struct_fields t)
    (enum_variant_fields t) (var_struct_names t) (var_elem_is_copy t) (fn_return_tuple_elems t)
    (var_tuple_elem_types t).
Definition insert_struct_fields (s : str) (m : gmap str TypeExpr) (t : Tables) : Tables :=
  mkTables (copy_structs t) (fn_copy_returns t) (fn_return_struct_names t) (<[s := m]> (struct_fields t))
    (enum_variant_fields t) (var_struct_names t) (var_elem_is_copy t) (fn_return_tuple_elems t)
    (var_tuple_elem_types t).
Definition insert_enum_variant (k : str * str) (ts : list TypeExpr) (t : Tables) : Tables :=
  mkTables (copy_structs t) (fn_copy_returns t) (fn_return_struct_names t) (struct_fields t)
    (<[k := ts]> (enum_variant_fields t)) (var_struct_names t) (var_elem_is_copy t)
    (fn_return_tuple_elems t) (var_tuple_elem_types t).
Definition insert_var_struct (x s : str) (t : Tables) : Tables :=
  mkTables (copy_structs t) (fn_copy_returns t) (fn_return_struct_names t) (struct_fields t)
    (enum_variant_fields t) (<[x := s]> (var_struct_names t)) (var_elem_is_copy t)
    (fn_return_tuple_elems t) (var_tuple_elem_types t).
Definition insert_var_elem (x : str) (b : bool) (t : Tables) : Tables :=
  mkTables (copy_structs t) (fn_copy_returns t) (fn_return_struct_names t) (struct_fields t)
    (enum_variant_fields t) (var_struct_names t) (<[x := b]> (var_elem_is_copy t))
    (fn_return_tuple_elems t) (var_tuple_elem_types t).
Definition insert_fn_return_tuple (f : str) (ts : list TypeExpr) (t : Tables) : Tables :=
  mkTables (copy_structs t) (fn_copy_returns t) (fn_return_struct_names t) (struct_fields t)
    (enum_variant_fields t) (var_struct_names t) (var_elem_is_copy t)
    (<[f := ts]> (fn_return_tuple_elems t)) (var_tuple_elem_types t).
Definition insert_var_tuple (x : str) (ts : list TypeExpr) (t : Tables) : Tables :=
  mkTables (copy_structs t) (fn_copy_returns t) (fn_return_struct_names t) (struct_fields t)
    (enum_variant_fields t) (var_struct_names t) (var_elem_is_copy t) (fn_return_tuple_elems t)
    (<[x := ts]> (var_tuple_elem_types t)).

(** [OwnershipAnalyzer::new] *)
Definition new_analyzer : Analyzer :=
  mkAnalyzer [∅] [] [] (mkTables ∅ ∅ ∅ ∅ ∅ ∅ ∅ ∅ ∅).

(* ------------------------------------------------------------------ *)
(** ** Scopes                                                          *)
(* ------------------------------------------------------------------ *)

Definition push_scope (a : Analyzer) : Analyzer := with_scopes (∅ :: scopes a) a.
(** The assertion is checked in debug builds. *)
Definition pop_scope (a : Analyzer) : res Analyzer :=
  match scopes a with
  | _ :: ((_ :: _) as s) => Done (with_scopes s a)
  | _ => Panic
  end.
Definition define_var (name : str) (info : VarInfo) (a : Analyzer) : res Analyzer :=
  match scopes a with
  | sc :: s => Done (with_scopes (<[name := info]> sc :: s) a)
  | [] => Panic
  end.

Fixpoint lookup_in (s : list Scope) (name : str) : option VarInfo :=
  match s with
  | [] => None
  | sc :: s => match sc !! name with Some info => Some info | None => lookup_in s name end
  end.
Definition lookup_var (a : Analyzer) (name : str) : option VarInfo := lookup_in (scopes a) name.
(** What is done through [lookup_var_mut]. *)
Fixpoint alter_in (f : VarInfo -> VarInfo) (name : str) (s : list Scope) : list Scope :=
  match s with
  | [] => []
  | sc :: s =>
      match sc !! name with
      | Some info => <[name := f info]> sc :: s
      | None => sc :: alter_in f name s
      end
  end.
Definition alter_var (f : VarInfo -> VarInfo) (name : str) (a : Analyzer) : Analyzer :=
  with_scopes (alter_in f name (scopes a)) a.

Definition snapshot_states (a : Analyzer) : gmap str OwnershipState :=
  foldr (fun sc acc => (v_state <$> sc) ∪ acc) ∅ (scopes a).
Definition snapshot_full (a : Analyzer) : gmap str (OwnershipState * gset str) :=
  foldr (fun sc acc => ((fun i => (v_state i, v_moved_fields i)) <$> sc) ∪ acc) ∅ (scopes a).

Definition set_state (st : OwnershipState) (fields : gset str) (i : VarInfo) : VarInfo :=
  mkVar st (v_mutable i) (v_is_copy i) (v_decl_span i) (v_moved_span i) fields.
Definition restore_state (name : str) (st : OwnershipState) : Analyzer -> Analyzer :=
  alter_var (set_state st ∅) name.
Definition restore_full (name : str) (st : OwnershipState) (fields : gset str) : Analyzer -> Analyzer :=
  alter_var (set_state st fields) name.

Definition owned_var (mutable is_copy : bool) (span : Span) : VarInfo :=
  mkVar OS_Owned mutable is_copy span None ∅.

(* ------------------------------------------------------------------ *)
(** ** Copy types                                                      *)
(* ------------------------------------------------------------------ *)

Definition one_of (name : str) (l : list string) : bool := bool_decide (name ∈ bytes <$> l).

Definition is_primitive_copy_type (name : str) : bool :=
  one_of name ["i8"; "i16"; "i32"; "i64"; "i128"; "u8"; "u16"; "u32"; "u64"; "u128"; "f32"; "f64";
    "bool"; "char"; "usize"; "isize"; "str"; "string"; "String"].
Definition is_copy_type_name (t : Tables) (name : str) : bool :=
  is_primitive_copy_type name || bool_decide (name ∈ copy_structs t).
Fixpoint is_type_expr_copy (t : Tables) (ty : TypeExpr) : bool :=
  match ty with
  | TE_Simple name _ => is_copy_type_name t name
  | TE_Tuple elements _ => forallb (is_type_expr_copy t) elements
  | TE_Function _ _ _ | TE_Array _ _ _ => true
  | _ => false
  end.
(** An annotation that may be missing. *)
Definition is_opt_type_copy (t : Tables) (ty : option TypeExpr) (default : bool) : bool :=
  from_option (is_type_expr_copy t) default ty.

Definition COPY_BUILTINS : list string :=
  ["len"; "parse_int"; "parse_float"; "time_now"; "abs"; "min"; "max"; "floor"; "ceil"; "round";
   "sqrt"; "pow"; "log"; "sin"; "cos"; "tan"; "char_code"; "int"; "float"; "to_string"; "char_from";
   "substr"; "type_of"; "env_get"; "file_read"; "buf_new"; "buf_len"; "buf_get_byte";
   "buf_write_to_file"].
Definition COPY_METHODS : list string :=
  ["len"; "count"; "size"; "capacity"; "is_empty"; "contains"; "starts_with"; "ends_with"; "parse_int";
   "parse_float"; "abs"; "min"; "max"; "floor"; "ceil"; "round"; "sqrt"; "pow"; "log"; "sin"; "cos";
   "tan"; "clone"].

(** The name in front of the call, for a direct call. *)
Definition callee_name (callee : Expr) : option str :=
  match callee with E_Identifier name _ => Some name | _ => None end.

(** The struct type and the tuple elements that are known of the object of a field. *)
Definition field_struct_name (t : Tables) (object : Expr) : option str :=
  match object with
  | E_Identifier name _ => var_struct_names t !! name
  | E_StructLiteral name _ _ => Some name
  | E_FnCall callee _ _ => name ← callee_name callee; fn_return_struct_names t !! name
  | _ => None
  end.
Definition field_tuple_elems (t : Tables) (object : Expr) : option (list TypeExpr) :=
  match object with
  | E_Identifier name _ => var_tuple_elem_types t !! name
  | E_FnCall callee _ _ => name ← callee_name callee; fn_return_tuple_elems t !! name
  | _ => None
  end.
(** The declared type of a field; a tuple's field is a number. *)
Definition field_type (t : Tables) (object : Expr) (field : str) : option TypeExpr :=
  match sn ← field_struct_name t object; fs ← struct_fields t !! sn; fs !! field with
  | Some ty => Some ty
  | None => elems ← field_tuple_elems t object; i ← parse_u64 field; elems !! Z.to_nat i
  end.

(** The last element of a list, [default] for the empty list. *)
Section Last.
Context {A B : Type} (default : B) (f : A -> B).
Fixpoint of_last (l : list A) : B :=
  match l with [] => default | [x] => f x | _ :: l => of_last l end.
End Last.

(** [expr_is_copy], [block_last_expr_is_copy] *)
Fixpoint expr_is_copy (a : Analyzer) (e : Expr) : bool :=
  match e with
  | E_IntLiteral _ _ | E_FloatLiteral _ _ | E_BoolLiteral _ _ | E_CharLiteral _ _ | E_StringLiteral _ _
  | E_Lambda _ _ _ _ => true
  | E_Identifier name _ => from_option v_is_copy false (lookup_var a name)
  | E_BinaryOp _ e1 e2 _ => expr_is_copy a e1 && expr_is_copy a e2
  | E_UnaryOp _ operand _ => expr_is_copy a operand
  | E_FnCall callee args _ =>
      match callee with
      | E_Identifier name _ =>
          if one_of name COPY_BUILTINS then true
          else if bool_decide (name = bytes "pop") && Nat.eqb (length args) 1 then
            match args with
            | E_Identifier arr _ :: _ => default false (var_elem_is_copy (tables a) !! arr)
            | _ => false
            end
          else default false (fn_copy_returns (tables a) !! name)
      | _ => false
      end
  | E_MethodCall _ method _ _ =>
      if one_of method COPY_METHODS then true else default false (fn_copy_returns (tables a) !! method)
  | E_StaticMethodCall type_name method _ _ =>
      default false (fn_copy_returns (tables a) !! (type_name ++ bytes "__" ++ method))
  | E_MatchExpr _ arms _ =>
      negb (Nat.eqb (length arms) 0)
      && forallb (fun arm => let 'mkArm _ _ body _ := arm in expr_is_copy a body) arms
  | E_IfExpr _ then_branch else_branch _ =>
      block_last_expr_is_copy a then_branch
      && match else_branch with Some b => block_last_expr_is_copy a b | None => true end
  | E_Cast _ ty _ => is_type_expr_copy (tables a) ty
  | E_RangeExpr _ _ _ _ | E_IndexAccess _ _ _ | E_ArrayLiteral _ _ => true
  | E_Block block _ => block_last_expr_is_copy a block
  | E_FieldAccess object field _ =>
      match field_type (tables a) object field with
      | Some ty => is_type_expr_copy (tables a) ty
      | None => expr_is_copy a object
      end
  | E_PipeExpr _ e2 _ => expr_is_copy a e2
  | E_Borrow inner _ _ | E_Deref inner _ | E_MoveExpr inner _ => expr_is_copy a inner
  | E_StructLiteral name _ _ => bool_decide (name ∈ copy_structs (tables a))
  | E_InterpolatedString _ _ | E_NoneLiteral _ | E_TupleLiteral _ _ | E_MapLiteral _ _ | E_SharedExpr _ _
  | E_WeakExpr _ _ | E_ComptimeBlock _ _ | E_QuantumBlock _ _ | E_UnsafeBlock _ _ | E_Await _ _ => false
  end
with stmt_is_copy (a : Analyzer) (s : Stmt) : bool :=
  match s with
  | S_Expr e _ | S_Return (Some e) _ => expr_is_copy a e
  | _ => false
  end
with block_last_expr_is_copy (a : Analyzer) (b : Block) : bool :=
  let 'mkBlock ss _ := b in of_last false (stmt_is_copy a) ss.

(* ------------------------------------------------------------------ *)
(** ** Captures of closures                                            *)
(* ------------------------------------------------------------------ *)

(** [collect_captures], [collect_captures_stmt] *)
Fixpoint collect_captures (a : Analyzer) (locals : list str) (e : Expr) : list str :=
  match e with
  | E_Identifier name _ =>
      if negb (bool_decide (name ∈ locals)) && bool_decide (is_Some (lookup_var a name)) then [name] else []
  | E_BinaryOp _ e1 e2 _ | E_PipeExpr e1 e2 _ =>
      collect_captures a locals e1 ++ collect_captures a locals e2
  | E_UnaryOp _ operand _ => collect_captures a locals operand
  | E_FnCall e args _ | E_MethodCall e _ args _ =>
      collect_captures a locals e ++ flat_map (collect_captures a locals) args
  | E_StaticMethodCall _ _ es _ | E_ArrayLiteral es _ | E_TupleLiteral es _ =>
      flat_map (collect_captures a locals) es
  | E_FieldAccess object _ _ => collect_captures a locals object
  | E_IndexAccess object index _ => collect_captures a locals object ++ collect_captures a locals index
  | E_MapLiteral entries _ =>
      flat_map (fun '(k, v) => collect_captures a locals k ++ collect_captures a locals v) entries
  | E_StructLiteral _ fields _ => flat_map (fun '(_, v) => collect_captures a locals v) fields
  | E_IfExpr condition then_branch else_branch _ =>
      collect_captures a locals condition ++ collect_captures_block a locals then_branch
      ++ from_option (collect_captures_block a locals) [] else_branch
  | E_SharedExpr inner _ | E_MoveExpr inner _ | E_WeakExpr inner _ | E_Cast inner _ _ =>
      collect_captures a locals inner
  | E_Block block _ => collect_captures_block a locals block
  | E_InterpolatedString parts _ =>
      flat_map (fun p => match p with SP_Literal _ => [] | SP_Expr e => collect_captures a locals e end) parts
  | E_RangeExpr start end_ _ _ =>
      from_option (collect_captures a locals) [] start ++ from_option (collect_captures a locals) [] end_
  | E_MatchExpr subject arms _ =>
      collect_captures a locals subject
      ++ flat_map (fun arm => let 'mkArm _ guard body _ := arm in
           from_option (collect_captures a locals) [] guard ++ collect_captures a locals body) arms
  | E_Lambda _ _ body _ => collect_captures a locals body
  | E_ComptimeBlock body _ | E_QuantumBlock body _ | E_UnsafeBlock body _ => collect_captures_block a locals body
  | E_IntLiteral _ _ | E_FloatLiteral _ _ | E_StringLiteral _ _ | E_CharLiteral _ _ | E_BoolLiteral _ _
  | E_NoneLiteral _ | E_Borrow _ _ _ | E_Deref _ _ | E_Await _ _ => []
  end
with collect_captures_stmt (a : Analyzer) (locals : list str) (s : Stmt) : list str :=
  match s with
  | S_Let _ _ _ value _ _ | S_Return value _ => from_option (collect_captures a locals) [] value
  | S_Assign target _ value _ => collect_captures a locals target ++ collect_captures a locals value
  | S_Expr e _ | S_Spawn e _ | S_Throw e _ => collect_captures a locals e
  | S_If condition then_block elif_clauses else_block _ =>
      collect_captures a locals condition ++ collect_captures_block a locals then_block
      ++ flat_map (fun '(c, b) => collect_captures a locals c ++ collect_captures_block a locals b) elif_clauses
      ++ from_option (collect_captures_block a locals) [] else_block
  | S_For _ _ e body _ | S_While e body _ => collect_captures a locals e ++ collect_captures_block a locals body
  | S_Select branches _ _ =>
      flat_map (fun br => let 'mkBranch _ channel body _ := br in
        collect_captures a locals channel ++ collect_captures_block a locals body) branches
  | S_TryCatch try_block _ catch_block _ =>
      collect_captures_block a locals try_block ++ collect_captures_block a locals catch_block
  | S_DenyBlock _ body _ => collect_captures_block a locals body
  | S_Break _ | S_Continue _ => []
  end
with collect_captures_block (a : Analyzer) (locals : list str) (b : Block) : list str :=
  let 'mkBlock ss _ := b in flat_map (collect_captures_stmt a locals) ss.

(* ------------------------------------------------------------------ *)
(** ** The walk                                                        *)
(* ------------------------------------------------------------------ *)

(** A loop over a list that threads the state. *)
Section FoldM.
Context {A S : Type} (f : A -> S -> res S).
Fixpoint foldM (l : list A) (s : S) : res S :=
  match l with [] => Done s | x :: l => s ← f x s; foldM l s end.
End FoldM.
(** The same with the types of the fields beside it, as far as they are known. *)
Section FoldTypes.
Context {A S : Type} (f : option TypeExpr -> A -> S -> res S).
Fixpoint fold_types (tys : list TypeExpr) (l : list A) (s : S) : res S :=
  match l with [] => Done s | x :: l => s ← f (head tys) x s; fold_types (tail tys) l s end.
End FoldTypes.

Definition in_scope (f : Analyzer -> res Analyzer) (a : Analyzer) : res Analyzer :=
  a ← f (push_scope a); pop_scope a.

Definition check_usable (name : str) (span : Span) (a : Analyzer) : Analyzer :=
  match lookup_var a name with
  | Some i =>
      match v_state i with
      | OS_Moved => add_diag (OD_UseAfterMove name span (default (v_decl_span i) (v_moved_span i))) a
      | OS_Uninitialized => add_diag (OD_UseUninitialized name span (v_decl_span i)) a
      | OS_PartiallyMoved | OS_Owned | OS_Shared => a
      end
  | None => a
  end.

Definition set_moved (span : Span) (i : VarInfo) : VarInfo :=
  mkVar OS_Moved (v_mutable i) (v_is_copy i) (v_decl_span i) (Some span) (v_moved_fields i).
(** Copy types and shared values do not move. *)
Definition mark_moved (name : str) (span : Span) (a : Analyzer) : Analyzer :=
  match lookup_var a name with
  | Some i =>
      if v_is_copy i || bool_decide (v_state i = OS_Shared) then a
      else alter_var (set_moved span) name a
  | None => a
  end.

(** [analyze_expr_move], with [use] for [analyze_expr_use]. *)
Definition move_with (use : Expr -> Analyzer -> res Analyzer) (e : Expr) (a : Analyzer) : res Analyzer :=
  match e with
  | E_Identifier name span => Done (mark_moved name span (check_usable name span a))
  | E_FieldAccess object _ span =>
      match object with
      | E_Identifier name _ => Done (check_usable name span a)
      | _ => use object a
      end
  | _ => use e a
  end.

(** Assignment to a variable. *)
Definition set_owned (i : VarInfo) : VarInfo :=
  mkVar OS_Owned (v_mutable i) (v_is_copy i) (v_decl_span i) None ∅.

Definition is_identifier (e : Expr) : bool := match e with E_Identifier _ _ => true | _ => false end.

(** What a [let] records about the type of its variable, by the annotation or by the
    initial value. *)
Definition let_struct_name (t : Tables) (ty : option TypeExpr) (init : Expr) : option str :=
  let from_init :=
    match init with
    | E_StructLiteral sn _ _ => Some sn
    | E_FnCall callee _ _ => name ← callee_name callee; fn_return_struct_names t !! name
    | E_MethodCall _ method _ _ => fn_return_struct_names t !! method
    | _ => None
    end in
  match from_init with
  | Some sn => Some sn
  | None => match ty with Some (TE_Simple sn _) => Some sn | _ => None end
  end.
Definition let_tuple_elems (t : Tables) (ty : option TypeExpr) (init : Expr) : option (list TypeExpr) :=
  match ty with
  | Some (TE_Tuple elements _) => Some elements
  | _ =>
      match init with
      | E_FnCall callee _ _ => name ← callee_name callee; fn_return_tuple_elems t !! name
      | E_MethodCall _ method _ _ => fn_return_tuple_elems t !! method
      | _ => None
      end
  end.
Definition let_elem_is_copy (a : Analyzer) (ty : option TypeExpr) (init : Expr) : option bool :=
  match ty with
  | Some (TE_Array element _ _) => Some (is_type_expr_copy (tables a) element)
  | _ => match init with E_ArrayLiteral (e :: _) _ => Some (expr_is_copy a e) | _ => None end
  end.
Definition record_let_types (name : str) (ty : option TypeExpr) (init : Expr) (a : Analyzer) : Analyzer :=
  let a :=
    match let_struct_name (tables a) ty init with
    | Some sn =>
        if bool_decide (is_Some (struct_fields (tables a) !! sn))
        then with_tables (insert_var_struct name sn) a else a
    | None => a
    end in
  let a :=
    match let_tuple_elems (tables a) ty init with
    | Some elems => with_tables (insert_var_tuple name elems) a
    | None => a
    end in
  match let_elem_is_copy a ty init with
  | Some b => with_tables (insert_var_elem name b) a
  | None => a
  end.

Definition moved_in (name : str) (s : gmap str OwnershipState) : bool := bool_decide (s !! name = Some OS_Moved).
Definition owned_in (name : str) (s : gmap str OwnershipState) : bool := bool_decide (s !! name = Some OS_Owned).

Definition param_name (p : Param) : str := let 'mkParam name _ _ _ := p in name.


(* ------------------------------------------------------------------ *)
(** ** Queries on the ARC insertions ([arc.rs])                        *)
(* ------------------------------------------------------------------ *)

Definition filter_by_reason (insertions : list ArcInsertion) (r : ArcReason) : list ArcInsertion :=
  filter (fun i => arc_reason i = r) insertions.
Definition explicit_shared (insertions : list ArcInsertion) : list ArcInsertion := filter_by_reason insertions AR_ExplicitShared.
Definition closure_captures (insertions : list ArcInsertion) : list ArcInsertion := filter_by_reason insertions AR_ClosureCaptureMut.
Definition actor_boundary (insertions : list ArcInsertion) : list ArcInsertion := filter_by_reason insertions AR_ActorBoundary.
Definition for_variable (insertions : list ArcInsertion) (name : str) : list ArcInsertion :=
  filter (fun i => arc_variable i = name) insertions.
Definition within_span (insertions : list ArcInsertion) (span : Span) : list ArcInsertion :=
  filter (fun i => sp_file_id (arc_scope_span i) = sp_file_id span
    /\ (sp_start span <= sp_start (arc_scope_span i))%Z /\ (sp_end (arc_scope_span i) <= sp_end span)%Z) insertions.
Record ArcSummary := mkSummary {
  sum_total : nat; sum_explicit_shared : nat; sum_closure_capture_mut : nat; sum_actor_boundary : nat }.
Definition count_arc (s : ArcSummary) (i : ArcInsertion) : ArcSummary :=
  let 'mkSummary t e c b := s in
  match arc_reason i with
  | AR_ExplicitShared => mkSummary t (e + 1) c b
  | AR_ClosureCaptureMut => mkSummary t e (c + 1) b
  | AR_ActorBoundary => mkSummary t e c (b + 1)
  end.
Definition summarize (insertions : list ArcInsertion) : ArcSummary :=
  fold_left count_arc insertions (mkSummary (length insertions) 0 0 0).

(** The summary counts what the queries return. *)
Lemma summarize_counts insertions :
  summarize insertions = mkSummary (length insertions) (length (explicit_shared insertions))
    (length (closure_captures insertions)) (length (actor_boundary insertions))
  /\ (length insertions = length (explicit_shared insertions) + length (closure_captures insertions)
      + length (actor_boundary insertions))%nat.
Proof.
  assert (H : forall l t e c b, fold_left count_arc l (mkSummary t e c b)
    = mkSummary t (e + length (explicit_shared l)) (c + length (closure_captures l)) (b + length (actor_boundary l))).
  { intros l. induction l as [|[x sp r] l IH]; intros t e c b; cbn [fold_left]; [cbn; by rewrite !Nat.add_0_r|].
    destruct r; cbn [count_arc arc_reason]; rewrite IH;
      unfold explicit_shared, closure_captures, actor_boundary, filter_by_reason; rewrite !filter_cons; repeat case_decide; try done; cbn; f_equal; lia. }
  split; [apply H|]. clear H.
  induction insertions as [|[x sp r] l IH]; [done|].
  unfold explicit_shared, closure_captures, actor_boundary, filter_by_reason in *.
  rewrite !filter_cons. destruct r; cbn [arc_reason]; repeat case_decide; try done; cbn; rewrite IH; lia.
Qed.
