(* ===== verification/OwnPaths.v ===== *)
(** What a function does to its variables, independently of the analysis: the paths
    through a piece of code as sequences of events, and the state of a variable along a
    path. *)

From S2P Require Import Prelude Machine Utf8 Text Token Ast AstWalk OwnState.

(* ------------------------------------------------------------------ *)
(** ** Events and the state of a variable                              *)
(* ------------------------------------------------------------------ *)

(** A variable is read at a place, given away, assigned, or declared with or without a
    value; a scope is opened or closed; control leaves by [return], [throw], [break] or
    [continue]. *)
Inductive ev :=
| Ev_use (x : str) (span : Span)
| Ev_move (x : str)
| Ev_assign (x : str)
| Ev_define (x : str) (init : bool)
| Ev_push
| Ev_pop
| Ev_exit.

(** The variables of the name [x], by scope, the innermost first. *)
Abbreviation column := (list (option OwnershipState)).

Fixpoint set_first (s : OwnershipState) (c : column) : column :=
  match c with
  | [] => []
  | Some _ :: c => Some s :: c
  | None :: c => None :: set_first s c
  end.
(** The variable that the name means. *)
Fixpoint visible (c : column) : option OwnershipState :=
  match c with [] => None | Some s :: _ => Some s | None :: c => visible c end.

Section Machine.
Context (x : str).
Definition ev_step (c : column) (e : ev) : column :=
  match e with
  | Ev_use _ _ | Ev_exit => c
  | Ev_move y => if decide (y = x) then set_first OS_Moved c else c
  | Ev_assign y => if decide (y = x) then set_first OS_Owned c else c
  | Ev_define y init =>
      if decide (y = x) then
        match c with [] => [] | _ :: c => Some (if init then OS_Owned else OS_Uninitialized) :: c end
      else c
  | Ev_push => None :: c
  | Ev_pop => tail c
  end.
Definition run (t : list ev) (c : column) : column := fold_left ev_step t c.
Lemma run_app t u c : run (t ++ u) c = run u (run t c).
Proof. apply fold_left_app. Qed.
End Machine.

(* ------------------------------------------------------------------ *)
(** ** Sets of paths                                                   *)
(* ------------------------------------------------------------------ *)

Definition lang : Type := list ev -> Prop.
Definition just (u : list ev) : lang := fun t => t = u.
Definition seq (L1 L2 : lang) : lang := fun t => exists t1 t2, t = t1 ++ t2 /\ L1 t1 /\ L2 t2.
Definition alt (L1 L2 : lang) : lang := fun t => L1 t \/ L2 t.
Definition seqs (ls : list lang) : lang := foldr seq (just []) ls.
(** One of the sets, or nothing when there is none. *)
Definition one_of_paths (ls : list lang) : lang :=
  match ls with [] => just [] | _ => fun t => Exists (fun L : lang => L t) ls end.
Inductive star (L : lang) : lang :=
| star_nil : star L []
| star_cons t u : L t -> star L u -> star L (t ++ u).
Definition scoped (L : lang) : lang := seq (just [Ev_push]) (seq L (just [Ev_pop])).
Definition maybe {A} (f : A -> lang) (o : option A) : lang := from_option f (just []) o.

(* ------------------------------------------------------------------ *)
(** ** The paths through the code                                      *)
(* ------------------------------------------------------------------ *)

(** The names that a pattern binds. *)
Fixpoint pattern_names (p : Pattern) : list str :=
  match p with
  | P_Wildcard _ | P_Literal _ _ => []
  | P_Ident name _ _ => [name]
  | P_Tuple ps _ | P_Enum _ _ ps _ => flat_map pattern_names ps
  | P_Struct _ fields _ => flat_map (fun '(_, p) => pattern_names p) fields
  | P_Or ps _ => match ps with p :: _ => pattern_names p | [] => [] end
  end.
Definition defines (xs : list str) : list ev := (fun x => Ev_define x true) <$> xs.

(** The names that occur in a piece of code. *)
Definition occurs (n : node) : list str :=
  omap (fun n => match n with N_expr (E_Identifier x _) => Some x | _ => None end) (below n).
(** The names that are bound at a node, and those bound anywhere in a piece of code. *)
Definition bound_here (n : node) : list str :=
  match n with
  | N_stmt (S_Let name _ _ _ pattern _) => name :: from_option pattern_names [] pattern
  | N_stmt (S_For _ pattern _ _ _) => pattern_names pattern
  | N_stmt (S_Select branches _ _) => map (fun br => let 'mkBranch x _ _ _ := br in x) branches
  | N_stmt (S_TryCatch _ name _ _) => [name]
  | N_expr (E_Lambda params _ _ _) => param_name <$> params
  | N_expr (E_MatchExpr _ arms _) =>
      flat_map (fun arm => let 'mkArm pattern _ _ _ := arm in pattern_names pattern) arms
  | _ => []
  end.
Definition bound (n : node) : list str := flat_map bound_here (below n).
(** Making a closure reads the variables that its body uses from outside. *)
Definition captures (params : list Param) (body : Expr) (span : Span) : list ev :=
  (fun x => Ev_use x span) <$>
    filter (fun x => x ∉ (param_name <$> params) ++ bound (N_expr body)) (occurs (N_expr body)).

(** A value that is handed on: a variable can be given away. *)
Definition value_paths (paths : Expr -> lang) (e : Expr) : lang :=
  match e with
  | E_Identifier x span => alt (just [Ev_use x span]) (just [Ev_use x span; Ev_move x])
  | E_FieldAccess object _ span =>
      match object with E_Identifier x _ => just [Ev_use x span] | _ => paths object end
  | _ => paths e
  end.
(** The value of a [let] or of an assignment: a bare variable is shared. *)
Definition init_paths (paths : Expr -> lang) (e : Expr) : lang :=
  if is_identifier e then paths e else alt (paths e) (value_paths paths e).

Definition is_compound (op : AssignOp) : bool := match op with A_Assign => false | _ => true end.

(** Where control leaves, a path has the event [Ev_exit] and goes on in the order of the
    text; the body of a closure is run where the closure is made; an exception is raised
    at the end of a [try] block. *)
Definition leaving (L : lang) : lang := seq L (just [Ev_exit]).
Fixpoint expr_paths (e : Expr) {struct e} : lang :=
  match e with
  | E_Identifier x span => just [Ev_use x span]
  | E_FieldAccess e _ _ | E_UnaryOp _ e _ | E_Borrow e _ _ | E_Deref e _ | E_WeakExpr e _
  | E_Cast e _ _ | E_Await e _ => expr_paths e
  | E_FnCall callee args _ =>
      seq (expr_paths callee)
        (match callee, args with
         | E_Identifier name _, [e1; e2] =>
             seq (expr_paths e1)
               (if bool_decide (name = bytes "send") then value_paths expr_paths e2 else expr_paths e2)
         | _, _ => seqs (map expr_paths args)
         end)
  | E_MethodCall object _ args _ => seq (expr_paths object) (seqs (map expr_paths args))
  | E_StaticMethodCall _ _ es _ | E_ArrayLiteral es _ | E_TupleLiteral es _ => seqs (map expr_paths es)
  | E_BinaryOp _ e1 e2 _ | E_IndexAccess e1 e2 _ | E_PipeExpr e1 e2 _ => seq (expr_paths e1) (expr_paths e2)
  | E_MapLiteral entries _ => seqs (map (fun '(k, v) => seq (expr_paths k) (expr_paths v)) entries)
  | E_StructLiteral _ fields _ => seqs (map (fun '(_, v) => expr_paths v) fields)
  | E_Lambda params _ body span =>
      seq (just (captures params body span))
        (scoped (seq (just (defines (param_name <$> params))) (expr_paths body)))
  | E_IfExpr condition then_branch else_branch _ =>
      seq (expr_paths condition)
        (alt (scoped (block_paths then_branch)) (maybe (fun b => scoped (block_paths b)) else_branch))
  | E_MatchExpr subject arms _ =>
      seq (expr_paths subject)
        (one_of_paths (map (fun arm => let 'mkArm pattern guard body _ := arm in
           scoped (seq (just (defines (pattern_names pattern)))
             (seq (maybe expr_paths guard) (expr_paths body)))) arms))
  | E_SharedExpr e _ | E_MoveExpr e _ => value_paths expr_paths e
  | E_Block b _ | E_ComptimeBlock b _ | E_QuantumBlock b _ | E_UnsafeBlock b _ => scoped (block_paths b)
  | E_InterpolatedString parts _ =>
      seqs (map (fun p => match p with SP_Literal _ => just [] | SP_Expr e => expr_paths e end) parts)
  | E_RangeExpr start end_ _ _ => seq (maybe expr_paths start) (maybe expr_paths end_)
  | E_IntLiteral _ _ | E_FloatLiteral _ _ | E_StringLiteral _ _ | E_CharLiteral _ _ | E_BoolLiteral _ _
  | E_NoneLiteral _ => just []
  end
with stmt_paths (s : Stmt) {struct s} : lang :=
  match s with
  | S_Let name _ _ value pattern _ =>
      seq (maybe (init_paths expr_paths) value)
        (just (Ev_define name (bool_decide (is_Some value)) :: defines (from_option pattern_names [] pattern)))
  | S_Assign target op value _ =>
      seq (init_paths expr_paths value)
        (match target with
         | E_Identifier x span => just ((if is_compound op then [Ev_use x span] else []) ++ [Ev_assign x])
         | E_FieldAccess object _ _ => expr_paths object
         | _ => expr_paths target
         end)
  | S_Expr e _ => expr_paths e
  | S_Return value _ => leaving (maybe (value_paths expr_paths) value)
  | S_If condition then_block elif_clauses else_block _ =>
      seq (expr_paths condition)
        (alt (scoped (block_paths then_block))
          (foldr (fun '(c, b) rest => seq (expr_paths c) (alt (scoped (block_paths b)) rest))
            (maybe (fun b => scoped (block_paths b)) else_block) elif_clauses))
  | S_For _ pattern e body _ =>
      seq (expr_paths e) (star (scoped (seq (just (defines (pattern_names pattern))) (block_paths body))))
  | S_While c body _ => seq (expr_paths c) (star (seq (scoped (block_paths body)) (expr_paths c)))
  | S_Spawn e _ => value_paths expr_paths e
  | S_Throw e _ => leaving (value_paths expr_paths e)
  | S_Select branches timeout _ =>
      seq (seqs (map (fun br => let 'mkBranch _ channel _ _ := br in expr_paths channel) branches))
        (one_of_paths
          (map (fun br => let 'mkBranch x _ body _ := br in
             scoped (seq (just (defines [x])) (block_paths body))) branches
           ++ from_option (fun t => let 'mkTimeout d body _ := t in
                [seq (expr_paths d) (scoped (block_paths body))]) [] timeout))
  | S_TryCatch try_block catch_name catch_block _ =>
      seq (scoped (block_paths try_block))
        (alt (just []) (scoped (seq (just (defines [catch_name])) (block_paths catch_block))))
  | S_DenyBlock _ body _ => block_paths body
  | S_Break _ | S_Continue _ => just [Ev_exit]
  end
with block_paths (b : Block) {struct b} : lang :=
  let 'mkBlock ss _ := b in seqs (map stmt_paths ss).

(** A function, a method or a handler. *)
Definition function_paths (params : list Param) (body : Block) : lang :=
  scoped (seq (just (defines (param_name <$> params))) (block_paths body)).

(* ------------------------------------------------------------------ *)
(** ** Code that the analysis resolves the way the language does       *)
(* ------------------------------------------------------------------ *)

(** An expression that only reads variables. *)
Definition reads_here (n : node) : bool :=
  match n with
  | N_block _ | N_stmt _ => false
  | N_expr (E_SharedExpr _ _ | E_MoveExpr _ _ | E_Lambda _ _ _ _ | E_MatchExpr _ _ _) => false
  | N_expr (E_FnCall (E_Identifier name _) _ _) => negb (bool_decide (name = bytes "send"))
  | _ => true
  end.
Definition reads_only (e : Expr) : bool := everywhere reads_here (N_expr e).

(** The name [x] is not bound by a [for], by a [let] with a pattern or inside a closure,
    there is no [select], and the conditions that a path can pass more than once or
    without taking their branch only read variables. *)
Definition fair_here (x : str) (n : node) : bool :=
  match n with
  | N_stmt (S_Select _ _ _) => false
  | N_stmt (S_For _ pattern _ _ _) => negb (bool_decide (x ∈ pattern_names pattern))
  | N_stmt (S_Let _ _ _ _ (Some pattern) _) => negb (bool_decide (x ∈ pattern_names pattern))
  | N_stmt (S_If _ _ elifs _ _) => forallb (fun '(c, _) => reads_only c) elifs
  | N_stmt (S_While c _ _) => reads_only c
  | N_expr (E_Lambda _ _ body _) => negb (bool_decide (x ∈ bound (N_expr body)))
  | _ => true
  end.
Definition fair (x : str) (n : node) : bool := everywhere (fair_here x) n.

(* ------------------------------------------------------------------ *)
(** ** What a path leaves as it was                                    *)
(* ------------------------------------------------------------------ *)

(** Only the variable that the name means may have changed. *)
Inductive vframe : column -> column -> Prop :=
| vframe_nil : vframe [] []
| vframe_none c c' : vframe c c' -> vframe (None :: c) (None :: c')
| vframe_some s s' c : vframe (Some s :: c) (Some s' :: c).
(** Besides, the name may have been declared in the innermost scope. *)
Definition frame (c c' : column) : Prop :=
  match c, c' with
  | [], [] => True
  | Some _ :: c, o :: c' => is_Some o /\ c' = c
  | None :: c, _ :: c' => vframe c c'
  | _, _ => False
  end.
(** The same scopes know the name. *)
Definition shape : column -> column -> Prop := Forall2 (fun o o' => is_Some o <-> is_Some o').

Lemma vframe_refl c : vframe c c.
Proof. induction c as [|[] c IH]; by constructor. Qed.
Lemma vframe_trans c1 c2 c3 : vframe c1 c2 -> vframe c2 c3 -> vframe c1 c3.
Proof.
  intros H. revert c3. induction H as [|c c' H IH|s s' c]; intros c3 H3; inversion H3; subst; constructor; auto.
Qed.
Lemma vframe_frame c c' : vframe c c' -> frame c c'.
Proof. destruct 1; cbn; [done|done|]. split; [by eexists|done]. Qed.
Lemma cframe_refl c : frame c c.
Proof. apply vframe_frame, vframe_refl. Qed.
Lemma cframe_trans c1 c2 c3 : frame c1 c2 -> frame c2 c3 -> frame c1 c3.
Proof.
  destruct c1 as [|[s1|] c1], c2 as [|[s2|] c2], c3 as [|o3 c3]; cbn; try done.
  - intros [_ ->] [? ->]. done.
  - by intros [[? ?] _].
  - intros H [_ ->]. done.
  - apply vframe_trans.
Qed.
Lemma frame_nonempty c c' : frame c c' -> c <> [] -> c' <> [].
Proof. destruct c as [|[]], c'; cbn; done. Qed.
Lemma vframe_length c c' : vframe c c' -> length c' = length c.
Proof. induction 1; cbn; congruence. Qed.
Lemma frame_length c c' : frame c c' -> length c' = length c.
Proof.
  destruct c as [|[] c], c' as [|? c']; cbn; try done; [by intros [_ ->]|].
  intros H%vframe_length. congruence.
Qed.
Lemma frame_pop c c' : frame (None :: c) c' -> vframe c (tail c').
Proof. destruct c' as [|o c']; cbn; [done|]. by destruct o. Qed.
Lemma vframe_set_first s c : vframe c (set_first s c).
Proof. induction c as [|[] c IH]; cbn; by constructor. Qed.
Lemma vframe_shape c c' : vframe c c' -> shape c c'.
Proof.
  induction 1; constructor; try done.
  induction c; by constructor.
Qed.
Lemma shape_refl c : shape c c.
Proof. apply vframe_shape, vframe_refl. Qed.
Lemma shape_sym c c' : shape c c' -> shape c' c.
Proof. induction 1 as [|o o' c c' H]; constructor; [by rewrite H|done]. Qed.
Lemma shape_trans c1 c2 c3 : shape c1 c2 -> shape c2 c3 -> shape c1 c3.
Proof.
  intros H. revert c3. induction H as [|o o' c c' Ho H IH]; intros c3 H3; inversion H3; subst; constructor; [|by apply IH].
  by rewrite Ho.
Qed.

(** A set of paths, from one state of the variable to others. *)
Section Frames.
Context (x : str).
Definition vlocal (L : lang) : Prop := forall t c, L t -> c <> [] -> vframe c (run x t c).
Definition local (L : lang) : Prop := forall t c, L t -> c <> [] -> frame c (run x t c).
Definition inhabited (L : lang) : Prop := exists t, L t.

Lemma vlocal_local L : vlocal L -> local L.
Proof. intros H t c Ht Hc. by apply vframe_frame, H. Qed.
Lemma vlocal_just_use u : Forall (fun e => match e with Ev_use _ _ | Ev_exit => True | _ => False end) u -> vlocal (just u).
Proof.
  intros Hu t c -> _. replace (run x u c) with c; [apply vframe_refl|].
  revert c. induction Hu as [|e u He Hu IH]; intros c; [done|]. destruct e; done.
Qed.
Lemma vlocal_nil : vlocal (just []).
Proof. by apply vlocal_just_use. Qed.
Lemma local_defines u : Forall (fun e => match e with Ev_define _ _ => True | _ => False end) u -> local (just u).
Proof.
  intros Hu t c -> Hc. revert c Hc. induction Hu as [|e u He Hu IH]; intros c Hc; [apply cframe_refl|].
  destruct e as [| | |y init| | |]; try done. cbn.
  assert (Hd : frame c (ev_step x c (Ev_define y init))).
  { cbn. destruct (decide (y = x)); [|apply cframe_refl]. destruct c as [|[] c]; cbn; [done|by split; [eexists|]|apply vframe_refl]. }
  eapply cframe_trans; [exact Hd|]. apply IH. by eapply frame_nonempty.
Qed.
Lemma vlocal_seq L1 L2 : vlocal L1 -> vlocal L2 -> vlocal (seq L1 L2).
Proof.
  intros H1 H2 t c (t1 & t2 & -> & Ht1 & Ht2) Hc. rewrite run_app.
  pose proof (H1 t1 c Ht1 Hc) as Hf. eapply vframe_trans; [exact Hf|]. apply H2; [done|].
  eapply frame_nonempty; [by apply vframe_frame|done].
Qed.
Lemma local_seq L1 L2 : local L1 -> local L2 -> local (seq L1 L2).
Proof.
  intros H1 H2 t c (t1 & t2 & -> & Ht1 & Ht2) Hc. rewrite run_app.
  pose proof (H1 t1 c Ht1 Hc) as Hf. eapply cframe_trans; [exact Hf|]. apply H2; [done|].
  by eapply frame_nonempty.
Qed.
Lemma vlocal_alt L1 L2 : vlocal L1 -> vlocal L2 -> vlocal (alt L1 L2).
Proof. intros H1 H2 t c [Ht|Ht] Hc; auto. Qed.
Lemma vlocal_scoped L : local L -> vlocal (scoped L).
Proof.
  intros H t c (t1 & t2 & -> & -> & t3 & t4 & -> & Ht3 & ->) Hc.
  rewrite !run_app. cbn. apply frame_pop, H; done.
Qed.
Lemma vlocal_seqs Ls : Forall vlocal Ls -> vlocal (seqs Ls).
Proof. induction 1; [apply vlocal_nil|by apply vlocal_seq]. Qed.
Lemma local_seqs Ls : Forall local Ls -> local (seqs Ls).
Proof. induction 1; [apply vlocal_local, vlocal_nil|by apply local_seq]. Qed.
Lemma vlocal_one_of Ls : Forall vlocal Ls -> vlocal (one_of_paths Ls).
Proof.
  intros HLs. destruct Ls as [|L Ls]; [apply vlocal_nil|]. intros t c Ht Hc.
  apply Exists_exists in Ht as (L' & HL' & Ht). rewrite Forall_forall in HLs. by apply (HLs L').
Qed.
Lemma vlocal_star L : vlocal L -> vlocal (star L).
Proof.
  intros H t c Ht. revert c. induction Ht as [|t u Ht Hu IH]; intros c Hc; [apply vframe_refl|].
  rewrite run_app. pose proof (H t c Ht Hc) as Hf. eapply vframe_trans; [exact Hf|]. apply IH.
  eapply frame_nonempty; [by apply vframe_frame|done].
Qed.

Lemma inhabited_just u : inhabited (just u).
Proof. by exists u. Qed.
Lemma inhabited_seq L1 L2 : inhabited L1 -> inhabited L2 -> inhabited (seq L1 L2).
Proof. intros [t1 H1] [t2 H2]. exists (t1 ++ t2), t1, t2. done. Qed.
Lemma inhabited_seqs Ls : Forall inhabited Ls -> inhabited (seqs Ls).
Proof. induction 1; [apply inhabited_just|by apply inhabited_seq]. Qed.
Lemma inhabited_scoped L : inhabited L -> inhabited (scoped L).
Proof. intros H. apply inhabited_seq; [apply inhabited_just|]. apply inhabited_seq; [done|apply inhabited_just]. Qed.
Lemma inhabited_alt_l L1 L2 : inhabited L1 -> inhabited (alt L1 L2).
Proof. intros [t H]. exists t. by left. Qed.
Lemma inhabited_one_of Ls : Forall inhabited Ls -> inhabited (one_of_paths Ls).
Proof. destruct 1 as [|L Ls [t H] _]; [apply inhabited_just|]. exists t. by left. Qed.
End Frames.

(* ------------------------------------------------------------------ *)
(** ** The paths through the code                                      *)
(* ------------------------------------------------------------------ *)

Definition vgood (x : str) (L : lang) : Prop := inhabited L /\ vlocal x L.
Definition good (x : str) (L : lang) : Prop := inhabited L /\ local x L.

Section Good.
Context (x : str).
Lemma vgood_good L : vgood x L -> good x L.
Proof. intros [? ?]. split; [done|by apply vlocal_local]. Qed.
Lemma vgood_nil : vgood x (just []).
Proof. split; [apply inhabited_just|apply vlocal_nil]. Qed.
Lemma vgood_use y span : vgood x (just [Ev_use y span]).
Proof. split; [apply inhabited_just|]. apply vlocal_just_use. by repeat constructor. Qed.
Lemma vgood_exit : vgood x (just [Ev_exit]).
Proof. split; [apply inhabited_just|]. apply vlocal_just_use. by repeat constructor. Qed.
Lemma vgood_event e : match e with Ev_use _ _ | Ev_move _ | Ev_assign _ => vgood x (just [e]) | _ => True end.
Proof.
  destruct e as [y sp|y|y| | | |]; try done; (split; [apply inhabited_just|]); intros t c -> _; cbn;
    try destruct (decide (y = x)); apply vframe_refl || apply vframe_set_first.
Qed.
Lemma vgood_seq L1 L2 : vgood x L1 -> vgood x L2 -> vgood x (seq L1 L2).
Proof. intros [? ?] [? ?]. split; [by apply inhabited_seq|by apply vlocal_seq]. Qed.
Lemma good_seq L1 L2 : good x L1 -> good x L2 -> good x (seq L1 L2).
Proof. intros [? ?] [? ?]. split; [by apply inhabited_seq|by apply local_seq]. Qed.
Lemma vgood_alt L1 L2 : vgood x L1 -> vgood x L2 -> vgood x (alt L1 L2).
Proof. intros [? ?] [? ?]. split; [by apply inhabited_alt_l|by apply vlocal_alt]. Qed.
Lemma vgood_scoped L : good x L -> vgood x (scoped L).
Proof. intros [? ?]. split; [by apply inhabited_scoped|by apply vlocal_scoped]. Qed.
Lemma vgood_seqs Ls : Forall (vgood x) Ls -> vgood x (seqs Ls).
Proof. induction 1; [apply vgood_nil|by apply vgood_seq]. Qed.
Lemma good_seqs Ls : Forall (good x) Ls -> good x (seqs Ls).
Proof. induction 1; [apply vgood_good, vgood_nil|by apply good_seq]. Qed.
Lemma vgood_one_of Ls : Forall (vgood x) Ls -> vgood x (one_of_paths Ls).
Proof.
  intros H. split; [apply inhabited_one_of|apply vlocal_one_of]; (eapply Forall_impl; [exact H|]); by intros ? [? ?].
Qed.
Lemma vgood_star L : vgood x L -> vgood x (star L).
Proof. intros [_ H]. split; [exists []; constructor|by apply vlocal_star]. Qed.
Lemma good_defines u : Forall (fun e => match e with Ev_define _ _ => True | _ => False end) u -> good x (just u).
Proof. split; [apply inhabited_just|by apply local_defines]. Qed.
Lemma good_defines_names ys : good x (just (defines ys)).
Proof. apply good_defines. unfold defines. induction ys; by constructor. Qed.
Lemma good_define y b : good x (just [Ev_define y b]).
Proof. apply good_defines. by repeat constructor. Qed.
Lemma vgood_maybe {A} (f : A -> lang) o :
  match o with Some y => vgood x (f y) | None => True end -> vgood x (maybe f o).
Proof. destruct o; [done|]. intros _. apply vgood_nil. Qed.
Lemma vgood_captures params body span : vgood x (just (captures params body span)).
Proof.
  split; [apply inhabited_just|]. apply vlocal_just_use. unfold captures.
  induction (filter _ _); by constructor.
Qed.
Lemma vgood_value paths e : vgood x (paths e) ->
  (forall object field span, e = E_FieldAccess object field span -> paths e = paths object) ->
  vgood x (value_paths paths e).
Proof.
  intros He Hf. destruct e; try done; cbn.
  - apply vgood_alt; [apply vgood_use|]. split; [apply inhabited_just|]. intros t c -> _. cbn.
    destruct (decide _); [apply vframe_set_first|apply vframe_refl].
  - rewrite (Hf _ _ _ eq_refl) in He. destruct e; try done. apply vgood_use.
Qed.
Lemma vgood_init paths e : vgood x (paths e) ->
  (forall object field span, e = E_FieldAccess object field span -> paths e = paths object) ->
  vgood x (init_paths paths e).
Proof. intros He Hf. unfold init_paths. destruct (is_identifier e); [done|]. apply vgood_alt; [done|]. by apply vgood_value. Qed.
End Good.

Lemma vgood_leaving x L : vgood x L -> vgood x (leaving L).
Proof. intros H. apply vgood_seq; [done|apply vgood_exit]. Qed.

Create HintDb paths.
#[export] Hint Resolve vgood_nil vgood_use vgood_exit vgood_leaving vgood_seq vgood_alt vgood_scoped vgood_seqs vgood_one_of vgood_star
  good_seq good_defines_names good_define vgood_good vgood_captures good_seqs : paths.

Definition node_paths (n : node) : lang :=
  match n with N_expr e => expr_paths e | N_stmt s => stmt_paths s | N_block b => block_paths b end.
Definition good_node (x : str) (n : node) : Prop :=
  match n with N_expr e => vgood x (expr_paths e) | _ => good x (node_paths n) end.

Lemma good_nodes_exprs x es : Forall (good_node x) (map N_expr es) -> Forall (vgood x) (map expr_paths es).
Proof. intros H. induction es as [|e es IH]; cbn in *; [constructor|]. apply Forall_cons_1 in H as [? ?]. constructor; auto. Qed.

Ltac split_nodes :=
  repeat match goal with
  | H : Forall _ [] |- _ => clear H
  | H : Forall _ (_ :: _) |- _ => apply Forall_cons_1 in H as [? H]
  | H : Forall _ (_ ++ _) |- _ => apply Forall_app in H as [? H]
  | H : Forall _ (opt _ ?o) |- _ => destruct o; cbn [opt] in H
  end.

Lemma vgood_elifs x final elifs :
  Forall (good_node x) (flat_map (fun '(c, b) => [N_expr c; N_block b]) elifs) -> vgood x final ->
  vgood x (foldr (fun '(c, b) rest => seq (expr_paths c) (alt (scoped (block_paths b)) rest)) final elifs).
Proof.
  intros H Hf. induction elifs as [|[c b] l IH]; cbn in *; [done|]. split_nodes. cbn in *. eauto 10 with paths.
Qed.

Lemma paths_good x n : good_node x n.
Proof.
  induction n as [n IH] using node_induction. destruct n as [e|s|[ss sp]].
  - destruct e; cbn [children expr_children] in IH; cbn [good_node expr_paths maybe from_option];
      split_nodes; cbn [good_node node_paths] in *; eauto 10 using good_nodes_exprs with paths.
    + apply vgood_seqs. induction parts as [|[] parts IHp]; cbn in *; split_nodes; constructor; auto with paths.
    + apply vgood_seq; [done|]. pose proof (good_nodes_exprs x args IH) as Hargs.
      destruct e; try by apply vgood_seqs. destruct args as [|e1 [|e2 [|]]]; try by apply vgood_seqs.
      cbn in Hargs. split_nodes. apply vgood_seq; [done|]. destruct (bool_decide _); [|done].
      apply vgood_value; [done|]. by intros ? ? ? ->.
    + apply vgood_seqs. induction entries as [|[] l IHl]; cbn in *; split_nodes; constructor; auto with paths.
    + apply vgood_seqs. induction fields as [|[] l IHl]; cbn in *; split_nodes; constructor; auto with paths.
    + apply vgood_seq; [done|]. apply vgood_one_of.
      induction arms as [|[pattern guard body sp] l IHl]; cbn in *; split_nodes; constructor; auto;
        cbn in *; eauto 10 with paths.
    + apply vgood_value; [done|]. by intros ? ? ? ->.
    + apply vgood_value; [done|]. by intros ? ? ? ->.
  - assert (Hvalue : forall e, vgood x (expr_paths e) -> vgood x (value_paths expr_paths e)).
    { intros e He. apply vgood_value; [done|]. by intros ? ? ? ->. }
    assert (Hinit : forall e, vgood x (expr_paths e) -> vgood x (init_paths expr_paths e)).
    { intros e He. apply vgood_init; [done|]. by intros ? ? ? ->. }
    assert (Hdef : forall y b l, good x (just (Ev_define y b :: defines l))).
    { intros y b l. apply good_defines. constructor; [done|]. unfold defines. induction l; by constructor. }
    destruct s; cbn [children stmt_children] in IH; cbn [good_node node_paths stmt_paths maybe from_option];
      split_nodes; cbn [good_node node_paths] in *; eauto 10 with paths.
    + apply vgood_good, vgood_seq; [by apply Hinit|]. destruct target; try done.
      destruct (is_compound op); cbn; [|apply (vgood_event x (Ev_assign _))].
      split; [apply inhabited_just|]. intros t c -> _. cbn.
      destruct (decide _); [apply vframe_set_first|apply vframe_refl].
    + apply vgood_good, vgood_seq, vgood_alt; [done|by auto with paths|]. apply vgood_elifs; [done|]. cbn. by auto with paths.
    + apply vgood_good, vgood_seq, vgood_alt; [done|by auto with paths|]. apply vgood_elifs; [done|]. cbn. by auto with paths.
    + apply vgood_good, vgood_seq.
      * apply vgood_seqs. induction branches as [|[y ch body sp] l IHl]; cbn in *; split_nodes; constructor; auto.
      * apply vgood_one_of. apply Forall_app. split.
        -- induction branches as [|[y ch body sp] l IHl]; cbn in *; split_nodes; constructor; auto;
             cbn in *; eauto 10 with paths.
        -- destruct timeout as [[d body sp]|]; cbn in *; split_nodes; constructor; cbn in *; eauto with paths.
  - cbn in IH |- *. apply good_seqs. induction ss as [|s ss IHs]; cbn in *; split_nodes; constructor; auto.
Qed.
Lemma expr_good x e : vgood x (expr_paths e).
Proof. apply (paths_good x (N_expr e)). Qed.
Lemma stmt_good x s : good x (stmt_paths s).
Proof. apply (paths_good x (N_stmt s)). Qed.
Lemma block_good x b : good x (block_paths b).
Proof. apply (paths_good x (N_block b)). Qed.
Lemma value_good x e : vgood x (value_paths expr_paths e).
Proof. apply vgood_value; [apply expr_good|]. by intros ? ? ? ->. Qed.
#[export] Hint Resolve expr_good stmt_good block_good value_good : paths.

(** What only reads variables leaves them as they were. *)
Definition silent (x : str) (L : lang) : Prop := forall t c, L t -> run x t c = c.
Lemma silent_just_use x y span : silent x (just [Ev_use y span]).
Proof. by intros t c ->. Qed.
Lemma silent_exit x : silent x (just [Ev_exit]).
Proof. by intros t c ->. Qed.
Lemma silent_nil x : silent x (just []).
Proof. by intros t c ->. Qed.
Lemma silent_seq x L1 L2 : silent x L1 -> silent x L2 -> silent x (seq L1 L2).
Proof. intros H1 H2 t c (t1 & t2 & -> & Ht1 & Ht2). by rewrite run_app, (H1 t1), (H2 t2). Qed.
Lemma silent_seqs x Ls : Forall (silent x) Ls -> silent x (seqs Ls).
Proof. induction 1; [apply silent_nil|by apply silent_seq]. Qed.
#[export] Hint Resolve silent_just_use silent_nil silent_seq silent_seqs : paths.

Definition silent_node (x : str) (n : node) : Prop :=
  match n with N_expr e => reads_only e = true -> silent x (expr_paths e) | _ => True end.
Lemma reads_only_children e :
  reads_only e = true -> Forall (fun n => match n with N_expr e => reads_only e = true | _ => False end) (expr_children e).
Proof.
  unfold reads_only. rewrite everywhere_children, andb_true_iff. intros [_ H]. cbn in H.
  apply Forall_forall. intros n Hn. rewrite forallb_forall in H. apply list_elem_of_In, H in Hn.
  destruct n; [done| |]; rewrite everywhere_children in Hn; cbn in Hn; done.
Qed.
Lemma silent_exprs x es :
  Forall (silent_node x) (map N_expr es) ->
  Forall (fun n => match n with N_expr e => reads_only e = true | _ => False end) (map N_expr es) ->
  Forall (silent x) (map expr_paths es).
Proof. induction es as [|e es IH]; cbn; intros H1 H2; split_nodes; constructor; auto. Qed.
Lemma reads_only_silent x n : silent_node x n.
Proof.
  induction n as [n IH] using node_induction. destruct n as [e| |]; try done. intros He.
  pose proof (reads_only_children e He) as Hc.
  unfold reads_only in He. rewrite everywhere_children, andb_true_iff in He. destruct He as [Hhere _].
  destruct e as [| | |parts| | | | | | | | |callee args| | | | |entries| fields ff| | | |start end_| | | | | | | | | | | |];
    try (destruct start, end_);
    cbn [children expr_children opt app] in IH, Hc; cbn [expr_paths maybe from_option]; split_nodes; try done;
    cbn [silent_node] in *; eauto 8 using silent_exprs with paths.
  - apply silent_seqs. induction parts as [|[] l IHl]; cbn in IH, Hc |- *; split_nodes; constructor; auto with paths.
  - apply silent_seq; [auto|]. pose proof (silent_exprs x args IH Hc) as Hargs.
    destruct callee; try by apply silent_seqs. destruct args as [|e1 [|e2 [|]]]; try by apply silent_seqs.
    cbn in Hargs, Hhere. split_nodes. apply silent_seq; [done|].
    destruct (bool_decide _); [done|]. done.
  - apply silent_seqs. induction entries as [|[] l IHl]; cbn in IH, Hc |- *; split_nodes; constructor; auto with paths.
  - apply silent_seqs. induction ff as [|[] l IHl]; cbn in IH, Hc |- *; split_nodes; constructor; auto with paths.
Qed.
Lemma reads_only_paths x e : reads_only e = true -> silent x (expr_paths e).
Proof. apply (reads_only_silent x (N_expr e)). Qed.

(* ------------------------------------------------------------------ *)
(** ** Where control leaves                                            *)
(* ------------------------------------------------------------------ *)

(** The paths that nothing leaves early. *)
Definition live (L : lang) : lang := fun t => L t /\ Ev_exit ∉ t.

Lemma live_seq L1 L2 t : live (seq L1 L2) t <-> seq (live L1) (live L2) t.
Proof.
  split.
  - intros [(t1 & t2 & -> & H1 & H2) Ht]. apply not_elem_of_app in Ht as [N1 N2].
    exists t1, t2. by split_and!.
  - intros (t1 & t2 & -> & [H1 N1] & [H2 N2]). split; [by exists t1, t2|]. by rewrite not_elem_of_app.
Qed.
Lemma live_just u t : Ev_exit ∉ u -> live (just u) t <-> just u t.
Proof. intros Hu. split; [by intros [? _]|]. by intros ->. Qed.
Lemma live_mono (L L' : lang) t : (forall t, L t -> L' t) -> live L t -> live L' t.
Proof. intros HL [Ht Hn]. split; [by apply HL|done]. Qed.
Lemma live_vlocal x L : vlocal x L -> vlocal x (live L).
Proof. intros H t c [Ht _]. by apply H. Qed.

(** Code without [return], [throw], [break] and [continue]. *)
Definition exit_here (n : node) : bool :=
  match n with N_stmt (S_Return _ _ | S_Throw _ _ | S_Break _ | S_Continue _) => true | _ => false end.
Definition no_exit (n : node) : bool := everywhere (fun n => negb (exit_here n)) n.

(** Code that control passes through, whatever its guards do: it leaves early only from
    the branches of an [if] that are not the last, or when there is no [else]. *)
Fixpoint passes (s : Stmt) : bool :=
  match s with
  | S_If c b elifs b2 _ =>
      no_exit (N_expr c) && forallb (fun '(c, b) => no_exit (N_expr c) && leaves b) elifs && leaves b
      && from_option passes_block true b2
  | S_For _ _ e b _ | S_While e b _ => no_exit (N_expr e) && passes_block b
  | S_TryCatch b1 _ b2 _ => passes_block b1 && passes_block b2
  | S_DenyBlock _ b _ => passes_block b
  | _ => no_exit (N_stmt s)
  end
with passes_block (b : Block) : bool := let 'mkBlock ss _ := b in forallb passes ss
(** Code that leaves early at its end or from such branches only. *)
with leaves_at (s : Stmt) : bool :=
  match s with
  | S_Return value _ => from_option (fun e => no_exit (N_expr e)) true value
  | S_Throw e _ => no_exit (N_expr e)
  | S_Break _ | S_Continue _ => true
  | S_If c b elifs b2 _ =>
      no_exit (N_expr c) && forallb (fun '(c, b) => no_exit (N_expr c) && leaves b) elifs && leaves b
      && from_option leaves true b2
  | S_DenyBlock _ b _ => leaves b
  | _ => false
  end
with leaves (b : Block) : bool :=
  let 'mkBlock ss _ := b in
  (fix last_leaves (ss : list Stmt) : bool :=
    match ss with
    | [] => true
    | [s] => passes s || leaves_at s
    | s :: ss => passes s && last_leaves ss
    end) ss.

(** No path of such code leaves. *)
Definition stays (L : lang) : Prop := forall t, L t -> Ev_exit ∉ t.
Lemma stays_just u : Ev_exit ∉ u -> stays (just u).
Proof. by intros Hu t ->. Qed.
Lemma stays_uses u : Forall (fun e => match e with Ev_exit => False | _ => True end) u -> stays (just u).
Proof. intros Hu. apply stays_just. intros Hin. rewrite Forall_forall in Hu. by apply (Hu _ Hin). Qed.
Lemma stays_seq L1 L2 : stays L1 -> stays L2 -> stays (seq L1 L2).
Proof. intros H1 H2 t (t1 & t2 & -> & ?%H1 & ?%H2). by rewrite not_elem_of_app. Qed.
Lemma stays_alt L1 L2 : stays L1 -> stays L2 -> stays (alt L1 L2).
Proof. by intros H1 H2 t [?%H1|?%H2]. Qed.
Lemma stays_seqs Ls : Forall stays Ls -> stays (seqs Ls).
Proof. induction 1; [by apply stays_uses|by apply stays_seq]. Qed.
Lemma stays_scoped L : stays L -> stays (scoped L).
Proof. intros H. apply stays_seq, stays_seq; [by apply stays_uses; repeat constructor|done|by apply stays_uses; repeat constructor]. Qed.
Lemma stays_star L : stays L -> stays (star L).
Proof. intros H t. induction 1; [by apply not_elem_of_nil|]. rewrite not_elem_of_app. auto. Qed.
Lemma stays_one_of Ls : Forall stays Ls -> stays (one_of_paths Ls).
Proof.
  intros H. destruct Ls as [|L Ls]; [by apply stays_uses|]. intros t Ht.
  apply Exists_exists in Ht as (L' & HL' & Ht). rewrite Forall_forall in H. by apply (H L').
Qed.
Lemma stays_defines ys : stays (just (defines ys)).
Proof. apply stays_uses. unfold defines. induction ys; by constructor. Qed.
Lemma stays_define y b ys : stays (just (Ev_define y b :: defines ys)).
Proof. apply stays_uses. constructor; [done|]. unfold defines. induction ys; by constructor. Qed.
Lemma stays_define1 y b : stays (just [Ev_define y b]).
Proof. apply (stays_define y b []). Qed.
Lemma stays_captures params body span : stays (just (captures params body span)).
Proof. apply stays_uses. unfold captures. induction (filter _ _); by constructor. Qed.
Lemma stays_use y span : stays (just [Ev_use y span]).
Proof. by apply stays_uses; repeat constructor. Qed.
Lemma stays_nil : stays (just []).
Proof. by apply stays_uses. Qed.
Lemma stays_maybe {A} (f : A -> lang) o : match o with Some y => stays (f y) | None => True end -> stays (maybe f o).
Proof. destruct o; [done|]. intros _. apply stays_nil. Qed.
Lemma stays_value e : stays (expr_paths e) -> stays (value_paths expr_paths e).
Proof.
  intros He. destruct e; try done; cbn.
  - by apply stays_alt; apply stays_uses; repeat constructor.
  - cbn in He. destruct e; try done. apply stays_use.
Qed.
Lemma stays_init e : stays (expr_paths e) -> stays (init_paths expr_paths e).
Proof. intros He. unfold init_paths. destruct (is_identifier e); [done|]. by apply stays_alt, stays_value. Qed.
#[export] Hint Resolve stays_seq stays_alt stays_seqs stays_scoped stays_star stays_one_of stays_defines stays_define stays_define1
  stays_captures stays_use stays_nil stays_value stays_init : paths.

Lemma no_exit_children n :
  no_exit n = true -> exit_here n = false /\ Forall (fun c => no_exit c = true) (children n).
Proof.
  unfold no_exit. rewrite everywhere_children, andb_true_iff, negb_true_iff. intros [H1 H2]. split; [done|].
  by apply Forall_forall; intros c Hc; rewrite forallb_forall in H2; apply H2, list_elem_of_In.
Qed.
Lemma stays_exprs es : Forall (fun n => stays (node_paths n)) (map N_expr es) -> Forall stays (map expr_paths es).
Proof. intros H. induction es as [|e es IH]; cbn in *; [constructor|]. apply Forall_cons_1 in H as [? ?]. constructor; auto. Qed.
Lemma stays_elifs final elifs :
  Forall (fun n => stays (node_paths n)) (flat_map (fun '(c, b) => [N_expr c; N_block b]) elifs) -> stays final ->
  stays (foldr (fun '(c, b) rest => seq (expr_paths c) (alt (scoped (block_paths b)) rest)) final elifs).
Proof.
  intros H Hf. induction elifs as [|[c b] l IH]; cbn in *; [done|]. split_nodes. cbn in *. eauto 10 with paths.
Qed.
Lemma no_exit_stays n : no_exit n = true -> stays (node_paths n).
Proof.
  induction n as [n IH] using node_induction. intros Hn. apply no_exit_children in Hn as [Hhere Hch].
  assert (H : Forall (fun n => stays (node_paths n)) (children n)).
  { clear Hhere. induction IH as [|c l Hc Hl IHl]; [constructor|]. apply Forall_cons_1 in Hch as [? ?]. constructor; auto. }
  clear IH Hch. destruct n as [e|s|[ss sp]].
  - destruct e; cbn [children expr_children] in H; cbn [node_paths expr_paths maybe from_option];
      split_nodes; cbn [node_paths] in *; eauto 10 using stays_exprs with paths.
    + apply stays_seqs. induction parts as [|[] parts IHp]; cbn in *; split_nodes; constructor; auto with paths.
    + apply stays_seq; [done|]. pose proof (stays_exprs args H) as Hargs.
      destruct e; try by apply stays_seqs. destruct args as [|e1 [|e2 [|]]]; try by apply stays_seqs.
      cbn in Hargs. split_nodes. apply stays_seq; [done|]. destruct (bool_decide _); [|done]. by apply stays_value.
    + apply stays_seqs. induction entries as [|[] l IHl]; cbn in *; split_nodes; constructor; auto with paths.
    + apply stays_seqs. induction fields as [|[] l IHl]; cbn in *; split_nodes; constructor; auto with paths.
    + apply stays_seq; [done|]. apply stays_one_of.
      induction arms as [|[pattern guard body sp] l IHl]; cbn in *; split_nodes; constructor; auto;
        cbn in *; eauto 10 with paths.
  - destruct s; try done; cbn [children stmt_children] in H; cbn [node_paths stmt_paths maybe from_option];
      split_nodes; cbn [node_paths] in *; eauto 10 with paths.
    + apply stays_seq; [by apply stays_init|]. destruct target; try done.
      destruct (is_compound op); by apply stays_uses; repeat constructor.
    + apply stays_seq, stays_alt; [done|by auto with paths|]. apply stays_elifs; [done|]. cbn. by auto with paths.
    + apply stays_seq, stays_alt; [done|by auto with paths|]. apply stays_elifs; [done|]. cbn. by auto with paths.
    + apply stays_seq.
      * apply stays_seqs. induction branches as [|[y ch body sp] l IHl]; cbn in *; split_nodes; constructor; auto.
      * apply stays_one_of. apply Forall_app. split.
        -- induction branches as [|[y ch body sp] l IHl]; cbn in *; split_nodes; constructor; auto;
             cbn in *; eauto 10 with paths.
        -- destruct timeout as [[d body sp]|]; cbn in *; split_nodes; constructor; cbn in *; eauto with paths.
  - cbn in H |- *. apply stays_seqs. induction ss as [|s ss IHs]; cbn in *; split_nodes; constructor; auto.
Qed.
Lemma live_stays L t : stays L -> live L t <-> L t.
Proof. intros H. split; [by intros [? _]|]. intros Ht. split; [done|by apply H]. Qed.

(* ------------------------------------------------------------------ *)
(** ** What a column knows of the paths so far                         *)
(* ------------------------------------------------------------------ *)

(** The states that lead to a report. *)
Definition bad (s : OwnershipState) : Prop := s = OS_Moved \/ s = OS_Uninitialized.

Lemma some_none {A} (y : A) : (is_Some (Some y) <-> is_Some (@None A)) -> False.
Proof. intros [H _]. destruct H as [? [=]]. by eexists. Qed.
Lemma none_some {A} (y : A) : (is_Some (@None A) <-> is_Some (Some y)) -> False.
Proof. intros [_ H]. destruct H as [? [=]]. by eexists. Qed.

Section Knows.
Context (x : str) (c0 : column).

(** [R] are the paths so far, from the column [c0].  Every bad state of the column [c] is
    the one of some path. *)
Record knows (R : lang) (c : column) : Prop := {
  k_inhabited : inhabited R;
  k_shape : forall t, R t -> shape (run x t c0) c;
  k_bad : forall i s, bad s -> c !! i = Some (Some s) -> exists t, R t /\ run x t c0 !! i = Some (Some s)
}.

Lemma shape_nonempty c c' : shape c c' -> c <> [] -> c' <> [].
Proof. by destruct 1. Qed.
Lemma knows_equiv R R' c : (forall t, R t <-> R' t) -> knows R c -> knows R' c.
Proof.
  intros HR [[t Ht] Hs Hb]. split; [exists t; by apply HR|intros u Hu; by apply Hs, HR|].
  intros i s Hi Hc. destruct (Hb i s Hi Hc) as (u & Hu & Hr). exists u. by rewrite <-HR.
Qed.
(** More paths of the same shape. *)
Lemma knows_more R R' c : (forall t, R t -> R' t) -> (forall t, R' t -> shape (run x t c0) c) -> knows R c -> knows R' c.
Proof.
  intros HR Hs [[t Ht] _ Hb]. split; [exists t; by apply HR|done|].
  intros i s Hi Hc. destruct (Hb i s Hi Hc) as (u & Hu & Hr). exists u. by split; [apply HR|].
Qed.
(** The named variable is known to be owned. *)
Lemma knows_owned R c : knows R c -> knows R (set_first OS_Owned c).
Proof.
  intros [Hi Hs Hb]. split; [done| |].
  - intros t Ht. eapply shape_trans; [by apply Hs|]. apply vframe_shape, vframe_set_first.
  - intros i s Hbad Hc. apply Hb; [done|]. revert i Hc. clear -Hbad.
    induction c as [|[s'|] c IH]; intros [|i] Hc; cbn in *; try done.
    + injection Hc as <-. by destruct Hbad.
    + by apply IH.
Qed.

Lemma shape_set_first s c c' : shape c c' -> shape (set_first s c) (set_first s c').
Proof.
  induction 1 as [|o o' c c' Ho Hc IH]; [constructor|].
  destruct o, o'; cbn; try (by destruct (some_none _ Ho)); try (by destruct (none_some _ Ho)); constructor; try done.
Qed.
Lemma step_shape c c' e : shape c c' -> shape (ev_step x c e) (ev_step x c' e).
Proof.
  intros H. destruct e as [y sp|y|y|y b| | |]; cbn; try done.
  - destruct (decide _); [by apply shape_set_first|done].
  - destruct (decide _); [by apply shape_set_first|done].
  - destruct (decide _); [|done]. inversion H; subst; constructor; [by split; eexists|done].
  - constructor; [|done]. by split; intros [].
  - inversion H; subst; [constructor|done].
Qed.
Lemma set_first_lookup s c c' i v :
  shape c' c -> set_first s c !! i = Some (Some v) -> set_first s c' !! i = Some (Some v) \/ c !! i = Some (Some v)
    /\ (c' !! i = Some (Some v) -> set_first s c' !! i = Some (Some v)).
Proof.
  intros H. revert i. induction H as [|o o' c' c Ho Hc IH]; intros i Hi; [done|].
  destruct o as [w|], o' as [w'|]; try (by destruct (some_none _ Ho)); try (by destruct (none_some _ Ho)).
  - destruct i as [|i]; cbn in *; [by left|right; done].
  - destruct i as [|i]; cbn in *; [done|]. by apply IH.
Qed.

Lemma knows_event R c e : knows R c -> knows (seq R (just [e])) (ev_step x c e).
Proof.
  intros [[t0 Ht0] Hs Hb].
  assert (Hin : forall t, R t -> seq R (just [e]) (t ++ [e])) by (intros t Ht; by exists t, [e]).
  split.
  - exists (t0 ++ [e]). by apply Hin.
  - intros t (t1 & t2 & -> & H1 & ->). rewrite run_app. by apply step_shape, Hs.
  - intros i s Hbad Hi.
    assert (Hsame : c !! i = Some (Some s) -> (forall t, R t -> run x t c0 !! i = Some (Some s) -> ev_step x (run x t c0) e !! i = Some (Some s)) ->
      exists t, seq R (just [e]) t /\ run x t c0 !! i = Some (Some s)).
    { intros Hc Hk. destruct (Hb i s Hbad Hc) as (t & Ht & Hr). exists (t ++ [e]). split; [by apply Hin|].
      rewrite run_app. by apply Hk. }
    assert (Hany : ev_step x (run x t0 c0) e !! i = Some (Some s) -> exists t, seq R (just [e]) t /\ run x t c0 !! i = Some (Some s)).
    { intros Hr. exists (t0 ++ [e]). split; [by apply Hin|]. by rewrite run_app. }
    destruct e as [y sp|y|y|y b| | |]; cbn in *.
    + by apply Hsame.
    + destruct (decide (y = x)); [|by apply Hsame].
      destruct (set_first_lookup OS_Moved c (run x t0 c0) i s (Hs t0 Ht0) Hi) as [Hl|[Hc _]]; [by apply Hany|].
      apply Hsame; [done|]. intros t Ht Hr.
      destruct (set_first_lookup OS_Moved c (run x t c0) i s (Hs t Ht) Hi) as [?|[_ ?]]; auto.
    + destruct (decide (y = x)); [|by apply Hsame].
      destruct (set_first_lookup OS_Owned c (run x t0 c0) i s (Hs t0 Ht0) Hi) as [Hl|[Hc _]]; [by apply Hany|].
      apply Hsame; [done|]. intros t Ht Hr.
      destruct (set_first_lookup OS_Owned c (run x t c0) i s (Hs t Ht) Hi) as [?|[_ ?]]; auto.
    + destruct (decide (y = x)); [|by apply Hsame].
      pose proof (Hs t0 Ht0) as H0. destruct c as [|o c]; [done|]. destruct i as [|i]; cbn in Hi.
      * apply Hany. inversion H0; subst. done.
      * apply Hsame; [done|]. intros t Ht Hr. by destruct (run x t c0).
    + destruct i as [|i]; [done|]. cbn in Hi. destruct (Hb i s Hbad Hi) as (t & Ht & Hr).
      exists (t ++ [Ev_push]). split; [by apply Hin|]. by rewrite run_app.
    + destruct (Hb (S i) s Hbad) as (t & Ht & Hr); [by destruct c|].
      exists (t ++ [Ev_pop]). split; [by apply Hin|]. rewrite run_app. cbn. by destruct (run x t c0).
    + by apply Hsame.
Qed.
Lemma seq_assoc L1 L2 L3 t : seq (seq L1 L2) L3 t <-> seq L1 (seq L2 L3) t.
Proof.
  split.
  - intros (t12 & t3 & -> & (t1 & t2 & -> & H1 & H2) & H3). exists t1, (t2 ++ t3). rewrite app_assoc. split; [done|].
    split; [done|]. by exists t2, t3.
  - intros (t1 & t23 & -> & H1 & (t2 & t3 & -> & H2 & H3)). exists (t1 ++ t2), t3. rewrite app_assoc. split; [done|].
    split; [by exists t1, t2|done].
Qed.
Lemma seq_nil_r L t : seq L (just []) t <-> L t.
Proof. split; [intros (t1 & t2 & -> & H1 & ->); by rewrite app_nil_r|]. intros H. exists t, []. by rewrite app_nil_r. Qed.
Lemma seq_just_cons L e u t : seq (seq L (just [e])) (just u) t <-> seq L (just (e :: u)) t.
Proof.
  split.
  - intros (t1 & t2 & -> & (t3 & t4 & -> & H3 & ->) & ->). exists t3, (e :: u). by rewrite <-app_assoc.
  - intros (t1 & t2 & -> & H1 & ->). exists (t1 ++ [e]), u. rewrite <-app_assoc. split; [done|]. split; [by exists t1, [e]|done].
Qed.
Lemma knows_just u R c : knows R c -> knows (seq R (just u)) (run x u c).
Proof.
  revert R c. induction u as [|e u IH]; intros R c H.
  - eapply knows_equiv; [|exact H]. intros t. by rewrite seq_nil_r.
  - eapply knows_equiv; [intros t; apply seq_just_cons|]. by apply (IH (seq R (just [e])) (ev_step x c e)), knows_event.
Qed.
(** Paths that only read. *)
Lemma knows_silent R L c : inhabited L -> silent x L -> knows R c -> knows (seq R L) c.
Proof.
  intros [u Hu] HL [[t0 Ht0] Hs Hb]. split.
  - exists (t0 ++ u), t0, u. done.
  - intros t (t1 & t2 & -> & H1 & H2). rewrite run_app, (HL t2) by done. by apply Hs.
  - intros i s Hbad Hi. destruct (Hb i s Hbad Hi) as (t & Ht & Hr). exists (t ++ u). split; [by exists t, u|].
    by rewrite run_app, (HL u).
Qed.
(** The shapes along more paths. *)
Lemma knows_widen R L L' c c' :
  (forall t, R t -> run x t c0 <> []) ->
  knows R c -> vframe c c' -> (forall t, L t -> L' t) -> vlocal x L' -> knows (seq R L) c' -> knows (seq R L') c'.
Proof.
  intros Hne Hk Hf HL HL' Hk'. apply (knows_more (seq R L)); [| |done].
  - intros t (t1 & t2 & -> & H1 & H2). exists t1, t2. auto.
  - intros t (t1 & t2 & -> & H1 & H2). rewrite run_app.
    eapply shape_trans; [apply shape_sym, vframe_shape, HL'; [done|by apply Hne]|].
    eapply shape_trans; [by apply (k_shape _ _ Hk)|by apply vframe_shape].
Qed.
End Knows.

(** The visible variable of columns of the same shape. *)
Lemma visible_index c s : visible c = Some s -> exists i, c !! i = Some (Some s) /\
  forall c', shape c c' -> forall s', c' !! i = Some (Some s') -> visible c' = Some s'.
Proof.
  induction c as [|[s1|] c IH]; cbn; [done| |].
  - intros [= ->]. exists 0%nat. split; [done|]. intros c' H s' Hs'. inversion H; subst. cbn in *. by injection Hs' as ->.
  - intros H. destruct (IH H) as (i & Hi & Hv). exists (S i). split; [done|]. intros c' Hc' s' Hs'.
    inversion Hc' as [|o o' c1 c2 Ho Hc12]; subst. destruct o'; [by destruct (none_some _ Ho)|]. cbn in *. by apply (Hv _ Hc12).
Qed.
(** A shared variable is as good as an owned one. *)
Lemma knows_shared x c0 R c : knows x c0 R (Some OS_Owned :: c) -> knows x c0 R (Some OS_Shared :: c).
Proof.
  intros [Hi Hs Hb]. split; [done| |].
  - intros t Ht. eapply shape_trans; [by apply Hs|]. apply vframe_shape. constructor.
  - intros [|i] s Hbad Hc; [|by apply (Hb (S i))]. injection Hc as <-. by destruct Hbad.
Qed.

(** The captures of a closure occur in its body. *)
Definition captures_node (a : Analyzer) (locals : list str) (n : node) : list str :=
  match n with
  | N_expr e => collect_captures a locals e
  | N_stmt s => collect_captures_stmt a locals s
  | N_block b => collect_captures_block a locals b
  end.
Lemma occurs_children n :
  occurs n = (match n with N_expr (E_Identifier y _) => [y] | _ => [] end) ++ flat_map occurs (children n).
Proof.
  unfold occurs. rewrite below_children. cbn [omap list_omap].
  assert (H : forall l, omap (fun n => match n with N_expr (E_Identifier y _) => Some y | _ => None end) (flat_map below l) = flat_map occurs l).
  { intros l. induction l as [|m l IH]; cbn; [done|]. by rewrite omap_app, IH. }
  rewrite H. by destruct n as [[]| |].
Qed.
Lemma captures_children a locals n :
  match n with N_expr (E_Identifier _ _) => True | _ => incl (captures_node a locals n) (flat_map (captures_node a locals) (children n)) end.
Proof.
  destruct n as [e|s|[ss sp]]; [destruct e|destruct s|]; try exact I; cbn [children captures_node expr_children stmt_children]; cbn;
    rewrite ?flat_map_app, ?flat_map_map, ?flat_map_flat_map, ?flat_map_opt; cbn; rewrite ?app_nil_r;
    try apply incl_refl; try apply incl_nil_l.
  all: try match goal with |- incl ?l (?r1 ++ flat_map _ (match _ with Some _ => timeout_nodes _ | None => _ end)) => apply incl_appl end.
  all: match goal with |- incl ?l ?r => replace l with r; [apply incl_refl|] end.
  all: repeat first
    [ reflexivity | apply flat_map_ext; intros | progress f_equal
    | match goal with
      | |- context [match ?x with _ => _ end] => destruct x; cbn
      | |- context [flat_map _ (arm_nodes ?x)] => destruct x; cbn
      | |- context [flat_map _ (branch_nodes ?x)] => destruct x; cbn
      end
    | rewrite app_nil_r ].
  all: rewrite flat_map_app, flat_map_opt; cbn; by rewrite app_nil_r.
Qed.
Lemma collect_captures_occurs a locals e x : x ∈ collect_captures a locals e -> x ∈ occurs (N_expr e) /\ x ∉ locals.
Proof.
  enough (H : forall n, x ∈ captures_node a locals n -> x ∈ occurs n /\ x ∉ locals) by apply (H (N_expr e)).
  intros n. induction n as [n IH] using node_induction. intros Hx. rewrite occurs_children, elem_of_app.
  assert (Hc : x ∈ flat_map (captures_node a locals) (children n) -> x ∈ flat_map occurs (children n) /\ x ∉ locals).
  { intros (m & Hm & Hin)%list_elem_of_In%in_flat_map. rewrite Forall_forall in IH.
    destruct (IH m) as [Ho Hl]; [by apply list_elem_of_In..|]. split; [|done].
    apply list_elem_of_In, in_flat_map. exists m. split; [done|by apply list_elem_of_In]. }
  pose proof (captures_children a locals n) as Hch.
  destruct n as [e1|s|b]; try (destruct (Hc ltac:(apply list_elem_of_In, Hch, list_elem_of_In, Hx)); by split; [right|]).
  destruct e1 as [| | | | | | |y sp| | | | | | | | | | | | | | | | | | | | | | | | | | |];
    try (destruct (Hc ltac:(apply list_elem_of_In, Hch, list_elem_of_In, Hx)); by split; [right|]).
  cbn in Hx. destruct (bool_decide (y ∈ locals)) eqn:Hy; [by apply elem_of_nil in Hx|].
  destruct (bool_decide _) in Hx; [|by apply elem_of_nil in Hx]. apply list_elem_of_singleton in Hx as ->.
  split; [left; constructor|]. by apply bool_decide_eq_false in Hy.
Qed.
