(* ===== verification/OwnFrame.v ===== *)
(** The analyzer's view of one variable, and steps that keep the analyzer well formed. *)

From S2P Require Import Prelude Machine Utf8 Text Token Ast OwnState OwnPaths.

(* ------------------------------------------------------------------ *)
(** ** The analyzer's view of a variable                               *)
(* ------------------------------------------------------------------ *)

Definition col_of (s : list Scope) (x : str) : column := (fun sc : Scope => v_state <$> sc !! x) <$> s.
Definition col (x : str) (a : Analyzer) : column := col_of (scopes a) x.

(** The stack of scopes is there, and no field is ever recorded as moved. *)
Definition clean (sc : Scope) : Prop := map_Forall (fun _ i => v_moved_fields i = ∅) sc.
Definition wf (a : Analyzer) : Prop := scopes a <> [] /\ Forall clean (scopes a).
Definition no_partial (d : OwnDiag) : Prop := match d with OD_PartialMove _ _ _ => False | _ => True end.

Lemma visible_lookup s x : visible (col_of s x) = v_state <$> lookup_in s x.
Proof. induction s as [|sc s IH]; cbn; [done|]. by destruct (sc !! x). Qed.
Lemma visible_col x a : visible (col x a) = v_state <$> lookup_var a x.
Proof. apply visible_lookup. Qed.
Lemma lookup_clean s x i : Forall clean s -> lookup_in s x = Some i -> v_moved_fields i = ∅.
Proof.
  induction 1 as [|sc s Hsc Hs IH]; cbn; [done|]. destruct (sc !! x) as [j|] eqn:Hx; [|done].
  intros [= <-]. exact (Hsc x j Hx).
Qed.

Lemma set_first_visible c s : visible c = Some s -> set_first s c = c.
Proof. induction c as [|[] c IH]; cbn; [done|by intros [= ->]|]. intros H. by rewrite IH. Qed.
Lemma set_first_twice s s' c : set_first s (set_first s' c) = set_first s c.
Proof. induction c as [|[] c IH]; cbn; congruence. Qed.
Lemma set_first_none s c : visible c = None -> set_first s c = c.
Proof. induction c as [|[] c IH]; cbn; [done|done|]. intros H. by rewrite IH. Qed.

Lemma col_alter_eq f x s :
  col_of (alter_in f x s) x
  = match lookup_in s x with Some i => set_first (v_state (f i)) (col_of s x) | None => col_of s x end.
Proof.
  induction s as [|sc s IH]; cbn; [done|]. destruct (sc !! x) as [i|] eqn:Hx; cbn.
  - by rewrite lookup_insert_eq.
  - rewrite Hx. cbn. fold (col_of (alter_in f x s) x). rewrite IH. by destruct (lookup_in s x).
Qed.
Lemma col_alter_ne f x y s : y <> x -> col_of (alter_in f y s) x = col_of s x.
Proof.
  intros Hne. induction s as [|sc s IH]; cbn; [done|]. destruct (sc !! y) as [i|] eqn:Hy; cbn.
  - by rewrite lookup_insert_ne.
  - f_equal. exact IH.
Qed.
Lemma clean_alter f y s :
  (forall i, v_moved_fields i = ∅ -> v_moved_fields (f i) = ∅) -> Forall clean s -> Forall clean (alter_in f y s).
Proof.
  intros Hf. induction 1 as [|sc s Hsc Hs IH]; cbn; [constructor|].
  destruct (sc !! y) as [i|] eqn:Hy; constructor; try done. apply map_Forall_insert_2; [|done].
  apply Hf. exact (Hsc y i Hy).
Qed.
Lemma alter_nonempty f y s : s <> [] -> alter_in f y s <> [].
Proof. destruct s as [|sc s]; cbn; [done|]. by destruct (sc !! y). Qed.

(* ------------------------------------------------------------------ *)
(** ** Operations that end and keep the analyzer well formed           *)
(* ------------------------------------------------------------------ *)

Section Steps.
Context (fr : column -> column -> Prop).

(** From one state to the next. *)
Record leads (a a' : Analyzer) : Prop := {
  l_wf : wf a';
  l_frame : forall x, fr (col x a) (col x a');
  l_diags : exists ds, od_diagnostics a' = od_diagnostics a ++ ds /\ Forall no_partial ds
}.
Definition total (f : Analyzer -> res Analyzer) : Prop := forall a, wf a -> exists a', f a = Done a' /\ leads a a'.
End Steps.

Class FrameLike (fr : column -> column -> Prop) := {
  fr_refl : forall c, fr c c;
  fr_trans : forall c1 c2 c3, fr c1 c2 -> fr c2 c3 -> fr c1 c3;
  fr_v : forall c c', vframe c c' -> fr c c'
}.
#[export] Instance vframe_like : FrameLike vframe.
Proof. split; [apply vframe_refl|apply vframe_trans|done]. Qed.
#[export] Instance frame_like : FrameLike frame.
Proof. split; [apply cframe_refl|apply cframe_trans|apply vframe_frame]. Qed.

Section Combinators.
Context {fr : column -> column -> Prop} `{!FrameLike fr}.

Lemma leads_refl a : wf a -> leads fr a a.
Proof. intros Ha. split; [done|intros x; apply fr_refl|]. exists []. by rewrite app_nil_r. Qed.
Lemma leads_trans a1 a2 a3 : leads fr a1 a2 -> leads fr a2 a3 -> leads fr a1 a3.
Proof.
  intros [_ F1 (d1 & D1 & P1)] [W2 F2 (d2 & D2 & P2)]. split; [done|intros x; by eapply fr_trans|].
  exists (d1 ++ d2). rewrite D2, D1, <-app_assoc. split; [done|]. by apply Forall_app.
Qed.
Lemma leads_v a a' : leads vframe a a' -> leads fr a a'.
Proof. intros [W F D]. split; [done|intros x; by apply fr_v|done]. Qed.
Lemma total_ret : total fr Done.
Proof. intros a Ha. exists a. split; [done|by apply leads_refl]. Qed.
Lemma total_bind f g : total fr f -> total fr g -> total fr (fun a => a ← f a; g a).
Proof.
  intros Hf Hg a Ha. destruct (Hf a Ha) as (a1 & E1 & L1). destruct (Hg a1 (l_wf _ _ _ L1)) as (a2 & E2 & L2).
  exists a2. rewrite E1. split; [done|]. by eapply leads_trans.
Qed.
Lemma total_v f : total vframe f -> total fr f.
Proof. intros Hf a Ha. destruct (Hf a Ha) as (a1 & E1 & L1). exists a1. split; [done|by apply leads_v]. Qed.
Lemma total_foldM {A} (f : A -> Analyzer -> res Analyzer) l :
  Forall (fun x => total fr (f x)) l -> total fr (foldM f l).
Proof. induction 1 as [|x l Hx Hl IH]; [apply total_ret|]. by apply (total_bind (f x) (foldM f l)). Qed.
Lemma total_pure (g : Analyzer -> Analyzer) : (forall a, wf a -> leads fr a (g a)) -> total fr (fun a => Done (g a)).
Proof. intros Hg a Ha. exists (g a). split; [done|by apply Hg]. Qed.
Lemma total_option {A} (f : A -> Analyzer -> res Analyzer) o :
  match o with Some x => total fr (f x) | None => True end -> total fr (from_option f Done o).
Proof. destruct o; [done|]. intros _. apply total_ret. Qed.
End Combinators.

(** The scopes stay. *)
Lemma leads_same a a' ds :
  wf a -> scopes a' = scopes a -> od_diagnostics a' = od_diagnostics a ++ ds -> Forall no_partial ds -> leads vframe a a'.
Proof.
  intros [Hn Hc] Hs Hd Hp. split; [unfold wf; by rewrite Hs|intros x; unfold col; rewrite Hs; apply vframe_refl|by exists ds].
Qed.
Lemma leads_alter f y a : wf a -> (forall i, v_moved_fields i = ∅ -> v_moved_fields (f i) = ∅) -> leads vframe a (alter_var f y a).
Proof.
  intros [Hn Hc] Hf. split.
  - split; cbn; [by apply alter_nonempty|by apply clean_alter].
  - intros x. unfold col, alter_var, with_scopes. cbn [scopes]. destruct (decide (y = x)) as [->|Hne].
    + rewrite col_alter_eq. destruct (lookup_in _ _); [apply vframe_set_first|apply vframe_refl].
    + rewrite col_alter_ne by done. apply vframe_refl.
  - exists []. by rewrite app_nil_r.
Qed.
Lemma leads_add_diag d a : wf a -> no_partial d -> leads vframe a (add_diag d a).
Proof. intros Ha Hd. eapply (leads_same a _ [d]); [done..|by constructor]. Qed.
Lemma leads_push_arc i a : wf a -> leads vframe a (push_arc i a).
Proof. intros Ha. by eapply (leads_same a _ []); [..|rewrite app_nil_r|]. Qed.
Lemma leads_tables f a : wf a -> leads vframe a (with_tables f a).
Proof. intros Ha. by eapply (leads_same a _ []); [..|rewrite app_nil_r|]. Qed.
Lemma leads_check x span a : wf a -> leads vframe a (check_usable x span a).
Proof.
  intros Ha. unfold check_usable. destruct (lookup_var a x) as [i|]; [|by apply leads_refl].
  destruct (v_state i); by apply leads_refl || by apply leads_add_diag.
Qed.
Lemma leads_mark x span a : wf a -> leads vframe a (mark_moved x span a).
Proof.
  intros Ha. unfold mark_moved. destruct (lookup_var a x) as [i|]; [|by apply leads_refl].
  destruct (_ || _); [by apply leads_refl|]. by apply leads_alter.
Qed.
Lemma total_define x i : v_moved_fields i = ∅ -> total frame (define_var x i).
Proof.
  intros Hi a [Hn Hc]. unfold define_var. destruct (scopes a) as [|sc s] eqn:Hs; [done|].
  eexists. split; [done|]. apply Forall_cons in Hc as [Hsc Hs']. split.
  - split; cbn; [done|]. constructor; [|done]. by apply map_Forall_insert_2.
  - intros y. unfold col. cbn. rewrite Hs. cbn. destruct (decide (x = y)) as [->|Hne].
    + rewrite lookup_insert_eq. destruct (sc !! y); cbn; [by split; [eexists|]|apply vframe_refl].
    + rewrite lookup_insert_ne by done. destruct (sc !! y); cbn; [by split; [eexists|]|apply vframe_refl].
  - exists []. by rewrite app_nil_r.
Qed.
Lemma total_in_scope f : total frame f -> total vframe (in_scope f).
Proof.
  intros Hf a [Hn Hc]. unfold in_scope.
  assert (Hw : wf (push_scope a)) by (split; [done|by constructor; [apply map_Forall_empty|]]).
  destruct (Hf _ Hw) as (a1 & E1 & [W1 F1 D1]). rewrite E1. cbn. unfold pop_scope.
  pose proof (F1 []) as Hlen. apply frame_length in Hlen. unfold col, col_of in Hlen. cbn in Hlen.
  rewrite !length_fmap in Hlen. destruct (scopes a) as [|sc0 s0] eqn:Hs; [done|].
  destruct (scopes a1) as [|sc1 [|sc2 s2]] eqn:Hs1; [done|done|].
  eexists. split; [done|]. split.
  - split; cbn; [done|]. destruct W1 as [_ W1]. rewrite Hs1 in W1. by apply Forall_cons in W1 as [_ W1].
  - intros x. pose proof (F1 x) as Hx. unfold col in Hx |- *. rewrite Hs1 in Hx. cbn in Hx. rewrite Hs in Hx |- *.
    rewrite lookup_empty in Hx. cbn in Hx |- *. exact Hx.
  - exact D1.
Qed.

(* ------------------------------------------------------------------ *)
(** ** Every step of the walk ends                                     *)
(* ------------------------------------------------------------------ *)

Lemma leads_fold {A} (g : Analyzer -> A -> Analyzer) l a :
  (forall y a, y ∈ l -> wf a -> leads vframe a (g a y)) -> wf a -> leads vframe a (fold_left g l a).
Proof.
  revert a. induction l as [|y l IH]; intros a Hg Ha; cbn; [by apply leads_refl|].
  assert (H1 : leads vframe a (g a y)) by (apply Hg; [constructor|done]).
  eapply leads_trans; [exact H1|]. apply IH; [|apply H1]. intros z a' Hz. apply Hg. by constructor.
Qed.

Lemma snapshot_full_lookup a x :
  snapshot_full a !! x = (fun i => (v_state i, v_moved_fields i)) <$> lookup_var a x.
Proof.
  unfold snapshot_full, lookup_var. induction (scopes a) as [|sc s IH]; cbn; [done|].
  destruct (sc !! x) as [i|] eqn:Hx; cbn.
  - apply lookup_union_Some_l. by rewrite lookup_fmap, Hx.
  - rewrite lookup_union_r; [exact IH|]. by rewrite lookup_fmap, Hx.
Qed.
Lemma snapshot_states_lookup a x : snapshot_states a !! x = v_state <$> lookup_var a x.
Proof.
  unfold snapshot_states, lookup_var. induction (scopes a) as [|sc s IH]; cbn; [done|].
  destruct (sc !! x) as [i|] eqn:Hx; cbn.
  - apply lookup_union_Some_l. by rewrite lookup_fmap, Hx.
  - rewrite lookup_union_r; [exact IH|]. by rewrite lookup_fmap, Hx.
Qed.

Lemma visible_set_first c s s' : visible c = Some s -> visible (set_first s' c) = Some s'.
Proof. induction c as [|[] c IH]; cbn; [done|done|]. exact IH. Qed.
