(* ===== verification/Ownership.v ===== *)
(** The ownership analysis ([kryos-ownership/src/analysis.rs]): the walk over the syntax
    tree.  It never panics, restores what it should between branches, and what it reports
    of a variable holds on a path through the code. *)

From S2P Require Import Prelude Machine Utf8 Text Token Ast AstWalk OwnState OwnPaths OwnFrame.

Section Walk.
(** The iteration orders of the hash maps. *)
Context (states_order : gmap str (OwnershipState * gset str) -> list (str * (OwnershipState * gset str))).
Context (variants_order : gmap (str * str) (list TypeExpr) -> list ((str * str) * list TypeExpr)).

(** The types of the fields of a variant; a bare variant is looked for in all enums. *)
Definition variant_types (t : Tables) (name variant : str) : option (list TypeExpr) :=
  match enum_variant_fields t !! (name, variant) with
  | Some tys => Some tys
  | None =>
      match name with
      | [] => snd ∘ snd <$> list_find (fun kv => kv.1.2 = variant) (variants_order (enum_variant_fields t))
      | _ => None
      end
  end.

Fixpoint bind_pattern (p : Pattern) (a : Analyzer) : res Analyzer :=
  match p with
  | P_Wildcard _ | P_Literal _ _ => Done a
  | P_Ident name mutable span => define_var name (owned_var mutable false span) a
  | P_Tuple elements _ => foldM bind_pattern elements a
  | P_Struct _ fields _ => foldM (fun '(_, p) => bind_pattern p) fields a
  | P_Enum name variant fields _ =>
      fold_types (fun ty p a =>
        match p with
        | P_Ident name mutable span =>
            let a := match ty with
              | Some (TE_Simple sn _) => with_tables (insert_var_struct name sn) a | _ => a end in
            define_var name (owned_var mutable (is_opt_type_copy (tables a) ty false) span) a
        | _ => bind_pattern p a
        end) (default [] (variant_types (tables a) name variant)) fields a
  | P_Or patterns _ => match patterns with p :: _ => bind_pattern p a | [] => Done a end
  end.

Definition restore_all (before : gmap str (OwnershipState * gset str)) (a : Analyzer) : Analyzer :=
  fold_left (fun a '(name, (st, fields)) => restore_full name st fields a) (states_order before) a.

(** After mutually exclusive branches: what is moved in all of them is moved, when they
    cover all cases; what is moved in some is kept, with a warning for an [if] statement
    when it is owned in another. *)
Definition merge_one (warn : option Span) (covered : bool) (states : list (gmap str OwnershipState))
    (name : str) (pre : OwnershipState) (a : Analyzer) : Analyzer :=
  if negb (bool_decide (pre = OS_Owned)) then a
  else
    let moved_in_some := existsb (moved_in name) states in
    let a := match warn with
      | Some span =>
          if moved_in_some && existsb (owned_in name) states
             && negb (from_option v_is_copy false (lookup_var a name))
          then add_diag (OD_ConditionalMove name span) a else a
      | None => a
      end in
    if covered && forallb (moved_in name) states then restore_state name OS_Moved a
    else if moved_in_some then restore_state name OS_Owned a
    else a.
Definition merge_branches (warn : option Span) (covered : bool) (before : gmap str (OwnershipState * gset str))
    (states : list (gmap str OwnershipState)) (a : Analyzer) : Analyzer :=
  fold_left (fun a '(name, (pre, _)) => merge_one warn covered states name pre a) (states_order before) a.

Definition define_lambda_param (p : Param) (a : Analyzer) : res Analyzer :=
  let 'mkParam name ty _ span := p in
  a ← define_var name (owned_var false (is_opt_type_copy (tables a) ty true) span) a;
  Done (match ty with
    | Some (TE_Tuple elements _) => with_tables (insert_var_tuple name elements) a
    | _ => a
    end).

(** The captures of a closure are recorded and checked. *)
Definition check_captures (params : list Param) (body : Expr) (span : Span) (a : Analyzer) : Analyzer :=
  fold_left (fun a x =>
    match lookup_var a x with
    | Some i =>
        check_usable x span
          (if v_mutable i then push_arc (mkArc x span AR_ClosureCaptureMut) a else a)
    | None => a
    end) (collect_captures a (param_name <$> params) body) a.

(** [analyze_expr_use], [analyze_lambda], [analyze_stmt], [analyze_block] *)
Fixpoint analyze_expr_use (e : Expr) (a : Analyzer) {struct e} : res Analyzer :=
  match e with
  | E_Identifier name span => Done (check_usable name span a)
  | E_FieldAccess object field span =>
      let partial :=
        match object with
        | E_Identifier name _ =>
            match lookup_var a name with
            | Some i => if negb (v_is_copy i) && bool_decide (field ∈ v_moved_fields i)
                        then Some name else None
            | None => None
            end
        | _ => None
        end in
      match partial with
      | Some name => Done (add_diag (OD_PartialMove name field span) a)
      | None => analyze_expr_use object a
      end
  | E_FnCall callee args _ =>
      a ← analyze_expr_use callee a;
      match callee, args with
      | E_Identifier name _, [e1; e2] =>
          if bool_decide (name = bytes "send") then
            a ← analyze_expr_use e1 a; move_with analyze_expr_use e2 a
          else a ← analyze_expr_use e1 a; analyze_expr_use e2 a
      | _, _ => foldM analyze_expr_use args a
      end
  | E_MethodCall object _ args _ => a ← analyze_expr_use object a; foldM analyze_expr_use args a
  | E_StaticMethodCall _ _ es _ | E_ArrayLiteral es _ | E_TupleLiteral es _ => foldM analyze_expr_use es a
  | E_BinaryOp _ e1 e2 _ | E_IndexAccess e1 e2 _ | E_PipeExpr e1 e2 _ =>
      a ← analyze_expr_use e1 a; analyze_expr_use e2 a
  | E_UnaryOp _ e _ | E_Borrow e _ _ | E_Deref e _ | E_WeakExpr e _ | E_Cast e _ _ | E_Await e _ =>
      analyze_expr_use e a
  | E_MapLiteral entries _ =>
      foldM (fun '(k, v) a => a ← analyze_expr_use k a; analyze_expr_use v a) entries a
  | E_StructLiteral _ fields _ => foldM (fun '(_, v) => analyze_expr_use v) fields a
  | E_Lambda params _ body span =>
      in_scope (fun a => a ← foldM define_lambda_param params a; analyze_expr_use body a)
        (check_captures params body span a)
  | E_IfExpr condition then_branch else_branch _ =>
      a ← analyze_expr_use condition a;
      let before := snapshot_full a in
      a ← in_scope (analyze_block then_branch) a;
      let s1 := snapshot_states a in
      match else_branch with
      | Some b =>
          a ← in_scope (analyze_block b) (restore_all before a);
          Done (merge_branches None true before [s1; snapshot_states a] a)
      | None => Done (merge_branches None false before [s1] a)
      end
  | E_MatchExpr subject arms _ =>
      a ← analyze_expr_use subject a;
      let before := snapshot_full a in
      '(a, states) ← foldM (fun arm '(a, states) =>
          let 'mkArm pattern guard body _ := arm in
          let a := match states with [] => a | _ => restore_all before a end in
          a ← in_scope (fun a =>
                a ← bind_pattern pattern a;
                a ← from_option analyze_expr_use Done guard a;
                analyze_expr_use body a) a;
          Done (a, states ++ [snapshot_states a])) arms (a, []);
      Done (merge_branches None (negb (Nat.eqb (length states) 0)) before states a)
  | E_SharedExpr inner span =>
      a ← move_with analyze_expr_use inner a;
      Done (match inner with
        | E_Identifier name _ => push_arc (mkArc name span AR_ExplicitShared) a
        | _ => a
        end)
  | E_MoveExpr inner _ => move_with analyze_expr_use inner a
  | E_Block b _ | E_ComptimeBlock b _ | E_QuantumBlock b _ | E_UnsafeBlock b _ => in_scope (analyze_block b) a
  | E_InterpolatedString parts _ =>
      foldM (fun p => match p with SP_Literal _ => Done | SP_Expr e => analyze_expr_use e end) parts a
  | E_RangeExpr start end_ _ _ =>
      a ← from_option analyze_expr_use Done start a; from_option analyze_expr_use Done end_ a
  | E_IntLiteral _ _ | E_FloatLiteral _ _ | E_StringLiteral _ _ | E_CharLiteral _ _ | E_BoolLiteral _ _
  | E_NoneLiteral _ => Done a
  end
with analyze_stmt (s : Stmt) (a : Analyzer) {struct s} : res Analyzer :=
  match s with
  | S_Let name mutable ty (Some init) _ span =>
      match init with
      | E_SharedExpr inner sh_span =>
          a ← move_with analyze_expr_use inner a;
          define_var name (mkVar OS_Shared mutable false span None ∅)
            (push_arc (mkArc name sh_span AR_ExplicitShared) a)
      | E_WeakExpr inner _ => a ← analyze_expr_use inner a; define_var name (owned_var mutable false span) a
      | _ =>
          let is_copy := expr_is_copy a init || is_opt_type_copy (tables a) ty false in
          a ← (if is_copy || is_identifier init then analyze_expr_use init a
               else move_with analyze_expr_use init a);
          a ← define_var name (owned_var mutable is_copy span) a;
          Done (record_let_types name ty init a)
      end
  | S_Let name mutable ty None _ span =>
      define_var name
        (mkVar OS_Uninitialized mutable (is_opt_type_copy (tables a) ty false) span None ∅) a
  | S_Assign target _ value _ =>
      a ← (if expr_is_copy a value || is_identifier value then analyze_expr_use value a
           else move_with analyze_expr_use value a);
      match target with
      | E_Identifier name _ => Done (alter_var set_owned name a)
      | E_FieldAccess object _ _ => analyze_expr_use object a
      | _ => analyze_expr_use target a
      end
  | S_Expr e _ => analyze_expr_use e a
  | S_Return value _ => from_option (move_with analyze_expr_use) Done value a
  | S_If condition then_block elif_clauses else_block span =>
      a ← analyze_expr_use condition a;
      let before := snapshot_full a in
      a ← in_scope (analyze_block then_block) a;
      '(a, states) ← foldM (fun '(c, b) '(a, states) =>
          a ← analyze_expr_use c (restore_all before a);
          a ← in_scope (analyze_block b) a;
          Done (a, states ++ [snapshot_states a])) elif_clauses (a, [snapshot_states a]);
      match else_block with
      | Some b =>
          a ← in_scope (analyze_block b) (restore_all before a);
          Done (merge_branches (Some span) true before (states ++ [snapshot_states a]) a)
      | None => Done (restore_all before a)
      end
  | S_For _ _ e body _ | S_While e body _ => a ← analyze_expr_use e a; in_scope (analyze_block body) a
  | S_Spawn e _ | S_Throw e _ => move_with analyze_expr_use e a
  | S_Select branches _ _ =>
      foldM (fun br a => let 'mkBranch _ channel body _ := br in
        a ← analyze_expr_use channel a; in_scope (analyze_block body) a) branches a
  | S_TryCatch try_block catch_name catch_block span =>
      a ← in_scope (analyze_block try_block) a;
      in_scope (fun a => a ← define_var catch_name (owned_var false false span) a; analyze_block catch_block a) a
  | S_DenyBlock _ body _ => analyze_block body a
  | S_Break _ | S_Continue _ => Done a
  end
with analyze_block (b : Block) (a : Analyzer) {struct b} : res Analyzer :=
  let 'mkBlock ss _ := b in foldM analyze_stmt ss a.

Definition analyze_expr_move : Expr -> Analyzer -> res Analyzer := move_with analyze_expr_use.

(* ------------------------------------------------------------------ *)
(** ** Declarations                                                    *)
(* ------------------------------------------------------------------ *)

Definition collect_function (name : str) (ret_ty : option TypeExpr) (t : Tables) : Tables :=
  let t := insert_fn_copy_return name (is_opt_type_copy t ret_ty false) t in
  match ret_ty with
  | Some (TE_Simple sn _) => insert_fn_return_struct name sn t
  | Some (TE_Tuple elements _) => insert_fn_return_tuple name elements t
  | _ => t
  end.
(** The first pass of [analyze_module], and the pass over the methods. *)
Definition collect_decl (t : Tables) (d : Decl) : Tables :=
  match d with
  | D_Struct name _ fields _ annotations _ _ =>
      let t := if existsb (fun an => bool_decide (an_name an = bytes "copy")) annotations
               then insert_copy_struct name t else t in
      insert_struct_fields name
        (fold_left (fun m f => <[sf_name f := sf_ty f]> m) fields ∅) t
  | D_Function name _ _ ret_ty _ _ _ _ _ _ => collect_function name ret_ty t
  | D_Enum name _ variants _ _ _ _ =>
      fold_left (fun t v => insert_enum_variant (name, ev_name v) (ev_fields v) t) variants t
  | _ => t
  end.
Definition collect_methods (t : Tables) (d : Decl) : Tables :=
  match d with
  | D_Impl _ _ _ methods _ _ =>
      fold_left (fun t m => match m with
        | D_Function name _ _ ret_ty _ _ _ _ _ _ => collect_function name ret_ty t | _ => t end) methods t
  | _ => t
  end.

Definition define_param (p : Param) (a : Analyzer) : res Analyzer :=
  let 'mkParam name ty _ span := p in
  a ← define_var name (owned_var false (is_opt_type_copy (tables a) ty false) span) a;
  Done (match ty with
    | Some (TE_Simple sn _) => with_tables (insert_var_struct name sn) a
    | Some (TE_Array element _ _) => with_tables (insert_var_elem name (is_type_expr_copy (tables a) element)) a
    | Some (TE_Tuple elements _) => with_tables (insert_var_tuple name elements) a
    | _ => a
    end).
Definition define_handler_param (p : Param) (a : Analyzer) : res Analyzer :=
  let 'mkParam name ty _ span := p in
  define_var name (owned_var false (is_opt_type_copy (tables a) ty false) span) a.

Fixpoint analyze_decl (d : Decl) (a : Analyzer) : res Analyzer :=
  match d with
  | D_Function _ _ params _ (Some body) _ _ _ _ _ =>
      in_scope (fun a => a ← foldM define_param params a; analyze_block body a) a
  | D_Actor _ state_fields handlers _ _ span =>
      let a := fold_left (fun a f => push_arc (mkArc (sf_name f) span AR_ActorBoundary) a) state_fields a in
      foldM (fun h a =>
        in_scope (fun a => a ← foldM define_handler_param (mh_params h) a; analyze_block (mh_body h) a) a)
        handlers a
  | D_Impl _ _ _ methods _ _ => foldM analyze_decl methods a
  | _ => Done a
  end.

Definition analyze_module (m : Module_) (a : Analyzer) : res Analyzer :=
  let ds := mo_declarations m in
  let t := fold_left collect_methods ds (fold_left collect_decl ds (tables a)) in
  foldM analyze_decl ds (with_tables (fun _ => t) a).

(** [OwnershipResult] *)
Definition analyze_ownership (m : Module_) : res (list OwnDiag * list ArcInsertion) :=
  a ← analyze_module m new_analyzer; Done (od_diagnostics a, arc_insertions a).

(* ------------------------------------------------------------------ *)
(** ** Every step of the walk ends                                     *)
(* ------------------------------------------------------------------ *)

Context (states_perm : forall m, states_order m ≡ₚ map_to_list m).

Lemma elem_of_order m x v : (x, v) ∈ states_order m <-> m !! x = Some v.
Proof. by rewrite states_perm, elem_of_map_to_list. Qed.

(** A snapshot of a well-formed state. *)
Definition plain (before : gmap str (OwnershipState * gset str)) : Prop :=
  forall x st fields, before !! x = Some (st, fields) -> fields = ∅.
Lemma snapshot_plain a : wf a -> plain (snapshot_full a).
Proof.
  intros [_ Hc] x st fields. rewrite snapshot_full_lookup. destruct (lookup_var a x) as [i|] eqn:Hx; [|done].
  intros [= <- <-]. by eapply lookup_clean.
Qed.
Lemma leads_restore before a : plain before -> wf a -> leads vframe a (restore_all before a).
Proof.
  intros Hb Ha. apply leads_fold; [|done]. intros [x [st fields]] a' Hin Ha'. apply elem_of_order, Hb in Hin as ->.
  by apply leads_alter.
Qed.
Lemma leads_merge warn covered before states a : wf a -> leads vframe a (merge_branches warn covered before states a).
Proof.
  intros Ha. apply leads_fold; [|done]. intros [x [pre fields]] a' _ Ha'. unfold merge_one.
  destruct (negb _); [by apply leads_refl|].
  set (a1 := match warn with Some _ => _ | None => _ end).
  assert (H1 : leads vframe a' a1).
  { unfold a1. destruct warn; [|by apply leads_refl]. destruct (_ && _); [by apply leads_add_diag|by apply leads_refl]. }
  eapply leads_trans; [exact H1|]. pose proof (l_wf _ _ _ H1).
  destruct (covered && _); [by apply leads_alter|]. destruct (existsb _ _); [by apply leads_alter|by apply leads_refl].
Qed.

Lemma total_same fr `{!FrameLike fr} g : (forall a, wf a -> leads vframe a (g a)) -> total fr (fun a => Done (g a)).
Proof. intros Hg. apply total_pure. intros a Ha. by apply leads_v, Hg. Qed.
(** A change of the analyzer before a step. *)
Lemma total_after fr `{!FrameLike fr} g f : (forall a, wf a -> leads vframe a (g a)) -> total fr f -> total fr (fun a => f (g a)).
Proof. intros Hg Hf. apply (total_bind (fun a => Done (g a)) f); [by apply total_same|done]. Qed.

Lemma total_bind_pattern p : total frame (bind_pattern p).
Proof.
  revert p. fix IH 1. intros p. destruct p as [|x m sp| |ps sp|n fs sp|n v ps sp|ps sp]; cbn.
  - apply total_ret.
  - by apply total_define.
  - apply total_ret.
  - apply total_foldM. induction ps as [|p ps IHps]; constructor; [apply IH|apply IHps].
  - apply total_foldM. induction fs as [|[y p] fs IHfs]; constructor; [apply IH|apply IHfs].
  - intros a Ha. generalize (default [] (variant_types (tables a) n v)). intros tys.
    revert tys a Ha. induction ps as [|p ps IHps]; intros tys a Ha; cbn; [by apply total_ret|].
    assert (Hf : total frame (fun a => match p with
        | P_Ident name mutable span =>
            let a := match head tys with
              | Some (TE_Simple sn _) => with_tables (insert_var_struct name sn) a | _ => a end in
            define_var name (owned_var mutable (is_opt_type_copy (tables a) (head tys) false) span) a
        | _ => bind_pattern p a end)).
    { pose proof (IH p) as Hp. destruct p as [|y m sp'| | | | |]; try exact Hp.
      intros a1 H1. cbn zeta. set (a2 := match head tys with Some _ => _ | None => _ end).
      assert (H2 : leads vframe a1 a2).
      { unfold a2. destruct (head tys) as [[]|]; by apply leads_refl || by apply leads_tables. }
      destruct (total_define y (owned_var m (is_opt_type_copy (tables a2) (head tys) false) sp') eq_refl a2 (l_wf _ _ _ H2))
        as (a3 & E3 & L3).
      exists a3. split; [exact E3|]. eapply leads_trans; [by apply leads_v|exact L3]. }
    destruct (Hf a Ha) as (a1 & E1 & L1). destruct (IHps (tail tys) a1 (l_wf _ _ _ L1)) as (a2 & E2 & L2).
    exists a2. cbn in E1. rewrite E1. split; [exact E2|]. by eapply leads_trans.
  - destruct ps as [|p ps]; [apply total_ret|apply IH].
Qed.

Definition ends (n : node) : Prop :=
  match n with
  | N_expr e => total vframe (analyze_expr_use e)
  | N_stmt s => total frame (analyze_stmt s)
  | N_block b => total frame (analyze_block b)
  end.

Lemma total_move e : total vframe (analyze_expr_use e) -> total vframe (move_with analyze_expr_use e).
Proof.
  intros He. destruct e as [| | | | | | |x span|object field span| | | | | | | | | | | | | | | | | | | | | | | | | |]; try exact He.
  - apply total_pure. intros a Ha. eapply leads_trans; [by apply leads_check|]. apply leads_mark.
    by eapply l_wf, leads_check.
  - destruct object as [| | | | | | |y sp| | | | | | | | | | | | | | | | | | | | | | | | | | |]; try exact He.
    apply total_pure. intros a Ha. by apply leads_check.
Qed.
(** No field is recorded as moved, so that reading a field reads its object. *)
Lemma field_use object field span a :
  wf a -> analyze_expr_use (E_FieldAccess object field span) a = analyze_expr_use object a.
Proof.
  intros Ha. cbn [analyze_expr_use].
  destruct object as [| | | | | | |y sp| | | | | | | | | | | | | | | | | | | | | | | | | | |]; try done.
  destruct (lookup_var a y) as [i|] eqn:Hy; [|done].
  assert (Hf : v_moved_fields i = ∅) by (eapply lookup_clean; [apply Ha|exact Hy]).
  by rewrite Hf, bool_decide_eq_false_2, andb_false_r by set_solver.
Qed.
Lemma total_field object field span : total vframe (analyze_expr_use object) -> total vframe (analyze_expr_use (E_FieldAccess object field span)).
Proof. intros Ho a Ha. rewrite field_use by done. by apply Ho. Qed.
Lemma leads_captures params body span a : wf a -> leads vframe a (check_captures params body span a).
Proof.
  intros Ha. apply leads_fold; [|done]. intros x a' _ Ha'. destruct (lookup_var a' x) as [i|]; [|by apply leads_refl].
  assert (H1 : leads vframe a' (if v_mutable i then push_arc (mkArc x span AR_ClosureCaptureMut) a' else a')).
  { destruct (v_mutable i); [by apply leads_push_arc|by apply leads_refl]. }
  eapply leads_trans; [exact H1|]. apply leads_check, H1.
Qed.
Lemma total_lambda_param p : total frame (define_lambda_param p).
Proof.
  destruct p as [x ty d span]. intros a Ha. cbn.
  destruct (total_define x (owned_var false (is_opt_type_copy (tables a) ty true) span) eq_refl a Ha) as (a1 & E1 & L1).
  rewrite E1. cbn. eexists. split; [done|]. eapply leads_trans; [exact L1|]. apply leads_v. pose proof (l_wf _ _ _ L1).
  destruct ty as [[]|]; by apply leads_tables || by apply leads_refl.
Qed.
Lemma leads_record x ty init a : wf a -> leads vframe a (record_let_types x ty init a).
Proof.
  intros Ha. unfold record_let_types.
  set (a1 := match let_struct_name _ _ _ with Some _ => _ | None => _ end).
  assert (H1 : leads vframe a a1).
  { unfold a1. destruct (let_struct_name _ _ _); [|by apply leads_refl]. destruct (bool_decide _); [by apply leads_tables|by apply leads_refl]. }
  set (a2 := match let_tuple_elems _ _ _ with Some _ => _ | None => _ end).
  assert (H2 : leads vframe a1 a2).
  { unfold a2. destruct (let_tuple_elems _ _ _); [apply leads_tables|apply leads_refl]; apply H1. }
  eapply leads_trans; [exact H1|]. eapply leads_trans; [exact H2|].
  destruct (let_elem_is_copy _ _ _); [apply leads_tables|apply leads_refl]; apply H2.
Qed.

(** The fold over the branches of an [if] statement or the arms of a [match]. *)
Lemma total_fold_states {A} (f : A -> Analyzer * list (gmap str OwnershipState) -> res (Analyzer * list (gmap str OwnershipState))) (l : list A) :
  Forall (fun y => forall a states, wf a -> exists a', f y (a, states) = Done (a', states ++ [snapshot_states a']) /\ leads vframe a a') l ->
  forall a states, wf a -> exists a' states', foldM f l (a, states) = Done (a', states') /\ leads vframe a a'.
Proof.
  intros Hl. induction Hl as [|y l Hy Hl IH]; intros a states Ha; cbn.
  - exists a, states. split; [done|by apply leads_refl].
  - destruct (Hy a states Ha) as (a1 & E1 & L1). rewrite E1. cbn.
    destruct (IH a1 (states ++ [snapshot_states a1]) (l_wf _ _ _ L1)) as (a2 & st & E2 & L2).
    exists a2, st. split; [exact E2|]. by eapply leads_trans.
Qed.

Ltac run_with H a Ha :=
  let a' := fresh "a" in let E := fresh "E" in let L := fresh "L" in
  destruct (H a Ha) as (a' & E & L); rewrite E; cbn [mbind res_bind].

Lemma ends_if_expr c b1 b2 span :
  total vframe (analyze_expr_use c) -> total frame (analyze_block b1) -> match b2 with Some b => total frame (analyze_block b) | None => True end ->
  total vframe (analyze_expr_use (E_IfExpr c b1 b2 span)).
Proof.
  intros Hc H1 H2 a Ha. cbn [analyze_expr_use]. run_with Hc a Ha. pose proof (l_wf _ _ _ L) as W0.
  run_with (total_in_scope _ H1) a0 W0. pose proof (l_wf _ _ _ L0) as W1.
  destruct b2 as [b2|].
  - pose proof (leads_restore _ a1 (snapshot_plain a0 W0) W1) as Lr.
    run_with (total_in_scope _ H2) (restore_all (snapshot_full a0) a1) (l_wf _ _ _ Lr).
    eexists. split; [done|]. do 3 (eapply leads_trans; [eassumption|]).
    eapply leads_trans; [exact L1|]. apply leads_merge, L1.
  - eexists. split; [done|]. do 2 (eapply leads_trans; [eassumption|]). by apply leads_merge.
Qed.
Lemma ends_arm (before : gmap str (OwnershipState * gset str)) (pattern : Pattern) (guard : option Expr) (body : Expr) (a : Analyzer) (states : list (gmap str OwnershipState)) :
  plain before -> match guard with Some g => total vframe (analyze_expr_use g) | None => True end -> total vframe (analyze_expr_use body) -> wf a ->
  exists a', (let a := match states with [] => a | _ => restore_all before a end in
      a ← in_scope (fun a => a ← bind_pattern pattern a;
            a ← from_option analyze_expr_use Done guard a; analyze_expr_use body a) a;
      Done (a, states ++ [snapshot_states a])) = Done (a', states ++ [snapshot_states a'])
    /\ leads vframe a a'.
Proof.
  intros Hb Hg Hbody Ha. cbn zeta. set (a1 := match states with [] => a | _ => _ end).
  assert (L1 : leads vframe a a1) by (unfold a1; destruct states; [by apply leads_refl|by apply leads_restore]).
  assert (Ht : total frame (fun a => a ← bind_pattern pattern a; a ← from_option analyze_expr_use Done guard a; analyze_expr_use body a)).
  { apply (total_bind (bind_pattern pattern)); [apply total_bind_pattern|].
    apply (total_bind (from_option analyze_expr_use Done guard)); [|by apply total_v].
    apply total_v, total_option. by destruct guard. }
  run_with (total_in_scope _ Ht) a1 (l_wf _ _ _ L1). eexists. split; [done|]. by eapply leads_trans.
Qed.

Lemma ends_exprs es : Forall ends (map N_expr es) -> Forall (fun e => total vframe (analyze_expr_use e)) es.
Proof. induction es as [|e es IH]; cbn; intros H; split_nodes; constructor; auto. Qed.

Lemma ends_call callee args span :
  total vframe (analyze_expr_use callee) -> Forall (fun e => total vframe (analyze_expr_use e)) args ->
  total vframe (analyze_expr_use (E_FnCall callee args span)).
Proof.
  intros Hc Ha.
  assert (Hf : total vframe (fun a => a ← analyze_expr_use callee a; foldM analyze_expr_use args a)).
  { apply (total_bind (analyze_expr_use callee)); [done|by apply total_foldM]. }
  destruct callee; try exact Hf. destruct args as [|e1 [|e2 [|]]]; try exact Hf.
  apply Forall_cons_1 in Ha as [H1 Ha]. apply Forall_cons_1 in Ha as [H2 _].
  apply (total_bind (analyze_expr_use (E_Identifier name span0))); [done|].
  destruct (bool_decide (name = bytes "send")).
  - exact (total_bind (analyze_expr_use e1) _ H1 (total_move e2 H2)).
  - exact (total_bind (analyze_expr_use e1) _ H1 H2).
Qed.
Lemma ends_lambda params ret body span :
  total vframe (analyze_expr_use body) -> total vframe (analyze_expr_use (E_Lambda params ret body span)).
Proof.
  intros Hb. apply (total_after vframe (check_captures params body span)
    (in_scope (fun a => a ← foldM define_lambda_param params a; analyze_expr_use body a))).
  - intros a. apply leads_captures.
  - apply total_in_scope, (total_bind (foldM define_lambda_param params)); [|by apply total_v].
    apply total_foldM, Forall_true. intros p. apply total_lambda_param.
Qed.
Lemma ends_match subject arms span :
  total vframe (analyze_expr_use subject) ->
  Forall (fun arm => let 'mkArm _ guard body _ := arm in
    match guard with Some g => total vframe (analyze_expr_use g) | None => True end
    /\ total vframe (analyze_expr_use body)) arms ->
  total vframe (analyze_expr_use (E_MatchExpr subject arms span)).
Proof.
  intros Hs Harms a Ha. cbn [analyze_expr_use]. run_with Hs a Ha. pose proof (l_wf _ _ _ L) as W0.
  match goal with |- context [foldM ?f arms _] => pose proof (total_fold_states f arms) as Hfold end.
  edestruct Hfold as (a1 & st & E1 & L1); [|exact W0|].
  { eapply Forall_impl; [exact Harms|]. intros [pattern guard body sp] [Hg Hb] a1 st W1.
    by apply ends_arm; [apply snapshot_plain|..]. }
  rewrite E1. cbn. eexists. split; [done|]. eapply leads_trans; [exact L|]. eapply leads_trans; [exact L1|].
  apply leads_merge, L1.
Qed.
Lemma ends_shared inner span : total vframe (analyze_expr_use inner) -> total vframe (analyze_expr_use (E_SharedExpr inner span)).
Proof.
  intros Hi. apply (total_bind (move_with analyze_expr_use inner)
    (fun a => Done (match inner with E_Identifier name _ => push_arc (mkArc name span AR_ExplicitShared) a | _ => a end)));
    [by apply total_move|].
  apply total_pure. intros a Ha. destruct inner; by apply leads_refl || by apply leads_push_arc.
Qed.

Lemma ends_if_stmt c b elifs b2 span :
  total vframe (analyze_expr_use c) -> total frame (analyze_block b) ->
  Forall (fun '(c, b) => total vframe (analyze_expr_use c) /\ total frame (analyze_block b)) elifs ->
  match b2 with Some b => total frame (analyze_block b) | None => True end ->
  total frame (analyze_stmt (S_If c b elifs b2 span)).
Proof.
  intros Hc H1 Helifs H2. apply total_v. intros a Ha. cbn [analyze_stmt]. run_with Hc a Ha. pose proof (l_wf _ _ _ L) as W0.
  run_with (total_in_scope _ H1) a0 W0. pose proof (l_wf _ _ _ L0) as W1.
  pose proof (snapshot_plain a0 W0) as Hpl.
  match goal with |- context [foldM ?f elifs _] => pose proof (total_fold_states f elifs) as Hfold end.
  edestruct Hfold as (a2 & st & E2 & L2); [|exact W1|].
  { eapply Forall_impl; [exact Helifs|]. intros [c' b'] [Hc' Hb'] a3 st W3.
    pose proof (leads_restore _ a3 Hpl W3) as Lr.
    destruct (Hc' _ (l_wf _ _ _ Lr)) as (a4 & E4 & L4). rewrite E4. cbn [mbind res_bind].
    destruct (total_in_scope _ Hb' a4 (l_wf _ _ _ L4)) as (a5 & E5 & L5). rewrite E5. cbn [mbind res_bind].
    eexists. split; [done|]. do 2 (eapply leads_trans; [eassumption|]). exact L5. }
  rewrite E2. cbn [mbind res_bind].
  assert (L12 : leads vframe a a2) by (do 2 (eapply leads_trans; [eassumption|]); exact L2).
  pose proof (leads_restore _ a2 Hpl (l_wf _ _ _ L2)) as Lr.
  destruct b2 as [b2|].
  - run_with (total_in_scope _ H2) (restore_all (snapshot_full a0) a2) (l_wf _ _ _ Lr).
    eexists. split; [done|]. do 3 (eapply leads_trans; [eassumption|]). apply leads_merge, L1.
  - eexists. split; [done|]. by eapply leads_trans.
Qed.

Lemma ends_let x m ty init pat span :
  match init with Some e => total vframe (analyze_expr_use e) /\ Forall ends (expr_children e) | None => True end ->
  total frame (analyze_stmt (S_Let x m ty init pat span)).
Proof.
  intros Hi. destruct init as [e|].
  2: { intros a Ha. by apply total_define. }
  destruct Hi as [He Hch].
  assert (Hplain : total frame (fun a =>
      let is_copy := expr_is_copy a e || is_opt_type_copy (tables a) ty false in
      a ← (if is_copy || is_identifier e then analyze_expr_use e a else move_with analyze_expr_use e a);
      a ← define_var x (owned_var m is_copy span) a;
      Done (record_let_types x ty e a))).
  { intros a Ha. cbn zeta. set (cp := expr_is_copy a e || _).
    assert (Hk : total frame (fun a => a ← define_var x (owned_var m cp span) a; Done (record_let_types x ty e a))).
    { apply (total_bind (define_var x (owned_var m cp span))); [by apply total_define|].
      apply total_same; [apply _|]. intros a'. apply leads_record. }
    destruct (cp || is_identifier e).
    - exact (total_bind (analyze_expr_use e) _ (total_v _ He) Hk a Ha).
    - exact (total_bind (move_with analyze_expr_use e) _ (total_v _ (total_move e He)) Hk a Ha). }
  destruct e; try exact Hplain.
  - (* shared *)
    cbn in Hch. split_nodes. apply (total_bind (move_with analyze_expr_use e)
      (fun a => define_var x (mkVar OS_Shared m false span None ∅) (push_arc (mkArc x span0 AR_ExplicitShared) a)));
      [by apply total_v, total_move|].
    apply (total_after frame (push_arc (mkArc x span0 AR_ExplicitShared))); [|by apply total_define].
    intros a. apply leads_push_arc.
  - (* weak *)
    cbn in Hch. split_nodes. apply (total_bind (analyze_expr_use e)); [by apply total_v|]. by apply total_define.
Qed.

Lemma ends_assign target op value span :
  total vframe (analyze_expr_use target) -> Forall ends (expr_children target) -> total vframe (analyze_expr_use value) ->
  total frame (analyze_stmt (S_Assign target op value span)).
Proof.
  intros Ht Hch Hv. apply total_v.
  assert (Hk : total vframe (fun a => match target with
      | E_Identifier name _ => Done (alter_var set_owned name a)
      | E_FieldAccess object _ _ => analyze_expr_use object a
      | _ => analyze_expr_use target a end)).
  { destruct target; try exact Ht.
    - apply total_pure. intros a Ha. by apply leads_alter.
    - cbn in Hch. by split_nodes. }
  intros a Ha. cbn [analyze_stmt]. destruct (expr_is_copy a value || is_identifier value).
  - exact (total_bind (analyze_expr_use value) _ Hv Hk a Ha).
  - exact (total_bind (move_with analyze_expr_use value) _ (total_move value Hv) Hk a Ha).
Qed.

Lemma ends_range start end_ i span :
  match start with Some e => total vframe (analyze_expr_use e) | None => True end ->
  match end_ with Some e => total vframe (analyze_expr_use e) | None => True end ->
  total vframe (analyze_expr_use (E_RangeExpr start end_ i span)).
Proof.
  intros H1 H2. apply (total_bind (from_option analyze_expr_use Done start) (from_option analyze_expr_use Done end_));
    by apply total_option.
Qed.

Lemma walk_ends n : ends n.
Proof.
  induction n as [n IH IH2] using node_induction2. destruct n as [e|s|[ss sp]].
  - clear IH2. destruct e as [| | |parts sp| | | |x sp|object field sp|e1 e2 sp|op e1 e2 sp|op e1 sp|callee args sp|object m args sp
      |tn m es sp|es sp|es sp|entries sp|nm fields sp|params ret body sp|c b1 b2 sp|subject arms sp|start end_ i sp|e1 e2 sp
      |e1 m sp|e1 sp|e1 sp|e1 sp|e1 sp|b sp|b sp|b sp|e1 ty sp|b sp|e1 sp];
      cbn [children expr_children] in IH; cbn [ends]; split_nodes; cbn [ends] in *; try assumption; try apply total_ret;
      try (by apply total_in_scope).
    + apply total_foldM. induction parts as [|[] l IHl]; cbn in *; split_nodes; constructor; auto. apply total_ret.
    + apply total_pure. intros a. apply leads_check.
    + by apply total_field.
    + by apply (total_bind (analyze_expr_use e1)).
    + by apply (total_bind (analyze_expr_use e1)).
    + apply ends_call; [done|by apply ends_exprs].
    + apply (total_bind (analyze_expr_use object)); [done|]. by apply total_foldM, ends_exprs.
    + by apply total_foldM, ends_exprs.
    + by apply total_foldM, ends_exprs.
    + by apply total_foldM, ends_exprs.
    + apply total_foldM. induction entries as [|[k v] l IHl]; cbn in *; split_nodes; constructor; auto.
      by apply (total_bind (analyze_expr_use k)).
    + apply total_foldM. induction fields as [|[k v] l IHl]; cbn in *; split_nodes; constructor; auto.
    + by apply ends_lambda.
    + by apply ends_if_expr.
    + by apply ends_if_expr.
    + apply ends_match; [done|]. induction arms as [|[p g b s] l IHl]; cbn in *; split_nodes; constructor; auto.
    + by apply ends_range.
    + by apply ends_range.
    + by apply (total_bind (analyze_expr_use e1)).
    + by apply ends_shared.
    + by apply total_move.
  - destruct s as [x m ty init pat sp|target op rhs sp|rv sp|c b elifs b2 sp|par p e b sp|c b sp|sp|sp|e sp|e sp
      |branches timeout sp|b1 x b2 sp|e sp|denied b sp];
      cbn [children stmt_children] in IH, IH2; cbn [ends];
      try (destruct init as [init|]); try (destruct rv as [rv|]); try (destruct b2 as [b2|]); cbn [opt] in IH, IH2;
      split_nodes; cbn [ends] in *; try assumption; try apply total_ret;
      try (by apply total_v); try (by apply total_v, total_move).
    + by apply ends_let.
    + by apply ends_let.
    + by apply ends_assign.
    + apply ends_if_stmt; [done|done| |done].
      clear H3. induction elifs as [|[c' b'] l IHl]; cbn in *; split_nodes; constructor; auto.
    + apply ends_if_stmt; [done|done| |done].
      clear H3. induction elifs as [|[c' b'] l IHl]; cbn in *; split_nodes; constructor; auto.
    + apply total_v, (total_bind (analyze_expr_use e)); [done|by apply total_in_scope].
    + apply total_v, (total_bind (analyze_expr_use c)); [done|by apply total_in_scope].
    + apply total_foldM. clear IH2 IH.
      induction branches as [|[x ch body s] l IHl]; cbn in *; split_nodes; constructor; auto.
      apply total_v, (total_bind (analyze_expr_use ch)); [done|by apply total_in_scope].
    + apply total_v, (total_bind (in_scope (analyze_block b1))); [by apply total_in_scope|].
      apply total_in_scope, (total_bind (define_var x (owned_var false false sp))); [by apply total_define|done].
  - apply total_foldM. clear IH2. cbn in IH. induction ss as [|s ss IHs]; cbn in *; split_nodes; constructor; auto.
Qed.
Lemma expr_ends e : total vframe (analyze_expr_use e).
Proof. exact (walk_ends (N_expr e)). Qed.
Lemma stmt_ends s : total frame (analyze_stmt s).
Proof. exact (walk_ends (N_stmt s)). Qed.
Lemma block_ends b : total frame (analyze_block b).
Proof. exact (walk_ends (N_block b)). Qed.

(* ------------------------------------------------------------------ *)
(** ** Branches                                                        *)
(* ------------------------------------------------------------------ *)

Lemma col_restore_state (x y : str) st fields (a : Analyzer) :
  col x (alter_var (set_state st fields) y a) = if decide (y = x) then set_first st (col x a) else col x a.
Proof.
  unfold col, alter_var, with_scopes. cbn [scopes]. destruct (decide (y = x)) as [->|Hne]; [|by apply col_alter_ne].
  rewrite col_alter_eq. destruct (lookup_in (scopes a) x) as [i|] eqn:Hl; [done|].
  symmetry. apply set_first_none. by rewrite visible_lookup, Hl.
Qed.
Lemma col_restore_list (x : str) (l : list (str * (OwnershipState * gset str))) (a : Analyzer) :
  NoDup l.*1 ->
  col x (fold_left (fun a '(y, (st, fields)) => restore_full y st fields a) l a)
  = match list_to_map (M := gmap str _) l !! x with Some (st, _) => set_first st (col x a) | None => col x a end.
Proof.
  revert a. induction l as [|[y [st fields]] l IH]; intros a Hnd; cbn; [by rewrite lookup_empty|].
  cbn in Hnd. apply NoDup_cons in Hnd as [Hy Hnd]. rewrite IH by done. unfold restore_full. rewrite col_restore_state.
  destruct (decide (y = x)) as [->|Hne].
  - rewrite lookup_insert_eq. by rewrite not_elem_of_list_to_map_1.
  - by rewrite lookup_insert_ne.
Qed.
Lemma order_nodup m : NoDup (states_order m).*1.
Proof. rewrite states_perm. apply NoDup_fst_map_to_list. Qed.
Lemma order_map m : list_to_map (M := gmap str _) (states_order m) = m.
Proof. rewrite <-(list_to_map_to_list m) at 2. apply list_to_map_proper; [apply order_nodup|apply states_perm]. Qed.
Lemma col_restore_all (x : str) before (a : Analyzer) :
  col x (restore_all before a) = match before !! x with Some (st, _) => set_first st (col x a) | None => col x a end.
Proof. unfold restore_all. rewrite col_restore_list by apply order_nodup. by rewrite order_map. Qed.

Lemma vframe_restore c c' : vframe c c' -> match visible c with Some s => set_first s c' | None => c' end = c.
Proof.
  induction 1 as [|c c' H IH|s s' c]; cbn; [done| |done]. destruct (visible c); cbn; by rewrite IH.
Qed.
(** A branch leaves no trace: after the restoration every variable has the state that it
    had before. *)
Lemma restore_branch (x : str) (a0 a : Analyzer) : vframe (col x a0) (col x a) -> col x (restore_all (snapshot_full a0) a) = col x a0.
Proof.
  intros H%vframe_restore. rewrite col_restore_all, snapshot_full_lookup. rewrite visible_col in H.
  by destruct (lookup_var a0 x).
Qed.

Lemma diags_restore_all before (a : Analyzer) : od_diagnostics (restore_all before a) = od_diagnostics a.
Proof.
  unfold restore_all. revert a. induction (states_order before) as [|[y [st fs]] l IH]; intros a; cbn; [done|]. by rewrite IH.
Qed.

(** The state of a variable after a merge, by its states before and at the end of the
    branches. *)
Definition merged (x : str) (covered : bool) (states : list (gmap str OwnershipState)) (pre st : OwnershipState) : OwnershipState :=
  if negb (bool_decide (pre = OS_Owned)) then st
  else if covered && forallb (moved_in x) states then OS_Moved
  else if existsb (moved_in x) states then OS_Owned
  else st.
Lemma merge_warning (x : str) warn (b : bool) (y : str) (a : Analyzer) :
  col x (match warn with Some span => if b then add_diag (OD_ConditionalMove y span) a else a | None => a end) = col x a.
Proof. destruct warn; [by destruct b|done]. Qed.
Lemma set_first_id c s : visible c = Some s -> c = set_first s c.
Proof. intros H. symmetry. by apply set_first_visible. Qed.
Lemma merge_one_self (x : str) warn covered states pre (a : Analyzer) :
  col x (merge_one warn covered states x pre a)
  = match visible (col x a) with Some st => set_first (merged x covered states pre st) (col x a) | None => col x a end.
Proof.
  unfold merge_one, merged. destruct (negb _); [destruct (visible _) eqn:Hv; [by apply set_first_id|done]|].
  destruct (covered && _); [|destruct (existsb _ _)]; unfold restore_state;
    rewrite ?col_restore_state, ?decide_True, ?merge_warning by done;
    destruct (visible (col x a)) eqn:Hv; try done; by (apply set_first_none || apply set_first_id).
Qed.
Lemma merge_one_other (x : str) warn covered states (y : str) pre (a : Analyzer) :
  y <> x -> col x (merge_one warn covered states y pre a) = col x a.
Proof.
  intros Hyx. unfold merge_one. destruct (negb _); [done|].
  destruct (covered && _); [|destruct (existsb _ _)]; unfold restore_state;
    rewrite ?col_restore_state, ?decide_False by done; apply merge_warning.
Qed.
Lemma merge_list_col (x : str) (warn : option Span) (covered : bool) (states : list (gmap str OwnershipState)) (l : list (str * (OwnershipState * gset str))) (a : Analyzer) :
  NoDup l.*1 ->
  col x (fold_left (fun a '(name, (pre, _)) => merge_one warn covered states name pre a) l a)
  = match list_to_map (M := gmap str _) l !! x, visible (col x a) with
    | Some (pre, _), Some st => set_first (merged x covered states pre st) (col x a)
    | _, _ => col x a
    end.
Proof.
  revert a. induction l as [|[y [pre fs]] l IH]; intros a Hnd; cbn; [by rewrite lookup_empty|].
  cbn in Hnd. apply NoDup_cons in Hnd as [Hy Hnd]. rewrite IH by done. destruct (decide (y = x)) as [->|Hyx].
  - rewrite lookup_insert_eq, merge_one_self. rewrite not_elem_of_list_to_map_1 by done. done.
  - by rewrite lookup_insert_ne, merge_one_other by done.
Qed.
Lemma merge_branches_merged (x : str) warn covered before states (a : Analyzer) :
  col x (merge_branches warn covered before states a)
  = match before !! x, visible (col x a) with
    | Some (pre, _), Some st => set_first (merged x covered states pre st) (col x a)
    | _, _ => col x a
    end.
Proof. unfold merge_branches. by rewrite merge_list_col, order_map by apply order_nodup. Qed.
(** When the last branch is the one that the analyzer is in, the variable keeps its state
    or counts as owned. *)
Lemma merge_branches_col (x : str) warn covered before states (a : Analyzer) :
  (forall s, last states = Some s -> s !! x = visible (col x a)) -> (states = [] -> covered = false) ->
  col x (merge_branches warn covered before states a) = col x a
  \/ col x (merge_branches warn covered before states a) = set_first OS_Owned (col x a).
Proof.
  intros Hlast Hne. rewrite merge_branches_merged. destruct (before !! x) as [[pre fs]|]; [|by left].
  destruct (visible (col x a)) as [st|] eqn:Hv; [|by left]. unfold merged.
  destruct (negb _); [left; by apply set_first_visible|]. destruct (covered && forallb (moved_in x) states) eqn:Hall.
  - left. apply andb_true_iff in Hall as [Hcov Hall].
    destruct (last states) as [s|] eqn:Hs; [|by apply last_None, Hne in Hs; rewrite Hs in Hcov].
    rewrite forallb_forall in Hall. apply last_Some in Hs as Hl. destruct Hl as [l Hl].
    specialize (Hall s). unfold moved_in in Hall. rewrite bool_decide_eq_true in Hall.
    apply set_first_visible. rewrite Hv, <-(Hlast s eq_refl). apply Hall. rewrite Hl. apply in_or_app. right. by left.
  - destruct (existsb (moved_in x) states); [by right|left; by apply set_first_visible].
Qed.

(** The reports about a variable, with the state it is in. *)
Definition blame (d : OwnDiag) : option (str * Span * OwnershipState) :=
  match d with
  | OD_UseAfterMove y span _ => Some (y, span, OS_Moved)
  | OD_UseUninitialized y span _ => Some (y, span, OS_Uninitialized)
  | _ => None
  end.
Lemma merge_branches_diags warn covered before states (a : Analyzer) :
  exists ds, od_diagnostics (merge_branches warn covered before states a) = od_diagnostics a ++ ds
    /\ Forall (fun d => blame d = None) ds.
Proof.
  unfold merge_branches. revert a. induction (states_order before) as [|[y [pre fs]] l IH]; intros a; cbn.
  - exists []. by rewrite app_nil_r.
  - destruct (IH (merge_one warn covered states y pre a)) as (ds & -> & Hds).
    assert (H1 : exists ds1, od_diagnostics (merge_one warn covered states y pre a) = od_diagnostics a ++ ds1
      /\ Forall (fun d => blame d = None) ds1).
    { unfold merge_one. destruct (negb _); [exists []; by rewrite app_nil_r|].
      set (a1 := match warn with Some _ => _ | None => _ end).
      assert (H1 : exists ds1, od_diagnostics a1 = od_diagnostics a ++ ds1 /\ Forall (fun d => blame d = None) ds1).
      { unfold a1. destruct warn as [sp|]; [|by exists []; rewrite app_nil_r].
        destruct (_ && _); [|by exists []; rewrite app_nil_r]. exists [OD_ConditionalMove y sp]. by repeat constructor. }
      by destruct (covered && _); [|destruct (existsb _ _)]. }
    destruct H1 as (ds1 & -> & H1). exists (ds1 ++ ds). rewrite <-app_assoc. split; [done|]. by apply Forall_app.
Qed.

(* ------------------------------------------------------------------ *)
(** ** Steps that follow the paths                                     *)
(* ------------------------------------------------------------------ *)

Section Sound.
Context (x : str) (c0 : column).

(** The report is about a use on some path, where the variable is in the state that is
    reported. *)
Definition witnessed (R L : lang) (d : OwnDiag) : Prop :=
  forall sp st, blame d = Some (x, sp, st) ->
    exists t t1 t2, R t /\ L (t1 ++ Ev_use x sp :: t2) /\ (Ev_exit ∉ t1) /\ visible (run x (t ++ t1) c0) = Some st.
(** The reports of a step from [a] to [a']; when control passes through it ([full]), also
    what the analyzer knows after it. *)
Record follows (full : bool) (R L : lang) (a a' : Analyzer) : Prop := {
  f_knows : full = true -> knows x c0 (seq R (live L)) (col x a');
  f_diags : exists ds, od_diagnostics a' = od_diagnostics a ++ ds /\ Forall (witnessed R L) ds
}.
Definition stepping (full : bool) (L : lang) (a a' : Analyzer) : Prop :=
  forall R, knows x c0 R (col x a) -> follows full R L a a'.
Definition sounding (full : bool) (L : lang) (f : Analyzer -> res Analyzer) : Prop :=
  forall a a', wf a -> f a = Done a' -> stepping full L a a'.
Abbreviation stepped := (stepping true).
Abbreviation sound := (sounding true).

Lemma knows_paths R L L' c : (forall t, L t <-> L' t) -> knows x c0 (seq R L) c -> knows x c0 (seq R L') c.
Proof.
  intros HL. apply knows_equiv. intros t. split; intros (t1 & t2 & -> & ? & ?); exists t1, t2; split_and!; try done; by apply HL.
Qed.
Lemma knows_live_just R u c : Ev_exit ∉ u -> knows x c0 (seq R (just u)) c -> knows x c0 (seq R (live (just u))) c.
Proof. intros Hu. apply knows_paths. intros t. by rewrite live_just. Qed.

Lemma witnessed_more R (L L' : lang) d : (forall t, L t -> L' t) -> witnessed R L d -> witnessed R L' d.
Proof.
  intros HL H sp st Hd. destruct (H sp st Hd) as (t & t1 & t2 & H1 & H2 & H3). exists t, t1, t2. auto.
Qed.
Lemma witnessed_left R L1 L2 d : inhabited L2 -> witnessed R L1 d -> witnessed R (seq L1 L2) d.
Proof.
  intros [u Hu] H sp st Hd. destruct (H sp st Hd) as (t & t1 & t2 & H1 & H2 & H3). exists t, t1, (t2 ++ u).
  split; [done|]. split; [|done]. exists (t1 ++ Ev_use x sp :: t2), u. by rewrite <-app_assoc.
Qed.
Lemma witnessed_right R L1 L2 d : witnessed (seq R (live L1)) L2 d -> witnessed R (seq L1 L2) d.
Proof.
  intros H sp st Hd. destruct (H sp st Hd) as (t & t1 & t2 & (u1 & u2 & -> & Hu1 & [Hu2 Nu2]) & H2 & H3 & H4).
  exists u1, (u2 ++ t1), t2. split; [done|]. split; [exists u2, (t1 ++ Ev_use x sp :: t2); by rewrite <-app_assoc|].
  rewrite not_elem_of_app. by rewrite app_assoc.
Qed.
Lemma witnessed_other R L d : blame d = None -> witnessed R L d.
Proof. intros H sp st. by rewrite H. Qed.
Lemma Forall_witnessed R R' L L' ds :
  (forall d, witnessed R L d -> witnessed R' L' d) -> Forall (witnessed R L) ds -> Forall (witnessed R' L') ds.
Proof. intros H Hds. eapply Forall_impl; [exact Hds|exact H]. Qed.

Lemma stepped_refl full a : stepping full (just []) a a.
Proof.
  intros R HR. split; [|by exists []; rewrite app_nil_r]. intros _. apply knows_live_just; [by apply not_elem_of_nil|].
  eapply knows_equiv; [|exact HR]. intros t. by rewrite seq_nil_r.
Qed.
(** What is reported, without what is known after it. *)
Lemma stepping_reports full L a a' : stepping full L a a' -> stepping false L a a'.
Proof. intros H R HR. by split; [|apply (H R HR)]. Qed.
Lemma sounding_reports full L f : sounding full L f -> sounding false L f.
Proof. intros H a a' Ha E. by eapply stepping_reports, H. Qed.
Lemma follows_seq full R L1 L2 a a1 a2 :
  inhabited L2 -> follows true R L1 a a1 -> follows full (seq R (live L1)) L2 a1 a2 -> follows full R (seq L1 L2) a a2.
Proof.
  intros Hi [K1 (d1 & D1 & W1)] [K2 (d2 & D2 & W2)]. split.
  - intros Hfull. eapply (knows_paths R (seq (live L1) (live L2))); [intros t; by rewrite live_seq|].
    eapply knows_equiv; [|by apply K2]. intros t. apply seq_assoc.
  - exists (d1 ++ d2). rewrite D2, D1, <-app_assoc. split; [done|]. apply Forall_app. split.
    + eapply Forall_witnessed; [|exact W1]. intros d. by apply witnessed_left.
    + eapply Forall_witnessed; [|exact W2]. intros d. apply witnessed_right.
Qed.
Lemma stepped_trans full L1 L2 a1 a2 a3 :
  inhabited L2 -> stepped L1 a1 a2 -> stepping full L2 a2 a3 -> stepping full (seq L1 L2) a1 a3.
Proof. intros Hi H1 H2 R HR. pose proof (H1 R HR) as F. eapply follows_seq; [done|exact F|]. by apply H2, F. Qed.
(** What comes after code that may leave is not looked at. *)
Lemma stepping_before L1 L2 a a' a'' :
  inhabited L2 -> od_diagnostics a'' = od_diagnostics a' -> stepping false L1 a a' -> stepping false (seq L1 L2) a a''.
Proof.
  intros Hi Hd H R HR. destruct (H R HR) as [_ (ds & D & W)]. split; [done|]. exists ds. rewrite Hd. split; [done|].
  eapply Forall_witnessed; [|exact W]. intros d. by apply witnessed_left.
Qed.
Lemma stepped_equiv full L L' a a' : (forall t, L t <-> L' t) -> stepping full L a a' -> stepping full L' a a'.
Proof.
  intros HL H R HR. destruct (H R HR) as [K (ds & D & W)]. split.
  - intros Hf. eapply knows_paths; [|by apply K]. intros t. unfold live. by rewrite HL.
  - exists ds. split; [done|]. eapply Forall_witnessed; [|exact W]. intros d. apply witnessed_more, HL.
Qed.
Lemma knows_columns R a : wf a -> knows x c0 R (col x a) -> forall t, R t -> run x t c0 <> [].
Proof.
  intros [Hn _] [_ Hs _] t Ht. eapply shape_nonempty; [by apply shape_sym, Hs|].
  intros Hc. by apply fmap_nil_inv in Hc.
Qed.
(** Some of the paths are enough. *)
Lemma stepped_widen full L L' a a' :
  wf a -> vframe (col x a) (col x a') -> (forall t, L t -> L' t) -> vlocal x L' -> stepping full L a a' -> stepping full L' a a'.
Proof.
  intros Ha Hf HL HL' H R HR. destruct (H R HR) as [K (ds & D & W)]. split.
  - intros Hfull. eapply (knows_widen _ _ R (live L)); [by eapply knows_columns|exact HR|exact Hf| |by apply live_vlocal|by apply K].
    intros t. by apply live_mono.
  - exists ds. split; [done|]. eapply Forall_witnessed; [|exact W]. intros d. by apply witnessed_more.
Qed.
(** A change that leaves the variable alone, or makes it owned, and blames nobody. *)
Lemma stepped_quiet full L a a' a'' :
  stepping full L a a' -> (col x a'' = col x a' \/ col x a'' = set_first OS_Owned (col x a')) ->
  (exists ds, od_diagnostics a'' = od_diagnostics a' ++ ds /\ Forall (fun d => blame d = None) ds) -> stepping full L a a''.
Proof.
  intros H Hc (d2 & D2 & W2) R HR. destruct (H R HR) as [K (d1 & D1 & W1)]. split.
  - intros Hf. specialize (K Hf). destruct Hc as [-> | ->]; [done|by apply knows_owned].
  - exists (d1 ++ d2). rewrite D2, D1, <-app_assoc. split; [done|]. apply Forall_app. split; [done|].
    eapply Forall_impl; [exact W2|]. intros d. apply witnessed_other.
Qed.
Lemma stepped_same full L a a' a'' :
  stepping full L a a' -> col x a'' = col x a' -> od_diagnostics a'' = od_diagnostics a' -> stepping full L a a''.
Proof. intros H Hc Hd. eapply stepped_quiet; [exact H|by left|]. exists []. by rewrite app_nil_r. Qed.
(** The start matters only as far as the variable and the reports go. *)
Lemma stepped_from full L a a0 a' :
  stepping full L a a' -> col x a0 = col x a -> od_diagnostics a0 = od_diagnostics a -> stepping full L a0 a'.
Proof. intros H Hc Hd R HR. rewrite Hc in HR. destruct (H R HR) as [K D]. split; [done|]. by rewrite Hd. Qed.

Lemma sound_ret : sound (just []) Done.
Proof. intros a a' _ [= <-]. apply stepped_refl. Qed.
Lemma res_bind_done {A B} (r : res A) (k : A -> res B) b : (y ← r; k y) = Done b -> exists y, r = Done y /\ k y = Done b.
Proof. destruct r as [y| |]; cbn; try done. intros H. by exists y. Qed.
Lemma total_done fr f a a' : total fr f -> wf a -> f a = Done a' -> leads fr a a'.
Proof. intros Hf Ha E. destruct (Hf a Ha) as (a1 & E1 & L). rewrite E1 in E. by injection E as <-. Qed.
Lemma sound_bind {full} fr L1 L2 f g :
  total fr f -> inhabited L2 -> sound L1 f -> sounding full L2 g -> sounding full (seq L1 L2) (fun a => a ← f a; g a).
Proof.
  intros Ht Hi Hf Hg a a' Ha E. apply res_bind_done in E as (a1 & E1 & E2).
  pose proof (total_done fr f a a1 Ht Ha E1) as L. eapply stepped_trans; [done|by apply Hf|]. by apply Hg; [apply L|].
Qed.
Lemma sound_equiv {full} L L' f : (forall t, L t <-> L' t) -> sounding full L f -> sounding full L' f.
Proof. intros HL H a a' Ha E. eapply stepped_equiv; [exact HL|by apply H]. Qed.
Lemma sound_widen L L' f : total vframe f -> (forall t, L t -> L' t) -> vlocal x L' -> sound L f -> sound L' f.
Proof.
  intros Ht HL HL' H a a' Ha E. pose proof (total_done vframe f a a' Ht Ha E) as Hl.
  eapply stepped_widen; [done|apply Hl|exact HL|exact HL'|by apply H].
Qed.
Lemma sound_foldM {A} fr (f : A -> Analyzer -> res Analyzer) (g : A -> lang) l :
  Forall (fun y => total fr (f y) /\ inhabited (g y) /\ sound (g y) (f y)) l -> sound (seqs (map g l)) (foldM f l).
Proof.
  induction 1 as [|y l (Ht & Hi & Hs) Hl IH]; [apply sound_ret|]. cbn.
  apply (sound_bind fr (g y) (seqs (map g l)) (f y) (foldM f l)); [done| |done|done].
  apply inhabited_seqs. clear -Hl. induction Hl as [|z l (? & ? & ?) Hl IH]; constructor; done.
Qed.
Lemma sound_maybe {A} (f : A -> Analyzer -> res Analyzer) (g : A -> lang) o :
  match o with Some y => sound (g y) (f y) | None => True end -> sound (maybe g o) (from_option f Done o).
Proof. destruct o; [done|]. intros _. apply sound_ret. Qed.

(** An event that the analyzer sees. *)
Lemma stepped_event e a a' : e <> Ev_exit -> col x a' = ev_step x (col x a) e -> od_diagnostics a' = od_diagnostics a -> stepped (just [e]) a a'.
Proof.
  intros He Hc Hd R HR. split; [|by exists []; rewrite app_nil_r]. intros _.
  apply knows_live_just; [by apply not_elem_of_cons; split; [|apply not_elem_of_nil]|]. rewrite Hc. by apply knows_event.
Qed.
Lemma sound_in_scope {full} L f : good x L -> sounding full L f -> sounding full (scoped L) (in_scope f).
Proof.
  intros [Hi _] Hf a a' Ha E. unfold in_scope in E. apply res_bind_done in E as (a1 & E1 & E2).
  unfold pop_scope in E2. destruct (scopes a1) as [|sc1 [|sc2 s2]] eqn:Hs1; [done|done|]. injection E2 as <-.
  assert (Hw : wf (push_scope a)) by (destruct Ha as [Hn Hc]; split; [done|by constructor; [apply map_Forall_empty|]]).
  apply stepped_trans with (push_scope a).
  - apply inhabited_seq; [done|apply inhabited_just].
  - apply stepped_event; [done| |done]. unfold col. cbn. by rewrite lookup_empty.
  - destruct full; [|by apply stepping_before with a1; [apply inhabited_just|done|apply Hf]].
    apply stepped_trans with a1; [apply inhabited_just|by apply Hf|]. apply stepped_event; [done| |done].
    unfold col. cbn. by rewrite Hs1.
Qed.

(** A variable is read. *)
Lemma col_check y span a : col x (check_usable y span a) = col x a.
Proof. unfold check_usable. destruct (lookup_var a y) as [i|]; [|done]. by destruct (v_state i). Qed.
Definition blames (R : lang) (y : str) (span : Span) (d : OwnDiag) : Prop :=
  forall z sp st, blame d = Some (z, sp, st) ->
    z = y /\ sp = span /\ (y = x -> exists t, R t /\ visible (run x t c0) = Some st).
Lemma use_report R y span a :
  knows x c0 R (col x a) ->
  exists ds, od_diagnostics (check_usable y span a) = od_diagnostics a ++ ds /\ Forall (blames R y span) ds.
Proof.
  intros HR. unfold check_usable. destruct (lookup_var a y) as [i|] eqn:Hi; [|by exists []; rewrite app_nil_r].
  assert (Hw : bad (v_state i) -> y = x -> exists t, R t /\ visible (run x t c0) = Some (v_state i)).
  { intros Hbad ->. assert (Hv : visible (col x a) = Some (v_state i)) by (by rewrite visible_col, Hi).
    destruct (visible_index _ _ Hv) as (j & Hj & Hvis).
    destruct (k_bad _ _ _ _ HR j (v_state i) Hbad Hj) as (t & Ht & Hr). exists t. split; [done|].
    apply (Hvis (run x t c0)); [|done]. apply shape_sym. by apply (k_shape _ _ _ _ HR). }
  destruct (v_state i) eqn:Hst; try (by exists []; rewrite app_nil_r); eexists; (split; [done|]); constructor; try done;
    intros z sp st [= <- <- <-]; (split; [done|split; [done|]]); apply Hw; [by left|by right].
Qed.
Lemma sound_use y span : sound (just [Ev_use y span]) (fun a => Done (check_usable y span a)).
Proof.
  intros a a' Ha [= <-] R HR. split.
  - intros _. rewrite col_check. apply knows_live_just; [by apply not_elem_of_cons; split; [|apply not_elem_of_nil]|].
    by apply (knows_event _ _ R (col x a) (Ev_use y span)).
  - destruct (use_report R y span a HR) as (ds & D & W). exists ds. split; [done|].
    eapply Forall_impl; [exact W|]. intros d Hd sp st (<- & -> & H)%Hd. destruct (H eq_refl) as (t & Ht & Hv).
    exists t, [], []. rewrite app_nil_r. split_and!; try done. apply not_elem_of_nil.
Qed.

Definition all_uses (u : list ev) : Prop := Forall (fun e => match e with Ev_use _ _ => True | _ => False end) u.
Lemma uses_live u : all_uses u -> Ev_exit ∉ u.
Proof. intros Hu Hin. unfold all_uses in Hu. rewrite Forall_forall in Hu. by apply (Hu _ Hin). Qed.
Lemma run_uses u c : all_uses u -> run x u c = c.
Proof. intros Hu. revert c. induction Hu as [|e u He Hu IH]; intros c; [done|]. destruct e; try done; cbn; apply IH. Qed.
(** Several variables are read at one place. *)
Lemma stepped_uses u span l (g : Analyzer -> str -> Analyzer) a :
  all_uses u -> (x ∈ l -> Ev_use x span ∈ u) ->
  (forall a y, g a y = a \/ exists a1, col x a1 = col x a /\ od_diagnostics a1 = od_diagnostics a /\ g a y = check_usable y span a1) ->
  stepped (just u) a (fold_left g l a).
Proof.
  intros Hu Hl Hg R HR.
  assert (H : col x (fold_left g l a) = col x a
    /\ exists ds, od_diagnostics (fold_left g l a) = od_diagnostics a ++ ds
       /\ Forall (fun d => forall sp st, blame d = Some (x, sp, st) ->
            sp = span /\ x ∈ l /\ exists t, R t /\ visible (run x t c0) = Some st) ds).
  { clear Hl. revert a HR. induction l as [|y l IH]; intros a HR; cbn; [split; [done|exists []; by rewrite app_nil_r]|].
    assert (H1 : col x (g a y) = col x a
      /\ exists ds, od_diagnostics (g a y) = od_diagnostics a ++ ds /\ Forall (blames R y span) ds).
    { destruct (Hg a y) as [->|(a1 & Hc & Hd & ->)]; [split; [done|exists []; by rewrite app_nil_r]|].
      rewrite col_check, <-Hd, Hc. split; [done|]. apply use_report. by rewrite Hc. }
    destruct H1 as (Hc1 & d1 & D1 & W1). destruct (IH (g a y)) as (Hc2 & d2 & D2 & W2); [by rewrite Hc1|].
    split; [by rewrite Hc2|]. exists (d1 ++ d2). rewrite D2, D1, <-app_assoc. split; [done|]. apply Forall_app. split.
    - eapply Forall_impl; [exact W1|]. intros d Hd sp st (-> & -> & H)%Hd. split; [done|]. split; [constructor|auto].
    - eapply Forall_impl; [exact W2|]. intros d Hd sp st (-> & H & Ht)%Hd. split; [done|]. split; [by constructor|done]. }
  destruct H as (Hc & ds & D & W). split.
  - intros _. apply knows_live_just; [by apply uses_live|]. rewrite Hc. apply knows_silent; [apply inhabited_just| |done]. intros t c ->. by apply run_uses.
  - exists ds. split; [done|]. eapply Forall_impl; [exact W|]. intros d Hd sp st (-> & Hx & t & Ht & Hv)%Hd.
    apply list_elem_of_split in Hl as (u1 & u2 & ->); [|done]. exists t, u1, u2. split; [done|]. split; [done|].
    apply Forall_app in Hu as [Hu _]. rewrite run_app, run_uses by done. split; [|done]. by apply uses_live.
Qed.

(** A variable is given away. *)
Lemma sound_mark y span :
  sound (alt (just [Ev_use y span]) (just [Ev_use y span; Ev_move y]))
    (fun a => Done (mark_moved y span (check_usable y span a))).
Proof.
  intros a a' Ha E. pose proof (value_good x (E_Identifier y span)) as [_ Hl].
  assert (Hk : leads vframe a a').
  { injection E as <-. eapply leads_trans; [by apply leads_check|]. by eapply leads_mark, l_wf, leads_check. }
  injection E as <-. set (a1 := check_usable y span a) in *.
  assert (H1 : stepped (just [Ev_use y span]) a a1) by (by apply sound_use).
  unfold mark_moved in *. destruct (lookup_var a1 y) as [i|] eqn:Hi.
  2:{ eapply stepped_widen; [done|apply Hk| |exact Hl|exact H1]. intros t Ht. by left. }
  destruct (v_is_copy i || _).
  { eapply stepped_widen; [done|apply Hk| |exact Hl|exact H1]. intros t Ht. by left. }
  eapply (stepped_widen true (seq (just [Ev_use y span]) (just [Ev_move y]))); [done|apply Hk| |exact Hl|].
  - intros t (t1 & t2 & -> & -> & ->). by right.
  - eapply stepped_trans; [apply inhabited_just|exact H1|]. apply stepped_event; [done| |done].
    unfold col, alter_var, with_scopes. cbn [scopes ev_step]. destruct (decide (y = x)) as [->|Hne].
    + rewrite col_alter_eq. unfold lookup_var in Hi. by rewrite Hi.
    + by apply col_alter_ne.
Qed.
Lemma sound_field object field span :
  sound (expr_paths object) (analyze_expr_use object) <->
  sound (expr_paths object) (analyze_expr_use (E_FieldAccess object field span)).
Proof. split; intros H a a' Ha E; apply H; try done; by rewrite field_use in *. Qed.
Lemma sound_move e :
  sound (expr_paths e) (analyze_expr_use e) -> sound (value_paths expr_paths e) (move_with analyze_expr_use e).
Proof.
  intros He. destruct e as [| | | | | | |y span|object field span| | | | | | | | | | | | | | | | | | | | | | | | | |]; try exact He.
  - apply sound_mark.
  - apply (proj2 (sound_field object field span)) in He.
    destruct object as [| | | | | | |y sp| | | | | | | | | | | | | | | | | | | | | | | | | | |]; try exact He. apply sound_use.
Qed.

(** A variable is declared. *)
Lemma stepped_define y i b a a' :
  match v_state i with OS_Uninitialized => b = false | OS_Owned | OS_Shared => b = true | _ => False end ->
  define_var y i a = Done a' -> stepped (just [Ev_define y b]) a a'.
Proof.
  intros Hb E. unfold define_var in E. destruct (scopes a) as [|sc s] eqn:Hs; [done|]. injection E as <-.
  assert (Hc : col x (with_scopes (<[y := i]> sc :: s) a) = if decide (y = x) then Some (v_state i) :: tail (col x a) else col x a).
  { unfold col, with_scopes. cbn [scopes]. rewrite Hs. cbn. destruct (decide (y = x)) as [->|Hne].
    - by rewrite lookup_insert_eq.
    - by rewrite lookup_insert_ne. }
  assert (Hne : col x a = (v_state <$> sc !! x) :: tail (col x a)) by (unfold col; by rewrite Hs).
  assert (Hk : forall R, knows x c0 R (col x a) ->
    knows x c0 (seq R (just [Ev_define y b])) (col x (with_scopes (<[y := i]> sc :: s) a))).
  { intros R HR. pose proof (knows_event x c0 R (col x a) (Ev_define y b) HR) as K. rewrite Hc. cbn [ev_step] in K.
    destruct (decide (y = x)); [|done]. rewrite Hne in K. destruct (v_state i); try done; subst b; try done.
    by apply knows_shared. }
  intros R HR. split; [|by exists []; rewrite app_nil_r]. intros _.
  apply knows_live_just; [by apply not_elem_of_cons; split; [|apply not_elem_of_nil]|by apply Hk].
Qed.
Lemma sound_define y i b :
  match v_state i with OS_Uninitialized => b = false | OS_Owned | OS_Shared => b = true | _ => False end ->
  sound (just [Ev_define y b]) (define_var y i).
Proof. intros Hb a a' _ E. by eapply stepped_define. Qed.

(** The names of a pattern. *)
Lemma seq_just u v t : seq (just u) (just v) t <-> just (u ++ v) t.
Proof. split; [by intros (t1 & t2 & -> & -> & ->)|]. intros ->. by exists u, v. Qed.
Lemma sound_defines xs ys f g :
  total frame f -> sound (just (defines xs)) f -> sound (just (defines ys)) g ->
  sound (just (defines (xs ++ ys))) (fun a => a ← f a; g a).
Proof.
  intros Ht Hf Hg. unfold defines. rewrite fmap_app. eapply sound_equiv; [apply seq_just|].
  eapply sound_bind; [exact Ht|apply inhabited_just|exact Hf|exact Hg].
Qed.
Lemma sound_bind_pattern p : sound (just (defines (pattern_names p))) (bind_pattern p).
Proof.
  revert p. fix IH 1. intros p. destruct p as [|y m sp| |ps sp|n fs sp|n v ps sp|ps sp]; cbn.
  - apply sound_ret.
  - by apply (sound_define y (owned_var m false sp) true).
  - apply sound_ret.
  - induction ps as [|p ps IHps]; cbn; [apply sound_ret|].
    by apply (sound_defines _ _ (bind_pattern p) (foldM bind_pattern ps)); [apply total_bind_pattern|apply IH|].
  - induction fs as [|[z p] fs IHfs]; cbn; [apply sound_ret|].
    by apply (sound_defines _ _ (bind_pattern p) (foldM (fun '(_, p) => bind_pattern p) fs)); [apply total_bind_pattern|apply IH|].
  - intros a a' Ha E. revert E. generalize (default [] (variant_types (tables a) n v)). intros tys.
    revert tys a a' Ha. induction ps as [|p ps IHps]; intros tys a a' Ha E; cbn in E |- *; [by apply sound_ret|].
    apply res_bind_done in E as (a1 & E1 & E2).
    assert (Hf : leads frame a a1 /\ stepped (just (defines (pattern_names p))) a a1).
    { pose proof (IH p) as Hp. pose proof (total_bind_pattern p) as Ht.
      destruct p as [|y m sp'| | | | |];
        try (by split; [eapply total_done; [exact Ht|done|exact E1]|apply Hp]).
      cbn zeta in E1. set (a2 := match head tys with Some _ => _ | None => _ end) in E1.
      assert (H2 : leads vframe a a2 /\ col x a2 = col x a /\ od_diagnostics a2 = od_diagnostics a).
      { unfold a2. destruct (head tys) as [[]|]; (split; [by apply leads_refl || by apply leads_tables|done]). }
      destruct H2 as (L2 & Hc & Hd). split.
      - eapply leads_trans; [apply leads_v; exact L2|]. refine (total_done frame _ a2 a1 (total_define y (owned_var m (is_opt_type_copy (tables a2) (head tys) false) sp') eq_refl) (l_wf _ _ _ L2) E1).
      - eapply stepped_from; [|symmetry; exact Hc|symmetry; exact Hd].
        by eapply (stepped_define y (owned_var m (is_opt_type_copy (tables a2) (head tys) false) sp') true). }
    destruct Hf as [L1 H1]. unfold defines. rewrite fmap_app. eapply stepped_equiv; [apply seq_just|].
    eapply stepped_trans; [apply inhabited_just|exact H1|]. eapply IHps; [apply L1|exact E2].
  - destruct ps as [|p ps]; [apply sound_ret|apply IH].
Qed.

(** Closures. *)
Lemma sound_check_captures params body span :
  x ∉ bound (N_expr body) ->
  sound (just (captures params body span)) (fun a => Done (check_captures params body span a)).
Proof.
  intros Hx a a' Ha [= <-]. apply stepped_uses with span.
  - unfold captures, all_uses. apply Forall_fmap, Forall_true. intros y. exact I.
  - intros Hin. apply collect_captures_occurs in Hin as [Ho Hp]. unfold captures. apply list_elem_of_fmap.
    exists x. split; [done|]. apply list_elem_of_filter. split; [|done]. by rewrite not_elem_of_app.
  - intros a1 y. destruct (lookup_var a1 y) as [i|]; [|by left]. right. exists (if v_mutable i then push_arc (mkArc y span AR_ClosureCaptureMut) a1 else a1).
    by destruct (v_mutable i).
Qed.
Lemma sound_lambda_param p : sound (just (defines [param_name p])) (define_lambda_param p).
Proof.
  destruct p as [y ty d span]. intros a a' Ha E. cbn in E. apply res_bind_done in E as (a1 & E1 & E2).
  pose proof (stepped_define y (owned_var false (is_opt_type_copy (tables a) ty true) span) true a a1 eq_refl E1) as H.
  eapply stepped_same; [exact H|injection E2 as <-; by destruct ty as [[]|]..].
Qed.
Lemma sound_params (f : Param -> Analyzer -> res Analyzer) params :
  (forall p, total frame (f p)) -> (forall p, sound (just (defines [param_name p])) (f p)) ->
  sound (just (defines (param_name <$> params))) (foldM f params).
Proof.
  intros Ht Hf. induction params as [|p l IH]; [apply sound_ret|].
  exact (sound_defines [param_name p] (param_name <$> l) (f p) (foldM f l) (Ht p) (Hf p) IH).
Qed.
Lemma sound_lambda params ret body span :
  x ∉ bound (N_expr body) -> sound (expr_paths body) (analyze_expr_use body) ->
  sound (expr_paths (E_Lambda params ret body span)) (analyze_expr_use (E_Lambda params ret body span)).
Proof.
  intros Hx Hb.
  apply (sound_bind vframe _ _ (fun a => Done (check_captures params body span a))
    (in_scope (fun a => a ← foldM define_lambda_param params a; analyze_expr_use body a))).
  - apply total_same; [apply _|]. intros a. apply leads_captures.
  - apply inhabited_scoped, inhabited_seq; [apply inhabited_just|apply (expr_good x)].
  - by apply sound_check_captures.
  - apply sound_in_scope; [apply good_seq; [apply good_defines_names|apply vgood_good, expr_good]|].
    apply (sound_bind frame); [|apply (expr_good x)| |done].
    + apply total_foldM, Forall_true. intros p. apply total_lambda_param.
    + apply sound_params; [apply total_lambda_param|apply sound_lambda_param].
Qed.

(** Branches: each one starts from the state before them. *)
Lemma follows_branch full R L1 L2 a0 a1 a2 a3 :
  wf a0 -> knows x c0 R (col x a0) -> vframe (col x a0) (col x a3) -> vlocal x (alt L1 L2) ->
  (exists ds, od_diagnostics a2 = od_diagnostics a1 ++ ds /\ Forall (witnessed R L1) ds) ->
  follows full R L2 a2 a3 -> follows full R (alt L1 L2) a1 a3.
Proof.
  intros Ha HR Hf HL (d1 & D1 & W1) [K2 (d2 & D2 & W2)]. split.
  - intros Hfull. eapply (knows_widen _ _ R (live L2));
      [by eapply knows_columns|exact HR|exact Hf| |by apply live_vlocal|by apply K2].
    intros t. apply live_mono. intros u Hu. by right.
  - exists (d1 ++ d2). rewrite D2, D1, <-app_assoc. split; [done|]. apply Forall_app. split.
    + eapply Forall_witnessed; [|exact W1]. intros d. apply witnessed_more. intros t Ht. by left.
    + eapply Forall_witnessed; [|exact W2]. intros d. apply witnessed_more. intros t Ht. by right.
Qed.
Lemma stepped_branch full any L1 L2 a0 a1 a2 a3 :
  wf a0 -> vframe (col x a0) (col x a3) -> vlocal x (alt L1 L2) -> stepping any L1 a0 a1 ->
  col x a2 = col x a0 -> od_diagnostics a2 = od_diagnostics a1 -> stepping full L2 a2 a3 -> stepping full (alt L1 L2) a0 a3.
Proof.
  intros Ha Hf HL H1 Hc Hd H2 R HR. destruct (H1 R HR) as [_ (d1 & D1 & W1)].
  apply (follows_branch full R L1 L2 a0 a0 a2 a3); try done; [exists d1; by rewrite Hd|]. apply H2. by rewrite Hc.
Qed.

Lemma stepped_merge full L warn covered before states a a1 :
  stepping full L a a1 -> (forall s, last states = Some s -> s = snapshot_states a1) -> (states = [] -> covered = false) ->
  stepping full L a (merge_branches warn covered before states a1).
Proof.
  intros H Hlast Hcov. eapply stepped_quiet; [exact H|apply merge_branches_col; [|done]|apply merge_branches_diags].
  intros s ->%Hlast. by rewrite snapshot_states_lookup, visible_col.
Qed.

Lemma sound_if_expr c b1 b2 span :
  sound (expr_paths c) (analyze_expr_use c) -> sound (block_paths b1) (analyze_block b1) ->
  match b2 with Some b => sound (block_paths b) (analyze_block b) | None => True end ->
  sound (expr_paths (E_IfExpr c b1 b2 span)) (analyze_expr_use (E_IfExpr c b1 b2 span)).
Proof.
  intros Hc H1 H2 a a' Ha E. cbn [analyze_expr_use] in E. apply res_bind_done in E as (a0 & E0 & E).
  pose proof (l_wf _ _ _ (total_done _ _ _ _ (expr_ends c) Ha E0)) as W0. cbn [expr_paths].
  assert (Hv : vgood x (alt (scoped (block_paths b1)) (maybe (fun b => scoped (block_paths b)) b2))).
  { apply vgood_alt; [auto with paths|]. apply vgood_maybe. destruct b2; auto with paths. }
  eapply stepped_trans; [apply Hv|by apply Hc|]. cbn zeta in E. apply res_bind_done in E as (a1 & E1 & E).
  pose proof (total_done _ _ _ _ (total_in_scope _ (block_ends b1)) W0 E1) as L1.
  assert (S1 : stepped (scoped (block_paths b1)) a0 a1) by (eapply sound_in_scope; [apply block_good|exact H1|done..]).
  destruct b2 as [b2|].
  - apply res_bind_done in E as (a3 & E3 & E). injection E as <-.
    pose proof (leads_restore _ a1 (snapshot_plain a0 W0) (l_wf _ _ _ L1)) as Lr.
    pose proof (total_done _ _ _ _ (total_in_scope _ (block_ends b2)) (l_wf _ _ _ Lr) E3) as L3.
    assert (Hr : col x (restore_all (snapshot_full a0) a1) = col x a0) by apply restore_branch, L1.
    apply stepped_merge; [|by intros s [= <-]|done].
    eapply stepped_branch; [done| |apply Hv|exact S1|exact Hr|apply diags_restore_all|].
    + rewrite <-Hr. apply L3.
    + eapply sound_in_scope; [apply block_good|exact H2|apply Lr|done].
  - injection E as <-. apply stepped_merge; [|by intros s [= <-]|done].
    eapply stepped_widen; [done|apply L1| |apply Hv|exact S1]. intros t Ht. by left.
Qed.

(** The arms of a [match]. *)
Definition arm_paths (arm : MatchArm) : lang :=
  let 'mkArm pattern guard body _ := arm in
  scoped (seq (just (defines (pattern_names pattern))) (seq (maybe expr_paths guard) (expr_paths body))).
Definition arm_sound (arm : MatchArm) : Prop :=
  let 'mkArm _ guard body _ := arm in
  match guard with Some g => sound (expr_paths g) (analyze_expr_use g) | None => True end
  /\ sound (expr_paths body) (analyze_expr_use body).
Definition analyze_arm (pattern : Pattern) (guard : option Expr) (body : Expr) : Analyzer -> res Analyzer :=
  in_scope (fun a => a ← bind_pattern pattern a; a ← from_option analyze_expr_use Done guard a; analyze_expr_use body a).
Lemma arm_good arm : vgood x (arm_paths arm).
Proof.
  destruct arm as [pattern guard body sp]. apply vgood_scoped, good_seq; [apply good_defines_names|].
  apply vgood_good, vgood_seq; [|apply expr_good]. apply vgood_maybe. destruct guard; auto with paths.
Qed.
Lemma arm_ends pattern guard body : total vframe (analyze_arm pattern guard body).
Proof.
  apply total_in_scope, (total_bind (bind_pattern pattern)); [apply total_bind_pattern|].
  apply (total_bind (from_option analyze_expr_use Done guard)); [|by apply total_v, expr_ends].
  apply total_v, total_option. destruct guard; [apply expr_ends|done].
Qed.
Lemma sound_arm pattern guard body sp :
  arm_sound (mkArm pattern guard body sp) -> sound (arm_paths (mkArm pattern guard body sp)) (analyze_arm pattern guard body).
Proof.
  intros [Hg Hb].
  assert (Ht : total vframe (from_option analyze_expr_use Done guard)) by (apply total_option; destruct guard; [apply expr_ends|done]).
  assert (Hi : vgood x (seq (maybe expr_paths guard) (expr_paths body))).
  { apply vgood_seq; [|apply expr_good]. apply vgood_maybe. destruct guard; auto with paths. }
  apply sound_in_scope; [apply good_seq; [apply good_defines_names|by apply vgood_good]|].
  apply (sound_bind frame); [apply total_bind_pattern|apply Hi|apply sound_bind_pattern|].
  apply (sound_bind vframe); [done|apply (expr_good x)| |done]. by apply sound_maybe.
Qed.
Lemma one_of_snoc Ls L : Ls <> [] -> forall t, alt (one_of_paths Ls) L t <-> one_of_paths (Ls ++ [L]) t.
Proof.
  intros Hne t. destruct Ls as [|L0 Ls]; [done|]. unfold alt, one_of_paths. cbn [app].
  rewrite app_comm_cons, Exists_app, Exists_cons, (Exists_cons _ L []), Exists_nil. tauto.
Qed.
Lemma sound_arms a0 :
  wf a0 -> forall arms Ls a states a1 states1, Forall arm_sound arms -> Forall (vgood x) Ls -> leads vframe a0 a ->
  (Ls = [] -> a = a0) -> (Ls = [] <-> states = []) -> (Ls <> [] -> stepped (one_of_paths Ls) a0 a) ->
  (forall s, last states = Some s -> s = snapshot_states a) ->
  foldM (fun arm '(a, states) =>
      let 'mkArm pattern guard body _ := arm in
      let a := match states with [] => a | _ => restore_all (snapshot_full a0) a end in
      a ← analyze_arm pattern guard body a;
      Done (a, states ++ [snapshot_states a])) arms (a, states) = Done (a1, states1) ->
  (forall s, last states1 = Some s -> s = snapshot_states a1) /\ stepped (one_of_paths (Ls ++ map arm_paths arms)) a0 a1.
Proof.
  intros W0 arms. induction arms as [|[pattern guard body sp] arms IH]; intros Ls a states a1 states1 Harms HLs Hl Hfirst Hst Hs Hlast E.
  { injection E as <- <-. split; [done|]. cbn [map]. rewrite app_nil_r. destruct Ls as [|L Ls]; [|by apply Hs].
    rewrite Hfirst by done. apply stepped_refl. }
  cbn [foldM] in E. cbn zeta in E. apply res_bind_done in E as ([a3 st3] & E3 & E).
  apply res_bind_done in E3 as (a4 & E4 & [= <- <-]).
  apply Forall_cons_1 in Harms as [Harm Harms].
  set (a2 := match states with [] => a | _ => _ end) in E4.
  assert (H2 : wf a2 /\ col x a2 = col x a0 /\ leads vframe a0 a2 /\ od_diagnostics a2 = od_diagnostics a).
  { unfold a2. destruct states as [|s0 states].
    - rewrite Hfirst by (by apply Hst). split; [done|]. split; [done|]. split; [by apply leads_refl|done].
    - pose proof (leads_restore _ a (snapshot_plain a0 W0) (l_wf _ _ _ Hl)) as Lr.
      split; [apply Lr|]. split; [apply restore_branch, Hl|]. split; [by eapply leads_trans|apply diags_restore_all]. }
  destruct H2 as (W2 & Hc2 & L2 & D2).
  pose proof (total_done _ _ _ _ (arm_ends pattern guard body) W2 E4) as L4.
  assert (S4 : stepped (arm_paths (mkArm pattern guard body sp)) a2 a4) by (by eapply sound_arm).
  assert (HLs' : Forall (vgood x) (Ls ++ [arm_paths (mkArm pattern guard body sp)])).
  { apply Forall_app. split; [done|]. constructor; [apply arm_good|constructor]. }
  replace (Ls ++ map arm_paths (mkArm pattern guard body sp :: arms))
    with ((Ls ++ [arm_paths (mkArm pattern guard body sp)]) ++ map arm_paths arms) by (by rewrite <-app_assoc).
  refine (IH _ a4 (states ++ [snapshot_states a4]) a1 states1 Harms HLs' _ _ _ _ _ E).
  - by eapply leads_trans.
  - intros H. by destruct Ls.
  - split; intros H; [by destruct Ls|by destruct states].
  - intros _. destruct Ls as [|L Ls].
    + cbn [app]. apply (stepped_equiv true (arm_paths (mkArm pattern guard body sp))).
      * intros t. unfold one_of_paths. cbn [app]. rewrite Exists_cons, Exists_nil. tauto.
      * rewrite Hfirst in D2 by done. by eapply stepped_from.
    + eapply stepped_equiv; [by apply one_of_snoc|].
      eapply (stepped_branch true true _ _ a0 a a2 a4); [done| | |by apply Hs|done|done|done].
      * rewrite <-Hc2. apply L4.
      * apply vlocal_alt; [|apply arm_good]. apply vgood_one_of. exact HLs.
  - intros s. rewrite last_snoc. by intros [= <-].
Qed.
Lemma sound_match subject arms span :
  sound (expr_paths subject) (analyze_expr_use subject) -> Forall arm_sound arms ->
  sound (expr_paths (E_MatchExpr subject arms span)) (analyze_expr_use (E_MatchExpr subject arms span)).
Proof.
  intros Hs Harms a a' Ha E. cbn [analyze_expr_use] in E. apply res_bind_done in E as (a0 & E0 & E).
  pose proof (l_wf _ _ _ (total_done _ _ _ _ (expr_ends subject) Ha E0)) as W0. cbn [expr_paths].
  cbn zeta in E. apply res_bind_done in E as ([a1 states] & E1 & E). injection E as <-.
  apply (sound_arms a0 W0 arms [] a0 [] a1 states) in E1 as [Hlast S1]; try done; [|by apply leads_refl].
  eapply stepped_trans; [|by apply Hs|].
  - apply (vgood_one_of x). apply Forall_fmap, Forall_true. intros arm. apply arm_good.
  - apply stepped_merge; [exact S1|exact Hlast|by intros ->].
Qed.

(** Reading changes nothing. *)
Lemma inhabited_live L : inhabited L -> stays L -> inhabited (live L).
Proof. intros [t Ht] HL. exists t. split; [done|by apply HL]. Qed.
Lemma reads_only_stays e : reads_only e = true -> stays (expr_paths e).
Proof.
  intros He. apply (no_exit_stays (N_expr e)). unfold no_exit, reads_only, everywhere in *.
  rewrite forallb_forall in *. intros n Hn. specialize (He n Hn). by destruct n.
Qed.
Lemma stepped_silent L a : inhabited (live L) -> silent x L -> stepped L a a.
Proof.
  intros Hi Hs R HR. split; [|by exists []; rewrite app_nil_r]. intros _.
  apply knows_silent; [done| |done]. intros t c [Ht _]. by apply Hs.
Qed.

(** The branches of an [if] statement after the first. *)
Definition elif_paths (final : lang) : list (Expr * Block) -> lang :=
  foldr (fun '(c, b) rest => seq (expr_paths c) (alt (scoped (block_paths b)) rest)) final.
Definition elif_sound (cb : Expr * Block) : Prop :=
  let '(c, b) := cb in
  reads_only c = true /\ sound (expr_paths c) (analyze_expr_use c) /\ sounding false (block_paths b) (analyze_block b).
Definition analyze_elifs (before : gmap str (OwnershipState * gset str)) :
    list (Expr * Block) -> Analyzer * list (gmap str OwnershipState) -> res (Analyzer * list (gmap str OwnershipState)) :=
  foldM (fun '(c, b) '(a, states) =>
    a ← analyze_expr_use c (restore_all before a);
    a ← in_scope (analyze_block b) a;
    Done (a, states ++ [snapshot_states a])).
Lemma elif_good final elifs : vgood x final -> vgood x (elif_paths final elifs).
Proof. intros Hf. induction elifs as [|[c b] l IH]; cbn; [done|]. auto 10 with paths. Qed.
Lemma elifs_end a0 elifs a states a1 states1 :
  wf a0 -> leads vframe a0 a -> analyze_elifs (snapshot_full a0) elifs (a, states) = Done (a1, states1) -> leads vframe a0 a1.
Proof.
  intros W0. revert a states. induction elifs as [|[c b] l IH]; intros a states Hl E; cbn in E; [by injection E as <- _|].
  apply res_bind_done in E as ([a3 st3] & E3 & E). apply res_bind_done in E3 as (a4 & E4 & E5).
  apply res_bind_done in E5 as (a5 & E5 & [= <- <-]). eapply IH; [|exact E].
  pose proof (leads_restore _ a (snapshot_plain a0 W0) (l_wf _ _ _ Hl)) as Lr.
  pose proof (total_done _ _ _ _ (expr_ends c) (l_wf _ _ _ Lr) E4) as L4.
  pose proof (total_done _ _ _ _ (total_in_scope _ (block_ends b)) (l_wf _ _ _ L4) E5) as L5.
  by do 3 (eapply leads_trans; [eassumption|]).
Qed.
Lemma stepped_elifs full a0 af final elifs a states a1 states1 :
  wf a0 -> vframe (col x a0) (col x af) -> vgood x final -> Forall elif_sound elifs -> leads vframe a0 a ->
  analyze_elifs (snapshot_full a0) elifs (a, states) = Done (a1, states1) ->
  stepping full final (restore_all (snapshot_full a0) a1) af ->
  stepping full (elif_paths final elifs) (restore_all (snapshot_full a0) a) af.
Proof.
  intros W0 Hf Hgood Helifs. revert a states. induction Helifs as [|[c b] l (Hro & Hc & Hb) Helifs IH]; intros a states Hl E Hfinal;
    cbn in E; [by injection E as <- _|].
  apply res_bind_done in E as ([a3 st3] & E3 & E). apply res_bind_done in E3 as (a4 & E4 & E5).
  apply res_bind_done in E5 as (a5 & E5 & [= <- <-]). cbn [elif_paths foldr]. fold (elif_paths final l).
  pose proof (leads_restore _ a (snapshot_plain a0 W0) (l_wf _ _ _ Hl)) as Lr.
  pose proof (total_done _ _ _ _ (expr_ends c) (l_wf _ _ _ Lr) E4) as L4.
  pose proof (total_done _ _ _ _ (total_in_scope _ (block_ends b)) (l_wf _ _ _ L4) E5) as L5.
  assert (H5 : leads vframe a0 a5) by (by do 3 (eapply leads_trans; [eassumption|])).
  specialize (IH a5 _ H5 E Hfinal).
  assert (Hr : forall a, leads vframe a0 a -> col x (restore_all (snapshot_full a0) a) = col x a0) by (intros a2 H2; apply restore_branch, H2).
  assert (Hv : vgood x (alt (scoped (block_paths b)) (elif_paths final l))) by (apply vgood_alt; [auto with paths|by apply elif_good]).
  intros R HR. rewrite (Hr a Hl) in HR.
  assert (S4 : stepped (expr_paths c) (restore_all (snapshot_full a0) a) a4) by (by apply Hc; [apply Lr|]).
  assert (S5 : stepping false (scoped (block_paths b)) a4 a5) by (by eapply sound_in_scope; [apply block_good|exact Hb|apply L4|]).
  assert (F4 : follows true R (expr_paths c) (restore_all (snapshot_full a0) a) a4) by (apply S4; by rewrite Hr).
  assert (HR' : knows x c0 (seq R (live (expr_paths c))) (col x a0)).
  { apply knows_silent; [apply inhabited_live; [apply (expr_good x)|by apply reads_only_stays]| |done].
    intros t c1 [Ht _]. by apply (reads_only_paths x c). }
  eapply follows_seq; [apply Hv|exact F4|].
  apply (follows_branch full _ _ _ a0 a4 (restore_all (snapshot_full a0) a5) af); [done|done|done|apply Hv| |].
  - rewrite diags_restore_all. by apply S5, F4.
  - apply IH. by rewrite Hr.
Qed.
Lemma sound_if full c b elifs b2 span :
  sound (expr_paths c) (analyze_expr_use c) -> sounding false (block_paths b) (analyze_block b) -> Forall elif_sound elifs ->
  match b2 with Some b => sounding full (block_paths b) (analyze_block b) | None => True end ->
  sounding full (stmt_paths (S_If c b elifs b2 span)) (analyze_stmt (S_If c b elifs b2 span)).
Proof.
  intros Hc H1 Helifs H2 a af Ha E. cbn [analyze_stmt] in E. apply res_bind_done in E as (a0 & E0 & E).
  pose proof (l_wf _ _ _ (total_done _ _ _ _ (expr_ends c) Ha E0)) as W0. cbn [stmt_paths].
  fold (elif_paths (maybe (fun b => scoped (block_paths b)) b2) elifs).
  assert (Hm : vgood x (maybe (fun b => scoped (block_paths b)) b2)) by (apply vgood_maybe; destruct b2; auto with paths).
  assert (Hv : vgood x (alt (scoped (block_paths b)) (elif_paths (maybe (fun b => scoped (block_paths b)) b2) elifs))).
  { apply vgood_alt; [auto with paths|]. by apply elif_good. }
  eapply stepped_trans; [apply Hv|by apply Hc|]. cbn zeta in E. apply res_bind_done in E as (a1 & E1 & E).
  pose proof (total_done _ _ _ _ (total_in_scope _ (block_ends b)) W0 E1) as L1.
  assert (S1 : stepping false (scoped (block_paths b)) a0 a1) by (eapply sound_in_scope; [apply block_good|exact H1|done..]).
  apply res_bind_done in E as ([a2 states] & E2 & E).
  pose proof (elifs_end a0 elifs a1 _ a2 states W0 L1 E2) as L2.
  pose proof (leads_restore _ a2 (snapshot_plain a0 W0) (l_wf _ _ _ L2)) as Lr.
  assert (Hlast : vframe (col x a0) (col x af) /\ stepping full (maybe (fun b => scoped (block_paths b)) b2) (restore_all (snapshot_full a0) a2) af).
  { destruct b2 as [b2|].
    - apply res_bind_done in E as (a3 & E3 & [= <-]).
      pose proof (total_done _ _ _ _ (total_in_scope _ (block_ends b2)) (l_wf _ _ _ Lr) E3) as L3. split.
      + eapply (l_frame vframe a0). do 3 (eapply leads_trans; [eassumption|]). apply leads_merge, L3.
      + apply stepped_merge; [|by intros s; rewrite last_snoc; intros [= <-]|by destruct states].
        eapply sound_in_scope; [apply block_good|exact H2|apply Lr|done].
    - injection E as <-. split; [|apply stepped_refl]. eapply (l_frame vframe a0). by eapply leads_trans. }
  destruct Hlast as [Hf Hfinal].
  eapply (stepped_branch full false _ _ a0 a1 (restore_all (snapshot_full a0) a1) af);
    [done|exact Hf|apply Hv|exact S1|apply restore_branch, L1|apply diags_restore_all|].
  by eapply stepped_elifs.
Qed.

(** Loops: the body is analyzed once. *)
Lemma star_one L t : L t -> star L t.
Proof. intros H. rewrite <-(app_nil_r t). by repeat constructor. Qed.
Lemma sound_star L f : total vframe f -> vgood x L -> sound L f -> sound (star L) f.
Proof. intros Ht Hv Hf. eapply sound_widen; [done|apply star_one|by apply vgood_star|done]. Qed.
Lemma silent_defines ys : x ∉ ys -> silent x (just (defines ys)).
Proof.
  intros Hx t c ->. revert c. induction ys as [|y ys IH]; intros c; cbn; [done|].
  apply not_elem_of_cons in Hx as [Hxy Hx]. rewrite decide_False by done. by apply IH.
Qed.
Lemma sound_after_silent L1 L2 f : inhabited (live L1) -> silent x L1 -> inhabited L2 -> sound L2 f -> sound (seq L1 L2) f.
Proof.
  intros Hi Hs Hi2 Hf a a' Ha E. eapply stepped_trans; [done|by apply stepped_silent|by apply Hf].
Qed.
Lemma sound_before_silent L1 L2 f : inhabited (live L2) -> silent x L2 -> sound L1 f -> sound (seq L1 L2) f.
Proof.
  intros Hi Hs Hf a a' Ha E. eapply stepped_trans; [destruct Hi as [t [Ht _]]; by exists t|by apply Hf|by apply stepped_silent].
Qed.
(** Control leaves: nothing is claimed of what follows. *)
Lemma sound_leaving L f : sound L f -> sounding false (leaving L) f.
Proof.
  intros H a a' Ha E. eapply stepping_before; [apply inhabited_just|done|]. by eapply stepping_reports, H.
Qed.
Lemma sound_exit : sounding false (just [Ev_exit]) Done.
Proof. intros a a' Ha [= <-] R HR. split; [done|]. exists []. by rewrite app_nil_r. Qed.

Lemma sound_for par pattern e body span :
  x ∉ pattern_names pattern -> sound (expr_paths e) (analyze_expr_use e) -> sound (block_paths body) (analyze_block body) ->
  sound (stmt_paths (S_For par pattern e body span)) (analyze_stmt (S_For par pattern e body span)).
Proof.
  intros Hx He Hb.
  assert (Hg : good x (seq (just (defines (pattern_names pattern))) (block_paths body))) by auto with paths.
  apply (sound_bind vframe _ _ (analyze_expr_use e) (in_scope (analyze_block body)));
    [apply expr_ends|exists []; constructor|done|].
  apply sound_star; [apply total_in_scope, block_ends|by apply vgood_scoped|]. apply sound_in_scope; [done|].
  apply sound_after_silent; [apply inhabited_live; [apply inhabited_just|apply stays_defines]|by apply silent_defines|apply (block_good x)|done].
Qed.
Lemma sound_while c body span :
  reads_only c = true -> sound (expr_paths c) (analyze_expr_use c) -> sound (block_paths body) (analyze_block body) ->
  sound (stmt_paths (S_While c body span)) (analyze_stmt (S_While c body span)).
Proof.
  intros Hro Hc Hb.
  apply (sound_bind vframe _ _ (analyze_expr_use c) (in_scope (analyze_block body)));
    [apply expr_ends|exists []; constructor|done|].
  apply sound_star; [apply total_in_scope, block_ends|auto with paths|].
  apply sound_before_silent; [apply inhabited_live; [apply (expr_good x)|by apply reads_only_stays]|by apply reads_only_paths|].
  apply sound_in_scope; [apply block_good|done].
Qed.
Lemma sound_try b1 y b2 span :
  sound (block_paths b1) (analyze_block b1) -> sound (block_paths b2) (analyze_block b2) ->
  sound (stmt_paths (S_TryCatch b1 y b2 span)) (analyze_stmt (S_TryCatch b1 y b2 span)).
Proof.
  intros H1 H2. set (f2 := in_scope (fun a => a ← define_var y (owned_var false false span) a; analyze_block b2 a)).
  assert (Hg : good x (seq (just (defines [y])) (block_paths b2))) by auto with paths.
  assert (Ht : total vframe f2).
  { apply total_in_scope, (total_bind (define_var y (owned_var false false span))); [by apply total_define|apply block_ends]. }
  apply (sound_bind vframe _ _ (in_scope (analyze_block b1)) f2).
  - apply total_in_scope, block_ends.
  - exists []. by left.
  - apply sound_in_scope; [apply block_good|done].
  - apply (sound_widen (scoped (seq (just (defines [y])) (block_paths b2)))); [done|by right|apply vgood_alt; auto with paths|].
    apply sound_in_scope; [done|]. apply (sound_bind frame); [by apply total_define|apply (block_good x)|by apply sound_define|done].
Qed.

(** The value of a [let] or of an assignment. *)
Lemma init_good e : vgood x (init_paths expr_paths e).
Proof. apply vgood_init; [apply expr_good|]. by intros ? ? ? ->. Qed.
Lemma sound_init_use e : sound (expr_paths e) (analyze_expr_use e) -> sound (init_paths expr_paths e) (analyze_expr_use e).
Proof.
  intros He. eapply sound_widen; [apply expr_ends| |apply init_good|exact He].
  intros t Ht. unfold init_paths. destruct (is_identifier e); [done|by left].
Qed.
Lemma sound_init_move e :
  is_identifier e = false -> sound (expr_paths e) (analyze_expr_use e) ->
  sound (init_paths expr_paths e) (move_with analyze_expr_use e).
Proof.
  intros Hi He. eapply sound_widen; [by apply total_move, expr_ends| |apply init_good|by apply sound_move].
  intros t Ht. unfold init_paths. rewrite Hi. by right.
Qed.
Lemma stepped_init (copy : bool) e a a1 :
  wf a -> sound (expr_paths e) (analyze_expr_use e) ->
  (if copy || is_identifier e then analyze_expr_use e a else move_with analyze_expr_use e a) = Done a1 ->
  wf a1 /\ stepped (init_paths expr_paths e) a a1.
Proof.
  intros Ha He E. destruct (is_identifier e) eqn:Hi; [rewrite orb_true_r in E|rewrite orb_false_r in E; destruct copy].
  - split; [by eapply l_wf, total_done; [apply expr_ends|..]|by eapply sound_init_use].
  - split; [by eapply l_wf, total_done; [apply expr_ends|..]|by eapply sound_init_use].
  - split; [by eapply l_wf, total_done; [apply total_move, expr_ends|..]|by eapply sound_init_move].
Qed.
Lemma sound_let_define y i b ys :
  match v_state i with OS_Uninitialized => b = false | OS_Owned | OS_Shared => b = true | _ => False end -> x ∉ ys ->
  sound (just (Ev_define y b :: defines ys)) (define_var y i).
Proof.
  intros Hb Hx. eapply sound_equiv; [apply (seq_just [Ev_define y b])|].
  apply sound_before_silent; [apply inhabited_live; [apply inhabited_just|apply stays_defines]|by apply silent_defines|by apply sound_define].
Qed.
Lemma stepped_shared e span a a1 :
  wf a -> sound (expr_paths (E_SharedExpr e span)) (analyze_expr_use (E_SharedExpr e span)) ->
  move_with analyze_expr_use e a = Done a1 -> stepped (value_paths expr_paths e) a a1.
Proof.
  intros Ha He E. eapply stepped_same; [eapply He; [exact Ha|cbn [analyze_expr_use]; by rewrite E]|by destruct e..].
Qed.
Lemma same_record y ty e a : col x (record_let_types y ty e a) = col x a /\ od_diagnostics (record_let_types y ty e a) = od_diagnostics a.
Proof.
  unfold record_let_types.
  set (a1 := match let_struct_name _ _ _ with Some _ => _ | None => _ end).
  assert (H1 : scopes a1 = scopes a /\ od_diagnostics a1 = od_diagnostics a).
  { unfold a1. destruct (let_struct_name _ _ _); [|done]. by destruct (bool_decide _). }
  set (a2 := match let_tuple_elems _ _ _ with Some _ => _ | None => _ end).
  assert (H2 : scopes a2 = scopes a /\ od_diagnostics a2 = od_diagnostics a).
  { unfold a2. by destruct (let_tuple_elems _ _ _). }
  unfold col. destruct H2 as [<- <-]. by destruct (let_elem_is_copy _ _ _).
Qed.
Lemma sound_let y m ty init pattern span :
  x ∉ from_option pattern_names [] pattern ->
  match init with Some e => sound (expr_paths e) (analyze_expr_use e) | None => True end ->
  sound (stmt_paths (S_Let y m ty init pattern span)) (analyze_stmt (S_Let y m ty init pattern span)).
Proof.
  intros Hx Hi a a' Ha E. cbn [stmt_paths].
  assert (Hg : good x (just (Ev_define y (bool_decide (is_Some init)) :: defines (from_option pattern_names [] pattern)))).
  { apply good_defines. constructor; [done|]. apply Forall_fmap, Forall_true. intros z. exact I. }
  destruct init as [e|].
  2:{ eapply stepped_trans; [apply Hg|apply stepped_refl|]. by eapply sound_let_define; [|exact Hx|exact Ha|exact E]. }
  enough (H : exists a1, stepped (init_paths expr_paths e) a a1
      /\ stepped (just (Ev_define y true :: defines (from_option pattern_names [] pattern))) a1 a')
    by (destruct H as (a1 & S1 & S2); eapply stepped_trans; [apply Hg|exact S1|exact S2]).
  assert (Hgen : forall copy,
    (a1 ← (if copy || is_identifier e then analyze_expr_use e a else move_with analyze_expr_use e a);
     a1 ← define_var y (owned_var m copy span) a1; Done (record_let_types y ty e a1)) = Done a' ->
    exists a1, stepped (init_paths expr_paths e) a a1
      /\ stepped (just (Ev_define y true :: defines (from_option pattern_names [] pattern))) a1 a').
  { intros copy E'. apply res_bind_done in E' as (a1 & E1 & E'). apply res_bind_done in E' as (a2 & E2 & [= <-]).
    destruct (stepped_init copy e a a1 Ha Hi E1) as [W1 S1]. exists a1. split; [done|].
    destruct (same_record y ty e a2) as [Hc Hd]. eapply stepped_same; [|exact Hc|exact Hd].
    by eapply (sound_let_define y (owned_var m copy span) true). }
  destruct e; try (eapply Hgen; exact E); clear Hgen; cbn [analyze_stmt] in E;
    apply res_bind_done in E as (a1 & E1 & E2); exists a1.
  - (* shared *)
    pose proof (total_done vframe _ _ _ (total_move e (expr_ends e)) Ha E1) as L1. split.
    + eapply stepped_widen; [done|apply L1| |apply init_good|by eapply stepped_shared].
      intros t Ht. by left.
    + set (a2 := push_arc _ a1) in E2. apply (stepped_from true _ a2); [|done|done].
      eapply (sound_let_define y (mkVar OS_Shared m false span None ∅) true); [done|exact Hx| |exact E2].
      apply leads_push_arc, L1.
  - (* weak *)
    split; [by eapply (sound_init_use (E_WeakExpr e span0))|].
    eapply (sound_let_define y (owned_var m false span) true); [done|exact Hx| |exact E2].
    exact (l_wf _ _ _ (total_done vframe _ _ _ (expr_ends e) Ha E1)).
Qed.

Lemma stepped_assign y a : stepped (just [Ev_assign y]) a (alter_var set_owned y a).
Proof.
  apply stepped_event; [done| |done]. unfold col, alter_var, with_scopes. cbn [scopes ev_step].
  destruct (decide (y = x)) as [->|Hne]; [|by apply col_alter_ne].
  rewrite col_alter_eq. destruct (lookup_in (scopes a) x) as [i|] eqn:Hl; [done|].
  symmetry. apply set_first_none. by rewrite visible_lookup, Hl.
Qed.
Lemma sound_assign target op e span :
  sound (expr_paths target) (analyze_expr_use target) -> sound (expr_paths e) (analyze_expr_use e) ->
  sound (stmt_paths (S_Assign target op e span)) (analyze_stmt (S_Assign target op e span)).
Proof.
  intros Ht He a a' Ha E. cbn [analyze_stmt] in E. apply res_bind_done in E as (a1 & E1 & E). cbn [stmt_paths].
  destruct (stepped_init (expr_is_copy a e) e a a1 Ha He E1) as [W1 S1].
  destruct target as [| | | | | | |y sp|object f sp| | | | | | | | | | | | | | | | | | | | | | | | | |];
    try (eapply stepped_trans; [apply (expr_good x)|exact S1|by apply Ht]).
  - injection E as <-. eapply stepped_trans; [apply inhabited_just|exact S1|]. destruct (is_compound op).
    + eapply stepped_equiv; [apply (seq_just [Ev_use y sp])|].
      eapply stepped_trans; [apply inhabited_just| |apply stepped_assign].
      apply stepped_silent; [apply inhabited_live; [apply inhabited_just|apply stays_use]|apply silent_just_use].
    + apply stepped_assign.
  - eapply stepped_trans; [apply (expr_good x)|exact S1|]. apply (sound_field object f sp) in Ht. by apply Ht.
Qed.

Lemma sound_exprs es :
  Forall (fun e => sound (expr_paths e) (analyze_expr_use e)) es -> sound (seqs (map expr_paths es)) (foldM analyze_expr_use es).
Proof.
  intros H. apply (sound_foldM vframe). eapply Forall_impl; [exact H|]. intros e He.
  split; [apply expr_ends|]. split; [apply (expr_good x)|done].
Qed.
Lemma sound_two L1 L2 f g :
  total vframe f -> inhabited L2 -> sound L1 f -> sound L2 g -> sound (seq L1 L2) (fun a => a ← f a; g a).
Proof. apply sound_bind. Qed.
Lemma sound_call callee args span :
  sound (expr_paths callee) (analyze_expr_use callee) -> Forall (fun e => sound (expr_paths e) (analyze_expr_use e)) args ->
  sound (expr_paths (E_FnCall callee args span)) (analyze_expr_use (E_FnCall callee args span)).
Proof.
  intros Hc Ha.
  assert (Hi : inhabited (seqs (map expr_paths args))).
  { apply (vgood_seqs x), Forall_fmap, Forall_true. intros e. apply expr_good. }
  assert (Hf : sound (seq (expr_paths callee) (seqs (map expr_paths args)))
      (fun a => a ← analyze_expr_use callee a; foldM analyze_expr_use args a)).
  { apply sound_two; [apply expr_ends|done|done|by apply sound_exprs]. }
  destruct callee; try exact Hf. destruct args as [|e1 [|e2 [|]]]; try exact Hf. clear Hf Hi.
  apply Forall_cons_1 in Ha as [H1 Ha]. apply Forall_cons_1 in Ha as [H2 _]. cbn [expr_paths].
  apply (sound_two _ _ (analyze_expr_use (E_Identifier name span0))
    (fun a => if bool_decide (name = bytes "send") then a ← analyze_expr_use e1 a; move_with analyze_expr_use e2 a
       else a ← analyze_expr_use e1 a; analyze_expr_use e2 a)); [apply expr_ends| |done|].
  - apply inhabited_seq; [apply (expr_good x)|]. destruct (bool_decide _); [apply (value_good x)|apply (expr_good x)].
  - destruct (bool_decide (name = bytes "send")).
    + apply (sound_two _ _ (analyze_expr_use e1)); [apply expr_ends|apply (value_good x)|done|by apply sound_move].
    + apply (sound_two _ _ (analyze_expr_use e1)); [apply expr_ends|apply (expr_good x)|done|done].
Qed.

Lemma sound_range start end_ i span :
  match start with Some e => sound (expr_paths e) (analyze_expr_use e) | None => True end ->
  match end_ with Some e => sound (expr_paths e) (analyze_expr_use e) | None => True end ->
  sound (expr_paths (E_RangeExpr start end_ i span)) (analyze_expr_use (E_RangeExpr start end_ i span)).
Proof.
  intros H1 H2.
  apply (sound_two _ _ (from_option analyze_expr_use Done start) (from_option analyze_expr_use Done end_));
    [apply total_option; destruct start; [apply expr_ends|done]| |by apply sound_maybe..].
  apply (vgood_maybe x). destruct end_; [apply expr_good|done].
Qed.

Definition node_follows (n : node) : Prop :=
  match n with
  | N_expr e => sound (expr_paths e) (analyze_expr_use e)
  | N_stmt s => sound (stmt_paths s) (analyze_stmt s)
  | N_block b => sound (block_paths b) (analyze_block b)
  end.
Lemma fair_children n : fair x n = true -> fair_here x n = true /\ Forall (fun c => fair x c = true) (children n).
Proof.
  unfold fair. rewrite everywhere_children, andb_true_iff. intros [H1 H2]. split; [done|].
  by apply Forall_forall; intros c Hc; rewrite forallb_forall in H2; apply H2, list_elem_of_In.
Qed.
Lemma fair_walk l :
  Forall (fun n => fair x n = true -> no_exit n = true -> node_follows n) l ->
  Forall (fun c => fair x c = true) l -> Forall (fun c => no_exit c = true) l -> Forall node_follows l.
Proof.
  intros H1 H2 H3. induction H1 as [|n l Hn Hl IH]; [constructor|].
  apply Forall_cons_1 in H2 as [? H2]. apply Forall_cons_1 in H3 as [? H3]. constructor; auto.
Qed.
Lemma follow_exprs es : Forall node_follows (map N_expr es) -> Forall (fun e => sound (expr_paths e) (analyze_expr_use e)) es.
Proof. induction es as [|e es IH]; cbn; intros H; split_nodes; constructor; auto. Qed.

Ltac fold_over fr l IH :=
  apply (sound_foldM fr); revert IH; induction l as [|? l IHl]; cbn [flat_map map app part_nodes]; intros IH; [constructor|].

Lemma walk_follows_expr e : fair_here x (N_expr e) = true -> Forall node_follows (children (N_expr e)) ->
  node_follows (N_expr e).
Proof.
  intros Hhere H.
  destruct e as [| | |parts sp| | | |y sp|object field sp|e1 e2 sp|op e1 e2 sp|op e1 sp|callee args sp|object m args sp
    |tn m es sp|es sp|es sp|entries sp|nm fields sp|params ret body sp|c b1 b2 sp|subject arms sp|start end_ i sp|e1 e2 sp
    |e1 m sp|e1 sp|e1 sp|e1 sp|e1 sp|b sp|b sp|b sp|e1 ty sp|b sp|e1 sp];
    cbn [children expr_children] in H; cbn [node_follows]; split_nodes; cbn [node_follows] in *; try assumption; try apply sound_ret;
    try (by apply sound_in_scope; [apply block_good|]).
  - fold_over vframe parts H. destruct a as [|e]; cbn [part_nodes app] in H; split_nodes; (constructor; [|by apply IHl]).
    + split; [apply total_ret|]. split; [apply inhabited_just|apply sound_ret].
    + split; [apply expr_ends|]. split; [apply (expr_good x)|assumption].
  - apply sound_use.
  - by apply (proj1 (sound_field object field sp)).
  - by apply (sound_two _ _ (analyze_expr_use e1)); [apply expr_ends|apply (expr_good x)|..].
  - by apply (sound_two _ _ (analyze_expr_use e1)); [apply expr_ends|apply (expr_good x)|..].
  - apply sound_call; [done|by apply follow_exprs].
  - apply (sound_two _ _ (analyze_expr_use object)); [apply expr_ends| |done|by apply sound_exprs, follow_exprs].
    apply (vgood_seqs x), Forall_fmap, Forall_true. intros e. apply expr_good.
  - by apply sound_exprs, follow_exprs.
  - by apply sound_exprs, follow_exprs.
  - by apply sound_exprs, follow_exprs.
  - fold_over vframe entries H. destruct a as [k v]. cbn [app] in H. split_nodes. constructor; [|by apply IHl].
    split; [apply (total_bind (analyze_expr_use k)); apply expr_ends|].
    split; [apply inhabited_seq; apply (expr_good x)|].
    apply (sound_two _ _ (analyze_expr_use k)); [apply expr_ends|apply (expr_good x)|assumption..].
  - fold_over vframe fields H. destruct a as [k v]. cbn [app] in H. split_nodes. constructor; [|by apply IHl].
    split; [apply expr_ends|]. split; [apply (expr_good x)|assumption].
  - apply sound_lambda; [|done]. cbn in Hhere. by apply negb_true_iff, bool_decide_eq_false in Hhere.
  - by apply sound_if_expr.
  - by apply sound_if_expr.
  - apply sound_match; [done|]. revert H. induction arms as [|[p g b s] l IHl]; cbn [flat_map arm_nodes app]; intros H; [constructor|].
    split_nodes; constructor; try (by apply IHl); cbn [arm_sound]; auto.
  - by apply sound_range.
  - by apply sound_range.
  - by apply sound_range.
  - by apply sound_range.
  - by apply (sound_two _ _ (analyze_expr_use e1)); [apply expr_ends|apply (expr_good x)|..].
  - (* shared *)
    intros a a' Ha E. cbn [analyze_expr_use] in E. apply res_bind_done in E as (a1 & E1 & [= <-]).
    eapply stepped_same; [by eapply (sound_move e1)|by destruct e1..].
  - by apply sound_move.
Qed.

Lemma walk_follows_stmt s : fair_here x (N_stmt s) = true -> exit_here (N_stmt s) = false ->
  Forall node_follows (children (N_stmt s)) -> node_follows (N_stmt s).
Proof.
  intros Hhere Hleave H.
  destruct s as [y m ty init pat sp|target op rhs sp|rv sp|c b elifs b2 sp|par p e b sp|c b sp|sp|sp|e sp|e sp
    |branches timeout sp|b1 y b2 sp|e sp|denied b sp];
    cbn [children stmt_children] in H; cbn [node_follows];
    split_nodes; cbn [node_follows] in *; try assumption; try apply sound_ret; try done; try (by apply sound_move).
  - apply sound_let; [|done]. destruct pat as [p|]; [|by apply not_elem_of_nil].
    cbn in Hhere. by apply negb_true_iff, bool_decide_eq_false in Hhere.
  - apply sound_let; [|done]. destruct pat as [p|]; [|by apply not_elem_of_nil].
    cbn in Hhere. by apply negb_true_iff, bool_decide_eq_false in Hhere.
  - by apply sound_assign.
  - apply sound_if; [done|by apply (sounding_reports true)| |done]. cbn in Hhere. match goal with h : Forall node_follows (flat_map _ elifs) |- _ => revert Hhere h end.
    induction elifs as [|[c' b'] l IHl]; cbn [flat_map app forallb]; intros Hro H; [constructor|].
    apply andb_true_iff in Hro as [? ?]. split_nodes. constructor; [by split_and!; [..|apply (sounding_reports true)]|by apply IHl].
  - apply sound_if; [done|by apply (sounding_reports true)| |done]. cbn in Hhere. match goal with h : Forall node_follows (flat_map _ elifs) |- _ => revert Hhere h end.
    induction elifs as [|[c' b'] l IHl]; cbn [flat_map app forallb]; intros Hro H; [constructor|].
    apply andb_true_iff in Hro as [? ?]. split_nodes. constructor; [by split_and!; [..|apply (sounding_reports true)]|by apply IHl].
  - apply sound_for; [|done|done]. cbn in Hhere. by apply negb_true_iff, bool_decide_eq_false in Hhere.
  - by apply sound_while.
  - by apply sound_try.
Qed.

Lemma walk_follows n : fair x n = true -> no_exit n = true -> node_follows n.
Proof.
  induction n as [n IH] using node_induction. intros Hfair Hexit. apply fair_children in Hfair as [Hhere Hch].
  apply no_exit_children in Hexit as [Hleave Hstay].
  pose proof (fair_walk _ IH Hch Hstay) as H. clear IH Hch Hstay.
  destruct n as [e|s|[ss sp]]; [by apply walk_follows_expr|by apply walk_follows_stmt|].
  cbn [children] in H. apply (sound_foldM frame). revert H. clear Hhere.
  induction ss as [|s ss IHs]; cbn [map]; intros H; [constructor|]. split_nodes. constructor; [|by apply IHs].
  split; [apply stmt_ends|]. split; [apply (stmt_good x)|assumption].
Qed.

(** Control in statements: what passes, and what leaves at its end. *)
Definition node_control (n : node) : Prop :=
  match n with
  | N_expr _ => True
  | N_stmt s =>
      (passes s = true -> sound (stmt_paths s) (analyze_stmt s))
      /\ (leaves_at s = true -> sounding false (stmt_paths s) (analyze_stmt s))
  | N_block b =>
      (passes_block b = true -> sound (block_paths b) (analyze_block b))
      /\ (leaves b = true -> sounding false (block_paths b) (analyze_block b))
  end.
Lemma expr_follows e : fair x (N_expr e) = true -> no_exit (N_expr e) = true -> sound (expr_paths e) (analyze_expr_use e).
Proof. apply (walk_follows (N_expr e)). Qed.

Lemma passes_stmts ss :
  Forall node_control (map N_stmt ss) -> forallb passes ss = true -> sound (seqs (map stmt_paths ss)) (foldM analyze_stmt ss).
Proof.
  intros H Hp. apply (sound_foldM frame). induction ss as [|s ss IH]; cbn in *; [constructor|].
  split_nodes. apply andb_true_iff in Hp as [Hs Hp]. constructor; [|by apply IH].
  split; [apply stmt_ends|]. split; [apply (stmt_good x)|]. by match goal with h : node_control (N_stmt s) |- _ => apply h end.
Qed.
Lemma leaves_stmts sp ss :
  Forall node_control (map N_stmt ss) -> leaves (mkBlock ss sp) = true ->
  sounding false (seqs (map stmt_paths ss)) (foldM analyze_stmt ss).
Proof.
  induction ss as [|s [|s' ss] IH]; intros H Hl; [intros a a' _ [= <-]; apply stepped_refl| |];
    apply Forall_cons_1 in H as [Hs H].
  - assert (Hsound : sounding false (stmt_paths s) (analyze_stmt s)).
    { cbn in Hl. destruct Hs as [Hp Hle].
      apply orb_true_iff in Hl as [Hl|Hl]; [by eapply sounding_reports, Hp|by apply Hle]. }
    cbn [map seqs foldr foldM]. intros a a' Ha E. apply res_bind_done in E as (a1 & E1 & [= <-]).
    eapply stepping_before; [apply inhabited_just|done|by apply Hsound].
  - apply andb_true_iff in Hl as [Hp Hl].
    apply (sound_bind frame (stmt_paths s) (seqs (map stmt_paths (s' :: ss))) (analyze_stmt s) (foldM analyze_stmt (s' :: ss)));
      [apply stmt_ends| |by apply Hs|by apply IH].
    apply inhabited_seqs, Forall_fmap, Forall_true. intros s1. apply (stmt_good x).
Qed.

Lemma control_elifs elifs :
  Forall node_control (flat_map (fun '(c, b) => [N_expr c; N_block b]) elifs) ->
  Forall (fun c => fair x c = true) (flat_map (fun '(c, b) => [N_expr c; N_block b]) elifs) ->
  forallb (fun '(c, _) => reads_only c) elifs = true ->
  forallb (fun '(c, b) => no_exit (N_expr c) && leaves b) elifs = true -> Forall elif_sound elifs.
Proof.
  induction elifs as [|[c b] l IH]; cbn; intros H1 H2 H3 H4; [constructor|].
  rewrite !andb_true_iff in *. destruct H3 as [Hr H3], H4 as [[Hn Hl] H4]. split_nodes. constructor; [|by apply IH].
  split; [done|]. split; [by apply expr_follows|]. by match goal with h : node_control (N_block b) |- _ => apply h end.
Qed.

Lemma stmt_control s :
  fair x (N_stmt s) = true -> Forall node_control (stmt_children s) -> node_control (N_stmt s).
Proof.
  intros Hfair IH. pose proof (fair_children _ Hfair) as [Hhere Hch]. cbn [children] in Hch.
  destruct s as [y m ty init pat sp|target op rhs sp|rv sp|c b elifs b2 sp|par p e b sp|c b sp|sp|sp|e sp|e sp
      |branches timeout sp|b1 y b2 sp|e sp|denied b sp];
    cbn [stmt_children] in IH, Hch; split; cbn [passes leaves_at]; intros Hp; try done;
    try (by apply (walk_follows (N_stmt _))).
  - destruct rv as [e|]; cbn [stmt_paths maybe from_option analyze_stmt opt] in *; [|apply sound_leaving, sound_ret].
    apply Forall_cons_1 in Hch as [Hch _]. by apply sound_leaving, sound_move, expr_follows.
  - rewrite !andb_true_iff in Hp. destruct Hp as [[[Hc He] Hb] Hp]. apply Forall_cons_1 in IH as [_ IH].
    apply Forall_cons_1 in IH as [IHb IH]. apply Forall_app in IH as [IHe IH2].
    apply Forall_cons_1 in Hch as [Hfc Hch]. apply Forall_cons_1 in Hch as [_ Hch]. apply Forall_app in Hch as [Hfe _].
    apply sound_if; [by apply expr_follows|by apply IHb|by apply control_elifs|].
    destruct b2 as [b2|]; [|done]. apply Forall_cons_1 in IH2 as [IH2 _]. by apply IH2.
  - rewrite !andb_true_iff in Hp. destruct Hp as [[[Hc He] Hb] Hp]. apply Forall_cons_1 in IH as [_ IH].
    apply Forall_cons_1 in IH as [IHb IH]. apply Forall_app in IH as [IHe IH2].
    apply Forall_cons_1 in Hch as [Hfc Hch]. apply Forall_cons_1 in Hch as [_ Hch]. apply Forall_app in Hch as [Hfe _].
    apply sound_if; [by apply expr_follows|by apply IHb|by apply control_elifs|].
    destruct b2 as [b2|]; [|done]. apply Forall_cons_1 in IH2 as [IH2 _]. by apply IH2.
  - apply andb_true_iff in Hp as [He Hb]. cbn in Hhere. apply negb_true_iff, bool_decide_eq_false in Hhere. split_nodes.
    apply sound_for; [done|by apply expr_follows|by match goal with h : node_control (N_block b) |- _ => apply h end].
  - apply andb_true_iff in Hp as [He Hb]. split_nodes.
    apply sound_while; [done|by apply expr_follows|by match goal with h : node_control (N_block b) |- _ => apply h end].
  - apply sound_exit.
  - apply sound_exit.
  - apply andb_true_iff in Hp as [H1 H2]. split_nodes.
    by apply sound_try; match goal with h : node_control (N_block ?b) |- sound (block_paths ?b) _ => apply h end.
  - split_nodes. by apply sound_leaving, sound_move, expr_follows.
  - split_nodes. by match goal with h : node_control (N_block b) |- _ => apply h end.
  - split_nodes. by match goal with h : node_control (N_block b) |- _ => apply h end.
Qed.
Lemma block_control b : fair x (N_block b) = true -> node_control (N_block b).
Proof.
  enough (H : forall n, fair x n = true -> node_control n) by apply (H (N_block b)).
  intros n. induction n as [n IH] using node_induction. intros Hfair. pose proof (fair_children _ Hfair) as [_ Hch].
  assert (H : Forall node_control (children n)).
  { clear Hfair. induction IH as [|c l Hc Hl IHl]; [constructor|]. apply Forall_cons_1 in Hch as [? ?]. constructor; auto. }
  destruct n as [e|s|[ss sp]]; [done|by apply stmt_control|]. split; intros Hp.
  - by apply passes_stmts.
  - by eapply leaves_stmts.
Qed.

(** A function, a method or a handler. *)
Lemma sound_function (f : Param -> Analyzer -> res Analyzer) params body :
  (forall p, total frame (f p)) -> (forall p, sound (just (defines [param_name p])) (f p)) ->
  fair x (N_block body) = true -> leaves body = true ->
  sounding false (function_paths params body) (in_scope (fun a => a ← foldM f params a; analyze_block body a)).
Proof.
  intros Ht Hf Hfair Hl.
  apply sound_in_scope; [apply good_seq; [apply good_defines_names|apply block_good]|].
  apply (sound_bind frame); [by apply total_foldM, Forall_true|apply (block_good x)|by apply sound_params|].
  by apply (block_control body Hfair).
Qed.
Lemma sound_param p : sound (just (defines [param_name p])) (define_param p).
Proof.
  destruct p as [y ty d span]. intros a a' Ha E. cbn in E. apply res_bind_done in E as (a1 & E1 & E2).
  pose proof (stepped_define y (owned_var false (is_opt_type_copy (tables a) ty false) span) true a a1 eq_refl E1) as H.
  eapply stepped_same; [exact H|injection E2 as <-; by destruct ty as [[]|]..].
Qed.
Lemma sound_handler_param p : sound (just (defines [param_name p])) (define_handler_param p).
Proof.
  destruct p as [y ty d span]. intros a a' Ha E.
  exact (stepped_define y (owned_var false (is_opt_type_copy (tables a) ty false) span) true a a' eq_refl E).
Qed.
End Sound.

(* ------------------------------------------------------------------ *)
(** ** Whole modules                                                   *)
(* ------------------------------------------------------------------ *)

(** What is analyzed as a body of its own. *)
Fixpoint decl_bodies (d : Decl) : list (list Param * Block) :=
  match d with
  | D_Function _ _ params _ (Some body) _ _ _ _ _ => [(params, body)]
  | D_Actor _ _ handlers _ _ _ => (fun h => (mh_params h, mh_body h)) <$> handlers
  | D_Impl _ _ _ methods _ _ => flat_map decl_bodies methods
  | _ => []
  end.
Definition module_bodies (m : Module_) : list (list Param * Block) := flat_map decl_bodies (mo_declarations m).

Lemma total_param p : total frame (define_param p).
Proof.
  destruct p as [y ty d span]. intros a Ha. cbn.
  destruct (total_define y (owned_var false (is_opt_type_copy (tables a) ty false) span) eq_refl a Ha) as (a1 & E1 & L1).
  rewrite E1. cbn. eexists. split; [done|]. eapply leads_trans; [exact L1|]. apply leads_v. pose proof (l_wf _ _ _ L1).
  destruct ty as [[]|]; by apply leads_tables || by apply leads_refl.
Qed.
Lemma total_handler_param p : total frame (define_handler_param p).
Proof. destruct p as [y ty d span]. intros a Ha. by apply total_define. Qed.
Lemma total_function (f : Param -> Analyzer -> res Analyzer) params body :
  (forall p, total frame (f p)) -> total vframe (in_scope (fun a => a ← foldM f params a; analyze_block body a)).
Proof. intros Hf. apply total_in_scope, (total_bind (foldM f params)); [by apply total_foldM, Forall_true|apply block_ends]. Qed.

(** The actor's state is recorded before its handlers are analyzed. *)
Lemma decl_ends d : total vframe (analyze_decl d).
Proof.
  revert d. fix IH 1. intros d. destruct d; try apply total_ret; cbn.
  - destruct body; [|apply total_ret]. apply total_function, total_param.
  - apply total_foldM. induction methods as [|d l IHl]; constructor; [apply IH|apply IHl].
  - refine (total_after vframe (fold_left (fun a f => push_arc (mkArc (sf_name f) span AR_ActorBoundary) a) state_fields)
      (foldM _ handlers) _ _).
    + intros a Ha. apply leads_fold; [|done]. intros y a' _. apply leads_push_arc.
    + apply total_foldM, Forall_true. intros h. apply total_function, total_handler_param.
Qed.
Lemma module_ends m : total vframe (analyze_module m).
Proof.
  unfold analyze_module. intros a Ha.
  exact (total_after vframe (with_tables _) (foldM analyze_decl (mo_declarations m)) (leads_tables _)
    (total_foldM analyze_decl _ (Forall_true _ _ decl_ends)) a Ha).
Qed.
Lemma new_wf : wf new_analyzer.
Proof. split; [done|]. constructor; [apply map_Forall_empty|constructor]. Qed.

(** C9: the analysis never panics, whatever the program and whatever the iteration order of
    its hash maps; it ends in a well-formed state, with the module's scope alone on the stack
    and no field recorded as moved, and so it never reports the use of a partially moved
    variable (E0303). *)
Theorem analysis_total m :
  exists a, analyze_module m new_analyzer = Done a /\ wf a /\ length (scopes a) = 1%nat
    /\ Forall no_partial (od_diagnostics a).
Proof.
  destruct (module_ends m new_analyzer new_wf) as (a & E & L). exists a. split; [done|]. split; [apply L|]. split.
  - pose proof (l_frame _ _ _ L []) as H. apply vframe_length in H. unfold col, col_of in H. by rewrite !length_fmap in H.
  - destruct (l_diags _ _ _ L) as (ds & D & P). by rewrite D.
Qed.

(** Between the branches of an [if] or a [match] nothing leaks: whatever a branch does, after the
    restoration every variable has the state that it had before. *)
Lemma branch_isolation b a a' x :
  wf a -> in_scope (analyze_block b) a = Done a' ->
  wf (restore_all (snapshot_full a) a') /\ col x (restore_all (snapshot_full a) a') = col x a.
Proof.
  intros Ha E. pose proof (total_done _ _ _ _ (total_in_scope _ (block_ends b)) Ha E) as L. split.
  - eapply l_wf, leads_restore; [by apply snapshot_plain|apply L].
  - by apply restore_branch, L.
Qed.

(** C10: after exclusive branches a variable that was owned before counts as moved exactly when every
    branch moved it and they cover all cases; when only some did it counts as owned; every other
    variable keeps the state of the last branch. *)
Theorem merge_branches_spec warn covered before states a x :
  v_state <$> lookup_var (merge_branches warn covered before states a) x
  = (fun i => match before !! x with Some (pre, _) => merged x covered states pre (v_state i) | None => v_state i end)
    <$> lookup_var a x.
Proof.
  rewrite <-!visible_col, merge_branches_merged. destruct (before !! x) as [[pre fs]|].
  - pose proof (visible_col x a) as Hv. destruct (lookup_var a x) as [i|]; cbn in Hv |- *; rewrite Hv; [|done].
    by eapply visible_set_first.
  - rewrite visible_col. by destruct (lookup_var a x).
Qed.
End Walk.
