(* ===== verification/OwnCopy.v ===== *)
(** Variables of copy types in the ownership analysis: a name that is only declared with
    copy types is never marked as moved, so no use of it is reported as a use after a
    move. *)

From S2P Require Import Prelude Machine Utf8 Text Token Ast AstWalk OwnState OwnPaths OwnFrame Ownership.

(* ------------------------------------------------------------------ *)
(** ** Declarations with copy types                                    *)
(* ------------------------------------------------------------------ *)

(** The values that are copies whatever their parts are. *)
Definition always_copy (e : Expr) : bool :=
  match e with
  | E_IntLiteral _ _ | E_FloatLiteral _ _ | E_BoolLiteral _ _ | E_CharLiteral _ _ | E_StringLiteral _ _
  | E_Lambda _ _ _ _ | E_RangeExpr _ _ _ _ | E_IndexAccess _ _ _ | E_ArrayLiteral _ _ => true
  | _ => false
  end.
Definition copy_let (t : Tables) (ty : option TypeExpr) (value : option Expr) : bool :=
  match value with
  | Some (E_SharedExpr _ _) | Some (E_WeakExpr _ _) => false
  | Some e => always_copy e || is_opt_type_copy t ty false
  | None => is_opt_type_copy t ty false
  end.

Section Tracked.
(** The names that are looked at, and the types of the module. *)
Context (t : Tables) (on : str -> bool).

Definition copy_param (default : bool) (p : Param) : bool :=
  let 'mkParam name ty _ _ := p in negb (on name) || is_opt_type_copy t ty default.
(** What a node declares under a name that is looked at has a copy type. *)
Definition copy_here (n : node) : bool :=
  match n with
  | N_stmt (S_Let name _ ty value _ _) => negb (on name) || copy_let t ty value
  | N_stmt (S_TryCatch _ name _ _) => negb (on name)
  | N_expr (E_Lambda params _ _ _) => forallb (copy_param true) params
  | N_expr (E_MatchExpr _ arms _) =>
      forallb (fun arm => let 'mkArm pattern _ _ _ := arm in forallb (fun y => negb (on y)) (pattern_names pattern)) arms
  | _ => true
  end.
Definition copies (n : node) : bool := everywhere copy_here n.
Definition copy_body (params : list Param) (body : Block) : bool :=
  forallb (copy_param false) params && copies (N_block body).
End Tracked.

Lemma type_copy_ext t t' ty : copy_structs t = copy_structs t' -> is_type_expr_copy t ty = is_type_expr_copy t' ty.
Proof.
  intros Ht. revert ty. fix IH 1. intros ty. destruct ty; try reflexivity; cbn.
  - unfold is_copy_type_name. by rewrite Ht.
  - induction elements as [|e l IHl]; cbn; [done|]. by rewrite IH, IHl.
Qed.
Lemma opt_type_copy_ext t t' ty b : copy_structs t = copy_structs t' -> is_opt_type_copy t ty b = is_opt_type_copy t' ty b.
Proof. intros Ht. destruct ty; [by apply type_copy_ext|done]. Qed.

(* ------------------------------------------------------------------ *)
(** ** Steps that move no such name                                    *)
(* ------------------------------------------------------------------ *)

Section Keeps.
Context (states_order : gmap str (OwnershipState * gset str) -> list (str * (OwnershipState * gset str))).
Context (variants_order : gmap (str * str) (list TypeExpr) -> list ((str * str) * list TypeExpr)).
Context (states_perm : forall m, states_order m ≡ₚ map_to_list m).
Context (t : Tables) (on : str -> bool).
#[local] Abbreviation analyze_expr_use := (analyze_expr_use states_order variants_order).
#[local] Abbreviation analyze_stmt := (analyze_stmt states_order variants_order).
#[local] Abbreviation analyze_block := (analyze_block states_order variants_order).

Definition unmoved (i : VarInfo) : Prop := v_is_copy i = true /\ v_state i <> OS_Moved.
Record kept (a : Analyzer) : Prop := {
  kept_tables : copy_structs (tables a) = copy_structs t;
  kept_scopes : Forall (fun sc : Scope => forall y i, on y = true -> sc !! y = Some i -> unmoved i) (scopes a)
}.
Definition no_move (d : OwnDiag) : Prop := forall y sp, on y = true -> blame d <> Some (y, sp, OS_Moved).
Record keep (a a' : Analyzer) : Prop := {
  keep_kept : kept a';
  keep_diags : exists ds, od_diagnostics a' = od_diagnostics a ++ ds /\ Forall no_move ds
}.
Definition keeps (f : Analyzer -> res Analyzer) : Prop := forall a a', kept a -> f a = Done a' -> keep a a'.

Lemma keep_refl a : kept a -> keep a a.
Proof. intros Ha. split; [done|]. exists []. by rewrite app_nil_r. Qed.
Lemma keep_trans a1 a2 a3 : keep a1 a2 -> keep a2 a3 -> keep a1 a3.
Proof.
  intros [_ (d1 & D1 & W1)] [K (d2 & D2 & W2)]. split; [done|]. exists (d1 ++ d2).
  rewrite D2, D1, <-app_assoc. split; [done|]. by apply Forall_app.
Qed.
Lemma keeps_ret : keeps Done.
Proof. intros a a' Ha [= <-]. by apply keep_refl. Qed.
Lemma keeps_bind f g : keeps f -> keeps g -> keeps (fun a => a ← f a; g a).
Proof.
  intros Hf Hg a a' Ha E. apply res_bind_done in E as (a1 & E1 & E2). pose proof (Hf a a1 Ha E1) as K.
  eapply keep_trans; [exact K|]. apply Hg; [apply K|done].
Qed.
Lemma keeps_foldM {A} (f : A -> Analyzer -> res Analyzer) l : Forall (fun x => keeps (f x)) l -> keeps (foldM f l).
Proof. induction 1 as [|x l Hx Hl IH]; [apply keeps_ret|]. by apply (keeps_bind (f x) (foldM f l)). Qed.
Lemma keeps_pure (g : Analyzer -> Analyzer) : (forall a, kept a -> keep a (g a)) -> keeps (fun a => Done (g a)).
Proof. intros Hg a a' Ha [= <-]. by apply Hg. Qed.
Lemma keeps_option {A} (f : A -> Analyzer -> res Analyzer) o :
  match o with Some x => keeps (f x) | None => True end -> keeps (from_option f Done o).
Proof. destruct o; [done|]. intros _. apply keeps_ret. Qed.
Lemma keeps_after g f : (forall a, kept a -> keep a (g a)) -> keeps f -> keeps (fun a => f (g a)).
Proof. intros Hg Hf. apply (keeps_bind (fun a => Done (g a)) f); [by apply keeps_pure|done]. Qed.

(** The scopes stay as they are. *)
Lemma keep_same a a' ds :
  kept a -> scopes a' = scopes a -> copy_structs (tables a') = copy_structs (tables a) ->
  od_diagnostics a' = od_diagnostics a ++ ds -> Forall no_move ds -> keep a a'.
Proof. intros [H1 H2] Hs Ht Hd Hn. split; [split; [by rewrite Ht|by rewrite Hs]|by exists ds]. Qed.
Lemma keep_quiet a a' :
  kept a -> scopes a' = scopes a -> copy_structs (tables a') = copy_structs (tables a) ->
  od_diagnostics a' = od_diagnostics a -> keep a a'.
Proof. intros Ha Hs Ht Hd. apply (keep_same a a' []); try done. by rewrite app_nil_r. Qed.
Lemma keep_diag d a : kept a -> no_move d -> keep a (add_diag d a).
Proof. intros Ha Hd. by apply (keep_same a _ [d]); [..|constructor]. Qed.

Lemma kept_lookup a y i : kept a -> on y = true -> lookup_var a y = Some i -> unmoved i.
Proof.
  intros [_ H] Hy. unfold lookup_var. induction H as [|sc s Hsc Hs IH]; cbn; [done|].
  destruct (sc !! y) as [j|] eqn:Hj; [|done]. intros [= <-]. by eapply Hsc.
Qed.
Lemma keep_alter f y a :
  kept a -> (on y = true -> forall i, unmoved i -> unmoved (f i)) -> keep a (alter_var f y a).
Proof.
  intros [H1 H2] Hf. split; [split; [done|]|by exists []; rewrite app_nil_r]. unfold alter_var, with_scopes. cbn [scopes].
  induction H2 as [|sc s Hsc Hs IH]; cbn; [constructor|].
  destruct (sc !! y) as [i|] eqn:Hy; constructor; try done.
  intros z j Hz. destruct (decide (y = z)) as [<-|]; [rewrite lookup_insert_eq|rewrite lookup_insert_ne by done; by apply Hsc].
  intros [= <-]. apply Hf; [done|]. by eapply Hsc.
Qed.
Lemma keep_check y span a : kept a -> keep a (check_usable y span a).
Proof.
  intros Ha. unfold check_usable. destruct (lookup_var a y) as [i|] eqn:Hi; [|by apply keep_refl].
  destruct (v_state i) eqn:Hs; try (by apply keep_refl); apply keep_diag; try done.
  intros z sp Hz [= <- <-]. by destruct (kept_lookup a y i Ha Hz Hi) as [_ H].
Qed.
Lemma keep_mark y span a : kept a -> keep a (mark_moved y span a).
Proof.
  intros Ha. unfold mark_moved. destruct (lookup_var a y) as [i|] eqn:Hi; [|by apply keep_refl].
  destruct (v_is_copy i || _) eqn:Hc; [by apply keep_refl|]. apply keep_alter; [done|]. intros Hy.
  destruct (kept_lookup a y i Ha Hy Hi) as [H _]. by rewrite H in Hc.
Qed.
Lemma keeps_define y i : (on y = true -> unmoved i) -> keeps (define_var y i).
Proof.
  intros Hi a a' [H1 H2] E. unfold define_var in E. destruct (scopes a) as [|sc s] eqn:Hs; [done|]. injection E as <-.
  apply Forall_cons_1 in H2 as [Hsc H2]. split; [split; [done|]|by exists []; rewrite app_nil_r].
  cbn. constructor; [|done]. intros z j Hz. destruct (decide (y = z)) as [<-|].
  - rewrite lookup_insert_eq. intros [= <-]. by apply Hi.
  - rewrite lookup_insert_ne by done. by apply Hsc.
Qed.
Lemma keeps_in_scope f : keeps f -> keeps (in_scope f).
Proof.
  intros Hf a a' Ha E. unfold in_scope in E. apply res_bind_done in E as (a1 & E1 & E2).
  assert (Hp : kept (push_scope a)).
  { destruct Ha as [H1 H2]. split; [done|]. constructor; [|done]. intros y i _. by rewrite lookup_empty. }
  destruct (Hf _ a1 Hp E1) as [[K1 K2] D]. unfold pop_scope in E2.
  destruct (scopes a1) as [|sc1 [|sc2 s2]] eqn:Hs1; [done|done|]. injection E2 as <-.
  apply Forall_cons_1 in K2 as [_ K2]. by split.
Qed.
Lemma keep_fold {A} (g : Analyzer -> A -> Analyzer) l a :
  (forall y a, y ∈ l -> kept a -> keep a (g a y)) -> kept a -> keep a (fold_left g l a).
Proof.
  revert a. induction l as [|y l IH]; intros a Hg Ha; cbn; [by apply keep_refl|].
  assert (H1 : keep a (g a y)) by (apply Hg; [constructor|done]).
  eapply keep_trans; [exact H1|]. apply IH; [|apply H1]. intros z a' Hz. apply Hg. by constructor.
Qed.

(** Snapshots, restoration and the end of branches. *)
Definition calm_full (before : gmap str (OwnershipState * gset str)) : Prop :=
  forall y st fs, on y = true -> before !! y = Some (st, fs) -> st <> OS_Moved.
Definition calm_states (s : gmap str OwnershipState) : Prop := forall y, on y = true -> s !! y <> Some OS_Moved.
Lemma snapshot_calm a : kept a -> calm_full (snapshot_full a).
Proof.
  intros Ha y st fs Hy. rewrite snapshot_full_lookup. destruct (lookup_var a y) as [i|] eqn:Hi; [|done].
  intros [= <- <-]. by eapply kept_lookup.
Qed.
Lemma states_calm a : kept a -> calm_states (snapshot_states a).
Proof.
  intros Ha y Hy. rewrite snapshot_states_lookup. destruct (lookup_var a y) as [i|] eqn:Hi; [|done].
  intros [= H]. by destruct (kept_lookup a y i Ha Hy Hi).
Qed.
Lemma keep_restore before a : calm_full before -> kept a -> keep a (restore_all states_order before a).
Proof.
  intros Hb Ha. apply keep_fold; [|done]. intros [y [st fs]] a' Hin Ha'.
  apply (elem_of_order states_order states_perm) in Hin. apply keep_alter; [done|]. intros Hy i [H1 _]. split; [done|].
  by apply (Hb y st fs).
Qed.
Lemma keep_merge warn covered before states a :
  Forall calm_states states -> (states = [] -> covered = false) -> kept a ->
  keep a (merge_branches states_order warn covered before states a).
Proof.
  intros Hs Hc Ha. apply keep_fold; [|done]. intros [y [pre fs]] a' _ Ha'. unfold merge_one.
  destruct (negb _); [by apply keep_refl|]. set (a1 := match warn with Some _ => _ | None => _ end).
  assert (H1 : keep a' a1).
  { unfold a1. destruct warn; [|by apply keep_refl]. destruct (_ && _); [|by apply keep_refl]. by apply keep_diag. }
  eapply keep_trans; [exact H1|]. destruct H1 as [K1 _].
  destruct (covered && forallb (moved_in y) states) eqn:Hm.
  - apply keep_alter; [done|]. intros Hy. apply andb_true_iff in Hm as [Hcov Hm].
    destruct Hs as [|s states Hs _]; [by rewrite Hc in Hcov|]. cbn in Hm. apply andb_true_iff in Hm as [Hm _].
    unfold moved_in in Hm. apply bool_decide_eq_true in Hm. by destruct (Hs y Hy).
  - destruct (existsb _ _); [|by apply keep_refl]. apply keep_alter; [done|]. by intros _ i [H _].
Qed.

(* ------------------------------------------------------------------ *)
(** ** The walk                                                        *)
(* ------------------------------------------------------------------ *)

Lemma copy_ty a ty b : kept a -> is_opt_type_copy t ty b = true -> is_opt_type_copy (tables a) ty b = true.
Proof. intros [H _] <-. by apply opt_type_copy_ext. Qed.
Lemma unmoved_owned m cp span : cp = true -> unmoved (owned_var m cp span).
Proof. by intros ->. Qed.

Lemma keeps_bind_pattern p :
  forallb (fun y => negb (on y)) (pattern_names p) = true -> keeps (bind_pattern variants_order p).
Proof.
  revert p. fix IH 1. intros p. destruct p as [|x m sp| |ps sp|n fs sp|n v ps sp|ps sp]; cbn; intros Hp.
  - apply keeps_ret.
  - apply andb_true_iff in Hp as [Hx _]. apply keeps_define. intros Hon. by rewrite Hon in Hx.
  - apply keeps_ret.
  - apply keeps_foldM. induction ps as [|p ps IHps]; constructor; cbn in Hp; rewrite forallb_app, andb_true_iff in Hp;
      [apply IH, Hp|apply IHps, Hp].
  - apply keeps_foldM. induction fs as [|[y p] fs IHfs]; constructor; cbn in Hp; rewrite forallb_app, andb_true_iff in Hp;
      [apply IH, Hp|apply IHfs, Hp].
  - intros a a' Ha. generalize (default [] (variant_types variants_order (tables a) n v)). intros tys.
    revert tys a Ha. induction ps as [|p ps IHps]; intros tys a Ha E; cbn in E; [by injection E as <-; apply keep_refl|].
    cbn in Hp. rewrite forallb_app, andb_true_iff in Hp. destruct Hp as [Hp Hps].
    apply res_bind_done in E as (a1 & E1 & E2). assert (K : keep a a1).
    { pose proof (IH p Hp) as Hk. destruct p as [|y m sp'| | | | |]; try (by apply Hk).
      cbn zeta in E1. set (a2 := match head tys with Some _ => _ | None => _ end) in E1.
      assert (K2 : keep a a2).
      { unfold a2. destruct (head tys) as [[]|]; try (by apply keep_refl). by apply keep_quiet. }
      eapply keep_trans; [exact K2|]. eapply keeps_define; [|apply K2|exact E1]. intros Hon.
      cbn in Hp. by rewrite Hon in Hp. }
    eapply keep_trans; [exact K|]. apply (IHps Hps (tail tys) a1 (keep_kept _ _ K)). exact E2.
  - destruct ps as [|p ps]; [apply keeps_ret|by apply IH].
Qed.

Lemma keep_captures params body span a : kept a -> keep a (check_captures params body span a).
Proof.
  intros Ha. apply keep_fold; [|done]. intros y a' _ Ha'. destruct (lookup_var a' y) as [i|]; [|by apply keep_refl].
  destruct (v_mutable i); [|by apply keep_check].
  assert (K : keep a' (push_arc (mkArc y span AR_ClosureCaptureMut) a')) by (by apply keep_quiet).
  eapply keep_trans; [exact K|]. apply keep_check, K.
Qed.
Lemma keeps_lambda_param p : copy_param t on true p = true -> keeps (define_lambda_param p).
Proof.
  destruct p as [y ty d span]. cbn. intros Hp a a' Ha E. apply res_bind_done in E as (a1 & E1 & [= <-]).
  assert (K : keep a a1).
  { eapply keeps_define; [|exact Ha|exact E1]. intros Hon. apply unmoved_owned, copy_ty; [done|]. by rewrite Hon in Hp. }
  eapply keep_trans; [exact K|]. destruct ty as [[]|]; try (apply keep_refl, K). apply keep_quiet; [apply K|done..].
Qed.
Lemma keep_record y ty e a : kept a -> keep a (record_let_types y ty e a).
Proof.
  intros Ha. apply keep_quiet; [done|..]; unfold record_let_types; by repeat case_match.
Qed.
Lemma keeps_move e : keeps (analyze_expr_use e) -> keeps (move_with analyze_expr_use e).
Proof.
  intros He. destruct e as [| | | | | | |y span|object field span| | | | | | | | | | | | | | | | | | | | | | | | | |]; try exact He.
  - apply keeps_pure. intros a Ha. pose proof (keep_check y span a Ha) as K. eapply keep_trans; [exact K|].
    apply keep_mark, K.
  - destruct object as [| | | | | | |y sp| | | | | | | | | | | | | | | | | | | | | | | | | | |]; try exact He.
    apply keeps_pure. intros a Ha. by apply keep_check.
Qed.

Definition node_keeps (n : node) : Prop :=
  match n with
  | N_expr e => keeps (analyze_expr_use e)
  | N_stmt s => keeps (analyze_stmt s)
  | N_block b => keeps (analyze_block b)
  end.
Lemma copies_children n : copies t on n = true -> copy_here t on n = true /\ Forall (fun c => copies t on c = true) (children n).
Proof.
  unfold copies. rewrite everywhere_children, andb_true_iff. intros [H1 H2]. split; [done|].
  by apply Forall_forall; intros c Hc; rewrite forallb_forall in H2; apply H2, list_elem_of_In.
Qed.
Lemma keeps_exprs es : Forall node_keeps (map N_expr es) -> Forall (fun e => keeps (analyze_expr_use e)) es.
Proof. induction es as [|e es IH]; cbn; intros H; split_nodes; constructor; auto. Qed.

Lemma keeps_call callee args span :
  keeps (analyze_expr_use callee) -> Forall (fun e => keeps (analyze_expr_use e)) args ->
  keeps (analyze_expr_use (E_FnCall callee args span)).
Proof.
  intros Hc Ha. cbn [Ownership.analyze_expr_use]. apply (keeps_bind (analyze_expr_use callee)); [done|].
  pose proof (keeps_foldM analyze_expr_use args Ha) as Hf.
  destruct callee; try exact Hf. destruct args as [|e1 [|e2 [|]]]; try exact Hf. split_nodes.
  destruct (bool_decide _); apply (keeps_bind (analyze_expr_use e1)); try done. by apply keeps_move.
Qed.
Lemma keeps_field object field span : keeps (analyze_expr_use object) -> keeps (analyze_expr_use (E_FieldAccess object field span)).
Proof.
  intros Ho a a' Ha E. cbn [Ownership.analyze_expr_use] in E.
  destruct (match object with E_Identifier name _ => _ | _ => None end) as [name|] in E; [|by apply Ho].
  injection E as <-. by apply keep_diag.
Qed.
Lemma keeps_if_expr c b1 b2 span :
  keeps (analyze_expr_use c) -> keeps (analyze_block b1) -> match b2 with Some b => keeps (analyze_block b) | None => True end ->
  keeps (analyze_expr_use (E_IfExpr c b1 b2 span)).
Proof.
  intros Hc H1 H2 a a' Ha E. cbn [Ownership.analyze_expr_use] in E. apply res_bind_done in E as (a0 & E0 & E).
  pose proof (Hc a a0 Ha E0) as K0. eapply keep_trans; [exact K0|]. cbn zeta in E. apply res_bind_done in E as (a1 & E1 & E).
  pose proof (keeps_in_scope _ H1 a0 a1 (keep_kept _ _ K0) E1) as K1. eapply keep_trans; [exact K1|].
  pose proof (snapshot_calm _ (keep_kept _ _ K0)) as Hb. destruct b2 as [b2|].
  - apply res_bind_done in E as (a3 & E3 & E). injection E as <-.
    pose proof (keep_restore _ a1 Hb (keep_kept _ _ K1)) as Kr. eapply keep_trans; [exact Kr|].
    pose proof (keeps_in_scope _ H2 _ a3 (keep_kept _ _ Kr) E3) as K3. eapply keep_trans; [exact K3|].
    apply keep_merge; [|done|apply K3]. repeat constructor; [apply states_calm, K1|apply states_calm, K3].
  - injection E as <-. apply keep_merge; [|done|apply K1]. repeat constructor. apply states_calm, K1.
Qed.

(** A loop that also collects snapshots. *)
Lemma keeps_fold_states {A} (f : A -> Analyzer * list (gmap str OwnershipState) -> res (Analyzer * list (gmap str OwnershipState))) (l : list A) :
  Forall (fun y => forall a states a' states', kept a -> f y (a, states) = Done (a', states') ->
    keep a a' /\ states' = states ++ [snapshot_states a']) l ->
  forall a states a' states', kept a -> Forall calm_states states -> foldM f l (a, states) = Done (a', states') ->
  keep a a' /\ Forall calm_states states' /\ (states <> [] -> states' <> []).
Proof.
  intros Hl. induction Hl as [|y l Hy Hl IH]; intros a states a' states' Ha Hs E; cbn in E.
  - injection E as <- <-. split; [by apply keep_refl|done].
  - apply res_bind_done in E as ([a1 st1] & E1 & E2). destruct (Hy a states a1 st1 Ha E1) as [K1 ->].
    assert (Hs1 : Forall calm_states (states ++ [snapshot_states a1])).
    { apply Forall_app. split; [done|]. constructor; [apply states_calm, K1|constructor]. }
    destruct (IH a1 _ a' states' (keep_kept _ _ K1) Hs1 E2) as (K2 & Hs2 & Hn2).
    split; [by eapply keep_trans|]. split; [done|]. intros _. apply Hn2. by destruct states.
Qed.

Definition arm_keeps (arm : MatchArm) : Prop :=
  let 'mkArm pattern guard body _ := arm in
  forallb (fun y => negb (on y)) (pattern_names pattern) = true
  /\ match guard with Some g => keeps (analyze_expr_use g) | None => True end /\ keeps (analyze_expr_use body).
Lemma keeps_match subject arms span :
  keeps (analyze_expr_use subject) -> Forall arm_keeps arms -> keeps (analyze_expr_use (E_MatchExpr subject arms span)).
Proof.
  intros Hs Harms a a' Ha E. cbn [Ownership.analyze_expr_use] in E. apply res_bind_done in E as (a0 & E0 & E).
  pose proof (Hs a a0 Ha E0) as K0. eapply keep_trans; [exact K0|]. cbn zeta in E.
  apply res_bind_done in E as ([a1 states] & E1 & E). injection E as <-.
  pose proof (snapshot_calm _ (keep_kept _ _ K0)) as Hb.
  apply keeps_fold_states in E1 as (K1 & Hst & _); [| |apply K0|constructor].
  - eapply keep_trans; [exact K1|]. apply keep_merge; [done|by intros ->|apply K1].
  - eapply Forall_impl; [exact Harms|]. intros [pattern guard body sp] (Hp & Hg & Hbody) a2 st2 a3 st3 H2 E2.
    apply res_bind_done in E2 as (a4 & E4 & [= <- <-]). split; [|done].
    assert (Hf : keeps (in_scope (fun a => a ← bind_pattern variants_order pattern a;
      a ← from_option analyze_expr_use Done guard a; analyze_expr_use body a))).
    { apply keeps_in_scope, (keeps_bind (bind_pattern variants_order pattern)); [by apply keeps_bind_pattern|].
      apply (keeps_bind (from_option analyze_expr_use Done guard)); [|done]. by apply keeps_option. }
    destruct st2 as [|s2 st2]; [by apply (Hf a2)|]. pose proof (keep_restore _ a2 Hb H2) as Kr.
    eapply keep_trans; [exact Kr|]. by apply (Hf _ a4 (keep_kept _ _ Kr)).
Qed.
Lemma keeps_if c b elifs b2 span :
  keeps (analyze_expr_use c) -> keeps (analyze_block b) ->
  Forall (fun '(c, b) => keeps (analyze_expr_use c) /\ keeps (analyze_block b)) elifs ->
  match b2 with Some b => keeps (analyze_block b) | None => True end -> keeps (analyze_stmt (S_If c b elifs b2 span)).
Proof.
  intros Hc H1 Helifs H2 a a' Ha E. cbn [Ownership.analyze_stmt] in E. apply res_bind_done in E as (a0 & E0 & E).
  pose proof (Hc a a0 Ha E0) as K0. eapply keep_trans; [exact K0|]. cbn zeta in E. apply res_bind_done in E as (a1 & E1 & E).
  pose proof (keeps_in_scope _ H1 a0 a1 (keep_kept _ _ K0) E1) as K1. eapply keep_trans; [exact K1|].
  pose proof (snapshot_calm _ (keep_kept _ _ K0)) as Hb. apply res_bind_done in E as ([a2 states] & E2 & E).
  apply keeps_fold_states in E2 as (K2 & Hst & _); [| |apply K1|constructor; [apply states_calm, K1|constructor]].
  - eapply keep_trans; [exact K2|]. pose proof (keep_restore _ a2 Hb (keep_kept _ _ K2)) as Kr. eapply keep_trans; [exact Kr|].
    destruct b2 as [b2|]; [|injection E as <-; apply keep_refl, Kr].
    apply res_bind_done in E as (a3 & E3 & [= <-]).
    pose proof (keeps_in_scope _ H2 _ a3 (keep_kept _ _ Kr) E3) as K3. eapply keep_trans; [exact K3|].
    apply keep_merge; [|by destruct states|apply K3]. apply Forall_app. split; [done|].
    constructor; [apply states_calm, K3|constructor].
  - eapply Forall_impl; [exact Helifs|]. intros [c' b'] [Hc' Hb'] a3 st3 a4 st4 H3 E3.
    apply res_bind_done in E3 as (a5 & E5 & E3). apply res_bind_done in E3 as (a6 & E6 & [= <- <-]). split; [|done].
    pose proof (keep_restore _ a3 Hb H3) as Kr. eapply keep_trans; [exact Kr|].
    pose proof (Hc' _ a5 (keep_kept _ _ Kr) E5) as K5. eapply keep_trans; [exact K5|].
    by apply (keeps_in_scope _ Hb' a5 a6 (keep_kept _ _ K5)).
Qed.

Lemma keep_use_or_move (copy : bool) e a a1 :
  keeps (analyze_expr_use e) -> kept a ->
  (if copy || is_identifier e then analyze_expr_use e a else move_with analyze_expr_use e a) = Done a1 -> keep a a1.
Proof. intros He Ha. destruct (copy || _); intros E; [exact (He a a1 Ha E)|exact (keeps_move e He a a1 Ha E)]. Qed.
Lemma always_copy_expr a e : always_copy e = true -> expr_is_copy a e = true.
Proof. by destruct e. Qed.

Lemma keeps_let y m ty init pattern span :
  negb (on y) || copy_let t ty init = true ->
  match init with
  | Some (E_SharedExpr e _) | Some (E_WeakExpr e _) | Some e => keeps (analyze_expr_use e) | None => True end ->
  keeps (analyze_stmt (S_Let y m ty init pattern span)).
Proof.
  intros Hy Hi. destruct init as [e|].
  2:{ intros a a' Ha E. cbn in E. eapply keeps_define; [|exact Ha|exact E]. intros Hon. rewrite Hon in Hy. cbn in Hy.
      split; [|done]. by apply copy_ty. }
  assert (Hgen : forall a a', kept a ->
    (let is_copy := expr_is_copy a e || is_opt_type_copy (tables a) ty false in
     a ← (if is_copy || is_identifier e then analyze_expr_use e a else move_with analyze_expr_use e a);
     a ← define_var y (owned_var m is_copy span) a; Done (record_let_types y ty e a)) = Done a' ->
    keeps (analyze_expr_use e) -> copy_let t ty (Some e) = always_copy e || is_opt_type_copy t ty false -> keep a a').
  { intros a a' Ha E He Hl. cbn zeta in E. apply res_bind_done in E as (a1 & E1 & E).
    pose proof (keep_use_or_move _ e a a1 He Ha E1) as K1. eapply keep_trans; [exact K1|].
    apply res_bind_done in E as (a2 & E2 & [= <-]).
    assert (K2 : keep a1 a2).
    { eapply keeps_define; [|apply K1|exact E2]. intros Hon. apply unmoved_owned. rewrite Hon, Hl in Hy. cbn in Hy.
      apply orb_true_iff in Hy as [Hc|Hc]; [by rewrite always_copy_expr|]. rewrite (copy_ty a) by done. apply orb_true_r. }
    eapply keep_trans; [exact K2|]. apply keep_record, K2. }
  intros a a' Ha E. cbn [Ownership.analyze_stmt] in E. destruct e; cbv beta iota in E;
    try exact (Hgen a a' Ha E Hi eq_refl); clear Hgen; cbn in Hy; rewrite orb_false_r in Hy;
    apply negb_true_iff in Hy; apply res_bind_done in E as (a1 & E1 & E2).
  - pose proof (keeps_move _ Hi a a1 Ha E1) as K1. eapply keep_trans; [exact K1|].
    eapply keep_trans; [apply (keep_quiet a1 (push_arc (mkArc y span0 AR_ExplicitShared) a1)); [apply K1|done..]|].
    eapply keeps_define; [|eapply keep_kept, (keep_quiet a1); [apply K1|done..]|exact E2]. intros Hon. congruence.
  - pose proof (Hi a a1 Ha E1) as K1. eapply keep_trans; [exact K1|].
    eapply keeps_define; [|apply K1|exact E2]. intros Hon. congruence.
Qed.
Lemma target_cases target :
  (exists y sp, target = E_Identifier y sp) \/ (exists o f sp, target = E_FieldAccess o f sp)
  \/ forall A (f : str -> A) (g : Expr -> A) (d : A),
       match target with E_Identifier y _ => f y | E_FieldAccess o _ _ => g o | _ => d end = d.
Proof. destruct target; try (right; right; intros; reflexivity); [left|right; left]; by repeat eexists. Qed.
Lemma keeps_assign target op e span :
  keeps (analyze_expr_use target) -> match target with E_FieldAccess o _ _ => keeps (analyze_expr_use o) | _ => True end ->
  keeps (analyze_expr_use e) -> keeps (analyze_stmt (S_Assign target op e span)).
Proof.
  intros Ht Ho He a a' Ha E. cbn [Ownership.analyze_stmt] in E. apply res_bind_done in E as (a1 & E1 & E).
  pose proof (keep_use_or_move _ e a a1 He Ha E1) as K1. eapply keep_trans; [exact K1|].
  destruct (target_cases target) as [(y & sp & ->)|[(o & f & sp & ->)|Hd]]; cbv beta iota in E.
  - injection E as <-. apply keep_alter; [apply K1|]. by intros _ i [H _].
  - exact (Ho a1 a' (keep_kept _ _ K1) E).
  - rewrite Hd in E. exact (Ht a1 a' (keep_kept _ _ K1) E).
Qed.

Ltac fold_keeps l IH :=
  apply keeps_foldM; revert IH; induction l as [|? l IHl]; cbn [flat_map map app part_nodes]; intros IH; [constructor|].

Lemma copies_walk l :
  Forall (fun n => copies t on n = true -> node_keeps n) l -> Forall (fun c => copies t on c = true) l -> Forall node_keeps l.
Proof. intros H1 H2. induction H1 as [|n l Hn Hl IH]; [constructor|]. apply Forall_cons_1 in H2 as [? H2]. constructor; auto. Qed.
Lemma keeps_two f g : keeps f -> keeps g -> keeps (fun a => a ← f a; g a).
Proof. apply keeps_bind. Qed.

Lemma walk_keeps_expr e :
  copy_here t on (N_expr e) = true -> Forall node_keeps (expr_children e) -> keeps (analyze_expr_use e).
Proof.
  intros Hhere H.
  destruct e as [| | |parts sp| | | |y sp|object field sp|e1 e2 sp|op e1 e2 sp|op e1 sp|callee args sp|object m args sp
    |tn m es sp|es sp|es sp|entries sp|nm fields sp|params ret body sp|c b1 b2 sp|subject arms sp|start end_ i sp|e1 e2 sp
    |e1 m sp|e1 sp|e1 sp|e1 sp|e1 sp|b sp|b sp|b sp|e1 ty sp|b sp|e1 sp];
    cbn [expr_children] in H; split_nodes; cbn [node_keeps] in *; try assumption; try apply keeps_ret;
    try (by apply keeps_in_scope); try (by apply keeps_foldM, keeps_exprs); try (by apply (keeps_two (analyze_expr_use _))).
  - fold_keeps parts H. destruct a as [|e]; cbn [part_nodes app] in H; split_nodes; (constructor; [|by apply IHl]); [apply keeps_ret|assumption].
  - apply keeps_pure. intros a Ha. by apply keep_check.
  - by apply keeps_field.
  - apply keeps_call; [done|by apply keeps_exprs].
  - apply (keeps_two (analyze_expr_use object)); [done|by apply keeps_foldM, keeps_exprs].
  - fold_keeps entries H. destruct a as [k v]. cbn [app] in H. split_nodes. constructor; [|by apply IHl].
    by apply (keeps_two (analyze_expr_use k)).
  - fold_keeps fields H. destruct a as [k v]. cbn [app] in H. split_nodes. by constructor; [|apply IHl].
  - cbn [Ownership.analyze_expr_use]. apply (keeps_after (check_captures params body sp)); [apply keep_captures|].
    apply keeps_in_scope, (keeps_two (foldM define_lambda_param params)); [|done]. apply keeps_foldM.
    cbn in Hhere. rewrite forallb_forall in Hhere. apply Forall_forall. intros p Hp. apply keeps_lambda_param, Hhere.
    by apply list_elem_of_In.
  - by apply keeps_if_expr.
  - by apply keeps_if_expr.
  - apply keeps_match; [done|]. cbn in Hhere. revert Hhere H.
    induction arms as [|[p g b s] l IHl]; cbn [flat_map arm_nodes app forallb]; intros Hh H; [constructor|].
    apply andb_true_iff in Hh as [? Hh]. split_nodes; (constructor; [by split|by apply IHl]).
  - by apply (keeps_two (analyze_expr_use e) Done); [|apply keeps_ret].
  - intros a a' Ha E. cbn [Ownership.analyze_expr_use] in E. apply res_bind_done in E as (a1 & E1 & [= <-]).
    pose proof (keeps_move _ H0 a a1 Ha E1) as K1. eapply keep_trans; [exact K1|].
    destruct e1; try (apply keep_refl, K1). apply keep_quiet; [apply K1|done..].
  - by apply keeps_move.
Qed.

Lemma walk_keeps n : copies t on n = true -> node_keeps n.
Proof.
  induction n as [n IH IH2] using node_induction2. intros Hn. apply copies_children in Hn as [Hhere Hch].
  pose proof (copies_walk _ IH Hch) as H.
  assert (H2 : Forall (fun c => Forall node_keeps (children c)) (children n)).
  { clear -Hch IH2. induction IH2 as [|c l Hc Hl IHl]; [constructor|]. apply Forall_cons_1 in Hch as [Hk Hch].
    constructor; [|by apply IHl]. apply copies_children in Hk as [_ Hk]. by apply copies_walk. }
  clear IH IH2 Hch. destruct n as [e|s|[ss sp]].
  - by apply walk_keeps_expr.
  - destruct s as [y m ty init pat sp|target op rhs sp|rv sp|c b elifs b2 sp|par p e b sp|c b sp|sp|sp|e sp|e sp
      |branches timeout sp|b1 y b2 sp|e sp|denied b sp];
      cbn [children stmt_children] in H, H2; cbn [node_keeps]; try apply keeps_ret.
    + apply keeps_let; [exact Hhere|]. destruct init as [e|]; [|done]. cbn [opt] in H, H2. split_nodes.
      destruct e; try assumption; cbn [children expr_children] in *; by split_nodes.
    + split_nodes. apply keeps_assign; try assumption. destruct target; try done. cbn [children expr_children] in *. by split_nodes.
    + clear H2. destruct rv as [e|]; [|apply keeps_ret]. cbn [opt] in H. split_nodes. by apply keeps_move.
    + apply Forall_cons_1 in H as [Hc H]. apply Forall_cons_1 in H as [Hb H]. apply Forall_app in H as [He Hb2].
      apply keeps_if; [done|done| |].
      * clear -He. induction elifs as [|[c' b'] l IHl]; cbn [flat_map app] in He; [constructor|].
        split_nodes. constructor; [done|by apply IHl].
      * destruct b2 as [b2|]; [|done]. by apply Forall_cons_1 in Hb2 as [? _].
    + clear H2. split_nodes. by apply (keeps_two (analyze_expr_use e)), keeps_in_scope.
    + clear H2. split_nodes. by apply (keeps_two (analyze_expr_use c)), keeps_in_scope.
    + clear H2. by split_nodes.
    + clear H2. split_nodes. by apply keeps_move.
    + apply Forall_app in H as [H _]. clear H2. fold_keeps branches H. destruct a as [y ch body bsp]. cbn [branch_nodes] in H. split_nodes.
      constructor; [|by apply IHl]. by apply (keeps_two (analyze_expr_use ch)), keeps_in_scope.
    + clear H2. split_nodes. apply (keeps_two (in_scope (analyze_block b1))); [by apply keeps_in_scope|].
      apply keeps_in_scope, (keeps_two (define_var y _)); [|done]. apply keeps_define. intros Hon. cbn in Hhere. by rewrite Hon in Hhere.
    + clear H2. split_nodes. by apply keeps_move.
    + clear H2. by split_nodes.
  - cbn [children] in H. clear H2. apply keeps_foldM. induction ss as [|s ss IHs]; cbn [map] in H; split_nodes; constructor; auto.
Qed.

(** The parameters of a function, a method or a handler. *)
Lemma keeps_param p : copy_param t on false p = true -> keeps (define_param p).
Proof.
  destruct p as [y ty d span]. cbn. intros Hp a a' Ha E. apply res_bind_done in E as (a1 & E1 & [= <-]).
  assert (K : keep a a1).
  { eapply keeps_define; [|exact Ha|exact E1]. intros Hon. apply unmoved_owned, copy_ty; [done|]. by rewrite Hon in Hp. }
  eapply keep_trans; [exact K|]. destruct ty as [[]|]; try (apply keep_refl, K); apply keep_quiet; try apply K; done.
Qed.
Lemma keeps_handler_param p : copy_param t on false p = true -> keeps (define_handler_param p).
Proof.
  destruct p as [y ty d span]. cbn. intros Hp a a' Ha E. eapply keeps_define; [|exact Ha|exact E]. intros Hon.
  apply unmoved_owned, copy_ty; [done|]. by rewrite Hon in Hp.
Qed.
Lemma keeps_function (f : Param -> Analyzer -> res Analyzer) params body :
  (forall p, copy_param t on false p = true -> keeps (f p)) -> copy_body t on params body = true ->
  keeps (in_scope (fun a => a ← foldM f params a; analyze_block body a)).
Proof.
  intros Hf [Hp Hb]%andb_true_iff. apply keeps_in_scope, (keeps_two (foldM f params)); [|by apply (walk_keeps (N_block body))].
  apply keeps_foldM. rewrite forallb_forall in Hp. apply Forall_forall. intros p Hin. by apply Hf, Hp, list_elem_of_In.
Qed.
End Keeps.
