(* ===== verification/OwnReal.v ===== *)
(** What the ownership analysis reports is real: the reports of the walk over a module, put
    together from its bodies. *)

From S2P Require Import Prelude Machine Utf8 Text Token Ast AstWalk OwnState OwnPaths OwnFrame Ownership OwnCopy.

(** The name [x] is resolved as the language does, and code leaves early only at its end
    or from the guards of an [if]. *)
Definition orderly (x : str) (body : Block) : bool := fair x (N_block body) && leaves body.

(** The reports about a variable are about a path of one of the bodies. *)
Section Reports.
Context (states_order : gmap str (OwnershipState * gset str) -> list (str * (OwnershipState * gset str))).
Context (variants_order : gmap (str * str) (list TypeExpr) -> list ((str * str) * list TypeExpr)).
Context (states_perm : forall m, states_order m ≡ₚ map_to_list m).
#[local] Abbreviation analyze_block := (analyze_block states_order variants_order).
#[local] Abbreviation analyze_decl := (analyze_decl states_order variants_order).
#[local] Abbreviation analyze_module := (analyze_module states_order variants_order).

(** The types of the module. *)
Context (t : Tables) (x : str).
Definition is_x (y : str) : bool := bool_decide (y = x).

Definition real (bodies : list (list Param * Block)) (d : OwnDiag) : Prop :=
  forall sp st, blame d = Some (x, sp, st) ->
    exists ps b t1 t2, (ps, b) ∈ bodies /\ function_paths ps b (t1 ++ Ev_use x sp :: t2) /\ (Ev_exit ∉ t1) /\ visible (run x t1 [None]) = Some st
      /\ (st = OS_Moved -> copy_body t is_x ps b = false).
(** Between the bodies the name is unknown. *)
Record reports (bodies : list (list Param * Block)) (a a' : Analyzer) : Prop := {
  r_wf : wf a';
  r_col : col x a' = [None];
  r_tables : copy_structs (tables a') = copy_structs t;
  r_real : exists ds, od_diagnostics a' = od_diagnostics a ++ ds /\ Forall (real bodies) ds
}.
Definition checks (bodies : list (list Param * Block)) (f : Analyzer -> res Analyzer) : Prop :=
  forall a a', wf a -> col x a = [None] -> copy_structs (tables a) = copy_structs t -> f a = Done a' -> reports bodies a a'.

Lemma checks_ret : checks [] Done.
Proof. intros a a' Ha Hc Ht [= <-]. split; [done..|]. exists []. by rewrite app_nil_r. Qed.
Lemma checks_bind bs1 bs2 f g : checks bs1 f -> checks bs2 g -> checks (bs1 ++ bs2) (fun a => a ← f a; g a).
Proof.
  intros Hf Hg a a' Ha Hc Ht E. apply res_bind_done in E as (a1 & E1 & E2).
  destruct (Hf a a1 Ha Hc Ht E1) as [W1 C1 T1 (d1 & D1 & R1)]. destruct (Hg a1 a' W1 C1 T1 E2) as [W2 C2 T2 (d2 & D2 & R2)].
  split; [done..|]. exists (d1 ++ d2). rewrite D2, D1, <-app_assoc. split; [done|]. apply Forall_app. split.
  - eapply Forall_impl; [exact R1|]. intros d Hd sp st Hb. destruct (Hd sp st Hb) as (ps & b & t1 & t2 & Hin & H).
    exists ps, b, t1, t2. split; [apply elem_of_app; by left|done].
  - eapply Forall_impl; [exact R2|]. intros d Hd sp st Hb. destruct (Hd sp st Hb) as (ps & b & t1 & t2 & Hin & H).
    exists ps, b, t1, t2. split; [apply elem_of_app; by right|done].
Qed.
Lemma checks_foldM {A} (f : A -> Analyzer -> res Analyzer) (g : A -> list (list Param * Block)) l :
  Forall (fun y => checks (g y) (f y)) l -> checks (flat_map g l) (foldM f l).
Proof. induction 1 as [|y l Hy Hl IH]; [apply checks_ret|]. by apply (checks_bind (g y) (flat_map g l) (f y) (foldM f l)). Qed.
(** Nothing is said when no name is looked at, but the types stay. *)
Lemma copy_body_none ps b : copy_body t (fun _ => false) ps b = true.
Proof.
  unfold copy_body, copies, everywhere. apply andb_true_iff. rewrite !forallb_forall. split; [by intros []|].
  intros [e|s|b'] _; [destruct e|destruct s|]; try done; cbn; apply forallb_forall; [by intros []|].
  intros [p g body sp] _. apply forallb_forall. done.
Qed.
Lemma unknown_kept on a :
  (forall y, on y = true -> y = x) -> col x a = [None] -> copy_structs (tables a) = copy_structs t -> kept t on a.
Proof.
  intros Hon Hc Ht. split; [done|]. unfold col, col_of in Hc. destruct (scopes a) as [|sc [|? ?]]; try done.
  constructor; [|constructor]. intros y i ->%Hon Hi. cbn in Hc. by rewrite Hi in Hc.
Qed.
Lemma checks_function (f : Param -> Analyzer -> res Analyzer) params body :
  (forall p, total frame (f p)) -> (forall p, sounding x [None] true (just (defines [param_name p])) (f p)) ->
  (forall on p, copy_param t on false p = true -> keeps t on (f p)) ->
  orderly x body = true ->
  checks [(params, body)] (in_scope (fun a => a ← foldM f params a; analyze_block body a)).
Proof.
  intros Ht Hf Hk [Hfair Hleave]%andb_true_iff a a' Ha Hc Htab E.
  pose proof (total_done _ _ _ _ (total_function states_order variants_order states_perm f params body Ht) Ha E) as L.
  assert (K : knows x [None] (just []) (col x a)).
  { rewrite Hc. split; [apply inhabited_just|by intros u ->; apply shape_refl|]. intros [|i] s Hb Hi; by inversion Hi. }
  destruct (sound_function states_order variants_order states_perm x [None] f params body Ht Hf Hfair Hleave a a' Ha E (just []) K)
    as [_ (ds & D & W)].
  destruct (keeps_function states_order variants_order states_perm t (fun _ => false) f params body (Hk _)
    (copy_body_none params body) a a') as [K0 _]; [by apply unknown_kept|exact E|].
  split; [apply L| |apply K0|].
  - pose proof (l_frame _ _ _ L x) as Hfr. rewrite Hc in Hfr. by inversion Hfr as [|? ? Hnil|]; subst; inversion Hnil.
  - exists ds. split; [done|]. apply Forall_forall. intros d Hd sp st Hb. rewrite Forall_forall in W.
    destruct (W d Hd sp st Hb) as (u & t1 & t2 & -> & Hp & Hn & Hv). exists params, body, t1, t2.
    split; [constructor|]. split_and!; [done..|]. intros ->. apply not_true_iff_false. intros Hcopy.
    destruct (keeps_function states_order variants_order states_perm t is_x f params body (Hk _) Hcopy a a')
      as [_ (ds' & D' & W')]; [apply unknown_kept; [by intros y Hy%bool_decide_eq_true|done..]|exact E|].
    rewrite D in D'. apply app_inv_head in D' as <-. rewrite Forall_forall in W'.
    apply (W' d Hd x sp); [by apply bool_decide_eq_true|done].
Qed.
Lemma checks_decl d : Forall (fun pb => orderly x pb.2 = true) (decl_bodies d) -> checks (decl_bodies d) (analyze_decl d).
Proof.
  revert d. fix IH 1. intros d. destruct d; intros Hfair; try apply checks_ret; cbn in Hfair |- *.
  - destruct body as [body|]; [|apply checks_ret]. apply Forall_cons_1 in Hfair as [Hfair _].
    apply checks_function; [apply total_param|intros p; by apply sound_param|intros on p; apply keeps_param|done].
  - apply checks_foldM. revert Hfair. induction methods as [|d l IHl]; intros Hfair; constructor;
      apply Forall_app in Hfair as [H1 H2]; [by apply IH|by apply IHl].
  - set (g := fold_left (fun a f => push_arc (mkArc (sf_name f) span AR_ActorBoundary) a) state_fields).
    assert (Hg : forall a, scopes (g a) = scopes a /\ od_diagnostics (g a) = od_diagnostics a /\ tables (g a) = tables a).
    { unfold g. clear. induction state_fields as [|f l IHl]; intros a; cbn; [done|]. by destruct (IHl (push_arc (mkArc (sf_name f) span AR_ActorBoundary) a)). }
    assert (H : checks (flat_map (fun h => [(mh_params h, mh_body h)]) handlers) (foldM (fun h a =>
        in_scope (fun a => a ← foldM define_handler_param (mh_params h) a; analyze_block (mh_body h) a) a) handlers)).
    { apply checks_foldM. revert Hfair. clear -states_perm. induction handlers as [|h l IHl]; intros Hfair; constructor;
        apply Forall_cons_1 in Hfair as [H1 H2]; [|by apply IHl].
      apply checks_function; [apply total_handler_param|intros p; by apply sound_handler_param|intros on p; apply keeps_handler_param|done]. }
    intros a a' Ha Hc Ht E. destruct (Hg a) as (Hs & Hd & Htab).
    replace ((fun h => (mh_params h, mh_body h)) <$> handlers) with (flat_map (fun h => [(mh_params h, mh_body h)]) handlers)
      by (clear; induction handlers as [|h l IHl]; cbn; by rewrite ?IHl).
    destruct (H (g a) a') as [W C T R]; [unfold wf; by rewrite Hs|unfold col; by rewrite Hs|by rewrite Htab|exact E|].
    split; [done..|]. by rewrite <-Hd.
Qed.
End Reports.

(** The types that the module declares. *)
Definition module_tables (m : Module_) : Tables :=
  fold_left collect_methods (mo_declarations m) (fold_left collect_decl (mo_declarations m) (tables new_analyzer)).

Section Whole.
Context (states_order : gmap str (OwnershipState * gset str) -> list (str * (OwnershipState * gset str))).
Context (variants_order : gmap (str * str) (list TypeExpr) -> list ((str * str) * list TypeExpr)).
Context (states_perm : forall m, states_order m ≡ₚ map_to_list m).

End Whole.
