(* ===== verification/OwnExamples.v ===== *)
(** The ownership analysis on programs: what it reports, and programs on which it does not do
    what its comments or the language say. *)

From S2P Require Import Prelude Machine Utf8 Text Token Ast ParseDecl ParseTotal AstWalk OwnState OwnPaths OwnFrame Ownership OwnCopy OwnReal.
From S2P Require Import FrontEnd.

(** The module of a text, and the variables that are reported for it, with their state. *)
Definition module_of (s : string) : Module_ :=
  let ts := tokens_of s in
  match parse (stack_bound ts) ts with Done (inl m) => m | _ => mkModule [] [] dummy_span end.
Definition result_of (s : string) : list OwnDiag * list ArcInsertion :=
  match analyze_ownership map_to_list map_to_list (module_of s) with Done r => r | _ => ([], []) end.
Definition blamed (s : string) : list (str * OwnershipState) :=
  omap (fun d => (fun '(x, _, st) => (x, st)) <$> blame d) (result_of s).1.
(** The text is a program. *)
Definition parses (s : string) : bool := negb (Nat.eqb (length (mo_declarations (module_of s))) 0).

(* ------------------------------------------------------------------ *)
(** ** The theorems on a program                                       *)
(* ------------------------------------------------------------------ *)

Definition moved_in_branch : string :=
  "fn f(s: Box, c: bool) {
     if c {
       let t = move s
       print(s)
     } else { print(c) }
     print(s)
   }".

Lemma analysis_total_witness :
  exists a, analyze_module map_to_list map_to_list (module_of moved_in_branch) new_analyzer = Done a /\ wf a
    /\ length (scopes a) = 1%nat /\ Forall no_partial (od_diagnostics a).
Proof. apply (analysis_total map_to_list map_to_list (fun m => reflexivity _)). Defined.

Definition first_report : OwnDiag := hd (OD_ConditionalMove [] dummy_span) (result_of moved_in_branch).1.
Definition report_span (d : OwnDiag) : Span :=
  match d with OD_UseAfterMove _ sp _ | OD_UseUninitialized _ sp _ => sp | _ => dummy_span end.
Lemma all_orderly x (l : list (list Param * Block)) :
  forallb (fun pb => orderly x pb.2) l = true -> Forall (fun pb => orderly x pb.2 = true) l.
Proof. intros H. apply Forall_forall. intros pb Hpb. rewrite forallb_forall in H. by apply H, list_elem_of_In. Qed.
Lemma moved_in_branch_blamed : blamed moved_in_branch = [(bytes "s", OS_Moved)].
Proof. vm_compute. reflexivity. Qed.

(** Code that leaves from a guard, from a loop and at its end is within the theorem. *)
Definition guarded_move : string :=
  "fn f(s: Box, c: bool, n: i64) -> i64 {
     if c { return 0 }
     while c {
       if n > 3 { break } elif n > 2 { continue }
       print(s)
     }
     let t = move s
     if c { throw n } else { return g(s) }
   }".
Lemma guarded_move_orderly :
  forallb (fun pb => orderly (bytes "s") pb.2) (module_bodies (module_of guarded_move)) = true
  /\ blamed guarded_move = [(bytes "s", OS_Moved)].
Proof. split; vm_compute; reflexivity. Qed.

(** One variable, owned before and moved at the end of both branches, or of one of them. *)
Definition one_variable : Analyzer := with_scopes [{[ bytes "s" := owned_var false false dummy_span ]}] new_analyzer.
Definition both_branches : list (gmap str OwnershipState) := [{[ bytes "s" := OS_Moved ]}; {[ bytes "s" := OS_Moved ]}].
Definition one_branch : list (gmap str OwnershipState) := [{[ bytes "s" := OS_Moved ]}; {[ bytes "s" := OS_Owned ]}].
Lemma merge_branches_spec_witness :
  v_state <$> lookup_var (merge_branches map_to_list None true (snapshot_full one_variable) both_branches one_variable) (bytes "s")
    = Some OS_Moved
  /\ v_state <$> lookup_var (merge_branches map_to_list None true (snapshot_full one_variable) one_branch one_variable) (bytes "s")
    = Some OS_Owned.
Proof.
  rewrite !(merge_branches_spec map_to_list (fun m => reflexivity _)). split; vm_compute; reflexivity.
Defined.

(* ------------------------------------------------------------------ *)
(** ** Programs that the analysis misjudges                            *)
(* ------------------------------------------------------------------ *)

(** The variable of a [for] is never declared: a use of it counts as a use of a moved
    variable of the same name outside. *)
Lemma for_variable_blamed :
  blamed "fn f(s: Box, l: [i64]) {
            let t = move s
            for s in l { print(s) }
          }" = [(bytes "s", OS_Moved)].
Proof. vm_compute. reflexivity. Qed.

(** A loop that gives a variable away and returns: the use after the loop is reported,
    though no path that comes to it has moved the variable. *)
Definition moved_before_return : string :=
  "fn f(s: Box, c: bool) -> i64 {
     while c {
       let t = move s
       return 1
     }
     print(s)
     return 0
   }".
Fixpoint never_moved (x : str) (t : list ev) (c : column) : bool :=
  match t with
  | [] | Ev_exit :: _ => true
  | Ev_use y _ as e :: t =>
      negb (bool_decide (y = x) && bool_decide (visible c = Some OS_Moved)) && never_moved x t (ev_step x c e)
  | e :: t => never_moved x t (ev_step x c e)
  end.
Lemma never_moved_sound x t1 sp t2 c :
  never_moved x (t1 ++ Ev_use x sp :: t2) c = true -> Ev_exit ∉ t1 -> visible (run x t1 c) <> Some OS_Moved.
Proof.
  revert c. induction t1 as [|e t1 IH]; intros c; cbn [app never_moved].
  - intros H _ Hv. cbn in Hv. by rewrite !bool_decide_eq_true_2 in H.
  - intros H [He Hn]%not_elem_of_cons. change (run x (e :: t1) c) with (run x t1 (ev_step x c e)).
    apply IH; [|done]. destruct e; try done. by apply andb_true_iff in H as [_ H].
Qed.
Ltac split_paths :=
  repeat match goal with
  | H : seq _ _ _ |- _ => destruct H as (? & ? & -> & ? & ?)
  | H : just _ _ |- _ => red in H; subst
  | H : alt _ _ _ |- _ => destruct H
  | H : star _ _ |- _ => destruct H as [|? ? ? _]
  end.
Lemma exit_in_loop_blamed :
  blamed moved_before_return = [(bytes "s", OS_Moved)]
  /\ forall ps b t1 sp t2, (ps, b) ∈ module_bodies (module_of moved_before_return) ->
       function_paths ps b (t1 ++ Ev_use (bytes "s") sp :: t2) -> Ev_exit ∉ t1 ->
       visible (run (bytes "s") t1 [None]) <> Some OS_Moved.
Proof.
  split; [vm_compute; reflexivity|]. intros ps b t1 sp t2 Hin Hp. apply (never_moved_sound _ t1 sp t2).
  revert Hp. generalize (t1 ++ Ev_use (bytes "s") sp :: t2). intros t Hp.
  let v := eval vm_compute in (module_bodies (module_of moved_before_return)) in
  assert (Hv : module_bodies (module_of moved_before_return) = v) by (vm_compute; reflexivity).
  rewrite Hv in Hin. apply list_elem_of_singleton in Hin. injection Hin as -> ->. clear Hv.
  unfold function_paths, scoped in Hp. cbn in Hp. unfold scoped, leaving in Hp. split_paths; vm_compute; reflexivity.
Qed.

(** The branches of a [select] are exclusive, but a move in one is seen in the next. *)
Lemma select_branch_leaks :
  blamed "fn f(s: Box, c: i64, d: i64) {
            select {
              a c => { let t = move s }
              b d => { print(s) }
            }
          }" = [(bytes "s", OS_Moved)].
Proof. vm_compute. reflexivity. Qed.

(** The [timeout] branch of a [select] is not looked at. *)
Definition use_in_timeout : string :=
  "fn f(s: Box, c: i64) {
     let t = move s
     select {
       a c => { print(c) }
       timeout 10 => { print(s) }
     }
   }".
Lemma select_timeout_unchecked : parses use_in_timeout = true /\ blamed use_in_timeout = [].
Proof. split; vm_compute; reflexivity. Qed.

(** A variable that only one branch initializes: the report depends on the order of the
    branches. *)
Definition initialized_in_else : string :=
  "fn f(c: bool) {
     let x: Box
     if c { print(c) } else { x = g() }
     print(x)
   }".
Definition initialized_in_then : string :=
  "fn f(c: bool) {
     let x: Box
     if c { x = g() } else { print(c) }
     print(x)
   }".
Lemma uninitialized_by_order :
  parses initialized_in_else = true /\ blamed initialized_in_else = []
  /\ blamed initialized_in_then = [(bytes "x", OS_Uninitialized)].
Proof. split; [|split]; vm_compute; reflexivity. Qed.

(** A compound assignment reads its target, which is not checked. *)
Definition increment_uninitialized : string :=
  "fn f() {
     let x: i64
     x += 1
   }".
Lemma compound_assign_unchecked : parses increment_uninitialized = true /\ blamed increment_uninitialized = [].
Proof. split; vm_compute; reflexivity. Qed.

(** [move] of a field moves nothing. *)
Definition field_moved_twice : string :=
  "fn f(p: Pair) {
     let a = move p.left
     let b = move p.left
     print(p.left)
   }".
Lemma field_move_unchecked : parses field_moved_twice = true /\ (result_of field_moved_twice).1 = [].
Proof. split; vm_compute; reflexivity. Qed.

(** Whether a function returns a copy depends on where the struct is declared. *)
Definition copy_struct_last : string :=
  "fn g() -> P { return h() }
   @copy struct P { x: i64 }
   fn f() {
     let p = g()
     let q = move p
     print(p)
   }".
Definition copy_struct_first : string :=
  "@copy struct P { x: i64 }
   fn g() -> P { return h() }
   fn f() {
     let p = g()
     let q = move p
     print(p)
   }".
Lemma copy_struct_by_order :
  blamed copy_struct_last = [(bytes "p", OS_Moved)] /\ parses copy_struct_first = true /\ blamed copy_struct_first = [].
Proof. split; [|split]; vm_compute; reflexivity. Qed.
