(* ===== verification/ParseInt.v ===== *)
(** What integer literals mean ([parse_int_literal_checked] of
    [kryos-parser/src/parser.rs]): the value of their digits, in 64 bits. *)

From S2P Require Import Prelude Machine Utf8 Text Token Ast ParseCore.

(** The value of the digits of a numeral, without bounds. *)
Fixpoint base_value (radix acc : Z) (s : str) : option Z :=
  match s with
  | [] => Some acc
  | b :: s => d ← digit_val radix b; base_value radix (acc * radix + d) s
  end.

(** The prefixes of a literal. *)
Inductive int_prefix : Z -> str -> Prop :=
| pre_hex : int_prefix 16 (bytes "0x")
| pre_HEX : int_prefix 16 (bytes "0X")
| pre_bin : int_prefix 2 (bytes "0b")
| pre_BIN : int_prefix 2 (bytes "0B")
| pre_oct : int_prefix 8 (bytes "0o")
| pre_OCT : int_prefix 8 (bytes "0O")
| pre_dec : int_prefix 10 [].

Lemma digit_val_bounds radix b d : 0 < radix -> digit_val radix b = Some d -> 0 <= d < radix.
Proof.
  intros Hr. unfold digit_val. set (v := if in_range _ _ b then _ else _).
  destruct (Z.ltb_spec v radix) as [Hlt|]; [|done]. intros [= <-]. split; [|done]. unfold v.
  destruct (in_range (chr "0") (chr "9") b) eqn:H0; [apply in_range_spec in H0; lia|].
  destruct (in_range (chr "a") (chr "z") b) eqn:H1; [apply in_range_spec in H1; lia|].
  destruct (in_range (chr "A") (chr "Z") b) eqn:H2; [apply in_range_spec in H2; lia|]. lia.
Qed.

Lemma base_value_ge radix acc s v :
  2 <= radix -> 0 <= acc -> base_value radix acc s = Some v -> acc <= v.
Proof.
  intros Hr. revert acc. induction s as [|b s IH]; intros acc Hacc; cbn [base_value].
  - intros [= <-]. lia.
  - destruct (digit_val radix b) as [d|] eqn:Hd; [|done]. cbn.
    pose proof (digit_val_bounds radix b d ltac:(lia) Hd). intros Hv%IH; nia.
Qed.

(** A check of the range at each digit is a check of the value. *)
Lemma digits_val_spec (ok : Z -> bool) hi radix acc s v :
  (forall z, 0 <= z -> ok z = (z <? hi)) -> 2 <= radix -> 0 <= acc < hi ->
  base_value radix acc s = Some v ->
  digits_val ok radix 1 acc s = if v <? hi then Some v else None.
Proof.
  intros Hok Hr. revert acc. induction s as [|b s IH]; intros acc Hacc; cbn [base_value digits_val].
  - intros [= <-]. by rewrite (proj2 (Z.ltb_lt acc hi)) by lia.
  - destruct (digit_val radix b) as [d|] eqn:Hd; [|done]. cbn [mbind option_bind]. intros Hv.
    pose proof (digit_val_bounds radix b d ltac:(lia) Hd) as Hdb. rewrite Z.mul_1_l, Hok by nia.
    destruct (Z.ltb_spec (acc * radix + d) hi) as [Hlt|Hge].
    + apply IH; [nia|done].
    + pose proof (base_value_ge radix (acc * radix + d) s v Hr ltac:(nia) Hv). by rewrite (proj2 (Z.ltb_ge v hi)) by lia.
Qed.


Lemma sign_not_digit radix b : b = chr "+" \/ b = chr "-" -> digit_val radix b = None.
Proof. intros [-> | ->]; unfold digit_val; cbn; by rewrite Z.ltb_irrefl. Qed.

Lemma from_str_radix_spec radix s v :
  2 <= radix -> s <> [] -> base_value radix 0 s = Some v ->
  i64_from_str_radix s radix = (if v <? 2 ^ 63 then Some v else None)
  /\ u64_from_str_radix s radix = (if v <? 2 ^ 64 then Some v else None).
Proof.
  intros Hr Hne Hv. destruct s as [|b s]; [done|].
  assert (Hb : b <> chr "+" /\ b <> chr "-").
  { cbn [base_value] in Hv. split; intros Hb; rewrite sign_not_digit in Hv by auto; done. }
  unfold i64_from_str_radix, u64_from_str_radix.
  rewrite !(proj2 (Z.eqb_neq _ _)) by apply Hb. cbn [orb]. split.
  - apply digits_val_spec; [|done|lia|done]. intros z Hz. unfold in_i64, i64_min, i64_max.
    rewrite (proj2 (Z.leb_le _ _)) by lia. apply eq_true_iff_eq. cbn [andb].
    rewrite Z.leb_le, Z.ltb_lt. lia.
  - apply digits_val_spec; [|done|lia|done]. intros z Hz. unfold in_u64.
    by rewrite (proj2 (Z.leb_le _ _)) by lia.
Qed.

(** A decimal numeral has no prefix. *)
Lemma decimal_no_prefix (p : str) c s v :
  p = [chr "0"; c] -> digit_val 10 c = None -> base_value 10 0 s = Some v ->
  strip_prefix p s = None.
Proof.
  intros -> Hc. destruct s as [|b0 [|b1 s]]; cbn [strip_prefix]; [done|by destruct (_ =? _)|].
  cbn [base_value]. destruct (digit_val 10 b0); [|done]. cbn [mbind option_bind]. intros Hv.
  destruct (Z.eqb_spec c b1) as [<-|]; [by rewrite Hc in Hv|]. by destruct (_ =? _).
Qed.

Lemma int_literal_value text radix p s v :
  int_prefix radix p -> without_underscores text = p ++ s -> s <> [] ->
  base_value radix 0 s = Some v ->
  parse_int_literal_checked text = if v <? 2 ^ 64 then Some (wrap64 v) else None.
Proof.
  intros Hp Ht Hne Hv.
  assert (Hr : 2 <= radix) by (destruct Hp; lia).
  destruct (from_str_radix_spec radix s v Hr Hne Hv) as [Hi Hu].
  pose proof (base_value_ge radix 0 s v Hr ltac:(lia) Hv) as Hv0.
  unfold parse_int_literal_checked. rewrite Ht.
  assert (Hend : match s with [] => None | _ => match i64_from_str_radix s radix with
      | Some v => Some v | None => wrap64 <$> u64_from_str_radix s radix end end
    = if v <? 2 ^ 64 then Some (wrap64 v) else None).
  { destruct s; [done|]. rewrite Hi, Hu. destruct (Z.ltb_spec v (2 ^ 63)).
    - rewrite (proj2 (Z.ltb_lt v (2 ^ 64))), wrap64_id; [done| |lia].
      apply in_i64_spec. unfold i64_min, i64_max. lia.
    - by destruct (v <? 2 ^ 64). }
  destruct Hp; try exact Hend. cbn [app].
  rewrite !(fun c => decimal_no_prefix (bytes (String "0" (String c ""))) _ s v eq_refl) by done.
  cbn [or_else]. exact Hend.
Qed.

(** C28: a literal, its underscores removed, of a radix with its prefix and digits of that
    radix, is read as the value of its digits when that is below 2^63; from there to
    2^64 it is the negative number of the same bits; beyond, it is refused. *)
Theorem int_literal_spec text radix p s v :
  int_prefix radix p -> without_underscores text = p ++ s -> s <> [] ->
  base_value radix 0 s = Some v ->
  parse_int_literal_checked text = if v <? 2 ^ 64 then Some (wrap64 v) else None.
Proof. apply int_literal_value. Qed.

Lemma int_literal_spec_witness :
  parse_int_literal_checked (bytes "0xFFFF_FFFF_FFFF_FFFE") = Some (-2).
Proof.
  apply (int_literal_spec (bytes "0xFFFF_FFFF_FFFF_FFFE") 16 (bytes "0x") (bytes "FFFFFFFFFFFFFFFE")
    (2 ^ 64 - 2)); [constructor|vm_compute; reflexivity|discriminate|vm_compute; reflexivity].
Defined.
