(* ===== verification/ParseRun.v ===== *)
(** Running the parser on tokens that are known: what its methods do at a given token,
    the rounds of a loop one by one, and the chain of [parse_expr_bp]. *)

From S2P Require Import Prelude Machine Utf8 Text Token Ast ParseCore ParseType ParseExpr ParseStmt.

(* ------------------------------------------------------------------ *)
(** ** Running the parser on known tokens                              *)
(* ------------------------------------------------------------------ *)

Lemma step_Done {A B} (m : P A) (f : A -> P B) p a p' :
  m p = Done (a, p') -> (m ≫= f) p = f a p'.
Proof. intros H. unfold mbind, P_bind. by rewrite H. Qed.
Lemma map_Done {A B} (f : A -> B) (m : P A) p a p' :
  m p = Done (a, p') -> (f <$> m) p = Done (f a, p').
Proof. intros H. unfold fmap, P_fmap. by rewrite (step_Done _ _ _ _ _ H). Qed.

(** The rounds of a loop, one by one. *)
Inductive runs {S A} (body : S -> P (flow S A)) : S -> Parser -> A -> Parser -> Prop :=
| runs_break s p a p' : body s p = Done (Break a, p') -> runs body s p a p'
| runs_continue s p s' p' a p'' :
    body s p = Done (Continue s', p') -> tokens p' = tokens p ->
    (pos p < pos p' <= length (tokens p))%nat ->
    runs body s' p' a p'' -> runs body s p a p''.

Lemma runs_loop {S A} (body : S -> P (flow S A)) s p a p' :
  runs body s p a p' -> loop_ body s p = Done (a, p').
Proof.
  intros H. unfold loop_. assert (Hf : (length (tokens p) - pos p < Datatypes.S (length (tokens p)))%nat) by lia.
  generalize dependent (Datatypes.S (length (tokens p))). induction H as [s p a p' Hb|s p s' p' a p'' Hb Ht Hp Hr IH];
    intros [|fuel] Hf; try lia; cbn [loop]; rewrite (step_Done _ _ _ _ _ Hb); [done|].
  apply IH. rewrite Ht. lia.
Qed.

(** The second kind that tells [|>] from [|]. *)
Definition next_of (ts : list Token) : option TokenKind :=
  match ts with
  | t :: ts => if kind_eq (t_kind t) TK_Pipe
               then Some (match ts with t' :: _ => t_kind t' | [] => TK_Pipe end) else None
  | [] => None
  end.

(** What follows does not extend an expression at the level [m], nor turns a name into
    something else. *)
Definition stops (m : N) (ts : list Token) : Prop :=
  match ts with
  | t :: _ =>
      extends_chain (t_kind t) (next_of ts) m = false
      /\ t_kind t <> TK_LBrace /\ t_kind t <> TK_ColonColon /\ t_kind t <> TK_Bang
  | [] => False
  end.

Section Run.
Context (T : list Token) (D : list Diagnostic) (nsl : bool) (fc : N) (poison : bool).

Definition st (i : nat) (nd rd : N) : Parser := mkParser T i D nsl fc nd rd poison.

Lemma drop_lookup {A} (l : list A) i x r : drop i l = x :: r -> l !! i = Some x.
Proof. intros H. by rewrite <-(Nat.add_0_r i), <-lookup_drop, H. Qed.
Lemma drop_next {A} (l : list A) i x r : drop i l = x :: r -> drop (S i) l = r.
Proof. intros H. replace (S i) with (i + 1)%nat by lia. by rewrite <-drop_drop, H. Qed.
Lemma drop_app {A} (l : list A) i a r : drop i l = a ++ r -> drop (i + length a) l = r.
Proof. intros H. by rewrite <-drop_drop, H, drop_app_length. Qed.
Lemma drop_bound {A} (l : list A) i x r : drop i l = x :: r -> (i < length l)%nat.
Proof. intros H%drop_lookup. by apply lookup_lt_Some in H. Qed.

Lemma clamped_at f i nd rd t :
  T !! (f i `min` pred (length T))%nat = Some t -> clamped f (st i nd rd) = Done (t, st i nd rd).
Proof.
  intros Ht. unfold clamped. cbn [tokens st pos]. destruct (length T) as [|n] eqn:Hn.
  { apply lookup_lt_Some in Ht. lia. }
  unfold token_at, lift. cbn [tokens st]. cbn in Ht. by rewrite Ht.
Qed.

Section At.
Context {i : nat} {t : Token} {ts : list Token} (Hi : drop i T = t :: ts) {nd rd : N}.

Lemma peek_at : peek (st i nd rd) = Done (t, st i nd rd).
Proof.
  apply clamped_at. pose proof (drop_bound _ _ _ _ Hi).
  replace (id i `min` pred (length T))%nat with i by (unfold id; lia). by eapply drop_lookup.
Qed.
Lemma peek_kind_at : peek_kind (st i nd rd) = Done (t_kind t, st i nd rd).
Proof. apply map_Done, peek_at. Qed.
Lemma check_at k : check k (st i nd rd) = Done (kind_eq (t_kind t) k, st i nd rd).
Proof. apply (map_Done (fun k' => kind_eq k' k)), peek_kind_at. Qed.
Lemma at_end_at : at_end (st i nd rd) = Done (kind_eq (t_kind t) TK_Eof, st i nd rd).
Proof. apply check_at. Qed.
Lemma peek_span_at : peek_span (st i nd rd) = Done (t_span t, st i nd rd).
Proof. apply map_Done, peek_at. Qed.
Lemma advance_at : t_kind t <> TK_Eof -> advance (st i nd rd) = Done (t, st (S i) nd rd).
Proof.
  intros Hk. unfold advance. rewrite (step_Done _ _ _ _ _ peek_at), (step_Done _ _ _ _ _ at_end_at).
  unfold kind_eq. by rewrite bool_decide_eq_false_2.
Qed.
Lemma eat_at k : t_kind t = k -> k <> TK_Eof -> eat k (st i nd rd) = Done (true, st (S i) nd rd).
Proof.
  intros Hk He. unfold eat. rewrite (step_Done _ _ _ _ _ (check_at k)). unfold kind_eq.
  rewrite bool_decide_eq_true_2 by done. rewrite (step_Done _ _ _ _ _ (advance_at ltac:(congruence))). done.
Qed.
Lemma eat_not k : t_kind t <> k -> eat k (st i nd rd) = Done (false, st i nd rd).
Proof.
  intros Hk. unfold eat. rewrite (step_Done _ _ _ _ _ (check_at k)). unfold kind_eq.
  by rewrite bool_decide_eq_false_2.
Qed.
Lemma expect_at k : t_kind t = k -> k <> TK_Eof -> expect k (st i nd rd) = Done (t, st (S i) nd rd).
Proof.
  intros Hk He. unfold expect. rewrite (step_Done _ _ _ _ _ (check_at k)). unfold kind_eq.
  rewrite bool_decide_eq_true_2 by done. apply advance_at. congruence.
Qed.
Lemma name_at : is_name_kind (t_kind t) = true ->
  expect_name (st i nd rd) = Done ((t_text t, t_span t), st (S i) nd rd).
Proof.
  intros Hk. unfold expect_name, expect_ident_code. rewrite (step_Done _ _ _ _ _ peek_at), Hk.
  rewrite (step_Done _ _ _ _ _ (advance_at ltac:(intros He; by rewrite He in Hk))). done.
Qed.
Lemma peek_next t' ts' : ts = t' :: ts' -> peek_nth 1 (st i nd rd) = Done (t_kind t', st i nd rd).
Proof.
  intros ->. apply map_Done, clamped_at. pose proof (drop_next _ _ _ _ Hi) as Hn.
  pose proof (drop_bound _ _ _ _ Hn).
  replace ((i + 1) `min` pred (length T))%nat with (S i) by lia. by eapply drop_lookup.
Qed.
Lemma peek_next_Done : exists k, peek_nth 1 (st i nd rd) = Done (k, st i nd rd).
Proof.
  pose proof (drop_bound _ _ _ _ Hi).
  destruct (lookup_lt_is_Some_2 T ((i + 1) `min` pred (length T))%nat ltac:(lia)) as [t' Ht'].
  exists (t_kind t'). by apply map_Done, clamped_at.
Qed.
Lemma prev_span_Done : exists s, prev_span (st i nd rd) = Done (s, st i nd rd).
Proof.
  pose proof (drop_bound _ _ _ _ Hi).
  destruct (lookup_lt_is_Some_2 T (pred i `min` pred (length T))%nat ltac:(lia)) as [t' Ht'].
  exists (t_span t'). by apply map_Done, clamped_at.
Qed.
End At.

(* ------------------------------------------------------------------ *)
(** ** One operator                                                    *)
(* ------------------------------------------------------------------ *)

Lemma next_kind_at i t ts nd rd :
  drop i T = t :: ts ->
  (if kind_eq (t_kind t) TK_Pipe then Some <$> peek_nth 1 else mret None) (st i nd rd)
  = Done (next_of (t :: ts), st i nd rd).
Proof.
  intros Hi. cbn [next_of]. destruct (kind_eq (t_kind t) TK_Pipe) eqn:Hk; [|done].
  destruct ts as [|t' ts]; [|by apply (map_Done Some); eapply peek_next].
  apply (map_Done Some). assert (t_kind t = TK_Pipe) as <- by (by apply bool_decide_eq_true in Hk).
  apply (map_Done t_kind), clamped_at. pose proof (drop_bound _ _ _ _ Hi).
  assert (length T = S i) as Hlen.
  { apply (f_equal length) in Hi. rewrite length_drop in Hi. cbn in Hi. lia. }
  replace ((i + 1) `min` pred (length T))%nat with i by lia. by eapply drop_lookup.
Qed.

Context (E : Entries).

(** A round of the chain, where an operator applies. *)
Lemma chain_step_at m c sp i t ts nd rd c' i' :
  drop i T = t :: ts -> t_kind t <> TK_Eof ->
  extends_chain (t_kind t) (next_of (t :: ts)) m = true -> (nd + 1 < MAX_NESTING_DEPTH)%N ->
  chain_apply E (t_kind t) (next_of (t :: ts)) m c (st i (nd + 1) rd) = Done (Continue c', st i' (nd + 1) rd) ->
  chain_step E m (c, sp) (st i nd rd) = Done (Continue (c', (sp + 1)%N), st i' (nd + 1) rd).
Proof.
  intros Hi He Hext Hnd Happ. unfold chain_step.
  rewrite (step_Done _ _ _ _ _ (at_end_at Hi)). unfold kind_eq at 1. rewrite bool_decide_eq_false_2 by done.
  rewrite (step_Done _ _ _ _ _ (peek_kind_at Hi)), (step_Done _ _ _ _ _ (next_kind_at i t ts nd rd Hi)), Hext.
  cbn [negb]. cbv zeta. rewrite (step_Done charge_nest _ (st i nd rd) tt (st i (nd + 1) rd)) by done.
  rewrite (step_Done (gets nest_depth) _ (st i (nd + 1) rd) (nd + 1)%N (st i (nd + 1) rd)) by done.
  rewrite (proj2 (N.leb_gt _ _)) by done. by rewrite (step_Done _ _ _ _ _ Happ).
Qed.

(** A round of the chain, where none does. *)
Lemma chain_step_stop m c sp i ts nd rd :
  drop i T = ts -> stops m ts ->
  chain_step E m (c, sp) (st i nd rd) = Done (Break (c, sp), st i nd rd).
Proof.
  intros Hi Hs. destruct ts as [|t ts]; [done|]. destruct Hs as (Hext & _). unfold chain_step.
  rewrite (step_Done _ _ _ _ _ (at_end_at Hi)). destruct (kind_eq _ _); [done|].
  rewrite (step_Done _ _ _ _ _ (peek_kind_at Hi)), (step_Done _ _ _ _ _ (next_kind_at i t ts nd rd Hi)).
  by rewrite Hext.
Qed.

Lemma reject_macro_stop e i m ts nd rd :
  drop i T = ts -> stops m ts -> reject_macro e (st i nd rd) = Done (tt, st i nd rd).
Proof.
  intros Hi Hs. destruct ts as [|t ts]; [done|]. destruct Hs as (_ & _ & _ & Hb).
  unfold reject_macro. destruct e; try done.
  rewrite (step_Done _ _ _ _ _ (peek_kind_at Hi)).
  destruct (peek_next_Done Hi (nd := nd) (rd := rd)) as [k Hk]. rewrite (step_Done _ _ _ _ _ Hk).
  unfold kind_eq at 1. by rewrite bool_decide_eq_false_2.
Qed.

(** What a chain gives, once its end is known. *)
Definition from_prefix (m : N) (i : nat) (nd rd : N) (c : Chain) (sp : N) (i' : nat) : Prop :=
  forall r p', runs (chain_step E m) (c, sp) (st i' (nd + sp) rd) r p' ->
    exists e0 i0, parse_prefix E (st i nd rd) = Done (e0, st i0 nd rd)
      /\ reject_macro e0 (st i0 nd rd) = Done (tt, st i0 nd rd)
      /\ runs (chain_step E m) (new_chain e0, 0%N) (st i0 nd rd) r p'.

Lemma from_prefix_start m i nd rd e i' :
  parse_prefix E (st i nd rd) = Done (e, st i' nd rd) ->
  reject_macro e (st i' nd rd) = Done (tt, st i' nd rd) ->
  from_prefix m i nd rd (new_chain e) 0 i'.
Proof. intros Hp Hr r p'. rewrite N.add_0_r. intros Hruns. by exists e, i'. Qed.

Lemma from_prefix_step m i nd rd c sp i1 c' i2 :
  from_prefix m i nd rd c sp i1 ->
  chain_step E m (c, sp) (st i1 (nd + sp) rd) = Done (Continue (c', (sp + 1)%N), st i2 (nd + sp + 1) rd) ->
  (i1 < i2 <= length T)%nat ->
  from_prefix m i nd rd c' (sp + 1) i2.
Proof.
  intros Hf Hstep Hi r p' Hruns. apply Hf. eapply runs_continue; [exact Hstep|done|done|].
  by rewrite N.add_assoc in Hruns.
Qed.

(** The whole of [parse_expr_bp_inner]. *)
Lemma from_prefix_inner m i nd rd c sp i' ts :
  from_prefix m i nd rd c sp i' -> drop i' T = ts -> stops m ts ->
  parse_expr_bp_inner E m (st i nd rd) = Done (lhs c, st i' nd rd).
Proof.
  intros Hf Hi Hs. destruct (Hf (c, sp) (st i' (nd + sp) rd)) as (e0 & i0 & Hp & Hr & Hruns).
  { by apply runs_break, (chain_step_stop m c sp i' ts). }
  unfold parse_expr_bp_inner. rewrite (step_Done _ _ _ _ _ Hp), (step_Done _ _ _ _ _ Hr).
  rewrite (step_Done _ _ _ _ _ (runs_loop _ _ _ _ _ Hruns)).
  assert (Hrel : release_nest sp (st i' (nd + sp) rd) = Done (tt, st i' nd rd)).
  { unfold release_nest. cbn [nest_depth st]. rewrite (proj2 (N.leb_le _ _)) by lia.
    unfold with_depths. cbn. by rewrite N.add_sub. }
  by rewrite (step_Done _ _ _ _ _ Hrel).
Qed.

(** The guard passes within the limits. *)
Lemma guarded_at {A} (f : Span -> A) (m : P A) i nd rd a i' :
  (nd < MAX_NESTING_DEPTH)%N -> (rd < MAX_RECURSION_DEPTH)%N ->
  m (st i (nd + 1) (rd + 1)) = Done (a, st i' (nd + 1) (rd + 1)) ->
  guarded f m (st i nd rd) = Done (a, st i' nd rd).
Proof.
  intros Hnd Hrd Hm. unfold guarded.
  rewrite (step_Done (gets nesting_exhausted) _ (st i nd rd) false (st i nd rd)); cycle 1.
  { unfold gets, nesting_exhausted. cbn [nest_depth rec_depth st].
    by rewrite !(proj2 (N.leb_gt _ _)) by done. }
  unfold nested. rewrite (step_Done charge_nest _ (st i nd rd) tt (st i (nd + 1) rd)) by done.
  rewrite (step_Done charge_rec _ (st i (nd + 1) rd) tt (st i (nd + 1) (rd + 1))) by done.
  rewrite (step_Done _ _ _ _ _ Hm).
  assert (Hr : release_rec (st i' (nd + 1) (rd + 1)) = Done (tt, st i' (nd + 1) rd)).
  { unfold release_rec. cbn [rec_depth st]. rewrite (proj2 (N.leb_le _ _)) by lia.
    unfold with_depths. cbn. by rewrite N.add_sub. }
  assert (Hn : release_nest 1 (st i' (nd + 1) rd) = Done (tt, st i' nd rd)).
  { unfold release_nest. cbn [nest_depth st]. rewrite (proj2 (N.leb_le _ _)) by lia.
    unfold with_depths. cbn. by rewrite N.add_sub. }
  by rewrite (step_Done _ _ _ _ _ Hr), (step_Done _ _ _ _ _ Hn).
Qed.
End Run.
