(* ===== verification/ExprPrint.v ===== *)
(** Expressions as tokens: an expression printed with the parentheses that the binding
    powers of [kryos-parser/src/parser.rs] ask for.

    The printed fragment: literals, names, all unary and binary operators, pipes and
    ranges, fields, indices, calls, arrays and tuples.  Spans are dummies and no token
    opens a line, so that no warning is due. *)

From S2P Require Import Prelude Machine Utf8 Text Token Ast ParseCore ParseType ParseExpr ParseStmt ParseRun.

(* ------------------------------------------------------------------ *)
(** ** Printing                                                        *)
(* ------------------------------------------------------------------ *)

Definition tk (k : TokenKind) (text : str) : Token := mkToken k dummy_span text false.
Definition sym (k : TokenKind) : Token := tk k [].

(** The separator between the elements of a list. *)
Fixpoint separated (l : list (list Token)) : list Token :=
  match l with
  | [] => []
  | [x] => x
  | x :: l => x ++ sym TK_Comma :: separated l
  end.

Section Print.
(** Whether [not], [and] and [or] are written as words. *)
Context (words : bool).

(** The token of an operator; the two operators without one are not printed. *)
Definition op_kind (op : BinOp) : TokenKind :=
  match op with
  | B_Add => TK_Plus | B_Sub => TK_Minus | B_Mul => TK_Star | B_Div => TK_Slash
  | B_Mod => TK_Percent | B_Pow => TK_Power | B_Eq => TK_EqEq | B_Neq => TK_BangEq
  | B_Lt => TK_Lt | B_Gt => TK_Gt | B_LtEq => TK_LtEq | B_GtEq => TK_GtEq
  | B_And => if words then TK_And else TK_AmpAmp
  | B_Or => if words then TK_Or else TK_PipePipe
  | B_BitAnd => TK_Amp | B_BitOr => TK_Pipe | B_BitXor => TK_Caret | B_Shl => TK_Shl
  | B_Shr => TK_Shr | B_Pipe | B_MatMul => TK_Error
  end.
Definition un_kind (op : UnOp) : TokenKind :=
  match op with U_Neg => TK_Minus | U_Not => if words then TK_Not else TK_Bang | U_BitNot => TK_Tilde end.

(** The binding powers of an operator, and of a unary operator. *)
Definition op_bp (op : BinOp) : N * N := default (0, 0)%N (infix_binding_power (op_kind op) None).
Definition un_bp (op : UnOp) : N := default 0%N (prefix_binding_power (un_kind op)).

(** The level of a left operand: that of the operator, and above it for the one that
    associates to the right. *)
Definition left_ctx (op : BinOp) : N := match op with B_Pow => 24 | _ => (op_bp op).1 end%N.

(** The level at which an expression needs no parentheses. *)
Definition lvl (e : Expr) : N :=
  match e with
  | E_BinaryOp op _ _ _ => (op_bp op).1
  | E_PipeExpr _ _ _ => 2
  | E_RangeExpr _ _ _ _ => 1
  | E_UnaryOp op _ _ => un_bp op
  | E_Borrow _ _ _ | E_Deref _ _ => 24
  | E_SharedExpr _ _ | E_MoveExpr _ _ | E_WeakExpr _ _ | E_Await _ _ => 3
  | _ => 28
  end%N.

(** The level of its last operand, if it is open to the right. *)
Definition rmin (e : Expr) : N :=
  match e with
  | E_BinaryOp op _ _ _ => (op_bp op).2
  | E_PipeExpr _ _ _ => 3
  | E_RangeExpr _ _ _ _ => 2
  | E_UnaryOp op _ _ => un_bp op
  | E_Borrow _ _ _ | E_Deref _ _ => 24
  | E_SharedExpr _ _ | E_MoveExpr _ _ | E_WeakExpr _ _ | E_Await _ _ => 3
  | _ => 100
  end%N.

Definition parens (ts : list Token) : list Token := sym TK_LParen :: ts ++ [sym TK_RParen].

(** At the level [ctx]. *)
Definition wrap (ctx : N) (e : Expr) (ts : list Token) : list Token :=
  if (lvl e <? ctx)%N then parens ts else ts.

Definition is_field (e : Expr) : bool :=
  match e with E_FieldAccess _ _ _ => true | _ => false end.

(** A field that is a number is the index of a tuple. *)
Definition field_token (f : str) : Token :=
  tk (if bool_decide (f <> []) && forallb is_digit f then TK_Integer else TK_Ident) f.

Fixpoint raw (e : Expr) : list Token :=
  let pr ctx e := wrap ctx e (raw e) in
  let args es := sym TK_LParen :: separated (map raw es) ++ [sym TK_RParen] in
  match e with
  | E_IntLiteral v _ => [tk TK_Integer (print_u64 (v mod 2 ^ 64))]
  | E_StringLiteral s _ => [tk TK_String s]
  | E_CharLiteral c _ => [tk TK_Char (encode_utf8 c)]
  | E_BoolLiteral b _ => [sym (if b then TK_True else TK_False)]
  | E_NoneLiteral _ => [sym TK_None]
  | E_Identifier name _ => [tk TK_Ident name]
  | E_BinaryOp op a b _ => pr (left_ctx op) a ++ sym (op_kind op) :: pr (op_bp op).2 b
  | E_PipeExpr a b _ => pr 2%N a ++ sym TK_Pipe :: sym TK_Gt :: pr 3%N b
  | E_RangeExpr (Some a) (Some b) incl _ =>
      pr 1%N a ++ sym (if incl : bool then TK_DotDotEq else TK_DotDot) :: pr 2%N b
  | E_UnaryOp op a _ => sym (un_kind op) :: pr (un_bp op) a
  | E_Borrow a mutable _ => sym TK_Amp :: (if mutable : bool then [sym TK_Mut] else []) ++ pr 24%N a
  | E_Deref a _ => sym TK_Star :: pr 24%N a
  | E_SharedExpr a _ => sym TK_Shared :: pr 3%N a
  | E_MoveExpr a _ => sym TK_Move :: pr 3%N a
  | E_WeakExpr a _ => sym TK_Weak :: pr 3%N a
  | E_Await a _ => sym TK_Await :: pr 3%N a
  | E_FieldAccess a f _ => pr 28%N a ++ [sym TK_Dot; field_token f]
  | E_IndexAccess a i _ => pr 28%N a ++ sym TK_LBracket :: raw i ++ [sym TK_RBracket]
  | E_MethodCall a m es _ => pr 28%N a ++ sym TK_Dot :: tk TK_Ident m :: args es
  | E_FnCall a es _ => (if is_field a then parens (raw a) else pr 28%N a) ++ args es
  | E_StaticMethodCall ty m es _ => tk TK_Ident ty :: sym TK_ColonColon :: tk TK_Ident m :: args es
  | E_ArrayLiteral es _ => sym TK_LBracket :: separated (map raw es) ++ [sym TK_RBracket]
  | E_TupleLiteral [a] _ => sym TK_LParen :: raw a ++ [sym TK_Comma; sym TK_RParen]
  | E_TupleLiteral es _ => args es
  | _ => []
  end.
Definition pr (ctx : N) (e : Expr) : list Token := wrap ctx e (raw e).

(* ------------------------------------------------------------------ *)
(** ** The fragment                                                    *)
(* ------------------------------------------------------------------ *)

Definition is_dummy (s : Span) : bool :=
  (sp_file_id s =? 0) && (sp_start s =? 0) && (sp_end s =? 0).

Fixpoint printable (e : Expr) : bool :=
  is_dummy (expr_span e) &&
  match e with
  | E_IntLiteral v _ => in_i64 v
  | E_CharLiteral c _ => is_scalar c
  | E_StringLiteral _ _ | E_BoolLiteral _ _ | E_NoneLiteral _ | E_Identifier _ _ => true
  | E_BinaryOp op a b _ => negb (kind_eq (op_kind op) TK_Error) && printable a && printable b
  | E_PipeExpr a b _ | E_IndexAccess a b _ | E_RangeExpr (Some a) (Some b) _ _ => printable a && printable b
  | E_UnaryOp _ a _ | E_Borrow a _ _ | E_Deref a _ | E_SharedExpr a _ | E_MoveExpr a _
  | E_WeakExpr a _ | E_Await a _ | E_FieldAccess a _ _ => printable a
  | E_MethodCall a _ es _ | E_FnCall a es _ => printable a && forallb printable es
  | E_StaticMethodCall _ _ es _ | E_ArrayLiteral es _ | E_TupleLiteral es _ => forallb printable es
  | _ => false
  end.

(** Its nodes, and the height of the tree. *)
Fixpoint nodes (e : Expr) : nat :=
  S match e with
    | E_BinaryOp _ a b _ | E_PipeExpr a b _ | E_IndexAccess a b _
    | E_RangeExpr (Some a) (Some b) _ _ => nodes a + nodes b
    | E_UnaryOp _ a _ | E_Borrow a _ _ | E_Deref a _ | E_SharedExpr a _ | E_MoveExpr a _
    | E_WeakExpr a _ | E_Await a _ | E_FieldAccess a _ _ => nodes a
    | E_MethodCall a _ es _ | E_FnCall a es _ => nodes a + sum_list_with nodes es
    | E_StaticMethodCall _ _ es _ | E_ArrayLiteral es _ | E_TupleLiteral es _ => sum_list_with nodes es
    | _ => 0
    end.
Fixpoint height (e : Expr) : nat :=
  S match e with
    | E_BinaryOp _ a b _ | E_PipeExpr a b _ | E_IndexAccess a b _
    | E_RangeExpr (Some a) (Some b) _ _ => height a `max` height b
    | E_UnaryOp _ a _ | E_Borrow a _ _ | E_Deref a _ | E_SharedExpr a _ | E_MoveExpr a _
    | E_WeakExpr a _ | E_Await a _ | E_FieldAccess a _ _ => height a
    | E_MethodCall a _ es _ | E_FnCall a es _ => height a `max` max_list_with height es
    | E_StaticMethodCall _ _ es _ | E_ArrayLiteral es _ | E_TupleLiteral es _ => max_list_with height es
    | _ => 0
    end.
End Print.

(* ------------------------------------------------------------------ *)
(** ** Facts of the tables                                             *)
(* ------------------------------------------------------------------ *)

(** The kinds a printed expression starts with. *)
Definition starts (k : TokenKind) : bool :=
  match k with
  | TK_Integer | TK_String | TK_Char | TK_True | TK_False | TK_None | TK_Ident | TK_Minus
  | TK_Bang | TK_Not | TK_Tilde | TK_Star | TK_Amp | TK_Shared | TK_Move | TK_Weak | TK_Await
  | TK_LParen | TK_LBracket => true
  | _ => false
  end.

(** An operator that has a token. *)
Definition has_kind (words : bool) (op : BinOp) : Prop := op_kind words op <> TK_Error.

(** The kinds that [chain_apply] leaves to the table of binding powers. *)
Definition is_infix (k : TokenKind) : bool :=
  match k with
  | TK_Dot | TK_LBracket | TK_LParen | TK_Question | TK_DotDot | TK_DotDotEq => false
  | _ => true
  end.
Lemma chain_apply_infix E k next m c :
  is_infix k = true -> chain_apply E k next m c = chain_infix E k next m c.
Proof. unfold chain_apply. generalize (chain_infix E k next m c). by destruct k. Qed.

Lemma op_kinds words op :
  has_kind words op ->
  token_to_binop (op_kind words op) = Some op /\ op_kind words op <> TK_As
  /\ op_kind words op <> TK_Eof /\ is_infix (op_kind words op) = true.
Proof. intros Hop. unfold has_kind in Hop. destruct op, words; cbn in *; done. Qed.
Lemma op_infix words op next :
  has_kind words op -> next <> Some TK_Gt ->
  infix_binding_power (op_kind words op) next = Some (op_bp words op).
Proof.
  intros Hop Hn. unfold has_kind in Hop.
  assert (bool_decide (next = Some TK_Gt) = false) as Hg by (by apply bool_decide_eq_false).
  destruct op, words; cbn in *; rewrite ?Hg; done.
Qed.

Lemma extends_op words op next m :
  has_kind words op -> next <> Some TK_Gt ->
  extends_chain (op_kind words op) next m = (m <=? (op_bp words op).1)%N.
Proof.
  intros Hop Hn. unfold has_kind in Hop.
  assert (bool_decide (next = Some TK_Gt) = false) as Hg by (by apply bool_decide_eq_false).
  destruct op, words; cbn in Hop |- *; rewrite ?Hg; done.
Qed.

Lemma extends_mono k nx m m' :
  extends_chain k nx m = false -> (m <= m')%N -> extends_chain k nx m' = false.
Proof.
  assert (Hle : forall a, (m <=? a)%N = false -> (m <= m')%N -> (m' <=? a)%N = false).
  { intros a Ha Hm. apply N.leb_gt in Ha. apply N.leb_gt. lia. }
  unfold extends_chain. destruct k; auto;
    match goal with |- context [infix_binding_power ?k nx] =>
      destruct (infix_binding_power k nx) as [[? ?]|]; auto end.
Qed.
Lemma stops_mono m m' ts : stops m ts -> (m <= m')%N -> stops m' ts.
Proof.
  destruct ts as [|t ts]; [done|]. intros (He & Hs) Hle. split; [by eapply extends_mono|done].
Qed.

(** Above every binding power nothing applies. *)
Lemma extends_top k nx : extends_chain k nx 100 = false.
Proof. destruct k; try done. cbn. by destruct (bool_decide _). Qed.

(** The levels at which operands are printed. *)
Definition ctx_ok (m : N) : Prop := (m <= 28 /\ m <> 23)%N.

Lemma op_bp_levels words op :
  (op_bp words op).1 = 23%N /\ (op_bp words op).2 = 22%N
  \/ (op_bp words op).2 = ((op_bp words op).1 + 1)%N /\ ((op_bp words op).1 <= 20)%N
  \/ (op_bp words op) = (0, 0)%N.
Proof.
  destruct op, words;
    first [left; split; reflexivity|right; left; split; [reflexivity|by vm_compute]|by right; right].
Qed.

Lemma rmin_ge words e m : (m <= lvl words e)%N -> ctx_ok m -> (m <= rmin words e)%N.
Proof.
  intros Hm [Hle Hne]. destruct e; cbn [lvl rmin] in *; try lia.
  destruct (op_bp_levels words op) as [[H1 H2]|[[H1 H2]|H]]; [lia|lia|]. by rewrite H in *.
Qed.

Lemma left_ctx_ok words op : ctx_ok (left_ctx words op) /\ ctx_ok (op_bp words op).2
  /\ ((op_bp words op).1 <= left_ctx words op)%N.
Proof. destruct op, words; vm_compute; repeat split; congruence. Qed.
Lemma un_bp_ok words op : ctx_ok (un_bp words op).
Proof. destruct op, words; vm_compute; split; congruence. Qed.

Lemma op_left words op :
  has_kind words op ->
  (left_ctx words op = (op_bp words op).1 /\ 4 <= (op_bp words op).1 <= 20 /\ (op_bp words op).1 <> 7
  \/ left_ctx words op = 24 /\ (op_bp words op).1 = 23)%N.
Proof.
  intros Hop. destruct op, words; try (by destruct Hop);
    first [by right|left; split; [reflexivity|]; split; by vm_compute].
Qed.
Lemma un_bp_vals words op : (un_bp words op = 24 \/ un_bp words op = 7)%N.
Proof. destruct op, words; vm_compute; auto. Qed.

(** A left operand is closed to the operator that follows it. *)
Lemma left_stops words op e :
  has_kind words op -> (left_ctx words op <= lvl words e)%N -> ((op_bp words op).1 < rmin words e)%N.
Proof.
  intros Hop Hl. pose proof (op_left words op Hop) as Hop'.
  destruct e; cbn [lvl rmin] in *; try lia.
  - destruct (op_bp_levels words op0) as [[H1 H2]|[[H1 H2]|H]]; [lia|lia|]. rewrite H in *. cbn in *. lia.
  - destruct (un_bp_vals words op0) as [Hu|Hu]; rewrite Hu in *; lia.
Qed.

(** Printed expressions start with a kind of [starts]. *)
Lemma starts_raw words n e :
  (nodes e < n)%nat -> printable words e = true ->
  exists t ts, raw words e = t :: ts /\ starts (t_kind t) = true.
Proof.
  revert e. induction n as [|n IH]; intros e Hn Hp; [lia|].
  assert (Hpr : forall ctx a r, (nodes a < nodes e)%nat -> printable words a = true ->
    exists t ts, wrap words ctx a (raw words a) ++ r = t :: ts /\ starts (t_kind t) = true).
  { intros ctx a r Ha Hpa. unfold wrap. destruct (_ <? _)%N; [by eexists _, _|].
    destruct (IH a ltac:(lia) Hpa) as (t & ts & -> & Hs). by eexists _, _. }
  destruct e; cbn [printable expr_span raw nodes] in *; rewrite ?andb_true_iff in *;
    try done; try (by destruct Hp); try (by eexists _, _); try (apply Hpr; [lia|tauto]).
  all: try (eexists _, _; split; [reflexivity|]; first [by destruct op, words|by destruct value]).
  - destruct (is_field e); [by eexists _, _|]. apply Hpr; [lia|tauto].
  - destruct elements as [|a [|b es]]; by eexists _, _.
  - destruct start as [a|]; [|by destruct Hp]. destruct end_ as [b|]; [|by destruct Hp].
    rewrite ?andb_true_iff in Hp. apply Hpr; [lia|tauto].
Qed.

