(* ===== verification/ParsePratt.v ===== *)
(** Operator precedence ([parse_expr_bp] of [kryos-parser/src/parser.rs]): a printed
    expression is parsed back. *)

From S2P Require Import Prelude Machine Utf8 Text Token Ast ParseCore ParseType ParseExpr ParseStmt ParseInt ParseRun ExprPrint.

(* ------------------------------------------------------------------ *)
(** ** From the printed form to the whole expression                   *)
(* ------------------------------------------------------------------ *)

Lemma nodes_pos e : (1 <= nodes e)%nat.
Proof. destruct e; cbn; lia. Qed.
Lemma height_pos e : (1 <= height e)%nat.
Proof. destruct e; cbn; lia. Qed.
Lemma dummy_eq s : is_dummy s = true -> s = dummy_span.
Proof. destruct s as [a b c]. unfold is_dummy. cbn. rewrite !andb_true_iff, !Z.eqb_eq. by intros [[-> ->] ->]. Qed.
Lemma printable_span words e : printable words e = true -> expr_span e = dummy_span.
Proof. intros Hp. apply dummy_eq. destruct e; cbn [printable] in Hp; by apply andb_true_iff in Hp as [Hp _]. Qed.

Section Parse.
Context (words : bool) (T : list Token) (D : list Diagnostic) (nsl : bool) (fc : N) (poison : bool).
Abbreviation st := (st T D nsl fc poison).
Abbreviation from_prefix := (from_prefix T D nsl fc poison).
Abbreviation raw := (raw words).
Abbreviation pr := (pr words).

(** The levels, and the units of both depths, that an expression needs. *)
Definition room (k n : nat) (nd rd : N) (e : Expr) : Prop :=
  (2 * height e <= n + k /\ N.to_nat rd + 2 * height e <= 255 + k
   /\ N.to_nat nd + 2 * nodes e <= 2047 + k)%nat.

Definition not_call (ts : list Token) : Prop :=
  match ts with t :: _ => t_kind t <> TK_LParen | [] => True end.
Definition follow (e : Expr) (rest : list Token) : Prop :=
  stops (rmin words e) rest /\ (is_field e = true -> not_call rest).

(** In a chain, without its own parentheses. *)
Definition raw_ok (e : Expr) : Prop := forall m n i nd rd rest,
  (m <= lvl words e)%N -> drop i T = raw e ++ rest -> follow e rest -> room 2 n nd rd e ->
  exists c sp, lhs c = e /\ (N.to_nat sp < nodes e)%nat
    /\ from_prefix (levels n) m i nd rd c sp (i + length (raw e))%nat.
(** As an operand. *)
Definition full_ok (e : Expr) : Prop := forall m n i nd rd rest,
  ctx_ok m -> drop i T = pr m e ++ rest -> stops m rest -> room 0 n nd rd e ->
  parse_expr_bp (levels n) m (st i nd rd) = Done (e, st (i + length (pr m e))%nat nd rd).
(** At the head of a chain. *)
Definition head_ok (e : Expr) : Prop := forall ctx m n i nd rd rest,
  (m <= ctx)%N -> ctx_ok ctx -> drop i T = pr ctx e ++ rest ->
  ((ctx <= lvl words e)%N -> follow e rest) -> room 1 n nd rd e ->
  exists c sp, lhs c = e /\ (N.to_nat sp < nodes e)%nat
    /\ from_prefix (levels n) m i nd rd c sp (i + length (pr ctx e))%nat.

Lemma stops_call m rest : (m <= 28)%N -> stops m rest -> not_call rest.
Proof.
  intros Hm Hs. destruct rest as [|t rest]; [done|]. destruct Hs as (He & _). intros Hk.
  rewrite Hk in He. cbn in He. apply N.leb_gt in He. unfold POSTFIX_BP in He. lia.
Qed.

Lemma follow_stops e m rest : ctx_ok m -> (m <= lvl words e)%N -> stops m rest -> follow e rest.
Proof.
  intros Hc Hm Hs. split; [eapply stops_mono; [done|by apply rmin_ge]|].
  intros _. by eapply stops_call; [apply Hc|].
Qed.

Lemma lvl_le e : (lvl words e <= 28)%N.
Proof.
  destruct e; cbn [lvl]; try lia; [|destruct (un_bp_ok words op); lia].
  destruct (op_bp_levels words op) as [[H1 H2]|[[H1 H2]|H]]; [lia..|]. by rewrite H.
Qed.

Lemma raw_full e m n i nd rd rest :
  raw_ok e -> ctx_ok m -> (m <= lvl words e)%N -> drop i T = raw e ++ rest -> stops m rest ->
  room 1 n nd rd e ->
  parse_expr_bp (levels n) m (st i nd rd) = Done (e, st (i + length (raw e))%nat nd rd).
Proof.
  intros He Hc Hm Hi Hs Hroom. destruct Hroom as (Hh & Hr & Hn).
  pose proof (nodes_pos e). pose proof (height_pos e). destruct n as [|n]; [lia|].
  cbn [levels parse_expr_bp]. apply guarded_at; [unfold MAX_NESTING_DEPTH; lia|unfold MAX_RECURSION_DEPTH; lia|].
  destruct (He m n i (nd + 1)%N (rd + 1)%N rest Hm Hi) as (c & sp & <- & _ & Hf).
  - by eapply follow_stops.
  - unfold room. lia.
  - eapply from_prefix_inner; [done| |done]. by apply drop_app.
Qed.

(** A parenthesised expression is a primary one. *)
Lemma paren_prefix e n i nd rd rest :
  raw_ok e -> printable words e = true -> drop i T = parens (raw e) ++ rest -> room 1 n nd rd e ->
  parse_prefix (levels n) (st i nd rd) = Done (e, st (i + length (parens (raw e)))%nat nd rd).
Proof.
  intros He Hp Hi Hroom. change (parens (raw e) ++ rest) with (sym TK_LParen :: (raw e ++ [sym TK_RParen]) ++ rest) in Hi.
  pose proof (drop_next _ _ _ _ Hi) as Hi1. rewrite <-app_assoc in Hi1.
  destruct (starts_raw words _ e (Nat.lt_succ_diag_r _) Hp) as (t & ts & Ht & Hst).
  pose proof Hi1 as Hi1'. rewrite Ht in Hi1'. cbn [app] in Hi1'.
  pose proof (drop_app _ _ _ _ Hi1) as Hi2. cbn [app] in Hi2.
  unfold parse_prefix. rewrite (step_Done _ _ _ _ _ (peek_kind_at T D nsl fc poison Hi)).
  cbn [t_kind sym tk prefix_binding_power]. unfold parse_primary.
  rewrite (step_Done _ _ _ _ _ (peek_at T D nsl fc poison Hi)). cbn [t_kind sym tk].
  unfold parse_paren_or_tuple. rewrite (step_Done _ _ _ _ _ (expect_at T D nsl fc poison Hi TK_LParen eq_refl ltac:(done))).
  cbv zeta. rewrite (step_Done _ _ _ _ _ (check_at T D nsl fc poison Hi1' TK_RParen)).
  assert (kind_eq (t_kind t) TK_RParen = false) as -> by (by destruct (t_kind t)).
  rewrite (step_Done (parse_expr (levels n)) _ _ e (st (S i + length (raw e))%nat nd rd)); cycle 1.
  { eapply raw_full; [done| |lia|exact Hi1| |done]; [split; lia|]. by repeat split. }
  rewrite (step_Done _ _ _ _ _ (check_at T D nsl fc poison Hi2 TK_Comma)).
  assert (kind_eq (t_kind (sym TK_RParen)) TK_Comma = false) as -> by done.
  rewrite (step_Done _ _ _ _ _ (expect_at T D nsl fc poison Hi2 TK_RParen eq_refl ltac:(done))).
  unfold parens. cbn [length]. rewrite length_app. cbn [length]. unfold mret, P_ret. do 3 f_equal. lia.
Qed.

Lemma wrap_cases ctx e :
  (lvl words e < ctx)%N /\ pr ctx e = parens (raw e) \/ (ctx <= lvl words e)%N /\ pr ctx e = raw e.
Proof. unfold pr, wrap. destruct (N.ltb_spec (lvl words e) ctx); auto. Qed.

Lemma not_identifier e ctx p :
  (lvl words e < ctx)%N -> ctx_ok ctx -> reject_macro e p = Done (tt, p).
Proof. intros Hl [Hc _]. destruct e; try done. cbn in Hl. lia. Qed.

Lemma head_of_raw e : printable words e = true -> raw_ok e -> head_ok e.
Proof.
  intros Hp He ctx m n i nd rd rest Hm Hc Hi Hf Hroom.
  destruct (wrap_cases ctx e) as [[Hl Hpr]|[Hl Hpr]]; rewrite Hpr in Hi |- *.
  - exists (new_chain e), 0%N. split; [done|]. split; [pose proof (nodes_pos e); lia|].
    apply from_prefix_start; [by eapply paren_prefix|by eapply not_identifier].
  - eapply He; [lia|done|by apply Hf|]. unfold room in *. lia.
Qed.

Lemma full_of_raw e : printable words e = true -> raw_ok e -> full_ok e.
Proof.
  intros Hp He m n i nd rd rest Hc Hi Hs Hroom.
  destruct (wrap_cases m e) as [[Hl Hpr]|[Hl Hpr]]; rewrite Hpr in Hi |- *.
  - destruct Hroom as (Hh & Hr & Hn). pose proof (nodes_pos e). pose proof (height_pos e).
    destruct n as [|n]; [lia|]. cbn [levels parse_expr_bp].
    apply guarded_at; [unfold MAX_NESTING_DEPTH; lia|unfold MAX_RECURSION_DEPTH; lia|].
    eapply (from_prefix_inner _ _ _ _ _ _ m _ _ _ (new_chain e)); [|by apply drop_app|done].
    apply from_prefix_start; [|by eapply not_identifier].
    eapply paren_prefix; [done..|]. unfold room. lia.
  - eapply raw_full; [done..|]. unfold room in *. lia.
Qed.

(* ------------------------------------------------------------------ *)
(** ** Each form of expression                                         *)
(* ------------------------------------------------------------------ *)

Abbreviation peek_kind_at := (peek_kind_at T D nsl fc poison).
Abbreviation peek_at := (peek_at T D nsl fc poison).
Abbreviation check_at := (check_at T D nsl fc poison).
Abbreviation expect_at := (expect_at T D nsl fc poison).
Abbreviation advance_at := (advance_at T D nsl fc poison).
Abbreviation eat_at := (eat_at T D nsl fc poison).
Abbreviation eat_not := (eat_not T D nsl fc poison).
Abbreviation prev_span_Done := (prev_span_Done T D nsl fc poison).
Abbreviation name_at := (name_at T D nsl fc poison).

(** An expression of one token. *)
Lemma atom_case e t :
  raw e = [t] ->
  (forall E i nd rd rest, drop i T = t :: rest -> follow e rest ->
    parse_prefix E (st i nd rd) = Done (e, st (S i) nd rd)) -> raw_ok e.
Proof.
  intros Ht Hrun m n i nd rd rest Hm Hi Hf _. rewrite Ht in Hi |- *. cbn [app length] in *.
  exists (new_chain e), 0%N. split; [done|]. split; [pose proof (nodes_pos e); lia|].
  replace (i + 1)%nat with (S i) by lia. apply from_prefix_start; [by eapply Hrun|].
  eapply reject_macro_stop; [by eapply drop_next|apply Hf].
Qed.

(** The step into [parse_primary], on a token without a prefix power. *)
Lemma primary_at E i t rest nd rd :
  drop i T = t :: rest -> prefix_binding_power (t_kind t) = None ->
  parse_prefix E (st i nd rd) = parse_primary E (st i nd rd).
Proof.
  intros Hi Hk. unfold parse_prefix. by rewrite (step_Done _ _ _ _ _ (peek_kind_at Hi)), Hk.
Qed.

Lemma digits_base s v acc :
  digits s -> foldl parse_digit (Some acc) s = Some v -> base_value 10 acc s = Some v.
Proof.
  revert acc. induction s as [|b s IH]; intros acc Hd; [done|]. inversion Hd as [|? ? Hb Hds]; subst.
  cbn [foldl base_value]. unfold parse_digit at 2. cbn [mbind option_bind]. rewrite Hb. cbn [andb].
  unfold digit_val. apply is_digit_spec in Hb as Hb'.
  assert (in_range (chr "0") (chr "9") b = true) as -> by (apply in_range_spec; cbn; lia).
  rewrite (proj2 (Z.ltb_lt (b - chr "0") 10)) by (cbn; lia). cbn [mbind option_bind].
  destruct (_ <? _); [|by rewrite foldl_parse_None]. by apply IH.
Qed.
Lemma print_u64_base n : 0 <= n < 2 ^ 64 -> base_value 10 0 (print_u64 n) = Some n.
Proof.
  intros Hn. destruct (print_digits_spec 20 n [] ltac:(lia)) as (ds & He & Hne & Hds & Hp); [cbn; lia|].
  rewrite app_nil_r in He. unfold print_u64. rewrite He. apply digits_base; [done|]. apply Hp. lia.
Qed.
Lemma without_underscores_digits s : digits s -> without_underscores s = s.
Proof.
  intros Hs. unfold without_underscores. induction Hs as [|b s Hb Hs IH]; [done|].
  rewrite filter_cons_True; [by rewrite IH|]. apply is_digit_spec in Hb. cbn. lia.
Qed.

Lemma wrap64_mod_id v : in_i64 v = true -> wrap64 (v mod 2 ^ 64) = v.
Proof.
  intros Hv. rewrite <-(wrap64_id v Hv) at 2. apply wrap64_eqm. by rewrite Z.mod_mod by lia.
Qed.

(** Any 64-bit value is read back from its digits. *)
Lemma int_print v : in_i64 v = true ->
  parse_int_literal_checked (print_u64 (v mod 2 ^ 64)) = Some v.
Proof.
  intros Hv. pose proof (Z.mod_pos_bound v (2 ^ 64) ltac:(lia)) as Hb.
  destruct (print_u64_spec _ Hb) as (Hne & Hd & _).
  rewrite (int_literal_value _ 10 [] (print_u64 (v mod 2 ^ 64)) (v mod 2 ^ 64)).
  - rewrite (proj2 (Z.ltb_lt _ _)) by lia. by rewrite wrap64_mod_id.
  - constructor.
  - by apply without_underscores_digits.
  - done.
  - by apply print_u64_base.
Qed.

(** Literals and names. *)
Lemma literal_case e : printable words e = true ->
  match e with
  | E_IntLiteral _ _ | E_StringLiteral _ _ | E_CharLiteral _ _ | E_BoolLiteral _ _ | E_NoneLiteral _
  | E_Identifier _ _ => raw_ok e
  | _ => True
  end.
Proof.
  intros Hp. pose proof (printable_span words e Hp) as Hs.
  destruct e; try done; cbn [expr_span] in Hs; subst span; cbn [printable expr_span] in Hp;
    (eapply atom_case; [reflexivity|]); intros E i nd rd rest Hi Hf;
    rewrite (primary_at _ _ _ _ _ _ Hi) by (try done; by destruct value); unfold parse_primary;
    rewrite (step_Done _ _ _ _ _ (peek_at Hi)); cbn [t_kind t_span sym tk].
  - rewrite (step_Done _ _ _ _ _ (advance_at Hi ltac:(done))). unfold int_value. cbn [t_text tk].
    apply andb_true_iff in Hp as [_ Hv]. by rewrite int_print.
  - by rewrite (step_Done _ _ _ _ _ (advance_at Hi ltac:(done))).
  - rewrite (step_Done _ _ _ _ _ (advance_at Hi ltac:(done))). cbn [t_text tk]. unfold first_char.
    apply andb_true_iff in Hp as [_ Hv]. pose proof (decode_encode value [] Hv) as Hd.
    rewrite app_nil_r in Hd. by rewrite Hd.
  - destruct value; by rewrite (step_Done _ _ _ _ _ (advance_at Hi ltac:(done))).
  - by rewrite (step_Done _ _ _ _ _ (advance_at Hi ltac:(done))).
  - unfold parse_path_expr. rewrite (step_Done _ _ _ _ _ (advance_at Hi ltac:(done))). cbv zeta.
    destruct Hf as [Hst _]. destruct rest as [|t rest]; [done|]. destruct Hst as (_ & Hb & Hcc & _).
    pose proof (drop_next _ _ _ _ Hi) as Hi1.
    rewrite (step_Done _ _ _ _ _ (check_at Hi1 TK_LBrace)). unfold kind_eq. rewrite bool_decide_eq_false_2 by done.
    rewrite (step_Done (gets no_struct_literal) _ _ nsl (st (S i) nd rd)) by done. cbn [andb].
    by rewrite (step_Done _ _ _ _ _ (eat_not Hi1 TK_ColonColon Hcc)).
Qed.

(** A token that ends an operand at any level. *)
Definition closes (k : TokenKind) : bool :=
  match k with TK_RParen | TK_RBracket | TK_Comma => true | _ => false end.
Lemma closes_stops m k ts : closes k = true -> stops m (sym k :: ts).
Proof. by destruct k. Qed.
Lemma starts_not_closes k c : starts k = true -> closes c = true -> kind_eq k c = false.
Proof. destruct k; try done; by destruct c. Qed.

Lemma starts_pr ctx e :
  printable words e = true -> exists t ts, pr ctx e = t :: ts /\ starts (t_kind t) = true.
Proof.
  intros Hp. unfold pr, ExprPrint.pr, wrap. destruct (_ <? _)%N; [|by apply (starts_raw words (S (nodes e))); [lia|]].
  by exists (sym TK_LParen), (raw e ++ [sym TK_RParen]).
Qed.

(** A prefix operator [ts] before an operand at the level [bp]. *)
Lemma unary_case t ts bp a e mk :
  printable words a = true -> full_ok a ->
  raw e = (t :: ts) ++ pr bp a -> rmin words e = bp -> ctx_ok bp -> is_field e = false ->
  nodes e = S (nodes a) -> height e = S (height a) ->
  e = mk a dummy_span -> t_span t = dummy_span -> (forall p, reject_macro e p = Done (tt, p)) ->
  (forall E i nd rd rest, drop i T = raw e ++ rest ->
    parse_prefix E (st i nd rd) = prefix_operand E bp t mk (st (i + length (t :: ts)) nd rd)) ->
  raw_ok e.
Proof.
  intros Hp Ha Hraw Hr Hc Hf Hn Hh He Ht Hm Hrun m n i nd rd rest _ Hi Hfol Hroom.
  exists (new_chain e), 0%N. split; [done|]. split; [lia|].
  apply from_prefix_start; [|apply Hm]. rewrite (Hrun _ _ _ _ _ Hi).
  rewrite Hraw, <-app_assoc in Hi. pose proof (drop_app _ _ _ _ Hi) as Hi'.
  unfold prefix_operand.
  rewrite (step_Done _ _ _ _ _ (Ha bp n _ nd rd rest Hc Hi' ltac:(subst bp; apply Hfol)
    ltac:(unfold room in *; lia))).
  rewrite Ht, (printable_span words a Hp), Hraw, length_app, Nat.add_assoc. cbn [merge]. by rewrite He.
Qed.

(** What the induction gives for the parts of an expression. *)
Definition parts_ok (e : Expr) : Prop := forall a,
  (nodes a < nodes e)%nat -> printable words a = true -> raw_ok a.
Lemma part_full e a : parts_ok e -> (nodes a < nodes e)%nat -> printable words a = true -> full_ok a.
Proof. intros He Hn Hp. by apply full_of_raw, He. Qed.
Lemma part_head e a : parts_ok e -> (nodes a < nodes e)%nat -> printable words a = true -> head_ok a.
Proof. intros He Hn Hp. by apply head_of_raw, He. Qed.

(** The step of [parse_prefix] on a prefix operator. *)
Lemma prefix_at E i t ts nd rd bp : drop i T = t :: ts ->
  prefix_binding_power (t_kind t) = Some bp -> t_kind t <> TK_Eof ->
  parse_prefix E (st i nd rd) =
  (match t_kind t with
   | TK_Minus => prefix_operand E bp t (E_UnaryOp U_Neg)
   | TK_Not | TK_Bang => prefix_operand E bp t (E_UnaryOp U_Not)
   | TK_Tilde => prefix_operand E bp t (E_UnaryOp U_BitNot)
   | TK_Amp => mutable ← eat TK_Mut; prefix_operand E bp t (fun e => E_Borrow e mutable)
   | TK_Star => prefix_operand E bp t E_Deref
   | TK_Shared => prefix_operand E bp t E_SharedExpr
   | TK_Move => prefix_operand E bp t E_MoveExpr
   | TK_Weak => prefix_operand E bp t E_WeakExpr
   | TK_Await => prefix_operand E bp t E_Await
   | _ => panic
   end) (st (i + 1) nd rd).
Proof.
  intros Hi Hb He. unfold parse_prefix.
  rewrite (step_Done _ _ _ _ _ (peek_kind_at Hi)), Hb, (step_Done _ _ _ _ _ (advance_at Hi He)).
  by rewrite Nat.add_1_r.
Qed.

Lemma prefix_cases e : printable words e = true -> parts_ok e ->
  match e with
  | E_UnaryOp _ _ _ | E_Borrow _ _ _ | E_Deref _ _ | E_SharedExpr _ _ | E_MoveExpr _ _
  | E_WeakExpr _ _ | E_Await _ _ => raw_ok e
  | _ => True
  end.
Proof.
  intros Hp IH. pose proof (printable_span words e Hp) as Hs.
  destruct e as [| | | | | | | | | | |op a ?| | | | | | | | | | | | |a mutable ?|a ?|a ?|a ?|a ?| | | | | |a ?];
    try done; cbn [expr_span] in Hs; subst; cbn [printable expr_span] in Hp;
    apply andb_true_iff in Hp as [_ Hp]; pose proof (part_full _ a IH ltac:(cbn; lia) Hp) as Ha;
    [apply (unary_case (sym (un_kind words op)) [] (un_bp words op) a _ (E_UnaryOp op))
    |apply (unary_case (sym TK_Amp) (if mutable then [sym TK_Mut] else []) 24 a _ (fun e => E_Borrow e mutable))
    |apply (unary_case (sym TK_Star) [] 24 a _ E_Deref)
    |apply (unary_case (sym TK_Shared) [] 3 a _ E_SharedExpr)
    |apply (unary_case (sym TK_Move) [] 3 a _ E_MoveExpr)
    |apply (unary_case (sym TK_Weak) [] 3 a _ E_WeakExpr)
    |apply (unary_case (sym TK_Await) [] 3 a _ E_Await)]; try done; try apply un_bp_ok;
    intros E i nd rd rest Hi.
  - rewrite (prefix_at _ _ _ _ _ _ (un_bp words op) Hi) by (by destruct op, words). by destruct op, words.
  - rewrite (prefix_at _ _ _ _ _ _ 24 Hi) by done. cbn [t_kind sym tk]. destruct mutable.
    + pose proof (drop_next _ _ _ _ Hi) as Hi1. rewrite <-Nat.add_1_r in Hi1.
      rewrite (step_Done _ _ _ _ _ (eat_at Hi1 TK_Mut eq_refl ltac:(done))). cbn [length app].
      by replace (i + 2)%nat with (S (i + 1)) by lia.
    + destruct (starts_pr 24 a Hp) as (t & ts & Ht & Hst). cbn [raw app] in Hi.
      change (drop i T = sym TK_Amp :: pr 24 a ++ rest) in Hi. rewrite Ht in Hi.
      pose proof (drop_next _ _ _ _ Hi) as Hi1. rewrite <-Nat.add_1_r in Hi1.
      by rewrite (step_Done _ _ _ _ _ (eat_not Hi1 TK_Mut ltac:(intros Hk; by rewrite Hk in Hst))).
  - by rewrite (prefix_at _ _ _ _ _ _ 24 Hi).
  - by rewrite (prefix_at _ _ _ _ _ _ 3 Hi).
  - by rewrite (prefix_at _ _ _ _ _ _ 3 Hi).
  - by rewrite (prefix_at _ _ _ _ _ _ 3 Hi).
  - by rewrite (prefix_at _ _ _ _ _ _ 3 Hi).
Qed.

(** An operator [t] with its operands [ts] after the head [a], printed as [pa]. *)
Lemma chain_case a pa t ts e :
  raw e = pa ++ t :: ts -> (nodes a < nodes e)%nat -> t_kind t <> TK_Eof ->
  (forall m n i nd rd rest, (m <= lvl words e)%N -> drop i T = pa ++ t :: ts ++ rest ->
    follow e rest -> room 2 n nd rd e ->
    exists c sp, lhs c = a /\ (N.to_nat sp < nodes a)%nat
      /\ from_prefix (levels n) m i nd rd c sp (i + length pa)) ->
  (forall m n c i nd nd' rd rest, (m <= lvl words e)%N -> lhs c = a -> drop i T = t :: ts ++ rest ->
    follow e rest -> room 2 n nd rd e -> (N.to_nat nd' <= N.to_nat nd + nodes a)%nat ->
    extends_chain (t_kind t) (next_of (t :: ts ++ rest)) m = true
    /\ exists c', lhs c' = e
      /\ chain_apply (levels n) (t_kind t) (next_of (t :: ts ++ rest)) m c (st i nd' rd)
         = Done (Continue c', st (i + S (length ts)) nd' rd)) ->
  raw_ok e.
Proof.
  intros Hraw Hn Ht Hhead Hstep m n i nd rd rest Hm Hi Hf Hroom.
  rewrite Hraw, <-app_assoc in Hi. cbn [app] in Hi.
  destruct (Hhead m n i nd rd rest Hm Hi Hf Hroom) as (c & sp & Hc & Hsp & Hfrom).
  pose proof (drop_app _ _ _ _ Hi) as Hi'. pose proof (nodes_pos a) as Hpos.
  destruct (Hstep m n c _ nd (nd + sp + 1)%N rd rest Hm Hc Hi' Hf Hroom ltac:(lia)) as (Hext & c' & Hc' & Happ).
  exists c', (sp + 1)%N. split; [done|]. split; [lia|]. rewrite Hraw, length_app, Nat.add_assoc.
  eapply from_prefix_step; [exact Hfrom| |].
  - eapply chain_step_at; [exact Hi'|done|exact Hext| |exact Happ].
    destruct Hroom as (_ & _ & Hr). unfold MAX_NESTING_DEPTH. lia.
  - apply (f_equal length) in Hi'. rewrite length_drop in Hi'. cbn [length] in Hi'.
    rewrite length_app in Hi'. cbn [length]. lia.
Qed.

(** The head printed at the level [ctx]. *)
Lemma head_case a ctx t ts e :
  head_ok a -> ctx_ok ctx -> (lvl words e <= ctx)%N ->
  (nodes a < nodes e)%nat -> (height a < height e)%nat ->
  ((ctx <= lvl words a)%N -> forall rest, follow a (t :: ts ++ rest)) ->
  forall m n i nd rd rest, (m <= lvl words e)%N -> drop i T = pr ctx a ++ t :: ts ++ rest ->
    follow e rest -> room 2 n nd rd e ->
    exists c sp, lhs c = a /\ (N.to_nat sp < nodes a)%nat
      /\ from_prefix (levels n) m i nd rd c sp (i + length (pr ctx a)).
Proof.
  intros Ha Hc Hl Hn Hh Hf m n i nd rd rest Hm Hi _ Hroom.
  eapply Ha; [lia|done|exact Hi|auto|]. unfold room in *. lia.
Qed.

(** The head of a postfix operator. *)
Lemma postfix_follow a t rest :
  (28 <= lvl words a)%N ->
  match t_kind t with TK_Dot | TK_LBracket => True | TK_LParen => is_field a = false | _ => False end ->
  follow a (t :: rest).
Proof.
  intros Hl Ht. assert (Hr : rmin words a = 100%N).
  { destruct a; cbn [lvl rmin] in *; try lia; [|by destruct op, words].
    destruct (op_bp_levels words op) as [[H1 H2]|[[H1 H2]|H]]; [lia|lia|]. rewrite H in Hl. cbn in Hl. lia. }
  unfold follow. rewrite Hr. cbn [stops not_call]. rewrite extends_top.
  destruct (t_kind t) eqn:Hk; try done; repeat split; try done. intros Hfa. by rewrite Hfa in Ht.
Qed.

Lemma fresh_at seen i t ts nd rd :
  drop i T = t :: ts -> t_newline_before t = false ->
  warn_fresh_line seen (st i nd rd) = Done (tt, st i nd rd).
Proof.
  intros Hi Ht. unfold warn_fresh_line. rewrite (step_Done _ _ _ _ _ (peek_at Hi)), Ht.
  by rewrite andb_false_r.
Qed.

(** An operand at the level 0 in brackets. *)
Lemma inner_at a k n i nd rd ts :
  full_ok a -> drop i T = raw a ++ sym k :: ts -> closes k = true -> room 0 n nd rd a ->
  parse_expr (levels n) (st i nd rd) = Done (a, st (i + length (raw a)) nd rd).
Proof.
  intros Ha Hi Hk Hroom. assert (Hpr : pr 0 a = raw a).
  { unfold pr, ExprPrint.pr, wrap. by rewrite (proj2 (N.ltb_ge _ _)) by lia. }
  rewrite <-Hpr in Hi |- *. apply (Ha 0%N n i nd rd (sym k :: ts)); [split; lia|done|by apply closes_stops|done].
Qed.

Lemma field_case a f : printable words a = true -> parts_ok (E_FieldAccess a f dummy_span) ->
  raw_ok (E_FieldAccess a f dummy_span).
Proof.
  intros Hp IH. pose proof (part_head _ a IH ltac:(cbn; lia) Hp) as Ha.
  apply (chain_case a (pr 28 a) (sym TK_Dot) [field_token f]); [done|cbn; lia|done| |].
  - apply head_case; [done|split; lia|cbn; lia|cbn; lia|cbn; lia|]. intros Hl rest. by apply postfix_follow.
  - intros m n c i nd nd' rd rest Hm Hc Hi [Hst Hcall] _ _. cbn [lvl] in Hm. split; [by apply N.leb_le|].
    exists (set_lhs (E_FieldAccess a f dummy_span) c). split; [done|].
    pose proof (drop_next _ _ _ _ Hi) as Hi1. cbn [app] in Hi1. pose proof (drop_next _ _ _ _ Hi1) as Hi2.
    cbn [chain_apply sym tk t_kind length]. unfold next. apply map_Done. unfold chain_dot.
    rewrite Hc, (printable_span words a Hp), (step_Done _ _ _ _ _ (advance_at Hi ltac:(done))).
    rewrite (step_Done _ _ _ _ _ (peek_at Hi1)). replace (i + 2)%nat with (S (S i)) by lia.
    unfold field_token in Hi1 |- *. destruct (_ && _); cbn [t_kind tk].
    + by rewrite (step_Done _ _ _ _ _ (advance_at Hi1 ltac:(done))).
    + rewrite (step_Done _ _ _ _ _ (name_at Hi1 eq_refl)). cbn [t_text t_span tk].
      destruct rest as [|t rest]; [done|].
      by rewrite (step_Done _ _ _ _ _ (eat_not Hi2 TK_LParen (Hcall eq_refl))).
Qed.

Lemma index_case a b :
  printable words a = true -> printable words b = true -> parts_ok (E_IndexAccess a b dummy_span) ->
  raw_ok (E_IndexAccess a b dummy_span).
Proof.
  intros Hp Hpb IH. pose proof (part_head _ a IH ltac:(cbn; lia) Hp) as Ha.
  pose proof (part_full _ b IH ltac:(cbn; lia) Hpb) as Hb.
  apply (chain_case a (pr 28 a) (sym TK_LBracket) (raw b ++ [sym TK_RBracket])); [done|cbn; lia|done| |].
  - apply head_case; [done|split; lia|cbn; lia|cbn; lia|cbn; lia|]. intros Hl rest. by apply postfix_follow.
  - intros m n c i nd nd' rd rest Hm Hc Hi _ Hroom Hnd. cbn [lvl] in Hm. split; [by apply N.leb_le|].
    eexists (mkChain _ _ _ _ _). split; [reflexivity|].
    pose proof (drop_next _ _ _ _ Hi) as Hi1. rewrite <-app_assoc in Hi1. pose proof (drop_app _ _ _ _ Hi1) as Hi2.
    cbn [chain_apply sym tk t_kind length]. unfold next. apply map_Done. unfold chain_index.
    rewrite (step_Done _ _ _ _ _ (fresh_at _ _ _ _ _ _ Hi eq_refl)).
    rewrite (step_Done _ _ _ _ _ (advance_at Hi ltac:(done))).
    rewrite (step_Done _ _ _ _ _ (inner_at b TK_RBracket n (S i) nd' rd _ Hb Hi1 eq_refl
      ltac:(unfold room in *; cbn [height nodes] in *; lia))).
    rewrite (step_Done _ _ _ _ _ (expect_at Hi2 TK_RBracket eq_refl ltac:(done))).
    rewrite Hc, (printable_span words a Hp), length_app. cbn [length].
    by replace (S (S i + length (raw b))) with (i + S (length (raw b) + 1))%nat by lia.
Qed.

(** The kind after an operator: no [>] starts an operand. *)
Lemma next_starts op t ts :
  starts (t_kind t) = true -> next_of (sym (op_kind words op) :: t :: ts) <> Some TK_Gt.
Proof.
  intros Hs. cbn [next_of sym tk t_kind]. destruct (kind_eq _ _); [|done]. intros [= Hk]. by rewrite Hk in Hs.
Qed.

Lemma lvl_pos a : printable words a = true -> (1 <= lvl words a)%N.
Proof.
  intros Hp. destruct a; cbn [lvl]; try lia; [|by destruct (un_bp_vals words op) as [-> | ->]].
  cbn [printable] in Hp. rewrite !andb_true_iff in Hp. destruct Hp as (_ & (Hop & _) & _).
  destruct (op_left words op) as [H|H]; [|lia..]. intros Hk. unfold kind_eq in Hop.
  by rewrite bool_decide_eq_true_2 in Hop.
Qed.

Lemma rmin_pos a : printable words a = true -> (2 <= rmin words a)%N.
Proof.
  intros Hp. destruct a; cbn [rmin]; try lia; [|by destruct (un_bp_vals words op) as [-> | ->]].
  cbn [printable] in Hp. rewrite !andb_true_iff in Hp. destruct Hp as (_ & (Hop & _) & _).
  assert (Hk : has_kind words op) by (intros Hk; unfold kind_eq in Hop; by rewrite bool_decide_eq_true_2 in Hop).
  pose proof (op_left words op Hk). destruct (op_bp_levels words op) as [H1|[H1|H1]]; [lia|lia|].
  rewrite H1 in *. cbn in *. lia.
Qed.

Lemma binary_case op a b :
  has_kind words op -> printable words a = true -> printable words b = true ->
  parts_ok (E_BinaryOp op a b dummy_span) -> raw_ok (E_BinaryOp op a b dummy_span).
Proof.
  intros Hop Hp Hpb IH. pose proof (part_head _ a IH ltac:(cbn; lia) Hp) as Ha.
  pose proof (part_full _ b IH ltac:(cbn; lia) Hpb) as Hb.
  destruct (op_kinds words op Hop) as (Hb1 & Has & Heof & Hin).
  destruct (left_ctx_ok words op) as (Hc1 & Hc2 & Hle).
  destruct (starts_pr (op_bp words op).2 b Hpb) as (tb & tsb & Htb & Hsb).
  apply (chain_case a (pr (left_ctx words op) a) (sym (op_kind words op)) (pr (op_bp words op).2 b));
    [done|cbn; lia|done| |].
  - apply head_case; [done|done|done|cbn; lia|cbn; lia|]. intros Hl rest. rewrite Htb. split.
    + cbn [stops app]. change (t_kind (sym (op_kind words op))) with (op_kind words op).
      rewrite extends_op by (try done; by apply next_starts).
      split; [apply N.leb_gt, left_stops; done|]. clear -Hop. unfold has_kind in Hop.
      destruct op, words; cbn in *; done.
    + intros _. cbn. clear -Hop. destruct op, words; cbn in *; done.
  - intros m n c i nd nd' rd rest Hm Hc Hi [Hst _] Hroom Hnd. cbn [lvl] in Hm.
    pose proof (drop_next _ _ _ _ Hi) as Hi1.
    assert (Hnx : next_of (sym (op_kind words op) :: pr (op_bp words op).2 b ++ rest) <> Some TK_Gt).
    { rewrite Htb. by apply next_starts. }
    set (nx := next_of _) in *. clearbody nx. cbn [sym tk t_kind].
    rewrite extends_op, chain_apply_infix by done. split; [by apply N.leb_le|].
    eexists (mkChain _ _ _ _ _). split; [reflexivity|]. unfold chain_infix.
    rewrite op_infix by done. destruct (op_bp words op) as [l_bp r_bp] eqn:Hbp. cbn [fst snd] in *.
    rewrite (proj2 (N.ltb_ge _ _)) by done. rewrite (bool_decide_eq_false_2 (nx = _)) by done.
    rewrite andb_false_r. unfold kind_eq at 1. rewrite (bool_decide_eq_false_2 (_ = TK_As)) by done.
    unfold next. apply map_Done. unfold chain_binop. cbv zeta.
    assert (Hw : forall (x : bool) seen, (if x then warn_fresh_line seen else mret tt) (st i nd' rd) = Done (tt, st i nd' rd)).
    { intros [] seen; [|done]. by apply (fresh_at _ _ _ _ _ _ Hi). }
    rewrite (step_Done _ _ _ _ _ (Hw _ _)), (step_Done _ _ _ _ _ (Hw _ _)).
    rewrite (step_Done _ _ _ _ _ (advance_at Hi Heof)).
    rewrite (step_Done _ _ _ _ _ (Hb r_bp n (S i) nd' rd rest Hc2 Hi1 ltac:(cbn [rmin] in Hst; by rewrite Hbp in Hst)
      ltac:(unfold room in *; cbn [height nodes] in *; lia))).
    rewrite Hb1, Hc, (printable_span words a Hp), (printable_span words b Hpb).
    by replace (S i + length (pr r_bp b))%nat with (i + S (length (pr r_bp b)))%nat by lia.
Qed.

Lemma pipe_case a b :
  printable words a = true -> printable words b = true ->
  parts_ok (E_PipeExpr a b dummy_span) -> raw_ok (E_PipeExpr a b dummy_span).
Proof.
  intros Hp Hpb IH. pose proof (part_head _ a IH ltac:(cbn; lia) Hp) as Ha.
  pose proof (part_full _ b IH ltac:(cbn; lia) Hpb) as Hb.
  apply (chain_case a (pr 2 a) (sym TK_Pipe) (sym TK_Gt :: pr 3 b)); [done|cbn; lia|done| |].
  - apply head_case; [done|split; lia|cbn; lia|cbn; lia|cbn; lia|]. intros Hl rest. split; [|done].
    cbn [stops app sym tk t_kind next_of]. split; [|done]. change (kind_eq TK_Pipe TK_Pipe) with true.
    cbn [extends_chain infix_binding_power]. rewrite bool_decide_eq_true_2 by done. apply N.leb_gt.
    destruct (decide (rmin words a = 2%N)) as [Hr|]; [|pose proof (rmin_pos a Hp); lia].
    destruct a; cbn [lvl rmin] in *; try lia; [|by destruct (un_bp_vals words op) as [H|H]; rewrite H in Hr].
    destruct (op_bp_levels words op) as [[H1 H2]|[[H1 H2]|H]]; [lia|lia|]. by rewrite H in Hr.
  - intros m n c i nd nd' rd rest Hm Hc Hi [Hst _] Hroom Hnd. cbn [lvl] in Hm.
    pose proof (drop_next _ _ _ _ Hi) as Hi1. cbn [app] in Hi1. pose proof (drop_next _ _ _ _ Hi1) as Hi2.
    cbn [app sym tk t_kind next_of]. change (kind_eq TK_Pipe TK_Pipe) with true. cbn [t_kind].
    cbn [extends_chain chain_apply]. unfold chain_infix. cbn [infix_binding_power].
    rewrite bool_decide_eq_true_2 by done. split; [by apply N.leb_le|].
    eexists (set_lhs _ c). split; [reflexivity|]. rewrite (proj2 (N.ltb_ge _ _)) by done.
    change (kind_eq TK_Pipe TK_Pipe) with true. cbn [andb].
    rewrite (step_Done _ _ _ _ _ (advance_at Hi ltac:(done))), (step_Done _ _ _ _ _ (advance_at Hi1 ltac:(done))).
    unfold next. apply map_Done. unfold chain_operand.
    rewrite (step_Done _ _ _ _ _ (Hb 3%N n (S (S i)) nd' rd rest ltac:(split; lia) Hi2 Hst
      ltac:(unfold room in *; cbn [height nodes] in *; lia))).
    rewrite Hc, (printable_span words a Hp), (printable_span words b Hpb). cbn [length].
    by replace (S (S i) + length (pr 3 b))%nat with (i + S (S (length (pr 3 b))))%nat by lia.
Qed.

Lemma range_case incl a b :
  printable words a = true -> printable words b = true ->
  parts_ok (E_RangeExpr (Some a) (Some b) incl dummy_span) ->
  raw_ok (E_RangeExpr (Some a) (Some b) incl dummy_span).
Proof.
  intros Hp Hpb IH. pose proof (part_head _ a IH ltac:(cbn; lia) Hp) as Ha.
  pose proof (part_full _ b IH ltac:(cbn; lia) Hpb) as Hb.
  destruct (starts_pr 2 b Hpb) as (tb & tsb & Htb & Hsb).
  set (k := if incl then TK_DotDotEq else TK_DotDot).
  assert (Hk : k <> TK_Eof /\ k <> TK_LBrace /\ k <> TK_ColonColon /\ k <> TK_Bang /\ k <> TK_LParen
    /\ forall nx m, extends_chain k nx m = (m <=? 1)%N) by (by destruct incl).
  destruct Hk as (Hk1 & Hk2 & Hk3 & Hk4 & Hk5 & Hext).
  apply (chain_case a (pr 1 a) (sym k) (pr 2 b)); [done|cbn; lia|done| |].
  - apply head_case; [done|split; lia|cbn; lia|cbn; lia|cbn; lia|]. intros Hl rest. split; [|done].
    cbn [stops sym tk t_kind]. rewrite Hext. split; [|done]. apply N.leb_gt.
    pose proof (rmin_pos a Hp). lia.
  - intros m n c i nd nd' rd rest Hm Hc Hi [Hst _] Hroom Hnd. cbn [lvl] in Hm.
    pose proof (drop_next _ _ _ _ Hi) as Hi1. cbn [sym tk t_kind]. rewrite Hext. split; [by apply N.leb_le|].
    eexists (set_lhs _ c). split; [reflexivity|].
    assert (Happ : forall nx, chain_apply (levels n) k nx m c = next (chain_range (levels n) k c)) by (by destruct incl).
    rewrite Happ. unfold next. apply map_Done. unfold chain_range.
    rewrite (step_Done _ _ _ _ _ (advance_at Hi Hk1)).
    pose proof Hi1 as Hi1'. rewrite Htb in Hi1'. cbn [app] in Hi1'.
    rewrite (step_Done _ _ _ _ _ (peek_kind_at Hi1')).
    assert (ends_range (t_kind tb) = false) as -> by (by destruct (t_kind tb)).
    rewrite (step_Done (Some <$> _) _ _ (Some b) (st (S i + length (pr 2 b)) nd' rd)); cycle 1.
    { apply (map_Done Some), (Hb 2%N n (S i) nd' rd rest ltac:(split; lia) Hi1 Hst).
      unfold room in *; cbn [height nodes] in *; lia. }
    pose proof (drop_app _ _ _ _ Hi1) as Hi2. destruct rest as [|t rest]; [done|].
    destruct (prev_span_Done Hi2 (nd := nd') (rd := rd)) as [s Hs]. rewrite (step_Done _ _ _ _ _ Hs).
    rewrite Hc, (printable_span words a Hp). cbn [from_option]. rewrite (printable_span words b Hpb).
    assert (kind_eq k TK_DotDotEq = incl) as -> by (by destruct incl).
    by replace (S i + length (pr 2 b))%nat with (i + S (length (pr 2 b)))%nat by lia.
Qed.

(* ------------------------------------------------------------------ *)
(** ** Lists of expressions                                            *)
(* ------------------------------------------------------------------ *)

Lemma sum_elem {A} (f : A -> nat) x l : x ∈ l -> (f x <= sum_list_with f l)%nat.
Proof. induction 1; cbn; lia. Qed.
Lemma max_elem {A} (f : A -> nat) x l : x ∈ l -> (f x <= max_list_with f l)%nat.
Proof. induction 1; cbn; lia. Qed.
Lemma printable_elem es e : forallb (printable words) es = true -> e ∈ es -> printable words e = true.
Proof. rewrite forallb_forall. intros H He. apply H. by apply list_elem_of_In. Qed.

(** An element of a list, ready to be parsed. *)
Definition elem_ok (n : nat) (nd rd : N) (e : Expr) : Prop :=
  printable words e = true /\ full_ok e /\ room 0 n nd rd e.
Lemma parts_elems e es n nd nd' rd :
  parts_ok e -> forallb (printable words) es = true ->
  (sum_list_with nodes es < nodes e)%nat -> (max_list_with height es < height e)%nat ->
  room 2 n nd rd e -> (N.to_nat nd' + sum_list_with nodes es <= N.to_nat nd + pred (nodes e))%nat ->
  Forall (elem_ok n nd' rd) es.
Proof.
  intros IH Hp Hn Hh Hroom Hnd. apply Forall_forall. intros a Ha.
  pose proof (sum_elem nodes a es Ha). pose proof (max_elem height a es Ha).
  pose proof (printable_elem es a Hp Ha) as Hpa. pose proof (nodes_pos a).
  split; [done|]. split; [by apply (part_full e); [|lia|]|]. unfold room in *. lia.
Qed.

Lemma separated_cons x l : separated (x :: l) = x ++ concat (map (cons (sym TK_Comma)) l).
Proof.
  revert x. induction l as [|y l IH]; intros x; [by cbn; rewrite app_nil_r|].
  change (separated (x :: y :: l)) with (x ++ sym TK_Comma :: separated (y :: l)). by rewrite IH.
Qed.

Lemma raw_nonempty e : printable words e = true -> exists t ts, raw e = t :: ts /\ starts (t_kind t) = true.
Proof. intros Hp. by apply (starts_raw words (S (nodes e))); [lia|]. Qed.

(** A round of [comma_list]. *)
Abbreviation comma_round close n := (fun xs =>
  c ← check close; e ← at_end;
  if c || e then mret (Break xs)
  else
    x ← parse_expr (levels n);
    c ← check close;
    _ ← (if c : bool then mret tt else _ ← expect TK_Comma; mret tt);
    mret (Continue (xs ++ [x]))).

Lemma comma_stop close n xs i rest nd rd :
  drop i T = sym close :: rest ->
  comma_round close n xs (st i nd rd) = Done (Break xs, st i nd rd).
Proof.
  intros Hi. cbv beta. rewrite (step_Done _ _ _ _ _ (check_at Hi close)).
  rewrite (step_Done _ _ _ _ _ (at_end_at T D nsl fc poison Hi)).
  unfold kind_eq at 1. by rewrite bool_decide_eq_true_2.
Qed.

(** A round reads an element, and the comma unless the list ends. *)
Lemma comma_element close n xs e i ts nd rd :
  close = TK_RParen \/ close = TK_RBracket -> elem_ok n nd rd e ->
  (drop i T = raw e ++ sym close :: ts ->
    comma_round close n xs (st i nd rd) = Done (Continue (xs ++ [e]), st (i + length (raw e)) nd rd))
  /\ (drop i T = raw e ++ sym TK_Comma :: ts ->
    comma_round close n xs (st i nd rd) = Done (Continue (xs ++ [e]), st (i + length (raw e) + 1) nd rd)).
Proof.
  intros Hcl (Hp & Hfull & Hroom). destruct (raw_nonempty e Hp) as (t & tl & Ht & Hst).
  assert (Hhead : forall k, closes k = true -> drop i T = raw e ++ sym k :: ts ->
    comma_round close n xs (st i nd rd) =
      (c ← check close; _ ← (if c : bool then mret tt else _ ← expect TK_Comma; mret tt);
       mret (Continue (xs ++ [e]))) (st (i + length (raw e)) nd rd)).
  { intros k Hk Hi. cbv beta. pose proof Hi as Hi'. rewrite Ht in Hi'. cbn [app] in Hi'.
    rewrite (step_Done _ _ _ _ _ (check_at Hi' close)), (step_Done _ _ _ _ _ (at_end_at T D nsl fc poison Hi')).
    rewrite (starts_not_closes _ close Hst) by (by destruct Hcl; subst).
    assert (kind_eq (t_kind t) TK_Eof = false) as -> by (by destruct (t_kind t)). cbn [orb].
    by rewrite (step_Done _ _ _ _ _ (inner_at e k n i nd rd ts Hfull Hi Hk Hroom)). }
  split; intros Hi; pose proof (drop_app _ _ _ _ Hi) as Hi2.
  - rewrite (Hhead close) by (try done; by destruct Hcl; subst).
    rewrite (step_Done _ _ _ _ _ (check_at Hi2 close)). unfold kind_eq. by rewrite bool_decide_eq_true_2.
  - rewrite (Hhead TK_Comma) by done. rewrite (step_Done _ _ _ _ _ (check_at Hi2 close)).
    assert (kind_eq (t_kind (sym TK_Comma)) close = false) as -> by (by destruct Hcl; subst).
    rewrite (step_Done (_ ≫= _) _ _ tt (st (S (i + length (raw e))) nd rd)).
    + by rewrite Nat.add_1_r.
    + by rewrite (step_Done _ _ _ _ _ (expect_at Hi2 TK_Comma eq_refl ltac:(done))).
Qed.

Lemma comma_runs close n nd rd es i xs rest :
  close = TK_RParen \/ close = TK_RBracket -> Forall (elem_ok n nd rd) es ->
  drop i T = separated (map raw es) ++ sym close :: rest ->
  runs (comma_round close n) xs (st i nd rd) (xs ++ es)
    (st (i + length (separated (map raw es))) nd rd).
Proof.
  intros Hcl Hes. revert i xs. induction Hes as [|e es He Hes IH]; intros i xs Hi.
  - cbn in Hi. apply runs_break. rewrite app_nil_r, Nat.add_0_r. by eapply comma_stop.
  - destruct (raw_nonempty e (proj1 He)) as (t & tl & Ht & _).
    assert (Hlen : (i + length (separated (map raw (e :: es))) < length T)%nat).
    { apply (f_equal length) in Hi. rewrite length_drop, length_app in Hi. cbn [length] in Hi. lia. }
    change (xs ++ e :: es) with (xs ++ [e] ++ es). rewrite app_assoc.
    destruct es as [|e2 es].
    + destruct (comma_element close n xs e i rest nd rd Hcl He) as [Hr _].
      eapply runs_continue; [by apply Hr|done|cbn [pos st ParseRun.st tokens]; cbn [map separated] in Hlen; rewrite Ht in *; cbn [length] in *; lia|].
      pose proof (IH (i + length (raw e))%nat (xs ++ [e]) (drop_app _ _ _ _ Hi)) as Hx.
      cbn [map separated length] in Hx |- *. by rewrite Nat.add_0_r in Hx.
    + change (separated (map raw (e :: e2 :: es))) with (raw e ++ sym TK_Comma :: separated (map raw (e2 :: es))) in *.
      rewrite <-app_assoc in Hi. cbn [app] in Hi. rewrite length_app in *. cbn [length] in *.
      destruct (comma_element close n xs e i (separated (map raw (e2 :: es)) ++ sym close :: rest) nd rd Hcl He)
        as [_ Hr].
      eapply runs_continue; [by apply Hr|done|cbn [pos st ParseRun.st tokens]; lia|].
      replace (i + (length (raw e) + S (length (separated (map raw (e2 :: es))))))%nat
        with (i + length (raw e) + 1 + length (separated (map raw (e2 :: es))))%nat by lia.
      apply IH. rewrite Nat.add_1_r. eapply drop_next, drop_app, Hi.
Qed.

Lemma comma_list_at close n nd rd es i rest :
  close = TK_RParen \/ close = TK_RBracket -> Forall (elem_ok n nd rd) es ->
  drop i T = separated (map raw es) ++ sym close :: rest ->
  comma_list close (parse_expr (levels n)) (st i nd rd)
  = Done (es, st (i + length (separated (map raw es))) nd rd).
Proof.
  intros Hcl Hes Hi. apply (runs_loop (comma_round close n) []).
  exact (comma_runs close n nd rd es i [] rest Hcl Hes Hi).
Qed.

(** The arguments of a call, after the opening parenthesis. *)
Lemma call_args_at n nd rd es i rest :
  Forall (elem_ok n nd rd) es ->
  drop i T = separated (map raw es) ++ sym TK_RParen :: rest ->
  parse_call_args (levels n) (st i nd rd)
  = Done ((es, dummy_span), st (i + S (length (separated (map raw es)))) nd rd).
Proof.
  intros Hes Hi. unfold parse_call_args, parse_arg_list.
  rewrite (step_Done _ _ _ _ _ (comma_list_at TK_RParen n nd rd es i rest (or_introl eq_refl) Hes Hi)).
  pose proof (drop_app _ _ _ _ Hi) as Hi2.
  rewrite (step_Done _ _ _ _ _ (expect_at Hi2 TK_RParen eq_refl ltac:(done))).
  by replace (i + S (length (separated (map raw es))))%nat with (S (i + length (separated (map raw es)))) by lia.
Qed.

(* ------------------------------------------------------------------ *)
(** ** Calls, arrays and tuples                                        *)
(* ------------------------------------------------------------------ *)

Lemma call_step a es e n nd nd' rd :
  parts_ok e -> forallb (printable words) es = true ->
  nodes e = S (nodes a + sum_list_with nodes es) ->
  height e = S (height a `max` max_list_with height es) ->
  room 2 n nd rd e -> (N.to_nat nd' <= N.to_nat nd + nodes a)%nat -> Forall (elem_ok n nd' rd) es.
Proof.
  intros IH Hp Hn Hh Hroom Hnd. pose proof (nodes_pos a).
  apply (parts_elems e es n nd nd' rd); try done; lia.
Qed.

Lemma method_case a m es :
  printable words a = true -> forallb (printable words) es = true ->
  parts_ok (E_MethodCall a m es dummy_span) -> raw_ok (E_MethodCall a m es dummy_span).
Proof.
  intros Hp Hes IH. pose proof (part_head _ a IH ltac:(cbn; lia) Hp) as Ha.
  apply (chain_case a (pr 28 a) (sym TK_Dot)
    (tk TK_Ident m :: sym TK_LParen :: separated (map raw es) ++ [sym TK_RParen])); [done|cbn; lia|done| |].
  - apply head_case; [done|split; lia|cbn; lia|cbn; lia|cbn; lia|]. intros Hl rest. by apply postfix_follow.
  - intros mb n c i nd nd' rd rest Hm Hc Hi _ Hroom Hnd. cbn [lvl] in Hm. split; [by apply N.leb_le|].
    exists (set_lhs (E_MethodCall a m es dummy_span) c). split; [done|].
    pose proof (call_step a es _ n nd nd' rd IH Hes eq_refl eq_refl Hroom Hnd) as Hargs.
    pose proof (drop_next _ _ _ _ Hi) as Hi1. cbn [app] in Hi1. pose proof (drop_next _ _ _ _ Hi1) as Hi2.
    pose proof (drop_next _ _ _ _ Hi2) as Hi3. rewrite <-app_assoc in Hi3.
    cbn [chain_apply sym tk t_kind length]. unfold next. apply map_Done. unfold chain_dot.
    rewrite Hc, (printable_span words a Hp), (step_Done _ _ _ _ _ (advance_at Hi ltac:(done))).
    rewrite (step_Done _ _ _ _ _ (peek_at Hi1)). cbn [t_kind tk].
    rewrite (step_Done _ _ _ _ _ (name_at Hi1 eq_refl)). cbn [t_text t_span tk].
    rewrite (step_Done _ _ _ _ _ (eat_at Hi2 TK_LParen eq_refl ltac:(done))).
    rewrite (step_Done _ _ _ _ _ (call_args_at n nd' rd es _ rest Hargs Hi3)). rewrite length_app. cbn [length].
    by replace (S (S (S i)) + S (length (separated (map raw es))))%nat
      with (i + S (S (S (length (separated (map raw es)) + 1))))%nat by lia.
Qed.

Lemma fn_call_case a es :
  printable words a = true -> forallb (printable words) es = true ->
  parts_ok (E_FnCall a es dummy_span) -> raw_ok (E_FnCall a es dummy_span).
Proof.
  intros Hp Hes IH. pose proof (part_head _ a IH ltac:(cbn; lia) Hp) as Ha.
  apply (chain_case a (if is_field a then parens (raw a) else pr 28 a) (sym TK_LParen)
    (separated (map raw es) ++ [sym TK_RParen])); [done|cbn; lia|done| |].
  - destruct (is_field a) eqn:Hfield.
    + intros m n i nd rd rest _ Hi _ Hroom. exists (new_chain a), 0%N. split; [done|].
      split; [pose proof (nodes_pos a); lia|].
      apply from_prefix_start; [|by destruct a]. eapply paren_prefix; [by apply IH; [cbn; lia|]|done|exact Hi|].
      unfold room in *. cbn [height nodes] in *. lia.
    + apply head_case; [done|split; lia|cbn; lia|cbn; lia|cbn; lia|]. intros Hl rest. by apply postfix_follow.
  - intros mb n c i nd nd' rd rest Hm Hc Hi _ Hroom Hnd. cbn [lvl] in Hm. split; [by apply N.leb_le|].
    eexists (mkChain _ _ _ _ _). split; [reflexivity|].
    pose proof (call_step a es _ n nd nd' rd IH Hes eq_refl eq_refl Hroom Hnd) as Hargs.
    pose proof (drop_next _ _ _ _ Hi) as Hi1. rewrite <-app_assoc in Hi1.
    cbn [chain_apply sym tk t_kind length]. unfold chain_call.
    rewrite (step_Done _ _ _ _ _ (peek_at Hi)), (step_Done (gets paren_group_starts_arm) _ _ _ _ eq_refl).
    cbn [t_newline_before sym tk andb].
    rewrite (step_Done _ _ _ _ _ (fresh_at _ _ _ _ _ _ Hi eq_refl)).
    rewrite (step_Done _ _ _ _ _ (advance_at Hi ltac:(done))).
    rewrite (step_Done _ _ _ _ _ (call_args_at n nd' rd es _ rest Hargs Hi1)).
    rewrite Hc, (printable_span words a Hp), length_app. cbn [length].
    by replace (S i + S (length (separated (map raw es))))%nat
      with (i + S (length (separated (map raw es)) + 1))%nat by lia.
Qed.

(** An expression that starts with a token of its own. *)
Lemma primary_case t ts e :
  raw e = t :: ts -> prefix_binding_power (t_kind t) = None ->
  (forall p, reject_macro e p = Done (tt, p)) ->
  (forall n i nd rd rest, drop i T = t :: ts ++ rest -> room 2 n nd rd e ->
    parse_primary (levels n) (st i nd rd) = Done (e, st (i + S (length ts)) nd rd)) -> raw_ok e.
Proof.
  intros Hraw Ht Hm Hrun m n i nd rd rest _ Hi _ Hroom. rewrite Hraw in Hi |- *. cbn [app length] in *.
  exists (new_chain e), 0%N. split; [done|]. split; [pose proof (nodes_pos e); lia|].
  apply from_prefix_start; [|apply Hm]. rewrite (primary_at _ _ _ _ _ _ Hi Ht). by eapply Hrun.
Qed.

Lemma array_case es : forallb (printable words) es = true ->
  parts_ok (E_ArrayLiteral es dummy_span) -> raw_ok (E_ArrayLiteral es dummy_span).
Proof.
  intros Hes IH. apply (primary_case (sym TK_LBracket) (separated (map raw es) ++ [sym TK_RBracket])); try done.
  intros n i nd rd rest Hi Hroom. pose proof (drop_next _ _ _ _ Hi) as Hi1. rewrite <-app_assoc in Hi1.
  assert (Hargs : Forall (elem_ok n nd rd) es) by (apply (parts_elems _ es n nd nd rd IH); try done; cbn; lia).
  unfold parse_primary. rewrite (step_Done _ _ _ _ _ (peek_at Hi)). cbn [t_kind sym tk].
  unfold parse_array_literal. rewrite (step_Done _ _ _ _ _ (expect_at Hi TK_LBracket eq_refl ltac:(done))).
  rewrite (step_Done _ _ _ _ _ (comma_list_at TK_RBracket n nd rd es _ rest (or_intror eq_refl) Hargs Hi1)).
  pose proof (drop_app _ _ _ _ Hi1) as Hi2.
  rewrite (step_Done _ _ _ _ _ (expect_at Hi2 TK_RBracket eq_refl ltac:(done))), length_app. cbn [length].
  by replace (S (S i + length (separated (map raw es))))%nat
    with (i + S (length (separated (map raw es)) + 1))%nat by lia.
Qed.

Lemma static_case ty m es : forallb (printable words) es = true ->
  parts_ok (E_StaticMethodCall ty m es dummy_span) -> raw_ok (E_StaticMethodCall ty m es dummy_span).
Proof.
  intros Hes IH. apply (primary_case (tk TK_Ident ty)
    (sym TK_ColonColon :: tk TK_Ident m :: sym TK_LParen :: separated (map raw es) ++ [sym TK_RParen])); try done.
  intros n i nd rd rest Hi Hroom. pose proof (drop_next _ _ _ _ Hi) as Hi1. cbn [app] in Hi1.
  pose proof (drop_next _ _ _ _ Hi1) as Hi2. pose proof (drop_next _ _ _ _ Hi2) as Hi3.
  pose proof (drop_next _ _ _ _ Hi3) as Hi4. rewrite <-app_assoc in Hi4.
  assert (Hargs : Forall (elem_ok n nd rd) es) by (apply (parts_elems _ es n nd nd rd IH); try done; cbn; lia).
  unfold parse_primary. rewrite (step_Done _ _ _ _ _ (peek_at Hi)). cbn [t_kind tk].
  unfold parse_path_expr. rewrite (step_Done _ _ _ _ _ (advance_at Hi ltac:(done))). cbv zeta.
  rewrite (step_Done _ _ _ _ _ (check_at Hi1 TK_LBrace)). change (kind_eq _ TK_LBrace) with false.
  rewrite (step_Done (gets no_struct_literal) _ _ nsl (st (S i) nd rd)) by done. cbn [andb].
  rewrite (step_Done _ _ _ _ _ (eat_at Hi1 TK_ColonColon eq_refl ltac:(done))).
  rewrite (step_Done _ _ _ _ _ (name_at Hi2 eq_refl)). cbn [t_text t_span tk].
  rewrite (step_Done _ _ (st (S (S (S i))) nd rd) (ty, m) (st (S (S (S i))) nd rd)); cycle 1.
  { unfold while_eat. apply runs_loop, runs_break.
    by rewrite (step_Done _ _ _ _ _ (eat_not Hi3 TK_ColonColon ltac:(done))). }
  cbv beta iota. rewrite (step_Done _ _ _ _ _ (eat_at Hi3 TK_LParen eq_refl ltac:(done))).
  rewrite (step_Done _ _ _ _ _ (call_args_at n nd rd es _ rest Hargs Hi4)). cbn [length]. rewrite length_app. cbn [length].
  by replace (S (S (S (S i))) + S (length (separated (map raw es))))%nat
    with (i + S (S (S (S (length (separated (map raw es)) + 1)))))%nat by lia.
Qed.

(** A round of the loop over the elements of a tuple, from a comma on. *)
Abbreviation tuple_round n := (fun elements =>
  c ← eat TK_Comma;
  if c : bool then
    c ← check TK_RParen;
    if c : bool then mret (Break elements)
    else x ← parse_expr (levels n); mret (Continue (elements ++ [x]))
  else mret (Break elements)).

Abbreviation comma_first es := (concat (map (cons (sym TK_Comma)) (map raw es))).

Lemma comma_first_closes es ts : exists k ts', closes k = true /\ comma_first es ++ sym TK_RParen :: ts = sym k :: ts'.
Proof. destruct es as [|e es]; [by exists TK_RParen, ts|]. by eexists TK_Comma, _. Qed.

Lemma tuple_runs n nd rd es i xs rest :
  Forall (elem_ok n nd rd) es -> drop i T = comma_first es ++ sym TK_RParen :: rest ->
  runs (tuple_round n) xs (st i nd rd) (xs ++ es) (st (i + length (comma_first es)) nd rd).
Proof.
  intros Hes. revert i xs. induction Hes as [|e es (Hp & Hfull & Hroom) Hes IH]; intros i xs Hi.
  - cbn in Hi. apply runs_break. rewrite app_nil_r, Nat.add_0_r.
    by rewrite (step_Done _ _ _ _ _ (eat_not Hi TK_Comma ltac:(done))).
  - assert (Hlen : (i + length (comma_first (e :: es)) < length T)%nat).
    { apply (f_equal length) in Hi. rewrite length_drop, length_app in Hi. cbn [length] in Hi. lia. }
    change (comma_first (e :: es)) with (sym TK_Comma :: raw e ++ comma_first es) in *.
    cbn [app length] in *. rewrite length_app in *. rewrite <-app_assoc in Hi.
    pose proof (drop_next _ _ _ _ Hi) as Hi1. pose proof (drop_app _ _ _ _ Hi1) as Hi2.
    destruct (comma_first_closes es rest) as (k & ts' & Hk & Hts). rewrite Hts in Hi1.
    destruct (raw_nonempty e Hp) as (t & tl & Ht & Hst). pose proof Hi1 as Hi1'. rewrite Ht in Hi1'. cbn [app] in Hi1'.
    change (xs ++ e :: es) with (xs ++ [e] ++ es). rewrite app_assoc.
    apply (runs_continue _ _ _ (xs ++ [e]) (st (S i + length (raw e)) nd rd)).
    + cbv beta. rewrite (step_Done _ _ _ _ _ (eat_at Hi TK_Comma eq_refl ltac:(done))).
      rewrite (step_Done _ _ _ _ _ (check_at Hi1' TK_RParen)).
      rewrite (starts_not_closes _ TK_RParen Hst) by done.
      by rewrite (step_Done _ _ _ _ _ (inner_at e k n _ nd rd ts' Hfull Hi1 Hk Hroom)).
    + done.
    + cbn [pos st ParseRun.st tokens]. lia.
    + replace (i + S (length (raw e) + length (comma_first es)))%nat
        with (S i + length (raw e) + length (comma_first es))%nat by lia.
      by apply IH.
Qed.

Lemma tuple_case es : forallb (printable words) es = true ->
  parts_ok (E_TupleLiteral es dummy_span) -> raw_ok (E_TupleLiteral es dummy_span).
Proof.
  intros Hes IH. pose (ts := match es with
    | [a] => raw a ++ [sym TK_Comma; sym TK_RParen]
    | _ => separated (map raw es) ++ [sym TK_RParen] end).
  apply (primary_case (sym TK_LParen) ts); try done; [by destruct es as [|? []]|].
  intros n i nd rd rest Hi Hroom. pose proof (drop_next _ _ _ _ Hi) as Hi1.
  assert (Hargs : Forall (elem_ok n nd rd) es) by (apply (parts_elems _ es n nd nd rd IH); try done; cbn; lia).
  unfold parse_primary. rewrite (step_Done _ _ _ _ _ (peek_at Hi)). cbn [t_kind sym tk].
  unfold parse_paren_or_tuple. rewrite (step_Done _ _ _ _ _ (expect_at Hi TK_LParen eq_refl ltac:(done))). cbv zeta.
  destruct es as [|a es].
  { unfold ts in *. cbn in Hi1. rewrite (step_Done _ _ _ _ _ (check_at Hi1 TK_RParen)).
    change (kind_eq _ TK_RParen) with true. cbv iota.
    rewrite (step_Done _ _ _ _ _ (expect_at Hi1 TK_RParen eq_refl ltac:(done))).
    cbn [map separated app length]. by replace (i + 2)%nat with (S (S i)) by lia. }
  inversion Hargs as [|? ? (Hp & Hfull & Hr) Hargs']; subst.
  assert (Hts : exists tl, ts = raw a ++ sym TK_Comma :: tl).
  { unfold ts. destruct es as [|b es]; [by eexists|]. cbn [map]. rewrite separated_cons, <-app_assoc. by eexists. }
  destruct Hts as [tl Htl]. rewrite Htl, <-app_assoc in Hi1. cbn [app] in Hi1.
  destruct (raw_nonempty a Hp) as (t & tl' & Ht & Hst). pose proof Hi1 as Hi1'. rewrite Ht in Hi1'. cbn [app] in Hi1'.
  rewrite (step_Done _ _ _ _ _ (check_at Hi1' TK_RParen)), (starts_not_closes _ TK_RParen Hst) by done.
  rewrite (step_Done _ _ _ _ _ (inner_at a TK_Comma n _ nd rd _ Hfull Hi1 eq_refl Hr)).
  pose proof (drop_app _ _ _ _ Hi1) as Hi2. rewrite (step_Done _ _ _ _ _ (check_at Hi2 TK_Comma)).
  change (kind_eq _ TK_Comma) with true. cbv iota.
  destruct es as [|b es].
  - assert (tl = [sym TK_RParen]) as -> by (unfold ts in Htl; by apply app_inv_head in Htl as [= ->]).
    cbn [app] in Hi2. pose proof (drop_next _ _ _ _ Hi2) as Hi3.
    rewrite (step_Done _ _ _ [a] (st (S (S i + length (raw a))) nd rd)); cycle 1.
    { unfold while_eat. apply runs_loop, runs_break.
      rewrite (step_Done _ _ _ _ _ (eat_at Hi2 TK_Comma eq_refl ltac:(done))).
      by rewrite (step_Done _ _ _ _ _ (check_at Hi3 TK_RParen)). }
    rewrite (step_Done _ _ _ _ _ (expect_at Hi3 TK_RParen eq_refl ltac:(done))). unfold ts. rewrite length_app. cbn [length].
    by replace (S (S (S i + length (raw a))))%nat with (i + S (length (raw a) + 2))%nat by lia.
  - assert (Hcf : sym TK_Comma :: tl = comma_first (b :: es) ++ [sym TK_RParen]).
    { unfold ts in Htl. change (map raw (a :: b :: es)) with (raw a :: map raw (b :: es)) in Htl.
      rewrite separated_cons, <-app_assoc in Htl. by apply app_inv_head in Htl. }
    change (sym TK_Comma :: tl ++ rest) with ((sym TK_Comma :: tl) ++ rest) in Hi2.
    rewrite Hcf, <-app_assoc in Hi2. pose proof (drop_app _ _ _ _ Hi2) as Hi3.
    rewrite (step_Done _ _ _ _ _ (runs_loop _ _ _ _ _ (tuple_runs n nd rd (b :: es) _ [a] rest Hargs' Hi2))).
    rewrite (step_Done _ _ _ _ _ (expect_at Hi3 TK_RParen eq_refl ltac:(done))).
    rewrite Htl, Hcf, !length_app. cbn [length app].
    by replace (S (S i + length (raw a) + length (comma_first (b :: es))))%nat
      with (i + S (length (raw a) + (length (comma_first (b :: es)) + 1)))%nat by lia.
Qed.

(* ------------------------------------------------------------------ *)
(** ** Every expression                                                *)
(* ------------------------------------------------------------------ *)

Lemma all_raw_ok k e : (nodes e < k)%nat -> printable words e = true -> raw_ok e.
Proof.
  revert e. induction k as [|k IHk]; intros e Hk Hp; [lia|].
  assert (IH : parts_ok e) by (intros a Ha Hpa; apply IHk; [lia|done]).
  pose proof (printable_span words e Hp) as Hs. pose proof (literal_case e Hp) as Hlit.
  pose proof (prefix_cases e Hp IH) as Hpre.
  destruct e; try done; cbn [expr_span] in Hs; subst span; cbn [printable expr_span] in Hp;
    rewrite ?andb_true_iff in Hp; try (by destruct Hp).
  - apply field_case; tauto.
  - apply index_case; tauto.
  - destruct Hp as (_ & (Hop & Hpa) & Hpb). apply binary_case; try done. intros Hop'.
    unfold kind_eq in Hop. by rewrite bool_decide_eq_true_2 in Hop.
  - apply fn_call_case; tauto.
  - apply method_case; tauto.
  - apply static_case; tauto.
  - apply array_case; tauto.
  - apply tuple_case; tauto.
  - destruct start as [a|], end_ as [b|]; try (by destruct Hp). rewrite andb_true_iff in Hp. apply range_case; tauto.
  - apply pipe_case; tauto.
Qed.
End Parse.

(** A cast is outside of the fragment: after a type, [<] opens generic arguments, so that
    [a as i64 < b], which the binding powers print without parentheses, is read as a cast
    to [i64<b] and reported. *)
Lemma cast_then_less :
  let s := dummy_span in
  let p := parse_expr (levels 12) (new_parser [tk TK_Ident (bytes "a"); sym TK_As; tk TK_Ident (bytes "i64");
    sym TK_Lt; tk TK_Ident (bytes "b"); sym TK_Eof]) in
  (fun r => (r.1, length (diagnostics r.2))) <$> p
  = Done (E_Cast (E_Identifier (bytes "a") s) (TE_Generic (bytes "i64") [TE_Simple (bytes "b") s] s) s, 2%nat).
Proof. vm_compute. reflexivity. Qed.

(** C6: an expression printed with the parentheses that the binding powers ask for is
    parsed back: whatever follows it, if it does not extend it, is left, and nothing is
    reported.  It is built from names, literals of integers, characters, strings, booleans
    and [none], operators, pipes, borrows, [shared], [move], [weak], [await], fields,
    indices, calls, arrays, tuples and ranges with both ends; its height is at most 127 and
    it has at most 1023 nodes, which keeps it within the nesting limits. *)
Theorem printed_expression_parses words e rest n :
  printable words e = true -> (height e <= 127)%nat -> (nodes e <= 1023)%nat ->
  stops 0 rest -> (2 * height e <= n)%nat ->
  let p := new_parser (pr words 0 e ++ rest) in
  parse_expr (levels n) p = Done (e, with_pos (length (pr words 0 e)) p).
Proof.
  intros Hp Hh Hn Hr Hl. apply (full_of_raw words _ [] false 0 false e Hp) with (rest := rest); [|split; lia|done|done|].
  - by apply (all_raw_ok _ _ _ _ _ _ (S (nodes e))); [lia|].
  - unfold room. cbn. lia.
Qed.

(** [-(a + 1) * b.0 ** 2 |> f(x, [y, not z])[i..j]] *)
Definition sample_expr : Expr :=
  let s := dummy_span in
  let v name := E_Identifier (bytes name) s in
  E_PipeExpr
    (E_BinaryOp B_Mul
      (E_UnaryOp U_Neg (E_BinaryOp B_Add (v "a"%string) (E_IntLiteral 1 s) s) s)
      (E_BinaryOp B_Pow (E_FieldAccess (v "b"%string) (bytes "0") s) (E_IntLiteral 2 s) s) s)
    (E_IndexAccess
      (E_FnCall (v "f"%string) [v "x"%string; E_ArrayLiteral [v "y"%string; E_UnaryOp U_Not (v "z"%string) s] s] s)
      (E_RangeExpr (Some (v "i"%string)) (Some (v "j"%string)) false s) s) s.

Lemma printed_expression_parses_witness :
  let p := new_parser (pr true 0 sample_expr ++ [sym TK_Eof]) in
  parse_expr (levels 12) p = Done (sample_expr, with_pos (length (pr true 0 sample_expr)) p).
Proof.
  apply (printed_expression_parses true sample_expr [sym TK_Eof] 12); [reflexivity|vm_compute; lia..| |vm_compute; lia].
  by repeat split.
Defined.
