(* ===== verification/Semver.v ===== *)
(** Semantic versions ([kryos-package/src/semver.rs]): parsing, formatting, the
    order on versions and the requirements a version can be checked against. *)

From S2P Require Import Prelude Machine Utf8 Text.

Record Version := mkVersion { major : Z; minor : Z; patch : Z; pre : option str }.

#[export] Instance Version_eq_dec : EqDecision Version.
Proof. solve_decision. Defined.

(** [Version::new] *)
Definition new_version (a b c : Z) : Version := mkVersion a b c None.

Definition version_to_string (v : Version) : str :=
  print_u64 (major v) ++ bytes "." ++ print_u64 (minor v) ++ bytes "." ++ print_u64 (patch v)
  ++ match pre v with Some p => bytes "-" ++ p | None => [] end.

(** [Ordering::then] *)
Definition then_ (c1 c2 : comparison) : comparison := match c1 with Eq => c2 | _ => c1 end.

Definition version_cmp (a b : Version) : comparison :=
  then_ (then_ (then_ (major a ?= major b) (minor a ?= minor b)) (patch a ?= patch b))
    (match pre a, pre b with
     | None, None => Eq
     | None, Some _ => Gt
     | Some _, None => Lt
     | Some p, Some q => str_cmp p q
     end).

Definition version_lt (a b : Version) : bool := match version_cmp a b with Lt => true | _ => false end.
Definition version_le (a b : Version) : bool := match version_cmp a b with Gt => false | _ => true end.

(** The error messages, one constructor for each. *)
Inductive SemverError :=
| InvalidVersion (s : str)
| InvalidMajor (part : str)
| InvalidMinor (part : str)
| InvalidPatch (part : str)
| EmptyPreRelease
| EmptyRequirement.

Definition parse_version (s : str) : SemverError + Version :=
  let '(version_part, pre) :=
    match split_first (chr "-") s with
    | Some (a, b) => (a, Some b)
    | None => (s, None)
    end in
  match split (chr ".") version_part with
  | [p0; p1; p2] =>
      match parse_u64 p0 with
      | None => inl (InvalidMajor p0)
      | Some major =>
          match parse_u64 p1 with
          | None => inl (InvalidMinor p1)
          | Some minor =>
              match parse_u64 p2 with
              | None => inl (InvalidPatch p2)
              | Some patch =>
                  match pre with
                  | Some [] => inl EmptyPreRelease
                  | _ => inr (mkVersion major minor patch pre)
                  end
              end
          end
      end
  | _ => inl (InvalidVersion s)
  end.

Inductive Op := Caret | Tilde | Exact | GreaterEq | Greater | LessEq | Less | Wildcard.

#[export] Instance Op_eq_dec : EqDecision Op.
Proof. solve_decision. Defined.

Record VersionReq := mkReq { op : Op; version : Version }.

Definition matches_caret (r : VersionReq) (v : Version) : bool :=
  if version_lt v (version r) then false
  else if negb (major (version r) =? 0) then major v =? major (version r)
  else if negb (minor (version r) =? 0) then (major v =? 0) && (minor v =? minor (version r))
  else (major v =? 0) && (minor v =? 0) && (patch v =? patch (version r)).

Definition matches_tilde (r : VersionReq) (v : Version) : bool :=
  if version_lt v (version r) then false
  else (major v =? major (version r)) && (minor v =? minor (version r)).

Definition matches_exact (r : VersionReq) (v : Version) : bool := bool_decide (v = version r).

Definition matches (r : VersionReq) (v : Version) : bool :=
  match op r with
  | Caret => matches_caret r v
  | Tilde => matches_tilde r v
  | Exact => matches_exact r v
  | GreaterEq => version_le (version r) v
  | Greater => version_lt (version r) v
  | LessEq => version_le v (version r)
  | Less => version_lt v (version r)
  | Wildcard => true
  end.

Definition op_str (o : Op) : str :=
  match o with
  | Caret => bytes "^" | Tilde => bytes "~" | Exact => bytes "=" | GreaterEq => bytes ">="
  | Greater => bytes ">" | LessEq => bytes "<=" | Less => bytes "<" | Wildcard => bytes "*"
  end.

Definition req_to_string (r : VersionReq) : str :=
  match op r with
  | Wildcard => bytes "*"
  | o => op_str o ++ version_to_string (version r)
  end.

(** The prefixes, in the order they are tried. *)
Definition req_prefixes : list (str * Op) :=
  [(bytes ">=", GreaterEq); (bytes "<=", LessEq); (bytes ">", Greater); (bytes "<", Less);
   (bytes "^", Caret); (bytes "~", Tilde); (bytes "=", Exact)].

Fixpoint split_op (table : list (str * Op)) (s : str) : Op * str :=
  match table with
  | [] => (Caret, s)
  | (p, o) :: table => match strip_prefix p s with Some r => (o, r) | None => split_op table s end
  end.

Definition parse_req (s : str) : SemverError + VersionReq :=
  let s := trim s in
  if bool_decide (s = []) then inl EmptyRequirement
  else if bool_decide (s = bytes "*") then inr (mkReq Wildcard (new_version 0 0 0))
  else
    let '(o, rest) := split_op req_prefixes s in
    match parse_version (trim rest) with
    | inl e => inl e
    | inr v => inr (mkReq o v)
    end.

(** What a [Version] value of the program satisfies when it comes from [from_str]. *)
Definition u64_ok (n : Z) : bool := (0 <=? n) && (n <? 2 ^ 64).

Definition wf_version (v : Version) : bool :=
  u64_ok (major v) && u64_ok (minor v) && u64_ok (patch v) && bool_decide (pre v <> Some []).

Example parse_pre :
  parse_version (bytes "1.20.3-rc-1") = inr (mkVersion 1 20 3 (Some (bytes "rc-1"))).
Proof. reflexivity. Qed.

Example caret_zero :
  map (fun v => matches (mkReq Caret (new_version 0 2 3)) v)
    [new_version 0 2 3; new_version 0 2 9; new_version 0 3 0; new_version 1 2 3]
  = [true; true; false; false].
Proof. reflexivity. Qed.

(* ------------------------------------------------------------------ *)
(** ** Lemmas                                                          *)
(* ------------------------------------------------------------------ *)

Lemma u64_ok_spec n : u64_ok n = true <-> 0 <= n < 2 ^ 64.
Proof. unfold u64_ok. by rewrite andb_true_iff, Z.leb_le, Z.ltb_lt. Qed.

Lemma wf_version_spec v :
  wf_version v = true <->
  0 <= major v < 2 ^ 64 /\ 0 <= minor v < 2 ^ 64 /\ 0 <= patch v < 2 ^ 64 /\ pre v <> Some [].
Proof. unfold wf_version. rewrite !andb_true_iff, !u64_ok_spec, bool_decide_eq_true. tauto. Qed.

#[local] Opaque print_u64.

(** The numeric part of a formatted version. *)
Lemma numeric_part v :
  wf_version v = true ->
  exists l, (forall rest, print_u64 (major v) ++ bytes "." ++ print_u64 (minor v) ++ bytes "."
               ++ print_u64 (patch v) ++ rest = l ++ rest)
    /\ (chr "-" ∉ l)
    /\ split (chr ".") l = [print_u64 (major v); print_u64 (minor v); print_u64 (patch v)]
    /\ Forall (fun b => 0 <= b < 0x80 /\ is_whitespace b = false) l
    /\ (exists b r, l = b :: r /\ is_digit b = true).
Proof.
  rewrite wf_version_spec. intros (Ha & Hb & Hc & _).
  destruct (print_u64_spec _ Ha) as (Hna & Hda & _), (print_u64_spec _ Hb) as (_ & Hdb & _),
    (print_u64_spec _ Hc) as (_ & Hdc & _).
  exists (print_u64 (major v) ++ chr "." :: print_u64 (minor v) ++ chr "." :: print_u64 (patch v)).
  split_and!.
  - intros rest. rewrite <-app_assoc. cbn. by rewrite <-app_assoc.
  - rewrite !elem_of_app, !elem_of_cons, !elem_of_app, !elem_of_cons.
    intros [H|[H|[H|[H|H]]]]; try discriminate H;
      (eapply (digits_not_in _ (chr "-")); [|reflexivity|exact H]); assumption.
  - rewrite !split_app, split_none by (apply digits_not_in; [assumption|reflexivity]). reflexivity.
  - assert (Hdig : forall l, digits l -> Forall (fun b => 0 <= b < 0x80 /\ is_whitespace b = false) l).
    { intros l Hl. eapply Forall_impl; [exact Hl|]. intros b Hd%is_digit_spec. split; [lia|].
      by apply digit_not_ws. }
    assert (Hdot : 0 <= chr "." < 0x80 /\ is_whitespace (chr ".") = false) by (by vm_compute).
    rewrite !Forall_app, !Forall_cons, !Forall_app, !Forall_cons.
    exact (conj (Hdig _ Hda) (conj Hdot (conj (Hdig _ Hdb) (conj Hdot (Hdig _ Hdc))))).
  - destruct (print_u64 (major v)) as [|b r] eqn:He; [done|]. do 2 eexists. split; [reflexivity|].
    by inversion Hda.
Qed.

Lemma parse_version_print v :
  wf_version v = true -> parse_version (version_to_string v) = inr v.
Proof.
  intros Hv. destruct (numeric_part v Hv) as (l & Heq & Hdash & Hsplit & _).
  apply wf_version_spec in Hv as (Ha & Hb & Hc & Hp).
  unfold parse_version, version_to_string. rewrite Heq.
  destruct v as [a b c [p|]]; cbn [major minor patch pre] in *.
  - change (bytes "-" ++ p) with (chr "-" :: p). rewrite (split_first_app (chr "-") l p) by done. rewrite Hsplit.
    destruct (print_u64_spec a Ha) as (_ & _ & ->), (print_u64_spec b Hb) as (_ & _ & ->),
      (print_u64_spec c Hc) as (_ & _ & ->). by destruct p.
  - rewrite app_nil_r, split_first_None by done. rewrite Hsplit.
    destruct (print_u64_spec a Ha) as (_ & _ & ->), (print_u64_spec b Hb) as (_ & _ & ->),
      (print_u64_spec c Hc) as (_ & _ & ->). done.
Qed.

Lemma parse_version_wf s v : parse_version s = inr v -> wf_version v = true.
Proof.
  unfold parse_version. rewrite wf_version_spec. intros Hp.
  repeat (case_match; simplify_eq); cbn; split_and!;
    repeat match goal with H : parse_u64 _ = Some _ |- _ => apply parse_u64_bounds in H end; done || lia.
Qed.

(** Formatting and parsing of versions are inverse on exactly the versions a
    program can hold: three [u64] fields and a pre-release that is not empty;
    parsing never yields another value. *)
Lemma version_round_trip v :
  (wf_version v = true <-> parse_version (version_to_string v) = inr v)
  /\ (forall s, parse_version s = inr v -> wf_version v = true).
Proof.
  split; [|intros s; apply parse_version_wf].
  split; [apply parse_version_print|apply parse_version_wf].
Qed.

(* ------------------------------------------------------------------ *)
(** ** The order                                                       *)
(* ------------------------------------------------------------------ *)

Definition pre_cmp (p q : option str) : comparison :=
  match p, q with
  | None, None => Eq
  | None, Some _ => Gt
  | Some _, None => Lt
  | Some p, Some q => str_cmp p q
  end.

Lemma then_eq c1 c2 : then_ c1 c2 = Eq <-> c1 = Eq /\ c2 = Eq.
Proof. destruct c1, c2; naive_solver. Qed.

Lemma then_opp c1 c2 : CompOpp (then_ c1 c2) = then_ (CompOpp c1) (CompOpp c2).
Proof. by destruct c1. Qed.

Lemma pre_cmp_eq p q : pre_cmp p q = Eq <-> p = q.
Proof. destruct p, q; cbn; rewrite ?str_cmp_eq; naive_solver. Qed.

Lemma pre_cmp_antisym p q : pre_cmp q p = CompOpp (pre_cmp p q).
Proof. destruct p, q; cbn; auto using str_cmp_antisym. Qed.

Lemma pre_cmp_trans p q r : pre_cmp p q = Lt -> pre_cmp q r = Lt -> pre_cmp p r = Lt.
Proof. destruct p, q, r; cbn; try done. apply str_cmp_trans. Qed.

(** The triple of numbers. *)
Definition triple_lt (a b : Z * Z * Z) : Prop :=
  let '(a0, a1, a2) := a in
  let '(b0, b1, b2) := b in
  a0 < b0 \/ a0 = b0 /\ (a1 < b1 \/ a1 = b1 /\ a2 < b2).

Definition triple (v : Version) : Z * Z * Z := (major v, minor v, patch v).

Lemma version_cmp_eq a b : version_cmp a b = Eq <-> a = b.
Proof.
  unfold version_cmp. fold (pre_cmp (pre a) (pre b)).
  rewrite !then_eq, !Z.compare_eq_iff, pre_cmp_eq. destruct a, b; cbn. naive_solver.
Qed.

Lemma version_cmp_lt a b :
  version_cmp a b = Lt <->
  triple_lt (triple a) (triple b) \/ triple a = triple b /\ pre_cmp (pre a) (pre b) = Lt.
Proof.
  unfold version_cmp, triple_lt, triple. fold (pre_cmp (pre a) (pre b)).
  destruct (Z.compare_spec (major a) (major b)), (Z.compare_spec (minor a) (minor b)),
    (Z.compare_spec (patch a) (patch b)); cbn;
    (split; [intros Hc|intros [?|[[= ? ? ?] ?]]]); try done; try lia; try (left; lia).
  right. split; [congruence|done].
Qed.

Lemma version_cmp_antisym a b : version_cmp b a = CompOpp (version_cmp a b).
Proof.
  unfold version_cmp. fold (pre_cmp (pre a) (pre b)) (pre_cmp (pre b) (pre a)).
  rewrite !then_opp, <-!Z.compare_antisym. by rewrite <-pre_cmp_antisym.
Qed.

Lemma version_cmp_trans a b c : version_cmp a b = Lt -> version_cmp b c = Lt -> version_cmp a c = Lt.
Proof.
  rewrite !version_cmp_lt. unfold triple_lt, triple.
  intros [H1|[[= E1 E2 E3] H1]] [H2|[[= F1 F2 F3] H2]]; [left; lia..|].
  right. split; [congruence|]. by eapply pre_cmp_trans.
Qed.

(** [Ord for Version] is a total order that agrees with [==]: a comparison
    is [Equal] only on equal versions, swapping the sides reverses it, and it
    is transitive; a release is above each of its pre-releases. *)
Lemma version_order a b c :
  (version_cmp a b = Eq <-> a = b)
  /\ version_cmp b a = CompOpp (version_cmp a b)
  /\ (version_cmp a b = Lt -> version_cmp b c = Lt -> version_cmp a c = Lt)
  /\ (forall x y z p, version_cmp (mkVersion x y z (Some p)) (mkVersion x y z None) = Lt).
Proof.
  split_and!; [apply version_cmp_eq|apply version_cmp_antisym|apply version_cmp_trans|].
  intros x y z p. unfold version_cmp. cbn. by rewrite !Z.compare_refl.
Qed.

(** Not above, as [max_by] uses it. *)
Lemma version_not_gt_trans a b c :
  version_cmp a b <> Gt -> version_cmp b c <> Gt -> version_cmp a c <> Gt.
Proof.
  intros Hab Hbc. destruct (version_cmp a b) eqn:E1; [|destruct (version_cmp b c) eqn:E2|]; try done.
  - by apply version_cmp_eq in E1 as ->.
  - apply version_cmp_eq in E2 as <-. congruence.
  - rewrite (version_cmp_trans a b c) by done. done.
Qed.

(* ------------------------------------------------------------------ *)
(** ** Requirements                                                    *)
(* ------------------------------------------------------------------ *)

(** The least release [^v] excludes, as the documentation of [matches_caret] has it. *)
Definition caret_bound (v : Version) : Z * Z * Z :=
  if negb (major v =? 0) then (major v + 1, 0, 0)
  else if negb (minor v =? 0) then (0, minor v + 1, 0)
  else (0, 0, patch v + 1).

Definition tilde_bound (v : Version) : Z * Z * Z := (major v, minor v + 1, 0).

Lemma version_lt_false v r : version_lt v r = false <-> version_cmp v r <> Lt.
Proof. unfold version_lt. destruct (version_cmp v r); naive_solver. Qed.

Lemma not_lt_triple v r : version_cmp v r <> Lt -> ~ triple_lt (triple v) (triple r).
Proof. rewrite version_cmp_lt. tauto. Qed.

(** A caret or tilde requirement accepts exactly the versions from its own
    up to the documented bound, the numbers of which it excludes with all their
    pre-releases. *)
Lemma range_matches r v :
  wf_version (version r) = true -> wf_version v = true ->
  (matches_caret r v = true <->
     version_cmp v (version r) <> Lt /\ triple_lt (triple v) (caret_bound (version r)))
  /\ (matches_tilde r v = true <->
     version_cmp v (version r) <> Lt /\ triple_lt (triple v) (tilde_bound (version r))).
Proof.
  rewrite !wf_version_spec. intros (Hr1 & Hr2 & Hr3 & _) (Hv1 & Hv2 & Hv3 & _).
  unfold matches_caret, matches_tilde.
  destruct (version_lt v (version r)) eqn:Hlt.
  { assert (version_cmp v (version r) = Lt) as He
      by (unfold version_lt in Hlt; by destruct (version_cmp v (version r))).
    split; split; try done; intros [? _]; done. }
  apply version_lt_false in Hlt. pose proof (not_lt_triple _ _ Hlt) as Hge.
  unfold triple_lt, triple, caret_bound, tilde_bound in *.
  split; [|rewrite andb_true_iff, !Z.eqb_eq; split; [intros [? ?]; split; [done|lia]|intros [_ ?]; lia]].
  destruct (Z.eqb_spec (major (version r)) 0); [destruct (Z.eqb_spec (minor (version r)) 0)|];
    cbn; rewrite ?andb_true_iff, ?Z.eqb_eq;
    (split; [intros H; split; [done|lia]|intros [_ ?]; lia]).
Qed.

Lemma range_matches_witness :
  matches_caret (mkReq Caret (new_version 0 2 3)) (new_version 0 2 9) = true
  /\ ~ matches_caret (mkReq Caret (new_version 0 2 3)) (new_version 0 3 0) = true.
Proof.
  split.
  - apply (range_matches (mkReq Caret (new_version 0 2 3)) (new_version 0 2 9) eq_refl eq_refl).
    split; [discriminate|]. cbn. lia.
  - intros H. apply (range_matches (mkReq Caret (new_version 0 2 3)) (new_version 0 3 0) eq_refl eq_refl) in H.
    destruct H as [_ H]. cbn in H. lia.
Defined.

(** A pre-release that survives the trimming of the text around it. *)
Definition pre_trimmed (p : str) : bool :=
  match utf8_chars p with
  | Some cs => match last cs with Some c => negb (is_whitespace c) | None => false end
  | None => false
  end.

Definition wf_req (r : VersionReq) : bool :=
  wf_version (version r)
  && match pre (version r) with Some p => pre_trimmed p | None => true end
  && (bool_decide (op r <> Wildcard) || bool_decide (version r = new_version 0 0 0)).

Lemma last_app_not_ws a b : last_not_ws b -> last_not_ws (a ++ b).
Proof.
  unfold last_not_ws. rewrite last_app. by destruct (last b).
Qed.

(** The characters of a formatted version: a digit first, nothing to trim. *)
Lemma version_chars v :
  wf_version v = true -> match pre v with Some p => pre_trimmed p | None => true end = true ->
  exists b cs, version_to_string v = encode_all (b :: cs) /\ scalars (b :: cs)
    /\ last_not_ws (b :: cs) /\ 48 <= b <= 57.
Proof.
  intros Hv Hp. destruct (numeric_part v Hv) as (l & Heq & _ & _ & Hl & b & r & -> & Hb%is_digit_spec).
  destruct (ascii_chars (b :: r)) as [He Hs].
  { eapply Forall_impl; [exact Hl|]. by intros ? [? _]. }
  unfold version_to_string. rewrite Heq. destruct (pre v) as [p|].
  - unfold pre_trimmed in Hp. destruct (utf8_chars p) as [cs|] eqn:Hcs; [|done].
    apply utf8_chars_sound in Hcs as [-> Hscs]. exists b, (r ++ chr "-" :: cs). split_and!; [|..|lia|lia].
    + change (b :: r ++ chr "-" :: cs) with ((b :: r) ++ [chr "-"] ++ cs).
      rewrite !encode_all_app, He. done.
    + change (b :: r ++ chr "-" :: cs) with ((b :: r) ++ [chr "-"] ++ cs).
      apply Forall_app. split; [done|]. by apply Forall_cons.
    + apply (last_app_not_ws (b :: r) (chr "-" :: cs)), (last_app_not_ws [_]).
      unfold last_not_ws. destruct (last cs); [by apply negb_true_iff|done].
  - exists b, r. rewrite app_nil_r. split_and!; [done|done| |lia|lia].
    unfold last_not_ws. destruct (last (b :: r)) as [c|] eqn:Hlast.
    + apply last_Some_elem_of in Hlast. rewrite Forall_forall in Hl. by apply (Hl c).
    + by apply last_None in Hlast.
Qed.

Lemma trim_version v :
  wf_version v = true -> match pre v with Some p => pre_trimmed p | None => true end = true ->
  trim (version_to_string v) = version_to_string v.
Proof.
  intros Hv Hp. destruct (version_chars v Hv Hp) as (b & cs & -> & Hs & Hl & Hb).
  apply trim_id; [done| |done]. by apply digit_not_ws.
Qed.

(** The operator, and that its prefix is the one found. *)
Lemma split_op_print o b r :
  o <> Wildcard -> 48 <= b <= 57 -> split_op req_prefixes (op_str o ++ b :: r) = (o, b :: r).
Proof.
  intros Ho Hb. assert (Heq : (chr "=" =? b) = false) by (apply Z.eqb_neq; cbn; lia).
  destruct o; try done; cbn in *; by rewrite ?Heq.
Qed.

Lemma op_str_chars o :
  scalars (op_str o) /\ encode_all (op_str o) = op_str o /\ first_not_ws (op_str o) /\ op_str o <> [].
Proof. destruct o; split_and!; try done; repeat constructor. Qed.

Lemma parse_req_print r :
  wf_req r = true -> parse_req (req_to_string r) = inr r.
Proof.
  unfold wf_req. rewrite !andb_true_iff, orb_true_iff, !bool_decide_eq_true.
  intros [[Hv Hp] Hw]. destruct r as [o v]. cbn [op version] in *.
  destruct (decide (o = Wildcard)) as [->|Ho].
  { destruct Hw as [|Hw]; [done|]. rewrite Hw. vm_compute. reflexivity. }
  assert (Hstr : req_to_string (mkReq o v) = op_str o ++ version_to_string v) by (by destruct o).
  rewrite Hstr. destruct (version_chars v Hv Hp) as (b & cs & He & Hs & Hl & Hb).
  destruct (op_str_chars o) as (Hos & Hoe & Hof & Hon).
  assert (Htrim : trim (op_str o ++ version_to_string v) = op_str o ++ version_to_string v).
  { rewrite He, <-Hoe, <-encode_all_app. apply trim_id.
    - by apply Forall_app.
    - by destruct (op_str o).
    - by apply last_app_not_ws. }
  assert (Hb8 : exists r, version_to_string v = b :: r).
  { rewrite He. cbn. unfold encode_utf8. rewrite (proj2 (Z.ltb_lt b 0x80)) by lia. by eexists. }
  destruct Hb8 as [r Hr]. unfold parse_req. rewrite Htrim.
  rewrite bool_decide_false by (by destruct (op_str o)).
  rewrite bool_decide_false; [|intros Hc; apply (f_equal length) in Hc; rewrite Hr in Hc;
    destruct o; discriminate Hc || (cbn in Hc; lia) || done].
  rewrite Hr, split_op_print by done. rewrite <-Hr, trim_version by done.
  by rewrite parse_version_print.
Qed.

(** Formatting and parsing of requirements are inverse where the format is
    faithful: a wildcard carries no version, and a pre-release does not end in
    white space. *)
Lemma requirement_round_trip r :
  wf_req r = true -> parse_req (req_to_string r) = inr r.
Proof. apply parse_req_print. Qed.

Lemma requirement_round_trip_witness :
  parse_req (req_to_string (mkReq GreaterEq (mkVersion 1 0 0 (Some (bytes "rc.1")))))
  = inr (mkReq GreaterEq (mkVersion 1 0 0 (Some (bytes "rc.1")))).
Proof. apply requirement_round_trip. vm_compute. reflexivity. Defined.
