(* ===== verification/Manifest.v ===== *)
(** Dependency specifications ([kryos-package/src/manifest.rs]): their text form,
    and the TOML values [serde] hands to and takes from the code. The TOML
    parser itself is a library the source calls. *)

From S2P Require Import Prelude Machine Utf8 Text Semver.

Inductive DepSpec :=
| Remote (source : str) (version_req : VersionReq)
| PathDep (path : str).

(** [Display for DepSpec] *)
Definition dep_to_string (d : DepSpec) : str :=
  match d with
  | Remote source version_req => source ++ bytes "@" ++ req_to_string version_req
  | PathDep path => bytes "path:" ++ path
  end.

Inductive DepError :=
| BadRequirement (e : SemverError)
| InvalidDependency (s : str)
| UnknownField (key : str)
| MissingVersion
| NoPathOrGit.

Definition is_ascii_alphanumeric (b : Z) : bool :=
  in_range (chr "a") (chr "z") b || in_range (chr "A") (chr "Z") b || is_digit b.

Definition name_byte (b : Z) : bool := is_ascii_alphanumeric b || (b =? chr "_") || (b =? chr "-").

Definition parse_dep_string (s : str) : DepError + DepSpec :=
  match strip_prefix (bytes "path:") s with
  | Some rest => inr (PathDep rest)
  | None =>
      if starts_with (bytes "./") s || starts_with (bytes "../") s || starts_with (bytes "/") s
      then inr (PathDep s)
      else match split_last (chr "@") s with
      | Some (source, version_str) =>
          match parse_req version_str with
          | inl e => inl (BadRequirement e)
          | inr version_req => inr (Remote source version_req)
          end
      | None =>
          if negb (bool_decide (s = [])) && forallb name_byte s then
            match parse_req (bytes "*") with
            | inl e => inl (BadRequirement e)
            | inr version_req => inr (Remote s version_req)
            end
          else match parse_req s with
          | inr version_req => inr (Remote [] version_req)
          | inl _ => inl (InvalidDependency s)
          end
      end
  end.

(** The TOML values a dependency is written as. *)
Inductive DepToml :=
| TomlString (s : str)
| TomlTable (entries : list (str * str)).

Definition is_url (source : str) : bool := existsb (Z.eqb (chr ":")) source || existsb (Z.eqb (chr "/")) source.

Definition serialize (d : DepSpec) : DepToml :=
  match d with
  | Remote source version_req =>
      if bool_decide (source = []) || negb (is_url source)
      then TomlString (req_to_string version_req)
      else TomlString (source ++ bytes "@" ++ req_to_string version_req)
  | PathDep path => TomlTable [(bytes "path", path)]
  end.

(** The loop of [visit_map] over the entries: path, git, version. *)
Fixpoint visit_entries (entries : list (str * str)) (path git version : option str)
  : DepError + (option str * option str * option str) :=
  match entries with
  | [] => inr (path, git, version)
  | (key, value) :: entries =>
      if bool_decide (key = bytes "path") then visit_entries entries (Some value) git version
      else if bool_decide (key = bytes "git") then visit_entries entries path (Some value) version
      else if bool_decide (key = bytes "version") then visit_entries entries path git (Some value)
      else inl (UnknownField key)
  end.

Definition visit_map (entries : list (str * str)) : DepError + DepSpec :=
  match visit_entries entries None None None with
  | inl e => inl e
  | inr (Some p, _, _) => inr (PathDep p)
  | inr (None, Some g, None) => inl MissingVersion
  | inr (None, Some g, Some vr) =>
      match parse_req vr with
      | inl e => inl (BadRequirement e)
      | inr version_req => inr (Remote g version_req)
      end
  | inr (None, None, _) => inl NoPathOrGit
  end.

Definition deserialize (t : DepToml) : DepError + DepSpec :=
  match t with
  | TomlString s => parse_dep_string s
  | TomlTable entries => visit_map entries
  end.

(** A source that is not read as a path, and a requirement whose text splits off. *)
Definition dep_ok (d : DepSpec) : bool :=
  match d with
  | Remote source version_req =>
      wf_req version_req && negb (existsb (Z.eqb (chr "@")) (req_to_string version_req))
      && negb (existsb (fun p => starts_with p (source ++ [chr "@"]))
                 [bytes "path:"; bytes "./"; bytes "../"; bytes "/"])
  | PathDep _ => true
  end.

(** What is left of a dependency once written: a bare name is the TOML key. *)
Definition written (d : DepSpec) : DepSpec :=
  match d with
  | Remote source version_req => Remote (if is_url source then source else []) version_req
  | PathDep path => PathDep path
  end.

(* ------------------------------------------------------------------ *)
(** ** Round trips                                                     *)
(* ------------------------------------------------------------------ *)

Lemma existsb_not_in c l : existsb (Z.eqb c) l = false <-> c ∉ l.
Proof.
  rewrite <-not_true_iff_false, existsb_exists, list_elem_of_In. split.
  - intros H Hin. apply H. exists c. by rewrite Z.eqb_refl.
  - intros H (x & Hx & ->%Z.eqb_eq). done.
Qed.

(** A prefix without ['@'] does not look past the ['@']. *)
Lemma starts_with_at p source l :
  chr "@" ∉ p -> starts_with p (source ++ chr "@" :: l) = starts_with p (source ++ [chr "@"]).
Proof.
  intros Hp. unfold starts_with. apply bool_decide_ext.
  revert source Hp. induction p as [|a p IH]; intros source Hp; cbn; [split; by eexists|].
  rewrite not_elem_of_cons in Hp. destruct source as [|b source]; cbn.
  - rewrite (proj2 (Z.eqb_neq a _)) by (intros ->; tauto). done.
  - destruct (a =? b); [apply IH; tauto|done].
Qed.

Lemma starts_with_false p s : starts_with p s = false -> strip_prefix p s = None.
Proof.
  unfold starts_with. rewrite bool_decide_eq_false. intros H. destruct (strip_prefix p s); [|done].
  destruct H. by eexists.
Qed.

Lemma parse_dep_at source version_req :
  dep_ok (Remote source version_req) = true ->
  parse_dep_string (source ++ bytes "@" ++ req_to_string version_req) = inr (Remote source version_req).
Proof.
  cbn -[bytes]. rewrite orb_false_r, !andb_true_iff, !negb_true_iff, !orb_false_iff, existsb_not_in.
  intros [[Hr Hat] (H1 & H2 & H3 & H4)].
  change (bytes "@" ++ req_to_string version_req) with (chr "@" :: req_to_string version_req).
  assert (Hno : forall p, chr "@" ∉ p -> starts_with p (source ++ [chr "@"]) = false ->
    starts_with p (source ++ chr "@" :: req_to_string version_req) = false)
    by (intros p Hp Hs; by rewrite starts_with_at).
  unfold parse_dep_string.
  rewrite (starts_with_false _ _ (Hno (bytes "path:") ltac:(by apply existsb_not_in) H1)).
  rewrite (Hno (bytes "./")), (Hno (bytes "../")), (Hno (bytes "/")) by (done || by apply existsb_not_in).
  cbn [orb]. rewrite split_last_app by done. rewrite <-(app_nil_l (req_to_string _)).
  cbn [app]. rewrite (parse_req_print version_req Hr). done.
Qed.

(** A formatted requirement starts with its operator. *)
Lemma req_head r :
  exists b l, req_to_string r = b :: l /\
    (b = chr "^" \/ b = chr "~" \/ b = chr "=" \/ b = chr ">" \/ b = chr "<" \/ b = chr "*").
Proof. destruct r as [[] v]; do 2 eexists; (split; [reflexivity|]); auto 10. Qed.

(** A requirement on its own: its operator is no name byte and starts no path. *)
Lemma parse_dep_requirement r :
  wf_req r = true -> chr "@" ∉ req_to_string r ->
  parse_dep_string (req_to_string r) = inr (Remote [] r).
Proof.
  intros Hr Hat. pose proof (parse_req_print r Hr) as Hp. destruct (req_head r) as (b & l & He & Hb).
  unfold parse_dep_string. rewrite split_last_None, Hp by done.
  rewrite He. unfold starts_with.
  assert (Hne : (chr "p" =? b) = false /\ (chr "." =? b) = false /\ (chr "/" =? b) = false
    /\ name_byte b = false) by (repeat (destruct Hb as [-> |Hb]; [done|]); by subst b).
  destruct Hne as (H1 & H2 & H3 & H4). cbn -[forallb] in H1, H2, H3 |- *. rewrite H1, H2, H3.
  cbn. by rewrite H4.
Qed.

(** A dependency specification written to the manifest, or formatted as
    text, is read back as itself, but for a bare source name, which the
    manifest carries as the table key. *)
Lemma dependency_round_trip d :
  dep_ok d = true ->
  parse_dep_string (dep_to_string d) = inr d /\ deserialize (serialize d) = inr (written d).
Proof.
  intros Hd. destruct d as [source r|path].
  - split; [by apply parse_dep_at|]. cbn [serialize written].
    assert (is_url [] = false) as Hnil by done.
    destruct (is_url source) eqn:Hu.
    + rewrite bool_decide_false by (intros ->; by rewrite Hnil in Hu). by apply parse_dep_at.
    + rewrite orb_true_r. cbn [deserialize]. cbn -[bytes] in Hd.
      rewrite !andb_true_iff, !negb_true_iff, existsb_not_in in Hd. destruct Hd as [[Hr Hat] _].
      by apply parse_dep_requirement.
  - split; [|done]. cbn [dep_to_string]. unfold parse_dep_string. by rewrite strip_prefix_app.
Qed.

Lemma dependency_round_trip_witness :
  parse_dep_string (bytes "github:kryos-lang/serde@^1.2.3")
  = inr (Remote (bytes "github:kryos-lang/serde") (mkReq Caret (new_version 1 2 3))).
Proof.
  apply (dependency_round_trip (Remote (bytes "github:kryos-lang/serde") (mkReq Caret (new_version 1 2 3)))).
  vm_compute. reflexivity.
Defined.
