(* ===== verification/Resolve.v ===== *)
(** Dependency resolution ([kryos-package/src/resolve.rs]).

    A [HashMap] that is iterated over is the list of its entries in the order of
    that iteration; one that is only looked up is a finite map. The manifests of
    path dependencies come from the file system: [read_manifest] gives, for a
    directory, the version text and the dependencies of its [kryos.toml], if it
    can be read. [resolve_recursive] carries a fuel; [S (size registry)] is
    enough, since the names being visited are distinct registry names. *)

From S2P Require Import Prelude Machine Utf8 Text Semver Manifest.

Inductive PackageSource := RemoteSource (source : str) | PathSource (path : str).

Record ResolvedPackage := mkResolved {
  rp_name : str; rp_version : Version; rp_source : PackageSource;
  rp_dependencies : list str; rp_checksum : option str
}.

Record AvailablePackage := mkAvailable {
  ap_name : str; ap_version : Version; ap_source : str;
  ap_dependencies : list (str * VersionReq); ap_checksum : option str
}.

Abbreviation PackageRegistry := (gmap (list Z) (list AvailablePackage)).

(** [PackageRegistry::add] *)
Definition add (registry : PackageRegistry) (pkg : AvailablePackage) : PackageRegistry :=
  <[ap_name pkg := default [] (registry !! ap_name pkg) ++ [pkg]]> registry.

(** [Iterator::max_by]: the last of the greatest elements. *)
Definition max_by {A} (cmp : A -> A -> comparison) (l : list A) : option A :=
  match l with
  | [] => None
  | x :: r => Some (foldl (fun x y => match cmp x y with Gt => x | _ => y end) x r)
  end.

Definition find_best_match (registry : PackageRegistry) (name : str) (req : VersionReq)
  : option AvailablePackage :=
  versions ← registry !! name;
  max_by (fun a b => version_cmp (ap_version a) (ap_version b))
    (List.filter (fun p => matches req (ap_version p)) versions).

Inductive ResolveError :=
| NoMatchingVersion (package requirement : str)
| VersionConflict (package req_a from_a req_b from_b : str)
| CircularDependency (cycle : list str)
| PackageNotFound (package : str).

Record State := mkState {
  resolved : gmap str ResolvedPackage;
  version_constraints : gmap str (VersionReq * str);
  visiting : gset str;
  visit_stack : list str
}.

(** A loop whose body can return an error. *)
Fixpoint for_each {A S E} (f : A -> S -> res (E + S)) (l : list A) (st : S) : res (E + S) :=
  match l with
  | [] => Done (inr st)
  | a :: l => r ← f a st; match r with inl e => Done (inl e) | inr st => for_each f l st end
  end.

(** [iter().position(|n| n == name)] *)
Definition position (name : str) (l : list str) : option nat := fst <$> list_find (eq name) l.

Definition insert_resolved (name : str) (p : ResolvedPackage) (st : State) : State :=
  mkState (<[name := p]> (resolved st)) (version_constraints st) (visiting st) (visit_stack st).

Definition enter (name : str) (st : State) : State :=
  mkState (resolved st) (version_constraints st) ({[name]} ∪ visiting st) (visit_stack st ++ [name]).

Definition leave (name : str) (st : State) : State :=
  mkState (resolved st) (version_constraints st) (visiting st ∖ {[name]}) (removelast (visit_stack st)).

Definition insert_constraint (name : str) (c : VersionReq * str) (st : State) : State :=
  mkState (resolved st) (<[name := c]> (version_constraints st)) (visiting st) (visit_stack st).

(** What is stored for the version chosen. *)
Definition resolved_of (name : str) (pkg : AvailablePackage) : ResolvedPackage :=
  mkResolved name (ap_version pkg) (RemoteSource (ap_source pkg)) (map fst (ap_dependencies pkg))
    (ap_checksum pkg).

Section Resolve.
Context (registry : PackageRegistry) (read_manifest : str -> option (str * list (str * DepSpec))).

Definition read_path_dep_info (path : str) : Version * list (str * DepSpec) :=
  match read_manifest path with
  | Some (text, dependencies) =>
      (match parse_version text with inr v => v | inl _ => new_version 0 0 0 end, dependencies)
  | None => (new_version 0 0 0, [])
  end.

Fixpoint resolve_recursive (fuel : nat) (name : str) (req : VersionReq) (required_by : str)
    (st : State) : res (ResolveError + State) :=
  match fuel with
  | O => OutOfFuel
  | S fuel =>
      if decide (name ∈ visiting st) then
        cycle_start ← of_option (position name (visit_stack st));
        Done (inl (CircularDependency (drop cycle_start (visit_stack st) ++ [name])))
      else
        match resolved st !! name with
        | Some existing =>
            if negb (matches req (rp_version existing)) then
              '(prev_req, prev_from) ← of_option (version_constraints st !! name);
              Done (inl (VersionConflict name (req_to_string prev_req) prev_from
                           (req_to_string req) required_by))
            else Done (inr st)
        | None =>
            match registry !! name with
            | None => Done (inl (PackageNotFound name))
            | Some _ =>
                match find_best_match registry name req with
                | None => Done (inl (NoMatchingVersion name (req_to_string req)))
                | Some pkg =>
                    r ← for_each (fun dep st => resolve_recursive fuel (fst dep) (snd dep) name st)
                          (ap_dependencies pkg) (enter name st);
                    Done (match r with
                          | inl e => inl e
                          | inr st =>
                              inr (insert_resolved name (resolved_of name pkg)
                                     (insert_constraint name (req, required_by) (leave name st)))
                          end)
                end
            end
        end
  end.

Definition resolve_fuel : nat := S (size registry).

Definition contains_key (name : str) (st : State) : bool := bool_decide (is_Some (resolved st !! name)).

(** A dependency of the path dependency [name]. *)
Definition resolve_transitive (name : str) (dep : str * DepSpec) (st : State) : res (ResolveError + State) :=
  match snd dep with
  | PathDep dep_path =>
      Done (inr (if contains_key (fst dep) st then st
                 else insert_resolved (fst dep)
                        (mkResolved (fst dep) (fst (read_path_dep_info dep_path))
                           (PathSource dep_path) [] None) st))
  | Remote _ version_req => resolve_recursive resolve_fuel (fst dep) version_req name st
  end.

Definition resolve_root (dep : str * DepSpec) (st : State) : res (ResolveError + State) :=
  match snd dep with
  | PathDep path =>
      if contains_key (fst dep) st then Done (inr st)
      else
        let '(version, transitive_deps) := read_path_dep_info path in
        for_each (resolve_transitive (fst dep)) transitive_deps
          (insert_resolved (fst dep)
             (mkResolved (fst dep) version (PathSource path) (map fst transitive_deps) None) st)
  | Remote _ version_req => resolve_recursive resolve_fuel (fst dep) version_req (bytes "root") st
  end.

Definition empty_state : State := mkState ∅ ∅ ∅ [].

(** The packages, in an order the program does not fix. *)
Definition resolve (root_deps : list (str * DepSpec)) : res (ResolveError + list ResolvedPackage) :=
  r ← for_each resolve_root root_deps empty_state;
  Done (match r with inl e => inl e | inr st => inr (map snd (map_to_list (resolved st))) end).
End Resolve.

(* ------------------------------------------------------------------ *)
(** ** A registry to try it on                                         *)
(* ------------------------------------------------------------------ *)

Definition caret (a b c : Z) : VersionReq := mkReq Caret (new_version a b c).

Definition release (name : string) (a b c : Z) (deps : list (string * VersionReq)) : AvailablePackage :=
  mkAvailable (bytes name) (new_version a b c) (bytes "registry")
    (map (fun d => (bytes (fst d), snd d)) deps) None.

Definition sample : PackageRegistry :=
  foldl add ∅ [release "http" 1 0 0 [("log", caret 1 0 0)]; release "log" 1 0 0 [];
               release "log" 1 4 0 []; release "log" 2 0 0 []]%string.

Definition remote (name : string) (req : VersionReq) : str * DepSpec := (bytes name, Remote [] req).

Definition chosen (r : res (ResolveError + list ResolvedPackage)) : res (ResolveError + list (str * Version)) :=
  fmap (fun r => match r with inl e => inl e | inr g => inr (map (fun p => (rp_name p, rp_version p)) g) end) r.

Example resolve_sample :
  chosen (resolve sample (fun _ => None) [remote "http" (caret 1 0 0)])
  = Done (inr [(bytes "http", new_version 1 0 0); (bytes "log", new_version 1 4 0)]).
Proof. vm_compute. reflexivity. Qed.

(* ------------------------------------------------------------------ *)
(** ** The best match                                                  *)
(* ------------------------------------------------------------------ *)

Lemma max_by_spec {A} (cmp : A -> A -> comparison) l x :
  (forall a, cmp a a = Eq) -> (forall a b, cmp b a = CompOpp (cmp a b)) ->
  (forall a b c, cmp a b <> Gt -> cmp b c <> Gt -> cmp a c <> Gt) ->
  max_by cmp l = Some x -> In x l /\ forall y, In y l -> cmp y x <> Gt.
Proof.
  intros Hrefl Hanti Htrans. destruct l as [|a l]; cbn; [done|]. intros [= <-].
  revert a. induction l as [|b l IH]; intros a; cbn.
  { split; [auto|]. intros y [<- |[]]. by rewrite Hrefl. }
  set (m := match cmp a b with Gt => a | _ => b end).
  assert (Hm : (m = a \/ m = b) /\ cmp a m <> Gt /\ cmp b m <> Gt).
  { unfold m. destruct (cmp a b) eqn:Hab; (split; [auto|]); rewrite ?Hab, ?Hrefl; [done..|].
    by rewrite Hanti, Hab. }
  destruct Hm as (Hin & Ha & Hb), (IH m) as [Hx Hall]. split.
  { destruct Hx as [<- |Hx]; [destruct Hin as [-> | ->]; auto|auto]. }
  intros y [<- |[<- |Hy]].
  - apply (Htrans _ m); [done|]. apply Hall. by left.
  - apply (Htrans _ m); [done|]. apply Hall. by left.
  - apply Hall. by right.
Qed.

(** [pkg] is of the highest version registered under [name] that [req] admits. *)
Definition best (registry : PackageRegistry) (name : str) (req : VersionReq) (pkg : AvailablePackage) : Prop :=
  exists versions, registry !! name = Some versions /\ In pkg versions
    /\ matches req (ap_version pkg) = true
    /\ forall q, In q versions -> matches req (ap_version q) = true ->
         version_cmp (ap_version q) (ap_version pkg) <> Gt.

Lemma find_best_match_in registry name req pkg :
  find_best_match registry name req = Some pkg -> best registry name req pkg.
Proof.
  unfold find_best_match, best. destruct (registry !! name) as [vs|]; [|done]. cbn [mbind option_bind].
  intros Hm. apply max_by_spec in Hm as [[Hin Hmatch]%filter_In Hall].
  - exists vs. split_and!; try done. intros q Hq Hmq. apply Hall. by apply filter_In.
  - intros a. by apply version_cmp_eq.
  - intros a b. apply version_cmp_antisym.
  - intros a b c. apply version_not_gt_trans.
Qed.

Lemma find_best_match_none registry name req :
  find_best_match registry name req = None ->
  forall versions q, registry !! name = Some versions -> In q versions ->
    matches req (ap_version q) = false.
Proof.
  unfold find_best_match. intros Hm vs q Hvs Hq. rewrite Hvs in Hm. cbn [mbind option_bind] in Hm.
  destruct (matches req (ap_version q)) eqn:Hmq; [|done].
  assert (Hin : In q (List.filter (fun p => matches req (ap_version p)) vs)) by (by apply filter_In).
  by destruct (List.filter _ vs).
Qed.

(** [find_best_match] gives a registered version that satisfies the
    requirement, with no higher version that does; it gives none only when no
    registered version of that name satisfies it. *)
Lemma find_best_match_spec registry name req :
  match find_best_match registry name req with
  | Some pkg => best registry name req pkg
  | None =>
      forall versions q, registry !! name = Some versions -> In q versions ->
        matches req (ap_version q) = false
  end.
Proof.
  destruct (find_best_match registry name req) as [pkg|] eqn:Hm.
  - by apply find_best_match_in.
  - by apply find_best_match_none.
Qed.

(* ------------------------------------------------------------------ *)
(** ** The invariant of a resolution                                   *)
(* ------------------------------------------------------------------ *)

Definition is_path (p : ResolvedPackage) : bool :=
  match rp_source p with PathSource _ => true | RemoteSource _ => false end.

Section Invariant.
(** [paths]: path dependencies may take part. *)
Context (registry : PackageRegistry) (paths : Prop).
Implicit Types (st : State) (name n d : str).

(** Some registered version of [a] depends on [b]. *)
Definition depends (a b : str) : Prop :=
  exists versions pkg, registry !! a = Some versions /\ In pkg versions
    /\ In b (map fst (ap_dependencies pkg)).

Definition chain (l : list str) : Prop :=
  forall i a b, l !! i = Some a -> l !! S i = Some b -> depends a b.

Definition satisfied (R : gmap str ResolvedPackage) (dep : str * VersionReq) : Prop :=
  exists q, R !! fst dep = Some q /\ matches (snd dep) (rp_version q) = true.

(** A package of the graph that comes from the registry. *)
Definition remote_entry (R : gmap str ResolvedPackage) n (req : VersionReq) p : Prop :=
  exists pkg, find_best_match registry n req = Some pkg /\ p = resolved_of n pkg
    /\ Forall (satisfied R) (ap_dependencies pkg).

Definition ranked (R : gmap str ResolvedPackage) : Prop :=
  exists rank : str -> nat, forall n p d,
    R !! n = Some p -> is_path p = false -> d ∈ rp_dependencies p -> (rank d < rank n)%nat.

Record inv st : Prop := {
  inv_visiting : visiting st = list_to_set (visit_stack st);
  inv_nodup : NoDup (visit_stack st);
  inv_known n : n ∈ visit_stack st -> is_Some (registry !! n);
  inv_chain : chain (visit_stack st);
  inv_fresh n : n ∈ visit_stack st -> resolved st !! n = None;
  inv_name n p : resolved st !! n = Some p -> rp_name p = n;
  inv_path n p : resolved st !! n = Some p -> is_path p = true -> paths;
  inv_remote n p : resolved st !! n = Some p -> is_path p = false ->
    exists c, version_constraints st !! n = Some c /\ remote_entry (resolved st) n (fst c) p;
  inv_constraint n c : version_constraints st !! n = Some c ->
    exists p, resolved st !! n = Some p /\ is_path p = false;
  inv_ranked : ranked (resolved st)
}.

Definition ext st st' : Prop :=
  resolved st ⊆ resolved st' /\ visit_stack st' = visit_stack st.

(** What an error says is true of the registry. *)
Definition error_ok (e : ResolveError) : Prop :=
  match e with
  | CircularDependency cycle =>
      (2 <= length cycle)%nat /\ head cycle = last cycle /\ chain cycle
  | PackageNotFound p => registry !! p = None
  | NoMatchingVersion p r =>
      exists req versions, r = req_to_string req /\ registry !! p = Some versions
        /\ forall q, In q versions -> matches req (ap_version q) = false
  | VersionConflict p req_a _ req_b _ =>
      exists prev req pkg, req_a = req_to_string prev /\ req_b = req_to_string req
        /\ find_best_match registry p prev = Some pkg /\ matches req (ap_version pkg) = false
  end.

Definition returns (P : State -> Prop) st (r : res (ResolveError + State)) : Prop :=
  match r with
  | Done (inr st') => inv st' /\ ext st st' /\ P st'
  | Done (inl e) => error_ok e
  | Panic => paths
  | OutOfFuel => False
  end.

Lemma ext_refl st : ext st st.
Proof. by split. Qed.

Lemma ext_trans st1 st2 st3 : ext st1 st2 -> ext st2 st3 -> ext st1 st3.
Proof. intros [H1 E1] [H2 E2]. split; [by etrans|congruence]. Qed.

Lemma satisfied_mono R R' dep : R ⊆ R' -> satisfied R dep -> satisfied R' dep.
Proof. intros HR (q & Hq & Hm). exists q. split; [by eapply lookup_weaken|done]. Qed.

Lemma remote_entry_mono R R' n req p : R ⊆ R' -> remote_entry R n req p -> remote_entry R' n req p.
Proof.
  intros HR (pkg & Hf & He & Hd). exists pkg. split_and!; [done..|].
  eapply Forall_impl; [exact Hd|]. intros dep. by apply satisfied_mono.
Qed.

Lemma returns_weaken (P Q : State -> Prop) st r :
  (forall st', P st' -> Q st') -> returns P st r -> returns Q st r.
Proof. intros HPQ. destruct r as [[e|st']| |]; cbn; naive_solver. Qed.

Lemma for_each_returns {A} (f : A -> State -> res (ResolveError + State)) (P : A -> State -> Prop) l st :
  inv st ->
  (forall a st1 st2, ext st1 st2 -> P a st1 -> P a st2) ->
  (forall a st', In a l -> inv st' -> ext st st' -> returns (P a) st' (f a st')) ->
  returns (fun st' => Forall (fun a => P a st') l) st (for_each f l st).
Proof.
  intros Hinv Hmono. revert st Hinv. induction l as [|a l IH]; intros st Hinv Hf; cbn [for_each].
  { split_and!; [done|apply ext_refl|constructor]. }
  pose proof (Hf a st (or_introl eq_refl) Hinv (ext_refl st)) as Ha.
  destruct (f a st) as [[e|st1]| |]; cbn [mbind res_bind]; [done| |done..].
  destruct Ha as (Hinv1 & Hext1 & HP). specialize (IH st1 Hinv1).
  assert (Hl : forall b st', In b l -> inv st' -> ext st1 st' -> returns (P b) st' (f b st'))
    by (intros b st' Hb Hi He; apply Hf; [by right|done|by eapply ext_trans]).
  specialize (IH Hl). destruct (for_each f l st1) as [[e|st2]| |]; cbn in *; [done| |done..].
  destruct IH as (Hinv2 & Hext2 & Hall). split_and!; [done|by eapply ext_trans|].
  constructor; [by eapply Hmono|done].
Qed.

(** *** Where the requirements come from *)

(** A package of the graph asks for [req] of [n]. *)
Definition asked (R : gmap str ResolvedPackage) n (req : VersionReq) : Prop :=
  exists m r pkg, R !! m = Some (resolved_of m pkg) /\ find_best_match registry m r = Some pkg
    /\ In (n, req) (ap_dependencies pkg).
(** What is new from the registry is the best match for a requirement of [W], or of
    another package of the graph. *)
Definition grown (W : str -> VersionReq -> Prop) st st' : Prop :=
  forall n p, resolved st' !! n = Some p -> is_path p = false -> resolved st !! n = None ->
    exists req, remote_entry (resolved st') n req p /\ (W n req \/ asked (resolved st') n req).

Lemma asked_mono R R' n req : R ⊆ R' -> asked R n req -> asked R' n req.
Proof. intros HR (m & r & pkg & Hm & Hrest). exists m, r, pkg. split; [by eapply lookup_weaken|done]. Qed.
Lemma grown_none W st st' : resolved st' ⊆ resolved st -> grown W st st'.
Proof. intros Hsub n p Hp _ Hn. rewrite (lookup_weaken _ _ _ _ Hp Hsub) in Hn. done. Qed.
Lemma grown_trans (W W1 W2 : str -> VersionReq -> Prop) st st1 st2 :
  (forall n req, W1 n req -> W n req) -> (forall n req, W2 n req -> W n req) -> ext st1 st2 ->
  grown W1 st st1 -> grown W2 st1 st2 -> grown W st st2.
Proof.
  intros HW1 HW2 [Hsub _] H1 H2 n p Hp Hrem Hn. destruct (resolved st1 !! n) as [q|] eqn:Hq.
  - pose proof (lookup_weaken _ _ _ _ Hq Hsub) as Hq2. rewrite Hp in Hq2. injection Hq2 as <-.
    destruct (H1 n p Hq Hrem Hn) as (req & He & Ha). exists req. split; [by eapply remote_entry_mono|].
    destruct Ha as [Ha|Ha]; [left; by apply HW1|right; by eapply asked_mono].
  - destruct (H2 n p Hp Hrem Hq) as (req & He & Ha). exists req. split; [done|].
    destruct Ha as [Ha|Ha]; [left; by apply HW2|by right].
Qed.

Lemma for_each_grown {A} (f : A -> State -> res (ResolveError + State)) (W : A -> str -> VersionReq -> Prop) l st st' :
  inv st ->
  (forall a st1, In a l -> inv st1 -> ext st st1 -> returns (fun st2 => grown (W a) st1 st2) st1 (f a st1)) ->
  for_each f l st = Done (inr st') -> grown (fun n req => exists a, In a l /\ W a n req) st st'.
Proof.
  revert st. induction l as [|a l IH]; intros st Hinv Hf E; cbn [for_each] in E.
  { injection E as <-. by apply grown_none. }
  pose proof (Hf a st (or_introl eq_refl) Hinv (ext_refl st)) as Ha.
  destruct (f a st) as [[e|st1]| |]; cbn [mbind res_bind] in E; [done| |done..].
  destruct Ha as (Hinv1 & Hext1 & Hg).
  assert (Hl : forall b st2, In b l -> inv st2 -> ext st1 st2 -> returns (fun st3 => grown (W b) st2 st3) st2 (f b st2)).
  { intros b st2 Hb Hi He. apply Hf; [by right|done|by eapply ext_trans]. }
  assert (Hext : ext st1 st').
  { pose proof (for_each_returns f (fun _ _ => True) l st1 Hinv1 (fun _ _ _ _ _ => I)
      (fun b st2 Hb Hi He => returns_weaken _ _ _ _ (fun _ _ => I) (Hl b st2 Hb Hi He))) as H.
    rewrite E in H. apply H. }
  eapply (grown_trans _ (W a) (fun n req => exists b, In b l /\ W b n req)); [| |exact Hext|exact Hg|by apply IH].
  - intros n req Hw. exists a. split; [by left|done].
  - intros n req (b & Hb & Hw). exists b. split; [by right|done].
Qed.

(** *** One package *)

Lemma chain_snoc l b : chain l -> (forall a, last l = Some a -> depends a b) -> chain (l ++ [b]).
Proof.
  intros Hl Hb i x y Hx Hy. destruct (decide (S i < length l)%nat) as [Hlt|Hge].
  - rewrite lookup_app_l in Hx, Hy by lia. by eapply Hl.
  - apply lookup_lt_Some in Hy as Hlen. rewrite length_app in Hlen. cbn in Hlen.
    rewrite lookup_app_r in Hy by lia. replace (S i - length l)%nat with 0%nat in Hy by lia.
    injection Hy as <-. rewrite lookup_app_l in Hx by lia. apply Hb.
    rewrite last_lookup. by replace (pred (length l)) with i by lia.
Qed.

Lemma chain_drop k l : chain l -> chain (drop k l).
Proof.
  intros Hl i a b. rewrite !lookup_drop, Nat.add_succ_r. apply Hl.
Qed.

(** A name met again while it is being visited closes a cycle. *)
Lemma cycle_ok st name :
  inv st -> name ∈ visiting st -> (forall a, last (visit_stack st) = Some a -> depends a name) ->
  exists i, position name (visit_stack st) = Some i
    /\ error_ok (CircularDependency (drop i (visit_stack st) ++ [name])).
Proof.
  intros Hinv Hin Hlast. rewrite (inv_visiting _ Hinv), elem_of_list_to_set in Hin.
  destruct (list_find_elem_of (eq name) _ name Hin eq_refl) as [[i x] Hf].
  exists i. unfold position. rewrite Hf. split; [done|].
  apply list_find_Some in Hf as (Hi & <- & _). pose proof (lookup_lt_Some _ _ _ Hi) as Hlt.
  cbn. split_and!.
  - rewrite length_app, length_drop. cbn. lia.
  - rewrite last_snoc. destruct (drop i (visit_stack st)) as [|y l] eqn:Hd.
    + apply (f_equal length) in Hd. rewrite length_drop in Hd. cbn in Hd. lia.
    + cbn. rewrite <-Hi, <-(Nat.add_0_r i), <-lookup_drop, Hd. done.
  - apply chain_snoc; [apply chain_drop, Hinv|]. intros a Ha. apply Hlast.
    rewrite last_lookup, length_drop, lookup_drop in Ha. rewrite last_lookup.
    by replace (pred (length (visit_stack st))) with (i + pred (length (visit_stack st) - i))%nat by lia.
Qed.

Lemma inv_enter st name :
  inv st -> name ∉ visiting st -> resolved st !! name = None -> is_Some (registry !! name) ->
  (forall a, last (visit_stack st) = Some a -> depends a name) ->
  inv (enter name st).
Proof.
  intros Hinv Hni Hnone Hreg Hlast.
  rewrite (inv_visiting _ Hinv), elem_of_list_to_set in Hni.
  split; cbn; try apply Hinv.
  - rewrite (inv_visiting _ Hinv). set_solver.
  - apply NoDup_app. split_and!; [apply Hinv|set_solver|apply NoDup_singleton].
  - intros n [Hn| ->%list_elem_of_singleton]%elem_of_app; [by apply Hinv|done].
  - apply chain_snoc; [apply Hinv|done].
  - intros n [Hn| ->%list_elem_of_singleton]%elem_of_app; [by apply Hinv|done].
Qed.

Lemma stack_length st : inv st -> (length (visit_stack st) <= size registry)%nat.
Proof.
  intros Hinv. rewrite <-(size_list_to_set (C := gset str)) by apply Hinv.
  rewrite <-size_dom. apply subseteq_size. intros n Hn%elem_of_list_to_set.
  apply elem_of_dom. by apply Hinv.
Qed.

(** A fresh package of the registry ranks above its dependencies. *)
Lemma ranked_insert R name p :
  ranked R -> R !! name = None ->
  (forall n q d, R !! n = Some q -> is_path q = false -> d ∈ rp_dependencies q -> is_Some (R !! d)) ->
  (forall d, d ∈ rp_dependencies p -> is_Some (R !! d)) ->
  ranked (<[name := p]> R).
Proof.
  intros [rank Hrank] Hfresh Hclosed Hdeps.
  exists (fun x => if decide (x = name) then S (max_list (map rank (rp_dependencies p))) else rank x).
  intros n q d. rewrite lookup_insert_Some. intros [[<- <-]|[Hne Hn]] Hrem Hd.
  - rewrite (decide_True (P := name = name)) by done. rewrite decide_False.
    + apply Nat.lt_succ_r, max_list_elem_of_le, list_elem_of_In, in_map. by apply list_elem_of_In.
    + intros ->. apply Hdeps in Hd as [? ?]. congruence.
  - rewrite (decide_False (P := n = name)) by congruence. rewrite decide_False; [by eapply Hrank|].
    intros ->. destruct (Hclosed n q name Hn Hrem Hd). congruence.
Qed.

Lemma remote_dependencies st n p d :
  inv st -> resolved st !! n = Some p -> is_path p = false -> d ∈ rp_dependencies p ->
  is_Some (resolved st !! d).
Proof.
  intros Hinv Hn Hp Hd. destruct (inv_remote _ Hinv n p Hn Hp) as (c & _ & pkg & _ & -> & Hall).
  cbn in Hd. apply list_elem_of_fmap in Hd as (dep & -> & Hdep).
  rewrite Forall_forall in Hall. destruct (Hall dep Hdep) as (q & Hq & _). by eexists.
Qed.

(** The package is stored once its dependencies are. *)
Lemma inv_finish st st' name req required_by pkg :
  inv st -> name ∉ visit_stack st -> inv st' -> visit_stack st' = visit_stack st ++ [name] ->
  find_best_match registry name req = Some pkg ->
  Forall (satisfied (resolved st')) (ap_dependencies pkg) ->
  let stored := insert_resolved name (resolved_of name pkg)
                  (insert_constraint name (req, required_by) (leave name st')) in
  inv stored /\ resolved st' ⊆ resolved stored /\ visit_stack stored = visit_stack st.
Proof.
  intros Hinv Hni Hinv' Hstack Hbest Hdeps stored.
  assert (Hnone : resolved st' !! name = None).
  { apply (inv_fresh _ Hinv'). rewrite Hstack. set_solver. }
  assert (Hsub : resolved st' ⊆ resolved stored) by (by apply insert_subseteq).
  assert (Hvs : visit_stack stored = visit_stack st) by (cbn; by rewrite Hstack, removelast_last).
  split; [|done]. split; try rewrite Hvs; try apply Hinv.
  - cbn. rewrite (inv_visiting _ Hinv'), Hstack, list_to_set_app_L. cbn.
    assert (name ∉@{gset str} list_to_set (visit_stack st)) by (by rewrite elem_of_list_to_set).
    set_solver.
  - intros n Hn. cbn. rewrite lookup_insert_ne by (by intros ->).
    apply (inv_fresh _ Hinv'). rewrite Hstack. set_solver.
  - cbn. intros n p [[<- <-]|[_ Hp]]%lookup_insert_Some; [done|by apply Hinv'].
  - cbn. intros n p [[<- <-]|[_ Hp]]%lookup_insert_Some; [done|by eapply Hinv'].
  - cbn [resolved stored insert_resolved insert_constraint version_constraints].
    intros n p [[<- <-]|[Hne Hp]]%lookup_insert_Some Hrem.
    + exists (req, required_by). rewrite lookup_insert_eq. split; [done|].
      exists pkg. split_and!; [done..|]. eapply Forall_impl; [exact Hdeps|].
      intros dep. by apply satisfied_mono.
    + destruct (inv_remote _ Hinv' n p Hp Hrem) as (c & Hc & Hentry).
      exists c. rewrite lookup_insert_ne by done. split; [done|]. by eapply remote_entry_mono.
  - cbn. intros n c [[<- <-]|[Hne Hc]]%lookup_insert_Some.
    + exists (resolved_of name pkg). by rewrite lookup_insert_eq.
    + destruct (inv_constraint _ Hinv' n c Hc) as (p & Hp & Hrem). exists p.
      by rewrite lookup_insert_ne.
  - cbn. apply ranked_insert; [apply Hinv'|done| |].
    + intros n q d. by apply remote_dependencies.
    + intros d (dep & -> & Hdep)%list_elem_of_fmap. rewrite Forall_forall in Hdeps.
      destruct (Hdeps dep Hdep) as (q & Hq & _). by eexists.
Qed.

(** What is new then: the package itself, and what its dependencies asked for. *)
Lemma grown_finish st st' name req required_by pkg :
  find_best_match registry name req = Some pkg -> resolved st' !! name = None ->
  Forall (satisfied (resolved st')) (ap_dependencies pkg) ->
  grown (fun n r => exists dep, In dep (ap_dependencies pkg) /\ n = fst dep /\ r = snd dep) (enter name st) st' ->
  grown (fun n r => n = name /\ r = req) st
    (insert_resolved name (resolved_of name pkg) (insert_constraint name (req, required_by) (leave name st'))).
Proof.
  intros Hbest Hnone Hdeps Hgrown n p. cbn. assert (Hsub : resolved st' ⊆ <[name := resolved_of name pkg]> (resolved st'))
    by (by apply insert_subseteq).
  intros [[<- <-]|[Hne Hp]]%lookup_insert_Some Hrem Hn.
  { exists req. split; [|by left]. exists pkg. split_and!; [done..|].
    eapply Forall_impl; [exact Hdeps|]. intros dep. by apply satisfied_mono. }
  destruct (Hgrown n p Hp Hrem Hn) as (req' & Hentry & Ha). exists req'.
  split; [by eapply remote_entry_mono|]. right. destruct Ha as [(dep & Hdep & -> & ->)|Ha].
  - exists name, req, pkg. split; [apply lookup_insert_eq|]. by destruct dep.
  - by eapply asked_mono.
Qed.

Lemma satisfied_ext dep st1 st2 :
  ext st1 st2 -> satisfied (resolved st1) dep -> satisfied (resolved st2) dep.
Proof. intros [Hsub _]. by apply satisfied_mono. Qed.

Lemma conflict_ok st name req from p :
  inv st -> resolved st !! name = Some p -> matches req (rp_version p) = false ->
  returns (fun _ => False) st
    ('(prev_req, prev_from) ← of_option (version_constraints st !! name);
     Done (inl (VersionConflict name (req_to_string prev_req) prev_from (req_to_string req) from))).
Proof.
  intros Hinv Hp Hm. destruct (version_constraints st !! name) as [[prev prev_from]|] eqn:Hc; cbn.
  - destruct (inv_constraint _ Hinv name _ Hc) as (q & Hq & Hrem). rewrite Hp in Hq. injection Hq as <-.
    destruct (inv_remote _ Hinv name p Hp Hrem) as (c & Hc' & pkg & Hbest & -> & _).
    rewrite Hc in Hc'. injection Hc' as <-. by exists prev, req, pkg.
  - destruct (is_path p) eqn:Hpath; [by eapply (inv_path _ Hinv)|].
    destruct (inv_remote _ Hinv name p Hp Hpath) as (c & Hc' & _). congruence.
Qed.

Lemma resolve_recursive_returns fuel name req required_by st :
  (size registry < fuel + length (visit_stack st))%nat -> inv st ->
  (forall a, last (visit_stack st) = Some a -> depends a name) ->
  returns (fun st' => satisfied (resolved st') (name, req)
      /\ grown (fun n r => n = name /\ r = req) st st') st
    (resolve_recursive registry fuel name req required_by st).
Proof.
  revert name req required_by st. induction fuel as [|fuel IH];
    intros name req required_by st Hfuel Hinv Hlast; [pose proof (stack_length st Hinv); lia|].
  cbn [resolve_recursive]. destruct (decide (name ∈ visiting st)) as [Hin|Hni].
  { destruct (cycle_ok st name Hinv Hin Hlast) as (i & -> & Hok). exact Hok. }
  destruct (resolved st !! name) as [p|] eqn:Hres.
  { destruct (matches req (rp_version p)) eqn:Hm; cbn [negb].
    - split_and!; [done|apply ext_refl|by exists p|by apply grown_none].
    - eapply returns_weaken; [|by apply (conflict_ok st name req required_by p)]. done. }
  destruct (registry !! name) as [vs|] eqn:Hreg; [|done].
  destruct (find_best_match registry name req) as [pkg|] eqn:Hbest.
  2: { exists req, vs. split_and!; [done..|]. intros q Hq.
       by eapply find_best_match_none. }
  assert (Hinv1 : inv (enter name st)) by (apply inv_enter; eauto).
  pose proof (find_best_match_in _ _ _ _ Hbest) as (vs' & Hvs' & Hpkg & Hmatch & _).
  set (f := fun dep : str * VersionReq => resolve_recursive registry fuel (fst dep) (snd dep) name).
  pose proof (for_each_returns f
    (fun dep st' => satisfied (resolved st') dep) (ap_dependencies pkg) (enter name st) Hinv1
    (fun dep st1 st2 => satisfied_ext dep st1 st2)) as Hloop.
  assert (Hbody : forall dep st', In dep (ap_dependencies pkg) -> inv st' -> ext (enter name st) st' ->
    returns (fun st2 => satisfied (resolved st2) dep /\ grown (fun n r => n = fst dep /\ r = snd dep) st' st2) st'
      (f dep st')).
  { intros [d r] st' Hd Hinv' [_ Hstack]. unfold f. cbn [fst snd]. apply IH; [|done|].
    - rewrite Hstack. cbn. rewrite length_app. cbn. lia.
    - rewrite Hstack. cbn. intros a. rewrite last_snoc. intros [= <-].
      exists vs', pkg. split_and!; [done..|]. apply (in_map fst _ _ Hd). }
  specialize (Hloop (fun dep st' Hd Hi He => returns_weaken _ _ _ _ (fun _ H => proj1 H) (Hbody dep st' Hd Hi He))).
  pose proof (fun st' => for_each_grown f (fun dep n r => n = fst dep /\ r = snd dep) (ap_dependencies pkg)
    (enter name st) st' Hinv1
    (fun dep st' Hd Hi He => returns_weaken _ _ _ _ (fun _ H => proj2 H) (Hbody dep st' Hd Hi He))) as Hgrown.
  clear Hbody. fold f.
  destruct (for_each _ _ _) as [[e|st']| |]; cbn [mbind res_bind returns] in *; [done| |done..].
  specialize (Hgrown st' eq_refl).
  destruct Hloop as (Hinv' & [Hsub Hstack] & Hdeps). cbn in Hsub, Hstack.
  rewrite (inv_visiting _ Hinv), elem_of_list_to_set in Hni.
  destruct (inv_finish st st' name req required_by pkg Hinv Hni Hinv' Hstack Hbest Hdeps)
    as (Hfin & Hsub' & Hvs).
  split; [exact Hfin|]. split; [split; [by etrans|exact Hvs]|].
  split; [exists (resolved_of name pkg); cbn; by rewrite lookup_insert_eq|].
  eapply grown_finish; [done| |done|by apply Hgrown].
  apply (inv_fresh _ Hinv'). rewrite Hstack. set_solver.
Qed.

(** *** The roots *)

Context (read_manifest : str -> option (str * list (str * DepSpec))).

Lemma insert_path st name p :
  paths -> inv st -> visit_stack st = [] -> resolved st !! name = None ->
  rp_name p = name -> is_path p = true ->
  inv (insert_resolved name p st) /\ ext st (insert_resolved name p st).
Proof.
  intros Hpaths Hinv Hstack Hnone Hname Hpath.
  assert (Hsub : resolved st ⊆ resolved (insert_resolved name p st)) by (by apply insert_subseteq).
  split; [|by split]. split; cbn; try apply Hinv; try done.
  - intros n. rewrite Hstack. set_solver.
  - intros n q [[<- <-]|[_ Hq]]%lookup_insert_Some; [done|by apply Hinv].
  - intros n q [[<- <-]|[_ Hq]]%lookup_insert_Some Hrem; [congruence|].
    destruct (inv_remote _ Hinv n q Hq Hrem) as (c & Hc & Hentry).
    exists c. split; [done|]. by eapply remote_entry_mono.
  - intros n c Hc. destruct (inv_constraint _ Hinv n c Hc) as (q & Hq & Hrem). exists q.
    split; [|done]. rewrite lookup_insert_ne; [done|]. intros ->. congruence.
  - destruct (inv_ranked _ Hinv) as [rank Hrank]. exists rank.
    intros n q d [[<- <-]|[_ Hq]]%lookup_insert_Some Hrem; [congruence|by eapply Hrank].
Qed.

Lemma grown_path W st name p : is_path p = true -> grown W st (insert_resolved name p st).
Proof.
  intros Hp n q Hlook. cbn in Hlook. revert Hlook.
  intros [[<- <-]|[_ Hq]]%lookup_insert_Some Hrem Hn; congruence.
Qed.

Definition root_ok (dep : str * DepSpec) st : Prop :=
  match snd dep with
  | Remote _ req => satisfied (resolved st) (fst dep, req)
  | PathDep _ => is_Some (resolved st !! fst dep)
  end.

Lemma root_ok_ext dep st1 st2 : ext st1 st2 -> root_ok dep st1 -> root_ok dep st2.
Proof.
  intros Hext. unfold root_ok. destruct (snd dep); [by apply satisfied_ext|].
  intros [p Hp]. exists p. by eapply lookup_weaken; [|apply Hext].
Qed.

Lemma contains_key_spec name st :
  reflect (is_Some (resolved st !! name)) (contains_key name st).
Proof. apply bool_decide_reflect. Qed.

(** The requirements that a root states: its own, or those of its manifest. *)
Definition root_wants (dep : str * DepSpec) n (req : VersionReq) : Prop :=
  match snd dep with
  | Remote _ r => n = fst dep /\ req = r
  | PathDep path => exists source, In (n, Remote source req) (snd (read_path_dep_info read_manifest path))
  end.
Definition transitive_wants (dep : str * DepSpec) n (req : VersionReq) : Prop :=
  exists source, dep = (n, Remote source req).

Lemma remote_root_returns name req required_by st :
  inv st -> visit_stack st = [] ->
  returns (fun st' => satisfied (resolved st') (name, req) /\ grown (fun n r => n = name /\ r = req) st st') st
    (resolve_recursive registry (resolve_fuel registry) name req required_by st).
Proof.
  intros Hinv Hstack. apply resolve_recursive_returns; [unfold resolve_fuel; lia|done|].
  by rewrite Hstack.
Qed.

Lemma transitive_returns name dep st :
  paths -> inv st -> visit_stack st = [] ->
  returns (fun st' => root_ok dep st' /\ grown (transitive_wants dep) st st') st
    (resolve_transitive registry read_manifest name dep st).
Proof.
  intros Hpaths Hinv Hstack. unfold resolve_transitive, root_ok.
  destruct dep as [n [src req|path]]; cbn [fst snd].
  { eapply returns_weaken; [|by apply remote_root_returns]. intros st' [Hs Hg]. split; [done|].
    intros m p Hp Hrem Hm. destruct (Hg m p Hp Hrem Hm) as (req' & He & [[-> ->]|Ha]);
      eexists; (split; [exact He|]); [left; by eexists|by right]. }
  destruct (contains_key_spec n st) as [Hin|Hni]; cbn [returns].
  { split_and!; [done|apply ext_refl|done|by apply grown_none]. }
  apply eq_None_not_Some in Hni. destruct (insert_path st n (mkResolved n
    (fst (read_path_dep_info read_manifest path)) (PathSource path) [] None)); [done..|].
  split_and!; [done..| |]; [cbn; rewrite lookup_insert_eq; by eexists|by apply grown_path].
Qed.

Lemma root_returns dep st :
  (forall path, snd dep = PathDep path -> paths) -> inv st -> visit_stack st = [] ->
  returns (fun st' => root_ok dep st' /\ grown (root_wants dep) st st') st
    (resolve_root registry read_manifest dep st).
Proof.
  intros Hpaths Hinv Hstack. unfold resolve_root.
  destruct dep as [n [src req|path]]; cbn [fst snd] in *; [by apply remote_root_returns|].
  specialize (Hpaths path eq_refl). destruct (contains_key_spec n st) as [Hin|Hni]; cbn [returns].
  { split_and!; [done|apply ext_refl|done|by apply grown_none]. }
  apply eq_None_not_Some in Hni. unfold root_wants. cbn [fst snd].
  destruct (read_path_dep_info read_manifest path) as [v deps]. cbn [snd].
  edestruct (insert_path st n (mkResolved n v (PathSource path) (map fst deps) None)) as [Hinv1 Hext1];
    [done..|].
  pose proof (for_each_returns (resolve_transitive registry read_manifest n) root_ok deps _ Hinv1
    root_ok_ext) as Hloop.
  set (st1 := insert_resolved n _ st) in *.
  assert (Hbody : forall a st', inv st' -> ext st1 st' ->
    returns (fun st2 => root_ok a st2 /\ grown (transitive_wants a) st' st2) st'
      (resolve_transitive registry read_manifest n a st')).
  { intros a st' Hi [_ Hs]. apply transitive_returns; [done|done|by rewrite Hs]. }
  specialize (Hloop (fun a st' _ Hi He => returns_weaken _ _ _ _ (fun _ H => proj1 H) (Hbody a st' Hi He))).
  pose proof (fun st' => for_each_grown (resolve_transitive registry read_manifest n) transitive_wants deps st1 st' Hinv1
    (fun a st' _ Hi He => returns_weaken _ _ _ _ (fun _ H => proj2 H) (Hbody a st' Hi He))) as Hgrown.
  destruct (for_each _ _ _) as [[e|st']| |]; cbn [returns] in *; try done.
  destruct Hloop as (Hinv' & Hext' & _). split_and!; [done|by eapply ext_trans| |].
  - exists (mkResolved n v (PathSource path) (map fst deps) None).
    eapply lookup_weaken; [|apply Hext']. cbn. apply lookup_insert_eq.
  - eapply (grown_trans _ (fun _ _ => False)); [done| |exact Hext'|by apply grown_path|by apply Hgrown].
    intros m req (a & Ha & source & ->). by exists source.
Qed.

Lemma inv_empty : inv empty_state.
Proof.
  split; cbn; try done; try (intros; set_solver).
  - constructor.
  - exists (fun _ => O). intros n p d. by rewrite lookup_empty.
Qed.

Lemma roots_return roots :
  (forall name path, In (name, PathDep path) roots -> paths) ->
  returns (fun st' => Forall (fun dep => root_ok dep st') roots
      /\ grown (fun n req => exists dep, In dep roots /\ root_wants dep n req) empty_state st') empty_state
    (for_each (resolve_root registry read_manifest) roots empty_state).
Proof.
  intros Hpaths.
  assert (Hbody : forall dep st', In dep roots -> inv st' -> ext empty_state st' ->
    returns (fun st2 => root_ok dep st2 /\ grown (root_wants dep) st' st2) st' (resolve_root registry read_manifest dep st')).
  { intros [n d] st' Hin Hinv [_ Hstack]. apply root_returns; [|done|done].
    intros path [= ->]. by eapply Hpaths. }
  pose proof (for_each_returns _ root_ok roots empty_state inv_empty root_ok_ext
    (fun dep st' Hd Hi He => returns_weaken _ _ _ _ (fun _ H => proj1 H) (Hbody dep st' Hd Hi He))) as Hloop.
  pose proof (fun st' => for_each_grown _ root_wants roots empty_state st' inv_empty
    (fun dep st' Hd Hi He => returns_weaken _ _ _ _ (fun _ H => proj2 H) (Hbody dep st' Hd Hi He))) as Hgrown.
  destruct (for_each _ _ _) as [[e|st']| |]; cbn [returns] in *; try done.
  destruct Hloop as (Hinv' & Hext' & Hok). split_and!; try done. by apply Hgrown.
Qed.
End Invariant.

(** C20: resolution ends within its fuel and, unless a path dependency is among
    the roots, without a panic; an error tells the truth about the registry: the
    cycle is one of its dependency graph, the missing package or version is
    missing, the conflicting requirement rejects the version chosen before. *)
Theorem resolve_outcome registry read_manifest roots :
  match resolve registry read_manifest roots with
  | Done (inl e) => error_ok registry e
  | Done (inr _) => True
  | Panic => exists name path, In (name, PathDep path) roots
  | OutOfFuel => False
  end.
Proof.
  pose proof (roots_return registry (exists name path, In (name, PathDep path) roots) read_manifest roots
    (fun name path H => ex_intro _ name (ex_intro _ path H))) as H.
  unfold resolve. by destruct (for_each _ roots empty_state) as [[e|st]| |].
Qed.

Definition provided (graph : list ResolvedPackage) (dep : str * VersionReq) : Prop :=
  exists q, In q graph /\ rp_name q = fst dep /\ matches (snd dep) (rp_version q) = true.

Lemma in_graph registry paths st p :
  inv registry paths st ->
  In p (map snd (map_to_list (resolved st))) <-> resolved st !! rp_name p = Some p.
Proof.
  intros Hinv. rewrite in_map_iff. split.
  - intros ([n q] & <- & Hin). apply list_elem_of_In, elem_of_map_to_list in Hin.
    cbn. by rewrite (inv_name _ _ _ Hinv n q Hin).
  - intros Hp. exists (rp_name p, p). split; [done|]. by apply list_elem_of_In, elem_of_map_to_list.
Qed.

Lemma satisfied_provided registry paths st dep :
  inv registry paths st -> satisfied (resolved st) dep ->
  provided (map snd (map_to_list (resolved st))) dep.
Proof.
  intros Hinv (q & Hq & Hm). pose proof (inv_name _ _ _ Hinv _ _ Hq) as Hn. exists q.
  split_and!; [|done|done]. apply (in_graph _ _ _ _ Hinv). by rewrite Hn.
Qed.

Lemma graph_names registry paths st :
  inv registry paths st ->
  map rp_name (map snd (map_to_list (resolved st))) = (map_to_list (resolved st)).*1.
Proof.
  intros Hinv. rewrite map_map. apply map_ext_in. intros [n p] Hin.
  apply list_elem_of_In, elem_of_map_to_list in Hin. cbn. by apply (inv_name _ _ _ Hinv).
Qed.

(** [req] is required of [n]: by a remote root, by the manifest of a path dependency among
    the roots, or by a package of the graph that was chosen from the registry. *)
Definition required (registry : PackageRegistry) (read_manifest : str -> option (str * list (str * DepSpec)))
    (roots : list (str * DepSpec)) (graph : list ResolvedPackage) (n : str) (req : VersionReq) : Prop :=
  (exists dep, In dep roots /\ root_wants read_manifest dep n req)
  \/ exists m r pkg, In (resolved_of m pkg) graph /\ best registry m r pkg
       /\ In (n, req) (ap_dependencies pkg).

(** C18: a resolved graph is a solution: names are unique; the requirement of
    every remote root, and of every dependency of a package taken from the
    registry, is met by a package of the graph; each package from the registry
    is of the highest version registered that a requirement admits which a root,
    the manifest of a path root or another package of the graph states; and the dependencies of registry
    packages form no cycle. *)
Theorem resolve_sound registry read_manifest roots graph :
  resolve registry read_manifest roots = Done (inr graph) ->
  NoDup (map rp_name graph)
  /\ (forall name source req, In (name, Remote source req) roots -> provided graph (name, req))
  /\ (forall p, In p graph -> is_path p = false ->
        exists pkg req, best registry (rp_name p) req pkg
          /\ required registry read_manifest roots graph (rp_name p) req
          /\ p = resolved_of (rp_name p) pkg /\ Forall (provided graph) (ap_dependencies pkg))
  /\ (exists rank : str -> nat, forall p d, In p graph -> is_path p = false ->
        d ∈ rp_dependencies p -> (rank d < rank (rp_name p))%nat).
Proof.
  pose proof (roots_return registry True read_manifest roots (fun _ _ _ => I)) as H.
  unfold resolve. destruct (for_each _ roots empty_state) as [[e|st]| |]; cbn; [done| |done..].
  intros [= <-]. destruct H as (Hinv & _ & Hroots & Hgrown). rewrite Forall_forall in Hroots. split_and!.
  - rewrite (graph_names _ _ _ Hinv). apply NoDup_fst_map_to_list.
  - intros name source req Hin%list_elem_of_In%Hroots. by eapply satisfied_provided.
  - intros p Hp Hrem. apply (in_graph _ _ _ _ Hinv) in Hp.
    destruct (Hgrown (rp_name p) p Hp Hrem) as (req & (pkg & Hbest & He & Hdeps) & Ha); [by apply lookup_empty|].
    exists pkg, req. split_and!; [by apply find_best_match_in| |done|].
    + destruct Ha as [Ha|(m & r & q & Hq & Hm & Hin)]; [by left|right].
      exists m, r, q. split_and!; [by apply (in_graph _ _ _ _ Hinv)|by apply find_best_match_in|done].
    + eapply Forall_impl; [exact Hdeps|]. intros dep. by eapply satisfied_provided.
  - destruct (inv_ranked _ _ _ Hinv) as [rank Hrank]. exists rank. intros p d Hp.
    apply (in_graph _ _ _ _ Hinv) in Hp. by apply Hrank.
Qed.

Lemma resolve_sound_witness :
  exists graph, resolve sample (fun _ => None) [remote "http" (caret 1 0 0)] = Done (inr graph)
    /\ provided graph (bytes "http", caret 1 0 0).
Proof.
  eexists. split; [vm_compute; reflexivity|].
  eapply (resolve_sound sample (fun _ => None) [remote "http" (caret 1 0 0)]);
    [vm_compute; reflexivity|by left].
Defined.

(** Resolution depends on the order in which the root table happens to be
    iterated over: the same two requirements have a solution in one order and
    are reported as a conflict in the other. *)
Lemma resolve_order_dependent :
  let http := remote "http" (caret 1 0 0) in
  let log := remote "log" (mkReq Exact (new_version 1 0 0)) in
  chosen (resolve sample (fun _ => None) [log; http])
    = Done (inr [(bytes "http", new_version 1 0 0); (bytes "log", new_version 1 0 0)])
  /\ chosen (resolve sample (fun _ => None) [http; log])
     = Done (inl (VersionConflict (bytes "log") (bytes "^1.0.0") (bytes "http")
                    (bytes "=1.0.0") (bytes "root"))).
Proof. split; vm_compute; reflexivity. Qed.

(** A registry requirement on the name of a path dependency of another
    version panics: the constraint the message would quote was never stored. *)
Lemma resolve_path_conflict_panics :
  resolve sample (fun _ => Some (bytes "0.1.0", []))
    [(bytes "log", PathDep (bytes "../log")); remote "http" (caret 1 0 0)] = Panic.
Proof. vm_compute. reflexivity. Qed.
