(* ===== verification/Lock.v ===== *)
(** The lock file built from a resolved graph ([kryos-package/src/lock.rs]). Its
    TOML form is [serde]'s; reading and writing it is input and output. *)

From S2P Require Import Prelude Machine Utf8 Text Semver Manifest Resolve.

Record LockEntry := mkEntry {
  le_name : str; le_version : str; le_source : str;
  le_checksum : option str; le_dependencies : list str
}.

Definition entry_of (pkg : ResolvedPackage) : LockEntry :=
  mkEntry (rp_name pkg) (version_to_string (rp_version pkg))
    (match rp_source pkg with
     | RemoteSource s => s
     | PathSource p => bytes "path:" ++ p
     end)
    (rp_checksum pkg) (rp_dependencies pkg).

Definition entry_cmp (a b : LockEntry) : comparison :=
  then_ (str_cmp (le_name a) (le_name b)) (str_cmp (le_version a) (le_version b)).

Definition entry_le (a b : LockEntry) : Prop := entry_cmp a b <> Gt.

#[export] Instance entry_le_dec a b : Decision (entry_le a b).
Proof.
  unfold entry_le. destruct (entry_cmp a b); [by left|by left|]. right. by intros H.
Defined.

(** [sort_by]: a stable merge sort. *)
Definition from_resolved (graph : list ResolvedPackage) : list LockEntry :=
  merge_sort entry_le (map entry_of graph).

(** [LockFile::get]: the first entry of that name. *)
Definition get (lock : list LockEntry) (name : str) : option LockEntry :=
  find (fun e => bool_decide (le_name e = name)) lock.

Fixpoint set_checksum (lock : list LockEntry) (name checksum : str) : list LockEntry :=
  match lock with
  | [] => []
  | e :: lock =>
      if bool_decide (le_name e = name)
      then mkEntry (le_name e) (le_version e) (le_source e) (Some checksum) (le_dependencies e) :: lock
      else e :: set_checksum lock name checksum
  end.

(* ------------------------------------------------------------------ *)
(** ** Determinism                                                     *)
(* ------------------------------------------------------------------ *)

Lemma str_cmp_not_gt_trans a b c : str_cmp a b <> Gt -> str_cmp b c <> Gt -> str_cmp a c <> Gt.
Proof.
  intros H1 H2. destruct (str_cmp a b) eqn:E1; [|destruct (str_cmp b c) eqn:E2|]; try done.
  - by apply str_cmp_eq in E1 as ->.
  - apply str_cmp_eq in E2 as <-. congruence.
  - by rewrite (str_cmp_trans a b c).
Qed.

Lemma entry_le_spec a b :
  entry_le a b <->
  str_cmp (le_name a) (le_name b) = Lt
  \/ le_name a = le_name b /\ str_cmp (le_version a) (le_version b) <> Gt.
Proof.
  unfold entry_le, entry_cmp. destruct (str_cmp (le_name a) (le_name b)) eqn:E; cbn.
  - apply str_cmp_eq in E. intuition congruence.
  - split; [by left|done].
  - split; [done|]. intros [?|[He _]]; [done|]. apply str_cmp_eq in He. congruence.
Qed.

#[export] Instance entry_le_trans : Transitive entry_le.
Proof.
  intros a b c. rewrite !entry_le_spec. intros [H1|[E1 H1]] [H2|[E2 H2]].
  - left. by eapply str_cmp_trans.
  - left. congruence.
  - left. congruence.
  - right. split; [congruence|]. by eapply str_cmp_not_gt_trans.
Qed.

#[export] Instance entry_le_total : Total entry_le.
Proof.
  intros a b. unfold entry_le, entry_cmp.
  rewrite (str_cmp_antisym (le_name a)), (str_cmp_antisym (le_version a)), <-then_opp.
  destruct (then_ _ _); auto.
Qed.

Lemma names_of_graph graph : map le_name (map entry_of graph) = map rp_name graph.
Proof. by rewrite map_map. Qed.

(** Entries of distinct names that are ordered both ways are the same. *)
Lemma entry_le_antisym l a b :
  NoDup (map le_name l) -> a ∈ l -> b ∈ l -> entry_le a b -> entry_le b a -> a = b.
Proof.
  intros Hnd Ha Hb. rewrite !entry_le_spec. intros H1 H2.
  assert (Hn : le_name a = le_name b).
  { destruct H1 as [H1|[H1 _]]; [|done]. destruct H2 as [H2|[H2 _]]; [|done].
    by rewrite str_cmp_antisym, H1 in H2. }
  clear H1 H2. induction l as [|e l IH]; [by apply elem_of_nil in Ha|].
  cbn in Hnd. apply NoDup_cons in Hnd as [He Hnd].
  apply elem_of_cons in Ha as [-> |Ha], Hb as [-> |Hb]; [done|..|by apply IH].
  - destruct He. rewrite Hn. by apply list_elem_of_In, in_map, list_elem_of_In.
  - destruct He. rewrite <-Hn. by apply list_elem_of_In, in_map, list_elem_of_In.
Qed.

Lemma find_unique l (e : LockEntry) :
  NoDup (map le_name l) -> e ∈ l -> get l (le_name e) = Some e.
Proof.
  unfold get. induction l as [|x l IH]; cbn; [by rewrite elem_of_nil|].
  intros [Hx Hnd]%NoDup_cons [<- |He]%elem_of_cons; [by rewrite bool_decide_true|].
  rewrite bool_decide_false; [by apply IH|]. intros Heq. destruct Hx. rewrite Heq.
  by apply list_elem_of_In, in_map, list_elem_of_In.
Qed.

(** the lock file of a graph with distinct names does not depend on the
    order the resolver happened to list the packages in; it is sorted, and
    looking a package's name up gives its entry. *)
Lemma lock_deterministic graph1 graph2 :
  NoDup (map rp_name graph1) -> graph1 ≡ₚ graph2 ->
  from_resolved graph1 = from_resolved graph2
  /\ StronglySorted entry_le (from_resolved graph1)
  /\ forall p, In p graph1 -> get (from_resolved graph1) (rp_name p) = Some (entry_of p).
Proof.
  intros Hnd Hperm. unfold from_resolved.
  assert (Hnd1 : NoDup (map le_name (merge_sort entry_le (map entry_of graph1)))).
  { rewrite <-names_of_graph in Hnd.
    by rewrite (Permutation_map le_name (merge_sort_Permutation entry_le _)). }
  split_and!.
  - apply (StronglySorted_unique_strong entry_le).
    + intros a b Ha Hb. apply (entry_le_antisym _ _ _ Hnd1 Ha).
      rewrite !merge_sort_Permutation in *. by rewrite Hperm.
    + apply StronglySorted_merge_sort; apply _.
    + apply StronglySorted_merge_sort; apply _.
    + rewrite !merge_sort_Permutation. by rewrite Hperm.
  - apply StronglySorted_merge_sort; apply _.
  - intros p Hp. apply (find_unique _ (entry_of p) Hnd1).
    rewrite merge_sort_Permutation. by apply list_elem_of_In, in_map.
Qed.

Lemma lock_deterministic_witness :
  let p := mkResolved (bytes "b") (new_version 1 0 0) (RemoteSource []) [] None in
  let q := mkResolved (bytes "a") (new_version 2 0 0) (PathSource (bytes "../a")) [bytes "b"] None in
  from_resolved [p; q] = from_resolved [q; p].
Proof.
  intros p q. apply (lock_deterministic [p; q] [q; p]).
  - cbn. repeat constructor; set_solver.
  - constructor.
Defined.
