(* ===== verification/DateTime.v ===== *)
(** Dates of the native standard library ([kryos-stdlib-native/src/datetime.rs]): the conversions
    between days and dates agree with the Gregorian calendar and invert each other. *)

From S2P Require Import Prelude Machine Utf8 Text.
Open Scope Z_scope.

(* ------------------------------------------------------------------ *)
(** ** The code                                                        *)
(* ------------------------------------------------------------------ *)

(** Division of Rust's [i64] truncates; [div_euclid] by a positive number is [Z.div]. Sums and
    products wrap (the release profile has no overflow checks): a wrap after the last division is
    the wrap of every step before it. *)
Definition days_from_civil (y m d : Z) : Z :=
  let y := if m <=? 2 then wrap64 (y - 1) else y in
  let era := (if 0 <=? y then y else wrap64 (y - 399)) ÷ 400 in
  let yoe := wrap64 (y - era * 400) in
  let doy := (153 * (if 2 <? m then m - 3 else m + 9) + 2) ÷ 5 + (d - 1) in
  let doe := yoe * 365 + yoe ÷ 4 - yoe ÷ 100 + doy in
  wrap64 (era * 146097 + doe - 719468).
(** Called with [secs / 86400] only, where nothing leaves the range. *)
Definition civil_from_days (z : Z) : Z * Z * Z :=
  let z := z + 719468 in
  let era := (if 0 <=? z then z else z - 146096) ÷ 146097 in
  let doe := z - era * 146097 in
  let yoe := (doe - doe ÷ 1460 + doe ÷ 36524 - doe ÷ 146096) ÷ 365 in
  let y := yoe + era * 400 in
  let doy := doe - (365 * yoe + yoe ÷ 4 - yoe ÷ 100) in
  let mp := (5 * doy + 2) ÷ 153 in
  let d := doy - (153 * mp + 2) ÷ 5 + 1 in
  let m := if mp <? 10 then mp + 3 else mp - 9 in
  let y := if m <=? 2 then y + 1 else y in
  (y, m, d).

Definition kryos_time_year_utc (secs : Z) : Z := (civil_from_days (secs / 86400)).1.1.
Definition kryos_time_month_utc (secs : Z) : Z := (civil_from_days (secs / 86400)).1.2.
Definition kryos_time_day_utc (secs : Z) : Z := (civil_from_days (secs / 86400)).2.
Definition kryos_time_hour_utc (secs : Z) : Z := secs mod 86400 ÷ 3600.
Definition kryos_time_minute_utc (secs : Z) : Z := Z.rem (secs mod 86400) 3600 ÷ 60.
Definition kryos_time_second_utc (secs : Z) : Z := secs mod 60.
Definition kryos_time_weekday_utc (secs : Z) : Z := (secs / 86400 + 4) mod 7.
Definition kryos_time_from_ymdhms_utc (year month day hour minute second : Z) : Z :=
  if negb ((1 <=? month) && (month <=? 12)) || negb ((1 <=? day) && (day <=? 31)) then -1
  else wrap64 (days_from_civil year month day * 86400 + hour * 3600 + minute * 60 + second).

(** [{n:0w}]: the width counts the sign. *)
Definition pad (width : nat) (n : Z) : str :=
  if n <? 0 then
    let s := print_u64 (- n) in bytes "-" ++ replicate (width - 1 - length s) (chr "0") ++ s
  else let s := print_u64 n in replicate (width - length s) (chr "0") ++ s.
Definition rfc3339 (secs : Z) : str :=
  let '(y, m, d) := civil_from_days (secs / 86400) in
  let secs_of_day := secs mod 86400 in
  pad 4 y ++ bytes "-" ++ pad 2 m ++ bytes "-" ++ pad 2 d ++ bytes "T"
    ++ pad 2 (secs_of_day ÷ 3600) ++ bytes ":" ++ pad 2 (Z.rem secs_of_day 3600 ÷ 60) ++ bytes ":" ++ pad 2 (Z.rem secs_of_day 60) ++ bytes "Z".
(** What is written to a buffer of [cap] bytes, [None] for the result -1. *)
Definition kryos_time_format_rfc3339_utc (secs : Z) (null : bool) (cap : nat) : option str :=
  if null || (cap <? 20)%nat then None
  else if (cap <? length (rfc3339 secs))%nat then None else Some (rfc3339 secs).

(* ------------------------------------------------------------------ *)
(** ** The calendar                                                    *)
(* ------------------------------------------------------------------ *)

Definition leap (y : Z) : bool := (y mod 4 =? 0) && (negb (y mod 100 =? 0) || (y mod 400 =? 0)).
Definition month_days (y m : Z) : Z :=
  if m =? 2 then if leap y then 29 else 28
  else if (m =? 4) || (m =? 6) || (m =? 9) || (m =? 11) then 30 else 31.
Definition valid_date (d : Z * Z * Z) : Prop :=
  let '(y, m, d) := d in 1 <= m <= 12 /\ 1 <= d <= month_days y m.
Definition next_date (d : Z * Z * Z) : Z * Z * Z :=
  let '(y, m, d) := d in
  if d <? month_days y m then (y, m, d + 1)
  else if m <? 12 then (y, m + 1, 1)
  else (y + 1, 1, 1).

(** Years that begin in March: the year of the date and the days before it. *)
Definition year_start (y : Z) : Z := 365 * y + y / 4 - y / 100 + y / 400.
Definition month_start (mp : Z) : Z := (153 * mp + 2) / 5.
Definition month_number (m : Z) : Z := if 2 <? m then m - 3 else m + 9.
Definition march_year (y m : Z) : Z := if m <=? 2 then y - 1 else y.

Lemma era_div y n : 0 < n -> (if 0 <=? y then y else y - (n - 1)) ÷ n = y / n.
Proof.
  intros Hn. destruct (Z.leb_spec 0 y).
  - by apply Z.quot_div_nonneg.
  - replace (y - (n - 1)) with (- (n - 1 - y)) by lia. rewrite Z.quot_opp_l, Z.quot_div_nonneg by lia.
    assert (H1 : (n - 1 - y) / n = - (y / n)); [|lia].
    symmetry. apply (Z.div_unique_pos _ _ _ (n - 1 - y mod n)); pose proof (Z.mod_pos_bound y n Hn); [lia|].
    pose proof (Z.div_mod y n). lia.
Qed.
(** The number of a date, without the width of the machine. *)
Definition civil_number (y m d : Z) : Z := year_start (march_year y m) + month_start (month_number m) + d - 1 - 719468.
Definition near_year (y : Z) : Prop := - 2 ^ 40 <= y <= 2 ^ 40.
(** The days of the seconds of an [i64]. *)
Definition day_of_i64 (z : Z) : Prop := - 106751991167301 <= z <= 106751991167300.

Lemma wrap64_small z : - 2 ^ 60 <= z <= 2 ^ 60 -> wrap64 z = z.
Proof. intros Hz. apply wrap64_id, in_i64_spec. unfold i64_min, i64_max. lia. Qed.
Lemma days_from_civil_eq y m d :
  near_year y -> 1 <= m <= 12 -> 1 <= d <= 31 -> days_from_civil y m d = civil_number y m d.
Proof.
  unfold near_year. intros Hnear Hm Hd. unfold days_from_civil. rewrite (wrap64_small (y - 1)) by lia.
  fold (march_year y m). fold (month_number m). cbn zeta.
  assert (Hz : - 2 ^ 41 <= march_year y m <= 2 ^ 41) by (unfold march_year; destruct (_ <=? _); lia).
  unfold civil_number. revert Hz. generalize (march_year y m). intros z Hz.
  rewrite (wrap64_small (z - 399)) by lia.
  pose proof (era_div z 400 ltac:(lia)) as He. change (400 - 1) with 399 in He. rewrite He. pose proof (Z.mod_pos_bound z 400). pose proof (Z.div_mod z 400).
  assert (Hn : 0 <= month_number m <= 11) by (unfold month_number; destruct (Z.ltb_spec 2 m); lia).
  rewrite (wrap64_small (z - _)) by lia.
  rewrite !Z.quot_div_nonneg by lia. unfold year_start, month_start.
  replace (z - z / 400 * 400) with (z mod 400) by lia.
  replace (z / 4) with (z / 400 * 100 + z mod 400 / 4) by (rewrite Z.mod_eq by lia; Z.to_euclidean_division_equations; lia).
  replace (z / 100) with (z / 400 * 4 + z mod 400 / 100) by (rewrite Z.mod_eq by lia; Z.to_euclidean_division_equations; lia).
  rewrite wrap64_small; [lia|]. clear He.
  assert (0 <= (153 * month_number m + 2) / 5 <= 337) by (Z.to_euclidean_division_equations; lia).
  assert (0 <= z mod 400 / 4 <= 100 /\ 0 <= z mod 400 / 100 <= 4) by (Z.to_euclidean_division_equations; lia).
  lia.
Qed.

(** The year of an era by its day. *)
Lemma year_of_era doe yoe :
  0 <= yoe <= 399 -> 365 * yoe + yoe / 4 - yoe / 100 <= doe ->
  doe < 365 * (yoe + 1) + (yoe + 1) / 4 - (yoe + 1) / 100 + (if yoe =? 399 then 1 else 0) ->
  (doe - doe / 1460 + doe / 36524 - doe / 146096) / 365 = yoe.
Proof.
  intros Hy H1 H2. symmetry. apply (Z.div_unique_pos _ _ _ (doe - doe / 1460 + doe / 36524 - doe / 146096 - 365 * yoe)); [|lia].
  assert (H100 : yoe / 100 = 0 \/ yoe / 100 = 1 \/ yoe / 100 = 2 \/ yoe / 100 = 3) by (Z.to_euclidean_division_equations; lia).
  destruct (Z.eqb_spec yoe 399); [subst yoe; cbn in H1, H2; Z.to_euclidean_division_equations; lia|].
  destruct H100 as [E|[E|[E|E]]]; rewrite E in H1; Z.to_euclidean_division_equations; lia.
Qed.
Lemma year_of_era_range doe :
  0 <= doe < 146097 ->
  let yoe := (doe - doe / 1460 + doe / 36524 - doe / 146096) / 365 in
  0 <= yoe <= 399 /\ 365 * yoe + yoe / 4 - yoe / 100 <= doe
  /\ doe < 365 * (yoe + 1) + (yoe + 1) / 4 - (yoe + 1) / 100 + (if yoe =? 399 then 1 else 0).
Proof.
  intros Hd yoe. subst yoe.
  assert (H4 : doe / 36524 = 0 \/ doe / 36524 = 1 \/ doe / 36524 = 2 \/ doe / 36524 = 3 \/ doe / 36524 = 4)
    by (Z.to_euclidean_division_equations; lia).
  assert (H1 : doe / 146096 = 0 \/ doe / 146096 = 1) by (Z.to_euclidean_division_equations; lia).
  set (yoe := (_ / 365)).
  assert (Hy : 0 <= yoe <= 399) by (unfold yoe; Z.to_euclidean_division_equations; lia).
  split; [done|]. split.
  - unfold yoe; destruct H1 as [-> | ->], H4 as [E|[E|[E|[E|E]]]]; rewrite E; Z.to_euclidean_division_equations; lia.
  - destruct (Z.eqb_spec yoe 399) as [He|Hne].
    { rewrite He. change ((399 + 1) / 4) with 100. change ((399 + 1) / 100) with 4. lia. }
    unfold yoe in *; destruct H1 as [E1|E1], H4 as [E|[E|[E|[E|E]]]]; rewrite E1, E in *; Z.to_euclidean_division_equations; lia.
Qed.

Definition era_start (e : Z) : Z := 365 * e + e / 4 - e / 100.
Lemma year_start_era y : year_start y = 146097 * (y / 400) + era_start (y mod 400).
Proof.
  unfold year_start, era_start.
  replace (y / 4) with (y / 400 * 100 + y mod 400 / 4) by (rewrite Z.mod_eq by lia; Z.to_euclidean_division_equations; lia).
  replace (y / 100) with (y / 400 * 4 + y mod 400 / 100) by (rewrite Z.mod_eq by lia; Z.to_euclidean_division_equations; lia).
  rewrite (Z.mod_eq y) by lia. lia.
Qed.
Lemma era_start_bound e : 0 <= e <= 399 -> 0 <= era_start e <= 145731.
Proof. intros He. unfold era_start. Z.to_euclidean_division_equations. lia. Qed.
Lemma year_start_next y :
  year_start (y + 1) = 146097 * (y / 400) + era_start (y mod 400 + 1) + (if y mod 400 =? 399 then 1 else 0).
Proof.
  pose proof (Z.mod_pos_bound y 400 ltac:(lia)). pose proof (Z.div_mod y 400 ltac:(lia)) as Hy.
  destruct (Z.eqb_spec (y mod 400) 399) as [He|Hne].
  - rewrite He in *. assert (Hq : (y + 1) / 400 = y / 400 + 1) by (symmetry; apply (Z.div_unique_pos _ _ _ 0); lia).
    assert (Hm : (y + 1) mod 400 = 0) by (rewrite Z.mod_eq by lia; lia).
    rewrite year_start_era, Hq, Hm. change (era_start 0) with 0. change (era_start (399 + 1)) with 146096. lia.
  - assert (Hq : (y + 1) / 400 = y / 400) by (symmetry; apply (Z.div_unique_pos _ _ _ (y mod 400 + 1)); lia).
    assert (Hm : (y + 1) mod 400 = y mod 400 + 1) by (rewrite !Z.mod_eq by lia; lia).
    rewrite year_start_era, Hq, Hm. lia.
Qed.
Lemma month_of_day doy mp :
  0 <= mp <= 11 -> month_start mp <= doy < month_start (mp + 1) -> (5 * doy + 2) / 153 = mp.
Proof. unfold month_start. intros Hm Hd. Z.to_euclidean_division_equations. lia. Qed.

(** A day in its year that begins in March. *)
Lemma civil_shape y mp d :
  0 <= mp <= 11 -> 1 <= d -> month_start mp + d <= month_start (mp + 1) ->
  year_start y + month_start mp + d - 1 < year_start (y + 1) ->
  civil_from_days (year_start y + month_start mp + d - 1 - 719468)
  = (if mp <? 10 then y else y + 1, if mp <? 10 then mp + 3 else mp - 9, d).
Proof.
  intros Hmp Hd Hm Hy. unfold civil_from_days. cbn zeta. set (n := _ + 719468).
  assert (Hms : 0 <= month_start mp) by (unfold month_start; apply Z.div_pos; lia).
  pose proof (Z.mod_pos_bound y 400 ltac:(lia)) as Hb. pose proof (era_start_bound (y mod 400) ltac:(lia)) as Hs.
  rewrite year_start_next in Hy. rewrite year_start_era in Hy. set (doy := month_start mp + d - 1) in *.
  assert (Hn : n = 146097 * (y / 400) + (era_start (y mod 400) + doy)) by (unfold n; rewrite year_start_era; lia).
  assert (Hdoe : 0 <= era_start (y mod 400) + doy < 146097).
  { split; [lia|]. destruct (Z.eqb_spec (y mod 400) 399) as [He|Hne].
    - rewrite He in *. change (era_start (399 + 1)) with 146096 in Hy. lia.
    - pose proof (era_start_bound (y mod 400 + 1) ltac:(lia)). lia. }
  pose proof (era_div n 146097 ltac:(lia)) as He. change (146097 - 1) with 146096 in He. rewrite He. clear He.
  assert (Hq : n / 146097 = y / 400) by (symmetry; apply (Z.div_unique_pos _ _ _ (era_start (y mod 400) + doy)); lia).
  rewrite Hq. replace (n - y / 400 * 146097) with (era_start (y mod 400) + doy) by lia.
  set (doe := era_start (y mod 400) + doy) in *. clearbody n.
  rewrite (Z.quot_div_nonneg doe 1460), (Z.quot_div_nonneg doe 36524), (Z.quot_div_nonneg doe 146096) by lia.
  assert (Hyoe : (doe - doe / 1460 + doe / 36524 - doe / 146096) / 365 = y mod 400).
  { apply year_of_era; [lia|unfold doe, era_start in *; lia|]. unfold doe, era_start in *. lia. }
  assert (Hnum : 0 <= doe - doe / 1460 + doe / 36524 - doe / 146096) by (Z.to_euclidean_division_equations; lia).
  rewrite (Z.quot_div_nonneg _ 365), Hyoe by lia. rewrite !(Z.quot_div_nonneg (y mod 400)) by lia.
  replace (doe - (365 * (y mod 400) + y mod 400 / 4 - y mod 400 / 100)) with doy by (unfold doe, era_start; lia).
  rewrite (Z.quot_div_nonneg (5 * doy + 2)) by lia. rewrite (month_of_day doy mp) by lia.
  rewrite Z.quot_div_nonneg by lia. fold (month_start mp). replace (doy - month_start mp + 1) with d by (unfold doy; lia).
  pose proof (Z.div_mod y 400 ltac:(lia)) as Hdm. replace (y mod 400 + y / 400 * 400) with y by lia.
  destruct (Z.ltb_spec mp 10).
  - by rewrite (proj2 (Z.leb_gt _ _)) by lia.
  - by rewrite (proj2 (Z.leb_le _ _)) by lia.
Qed.

Lemma leap_length y : year_start y = year_start (y - 1) + 365 + (if leap y then 1 else 0).
Proof.
  unfold year_start, leap.
  assert (H4 : y / 4 = (y - 1) / 4 + if y mod 4 =? 0 then 1 else 0) by (destruct (Z.eqb_spec (y mod 4) 0); Z.to_euclidean_division_equations; lia).
  assert (H100 : y / 100 = (y - 1) / 100 + if y mod 100 =? 0 then 1 else 0) by (destruct (Z.eqb_spec (y mod 100) 0); Z.to_euclidean_division_equations; lia).
  assert (H400 : y / 400 = (y - 1) / 400 + if y mod 400 =? 0 then 1 else 0) by (destruct (Z.eqb_spec (y mod 400) 0); Z.to_euclidean_division_equations; lia).
  assert (Ha : y mod 400 = 0 -> y mod 100 = 0) by (intros H; Z.to_euclidean_division_equations; lia).
  assert (Hb : y mod 100 = 0 -> y mod 4 = 0) by (intros H; Z.to_euclidean_division_equations; lia).
  destruct (Z.eqb_spec (y mod 4) 0), (Z.eqb_spec (y mod 100) 0), (Z.eqb_spec (y mod 400) 0); cbn; try lia.
Qed.
Lemma month_cases m : 1 <= m <= 12 ->
  m = 1 \/ m = 2 \/ m = 3 \/ m = 4 \/ m = 5 \/ m = 6 \/ m = 7 \/ m = 8 \/ m = 9 \/ m = 10 \/ m = 11 \/ m = 12.
Proof. lia. Qed.
Ltac month_values :=
  repeat match goal with
  | |- context [month_start ?n] => let v := eval vm_compute in (month_start n) in change (month_start n) with v
  end.
Ltac known_months :=
  repeat match goal with
  | |- context [month_days ?y ?m] =>
      first [change (month_days y m) with 31 | change (month_days y m) with 30 | change (month_days y m) with (if leap y then 29 else 28)]
  | |- context [month_number ?m] => let v := eval vm_compute in (month_number m) in change (month_number m) with v
  | |- context [march_year ?y ?m] => first [change (march_year y m) with y | change (march_year y m) with (y - 1)]
  end.
(** The days of a month in the year from March, February last. *)
Lemma month_room y m d :
  1 <= m <= 12 -> 1 <= d <= month_days y m ->
  month_start (month_number m) + d <= month_start (month_number m + 1)
  /\ month_start (month_number m) + d <= 365 + (if leap (march_year y m + 1) then 1 else 0).
Proof.
  intros Hm. unfold month_days, month_number, march_year.
  destruct (month_cases m Hm) as [->|[->|[->|[->|[->|[->|[->|[->|[->|[->|[->| ->]]]]]]]]]]]; cbn -[leap month_start]; intros Hd;
    try (replace (y - 1 + 1) with y by lia); month_values; destruct (leap _); lia.
Qed.
Lemma civil_of_number y m d : valid_date (y, m, d) -> civil_from_days (civil_number y m d) = (y, m, d).
Proof.
  intros [Hm Hd]. unfold civil_number. destruct (month_room y m d Hm Hd) as [H1 H2].
  rewrite civil_shape; [|unfold month_number; destruct (Z.ltb_spec 2 m); lia|lia|done|].
  - unfold march_year, month_number. destruct (Z.ltb_spec 2 m), (Z.leb_spec m 2); try lia.
    + rewrite (proj2 (Z.ltb_lt (m - 3) 10)) by lia. f_equal. f_equal. lia.
    + rewrite (proj2 (Z.ltb_ge (m + 9) 10)) by lia. f_equal. f_equal; lia.
  - rewrite (leap_length (march_year y m + 1)). replace (march_year y m + 1 - 1) with (march_year y m) by lia. lia.
Qed.

(** Every day is a date. *)
Lemma day_is_date z : exists y m d, valid_date (y, m, d) /\ civil_number y m d = z.
Proof.
  set (n := z + 719468). pose proof (Z.mod_pos_bound n 146097 ltac:(lia)) as Hb. pose proof (Z.div_mod n 146097 ltac:(lia)) as Hn.
  pose proof (year_of_era_range (n mod 146097) Hb) as Hy. cbn zeta in Hy.
  set (e := _ / 365) in Hy. destruct Hy as (He & H1 & H2). clearbody e. fold (era_start e) in H1. fold (era_start (e + 1)) in H2.
  set (doy := n mod 146097 - era_start e). set (y := 400 * (n / 146097) + e).
  assert (Hq : y / 400 = n / 146097) by (symmetry; apply (Z.div_unique_pos _ _ _ e); unfold y; lia).
  assert (Hm : y mod 400 = e) by (rewrite Z.mod_eq by lia; unfold y in *; lia).
  assert (Hlen : doy < 365 + (if leap (y + 1) then 1 else 0)).
  { pose proof (leap_length (y + 1)) as Hl. replace (y + 1 - 1) with y in Hl by lia.
    rewrite year_start_next, (year_start_era y), Hq, Hm in Hl. unfold doy. lia. }
  assert (Hdoy : 0 <= doy <= 365) by (destruct (leap (y + 1)); unfold doy in *; lia).
  set (mp := (5 * doy + 2) / 153).
  assert (Hmp : 0 <= mp <= 11 /\ month_start mp <= doy < month_start (mp + 1))
    by (unfold mp, month_start; Z.to_euclidean_division_equations; lia).
  destruct Hmp as [Hmp Hd]. set (m := if mp <? 10 then mp + 3 else mp - 9).
  exists (if mp <? 10 then y else y + 1), m, (doy - month_start mp + 1).
  assert (Hmm : 1 <= m <= 12) by (unfold m; destruct (Z.ltb_spec mp 10); lia).
  assert (Hnum : month_number m = mp).
  { unfold m, month_number. destruct (Z.ltb_spec mp 10); [rewrite (proj2 (Z.ltb_lt _ _)) by lia|rewrite (proj2 (Z.ltb_ge _ _)) by lia]; lia. }
  assert (Hyear : march_year (if mp <? 10 then y else y + 1) m = y).
  { unfold m, march_year. destruct (Z.ltb_spec mp 10); [rewrite (proj2 (Z.leb_gt _ _)) by lia|rewrite (proj2 (Z.leb_le _ _)) by lia]; lia. }
  split.
  - split; [done|]. split; [lia|]. clear -Hmp Hd Hlen Hmm Hdoy. revert Hd. unfold m.
    clearbody mp doy y. clear m Hmm. revert Hlen. generalize (y + 1). intros y1.
    assert (Hc : mp = 0 \/ mp = 1 \/ mp = 2 \/ mp = 3 \/ mp = 4 \/ mp = 5 \/ mp = 6 \/ mp = 7 \/ mp = 8 \/ mp = 9 \/ mp = 10 \/ mp = 11) by lia.
    destruct Hc as [->|[->|[->|[->|[->|[->|[->|[->|[->|[->|[->| ->]]]]]]]]]]]; cbn [Z.ltb Z.compare Pos.compare Pos.compare_cont]; known_months; month_values; destruct (leap y1); lia.
  - unfold civil_number. rewrite Hnum, Hyear, year_start_era, Hq, Hm. unfold doy, n in *. lia.
Qed.

(** The next day. *)
Lemma next_day y m d :
  valid_date (y, m, d) -> let '(y', m', d') := next_date (y, m, d) in
  valid_date (y', m', d') /\ civil_number y' m' d' = civil_number y m d + 1.
Proof.
  unfold civil_number.
  intros [Hm Hd]. cbn [next_date]. destruct (Z.ltb_spec d (month_days y m)) as [Hlt|Hge].
  { split; [split; [done|lia]|]. lia. }
  assert (Hend : d = month_days y m) by lia. subst d.
  destruct (Z.ltb_spec m 12) as [H12|H12].
  - split; [split; [lia|]; split; [lia|]; unfold month_days; repeat (destruct (_ =? _)); cbn; try destruct (leap y); lia|].
    assert (Hc : m = 1 \/ m = 2 \/ m = 3 \/ m = 4 \/ m = 5 \/ m = 6 \/ m = 7 \/ m = 8 \/ m = 9 \/ m = 10 \/ m = 11) by lia.
    pose proof (leap_length y) as Hl.
    destruct Hc as [->|[->|[->|[->|[->|[->|[->|[->|[->|[->| ->]]]]]]]]]]; known_months;
            month_values; destruct (leap y); lia.
  - assert (m = 12) as -> by lia. split; [split; [lia|]; cbn; lia|]. 
    unfold month_days, month_number, march_year. cbn -[year_start month_start]. month_values.
    replace (y + 1 - 1) with y by lia. lia.
Qed.

(** The length of a month, and the year of a day of the machine. *)
Lemma valid_day y m d : valid_date (y, m, d) -> 1 <= m <= 12 /\ 1 <= d <= 31.
Proof.
  intros [Hm Hd]. split; [done|]. unfold month_days in Hd.
  destruct (m =? 2), (leap y), ((m =? 4) || (m =? 6) || (m =? 9) || (m =? 11)); lia.
Qed.
Lemma year_of_day y m d : valid_date (y, m, d) -> day_of_i64 (civil_number y m d) -> near_year y.
Proof.
  intros Hv. destruct (valid_day _ _ _ Hv) as [Hm Hd]. unfold day_of_i64, civil_number, near_year, year_start, march_year, month_number, month_start.
  destruct (m <=? 2), (2 <? m); Z.to_euclidean_division_equations; lia.
Qed.
Lemma days_of_civil_from z : day_of_i64 z ->
  let '(y, m, d) := civil_from_days z in valid_date (y, m, d) /\ near_year y /\ days_from_civil y m d = z.
Proof.
  intros Hz. destruct (day_is_date z) as (y & m & d & Hv & <-). rewrite civil_of_number by done.
  pose proof (year_of_day _ _ _ Hv Hz). destruct (valid_day _ _ _ Hv). split; [done|]. split; [done|].
  by apply days_from_civil_eq.
Qed.
Lemma civil_from_days_next z : civil_from_days (z + 1) = next_date (civil_from_days z).
Proof.
  destruct (day_is_date z) as (y & m & d & Hv & <-). rewrite civil_of_number by done.
  pose proof (next_day y m d Hv) as H. destruct (next_date (y, m, d)) as [[y' m'] d']. destruct H as [Hv' <-].
  by apply civil_of_number.
Qed.

(** C37: the two conversions invert each other in the whole range of an [i64] of seconds, every day is
    a date of the Gregorian calendar, and the date of the next day is the next date. *)
Theorem civil_calendar :
  (forall y m d, valid_date (y, m, d) -> near_year y -> civil_from_days (days_from_civil y m d) = (y, m, d))
  /\ (forall z, day_of_i64 z -> let '(y, m, d) := civil_from_days z in
       valid_date (y, m, d) /\ near_year y /\ days_from_civil y m d = z)
  /\ (forall z, day_of_i64 z -> civil_from_days (z + 1) = next_date (civil_from_days z))
  /\ civil_from_days 0 = (1970, 1, 1).
Proof.
  split; [|split; [apply days_of_civil_from|split; [intros z _; apply civil_from_days_next|done]]].
  intros y m d Hv Hy. destruct (valid_day _ _ _ Hv). rewrite days_from_civil_eq by done. by apply civil_of_number.
Qed.
Lemma civil_calendar_witness : civil_from_days (19782 + 1) = next_date (2024, 2, 29).
Proof.
  refine (proj1 (proj2 (proj2 civil_calendar)) 19782 _). unfold day_of_i64. lia.
Defined.

(** The parts of a point in time are those that it was made of. *)
Lemma time_parts y mo d h mi s :
  valid_date (y, mo, d) -> near_year y -> 0 <= h < 24 -> 0 <= mi < 60 -> 0 <= s < 60 ->
  day_of_i64 (civil_number y mo d - 1) -> day_of_i64 (civil_number y mo d + 1) ->
  let t := kryos_time_from_ymdhms_utc y mo d h mi s in
  kryos_time_year_utc t = y /\ kryos_time_month_utc t = mo /\ kryos_time_day_utc t = d
  /\ kryos_time_hour_utc t = h /\ kryos_time_minute_utc t = mi /\ kryos_time_second_utc t = s.
Proof.
  intros Hv Hy Hh Hmi Hs Hlo Hhi t. destruct (valid_day _ _ _ Hv) as [Hm Hd].
  assert (Ht : t = civil_number y mo d * 86400 + (h * 3600 + mi * 60 + s)).
  { unfold t, kryos_time_from_ymdhms_utc. rewrite days_from_civil_eq by done.
    rewrite (proj2 (Z.leb_le 1 mo)), (proj2 (Z.leb_le mo 12)), (proj2 (Z.leb_le 1 d)), (proj2 (Z.leb_le d 31)) by lia. cbn [andb negb orb].
    rewrite wrap64_id; [lia|]. apply in_i64_spec. unfold day_of_i64, i64_min, i64_max in *. lia. }
  assert (Hdays : t / 86400 = civil_number y mo d) by (symmetry; apply (Z.div_unique_pos _ _ _ (h * 3600 + mi * 60 + s)); lia).
  assert (Hrest : t mod 86400 = h * 3600 + mi * 60 + s) by (rewrite Z.mod_eq by lia; lia).
  assert (Hsec : t mod 60 = s) by (symmetry; apply (Z.mod_unique_pos _ _ (civil_number y mo d * 1440 + h * 60 + mi)); lia).
  unfold kryos_time_year_utc, kryos_time_month_utc, kryos_time_day_utc, kryos_time_hour_utc, kryos_time_minute_utc, kryos_time_second_utc.
  rewrite Hdays, Hrest, Hsec, civil_of_number by done. cbn [fst snd]. repeat split; try done.
  - rewrite Z.quot_div_nonneg by lia. symmetry. apply (Z.div_unique_pos _ _ _ (mi * 60 + s)); lia.
  - rewrite Z.rem_mod_nonneg by lia. rewrite Z.quot_div_nonneg by (try lia; apply Z.mod_pos_bound; lia).
    assert (Hr : (h * 3600 + mi * 60 + s) mod 3600 = mi * 60 + s) by (symmetry; apply (Z.mod_unique_pos _ _ h); lia).
    rewrite Hr. symmetry. apply (Z.div_unique_pos _ _ _ s); lia.
Qed.
Example rfc3339_example : kryos_time_format_rfc3339_utc 1779107696 false 32 = Some (bytes "2026-05-18T12:34:56Z").
Proof. vm_compute. reflexivity. Qed.
