(* ===== verification/Capability.v ===== *)
(** Capabilities and sets of them ([kryos-capabilities/src/model.rs]): the
    containment of sub-capabilities in their family, and the operations
    compile-time enforcement is built from. *)

From S2P Require Import Prelude Machine Utf8 Text Token Ast.

Inductive Capability :=
| Net | NetHttp | NetTcp | Io | FsRead | FsWrite | Ffi | Compute | Crypto | Process | Env
| Term | Db | Time | All.

#[export] Instance Capability_eq_dec : EqDecision Capability.
Proof. solve_decision. Defined.

(** The variants in the order of their declaration. *)
Definition variants : list Capability :=
  [Net; NetHttp; NetTcp; Io; FsRead; FsWrite; Ffi; Compute; Crypto; Process; Env; Term; Db; Time; All].

Definition discriminant (c : Capability) : nat :=
  match c with
  | Net => 0 | NetHttp => 1 | NetTcp => 2 | Io => 3 | FsRead => 4 | FsWrite => 5 | Ffi => 6
  | Compute => 7 | Crypto => 8 | Process => 9 | Env => 10 | Term => 11 | Db => 12 | Time => 13
  | All => 14
  end.

#[export] Instance Capability_countable : Countable Capability.
Proof. by refine (inj_countable discriminant (fun i => variants !! i) _); intros []. Defined.

(** [Display for Capability] *)
Definition cap_to_string (c : Capability) : str :=
  bytes match c with
  | Net => "net" | NetHttp => "net:http" | NetTcp => "net:tcp" | Io => "io" | FsRead => "fs:read"
  | FsWrite => "fs:write" | Ffi => "ffi" | Compute => "compute" | Crypto => "crypto"
  | Process => "process" | Env => "env" | Term => "term" | Db => "db" | Time => "time" | All => "all"
  end.

(** [to_ascii_lowercase] on the characters that are not white space. *)
Definition normalize_name (s : str) : list Z :=
  map (fun c => if in_range (chr "A") (chr "Z") c then c + 32 else c)
    (List.filter (fun c => negb (is_whitespace c)) (default [] (utf8_chars s))).

(** The arms of [from_str]. *)
Definition name_arms : list (str * Capability) :=
  [(bytes "net", Net); (bytes "net:http", NetHttp); (bytes "net:tcp", NetTcp); (bytes "io", Io);
   (bytes "fs", Io); (bytes "fs:read", FsRead); (bytes "fs:write", FsWrite); (bytes "ffi", Ffi);
   (bytes "compute", Compute); (bytes "crypto", Crypto); (bytes "process", Process);
   (bytes "env", Env); (bytes "term", Term); (bytes "db", Db); (bytes "time", Time);
   (bytes "all", All)].

Definition parse_capability (s : str) : option Capability :=
  snd <$> find (fun arm => bool_decide (fst arm = normalize_name s)) name_arms.

Definition all_concrete : list Capability :=
  [Net; Io; Ffi; Compute; Crypto; Process; Env; Term; Db; Time].

(** [self.satisfies(required)] *)
Definition satisfies (c required : Capability) : bool :=
  if bool_decide (c = All) || bool_decide (c = required) then true
  else match c, required with
  | Net, NetHttp | Net, NetTcp | Io, FsRead | Io, FsWrite => true
  | _, _ => false
  end.

Definition overlaps (c d : Capability) : bool := satisfies c d || satisfies d c.

(* ------------------------------------------------------------------ *)
(** ** Sets                                                            *)
(* ------------------------------------------------------------------ *)

(** A [HashSet<Capability>]. *)
Abbreviation CapabilitySet := (gset Capability).

Definition insert_cap (cap : Capability) (s : CapabilitySet) : CapabilitySet := {[cap]} ∪ s.

Definition from_annotations (annotations : list Annotation) : CapabilitySet :=
  foldl (fun caps ann =>
      if bool_decide (an_name ann = bytes "capabilities") then
        foldl (fun caps arg =>
            match parse_capability arg with Some cap => insert_cap cap caps | None => caps end)
          caps (an_args ann)
      else caps)
    ∅ annotations.

Definition has (s : CapabilitySet) (cap : Capability) : bool :=
  bool_decide (All ∈ s) || bool_decide (cap ∈ s).

Definition satisfies_required (s : CapabilitySet) (required : Capability) : bool :=
  existsb (fun c => satisfies c required) (elements s).

Definition overlaps_capability (s : CapabilitySet) (cap : Capability) : bool :=
  existsb (fun c => overlaps c cap) (elements s).

Definition is_subset_of (s other : CapabilitySet) : bool :=
  forallb (satisfies_required other) (elements s).

Definition union_caps (s other : CapabilitySet) : CapabilitySet := s ∪ other.

Definition without (s : CapabilitySet) (denied : list Capability) : CapabilitySet :=
  filter (fun c => negb (existsb (fun d => overlaps c d) denied) = true) s.

Definition name_le (a b : Capability) : Prop := str_cmp (cap_to_string a) (cap_to_string b) <> Gt.

#[export] Instance name_le_dec a b : Decision (name_le a b).
Proof. unfold name_le. destruct (str_cmp _ _); [by left|by left|right; by intros H]. Defined.

(** Sorted by the name. *)
Definition excess_over (s other : CapabilitySet) : list Capability :=
  merge_sort name_le (List.filter (fun c => negb (satisfies_required other c)) (elements s)).

(** [@budget(N)]: the first annotation whose first argument is a [u64]. *)
Fixpoint budget_from_annotations (annotations : list Annotation) : option Z :=
  match annotations with
  | [] => None
  | ann :: rest =>
      match
        (if bool_decide (an_name ann = bytes "budget") then
           match an_args ann with arg :: _ => parse_u64 arg | [] => None end
         else None)
      with
      | Some limit => Some limit
      | None => budget_from_annotations rest
      end
  end.

Definition sandbox_from_annotations (annotations : list Annotation) : bool :=
  existsb (fun a => bool_decide (an_name a = bytes "sandbox")) annotations.

(* ------------------------------------------------------------------ *)
(** ** Laws of containment                                             *)
(* ------------------------------------------------------------------ *)

Lemma satisfies_refl c : satisfies c c = true.
Proof. by destruct c. Qed.

Lemma satisfies_trans a b c : satisfies a b = true -> satisfies b c = true -> satisfies a c = true.
Proof. by destruct a, b, c. Qed.

(** Two capabilities that both contain a third are comparable. *)
Lemma satisfies_tree a b c : satisfies a c = true -> satisfies b c = true -> overlaps a b = true.
Proof. by destruct a, b, c. Qed.

Lemma satisfies_required_spec s c :
  satisfies_required s c = true <-> exists k, k ∈ s /\ satisfies k c = true.
Proof.
  unfold satisfies_required. rewrite existsb_exists. setoid_rewrite <-list_elem_of_In.
  by setoid_rewrite elem_of_elements.
Qed.

Lemma is_subset_of_spec s t :
  is_subset_of s t = true <-> forall c, c ∈ s -> satisfies_required t c = true.
Proof.
  unfold is_subset_of. rewrite forallb_forall. setoid_rewrite <-list_elem_of_In.
  by setoid_rewrite elem_of_elements.
Qed.

(** C35: [is_subset_of] decides containment of authority: it holds exactly when
    whatever the first set grants, through families and [all], the second grants
    too, and exactly when there is no excess to report; the authority of a union
    is that of its parts. *)
Theorem subset_is_authority s t :
  (is_subset_of s t = true <->
     forall c, satisfies_required s c = true -> satisfies_required t c = true)
  /\ (is_subset_of s t = true <-> excess_over s t = [])
  /\ (forall c, satisfies_required (union_caps s t) c = satisfies_required s c || satisfies_required t c).
Proof.
  split_and!.
  - rewrite is_subset_of_spec. split.
    + intros Hsub c (k & Hk & Hkc)%satisfies_required_spec.
      apply Hsub, satisfies_required_spec in Hk as (j & Hj & Hjk).
      apply satisfies_required_spec. exists j. split; [done|]. by eapply satisfies_trans.
    + intros Hall c Hc. apply Hall, satisfies_required_spec. exists c. split; [done|apply satisfies_refl].
  - unfold is_subset_of, excess_over. generalize (elements s). intros l.
    assert (List.filter (fun c => negb (satisfies_required t c)) l = []
      <-> merge_sort name_le (List.filter (fun c => negb (satisfies_required t c)) l) = []) as <-.
    { split; [by intros ->|]. intros He. apply Permutation_nil. rewrite <-He. apply merge_sort_Permutation. }
    induction l as [|c l IH]; cbn; [by split|]. destruct (satisfies_required t c); cbn; [done|].
    by split.
  - intros c. apply eq_true_iff_eq. rewrite orb_true_iff, !satisfies_required_spec.
    unfold union_caps. set_solver.
Qed.

(** Attenuation by [deny!] is sound and no more than documented: what the
    narrowed set grants was granted before and overlaps no denied capability,
    and a capability of the set that overlaps none of them is kept. *)
Lemma without_denies s denied :
  (forall c, satisfies_required (without s denied) c = true ->
     satisfies_required s c = true /\ forall d, In d denied -> overlaps d c = false)
  /\ (forall c, c ∈ s -> (forall d, In d denied -> overlaps c d = false) -> c ∈ without s denied).
Proof.
  assert (Hin : forall c, c ∈ without s denied <->
    c ∈ s /\ forall d, In d denied -> overlaps c d = false).
  { intros c. unfold without. rewrite elem_of_filter, (and_comm _ (c ∈ s)), negb_true_iff, <-not_true_iff_false, existsb_exists.
    split; intros [H1 H2]; (split; [done|]).
    - intros d Hd. destruct (overlaps c d) eqn:Ho; [|done]. destruct H2. by exists d.
    - intros (d & Hd & Ho). by rewrite H2 in Ho. }
  split; [|intros c Hc Hd; by apply Hin].
  intros c (k & Hk & Hkc)%satisfies_required_spec. apply Hin in Hk as [Hk Hnone]. split.
  - apply satisfies_required_spec. by exists k.
  - intros d Hd. specialize (Hnone d Hd). destruct (overlaps d c) eqn:Ho; [|done].
    assert (Hkd : satisfies k d = false) by (by apply orb_false_iff in Hnone as [? _]).
    apply orb_true_iff in Ho as [Ho|Ho].
    + by rewrite (satisfies_tree k d c Hkc Ho) in Hnone.
    + by rewrite (satisfies_trans k c d Hkc Ho) in Hkd.
Qed.

Lemma find_unique_arm {A B} `{EqDecision A} (l : list (A * B)) k b :
  NoDup (map fst l) -> snd <$> find (fun arm => bool_decide (fst arm = k)) l = Some b <-> In (k, b) l.
Proof.
  induction l as [|[k' b'] l IH]; cbn; [done|]. intros [Hk Hnd]%NoDup_cons.
  destruct (bool_decide_reflect (k' = k)) as [->|Hne]; cbn.
  - split; [intros [= <-]; by left|]. intros [[= ->]|Hin]; [done|].
    destruct Hk. apply list_elem_of_In. apply (in_map fst _ _ Hin).
  - rewrite IH by done. split; [by right|]. intros [[= ? ?]|?]; done.
Qed.

(** A capability name is recognised exactly when, white space and case
    aside, it is the capability's [Display] text, or [fs] for [io]; so
    annotations written from [Display] are read back. *)
Lemma capability_names s c :
  parse_capability s = Some c <->
  normalize_name s = cap_to_string c \/ (c = Io /\ normalize_name s = bytes "fs").
Proof.
  unfold parse_capability. rewrite find_unique_arm by (apply (bool_decide_unpack _); by vm_compute).
  split.
  - intros Hin. unfold name_arms in Hin. cbn [In] in Hin.
    repeat (destruct Hin as [[= <- <-]|Hin]; [first [by left|by right]|]). done.
  - intros [-> |[-> ->]]; [|by (do 4 right; left)].
    destruct c; unfold name_arms, cap_to_string; cbn [In]; tauto.
Qed.

Example spaced_name : parse_capability (bytes "Net : HTTP") = Some NetHttp.
Proof. vm_compute. reflexivity. Qed.
