(* ===== verification/Builtins.v ===== *)
(** What a call of a builtin or of a native runtime symbol requires
    ([kryos-capabilities/src/model.rs], the gates and tables, and
    [kryos-capabilities/src/native_symbols.rs]).

    The thread-local cells that switch the raw-memory gate are the record
    [Gate], passed where the code reads them. *)

From S2P Require Import Prelude Machine Utf8 Text Capability.

#[local] Open Scope string_scope.

Definition PROHIBITED_SELF_HEAL_ACTIONS : list string :=
  ["add_capability"; "widen_sandbox"; "increase_budget"; "remove_spawn_limit";
   "modify_annotations"; "escalate_tier"].

Definition RAW_MEMORY_BUILTINS : list string :=
  ["alloc"; "free_bytes"; "ptr_read_i64"; "ptr_write_i64"; "ptr_byte_at"; "ptr_set_byte";
   "str_to_ptr"; "arr_to_ptr"].

Definition STD_RAW_MEMORY_HELPERS : list string :=
  ["arr_data_ptr"; "_bytes_to_hex"].

Definition STD_FFI_EXPORTS : list string :=
  ["open"; "sym"; "close"; "call0"; "call1"; "call2"; "call3"; "call4"; "call5"; "call6"; "callv0";
   "callv1"; "callv2"; "callv3"; "callv4"; "callv_4f"; "cstr"; "from_ptr"; "alloc"; "free";
   "read_i8"; "read_i16"; "read_i32"; "read_i64"; "read_f32"; "read_f64"; "write_i8"; "write_i16";
   "write_i32"; "write_i64"; "write_f32"; "write_f64"].

Definition KNOWN_BUILTIN_NAMES : list string :=
  ["println"; "print"; "eprintln"; "len"; "range"; "Range"; "to_string"; "abs"; "abs_f"; "type_of";
   "parse_int"; "parse_float"; "str"; "int"; "float"; "sqrt"; "sin"; "cos"; "tan"; "log"; "log2";
   "log10"; "pow"; "floor"; "ceil"; "round"; "min"; "min_f"; "max"; "max_f"; "assert"; "assert_eq";
   "panic"; "push"; "pop"; "sort"; "reverse"; "substr"; "contains"; "char_code"; "byte_at";
   "char_from"; "chr"; "index_of"; "starts_with"; "ends_with"; "trim"; "to_upper"; "to_lower";
   "replace"; "split"; "join"; "keys"; "exit"; "abort"; "time_now"; "time_now_secs";
   "time_now_millis"; "time_millis"; "sleep"; "sleep_ms"; "file_exists"; "args"; "read_line";
   "__get_process_args"; "__int_to_float"; "__builtin_len"; "__builtin_pop"; "__builtin_push";
   "__builtin_range"; "json_object"; "json_array"; "json_string"; "json_number"; "json_bool";
   "json_null"; "json_get"; "json_get_index"; "json_set"; "json_length"; "json_type";
   "json_is_null"; "json_to_int"; "json_to_float"; "json_to_str"; "json_parse"; "json_stringify";
   "map_has"; "map_delete"; "map_keys"; "__builtin_map_has"; "__builtin_map_has_str";
   "__builtin_map_delete"; "__builtin_map_delete_str"; "__builtin_map_keys";
   "__builtin_map_keys_str"; "buf_new"; "buf_free"; "buf_len"; "buf_get_byte"; "buf_set_byte";
   "buf_write_byte"; "buf_write_bytes"; "buf_write_str"; "buf_write_zeros"; "buf_write_i16_le";
   "buf_write_i32_le"; "buf_write_i64_le"; "buf_patch_i32_le"; "buf_patch_i64_le"; "buf_str";
   "buf_to_str"; "base64_encode"; "base64_decode"; "base64url_to_hex"; "hex_to_base64url";
   "regex_new"; "regex_drop"; "regex_match"; "regex_find"; "regex_find_end"; "regex_find_pos";
   "regex_replace_all"; "chan"; "close_chan"; "send"; "recv"; "chan_try_recv"; "chan_is_closed";
   "chan_last_recv"; "coop_spawn"; "coop_yield"; "coop_run"; "coop_reset"; "coop_order";
   "coop_record"; "mutex_new"; "mutex_lock"; "mutex_unlock"; "mutex_drop"; "handle_to_str";
   "mem_copy"; "mem_read_byte"; "mem_write_byte"; "mem_read_i64"; "mem_write_i64"; "str_data_ptr";
   "str_byte_len"; "str_from_bytes"; "wrapping_add"; "wrapping_sub"; "wrapping_mul"; "checked_add";
   "checked_sub"; "checked_mul"; "saturating_add"; "saturating_sub"; "saturating_mul"; "syscall1";
   "syscall2"; "syscall3"; "syscall6"; "dom_get_value"; "dom_set_text"; "alert"; "canvas_clear";
   "canvas_fill_rect"; "file_read"; "read_file"; "path_exists"; "is_file"; "is_dir"; "file_size";
   "list_dir"; "walk_dir"; "file_write"; "write_file"; "append_file"; "buf_write_to_file";
   "create_dir"; "remove_file"; "remove_dir"; "copy_file"; "rename_file"; "env_get"; "env_set";
   "exec"; "spawn_process"; "http_get"; "http_post"; "http_request"; "https_get"; "fetch_text";
   "http2_get"; "http2_post"; "http2_request"; "tcp_connect"; "tcp_listen"; "tcp_accept";
   "tcp_send"; "tcp_recv"; "tcp_close"; "tcp_bind"; "tcp_set_nonblocking"; "tcp_try_accept";
   "tcp_try_recv"; "tls_server_config"; "tls_accept"; "tls_send"; "tls_recv"; "tls_close";
   "uds_connect"; "uds_bind"; "uds_accept"; "uds_send"; "uds_recv"; "uds_close"; "pg_connect";
   "pg_exec"; "pg_query"; "pg_close"; "ws_accept_key"; "ws_encode_text"; "ws_encode_binary";
   "ws_encode_close"; "ws_encode_ping"; "ws_encode_pong"; "ws_unmask"; "ws_read_frame";
   "term_clear"; "term_raw_mode"; "term_size"; "sha256"; "sha512"; "sha1_hex"; "sha1_base64";
   "hmac_sha256"; "pbkdf2_sha256"; "random_bytes"; "ed25519_generate"; "ed25519_public";
   "ed25519_sign"; "ed25519_verify"].

(** The arms of [required_capability_for_builtin] that require one. *)
Definition builtin_arms : list (list string * Capability) :=
  [
  (["file_read"; "read_file"], FsRead);
  (["path_exists"; "file_exists"; "is_file"; "is_dir"; "file_size"; "list_dir"; "walk_dir"], FsRead);
  (["file_write"; "write_file"; "append_file"; "buf_write_to_file"; "create_dir"; "remove_file";
    "remove_dir"; "copy_file"; "rename_file"], FsWrite);
  (["env_get"; "env_set"; "exec"; "spawn_process"], Process);
  (["http_get"; "http_post"; "http_request"; "https_get"; "fetch_text"; "http2_get"; "http2_post";
    "http2_request"], NetHttp);
  (["tcp_connect"; "tcp_listen"; "tcp_accept"; "tcp_send"; "tcp_recv"; "tcp_close"; "tcp_bind";
    "tcp_set_nonblocking"; "tcp_try_accept"; "tcp_try_recv"; "tls_server_config"; "tls_accept";
    "tls_send"; "tls_recv"; "tls_close"; "uds_connect"; "uds_bind"; "uds_accept"; "uds_send";
    "uds_recv"; "uds_close"], NetTcp);
  (["pg_connect"; "pg_exec"; "pg_query"; "pg_close"; "ws_accept_key"; "ws_encode_text";
    "ws_encode_binary"; "ws_encode_close"; "ws_encode_ping"; "ws_encode_pong"; "ws_unmask";
    "ws_read_frame"], Net);
  (["term_clear"; "term_raw_mode"; "term_size"], Term);
  (["sha256"; "sha512"; "sha1_hex"; "sha1_base64"; "hmac_sha256"; "pbkdf2_sha256"; "random_bytes";
    "ed25519_generate"; "ed25519_public"; "ed25519_sign"; "ed25519_verify"], Crypto)].

(** The arms of [spelled_native_symbol_capability]. *)
Definition spelled_arms : list (list string * Capability) :=
  [
  (["process_exec"; "process_exec_simple"], Process);
  (["dir_create"; "dir_remove"; "file_remove"; "fs_delete"; "file_append"], FsWrite);
  (["dir_list"; "dir_walk"; "fs_exists"], FsRead);
  (["https_get"; "http_request"; "http2_get"; "http2_post"; "http2_request"], NetHttp);
  (["socket_close"; "tls_server_config"; "tls_accept"; "uds_accept"; "uds_close"], NetTcp)].

Definition CAPABILITY_NATIVES : list (string * Capability) :=
  [("alloc", Ffi); ("alloc_bytes", Ffi); ("arr_to_ptr", Ffi); ("calloc", Ffi); ("dealloc", Ffi);
   ("free", Ffi); ("free_bytes", Ffi); ("realloc", Ffi); ("str_to_ptr", Ffi);
   ("arc_ref_count", Ffi); ("arc_release", Ffi); ("arc_release_i64", Ffi); ("arc_retain", Ffi);
   ("arc_retain_i64", Ffi); ("arc_set_drop", Ffi); ("arc_set_drop_i64", Ffi);
   ("struct_release_shared", Ffi); ("struct_retain", Ffi); ("buf_write_to_file", FsWrite);
   ("builtin_create_dir", FsWrite); ("builtin_file_append", FsWrite);
   ("builtin_file_write", FsWrite); ("dir_create", FsWrite); ("file_remove", FsWrite);
   ("file_write", FsWrite); ("fs_delete", FsWrite); ("fs_rename", FsWrite); ("fs_write", FsWrite);
   ("builtin_env_get", Process); ("env_cwd", Process); ("env_get", Process); ("env_home", Process);
   ("env_set", Process); ("env_unset", Process); ("process_exec", Process);
   ("process_exec_simple", Process); ("builtin_file_exists", FsRead);
   ("builtin_file_read", FsRead); ("builtin_file_size", FsRead); ("dir_list", FsRead);
   ("dir_walk", FsRead); ("file_read", FsRead); ("fs_exists", FsRead); ("fs_read", FsRead);
   ("path_absolute", FsRead); ("path_exists", FsRead); ("path_is_dir", FsRead);
   ("path_is_file", FsRead); ("builtin_http_get", NetHttp); ("fetch_text", NetHttp);
   ("fetch_text_ks", NetHttp); ("http2_get_ks", NetHttp); ("http2_post_ks", NetHttp);
   ("http2_request_ks", NetHttp); ("http_fetch", NetHttp); ("http_request_ks", NetHttp);
   ("https_get_ks", NetHttp); ("db_bind_int", Db); ("db_bind_null", Db); ("db_bind_text", Db);
   ("db_close", Db); ("db_col_count", Db); ("db_col_int", Db); ("db_col_is_null", Db);
   ("db_col_text_copy", Db); ("db_col_text_len", Db); ("db_exec", Db); ("db_finalize", Db);
   ("db_open", Db); ("db_open_memory", Db); ("db_prepare", Db); ("db_step", Db);
   ("db_stmt_execute", Db); ("db_stmt_finalize", Db); ("db_stmt_prepare", Db);
   ("db_stmt_query", Db); ("ed25519_generate_ks", Crypto); ("ed25519_public_ks", Crypto);
   ("ed25519_sign_ks", Crypto); ("ed25519_verify_ks", Crypto); ("hmac_sha256_ks", Crypto);
   ("pbkdf2_sha256_ks", Crypto); ("random_bytes", Crypto); ("random_bytes_ks", Crypto);
   ("sha1", Crypto); ("sha1_base64_ks", Crypto); ("sha1_hex_ks", Crypto); ("sha256", Crypto);
   ("sha256_ks", Crypto); ("sha512", Crypto); ("sha512_ks", Crypto); ("ffi_cstr", Ffi);
   ("ffi_dlcall0", Ffi); ("ffi_dlcall1", Ffi); ("ffi_dlcall2", Ffi); ("ffi_dlcall3", Ffi);
   ("ffi_dlcall4", Ffi); ("ffi_dlcall5", Ffi); ("ffi_dlcall6", Ffi); ("ffi_dlcall7", Ffi);
   ("ffi_dlcall8", Ffi); ("ffi_dlcallv0", Ffi); ("ffi_dlcallv1", Ffi); ("ffi_dlcallv2", Ffi);
   ("ffi_dlcallv3", Ffi); ("ffi_dlcallv4", Ffi); ("ffi_dlcallv5", Ffi); ("ffi_dlcallv6", Ffi);
   ("ffi_dlcallv7", Ffi); ("ffi_dlcallv_3f32", Ffi); ("ffi_dlcallv_4f", Ffi);
   ("ffi_dlcallv_4f32", Ffi); ("ffi_dlclose", Ffi); ("ffi_dlopen", Ffi); ("ffi_dlsym", Ffi);
   ("ffi_free", Ffi); ("ffi_malloc", Ffi); ("ffi_read_f32", Ffi); ("ffi_read_f32_bits", Ffi);
   ("ffi_read_f64", Ffi); ("ffi_read_f64_bits", Ffi); ("ffi_read_i16", Ffi); ("ffi_read_i32", Ffi);
   ("ffi_read_i64", Ffi); ("ffi_read_i8", Ffi); ("ffi_string_from_ptr", Ffi); ("ffi_strlen", Ffi);
   ("ffi_write_f32", Ffi); ("ffi_write_f32_bits", Ffi); ("ffi_write_f64", Ffi);
   ("ffi_write_f64_bits", Ffi); ("ffi_write_i16", Ffi); ("ffi_write_i32", Ffi);
   ("ffi_write_i64", Ffi); ("ffi_write_i8", Ffi); ("file_open", FsWrite); ("pg_close", Net);
   ("pg_close_ks", Net); ("pg_connect", Net); ("pg_connect_ks", Net); ("pg_exec", Net);
   ("pg_exec_ks", Net); ("pg_query", Net); ("pg_query_ks", Net); ("ws_accept_key_ks", Net);
   ("ws_decode_frame_ks", Net); ("ws_encode_binary_ks", Net); ("ws_encode_close", Net);
   ("ws_encode_ping_ks", Net); ("ws_encode_pong_ks", Net); ("ws_encode_text_ks", Net);
   ("ws_read_frame_ks", Net); ("ws_unmask_ks", Net); ("poll_readable", NetTcp);
   ("socket_close", NetTcp); ("socket_close_ks", NetTcp); ("tcp_accept", NetTcp);
   ("tcp_bind", NetTcp); ("tcp_bind_ks", NetTcp); ("tcp_connect", NetTcp);
   ("tcp_connect_ks", NetTcp); ("tcp_recv", NetTcp); ("tcp_recv_ks", NetTcp); ("tcp_send", NetTcp);
   ("tcp_send_ks", NetTcp); ("tcp_set_nonblocking", NetTcp); ("tcp_try_accept", NetTcp);
   ("tcp_try_recv_ks", NetTcp); ("tls_accept", NetTcp); ("tls_close", NetTcp);
   ("tls_close_ks", NetTcp); ("tls_connect", NetTcp); ("tls_recv", NetTcp);
   ("tls_recv_ks", NetTcp); ("tls_send", NetTcp); ("tls_send_ks", NetTcp);
   ("tls_server_config", NetTcp); ("tls_server_config_ks", NetTcp); ("uds_accept", NetTcp);
   ("uds_bind", NetTcp); ("uds_bind_ks", NetTcp); ("uds_close", NetTcp); ("uds_connect", NetTcp);
   ("uds_connect_ks", NetTcp); ("uds_recv", NetTcp); ("uds_recv_ks", NetTcp); ("uds_send", NetTcp);
   ("uds_send_ks", NetTcp); ("ptr_byte_at", Ffi); ("ptr_read_i64", Ffi); ("ptr_set_byte", Ffi);
   ("ptr_write_i64", Ffi); ("term_clear", Term); ("term_cursor_move", Term); ("term_height", Term);
   ("term_raw_disable", Term); ("term_raw_enable", Term); ("term_width", Term)].

Definition AMBIENT_NATIVES : list string :=
  ["actor_lock"; "actor_lock_i64"; "actor_recv"; "actor_recv_i64"; "actor_recv_timeout_i64";
   "actor_report_exception"; "actor_send"; "actor_send_i64"; "actor_spawn"; "actor_spawn_i64";
   "actor_unlock"; "actor_unlock_i64"; "actor_wait_all"; "async_block_on"; "async_current_task";
   "async_park_current"; "async_run"; "async_set_result"; "async_spawn"; "async_spawn_task";
   "async_take_result"; "async_wake"; "async_yield_now"; "chan_clone"; "chan_close";
   "chan_close_i64"; "chan_drop"; "chan_drop_i64"; "chan_is_closed"; "chan_is_closed_i64";
   "chan_last_recv_i64"; "chan_new"; "chan_new_i64"; "chan_recv"; "chan_recv_i64";
   "chan_recv_timeout_i64"; "chan_send"; "chan_send_i64"; "chan_try_recv";
   "chan_try_recv_status_i64"; "closure_lock_acquire"; "closure_lock_release"; "coop_current";
   "coop_io_begin"; "coop_io_end"; "coop_order"; "coop_record"; "coop_reset"; "coop_run";
   "coop_spawn"; "coop_yield"; "mutex_drop"; "mutex_lock"; "mutex_new"; "mutex_unlock"; "spawn";
   "spawn_wait_all"; "alert"; "array_length"; "array_pop"; "canvas_clear"; "canvas_fill_rect";
   "dom_get_value"; "dom_set_text"; "json_get_int"; "json_get_str"; "print_f64"; "print_i64";
   "regex_replace"; "regex_test"; "string_index_of"; "string_length"; "string_parse_float";
   "string_parse_int"; "alert_ks"; "canvas_clear_ks"; "canvas_fill_rect_ks"; "dom_get_value_ks";
   "dom_set_text_ks"; "json_array"; "json_bool"; "json_get"; "json_get_index"; "json_is_null";
   "json_length"; "json_null"; "json_number"; "json_object"; "json_parse"; "json_string";
   "json_stringify"; "json_to_float"; "json_to_int"; "json_to_str"; "json_type"; "path_basename";
   "path_dirname"; "path_extension"; "path_free"; "path_join"; "rand_bool"; "rand_bytes";
   "rand_f64"; "rand_i64"; "rand_seed"; "regex_capture"; "regex_capture_at"; "regex_capture_count";
   "regex_drop"; "regex_drop_ks"; "regex_find"; "regex_find_at"; "regex_find_end_ks";
   "regex_find_ks"; "regex_find_pos_ks"; "regex_is_match"; "regex_is_match_ks"; "regex_new";
   "regex_new_ks"; "regex_replace_all"; "regex_replace_all_ks"; "tensor_add"; "tensor_arange";
   "tensor_argmax"; "tensor_argmin"; "tensor_cross_entropy"; "tensor_div"; "tensor_exp";
   "tensor_eye"; "tensor_flatten"; "tensor_free"; "tensor_from_data"; "tensor_get"; "tensor_log";
   "tensor_matmul"; "tensor_max"; "tensor_mean"; "tensor_min"; "tensor_mse_loss"; "tensor_mul";
   "tensor_ndim"; "tensor_neg"; "tensor_numel"; "tensor_ones"; "tensor_pow"; "tensor_rand";
   "tensor_randn"; "tensor_relu"; "tensor_reshape"; "tensor_scale"; "tensor_set";
   "tensor_shape_dim"; "tensor_sigmoid"; "tensor_softmax"; "tensor_sqrt"; "tensor_sub";
   "tensor_sum"; "tensor_tanh"; "tensor_to_string"; "tensor_transpose"; "tensor_zeros";
   "uuid_format"; "uuid_parse"; "uuid_v4_bytes"; "array_clone"; "array_clone_deep"; "array_concat";
   "array_contains"; "array_contains_f64"; "array_contains_str"; "array_dup"; "array_free";
   "array_free_chain"; "array_free_elems"; "array_free_tuples"; "array_free_typed"; "array_get";
   "array_len"; "array_new"; "array_null_panic"; "array_oob_panic"; "array_push";
   "array_release_if_ne"; "array_retain"; "array_retain_opt"; "array_set";
   "array_typed_release_if_ne"; "map_clone"; "map_delete"; "map_delete_str"; "map_free";
   "map_free_tuple_values"; "map_free_typed"; "map_free_with"; "map_get"; "map_get_or_empty";
   "map_get_str"; "map_get_str_or_empty"; "map_has"; "map_has_str"; "map_insert"; "map_insert_str";
   "map_keys"; "map_keys_str"; "map_len"; "map_new"; "map_release_if_ne"; "map_retain";
   "map_retain_opt"; "map_snapshot"; "tuple_box_release_if_ne"; "tuple_handle_release_if_ne";
   "tuple_release"; "b64url_to_hex_ks"; "base64_decode"; "base64_decode_ks"; "base64_encode";
   "base64_encode_ks"; "buf_contents_to_str"; "buf_free"; "buf_get_byte"; "buf_len"; "buf_new";
   "buf_patch_i32_le"; "buf_patch_i64_le"; "buf_set_byte"; "buf_to_str"; "buf_write_byte";
   "buf_write_bytes"; "buf_write_i16_le"; "buf_write_i32_le"; "buf_write_i64_le"; "buf_write_str";
   "buf_write_zeros"; "hex_to_b64url_ks"; "bool_to_string"; "byte_at_ks"; "chr_ks";
   "f64_to_string"; "handle_to_str"; "i64_to_string"; "str_concat"; "str_contains";
   "str_ends_with"; "str_free"; "str_len"; "str_parse_f64"; "str_parse_i64"; "str_repeat";
   "str_replace"; "str_starts_with"; "str_to_lower"; "str_to_upper"; "str_trim"; "string_char_at";
   "string_clone"; "string_compare"; "string_concat"; "string_contains"; "string_ends_with";
   "string_eq"; "string_find"; "string_free"; "string_hash"; "string_len"; "string_new";
   "string_release_if_ne"; "string_replace"; "string_retain"; "string_retain_opt"; "string_slice";
   "string_starts_with"; "string_to_lower"; "string_to_upper"; "string_trim"; "u64_to_string";
   "arc_alloc"; "arc_alloc_i64"; "box_or_zero"; "dyn_drop"; "field_set"; "fn_release_if_ne";
   "fn_retain"; "global_get"; "global_has"; "global_set"; "budget_active"; "budget_charge_tokens";
   "budget_charge_usd_micros"; "budget_pop_to"; "budget_push"; "budget_push_usd";
   "budget_remaining_calls"; "budget_remaining_tokens"; "budget_remaining_usd_micros";
   "budget_try_call"; "builtin_abs"; "builtin_abs_f"; "builtin_ceil"; "builtin_cos";
   "builtin_float"; "builtin_float_from_float"; "builtin_floor"; "builtin_int";
   "builtin_int_from_float"; "builtin_log"; "builtin_log10"; "builtin_log2"; "builtin_max";
   "builtin_max_f"; "builtin_min"; "builtin_min_f"; "builtin_pow"; "builtin_sin"; "builtin_sqrt";
   "builtin_tan"; "check_div_zero_f64"; "check_div_zero_i64"; "check_sdiv_i64"; "checked_add_i64";
   "checked_mul_i64"; "checked_sub_i64"; "f64_from_bits"; "f64_to_bits"; "fmod"; "fpow"; "ipow";
   "math_abs_f64"; "math_abs_i64"; "math_ceil"; "math_clamp_f64"; "math_cos"; "math_e";
   "math_floor"; "math_log"; "math_log10"; "math_log2"; "math_max_f64"; "math_max_i64";
   "math_min_f64"; "math_min_i64"; "math_pi"; "math_pow"; "math_round"; "math_sin"; "math_sqrt";
   "math_tan"; "saturating_add_i64"; "saturating_mul_i64"; "saturating_sub_i64";
   "wrapping_add_i64"; "wrapping_mul_i64"; "wrapping_sub_i64"; "builtin_args"; "builtin_exit";
   "env_args_count"; "env_platform"; "process_argc"; "process_argv"; "process_exit";
   "builtin_assert"; "builtin_assert_eq"; "builtin_panic"; "dbg_line"; "diag_site";
   "exception_check"; "exception_report_thread_fatal_if_pending";
   "exception_report_thread_if_pending"; "exception_report_uncaught_if_pending"; "exception_take";
   "exception_throw"; "panic"; "panic_with_location"; "rt_init"; "trace_enter"; "trace_exit";
   "builtin_char_code"; "builtin_char_from"; "builtin_contains"; "builtin_ends_with";
   "builtin_index_of"; "builtin_join"; "builtin_len"; "builtin_parse_float"; "builtin_parse_int";
   "builtin_pop"; "builtin_push"; "builtin_replace"; "builtin_reverse"; "builtin_sort";
   "builtin_sort_f64"; "builtin_sort_str"; "builtin_split"; "builtin_starts_with";
   "builtin_substr"; "builtin_to_lower"; "builtin_to_string"; "builtin_to_upper"; "builtin_trim";
   "builtin_trim_end"; "builtin_trim_start"; "builtin_type_of"; "builtin_read_line";
   "eprintln_str"; "file_close"; "print_int"; "print_str"; "println_int"; "println_str";
   "stderr_write"; "stdin_read"; "stdout_write"; "builtin_time_now"; "sleep"; "sleep_ms";
   "time_day_utc"; "time_format_rfc3339_utc"; "time_from_ymdhms_utc"; "time_hour_utc";
   "time_minute_utc"; "time_month_utc"; "time_now_millis"; "time_now_nanos"; "time_now_secs";
   "time_second_utc"; "time_sleep_millis"; "time_weekday_utc"; "time_year_utc"].

#[local] Close Scope string_scope.

(** [SLICE.contains(&name)] *)
Definition contains (l : list string) (name : string) : bool := existsb (String.eqb name) l.

Definition is_escalation_action (name : string) : bool := contains PROHIBITED_SELF_HEAL_ACTIONS name.

(* ------------------------------------------------------------------ *)
(** ** The raw-memory gate                                             *)
(* ------------------------------------------------------------------ *)

(** [GATE_RAW_MEMORY] and [GATE_RAW_MEMORY_NAMES]. *)
Record Gate := mkGate { gate_raw : bool; gate_names : list string }.

Definition no_gate : Gate := mkGate false [].

(** [f] runs with the gate's cells in view. *)
Definition with_raw_memory_gate {A} (f : Gate -> A * Gate) (g : Gate) : A * Gate :=
  let '(out, g) := f (mkGate true (gate_names g)) in (out, mkGate false (gate_names g)).

Definition with_raw_memory_gate_for {A} (extra_names : list string) (f : Gate -> A * Gate) (g : Gate)
  : A * Gate :=
  let '(out, g) := with_raw_memory_gate f (mkGate (gate_raw g) extra_names) in
  (out, mkGate (gate_raw g) []).

Definition raw_memory_extra_gated (g : Gate) (name : string) : bool := contains (gate_names g) name.
Definition raw_memory_gated (g : Gate) : bool := gate_raw g.

Definition is_known_builtin_name (name : string) : bool :=
  contains KNOWN_BUILTIN_NAMES name || contains RAW_MEMORY_BUILTINS name.

(** The first arm that lists the name. *)
Definition match_arms (arms : list (list string * Capability)) (name : string) : option Capability :=
  snd <$> find (fun arm => contains (fst arm) name) arms.

Definition required_capability_for_builtin (g : Gate) (name : string) : option Capability :=
  if raw_memory_gated g && (contains RAW_MEMORY_BUILTINS name || raw_memory_extra_gated g name)
  then Some Ffi
  else match_arms builtin_arms name.

(* ------------------------------------------------------------------ *)
(** ** Native symbols                                                  *)
(* ------------------------------------------------------------------ *)

Inductive NativeClass := Ambient | Requires (c : Capability).

(** Inserting a name that is already there is a failed assertion. *)
Definition table_insert (m : gmap string NativeClass) (e : string * NativeClass)
  : res (gmap string NativeClass) :=
  match m !! fst e with
  | Some _ => Panic
  | None => Done (<[fst e := snd e]> m)
  end.

Fixpoint table_insert_all (l : list (string * NativeClass)) (m : gmap string NativeClass)
  : res (gmap string NativeClass) :=
  match l with
  | [] => Done m
  | e :: l => m ← table_insert m e; table_insert_all l m
  end.

Definition native_table : res (gmap string NativeClass) :=
  m ← table_insert_all (map (fun e => (fst e, Requires (snd e))) CAPABILITY_NATIVES) ∅;
  table_insert_all (map (fun n => (n, Ambient)) AMBIENT_NATIVES) m.

Definition classify_native_symbol (sym : string) : res (option NativeClass) :=
  m ← native_table;
  Done (m !! sym).

(** [s.strip_prefix(p).unwrap_or(s)] and [s.strip_suffix(p).unwrap_or(s)]. *)
Definition drop_prefix (p s : string) : string :=
  if String.prefix p s then String.substring (String.length p) (String.length s - String.length p) s else s.
Definition drop_suffix (p s : string) : string :=
  let n := (String.length s - String.length p)%nat in
  if (String.length p <=? String.length s)%nat && String.eqb (String.substring n (String.length p) s) p
  then String.substring 0 n s else s.

Definition normalize_symbol (sym : string) : string := drop_prefix "builtin_" (drop_suffix "_ks" sym).

Definition spelled_native_symbol_capability (g : Gate) (sym : string) : option Capability :=
  match required_capability_for_builtin g sym with
  | Some c => Some c
  | None =>
      let norm := normalize_symbol sym in
      match (if negb (String.eqb norm sym) then required_capability_for_builtin g norm else None) with
      | Some c => Some c
      | None => match_arms spelled_arms norm
      end
  end.

Definition required_capability_for_native_symbol (g : Gate) (sym : string) : res (option Capability) :=
  class ← classify_native_symbol sym;
  Done match class with
       | Some Ambient => None
       | Some (Requires c) => Some c
       | None =>
           match spelled_native_symbol_capability g sym with
           | Some c => Some c
           | None => Some Ffi
           end
       end.

(** The arms of [required_capability_for_path], on the second segment. *)
Definition path_arms : list (list string * Capability) :=
  [(["net"], Net); (["io"; "fs"], Io); (["ffi"], Ffi); (["compute"], Compute); (["crypto"], Crypto);
   (["process"], Process); (["env"], Env); (["term"], Term); (["db"], Db); (["time"], Time)]%string.

Definition required_capability_for_path (segments : list string) : option Capability :=
  match segments with
  | s0 :: s1 :: _ => if String.eqb s0 "std" then match_arms path_arms s1 else None
  | _ => None
  end.

Example fs_read_native :
  required_capability_for_native_symbol no_gate "path_is_dir" = Done (Some FsRead)
  /\ required_capability_for_native_symbol no_gate "http_get_ks" = Done (Some NetHttp)
  /\ required_capability_for_native_symbol no_gate "unheard_of" = Done (Some Ffi).
Proof. vm_compute. split_and!; reflexivity. Qed.

(* ------------------------------------------------------------------ *)
(** ** The tables                                                      *)
(* ------------------------------------------------------------------ *)

Lemma contains_spec l name : contains l name = true <-> In name l.
Proof.
  unfold contains. rewrite existsb_exists. split.
  - intros (x & Hx & ->%String.eqb_eq). done.
  - intros Hin. exists name. by rewrite String.eqb_refl.
Qed.

Lemma match_arms_In arms name c :
  match_arms arms name = Some c -> exists names, In (names, c) arms /\ In name names.
Proof.
  unfold match_arms. destruct (find _ arms) as [[names c']|] eqn:Hf; [|done]. intros [= <-].
  apply find_some in Hf as [Hin Hc%contains_spec]. by exists names.
Qed.

Lemma table_insert_all_Done l m :
  base.NoDup l.*1 -> (forall e, In e l -> m !! fst e = None) ->
  table_insert_all l m = Done (list_to_map l ∪ m).
Proof.
  revert m. induction l as [|[k v] l IH]; intros m Hnd Hm; [cbn; f_equal; symmetry; apply (left_id_L ∅ (∪))|].
  cbn in Hnd. apply NoDup_cons in Hnd as [Hk Hnd].
  pose proof (Hm (k, v) (or_introl eq_refl)) as Hk0. cbn in Hk0.
  cbn [table_insert_all table_insert fst snd]. unfold table_insert. cbn [fst snd].
  rewrite Hk0. cbn. rewrite IH; [|done|].
  - f_equal. rewrite <-insert_union_l, <-insert_union_r; [done|].
    by apply not_elem_of_list_to_map.
  - intros [k' v'] He. cbn. rewrite lookup_insert_ne; [by apply (Hm (k', v')); right|].
    intros <-. destruct Hk. apply list_elem_of_In. apply (in_map fst _ _ He).
Qed.

(** Every classified symbol, with its class. *)
Definition classified : list (string * NativeClass) :=
  map (fun n => (n, Ambient)) AMBIENT_NATIVES
  ++ map (fun e => (fst e, Requires (snd e))) CAPABILITY_NATIVES.

Fixpoint distinctb (l : list string) : bool :=
  match l with [] => true | x :: l => negb (contains l x) && distinctb l end.

Lemma distinctb_NoDup l : distinctb l = true -> base.NoDup l.
Proof.
  induction l as [|x l IH]; cbn; [constructor|]. intros [Hx Hl]%andb_true_iff.
  apply NoDup_cons. split; [|by apply IH]. intros Hin%list_elem_of_In%contains_spec.
  by rewrite Hin in Hx.
Qed.

Lemma classified_NoDup : base.NoDup classified.*1.
Proof. apply distinctb_NoDup. vm_compute. reflexivity. Qed.

(** No native is classified twice, so building the table fails no assertion. *)
Lemma native_table_total : native_table = Done (list_to_map classified).
Proof.
  pose proof classified_NoDup as Hnd. unfold classified in *. rewrite fmap_app in Hnd.
  apply NoDup_app in Hnd as (Ha & Hd & Hc). unfold native_table.
  rewrite (table_insert_all_Done _ ∅ Hc); [|done]. cbn [mbind res_bind].
  etrans; [apply (table_insert_all_Done _ _ Ha)|].
  - intros e He. rewrite (right_id_L ∅ (∪)). apply not_elem_of_list_to_map. apply Hd.
    apply list_elem_of_In. by apply in_map.
  - by rewrite (right_id_L ∅ (∪)), list_to_map_app.
Qed.

Lemma classify_spec sym k :
  classify_native_symbol sym = Done (Some k) <-> In (sym, k) classified.
Proof.
  unfold classify_native_symbol. rewrite native_table_total. cbn [mbind res_bind].
  rewrite <-list_elem_of_In. rewrite (elem_of_list_to_map _ _ _ classified_NoDup).
  match goal with |- Done ?o = _ <-> _ => generalize o end.
  intros o. split; [by intros [= ->]|by intros ->].
Qed.

Lemma classify_total sym : exists o, classify_native_symbol sym = Done o.
Proof. unfold classify_native_symbol. rewrite native_table_total. eexists. reflexivity. Qed.

Lemma ambient_classified sym : In (sym, Ambient) classified <-> In sym AMBIENT_NATIVES.
Proof.
  unfold classified. rewrite in_app_iff, !in_map_iff. split.
  - intros [(n & [= ->] & Hn)|(e & [=] & _)]. done.
  - intros Hn. left. by exists sym.
Qed.

Lemma requires_classified sym c :
  In (sym, Requires c) classified <-> In (sym, c) CAPABILITY_NATIVES.
Proof.
  unfold classified. rewrite in_app_iff, !in_map_iff. split.
  - intros [(n & [=] & _)|([n d] & [= -> ->] & Hn)]. done.
  - intros Hn. right. by exists (sym, c).
Qed.

(** The classes agree with the spelling of the builtin they back. *)
Definition class_respects_spelling (e : string * NativeClass) : bool :=
  match required_capability_for_builtin no_gate (normalize_symbol (fst e)), snd e with
  | Some c, Requires c' => bool_decide (c = c')
  | Some _, Ambient => false
  | None, _ => true
  end.

Lemma classified_respect_spelling : forallb class_respects_spelling classified = true.
Proof. vm_compute. reflexivity. Qed.

Definition arm_names (arms : list (list string * Capability)) : list string := concat (map fst arms).

Lemma match_arms_names arms name c : match_arms arms name = Some c -> In name (arm_names arms).
Proof.
  intros (names & Hin & Hn)%match_arms_In. apply in_concat. exists names. split; [|done].
  by apply (in_map fst _ _ Hin).
Qed.

(** No gated builtin is spelled like the ABI variant of another. *)
Lemma gated_normal name c :
  required_capability_for_builtin no_gate name = Some c -> normalize_symbol name = name.
Proof.
  intros Hn%match_arms_names. apply String.eqb_eq. revert name Hn. apply forallb_forall.
  vm_compute. reflexivity.
Qed.

(** The gate on native symbols fails closed.  Building the classification
    table trips no assertion, so the answer is defined for every symbol; a
    symbol is free exactly when it is listed in [AMBIENT_NATIVES]; a listed
    native requires the capability it is listed with; a symbol nobody
    classified requires some capability; and a symbol that is spelled, up to
    [_ks] and [builtin_], like a gated builtin requires the capability of that
    builtin, whether it is classified or not. *)
Lemma native_symbols_fail_closed sym :
  (forall g, required_capability_for_native_symbol g sym = Done None <-> In sym AMBIENT_NATIVES)
  /\ (forall g c, In (sym, c) CAPABILITY_NATIVES ->
      required_capability_for_native_symbol g sym = Done (Some c))
  /\ (forall g, ~ In sym AMBIENT_NATIVES ->
      exists c, required_capability_for_native_symbol g sym = Done (Some c))
  /\ (forall c, required_capability_for_builtin no_gate (normalize_symbol sym) = Some c ->
      required_capability_for_native_symbol no_gate sym = Done (Some c)).
Proof.
  unfold required_capability_for_native_symbol.
  destruct (classify_total sym) as [o Ho]. rewrite Ho. cbn [mbind res_bind].
  assert (Hcl : forall k, o = Some k <-> In (sym, k) classified).
  { intros k. rewrite <-classify_spec, Ho. split; [by intros ->|by intros [=]]. }
  repeat split.
  - intros Hd. apply ambient_classified, Hcl. destruct o as [[|c]|]; [done|done|].
    by destruct (spelled_native_symbol_capability g sym).
  - intros ->%ambient_classified%Hcl. done.
  - intros g c ->%requires_classified%Hcl. done.
  - intros g Hna. destruct o as [[|c]|]; [|by exists c|].
    + destruct Hna. by apply ambient_classified, Hcl.
    + destruct (spelled_native_symbol_capability g sym) as [c|]; by eexists.
  - intros c Hc. destruct o as [k|].
    + assert (Hin : In (sym, k) classified) by by apply Hcl.
      pose proof (proj1 (forallb_forall _ _) classified_respect_spelling _ Hin) as Hk.
      unfold class_respects_spelling in Hk. cbn [fst snd] in Hk. rewrite Hc in Hk.
      destruct k as [|c']; [done|]. by apply bool_decide_eq_true in Hk as ->.
    + unfold spelled_native_symbol_capability.
      destruct (required_capability_for_builtin no_gate sym) as [c'|] eqn:Hs.
      * pose proof (gated_normal _ _ Hs) as Hn. rewrite Hn, Hs in Hc. by rewrite Hc.
      * destruct (String.eqb_spec (normalize_symbol sym) sym) as [He|_]; [congruence|].
        cbn [negb]. by rewrite Hc.
Qed.

(** the raw-memory gate.  Inside [with_raw_memory_gate_for], the
    raw-memory primitives and the extra names require [ffi], and every other
    name what it requires outside; outside, no raw-memory primitive requires
    anything; the gate is off and its names are cleared afterwards; every name
    the table gates is a known builtin, so the checker never takes a gated
    builtin for a first-class function value. *)
Lemma raw_memory_gate extra name g :
  fst (with_raw_memory_gate_for extra (fun g => (required_capability_for_builtin g name, g)) g)
    = (if contains RAW_MEMORY_BUILTINS name || contains extra name then Some Ffi
       else required_capability_for_builtin no_gate name)
  /\ snd (with_raw_memory_gate_for extra (fun g => (required_capability_for_builtin g name, g)) g)
     = no_gate
  /\ (In name RAW_MEMORY_BUILTINS -> required_capability_for_builtin no_gate name = None)
  /\ (forall c, required_capability_for_builtin no_gate name = Some c ->
      is_known_builtin_name name = true).
Proof.
  split; [done|]. split; [done|]. split.
  - intros Hin.
    assert (Hall : forallb (fun n => bool_decide (required_capability_for_builtin no_gate n = None))
        RAW_MEMORY_BUILTINS = true) by (vm_compute; reflexivity).
    pose proof (proj1 (forallb_forall _ _) Hall name Hin) as Hn. by apply bool_decide_eq_true in Hn.
  - intros c Hn%match_arms_names. revert name Hn. apply forallb_forall. vm_compute. reflexivity.
Qed.
