(* ===== verification/HashMap.v ===== *)
(** The runtime's hash map ([kryos-rt/src/map.rs]), below its handles: open
    addressing with linear probing, growth at three quarters and deletion by
    backward shift, on the entries of one header.

    The operations on integer keys and on string keys differ in how keys are
    hashed and compared, so they are written over those two functions, which
    may read memory ([Keys]).  The main result is that a table represents a
    finite map ([table_ok]) and that each operation computes on it what the
    finite map does; the rest of the runtime is in [MapHeap.v] and [StrMap.v].

    Reads and writes outside the array of entries are [Panic], so the theorems
    also say that there are none. *)

From S2P Require Import Prelude Machine.

(* ------------------------------------------------------------------ *)
(** ** Data                                                            *)
(* ------------------------------------------------------------------ *)

Record MapEntry := mkEntry { e_key : Z; e_value : Z; e_occupied : bool }.

Definition zeroed : MapEntry := mkEntry 0 0 false.

(** [entries] is the array the field points to, empty for a null pointer. *)
Record MapHeader := mkHeader {
  h_len : Z; h_capacity : Z; h_entries : list MapEntry; h_ref_count : Z
}.

Definition INITIAL_CAPACITY : Z := 16.

(** [usize] wraps: the runtime is built without overflow checks. *)
Definition hash_key (key capacity : Z) : Z :=
  let h := (as_u64 key * 0x9E3779B97F4A7C15) mod 2 ^ 64 in
  Z.land h (as_u64 (capacity - 1)).

(** An allocation fails when the allocator says so ([ok = false]) and when it
    exceeds a 57-bit address space; an entry takes 24 bytes. *)
Definition alloc_entries (ok : bool) (capacity : Z) : option (list MapEntry) :=
  if ok && (capacity * 24 <=? 2 ^ 57) then Some (repeat zeroed (Z.to_nat capacity)) else None.

Definition read (es : list MapEntry) (idx : Z) : res MapEntry := of_option (es !! Z.to_nat idx).

Definition write (es : list MapEntry) (idx : Z) (e : MapEntry) : res (list MapEntry) :=
  if bool_decide (Z.to_nat idx < length es)%nat then Done (<[Z.to_nat idx := e]> es) else Panic.

(** [(idx + 1) & (capacity - 1)] *)
Definition step (capacity idx : Z) : Z := Z.land (idx + 1) (as_u64 (capacity - 1)).

(** [(len + 1) as f64 > capacity as f64 * LOAD_FACTOR], exact for the
    capacities that can be allocated. *)
Definition overloaded (h : MapHeader) : bool := h_capacity h * 3 <? (h_len h + 1) * 4.

(* ------------------------------------------------------------------ *)
(** ** Operations                                                      *)
(* ------------------------------------------------------------------ *)

(** How keys are hashed and compared. *)
Class Keys := {
  hash_of : Z -> res Z;
  key_eqb : Z -> Z -> res bool
}.

(** Where the probe loop of an operation stops. *)
Inductive probed := Vacant (idx : Z) | Hit (idx : Z) (e : MapEntry) | Exhausted.

Section Ops.
Context {KS : Keys}.

(** [for _ in 0..capacity]: the slot without an entry, or with that of the key. *)
Fixpoint probe (n : nat) (es : list MapEntry) (capacity key idx : Z) : res probed :=
  match n with
  | O => Done Exhausted
  | S n =>
      entry ← read es idx;
      if negb (e_occupied entry) then Done (Vacant idx)
      else
        same ← key_eqb (e_key entry) key;
        if same : bool then Done (Hit idx entry)
        else probe n es capacity key (step capacity idx)
  end.

Definition probe_key (h : MapHeader) (key : Z) : res probed :=
  hash ← hash_of key;
  probe (Z.to_nat (h_capacity h)) (h_entries h) (h_capacity h) key (hash_key hash (h_capacity h)).

(** The inner [loop] of [resize], which has no bound of its own. *)
Fixpoint place (n : nat) (es : list MapEntry) (capacity idx : Z) (e : MapEntry) : res (list MapEntry) :=
  match n with
  | O => OutOfFuel
  | S n =>
      slot ← read es idx;
      if negb (e_occupied slot) then write es idx (mkEntry (e_key e) (e_value e) true)
      else place n es capacity (step capacity idx) e
  end.

(** The outer loop of [resize], over the old entries in order. *)
Fixpoint rehash (old es : list MapEntry) (capacity : Z) : res (list MapEntry) :=
  match old with
  | [] => Done es
  | e :: old =>
      es ← (if e_occupied e then
              hash ← hash_of (e_key e);
              place (Z.to_nat capacity) es capacity (hash_key hash capacity) e
            else Done es);
      rehash old es capacity
  end.

(** [resize] and [resize_str]; a failed allocation leaves the map as it is. *)
Definition resize (ok : bool) (h : MapHeader) : res MapHeader :=
  let new_cap := h_capacity h * 2 in
  match alloc_entries ok new_cap with
  | None => Done h
  | Some new_entries =>
      es ← rehash (take (Z.to_nat (h_capacity h)) (h_entries h)) new_entries new_cap;
      Done (mkHeader (h_len h) new_cap es (h_ref_count h))
  end.

(** The growth step that begins an insertion. *)
Definition grow (ok : bool) (h : MapHeader) : res MapHeader :=
  if overloaded h then resize ok h else Done h.

Definition kryos_map_get (h : MapHeader) (key : Z) : res Z :=
  if h_capacity h =? 0 then Done 0
  else
    r ← probe_key h key;
    Done match r with Hit _ e => e_value e | _ => 0 end.

Definition kryos_map_has (h : MapHeader) (key : Z) : res Z :=
  r ← probe_key h key;
  Done match r with Hit _ _ => 1 | _ => 0 end.

Definition kryos_map_insert (ok : bool) (h : MapHeader) (key value : Z) : res MapHeader :=
  if h_capacity h =? 0 then Done h
  else
    h ← grow ok h;
    r ← probe_key h key;
    match r with
    | Vacant idx =>
        es ← write (h_entries h) idx (mkEntry key value true);
        Done (mkHeader (h_len h + 1) (h_capacity h) es (h_ref_count h))
    | Hit idx _ =>
        es ← write (h_entries h) idx (mkEntry key value true);
        Done (mkHeader (h_len h) (h_capacity h) es (h_ref_count h))
    | Exhausted => Done h
    end.

(** Whether the entry at [j], whose probe starts at [natural], has to move to
    the hole at [idx]. *)
Definition belongs_before (idx j natural : Z) : bool :=
  ((idx <? j) && ((natural <=? idx) || (j <? natural)))
  || ((j <? idx) && (natural <=? idx) && (j <? natural)).

(** The inner loop of a deletion: [idx] is the hole, [j] the entry looked at. *)
Fixpoint shift_back (n : nat) (es : list MapEntry) (capacity idx j : Z) : res (list MapEntry) :=
  match n with
  | O => Done es
  | S n =>
      next ← read es j;
      if negb (e_occupied next) then Done es
      else
        hash ← hash_of (e_key next);
        if belongs_before idx j (hash_key hash capacity) then
          es ← write es j (mkEntry (e_key next) (e_value next) false);
          es ← write es idx (mkEntry (e_key next) (e_value next) true);
          shift_back n es capacity j (step capacity j)
        else shift_back n es capacity idx (step capacity j)
  end.

Definition kryos_map_delete (h : MapHeader) (key : Z) : res MapHeader :=
  r ← probe_key h key;
  match r with
  | Hit idx e =>
      es ← write (h_entries h) idx (mkEntry (e_key e) (e_value e) false);
      es ← shift_back (Z.to_nat (h_capacity h)) es (h_capacity h) idx (step (h_capacity h) idx);
      Done (mkHeader (h_len h - 1) (h_capacity h) es (h_ref_count h))
  | _ => Done h
  end.

(** The keys pushed to the result, in the order of the table. *)
Definition kryos_map_keys (h : MapHeader) : list Z :=
  map e_key (List.filter e_occupied (take (Z.to_nat (h_capacity h)) (h_entries h))).
End Ops.

(** Integer keys are their own hash and are compared as they are. *)
#[export] Instance int_keys : Keys := {|
  hash_of key := Done key;
  key_eqb a b := Done (a =? b)
|}.

(* ------------------------------------------------------------------ *)
(** ** Positions on the circle of slots                                *)
(* ------------------------------------------------------------------ *)

(** [p] is met when walking from [n] to [i], [i] excluded. *)
Definition on_way (n p i : Z) : Prop := n <= p < i \/ (i < n /\ (n <= p \/ p < i)).

(** The number of steps from [a] to [b]. *)
Definition steps (cap a b : Z) : Z := if a <=? b then b - a else b - a + cap.

Definition succ_slot (cap i : Z) : Z := if i + 1 =? cap then 0 else i + 1.

Ltac circle :=
  unfold on_way, steps, succ_slot, belongs_before in *;
  repeat match goal with
  | |- context [?a <=? ?b] => destruct (Z.leb_spec a b)
  | H : context [?a <=? ?b] |- _ => destruct (Z.leb_spec a b)
  | |- context [?a <? ?b] => destruct (Z.ltb_spec a b)
  | H : context [?a <? ?b] |- _ => destruct (Z.ltb_spec a b)
  | |- context [?a =? ?b] => destruct (Z.eqb_spec a b)
  | H : context [?a =? ?b] |- _ => destruct (Z.eqb_spec a b)
  end; cbn [andb orb] in *; try lia; try congruence.

#[export] Instance on_way_dec n p i : Decision (on_way n p i).
Proof. unfold on_way. solve_decision. Defined.

Lemma succ_slot_range cap i : 0 <= i < cap -> 0 <= succ_slot cap i < cap.
Proof. circle. Qed.

Section Circle.
Context (cap : Z) (p : Z) (Hp : 0 <= p <= 52) (Hcap : cap = 2 ^ p).

Lemma cap_bounds : 0 < cap <= 2 ^ 52.
Proof. subst. split; [lia|]. apply Z.pow_le_mono_r; lia. Qed.

Lemma mask_mod x : Z.land x (as_u64 (cap - 1)) = x mod cap.
Proof.
  pose proof cap_bounds. unfold as_u64. rewrite Z.mod_small by lia.
  replace (cap - 1) with (Z.ones p) by (rewrite Z.ones_equiv; lia).
  rewrite Z.land_ones by lia. by rewrite Hcap.
Qed.

Lemma hash_key_range k : 0 <= hash_key k cap < cap.
Proof. unfold hash_key. rewrite mask_mod. apply Z.mod_pos_bound. pose proof cap_bounds. lia. Qed.

Lemma step_succ i : 0 <= i < cap -> step cap i = succ_slot cap i.
Proof.
  intros Hi. unfold step, succ_slot. rewrite mask_mod. destruct (Z.eqb_spec (i + 1) cap) as [->|].
  - apply Z.mod_same. lia.
  - apply Z.mod_small. lia.
Qed.
End Circle.

(** [belongs_before] decides whether the probe that ends at [j] passes the hole. *)
Lemma belongs_before_spec h j n cap :
  0 <= h < cap -> 0 <= j < cap -> 0 <= n < cap -> h <> j ->
  belongs_before h j n = true <-> on_way n h j.
Proof. intros. split; intros; circle. Qed.

(* ------------------------------------------------------------------ *)
(** ** Tables as finite maps                                           *)
(* ------------------------------------------------------------------ *)

(** What the keys of a table stand for: [contents] is partial because a handle
    may be dangling; equality and hash are those of the contents. *)
Class KeyModel (KS : Keys) (A : Type) `{Countable A} := {
  contents : Z -> option A;
  content_hash : A -> Z;
  hash_of_contents k a : contents k = Some a -> hash_of k = Done (content_hash a);
  key_eqb_contents k1 k2 a1 a2 :
    contents k1 = Some a1 -> contents k2 = Some a2 -> key_eqb k1 k2 = Done (bool_decide (a1 = a2))
}.

#[export, refine] Instance int_model : KeyModel int_keys Z := {|
  contents := Some;
  content_hash a := a
|}.
Proof.
  - intros k a [= ->]. done.
  - intros k1 k2 a1 a2 [= ->] [= ->]. cbn. f_equal.
    destruct (Z.eqb_spec a1 a2); [by rewrite bool_decide_true|by rewrite bool_decide_false].
Defined.

Section Tables.
Context {KS : Keys} {A : Type} `{Countable A} {KM : KeyModel KS A}.
Implicit Types (es : list MapEntry) (m : gmap A Z).

(** The pair an entry holds. *)
Definition entry_item (e : MapEntry) : option (A * Z) :=
  if e_occupied e then (fun a => (a, e_value e)) <$> contents (e_key e) else None.

Definition items es : list (A * Z) := omap entry_item es.

Definition view es (i : Z) : option (A * Z) := es !! Z.to_nat i ≫= entry_item.

Definition natural (cap : Z) (a : A) : Z := hash_key (content_hash a) cap.

Definition no_dangling es : Prop :=
  forall e, e ∈ es -> e_occupied e = true -> is_Some (contents (e_key e)).

(** Between the slot a key hashes to and its entry there is no free slot,
    [hole] excepted. *)
Definition reachable_but (hole : Z) es (cap : Z) : Prop :=
  forall i p a v, 0 <= i < cap -> 0 <= p < cap -> view es i = Some (a, v) ->
    on_way (natural cap a) p i -> p <> hole -> view es p <> None.

Record table (cap : Z) es m : Prop := mkTable {
  table_length : length es = Z.to_nat cap;
  table_valid : no_dangling es;
  table_distinct : NoDup (items es).*1;
  table_map : m = list_to_map (items es);
  table_reachable : reachable_but (-1) es cap
}.

(** A header that represents [m]: a capacity that is a power of two, an exact
    length, and a free slot. *)
Record table_ok (h : MapHeader) m : Prop := mkTableOk {
  ok_capacity : exists p, 0 <= p <= 52 /\ h_capacity h = 2 ^ p;
  ok_table : table (h_capacity h) (h_entries h) m;
  ok_len : h_len h = Z.of_nat (size m);
  ok_free : h_len h < h_capacity h
}.

(** *** Entries and items *)

Lemma view_read es i :
  0 <= i -> no_dangling es -> (Z.to_nat i < length es)%nat ->
  exists e, read es i = Done e /\ e_occupied e = bool_decide (is_Some (view es i))
    /\ (forall a v, view es i = Some (a, v) <->
          e_occupied e = true /\ contents (e_key e) = Some a /\ e_value e = v).
Proof.
  intros Hi Hv Hl. destruct (lookup_lt_is_Some_2 es _ Hl) as [e He]. exists e.
  unfold read, view. rewrite He. cbn. split; [done|]. unfold entry_item.
  destruct (e_occupied e) eqn:Ho.
  - destruct (Hv e) as [a Ha]; [by eapply list_elem_of_lookup_2|done|]. rewrite Ha. cbn. split; [done|].
    intros b v. split; [intros [= <- <-]; done|]. by intros (_ & [= ->] & ->).
  - cbn. split; [done|]. intros a v. split; [done|]. by intros [? _].
Qed.

Lemma read_elem es i e : read es i = Done e -> e ∈ es.
Proof.
  unfold read. destruct (es !! Z.to_nat i) as [e'|] eqn:He; [|done]. intros [= ->].
  by apply (list_elem_of_lookup_2 _ _ _ He).
Qed.

Lemma write_ok es i e : 0 <= i -> (Z.to_nat i < length es)%nat ->
  write es i e = Done (<[Z.to_nat i := e]> es).
Proof. intros. unfold write. by rewrite bool_decide_true. Qed.

Lemma view_insert es i j e : 0 <= i -> 0 <= j -> (Z.to_nat i < length es)%nat ->
  view (<[Z.to_nat i := e]> es) j = if decide (j = i) then entry_item e else view es j.
Proof.
  intros Hi Hj Hl. unfold view. destruct (decide (j = i)) as [->|Hne].
  - by rewrite list_lookup_insert_eq.
  - by rewrite list_lookup_insert_ne by lia.
Qed.

Lemma view_items es cap a v : length es = Z.to_nat cap ->
  (a, v) ∈ items es <-> exists i, 0 <= i < cap /\ view es i = Some (a, v).
Proof.
  intros Hl. unfold items. rewrite list_elem_of_omap. split.
  - intros (e & [i Hi]%list_elem_of_lookup & He). exists (Z.of_nat i).
    pose proof (lookup_lt_Some _ _ _ Hi). split; [lia|]. unfold view. by rewrite Nat2Z.id, Hi.
  - intros (i & Hi & Hv). unfold view in Hv. destruct (es !! Z.to_nat i) as [e|] eqn:He; [|done].
    exists e. split; [by eapply list_elem_of_lookup_2|done].
Qed.

Lemma items_app es1 es2 : items (es1 ++ es2) = items es1 ++ items es2.
Proof. apply omap_app. Qed.

Lemma items_cons e es : items (e :: es) = option_list (entry_item e) ++ items es.
Proof. unfold items. cbn. by destruct (entry_item e). Qed.

(** Overwriting a slot exchanges its item. *)
Lemma items_insert es i e : (i < length es)%nat ->
  exists rest, items es ≡ₚ option_list (es !! i ≫= entry_item) ++ rest
    /\ items (<[i := e]> es) ≡ₚ option_list (entry_item e) ++ rest.
Proof.
  intros Hi. destruct (lookup_lt_is_Some_2 es _ Hi) as [e0 He0].
  exists (items (take i es) ++ items (drop (S i) es)). rewrite He0. cbn.
  rewrite insert_take_drop by done. rewrite <-(take_drop_middle es i e0 He0) at 1.
  rewrite !items_app. unfold items. cbn [omap list_omap].
  split; destruct (entry_item _); cbn; by rewrite ?Permutation_middle.
Qed.

Lemma no_dangling_insert es i e :
  no_dangling es -> (e_occupied e = true -> is_Some (contents (e_key e))) -> no_dangling (<[i := e]> es).
Proof.
  intros Hv He e' Hin. apply list_elem_of_lookup in Hin as [j Hj].
  apply list_lookup_insert_Some in Hj as [(-> & -> & _)|[_ Hj]]; [done|].
  by apply Hv, (list_elem_of_lookup_2 _ j).
Qed.

Section Fixed.
Context (cap p : Z) (Hp : 0 <= p <= 52) (Hcap : cap = 2 ^ p).

Lemma natural_range a : 0 <= natural cap a < cap.
Proof. by apply (hash_key_range cap p). Qed.

Lemma hash_key_natural k a : contents k = Some a ->
  (hash ← hash_of k; Done (hash_key hash cap)) = Done (natural cap a).
Proof. intros Hk. by rewrite (hash_of_contents _ _ Hk). Qed.

(** *** The probe loop *)

(** The slot holds the entry of another key. *)
Definition other es a (i : Z) : Prop := exists b v, view es i = Some (b, v) /\ b <> a.

Definition probe_post es a (r : probed) : Prop :=
  match r with
  | Hit i e => 0 <= i < cap /\ view es i = Some (a, e_value e) /\ contents (e_key e) = Some a
      /\ read es i = Done e /\ e_occupied e = true
  | Vacant i => 0 <= i < cap /\ view es i = None /\
      forall q, 0 <= q < cap -> on_way (natural cap a) q i -> other es a q
  | Exhausted => forall q, 0 <= q < cap -> other es a q
  end.

Lemma probe_spec es m k a n d idx :
  table cap es m -> contents k = Some a ->
  0 <= d -> Z.of_nat n + d = cap -> 0 <= idx < cap -> (idx = natural cap a + d \/ idx = natural cap a + d - cap) ->
  (forall q, 0 <= q < cap -> steps cap (natural cap a) q < d -> other es a q) ->
  exists r, probe n es cap k idx = Done r /\ probe_post es a r.
Proof.
  intros HT Hk. pose proof (natural_range a) as Hnat. pose proof (table_length _ _ _ HT) as Hlen.
  revert d idx. induction n as [|n IH]; intros d idx Hd Hn Hidx Hpos Hseen; cbn [probe].
  { exists Exhausted. split; [done|]. intros q Hq. apply Hseen; [done|]. circle. }
  destruct (view_read es idx ltac:(lia) (table_valid _ _ _ HT) ltac:(lia)) as (e & He & Hocc & Hview).
  rewrite He. cbn [mbind res_bind]. rewrite Hocc. destruct (view es idx) as [[b v]|] eqn:Hv; cbn.
  - destruct (proj1 (Hview b v) eq_refl) as (_ & Hb & <-). rewrite (key_eqb_contents _ _ _ _ Hb Hk).
    cbn [mbind res_bind]. destruct (bool_decide_reflect (b = a)) as [->|Hne]; [by exists (Hit idx e)|].
    rewrite (step_succ cap p) by done. apply (IH (d + 1)); [lia|lia| | |].
    + by apply succ_slot_range.
    + circle.
    + intros q Hq Hs. destruct (decide (q = idx)) as [->|]; [by exists b, (e_value e)|].
      apply Hseen; [done|]. circle.
  - exists (Vacant idx). split; [done|]. split; [done|]. split; [done|].
    intros q Hq Hway. apply Hseen; [done|]. circle.
Qed.

Lemma table_elem es m a v : table cap es m ->
  m !! a = Some v <-> exists i, 0 <= i < cap /\ view es i = Some (a, v).
Proof.
  intros HT. rewrite (table_map _ _ _ HT), <-(view_items es cap) by apply (table_length _ _ _ HT).
  symmetry. apply elem_of_list_to_map, (table_distinct _ _ _ HT).
Qed.

(** What a finished probe says about the map. *)
Lemma probe_post_lookup es m a r : table cap es m -> probe_post es a r ->
  m !! a = match r with Hit _ e => Some (e_value e) | _ => None end.
Proof.
  intros HT Hr. destruct r as [i|i e|]; cbn in Hr.
  - destruct Hr as (Hi & Hv & Hway). apply eq_None_not_Some. intros [v Hm]. apply (table_elem _ _ _ _ HT) in Hm as (j & Hj & Hjv).
    destruct (decide (on_way (natural cap a) i j)) as [Hon|Hoff].
    { by apply (table_reachable _ _ _ HT j i a v Hj Hi Hjv Hon ltac:(lia)). }
    assert (Hne : i <> j) by congruence. pose proof (natural_range a).
    destruct (Hway j Hj) as (b & w & Hb & Hba); [circle|congruence].
  - destruct Hr as (Hi & Hv & _). apply (table_elem _ _ _ _ HT). eauto.
  - apply eq_None_not_Some. intros [v Hm]. apply (table_elem _ _ _ _ HT) in Hm as (j & Hj & Hjv).
    destruct (Hr j Hj) as (b & w & Hb & Hba). congruence.
Qed.
(** *** Filling a slot *)

Lemma table_size es m : table cap es m -> size m = length (items es).
Proof. intros HT. rewrite (table_map _ _ _ HT). apply map_size_list_to_map, (table_distinct _ _ _ HT). Qed.

Lemma table_free es m : table cap es m -> Z.of_nat (size m) < cap ->
  exists u, 0 <= u < cap /\ view es u = None.
Proof.
  intros HT Hs. rewrite (table_size es m HT) in Hs. pose proof (table_length _ _ _ HT) as Hl.
  assert (Hf : exists i, (i < length es)%nat /\ (es !! i ≫= entry_item) = None).
  { assert (Hlt : (length (items es) < length es)%nat) by lia. clear -Hlt.
    induction es as [|e es IH]; [cbn in Hlt; lia|]. unfold items in *. cbn [omap list_omap] in *.
    destruct (entry_item e) eqn:He; [|exists 0%nat; cbn; split; [lia|done]].
    cbn in Hlt. destruct (IH ltac:(lia)) as (i & Hi & Hv). exists (S i). cbn. split; [lia|done]. }
  destruct Hf as (i & Hi & Hv). exists (Z.of_nat i). unfold view. rewrite Nat2Z.id. split; [lia|done].
Qed.

Lemma table_fill es m i k a v :
  table cap es m -> contents k = Some a -> 0 <= i < cap ->
  (view es i = None /\ m !! a = None) \/ (exists w, view es i = Some (a, w)) ->
  (forall q, 0 <= q < cap -> on_way (natural cap a) q i -> view es q <> None) ->
  table cap (<[Z.to_nat i := mkEntry k v true]> es) (<[a := v]> m).
Proof.
  intros HT Hk Hi Hold Hway. pose proof (table_length _ _ _ HT) as Hl.
  assert (Hlt : (Z.to_nat i < length es)%nat) by lia.
  assert (Hnew : entry_item (mkEntry k v true) = Some (a, v)) by (unfold entry_item; cbn; by rewrite Hk).
  destruct (items_insert es (Z.to_nat i) (mkEntry k v true) Hlt) as (rest & Hes & Hes').
  rewrite Hnew in Hes'. cbn in Hes'. change (es !! Z.to_nat i ≫= entry_item) with (view es i) in Hes.
  pose proof (table_distinct _ _ _ HT) as Hnd. rewrite Hes in Hnd.
  assert (Hrest : (a ∉ rest.*1) /\ NoDup rest.*1 /\ <[a := v]> m = <[a := v]> (list_to_map rest)).
  { rewrite (table_map _ _ _ HT), (list_to_map_proper _ _ (table_distinct _ _ _ HT) Hes).
    destruct Hold as [[Hv Hm]|[w Hv]]; rewrite Hv in *; cbn in *.
    - split_and!; [|done|done]. rewrite (table_map _ _ _ HT) in Hm.
      rewrite (list_to_map_proper _ _ (table_distinct _ _ _ HT) Hes) in Hm.
      by apply not_elem_of_list_to_map in Hm.
    - apply NoDup_cons in Hnd as [? ?]. split_and!; [done|done|]. by rewrite insert_insert_eq. }
  destruct Hrest as (Ha & Hrest & ->).
  assert (Hnd' : NoDup (items (<[Z.to_nat i := mkEntry k v true]> es)).*1).
  { rewrite Hes'. by apply NoDup_cons. }
  split; [by rewrite length_insert| |done| |].
  - apply no_dangling_insert; [apply (table_valid _ _ _ HT)|]. cbn. by rewrite Hk.
  - by rewrite (list_to_map_proper _ _ Hnd' Hes').
  - intros j q b w Hj Hq. rewrite !view_insert, Hnew by lia.
    destruct (decide (q = i)) as [->|Hqi]; [done|].
    destruct (decide (j = i)) as [->|Hji].
    + intros [= <- <-] Hon _. by apply Hway.
    + apply (table_reachable _ _ _ HT j q b w Hj Hq).
Qed.

Lemma other_occupied es a q : other es a q -> view es q <> None.
Proof. intros (b & v & -> & _). done. Qed.

(** *** Growth *)

(** The loop of [resize] finds a free slot on the way. *)
Lemma place_spec es m u n d idx k v a :
  table cap es m -> contents k = Some a -> m !! a = None ->
  0 <= u < cap -> view es u = None -> 0 <= d -> steps cap (natural cap a) u < Z.of_nat n + d ->
  0 <= idx < cap -> idx = natural cap a + d \/ idx = natural cap a + d - cap ->
  d <= steps cap (natural cap a) u ->
  (forall q, 0 <= q < cap -> steps cap (natural cap a) q < d -> view es q <> None) ->
  exists es', place n es cap idx (mkEntry k v true) = Done es' /\ table cap es' (<[a := v]> m).
Proof.
  intros HT Hk Hm Hu Hfree. pose proof (natural_range a) as Hnat. pose proof (table_length _ _ _ HT) as Hlen.
  revert d idx. induction n as [|n IH]; intros d idx Hd Hn Hidx Hpos Hdu Hseen; [lia|]. cbn [place].
  destruct (view_read es idx ltac:(lia) (table_valid _ _ _ HT) ltac:(lia)) as (e & -> & Hocc & _).
  cbn [mbind res_bind]. rewrite Hocc. destruct (view es idx) as [[b w]|] eqn:Hv; cbn.
  - assert (idx <> u) by congruence. rewrite (step_succ cap p) by done. apply (IH (d + 1)); try lia.
    + by apply succ_slot_range.
    + circle.
    + circle.
    + intros q Hq Hs. destruct (decide (q = idx)) as [->|]; [by rewrite Hv|].
      apply Hseen; [done|]. circle.
  - rewrite write_ok by lia. eexists. split; [done|]. apply table_fill; [done..|by left|].
    intros q Hq Hway. apply Hseen; [done|]. circle.
Qed.

Lemma rehash_spec old es m :
  table cap es m -> no_dangling old -> NoDup (items old).*1 ->
  (forall a, a ∈ (items old).*1 -> m !! a = None) ->
  Z.of_nat (size m + length (items old)) < cap ->
  exists es', rehash old es cap = Done es' /\ table cap es' (list_to_map (items old) ∪ m).
Proof.
  revert es m. induction old as [|e old IH]; intros es m HT Hv Hnd Hm Hs.
  { exists es. split; [done|]. cbn. by rewrite (left_id_L ∅ (∪)). }
  assert (Hv' : no_dangling old) by (intros e' ?; apply Hv; by constructor).
  rewrite items_cons in *. cbn [rehash].
  destruct e as [k v [|]]; cbn [e_occupied e_key]; [|by apply IH].
  destruct (Hv (mkEntry k v true)) as [a Hk]; [by constructor|done|]. cbn [e_key] in Hk.
  assert (He : entry_item (mkEntry k v true) = Some (a, v)) by (unfold entry_item; cbn; by rewrite Hk).
  rewrite He in *. change (option_list (Some (a, v)) ++ items old) with ((a, v) :: items old) in *.
  rewrite fmap_cons in Hnd, Hm. cbn [fst length] in Hnd, Hm, Hs.
  rewrite (hash_of_contents _ _ Hk). cbn [mbind res_bind].
  apply NoDup_cons in Hnd as [Ha Hnd].
  assert (Hma : m !! a = None) by (apply Hm; by left). cbn [length] in Hs.
  destruct (table_free es m HT ltac:(lia)) as (u & Hu & Hfree).
  pose proof (natural_range a) as Hnat.
  destruct (place_spec es m u (Z.to_nat cap) 0 (natural cap a) k v a HT Hk Hma Hu Hfree) as (es' & Hpl & HT');
    [circle..|by left; circle|circle|intros q Hq; circle|].
  unfold natural in Hpl. rewrite Hpl. cbn [mbind res_bind].
  destruct (IH es' (<[a := v]> m) HT' Hv' Hnd) as (es'' & Hre & HT'').
  - intros b Hb. rewrite lookup_insert_ne by (by intros <-). apply Hm. by right.
  - rewrite map_size_insert_None by done. cbn in Hs. lia.
  - exists es''. split; [done|]. cbn [list_to_map foldr].
    replace (<[a := v]> (list_to_map (items old) : gmap A Z) ∪ m) with ((list_to_map (items old) : gmap A Z) ∪ <[a := v]> m); [done|].
    rewrite <-insert_union_l, insert_union_r; [done|]. by apply not_elem_of_list_to_map.
Qed.
End Fixed.

Lemma view_zeroed n i : view (repeat zeroed n) i = None.
Proof.
  unfold view. destruct (repeat zeroed n !! Z.to_nat i) as [e|] eqn:He; [|done].
  apply list_elem_of_lookup_2, list_elem_of_In, repeat_spec in He as ->. done.
Qed.

Lemma items_zeroed n : items (repeat zeroed n) = [].
Proof. by induction n. Qed.

Lemma table_zeroed cap : table cap (repeat zeroed (Z.to_nat cap)) ∅.
Proof.
  split.
  - apply repeat_length.
  - intros e He%list_elem_of_In%repeat_spec. by subst.
  - rewrite items_zeroed. constructor.
  - by rewrite items_zeroed.
  - intros i q a v _ _. by rewrite view_zeroed.
Qed.

Lemma resize_spec ok h m :
  table_ok h m -> exists h', resize ok h = Done h' /\ table_ok h' m
    /\ h_len h' = h_len h /\ h_ref_count h' = h_ref_count h
    /\ (h' = h \/ (ok = true /\ h_capacity h' = h_capacity h * 2))
    /\ (ok = true -> h_capacity h * 48 <= 2 ^ 57 -> h_capacity h' = h_capacity h * 2).
Proof.
  intros [(p & Hp & Hcap) HT Hlen Hfree]. pose proof (cap_bounds _ p Hp Hcap) as Hb. unfold resize.
  destruct (alloc_entries ok (h_capacity h * 2)) as [new|] eqn:Halloc.
  - unfold alloc_entries in Halloc. destruct ok; [|done]. cbn in Halloc.
    destruct (Z.leb_spec (h_capacity h * 2 * 24) (2 ^ 57)) as [Hle|]; [|done]. injection Halloc as <-.
    assert (Hcap2 : h_capacity h * 2 = 2 ^ (p + 1)) by (rewrite Z.pow_add_r by lia; lia).
    assert (Hp2 : 0 <= p + 1 <= 52).
    { split; [lia|]. destruct (Z.le_gt_cases (p + 1) 52); [done|].
      assert (2 ^ 53 <= 2 ^ (p + 1)) by (apply Z.pow_le_mono_r; lia). lia. }
    pose proof (table_length _ _ _ HT) as Hl. rewrite firstn_all2 by lia.
    destruct (rehash_spec (h_capacity h * 2) (p + 1) Hp2 Hcap2 (h_entries h)
      (repeat zeroed (Z.to_nat (h_capacity h * 2))) ∅) as (es & -> & HT').
    + apply table_zeroed.
    + apply (table_valid _ _ _ HT).
    + apply (table_distinct _ _ _ HT).
    + intros. apply lookup_empty.
    + rewrite <-(table_size _ _ _ HT), map_size_empty. lia.
    + cbn. eexists. split; [done|]. rewrite (right_id_L ∅ (∪)) in HT'.
      rewrite (table_map _ _ _ HT). split_and!; [|done..|by right|done].
      split; cbn; [by exists (p + 1)|done| |lia]. by rewrite <-(table_map _ _ _ HT).
  - exists h. split_and!; [done|by split; eauto|done..|by left|]. intros -> Hsmall.
    unfold alloc_entries in Halloc. cbn in Halloc.
    destruct (Z.leb_spec (h_capacity h * 2 * 24) (2 ^ 57)); [done|lia].
Qed.

(** *** Lookups and insertions *)

(** The insertion has a slot: the table can grow, or need not, or holds the key. *)
Definition room (ok : bool) (h : MapHeader) m (a : A) : Prop :=
  (ok = true /\ h_capacity h * 48 <= 2 ^ 57) \/ h_len h + 1 < h_capacity h \/ is_Some (m !! a).

Lemma capacity_nonzero h m : table_ok h m -> (h_capacity h =? 0) = false.
Proof.
  intros [(p & Hp & Hcap) _ _ _]. pose proof (cap_bounds _ p Hp Hcap). apply Z.eqb_neq. lia.
Qed.

Lemma probe_key_spec h m k a :
  table_ok h m -> contents k = Some a ->
  exists r, probe_key h k = Done r /\ probe_post (h_capacity h) (h_entries h) a r
    /\ m !! a = match r with Hit _ e => Some (e_value e) | _ => None end.
Proof.
  intros [(p & Hp & Hcap) HT _ _] Hk. unfold probe_key. rewrite (hash_of_contents _ _ Hk).
  cbn [mbind res_bind]. pose proof (cap_bounds _ p Hp Hcap).
  pose proof (natural_range _ p Hp Hcap a) as Hnat.
  destruct (probe_spec _ p Hp Hcap (h_entries h) m k a (Z.to_nat (h_capacity h)) 0 (natural (h_capacity h) a))
    as (r & Hr & Hpost); try done; try lia.
  - intros q Hq. circle.
  - exists r. split; [done|]. split; [done|]. by eapply (probe_post_lookup _ p).
Qed.

Lemma grow_spec ok h m a :
  table_ok h m -> room ok h m a ->
  exists h', grow ok h = Done h' /\ table_ok h' m /\ h_ref_count h' = h_ref_count h
    /\ h_len h' = h_len h /\ (is_Some (m !! a) \/ h_len h' + 1 < h_capacity h').
Proof.
  intros Hok Hroom. unfold grow, overloaded.
  destruct (Z.ltb_spec (h_capacity h * 3) ((h_len h + 1) * 4)) as [Hover|Hunder].
  - destruct (resize_spec ok h m Hok) as (h' & -> & Hok' & Hl & Hrc & Hcase & Hgrow).
    exists h'. split_and!; [done..|]. destruct Hroom as [[-> Hsmall]|[Hlt|Hin]]; [right|right|by left].
    + rewrite Hl, (Hgrow eq_refl Hsmall). pose proof (ok_free _ _ Hok) as Hf.
      pose proof (ok_len _ _ Hok). lia.
    + rewrite Hl. destruct Hcase as [->|[_ ->]]; [done|]. pose proof (ok_len _ _ Hok). lia.
  - exists h. split_and!; [done..|]. right. pose proof (ok_free _ _ Hok). pose proof (ok_len _ _ Hok).
    destruct (ok_capacity _ _ Hok) as (p & Hp & Hcap). pose proof (cap_bounds _ p Hp Hcap). lia.
Qed.

(** Writing an entry where its probe ended. *)
Lemma fill_vacant h m i k a v :
  table_ok h m -> contents k = Some a -> probe_post (h_capacity h) (h_entries h) a (Vacant i) ->
  m !! a = None -> h_len h + 1 < h_capacity h ->
  exists es, write (h_entries h) i (mkEntry k v true) = Done es
    /\ table_ok (mkHeader (h_len h + 1) (h_capacity h) es (h_ref_count h)) (<[a := v]> m).
Proof.
  intros [(p & Hp & Hcap) HT Hl Hf] Hk (Hi & Hv & Hway) Hm Hroom. pose proof (table_length _ _ _ HT).
  rewrite write_ok by lia. eexists. split; [done|]. split; cbn.
  - by exists p.
  - apply (table_fill _ p Hp Hcap _ m); [done..|by left|]. intros q Hq Hon. by eapply other_occupied, Hway.
  - rewrite map_size_insert_None by done. lia.
  - done.
Qed.

Lemma fill_hit h m i e k a v :
  table_ok h m -> contents k = Some a -> probe_post (h_capacity h) (h_entries h) a (Hit i e) ->
  exists es, write (h_entries h) i (mkEntry k v true) = Done es
    /\ table_ok (mkHeader (h_len h) (h_capacity h) es (h_ref_count h)) (<[a := v]> m).
Proof.
  intros [(p & Hp & Hcap) HT Hl Hf] Hk (Hi & Hv & _). pose proof (table_length _ _ _ HT).
  rewrite write_ok by lia. eexists. split; [done|]. split; cbn; [by exists p| | |done].
  - apply (table_fill _ p Hp Hcap _ m); [done..|right; eauto|]. intros q Hq Hon.
    apply (table_reachable _ _ _ HT i q a (e_value e)); [done..|lia].
  - rewrite map_size_insert_Some; [done|]. exists (e_value e). apply (table_elem _ _ _ _ _ HT). eauto.
Qed.

(** On a header that represents the map [m], with whatever hash and equality
    the keys have, [kryos_map_insert] inserts: it reads and writes no slot out
    of range, grows the table when it is three quarters full, and the header it
    leaves represents [<[a := v]> m]. *)
Lemma insert_spec ok h m k a v :
  table_ok h m -> contents k = Some a -> room ok h m a ->
  exists h', kryos_map_insert ok h k v = Done h' /\ table_ok h' (<[a := v]> m)
    /\ h_ref_count h' = h_ref_count h.
Proof.
  intros Hok Hk Hroom. unfold kryos_map_insert. rewrite (capacity_nonzero _ _ Hok).
  destruct (grow_spec ok h m a Hok Hroom) as (h1 & -> & Hok1 & <- & _ & Hfree). cbn [mbind res_bind].
  destruct (probe_key_spec h1 m k a Hok1 Hk) as (r & -> & Hpost & Hm). cbn [mbind res_bind].
  destruct r as [i|i e|].
  - assert (Hl : h_len h1 + 1 < h_capacity h1) by (destruct Hfree as [[w Hw]|]; [by rewrite Hm in Hw|done]).
    destruct (fill_vacant h1 m i k a v) as (es & -> & Hes); [done..|]. cbn. eauto.
  - destruct (fill_hit h1 m i e k a v) as (es & -> & Hes); [done..|]. cbn. eauto.
  - exfalso. pose proof (ok_free _ _ Hok1) as Hf. rewrite (ok_len _ _ Hok1) in Hf.
    destruct (ok_capacity _ _ Hok1) as (p & Hp & Hcap).
    destruct (table_free (h_capacity h1) p Hp Hcap _ m (ok_table _ _ Hok1) Hf) as (u & Hu & Hv).
    by apply (other_occupied _ _ _ (Hpost u Hu)).
Qed.

Lemma get_spec h m k a :
  table_ok h m -> contents k = Some a -> kryos_map_get h k = Done (default 0 (m !! a)).
Proof.
  intros Hok Hk. unfold kryos_map_get. rewrite (capacity_nonzero _ _ Hok).
  destruct (probe_key_spec h m k a Hok Hk) as (r & -> & _ & ->). by destruct r.
Qed.

Lemma has_spec h m k a :
  table_ok h m -> contents k = Some a ->
  kryos_map_has h k = Done (if bool_decide (is_Some (m !! a)) then 1 else 0).
Proof.
  intros Hok Hk. unfold kryos_map_has.
  destruct (probe_key_spec h m k a Hok Hk) as (r & -> & _ & ->). by destruct r.
Qed.

Lemma keys_spec h m :
  table_ok h m -> map contents (kryos_map_keys h) ≡ₚ map (Some ∘ fst) (map_to_list m).
Proof.
  intros [_ HT _ _]. rewrite (table_map _ _ _ HT).
  rewrite (map_to_list_to_map _ (table_distinct _ _ _ HT)).
  unfold kryos_map_keys. rewrite firstn_all2 by (rewrite (table_length _ _ _ HT); lia).
  pose proof (table_valid _ _ _ HT) as Hv. revert Hv. generalize (h_entries h). intros es.
  induction es as [|e es IH]; intros Hv; [done|]. rewrite items_cons. cbn [List.filter].
  specialize (IH ltac:(intros e' ?; apply Hv; by constructor)).
  unfold entry_item. destruct (e_occupied e) eqn:He; [|done].
  destruct (Hv e) as [a Ha]; [by constructor|done|]. cbn [map]. rewrite Ha. cbn. by f_equiv.
Qed.

(** *** The key handles of a table *)

Definition has_key es (k : Z) : Prop := exists e, e ∈ es /\ e_occupied e = true /\ e_key e = k.

Lemma write_keys es i e es' k :
  write es i e = Done es' -> has_key es' k -> has_key es k \/ k = e_key e.
Proof.
  unfold write. case_bool_decide; [|done]. intros [= <-] (x & Hx & Ho & <-).
  apply list_elem_of_lookup in Hx as [j Hj].
  apply list_lookup_insert_Some in Hj as [(_ & <- & _)|[_ Hj]]; [by right|left].
  exists x. split; [by apply (list_elem_of_lookup_2 _ j)|done].
Qed.

Lemma place_keys n es cap idx e es' k :
  place n es cap idx e = Done es' -> has_key es' k -> has_key es k \/ k = e_key e.
Proof.
  revert idx. induction n as [|n IH]; intros idx; cbn; [done|].
  intros (slot & _ & Hp)%res_bind_Done. destruct (negb (e_occupied slot)); intros Hk.
  - by apply (write_keys _ _ _ _ k Hp).
  - exact (IH _ Hp Hk).
Qed.

Lemma rehash_keys old es cap es' k :
  rehash old es cap = Done es' -> has_key es' k -> has_key es k \/ has_key old k.
Proof.
  revert es. induction old as [|e old IH]; intros es; cbn; [intros [= ->]; by left|].
  intros (es1 & Hp & Hre)%res_bind_Done Hk.
  assert (Hcons : has_key old k -> has_key (e :: old) k).
  { intros (x & Hx & ? & ?). exists x. split; [by right|done]. }
  destruct (IH es1 Hre Hk) as [Hin|Hin]; [|by right; apply Hcons].
  destruct (e_occupied e) eqn:Ho; [|injection Hp as ->; by left].
  apply res_bind_Done in Hp as (hash & _ & Hp).
  apply place_keys with (k := k) in Hp as [?| ->]; [by left| |done].
  right. exists e. split; [by left|done].
Qed.

Lemma grow_keys ok h h' k : grow ok h = Done h' -> has_key (h_entries h') k -> has_key (h_entries h) k.
Proof.
  unfold grow, resize. destruct (overloaded h); [|intros [= ->]; done].
  destruct (alloc_entries ok _) as [new|] eqn:Ha; [|intros [= ->]; done].
  intros (es & Hre & [= <-])%res_bind_Done Hk. cbn in Hk.
  apply rehash_keys with (k := k) in Hre as [(x & Hx & Ho & _)|(x & Hx & Ho & Hkx)]; [| |done].
  - unfold alloc_entries in Ha. destruct (ok && _); [|done]. injection Ha as <-.
    apply list_elem_of_In, repeat_spec in Hx as ->. done.
  - exists x. split; [|done]. rewrite list_elem_of_lookup in Hx |- *. destruct Hx as [j Hj].
    exists j. by apply lookup_take_Some in Hj as [? _].
Qed.

(** *** Deletion by backward shift *)

Section Shift.
Context (cap p : Z) (Hp : 0 <= p <= 52) (Hcap : cap = 2 ^ p).

(** The state of the inner loop: a table of [its], but for the hole at [h];
    no entry between the hole and [j] needs the hole to be filled. *)
Record shifting (its : list (A * Z)) es (h j u : Z) : Prop := mkShifting {
  sh_length : length es = Z.to_nat cap;
  sh_valid : no_dangling es;
  sh_items : items es ≡ₚ its;
  sh_range : 0 <= h < cap /\ 0 <= j < cap /\ 0 <= u < cap;
  sh_hole : view es h = None;
  sh_free : view es u = None;
  sh_order : 1 <= steps cap h j /\ steps cap h j + steps cap j u = steps cap h u;
  sh_reach : reachable_but h es cap;
  sh_settled : forall i a v, 0 <= i < cap -> view es i = Some (a, v) ->
    steps cap h i < steps cap h j -> ~ on_way (natural cap a) h i
}.

Lemma shifting_done its es h j u :
  shifting its es h j u -> view es j = None -> reachable_but (-1) es cap.
Proof.
  intros [_ _ _ (Hh & Hj & Hu) Hhole _ Hord Hreach Hset] Hvj i q a v Hi Hq Hv Hon _.
  pose proof (natural_range cap p Hp Hcap a) as Hnat.
  destruct (decide (q = h)) as [->|Hne]; [exfalso|by apply (Hreach i q a v)].
  assert (i <> h) by congruence. assert (i <> j) by congruence.
  destruct (Z_lt_le_dec (steps cap h i) (steps cap h j)) as [Hlt|Hge]; [by apply (Hset i a v Hi Hv Hlt)|].
  apply (Hreach i j a v Hi Hj Hv); [circle|circle|done].
Qed.

Lemma shifting_skip its es h j u a v :
  shifting its es h j u -> view es j = Some (a, v) -> ~ on_way (natural cap a) h j ->
  shifting its es h (succ_slot cap j) u.
Proof.
  intros [? ? ? (Hh & Hj & Hu) Hhole Hfree Hord Hreach Hset] Hv Hoff.
  pose proof (natural_range cap p Hp Hcap a) as Hnat. assert (j <> u) by congruence. assert (j <> h) by congruence.
  split; try done; [pose proof (succ_slot_range cap j Hj); done|circle|].
  intros i b w Hi Hvi Hlt. destruct (decide (i = j)) as [->|Hij].
  - by rewrite Hv in Hvi; injection Hvi as <- <-.
  - apply (Hset i b w Hi Hvi). circle.
Qed.

Lemma shifting_move its es h j u a k v :
  shifting its es h j u -> view es j = Some (a, v) -> contents k = Some a ->
  on_way (natural cap a) h j ->
  shifting its (<[Z.to_nat h := mkEntry k v true]> (<[Z.to_nat j := mkEntry k v false]> es))
    j (succ_slot cap j) u.
Proof.
  intros [Hl Hval Hits (Hh & Hj & Hu) Hhole Hfree Hord Hreach Hset] Hv Hk Hon.
  pose proof (natural_range cap p Hp Hcap a) as Hnat. assert (Hju : j <> u) by congruence.
  assert (Hjh : j <> h) by congruence. assert (Huh : u <> h) by circle.
  set (es1 := <[Z.to_nat j := mkEntry k v false]> es).
  assert (Hl1 : length es1 = length es) by apply length_insert.
  assert (Hnew : entry_item (mkEntry k v true) = Some (a, v)) by (unfold entry_item; cbn; by rewrite Hk).
  assert (Hview : forall i, 0 <= i ->
    view (<[Z.to_nat h := mkEntry k v true]> es1) i =
      if decide (i = h) then Some (a, v) else if decide (i = j) then None else view es i).
  { intros i Hi. rewrite view_insert, Hnew by lia. destruct (decide (i = h)); [done|].
    unfold es1. rewrite view_insert by lia. done. }
  split; try done.
  - by rewrite length_insert, Hl1.
  - apply no_dangling_insert; [by apply no_dangling_insert|]. intros _. cbn. by rewrite Hk.
  - rewrite <-Hits.
    destruct (items_insert es (Z.to_nat j) (mkEntry k v false) ltac:(lia)) as (r1 & Hr1 & Hr1').
    destruct (items_insert es1 (Z.to_nat h) (mkEntry k v true) ltac:(lia)) as (r2 & Hr2 & ->).
    change (es !! Z.to_nat j ≫= entry_item) with (view es j) in Hr1. rewrite Hv in Hr1. rewrite Hr1, Hnew.
    change (es1 !! Z.to_nat h ≫= entry_item) with (view es1 h) in Hr2. unfold es1 in Hr2.
    rewrite view_insert, decide_False, Hhole in Hr2 by (done || lia).
    cbn in Hr1', Hr2 |- *. by rewrite <-Hr2, Hr1'.
  - pose proof (succ_slot_range cap j Hj). done.
  - rewrite Hview, decide_False, decide_True by (done || lia). done.
  - rewrite Hview, !decide_False by (done || lia). done.
  - circle.
  - intros i q b w Hi Hq Hvi Hbon Hqj. rewrite !Hview in * by lia.
    rewrite (decide_False (P := q = j)) by done. destruct (decide (q = h)) as [|Hqh]; [done|].
    destruct (decide (i = h)) as [->|Hih]; [injection Hvi as <- <-|].
    + apply (Hreach j q a v); [done..|circle|done].
    + destruct (decide (i = j)); [done|]. by apply (Hreach i q b w).
  - intros i b w Hi Hvi Hlt. exfalso. rewrite Hview in Hvi by lia.
    assert (i = j) as -> by circle. rewrite decide_False, decide_True in Hvi by done. done.
Qed.

Lemma shift_back_spec its n es h j u :
  shifting its es h j u -> steps cap j u < Z.of_nat n ->
  exists es', shift_back n es cap h j = Done es' /\ length es' = Z.to_nat cap /\ no_dangling es'
    /\ items es' ≡ₚ its /\ reachable_but (-1) es' cap.
Proof.
  revert es h j. induction n as [|n IH]; intros es h j HS Hn.
  { exfalso. destruct HS as [_ _ _ (? & ? & ?) _ _ ? _ _]. circle. }
  cbn [shift_back]. pose proof (sh_range _ _ _ _ _ HS) as (Hh & Hj & Hu). pose proof (sh_length _ _ _ _ _ HS) as Hl.
  destruct (view_read es j ltac:(lia) (sh_valid _ _ _ _ _ HS) ltac:(lia)) as ([k v o] & -> & Hocc & Hview).
  cbn [mbind res_bind e_occupied e_key e_value] in *. rewrite Hocc.
  destruct (view es j) as [[a w]|] eqn:Hv; cbn [negb bool_decide].
  - destruct (proj1 (Hview a w) eq_refl) as (-> & Hk & ->). rewrite (hash_of_contents _ _ Hk).
    cbn [mbind res_bind]. change (hash_key (content_hash a) cap) with (natural cap a).
    pose proof (natural_range cap p Hp Hcap a) as Hnat.
    assert (Hjh : h <> j) by (intros ->; by rewrite (sh_hole _ _ _ _ _ HS) in Hv).
    assert (Hju : j <> u) by (intros ->; by rewrite (sh_free _ _ _ _ _ HS) in Hv).
    pose proof (sh_order _ _ _ _ _ HS) as Hord.
    rewrite (step_succ cap p Hp Hcap) by done.
    destruct (belongs_before h j (natural cap a)) eqn:Hb.
    + apply (belongs_before_spec h j _ cap) in Hb; [|done..].
      rewrite write_ok by lia. cbn [mbind res_bind].
      rewrite write_ok by (rewrite ?length_insert; lia). cbn [mbind res_bind].
      apply IH; [by eapply shifting_move|]. circle.
    + apply IH; [|circle]. eapply shifting_skip; [done..|].
      intros Hon. apply (belongs_before_spec h j _ cap) in Hon; [|done..]. congruence.
  - exists es. split; [done|]. split; [done|]. split; [apply (sh_valid _ _ _ _ _ HS)|].
    split; [apply (sh_items _ _ _ _ _ HS)|]. by eapply shifting_done.
Qed.
End Shift.

(** Backward-shift deletion deletes: the key is gone, every other key is
    still found, no slot is read or written out of range and both loops end
    within the capacity. *)
Lemma delete_spec h m k a :
  table_ok h m -> contents k = Some a ->
  exists h', kryos_map_delete h k = Done h' /\ table_ok h' (delete a m)
    /\ h_capacity h' = h_capacity h /\ h_ref_count h' = h_ref_count h.
Proof.
  intros Hok Hk. unfold kryos_map_delete.
  destruct (probe_key_spec h m k a Hok Hk) as (r & -> & Hpost & Hm). cbn [mbind res_bind].
  destruct r as [i|i e|]; [exists h; rewrite delete_id; done| |exists h; rewrite delete_id; done].
  destruct Hok as [(p & Hp & Hcap) HT Hlen Hfree]. destruct Hpost as (Hi & Hv & _).
  destruct h as [len cap es rc]. cbn in *. pose proof (table_length _ _ _ HT) as Hl.
  destruct (table_free cap p Hp Hcap es m HT ltac:(lia)) as (u & Hu & Hvu).
  assert (Hiu : i <> u) by congruence.
  rewrite write_ok by lia. cbn [mbind res_bind]. rewrite (step_succ cap p Hp Hcap) by done.
  set (es1 := <[Z.to_nat i := mkEntry (e_key e) (e_value e) false]> es).
  destruct (items_insert es (Z.to_nat i) (mkEntry (e_key e) (e_value e) false) ltac:(lia)) as (its & Hits & Hits1).
  change (es !! Z.to_nat i ≫= entry_item) with (view es i) in Hits. rewrite Hv in Hits. cbn in Hits, Hits1.
  assert (Hview : forall j, 0 <= j -> view es1 j = if decide (j = i) then None else view es j).
  { intros j Hj. unfold es1. rewrite view_insert by lia. done. }
  assert (HS : shifting cap its es1 i (succ_slot cap i) u).
  { split.
    - unfold es1. by rewrite length_insert.
    - apply no_dangling_insert; [apply (table_valid _ _ _ HT)|done].
    - done.
    - pose proof (succ_slot_range cap i Hi). done.
    - by rewrite Hview, decide_True by lia.
    - by rewrite Hview, decide_False by (done || lia).
    - circle.
    - intros j q b w Hj Hq. rewrite !Hview by lia. destruct (decide (j = i)); [done|].
      intros Hvj Hon Hqi. rewrite decide_False by done. by apply (table_reachable _ _ _ HT j q b w); [..|lia].
    - intros j b w Hj Hvj Hlt. exfalso. rewrite Hview in Hvj by lia.
      assert (j = i) as -> by circle. by rewrite decide_True in Hvj. }
  destruct (shift_back_spec cap p Hp Hcap its (Z.to_nat cap) es1 i (succ_slot cap i) u HS) as (es' & -> & Hl' & Hval' & Hits' & Hre');
    [circle|]. cbn [mbind res_bind]. eexists. split; [done|].
  pose proof (table_distinct _ _ _ HT) as Hnd. rewrite Hits in Hnd. cbn in Hnd. apply NoDup_cons in Hnd as [Ha Hnd].
  assert (Hmap : delete a m = list_to_map its).
  { rewrite (table_map _ _ _ HT), (list_to_map_proper _ _ (table_distinct _ _ _ HT) Hits). cbn.
    rewrite delete_insert_eq. by apply delete_id, not_elem_of_list_to_map. }
  split; [|done]. split; cbn.
  - by exists p.
  - split; [done|done|by rewrite Hits'| |done].
    rewrite Hmap. apply list_to_map_proper; [done|by rewrite Hits'].
  - rewrite map_size_delete_Some by eauto. assert (size m <> 0%nat); [|lia].
    apply map_size_non_empty_iff. intros ->. by rewrite lookup_empty in Hm.
  - lia.
Qed.
End Tables.
