(* ===== verification/MapHeap.v ===== *)
(** The handles of the runtime's maps ([kryos-rt/src/map.rs], the operations
    generated code calls, on integer keys): headers shared by reference count
    and recycled through [MAP_HDR_POOL] ([kryos-rt/src/lib.rs]).

    [heap_refines] is the contract of the component: as long as a program uses
    only handles it holds, every operation answers as if handles denoted finite
    maps with a count of owners, and releasing what is already released does
    nothing. *)

From S2P Require Import Prelude Machine HashMap.

(* ------------------------------------------------------------------ *)
(** ** State and operations                                            *)
(* ------------------------------------------------------------------ *)

(** The two environment switches of the release operations. *)
Inductive FreeMode := Normal | LeakOnZero | FreeDiag.

(** The headers in memory by address, and [MAP_HDR_POOL], last in first. *)
Record Heap := mkHeap { headers : gmap Z MapHeader; pool : list Z }.

Definition set_headers (s : Heap) (hs : gmap Z MapHeader) : Heap := mkHeap hs (pool s).

(** Reading through a dangling pointer is [Panic]. *)
Definition header (s : Heap) (map : Z) : res MapHeader := of_option (headers s !! map).

Definition store (s : Heap) (map : Z) (h : MapHeader) : Heap := set_headers s (<[map := h]> (headers s)).

(** What the allocator does for the call: [None] and [false] are failures. *)
Record Grant := mkGrant { header_block : option Z; entries_block : bool }.

(** [MAP_HDR_POOL.get().unwrap_or_else(|| alloc_zeroed(layout))] *)
Definition take_block (g : Grant) (s : Heap) : Z * Heap :=
  match pool s with
  | p :: rest => (p, mkHeap (headers s) rest)
  | [] => (default 0 (header_block g), s)
  end.

(** Build a header over fresh entries; without entries its block is freed. *)
Definition new_header (g : Grant) (capacity : Z) (fill : list MapEntry -> list MapEntry) (len rc : Z)
    (s : Heap) : Z * Heap :=
  let '(ptr, s) := take_block g s in
  if ptr =? 0 then (0, s)
  else match alloc_entries (entries_block g) capacity with
       | None => (0, set_headers s (delete ptr (headers s)))
       | Some es => (ptr, store s ptr (mkHeader len capacity (fill es) rc))
       end.

Definition kryos_map_new (g : Grant) (s : Heap) : Z * Heap :=
  new_header g INITIAL_CAPACITY id 0 1 s.

Section Ops.
Context (mode : FreeMode).

(** Run an operation of [HashMap.v] on the header behind a handle. *)
Definition on_header (s : Heap) (map : Z) (f : MapHeader -> res MapHeader) : res Heap :=
  h ← header s map; h ← f h; Done (store s map h).

Definition map_insert (g : Grant) (map key value : Z) (s : Heap) : res Heap :=
  if map =? 0 then Done s
  else on_header s map (fun h => kryos_map_insert (entries_block g) h key value).

Definition map_get (map key : Z) (s : Heap) : res Z :=
  if map =? 0 then Done 0 else h ← header s map; kryos_map_get h key.

Definition map_has (map key : Z) (s : Heap) : res Z :=
  if map =? 0 then Done 0 else h ← header s map; kryos_map_has h key.

Definition map_delete (map key : Z) (s : Heap) : res (Z * Heap) :=
  if map =? 0 then Done (map, s)
  else s ← on_header s map (fun h => kryos_map_delete h key); Done (map, s).

Definition map_len (map : Z) (s : Heap) : res Z :=
  if map =? 0 then Done 0 else h ← header s map; Done (h_len h).

Definition add_ref (h : MapHeader) : MapHeader :=
  mkHeader (h_len h) (h_capacity h) (h_entries h) (h_ref_count h + 1).
Definition drop_ref (h : MapHeader) : MapHeader :=
  mkHeader (h_len h) (h_capacity h) (h_entries h) (h_ref_count h - 1).

Definition map_retain (g : Grant) (map : Z) (s : Heap) : res (Z * Heap) :=
  if map =? 0 then Done (kryos_map_new g s)
  else s ← on_header s map (fun h => Done (add_ref h)); Done (map, s).

Definition map_clone := map_retain.

Definition map_retain_opt (map : Z) (s : Heap) : res Heap :=
  if map =? 0 then Done s else on_header s map (fun h => Done (add_ref h)).

(** What a released header is wiped to. *)
Definition wiped : MapHeader := mkHeader 0 0 [] 0.

Definition map_free (map : Z) (s : Heap) : res Heap :=
  if map =? 0 then Done s
  else match mode with
  | LeakOnZero => Done s
  | FreeDiag =>
      h ← header s map;
      if h_ref_count h <=? 0 then Done s else Done (store s map (drop_ref h))
  | Normal =>
      h ← header s map;
      if h_ref_count h <=? 0 then Done s
      else if 1 <? h_ref_count h then Done (store s map (drop_ref h))
      else Done (mkHeap (<[map := wiped]> (headers s)) (map :: pool s))
  end.

Definition map_release_if_ne (old new : Z) (s : Heap) : res Heap :=
  if negb (old =? 0) && negb (old =? new) then map_free old s else Done s.

(** [fresh_empty_container(2)]: no owner until the compiler retains it. *)
Definition fresh_empty_map (g : Grant) (s : Heap) : res (Z * Heap) :=
  let '(m, s) := kryos_map_new g s in
  h ← header s m;
  Done (m, store s m (mkHeader (h_len h) (h_capacity h) (h_entries h) 0)).

(** [kryos_map_get_or_empty] of a map-valued map ([kind == 2]). *)
Definition map_get_or_empty (g : Grant) (map key : Z) (s : Heap) : res (Z * Heap) :=
  present ← map_has map key s;
  if negb (present =? 0) then v ← map_get map key s; Done (v, s)
  else fresh_empty_map g s.

(** The entries a snapshot copies. *)
Definition copy_occupied (src dst : list MapEntry) : list MapEntry :=
  zip_with (fun e d => if e_occupied e then mkEntry (e_key e) (e_value e) true else d) src dst.

(** [kryos_map_snapshot] of a map with scalar keys and values. *)
Definition map_snapshot (g : Grant) (map : Z) (s : Heap) : res (Z * Heap) :=
  if map =? 0 then Done (kryos_map_new g s)
  else
    src ← header s map;
    if h_capacity src =? 0 then Done (kryos_map_new g s)
    else Done (new_header g (h_capacity src) (copy_occupied (h_entries src)) (h_len src) 1 s).

(** The calls of generated code; [unit] results are 0. *)
Inductive Op :=
| New (g : Grant)
| Insert (g : Grant) (map key value : Z)
| Get (map key : Z)
| GetOrEmpty (g : Grant) (map key : Z)
| Has (map key : Z)
| Delete (map key : Z)
| Len (map : Z)
| Clone (g : Grant) (map : Z)
| RetainOpt (map : Z)
| Free (map : Z)
| ReleaseIfNe (old new : Z)
| Snapshot (g : Grant) (map : Z).

Definition ignore (r : res Heap) : res (Z * Heap) := s ← r; Done (0, s).
Definition observe (r : res Z) (s : Heap) : res (Z * Heap) := v ← r; Done (v, s).

Definition exec (op : Op) (s : Heap) : res (Z * Heap) :=
  match op with
  | New g => Done (kryos_map_new g s)
  | Insert g map key value => ignore (map_insert g map key value s)
  | Get map key => observe (map_get map key s) s
  | GetOrEmpty g map key => map_get_or_empty g map key s
  | Has map key => observe (map_has map key s) s
  | Delete map key => map_delete map key s
  | Len map => observe (map_len map s) s
  | Clone g map => map_clone g map s
  | RetainOpt map => ignore (map_retain_opt map s)
  | Free map => ignore (map_free map s)
  | ReleaseIfNe old new => ignore (map_release_if_ne old new s)
  | Snapshot g map => map_snapshot g map s
  end.

Fixpoint run_ops (ops : list Op) (s : Heap) : res (list Z * Heap) :=
  match ops with
  | [] => Done ([], s)
  | op :: ops => '(v, s) ← exec op s; '(vs, s) ← run_ops ops s; Done (v :: vs, s)
  end.
End Ops.

Definition empty_heap : Heap := mkHeap ∅ [].

(** Deletion shifts an entry back across the end of the table. *)
Example wraps_around :
  let g := mkGrant (Some 4096) true in
  (fst <$> run_ops Normal
     [New g; Insert g 4096 1 10; Insert g 4096 17 20; Insert g 4096 33 30; Delete 4096 1;
      Get 4096 17; Get 4096 33; Has 4096 1; Len 4096; Free 4096; Free 4096; Get 4096 17] empty_heap)
  = Done [4096; 0; 0; 0; 4096; 20; 30; 0; 2; 0; 0; 0].
Proof. vm_compute. reflexivity. Qed.

(* ------------------------------------------------------------------ *)
(** ** The contract                                                    *)
(* ------------------------------------------------------------------ *)

(** Handles in use, with the map each denotes and its number of owners, and
    handles that were released. *)
Record Abs := mkAbs { live : gmap Z (gmap Z Z * Z); dead : gset Z }.

Definition own (a : Abs) (h : Z) (m : gmap Z Z) (owners : Z) : Abs :=
  mkAbs (<[h := (m, owners)]> (live a)) (dead a ∖ {[h]}).

(** Null and released handles read as the empty map. *)
Definition mapping (a : Abs) (h : Z) : option (gmap Z Z) :=
  if h =? 0 then Some ∅
  else match live a !! h with
       | Some (m, _) => Some m
       | None => if bool_decide (h ∈ dead a) then Some ∅ else None
       end.

(** Writes through null and released handles do nothing. *)
Definition put (a : Abs) (h : Z) (m : gmap Z Z) : Abs :=
  match live a !! h with Some (_, c) => own a h m c | None => a end.

Definition release (a : Abs) (h : Z) : Abs :=
  match live a !! h with
  | Some (m, c) =>
      if c <=? 0 then a
      else if 1 <? c then own a h m (c - 1)
      else mkAbs (delete h (live a)) ({[h]} ∪ dead a)
  | None => a
  end.

Definition check (b : bool) (a : Abs) : option Abs := if b then Some a else None.

(** A new handle is one nobody holds. *)
Definition create (a : Abs) (h : Z) (m : gmap Z Z) (owners : Z) : option Abs :=
  check (negb (h =? 0) && bool_decide (live a !! h = None)) (own a h m owners).

Definition retain (a : Abs) (h : Z) : option Abs :=
  '(m, c) ← live a !! h; Some (own a h m (c + 1)).

(** The state after an operation that answers [out]; [None] when the operation
    may not be used, or may not give that answer. *)
Definition abs_exec (a : Abs) (op : Op) (out : Z) : option Abs :=
  match op with
  | New _ => create a out ∅ 1
  | Insert _ h k v => m ← mapping a h; check (out =? 0) (put a h (<[k := v]> m))
  | Get h k => m ← mapping a h; check (out =? default 0 (m !! k)) a
  | GetOrEmpty _ h k =>
      m ← mapping a h;
      match m !! k with Some v => check (out =? v) a | None => create a out ∅ 0 end
  | Has h k => m ← mapping a h; check (out =? if bool_decide (is_Some (m !! k)) then 1 else 0) a
  | Delete h k => m ← mapping a h; check (out =? h) (put a h (delete k m))
  | Len h => m ← mapping a h; check (out =? Z.of_nat (size m)) a
  | Clone _ h => if h =? 0 then create a out ∅ 1 else a' ← retain a h; check (out =? h) a'
  | RetainOpt h => if h =? 0 then check (out =? 0) a else a' ← retain a h; check (out =? 0) a'
  | Free h => _ ← mapping a h; check (out =? 0) (release a h)
  | ReleaseIfNe old new =>
      if (old =? 0) || (old =? new) then check (out =? 0) a
      else _ ← mapping a old; check (out =? 0) (release a old)
  | Snapshot _ h => m ← mapping a h; create a out m 1
  end.

(** Memory is granted at an address nobody uses. *)
Definition granted (g : Grant) (s : Heap) : bool :=
  entries_block g
  && match pool s, header_block g with
     | _ :: _, _ => true
     | [], Some p => negb (p =? 0) && bool_decide (headers s !! p = None)
     | [], None => false
     end.

Definition held (a : Abs) (h : Z) : bool := bool_decide (is_Some (mapping a h)).
Definition owned (a : Abs) (h : Z) : bool := bool_decide (is_Some (live a !! h)).

(** What a caller has to respect: handles are held, what is retained is owned,
    memory does not run out and no map reaches 2^51 entries. *)
Definition legal (s : Heap) (a : Abs) (op : Op) : bool :=
  match op with
  | New g => granted g s
  | Insert g h _ _ =>
      entries_block g && match mapping a h with Some m => Z.of_nat (size m) + 1 <? 2 ^ 51 | None => false end
  | Get h _ | Has h _ | Delete h _ | Len h | Free h => held a h
  | GetOrEmpty g h _ | Snapshot g h => held a h && granted g s
  | Clone g h => if h =? 0 then granted g s else owned a h
  | RetainOpt h => (h =? 0) || owned a h
  | ReleaseIfNe old new => (old =? 0) || (old =? new) || held a old
  end.

Fixpoint abs_run (a : Abs) (ops : list Op) (outs : list Z) : option Abs :=
  match ops, outs with
  | [], [] => Some a
  | op :: ops, out :: outs => a ← abs_exec a op out; abs_run a ops outs
  | _, _ => None
  end.

(** Every operation of a run is legal when its turn comes. *)
Fixpoint legal_run (ops : list Op) (s : Heap) (a : Abs) : bool :=
  match ops with
  | [] => true
  | op :: ops =>
      legal s a op
      && match exec Normal op s with
         | Done (out, s) => match abs_exec a op out with Some a => legal_run ops s a | None => true end
         | _ => true
         end
  end.

(* ------------------------------------------------------------------ *)
(** ** The simulation relation                                         *)
(* ------------------------------------------------------------------ *)

Record refines (s : Heap) (a : Abs) : Prop := mkRefines {
  ref_live : forall h m c, live a !! h = Some (m, c) ->
    h <> 0 /\ 0 <= c /\ exists hd, headers s !! h = Some hd /\ table_ok hd m /\ h_ref_count hd = c;
  ref_pool : NoDup (pool s);
  ref_dead : forall h, h ∈ pool s <-> h ∈ dead a;
  ref_wiped : forall h, h ∈ pool s -> h <> 0 /\ headers s !! h = Some wiped /\ live a !! h = None
}.

Lemma refines_empty : refines empty_heap (mkAbs ∅ ∅).
Proof.
  split; cbn; [intros h m c; by rewrite lookup_empty|constructor|set_solver|].
  by intros h ?%elem_of_nil.
Qed.

Lemma store_live s a h hd m c m' c' :
  refines s a -> live a !! h = Some (m, c) -> table_ok hd m' -> h_ref_count hd = c' -> 0 <= c' ->
  refines (store s h hd) (own a h m' c').
Proof.
  intros [Hl Hp Hd Hw] Hh Hok Hrc Hc.
  assert (Hnp : h ∉ pool s) by (intros Hin; by destruct (Hw h Hin) as (_ & _ & ?); congruence).
  split; cbn; [| done | |].
  - intros h2 m2 c2. destruct (decide (h2 = h)) as [->|Hne].
    + rewrite !lookup_insert_eq. intros [= <- <-]. destruct (Hl h m c Hh) as [? _].
      split_and!; [done|done|]. by exists hd.
    + rewrite !lookup_insert_ne by done. apply Hl.
  - intros h2. rewrite Hd. set_solver.
  - intros h2 Hin. assert (h2 <> h) by congruence. rewrite !lookup_insert_ne by done. by apply Hw.
Qed.

Lemma store_same s h hd : headers s !! h = Some hd -> store s h hd = s.
Proof. intros Hh. unfold store, set_headers. rewrite insert_id by done. by destruct s. Qed.

(** A handle that is held is null, in use or released. *)
Lemma mapping_cases s a h m : refines s a -> mapping a h = Some m ->
  (h = 0 /\ m = ∅)
  \/ (h <> 0 /\ exists c hd, live a !! h = Some (m, c) /\ headers s !! h = Some hd /\ table_ok hd m
        /\ h_ref_count hd = c /\ 0 <= c)
  \/ (h <> 0 /\ h ∈ pool s /\ headers s !! h = Some wiped /\ live a !! h = None /\ m = ∅).
Proof.
  intros HR. unfold mapping. destruct (Z.eqb_spec h 0) as [->|Hne]; [intros [= <-]; by left|].
  destruct (live a !! h) as [[m' c]|] eqn:Hl.
  - intros [= ->]. right. left. split; [done|].
    destruct (ref_live _ _ HR _ _ _ Hl) as (_ & Hc & hd & ? & ? & ?). eauto 10.
  - destruct (bool_decide_reflect (h ∈ dead a)) as [Hd|]; [|done]. intros [= <-].
    apply (ref_dead _ _ HR) in Hd. right. right. destruct (ref_wiped _ _ HR h Hd) as (? & ? & _). done.
Qed.

(** A fresh header under a handle nobody holds. *)
Lemma new_header_refines g s a cap fill len rc es m :
  refines s a -> granted g s = true -> alloc_entries true cap = Some es -> 0 <= rc ->
  table_ok (mkHeader len cap (fill es) rc) m ->
  exists ptr s' a', new_header g cap fill len rc s = (ptr, s') /\ create a ptr m rc = Some a' /\ refines s' a'.
Proof.
  intros [Hl Hp Hd Hw] Hg Hes Hrc Hok. unfold granted in Hg. apply andb_true_iff in Hg as [Hge Hg].
  unfold new_header, take_block. rewrite Hge, Hes.
  destruct (pool s) as [|q rest] eqn:Hpool.
  - destruct (header_block g) as [q|]; [|done]. apply andb_true_iff in Hg as [Hq Hfresh]. cbn.
    apply negb_true_iff in Hq. apply bool_decide_eq_true in Hfresh. rewrite Hq.
    assert (Hlq : live a !! q = None).
    { destruct (live a !! q) as [[m' c]|] eqn:Hlq; [|done].
      destruct (Hl _ _ _ Hlq) as (_ & _ & hd & ? & _). congruence. }
    exists q. eexists. eexists. split; [done|]. unfold create. rewrite Hq, Hlq. cbn. split; [done|].
    split; cbn; rewrite ?Hpool; [|done| |].
    + intros h2 m2 c2. destruct (decide (h2 = q)) as [->|Hne].
      * rewrite !lookup_insert_eq. intros [= <- <-]. apply Z.eqb_neq in Hq. split_and!; [done|done|]. eexists. split_and!; [done|done|done].
      * rewrite !lookup_insert_ne by done. apply Hl.
    + intros h2. specialize (Hd h2). set_solver.
    + intros h2 Hin. by apply elem_of_nil in Hin.
  - destruct (Hw q) as (Hq0 & Hqw & Hlq); [by left|]. apply NoDup_cons in Hp as [Hqr Hp].
    rewrite (proj2 (Z.eqb_neq q 0) Hq0).
    exists q. eexists. eexists. split; [done|]. unfold create. rewrite (proj2 (Z.eqb_neq q 0) Hq0), Hlq.
    cbn. split; [done|]. split; cbn.
    + intros h2 m2 c2. destruct (decide (h2 = q)) as [->|Hne].
      * rewrite !lookup_insert_eq. intros [= <- <-]. split_and!; [done|done|]. eexists. split_and!; [done|done|done].
      * rewrite !lookup_insert_ne by done. apply Hl.
    + done.
    + intros h2. specialize (Hd h2). set_solver.
    + intros h2 Hin. assert (h2 <> q) by congruence. rewrite !lookup_insert_ne by done.
      apply Hw. by right.
Qed.

(* ------------------------------------------------------------------ *)
(** ** Every operation refines the contract                            *)
(* ------------------------------------------------------------------ *)

Lemma get_held s a h m k : refines s a -> mapping a h = Some m ->
  map_get h k s = Done (default 0 (m !! k)).
Proof.
  intros HR Hm. unfold map_get, header. destruct (mapping_cases _ _ _ _ HR Hm)
    as [[-> ->]|[(Hne & c & hd & _ & Hh & Hok & _)|(Hne & _ & Hh & _ & ->)]]; [done|..];
    rewrite (proj2 (Z.eqb_neq h 0) Hne), Hh; [|done]. by apply get_spec.
Qed.

Lemma has_held s a h m k : refines s a -> mapping a h = Some m ->
  map_has h k s = Done (if bool_decide (is_Some (m !! k)) then 1 else 0).
Proof.
  intros HR Hm. unfold map_has, header. destruct (mapping_cases _ _ _ _ HR Hm)
    as [[-> ->]|[(Hne & c & hd & _ & Hh & Hok & _)|(Hne & _ & Hh & _ & ->)]]; [done|..];
    rewrite (proj2 (Z.eqb_neq h 0) Hne), Hh; [|done]. by apply has_spec.
Qed.

Lemma len_held s a h m : refines s a -> mapping a h = Some m ->
  map_len h s = Done (Z.of_nat (size m)).
Proof.
  intros HR Hm. unfold map_len, header. destruct (mapping_cases _ _ _ _ HR Hm)
    as [[-> ->]|[(Hne & c & hd & _ & Hh & Hok & _)|(Hne & _ & Hh & _ & ->)]]; [done|..];
    rewrite (proj2 (Z.eqb_neq h 0) Hne), Hh; [|done]. cbn. f_equal. apply (ok_len _ _ Hok).
Qed.

Lemma put_null a m : mapping a 0 = Some m -> live a !! 0 = None -> put a 0 m = a.
Proof. unfold put. by intros _ ->. Qed.

Lemma null_not_live s a : refines s a -> live a !! 0 = None.
Proof.
  intros HR. destruct (live a !! 0) as [[m c]|] eqn:Hl; [|done].
  by destruct (ref_live _ _ HR _ _ _ Hl).
Qed.

(** A write through a held handle. *)
Lemma write_held s a h m m' f :
  refines s a -> mapping a h = Some m ->
  (forall hd, table_ok hd m -> exists hd', f hd = Done hd' /\ table_ok hd' m' /\ h_ref_count hd' = h_ref_count hd) ->
  f wiped = Done wiped ->
  exists s', (if h =? 0 then Done s else on_header s h f) = Done s' /\ refines s' (put a h m').
Proof.
  intros HR Hm Hf Hw. unfold on_header, header, put.
  destruct (mapping_cases _ _ _ _ HR Hm)
    as [[-> ->]|[(Hne & c & hd & Hl & Hh & Hok & Hrc & Hc)|(Hne & _ & Hh & Hl & ->)]].
  - rewrite (null_not_live _ _ HR). by exists s.
  - rewrite (proj2 (Z.eqb_neq h 0) Hne), Hh, Hl. cbn.
    destruct (Hf hd Hok) as (hd' & -> & Hok' & Hrc'). cbn. eexists. split; [done|].
    apply (store_live s a h hd' m c); congruence || done.
  - rewrite (proj2 (Z.eqb_neq h 0) Hne), Hh, Hl. cbn. rewrite Hw. cbn. eexists. split; [done|].
    by rewrite store_same.
Qed.

Lemma table_ok_room g hd m k :
  table_ok hd m -> entries_block g = true -> Z.of_nat (size m) + 1 < 2 ^ 51 ->
  room (entries_block g) hd m k.
Proof.
  intros Hok Hg Hs. unfold room. rewrite Hg, (ok_len _ _ Hok).
  destruct (ok_capacity _ _ Hok) as (p & Hp & Hcap).
  destruct (Z_le_gt_dec p 51); [left|right; left].
  - split; [done|]. assert (2 ^ p <= 2 ^ 51) by (apply Z.pow_le_mono_r; lia). lia.
  - replace p with 52 in Hcap by lia. lia.
Qed.

Lemma wiped_insert g k v : kryos_map_insert (entries_block g) wiped k v = Done wiped.
Proof. done. Qed.

Lemma free_held s a h m : refines s a -> mapping a h = Some m ->
  exists s', map_free Normal h s = Done s' /\ refines s' (release a h).
Proof.
  intros HR Hm. unfold map_free, header, release. destruct (mapping_cases _ _ _ _ HR Hm)
    as [[-> ->]|[(Hne & c & hd & Hl & Hh & Hok & Hrc & Hc)|(Hne & _ & Hh & Hl & ->)]].
  - rewrite (null_not_live _ _ HR). by exists s.
  - rewrite (proj2 (Z.eqb_neq h 0) Hne), Hh, Hl, <-Hrc. cbn.
    destruct (Z.leb_spec (h_ref_count hd) 0); [by exists s|].
    destruct (Z.ltb_spec 1 (h_ref_count hd)); eexists; (split; [done|]).
    + apply (store_live s a h (drop_ref hd) m c); try done; [|cbn; lia].
      by destruct Hok as [? ? ? ?]; split.
    + destruct HR as [Hlive Hp Hd Hw].
      assert (Hnp : h ∉ pool s) by (intros Hin; destruct (Hw h Hin) as (_ & _ & ?); congruence).
      split; cbn.
      * intros h2 m2 c2 Hh2. apply lookup_delete_Some in Hh2 as [Hne2 Hh2].
        rewrite lookup_insert_ne by done. by apply Hlive.
      * by apply NoDup_cons.
      * intros h2. specialize (Hd h2). set_solver.
      * intros h2 [->|Hin]%elem_of_cons.
        { by rewrite lookup_insert_eq, lookup_delete_eq. }
        assert (h <> h2) by congruence. rewrite lookup_insert_ne, lookup_delete_ne by done. by apply Hw.
  - rewrite (proj2 (Z.eqb_neq h 0) Hne), Hh, Hl. by exists s.
Qed.

Lemma retain_owned s a h m c : refines s a -> live a !! h = Some (m, c) ->
  exists s', on_header s h (fun hd => Done (add_ref hd)) = Done s' /\ refines s' (own a h m (c + 1)).
Proof.
  intros HR Hl. destruct (ref_live _ _ HR _ _ _ Hl) as (_ & Hc & hd & Hh & Hok & Hrc).
  unfold on_header, header. rewrite Hh. cbn. eexists. split; [done|].
  apply (store_live s a h (add_ref hd) m c); try done; [|cbn; by rewrite Hrc|lia].
  by destruct Hok as [? ? ? ?]; split.
Qed.

Lemma new_refines g s a : refines s a -> granted g s = true ->
  exists ptr s' a', kryos_map_new g s = (ptr, s') /\ create a ptr ∅ 1 = Some a' /\ refines s' a'.
Proof.
  intros HR Hg. apply (new_header_refines g s a INITIAL_CAPACITY id 0 1 (repeat zeroed 16)); try done.
  split; cbn; [by exists 4|apply (table_zeroed 16)|done|done].
Qed.

Lemma fresh_refines g s a : refines s a -> granted g s = true ->
  exists ptr s' a', fresh_empty_map g s = Done (ptr, s') /\ create a ptr ∅ 0 = Some a' /\ refines s' a'.
Proof.
  intros HR Hg. destruct (new_refines g s a HR Hg) as (ptr & s' & a' & Hnew & Hcr & HR').
  unfold fresh_empty_map. rewrite Hnew. unfold create, check in Hcr |- *.
  destruct (_ && _) eqn:Hfresh; [|done]. injection Hcr as <-.
  assert (Hl : live (own a ptr ∅ 1) !! ptr = Some (∅, 1)) by apply lookup_insert_eq.
  destruct (ref_live _ _ HR' _ _ _ Hl) as (_ & _ & hd & Hh & Hok & _). unfold header. rewrite Hh. cbn.
  eexists _, _, _. split; [done|]. rewrite Hfresh. split; [done|].
  replace (own a ptr ∅ 0) with (own (own a ptr ∅ 1) ptr ∅ 0).
  - apply (store_live s' _ ptr _ ∅ 1); try done. by destruct Hok as [? ? ? ?]; split.
  - unfold own. cbn. rewrite insert_insert_eq. f_equal. set_solver.
Qed.

(** A snapshot is a table of its own with the same entries. *)
Lemma copy_occupied_table hd m rc : table_ok hd m ->
  table_ok (mkHeader (h_len hd) (h_capacity hd)
    (copy_occupied (h_entries hd) (repeat zeroed (Z.to_nat (h_capacity hd)))) rc) m.
Proof.
  intros [Hcap [Hl Hv Hd Hm Hr] Hlen Hfree]. split; cbn; try done.
  rewrite <-Hl. set (es' := copy_occupied _ _).
  assert (Hes : forall i, es' !! i = (fun e => if e_occupied e then mkEntry (e_key e) (e_value e) true else zeroed)
    <$> h_entries hd !! i).
  { intros i. unfold es', copy_occupied. rewrite lookup_zip_with.
    destruct (h_entries hd !! i) as [e|] eqn:He; [|done]. cbn.
    pose proof (lookup_lt_Some _ _ _ He) as Hlt.
    destruct (lookup_lt_is_Some_2 (repeat zeroed (length (h_entries hd))) i) as [z Hz];
      [by rewrite repeat_length|]. rewrite Hz. cbn.
    apply list_elem_of_lookup_2, list_elem_of_In, repeat_spec in Hz as ->. done. }
  assert (Hview : forall i, view es' i = view (h_entries hd) i).
  { intros i. unfold view. rewrite Hes. destruct (h_entries hd !! Z.to_nat i) as [[k v [|]]|]; done. }
  assert (Hits : items es' = items (h_entries hd)).
  { unfold items, es', copy_occupied. clear. induction (h_entries hd) as [|[k v o] es IH]; [done|].
    cbn in *. destruct o; cbn in *; by rewrite IH. }
  split.
  - unfold es', copy_occupied. rewrite length_zip_with, repeat_length. lia.
  - intros e Hin Ho. apply list_elem_of_lookup in Hin as [i Hi]. rewrite Hes in Hi.
    destruct (h_entries hd !! i) as [e0|] eqn:He; [|done]. cbn in Hi. injection Hi as <-. by eexists.
  - by rewrite Hits.
  - by rewrite Hits.
  - intros i q b w Hi Hq. rewrite !Hview. by apply Hr.
Qed.

Lemma check_true a b : b = true -> check b a = Some a.
Proof. by intros ->. Qed.

Lemma exec_refines op s a :
  refines s a -> legal s a op = true ->
  exists out s' a', exec Normal op s = Done (out, s') /\ abs_exec a op out = Some a' /\ refines s' a'.
Proof.
  intros HR Hlegal. destruct op as [g|g h k v|h k|g h k|h k|h k|h|g h|h|h|old new|g h]; cbn [exec abs_exec legal] in *.
  - destruct (new_refines g s a HR Hlegal) as (ptr & s' & a' & -> & Hcr & HR'). eauto 10.
  - apply andb_true_iff in Hlegal as [Hg Hs]. destruct (mapping a h) as [m|] eqn:Hm; [|done].
    apply Z.ltb_lt in Hs. unfold map_insert.
    destruct (write_held s a h m (<[k := v]> m) (fun hd => kryos_map_insert (entries_block g) hd k v) HR Hm)
      as (s' & -> & HR'); [|by apply wiped_insert|cbn; eauto 10].
    intros hd Hok. apply insert_spec; [done|done|]. by apply table_ok_room.
  - apply bool_decide_eq_true in Hlegal as [m Hm]. rewrite (get_held s a h m k HR Hm), Hm. cbn [mbind option_bind].
    eexists _, s, a. split; [reflexivity|]. by rewrite Z.eqb_refl.
  - apply andb_true_iff in Hlegal as [[m Hm]%bool_decide_eq_true Hg]. unfold map_get_or_empty.
    rewrite (has_held s a h m k HR Hm), (get_held s a h m k HR Hm), Hm. cbn.
    destruct (m !! k) as [v|]; cbn; [exists v, s, a; by rewrite Z.eqb_refl|].
    destruct (fresh_refines g s a HR Hg) as (ptr & s' & a' & -> & Hcr & HR'). eauto 10.
  - apply bool_decide_eq_true in Hlegal as [m Hm]. rewrite (has_held s a h m k HR Hm), Hm. cbn [mbind option_bind].
    eexists _, s, a. split; [reflexivity|]. by rewrite Z.eqb_refl.
  - apply bool_decide_eq_true in Hlegal as [m Hm]. unfold map_delete. rewrite Hm. cbn [mbind option_bind].
    destruct (write_held s a h m (delete k m) (fun hd => kryos_map_delete hd k) HR Hm) as (s' & Hs' & HR');
      [|done|].
    { intros hd Hok. destruct (delete_spec hd m k k Hok eq_refl) as (hd' & ? & ? & _ & ?). eauto. }
    exists h, s', (put a h (delete k m)). rewrite Z.eqb_refl. split; [|done].
    destruct (h =? 0); [by injection Hs' as ->|]. by rewrite Hs'.
  - apply bool_decide_eq_true in Hlegal as [m Hm]. rewrite (len_held s a h m HR Hm), Hm. cbn [mbind option_bind].
    eexists _, s, a. split; [reflexivity|]. by rewrite Z.eqb_refl.
  - unfold map_clone, map_retain. destruct (Z.eqb_spec h 0) as [->|Hne].
    + destruct (new_refines g s a HR Hlegal) as (ptr & s' & a' & -> & Hcr & HR'). eauto 10.
    + apply bool_decide_eq_true in Hlegal as [[m c] Hl].
      destruct (retain_owned s a h m c HR Hl) as (s' & -> & HR'). unfold retain. rewrite Hl. cbn.
      exists h, s', (own a h m (c + 1)). by rewrite Z.eqb_refl.
  - unfold map_retain_opt. destruct (Z.eqb_spec h 0) as [->|Hne]; [cbn; eauto 10|].
    apply bool_decide_eq_true in Hlegal as [[m c] Hl].
    destruct (retain_owned s a h m c HR Hl) as (s' & -> & HR'). unfold retain. rewrite Hl. cbn. eauto 10.
  - apply bool_decide_eq_true in Hlegal as [m Hm].
    destruct (free_held s a h m HR Hm) as (s' & -> & HR'). rewrite Hm. cbn. eauto 10.
  - unfold map_release_if_ne. destruct ((old =? 0) || (old =? new)) eqn:Hsame; cbn in Hlegal.
    + rewrite <-negb_orb, Hsame. cbn. eauto 10.
    + rewrite <-negb_orb, Hsame. cbn [negb]. apply bool_decide_eq_true in Hlegal as [m Hm].
      destruct (free_held s a old m HR Hm) as (s' & -> & HR'). rewrite Hm. cbn. eauto 10.
  - apply andb_true_iff in Hlegal as [[m Hm]%bool_decide_eq_true Hg]. rewrite Hm. cbn [mbind option_bind].
    unfold map_snapshot, header.
    destruct (mapping_cases _ _ _ _ HR Hm) as [[-> ->]|[(Hne & c & hd & Hl & Hh & Hok & Hrc & Hc)|(Hne & _ & Hh & Hl & ->)]].
    + destruct (new_refines g s a HR Hg) as (ptr & s' & a' & -> & Hcr & HR'). cbn. eauto 10.
    + rewrite (proj2 (Z.eqb_neq h 0) Hne), Hh. cbn [of_option mbind res_bind]. rewrite (capacity_nonzero _ _ Hok).
      destruct (ok_capacity _ _ Hok) as (p & Hp & Hcap). pose proof (cap_bounds _ p Hp Hcap).
      destruct (new_header_refines g s a (h_capacity hd) (copy_occupied (h_entries hd)) (h_len hd) 1
        (repeat zeroed (Z.to_nat (h_capacity hd))) m HR Hg) as (ptr & s' & a' & -> & Hcr & HR').
      * unfold alloc_entries. cbn. by rewrite (proj2 (Z.leb_le _ _)) by lia.
      * lia.
      * by apply copy_occupied_table.
      * eauto 10.
    + rewrite (proj2 (Z.eqb_neq h 0) Hne), Hh. cbn.
      destruct (new_refines g s a HR Hg) as (ptr & s' & a' & -> & Hcr & HR'). eauto 10.
Qed.

(** C4: the runtime's maps implement finite maps with owners.  In a run that
    only uses handles it holds, while memory lasts, no operation reads or
    writes out of bounds or through a dangling pointer, every answer is the one
    the abstract machine [abs_exec] gives, and the final memory represents the
    final abstract state: handles that are in use denote the maps the program
    built, a map lives until its last owner releases it, released headers are
    reused only for new maps, and releasing them again does nothing. *)
Theorem heap_refines ops s a :
  refines s a -> legal_run ops s a = true ->
  exists outs s' a', run_ops Normal ops s = Done (outs, s') /\ abs_run a ops outs = Some a' /\ refines s' a'.
Proof.
  revert s a. induction ops as [|op ops IH]; intros s a HR Hlegal; cbn in *; [by exists [], s, a|].
  apply andb_true_iff in Hlegal as [Hop Hrest].
  destruct (exec_refines op s a HR Hop) as (out & s1 & a1 & Hex & Habs & HR1).
  rewrite Hex, Habs in Hrest. destruct (IH s1 a1 HR1 Hrest) as (outs & s' & a' & Hrun & Harun & HR').
  exists (out :: outs), s', a'. rewrite Hex. cbn. rewrite Hrun. cbn. by rewrite Habs.
Qed.

Definition sample_run : list Op :=
  let g := mkGrant (Some 4096) true in
  [New g; Insert g 4096 1 10; Insert g 4096 17 20; Clone g 4096; Delete 4096 1; Free 4096;
   Get 4096 17; Free 4096; Free 4096; Get 4096 17; New g; Len 4096].

Lemma heap_refines_witness :
  exists outs s' a', run_ops Normal sample_run empty_heap = Done (outs, s')
    /\ abs_run (mkAbs ∅ ∅) sample_run outs = Some a' /\ refines s' a'.
Proof. apply heap_refines; [apply refines_empty|vm_compute; reflexivity]. Defined.

(** Retaining a released handle is outside the contract: its header is released
    twice to the pool, and two new maps share it. *)
Example retained_after_release :
  let g := mkGrant (Some 4096) true in
  (fst <$> run_ops Normal [New g; Free 4096; RetainOpt 4096; Free 4096; New g; New g] empty_heap)
  = Done [4096; 0; 0; 0; 4096; 4096].
Proof. vm_compute. reflexivity. Qed.
