(* ===== verification/StrMap.v ===== *)
(** String keys of the runtime's maps: the [_str] operations of
    [kryos-rt/src/map.rs] and the string functions they call
    ([kryos-rt/src/string.rs]).

    A string handle is the address of a header in memory, 0 for a null pointer;
    strings are immutable, so memory maps handles to their bytes.  The table of
    [HashMap.v] is used with FNV-1a over the bytes as the hash and equality of
    the bytes. *)

From S2P Require Import Prelude Machine HashMap.

(** The strings in memory. *)
Abbreviation Strings := (gmap Z (list Z)).

(** The bytes behind a handle that is not null. *)
Definition deref (m : Strings) (s : Z) : res (list Z) :=
  if s =? 0 then Panic else of_option (m !! s).

Definition fnv1a (bytes : list Z) : Z :=
  foldl (fun h b => (Z.lxor h b * 0x100000001b3) mod 2 ^ 64) 0xcbf29ce484222325 bytes.

Definition kryos_string_hash (m : Strings) (s : Z) : res Z :=
  if s =? 0 then Done 0
  else bytes ← deref m s; Done (wrap64 (fnv1a bytes)).

Definition kryos_string_len (m : Strings) (s : Z) : res Z :=
  if s =? 0 then Done 0 else bytes ← deref m s; Done (Z.of_nat (length bytes)).

Definition kryos_string_eq (m : Strings) (a b : Z) : res bool :=
  la ← kryos_string_len m a;
  lb ← kryos_string_len m b;
  if negb (la =? lb) then Done false
  else if la =? 0 then Done true
  else a_slice ← deref m a; b_slice ← deref m b; Done (bool_decide (a_slice = b_slice)).

(** A copy of [bytes] at the address the allocator gives, null if it fails. *)
Definition kryos_string_new (block : option Z) (bytes : list Z) (m : Strings) : Z * Strings :=
  match block with
  | Some s => (s, <[s := bytes]> m)
  | None => (0, m)
  end.

#[export] Instance str_keys (m : Strings) : Keys := {|
  hash_of := kryos_string_hash m;
  key_eqb := kryos_string_eq m
|}.

Section Ops.
Context (m : Strings).

Definition kryos_map_get_str (h : MapHeader) (key : Z) : res Z := kryos_map_get (KS := str_keys m) h key.
Definition kryos_map_has_str (h : MapHeader) (key : Z) : res Z :=
  if h_capacity h =? 0 then Done 0 else kryos_map_has (KS := str_keys m) h key.
Definition kryos_map_delete_str (h : MapHeader) (key : Z) : res MapHeader :=
  kryos_map_delete (KS := str_keys m) h key.

(** A new entry gets a copy of the key of its own. *)
Definition kryos_map_insert_str (ok : bool) (block : option Z) (h : MapHeader) (key value : Z)
  : res (MapHeader * Strings) :=
  if h_capacity h =? 0 then Done (h, m)
  else
    h ← grow (KS := str_keys m) ok h;
    r ← probe_key (KS := str_keys m) h key;
    match r with
    | Vacant idx =>
        bytes ← deref m key;
        let '(copy, m) := kryos_string_new block bytes m in
        es ← write (h_entries h) idx (mkEntry copy value true);
        Done (mkHeader (h_len h + 1) (h_capacity h) es (h_ref_count h), m)
    | Hit idx e =>
        es ← write (h_entries h) idx (mkEntry (e_key e) value true);
        Done (mkHeader (h_len h) (h_capacity h) es (h_ref_count h), m)
    | Exhausted => Done (h, m)
    end.
End Ops.

(* ------------------------------------------------------------------ *)
(** ** Strings as keys                                                 *)
(* ------------------------------------------------------------------ *)

(** A key is a string that is not null: for a null handle hash and equality
    disagree, see [null_key_missed]. *)
Definition str_contents (m : Strings) (s : Z) : option (list Z) := if s =? 0 then None else m !! s.

Lemma deref_contents m s a : str_contents m s = Some a -> deref m s = Done a /\ (s =? 0) = false.
Proof. unfold str_contents, deref. destruct (s =? 0); [done|]. by intros ->. Qed.

#[export, refine] Instance str_model (m : Strings) : KeyModel (str_keys m) (list Z) := {|
  contents := str_contents m;
  content_hash a := wrap64 (fnv1a a)
|}.
Proof.
  - intros k a [Hd Hk]%deref_contents. cbn. unfold kryos_string_hash. by rewrite Hk, Hd.
  - intros k1 k2 a1 a2 [Hd1 Hk1]%deref_contents [Hd2 Hk2]%deref_contents. cbn.
    unfold kryos_string_eq, kryos_string_len. rewrite Hk1, Hk2, Hd1, Hd2. cbn [mbind res_bind].
    destruct (Z.eqb_spec (Z.of_nat (length a1)) (Z.of_nat (length a2))) as [Hl|Hl]; cbn.
    + destruct (Z.eqb_spec (Z.of_nat (length a1)) 0) as [H0|_]; [|done].
      destruct a1, a2; try done; cbn in *; lia.
    + rewrite bool_decide_false; [done|]. by intros ->.
Defined.

(** Two memories that agree on the keys of a table give it the same meaning. *)
Definition same_keys (m m' : Strings) (es : list MapEntry) : Prop :=
  forall k a, has_key es k -> str_contents m k = Some a -> str_contents m' k = Some a.

Section Memory.
Context (m m' : Strings) (h : MapHeader) (t : gmap (list Z) Z).
Context (Hok : table_ok (KM := str_model m) h t) (Hag : same_keys m m' (h_entries h)).

Lemma entry_item_memory e : e ∈ h_entries h ->
  entry_item (KM := str_model m') e = entry_item (KM := str_model m) e.
Proof.
  intros He. unfold entry_item. destruct (e_occupied e) eqn:Ho; [|done].
  destruct (table_valid _ _ _ (ok_table _ _ Hok) e He Ho) as [a Ha]. cbn in Ha |- *.
  rewrite Ha, (Hag (e_key e) a); [done|by exists e|done].
Qed.

Lemma view_memory i :
  view (KM := str_model m') (h_entries h) i = view (KM := str_model m) (h_entries h) i.
Proof.
  unfold view. destruct (h_entries h !! Z.to_nat i) as [e|] eqn:He; [|done].
  by apply entry_item_memory, (list_elem_of_lookup_2 _ _ _ He).
Qed.

Lemma items_memory :
  items (KM := str_model m') (h_entries h) = items (KM := str_model m) (h_entries h).
Proof.
  pose proof entry_item_memory as Hitem. revert Hitem. generalize (h_entries h).
  intros es. induction es as [|e es IH]; intros Hitem; [done|].
  rewrite !items_cons, Hitem by constructor. f_equal. apply IH. intros. apply Hitem. by constructor.
Qed.

Lemma table_ok_memory : table_ok (KM := str_model m') h t.
Proof.
  pose proof view_memory as Hview. pose proof items_memory as Hits.
  destruct Hok as [Hcap [Hl Hv Hd Ht Hr] Hlen Hfree].
  split; [done| |done|done]. split.
  - done.
  - intros e He Ho. destruct (Hv e He Ho) as [a Ha]. exists a. apply Hag; [by exists e|done].
  - by rewrite Hits.
  - by rewrite Hits.
  - intros i q a v Hi Hq. rewrite !Hview. by apply Hr.
Qed.

Lemma vacant_memory a i :
  probe_post (KM := str_model m) (h_capacity h) (h_entries h) a (Vacant i) ->
  probe_post (KM := str_model m') (h_capacity h) (h_entries h) a (Vacant i).
Proof.
  intros (Hi & Hv & Hway). split; [done|]. rewrite view_memory. split; [done|].
  intros q Hq Hon. destruct (Hway q Hq Hon) as (b & w & Hb & Hne). exists b, w. by rewrite view_memory.
Qed.
End Memory.

Lemma insert_same_keys m s bytes es : m !! s = None -> same_keys m (<[s := bytes]> m) es.
Proof.
  intros Hs k a _. unfold str_contents. destruct (k =? 0); [done|]. intros Hk.
  rewrite lookup_insert_ne; [done|]. congruence.
Qed.

Lemma delete_same_keys m s es : ~ has_key es s -> same_keys m (delete s m) es.
Proof.
  intros Hs k a Hk. unfold str_contents. destruct (k =? 0); [done|]. intros Hc.
  rewrite lookup_delete_ne; [done|]. by intros <-.
Qed.

Lemma insert_str_spec m ok s h t key a v :
  table_ok (KM := str_model m) h t -> str_contents m key = Some a -> room ok h t a ->
  s <> 0 -> m !! s = None ->
  exists h' m', kryos_map_insert_str m ok (Some s) h key v = Done (h', m') /\ m ⊆ m'
    /\ table_ok (KM := str_model m') h' (<[a := v]> t)
    /\ (forall k, has_key (h_entries h') k -> has_key (h_entries h) k \/ k = s).
Proof.
  intros Hok Hk Hroom Hs Hfresh. unfold kryos_map_insert_str. rewrite (capacity_nonzero _ _ Hok).
  destruct (grow_spec ok h t a Hok Hroom) as (h1 & Hgrow & Hok1 & _ & _ & Hfree).
  pose proof (fun k => grow_keys _ _ _ k Hgrow) as Hkeys.
  rewrite Hgrow. cbn [mbind res_bind].
  destruct (probe_key_spec h1 t key a Hok1 Hk) as (r & -> & Hpost & Ht). cbn [mbind res_bind].
  destruct r as [i|i e|].
  - destruct (deref_contents _ _ _ Hk) as [-> _]. cbn [mbind res_bind kryos_string_new].
    assert (Hl : h_len h1 + 1 < h_capacity h1) by (destruct Hfree as [[w Hw]|]; [by rewrite Ht in Hw|done]).
    assert (Hag : same_keys m (<[s := a]> m) (h_entries h1)) by by apply insert_same_keys.
    assert (Hcopy : str_contents (<[s := a]> m) s = Some a).
    { unfold str_contents. rewrite (proj2 (Z.eqb_neq s 0) Hs). apply lookup_insert_eq. }
    destruct (fill_vacant (KM := str_model (<[s := a]> m)) h1 t i s a v) as (es & Hw & Hes); try done.
    { by apply (table_ok_memory m). }
    { by apply (vacant_memory m _ h1 t). }
    rewrite Hw. cbn. eexists _, _. split; [done|]. split; [by apply insert_subseteq|]. split; [done|].
    intros k Hin. cbn in Hin. apply (write_keys _ _ _ _ k Hw) in Hin as [?| ->]; [left; by apply Hkeys|by right].
  - pose proof Hpost as (Hi & Hv & Hc & Hread & Hocc).
    destruct (fill_hit h1 t i e (e_key e) a v Hok1 Hc) as (es & Hw & Hes); [done|].
    rewrite Hw. cbn. eexists _, _. split; [done|]. split; [done|]. split; [done|].
    intros k Hin. cbn in Hin. apply (write_keys _ _ _ _ k Hw) in Hin as [?| ->]; [left; by apply Hkeys|left].
    apply Hkeys. exists e. split; [by eapply read_elem|done].
  - exfalso. pose proof (ok_free _ _ Hok1) as Hf. rewrite (ok_len _ _ Hok1) in Hf.
    destruct (ok_capacity _ _ Hok1) as (p & Hp & Hcap).
    destruct (table_free (h_capacity h1) p Hp Hcap _ t (ok_table _ _ Hok1) Hf) as (u & Hu & Hv).
    by apply (other_occupied _ _ _ (Hpost u Hu)).
Qed.

(* ------------------------------------------------------------------ *)
(** ** What the operations promise                                     *)
(* ------------------------------------------------------------------ *)

(** C38: on a table that represents the map [t] from byte strings, and a key that
    is the handle of a string in memory, so not the null handle, which
    [null_key_missed] is about, lookup, membership and deletion are those of [t]
    at the bytes of the key, by whichever handle they are reached; insertion
    gives a table that represents [<[a := v]> t], changes no string, and owns its
    keys: the caller may free the key it passed, unless it is a string the table
    held already. *)
Theorem str_map_refines m h t key a :
  table_ok (KM := str_model m) h t -> str_contents m key = Some a ->
  kryos_map_get_str m h key = Done (default 0 (t !! a))
  /\ kryos_map_has_str m h key = Done (if bool_decide (is_Some (t !! a)) then 1 else 0)
  /\ (exists h', kryos_map_delete_str m h key = Done h' /\ table_ok (KM := str_model m) h' (delete a t))
  /\ (forall ok s v, room ok h t a -> s <> 0 -> m !! s = None ->
      exists h' m', kryos_map_insert_str m ok (Some s) h key v = Done (h', m') /\ m ⊆ m'
        /\ table_ok (KM := str_model m') h' (<[a := v]> t)
        /\ (~ has_key (h_entries h) key ->
            table_ok (KM := str_model (delete key m')) h' (<[a := v]> t))).
Proof.
  intros Hok Hk. split_and!.
  - by apply get_spec.
  - unfold kryos_map_has_str. rewrite (capacity_nonzero _ _ Hok). by apply has_spec.
  - destruct (delete_spec h t key a Hok Hk) as (h' & ? & ? & _). by exists h'.
  - intros ok s v Hroom Hs Hfresh.
    destruct (insert_str_spec m ok s h t key a v) as (h' & m' & Hins & Hsub & Hok' & Hkeys); [done..|].
    exists h', m'. split_and!; [done..|]. intros Hno. apply (table_ok_memory m'); [done|].
    apply delete_same_keys. intros [Hin| ->]%Hkeys; [done|].
    unfold str_contents in Hk. destruct (s =? 0); congruence.
Qed.

Definition new_table : MapHeader := mkHeader 0 16 (repeat zeroed 16) 1.

Lemma new_table_ok m : table_ok (KM := str_model m) new_table ∅.
Proof. split; cbn; [by exists 4|apply (table_zeroed 16)|done|lia]. Qed.

Definition one_string : Strings := {[ 8 := [107] ]}.

Lemma str_map_refines_witness :
  exists h' m', kryos_map_insert_str one_string true (Some 9) new_table 8 5 = Done (h', m')
    /\ table_ok (KM := str_model (delete 8 m')) h' (<[ [107] := 5 ]> ∅).
Proof.
  destruct (str_map_refines one_string new_table ∅ 8 [107] (new_table_ok _) ltac:(vm_compute; reflexivity)) as (_ & _ & _ & Hins).
  destruct (Hins true 9 5) as (h' & m' & ? & _ & _ & Hfree); [by left|done|done|].
  exists h', m'. split; [done|]. apply Hfree. intros (e & He & Ho & _).
  apply list_elem_of_In, (repeat_spec 16) in He as ->. done.
Defined.

(** A null handle is the empty string for [kryos_string_eq] but not for
    [kryos_string_hash]: an entry of the empty string is not found through the
    null handle, which is equal to its key, and inserting under the null handle
    reads through it. *)
Lemma null_key_missed :
  let m : Strings := {[ 8 := []; 9 := [] ]} in
  kryos_string_eq m 0 8 = Done true
  /\ kryos_map_insert_str m true (Some 10) new_table 0 5 = Panic
  /\ exists h' m', kryos_map_insert_str m true (Some 10) new_table 8 5 = Done (h', m')
     /\ kryos_map_get_str m' h' 9 = Done 5 /\ kryos_map_get_str m' h' 0 = Done 0.
Proof.
  split; [vm_compute; reflexivity|]. split; [vm_compute; reflexivity|]. eexists _, _.
  split; [vm_compute; reflexivity|]. split; vm_compute; reflexivity.
Qed.
