(* ===== verification/Threads.v ===== *)
(** Threads over a shared state: events and executions, what a schedule cannot avoid, and
    sums over a pool of threads.  A program counter per thread is a value of [L]; a
    thread that waits for a lock or sleeps has no event of its own. *)

From S2P Require Import Prelude.

(* ------------------------------------------------------------------ *)
(** ** Executions                                                      *)
(* ------------------------------------------------------------------ *)

Section System.
Context {St Ev : Type} (next : Ev -> St -> option St).

(** The events [es], one after the other; [None] when one of them is not possible. *)
Fixpoint exec (es : list Ev) (σ : St) : option St :=
  match es with
  | [] => Some σ
  | e :: es => σ' ← next e σ; exec es σ'
  end.

Lemma exec_app es1 es2 σ : exec (es1 ++ es2) σ = (σ' ← exec es1 σ; exec es2 σ').
Proof.
  revert σ. induction es1 as [|e es1 IH]; intros σ; cbn; [done|]. destruct (next e σ); [apply IH|done].
Qed.

Lemma exec_invariant (I : St -> Prop) :
  (forall e σ σ', I σ -> next e σ = Some σ' -> I σ') ->
  forall es σ σ', I σ -> exec es σ = Some σ' -> I σ'.
Proof.
  intros Hstep es. induction es as [|e es IH]; intros σ σ' Hσ; cbn; [by intros [= <-]|].
  destruct (next e σ) as [σ1|] eqn:H1; [|done]. eauto.
Qed.

(** The events that need no decision from outside the threads. *)
Context (internal : Ev -> bool).

Definition moves (σ σ' : St) : Prop := exists e, internal e = true /\ next e σ = Some σ'.

(** Whatever the schedule of internal events, [P] comes to hold. *)
Inductive inevitable (P : St -> Prop) (σ : St) : Prop :=
| inevitable_now : P σ -> inevitable P σ
| inevitable_later :
    (exists σ', moves σ σ') -> (forall σ', moves σ σ' -> inevitable P σ') -> inevitable P σ.

Lemma inevitable_mono (P Q : St -> Prop) σ :
  (forall σ, P σ -> Q σ) -> inevitable P σ -> inevitable Q σ.
Proof. intros HPQ. induction 1; [by apply inevitable_now, HPQ|by apply inevitable_later]. Qed.

(** A measure that every internal event decreases, with progress until [P]. *)
Lemma inevitable_measure (I P : St -> Prop) (μ : St -> nat) :
  (forall σ σ', I σ -> moves σ σ' -> I σ' /\ (μ σ' < μ σ)%nat) ->
  (forall σ, I σ -> P σ \/ exists σ', moves σ σ') ->
  forall σ, I σ -> inevitable (fun σ' => I σ' /\ P σ') σ.
Proof.
  intros Hstep Hprog σ. remember (μ σ) as n eqn:Hn. revert σ Hn.
  induction n as [n IH] using (well_founded_induction lt_wf). intros σ -> Hσ.
  destruct (Hprog σ Hσ) as [HP|Hm]; [by apply inevitable_now|].
  apply inevitable_later; [done|]. intros σ' Hm'. destruct (Hstep σ σ' Hσ Hm') as [Hσ' Hlt].
  by apply (IH (μ σ')).
Qed.
End System.

(* ------------------------------------------------------------------ *)
(** ** Sums over a pool of threads                                     *)
(* ------------------------------------------------------------------ *)

Section Pool.
Context {L : Type}.
Implicit Types (m : gmap nat L) (f : L -> nat).

Definition pool_sum f m : nat := map_fold (fun _ l acc => f l + acc)%nat 0%nat m.
Definition pool_count (p : L -> bool) m : nat := pool_sum (fun l => if p l then 1 else 0)%nat m.

Lemma pool_sum_delete f m t l :
  m !! t = Some l -> pool_sum f m = (f l + pool_sum f (delete t m))%nat.
Proof. intros Ht. unfold pool_sum. rewrite (map_fold_delete_L _ _ t l m); [done|lia|done]. Qed.

(** One thread moves. *)
Lemma pool_sum_insert f m t l l' :
  m !! t = Some l -> (pool_sum f (<[t:=l']> m) + f l = pool_sum f m + f l')%nat.
Proof.
  intros Ht. rewrite (pool_sum_delete f m t l Ht).
  rewrite (pool_sum_delete f (<[t:=l']> m) t l') by apply lookup_insert_eq.
  rewrite delete_insert_eq. lia.
Qed.
Lemma pool_sum_new f m t l :
  m !! t = None -> pool_sum f (<[t:=l]> m) = (f l + pool_sum f m)%nat.
Proof.
  intros Ht. rewrite (pool_sum_delete f _ t l) by apply lookup_insert_eq. by rewrite delete_insert_id.
Qed.
Lemma pool_sum_le f m t l : m !! t = Some l -> (f l <= pool_sum f m)%nat.
Proof. intros Ht. rewrite (pool_sum_delete f m t l Ht). lia. Qed.
Lemma pool_count_insert p m t l l' : m !! t = Some l ->
  (pool_count p (<[t:=l']> m) + (if p l then 1 else 0) = pool_count p m + (if p l' then 1 else 0))%nat.
Proof. apply (pool_sum_insert (fun l => if p l then 1 else 0)%nat). Qed.
Lemma pool_count_pos p m t l : m !! t = Some l -> p l = true -> (1 <= pool_count p m)%nat.
Proof. intros Ht Hp. pose proof (pool_sum_le (fun l => if p l then 1 else 0)%nat m t l Ht) as H. cbn beta in H. by rewrite Hp in H. Qed.
Lemma pool_count_0 p m t l : pool_count p m = 0%nat -> m !! t = Some l -> p l = false.
Proof. intros H0 Ht. destruct (p l) eqn:Hp; [|done]. pose proof (pool_count_pos p m t l Ht Hp). lia. Qed.

(** All threads move at once. *)
Lemma pool_sum_fmap f (g : L -> L) c m :
  (forall l, (f (g l) <= f l + c)%nat) -> (pool_sum f (g <$> m) <= pool_sum f m + c * size m)%nat.
Proof.
  intros Hg. induction m as [|t l m Ht IH] using map_ind; [by rewrite fmap_empty; unfold pool_sum; rewrite map_fold_empty; lia|].
  rewrite fmap_insert, map_size_insert_None by done.
  rewrite (pool_sum_delete f (<[t:=g l]> (g <$> m)) t (g l)) by apply lookup_insert_eq.
  rewrite (pool_sum_delete f (<[t:=l]> m) t l) by apply lookup_insert_eq.
  rewrite !delete_insert_id by (by rewrite ?lookup_fmap, Ht). specialize (Hg l). lia.
Qed.
Lemma pool_sum_fmap_0 f (g : L -> L) m : (forall l, f (g l) = 0%nat) -> pool_sum f (g <$> m) = 0%nat.
Proof.
  intros Hg. induction m as [|t l m Ht IH] using map_ind; [by rewrite fmap_empty|].
  rewrite fmap_insert, (pool_sum_delete f _ t (g l)) by apply lookup_insert_eq.
  rewrite delete_insert_id by (by rewrite lookup_fmap, Ht). by rewrite Hg, IH.
Qed.
Lemma pool_sum_ext f g m : (forall l, f l = g l) -> pool_sum f m = pool_sum g m.
Proof.
  intros Hfg. induction m as [|t l m Ht IH] using map_ind; [done|].
  rewrite !(pool_sum_delete _ (<[t:=l]> m) t l) by apply lookup_insert_eq.
  rewrite delete_insert_id by done. by rewrite Hfg, IH.
Qed.
Lemma pool_sum_pos f m : (0 < pool_sum f m)%nat -> exists t l, m !! t = Some l /\ (0 < f l)%nat.
Proof.
  induction m as [|t l m Ht IH] using map_ind; [unfold pool_sum; rewrite map_fold_empty; lia|].
  rewrite (pool_sum_delete f _ t l) by apply lookup_insert_eq. rewrite delete_insert_id by done. intros Hpos.
  destruct (decide (0 < f l)%nat) as [Hl|Hl]; [by exists t, l; rewrite lookup_insert_eq|].
  destruct IH as (t' & l' & Ht' & Hl'); [lia|]. exists t', l'. rewrite lookup_insert_ne; [done|congruence].
Qed.
End Pool.
