(* ===== verification/Channel.v ===== *)
(** Channels ([kryos-rt/src/channel.rs]): a queue behind a mutex and a condition variable,
    with a flag [closed] and a count of handles beside them.

    Each exported function is a program of atomic actions: a load or a store of an atomic
    field, an acquisition or a release of the mutex, a call of the condition variable.
    A thread is at one of these actions ([Pc]) or outside of a call.  The memory order
    is sequentially consistent.  A timed receive carries the time it has left; its pauses
    and the readings of its clock are events.  No action is possible on a channel whose
    box is freed: [legal] are the executions in which every call is made on a handle that
    is not given up while it lasts. *)

From S2P Require Import Prelude Machine Threads.

(* ------------------------------------------------------------------ *)
(** ** State                                                           *)
(* ------------------------------------------------------------------ *)

(** A message is a list of bytes. *)
Abbreviation message := (list Z).

(** What a call returns, and the bytes it has written to the caller's buffer; 1 stands for
    the handle that [kryos_chan_clone] returns. *)
Record ret := mkRet { code : Z; written : list Z }.

(** The calls.  A flag says that the handle is null, and a pointer to data or to a
    buffer is [None] when it is null. *)
Inductive call :=
| C_send (null : bool) (data : option message)
| C_recv (null : bool) (buf_len : option nat)
| C_try_recv (null : bool) (buf_len : option nat)
| C_recv_timeout (null : bool) (timeout_ms : Z)
| C_close (null : bool)
| C_is_closed (null : bool)
| C_clone (null : bool)
| C_drop (null : bool).

(** The next action of a thread.  [timed] is [Some rest] when [kryos_chan_try_recv] was
    called by [kryos_chan_recv_timeout_i64], which has [rest] nanoseconds before its time
    is over. *)
Inductive Pc :=
| Idle (r : ret)
| Send_closed (data : message)
| Send_lock (data : message)
| Send_push (data : message)
| Send_unlock
| Send_notify
| Recv_lock (buf_len : nat)
| Recv_empty (buf_len : nat)
| Recv_closed (buf_len : nat)
| Recv_wait (buf_len : nat)
| Recv_asleep (buf_len : nat)
| Recv_woken (buf_len : nat)
| Recv_unlock (r : ret)
| Try_lock (timed : option Z) (buf_len : nat)
| Try_pop (timed : option Z) (buf_len : nat)
| Try_closed (timed : option Z)
| Try_unlock (timed : option Z) (r : ret)
| Timed_check (rest : Z)
| Timed_sleep (rest : Z)
| Close_store
| Close_notify
| Is_closed
| Clone_add
| Drop_sub
| Drop_free.

(** [ChannelInner]: the mutex is the thread that holds it; [freed] is the end of the box. *)
Record Chan := mkChan {
  elem_size : nat;
  queue : list message;
  closed : bool;
  ref_count : Z;
  freed : bool;
  lock : option nat;
  pcs : gmap nat Pc
}.

Definition with_pcs (f : gmap nat Pc -> gmap nat Pc) (c : Chan) : Chan :=
  mkChan (elem_size c) (queue c) (closed c) (ref_count c) (freed c) (lock c) (f (pcs c)).
Definition with_queue (q : list message) (c : Chan) : Chan :=
  mkChan (elem_size c) q (closed c) (ref_count c) (freed c) (lock c) (pcs c).
Definition with_lock (l : option nat) (c : Chan) : Chan :=
  mkChan (elem_size c) (queue c) (closed c) (ref_count c) (freed c) l (pcs c).
Definition set_closed (c : Chan) : Chan :=
  mkChan (elem_size c) (queue c) true (ref_count c) (freed c) (lock c) (pcs c).
Definition with_count (n : Z) (c : Chan) : Chan :=
  mkChan (elem_size c) (queue c) (closed c) n (freed c) (lock c) (pcs c).
Definition set_freed (c : Chan) : Chan :=
  mkChan (elem_size c) (queue c) (closed c) (ref_count c) true (lock c) (pcs c).

(** [kryos_chan_new], used by the threads [0 .. threads - 1]. *)
Definition kryos_chan_new (elem_size threads : nat) : Chan :=
  mkChan elem_size [] false 1 false None
    (list_to_map ((fun t => (t, Idle (mkRet 0 []))) <$> seq 0 threads)).

(* ------------------------------------------------------------------ *)
(** ** The programs                                                    *)
(* ------------------------------------------------------------------ *)

Definition returns (z : Z) : Pc := Idle (mkRet z []).

(** [Duration::from_millis], in nanoseconds. *)
Definition from_millis (ms : Z) : Z := ms * 1000000.

(** The checks of the arguments at the head of each function. *)
Definition start (c : call) : Pc :=
  match c with
  | C_send false (Some data) => Send_closed data
  | C_recv false (Some n) => Recv_lock n
  | C_try_recv false (Some n) => Try_lock None n
  | C_recv_timeout false ms => if ms <? 0 then returns (-1) else Try_lock (Some (from_millis ms)) 8
  | C_close false => Close_store
  | C_is_closed false => Is_closed
  | C_clone false => Clone_add
  | C_drop false => Drop_sub
  | C_close true | C_drop true | C_clone true => returns 0
  | _ => returns (-1)
  end.

(** [copy_len as i32], and the bytes that are copied. *)
Definition copied (data : message) (buf_len : nat) : ret :=
  let copy_len := Nat.min (length data) buf_len in
  mkRet ((Z.of_nat copy_len + 2 ^ 31) mod 2 ^ 32 - 2 ^ 31) (take copy_len data).

(** [i64::from_le_bytes] of a buffer of zeros with [bytes] written to it. *)
Definition from_le_bytes (bytes : list Z) : Z :=
  wrap64 (foldr (fun b v => b + 256 * v) 0 bytes).

(** After [kryos_chan_try_recv]. *)
Definition after_try (timed : option Z) (r : ret) : Pc :=
  match timed with
  | Some rest =>
      if 0 <? code r then returns (from_le_bytes (written r))
      else if code r <? 0 then returns (-1)
      else Timed_check rest
  | None => Idle r
  end.

Definition is_asleep (pc : Pc) : bool := match pc with Recv_asleep _ => true | _ => false end.
Definition wake (pc : Pc) : Pc := match pc with Recv_asleep n => Recv_woken n | _ => pc end.

(** One action of the thread [t] at [pc]; [w] is the sleeper that [notify_one] picks. *)
Definition run (t w : nat) (pc : Pc) (c : Chan) : option Chan :=
  let go pc' c := Some (with_pcs <[t := pc']> c) in
  let acquire pc' :=
    match lock c with None => go pc' (with_lock (Some t) c) | Some _ => None end in
  match pc with
  | Idle _ | Recv_asleep _ | Timed_check _ | Timed_sleep _ => None
  | Send_closed data =>
      if closed c then go (returns (-1)) c
      else if Nat.eqb (length data) (elem_size c) then go (Send_lock data) c
      else go (returns (-1)) c
  | Send_lock data => acquire (Send_push data)
  | Send_push data => go Send_unlock (with_queue (queue c ++ [data]) c)
  | Send_unlock => go Send_notify (with_lock None c)
  | Send_notify =>
      if Nat.eqb (pool_count is_asleep (pcs c)) 0 then go (returns 0) c
      else
        match pcs c !! w with
        | Some (Recv_asleep n) => go (returns 0) (with_pcs <[w := Recv_woken n]> c)
        | _ => None
        end
  | Recv_lock n | Recv_woken n => acquire (Recv_empty n)
  | Recv_empty n =>
      match queue c with
      | [] => go (Recv_closed n) c
      | data :: q => go (Recv_unlock (copied data n)) (with_queue q c)
      end
  | Recv_closed n =>
      if closed c then go (Recv_unlock (mkRet 0 [])) c else go (Recv_wait n) c
  | Recv_wait n => go (Recv_asleep n) (with_lock None c)
  | Recv_unlock r => go (Idle r) (with_lock None c)
  | Try_lock timed n => acquire (Try_pop timed n)
  | Try_pop timed n =>
      match queue c with
      | [] => go (Try_closed timed) c
      | data :: q => go (Try_unlock timed (copied data n)) (with_queue q c)
      end
  | Try_closed timed => go (Try_unlock timed (mkRet (if closed c then -1 else 0) [])) c
  | Try_unlock timed r => go (after_try timed r) (with_lock None c)
  | Close_store => go Close_notify (set_closed c)
  | Close_notify => go (returns 0) (with_pcs (fmap wake) c)
  | Is_closed => go (returns (if closed c then 1 else 0)) c
  | Clone_add => go (returns 1) (with_count ((ref_count c + 1) mod 2 ^ 64) c)
  | Drop_sub =>
      go (if ref_count c =? 1 then Drop_free else returns 0)
        (with_count ((ref_count c - 1) mod 2 ^ 64) c)
  | Drop_free => go (returns 0) (set_freed c)
  end.

(** What happens next: a thread calls, or runs an action; a sleeper wakes up for no
    reason; a timed receive reads its clock, or its pause is over, [spent] nanoseconds
    after the last time. *)
Inductive event :=
| Call (t : nat) (c : call)
| Run (t w : nat)
| Spurious (t : nat)
| Clock (t : nat) (spent : Z).

(** [start.elapsed() >= timeout]; the clock does not run backwards. *)
Definition check_time (rest spent : Z) : Pc :=
  if rest - spent <=? 0 then returns (-1) else Timed_sleep (rest - spent).

Definition next (e : event) (c : Chan) : option Chan :=
  match e with
  | Call t k =>
      match pcs c !! t with
      | Some (Idle _) => Some (with_pcs <[t := start k]> c)
      | _ => None
      end
  | Run t w => pc ← pcs c !! t; if freed c then None else run t w pc c
  | Spurious t =>
      match pcs c !! t with
      | Some (Recv_asleep n) => Some (with_pcs <[t := Recv_woken n]> c)
      | _ => None
      end
  | Clock t spent =>
      match pcs c !! t with
      | Some (Timed_check rest) =>
          if 0 <=? spent then Some (with_pcs <[t := check_time rest spent]> c) else None
      | Some (Timed_sleep rest) =>
          (* [sleep] takes at least the time it is asked for *)
          if from_millis 1 <=? spent
          then Some (with_pcs <[t := Try_lock (Some (rest - spent)) 8]> c) else None
      | _ => None
      end
  end.

(** The events that go on by themselves: actions of threads, and the passing of time. *)
Definition is_run (e : event) : bool :=
  match e with Run _ _ | Clock _ _ => true | Call _ _ | Spurious _ => false end.

(** A thread outside of a call, one that is about to give up its handle, and one that is
    about to make a new handle. *)
Definition is_idle (pc : Pc) : bool := match pc with Idle _ => true | _ => false end.
Definition is_dropping (pc : Pc) : bool := match pc with Drop_sub => true | _ => false end.
Definition is_cloning (pc : Pc) : bool := match pc with Clone_add => true | _ => false end.
Definition is_freeing (pc : Pc) : bool := match pc with Drop_free => true | _ => false end.
(** A thread in a call that needs its handle to the end. *)
Definition is_using (pc : Pc) : bool :=
  negb (is_idle pc) && negb (is_dropping pc) && negb (is_freeing pc).

(** The handles that are not being given up. *)
Definition handles (c : Chan) : Z := ref_count c - Z.of_nat (pool_count is_dropping (pcs c)).

Definition null_handle (k : call) : bool :=
  match k with
  | C_send null _ | C_recv null _ | C_try_recv null _ | C_recv_timeout null _ | C_close null
  | C_is_closed null | C_clone null | C_drop null => null
  end.

(** A call is made on a handle, fewer than 2^64 handles are made, and the last handle is
    not given up while another call uses it. *)
Definition legal (e : event) (c : Chan) : bool :=
  match e with
  | Call _ k =>
      null_handle k
      || (1 <=? handles c)
         && match k with
            | C_clone _ => ref_count c + Z.of_nat (pool_count is_cloning (pcs c)) + 1 <? 2 ^ 64
            | C_drop _ => (2 <=? handles c) || Nat.eqb (pool_count is_using (pcs c)) 0
            | _ => true
            end
  | _ => true
  end.
Definition legal_next (e : event) (c : Chan) : option Chan :=
  if legal e c then next e c else None.

(* ------------------------------------------------------------------ *)
(** ** The invariant                                                   *)
(* ------------------------------------------------------------------ *)

(** The actions between the acquisition of the mutex and its release. *)
Definition holds (pc : Pc) : bool :=
  match pc with
  | Send_push _ | Send_unlock | Recv_empty _ | Recv_closed _ | Recv_wait _ | Recv_unlock _
  | Try_pop _ _ | Try_closed _ | Try_unlock _ _ => true
  | _ => false
  end.
(** The receiver has seen an empty queue, and still holds the mutex. *)
Definition saw_empty (pc : Pc) : bool :=
  match pc with Recv_closed _ | Recv_wait _ => true | _ => false end.
(** A message may have been pushed for which this thread will wake a sleeper, or is the
    sleeper that was woken. *)
Definition pending (pc : Pc) : bool :=
  match pc with Send_unlock | Send_notify | Recv_woken _ | Recv_empty _ => true | _ => false end.

Implicit Types (m : gmap nat Pc) (l : option nat) (q : list message).

Definition lock_ok l m : Prop := forall t pc, m !! t = Some pc -> holds pc = true <-> l = Some t.
Definition empty_ok q m : Prop := forall t pc, m !! t = Some pc -> saw_empty pc = true -> q = [].
Definition wakeups_ok q m : Prop :=
  pool_count is_asleep m = 0%nat \/ (length q <= pool_count pending m)%nat.

Record inv (c : Chan) : Prop := {
  inv_lock : lock_ok (lock c) (pcs c);
  inv_holder : forall t, lock c = Some t -> is_Some (pcs c !! t);
  inv_empty : empty_ok (queue c) (pcs c);
  inv_wakeups : wakeups_ok (queue c) (pcs c)
}.

Lemma lock_ok_go l m t pc pc' :
  lock_ok l m -> m !! t = Some pc -> holds pc' = holds pc -> lock_ok l (<[t:=pc']> m).
Proof.
  intros Hl Ht Hh t' pc''. destruct (decide (t = t')) as [<-|]; [|rewrite lookup_insert_ne by done; auto].
  rewrite lookup_insert_eq. intros [= <-]. rewrite Hh. by apply Hl.
Qed.
Lemma lock_ok_acquire m t pc' :
  lock_ok None m -> holds pc' = true -> lock_ok (Some t) (<[t:=pc']> m).
Proof.
  intros Hl Hh t' pc''. destruct (decide (t = t')) as [<-|]; [rewrite lookup_insert_eq; intros [= <-]; by split|].
  rewrite lookup_insert_ne by done. intros Ht'. pose proof (proj1 (Hl t' _ Ht')). split; [intros H1; by apply H in H1|congruence].
Qed.
Lemma lock_ok_release l m t pc pc' :
  lock_ok l m -> m !! t = Some pc -> holds pc = true -> holds pc' = false -> lock_ok None (<[t:=pc']> m).
Proof.
  intros Hl Ht Hp Hh t' pc''. assert (l = Some t) as -> by (by apply (Hl t pc)).
  destruct (decide (t = t')) as [<-|]; [rewrite lookup_insert_eq; intros [= <-]; rewrite Hh; by split|].
  rewrite lookup_insert_ne by done. intros Ht'. split; [|done]. intros H1. apply (Hl t' _ Ht') in H1. congruence.
Qed.
Lemma lock_ok_wake l m : lock_ok l m -> lock_ok l (wake <$> m).
Proof.
  intros Hl t pc. rewrite lookup_fmap. destruct (m !! t) as [pc0|] eqn:Ht; [|done]. intros [= <-].
  rewrite <-(Hl t pc0 Ht). by destruct pc0.
Qed.

Lemma empty_ok_go q m t pc' : empty_ok q m -> (saw_empty pc' = true -> q = []) -> empty_ok q (<[t:=pc']> m).
Proof.
  intros He Hq t' pc''. destruct (decide (t = t')) as [<-|]; [|rewrite lookup_insert_ne by done; by apply He].
  rewrite lookup_insert_eq. intros [= <-]. auto.
Qed.
(** The holder of the mutex changes the queue. *)
Lemma empty_ok_holder l q m t pc pc' :
  lock_ok l m -> m !! t = Some pc -> holds pc = true -> saw_empty pc' = false -> empty_ok q (<[t:=pc']> m).
Proof.
  intros Hl Ht Hp Hs t' pc''. destruct (decide (t = t')) as [<-|]; [rewrite lookup_insert_eq; intros [= <-]; by rewrite Hs|].
  rewrite lookup_insert_ne by done. intros Ht' Hs'.
  assert (Hh : holds pc'' = true) by (by destruct pc''). apply (Hl t' _ Ht') in Hh.
  apply (Hl t _ Ht) in Hp. congruence.
Qed.
Lemma empty_ok_wake q m : empty_ok q m -> empty_ok q (wake <$> m).
Proof.
  intros He t pc. rewrite lookup_fmap. destruct (m !! t) as [pc0|] eqn:Ht; [|done]. intros [= <-].
  intros Hs. apply (He t pc0 Ht). by destruct pc0.
Qed.

(** The counts, when a thread moves from [pc] to [pc']. *)
Lemma wakeups_ok_go q q' m t pc pc' :
  wakeups_ok q m -> m !! t = Some pc -> is_asleep pc = false -> is_asleep pc' = false ->
  (length q' + (if pending pc then 1 else 0) <= length q + (if pending pc' then 1 else 0))%nat ->
  wakeups_ok q' (<[t:=pc']> m).
Proof.
  intros Hw Ht Ha Ha' Hq. pose proof (pool_count_insert is_asleep m t pc pc' Ht) as H1.
  pose proof (pool_count_insert pending m t pc pc' Ht) as H2.
  rewrite Ha, Ha' in H1. destruct Hw as [Hw|Hw]; [left|right]; lia.
Qed.
Lemma wakeups_ok_empty m : wakeups_ok [] m.
Proof. right. cbn. lia. Qed.
(** A sleeper is woken. *)
Lemma wakeups_ok_wake q m w n :
  wakeups_ok q m -> m !! w = Some (Recv_asleep n) ->
  wakeups_ok q (<[w:=Recv_woken n]> m)
  /\ (S (pool_count pending m) = pool_count pending (<[w:=Recv_woken n]> m)).
Proof.
  intros Hw Ht. pose proof (pool_count_pos is_asleep m w _ Ht eq_refl) as H0.
  pose proof (pool_count_insert pending m w _ (Recv_woken n) Ht) as H2. cbn in H2.
  split; [right; destruct Hw|]; lia.
Qed.
Lemma no_sleeper m : pool_count is_asleep (wake <$> m) = 0%nat.
Proof. apply pool_sum_fmap_0. by intros []. Qed.

(** A thread moves: it keeps, acquires or releases the mutex. *)
Definition lock_move (t : nat) (pc pc' : Pc) (l l' : option nat) : Prop :=
  holds pc' = holds pc /\ l' = l
  \/ l = None /\ l' = Some t /\ holds pc' = true
  \/ holds pc = true /\ l' = None /\ holds pc' = false.

Lemma inv_move t pc pc' c c' :
  inv c -> pcs c !! t = Some pc -> pcs c' = <[t:=pc']> (pcs c) ->
  lock_move t pc pc' (lock c) (lock c') ->
  queue c' = queue c /\ (saw_empty pc' = true -> queue c = []) \/ holds pc = true /\ saw_empty pc' = false ->
  wakeups_ok (queue c') (pcs c') -> inv c'.
Proof.
  intros [Hl Hh He _] Ht Hm Hlock Hq Hw.
  assert (Hl' : lock_ok (lock c') (pcs c')).
  { rewrite Hm. destruct Hlock as [[Hp ->]|[(Hn & -> & Hp)|(Hp & -> & Hp')]].
    - by eapply lock_ok_go.
    - rewrite Hn in Hl. by apply lock_ok_acquire.
    - by eapply lock_ok_release. }
  split; [done| | |done].
  - intros t' Ht'. rewrite Hm, lookup_insert_is_Some.
    destruct (decide (t = t')); [by left|right; split; [done|]]. apply Hh.
    destruct Hlock as [[_ <-]|[(_ & Hs & _)|(_ & Hn & _)]]; [done|congruence|congruence].
  - rewrite Hm. destruct Hq as [[-> Hs]|[Hp Hs]]; [by apply empty_ok_go|by eapply empty_ok_holder].
Qed.

(** The common case: the queue stays. *)
Lemma inv_step t pc pc' c c' :
  inv c -> pcs c !! t = Some pc -> pcs c' = <[t:=pc']> (pcs c) -> queue c' = queue c ->
  lock_move t pc pc' (lock c) (lock c') -> (saw_empty pc' = true -> queue c = []) ->
  is_asleep pc = false -> is_asleep pc' = false ->
  ((if pending pc then 1 else 0) <= (if pending pc' then 1 else 0))%nat -> inv c'.
Proof.
  intros Hc Ht Hm Hq Hlock Hs Ha Ha' Hp. eapply inv_move; try done; [by left|].
  rewrite Hm, Hq. eapply wakeups_ok_go; [apply Hc|done..|lia].
Qed.

Ltac lock_moves :=
  unfold lock_move; cbn; first [left; done|right; left; done|right; right; done].
Ltac step_of c t Ht :=
  eapply (inv_step t _ _ c); [done|exact Ht|reflexivity|reflexivity|lock_moves|cbn; done
    |reflexivity|reflexivity|cbn; lia].

(** A sleeper wakes up, told or not. *)
Lemma inv_woken w n c : inv c -> pcs c !! w = Some (Recv_asleep n) ->
  inv (with_pcs <[w:=Recv_woken n]> c).
Proof.
  intros Hc Hw. eapply (inv_move w _ _ c); [done|exact Hw|reflexivity|lock_moves|by left|].
  by apply wakeups_ok_wake, Hw; apply Hc.
Qed.

Lemma run_inv t w pc c c' :
  inv c -> pcs c !! t = Some pc -> run t w pc c = Some c' -> inv c'.
Proof.
  intros Hc Ht Hrun. pose proof (inv_wakeups c Hc) as Hw.
  destruct pc; cbn [run] in Hrun; repeat case_match; simplify_eq; try (step_of c t Ht);
    try (eapply (inv_move t _ _ c); [done|exact Ht|reflexivity|lock_moves|cbn; first [left; done|right; done]|]; cbn [queue with_queue with_pcs pcs with_lock]).
  - eapply wakeups_ok_go; [exact Hw|exact Ht|done|done|]. rewrite length_app. cbn. lia.
  - left. pose proof (pool_count_insert is_asleep _ t _ (returns 0) Ht) as H1.
    cbn in H1. apply Nat.eqb_eq in H. lia.
  - assert (Hne : w <> t) by congruence. set (c1 := with_pcs <[w:=Recv_woken buf_len]> c).
    assert (Ht1 : pcs c1 !! t = Some Send_notify) by (cbn; by rewrite lookup_insert_ne).
    eapply (inv_move t _ _ c1); [by apply inv_woken|exact Ht1|reflexivity|lock_moves|by left|].
    pose proof (pool_count_pos is_asleep _ w _ H0 eq_refl) as Ha.
    destruct (wakeups_ok_wake _ _ w buf_len Hw H0) as [_ Hp].
    pose proof (pool_count_insert pending _ t _ (returns 0) Ht1) as H1. cbn in H1.
    right. cbn. destruct Hw; lia.
  - rewrite H. apply wakeups_ok_empty.
  - eapply wakeups_ok_go; [exact Hw|exact Ht|done|done|]. cbn. lia.
  - eapply (inv_step t _ _ c); [done|exact Ht|reflexivity|reflexivity|lock_moves| |reflexivity|reflexivity|cbn; lia].
    intros _. by apply (inv_empty c Hc t _ Ht).
  - rewrite (inv_empty c Hc t _ Ht eq_refl). apply wakeups_ok_empty.
  - eapply wakeups_ok_go; [exact Hw|exact Ht|done|done|]. cbn. lia.
  - assert (Ha : holds (after_try timed r) = false /\ saw_empty (after_try timed r) = false
      /\ is_asleep (after_try timed r) = false).
    { unfold after_try. destruct timed; [|done]. repeat case_match; done. }
    destruct Ha as (Hh & Hs & Ha).
    eapply (inv_step t _ _ c); [done|exact Ht|reflexivity|reflexivity| |cbn; congruence|done|done|cbn; lia].
    right. right. done.
  - assert (Hc1 : inv (with_pcs (fmap wake) c)).
    { split; cbn; [apply lock_ok_wake, Hc| |apply empty_ok_wake, Hc|left; apply no_sleeper].
      intros t' Ht'. rewrite lookup_fmap, fmap_is_Some. by apply (inv_holder c Hc). }
    eapply (inv_step t _ _ (with_pcs (fmap wake) c)); [done|by cbn; rewrite lookup_fmap, Ht|reflexivity
      |reflexivity|lock_moves|cbn; done|reflexivity|reflexivity|cbn; lia].
Qed.

Lemma start_inv t k c r : inv c -> pcs c !! t = Some (Idle r) -> inv (with_pcs <[t := start k]> c).
Proof.
  intros Hc Ht.
  assert (Hs : holds (start k) = false /\ saw_empty (start k) = false /\ is_asleep (start k) = false).
  { destruct k as [[] []|[] []|[] []|[] ms|[]|[]|[]|[]]; try done. cbn. by destruct (ms <? 0). }
  destruct Hs as (Hh & Hs & Ha).
  eapply (inv_step t _ _ c); [done|exact Ht|reflexivity|reflexivity| |cbn; congruence|done|done|cbn; lia].
  by left.
Qed.

Lemma next_inv e c c' : inv c -> next e c = Some c' -> inv c'.
Proof.
  intros Hc. destruct e as [t k|t w|t|t spent]; cbn [next].
  - destruct (pcs c !! t) as [[]|] eqn:Ht; try done. intros [= <-]. by eapply start_inv.
  - destruct (pcs c !! t) as [pc|] eqn:Ht; [|done]. cbn. destruct (freed c); [done|]. by apply run_inv.
  - destruct (pcs c !! t) as [[]|] eqn:Ht; try done. intros [= <-]. by apply inv_woken.
  - destruct (pcs c !! t) as [[]|] eqn:Ht; try done; case_match; try done; intros [= <-]; [|step_of c t Ht].
    unfold check_time. case_match; step_of c t Ht.
Qed.

Lemma new_idle n threads t pc : pcs (kryos_chan_new n threads) !! t = Some pc -> pc = Idle (mkRet 0 []).
Proof.
  intros Ht. cbn in Ht. apply elem_of_list_to_map_2 in Ht.
  by apply list_elem_of_fmap in Ht as (t' & [= -> ->] & _).
Qed.
Lemma new_inv n threads : inv (kryos_chan_new n threads).
Proof.
  split.
  - intros t pc Ht. by rewrite (new_idle n threads t pc Ht).
  - done.
  - intros t pc Ht. by rewrite (new_idle n threads t pc Ht).
  - apply wakeups_ok_empty.
Qed.

Lemma legal_next_next e c c' : legal_next e c = Some c' -> legal e c = true /\ next e c = Some c'.
Proof. unfold legal_next. by destruct (legal e c). Qed.
(* ------------------------------------------------------------------ *)
(** ** Handles                                                         *)
(* ------------------------------------------------------------------ *)

(** How often the box was freed, or is about to be. *)
Definition frees (c : Chan) : nat :=
  (pool_count is_freeing (pcs c) + if freed c then 1 else 0)%nat.

(** The count is the number of handles, those that are being given up included; without
    a handle nobody uses the channel, and the box is given back once. *)
Record owned (c : Chan) : Prop := {
  own_count : 0 <= ref_count c;
  own_bound : ref_count c + Z.of_nat (pool_count is_cloning (pcs c)) < 2 ^ 64;
  own_handles : 0 <= handles c;
  own_users : handles c = 0 -> pool_count is_using (pcs c) = 0%nat;
  own_frees : frees c = if ref_count c =? 0 then 1%nat else 0%nat
}.

Definition one (b : bool) : nat := if b then 1 else 0.
Lemma counts_move t pc pc' c c' :
  pcs c !! t = Some pc -> pcs c' = <[t:=pc']> (pcs c) ->
  (pool_count is_dropping (pcs c') + one (is_dropping pc) = pool_count is_dropping (pcs c) + one (is_dropping pc')
   /\ pool_count is_freeing (pcs c') + one (is_freeing pc) = pool_count is_freeing (pcs c) + one (is_freeing pc')
   /\ pool_count is_cloning (pcs c') + one (is_cloning pc) = pool_count is_cloning (pcs c) + one (is_cloning pc')
   /\ pool_count is_using (pcs c') + one (is_using pc) = pool_count is_using (pcs c) + one (is_using pc'))%nat.
Proof. intros Ht ->. split_and!; by apply pool_count_insert. Qed.

Lemma owned_go t pc pc' c c' :
  owned c -> pcs c !! t = Some pc -> pcs c' = <[t:=pc']> (pcs c) ->
  ref_count c' = ref_count c -> freed c' = freed c ->
  is_dropping pc' = is_dropping pc -> is_freeing pc' = is_freeing pc ->
  is_cloning pc' = is_cloning pc -> (is_using pc' = true -> is_using pc = true) -> owned c'.
Proof.
  intros [H1 H2 H3 H4 H5] Ht Hm Hr Hf Hd Hfr Hc Hu.
  destruct (counts_move t pc pc' c c' Ht Hm) as (Kd & Kf & Kc & Ku). rewrite Hd in Kd. rewrite Hfr in Kf. rewrite Hc in Kc.
  unfold handles, frees in *. split; unfold handles, frees; rewrite ?Hr, ?Hf; try lia.
  intros Hz. specialize (H4 ltac:(lia)). destruct (is_using pc'), (is_using pc); cbn in Ku; lia.
Qed.

Lemma wake_one_count p m : (forall pc, p (wake pc) = p pc) -> pool_count p (wake <$> m) = pool_count p m.
Proof.
  intros Hp. unfold pool_count. induction m as [|t pc m Ht IH] using map_ind; [by rewrite fmap_empty|].
  rewrite fmap_insert, (pool_sum_delete _ (<[t:=wake pc]> _) t (wake pc)) by apply lookup_insert_eq.
  rewrite (pool_sum_delete _ (<[t:=pc]> m) t pc) by apply lookup_insert_eq.
  rewrite !delete_insert_id by (by rewrite ?lookup_fmap, Ht). by rewrite IH, Hp.
Qed.
Lemma owned_wake c : owned c -> owned (with_pcs (fmap wake) c).
Proof.
  intros [H1 H2 H3 H4 H5]. unfold handles, frees in *.
  split; unfold handles, frees; cbn; rewrite ?wake_one_count by (by intros []); done.
Qed.

Lemma owned_clone t c : owned c -> pcs c !! t = Some Clone_add ->
  owned (with_pcs <[t:=returns 1]> (with_count ((ref_count c + 1) mod 2 ^ 64) c)).
Proof.
  intros [H1 H2 H3 H4 H5] Ht. set (c' := with_pcs _ _).
  destruct (counts_move t _ (returns 1) c c' Ht eq_refl) as (Kd & Kf & Kc & Ku).
  cbn [one returns is_dropping is_cloning is_freeing is_using is_idle negb andb] in *.
  assert (Hf : freed c' = freed c) by done.
  assert (Hr : ref_count c' = ref_count c + 1) by (unfold c'; cbn [ref_count with_pcs with_count]; rewrite Z.mod_small; lia).
  clearbody c'. unfold handles, frees in *.
  assert (Hz : ref_count c - Z.of_nat (pool_count is_dropping (pcs c)) <> 0) by (intros Hz; specialize (H4 Hz); lia).
  split; unfold handles, frees; rewrite ?Hr, ?Hf; try lia.
  rewrite (proj2 (Z.eqb_neq (ref_count c) 0)) in H5 by lia.
  rewrite (proj2 (Z.eqb_neq (ref_count c + 1) 0)) by lia. lia.
Qed.

Lemma owned_drop_sub t c : owned c -> pcs c !! t = Some Drop_sub ->
  owned (with_pcs <[t:=if ref_count c =? 1 then Drop_free else returns 0]>
    (with_count ((ref_count c - 1) mod 2 ^ 64) c)).
Proof.
  intros [H1 H2 H3 H4 H5] Ht. set (pc' := if _ =? 1 then _ else _). set (c' := with_pcs _ _).
  destruct (counts_move t _ pc' c c' Ht eq_refl) as (Kd & Kf & Kc & Ku).
  unfold handles, frees in *.
  pose proof (pool_count_pos is_dropping _ t _ Ht eq_refl) as Hd.
  assert (Hf : freed c' = freed c) by done.
  assert (Hr : ref_count c' = ref_count c - 1) by (unfold c'; cbn [ref_count with_pcs with_count]; rewrite Z.mod_small; lia).
  clearbody c'. subst pc'. rewrite (proj2 (Z.eqb_neq _ 0)) in H5 by lia.
  split; unfold handles, frees; rewrite ?Hr, ?Hf; destruct (Z.eqb_spec (ref_count c) 1);
    cbn [one returns is_dropping is_cloning is_freeing is_using is_idle negb andb] in *; try lia.
  - rewrite (proj2 (Z.eqb_eq _ 0)) by lia. lia.
  - rewrite (proj2 (Z.eqb_neq _ 0)) by lia. lia.
Qed.

Lemma owned_drop_free t c : owned c -> pcs c !! t = Some Drop_free -> freed c = false ->
  owned (with_pcs <[t:=returns 0]> (set_freed c)).
Proof.
  intros [H1 H2 H3 H4 H5] Ht Hfree. set (c' := with_pcs _ _).
  destruct (counts_move t _ (returns 0) c c' Ht eq_refl) as (Kd & Kf & Kc & Ku).
  cbn [one returns is_dropping is_cloning is_freeing is_using is_idle negb andb] in *.
  assert (Hf : freed c' = true) by done. assert (Hr : ref_count c' = ref_count c) by done. clearbody c'.
  unfold handles, frees in *. rewrite Hfree in H5.
  split; unfold handles, frees; rewrite ?Hr, ?Hf; try lia.
Qed.

(** An action of a thread at [pc], on a channel that is not freed. *)
Lemma run_owned t w pc c c' :
  owned c -> pcs c !! t = Some pc -> freed c = false -> run t w pc c = Some c' -> owned c'.
Proof.
  intros Hc Ht Hfree Hrun. destruct pc; cbn [run] in Hrun; try done; repeat case_match; simplify_eq;
    try (by eapply (owned_go t _ _ c); [done|exact Ht|reflexivity..|done]).
  - assert (Hne : w <> t) by congruence. set (c1 := with_pcs <[w:=Recv_woken buf_len]> c).
    assert (Ht1 : pcs c1 !! t = Some Send_notify) by (cbn; by rewrite lookup_insert_ne).
    eapply (owned_go t _ (returns 0) c1); [|exact Ht1|reflexivity..|done].
    by eapply (owned_go w _ _ c).
  - eapply (owned_go t _ _ c); [done|exact Ht|reflexivity|reflexivity|done|..];
      unfold after_try; repeat case_match; done.
  - eapply (owned_go t _ (returns 0) (with_pcs (fmap wake) c)); [by apply owned_wake|by cbn; rewrite lookup_fmap, Ht|reflexivity..|done].
  - by eapply owned_clone.
  - pose proof (owned_drop_sub t c Hc Ht) as Ho. by rewrite H in Ho.
  - pose proof (owned_drop_sub t c Hc Ht) as Ho. by rewrite H in Ho.
  - by eapply owned_drop_free.
Qed.

(** A call, and the events that are no actions. *)
Lemma start_classes k :
  is_dropping (start k) = negb (null_handle k) && match k with C_drop _ => true | _ => false end
  /\ is_cloning (start k) = negb (null_handle k) && match k with C_clone _ => true | _ => false end
  /\ is_freeing (start k) = false
  /\ (null_handle k = true \/ is_dropping (start k) = true -> is_using (start k) = false).
Proof.
  destruct k as [[] []|[] []|[] []|[] ms|[]|[]|[]|[]]; cbn; try (split_and!; try done; by intros [H|H]).
  split_and!; try done; destruct (ms <? 0); try done. by intros [H|H].
Qed.

Lemma owned_call t k r c :
  owned c -> legal (Call t k) c = true -> pcs c !! t = Some (Idle r) -> owned (with_pcs <[t := start k]> c).
Proof.
  intros [H1 H2 H3 H4 H5] Hl Ht. destruct (start_classes k) as (Sd & Sc & Sf & Su).
  set (c' := with_pcs _ c). destruct (counts_move t _ (start k) c c' Ht eq_refl) as (Kd & Kf & Kc & Ku).
  assert (Hr : ref_count c' = ref_count c) by done. assert (Hf : freed c' = freed c) by done. clearbody c'.
  rewrite Sd in Kd. rewrite Sc in Kc. rewrite Sf in Kf. cbn [one is_dropping is_cloning is_freeing is_using is_idle negb andb] in *.
  unfold legal in Hl. destruct (null_handle k); cbn [orb negb andb one] in *.
  - rewrite Su in Ku by auto. cbn in Ku. split; unfold handles, frees in *; rewrite ?Hr, ?Hf; try lia.
  - apply andb_true_iff in Hl as [Hh Hk]. split; unfold handles, frees in *; rewrite ?Hr, ?Hf; try lia;
      destruct k; cbn [one] in *; try lia.
    rewrite Sd in Su. rewrite Su in Ku by auto. cbn in Ku. apply orb_true_iff in Hk as [Hk|Hk%Nat.eqb_eq]; lia.
Qed.

Lemma legal_next_owned e c c' : owned c -> legal_next e c = Some c' -> owned c'.
Proof.
  intros Hc [Hl He]%legal_next_next. destruct e as [t k|t w|t|t spent]; cbn [next] in He.
  - destruct (pcs c !! t) as [[]|] eqn:Ht; try done. injection He as <-. by eapply owned_call.
  - destruct (pcs c !! t) as [pc|] eqn:Ht; [|done]. cbn in He. destruct (freed c) eqn:Hf; [done|]. by eapply run_owned.
  - destruct (pcs c !! t) as [[]|] eqn:Ht; try done. injection He as <-.
    by eapply (owned_go t _ _ c); [done|exact Ht|reflexivity..|done].
  - destruct (pcs c !! t) as [[]|] eqn:Ht; try done; case_match; try done; injection He as <-;
      [eapply (owned_go t _ (check_time _ _) c)|eapply (owned_go t _ _ c)]; try done; try exact Ht;
      try reflexivity; unfold check_time; by case_match.
Qed.

Lemma new_owned n threads : owned (kryos_chan_new n threads).
Proof.
  assert (H0 : forall p, p (Idle (mkRet 0 [])) = false -> pool_count p (pcs (kryos_chan_new n threads)) = 0%nat).
  { intros p Hp. destruct (pool_count p _) as [|k] eqn:Hk; [done|].
    destruct (pool_sum_pos (fun pc => if p pc then 1 else 0)%nat (pcs (kryos_chan_new n threads)))
      as (t & pc & Ht & Hpc); [unfold pool_count in Hk; lia|].
    rewrite (new_idle n threads t pc Ht), Hp in Hpc. lia. }
  split; unfold handles, frees; rewrite ?H0 by done; cbn; lia.
Qed.

(** The states that a channel can be in. *)
Definition reachable (c : Chan) : Prop :=
  exists n threads es, exec legal_next es (kryos_chan_new n threads) = Some c.

Lemma reachable_inv c : reachable c -> inv c /\ owned c.
Proof.
  intros (n & threads & es & He).
  apply (exec_invariant legal_next (fun c => inv c /\ owned c)) in He; [done| |by split; [apply new_inv|apply new_owned]].
  intros e c1 c2 [H1 H2] H3. split; [|by eapply legal_next_owned].
  apply legal_next_next in H3 as [_ H3]. by eapply next_inv.
Qed.

Lemma owned_freed_idle c t pc : owned c -> freed c = true -> pcs c !! t = Some pc -> is_idle pc = true.
Proof.
  intros [H1 H2 H3 H4 H5] Hf Ht. unfold frees in H5. rewrite Hf in H5.
  destruct (Z.eqb_spec (ref_count c) 0) as [Hz|]; [|lia]. unfold handles in *.
  pose proof (pool_count_0 is_dropping (pcs c) t pc ltac:(lia) Ht) as Hd.
  pose proof (pool_count_0 is_freeing (pcs c) t pc ltac:(lia) Ht) as Hfr.
  pose proof (pool_count_0 is_using (pcs c) t pc (H4 ltac:(lia)) Ht) as Hu.
  unfold is_using in Hu. rewrite Hd, Hfr in Hu. by destruct (is_idle pc).
Qed.

(** The reference count is the number of handles, those being given up included, and the
    box of a channel is given back exactly once, by the thread that gives up the last
    handle: never while a handle is left or a call is in progress, and never a second
    time. *)
Lemma last_drop_frees c : reachable c ->
  frees c = (if ref_count c =? 0 then 1%nat else 0%nat)
  /\ (0 <= handles c <= ref_count c)
  /\ (freed c = true -> forall t pc, pcs c !! t = Some pc -> is_idle pc = true).
Proof.
  intros [_ Hc]%reachable_inv. split; [apply Hc|]. pose proof (own_handles c Hc) as Hh. split; [unfold handles in *; lia|].
  intros Hf t pc Ht. by eapply owned_freed_idle.
Qed.

(* ------------------------------------------------------------------ *)
(** ** Liveness                                                        *)
(* ------------------------------------------------------------------ *)

(** A thread that does nothing of its own: outside of a call, or asleep. *)
Definition resting (pc : Pc) : bool :=
  match pc with Idle _ | Recv_asleep _ => true | _ => false end.
Definition settled (c : Chan) : Prop :=
  forall t pc, pcs c !! t = Some pc -> resting pc = true /\ (is_asleep pc = true -> queue c = []).

(** The pauses that a timed receive can make in the time it has left. *)
Definition pauses (rest : Z) : nat := Z.to_nat ((rest + (from_millis 1 - 1)) / from_millis 1).
Definition timed_pauses (timed : option Z) : nat := from_option pauses 0%nat timed.

(** The actions that a thread can still run, one woken receiver in [n] threads included. *)
Definition weight (n : nat) (pc : Pc) : nat :=
  match pc with
  | Idle _ | Recv_asleep _ => 0
  | Recv_unlock _ | Recv_wait _ | Is_closed | Clone_add | Drop_free => 1
  | Recv_closed _ | Drop_sub => 2
  | Recv_empty _ => 3
  | Recv_lock _ | Recv_woken _ => 4
  | Timed_check rest => 2 + 7 * pauses rest
  | Try_unlock timed _ => 3 + 7 * timed_pauses timed
  | Try_closed timed => 4 + 7 * timed_pauses timed
  | Try_pop timed _ => 5 + 7 * timed_pauses timed
  | Try_lock timed _ => 6 + 7 * timed_pauses timed
  | Timed_sleep rest => 7 + 7 * pauses (rest - from_millis 1)
  | Send_notify => 5
  | Send_unlock => 6
  | Send_push _ => 7
  | Send_lock _ => 8
  | Send_closed _ => 9
  | Close_notify => 1 + 4 * n
  | Close_store => 2 + 4 * n
  end.
Definition work (c : Chan) : nat := pool_sum (weight (size (pcs c))) (pcs c).

Lemma work_move t pc pc' c c' :
  pcs c !! t = Some pc -> pcs c' = <[t:=pc']> (pcs c) ->
  (work c' + weight (size (pcs c)) pc = work c + weight (size (pcs c)) pc')%nat.
Proof.
  intros Ht Hm. unfold work. rewrite Hm, map_size_insert_Some by done. by apply pool_sum_insert.
Qed.

Lemma run_work t w pc c c' :
  pcs c !! t = Some pc -> run t w pc c = Some c' -> (work c' < work c)%nat.
Proof.
  intros Ht Hrun.
  assert (Hmove : forall c1 pc', pcs c' = <[t:=pc']> (pcs c1) -> pcs c1 !! t = Some pc ->
    (work c1 + weight (size (pcs c1)) pc' < work c + weight (size (pcs c1)) pc)%nat -> (work c' < work c)%nat).
  { intros c1 pc' Hm Ht1 Hlt. pose proof (work_move t pc pc' c1 c' Ht1 Hm). lia. }
  destruct pc; cbn [run] in Hrun; repeat case_match; simplify_eq;
    try (apply (Hmove c _ eq_refl Ht); cbn; lia).
  - assert (Hne : w <> t) by congruence.
    apply (Hmove (with_pcs <[w:=Recv_woken buf_len]> c) (returns 0) eq_refl); [by cbn; rewrite lookup_insert_ne|].
    pose proof (work_move w _ (Recv_woken buf_len) c (with_pcs <[w:=Recv_woken buf_len]> c) H0 eq_refl) as Hw.
    cbn in Hw |- *. lia.
  - apply (Hmove c _ eq_refl Ht). unfold after_try. destruct timed; [|cbn; lia].
    repeat case_match; cbn; lia.
  - apply (Hmove (with_pcs (fmap wake) c) (returns 0) eq_refl); [by cbn; rewrite lookup_fmap, Ht|].
    unfold work. cbn [pcs with_pcs weight]. rewrite map_size_fmap.
    pose proof (pool_sum_fmap (weight (size (pcs c))) wake 4 (pcs c)) as Hs. cbn.
    assert (Hw : forall pc, (weight (size (pcs c)) (wake pc) <= weight (size (pcs c)) pc + 4)%nat) by (intros []; cbn; lia).
    specialize (Hs Hw). lia.
Qed.

(** A pause takes a millisecond of the time left, and is made only when some is left. *)
Lemma pauses_mono r1 r2 : r1 <= r2 -> (pauses r1 <= pauses r2)%nat.
Proof. intros Hr. unfold pauses.
  pose proof (Z.div_le_mono (r1 + (from_millis 1 - 1)) (r2 + (from_millis 1 - 1)) (from_millis 1) eq_refl ltac:(lia)). lia.
Qed.
Lemma pauses_sleep rest : 0 < rest -> pauses rest = S (pauses (rest - from_millis 1)).
Proof.
  intros Hl. unfold pauses, from_millis.
  replace (rest + (1 * 1000000 - 1)) with (rest - 1 * 1000000 + (1 * 1000000 - 1) + 1 * (1 * 1000000)) by lia.
  rewrite Z.div_add by done. rewrite Z2Nat.inj_add, Nat.add_1_r; [done| |done]. apply Z.div_pos; lia.
Qed.

Lemma next_work e c c' : is_run e = true -> next e c = Some c' -> (work c' < work c)%nat.
Proof.
  intros Hi. destruct e as [t k|t w|t|t spent]; try done; cbn [next].
  { destruct (pcs c !! t) as [pc|] eqn:Ht; [|done]. cbn. destruct (freed c); [done|]. by apply run_work. }
  destruct (pcs c !! t) as [[]|] eqn:Ht; try done; case_match; try done; intros [= <-].
  - pose proof (work_move t _ (check_time rest spent) c
      (with_pcs <[t:=check_time rest spent]> c) Ht eq_refl) as Hw.
    enough (weight (size (pcs c)) (check_time rest spent) < weight (size (pcs c)) (Timed_check rest))%nat by lia.
    unfold check_time. case_match; cbn [weight returns]; [lia|].
    pose proof (pauses_mono (rest - spent) rest ltac:(lia)). pose proof (pauses_sleep (rest - spent) ltac:(lia)). lia.
  - pose proof (work_move t _ (Try_lock (Some (rest - spent)) 8) c
      (with_pcs <[t:=Try_lock (Some (rest - spent)) 8]> c) Ht eq_refl) as Hw.
    pose proof (pauses_mono (rest - spent) (rest - from_millis 1) ltac:(lia)). cbn [weight timed_pauses from_option] in Hw. lia.
Qed.

(** The holder of the mutex can always go on; any thread can, when nobody holds it. *)
Lemma holder_runs t pc c : holds pc = true -> exists c', run t 0 pc c = Some c'.
Proof. destruct pc; try done; intros _; cbn; repeat case_match; by eexists. Qed.
Lemma unlocked_runs t pc c : pcs c !! t = Some pc -> freed c = false -> lock c = None ->
  resting pc = false -> exists c', moves next is_run c c'.
Proof.
  intros Ht Hf Hl Hr.
  assert (Hrun : forall w c', run t w pc c = Some c' -> exists c', moves next is_run c c').
  { intros w c' H. exists c', (Run t w). split; [done|]. cbn. by rewrite Ht, Hf. }
  assert (Hn : pc = Send_notify \/ (exists rest, pc = Timed_check rest) \/ (exists rest, pc = Timed_sleep rest)
    \/ exists c', run t 0 pc c = Some c').
  { destruct pc; try done; cbn; rewrite ?Hl; repeat case_match; eauto. }
  destruct Hn as [->|[(rest & ->)|[(rest & ->)|[c' Hc']]]]; [| | |by eapply Hrun].
  - destruct (Nat.eqb_spec (pool_count is_asleep (pcs c)) 0) as [H0|Hn].
    { eapply (Hrun 0%nat). cbn. by rewrite H0. }
    destruct (pool_sum_pos (fun pc => if is_asleep pc then 1 else 0)%nat (pcs c)) as (w & pc & Hw & Ha).
    { unfold pool_count in Hn. lia. }
    destruct pc; cbn in Ha; try lia.
    eapply (Hrun w). cbn. rewrite (proj2 (Nat.eqb_neq _ _) Hn), Hw. reflexivity.
  - eexists _, (Clock t 0). split; [done|]. cbn. by rewrite Ht.
  - eexists _, (Clock t (from_millis 1)). split; [done|]. cbn. by rewrite Ht.
Qed.

Lemma all_idle_settled c : (forall t pc, pcs c !! t = Some pc -> is_idle pc = true) -> settled c.
Proof. intros Hi t pc Ht. pose proof (Hi t pc Ht) as H. by destruct pc. Qed.

Lemma progress c : inv c -> freed c = false -> settled c \/ exists c', moves next is_run c c'.
Proof.
  intros Hc Hf. destruct (lock c) as [t|] eqn:Hl.
  - right. destruct (inv_holder c Hc t Hl) as [pc Ht].
    destruct (holder_runs t pc c) as [c' Hr]; [by apply (inv_lock c Hc t pc Ht)|].
    exists c', (Run t 0). split; [done|]. cbn. by rewrite Ht, Hf.
  - destruct (decide (pool_count (fun pc => negb (resting pc)) (pcs c) = 0%nat)) as [H0|Hn].
    + left. assert (Hrest : forall t pc, pcs c !! t = Some pc -> resting pc = true).
      { intros t pc Ht. pose proof (pool_count_0 _ _ t pc H0 Ht) as Hr. cbn in Hr. by destruct (resting pc). }
      intros t pc Ht. split; [by eapply Hrest|]. intros Ha.
      destruct (inv_wakeups c Hc) as [Hz|Hz].
      { pose proof (pool_count_0 _ _ t pc Hz Ht). congruence. }
      assert (Hp : pool_count pending (pcs c) = 0%nat).
      { destruct (pool_count pending (pcs c)) as [|k] eqn:Hk; [done|].
        destruct (pool_sum_pos (fun pc => if pending pc then 1 else 0)%nat (pcs c)) as (t' & pc' & Ht' & Hp).
        { unfold pool_count in Hk. lia. }
        pose proof (Hrest t' pc' Ht'). destruct pc'; cbn in *; try lia; done. }
      destruct (queue c); [done|]. cbn in Hz. lia.
    + right. destruct (pool_sum_pos (fun pc => if negb (resting pc) then 1 else 0)%nat (pcs c)) as (t & pc & Ht & Hp).
      { unfold pool_count in Hn. lia. }
      eapply (unlocked_runs t pc c Ht Hf Hl). destruct (resting pc); cbn in Hp; [lia|done].
Qed.

(** C15: in every state a channel can be in, whatever the schedule and the clock, the calls
    in progress come to their end after finitely many actions and pauses, timed receives
    included, except for receivers that sleep on an empty queue: a message that was sent
    wakes a receiver that waits for it.  A channel whose box is freed has no call in
    progress. *)
Theorem calls_settle c : reachable c ->
  inevitable next is_run settled c
  /\ (freed c = true -> forall t pc, pcs c !! t = Some pc -> is_idle pc = true).
Proof.
  intros Hc%reachable_inv. split; [|intros Hf t pc Ht; by eapply (owned_freed_idle c); [apply Hc|..]].
  eapply inevitable_mono;
    [|apply (inevitable_measure next is_run (fun c => inv c /\ owned c) settled work)].
  - by intros c' [_ Hs].
  - intros c1 c2 [H1 H2] (e & Hi & He). split; [|by eapply next_work]. split; [by eapply next_inv|].
    eapply (legal_next_owned e c1); [done|]. unfold legal_next. by destruct e.
  - intros c1 [H1 H2]. destruct (freed c1) eqn:Hf; [|by apply progress].
    left. apply all_idle_settled. intros t pc Ht. by eapply owned_freed_idle.
  - done.
Qed.

(* ------------------------------------------------------------------ *)
(** ** What is received                                                *)
(* ------------------------------------------------------------------ *)

(** The messages that an event puts into the queue, and takes out of it. *)
Definition sent (e : event) (c : Chan) : list message :=
  match e with
  | Run t _ => match pcs c !! t with Some (Send_push data) => [data] | _ => [] end
  | _ => []
  end.
Definition taken (e : event) (c : Chan) : list message :=
  match e with
  | Run t _ =>
      match pcs c !! t with
      | Some (Recv_empty _) | Some (Try_pop _ _) => take 1 (queue c)
      | _ => []
      end
  | _ => []
  end.
Fixpoint history (es : list event) (c : Chan) : list message * list message :=
  match es with
  | [] => ([], [])
  | e :: es =>
      let '(s, r) := match next e c with Some c' => history es c' | None => ([], []) end in
      (sent e c ++ s, taken e c ++ r)
  end.

Lemma next_queue e c c' : next e c = Some c' -> queue c ++ sent e c = taken e c ++ queue c'.
Proof.
  destruct e as [t k|t w|t|t spent]; cbn [next sent taken].
  2: { destruct (pcs c !! t) as [pc|] eqn:Ht; [|done]. cbn. destruct (freed c) eqn:Hfree; [done|]. intros Hrun.
    destruct pc; cbn [run] in Hrun; repeat case_match; simplify_eq; cbn; by rewrite ?app_nil_r. }
  all: intros H; repeat case_match; simplify_eq; cbn; by rewrite app_nil_r.
Qed.
Lemma exec_queue es c c' :
  exec next es c = Some c' -> queue c ++ (history es c).1 = (history es c).2 ++ queue c'.
Proof.
  revert c. induction es as [|e es IH]; intros c; cbn; [intros [= ->]; by rewrite app_nil_r|].
  destruct (next e c) as [c1|] eqn:H1; [|done]. cbn. intros He%IH. pose proof (next_queue e c c1 H1) as Hq.
  destruct (history es c1) as [s r]. cbn in *. by rewrite app_assoc, Hq, <-!app_assoc, He.
Qed.

(** Every message has the size of the channel's elements. *)
Definition carries (pc : Pc) : option message :=
  match pc with Send_lock data | Send_push data => Some data | _ => None end.
Definition sized (c : Chan) : Prop :=
  Forall (fun data => length data = elem_size c) (queue c)
  /\ forall t pc data, pcs c !! t = Some pc -> carries pc = Some data -> length data = elem_size c.

Lemma next_elem_size e c c' : next e c = Some c' -> elem_size c' = elem_size c.
Proof.
  destruct e as [t k|t w|t|t spent]; cbn [next]; intros H.
  2: { destruct (pcs c !! t) as [pc|]; [|done]. cbn in H.
    destruct pc; cbn [run] in H; repeat case_match; by simplify_eq. }
  all: repeat case_match; by simplify_eq.
Qed.

Lemma carries_go (n : nat) m t pc' :
  (forall t pc data, m !! t = Some pc -> carries pc = Some data -> length data = n) ->
  (forall data, carries pc' = Some data -> length data = n) ->
  forall t' pc data, <[t:=pc']> m !! t' = Some pc -> carries pc = Some data -> length data = n.
Proof.
  intros Hm Hp t' pc data. destruct (decide (t = t')) as [<-|]; [|rewrite lookup_insert_ne by done; apply Hm].
  rewrite lookup_insert_eq. intros [= <-]. apply Hp.
Qed.

Lemma next_sized e c c' : sized c -> next e c = Some c' -> sized c'.
Proof.
  intros [Hq Hp]. destruct e as [t k|t w|t|t spent]; cbn [next].
  2: { destruct (pcs c !! t) as [pc|] eqn:Ht; [|done]. cbn. destruct (freed c) eqn:Hfree; [done|]. intros Hrun.
    destruct pc; cbn [run] in Hrun; repeat case_match; simplify_eq;
      try (split; [done|]; apply carries_go; [done|]; done).
    - split; [done|]. apply carries_go; [done|]. intros d [= <-]. by apply Nat.eqb_eq.
    - split; [done|]. apply carries_go; [done|]. intros d [= <-]. by eapply Hp.
    - split; [|by apply carries_go]. cbn. apply Forall_app_2; [done|]. apply Forall_singleton. by eapply Hp.
    - split; [done|]. apply carries_go; [|done]. by apply carries_go.
    - split; [cbn; by rewrite H|]. by apply carries_go.
    - split; [by eapply Forall_inv_tail|]. by apply carries_go.
    - split; [cbn; by rewrite H|]. by apply carries_go.
    - split; [by eapply Forall_inv_tail|]. by apply carries_go.
    - split; [done|]. apply carries_go; [done|]. unfold after_try. repeat case_match; done.
    - split; [done|]. cbn. apply carries_go; [|done]. intros t' pc' d. rewrite lookup_fmap.
      destruct (pcs c !! t') as [pc0|] eqn:H0; [|done]. intros [= <-] Hd. apply (Hp t' pc0 d H0). by destruct pc0. }
  all: intros H; repeat case_match; simplify_eq; split; try done; apply carries_go; try done.
  - destruct k as [[] []|[] []|[] []|[] ms|[]|[]|[]|[]]; try done. cbn. by destruct (ms <? 0).
  - unfold check_time. by case_match.
Qed.

Lemma sent_sized e c : sized c -> Forall (fun data => length data = elem_size c) (sent e c).
Proof.
  intros [_ Hp]. destruct e as [|t w| |]; cbn; try done. destruct (pcs c !! t) as [[]|] eqn:Ht; try done.
  apply Forall_singleton. by eapply Hp.
Qed.

Lemma history_sized es c :
  sized c -> Forall (fun data => length data = elem_size c) (history es c).1.
Proof.
  revert c. induction es as [|e es IH]; intros c Hc; cbn; [done|].
  destruct (next e c) as [c1|] eqn:H1; [|by rewrite app_nil_r; apply sent_sized].
  specialize (IH c1 (next_sized e c c1 Hc H1)). rewrite (next_elem_size e c c1 H1) in IH.
  destruct (history es c1) as [s r]. cbn in *. apply Forall_app_2; [by apply sent_sized|done].
Qed.

(** A buffer of the size of the elements receives the whole message. *)
Lemma copied_whole data n : (length data <= n)%nat -> Z.of_nat (length data) < 2 ^ 31 ->
  copied data n = mkRet (Z.of_nat (length data)) data.
Proof.
  intros Hn Hd. unfold copied. rewrite Nat.min_l by done. rewrite firstn_all. f_equal.
  rewrite Z.mod_small; lia.
Qed.

(** C16: a channel delivers what is sent in the order in which it was put into the queue:
    whatever the schedule, the messages taken out so far, followed by those in the queue,
    are the messages sent, none lost and none twice, and each has the size of the
    channel's elements. *)
Theorem channel_fifo es n threads c :
  exec next es (kryos_chan_new n threads) = Some c ->
  let '(s, r) := history es (kryos_chan_new n threads) in
  s = r ++ queue c /\ Forall (fun data => length data = n) s.
Proof.
  intros He. pose proof (exec_queue _ _ _ He) as Hq.
  assert (Hs : sized (kryos_chan_new n threads)).
  { split; [done|]. intros t pc data Ht. by rewrite (new_idle n threads t pc Ht). }
  pose proof (history_sized es _ Hs) as Hf. destruct (history es _) as [s r]. by split.
Qed.

(* ------------------------------------------------------------------ *)
(** ** Closing                                                         *)
(* ------------------------------------------------------------------ *)

Definition is_waiting (pc : Pc) : bool := match pc with Recv_wait _ => true | _ => false end.
Definition is_notifying (pc : Pc) : bool := match pc with Close_notify => true | _ => false end.

(** The flag is not set while a receiver is between its look at the flag and its sleep. *)
Definition calm (e : event) (c : Chan) : Prop :=
  match e with
  | Run t _ => pcs c !! t = Some Close_store -> pool_count is_waiting (pcs c) = 0%nat
  | _ => True
  end.
Fixpoint calm_run (es : list event) (c : Chan) : Prop :=
  match es with
  | [] => True
  | e :: es => calm e c /\ forall c', next e c = Some c' -> calm_run es c'
  end.

Definition closed_ok (c : Chan) : Prop :=
  closed c = true ->
  pool_count is_waiting (pcs c) = 0%nat
  /\ (pool_count is_asleep (pcs c) = 0%nat \/ (1 <= pool_count is_notifying (pcs c))%nat).

Lemma closed_ok_go c c' t pc pc' :
  closed_ok c -> closed c' = closed c -> pcs c !! t = Some pc -> pcs c' = <[t:=pc']> (pcs c) ->
  (closed c = true -> is_waiting pc' = false /\ (is_asleep pc' = true -> is_waiting pc = true)) ->
  is_notifying pc = false -> closed_ok c'.
Proof.
  intros Hc Hcl Ht Hm Hp Hn. unfold closed_ok. rewrite Hcl, Hm. intros H. destruct (Hc H) as [Hw Ha].
  destruct (Hp H) as [Hw' Ha']. pose proof (pool_count_0 _ _ _ _ Hw Ht) as Hw0.
  pose proof (pool_count_insert is_waiting _ t pc pc' Ht) as H1.
  pose proof (pool_count_insert is_asleep _ t pc pc' Ht) as H2.
  pose proof (pool_count_insert is_notifying _ t pc pc' Ht) as H3.
  rewrite Hw', Hw0 in H1. rewrite Hn in H3. destruct (is_asleep pc') eqn:Has; [by rewrite Ha' in Hw0|].
  split; [lia|]. destruct Ha as [Ha|Ha]; [left|right]; destruct (is_asleep pc), (is_notifying pc'); lia.
Qed.

Ltac closed_of c t Hc Ht :=
  eapply (closed_ok_go c _ t); [exact Hc|reflexivity|exact Ht|reflexivity| |reflexivity];
  intros Hcl; split; [first [reflexivity|congruence]|done].

Lemma closed_ok_woken w n c : closed_ok c -> pcs c !! w = Some (Recv_asleep n) ->
  closed_ok (with_pcs <[w:=Recv_woken n]> c).
Proof. intros Hc Hw. closed_of c w Hc Hw. Qed.

Lemma next_closed_ok e c c' : calm e c -> closed_ok c -> next e c = Some c' -> closed_ok c'.
Proof.
  intros Hcalm Hc. destruct e as [t k|t w|t|t spent]; cbn [next].
  2: { destruct (pcs c !! t) as [pc|] eqn:Ht; [|done]. cbn. destruct (freed c) eqn:Hfree; [done|]. intros Hrun.
    destruct pc; cbn [run] in Hrun; repeat case_match; simplify_eq; try (closed_of c t Hc Ht).
    - assert (Hne : w <> t) by congruence. set (c1 := with_pcs <[w:=Recv_woken buf_len]> c).
      assert (Ht1 : pcs c1 !! t = Some Send_notify) by (cbn; by rewrite lookup_insert_ne).
      pose proof (closed_ok_woken w buf_len c Hc H0) as Hc1. closed_of c1 t Hc1 Ht1.
    - eapply (closed_ok_go c _ t); [exact Hc|reflexivity|exact Ht|reflexivity| |reflexivity].
      intros _. unfold after_try. repeat case_match; done.
    - intros _. cbn. pose proof (Hcalm Ht) as Hw.
      pose proof (pool_count_insert is_waiting _ t _ Close_notify Ht) as H1. cbn in H1. split; [lia|right].
      by eapply pool_count_pos; [apply lookup_insert_eq|].
    - intros Hcl. destruct (Hc Hcl) as [Hw _]. cbn.
      assert (Ht1 : (wake <$> pcs c) !! t = Some Close_notify) by (by rewrite lookup_fmap, Ht).
      pose proof (pool_count_insert is_waiting _ t _ (returns 0) Ht1) as H1.
      pose proof (pool_count_insert is_asleep _ t _ (returns 0) Ht1) as H2. cbn in H1, H2.
      pose proof (no_sleeper (pcs c)) as Ha.
      pose proof (pool_sum_fmap (fun pc => if is_waiting pc then 1 else 0)%nat wake 0 (pcs c)
        ltac:(intros []; cbn; lia)) as H3. fold (pool_count is_waiting (pcs c)) in H3.
      fold (pool_count is_waiting (wake <$> pcs c)) in H3. lia. }
  all: intros H; repeat case_match; simplify_eq; try (by eapply closed_ok_woken).
  all: eapply (closed_ok_go c _ t); [exact Hc|reflexivity|eassumption|reflexivity| |reflexivity]; intros _; try done.
  - destruct k as [[] []|[] []|[] []|[] ms|[]|[]|[]|[]]; try done. cbn. by destruct (ms <? 0).
  - unfold check_time. by case_match.
Qed.

(** [kryos_chan_close] ends every receive, as long as the flag is not set while a
    receiver is between its look at the flag and its sleep: once the calls in progress
    have settled on a closed channel, no receiver is asleep. *)
Lemma close_wakes_receivers es n threads c :
  exec next es (kryos_chan_new n threads) = Some c -> calm_run es (kryos_chan_new n threads) ->
  closed c = true -> settled c -> forall t buf_len, pcs c !! t <> Some (Recv_asleep buf_len).
Proof.
  intros He Hcalm Hcl Hset. assert (Hc : closed_ok c).
  { assert (H0 : closed_ok (kryos_chan_new n threads)) by done.
    revert He Hcalm H0. generalize (kryos_chan_new n threads). clear. intros c0 He. revert c0 He.
    induction es as [|e es IH]; intros c0; cbn; [by intros [= ->]|].
    destruct (next e c0) as [c1|] eqn:H1; [|done]. cbn. intros He [Hcalm Hrun] H0.
    apply (IH c1 He (Hrun c1 eq_refl)). by eapply next_closed_ok. }
  intros t buf_len Ht. destruct (Hc Hcl) as [_ [Ha|Hn]].
  - pose proof (pool_count_0 _ _ _ _ Ha Ht). done.
  - destruct (pool_sum_pos (fun pc => if is_notifying pc then 1 else 0)%nat (pcs c)) as (t' & pc & Ht' & Hp).
    { unfold pool_count in Hn. lia. }
    destruct (Hset t' pc Ht') as [Hr _]. destruct pc; cbn in *; done || lia.
Qed.

(** The receiver 0 finds the queue empty and the flag clear; the thread 1 sets the flag
    and wakes nobody; then the receiver goes to sleep. *)
Definition close_race : list event :=
  [Call 0 (C_recv false (Some 8%nat)); Run 0 0; Run 0 0; Run 0 0;
   Call 1 (C_close false); Run 1 0; Run 1 0; Run 0 0].

(** The flag is set without the mutex, so the wake-up of a close can be lost: the
    receiver sleeps on a closed channel, where every later send is refused, and no
    thread has anything left to do. *)
Lemma close_loses_wakeup :
  exists c, exec next close_race (kryos_chan_new 8 2) = Some c
    /\ closed c = true /\ pcs c !! 0%nat = Some (Recv_asleep 8)
    /\ (forall c', ~ moves next is_run c c').
Proof.
  exists (mkChan 8 [] true 1 false None (<[0%nat:=Recv_asleep 8]> (<[1%nat:=returns 0]> ∅))).
  split; [vm_compute; reflexivity|]. split; [done|]. split; [done|].
  intros c' (e & Hi & He). destruct e as [|t w| |t spent]; try done; cbn [next pcs] in He;
    (destruct t as [|[|t]]; [done..|]; by rewrite !lookup_insert_ne in He by done).
Qed.

(* ------------------------------------------------------------------ *)
(** ** Examples                                                        *)
(* ------------------------------------------------------------------ *)

(** The thread 0 waits, the thread 1 sends: its message goes to the thread 0. *)
Definition ping : list event :=
  [Call 0 (C_recv false (Some 2%nat)); Run 0 0; Run 0 0; Run 0 0; Run 0 0;
   Call 1 (C_send false (Some [7; 9])); Run 1 0; Run 1 0; Run 1 0; Run 1 0].
Definition pinged : Chan :=
  mkChan 2 [[7; 9]] false 1 false None (<[0%nat:=Recv_asleep 2]> (<[1%nat:=Send_notify]> ∅)).
Lemma ping_exec : exec next ping (kryos_chan_new 2 2) = Some pinged.
Proof. vm_compute. reflexivity. Qed.

(** The thread 0 waits for at most two milliseconds; nothing is sent. *)
Definition timed_out : list event :=
  [Call 0 (C_recv_timeout false 2); Run 0 0; Run 0 0; Run 0 0; Run 0 0; Clock 0 30; Clock 0 1000000;
   Run 0 0; Run 0 0; Run 0 0; Run 0 0; Clock 0 70; Clock 0 1000000;
   Run 0 0; Run 0 0; Run 0 0; Run 0 0; Clock 0 0].
Example timed_receive_ends :
  exec legal_next timed_out (kryos_chan_new 8 1)
  = Some (mkChan 8 [] false 1 false None (<[0%nat:=returns (-1)]> ∅)).
Proof. vm_compute. reflexivity. Qed.

Lemma calls_settle_witness : inevitable next is_run settled pinged.
Proof.
  refine (proj1 (calls_settle pinged _)). exists 2%nat, 2%nat, ping. vm_compute. reflexivity.
Defined.

(** The thread 0 receives what the thread 1 has sent. *)
Definition pong : list event := ping ++ [Run 1 0; Run 0 0; Run 0 0; Run 0 0].
Lemma channel_fifo_witness :
  exists c, exec next pong (kryos_chan_new 2 2) = Some c
    /\ pcs c !! 0%nat = Some (Idle (mkRet 2 [7; 9]))
    /\ (let '(s, r) := history pong (kryos_chan_new 2 2) in
        s = r ++ queue c /\ Forall (fun data => length data = 2%nat) s).
Proof.
  eexists. split; [vm_compute; reflexivity|]. split; [vm_compute; reflexivity|].
  apply (channel_fifo pong 2 2). vm_compute. reflexivity.
Defined.

(** The receiver sleeps, and is woken by the close. *)
Definition hang_up : list event :=
  [Call 0 (C_recv false (Some 8%nat)); Run 0 0; Run 0 0; Run 0 0; Run 0 0;
   Call 1 (C_close false); Run 1 0; Run 1 0; Run 0 0; Run 0 0; Run 0 0; Run 0 0].
Definition hung_up : Chan :=
  mkChan 8 [] true 1 false None
    (<[0%nat:=Idle (mkRet 0 [])]> (<[1%nat:=returns 0]> ∅)).
Lemma close_wakes_receivers_witness :
  exec next hang_up (kryos_chan_new 8 2) = Some hung_up
  /\ forall t buf_len, pcs hung_up !! t <> Some (Recv_asleep buf_len).
Proof.
  assert (He : exec next hang_up (kryos_chan_new 8 2) = Some hung_up) by (vm_compute; reflexivity).
  split; [exact He|]. apply (close_wakes_receivers hang_up 8 2 hung_up He); [|done|].
  - repeat (split; [vm_compute; done|]; intros c Hc; vm_compute in Hc; injection Hc as <-). done.
  - intros t pc Ht. destruct t as [|[|t]]; [by injection Ht as <-..|].
    cbn in Ht. by rewrite !lookup_insert_ne in Ht by done.
Defined.

(** Two handles, given up by two threads. *)
Definition hand_over : list event :=
  [Call 0 (C_clone false); Run 0 0; Call 1 (C_drop false); Run 1 0;
   Call 0 (C_drop false); Run 0 0; Run 0 0].
Example hand_over_frees :
  exec legal_next hand_over (kryos_chan_new 8 2)
  = Some (mkChan 8 [] false 0 true None (<[0%nat:=returns 0]> (<[1%nat:=returns 0]> ∅))).
Proof. vm_compute. reflexivity. Qed.
(** No action is left on the channel that is freed, and no call on it is legal. *)
Example no_call_after_free k :
  null_handle k = false -> exec legal_next (hand_over ++ [Call 0 k]) (kryos_chan_new 8 2) = None.
Proof. destruct k as [[]|[]|[]|[]|[]|[]|[]|[]]; try done; intros _; vm_compute; reflexivity. Qed.
