(* ===== verification/Executor.v ===== *)
(** The cooperative executor ([kryos-rt/src/executor.rs]): tasks on threads of their own,
    of which the holder of a baton runs.  All state is behind one mutex, so that an
    action is one critical section; a wait for the baton ends in a wake-up by
    [notify_all]. *)

From S2P Require Import Prelude Threads.

(* ------------------------------------------------------------------ *)
(** ** State                                                           *)
(* ------------------------------------------------------------------ *)

Inductive Turn := Turn_Scheduler | Turn_Task (id : nat).
#[export] Instance Turn_eq_dec : EqDecision Turn.
Proof. solve_decision. Defined.

(** What the code of a task or of the main thread calls: [kryos_coop_record],
    [kryos_coop_yield], a blocking operation in [io_offload], [kryos_coop_spawn]. *)
Inductive act :=
| A_record (tag : string)
| A_yield
| A_io
| A_spawn (body : list act).

(** The thread of a task: it waits for the baton (a waiter that is not awake sleeps on the
    condition variable), runs, is in a blocking operation without the baton, has still
    to call [notify_all] at its end, or has ended. *)
Inductive Task :=
| T_wait (awake : bool) (code : list act)
| T_run (code : list act)
| T_away (code : list act)
| T_notify
| T_done.

(** The main thread: in the code before [kryos_coop_run], at the choice of the next task,
    waiting for the baton to come back, or after the return. *)
Inductive Main :=
| M_code (code : list act)
| M_pick (awake : bool)
| M_granted (awake : bool)
| M_done.

(** [Shared], and the threads. *)
Record Exec := mkExec {
  turn : Turn;
  ready : list nat;
  live : nat;
  next_id : nat;
  log : list string;
  main : Main;
  tasks : gmap nat Task
}.

Definition with_turn (t : Turn) (σ : Exec) : Exec :=
  mkExec t (ready σ) (live σ) (next_id σ) (log σ) (main σ) (tasks σ).
Definition with_ready (q : list nat) (σ : Exec) : Exec :=
  mkExec (turn σ) q (live σ) (next_id σ) (log σ) (main σ) (tasks σ).
Definition with_log (l : list string) (σ : Exec) : Exec :=
  mkExec (turn σ) (ready σ) (live σ) (next_id σ) l (main σ) (tasks σ).
Definition with_main (m : Main) (σ : Exec) : Exec :=
  mkExec (turn σ) (ready σ) (live σ) (next_id σ) (log σ) m (tasks σ).
Definition with_task (id : nat) (t : Task) (σ : Exec) : Exec :=
  mkExec (turn σ) (ready σ) (live σ) (next_id σ) (log σ) (main σ) (<[id := t]> (tasks σ)).

(** [sched], before any task is spawned; the main thread has [code] to run. *)
Definition sched (code : list act) : Exec := mkExec Turn_Scheduler [] 0 0 [] (M_code code) ∅.

(* ------------------------------------------------------------------ *)
(** ** Operations                                                      *)
(* ------------------------------------------------------------------ *)

Definition wake (t : Task) : Task := match t with T_wait _ code => T_wait true code | _ => t end.
Definition wake_main (m : Main) : Main :=
  match m with M_pick _ => M_pick true | M_granted _ => M_granted true | _ => m end.

(** [cv.notify_all]. *)
Definition notify_all (σ : Exec) : Exec :=
  mkExec (turn σ) (ready σ) (live σ) (next_id σ) (log σ) (wake_main (main σ)) (wake <$> tasks σ).

(** [kryos_coop_spawn] of a function that is not null: the thread of the task starts, and
    will look at the turn before it runs [body]. *)
Definition kryos_coop_spawn (body : list act) (σ : Exec) : Exec :=
  let id := S (next_id σ) in
  mkExec (turn σ) (ready σ ++ [id]) (S (live σ)) id (log σ) (main σ)
    (<[id := T_wait true body]> (tasks σ)).

Definition kryos_coop_record (tag : string) (σ : Exec) : Exec := with_log (log σ ++ [tag]) σ.

(** One look at the turn by the thread of the task [id]: it goes on with [code], or
    sleeps. *)
Definition look (id : nat) (code : list act) (σ : Exec) : Exec :=
  with_task id (if decide (turn σ = Turn_Task id) then T_run code else T_wait false code) σ.

(** Called by the thread of the task [id], whose code goes on with [code]. *)
Definition kryos_coop_yield (id : nat) (code : list act) (σ : Exec) : Exec :=
  look id code (notify_all (with_turn Turn_Scheduler (with_ready (ready σ ++ [id]) σ))).
Definition kryos_coop_io_begin (id : nat) (code : list act) (σ : Exec) : Exec :=
  with_task id (T_away code) (notify_all (with_turn Turn_Scheduler σ)).
Definition kryos_coop_io_end (id : nat) (code : list act) (σ : Exec) : Exec :=
  look id code (notify_all (with_ready (ready σ ++ [id]) σ)).

(** The end of the closure of [kryos_coop_spawn], before its [notify_all]. *)
Definition complete (id : nat) (σ : Exec) : Exec :=
  with_task id T_notify
    (mkExec Turn_Scheduler (ready σ) (pred (live σ)) (next_id σ) (log σ) (main σ) (tasks σ)).

(** One action of the thread of the task [id]. *)
Definition task_step (id : nat) (t : Task) (σ : Exec) : option Exec :=
  match t with
  | T_wait true code => Some (look id code σ)
  | T_wait false _ | T_done => None
  | T_run [] => Some (complete id σ)
  | T_run (A_record tag :: code) => Some (with_task id (T_run code) (kryos_coop_record tag σ))
  | T_run (A_yield :: code) => Some (kryos_coop_yield id code σ)
  | T_run (A_io :: code) => Some (kryos_coop_io_begin id code σ)
  | T_run (A_spawn body :: code) => Some (with_task id (T_run code) (kryos_coop_spawn body σ))
  | T_away code => Some (kryos_coop_io_end id code σ)
  | T_notify => Some (with_task id T_done (notify_all σ))
  end.

(** One action of the main thread, which is no task: there [kryos_coop_yield] and
    [kryos_coop_io_begin] do nothing.  [M_pick] and [M_granted] are the loops of
    [kryos_coop_run]. *)
Definition main_step (σ : Exec) : option Exec :=
  match main σ with
  | M_code [] => Some (with_main (M_pick true) σ)
  | M_code (A_record tag :: code) => Some (with_main (M_code code) (kryos_coop_record tag σ))
  | M_code (A_yield :: code) | M_code (A_io :: code) => Some (with_main (M_code code) σ)
  | M_code (A_spawn body :: code) => Some (with_main (M_code code) (kryos_coop_spawn body σ))
  | M_pick true =>
      match ready σ with
      | id :: q =>
          Some (with_main (M_granted false) (notify_all (with_turn (Turn_Task id) (with_ready q σ))))
      | [] => Some (with_main (if Nat.eqb (live σ) 0 then M_done else M_pick false) σ)
      end
  | M_granted true =>
      Some (with_main (if decide (turn σ = Turn_Scheduler) then M_pick true else M_granted false) σ)
  | M_pick false | M_granted false | M_done => None
  end.

(** [kryos_coop_reset], on a thread that is not in [kryos_coop_run]. *)
Definition kryos_coop_reset (σ : Exec) : Exec :=
  mkExec Turn_Scheduler [] 0 (next_id σ) [] (main σ) (tasks σ).
(** [kryos_coop_order]. *)
Definition kryos_coop_order (σ : Exec) : string := String.concat " " (log σ).

(** A thread acts, or wakes up for no reason. *)
Inductive event := E_main | E_task (id : nat) | E_spurious_main | E_spurious (id : nat).

Definition next (e : event) (σ : Exec) : option Exec :=
  match e with
  | E_main => main_step σ
  | E_task id => t ← tasks σ !! id; task_step id t σ
  | E_spurious_main => Some (with_main (wake_main (main σ)) σ)
  | E_spurious id => t ← tasks σ !! id; Some (with_task id (wake t) σ)
  end.
Definition acts (e : event) : bool := match e with E_main | E_task _ => true | _ => false end.

(* ------------------------------------------------------------------ *)
(** ** The invariant                                                   *)
(* ------------------------------------------------------------------ *)

Definition alive (t : Task) : bool := match t with T_notify | T_done => false | _ => true end.

(** A waiting task is in the queue or has the turn, never both; a running one has the
    turn. *)
Definition fits (tn : Turn) (q : list nat) (id : nat) (t : Task) : Prop :=
  match t with
  | T_wait _ _ => id ∈ q <-> tn <> Turn_Task id
  | T_run _ => tn = Turn_Task id /\ id ∉ q
  | _ => tn <> Turn_Task id /\ id ∉ q
  end.
Definition main_fits (tn : Turn) (q : list nat) (n : nat) (m : Main) : Prop :=
  match m with
  | M_code _ | M_pick _ => tn = Turn_Scheduler
  | M_granted _ => True
  | M_done => tn = Turn_Scheduler /\ q = [] /\ n = 0%nat
  end.

Record shape (σ : Exec) : Prop := {
  s_fits : forall id t, tasks σ !! id = Some t -> fits (turn σ) (ready σ) id t;
  s_exists : forall id, id ∈ ready σ \/ turn σ = Turn_Task id -> is_Some (tasks σ !! id);
  s_nodup : NoDup (ready σ);
  s_live : live σ = pool_count alive (tasks σ);
  s_ids : forall id, is_Some (tasks σ !! id) -> (id <= next_id σ)%nat;
  s_main : main_fits (turn σ) (ready σ) (live σ) (main σ)
}.

(** No wake-up is lost: who sleeps has nothing to do yet. *)
Record awake_ok (σ : Exec) : Prop := {
  a_task : forall id code, turn σ = Turn_Task id -> tasks σ !! id <> Some (T_wait false code);
  a_pick : main σ = M_pick false -> ready σ = [] /\ live σ <> 0%nat;
  a_granted : main σ = M_granted false ->
    turn σ <> Turn_Scheduler \/ exists id, tasks σ !! id = Some T_notify
}.
Definition inv (σ : Exec) : Prop := shape σ /\ awake_ok σ.

Lemma wake_alive t : alive (wake t) = alive t.
Proof. by destruct t. Qed.
Lemma pool_count_wake m : pool_count alive (wake <$> m) = pool_count alive m.
Proof.
  induction m as [|id t m Hid IH] using map_ind; [by rewrite fmap_empty|].
  unfold pool_count in *. rewrite fmap_insert.
  rewrite (pool_sum_delete _ (<[id:=wake t]> _) id (wake t)) by apply lookup_insert_eq.
  rewrite (pool_sum_delete _ (<[id:=t]> m) id t) by apply lookup_insert_eq.
  rewrite !delete_insert_id by (by rewrite ?lookup_fmap, Hid). by rewrite IH, wake_alive.
Qed.

Lemma fits_wake tn q id t : fits tn q id t -> fits tn q id (wake t).
Proof. by destruct t. Qed.
Lemma main_fits_wake tn q n m : main_fits tn q n m -> main_fits tn q n (wake_main m).
Proof. by destruct m. Qed.

Lemma shape_notify σ : shape σ -> shape (notify_all σ).
Proof.
  intros [Hf He Hn Hl Hi Hm]. split; cbn; try done.
  - intros id t. rewrite lookup_fmap. destruct (tasks σ !! id) as [t0|] eqn:Ht; [|done].
    intros [= <-]. by apply fits_wake, Hf.
  - intros id Hid. rewrite lookup_fmap, fmap_is_Some. by apply He.
  - by rewrite pool_count_wake.
  - intros id. rewrite lookup_fmap, fmap_is_Some. apply Hi.
  - by apply main_fits_wake.
Qed.
Lemma awake_notify σ : awake_ok (notify_all σ).
Proof.
  split; cbn.
  - intros id code _. rewrite lookup_fmap. by destruct (tasks σ !! id) as [[]|].
  - by destruct (main σ).
  - by destruct (main σ).
Qed.

(** A task changes its state; the other parts change with it. *)
Lemma shape_task σ σ' id t t' :
  shape σ -> tasks σ !! id = Some t -> tasks σ' = <[id:=t']> (tasks σ) ->
  fits (turn σ') (ready σ') id t' ->
  (forall id' u, id' <> id -> fits (turn σ) (ready σ) id' u -> fits (turn σ') (ready σ') id' u) ->
  (forall id', id' <> id -> id' ∈ ready σ' \/ turn σ' = Turn_Task id' ->
    id' ∈ ready σ \/ turn σ = Turn_Task id') ->
  NoDup (ready σ') ->
  (live σ' + (if alive t then 1 else 0) = live σ + (if alive t' then 1 else 0))%nat ->
  next_id σ' = next_id σ -> main_fits (turn σ') (ready σ') (live σ') (main σ') -> shape σ'.
Proof.
  intros [Hf He Hn Hl Hi Hm] Ht Htasks Hfit Hoth Hex Hnd Hlive Hid Hmain. split; [| |done| | |done].
  - intros id' u. rewrite Htasks. destruct (decide (id' = id)) as [->|Hne].
    + rewrite lookup_insert_eq. by intros [= <-].
    + rewrite lookup_insert_ne by done. intros Hu. by apply Hoth, Hf.
  - intros id' Hid'. rewrite Htasks. destruct (decide (id' = id)) as [->|Hne].
    + by rewrite lookup_insert_eq.
    + rewrite lookup_insert_ne by done. by apply He, Hex.
  - rewrite Htasks. pose proof (pool_count_insert alive _ id t t' Ht) as Hc. lia.
  - intros id'. rewrite Htasks, Hid. destruct (decide (id' = id)) as [->|Hne].
    + rewrite lookup_insert_eq. intros _. by apply Hi; rewrite Ht.
    + rewrite lookup_insert_ne by done. apply Hi.
Qed.

(** Only the state of the task changes. *)
Lemma shape_set σ id t t' :
  shape σ -> tasks σ !! id = Some t -> fits (turn σ) (ready σ) id t' -> alive t' = alive t ->
  shape (with_task id t' σ).
Proof.
  intros Hs Ht Hfit Ha. eapply (shape_task σ _ id t t'); try done; [apply Hs|cbn; by rewrite Ha|apply Hs].
Qed.

Lemma look_fits σ id code : (id ∈ ready σ <-> turn σ <> Turn_Task id) ->
  fits (turn σ) (ready σ) id (if decide (turn σ = Turn_Task id) then T_run code else T_wait false code).
Proof. intros Hq. destruct (decide _) as [Ht|Ht]; [split; [done|]; intros H; by apply Hq in H|done]. Qed.

(** The holder of the turn gives it up, and is queued or not. *)
Lemma fits_release q id id' u l :
  id' <> id -> (l = [] \/ l = [id]) ->
  fits (Turn_Task id) q id' u -> fits Turn_Scheduler (q ++ l) id' u.
Proof.
  intros Hne Hl. assert (Hin : id' ∈ q ++ l <-> id' ∈ q).
  { rewrite elem_of_app. destruct Hl as [->| ->]; set_solver. }
  destruct u; cbn; rewrite Hin; intros Hf.
  - split; [done|]. intros _. apply Hf. congruence.
  - destruct Hf as [[= ->] _]. done.
  - by destruct Hf.
  - by destruct Hf.
  - by destruct Hf.
Qed.

Lemma look_sleeps id code σ : turn σ <> Turn_Task id -> look id code σ = with_task id (T_wait false code) σ.
Proof. intros Htn. unfold look. by rewrite decide_False. Qed.

Lemma running_granted σ id c : shape σ -> tasks σ !! id = Some (T_run c) ->
  turn σ = Turn_Task id /\ (id ∉ ready σ) /\ exists b, main σ = M_granted b.
Proof.
  intros Hs Ht. destruct (s_fits σ Hs id _ Ht) as [Htn Hq]. split; [done|]. split; [done|].
  pose proof (s_main σ Hs) as Hm. rewrite Htn in Hm. destruct (main σ) as [c0|b|b|]; [done|done|by exists b|by destruct Hm].
Qed.

Lemma shape_release σ σ' id c l t' :
  shape σ -> tasks σ !! id = Some (T_run c) -> tasks σ' = <[id:=t']> (tasks σ) ->
  turn σ' = Turn_Scheduler -> ready σ' = ready σ ++ l -> main σ' = main σ -> next_id σ' = next_id σ ->
  l = [] \/ l = [id] -> fits Turn_Scheduler (ready σ ++ l) id t' ->
  (live σ' + 1 = live σ + (if alive t' then 1 else 0))%nat -> shape σ'.
Proof.
  intros Hs Ht Htasks Htn Hq Hm Hid Hl Hfit Hlive. destruct (running_granted σ id c Hs Ht) as (Ht1 & Hq1 & b & Hm1).
  eapply (shape_task σ σ' id _ t'); try done; rewrite ?Htn, ?Hq, ?Ht1, ?Hm, ?Hm1; try done.
  - intros id' u Hne. by apply fits_release.
  - intros id' Hne [Hin|[=]]. left. apply elem_of_app in Hin as [?|Hin]; [done|].
    destruct Hl as [->| ->]; set_solver.
  - pose proof (s_nodup σ Hs). destruct Hl as [->| ->]; [by rewrite app_nil_r|].
    apply NoDup_app. split; [done|]. split; [set_solver|apply NoDup_singleton].
Qed.

Lemma shape_spawn body σ :
  shape σ -> main_fits (turn σ) (ready σ ++ [S (next_id σ)]) (S (live σ)) (main σ) ->
  shape (kryos_coop_spawn body σ).
Proof.
  intros Hs Hm. assert (Hfresh : tasks σ !! S (next_id σ) = None).
  { destruct (tasks σ !! S (next_id σ)) eqn:E; [|done].
    pose proof (s_ids σ Hs (S (next_id σ)) ltac:(by rewrite E)). lia. }
  assert (Hno : (S (next_id σ) ∉ ready σ) /\ turn σ <> Turn_Task (S (next_id σ))).
  { split; [intros Hin|intros Htn]; (destruct (s_exists σ Hs (S (next_id σ))) as [? H]; [auto|]; congruence). }
  destruct Hno as [Hq Htn].
  split; cbn.
  - intros id t. destruct (decide (id = S (next_id σ))) as [->|Hne].
    + rewrite lookup_insert_eq. intros [= <-]. cbn. set_solver.
    + rewrite lookup_insert_ne by done. intros Ht%(s_fits σ Hs).
      assert (Hin : id ∈ ready σ ++ [S (next_id σ)] <-> id ∈ ready σ) by set_solver.
      destruct t; cbn in *; by rewrite Hin.
  - intros id Hid. destruct (decide (id = S (next_id σ))) as [->|Hne]; [by rewrite lookup_insert_eq|].
    rewrite lookup_insert_ne by done. apply (s_exists σ Hs). set_solver.
  - apply NoDup_app. split; [apply Hs|]. split; [set_solver|apply NoDup_singleton].
  - unfold pool_count. rewrite (pool_sum_delete _ _ (S (next_id σ)) (T_wait true body)) by apply lookup_insert_eq.
    rewrite delete_insert_id by done. cbn. f_equal. apply (s_live σ Hs).
  - intros id. destruct (decide (id = S (next_id σ))) as [->|Hne]; [done|].
    rewrite lookup_insert_ne by done. intros Hid%(s_ids σ Hs). lia.
  - done.
Qed.

Lemma awake_after σ id t :
  (turn σ = Turn_Task id -> forall code, t <> T_wait false code) -> awake_ok (with_task id t (notify_all σ)).
Proof.
  intros Hid. split; cbn.
  - intros id' code Htn. destruct (decide (id' = id)) as [->|Hne].
    + rewrite lookup_insert_eq. intros [= ->]. by eapply Hid.
    + rewrite lookup_insert_ne by done. by apply (a_task _ (awake_notify σ)).
  - by destruct (main σ).
  - by destruct (main σ).
Qed.
(** The thread of a task that is not at its last action changes its state. *)
Lemma awake_set σ id t t' :
  awake_ok σ -> tasks σ !! id = Some t -> t <> T_notify ->
  (turn σ = Turn_Task id -> forall code, t' <> T_wait false code) -> awake_ok (with_task id t' σ).
Proof.
  intros [Ha Hp Hg] Ht Hn Hid. split; cbn; [|done|].
  - intros id' code Htn. destruct (decide (id' = id)) as [->|Hne].
    + rewrite lookup_insert_eq. intros [= ->]. by eapply Hid.
    + rewrite lookup_insert_ne by done. by apply Ha.
  - intros Hm. destruct (Hg Hm) as [?|[id' Hid']]; [by left|right; exists id'].
    rewrite lookup_insert_ne; [done|congruence].
Qed.
Lemma awake_spawn body σ :
  awake_ok σ -> main σ <> M_pick false -> (forall b, main σ = M_granted b -> turn σ <> Turn_Scheduler) ->
  awake_ok (kryos_coop_spawn body σ).
Proof.
  intros [Ha Hp Hg] Hm Hm'. split; cbn; [|done|].
  - intros id code Htn. destruct (decide (id = S (next_id σ))) as [->|Hne]; [by rewrite lookup_insert_eq|].
    rewrite lookup_insert_ne by done. by apply Ha.
  - intros Hmg. left. by eapply Hm'.
Qed.

Lemma task_step_inv id t σ σ' :
  inv σ -> tasks σ !! id = Some t -> task_step id t σ = Some σ' -> inv σ'.
Proof.
  intros [Hs Ha] Ht. pose proof (s_fits σ Hs id t Ht) as Hfit.
  assert (Hwt : tasks (notify_all σ) !! id = Some (wake t)) by (cbn; by rewrite lookup_fmap, Ht).
  destruct t as [[] code|[|[tag| | |body] code]|code| |]; cbn [task_step]; intros [= <-].
  - (* a look at the turn *)
    split; [eapply shape_set; [done|exact Ht|by apply look_fits|by destruct (decide _)]|].
    eapply awake_set; [done|exact Ht|done|]. intros Htn code'. by destruct (decide _).
  - (* the end *)
    destruct (running_granted σ id _ Hs Ht) as (Ht1 & Hq1 & b & Hm1).
    assert (Hpos : (1 <= live σ)%nat) by (rewrite (s_live σ Hs); by eapply pool_count_pos).
    split.
    + eapply (shape_release σ _ id _ []); [done|exact Ht|done|done|by rewrite app_nil_r|done|done|by left| |cbn; lia].
      rewrite app_nil_r. done.
    + split; cbn; [done|by rewrite Hm1|]. intros _. right. exists id. apply lookup_insert_eq.
  - (* record *)
    assert (Hs1 : shape (kryos_coop_record tag σ)) by (destruct Hs; by split).
    split; [eapply (shape_set (kryos_coop_record tag σ)); [done|exact Ht|done|done]|].
    assert (Ha1 : awake_ok (kryos_coop_record tag σ)) by (destruct Ha; by split).
    by eapply (awake_set (kryos_coop_record tag σ)).
  - (* yield *)
    unfold kryos_coop_yield. rewrite look_sleeps by done. split; [|by apply awake_after].
    eapply (shape_release (notify_all σ) _ id _ [id]); [by apply shape_notify| |done|done|done|done|done|by right| |cbn; lia].
    + exact Hwt.
    + cbn. set_solver.
  - (* io_begin *)
    split; [|apply awake_after; by cbn].
    eapply (shape_release (notify_all σ) _ id _ []); [by apply shape_notify|exact Hwt|done|done|by rewrite app_nil_r|done|done|by left| |cbn; lia].
    rewrite app_nil_r. cbn. by destruct Hfit.
  - (* spawn *)
    destruct (running_granted σ id _ Hs Ht) as (Ht1 & Hq1 & b & Hm1).
    assert (Hs1 : shape (kryos_coop_spawn body σ)) by (apply shape_spawn; [done|by rewrite Hm1]).
    assert (Hid : (id <= next_id σ)%nat) by (apply (s_ids σ Hs); by rewrite Ht).
    assert (Ht2 : tasks (kryos_coop_spawn body σ) !! id = Some (T_run (A_spawn body :: code)))
      by (cbn; rewrite lookup_insert_ne by lia; done).
    split; [eapply (shape_set (kryos_coop_spawn body σ)); [done|exact Ht2|cbn; set_solver by lia|done]|].
    eapply (awake_set (kryos_coop_spawn body σ)); [|exact Ht2|done..].
    apply awake_spawn; [done|by rewrite Hm1|by rewrite Ht1].
  - (* io_end *)
    destruct Hfit as [Hne Hq]. unfold kryos_coop_io_end. rewrite look_sleeps by done.
    split; [|by apply awake_after]. pose proof (shape_notify σ Hs) as Hs1.
    eapply (shape_task (notify_all σ) _ id _ (T_wait false code)); [done|exact Hwt|done|cbn; set_solver|..].
    + intros id' u Hne' Hu. assert (Hin : id' ∈ ready σ ++ [id] <-> id' ∈ ready σ) by set_solver.
      cbn in *. destruct u; cbn in *; by rewrite Hin.
    + cbn. set_solver.
    + cbn. apply NoDup_app. split; [apply Hs|]. split; [set_solver|apply NoDup_singleton].
    + done.
    + done.
    + pose proof (s_main _ Hs) as Hm. cbn. destruct (main σ) eqn:Hm1; try done.
      destruct Hm as (_ & _ & H0). rewrite (s_live σ Hs) in H0. by pose proof (pool_count_0 _ _ id _ H0 Ht).
  - (* notify_all *)
    split; [|by apply awake_after].
    by eapply (shape_set (notify_all σ)); [apply shape_notify|exact Hwt|..].
Qed.

Lemma main_step_inv σ σ' : inv σ -> main_step σ = Some σ' -> inv σ'.
Proof.
  intros [Hs Ha]. pose proof (s_main σ Hs) as Hm. unfold main_step.
  assert (Hmain : forall m, main_fits (turn σ) (ready σ) (live σ) m -> shape (with_main m σ)).
  { intros m Hmf. destruct Hs. by split. }
  destruct (main σ) as [[|[tag| | |body] code]|[]|[]|] eqn:Hm1; try done; cbn in Hm.
  - intros [= <-]. split; [by apply Hmain|]. by split; [apply Ha|..].
  - intros [= <-]. split; [by destruct Hs; split|]. by split; [apply Ha|..].
  - intros [= <-]. split; [by apply Hmain|]. by split; [apply Ha|..].
  - intros [= <-]. split; [by apply Hmain|]. by split; [apply Ha|..].
  - intros [= <-]. assert (Hs1 : shape (kryos_coop_spawn body σ)) by (apply shape_spawn; [done|by rewrite Hm1]).
    split; [by destruct Hs1; split|]. split; [|done..].
    apply (a_task (kryos_coop_spawn body σ)), awake_spawn; [done|by rewrite Hm1..].
  - destruct (ready σ) as [|id q] eqn:Hq; intros [= <-].
    + split; [apply Hmain; destruct (Nat.eqb_spec (live σ) 0); by rewrite ?Hq|].
      split; cbn; [apply Ha| |]; by destruct (Nat.eqb_spec (live σ) 0).
    + assert (Hid : exists aw code, tasks σ !! id = Some (T_wait aw code)).
      { destruct (s_exists σ Hs id) as [t Ht]; [left; rewrite Hq; set_solver|].
        pose proof (s_fits σ Hs id t Ht) as Hf. rewrite Hq in Hf. destruct t; [by eauto|..]; cbn in Hf; set_solver. }
      pose proof (s_nodup σ Hs) as Hnd. rewrite Hq in Hnd. apply NoDup_cons in Hnd as [Hni Hnd].
      split; [|split; cbn; [|done|by left]].
      2: { intros id' code Htn. rewrite lookup_fmap. by destruct (tasks σ !! id') as [[]|]. }
      assert (Hs1 : shape (with_main (M_granted false) (with_turn (Turn_Task id) (with_ready q σ)))).
      { split; cbn; [| |done|apply Hs|apply Hs|done].
        - intros id' t Ht. pose proof (s_fits σ Hs id' t Ht) as Hf. rewrite Hq, Hm in Hf.
          destruct (decide (id' = id)) as [->|Hne].
          + destruct Hid as (aw & code & Hid). rewrite Hid in Ht. injection Ht as <-. cbn. by split.
          + assert (Hin : id' ∈ id :: q <-> id' ∈ q) by set_solver.
            destruct t; cbn in *; rewrite <-Hin; naive_solver congruence.
        - intros id' Hid'. apply (s_exists σ Hs). rewrite Hq. left. set_solver. }
      apply shape_notify in Hs1. by destruct Hs1; split.
  - intros [= <-]. destruct (decide (turn σ = Turn_Scheduler)) as [Ht|Ht].
    + split; [by apply Hmain|]. by split; [apply Ha|..].
    + split; [by apply Hmain|]. split; cbn; [apply Ha|done|by left].
Qed.

Lemma coop_next_inv e σ σ' : inv σ -> next e σ = Some σ' -> inv σ'.
Proof.
  destruct e as [|id| |id]; cbn [next].
  - apply main_step_inv.
  - intros Hi. destruct (tasks σ !! id) as [t|] eqn:Ht; [|done]. by apply task_step_inv.
  - intros [Hs Ha] [= <-]. split; [destruct Hs; split; try done; by apply main_fits_wake|].
    split; cbn; [apply Ha|by destruct (main σ)|by destruct (main σ)].
  - intros [Hs Ha]. destruct (tasks σ !! id) as [t|] eqn:Ht; [|done]. intros [= <-].
    split; [eapply shape_set; [done|exact Ht|by apply fits_wake, Hs|apply wake_alive]|].
    split; cbn; [|apply Ha|].
    + intros id' code Htn. destruct (decide (id' = id)) as [->|Hne]; [rewrite lookup_insert_eq; by destruct t|].
      rewrite lookup_insert_ne by done. by apply Ha.
    + intros Hm. destruct (a_granted σ Ha Hm) as [?|[id' Hid']]; [by left|right; exists id'].
      destruct (decide (id' = id)) as [->|Hne]; [|by rewrite lookup_insert_ne].
      rewrite lookup_insert_eq. rewrite Hid' in Ht. by injection Ht as <-.
Qed.

Lemma sched_inv code : inv (sched code).
Proof.
  split; split; try done.
  - intros id [Hin|[=]]. by apply not_elem_of_nil in Hin.
  - constructor.
  - by intros id [].
Qed.
Definition reachable (σ : Exec) : Prop := exists code es, exec next es (sched code) = Some σ.
Lemma coop_reachable_inv σ : reachable σ -> inv σ.
Proof. intros (code & es & He). by eapply (exec_invariant next inv coop_next_inv); [apply sched_inv|]. Qed.


(* ------------------------------------------------------------------ *)
(** ** The baton                                                       *)
(* ------------------------------------------------------------------ *)

(** C14: at most one task runs at any moment, the one that has the turn, and none while the
    scheduler picks the next one or after it has returned. *)
Theorem one_task_runs σ id code :
  reachable σ -> tasks σ !! id = Some (T_run code) ->
  turn σ = Turn_Task id /\ (exists b, main σ = M_granted b)
  /\ forall id' code', tasks σ !! id' = Some (T_run code') -> id' = id.
Proof.
  intros [Hs _]%coop_reachable_inv Ht. destruct (running_granted σ id code Hs Ht) as (Htn & _ & Hm).
  split; [done|]. split; [done|]. intros id' code' Ht'. destruct (running_granted σ id' code' Hs Ht') as (Htn' & _). congruence.
Qed.

(* ------------------------------------------------------------------ *)
(** ** Liveness                                                        *)
(* ------------------------------------------------------------------ *)

(** The tasks that a piece of code can spawn, and all tasks there can be. *)
Fixpoint bodies_act (a : act) : nat :=
  match a with A_spawn body => S (sum_list_with bodies_act body) | _ => 0 end.
Abbreviation bodies := (sum_list_with bodies_act).
Definition code_of (t : Task) : list act :=
  match t with T_wait _ code | T_run code | T_away code => code | _ => [] end.
Definition main_code (m : Main) : list act := match m with M_code code => code | _ => [] end.
Definition threads (σ : Exec) : nat :=
  (size (tasks σ) + pool_sum (fun t => bodies (code_of t)) (tasks σ) + bodies (main_code (main σ)))%nat.

(** The actions that are left, when a call of [notify_all] counts for [n]. *)
Fixpoint act_cost (n : nat) (a : act) : nat :=
  match a with
  | A_record _ => 1
  | A_yield => 2 * n + 2
  | A_io => 3 * n + 4
  | A_spawn body => 2 * n + 8 + sum_list_with (act_cost n) body
  end.
Abbreviation code_cost n := (sum_list_with (act_cost n)).
Definition flag (b : bool) : nat := if b then 1 else 0.
Definition task_cost (n : nat) (t : Task) : nat :=
  match t with
  | T_wait awake code => code_cost n code + n + 4 + flag awake
  | T_run code => code_cost n code + n + 3
  | T_away code => code_cost n code + 3 * n + 5
  | T_notify => n + 1
  | T_done => 0
  end.
Definition main_cost (n : nat) (m : Main) : nat :=
  match m with
  | M_code code => code_cost n code + 3
  | M_pick awake => flag awake
  | M_granted awake => 2 * flag awake
  | M_done => 0
  end.
Definition work (n : nat) (σ : Exec) : nat :=
  (main_cost n (main σ) + pool_sum (task_cost n) (tasks σ) + n * length (ready σ))%nat.

Lemma threads_task σ id t t' : tasks σ !! id = Some t ->
  (threads (with_task id t' σ) + bodies (code_of t) = threads σ + bodies (code_of t'))%nat.
Proof.
  intros Ht. unfold threads. cbn. rewrite map_size_insert_Some by done.
  pose proof (pool_sum_insert (fun t => bodies (code_of t)) _ id t t' Ht) as H. cbn in H. lia.
Qed.
Lemma work_task n σ id t t' : tasks σ !! id = Some t ->
  (work n (with_task id t' σ) + task_cost n t = work n σ + task_cost n t')%nat.
Proof.
  intros Ht. unfold work. cbn. pose proof (pool_sum_insert (task_cost n) _ id t t' Ht) as H. lia.
Qed.
Lemma code_of_wake t : code_of (wake t) = code_of t.
Proof. by destruct t. Qed.
Lemma threads_notify σ : threads (notify_all σ) = threads σ.
Proof.
  unfold threads. cbn. rewrite map_size_fmap. f_equal; [f_equal|by destruct (main σ)].
  induction (tasks σ) as [|id t m Hid IH] using map_ind; [by rewrite fmap_empty|].
  rewrite fmap_insert, !pool_sum_new by (by rewrite ?lookup_fmap, Hid). by rewrite IH, code_of_wake.
Qed.
Lemma work_notify n σ : (threads σ + 2 <= n)%nat -> (work n (notify_all σ) <= work n σ + n)%nat.
Proof.
  intros Hn. unfold work, threads in *. cbn.
  pose proof (pool_sum_fmap (task_cost n) wake 1 (tasks σ)) as H.
  specialize (H ltac:(intros [[]| | | |]; cbn; lia)).
  assert (main_cost n (wake_main (main σ)) <= main_cost n (main σ) + 2)%nat by (destruct (main σ) as [|[]|[]|]; cbn; lia).
  lia.
Qed.
Lemma spawn_fresh σ : shape σ -> tasks σ !! S (next_id σ) = None.
Proof.
  intros Hs. destruct (tasks σ !! S (next_id σ)) eqn:E; [|done].
  pose proof (s_ids σ Hs (S (next_id σ)) ltac:(by rewrite E)). lia.
Qed.
Lemma threads_spawn body σ : shape σ -> threads (kryos_coop_spawn body σ) = (threads σ + 1 + bodies body)%nat.
Proof.
  intros Hs%spawn_fresh. unfold threads. cbn. rewrite map_size_insert_None, pool_sum_new by done. cbn.
  lia.
Qed.
Lemma work_spawn n body σ : shape σ ->
  work n (kryos_coop_spawn body σ) = (work n σ + code_cost n body + 2 * n + 5)%nat.
Proof.
  intros Hs%spawn_fresh. unfold work. cbn. rewrite pool_sum_new, length_app by done. cbn.
  lia.
Qed.

(** A step: other changes, then the task's own. *)
Definition lighter (σ' σ : Exec) : Prop :=
  threads σ' = threads σ /\ forall n, (threads σ + 2 <= n)%nat -> (work n σ' < work n σ)%nat.
Lemma lighter_task σ σ1 id t t' :
  tasks σ1 !! id = Some t ->
  (threads σ1 + bodies (code_of t') = threads σ + bodies (code_of t))%nat ->
  (forall n, (threads σ + 2 <= n)%nat -> (work n σ1 + task_cost n t' < work n σ + task_cost n t)%nat) ->
  lighter (with_task id t' σ1) σ.
Proof.
  intros Ht Hb Hw. split.
  - pose proof (threads_task σ1 id t t' Ht). lia.
  - intros n Hn. pose proof (work_task n σ1 id t t' Ht). specialize (Hw n Hn). lia.
Qed.
Lemma lighter_notify σ σ1 id t t' k :
  tasks σ !! id = Some t -> tasks σ1 = tasks σ -> main σ1 = main σ ->
  ready σ1 = ready σ ++ k -> bodies (code_of t') = bodies (code_of t) ->
  (forall n, (threads σ + 2 <= n)%nat ->
    (n + n * length k + task_cost n t' < task_cost n (wake t))%nat) ->
  lighter (with_task id t' (notify_all σ1)) σ.
Proof.
  intros Ht H1 Hm Hq Hb Hw. assert (Hth : threads σ1 = threads σ) by (unfold threads; by rewrite H1, Hm).
  assert (Ht1 : tasks (notify_all σ1) !! id = Some (wake t)) by (cbn; by rewrite lookup_fmap, H1, Ht).
  split.
  - pose proof (threads_task _ id _ t' Ht1) as H. rewrite threads_notify, code_of_wake in H. lia.
  - intros n Hn. pose proof (work_task n _ id _ t' Ht1) as H. pose proof (work_notify n σ1) as H2.
    assert (H3 : work n σ1 = (work n σ + n * length k)%nat).
    { unfold work. rewrite H1, Hm, Hq, length_app. lia. }
    specialize (Hw n Hn). lia.
Qed.

Lemma task_step_work id t σ σ' :
  shape σ -> tasks σ !! id = Some t -> task_step id t σ = Some σ' -> lighter σ' σ.
Proof.
  intros Hs Ht. pose proof (s_fits σ Hs id t Ht) as Hfit.
  destruct t as [[] code|[|[tag| | |body] code]|code| |]; cbn [task_step]; intros [= <-].
  - apply (lighter_task _ _ _ _ _ Ht); destruct (decide _); cbn; lia.
  - apply (lighter_task σ _ id _ _ Ht); [done|]. intros n Hn. unfold work. cbn. lia.
  - apply (lighter_task σ _ id _ _ Ht); [done|]. intros n Hn. unfold work. cbn. lia.
  - unfold kryos_coop_yield. rewrite look_sleeps by done.
    eapply (lighter_notify σ _ id _ _ [id] Ht); [done..|]. intros n Hn. cbn. lia.
  - eapply (lighter_notify σ _ id _ _ [] Ht); [done|done|cbn; by rewrite app_nil_r|done|]. intros n Hn. cbn. lia.
  - assert (Hid : (id <= next_id σ)%nat) by (apply (s_ids σ Hs); by rewrite Ht).
    eapply (lighter_task σ); [cbn; rewrite lookup_insert_ne by lia; exact Ht| |].
    + rewrite threads_spawn by done. cbn. lia.
    + intros n Hn. rewrite work_spawn by done. cbn. lia.
  - unfold kryos_coop_io_end. rewrite look_sleeps by apply Hfit.
    eapply (lighter_notify σ _ id _ _ [id] Ht); [done..|]. intros n Hn. cbn. lia.
  - eapply (lighter_notify σ σ id _ _ [] Ht); [done|done|by rewrite app_nil_r|done|]. intros n Hn. cbn. lia.
Qed.

Lemma main_step_work σ σ' : shape σ -> main_step σ = Some σ' -> lighter σ' σ.
Proof.
  intros Hs. unfold main_step.
  destruct (main σ) as [[|[tag| | |body] code]|[]|[]|] eqn:Hm1; try done.
  - intros [= <-]. split; [|intros n Hn]; unfold threads, work; cbn; rewrite Hm1; cbn; lia.
  - intros [= <-]. split; [|intros n Hn]; unfold threads, work; cbn; rewrite Hm1; cbn; lia.
  - intros [= <-]. split; [|intros n Hn]; unfold threads, work; cbn; rewrite Hm1; cbn; lia.
  - intros [= <-]. split; [|intros n Hn]; unfold threads, work; cbn; rewrite Hm1; cbn; lia.
  - intros [= <-]. split; [pose proof (threads_spawn body σ Hs) as H|intros n Hn; pose proof (work_spawn n body σ Hs) as H];
      unfold threads, work in *; cbn [main kryos_coop_spawn with_main tasks ready] in *; rewrite Hm1 in *; cbn in *;
      lia.
  - destruct (ready σ) as [|id q] eqn:Hq; intros [= <-].
    + split; [|intros n Hn]; unfold threads, work; cbn; rewrite Hm1, ?Hq; destruct (Nat.eqb _ 0); cbn; lia.
    + set (σ1 := with_turn (Turn_Task id) (with_ready q σ)).
      assert (Hth : threads (notify_all σ1) = threads σ) by (by rewrite threads_notify).
      split; [unfold threads in Hth; cbn in Hth; rewrite Hm1 in Hth; unfold threads; cbn; by rewrite Hm1|].
      intros n Hn. unfold work. cbn. rewrite Hm1, Hq. cbn.
      pose proof (pool_sum_fmap (task_cost n) wake 1 (tasks σ) ltac:(intros [[]| | | |]; cbn; lia)) as H.
      unfold threads in Hn. lia.
  - intros [= <-]. split; [|intros n Hn]; unfold threads, work; cbn; rewrite Hm1; destruct (decide _); cbn; lia.
Qed.

(** [kryos_coop_run] has returned and every task has ended. *)
Definition completed (σ : Exec) : Prop :=
  main σ = M_done /\ forall id t, tasks σ !! id = Some t -> t = T_done.

Lemma moves_task σ id t σ' :
  tasks σ !! id = Some t -> task_step id t σ = Some σ' -> exists σ', moves next acts σ σ'.
Proof. intros Ht Hs. exists σ', (E_task id). split; [done|]. cbn. by rewrite Ht. Qed.

Lemma coop_progress σ : inv σ -> completed σ \/ exists σ', moves next acts σ σ'.
Proof.
  intros [Hs Ha]. pose proof (s_main σ Hs) as Hm.
  assert (Hmain : forall σ', main_step σ = Some σ' -> exists σ', moves next acts σ σ')
    by (intros σ' H; by exists σ', E_main).
  assert (Hnotify : forall id, tasks σ !! id = Some T_notify -> exists σ', moves next acts σ σ')
    by (intros id Hid; by eapply moves_task).
  unfold main_step in Hmain.
  destruct (main σ) as [[|[tag| | |body] code]|[]|[]|] eqn:Hm1; try (right; by eapply Hmain); cbn in Hm.
  - right. destruct (ready σ); by eapply Hmain.
  - (* no task is ready: one is away *)
    right. destruct (a_pick σ Ha Hm1) as [Hq Hl]. rewrite (s_live σ Hs) in Hl.
    destruct (pool_sum_pos (fun t => if alive t then 1 else 0)%nat (tasks σ)) as (id & t & Ht & Hal).
    { unfold pool_count in Hl. lia. }
    pose proof (s_fits σ Hs id t Ht) as Hf. rewrite Hq, Hm in Hf.
    destruct t as [aw code|code|code| |]; cbn in Hal, Hf; try lia.
    + destruct Hf as [_ Hf]. by apply not_elem_of_nil in Hf.
    + by destruct Hf.
    + by eapply moves_task.
  - (* the task that has the turn *)
    right. destruct (a_granted σ Ha Hm1) as [Htn|[id Hid]]; [|by eapply Hnotify].
    destruct (turn σ) as [|id] eqn:Ht; [done|]. destruct (s_exists σ Hs id) as [t Hid]; [by right|].
    pose proof (s_fits σ Hs id t Hid) as Hf. rewrite Ht in Hf.
    destruct t as [[] code|[|[tag| | |body] code]|code| |]; try (by eapply moves_task); try by destruct Hf.
    by destruct (a_task σ Ha id code Ht).
  - destruct Hm as (Ht & Hq & Hl). rewrite (s_live σ Hs) in Hl.
    set (f := fun t => if match t with T_notify => true | _ => false end then 1%nat else 0%nat).
    destruct (decide (pool_sum f (tasks σ) = 0%nat)) as [H0|Hpos].
    + left. split; [done|]. intros id t Hid. pose proof (pool_count_0 _ _ id t Hl Hid) as Hal.
      pose proof (pool_sum_le f _ id t Hid) as Hf. destruct t; try done. unfold f in *. lia.
    + right. destruct (pool_sum_pos f (tasks σ)) as (id & t & Hid & Hf); [lia|].
      apply (Hnotify id). destruct t; unfold f in Hf; try lia. done.
Qed.

(** C12: [kryos_coop_run] returns with every task at its end, whatever the schedule of the
    threads: no wake-up is lost, no task is forgotten in the queue or in a blocking
    operation, and tasks spawned by tasks end as well. *)
Theorem coop_run_completes σ : reachable σ -> inevitable next acts completed σ.
Proof.
  intros Hσ%coop_reachable_inv. eapply inevitable_mono;
    [|apply (inevitable_measure next acts (fun σ' => inv σ' /\ threads σ' = threads σ) completed (work (threads σ + 2)))].
  - by intros σ' [_ Hc].
  - intros σ1 σ2 [H1 Hth] (e & Hact & He).
    assert (Hl : lighter σ2 σ1).
    { destruct H1 as [Hs _]. destruct e as [|id| |]; try done; cbn in He; [by apply main_step_work|].
      destruct (tasks σ1 !! id) as [t|] eqn:Ht; [|done]. by eapply task_step_work. }
    destruct Hl as [Hth2 Hw]. split; [split; [by eapply coop_next_inv|congruence]|]. apply Hw. lia.
  - intros σ1 [H1 _]. by apply coop_progress.
  - done.
Qed.

(* ------------------------------------------------------------------ *)
(** ** The order in which tasks run                                    *)
(* ------------------------------------------------------------------ *)

(** The reference: a queue of tasks and the log.  The first task runs until it yields, and
    then goes to the end of the queue; a spawned task is put at the end of the queue. *)
Definition rr_step '((q, l) : list (list act) * list string) : option (list (list act) * list string) :=
  match q with
  | [] => None
  | [] :: q => Some (q, l)
  | (A_record tag :: code) :: q => Some (code :: q, l ++ [tag])
  | (A_spawn body :: code) :: q => Some (code :: q ++ [body], l)
  | (A_yield :: code) :: q | (A_io :: code) :: q => Some (q ++ [code], l)
  end.
Fixpoint round_robin (n : nat) (s : list (list act) * list string) : list string :=
  match n, rr_step s with S n, Some s' => round_robin n s' | _, _ => s.2 end.

Fixpoint act_size (a : act) : nat :=
  match a with A_spawn body => S (S (sum_list_with act_size body)) | _ => 1 end.
Definition rr_cost (q : list (list act)) : nat := sum_list_with (fun code => S (sum_list_with act_size code)) q.
Definition final (s : list (list act) * list string) : list string := round_robin (rr_cost s.1) s.

(** What the main thread spawns and records before [kryos_coop_run]. *)
Definition spawned (code : list act) : list (list act) :=
  omap (fun a => match a with A_spawn body => Some body | _ => None end) code.
Definition recorded (code : list act) : list string :=
  omap (fun a => match a with A_record tag => Some tag | _ => None end) code.

(** No blocking operation, whose length would decide on the order. *)
Fixpoint io_free_act (a : act) : bool :=
  match a with A_io => false | A_spawn body => forallb io_free_act body | _ => true end.
Abbreviation io_free := (forallb io_free_act).

Lemma rr_step_cost s s' : rr_step s = Some s' -> (rr_cost s'.1 < rr_cost s.1)%nat.
Proof.
  destruct s as [[|[|[tag| | |body] code] q] l]; cbn; intros [= <-]; unfold rr_cost; cbn;
    rewrite ?sum_list_with_app; cbn; lia.
Qed.
Lemma round_robin_fuel n m s :
  (rr_cost s.1 <= n)%nat -> (rr_cost s.1 <= m)%nat -> round_robin n s = round_robin m s.
Proof.
  revert m s. induction n as [|n IH]; intros m s Hn Hm.
  - destruct s as [[|code q] l]; [by destruct m|]. unfold rr_cost in Hn. cbn in Hn. lia.
  - destruct (rr_step s) as [s'|] eqn:Hs; [|cbn; rewrite Hs; destruct m; cbn; by rewrite ?Hs].
    pose proof (rr_step_cost s s' Hs). destruct m as [|m]; [lia|]. cbn. rewrite Hs. apply IH; lia.
Qed.
Lemma final_step s s' : rr_step s = Some s' -> final s' = final s.
Proof.
  intros Hs. pose proof (rr_step_cost s s' Hs) as Hc. unfold final.
  destruct (rr_cost s.1) as [|n] eqn:Hn; [lia|]. cbn. rewrite Hs. apply round_robin_fuel; lia.
Qed.

(** The state as the reference sees it. *)
Definition codes (m : gmap nat Task) (id : nat) : list act := from_option code_of [] (m !! id).
Definition holder (tn : Turn) : list nat := match tn with Turn_Task id => [id] | _ => [] end.
Definition view (σ : Exec) : list (list act) * list string :=
  (codes (tasks σ) <$> (holder (turn σ) ++ ready σ), log σ).
Definition expected (σ : Exec) : list string :=
  final ((view σ).1 ++ spawned (main_code (main σ)), (view σ).2 ++ recorded (main_code (main σ))).
Definition no_io (σ : Exec) : Prop :=
  (forall id t, tasks σ !! id = Some t -> io_free (code_of t) = true /\ forall code, t <> T_away code)
  /\ io_free (main_code (main σ)) = true.

Lemma codes_ne m id t id' : id' <> id -> codes (<[id:=t]> m) id' = codes m id'.
Proof. intros Hne. unfold codes. by rewrite lookup_insert_ne. Qed.
Lemma codes_eq m id t : codes (<[id:=t]> m) id = code_of t.
Proof. unfold codes. by rewrite lookup_insert_eq. Qed.
Lemma codes_same m id t t' : m !! id = Some t -> code_of t' = code_of t ->
  forall id', codes (<[id:=t']> m) id' = codes m id'.
Proof.
  intros Ht Hc id'. destruct (decide (id' = id)) as [->|]; [|by apply codes_ne].
  rewrite codes_eq. unfold codes. by rewrite Ht.
Qed.
Lemma codes_wake m id : codes (wake <$> m) id = codes m id.
Proof. unfold codes. rewrite lookup_fmap. destruct (m !! id) as [[]|]; done. Qed.
Lemma codes_rest m id t (q : list nat) : id ∉ q -> codes (<[id:=t]> m) <$> q = codes m <$> q.
Proof. intros Hq. apply list_fmap_ext. intros i id' Hi. apply codes_ne. intros ->. by apply list_elem_of_lookup_2 in Hi. Qed.

Lemma no_io_wake σ : no_io σ -> no_io (notify_all σ).
Proof.
  intros [H Hm]. split; cbn; [|by destruct (main σ)].
  intros id t. rewrite lookup_fmap. destruct (tasks σ !! id) as [t0|] eqn:Ht; [|done]. intros [= <-].
  destruct (H id t0 Ht) as [Hf Ha]. split; [by rewrite code_of_wake|]. intros code. by destruct t0.
Qed.
Lemma no_io_task σ σ' id t' :
  no_io σ -> tasks σ' = <[id:=t']> (tasks σ) -> main_code (main σ') = main_code (main σ) ->
  io_free (code_of t') = true -> (forall code, t' <> T_away code) -> no_io σ'.
Proof.
  intros [H Hm] Ht Hm' Hf Ha. split; [|by rewrite Hm'].
  intros id' t. rewrite Ht. destruct (decide (id' = id)) as [->|Hne].
  - rewrite lookup_insert_eq. by intros [= <-].
  - rewrite lookup_insert_ne by done. apply H.
Qed.

Lemma main_code_wake m : main_code (wake_main m) = main_code m.
Proof. by destruct m. Qed.
Lemma expected_nil σ : main_code (main σ) = [] -> expected σ = final (view σ).
Proof.
  intros Hm. unfold expected. rewrite Hm. change (spawned []) with (@nil (list act)).
  change (recorded []) with (@nil string). by rewrite !app_nil_r, <-surjective_pairing.
Qed.

(** The queue of a running task: its own code first. *)
Lemma view_running σ id code : shape σ -> tasks σ !! id = Some (T_run code) ->
  view σ = (code :: (codes (tasks σ) <$> ready σ), log σ).
Proof.
  intros Hs Ht. destruct (running_granted σ id _ Hs Ht) as (Htn & _ & _).
  unfold view. rewrite Htn. cbn. unfold codes at 1. by rewrite Ht.
Qed.
Lemma codes_wake_rest m (q : list nat) : codes (wake <$> m) <$> q = codes m <$> q.
Proof. apply list_fmap_ext. intros i id _. apply codes_wake. Qed.

Lemma task_step_view id t σ σ' :
  shape σ -> no_io σ -> tasks σ !! id = Some t -> task_step id t σ = Some σ' ->
  no_io σ' /\ expected σ' = expected σ.
Proof.
  intros Hs Hio Ht. destruct (proj1 Hio id t Ht) as [Hfree Haway]. pose proof (s_fits σ Hs id t Ht) as Hfit.
  assert (Hsame : forall σ1 t', tasks σ1 = <[id:=t']> (tasks σ) -> code_of t' = code_of t ->
      (forall code, t' <> T_away code) -> turn σ1 = turn σ -> ready σ1 = ready σ -> log σ1 = log σ ->
      main σ1 = main σ -> no_io σ1 /\ expected σ1 = expected σ).
  { intros σ1 t' H1 Hc Ha Htn Hq Hl Hm. split; [eapply no_io_task; try done; by rewrite ?Hm, ?Hc|].
    unfold expected, view. rewrite H1, Htn, Hq, Hl, Hm. do 3 f_equal.
    apply list_fmap_ext. intros i id' _. by apply (codes_same _ _ t). }
  destruct t as [[] code|code|code| |]; cbn [task_step]; try done; [|destruct (running_granted σ id _ Hs Ht) as (Htn & Hq & b & Hm)|..].
  - intros [= <-]. unfold look. destruct (decide _); by eapply Hsame.
  - pose proof (view_running σ id code Hs Ht) as Hv.
    assert (Hfin : forall σ1, no_io σ1 -> main_code (main σ1) = [] -> rr_step (view σ) = Some (view σ1) ->
      no_io σ1 /\ expected σ1 = expected σ).
    { intros σ1 H1 Hm1 Hr. split; [done|]. rewrite !expected_nil by (by rewrite ?Hm). by apply final_step. }
    destruct code as [|[tag| | |body] code]; cbn [task_step]; intros [= <-]; try done.
    + apply Hfin; [by eapply no_io_task|cbn; by rewrite Hm|]. rewrite Hv. unfold view. cbn. by rewrite codes_rest.
    + apply Hfin; [by eapply (no_io_task σ)|cbn; by rewrite Hm|]. rewrite Hv. unfold view. cbn.
      rewrite Htn. cbn. by rewrite codes_eq, codes_rest.
    + unfold kryos_coop_yield. rewrite look_sleeps by done.
      apply Hfin; [eapply (no_io_task (notify_all σ)); [by apply no_io_wake|done..]|cbn; by rewrite Hm|].
      rewrite Hv. unfold view. cbn. rewrite fmap_app, codes_rest by done. cbn. by rewrite codes_eq, codes_wake_rest.
    + cbn in Hfree. apply andb_true_iff in Hfree as [Hb Hc].
      pose proof (spawn_fresh σ Hs) as Hfr.
      assert (Hq2 : S (next_id σ) ∉ ready σ).
      { intros Hin. destruct (s_exists σ Hs (S (next_id σ))) as [? H]; [by left|congruence]. }
      apply Hfin; [eapply (no_io_task (kryos_coop_spawn body σ)); [by eapply (no_io_task σ)|done..]|cbn; by rewrite Hm|].
      rewrite Hv. unfold view. cbn. rewrite Htn. cbn.
      assert (Hne : id <> S (next_id σ)) by congruence.
      rewrite codes_eq, fmap_app, codes_rest, codes_rest by done. cbn. by rewrite codes_ne, codes_eq.
  - by destruct (Haway code).
  - intros [= <-]. apply no_io_wake in Hio as Hio1. split; [by eapply (no_io_task (notify_all σ))|].
    unfold expected, view. cbn [main with_task notify_all turn ready log tasks fst snd].
    rewrite main_code_wake. do 3 f_equal.
    apply list_fmap_ext. intros i id' _. rewrite (codes_same _ _ T_notify); [apply codes_wake| |done].
    by rewrite lookup_fmap, Ht.
Qed.

Lemma main_step_view σ σ' :
  shape σ -> no_io σ -> main_step σ = Some σ' -> no_io σ' /\ expected σ' = expected σ.
Proof.
  intros Hs [Hio Hmio]. pose proof (s_main σ Hs) as Htn. unfold main_step.
  assert (Hsame : forall m, main_code m = main_code (main σ) ->
      no_io (with_main m σ) /\ expected (with_main m σ) = expected σ).
  { intros m Hm. split; [split; [done|cbn; by rewrite Hm]|]. unfold expected, view. cbn. by rewrite Hm. }
  destruct (main σ) as [[|[tag| | |body] code]|[]|[]|] eqn:Hm1; try done; cbn in Htn.
  - intros [= <-]. by apply Hsame.
  - intros [= <-]. split; [by split|]. unfold expected, view. cbn. rewrite Hm1. cbn. by rewrite <-app_assoc.
  - intros [= <-]. split; [by split|]. unfold expected, view. cbn. by rewrite Hm1.
  - intros [= <-]. cbn in Hmio. apply andb_true_iff in Hmio as [Hb Hc].
    pose proof (spawn_fresh σ Hs) as Hfr.
    assert (Hq2 : S (next_id σ) ∉ ready σ).
    { intros Hin. destruct (s_exists σ Hs (S (next_id σ))) as [? H]; [by left|congruence]. }
    split.
    + split; [|done]. cbn. intros id t. destruct (decide (id = S (next_id σ))) as [->|Hne].
      * rewrite lookup_insert_eq. by intros [= <-].
      * rewrite lookup_insert_ne by done. apply Hio.
    + unfold expected, view. cbn. rewrite Hm1, Htn. cbn. rewrite fmap_app, codes_rest by done. cbn.
      by rewrite codes_eq, <-app_assoc.
  - destruct (ready σ) as [|id q] eqn:Hq; intros [= <-].
    + apply Hsame. by destruct (Nat.eqb _ 0).
    + destruct (no_io_wake σ) as [H1 _]; [split; [done|by rewrite Hm1]|]. split; [by split|].
      unfold expected, view. cbn. rewrite Hm1, Htn, Hq. cbn. rewrite codes_wake. by rewrite codes_wake_rest.
  - intros [= <-]. apply Hsame. by destruct (decide _).
Qed.

Lemma next_view e σ σ' :
  shape σ -> no_io σ -> next e σ = Some σ' -> no_io σ' /\ expected σ' = expected σ.
Proof.
  intros Hs Hio. destruct e as [|id| |id]; cbn [next].
  - by apply main_step_view.
  - destruct (tasks σ !! id) as [t|] eqn:Ht; [|done]. by apply task_step_view.
  - intros [= <-]. destruct Hio as [Ht Hm]. split; [split; [done|by cbn; rewrite main_code_wake]|].
    unfold expected, view. cbn. by rewrite main_code_wake.
  - destruct (tasks σ !! id) as [t|] eqn:Ht; [|done]. intros [= <-]. destruct (proj1 Hio id t Ht) as [Hf Ha].
    split; [apply (no_io_task σ _ id (wake t)); [done|done|done|by rewrite code_of_wake|intros code; by destruct t]|].
    unfold expected, view. cbn [with_task turn ready log main tasks fst snd]. do 3 f_equal.
    apply list_fmap_ext. intros i id' _. apply (codes_same _ _ t); [done|by apply code_of_wake].
Qed.

(** C13: without blocking operations the order log is that of the reference scheduler, which
    runs the tasks one after the other from yield to yield, whatever the schedule of the
    threads. *)
Theorem coop_order_is_round_robin code es σ :
  io_free code = true -> exec next es (sched code) = Some σ -> main σ = M_done ->
  log σ = final (spawned code, recorded code).
Proof.
  intros Hio He Hm.
  assert (Hall : inv σ /\ no_io σ /\ expected σ = final (spawned code, recorded code)).
  { revert He. apply (exec_invariant next (fun σ => inv σ /\ no_io σ /\ expected σ = final (spawned code, recorded code))).
    - intros e σ1 σ2 (Hi & Hn & Hx) H12. destruct (next_view e σ1 σ2) as [Hn2 Hx2]; [apply Hi|done|done|].
      split; [by eapply coop_next_inv|]. split; [done|congruence].
    - split; [apply sched_inv|]. done. }
  destruct Hall as ([Hs _] & _ & Hx). pose proof (s_main σ Hs) as Hmf. rewrite Hm in Hmf.
  destruct Hmf as (Htn & Hq & _). rewrite expected_nil in Hx by (by rewrite Hm).
  rewrite <-Hx. unfold view. rewrite Htn, Hq. done.
Qed.

(** After a complete run the executor can be reset for another one. *)
Lemma reset_inv code σ : inv σ -> completed σ -> inv (with_main (M_code code) (kryos_coop_reset σ)).
Proof.
  intros [Hs Ha] [Hm Hd]. pose proof (s_main σ Hs) as Hmf. rewrite Hm in Hmf. destruct Hmf as (Ht & Hq & Hl).
  split; split; cbn; try done.
  - intros id t Hid. rewrite (Hd id t Hid). split; [done|apply not_elem_of_nil].
  - intros id [Hin|[=]]. by apply not_elem_of_nil in Hin.
  - constructor.
  - by rewrite <-(s_live σ Hs), Hl.
  - apply (s_ids σ Hs).
Qed.

(* ------------------------------------------------------------------ *)
(** ** Examples                                                        *)
(* ------------------------------------------------------------------ *)

(** Two tasks that record and yield, as in the tests of the executor. *)
Definition worker (tag : string) : list act := [A_record tag; A_yield; A_record tag; A_yield; A_record tag].
Definition two_workers : list act := [A_spawn (worker "A"); A_spawn (worker "B")].
(** A schedule: the first of these events that is possible, [n] times. *)
Fixpoint schedule (n : nat) (prefer : list event) (σ : Exec) : list event :=
  match n, list_find (fun e => is_Some (next e σ)) prefer with
  | S n, Some (_, e) => match next e σ with Some σ' => e :: schedule n prefer σ' | None => [] end
  | _, _ => []
  end.
Definition late_main : list event :=
  schedule 100 [E_task 2; E_task 1; E_main] (sched two_workers).

Lemma one_task_runs_witness :
  exists σ, exec next [E_main; E_main; E_main; E_main; E_task 1] (sched two_workers) = Some σ
    /\ tasks σ !! 1%nat = Some (T_run (worker "A"))
    /\ turn σ = Turn_Task 1 /\ (exists b, main σ = M_granted b)
    /\ forall id code, tasks σ !! id = Some (T_run code) -> id = 1%nat.
Proof.
  eexists. split; [vm_compute; reflexivity|]. split; [vm_compute; reflexivity|].
  eapply one_task_runs; [|vm_compute; reflexivity].
  exists two_workers, [E_main; E_main; E_main; E_main; E_task 1]. vm_compute. reflexivity.
Defined.

Lemma coop_run_completes_witness : inevitable next acts completed (sched [A_spawn [A_io; A_yield]; A_spawn (worker "B")]).
Proof. apply coop_run_completes. exists [A_spawn [A_io; A_yield]; A_spawn (worker "B")], []. reflexivity. Defined.


Lemma coop_order_is_round_robin_witness :
  exists σ, exec next late_main (sched two_workers) = Some σ /\ main σ = M_done
    /\ log σ = final (spawned two_workers, recorded two_workers)
    /\ kryos_coop_order σ = "A B A B A B".
Proof.
  eexists. split; [vm_compute; reflexivity|]. split; [vm_compute; reflexivity|].
  split; [|vm_compute; reflexivity].
  apply (coop_order_is_round_robin two_workers late_main); vm_compute; reflexivity.
Defined.
