(* ===== verification/CapRow.v ===== *)
(** Capability rows of function types ([kryos-types/src/ty.rs], [CapBits] and
    [CapRow]): a set of capabilities as bits, with row variables that are still
    open, or an authority that can never be known. *)

From S2P Require Import Prelude Machine Utf8 Text Capability.

#[local] Open Scope Z_scope.

(* ------------------------------------------------------------------ *)
(** ** Bits                                                            *)
(* ------------------------------------------------------------------ *)

(** The [u32] of a [CapBits]. *)
Abbreviation CapBits := Z.

Definition bit_index (c : Capability) : Z := Z.of_nat (discriminant c).

(** [CapBits::from_capability] and the constants it gives. *)
Definition from_capability (cap : Capability) : CapBits := Z.shiftl 1 (bit_index cap).

Definition EMPTY : CapBits := 0.
Definition ALL : CapBits := from_capability All.

Definition union_of_bits (a b : CapBits) : CapBits := Z.lor a b.
Definition contains_bits (a required : CapBits) : bool := Z.land a required =? required.

(** The rows of [TABLE], in order. *)
Definition bit_table : list (CapBits * str) :=
  map (fun c => (from_capability c, cap_to_string c)) variants.

Definition names (b : CapBits) : list str :=
  map snd (List.filter (fun row => contains_bits b (fst row)) bit_table).

Definition denied_caps_used (denied : list str) (used : CapBits) : list str :=
  let have := foldl (fun s name =>
      match parse_capability name with Some c => insert_cap c s | None => s end) ∅ (names used) in
  List.filter (fun d =>
    match parse_capability d with Some dcap => satisfies_required have dcap | None => false end) denied.

(* ------------------------------------------------------------------ *)
(** ** Rows                                                            *)
(* ------------------------------------------------------------------ *)

Abbreviation CapVarId := N.

Inductive CapRow := Resolved (concrete : CapBits) (vars : list CapVarId) | Unknown.

#[export] Instance CapRow_eq_dec : EqDecision CapRow.
Proof. solve_decision. Defined.

Definition closed (bits : CapBits) : CapRow := Resolved bits [].
Definition empty_row : CapRow := closed EMPTY.
Definition var (v : CapVarId) : CapRow := Resolved EMPTY [v].

Definition is_unknown (r : CapRow) : bool := match r with Unknown => true | _ => false end.
Definition is_closed (r : CapRow) : bool := match r with Resolved _ [] => true | _ => false end.
Definition concrete_bits (r : CapRow) : CapBits := match r with Resolved b _ => b | Unknown => ALL end.
Definition var_ids (r : CapRow) : list CapVarId := match r with Resolved _ vs => vs | Unknown => [] end.

(** [sort_unstable] on ids *)
Definition sort_vars (vs : list CapVarId) : list CapVarId := merge_sort N.le vs.

Definition push_new (vs : list CapVarId) (v : CapVarId) : list CapVarId :=
  if bool_decide (v ∈ vs) then vs else vs ++ [v].

Definition union (a b : CapRow) : CapRow :=
  match a, b with
  | Unknown, _ | _, Unknown => Unknown
  | Resolved c1 v1, Resolved c2 v2 => Resolved (union_of_bits c1 c2) (sort_vars (foldl push_new v1 v2))
  end.

Definition union_bits (r : CapRow) (bits : CapBits) : CapRow :=
  match r with Unknown => Unknown | Resolved c vs => Resolved (union_of_bits c bits) vs end.

Definition with_vars_replaced (r : CapRow) (resolve : CapVarId -> option CapRow) : CapRow :=
  match r with
  | Unknown => Unknown
  | Resolved c vs =>
      foldl (fun out v => union out (default (var v) (resolve v))) (closed c) vs
  end.

Definition row_is_subset_of (r other : CapRow) : bool :=
  is_closed r && contains_bits (concrete_bits other) (concrete_bits r).

(* ------------------------------------------------------------------ *)
(** ** The invariant of rows                                           *)
(* ------------------------------------------------------------------ *)

(** [vars] is sorted and has no duplicates, and only the 15 bits are used. *)
Definition wf_row (r : CapRow) : Prop :=
  match r with
  | Resolved b vs => 0 <= b < 2 ^ 15 /\ Sorted N.lt vs
  | Unknown => True
  end.

Lemma Sorted_lt_NoDup vs : Sorted N.lt vs -> NoDup vs.
Proof.
  intros Hs%Sorted_StronglySorted; [|intros x y z; lia]. induction Hs as [|x vs _ IH Hx]; constructor; [|done].
  rewrite List.Forall_forall in Hx. intros Hin%list_elem_of_In. specialize (Hx _ Hin). lia.
Qed.

(** A sorted list of distinct ids is determined by its elements. *)
Lemma Sorted_lt_ext l1 l2 :
  Sorted N.lt l1 -> Sorted N.lt l2 -> (forall v, v ∈ l1 <-> v ∈ l2) -> l1 = l2.
Proof.
  assert (AntiSymm (=) N.lt) by (intros x y; lia). assert (Transitive N.lt) by (intros x y z; lia).
  intros H1 H2 He. apply (Sorted_unique N.lt); [done..|]. apply NoDup_Permutation; [by apply Sorted_lt_NoDup..|done].
Qed.

Lemma sort_vars_spec vs : NoDup vs -> Sorted N.lt (sort_vars vs) /\ forall v, v ∈ sort_vars vs <-> v ∈ vs.
Proof.
  intros Hnd. pose proof (merge_sort_Permutation N.le vs) as Hp. fold (sort_vars vs) in Hp. split.
  - assert (Hnd' : NoDup (sort_vars vs)) by (by rewrite Hp).
    assert (Hs : StronglySorted N.le (sort_vars vs)) by (apply StronglySorted_merge_sort; intros x y; lia || apply _).
    clear Hp. apply StronglySorted_Sorted. induction Hs as [|x l Hs IH Hx]; [constructor|].
    apply NoDup_cons in Hnd' as [Hxl Hnd']. constructor; [by apply IH|].
    rewrite List.Forall_forall in Hx |- *. intros y Hy. specialize (Hx y Hy).
    assert (x <> y) by (intros ->; by apply Hxl, list_elem_of_In). lia.
  - intros v. by rewrite Hp.
Qed.

Lemma foldl_push_new v1 v2 : NoDup v1 ->
  NoDup (foldl push_new v1 v2) /\ forall v, v ∈ foldl push_new v1 v2 <-> v ∈ v1 \/ v ∈ v2.
Proof.
  revert v1. induction v2 as [|x v2 IH]; intros v1 Hnd; cbn.
  { split; [done|]. intros v. rewrite elem_of_nil. tauto. }
  assert (Hpush : NoDup (push_new v1 x) /\ forall v, v ∈ push_new v1 x <-> v ∈ v1 \/ v = x).
  { unfold push_new. case_bool_decide; [split; [done|]; intros v; split; [by left|by intros [?| ->]]|].
    split; [apply NoDup_app; split_and!; [done| |apply NoDup_singleton]; set_solver|set_solver]. }
  destruct Hpush as [Hnd' Hin]. destruct (IH _ Hnd') as [? Hf]. split; [done|].
  intros v. rewrite Hf, Hin, elem_of_cons. tauto.
Qed.

Lemma union_vars v1 v2 : Sorted N.lt v1 ->
  Sorted N.lt (sort_vars (foldl push_new v1 v2))
  /\ forall v, v ∈ sort_vars (foldl push_new v1 v2) <-> v ∈ v1 \/ v ∈ v2.
Proof.
  intros Hs. destruct (foldl_push_new v1 v2 (Sorted_lt_NoDup _ Hs)) as [Hnd Hin].
  destruct (sort_vars_spec _ Hnd) as [? Hin']. split; [done|]. intros v. by rewrite Hin'.
Qed.

(* ------------------------------------------------------------------ *)
(** ** What a row grants                                               *)
(* ------------------------------------------------------------------ *)

Definition granted (b : CapBits) (c : Capability) : Prop := Z.testbit b (bit_index c) = true.

(** The capabilities a row stands for, given those of its open variables. *)
Definition grants (ρ : CapVarId -> Capability -> Prop) (r : CapRow) (c : Capability) : Prop :=
  match r with
  | Unknown => True
  | Resolved b vs => granted b c \/ exists v, v ∈ vs /\ ρ v c
  end.

Lemma bit_index_inj c d : bit_index c = bit_index d -> c = d.
Proof. by destruct c, d. Qed.

Lemma bit_index_range c : 0 <= bit_index c < 15.
Proof. by destruct c. Qed.

Lemma granted_union a b c : granted (union_of_bits a b) c <-> granted a c \/ granted b c.
Proof. unfold granted, union_of_bits. by rewrite Z.lor_spec, orb_true_iff. Qed.

Lemma granted_EMPTY c : ~ granted EMPTY c.
Proof. unfold granted, EMPTY. by rewrite Z.bits_0. Qed.

Lemma contains_bits_granted b c : contains_bits b (from_capability c) = true <-> granted b c.
Proof.
  unfold contains_bits, granted, from_capability. rewrite Z.eqb_eq. pose proof (bit_index_range c) as Hc.
  split.
  - intros He. apply (f_equal (fun z => Z.testbit z (bit_index c))) in He.
    rewrite Z.land_spec, Z.shiftl_spec, Z.sub_diag in He by lia. cbn in He. by destruct (Z.testbit b _).
  - intros Hb. apply Z.bits_inj'. intros n Hn. rewrite Z.land_spec, Z.shiftl_spec by lia.
    destruct (Z.eq_dec n (bit_index c)) as [->|Hne]; [by rewrite Hb|].
    assert (Hz : Z.testbit 1 (n - bit_index c) = false).
    { destruct (Z_lt_le_dec (n - bit_index c) 0); [by apply Z.testbit_neg_r|].
      change 1 with (2 ^ 0). apply Z.pow2_bits_false. lia. }
    by rewrite Hz, andb_false_r.
Qed.

Lemma bits_ext a b :
  0 <= a < 2 ^ 15 -> 0 <= b < 2 ^ 15 -> (forall c, granted a c <-> granted b c) -> a = b.
Proof.
  intros Ha Hb He. apply Z.bits_inj'. intros n Hn. destruct (Z_lt_le_dec n 15) as [Hlt|Hge].
  - assert (Hc : exists c, bit_index c = n).
    { assert (Hin : n ∈ seqZ 0 15) by (apply elem_of_seqZ; lia).
      change (seqZ 0 15) with (bit_index <$> variants) in Hin.
      apply list_elem_of_fmap in Hin as (c & -> & _). by exists c. }
    destruct Hc as [c <-]. apply eq_true_iff_eq, (He c).
  - assert (Hhi : forall z, 0 <= z < 2 ^ 15 -> Z.testbit z n = false).
    { intros z Hz. rewrite <-(Z.mod_small z (2 ^ 15)) by done. by apply Z.mod_pow2_bits_high. }
    by rewrite !Hhi.
Qed.

Lemma union_of_bits_range a b : 0 <= a < 2 ^ 15 -> 0 <= b < 2 ^ 15 -> 0 <= union_of_bits a b < 2 ^ 15.
Proof.
  intros Ha Hb. unfold union_of_bits. split; [apply Z.lor_nonneg; lia|].
  assert (Hz : Z.lor a b = Z.lor a b mod 2 ^ 15); [|rewrite Hz; by apply Z.mod_pos_bound].
  apply Z.bits_inj'. intros n Hn. destruct (Z_lt_le_dec n 15).
  - by rewrite Z.mod_pow2_bits_low.
  - rewrite Z.mod_pow2_bits_high by lia. rewrite Z.lor_spec.
    rewrite <-(Z.mod_small a (2 ^ 15)), <-(Z.mod_small b (2 ^ 15)) by done.
    by rewrite !Z.mod_pow2_bits_high by lia.
Qed.

(** A well-formed row is determined by its bits and the set of its variables. *)
Lemma row_ext b1 v1 b2 v2 :
  wf_row (Resolved b1 v1) -> wf_row (Resolved b2 v2) ->
  (forall c, granted b1 c <-> granted b2 c) -> (forall v, v ∈ v1 <-> v ∈ v2) ->
  Resolved b1 v1 = Resolved b2 v2.
Proof.
  intros [Hb1 Hv1] [Hb2 Hv2] Hb Hv. f_equal; [by apply bits_ext|by apply Sorted_lt_ext].
Qed.

Lemma wf_closed bits : 0 <= bits < 2 ^ 15 -> wf_row (closed bits).
Proof. intros. split; [done|constructor]. Qed.

Lemma wf_var v : wf_row (var v).
Proof. split; [unfold EMPTY; lia|by repeat constructor]. Qed.

Lemma wf_union a b : wf_row a -> wf_row b -> wf_row (union a b).
Proof.
  destruct a as [b1 v1|], b as [b2 v2|]; cbn; try done. intros [Hb1 Hv1] [Hb2 Hv2].
  split; [by apply union_of_bits_range|by apply union_vars].
Qed.

Lemma union_Unknown a b : union a b = Unknown <-> a = Unknown \/ b = Unknown.
Proof. destruct a, b; cbn; split; try done; (by left) || (by right) || by intros [?|?]. Qed.

(** What the union of two well-formed rows mentions. *)
Lemma union_Resolved b1 v1 b2 v2 : wf_row (Resolved b1 v1) ->
  exists vs, union (Resolved b1 v1) (Resolved b2 v2) = Resolved (union_of_bits b1 b2) vs
    /\ forall v, v ∈ vs <-> v ∈ v1 \/ v ∈ v2.
Proof. intros [_ Hs]. eexists. split; [done|]. by apply union_vars. Qed.

Lemma grants_union ρ a b c : wf_row a -> grants ρ (union a b) c <-> grants ρ a c \/ grants ρ b c.
Proof.
  destruct a as [b1 v1|], b as [b2 v2|]; cbn [union grants]; [|split; (by right) || done|split; (by left) || done|].
  - intros Wa. destruct (union_Resolved b1 v1 b2 v2 Wa) as (vs & [= <-] & Hvs).
    rewrite granted_union. setoid_rewrite Hvs. split.
    + intros [[?|?]|(v & [?|?] & ?)]; eauto 6.
    + intros [[?|(v & ? & ?)]|[?|(v & ? & ?)]]; eauto 6.
  - split; [by left|done].
Qed.

Lemma union_comm a b : wf_row a -> wf_row b -> union a b = union b a.
Proof.
  destruct a as [b1 v1|], b as [b2 v2|]; try done. intros Wa Wb.
  pose proof (wf_union _ _ Wa Wb) as W1. pose proof (wf_union _ _ Wb Wa) as W2.
  destruct (union_Resolved b1 v1 b2 v2 Wa) as (vs & E1 & H1), (union_Resolved b2 v2 b1 v1 Wb) as (ws & E2 & H2).
  rewrite E1, E2 in *. apply row_ext; [done..| |].
  - intros c. rewrite !granted_union. apply or_comm.
  - intros v. rewrite H1, H2. apply or_comm.
Qed.

Lemma union_assoc a b c : wf_row a -> wf_row b -> wf_row c ->
  union a (union b c) = union (union a b) c.
Proof.
  destruct a as [b1 v1|], b as [b2 v2|], c as [b3 v3|]; try done. intros Wa Wb Wc.
  pose proof (wf_union _ _ Wa Wb) as Wab. pose proof (wf_union _ _ Wb Wc) as Wbc.
  pose proof (wf_union _ _ Wa Wbc) as W1. pose proof (wf_union _ _ Wab Wc) as W2.
  destruct (union_Resolved b1 v1 b2 v2 Wa) as (ab & E1 & H1), (union_Resolved b2 v2 b3 v3 Wb) as (bc & E2 & H2).
  rewrite E1, E2 in *.
  destruct (union_Resolved b1 v1 (union_of_bits b2 b3) bc Wa) as (l & E3 & H3), (union_Resolved (union_of_bits b1 b2) ab b3 v3 Wab) as (r & E4 & H4).
  rewrite E3, E4 in *. apply row_ext; [done..| |].
  - intros d. rewrite !granted_union. apply or_assoc.
  - intros v. rewrite H3, H2, H4, H1. apply or_assoc.
Qed.

Lemma wf_empty_row : wf_row empty_row.
Proof. apply wf_closed. unfold EMPTY. lia. Qed.

Lemma union_idem a : wf_row a -> union a a = a.
Proof.
  destruct a as [b v|]; [|done]. intros W. pose proof (wf_union _ _ W W) as W'.
  destruct (union_Resolved b v b v W) as (vs & E & H). rewrite E in *. apply row_ext; [done..| |].
  - intros c. rewrite granted_union. split; [by intros [|]|by left].
  - intros x. rewrite H. split; [by intros [|]|by left].
Qed.

Lemma union_empty a : wf_row a -> union empty_row a = a.
Proof.
  destruct a as [b v|]; [|done]. intros W. pose proof (wf_union _ _ wf_empty_row W) as W'.
  unfold empty_row, closed in *. destruct (union_Resolved EMPTY [] b v wf_empty_row) as (vs & E & H).
  rewrite E in *. apply row_ext; [done..| |].
  - intros c. rewrite granted_union. split; [intros [?%granted_EMPTY|]; done|by right].
  - intros x. rewrite H, elem_of_nil. split; [by intros [|]|by right].
Qed.

(** union of rows is associative, commutative and idempotent, with the empty
    row neutral and [Unknown] absorbing; it keeps rows well formed and grants
    what its parts grant.  So a row that is unioned with anything unknown stays
    unknown, and derived equality of rows is equality of what they mention. *)
Lemma union_semilattice a b c :
  wf_row a -> wf_row b -> wf_row c ->
  wf_row (union a b) /\ union a b = union b a /\ union a (union b c) = union (union a b) c
  /\ union a a = a /\ union empty_row a = a /\ union Unknown a = Unknown /\ union a Unknown = Unknown
  /\ forall ρ d, grants ρ (union a b) d <-> grants ρ a d \/ grants ρ b d.
Proof.
  intros Wa Wb Wc. split; [by apply wf_union|]. repeat apply conj; [..|by intros ρ d; apply grants_union].
  - by apply union_comm.
  - by apply union_assoc.
  - by apply union_idem.
  - by apply union_empty.
  - done.
  - by destruct a.
Qed.

Lemma union_semilattice_witness :
  union (Resolved 5 [1; 4]%N) (union (Resolved 3 [2; 4]%N) Unknown) = Unknown
  /\ union (Resolved 5 [1; 4]%N) (Resolved 3 [2; 4]%N) = union (Resolved 3 [2; 4]%N) (Resolved 5 [1; 4]%N)
  /\ union (Resolved 5 [1; 4]%N) (Resolved 3 [2; 4]%N) = Resolved 7 [1; 2; 4]%N.
Proof.
  split_and!; [reflexivity| |vm_compute; reflexivity].
  apply (union_semilattice (Resolved 5 [1; 4]%N) (Resolved 3 [2; 4]%N) Unknown); split; try lia;
    repeat constructor; lia.
Defined.

Lemma parse_display c : parse_capability (cap_to_string c) = Some c.
Proof. destruct c; vm_compute; reflexivity. Qed.

Lemma elem_of_names b n : n ∈ names b <-> exists c, n = cap_to_string c /\ granted b c.
Proof.
  unfold names, bit_table. rewrite list_elem_of_In, in_map_iff. setoid_rewrite filter_In.
  setoid_rewrite in_map_iff. split.
  - intros ([x y] & <- & (c & [= <- <-] & _) & Hc). exists c. split; [done|].
    by apply contains_bits_granted.
  - intros (c & -> & Hc). exists (from_capability c, cap_to_string c). split; [done|].
    split; [|by apply contains_bits_granted]. exists c. split; [done|]. destruct c; cbn; tauto.
Qed.

Lemma have_spec l s c :
  c ∈ foldl (fun s name => match parse_capability name with Some c => insert_cap c s | None => s end) s l
  <-> c ∈ s \/ exists n, n ∈ l /\ parse_capability n = Some c.
Proof.
  revert s. induction l as [|n l IH]; intros s; cbn [foldl].
  { split; [by left|]. intros [?|(n & Hn & _)]; [done|]. by apply elem_of_nil in Hn. }
  rewrite IH. setoid_rewrite elem_of_cons. destruct (parse_capability n) as [d|] eqn:Hn.
  - unfold insert_cap. rewrite elem_of_union, elem_of_singleton. split.
    + intros [[->|?]|(k & ? & ?)]; [right; exists n; by split; [left|]|by left|right; exists k; by split; [right|]].
    + intros [?|(k & [->|?] & Hk)]; [by left; right|left; left; congruence|right; by exists k].
  - split.
    + intros [?|(k & ? & ?)]; [by left|right; exists k; by split; [right|]].
    + intros [?|(k & [->|?] & Hk)]; [by left|congruence|right; by exists k].
Qed.

(** a [deny!] verdict reports exactly the denied names, as written, that name
    a capability the inferred authority includes by the lattice of
    [Capability.satisfies]; in particular a row that erased to [ALL] because it
    is unknown violates every denial that names a capability. *)
Lemma denied_caps_used_spec denied used d :
  (d ∈ denied_caps_used denied used <->
    d ∈ denied /\ exists dcap c, parse_capability d = Some dcap /\ granted used c /\ satisfies c dcap = true)
  /\ (denied_caps_used denied (concrete_bits Unknown)
      = List.filter (fun d => bool_decide (is_Some (parse_capability d))) denied).
Proof.
  assert (Hspec : forall used d, d ∈ denied_caps_used denied used <->
    d ∈ denied /\ exists dcap c, parse_capability d = Some dcap /\ granted used c /\ satisfies c dcap = true).
  { clear. intros used d. unfold denied_caps_used. rewrite !list_elem_of_In, filter_In.
    split; intros [Hin Hd]; (split; [done|]).
    - destruct (parse_capability d) as [dcap|]; [|done]. exists dcap.
      apply satisfies_required_spec in Hd as (c & Hc & Hs). exists c. split; [done|]. split; [|done].
      apply have_spec in Hc as [Hc|(n & Hn & Hp)]; [set_solver|].
      apply elem_of_names in Hn as (c' & -> & Hg). rewrite parse_display in Hp. by injection Hp as ->.
    - destruct Hd as (dcap & c & -> & Hg & Hs). apply satisfies_required_spec. exists c. split; [|done].
      apply have_spec. right. exists (cap_to_string c). split; [|apply parse_display].
      apply elem_of_names. by exists c. }
  split; [apply Hspec|]. unfold denied_caps_used. apply List.filter_ext_in. intros x Hx%list_elem_of_In.
  destruct (parse_capability x) as [dcap|] eqn:Hp; [|done].
  rewrite bool_decide_true by by eexists. apply satisfies_required_spec. exists All. split; [|by destruct dcap].
  apply have_spec. right. exists (cap_to_string All). split; [|apply parse_display].
  apply elem_of_names. by exists All.
Qed.
