(* ===== verification/CapCycles.v ===== *)
(** The variables that lie on a cycle of the row substitution
    ([kryos-types/src/infer.rs], [cap_cycle_nodes]): Tarjan's algorithm with an
    explicit stack of frames.

    The main result is that the loop ends and computes exactly those variables,
    whatever the iteration order of the hash map ([cycle_nodes_spec]). *)

From stdpp Require Import relations.
From S2P Require Import Prelude CapRow.

#[local] Open Scope N_scope.

Section Cycles.
(** [self.cap_substitutions] *)
Context (subst : gmap CapVarId CapRow).

Definition succs (n : CapVarId) : list CapVarId :=
  match subst !! n with Some (Resolved _ vars) => vars | _ => [] end.

(** The local variables of [cap_cycle_nodes]; the top of [scc_stack] is its head. *)
Record Tarjan := mkTarjan {
  t_index : gmap CapVarId N; t_low : gmap CapVarId N; on_stack : gset CapVarId;
  scc_stack : list CapVarId; next_index : N; t_out : gset CapVarId
}.

Definition discover (t : Tarjan) (w : CapVarId) : Tarjan :=
  mkTarjan (<[w := next_index t]> (t_index t)) (<[w := next_index t]> (t_low t)) ({[w]} ∪ on_stack t)
    (w :: scc_stack t) (next_index t + 1) (t_out t).

Definition lower (t : Tarjan) (n : CapVarId) (cand : N) : res Tarjan :=
  cur ← of_option (t_low t !! n);
  Done (mkTarjan (t_index t) (<[n := N.min cur cand]> (t_low t)) (on_stack t) (scc_stack t)
          (next_index t) (t_out t)).

(** [while let Some(w) = scc_stack.pop()], up to [n]. *)
Fixpoint pop_component (n : CapVarId) (stack : list CapVarId) (on : gset CapVarId) (comp : list CapVarId)
  : list CapVarId * gset CapVarId * list CapVarId :=
  match stack with
  | [] => ([], on, comp)
  | w :: stack =>
      if w =? n then (stack, on ∖ {[w]}, comp ++ [w])
      else pop_component n stack (on ∖ {[w]}) (comp ++ [w])
  end.

(** A finished node: its component is taken off the stack when it is the root. *)
Definition finish (t : Tarjan) (n : CapVarId) : res Tarjan :=
  low_n ← of_option (t_low t !! n);
  index_n ← of_option (t_index t !! n);
  if low_n =? index_n then
    let '(stack, on, comp) := pop_component n (scc_stack t) (on_stack t) [] in
    let out :=
      if (1 <? length comp)%nat then list_to_set comp ∪ t_out t
      else if bool_decide (n ∈ succs n) then {[n]} ∪ t_out t else t_out t in
    Done (mkTarjan (t_index t) (t_low t) on stack (next_index t) out)
  else Done t.

(** The [else] branch of the loop: [finish], and the update of the parent's link. *)
Definition leave (n : CapVarId) (rest : list (CapVarId * nat)) (t : Tarjan) : res Tarjan :=
  t ← finish t n;
  match rest with
  | (parent, _) :: _ => low_n ← of_option (t_low t !! n); lower t parent low_n
  | [] => Done t
  end.

(** [while let Some((n, ci)) = frames.pop()] *)
Fixpoint frames_loop (fuel : nat) (frames : list (CapVarId * nat)) (t : Tarjan) : res Tarjan :=
  match frames with
  | [] => Done t
  | (n, ci) :: rest =>
      match fuel with
      | O => OutOfFuel
      | S fuel =>
          match succs n !! ci with
          | Some w =>
              let frames := (n, S ci) :: rest in
              match t_index t !! w with
              | None => frames_loop fuel ((w, O) :: frames) (discover t w)
              | Some index_w =>
                  if bool_decide (w ∈ on_stack t) then
                    t ← lower t n index_w; frames_loop fuel frames t
                  else frames_loop fuel frames t
              end
          | None =>
              t ← leave n rest t; frames_loop fuel rest t
          end
      end
  end.

(** [for &root in self.cap_substitutions.keys()] *)
Fixpoint roots_loop (fuel : nat) (roots : list CapVarId) (t : Tarjan) : res Tarjan :=
  match roots with
  | [] => Done t
  | root :: roots =>
      match t_index t !! root with
      | Some _ => roots_loop fuel roots t
      | None =>
          t ← frames_loop fuel [(root, O)] (discover t root);
          roots_loop fuel roots t
      end
  end.

Definition empty_tarjan : Tarjan := mkTarjan ∅ ∅ ∅ [] 0 ∅.

(** Every variable that is bound or mentioned, and the steps its frames can take. *)
Definition universe : gset CapVarId :=
  dom subst ∪ ⋃ (map (fun n => list_to_set (succs n)) (elements (dom subst))).

Definition node_cost (n : CapVarId) : nat := S (S (length (succs n))).
Definition set_cost (X : gset CapVarId) : nat := sum_list (map node_cost (elements X)).
Definition cycle_fuel : nat := set_cost universe.

(** [roots] is the order in which the hash map gives its keys. *)
Definition cap_cycle_nodes (roots : list CapVarId) : res (gset CapVarId) :=
  t ← roots_loop cycle_fuel roots empty_tarjan; Done (t_out t).

(* ------------------------------------------------------------------ *)
(** ** The graph                                                       *)
(* ------------------------------------------------------------------ *)

Definition edge (n w : CapVarId) : Prop := w ∈ succs n.
Definition reaches : CapVarId -> CapVarId -> Prop := rtc edge.
Definition on_cycle (n : CapVarId) : Prop := tc edge n n.

Lemma reaches_edge x y z : reaches x y -> edge y z -> reaches x z.
Proof. intros Hr He. eapply rtc_r; [apply Hr|apply He]. Qed.

Lemma reaches_tc x y : reaches x y -> x <> y -> tc edge x y.
Proof. intros Hr Hne. by destruct (proj1 (rtc_tc x y) Hr) as [?|?]. Qed.

Lemma tc_inv_rtc x z : tc edge x z -> exists y, edge x y /\ reaches y z.
Proof.
  intros Hc. inversion Hc as [? ? He|? y ? He Hyz]; subst.
  - exists z. split; [done|apply rtc_refl].
  - exists y. split; [done|by apply tc_rtc].
Qed.

(* ------------------------------------------------------------------ *)
(** ** The invariant of the algorithm                                  *)
(* ------------------------------------------------------------------ *)

Definition ix (t : Tarjan) (x : CapVarId) : N := default 0 (t_index t !! x).
Definition lw (t : Tarjan) (x : CapVarId) : N := default 0 (t_low t !! x).
Definition visited (t : Tarjan) (x : CapVarId) : Prop := is_Some (t_index t !! x).
(** The nodes whose component is known. *)
Definition settled (t : Tarjan) (x : CapVarId) : Prop := visited t x /\ x ∉ scc_stack t.

(** An edge the algorithm has looked at. *)
Definition explored (frames : list (CapVarId * nat)) (x y : CapVarId) : Prop :=
  ((x ∉ frames.*1) /\ edge x y) \/ exists c, (x, c) ∈ frames /\ y ∈ take c (succs x).

(** The last open frame entered no later than [x]. *)
Definition guard_of (t : Tarjan) (frames : list (CapVarId * nat)) (x f : CapVarId) : Prop :=
  f ∈ frames.*1 /\ ix t f <= ix t x /\ forall g, g ∈ frames.*1 -> ix t g <= ix t x -> ix t g <= ix t f.

(** Frames are nested calls: each was entered through an edge of the next. *)
Fixpoint chained (frames : list (CapVarId * nat)) : Prop :=
  match frames with
  | (w, _) :: (((n, _) :: _) as rest) => edge n w /\ chained rest
  | _ => True
  end.

Record inv (frames : list (CapVarId * nat)) (t : Tarjan) : Prop := mkInv {
  i_on : forall x, x ∈ on_stack t <-> x ∈ scc_stack t;
  i_visited : forall x, x ∈ scc_stack t -> visited t x;
  i_next : forall x, visited t x -> ix t x < next_index t;
  i_sorted : StronglySorted (fun x y => ix t y < ix t x) (scc_stack t);
  i_low_def : forall x, x ∈ scc_stack t -> is_Some (t_low t !! x);
  i_gray : forall f, f ∈ frames.*1 -> f ∈ scc_stack t;
  i_frames : StronglySorted (fun x y => ix t y < ix t x) frames.*1;
  i_chain : chained frames;
  i_bound : forall f c, (f, c) ∈ frames -> (c <= length (succs f))%nat;
  i_low_le : forall f, f ∈ frames.*1 -> lw t f <= ix t f;
  i_low_sound : forall f, f ∈ frames.*1 -> exists y, y ∈ scc_stack t /\ reaches f y /\ ix t y = lw t f;
  i_back : forall x, x ∈ scc_stack t -> exists f, f ∈ frames.*1 /\ ix t f <= ix t x /\ reaches x f;
  i_forth : forall f x, f ∈ frames.*1 -> x ∈ scc_stack t -> ix t f <= ix t x -> reaches f x;
  i_explored : forall x y, x ∈ scc_stack t -> explored frames x y -> visited t y;
  i_low_complete : forall x y f, x ∈ scc_stack t -> y ∈ scc_stack t -> explored frames x y ->
    guard_of t frames x f -> lw t f <= ix t y;
  i_settled : forall x y, settled t x -> edge x y -> settled t y;
  i_out : forall x, x ∈ t_out t <-> settled t x /\ on_cycle x
}.

(* ------------------------------------------------------------------ *)
(** ** Entering a node                                                 *)
(* ------------------------------------------------------------------ *)

Lemma StronglySorted_impl_in {A} (R1 R2 : A -> A -> Prop) l :
  StronglySorted R1 l -> (forall x y, x ∈ l -> y ∈ l -> R1 x y -> R2 x y) -> StronglySorted R2 l.
Proof.
  induction 1 as [|x l Hl IH Hx]; intros HR; constructor.
  - apply IH. intros. apply HR; [by right..|done].
  - rewrite List.Forall_forall in *. intros y Hy. apply HR; [by left|right; by apply list_elem_of_In|by apply Hx].
Qed.

Lemma not_visited_empty x : ~ visited empty_tarjan x.
Proof. intros [i Hi]. cbn in Hi. by rewrite lookup_empty in Hi. Qed.

Lemma tarjan_inv_empty : inv [] empty_tarjan.
Proof.
  pose proof not_visited_empty as Hv. split; cbn; try (by constructor); try set_solver.
  - intros x y [Hx _]. by destruct (Hv x).
  - intros x. split; [set_solver|]. intros [[Hx _] _]. by destruct (Hv x).
Qed.

Lemma settled_reaches frames t x y : inv frames t -> settled t x -> reaches x y -> settled t y.
Proof. intros HI Hx Hr. induction Hr as [|x y z Hxy _ IH]; [done|]. apply IH. by eapply i_settled. Qed.

Section Discover.
Context (frames frames' : list (CapVarId * nat)) (t : Tarjan) (w : CapVarId).
Context (HI : inv frames t) (Hw : t_index t !! w = None) (Hsame : frames'.*1 = frames.*1).
Context (Hexp : forall x y, explored frames' x y ->
  explored frames x y \/ (y = w /\ exists rest, frames.*1 = x :: rest)).
Context (Hbound : forall f c, (f, c) ∈ frames' -> (c <= length (succs f))%nat).
Context (Hchain : chained ((w, O) :: frames')).

Let t' := discover t w.

Lemma discover_ne x : visited t x -> x <> w.
Proof. intros [i Hi] ->. congruence. Qed.

Lemma discover_ix x : ix t' x = if decide (x = w) then next_index t else ix t x.
Proof.
  unfold ix, t'. cbn. destruct (decide (x = w)) as [->|Hne]; [by rewrite lookup_insert_eq|].
  by rewrite lookup_insert_ne.
Qed.

Lemma discover_lw x : lw t' x = if decide (x = w) then next_index t else lw t x.
Proof.
  unfold lw, t'. cbn. destruct (decide (x = w)) as [->|Hne]; [by rewrite lookup_insert_eq|].
  by rewrite lookup_insert_ne.
Qed.

Lemma discover_ix_old x : visited t x -> ix t' x = ix t x.
Proof. intros Hx. rewrite discover_ix, decide_False; [done|by apply discover_ne]. Qed.

Lemma discover_ix_new : ix t' w = next_index t.
Proof. by rewrite discover_ix, decide_True. Qed.

Lemma discover_visited x : visited t' x <-> x = w \/ visited t x.
Proof.
  unfold visited, t'. cbn. destruct (decide (x = w)) as [->|Hne].
  - rewrite lookup_insert_eq. split; [by left|]. intros _. by eexists.
  - rewrite lookup_insert_ne by done. split; [by right|by intros [?|?]].
Qed.

Lemma discover_stack_visited x : x ∈ scc_stack t -> visited t x.
Proof. apply (i_visited _ _ HI). Qed.

Lemma discover_gray_visited x : x ∈ frames'.*1 -> visited t x.
Proof. rewrite Hsame. intros Hx. by apply (i_visited _ _ HI), (i_gray _ _ HI). Qed.

Lemma discover_lt x : visited t x -> ix t' x < ix t' w.
Proof. intros Hx. rewrite discover_ix_new, discover_ix_old by done. by apply (i_next _ _ HI). Qed.

Lemma discover_settled x : settled t' x <-> settled t x.
Proof.
  unfold settled. rewrite discover_visited. cbn. rewrite elem_of_cons. split.
  - intros [[->|?] Hno]; [destruct Hno; by left|split; [done|]; intros ?; apply Hno; by right].
  - intros [Hv Hno]. split; [by right|]. intros [->|?]; [by apply (discover_ne w)|done].
Qed.

Lemma discover_explored_w y : ~ explored ((w, O) :: frames') w y.
Proof.
  intros [[Hw' _]|(c & Hc & Hy)]; [apply Hw'; by left|].
  apply elem_of_cons in Hc as [[= ->]|Hc]; [by apply elem_of_nil in Hy|].
  apply (list_elem_of_fmap_2 fst) in Hc. by apply (discover_ne w (discover_gray_visited w Hc)).
Qed.

Lemma discover_explored x y : x <> w -> explored ((w, O) :: frames') x y ->
  explored frames x y \/ (y = w /\ exists rest, frames.*1 = x :: rest).
Proof.
  intros Hne [[Hx He]|(c & Hc & Hy)].
  - apply Hexp. left. split; [|done]. intros Hin. apply Hx. by right.
  - apply elem_of_cons in Hc as [[= ? ?]|Hc]; [done|]. apply Hexp. right. by exists c.
Qed.

(** The guards of old nodes do not change: [w] is entered after all of them. *)
Lemma discover_guard x f : visited t x -> guard_of t' ((w, O) :: frames') x f -> guard_of t frames x f.
Proof.
  intros Hx (Hf & Hle & Hmax). cbn in Hf. apply elem_of_cons in Hf as [->|Hf].
  { pose proof (discover_lt x Hx). lia. }
  pose proof (discover_gray_visited f Hf) as Hfv. rewrite !discover_ix_old in Hle by done.
  split; [by rewrite <-Hsame|]. split; [done|]. intros g Hg Hgx.
  assert (Hgv : visited t g) by (apply discover_gray_visited; by rewrite Hsame).
  specialize (Hmax g ltac:(cbn; right; by rewrite Hsame)). rewrite !discover_ix_old in Hmax by done.
  by apply Hmax.
Qed.

Lemma discover_head_reaches f : f ∈ frames'.*1 -> reaches f w.
Proof.
  intros Hf. rewrite Hsame in Hf. pose proof Hsame as Hs. destruct frames' as [|[n c] rest] eqn:Hfr.
  { cbn in Hs. rewrite <-Hs in Hf. by apply elem_of_nil in Hf. }
  destruct Hchain as [Hedge _]. cbn in Hs. eapply reaches_edge; [|apply Hedge].
  assert (Hn : n ∈ frames.*1) by (rewrite <-Hs; by left).
  apply (i_forth _ _ HI); [done|by apply (i_gray _ _ HI)|].
  pose proof (i_frames _ _ HI) as Hsort. rewrite <-Hs in Hsort, Hf.
  apply elem_of_cons in Hf as [->|Hf]; [done|]. apply StronglySorted_inv in Hsort as [_ Hall].
  rewrite List.Forall_forall in Hall. apply list_elem_of_In in Hf. specialize (Hall f Hf). lia.
Qed.

Lemma inv_discover : inv ((w, O) :: frames') t'.
Proof.
  pose proof discover_stack_visited as Hsv. pose proof discover_gray_visited as Hgv.
  split; cbn [fmap list_fmap fst].
  - intros x. cbn. rewrite elem_of_union, elem_of_singleton, elem_of_cons, (i_on _ _ HI). done.
  - intros x Hx. apply discover_visited. cbn in Hx. apply elem_of_cons in Hx as [->|Hx]; [by left|right; auto].
  - intros x Hx. cbn. apply discover_visited in Hx as [->|Hx].
    + rewrite discover_ix_new. lia.
    + rewrite discover_ix_old by done. pose proof (i_next _ _ HI x Hx). lia.
  - cbn. constructor.
    + eapply StronglySorted_impl_in; [apply (i_sorted _ _ HI)|]. intros x y Hx Hy.
      by rewrite !discover_ix_old by auto.
    + apply List.Forall_forall. intros x Hx%list_elem_of_In. apply discover_lt. auto.
  - intros x Hx. cbn. destruct (decide (x = w)) as [->|Hne]; [rewrite lookup_insert_eq; by eexists|].
    rewrite lookup_insert_ne by done. apply (i_low_def _ _ HI). cbn in Hx. by apply elem_of_cons in Hx as [?|?].
  - intros f Hf. cbn. rewrite Hsame in Hf. apply elem_of_cons in Hf as [->|Hf]; [by left|right].
    by apply (i_gray _ _ HI).
  - constructor.
    + rewrite Hsame. eapply StronglySorted_impl_in; [apply (i_frames _ _ HI)|]. intros x y Hx Hy.
      rewrite !discover_ix_old; [done|..]; apply Hgv; by rewrite Hsame.
    + apply List.Forall_forall. intros x Hx%list_elem_of_In. apply discover_lt. auto.
  - done.
  - intros f c Hf. apply elem_of_cons in Hf as [[= -> ->]|Hf]; [lia|by apply Hbound].
  - intros f Hf. apply elem_of_cons in Hf as [->|Hf]; [rewrite discover_lw, discover_ix, !decide_True; done|].
    rewrite discover_lw, decide_False, discover_ix_old by (auto using discover_ne). apply (i_low_le _ _ HI).
    by rewrite <-Hsame.
  - intros f Hf. apply elem_of_cons in Hf as [->|Hf].
    + exists w. split; [by left|]. split; [apply rtc_refl|]. by rewrite discover_lw, discover_ix, !decide_True.
    + destruct (i_low_sound _ _ HI f) as (y & Hy & Hr & Hl); [by rewrite <-Hsame|]. exists y.
      split; [by right|]. split; [done|]. rewrite discover_ix_old by auto.
      by rewrite discover_lw, decide_False by (auto using discover_ne).
  - intros x Hx. cbn in Hx. apply elem_of_cons in Hx as [->|Hx].
    + exists w. split; [by left|]. split; [done|apply rtc_refl].
    + destruct (i_back _ _ HI x Hx) as (f & Hf & Hle & Hr). exists f. rewrite Hsame. split; [by right|].
      split; [|done]. rewrite !discover_ix_old; [done|auto|]. apply Hgv. by rewrite Hsame.
  - intros f x Hf Hx Hle. cbn in Hx. apply elem_of_cons in Hx as [->|Hx]; apply elem_of_cons in Hf as [->|Hf].
    + apply rtc_refl.
    + by apply discover_head_reaches.
    + pose proof (discover_lt x ltac:(auto)). lia.
    + rewrite !discover_ix_old in Hle by auto. apply (i_forth _ _ HI); [by rewrite <-Hsame|done|done].
  - intros x y Hx Hxy. apply discover_visited. cbn in Hx. apply elem_of_cons in Hx as [->|Hx].
    { by destruct (discover_explored_w y). }
    apply discover_explored in Hxy; [|by apply discover_ne; auto].
    destruct Hxy as [Hxy|[-> _]]; [right|by left]. by apply (i_explored _ _ HI x).
  - intros x y f Hx Hy Hxy Hg. cbn in Hx. apply elem_of_cons in Hx as [->|Hx].
    { by destruct (discover_explored_w y). }
    pose proof (discover_guard x f ltac:(auto) Hg) as Hg'. pose proof Hg' as (Hf & Hle & _).
    assert (Hfv : visited t f) by (apply (i_visited _ _ HI), (i_gray _ _ HI); done).
    rewrite discover_lw, decide_False by (by apply discover_ne).
    apply discover_explored in Hxy; [|by apply discover_ne; auto].
    destruct Hxy as [Hxy|[-> _]].
    + assert (Hyv : visited t y) by (by apply (i_explored _ _ HI x)).
      cbn in Hy. apply elem_of_cons in Hy as [->|Hy]; [by destruct (discover_ne w Hyv)|].
      rewrite discover_ix_old by auto. by apply (i_low_complete _ _ HI x y f).
    + pose proof (discover_lt f Hfv). rewrite (discover_ix_old f Hfv) in H.
      pose proof (i_low_le _ _ HI f Hf). lia.
  - intros x y Hx Hxy. rewrite discover_settled in *. by apply (i_settled _ _ HI x).
  - intros x. rewrite discover_settled. apply (i_out _ _ HI).
Qed.
End Discover.

(* ------------------------------------------------------------------ *)
(** ** Looking at an edge                                              *)
(* ------------------------------------------------------------------ *)

(** Lowering a link to the index of a node on the stack that is reached. *)
Lemma inv_lower frames t n y0 :
  inv frames t -> n ∈ frames.*1 -> y0 ∈ scc_stack t -> reaches n y0 ->
  exists t', lower t n (ix t y0) = Done t' /\ inv frames t' /\ t_index t' = t_index t
    /\ scc_stack t' = scc_stack t /\ t_out t' = t_out t /\ lw t' n = N.min (lw t n) (ix t y0)
    /\ on_stack t' = on_stack t.
Proof.
  intros HI Hn Hy0 Hr. destruct (i_low_def _ _ HI n) as [l Hl]; [by apply (i_gray _ _ HI)|].
  unfold lower. rewrite Hl. cbn. set (t' := mkTarjan _ _ _ _ _ _). exists t'. split; [done|].
  assert (Hlw : forall x, lw t' x = if decide (x = n) then N.min (lw t n) (ix t y0) else lw t x).
  { intros x. unfold lw, t'. cbn. destruct (decide (x = n)) as [->|Hne].
    - by rewrite lookup_insert_eq, Hl.
    - by rewrite lookup_insert_ne. }
  split; [|split_and!; try done; by rewrite Hlw, decide_True].
  destruct HI as [Hon Hvis Hnext Hsort Hdef Hgray Hfr Hch Hb Hle Hsound Hback Hforth Hex Hcomp Hset Hout].
  split; try done.
  - intros x Hx. unfold t'. cbn. destruct (decide (x = n)) as [->|Hne]; [rewrite lookup_insert_eq; by eexists|].
    rewrite lookup_insert_ne by done. by apply Hdef.
  - intros f Hf. rewrite Hlw. change (ix t' f) with (ix t f). specialize (Hle f Hf).
    destruct (decide (f = n)) as [->|]; lia.
  - intros f Hf. rewrite Hlw. destruct (decide (f = n)) as [->|]; [|by apply Hsound].
    destruct (N.min_spec (lw t n) (ix t y0)) as [[_ ->]|[_ ->]]; [by apply Hsound|]. by exists y0.
  - intros x y f Hx Hy Hxy Hg. rewrite Hlw. pose proof (Hcomp x y f Hx Hy Hxy Hg) as Hc.
    change (ix t' y) with (ix t y). destruct (decide (f = n)) as [->|]; lia.
Qed.

(** Counting the next edge of the last frame as explored. *)
Lemma inv_scan n c rest t w :
  inv ((n, c) :: rest) t -> succs n !! c = Some w -> visited t w ->
  (w ∈ scc_stack t -> lw t n <= ix t w) -> inv ((n, S c) :: rest) t.
Proof.
  intros HI Hc Hw Hlow.
  assert (Hexp : forall x y, explored ((n, S c) :: rest) x y ->
    explored ((n, c) :: rest) x y \/ (x = n /\ y = w)).
  { intros x y [[Hx He]|(c' & Hin & Hy)]; [left; by left|].
    apply elem_of_cons in Hin as [[= -> ->]|Hin]; [|left; right; exists c'; by split; [right|]].
    rewrite (take_S_r _ _ _ Hc) in Hy. apply elem_of_app in Hy as [Hy|Hy%list_elem_of_singleton].
    - left. right. exists c. by split; [left|].
    - by right. }
  destruct HI as [Hon Hvis Hnext Hsort Hdef Hgray Hfr Hch Hb Hle Hsound Hback Hforth Hex Hcomp Hset Hout].
  split; try done.
  - intros f c' [[= -> ->]|Hin]%elem_of_cons; [|apply Hb; by right].
    by apply lookup_lt_Some in Hc.
  - intros x y Hx [Hxy|[-> ->]]%Hexp; [by apply (Hex x)|done].
  - intros x y f Hx Hy Hxy (Hf & Hfx & Hmax). change (((n, S c) :: rest).*1) with (((n, c) :: rest).*1) in *.
    destruct (Hexp x y Hxy) as [Hxy'|[-> ->]]; [by apply (Hcomp x y f)|].
    assert (f = n) as ->; [|by apply Hlow].
    cbn in Hf. apply elem_of_cons in Hf as [->|Hf]; [done|].
    specialize (Hmax n ltac:(by left) ltac:(done)). cbn in Hfr.
    apply StronglySorted_inv in Hfr as [_ Hall]. rewrite List.Forall_forall in Hall.
    apply list_elem_of_In in Hf. specialize (Hall f Hf). lia.
Qed.

(* ------------------------------------------------------------------ *)
(** ** Leaving a node                                                  *)
(* ------------------------------------------------------------------ *)

Section Leave.
Context (n : CapVarId) (c : nat) (rest : list (CapVarId * nat)) (t : Tarjan).
Context (HI : inv ((n, c) :: rest) t) (Hend : succs n !! c = None).

Lemma leave_rest_lt f : f ∈ rest.*1 -> ix t f < ix t n.
Proof.
  intros Hf%list_elem_of_In. pose proof (i_frames _ _ HI) as Hs. cbn in Hs.
  apply StronglySorted_inv in Hs as [_ Hall]. rewrite List.Forall_forall in Hall. by apply Hall.
Qed.

Lemma leave_n_stack : n ∈ scc_stack t.
Proof. apply (i_gray _ _ HI). by left. Qed.

Lemma leave_explored x y : explored rest x y -> explored ((n, c) :: rest) x y.
Proof.
  intros [[Hx He]|(k & Hk & Hy)]; [|right; exists k; by split; [right|]].
  destruct (decide (x = n)) as [->|Hne].
  - right. exists c. split; [by left|]. apply lookup_ge_None in Hend. by rewrite take_ge.
  - left. split; [|done]. cbn. by intros [?|?]%elem_of_cons.
Qed.

(** Every edge out of the nodes entered since [n] has been looked at. *)
Lemma leave_edges x y : x ∈ scc_stack t -> ix t n <= ix t x -> edge x y ->
  visited t y /\ (y ∈ scc_stack t -> lw t n <= ix t y).
Proof.
  intros Hx Hle He. assert (Hexp : explored ((n, c) :: rest) x y).
  { apply leave_explored. left. split; [|done]. intros Hin%leave_rest_lt. lia. }
  split; [by apply (i_explored _ _ HI x)|]. intros Hy. apply (i_low_complete _ _ HI x y); [done..|].
  split; [by left|]. split; [done|]. intros g [->|Hg]%elem_of_cons _; [done|].
  apply leave_rest_lt in Hg. lia.
Qed.

Lemma leave_guard x f : guard_of t rest x f -> ix t x < ix t n -> guard_of t ((n, c) :: rest) x f.
Proof.
  intros (Hf & Hle & Hmax) Hx. split; [by right|]. split; [done|].
  intros g [->|Hg]%elem_of_cons Hgx; [cbn [fst] in *; lia|by apply Hmax].
Qed.

Lemma leave_chained : chained rest.
Proof. pose proof (i_chain _ _ HI) as H. destruct rest as [|[p k] rest']; [done|]. apply H. Qed.

(** Not the root of a component: the parent takes the link over. *)
Lemma inv_leave_low p k rest' :
  rest = (p, k) :: rest' -> lw t n < ix t n -> lw t p <= lw t n -> inv rest t.
Proof.
  intros Hrest Hlow Hp. pose proof HI as HI'. pose proof leave_chained as Hch'.
  destruct HI' as [Hon Hvis Hnext Hsort Hdef Hgray Hfr Hch Hb Hle Hsound Hback Hforth Hex Hcomp Hset Hout].
  split; try done.
  - intros f Hf. apply Hgray. by right.
  - by apply StronglySorted_inv in Hfr as [? _].
  - intros f k' Hf. apply Hb. by right.
  - intros f Hf. apply Hle. by right.
  - intros f Hf. apply Hsound. by right.
  - intros x Hx. destruct (Hback x Hx) as (f & Hf & Hfx & Hr).
    apply elem_of_cons in Hf as [->|Hf]; [|by exists f]. cbn [fst] in *.
    destruct (Hsound n) as (y & Hy & Hny & Hl); [by left|].
    destruct (Hback y Hy) as (f & Hf & Hfy & Hyf). apply elem_of_cons in Hf as [->|Hf]; [cbn [fst] in *; lia|].
    exists f. split; [done|]. split; [lia|]. by do 2 (etrans; [done|]).
  - intros f x Hf. apply Hforth. by right.
  - intros x y Hx Hxy. apply (Hex x); [done|by apply leave_explored].
  - intros x y f Hx Hy Hxy Hg. destruct (N.lt_ge_cases (ix t x) (ix t n)) as [Hlt|Hge].
    { apply (Hcomp x y f); [done..|by apply leave_explored|by apply leave_guard]. }
    assert (Hpr : p ∈ rest.*1) by (rewrite Hrest; by left).
    destruct Hg as (Hf & Hfx & Hmax). pose proof (leave_rest_lt p Hpr) as Hpn.
    specialize (Hmax p Hpr ltac:(lia)). assert (f = p) as ->.
    { rewrite Hrest in Hf. cbn in Hf. apply elem_of_cons in Hf as [?|Hf]; [done|].
      apply StronglySorted_inv in Hfr as [Hfr _]. rewrite Hrest in Hfr. cbn in Hfr.
      apply StronglySorted_inv in Hfr as [_ Hall]. rewrite List.Forall_forall in Hall.
      apply list_elem_of_In in Hf. specialize (Hall f Hf). lia. }
    destruct (decide (x ∈ rest.*1)) as [Hin|Hout']; [apply leave_rest_lt in Hin; lia|].
    destruct Hxy as [[_ He]|(k' & Hk & _)]; [|by apply (list_elem_of_fmap_2 fst) in Hk].
    destruct (leave_edges x y) as [_ Hl]; [done..|]. specialize (Hl Hy). lia.
Qed.

(** The stack is the nodes entered since [n], then [n], then older nodes. *)
Lemma leave_split : exists above below,
  scc_stack t = above ++ n :: below /\ (n ∉ above)
  /\ (forall x, x ∈ above ++ [n] <-> x ∈ scc_stack t /\ ix t n <= ix t x)
  /\ (forall x, x ∈ below <-> x ∈ scc_stack t /\ ix t x < ix t n)
  /\ StronglySorted (fun x y => ix t y < ix t x) below.
Proof.
  destruct (list_elem_of_split _ _ leave_n_stack) as (above & below & Hs).
  pose proof (i_sorted _ _ HI) as Hsort. rewrite Hs in Hsort.
  assert (Habove : forall x, x ∈ above -> ix t n < ix t x).
  { intros x Hx. clear Hs. induction above as [|a above IH]; [by apply elem_of_nil in Hx|].
    cbn in Hsort. apply StronglySorted_inv in Hsort as [Hsort Hall].
    apply elem_of_cons in Hx as [->|Hx]; [|by apply IH]. rewrite List.Forall_forall in Hall.
    apply Hall, in_or_app. right. by left. }
  assert (Hb : StronglySorted (fun x y => ix t y < ix t x) (n :: below)).
  { clear Hs Habove. induction above as [|a above IH]; [done|]. by apply StronglySorted_inv in Hsort as [? _]; auto. }
  apply StronglySorted_inv in Hb as [Hb Hall]. rewrite List.Forall_forall in Hall.
  assert (Hbelow : forall x, x ∈ below -> ix t x < ix t n) by (intros x Hx%list_elem_of_In; by apply Hall).
  exists above, below. split; [done|]. split; [intros Hn%Habove; lia|]. split; [|split]; [..|done].
  - intros x. rewrite Hs, !elem_of_app, list_elem_of_singleton, elem_of_cons. split.
    + intros [Hx| ->]; [split; [by left|apply Habove in Hx; lia]|split; [right; by left|done]].
    + intros [[Hx|[->|Hx%Hbelow]] ?]; [by left|by right|lia].
  - intros x. rewrite Hs, elem_of_app, elem_of_cons. split.
    + intros Hx. split; [by right; right|by apply Hbelow].
    + intros [[Hx%Habove|[->|Hx]] ?]; [lia|lia|done].
Qed.
End Leave.

Lemma pop_component_spec n above below on comp : (n ∉ above) ->
  exists on', pop_component n (above ++ n :: below) on comp = (below, on', comp ++ above ++ [n])
    /\ forall x, x ∈ on' <-> x ∈ on /\ (x ∉ above ++ [n]).
Proof.
  revert on comp. induction above as [|w above IH]; intros on comp Hn; cbn [app pop_component].
  - rewrite N.eqb_refl. eexists. split; [done|]. intros x.
    rewrite elem_of_difference, elem_of_singleton, list_elem_of_singleton. done.
  - rewrite (proj2 (N.eqb_neq w n)) by (intros ->; apply Hn; by left).
    destruct (IH (on ∖ {[w]}) (comp ++ [w])) as (on' & -> & Hon'); [by intros ?; apply Hn; right|].
    exists on'. rewrite <-app_assoc. split; [done|]. intros x.
    rewrite Hon', elem_of_difference, elem_of_singleton, elem_of_cons.
    split; [intros [[? ?] ?]; split; [done|by intros [?|?]]|intros [? Hno]].
    split; [split; [done|]|]; intros ?; apply Hno; [by left|by right].
Qed.

Section Root.
Context (n : CapVarId) (c : nat) (rest : list (CapVarId * nat)) (t t' : Tarjan) (above below : list CapVarId).
Context (HI : inv ((n, c) :: rest) t) (Hend : succs n !! c = None) (Hroot : lw t n = ix t n).
Context (Hcomp : forall x, x ∈ above ++ [n] <-> x ∈ scc_stack t /\ ix t n <= ix t x).
Context (Hbelow : forall x, x ∈ below <-> x ∈ scc_stack t /\ ix t x < ix t n).
Context (Hsorted : StronglySorted (fun x y => ix t y < ix t x) below).
Context (Hindex : t_index t' = t_index t) (Hlow : t_low t' = t_low t) (Hstack : scc_stack t' = below).
Context (Hnext : next_index t' = next_index t).
Context (Hon : forall x, x ∈ on_stack t' <-> x ∈ on_stack t /\ (x ∉ above ++ [n])).
Context (Hout : forall x, x ∈ t_out t' <-> x ∈ t_out t \/ (x ∈ above ++ [n] /\ (above <> [] \/ edge n n))).

Lemma root_ix x : ix t' x = ix t x.
Proof. unfold ix. by rewrite Hindex. Qed.

Lemma root_lw x : lw t' x = lw t x.
Proof. unfold lw. by rewrite Hlow. Qed.

Lemma root_visited x : visited t' x <-> visited t x.
Proof. unfold visited. by rewrite Hindex. Qed.

(** The settled nodes are those of before and the component. *)
Lemma root_settled x : settled t' x <-> settled t x \/ x ∈ above ++ [n].
Proof.
  unfold settled. rewrite root_visited, Hstack, Hcomp, Hbelow. split.
  - intros [Hv Hno]. destruct (decide (x ∈ scc_stack t)) as [Hin|]; [right|by left].
    split; [done|]. destruct (N.lt_ge_cases (ix t x) (ix t n)); [by destruct Hno|done].
  - intros [[Hv Hno]|[Hin Hle]]; (split; [|intros [? ?]]); try done; [by apply (i_visited _ _ HI)|lia].
Qed.

Lemma root_closed x y : settled t' x -> edge x y -> settled t' y.
Proof.
  rewrite !root_settled. intros [Hx|Hx] He; [left; by apply (i_settled _ _ HI x)|].
  apply Hcomp in Hx as [Hx Hle]. destruct (leave_edges n c rest t HI Hend x y Hx Hle He) as [Hv Hl].
  destruct (decide (y ∈ scc_stack t)) as [Hin|Hno]; [|left; by split]. right. apply Hcomp.
  split; [done|]. rewrite <-Hroot. by apply Hl.
Qed.

Lemma root_closed_reaches x y : settled t' x -> reaches x y -> settled t' y.
Proof. intros Hx Hr. induction Hr as [|x y z Hxy _ IH]; [done|]. apply IH. by apply (root_closed x). Qed.

Lemma root_not_settled f : f ∈ rest.*1 -> ~ settled t' f.
Proof.
  intros Hf Hs. pose proof (leave_rest_lt n c rest t HI f Hf) as Hlt.
  assert (f ∈ scc_stack t) as Hin by (apply (i_gray _ _ HI); by right).
  apply root_settled in Hs as [[_ Hno]|Hs]; [done|]. apply Hcomp in Hs as [_ ?]. lia.
Qed.

(** The nodes of the component reach its root, and it reaches them. *)
Lemma root_component x : x ∈ above ++ [n] -> reaches x n /\ reaches n x.
Proof.
  intros Hx. pose proof Hx as [Hin Hle]%Hcomp. split.
  - destruct (i_back _ _ HI x Hin) as (f & Hf & _ & Hr). apply elem_of_cons in Hf as [->|Hf]; [done|].
    destruct (root_not_settled f Hf). eapply root_closed_reaches; [|done]. apply root_settled. by right.
  - apply (i_forth _ _ HI); [by left|done|done].
Qed.

Lemma root_cycle x : (n ∉ above) -> x ∈ above ++ [n] -> (on_cycle x <-> above <> [] \/ edge n n).
Proof.
  intros Hna Hx. destruct (root_component x Hx) as [Hxn Hnx]. split.
  - intros Hc. destruct (decide (above = [])) as [Hab|]; [right|by left]. rewrite Hab in Hx. cbn in Hx.
    apply list_elem_of_singleton in Hx as ->. apply tc_inv_rtc in Hc as (y & Hny & Hyn).
    assert (Hs : settled t' n) by (apply root_settled; right; apply elem_of_app; right; by left).
    pose proof (root_closed n y Hs Hny) as Hy. apply root_settled in Hy as [Hy|Hy].
    + pose proof (settled_reaches _ _ _ _ HI Hy Hyn) as [_ Hno]. by exfalso; apply Hno, (leave_n_stack n c rest t HI).
    + rewrite Hab in Hy. cbn in Hy. by apply list_elem_of_singleton in Hy as ->.
  - intros Hor. assert (Hnn : tc edge n n).
    { destruct Hor as [Hne|He]; [|by apply tc_once].
      assert (Ha : exists a, a ∈ above) by (destruct above as [|a l] eqn:Hab; [done|exists a; by left]).
      destruct Ha as [a Ha]. destruct (root_component a) as [Han Hna']; [apply elem_of_app; by left|].
      assert (a <> n) by (by intros ->). eapply tc_rtc_l; [apply Hna'|by apply reaches_tc]. }
    eapply tc_rtc_l; [done|]. by eapply tc_rtc_r.
Qed.

Lemma inv_leave_root : (n ∉ above) -> inv rest t'.
Proof.
  intros Hna. pose proof (leave_rest_lt n c rest t HI) as Hlt. pose proof (leave_chained n c rest t HI) as Hch'.
  pose proof (leave_explored n c rest Hend) as Hexp.
  assert (Hsub : forall x, x ∈ scc_stack t' -> x ∈ scc_stack t /\ ix t x < ix t n) by (intros x; rewrite Hstack; apply Hbelow).
  pose proof HI as [Hon0 Hvis Hnext0 Hsort Hdef Hgray Hfr _ Hb Hle Hsound Hback Hforth Hex Hlowc Hset Hout0].
  split; try done.
  - intros x. rewrite Hon, Hstack, Hbelow, Hcomp, Hon0. split.
    + intros [Hx Hno]. split; [done|]. destruct (N.lt_ge_cases (ix t x) (ix t n)); [done|by destruct Hno].
    + intros [Hx ?]. split; [done|]. intros [_ ?]. lia.
  - intros x [Hx _]%Hsub. rewrite root_visited. by apply Hvis.
  - intros x Hx%root_visited. rewrite root_ix, Hnext. by apply Hnext0.
  - rewrite Hstack. eapply StronglySorted_impl_in; [apply Hsorted|]. intros x y _ _. by rewrite !root_ix.
  - intros x [Hx _]%Hsub. rewrite Hlow. by apply Hdef.
  - intros f Hf. rewrite Hstack, Hbelow. split; [apply Hgray; by right|by apply Hlt].
  - cbn in Hfr. apply StronglySorted_inv in Hfr as [Hfr _]. eapply StronglySorted_impl_in; [apply Hfr|].
    intros x y _ _. by rewrite !root_ix.
  - intros f k Hf. apply Hb. by right.
  - intros f Hf. rewrite root_lw, root_ix. apply Hle. by right.
  - intros f Hf. destruct (Hsound f) as (y & Hy & Hr & Hl); [by right|]. exists y.
    rewrite root_lw, root_ix, Hstack, Hbelow. split; [|done]. split; [done|].
    specialize (Hle f ltac:(by right)). specialize (Hlt f Hf). lia.
  - intros x [Hx Hxn]%Hsub. destruct (Hback x Hx) as (f & Hf & Hfx & Hr). exists f.
    rewrite !root_ix. apply elem_of_cons in Hf as [->|Hf]; [cbn [fst] in *; lia|done].
  - intros f x Hf [Hx _]%Hsub. rewrite !root_ix. apply Hforth; [by right|done].
  - intros x y [Hx _]%Hsub Hxy. rewrite root_visited. apply (Hex x); [done|by apply Hexp].
  - intros x y f [Hx Hxn]%Hsub [Hy _]%Hsub Hxy (Hf & Hfx & Hmax). rewrite root_lw, root_ix.
    apply (Hlowc x y f); [done..|by apply Hexp|]. apply leave_guard; [|done].
    rewrite !root_ix in Hfx. split; [done|]. split; [done|]. intros g Hg. specialize (Hmax g Hg).
    by rewrite !root_ix in Hmax.
  - intros x y. apply root_closed.
  - intros x. rewrite Hout, root_settled, Hout0. split.
    + intros [[? ?]|[Hx Hc]]; [by split; [left|]|]. split; [by right|]. by apply (root_cycle x).
    + intros [[Hx|Hx] Hc]; [by left|]. right. split; [done|]. by apply (root_cycle x).
Qed.
End Root.

(** Leaving a finished node keeps the invariant for the nodes below it. *)
Lemma inv_leave n c rest t :
  inv ((n, c) :: rest) t -> succs n !! c = None ->
  exists t', leave n rest t = Done t' /\ inv rest t' /\ t_index t' = t_index t.
Proof.
  intros HI Hend. pose proof (leave_n_stack n c rest t HI) as Hn.
  destruct (i_low_def _ _ HI n Hn) as [l Hl], (i_visited _ _ HI n Hn) as [i Hi].
  assert (Hll : lw t n = l) by (unfold lw; by rewrite Hl).
  assert (Hii : ix t n = i) by (unfold ix; by rewrite Hi).
  unfold leave, finish. rewrite Hl, Hi. cbn [of_option mbind res_bind].
  destruct (N.eqb_spec l i) as [->|Hne].
  - destruct (leave_split n c rest t HI) as (above & below & Hs & Hna & Hcomp & Hbelow & Hsort).
    rewrite Hs. destruct (pop_component_spec n above below (on_stack t) [] Hna) as (on' & -> & Hon).
    cbn [app]. match goal with |- context [mkTarjan _ _ _ _ _ ?o] => set (out := o) end. set (t' := mkTarjan _ _ _ _ _ _).
    assert (HI' : inv rest t').
    { eapply (inv_leave_root n c rest t t' above below); try done; [congruence|].
      intros x. unfold t', out. cbn [t_out]. rewrite length_app. cbn [length].
      destruct above as [|a above]; cbn [app length Nat.add].
      - rewrite list_elem_of_singleton. change ((1 <? 1)%nat) with false. cbv iota.
        unfold edge. case_bool_decide; [rewrite elem_of_union, elem_of_singleton|]; clear -H; split; tauto.
      - rewrite Nat.add_1_r. cbn [Nat.ltb Nat.leb]. rewrite elem_of_union, elem_of_list_to_set.
        split; [intros [?|?]; [right; by split; [|left]|by left]|by intros [?|[? _]]; [right|left]]. }
    exists t'. split; [|by split]. cbn [mbind res_bind]. destruct rest as [|[p k] rest']; [done|].
    change (t_low t') with (t_low t). rewrite Hl. cbn [of_option mbind res_bind]. unfold lower.
    destruct (i_low_def _ _ HI' p) as [lp Hlp]; [apply (i_gray _ _ HI'); by left|].
    rewrite Hlp. cbn [of_option mbind res_bind]. change (t_low t') with (t_low t) in *. f_equal. unfold t'. f_equal.
    apply insert_id. rewrite Hlp. f_equal. pose proof (i_low_le _ _ HI p ltac:(by right; left)) as Hle.
    pose proof (leave_rest_lt n c _ t HI p ltac:(by left)). unfold lw in Hle. rewrite Hlp in Hle. cbn in Hle. lia.
  - cbn [mbind res_bind]. pose proof (i_low_le _ _ HI n ltac:(by left)) as Hle.
    destruct (i_low_sound _ _ HI n ltac:(by left)) as (y & Hy & Hny & Hly).
    destruct rest as [|[p k] rest'] eqn:Hrest.
    { destruct (i_back _ _ HI y Hy) as (f & Hf & Hfy & _). apply list_elem_of_singleton in Hf as ->.
      cbn [fst] in *. lia. }
    rewrite Hl. cbn [of_option mbind res_bind]. rewrite <-Hrest in HI |- *.
    destruct (inv_lower ((n, c) :: rest) t p y) as (t' & Ht' & HI' & Hx & _ & _ & Hlp & _);
      [done|right; rewrite Hrest; by left|done| |].
    { pose proof (i_chain _ _ HI) as Hch. rewrite Hrest in Hch. destruct Hch as [Hpn _].
      eapply rtc_l; [apply Hpn|apply Hny]. }
    rewrite Hly, Hll in Ht'. exists t'. split; [done|]. split; [|done].
    assert (lw t' n = lw t n /\ ix t' n = ix t n) as [Hln Hxn].
    { pose proof (leave_rest_lt n c rest t HI p ltac:(rewrite Hrest; by left)) as Hlt.
      split; [|unfold ix; by rewrite Hx]. unfold lower in Ht'.
      destruct (t_low t !! p) as [lp|]; [|done]. cbn in Ht'. injection Ht' as <-. unfold lw. cbn.
      rewrite lookup_insert_ne; [done|]. intros ->. lia. }
    apply (inv_leave_low n c rest t' HI' Hend p k rest'); [done|lia|lia].
Qed.

(* ------------------------------------------------------------------ *)
(** ** Termination                                                     *)
(* ------------------------------------------------------------------ *)

Lemma succs_universe n w : w ∈ succs n -> w ∈ universe.
Proof.
  intros Hw. unfold universe. apply elem_of_union_r, elem_of_union_list.
  exists (list_to_set (succs n)). split; [|by apply elem_of_list_to_set].
  apply (list_elem_of_fmap_2 (fun n => list_to_set (C := gset CapVarId) (succs n))).
  apply elem_of_elements, elem_of_dom. unfold succs in Hw. destruct (subst !! n); [by eexists|by apply elem_of_nil in Hw].
Qed.

Lemma set_cost_remove X w : w ∈ X -> (set_cost X = node_cost w + set_cost (X ∖ {[w]}))%nat.
Proof.
  intros Hw. unfold set_cost. rewrite (union_difference_L {[w]} X) at 1 by set_solver.
  rewrite elements_union_singleton by set_solver. done.
Qed.

(** The nodes that are still to be entered. *)
Definition unvisited (t : Tarjan) : gset CapVarId := universe ∖ dom (t_index t).

Definition frames_cost (frames : list (CapVarId * nat)) : nat :=
  sum_list (map (fun '(n, c) => length (succs n) + 1 - c)%nat frames).

Definition measure (frames : list (CapVarId * nat)) (t : Tarjan) : nat :=
  (set_cost (unvisited t) + frames_cost frames)%nat.

Lemma measure_discover frames t w :
  t_index t !! w = None -> w ∈ universe ->
  (S (measure ((w, O) :: frames) (discover t w)) = measure frames t)%nat.
Proof.
  intros Hw Hu. unfold measure. rewrite (set_cost_remove (unvisited t) w)
    by (apply elem_of_difference; split; [done|by apply not_elem_of_dom]).
  replace (unvisited (discover t w)) with (unvisited t ∖ {[w]}).
  - cbn [frames_cost map sum_list fst snd]. unfold frames_cost, node_cost. cbn. lia.
  - unfold unvisited. cbn [t_index discover]. rewrite dom_insert_L. set_solver.
Qed.

Lemma measure_scan n c rest t w :
  succs n !! c = Some w -> (S (measure ((n, S c) :: rest) t) = measure ((n, c) :: rest) t)%nat.
Proof.
  intros Hc%lookup_lt_Some. unfold measure, frames_cost. cbn. lia.
Qed.

Lemma measure_leave n c rest t t' : (c <= length (succs n))%nat ->
  t_index t' = t_index t -> (measure rest t' < measure ((n, c) :: rest) t)%nat.
Proof. intros Hc Hi. unfold measure, unvisited, frames_cost. rewrite Hi. cbn. lia. Qed.

Lemma frames_loop_ok fuel frames t :
  inv frames t -> (measure frames t <= fuel)%nat ->
  exists t', frames_loop fuel frames t = Done t' /\ inv [] t' /\ (forall x, visited t x -> visited t' x).
Proof.
  revert frames t. induction fuel as [|fuel IH]; intros frames t HI Hm.
  all: destruct frames as [|[n c] rest]; [exists t; by split|].
  { pose proof (i_bound _ _ HI n c ltac:(by left)). unfold measure, frames_cost in Hm. cbn in Hm. lia. }
  cbn [frames_loop]. destruct (succs n !! c) as [w|] eqn:Hc.
  - pose proof (measure_scan n c rest t w Hc) as Hsm.
    assert (He : edge n w) by (by eapply list_elem_of_lookup_2).
    destruct (t_index t !! w) as [iw|] eqn:Hw.
    + assert (Hv : visited t w) by (by eexists).
      assert (Hn : n ∈ ((n, c) :: rest).*1) by by left.
      case_bool_decide as Hon.
      * apply (i_on _ _ HI) in Hon. assert (Hix : ix t w = iw) by (unfold ix; by rewrite Hw).
        destruct (inv_lower _ t n w HI Hn Hon) as (t' & Ht' & HI' & Hx & Hs & _ & Hl & _);
          [by apply rtc_once|].
        rewrite Hix in Ht'. rewrite Ht'. cbn [mbind res_bind].
        assert (Hv' : forall x, visited t' x <-> visited t x) by (intros x; unfold visited; by rewrite Hx).
        destruct (IH ((n, S c) :: rest) t') as (t2 & H2 & ? & Hvis).
        -- apply (inv_scan n c rest t' w HI' Hc); [by apply Hv'|]. intros _. rewrite Hl. unfold ix. rewrite Hx.
           fold (ix t w). lia.
        -- unfold measure, unvisited in *. rewrite Hx. lia.
        -- exists t2. split; [done|]. split; [done|]. intros x Hvx. by apply Hvis, Hv'.
      * apply IH; [|lia]. apply (inv_scan n c rest t w HI Hc Hv). intros Hin. exfalso. by apply Hon, (i_on _ _ HI w).
    + destruct (IH ((w, O) :: (n, S c) :: rest) (discover t w)) as (t2 & H2 & ? & Hvis).
      * apply (inv_discover ((n, c) :: rest)); [done|done|done| | |].
        -- intros x y [[Hx Hxy]|(k & Hk & Hy)]; [left; by left|].
           apply elem_of_cons in Hk as [[= -> ->]|Hk]; [|left; right; exists k; by split; [right|]].
           rewrite (take_S_r _ _ _ Hc) in Hy. apply elem_of_app in Hy as [Hy|Hy%list_elem_of_singleton].
           ++ left. right. exists c. by split; [left|].
           ++ right. split; [done|]. by exists rest.*1.
        -- intros f k [[= -> ->]|Hin]%elem_of_cons; [by apply lookup_lt_Some in Hc|].
           apply (i_bound _ _ HI). by right.
        -- split; [done|]. apply (i_chain _ _ HI).
      * pose proof (measure_discover ((n, S c) :: rest) t w Hw (succs_universe n w He)). unfold measure in *. lia.
      * exists t2. split; [done|]. split; [done|]. intros x [i Hi]. apply Hvis. unfold visited. cbn.
        destruct (decide (x = w)) as [->|]; [by rewrite lookup_insert_eq|rewrite lookup_insert_ne by done; by eexists].
  - destruct (inv_leave n c rest t HI Hc) as (t' & -> & HI' & Hx). cbn [mbind res_bind].
    pose proof (i_bound _ _ HI n c ltac:(by left)) as Hb.
    destruct (IH rest t' HI') as (t2 & H2 & ? & Hvis).
    + pose proof (measure_leave n c rest t t' Hb Hx). lia.
    + exists t2. split; [done|]. split; [done|]. intros x [i Hi]. apply Hvis. unfold visited. rewrite Hx. by eexists.
Qed.

Lemma frames_loop_root fuel t root :
  inv [] t -> t_index t !! root = None -> root ∈ universe -> (set_cost (unvisited t) <= fuel)%nat ->
  exists t', frames_loop fuel [(root, O)] (discover t root) = Done t' /\ inv [] t'
    /\ (forall x, visited (discover t root) x -> visited t' x).
Proof.
  intros HI Hr Hu Hf. apply frames_loop_ok.
  - apply (inv_discover []); try done.
    + intros x y Hxy. by left.
    + intros f k Hk. by apply elem_of_nil in Hk.
  - pose proof (measure_discover [] t root Hr Hu) as Hm. unfold measure in *. cbn in *. lia.
Qed.

Lemma unvisited_mono t t' : (forall x, visited t x -> visited t' x) ->
  (set_cost (unvisited t') <= set_cost (unvisited t))%nat.
Proof.
  intros Hv. assert (Hsub : unvisited t' ⊆ unvisited t).
  { intros x. unfold unvisited. rewrite !elem_of_difference, !elem_of_dom. intros [? Hno]. split; [done|].
    intros Hx. by apply Hno, Hv. }
  assert (Hc : forall X Y, X ⊆ Y -> (set_cost X <= set_cost Y)%nat); [|by apply Hc].
  clear. intros X. induction X as [|x X Hx IH] using set_ind_L; intros Y HXY.
  { unfold set_cost. rewrite elements_empty. cbn. lia. }
  rewrite (set_cost_remove Y x), (set_cost_remove ({[x]} ∪ X) x) by set_solver.
  replace (({[x]} ∪ X) ∖ {[x]}) with X by set_solver. specialize (IH (Y ∖ {[x]}) ltac:(set_solver)). lia.
Qed.

Lemma roots_loop_ok fuel roots t :
  inv [] t -> (forall r, r ∈ roots -> r ∈ universe) -> (set_cost (unvisited t) <= fuel)%nat ->
  exists t', roots_loop fuel roots t = Done t' /\ inv [] t' /\ (forall x, visited t x -> visited t' x)
    /\ (forall r, r ∈ roots -> visited t' r).
Proof.
  revert t. induction roots as [|r roots IH]; intros t HI Hu Hf; cbn [roots_loop].
  { exists t. split_and!; try done. intros r Hr. by apply elem_of_nil in Hr. }
  destruct (t_index t !! r) as [i|] eqn:Hr.
  - destruct (IH t HI) as (t' & -> & HI' & Hv & Hroots); [intros ? ?; apply Hu; by right|done|].
    exists t'. split_and!; try done. intros x [->|Hx]%elem_of_cons; [|by apply Hroots]. apply Hv. by eexists.
  - destruct (frames_loop_root fuel t r HI Hr) as (t1 & -> & HI1 & Hv1); [apply Hu; by left|done|].
    cbn [mbind res_bind].
    assert (Hv : forall x, visited t x -> visited t1 x).
    { intros x [i Hi]. apply Hv1. unfold visited. cbn.
      destruct (decide (x = r)) as [->|]; [by rewrite lookup_insert_eq|rewrite lookup_insert_ne by done; by eexists]. }
    pose proof (unvisited_mono t t1 Hv).
    destruct (IH t1 HI1) as (t' & -> & HI' & Hv' & Hroots); [intros ? ?; apply Hu; by right|lia|].
    exists t'. split_and!; try done; [intros x Hx; by apply Hv', Hv|].
    intros x [->|Hx]%elem_of_cons; [|by apply Hroots]. apply Hv', Hv1. unfold visited. cbn.
    by rewrite lookup_insert_eq.
Qed.

Lemma on_cycle_bound x : on_cycle x -> is_Some (subst !! x).
Proof.
  intros (y & He & _)%tc_inv_rtc. unfold edge, succs in He. destruct (subst !! x); [by eexists|].
  by apply elem_of_nil in He.
Qed.

Lemma cycle_nodes_ok roots : Permutation roots (elements (dom subst)) ->
  exists X, cap_cycle_nodes roots = Done X /\ forall x, x ∈ X <-> on_cycle x.
Proof.
  intros Hp. unfold cap_cycle_nodes.
  assert (Hin : forall r, r ∈ roots <-> is_Some (subst !! r)).
  { intros r. rewrite Hp, elem_of_elements. apply elem_of_dom. }
  destruct (roots_loop_ok cycle_fuel roots empty_tarjan tarjan_inv_empty) as (t & -> & HI & _ & Hroots).
  - intros r Hr%Hin. unfold universe. by apply elem_of_union_l, elem_of_dom.
  - unfold unvisited, cycle_fuel. cbn. by rewrite dom_empty_L, difference_empty_L.
  - cbn [mbind res_bind]. exists (t_out t). split; [done|]. intros x. rewrite (i_out _ _ HI).
    split; [by intros [_ ?]|]. intros Hc. split; [|done]. split.
    + by apply Hroots, Hin, on_cycle_bound.
    + intros Hx. destruct (i_back _ _ HI x Hx) as (f & Hf & _). by apply elem_of_nil in Hf.
Qed.
End Cycles.

(** C26: in whatever order the hash map gives its keys, Tarjan's loop over the row
    substitution ends and returns exactly the variables that lie on a cycle of
    the substitution graph. *)
Theorem cycle_nodes_spec (subst : gmap CapVarId CapRow) (roots : list CapVarId) :
  Permutation roots (elements (dom subst)) ->
  exists X, cap_cycle_nodes subst roots = Done X /\ forall x, x ∈ X <-> on_cycle subst x.
Proof. apply cycle_nodes_ok. Qed.

Definition example_subst : gmap CapVarId CapRow :=
  {[ 1 := Resolved 0 [2; 5]; 2 := Resolved 0 [3]; 3 := Resolved 0 [1; 4]; 4 := Resolved 0 [6]; 7 := Resolved 0 [7; 8];
     8 := Unknown ]}.

Lemma cycle_nodes_spec_witness :
  Permutation [4; 8; 3; 7; 2; 1] (elements (dom example_subst))
  /\ (exists X, cap_cycle_nodes example_subst [4; 8; 3; 7; 2; 1] = Done X
      /\ forall x, x ∈ X <-> on_cycle example_subst x)
  /\ cap_cycle_nodes example_subst [4; 8; 3; 7; 2; 1] = Done {[1; 2; 3; 7]}.
Proof.
  assert (Hp : Permutation [4; 8; 3; 7; 2; 1] (elements (dom example_subst))).
  { apply NoDup_Permutation; [|apply NoDup_elements|].
    - apply (bool_decide_eq_true_1 _); by vm_compute.
    - intros x. rewrite elem_of_elements. unfold example_subst. rewrite !dom_insert_L, dom_singleton_L. set_solver. }
  split; [apply Hp|]. split; [apply (cycle_nodes_spec example_subst _ Hp)|by vm_compute].
Defined.
