(* ===== verification/Ty.v ===== *)
(** The types of the checker ([kryos-types/src/ty.rs], [Type]) and the functions
    on them that need no inference state.

    Its results: a type whose rows are stamped unknown has the shape of the type
    it came from and no row that could be judged harmless; the text of a type
    does not depend on its rows. *)

From S2P Require Import Prelude Machine Utf8 Text Capability CapRow.

#[local] Open Scope N_scope.

Inductive Ty :=
| Ty_I8 | Ty_I16 | Ty_I32 | Ty_I64 | Ty_I128 | Ty_U8 | Ty_U16 | Ty_U32 | Ty_U64 | Ty_U128
| Ty_F32 | Ty_F64 | Ty_Bool | Ty_Char | Ty_Str | Ty_USize | Ty_ISize | Ty_Void | Ty_Never
| Ty_Array (element : Ty) (size : option Z)
| Ty_Tuple (elements : list Ty)
| Ty_Map (key value : Ty)
| Ty_Set (element : Ty)
| Ty_Option (inner : Ty)
| Ty_Result (ok err : Ty)
| Ty_Struct (name : str) (generics : list Ty)
| Ty_Enum (name : str) (generics : list Ty)
| Ty_Function (params : list Ty) (ret : Ty) (caps : CapRow)
| Ty_Reference (inner : Ty) (mutable : bool)
| Ty_Shared (inner : Ty)
| Ty_Weak (inner : Ty)
| Ty_Pointer (inner : Ty) (mutable : bool)
| Ty_DynTrait (trait_name : str)
| Ty_Var (id : N)
| Ty_Error.

Definition is_integer (t : Ty) : bool :=
  match t with
  | Ty_I8 | Ty_I16 | Ty_I32 | Ty_I64 | Ty_I128 | Ty_U8 | Ty_U16 | Ty_U32 | Ty_U64 | Ty_U128
  | Ty_USize | Ty_ISize => true
  | _ => false
  end.

Definition is_float (t : Ty) : bool := match t with Ty_F32 | Ty_F64 => true | _ => false end.
Definition is_numeric (t : Ty) : bool := is_integer t || is_float t.

Definition is_signed_integer (t : Ty) : bool :=
  match t with Ty_I8 | Ty_I16 | Ty_I32 | Ty_I64 | Ty_I128 | Ty_ISize => true | _ => false end.

Definition is_error (t : Ty) : bool := match t with Ty_Error => true | _ => false end.

Fixpoint has_vars (t : Ty) : bool :=
  match t with
  | Ty_Var _ => true
  | Ty_Array e _ => has_vars e
  | Ty_Tuple es => existsb has_vars es
  | Ty_Map k v => has_vars k || has_vars v
  | Ty_Set e => has_vars e
  | Ty_Option i => has_vars i
  | Ty_Result o e => has_vars o || has_vars e
  | Ty_Struct _ gs | Ty_Enum _ gs => existsb has_vars gs
  | Ty_Function ps r _ => existsb has_vars ps || has_vars r
  | Ty_Reference i _ | Ty_Shared i | Ty_Weak i | Ty_Pointer i _ => has_vars i
  | _ => false
  end.

Fixpoint with_caps_erased_to_unknown (t : Ty) : Ty :=
  match t with
  | Ty_I8 | Ty_I16 | Ty_I32 | Ty_I64 | Ty_I128 | Ty_U8 | Ty_U16 | Ty_U32 | Ty_U64 | Ty_U128
  | Ty_F32 | Ty_F64 | Ty_Bool | Ty_Char | Ty_Str | Ty_USize | Ty_ISize | Ty_Void | Ty_Never
  | Ty_DynTrait _ | Ty_Var _ | Ty_Error => t
  | Ty_Array e n => Ty_Array (with_caps_erased_to_unknown e) n
  | Ty_Tuple es => Ty_Tuple (map with_caps_erased_to_unknown es)
  | Ty_Map k v => Ty_Map (with_caps_erased_to_unknown k) (with_caps_erased_to_unknown v)
  | Ty_Set e => Ty_Set (with_caps_erased_to_unknown e)
  | Ty_Option i => Ty_Option (with_caps_erased_to_unknown i)
  | Ty_Result o e => Ty_Result (with_caps_erased_to_unknown o) (with_caps_erased_to_unknown e)
  | Ty_Struct n gs => Ty_Struct n (map with_caps_erased_to_unknown gs)
  | Ty_Enum n gs => Ty_Enum n (map with_caps_erased_to_unknown gs)
  | Ty_Function ps r _ =>
      Ty_Function (map with_caps_erased_to_unknown ps) (with_caps_erased_to_unknown r) Unknown
  | Ty_Reference i m => Ty_Reference (with_caps_erased_to_unknown i) m
  | Ty_Shared i => Ty_Shared (with_caps_erased_to_unknown i)
  | Ty_Weak i => Ty_Weak (with_caps_erased_to_unknown i)
  | Ty_Pointer i m => Ty_Pointer (with_caps_erased_to_unknown i) m
  end.

(** The arms of [Type::from_name]. *)
Definition name_table : list (string * Ty) :=
  [("i8", Ty_I8); ("i16", Ty_I16); ("i32", Ty_I32); ("i64", Ty_I64); ("i128", Ty_I128);
   ("u8", Ty_U8); ("u16", Ty_U16); ("u32", Ty_U32); ("u64", Ty_U64); ("u128", Ty_U128);
   ("f32", Ty_F32); ("f64", Ty_F64); ("bool", Ty_Bool); ("char", Ty_Char);
   ("str", Ty_Str); ("string", Ty_Str); ("String", Ty_Str); ("usize", Ty_USize); ("isize", Ty_ISize);
   ("void", Ty_Void); ("never", Ty_Never); ("Never", Ty_Never);
   ("ptr", Ty_Pointer Ty_Void true); ("any", Ty_Error); ("Any", Ty_Error)]%string.

Definition from_name (name : str) : option Ty :=
  snd <$> List.find (fun row => bool_decide (bytes (fst row) = name)) name_table.

(** The separators of a list in [Display]. *)
Definition comma : str := bytes ", ".
Definition sep_by (l : list str) : str :=
  match l with [] => [] | x :: l => x ++ concat (map (fun y => comma ++ y) l) end.

(** [impl Display for Type] *)
Fixpoint ty_display (t : Ty) : str :=
  match t with
  | Ty_I8 => bytes "i8" | Ty_I16 => bytes "i16" | Ty_I32 => bytes "i32" | Ty_I64 => bytes "i64"
  | Ty_I128 => bytes "i128" | Ty_U8 => bytes "u8" | Ty_U16 => bytes "u16" | Ty_U32 => bytes "u32"
  | Ty_U64 => bytes "u64" | Ty_U128 => bytes "u128" | Ty_F32 => bytes "f32" | Ty_F64 => bytes "f64"
  | Ty_Bool => bytes "bool" | Ty_Char => bytes "char" | Ty_Str => bytes "str" | Ty_USize => bytes "usize"
  | Ty_ISize => bytes "isize" | Ty_Void => bytes "void" | Ty_Never => bytes "!"
  | Ty_Array e (Some n) => bytes "[" ++ ty_display e ++ bytes "; " ++ print_u64 n ++ bytes "]"
  | Ty_Array e None => bytes "[" ++ ty_display e ++ bytes "]"
  | Ty_Tuple es => bytes "(" ++ sep_by (map ty_display es) ++ bytes ")"
  | Ty_Map k v => bytes "map<" ++ ty_display k ++ comma ++ ty_display v ++ bytes ">"
  | Ty_Set e => bytes "set<" ++ ty_display e ++ bytes ">"
  | Ty_Option i => bytes "Option<" ++ ty_display i ++ bytes ">"
  | Ty_Result o e => bytes "Result<" ++ ty_display o ++ comma ++ ty_display e ++ bytes ">"
  | Ty_Struct n gs | Ty_Enum n gs =>
      n ++ match gs with [] => [] | _ => bytes "<" ++ sep_by (map ty_display gs) ++ bytes ">" end
  | Ty_Function ps r _ => bytes "fn(" ++ sep_by (map ty_display ps) ++ bytes ") -> " ++ ty_display r
  | Ty_Reference i true => bytes "&mut " ++ ty_display i
  | Ty_Reference i false => bytes "&" ++ ty_display i
  | Ty_Shared i => bytes "shared " ++ ty_display i
  | Ty_Weak i => bytes "weak " ++ ty_display i
  | Ty_Pointer i true => bytes "*mut " ++ ty_display i
  | Ty_Pointer i false => bytes "*const " ++ ty_display i
  | Ty_DynTrait n => bytes "dyn " ++ n
  | Ty_Var id => bytes "?T" ++ print_u64 (Z.of_N id)
  | Ty_Error => bytes "<error>"
  end.

(* ------------------------------------------------------------------ *)
(** ** Sub-types                                                       *)
(* ------------------------------------------------------------------ *)

Definition children (t : Ty) : list Ty :=
  match t with
  | Ty_Array e _ => [e]
  | Ty_Tuple es => es
  | Ty_Map k v => [k; v]
  | Ty_Set e => [e]
  | Ty_Option i => [i]
  | Ty_Result o e => [o; e]
  | Ty_Struct _ gs | Ty_Enum _ gs => gs
  | Ty_Function ps r _ => ps ++ [r]
  | Ty_Reference i _ | Ty_Shared i | Ty_Weak i | Ty_Pointer i _ => [i]
  | _ => []
  end.

Fixpoint ty_size (t : Ty) : nat :=
  S match t with
    | Ty_Array e _ => ty_size e
    | Ty_Tuple es => sum_list_with ty_size es
    | Ty_Map k v => ty_size k + (ty_size v + 0)
    | Ty_Set e => ty_size e
    | Ty_Option i => ty_size i
    | Ty_Result o e => ty_size o + (ty_size e + 0)
    | Ty_Struct _ gs | Ty_Enum _ gs => sum_list_with ty_size gs
    | Ty_Function ps r _ => sum_list_with ty_size ps + ty_size r
    | Ty_Reference i _ | Ty_Shared i | Ty_Weak i | Ty_Pointer i _ => ty_size i
    | _ => 0
    end.

Lemma ty_size_children t : ty_size t = S (sum_list_with ty_size (children t)).
Proof. destruct t; cbn; rewrite ?sum_list_with_app; cbn; lia. Qed.

Lemma child_size c t : c ∈ children t -> (ty_size c < ty_size t)%nat.
Proof.
  intros Hc. rewrite (ty_size_children t). induction (children t) as [|x l IH]; [by apply elem_of_nil in Hc|].
  cbn. apply elem_of_cons in Hc as [->|Hc]; [lia|]. specialize (IH Hc). cbn in *. lia.
Qed.

(** Induction on the sub-types, lists of them included. *)
Lemma ty_children_ind (P : Ty -> Prop) :
  (forall t, (forall c, c ∈ children t -> P c) -> P t) -> forall t, P t.
Proof.
  intros HP t. remember (ty_size t) as n eqn:Hn. revert t Hn.
  induction (lt_wf n) as [n _ IH]. intros t ->. apply HP. intros c Hc%child_size. by eapply IH.
Qed.

Definition ty_eq_dec : forall a b : Ty, {a = b} + {a <> b}.
Proof.
  fix IH 1. intros a b.
  decide equality; try exact (List.list_eq_dec IH _ _); try apply bool_dec; try apply N.eq_dec;
    try apply CapRow_eq_dec; try exact (decide (_ = _)).
Defined.

#[export] Instance Ty_eq_dec : EqDecision Ty := ty_eq_dec.

(* ------------------------------------------------------------------ *)
(** ** Rows inside a type                                              *)
(* ------------------------------------------------------------------ *)

Definition own_rows (t : Ty) : list CapRow := match t with Ty_Function _ _ r => [r] | _ => [] end.

(** [s] occurs in [t]. *)
Inductive subterm : Ty -> Ty -> Prop :=
| subterm_refl t : subterm t t
| subterm_child s c t : c ∈ children t -> subterm s c -> subterm s t.

Lemma has_vars_children t :
  has_vars t = match t with Ty_Var _ => true | _ => existsb has_vars (children t) end.
Proof. destruct t; cbn; rewrite ?existsb_app; cbn; by rewrite ?orb_false_r. Qed.

Lemma has_vars_subterm t : has_vars t = true <-> exists id, subterm (Ty_Var id) t.
Proof.
  induction t as [t IH] using ty_children_ind. rewrite has_vars_children. split.
  - intros Ht. assert (Hor : (exists id, t = Ty_Var id) \/ existsb has_vars (children t) = true)
      by (destruct t; eauto). destruct Hor as [[id ->]|Hc]; [exists id; constructor|].
    apply existsb_exists in Hc as (c & Hc%list_elem_of_In & Hv). apply (IH c Hc) in Hv as [id Hid].
    exists id. by eapply subterm_child.
  - intros [id Hs]. inversion Hs as [|? c ? Hc Hid]; subst; [done|].
    assert (Hex : existsb has_vars (children t) = true); [|by destruct t].
    apply existsb_exists. exists c. split; [by apply list_elem_of_In|]. apply (IH c Hc). by exists id.
Qed.

Lemma erased_children t :
  children (with_caps_erased_to_unknown t) = map with_caps_erased_to_unknown (children t).
Proof. destruct t; cbn; by rewrite ?map_app. Qed.

Lemma erased_rows_unknown t s r :
  subterm s (with_caps_erased_to_unknown t) -> r ∈ own_rows s -> r = Unknown.
Proof.
  revert s. induction t as [t IH] using ty_children_ind. intros s Hs Hr.
  inversion Hs as [|? c ? Hc Hsc]; subst.
  - destruct t; cbn in Hr; apply elem_of_cons in Hr as [->|Hr] || idtac; try done; by apply elem_of_nil in Hr.
  - rewrite erased_children in Hc. apply list_elem_of_fmap in Hc as (c' & -> & Hc'). by apply (IH c' Hc' s).
Qed.

Lemma map_ext_in_fix {A B} (f g : A -> B) l : (forall x, x ∈ l -> f x = g x) -> map f l = map g l.
Proof. intros Hf. apply map_ext_in. intros x Hx%list_elem_of_In. by apply Hf. Qed.

(** The text of a type depends only on its shape. *)
Lemma erased_display t : ty_display (with_caps_erased_to_unknown t) = ty_display t.
Proof.
  induction t as [t IH] using ty_children_ind.
  assert (Hmap : forall l, (forall c, c ∈ l -> c ∈ children t) ->
    map ty_display (map with_caps_erased_to_unknown l) = map ty_display l).
  { intros l Hl. rewrite map_map. apply map_ext_in_fix. intros c Hc. by apply IH, Hl. }
  assert (Hc : forall c, c ∈ children t -> ty_display (with_caps_erased_to_unknown c) = ty_display c) by done.
  destruct t; cbn [with_caps_erased_to_unknown]; try reflexivity.
  all: cbn [children] in Hmap, Hc; cbn [ty_display].
  all: rewrite ?Hmap by (intros; (done || (apply elem_of_app; by left))).
  all: rewrite ?Hc by (rewrite ?elem_of_app, ?elem_of_cons; tauto).
  all: try reflexivity.
  all: match goal with |- context [map _ ?l] => by destruct l end.
Qed.

Lemma erased_has_vars t : has_vars (with_caps_erased_to_unknown t) = has_vars t.
Proof.
  induction t as [t IH] using ty_children_ind. rewrite (has_vars_children t), has_vars_children, erased_children.
  assert (He : existsb has_vars (map with_caps_erased_to_unknown (children t)) = existsb has_vars (children t)).
  { induction (children t) as [|c l IHl]; [done|]. cbn. rewrite IH by by left. f_equal. apply IHl.
    intros c' Hc'. apply IH. by right. }
  rewrite He. by destruct t.
Qed.

(* ------------------------------------------------------------------ *)
(** ** Replacing the sub-types                                         *)
(* ------------------------------------------------------------------ *)

Definition with_children (t : Ty) (cs : list Ty) : Ty :=
  match t, cs with
  | Ty_Array _ n, [e] => Ty_Array e n
  | Ty_Tuple _, es => Ty_Tuple es
  | Ty_Map _ _, [k; v] => Ty_Map k v
  | Ty_Set _, [e] => Ty_Set e
  | Ty_Option _, [i] => Ty_Option i
  | Ty_Result _ _, [o; e] => Ty_Result o e
  | Ty_Struct n _, gs => Ty_Struct n gs
  | Ty_Enum n _, gs => Ty_Enum n gs
  | Ty_Function _ _ c, cs => match rev cs with r :: ps => Ty_Function (rev ps) r c | [] => t end
  | Ty_Reference _ m, [i] => Ty_Reference i m
  | Ty_Shared _, [i] => Ty_Shared i
  | Ty_Weak _, [i] => Ty_Weak i
  | Ty_Pointer _ m, [i] => Ty_Pointer i m
  | _, _ => t
  end.

Definition is_var (t : Ty) : bool := match t with Ty_Var _ => true | _ => false end.

Lemma with_children_function ps r c ps' r' :
  with_children (Ty_Function ps r c) (ps' ++ [r']) = Ty_Function ps' r' c.
Proof. cbn. rewrite rev_app_distr. cbn. by rewrite rev_involutive. Qed.

(** A list as long as that of the parameters and the result. *)
Lemma function_children_inv {A} (cs : list A) (n : nat) : length cs = (n + 1)%nat ->
  exists ps r, cs = ps ++ [r] /\ length ps = n.
Proof.
  intros Hl. destruct cs as [|r ps _] using rev_ind; [cbn in Hl; lia|]. exists ps, r. split; [done|].
  rewrite length_app in Hl. cbn in Hl. lia.
Qed.

Lemma children_with_children t cs : length cs = length (children t) -> children (with_children t cs) = cs.
Proof.
  destruct t; cbn [children length]; try (destruct cs as [|? [|? [|? ?]]]; cbn; congruence).
  rewrite length_app. cbn [length]. intros (ps & r & -> & _)%function_children_inv.
  by rewrite with_children_function.
Qed.

Lemma with_children_id t : with_children t (children t) = t.
Proof. destruct t; try done. apply with_children_function. Qed.

Lemma own_rows_with_children t cs : length cs = length (children t) -> own_rows (with_children t cs) = own_rows t.
Proof.
  destruct t; cbn [children length]; try (destruct cs as [|? [|? [|? ?]]]; cbn; congruence).
  rewrite length_app. cbn [length]. intros (ps & r & -> & _)%function_children_inv.
  by rewrite with_children_function.
Qed.

Lemma is_var_with_children t cs : is_var (with_children t cs) = is_var t.
Proof. destruct t; cbn; try done; repeat case_match; by simplify_eq. Qed.

(** Two nodes that differ at most in their sub-types. *)
Lemma erased_with_children t cs : length cs = length (children t) ->
  with_caps_erased_to_unknown (with_children t cs)
  = with_children (with_caps_erased_to_unknown t) (map with_caps_erased_to_unknown cs).
Proof.
  destruct t; cbn [children length]; try (destruct cs as [|? [|? [|? ?]]]; cbn; congruence).
  rewrite length_app. cbn [length]. intros (ps & r & -> & _)%function_children_inv.
  rewrite with_children_function, map_app. cbn [map with_caps_erased_to_unknown].
  by rewrite with_children_function.
Qed.
