(* ===== verification/TypeEnv.v ===== *)
(** The type environment ([kryos-types/src/env.rs]): scopes of variables, functions, types,
    traits and implementations.  A name means its innermost definition; which enum a bare
    variant belongs to does not depend on the iteration order of the hash maps, which
    method a name means can. *)

From S2P Require Import Prelude Machine Utf8 Text CapRow Ty.

(* ------------------------------------------------------------------ *)
(** ** Data                                                            *)
(* ------------------------------------------------------------------ *)

Record StructDef := mkStructDef {
  sd_name : str; sd_generic_params : list str; sd_generic_var_ids : list N; sd_fields : list (str * Ty) }.
Record EnumDef := mkEnumDef {
  ed_name : str; ed_generic_params : list str; ed_generic_var_ids : list N; ed_variants : list (str * list Ty) }.
Record FunctionSig := mkSig {
  fs_name : str;
  fs_generic_params : list str;
  fs_generic_var_ids : list N;
  fs_generic_cap_var_ids : list CapVarId;
  fs_own_cap_var : CapVarId;
  fs_params : list (str * Ty);
  fs_ret : Ty
}.
Record TraitDef := mkTraitDef { td_name : str; td_generic_params : list str; td_methods : list FunctionSig }.

Record TyScope := mkTyScope {
  variables : gmap str Ty;
  mutable_vars : gset str;
  functions : gmap str FunctionSig;
  structs : gmap str StructDef;
  enums : gmap str EnumDef;
  traits : gmap str TraitDef;
  impls : gmap (str * option str) (list FunctionSig)
}.
Definition new_scope : TyScope := mkTyScope ∅ ∅ ∅ ∅ ∅ ∅ ∅.
(** [TypeEnv]; the innermost scope is the first of the list. *)
Abbreviation TypeEnv := (list TyScope).
Definition new_env : TypeEnv := [new_scope].

Definition push_env (env : TypeEnv) : TypeEnv := new_scope :: env.
(** The assertion is checked in debug builds. *)
Definition pop_env (env : TypeEnv) : res TypeEnv :=
  match env with _ :: ((_ :: _) as env) => Done env | _ => Panic end.
(** [current_scope_mut] *)
Definition in_current (f : TyScope -> TyScope) (env : TypeEnv) : res TypeEnv :=
  match env with sc :: env => Done (f sc :: env) | [] => Panic end.

(* ------------------------------------------------------------------ *)
(** ** Definitions and lookups                                         *)
(* ------------------------------------------------------------------ *)

Definition env_define_var (name : str) (ty : Ty) : TypeEnv -> res TypeEnv :=
  in_current (fun sc => mkTyScope (<[name := ty]> (variables sc)) (mutable_vars sc) (functions sc) (structs sc)
    (enums sc) (traits sc) (impls sc)).
Definition define_var_mut (name : str) (ty : Ty) : TypeEnv -> res TypeEnv :=
  in_current (fun sc => mkTyScope (<[name := ty]> (variables sc)) ({[name]} ∪ mutable_vars sc) (functions sc) (structs sc)
    (enums sc) (traits sc) (impls sc)).
Definition define_function (sig : FunctionSig) : TypeEnv -> res TypeEnv :=
  in_current (fun sc => mkTyScope (variables sc) (mutable_vars sc) (<[fs_name sig := sig]> (functions sc)) (structs sc)
    (enums sc) (traits sc) (impls sc)).
Definition define_struct (d : StructDef) : TypeEnv -> res TypeEnv :=
  in_current (fun sc => mkTyScope (variables sc) (mutable_vars sc) (functions sc) (<[sd_name d := d]> (structs sc))
    (enums sc) (traits sc) (impls sc)).
Definition define_enum (d : EnumDef) : TypeEnv -> res TypeEnv :=
  in_current (fun sc => mkTyScope (variables sc) (mutable_vars sc) (functions sc) (structs sc)
    (<[ed_name d := d]> (enums sc)) (traits sc) (impls sc)).
Definition define_trait (d : TraitDef) : TypeEnv -> res TypeEnv :=
  in_current (fun sc => mkTyScope (variables sc) (mutable_vars sc) (functions sc) (structs sc)
    (enums sc) (<[td_name d := d]> (traits sc)) (impls sc)).
Definition define_impl (type_name : str) (trait_name : option str) (methods : list FunctionSig) : TypeEnv -> res TypeEnv :=
  in_current (fun sc => mkTyScope (variables sc) (mutable_vars sc) (functions sc) (structs sc)
    (enums sc) (traits sc) (<[(type_name, trait_name) := methods]> (impls sc))).

(** The first scope, from the innermost, in which [f] finds something. *)
Fixpoint first_scope {A} (f : TyScope -> option A) (env : TypeEnv) : option A :=
  match env with
  | [] => None
  | sc :: env => match f sc with Some x => Some x | None => first_scope f env end
  end.
Definition is_mutable (env : TypeEnv) (name : str) : bool :=
  default false (first_scope (fun sc =>
    if bool_decide (is_Some (variables sc !! name)) then Some (bool_decide (name ∈ mutable_vars sc)) else None) env).
Definition env_lookup_var (env : TypeEnv) (name : str) : option Ty := first_scope (fun sc => variables sc !! name) env.
Definition lookup_function (env : TypeEnv) (name : str) : option FunctionSig := first_scope (fun sc => functions sc !! name) env.
Definition lookup_struct (env : TypeEnv) (name : str) : option StructDef := first_scope (fun sc => structs sc !! name) env.
Definition lookup_enum (env : TypeEnv) (name : str) : option EnumDef := first_scope (fun sc => enums sc !! name) env.
Definition lookup_trait (env : TypeEnv) (name : str) : option TraitDef := first_scope (fun sc => traits sc !! name) env.
Definition lookup_field (env : TypeEnv) (type_name field_name : str) : option Ty :=
  d ← lookup_struct env type_name; snd ∘ snd <$> list_find (fun f => f.1 = field_name) (sd_fields d).

(** The order of [find_enum_by_variant]: the standard enums first, then by name. *)
Definition enum_rank (name : str) : N :=
  if bool_decide (name = bytes "Option") || bool_decide (name = bytes "Result") then 0 else 1.
Definition enum_before (a b : EnumDef) : bool :=
  match (enum_rank (ed_name a) ?= enum_rank (ed_name b))%N with
  | Lt => true
  | Gt => false
  | Eq => match str_cmp (ed_name a) (ed_name b) with Gt => false | _ => true end
  end.
(** The first of a list sorted by it, the sort being stable. *)
Fixpoint least_enum (l : list EnumDef) : option EnumDef :=
  match l with
  | [] => None
  | d :: l => match least_enum l with
    | Some d' => if enum_before d d' then Some d else Some d'
    | None => Some d
    end
  end.
Definition declares (variant : str) (d : EnumDef) : bool := existsb (fun v => bool_decide (v.1 = variant)) (ed_variants d).

(** The iteration orders of the maps. *)
Section Orders.
Context (enums_order : gmap str EnumDef -> list (str * EnumDef)).
Context (impls_order : gmap (str * option str) (list FunctionSig) -> list ((str * option str) * list FunctionSig)).

Definition find_enum_by_variant (env : TypeEnv) (variant : str) : option EnumDef :=
  first_scope (fun sc => least_enum (filter (fun d => declares variant d = true) (enums_order (enums sc)).*2)) env.

Definition lookup_method (env : TypeEnv) (type_name method_name : str) : option FunctionSig :=
  first_scope (fun sc =>
    head (omap (fun '((ty, _), methods) =>
      if bool_decide (ty = type_name) then snd <$> list_find (fun m => fs_name m = method_name) methods else None)
      (impls_order (impls sc)))) env.
(** The names are pushed once. *)
Definition push_name (names : list str) (name : str) : list str :=
  if bool_decide (name ∈ names) then names else names ++ [name].
Definition all_method_names (env : TypeEnv) (type_name : str) : list str :=
  fold_left (fun names sc =>
    fold_left (fun names '((ty, _), methods) =>
      if bool_decide (ty = type_name) then fold_left push_name (fs_name <$> methods) names else names)
      (impls_order (impls sc)) names) env [].
End Orders.

Section Names.
Context (key_order : gset str -> list str).
Definition all_var_names (env : TypeEnv) : list str :=
  fold_left (fun names sc =>
    fold_left push_name (key_order (dom (functions sc))) (fold_left push_name (key_order (dom (variables sc))) names)) env [].
Definition all_type_names (env : TypeEnv) : list str :=
  fold_left (fun names sc =>
    fold_left push_name (key_order (dom (enums sc))) (fold_left push_name (key_order (dom (structs sc))) names)) env [].
Definition all_struct_names (env : TypeEnv) : list str :=
  fold_left (fun names sc => fold_left push_name (key_order (dom (structs sc))) names) env [].
End Names.

(* ------------------------------------------------------------------ *)
(** ** A name means its innermost definition                           *)
(* ------------------------------------------------------------------ *)

Lemma lookup_defined name ty env env' x :
  env_define_var name ty env = Done env' ->
  env_lookup_var env' x = if decide (name = x) then Some ty else env_lookup_var env x.
Proof.
  intros E. destruct env as [|sc env]; [done|]. injection E as <-. unfold env_lookup_var. cbn. destruct (decide (name = x)) as [->|Hne].
  - by rewrite lookup_insert_eq.
  - by rewrite lookup_insert_ne.
Qed.
(** A scope leaves no trace. *)
Lemma scope_leaves_no_trace (fs : list (TypeEnv -> res TypeEnv)) env env' :
  env <> [] -> Forall (fun f => exists g, f = in_current g) fs ->
  (a ← foldl (fun r f => a ← r; f a) (Done (push_env env)) fs; pop_env a) = Done env' -> env' = env.
Proof.
  intros Hne Hfs. unfold push_env. generalize new_scope as sc. induction Hfs as [|f fs [g ->] Hfs IH]; intros sc E; cbn in E.
  - destruct env; [done|]. by injection E as <-.
  - by eapply IH.
Qed.
Lemma push_name_elem names name x : x ∈ push_name names name <-> x ∈ names \/ x = name.
Proof.
  unfold push_name. case_bool_decide as H; [|rewrite elem_of_app, list_elem_of_singleton; tauto].
  split; [by left|]. by intros [?| ->].
Qed.
Lemma push_names_spec l names :
  NoDup names -> NoDup (fold_left push_name l names) /\ forall x, x ∈ fold_left push_name l names <-> x ∈ names \/ x ∈ l.
Proof.
  revert names. induction l as [|name l IH]; intros names Hnd; cbn.
  - split; [done|]. intros x. rewrite elem_of_nil. tauto.
  - destruct (IH (push_name names name)) as [H1 H2].
    + unfold push_name. case_bool_decide; [done|]. apply NoDup_app. split; [done|]. split; [|apply NoDup_singleton].
      intros y Hy ->%list_elem_of_singleton. done.
    + split; [done|]. intros x. rewrite H2, push_name_elem, elem_of_cons. tauto.
Qed.

(* ------------------------------------------------------------------ *)
(** ** Hash orders                                                     *)
(* ------------------------------------------------------------------ *)

Lemma enum_before_total a b : enum_before a b = true \/ enum_before b a = true.
Proof.
  unfold enum_before. rewrite (N.compare_antisym (enum_rank (ed_name a))), (str_cmp_antisym (ed_name a)).
  destruct (_ ?= _)%N; cbn; auto. destruct (str_cmp _ _); cbn; auto.
Qed.
Lemma enum_before_antisym a b : enum_before a b = true -> enum_before b a = true -> ed_name a = ed_name b.
Proof.
  unfold enum_before. rewrite (N.compare_antisym (enum_rank (ed_name a))), (str_cmp_antisym (ed_name a)).
  destruct (_ ?= _)%N; cbn; try done. destruct (str_cmp _ _) eqn:H; cbn; try done. intros _ _. by apply str_cmp_eq.
Qed.
Lemma str_cmp_le_trans a b c : str_cmp a b <> Gt -> str_cmp b c <> Gt -> str_cmp a c <> Gt.
Proof.
  intros H1 H2. destruct (str_cmp a b) eqn:E1; [apply str_cmp_eq in E1 as ->; done| |done].
  destruct (str_cmp b c) eqn:E2; [apply str_cmp_eq in E2 as <-; by rewrite E1| |done].
  by rewrite (str_cmp_trans a b c).
Qed.
Lemma enum_before_trans a b c : enum_before a b = true -> enum_before b c = true -> enum_before a c = true.
Proof.
  unfold enum_before. pose proof (str_cmp_le_trans (ed_name a) (ed_name b) (ed_name c)) as Ht.
  destruct (N.compare_spec (enum_rank (ed_name a)) (enum_rank (ed_name b))),
    (N.compare_spec (enum_rank (ed_name b)) (enum_rank (ed_name c))),
    (N.compare_spec (enum_rank (ed_name a)) (enum_rank (ed_name c))); try done; try lia.
  destruct (str_cmp (ed_name a) (ed_name b)), (str_cmp (ed_name b) (ed_name c)); try done;
    destruct (str_cmp (ed_name a) (ed_name c)); try done; by destruct Ht.
Qed.
Lemma least_enum_spec l d :
  least_enum l = Some d -> d ∈ l /\ Forall (fun d' => enum_before d d' = true) l.
Proof.
  revert d. induction l as [|e l IH]; intros d; cbn; [done|].
  assert (Hrefl : forall d, enum_before d d = true) by (intros d0; by destruct (enum_before_total d0 d0)).
  destruct (least_enum l) as [d'|] eqn:Hl.
  - destruct (IH d' eq_refl) as [Hin Hle]. destruct (enum_before e d') eqn:He; intros [= <-].
    + split; [constructor|]. constructor; [done|]. eapply Forall_impl; [exact Hle|]. intros x. by apply enum_before_trans.
    + split; [by constructor|]. constructor; [|done]. destruct (enum_before_total e d'); congruence.
  - intros [= <-]. split; [constructor|]. constructor; [done|]. destruct l; [constructor|].
    cbn in Hl. destruct (least_enum l); [destruct (enum_before _ _)|]; done.
Qed.
Lemma least_enum_none l : least_enum l = None <-> l = [].
Proof. destruct l as [|d l]; cbn; [done|]. split; [|done]. destruct (least_enum l); [destruct (enum_before _ _)|]; done. Qed.
Lemma least_enum_perm l l' :
  l ≡ₚ l' -> (forall d d', d ∈ l -> d' ∈ l -> ed_name d = ed_name d' -> d = d') -> least_enum l = least_enum l'.
Proof.
  intros Hp Hinj. destruct (least_enum l) as [d|] eqn:H, (least_enum l') as [d'|] eqn:H'; try done.
  - apply least_enum_spec in H as [H1 H2]. apply least_enum_spec in H' as [H1' H2']. rewrite <-Hp in H1'. f_equal.
    apply Hinj; [done..|]. rewrite Forall_forall in H2. rewrite <-Hp, Forall_forall in H2'.
    apply enum_before_antisym; auto.
  - apply least_enum_none in H' as ->. apply Permutation_nil_r in Hp as ->. done.
  - apply least_enum_none in H as ->. apply Permutation_nil_l in Hp as <-. done.
Qed.

(** Enums are stored under their names. *)
Definition enums_named (env : TypeEnv) : Prop :=
  Forall (fun sc => map_Forall (fun name d => ed_name d = name) (enums sc)) env.
Lemma enums_named_define d env env' : enums_named env -> define_enum d env = Done env' -> enums_named env'.
Proof.
  intros H E. destruct env as [|sc env]; [done|]. injection E as <-. apply Forall_cons in H as [H1 H2].
  constructor; [|done]. by apply map_Forall_insert_2.
Qed.

(** Which enum a bare variant belongs to does not depend on the iteration order of the
    hash maps: every order gives the innermost scope's enum that declares the variant, the
    standard [Option] and [Result] before the others, and the others by name. *)
Lemma find_enum_deterministic order env variant :
  (forall m, order m ≡ₚ map_to_list m) -> enums_named env ->
  find_enum_by_variant order env variant = find_enum_by_variant map_to_list env variant
  /\ match find_enum_by_variant order env variant with
     | Some d => exists sc, sc ∈ env /\ enums sc !! ed_name d = Some d /\ declares variant d = true
         /\ map_Forall (fun _ d' => declares variant d' = true -> enum_before d d' = true) (enums sc)
     | None => Forall (fun sc => map_Forall (fun _ d => declares variant d = false) (enums sc)) env
     end.
Proof.
  intros Hp Henv. unfold find_enum_by_variant. induction Henv as [|sc env Hsc Henv IH]; cbn [first_scope]; [by split; [|constructor]|].
  assert (Heq : least_enum (filter (fun d => declares variant d = true) (order (enums sc)).*2)
    = least_enum (filter (fun d => declares variant d = true) (map_to_list (enums sc)).*2)).
  { apply least_enum_perm; [by rewrite Hp|]. intros d d' Hd Hd' Hn.
    apply list_elem_of_filter in Hd as [_ Hd]. apply list_elem_of_filter in Hd' as [_ Hd'].
    apply list_elem_of_fmap in Hd as ([k e] & -> & Hd). apply list_elem_of_fmap in Hd' as ([k' e'] & -> & Hd').
    rewrite Hp, elem_of_map_to_list in Hd, Hd'. cbn in Hn. pose proof (Hsc _ _ Hd) as Hk. pose proof (Hsc _ _ Hd') as Hk'. cbn in Hk, Hk'. congruence. }
  destruct IH as [IH1 IH2]. rewrite Heq. split; [by rewrite IH1|].
  destruct (least_enum (filter (fun d => declares variant d = true) (map_to_list (enums sc)).*2)) as [d|] eqn:Hl.
  - apply least_enum_spec in Hl as [Hin Hle]. apply list_elem_of_filter in Hin as [Hd Hin].
    apply list_elem_of_fmap in Hin as ([k e] & -> & Hin). apply elem_of_map_to_list in Hin. pose proof (Hsc _ _ Hin) as Hk. cbn in Hk, Hd |- *.
    exists sc. split; [constructor|]. split; [by rewrite Hk|]. split; [done|].
    intros k' d' Hd' Hdec. rewrite Forall_forall in Hle. apply Hle, list_elem_of_filter. split; [done|].
    apply list_elem_of_fmap. exists (k', d'). split; [done|]. by apply elem_of_map_to_list.
  - apply least_enum_none in Hl.
    assert (Hnone : map_Forall (fun _ d => declares variant d = false) (enums sc)).
    { intros k d Hd. destruct (declares variant d) eqn:Hdec; [|done].
      assert (Hin : d ∈ filter (fun d => declares variant d = true) (map_to_list (enums sc)).*2).
      { apply list_elem_of_filter. split; [done|]. apply list_elem_of_fmap. exists (k, d). split; [done|]. by apply elem_of_map_to_list. }
      rewrite Hl in Hin. by apply elem_of_nil in Hin. }
    destruct (first_scope _ env) as [d|].
    + destruct IH2 as (sc' & Hsc' & H). exists sc'. split; [by constructor|done].
    + by constructor.
Qed.

Definition colour : EnumDef := mkEnumDef (bytes "Colour") [] [] [(bytes "Red", []); (bytes "Some", [])].
Definition option_def : EnumDef := mkEnumDef (bytes "Option") [] [] [(bytes "Some", [Ty_I64]); (bytes "None", [])].
Definition two_enums : TypeEnv :=
  [mkTyScope ∅ ∅ ∅ ∅ {[bytes "Colour" := colour; bytes "Option" := option_def]} ∅ ∅].
Definition backwards (m : gmap str EnumDef) : list (str * EnumDef) := rev (map_to_list m).
Lemma find_enum_deterministic_witness :
  find_enum_by_variant backwards two_enums (bytes "Some") = find_enum_by_variant map_to_list two_enums (bytes "Some")
  /\ find_enum_by_variant backwards two_enums (bytes "Some") = Some option_def.
Proof.
  split; [|vm_compute; reflexivity].
  refine (proj1 (find_enum_deterministic backwards two_enums (bytes "Some") _ _)).
  - intros m. symmetry. apply Permutation_rev.
  - constructor; [|constructor]. apply map_Forall_insert_2; [reflexivity|]. apply map_Forall_singleton. reflexivity.
Defined.

(** Two implementations of a type with a method of one name: the order decides. *)
Definition sig_of (ret : Ty) : FunctionSig := mkSig (bytes "show") [] [] [] 0 [] ret.
Definition two_impls : TypeEnv :=
  [mkTyScope ∅ ∅ ∅ ∅ ∅ ∅ {[(bytes "P", None) := [sig_of Ty_Str]; (bytes "P", Some (bytes "Show")) := [sig_of Ty_I64]]}].
Lemma lookup_method_by_order :
  lookup_method map_to_list two_impls (bytes "P") (bytes "show")
  <> lookup_method (fun m => rev (map_to_list m)) two_impls (bytes "P") (bytes "show").
Proof. vm_compute. discriminate. Qed.

(** A [let] after a [let mut] of the same name in one scope leaves the name mutable. *)
Lemma shadowed_stays_mutable :
  (env ← define_var_mut (bytes "x") Ty_I64 new_env; env ← env_define_var (bytes "x") Ty_I64 env; Done (is_mutable env (bytes "x")))
  = Done true.
Proof. vm_compute. reflexivity. Qed.

(** Two blocks of a type without a trait have one key: the second replaces the methods of the first. *)
Definition method_of (name : string) : FunctionSig := mkSig (bytes name) [] [] [] 0 [] Ty_I64.
Lemma second_impl_replaces :
  (env ← define_impl (bytes "P") None [method_of "area"] new_env; env ← define_impl (bytes "P") None [method_of "scale"] env;
   Done (lookup_method map_to_list env (bytes "P") (bytes "area"))) = Done None.
Proof. vm_compute. reflexivity. Qed.
