(* ===== verification/Exhaustive.v ===== *)
(** Exhaustiveness of matches ([kryos-types/src/exhaustive.rs]): on enums the missing variants
    that are reported are those of which some value is matched by no pattern, as long as the
    patterns of the fields are bindings and wildcards. *)

From S2P Require Import Prelude Machine Utf8 Text Token Ast CapRow Ty TypeEnv.

(* ------------------------------------------------------------------ *)
(** ** The code                                                        *)
(* ------------------------------------------------------------------ *)

(** The diagnostics, without their wording. *)
Inductive MatchDiag :=
| MD_MissingVariants (names : list str) (span : Span)
| MD_MissingBool (missing_true missing_false : bool) (span : Span)
| MD_NeedsCatchAll (type_name : str) (span : Span).

Definition is_catch_all (p : Pattern) : bool := match p with P_Wildcard _ | P_Ident _ _ _ => true | _ => false end.
Definition has_wildcard_or_ident (patterns : list Pattern) : bool := existsb is_catch_all patterns.

Fixpoint is_irrefutable_subpat (p : Pattern) : bool :=
  match p with
  | P_Wildcard _ | P_Ident _ _ _ => true
  | P_Struct _ fields _ => forallb (fun '(_, p) => is_irrefutable_subpat p) fields
  | P_Tuple elements _ => forallb is_irrefutable_subpat elements
  | _ => false
  end.
Definition is_irrefutable_struct_pattern (p : Pattern) : bool :=
  match p with P_Struct _ _ _ => is_irrefutable_subpat p | _ => false end.

(** The variants that are covered, and whether there is a catch-all. *)
Fixpoint collect_variant_coverage (variants : list str) (p : Pattern) (acc : gset str * bool) : gset str * bool :=
  let '(covered, has_catchall) := acc in
  match p with
  | P_Wildcard _ => (covered, true)
  | P_Ident name _ _ => if bool_decide (name ∈ variants) then ({[name]} ∪ covered, has_catchall) else (covered, true)
  | P_Enum _ variant _ _ => ({[variant]} ∪ covered, has_catchall)
  | P_Or patterns _ => fold_left (fun acc p => collect_variant_coverage variants p acc) patterns acc
  | _ => acc
  end.
Definition sort_names (names : list str) : list str := merge_sort (fun a b => str_cmp a b <> Gt) names.
Definition check_variant_exhaustive (patterns : list Pattern) (variants : list str) (span : Span) : list MatchDiag :=
  let '(covered, has_catchall) := fold_left (fun acc p => collect_variant_coverage variants p acc) patterns (∅, false) in
  if has_catchall then []
  else match filter (fun v => v ∉ covered) variants with
  | [] => []
  | missing => [MD_MissingVariants (sort_names missing) span]
  end.

Definition see_bool (p : Pattern) (seen : bool * bool) : bool * bool :=
  match p with
  | P_Literal (E_BoolLiteral true _) _ => (true, seen.2)
  | P_Literal (E_BoolLiteral false _) _ => (seen.1, true)
  | _ => seen
  end.
(** [None] when an or-pattern has a catch-all. *)
Fixpoint see_bools (patterns : list Pattern) (seen : bool * bool) : option (bool * bool) :=
  match patterns with
  | [] => Some seen
  | P_Or alts _ :: patterns =>
      if has_wildcard_or_ident alts then None
      else see_bools patterns (fold_left (fun seen p => see_bool p seen) alts seen)
  | p :: patterns => see_bools patterns (see_bool p seen)
  end.
Definition check_bool (patterns : list Pattern) (span : Span) : list MatchDiag :=
  match see_bools patterns (false, false) with
  | None | Some (true, true) => []
  | Some (seen_true, seen_false) => [MD_MissingBool (negb seen_true) (negb seen_false) span]
  end.
Definition check_requires_wildcard (type_name : str) (span : Span) : list MatchDiag := [MD_NeedsCatchAll type_name span].

(** The variants of the subject: the standard enums have no definition of their own. *)
Definition subject_variants (type_name : str) (enum_def : option EnumDef) : option (list str) :=
  if bool_decide (type_name = bytes "Option") then Some (bytes <$> ["None"; "Some"])
  else if bool_decide (type_name = bytes "Result") then Some (bytes <$> ["Ok"; "Err"])
  else (fun d => (ed_variants d).*1) <$> enum_def.
Definition check_exhaustive (type_name : str) (patterns : list Pattern) (enum_def : option EnumDef) (span : Span)
    : list MatchDiag :=
  if bool_decide (type_name = bytes "bool") then
    if has_wildcard_or_ident patterns then [] else check_bool patterns span
  else match subject_variants type_name enum_def with
  | Some variants => check_variant_exhaustive patterns variants span
  | None =>
      if has_wildcard_or_ident patterns then []
      else if existsb is_irrefutable_struct_pattern patterns then []
      else check_requires_wildcard type_name span
  end.

(* ------------------------------------------------------------------ *)
(** ** What a pattern matches                                          *)
(* ------------------------------------------------------------------ *)

(** The values of a match; a variant knows the variants of its enum. *)
Inductive value :=
| V_bool (b : bool)
| V_int (n : Z)
| V_str (s : str)
| V_char (c : Z)
| V_tuple (elements : list value)
| V_struct (fields : list (str * value))
| V_variant (variants : list str) (variant : str) (fields : list value).

Definition lit_matches (e : Expr) (v : value) : bool :=
  match e, v with
  | E_BoolLiteral b _, V_bool b' => Bool.eqb b b'
  | E_IntLiteral n _, V_int n' => (n =? n')%Z
  | E_StringLiteral s _, V_str s' => bool_decide (s = s')
  | E_CharLiteral c _, V_char c' => (c =? c')%Z
  | _, _ => false
  end.
Section All2.
Context {A B : Type} (f : A -> B -> bool).
Fixpoint all2 (l : list A) (k : list B) : bool :=
  match l, k with
  | [], [] => true
  | x :: l, y :: k => f x y && all2 l k
  | _, _ => false
  end.
End All2.
(** A bare name of a variant of the value's enum is a test, every other name a binding, and
    so is every name in a struct. *)
Fixpoint pat_matches (p : Pattern) (v : value) {struct p} : bool :=
  match p with
  | P_Wildcard _ => true
  | P_Ident name _ _ =>
      match v with
      | V_variant variants variant _ => if bool_decide (name ∈ variants) then bool_decide (name = variant) else true
      | _ => true
      end
  | P_Literal e _ => lit_matches e v
  | P_Tuple ps _ => match v with V_tuple vs => all2 pat_matches ps vs | _ => false end
  | P_Struct _ fields _ =>
      match v with
      | V_struct vs =>
          forallb (fun '(f, p) =>
            match list_find (fun fv => fv.1 = f) vs with
            | Some (_, (_, w)) => match p with P_Ident _ _ _ => true | _ => pat_matches p w end
            | None => false
            end) fields
      | _ => false
      end
  | P_Enum _ variant ps _ =>
      match v with V_variant _ variant' vs => bool_decide (variant = variant') && all2 pat_matches ps vs | _ => false end
  | P_Or ps _ => existsb (fun p => pat_matches p v) ps
  end.

(** The patterns of the fields of variants only bind, one for each field. *)
Definition binds (p : Pattern) : bool := match p with P_Wildcard _ | P_Ident _ _ _ => true | _ => false end.
Fixpoint shallow (arity : str -> nat) (p : Pattern) : bool :=
  match p with
  | P_Enum _ variant ps _ => Nat.eqb (length ps) (arity variant) && forallb binds ps
  | P_Or ps _ => forallb (shallow arity) ps
  | _ => true
  end.
(** The names that the patterns of fields bind, and the variants of the enums of the fields. *)
Fixpoint field_names (p : Pattern) : list str :=
  match p with
  | P_Enum _ _ ps _ => omap (fun p => match p with P_Ident name _ _ => Some name | _ => None end) ps
  | P_Or ps _ => flat_map field_names ps
  | _ => []
  end.
Definition own_variants (v : value) : list str := match v with V_variant variants _ _ => variants | _ => [] end.

Lemma binds_match p v :
  binds p = true -> (forall name m sp, p = P_Ident name m sp -> name ∉ own_variants v) -> pat_matches p v = true.
Proof.
  destruct p as [sp|name m sp| | | | |]; try done. intros _ H. cbn. destruct v; try done.
  rewrite bool_decide_eq_false_2; [done|]. by apply (H name m sp).
Qed.
Lemma all_bind ps vs :
  forallb binds ps = true -> length ps = length vs ->
  (forall name, name ∈ omap (fun p => match p with P_Ident name _ _ => Some name | _ => None end) ps ->
     name ∉ flat_map own_variants vs) ->
  all2 pat_matches ps vs = true.
Proof.
  revert vs. induction ps as [|p ps IH]; intros [|v vs] Hb Hl Hn; try done. cbn in Hb |- *.
  apply andb_true_iff in Hb as [Hp Hb]. rewrite binds_match; [|done|].
  - apply IH; [done|by injection Hl|]. intros name Hin Hv. apply (Hn name); [|cbn; apply elem_of_app; by right].
    cbn. destruct p as [|name' ? ?| | | | |]; try done. by constructor.
  - intros name m sp -> Hv. apply (Hn name); [constructor|]. cbn. apply elem_of_app. by left.
Qed.

(* ------------------------------------------------------------------ *)
(** ** Exactness on enums                                              *)
(* ------------------------------------------------------------------ *)

Section Coverage.
Context (variants : list str).
Definition gather (ps : list Pattern) (acc : gset str * bool) : gset str * bool :=
  fold_left (fun acc p => collect_variant_coverage variants p acc) ps acc.
(** A pattern covers a variant by itself. *)
Fixpoint covers (w : str) (p : Pattern) : bool :=
  match p with
  | P_Wildcard _ => true
  | P_Ident name _ _ => if bool_decide (name ∈ variants) then bool_decide (name = w) else true
  | P_Enum _ variant _ _ => bool_decide (variant = w)
  | P_Or ps _ => existsb (covers w) ps
  | _ => false
  end.
Definition counted (w : str) (acc : gset str * bool) : Prop := acc.2 = true \/ w ∈ acc.1.

Lemma coverage_spec w p acc : counted w (collect_variant_coverage variants p acc) <-> counted w acc \/ covers w p = true.
Proof.
  revert p acc. fix IH 1. intros p [covered catchall]. unfold counted. destruct p as [sp|name m sp| | | |n v ps sp|ps sp]; cbn.
  - clear IH. split; [by right|by left].
  - clear IH. case_bool_decide; cbn; [rewrite bool_decide_eq_true|]; set_solver.
  - clear IH. split; [by left|by intros [|]].
  - clear IH. split; [by left|by intros [|]].
  - clear IH. split; [by left|by intros [|]].
  - clear IH. rewrite bool_decide_eq_true. set_solver.
  - generalize covered catchall. induction ps as [|p ps IHps]; intros c b; cbn; [split; [by left|by intros [|]]|].
    destruct (collect_variant_coverage variants p (c, b)) as [c' b'] eqn:E.
    pose proof (IH p (c, b)) as Hp. rewrite E in Hp. unfold counted in Hp. cbn in Hp. rewrite IHps, Hp, orb_true_iff. tauto.
Qed.
Lemma gather_spec w ps acc : counted w (gather ps acc) <-> counted w acc \/ existsb (covers w) ps = true.
Proof.
  revert acc. induction ps as [|p ps IH]; intros acc; cbn; [split; [by left|by intros [|]]|].
  rewrite IH, coverage_spec, orb_true_iff. tauto.
Qed.

(** What covers a variant matches its values, and nothing else does. *)
Lemma covers_matches arity w p vs :
  w ∈ variants -> shallow arity p = true -> length vs = arity w ->
  (forall name, name ∈ field_names p -> name ∉ flat_map own_variants vs) ->
  pat_matches p (V_variant variants w vs) = covers w p.
Proof.
  intros Hw. revert p. fix IH 1. intros p Hs Hl Hn. destruct p as [sp|name m sp|e sp| | |n v ps sp|ps sp]; cbn in *; try (clear IH; done).
  - clear IH. by destruct e.
  - clear IH. case_bool_decide as Hv; [|done]. subst v. apply andb_true_iff in Hs as [Ha Hb]. apply Nat.eqb_eq in Ha.
    apply all_bind; [done|congruence|done].
  - induction ps as [|p ps IHps]; cbn in *; [done|]. apply andb_true_iff in Hs as [H1 H2]. f_equal.
    + apply IH; [done|done|]. intros name Hname. apply Hn, elem_of_app. by left.
    + apply IHps; [done|]. intros name Hname. apply Hn, elem_of_app. by right.
Qed.
End Coverage.

Lemma check_variant_nil ps variants span :
  check_variant_exhaustive ps variants span = [] <-> Forall (fun w => existsb (covers variants w) ps = true) variants.
Proof.
  unfold check_variant_exhaustive. fold (gather variants ps (∅, false)).
  pose proof (fun w => gather_spec variants w ps (∅, false)) as H. unfold counted in H. cbn in H.
  destruct (gather variants ps (∅, false)) as [covered catchall]. cbn in H. rewrite Forall_forall. destruct catchall.
  - split; [|done]. intros _ w _. destruct (proj1 (H w)) as [[|]|]; [by left|done|set_solver|done].
  - assert (Hf : filter (fun v => v ∉ covered) variants = [] <-> forall w, w ∈ variants -> w ∈ covered).
    { split.
      - intros Hf w Hw. destruct (decide (w ∈ covered)); [done|]. assert (Hin : w ∈ filter (fun v => v ∉ covered) variants) by (by apply list_elem_of_filter).
        rewrite Hf in Hin. by apply elem_of_nil in Hin.
      - intros Hall. destruct (filter (fun v => v ∉ covered) variants) as [|w l] eqn:E; [done|].
        assert (Hin : w ∈ filter (fun v => v ∉ covered) variants) by (rewrite E; constructor).
        apply list_elem_of_filter in Hin as [Hc Hin]. by destruct Hc; apply Hall. }
    assert (Hw : (forall w, w ∈ variants -> w ∈ covered) <-> forall w, w ∈ variants -> existsb (covers variants w) ps = true).
    { split; intros Hall w Hw; pose proof (H w) as Hx; pose proof (Hall w Hw); [destruct (proj1 Hx); [by right|set_solver|done]|].
      destruct (proj2 Hx); [by right|done|done]. }
    rewrite <-Hw, <-Hf. destruct (filter _ variants); done.
Qed.

(** C36: a match on an enum, [Option] or [Result] is accepted exactly when every value of the type
    is matched by one of its patterns, provided that the patterns of the fields are wildcards
    or bindings, one for each field, of names that are no variants of the field's type. *)
Theorem check_exhaustive_exact type_name ps enum_def span variants arity :
  type_name <> bytes "bool" -> subject_variants type_name enum_def = Some variants ->
  Forall (fun p => shallow arity p = true) ps ->
  check_exhaustive type_name ps enum_def span = [] <->
  forall w vs, w ∈ variants -> length vs = arity w ->
    (forall name, name ∈ flat_map field_names ps -> name ∉ flat_map own_variants vs) ->
    exists p, p ∈ ps /\ pat_matches p (V_variant variants w vs) = true.
Proof.
  intros Hbool Hv Hs. unfold check_exhaustive. rewrite bool_decide_eq_false_2, Hv, check_variant_nil, Forall_forall by done.
  rewrite Forall_forall in Hs. split.
  - intros H w vs Hw Hl Hn. pose proof (H w Hw) as Hex. apply existsb_exists in Hex as (p & Hp & Hc). apply list_elem_of_In in Hp.
    exists p. split; [done|]. rewrite (covers_matches variants arity); auto. intros name Hname. apply Hn.
    apply list_elem_of_In, in_flat_map. exists p. by split; apply list_elem_of_In.
  - intros H w Hw. destruct (H w (replicate (arity w) (V_bool true)) Hw) as (p & Hp & Hm).
    + apply length_replicate.
    + intros name _ Hin. apply list_elem_of_In, in_flat_map in Hin as (v & Hin & Hname). apply list_elem_of_In, elem_of_replicate in Hin as [-> _]. done.
    + apply existsb_exists. exists p. split; [by apply list_elem_of_In|]. rewrite <-Hm. symmetry.
      apply (covers_matches variants arity); [done|auto|apply length_replicate|].
      intros name _ Hin. apply list_elem_of_In, in_flat_map in Hin as (v & Hin & Hname). apply list_elem_of_In, elem_of_replicate in Hin as [-> _]. done.
Qed.

(* ------------------------------------------------------------------ *)
(** ** Inputs                                                          *)
(* ------------------------------------------------------------------ *)

Definition ident (s : string) : Pattern := P_Ident (bytes s) false dummy_span.
Definition variant_of (s : string) (ps : list Pattern) : Pattern := P_Enum [] (bytes s) ps dummy_span.
Definition int_pattern (n : Z) : Pattern := P_Literal (E_IntLiteral n dummy_span) dummy_span.
Definition wild : Pattern := P_Wildcard dummy_span.
Definition option_variants : list str := bytes <$> ["None"; "Some"].
Definition option_arity (w : str) : nat := if bool_decide (w = bytes "Some") then 1 else 0.

Lemma check_exhaustive_exact_witness :
  check_exhaustive (bytes "Option") [ident "None"; variant_of "Some" [ident "x"]] None dummy_span = [] <->
  forall w vs, w ∈ option_variants -> length vs = option_arity w ->
    (forall name, name ∈ flat_map field_names [ident "None"; variant_of "Some" [ident "x"]] -> name ∉ flat_map own_variants vs) ->
    exists p, p ∈ [ident "None"; variant_of "Some" [ident "x"]] /\ pat_matches p (V_variant option_variants w vs) = true.
Proof.
  apply (check_exhaustive_exact (bytes "Option") [ident "None"; variant_of "Some" [ident "x"]] None dummy_span option_variants option_arity).
  - discriminate.
  - reflexivity.
  - repeat constructor.
Defined.
Lemma option_covered :
  check_exhaustive (bytes "Option") [ident "None"; variant_of "Some" [ident "x"]] None dummy_span = []
  /\ check_exhaustive (bytes "Option") [variant_of "Some" [ident "x"]] None dummy_span = [MD_MissingVariants [bytes "None"] dummy_span].
Proof. split; vm_compute; reflexivity. Qed.

(** A variant counts as covered whatever the patterns of its fields are: [Some(5)] and [None]
    are accepted, and match no other [Some]. *)
Definition some_five : list Pattern := [variant_of "Some" [int_pattern 5]; ident "None"].
Lemma nested_pattern_counts :
  check_exhaustive (bytes "Option") some_five None dummy_span = []
  /\ existsb (fun p => pat_matches p (V_variant option_variants (bytes "Some") [V_int 6])) some_five = false.
Proof. split; vm_compute; reflexivity. Qed.

(** A catch-all in an or-pattern matches every value and is reported. *)
Lemma catch_all_reported :
  check_exhaustive (bytes "i64") [P_Or [int_pattern 1; wild] dummy_span] None dummy_span = [MD_NeedsCatchAll (bytes "i64") dummy_span]
  /\ (forall n, pat_matches (P_Or [int_pattern 1; wild] dummy_span) (V_int n) = true).
Proof. split; [vm_compute; reflexivity|]. intros n. cbn. by rewrite orb_true_r. Qed.
