(* ===== verification/Suggest.v ===== *)
(** Suggestions for misspelt names ([kryos-types/src/suggest.rs]): the edit distance computed
    over two rows is the least number of single-byte edits. *)

From S2P Require Import Prelude Machine Utf8 Text.

(* ------------------------------------------------------------------ *)
(** ** The code                                                        *)
(* ------------------------------------------------------------------ *)

(** The index of the standard library's exports is generated. *)
Fixpoint dedup_modules (l : list str) : list str :=
  match l with
  | x :: ((y :: _) as l) => if bool_decide (x = y) then dedup_modules l else x :: dedup_modules l
  | _ => l
  end.
Definition stdlib_modules_exporting (exports : list (str * str)) (name : str) : list str :=
  dedup_modules (snd <$> filter (fun e => e.1 = name) exports).

(** One cell of the current row, from the row before it. *)
Definition cell (a b : str) (prev : list nat) (i : nat) (curr : list nat) (j : nat) : list nat :=
  let cost := if bool_decide (a !! (i - 1) = b !! (j - 1))%nat then 0%nat else 1%nat in
  <[j := (Nat.min (Nat.min (prev !!! j + 1) (curr !!! (j - 1)%nat + 1)) (prev !!! (j - 1)%nat + cost))%nat]> curr.
(** A row is filled and the rows are swapped. *)
Definition next_row (a b : str) (rows : list nat * list nat) (i : nat) : list nat * list nat :=
  let '(prev, curr) := rows in
  (foldl (cell a b prev i) (<[0%nat := i]> curr) (seq 1 (length b)), prev).
Definition edit_distance (a b : str) : nat :=
  let '(prev, _) := foldl (next_row a b) (seq 0 (S (length b)), replicate (S (length b)) 0%nat) (seq 1 (length a)) in
  prev !!! length b.

Definition max_distance (name : str) : nat :=
  let n := length name in if (n <=? 2)%nat then 1 else if (n <=? 5)%nat then 2 else 3.
(** The first of those with the least distance. *)
Fixpoint min_by_distance (l : list (nat * str)) : option (nat * str) :=
  match l with
  | [] => None
  | x :: l => match min_by_distance l with
    | Some y => if (y.1 <? x.1)%nat then Some y else Some x
    | None => Some x
    end
  end.
Definition closest_match (name : str) (candidates : list str) : option str :=
  snd <$> min_by_distance (omap (fun c =>
    let d := edit_distance name c in
    if (0 <? d)%nat && (d <=? max_distance name)%nat then Some (d, c) else None) candidates).

(* ------------------------------------------------------------------ *)
(** ** Edits                                                           *)
(* ------------------------------------------------------------------ *)

(** A byte is inserted, deleted or replaced. *)
Inductive edit : str -> str -> Prop :=
| edit_insert u c v : edit (u ++ v) (u ++ c :: v)
| edit_delete u c v : edit (u ++ c :: v) (u ++ v)
| edit_replace u c d v : edit (u ++ c :: v) (u ++ d :: v).
Inductive edits : nat -> str -> str -> Prop :=
| edits_none a : edits 0 a a
| edits_more n a b c : edit a b -> edits n b c -> edits (S n) a c.

(** The distance by recursion on the first bytes. *)
Fixpoint lev (a b : str) {struct a} : nat :=
  match a with
  | [] => length b
  | x :: a' =>
      (fix lev_a (b : str) : nat :=
        match b with
        | [] => length a
        | y :: b' =>
            Nat.min (Nat.min (lev a' b + 1) (lev_a b' + 1)) (lev a' b' + if bool_decide (x = y) then 0 else 1)
        end%nat) b
  end.
Lemma lev_nil_r a : lev a [] = length a.
Proof. by destruct a. Qed.
Lemma lev_cons x a y b :
  lev (x :: a) (y :: b)
  = (Nat.min (Nat.min (lev a (y :: b) + 1) (lev (x :: a) b + 1)) (lev a b + if bool_decide (x = y) then 0 else 1))%nat.
Proof. done. Qed.
Lemma lev_refl a : lev a a = 0%nat.
Proof. induction a as [|x a IH]; [done|]. rewrite lev_cons, bool_decide_eq_true_2 by done. lia. Qed.

(** A step changes the distance by at most one. *)
Definition near (a b : str) : Prop := forall c, (lev a c <= lev b c + 1)%nat.
Lemma near_cons x a b : near a b -> near (x :: a) (x :: b).
Proof.
  intros H c. induction c as [|y c IH]; [pose proof (H []) as H0; rewrite !lev_nil_r in *; cbn; lia|].
  rewrite !lev_cons. pose proof (H (y :: c)). pose proof (H c). lia.
Qed.
Lemma near_app u a b : near a b -> near (u ++ a) (u ++ b).
Proof. intros H. induction u as [|x u IH]; [done|]. by apply near_cons. Qed.
Lemma near_insert x a : near (x :: a) a.
Proof. intros c. destruct c as [|y c]; [rewrite !lev_nil_r; cbn; lia|]. rewrite lev_cons. lia. Qed.
Lemma near_delete x a : near a (x :: a).
Proof.
  intros c. induction c as [|y c IH]; [rewrite !lev_nil_r; cbn; lia|]. rewrite lev_cons.
  assert (H : (lev a (y :: c) <= lev a c + 1)%nat).
  { clear. revert c. induction a as [|z a IH]; intros c; [cbn; lia|]. rewrite lev_cons. lia. }
  destruct (bool_decide _); lia.
Qed.
Lemma near_replace x z a : near (x :: a) (z :: a).
Proof.
  intros c. induction c as [|y c IH]; [rewrite !lev_nil_r; cbn; lia|]. rewrite !lev_cons.
  destruct (bool_decide (x = y)), (bool_decide (z = y)); lia.
Qed.
Lemma edit_near a b : edit a b -> near a b.
Proof. destruct 1; apply near_app; [apply near_delete|apply near_insert|apply near_replace]. Qed.
Lemma edits_lev n a b : edits n a b -> (lev a b <= n)%nat.
Proof.
  induction 1 as [a|n a b c He H IH]; [by rewrite lev_refl|]. pose proof (edit_near a b He c). lia.
Qed.

Lemma edit_cons x a b : edit a b -> edit (x :: a) (x :: b).
Proof. destruct 1 as [u c v|u c v|u c d v]; [apply (edit_insert (x :: u))|apply (edit_delete (x :: u))|apply (edit_replace (x :: u))]. Qed.
Lemma edits_cons x n a b : edits n a b -> edits n (x :: a) (x :: b).
Proof. induction 1 as [|n a b c He H IH]; [constructor|]. econstructor; [by apply edit_cons|done]. Qed.
Lemma edits_insert_all b : edits (length b) [] b.
Proof.
  induction b as [|y b IH]; cbn; [constructor|]. apply (edits_more _ _ [y]); [apply (edit_insert [])|]. by apply edits_cons.
Qed.
Lemma edits_delete_all a : edits (length a) a [].
Proof. induction a as [|x a IH]; cbn; [constructor|]. apply (edits_more _ _ a); [apply (edit_delete [])|done]. Qed.
Lemma lev_edits a b : edits (lev a b) a b.
Proof.
  revert b. induction a as [|x a IHa]; intros b; [apply edits_insert_all|].
  induction b as [|y b IHb]; [apply edits_delete_all|]. rewrite lev_cons.
  assert (H1 : edits (lev a (y :: b) + 1) (x :: a) (y :: b)).
  { rewrite Nat.add_1_r. apply (edits_more _ _ a); [apply (edit_delete [])|apply IHa]. }
  assert (H2 : edits (lev (x :: a) b + 1) (x :: a) (y :: b)).
  { rewrite Nat.add_1_r. apply (edits_more _ _ (y :: x :: a)); [apply (edit_insert [])|]. by apply edits_cons. }
  assert (H3 : edits (lev a b + if bool_decide (x = y) then 0 else 1) (x :: a) (y :: b)).
  { case_bool_decide as Hxy.
    - subst y. rewrite Nat.add_0_r. by apply edits_cons.
    - rewrite Nat.add_1_r. apply (edits_more _ _ (y :: a)); [apply (edit_replace [])|]. by apply edits_cons. }
  destruct (Nat.min_dec (Nat.min (lev a (y :: b) + 1) (lev (x :: a) b + 1)) (lev a b + if bool_decide (x = y) then 0 else 1)) as [-> | ->];
    [|done].
  by destruct (Nat.min_dec (lev a (y :: b) + 1) (lev (x :: a) b + 1)) as [-> | ->].
Qed.

(** Edits read backwards. *)
Lemma edit_rev a b : edit a b -> edit (rev a) (rev b).
Proof.
  destruct 1 as [u c v|u c v|u c d v]; rewrite !rev_app_distr; cbn [rev]; rewrite <-?app_assoc;
    [apply edit_insert|apply edit_delete|apply edit_replace].
Qed.
Lemma edits_rev n a b : edits n a b -> edits n (rev a) (rev b).
Proof. induction 1 as [|n a b c He H IH]; [constructor|]. econstructor; [by apply edit_rev|done]. Qed.

(* ------------------------------------------------------------------ *)
(** ** The rows                                                        *)
(* ------------------------------------------------------------------ *)

Lemma row_get (r : list nat) j v : r !! j = Some v -> r !!! j = v.
Proof. apply list_lookup_total_correct. Qed.
Section Rows.
Context (a b : str).
(** The distance of the first [i] bytes of [a] and the first [j] of [b]. *)
Definition dist (i j : nat) : nat := lev (rev (take i a)) (rev (take j b)).

Lemma dist_0_l j : (j <= length b)%nat -> dist 0 j = j.
Proof. intros H. unfold dist. rewrite take_0. cbn [rev lev]. rewrite length_rev, length_take. lia. Qed.
Lemma dist_0_r i : (i <= length a)%nat -> dist i 0 = i.
Proof. intros H. unfold dist. rewrite take_0, lev_nil_r, length_rev, length_take. lia. Qed.
Lemma dist_S i j : (i < length a)%nat -> (j < length b)%nat ->
  dist (S i) (S j)
  = (Nat.min (Nat.min (dist i (S j) + 1) (dist (S i) j + 1)) (dist i j + if bool_decide (a !! i = b !! j) then 0 else 1))%nat.
Proof.
  intros Hi Hj. destruct (lookup_lt_is_Some_2 a i Hi) as [x Hx]. destruct (lookup_lt_is_Some_2 b j Hj) as [y Hy].
  unfold dist. rewrite (take_S_r a i x), (take_S_r b j y) by done. rewrite !rev_app_distr. cbn [rev app].
  rewrite lev_cons, Hx, Hy. do 2 f_equal. by repeat case_bool_decide; simplify_eq.
Qed.

Definition holds_row (i m : nat) (r : list nat) : Prop :=
  length r = S (length b) /\ forall j, (j <= m)%nat -> r !! j = Some (dist i j).
Lemma cells_fill prev i curr m k :
  (i < length a)%nat -> (m + k <= length b)%nat -> holds_row i (length b) prev -> holds_row (S i) m curr ->
  holds_row (S i) (m + k) (foldl (cell a b prev (S i)) curr (seq (S m) k)).
Proof.
  intros Hi Hk Hp. revert m curr Hk. induction k as [|k IH]; intros m curr Hk Hc; cbn; [by rewrite Nat.add_0_r|].
  replace (m + S k)%nat with (S m + k)%nat by lia. apply IH; [lia|]. destruct Hp as [Hpl Hp], Hc as [Hcl Hc].
  split; [unfold cell; by rewrite length_insert|]. intros j Hj. unfold cell. cbn. rewrite !Nat.sub_0_r.
  destruct (decide (j = S m)) as [->|Hne].
  - rewrite list_lookup_insert_eq by lia. f_equal.
    rewrite (row_get _ _ _ (Hp (S m) ltac:(lia))), (row_get _ _ _ (Hp m ltac:(lia))),
      (row_get _ _ _ (Hc m ltac:(lia))).
    rewrite dist_S by lia. done.
  - rewrite list_lookup_insert_ne by done. apply Hc. lia.
Qed.
Lemma rows_fill prev curr i k :
  (i + k <= length a)%nat -> holds_row i (length b) prev -> length curr = S (length b) ->
  holds_row (i + k) (length b) (foldl (next_row a b) (prev, curr) (seq (S i) k)).1.
Proof.
  revert prev curr i. induction k as [|k IH]; intros prev curr i Hk Hp Hc; cbn; [by rewrite Nat.add_0_r|].
  replace (i + S k)%nat with (S i + k)%nat by lia. apply IH; [lia| |apply Hp].
  apply (cells_fill prev i _ 0 (length b)); [lia|lia|done|].
  split; [by rewrite length_insert|]. intros j Hj. replace j with 0%nat by lia.
  rewrite list_lookup_insert_eq by lia. by rewrite dist_0_r by lia.
Qed.
Lemma edit_distance_lev : edit_distance a b = lev (rev a) (rev b).
Proof.
  unfold edit_distance.
  assert (H0 : holds_row 0 (length b) (seq 0 (S (length b)))).
  { split; [by rewrite length_seq|]. intros j Hj. rewrite lookup_seq_lt by lia. by rewrite dist_0_l. }
  pose proof (rows_fill _ (replicate (S (length b)) 0%nat) 0 (length a) ltac:(lia) H0 ltac:(by rewrite length_replicate)) as [_ H].
  destruct (foldl _ _ _) as [prev curr]. cbn in H.
  rewrite (row_get _ _ _ (H (length b) ltac:(lia))). unfold dist. cbn.
  by rewrite !firstn_all.
Qed.
End Rows.

Lemma edit_distance_reached a b : edits (edit_distance a b) a b.
Proof.
  rewrite edit_distance_lev. pose proof (edits_rev _ _ _ (lev_edits (rev a) (rev b))) as H. by rewrite !rev_involutive in H.
Qed.
Lemma edit_distance_bound n a b : edits n a b -> (edit_distance a b <= n)%nat.
Proof. intros H. rewrite edit_distance_lev. by apply edits_lev, edits_rev. Qed.

(** The distance computed row by row is the least number of insertions, deletions and
    replacements of single bytes that turn the one name into the other. *)
Lemma edit_distance_least a b :
  edits (edit_distance a b) a b /\ forall n, edits n a b -> (edit_distance a b <= n)%nat.
Proof. split; [apply edit_distance_reached|]. intros n. apply edit_distance_bound. Qed.

Lemma min_by_distance_spec l x :
  min_by_distance l = Some x -> x ∈ l /\ Forall (fun y => x.1 <= y.1)%nat l.
Proof.
  revert x. induction l as [|z l IH]; intros x; cbn [min_by_distance]; [done|]. destruct (min_by_distance l) as [y|] eqn:Hl.
  - destruct (IH y eq_refl) as [Hy Hle]. destruct (Nat.ltb_spec y.1 z.1); intros [= <-].
    + split; [by constructor|]. constructor; [lia|done].
    + split; [constructor|]. constructor; [done|]. eapply Forall_impl; [exact Hle|]. cbn. lia.
  - intros [= <-]. split; [constructor|]. constructor; [done|]. destruct l as [|y l]; [constructor|]. exfalso.
    cbn [min_by_distance] in Hl. destruct (min_by_distance l) as [y'|]; [|done]. by destruct (Nat.ltb_spec y'.1 y.1).
Qed.
(** What is suggested is a candidate of another name within the allowed distance, and no
    candidate is nearer. *)
Lemma closest_match_spec name candidates c :
  closest_match name candidates = Some c ->
  c ∈ candidates /\ c <> name /\ (edit_distance name c <= max_distance name)%nat
  /\ Forall (fun c' => c' = name \/ edit_distance name c <= edit_distance name c')%nat candidates.
Proof.
  unfold closest_match. destruct (min_by_distance _) as [[d c']|] eqn:H; [|done]. intros [= <-].
  apply min_by_distance_spec in H as [Hin Hle].
  apply list_elem_of_omap in Hin as (c'' & Hin & Hc). cbn zeta in Hc.
  assert (Hname : forall c, edit_distance name c = 0%nat <-> c = name).
  { intros x. split.
    - intros H0. pose proof (edit_distance_reached name x) as He. rewrite H0 in He. by inversion He.
    - intros ->. pose proof (edit_distance_bound 0 name name (edits_none name)). lia. }
  destruct (0 <? edit_distance name c'')%nat eqn:H0; [|done]. destruct (edit_distance name c'' <=? max_distance name)%nat eqn:H1; [|done].
  injection Hc as <- <-. apply Nat.ltb_lt in H0. apply Nat.leb_le in H1. split; [done|]. split; [intros Hc%Hname; lia|]. split; [done|].
  apply Forall_forall. intros x Hx. destruct (decide (x = name)) as [|Hne]; [by left|]. right. cbn.
  destruct (decide (edit_distance name x <= max_distance name)%nat) as [Hm|]; [|lia].
  rewrite Forall_forall in Hle. apply (Hle (edit_distance name x, x)). apply list_elem_of_omap. exists x. split; [done|]. cbn zeta.
  assert (0 < edit_distance name x)%nat by (destruct (decide (edit_distance name x = 0%nat)) as [Hx0%Hname|]; [done|lia]).
  by rewrite (proj2 (Nat.ltb_lt _ _)), (proj2 (Nat.leb_le _ _)).
Qed.
Example suggestion : closest_match (bytes "coutn") (bytes <$> ["zebra"; "count"; "counter"]) = Some (bytes "count").
Proof. vm_compute. reflexivity. Qed.
Lemma edit_distance_least_witness : (edit_distance (bytes "ab") (bytes "b") <= 1)%nat.
Proof.
  refine (proj2 (edit_distance_least (bytes "ab") (bytes "b")) 1%nat _).
  apply (edits_more 0 (bytes "ab") (bytes "b") (bytes "b")); [|constructor].
  exact (edit_delete [] 97 (bytes "b")).
Defined.
