(* ===== verification/CapVars.v ===== *)
(** The state of type inference ([kryos-types/src/infer.rs], [InferenceEngine])
    and the operations on capability-row variables.

    [bind_cap_var] and [store_into_input] call each other; their recursion is
    bounded by [bind_fuel], which [CapFlow] proves to be enough. *)

From S2P Require Import Prelude Machine Utf8 Text Token Capability CapRow CapCycles Ty.

#[local] Open Scope N_scope.

(** A loop over a list that threads a state and may fail. *)
Fixpoint fold_res {A B} (f : B -> A -> res B) (l : list A) (b : B) : res B :=
  match l with [] => Done b | a :: l => b ← f b a; fold_res f l b end.

(* ------------------------------------------------------------------ *)
(** ** State                                                           *)
(* ------------------------------------------------------------------ *)

Record EffectScope := mkScope {
  poly : gset CapVarId; touched : list CapVarId; param_stores : list (CapVarId * CapRow); owner : option CapVarId
}.

Record DenyObligation := mkObligation {
  ob_denied : list str; ob_row : CapRow; ob_span : Span; ob_owner : option CapVarId; ob_via : option Span
}.

Record Instantiation := mkInst {
  in_owner : option CapVarId; in_callee : CapVarId; in_map : list (CapVarId * CapVarId); in_span : Span;
  in_own_copy : option CapVarId
}.

(** The diagnostics of [check_var_bounds] and [unify], with what their texts are made of. *)
Inductive TypeDiag :=
| D_UnsatisfiedBound (trait_name type_name : str)
| D_InfiniteType (id : N) (ty : Ty)
| D_TupleLength (n m : nat)
| D_ParameterCount (n m : nat)
| D_MissingImpl (trait_name struct_name : str)
| D_Mismatch (expected found : Ty).

Record DenyViolation := mkViolation { dv_span : Span; dv_denied : str; dv_via : option Span }.

Record InferenceEngine := mkEngine {
  next_var : N; substitutions : gmap N Ty; trait_impls : gset (str * str);
  var_bounds : gmap N (list str); next_cap_var : CapVarId; cap_substitutions : gmap CapVarId CapRow;
  cap_resolve_cache : gmap CapVarId CapRow; cap_cycle_cache : option (gset CapVarId);
  slot_cap_vars : gset CapVarId; global_slot_cap_vars : gset CapVarId;
  effect_scope : option EffectScope; store_effects : gmap CapVarId (list (CapVarId * CapRow));
  frozen_cap_vars : gmap CapVarId N; lambda_param_cap_vars : gset CapVarId; contravariant : bool;
  input_storage_cap_vars : gset CapVarId; deferred_input_stores : gmap CapVarId (list CapRow);
  lambda_input_cap_vars : gset CapVarId; lambda_input_stores : gmap CapVarId (list CapRow);
  deny_obligations : list DenyObligation; instantiations : list Instantiation;
  owner_poly : gmap CapVarId (list CapVarId); dispatch_owners : gset CapVarId; cap_epoch : N
}.

Definition new_engine : InferenceEngine :=
  mkEngine 0 ∅ ∅ ∅ 0 ∅ ∅ None ∅ ∅ None ∅ ∅ ∅ false ∅ ∅ ∅ ∅ [] [] ∅ ∅ 0.

(** Assignments to one field. *)
Definition set_next_var x (e : InferenceEngine) : InferenceEngine :=
  mkEngine
    x (substitutions e) (trait_impls e) (var_bounds e) (next_cap_var e) (cap_substitutions e)
    (cap_resolve_cache e) (cap_cycle_cache e) (slot_cap_vars e) (global_slot_cap_vars e) (effect_scope e)
    (store_effects e) (frozen_cap_vars e) (lambda_param_cap_vars e) (contravariant e)
    (input_storage_cap_vars e) (deferred_input_stores e) (lambda_input_cap_vars e) (lambda_input_stores e)
    (deny_obligations e) (instantiations e) (owner_poly e) (dispatch_owners e) (cap_epoch e).
Definition set_substitutions x (e : InferenceEngine) : InferenceEngine :=
  mkEngine
    (next_var e) x (trait_impls e) (var_bounds e) (next_cap_var e) (cap_substitutions e)
    (cap_resolve_cache e) (cap_cycle_cache e) (slot_cap_vars e) (global_slot_cap_vars e) (effect_scope e)
    (store_effects e) (frozen_cap_vars e) (lambda_param_cap_vars e) (contravariant e)
    (input_storage_cap_vars e) (deferred_input_stores e) (lambda_input_cap_vars e) (lambda_input_stores e)
    (deny_obligations e) (instantiations e) (owner_poly e) (dispatch_owners e) (cap_epoch e).
Definition set_trait_impls x (e : InferenceEngine) : InferenceEngine :=
  mkEngine
    (next_var e) (substitutions e) x (var_bounds e) (next_cap_var e) (cap_substitutions e)
    (cap_resolve_cache e) (cap_cycle_cache e) (slot_cap_vars e) (global_slot_cap_vars e) (effect_scope e)
    (store_effects e) (frozen_cap_vars e) (lambda_param_cap_vars e) (contravariant e)
    (input_storage_cap_vars e) (deferred_input_stores e) (lambda_input_cap_vars e) (lambda_input_stores e)
    (deny_obligations e) (instantiations e) (owner_poly e) (dispatch_owners e) (cap_epoch e).
Definition set_var_bounds x (e : InferenceEngine) : InferenceEngine :=
  mkEngine
    (next_var e) (substitutions e) (trait_impls e) x (next_cap_var e) (cap_substitutions e)
    (cap_resolve_cache e) (cap_cycle_cache e) (slot_cap_vars e) (global_slot_cap_vars e) (effect_scope e)
    (store_effects e) (frozen_cap_vars e) (lambda_param_cap_vars e) (contravariant e)
    (input_storage_cap_vars e) (deferred_input_stores e) (lambda_input_cap_vars e) (lambda_input_stores e)
    (deny_obligations e) (instantiations e) (owner_poly e) (dispatch_owners e) (cap_epoch e).
Definition set_next_cap_var x (e : InferenceEngine) : InferenceEngine :=
  mkEngine
    (next_var e) (substitutions e) (trait_impls e) (var_bounds e) x (cap_substitutions e)
    (cap_resolve_cache e) (cap_cycle_cache e) (slot_cap_vars e) (global_slot_cap_vars e) (effect_scope e)
    (store_effects e) (frozen_cap_vars e) (lambda_param_cap_vars e) (contravariant e)
    (input_storage_cap_vars e) (deferred_input_stores e) (lambda_input_cap_vars e) (lambda_input_stores e)
    (deny_obligations e) (instantiations e) (owner_poly e) (dispatch_owners e) (cap_epoch e).
Definition set_cap_substitutions x (e : InferenceEngine) : InferenceEngine :=
  mkEngine
    (next_var e) (substitutions e) (trait_impls e) (var_bounds e) (next_cap_var e) x (cap_resolve_cache e)
    (cap_cycle_cache e) (slot_cap_vars e) (global_slot_cap_vars e) (effect_scope e) (store_effects e)
    (frozen_cap_vars e) (lambda_param_cap_vars e) (contravariant e) (input_storage_cap_vars e)
    (deferred_input_stores e) (lambda_input_cap_vars e) (lambda_input_stores e) (deny_obligations e)
    (instantiations e) (owner_poly e) (dispatch_owners e) (cap_epoch e).
Definition set_cap_resolve_cache x (e : InferenceEngine) : InferenceEngine :=
  mkEngine
    (next_var e) (substitutions e) (trait_impls e) (var_bounds e) (next_cap_var e) (cap_substitutions e) x
    (cap_cycle_cache e) (slot_cap_vars e) (global_slot_cap_vars e) (effect_scope e) (store_effects e)
    (frozen_cap_vars e) (lambda_param_cap_vars e) (contravariant e) (input_storage_cap_vars e)
    (deferred_input_stores e) (lambda_input_cap_vars e) (lambda_input_stores e) (deny_obligations e)
    (instantiations e) (owner_poly e) (dispatch_owners e) (cap_epoch e).
Definition set_cap_cycle_cache x (e : InferenceEngine) : InferenceEngine :=
  mkEngine
    (next_var e) (substitutions e) (trait_impls e) (var_bounds e) (next_cap_var e) (cap_substitutions e)
    (cap_resolve_cache e) x (slot_cap_vars e) (global_slot_cap_vars e) (effect_scope e) (store_effects e)
    (frozen_cap_vars e) (lambda_param_cap_vars e) (contravariant e) (input_storage_cap_vars e)
    (deferred_input_stores e) (lambda_input_cap_vars e) (lambda_input_stores e) (deny_obligations e)
    (instantiations e) (owner_poly e) (dispatch_owners e) (cap_epoch e).
Definition set_slot_cap_vars x (e : InferenceEngine) : InferenceEngine :=
  mkEngine
    (next_var e) (substitutions e) (trait_impls e) (var_bounds e) (next_cap_var e) (cap_substitutions e)
    (cap_resolve_cache e) (cap_cycle_cache e) x (global_slot_cap_vars e) (effect_scope e) (store_effects e)
    (frozen_cap_vars e) (lambda_param_cap_vars e) (contravariant e) (input_storage_cap_vars e)
    (deferred_input_stores e) (lambda_input_cap_vars e) (lambda_input_stores e) (deny_obligations e)
    (instantiations e) (owner_poly e) (dispatch_owners e) (cap_epoch e).
Definition set_global_slot_cap_vars x (e : InferenceEngine) : InferenceEngine :=
  mkEngine
    (next_var e) (substitutions e) (trait_impls e) (var_bounds e) (next_cap_var e) (cap_substitutions e)
    (cap_resolve_cache e) (cap_cycle_cache e) (slot_cap_vars e) x (effect_scope e) (store_effects e)
    (frozen_cap_vars e) (lambda_param_cap_vars e) (contravariant e) (input_storage_cap_vars e)
    (deferred_input_stores e) (lambda_input_cap_vars e) (lambda_input_stores e) (deny_obligations e)
    (instantiations e) (owner_poly e) (dispatch_owners e) (cap_epoch e).
Definition set_effect_scope x (e : InferenceEngine) : InferenceEngine :=
  mkEngine
    (next_var e) (substitutions e) (trait_impls e) (var_bounds e) (next_cap_var e) (cap_substitutions e)
    (cap_resolve_cache e) (cap_cycle_cache e) (slot_cap_vars e) (global_slot_cap_vars e) x (store_effects e)
    (frozen_cap_vars e) (lambda_param_cap_vars e) (contravariant e) (input_storage_cap_vars e)
    (deferred_input_stores e) (lambda_input_cap_vars e) (lambda_input_stores e) (deny_obligations e)
    (instantiations e) (owner_poly e) (dispatch_owners e) (cap_epoch e).
Definition set_store_effects x (e : InferenceEngine) : InferenceEngine :=
  mkEngine
    (next_var e) (substitutions e) (trait_impls e) (var_bounds e) (next_cap_var e) (cap_substitutions e)
    (cap_resolve_cache e) (cap_cycle_cache e) (slot_cap_vars e) (global_slot_cap_vars e) (effect_scope e) x
    (frozen_cap_vars e) (lambda_param_cap_vars e) (contravariant e) (input_storage_cap_vars e)
    (deferred_input_stores e) (lambda_input_cap_vars e) (lambda_input_stores e) (deny_obligations e)
    (instantiations e) (owner_poly e) (dispatch_owners e) (cap_epoch e).
Definition set_frozen_cap_vars x (e : InferenceEngine) : InferenceEngine :=
  mkEngine
    (next_var e) (substitutions e) (trait_impls e) (var_bounds e) (next_cap_var e) (cap_substitutions e)
    (cap_resolve_cache e) (cap_cycle_cache e) (slot_cap_vars e) (global_slot_cap_vars e) (effect_scope e)
    (store_effects e) x (lambda_param_cap_vars e) (contravariant e) (input_storage_cap_vars e)
    (deferred_input_stores e) (lambda_input_cap_vars e) (lambda_input_stores e) (deny_obligations e)
    (instantiations e) (owner_poly e) (dispatch_owners e) (cap_epoch e).
Definition set_lambda_param_cap_vars x (e : InferenceEngine) : InferenceEngine :=
  mkEngine
    (next_var e) (substitutions e) (trait_impls e) (var_bounds e) (next_cap_var e) (cap_substitutions e)
    (cap_resolve_cache e) (cap_cycle_cache e) (slot_cap_vars e) (global_slot_cap_vars e) (effect_scope e)
    (store_effects e) (frozen_cap_vars e) x (contravariant e) (input_storage_cap_vars e)
    (deferred_input_stores e) (lambda_input_cap_vars e) (lambda_input_stores e) (deny_obligations e)
    (instantiations e) (owner_poly e) (dispatch_owners e) (cap_epoch e).
Definition set_contravariant x (e : InferenceEngine) : InferenceEngine :=
  mkEngine
    (next_var e) (substitutions e) (trait_impls e) (var_bounds e) (next_cap_var e) (cap_substitutions e)
    (cap_resolve_cache e) (cap_cycle_cache e) (slot_cap_vars e) (global_slot_cap_vars e) (effect_scope e)
    (store_effects e) (frozen_cap_vars e) (lambda_param_cap_vars e) x (input_storage_cap_vars e)
    (deferred_input_stores e) (lambda_input_cap_vars e) (lambda_input_stores e) (deny_obligations e)
    (instantiations e) (owner_poly e) (dispatch_owners e) (cap_epoch e).
Definition set_input_storage_cap_vars x (e : InferenceEngine) : InferenceEngine :=
  mkEngine
    (next_var e) (substitutions e) (trait_impls e) (var_bounds e) (next_cap_var e) (cap_substitutions e)
    (cap_resolve_cache e) (cap_cycle_cache e) (slot_cap_vars e) (global_slot_cap_vars e) (effect_scope e)
    (store_effects e) (frozen_cap_vars e) (lambda_param_cap_vars e) (contravariant e) x
    (deferred_input_stores e) (lambda_input_cap_vars e) (lambda_input_stores e) (deny_obligations e)
    (instantiations e) (owner_poly e) (dispatch_owners e) (cap_epoch e).
Definition set_deferred_input_stores x (e : InferenceEngine) : InferenceEngine :=
  mkEngine
    (next_var e) (substitutions e) (trait_impls e) (var_bounds e) (next_cap_var e) (cap_substitutions e)
    (cap_resolve_cache e) (cap_cycle_cache e) (slot_cap_vars e) (global_slot_cap_vars e) (effect_scope e)
    (store_effects e) (frozen_cap_vars e) (lambda_param_cap_vars e) (contravariant e)
    (input_storage_cap_vars e) x (lambda_input_cap_vars e) (lambda_input_stores e) (deny_obligations e)
    (instantiations e) (owner_poly e) (dispatch_owners e) (cap_epoch e).
Definition set_lambda_input_cap_vars x (e : InferenceEngine) : InferenceEngine :=
  mkEngine
    (next_var e) (substitutions e) (trait_impls e) (var_bounds e) (next_cap_var e) (cap_substitutions e)
    (cap_resolve_cache e) (cap_cycle_cache e) (slot_cap_vars e) (global_slot_cap_vars e) (effect_scope e)
    (store_effects e) (frozen_cap_vars e) (lambda_param_cap_vars e) (contravariant e)
    (input_storage_cap_vars e) (deferred_input_stores e) x (lambda_input_stores e) (deny_obligations e)
    (instantiations e) (owner_poly e) (dispatch_owners e) (cap_epoch e).
Definition set_lambda_input_stores x (e : InferenceEngine) : InferenceEngine :=
  mkEngine
    (next_var e) (substitutions e) (trait_impls e) (var_bounds e) (next_cap_var e) (cap_substitutions e)
    (cap_resolve_cache e) (cap_cycle_cache e) (slot_cap_vars e) (global_slot_cap_vars e) (effect_scope e)
    (store_effects e) (frozen_cap_vars e) (lambda_param_cap_vars e) (contravariant e)
    (input_storage_cap_vars e) (deferred_input_stores e) (lambda_input_cap_vars e) x (deny_obligations e)
    (instantiations e) (owner_poly e) (dispatch_owners e) (cap_epoch e).
Definition set_deny_obligations x (e : InferenceEngine) : InferenceEngine :=
  mkEngine
    (next_var e) (substitutions e) (trait_impls e) (var_bounds e) (next_cap_var e) (cap_substitutions e)
    (cap_resolve_cache e) (cap_cycle_cache e) (slot_cap_vars e) (global_slot_cap_vars e) (effect_scope e)
    (store_effects e) (frozen_cap_vars e) (lambda_param_cap_vars e) (contravariant e)
    (input_storage_cap_vars e) (deferred_input_stores e) (lambda_input_cap_vars e) (lambda_input_stores e) x
    (instantiations e) (owner_poly e) (dispatch_owners e) (cap_epoch e).
Definition set_instantiations x (e : InferenceEngine) : InferenceEngine :=
  mkEngine
    (next_var e) (substitutions e) (trait_impls e) (var_bounds e) (next_cap_var e) (cap_substitutions e)
    (cap_resolve_cache e) (cap_cycle_cache e) (slot_cap_vars e) (global_slot_cap_vars e) (effect_scope e)
    (store_effects e) (frozen_cap_vars e) (lambda_param_cap_vars e) (contravariant e)
    (input_storage_cap_vars e) (deferred_input_stores e) (lambda_input_cap_vars e) (lambda_input_stores e)
    (deny_obligations e) x (owner_poly e) (dispatch_owners e) (cap_epoch e).
Definition set_owner_poly x (e : InferenceEngine) : InferenceEngine :=
  mkEngine
    (next_var e) (substitutions e) (trait_impls e) (var_bounds e) (next_cap_var e) (cap_substitutions e)
    (cap_resolve_cache e) (cap_cycle_cache e) (slot_cap_vars e) (global_slot_cap_vars e) (effect_scope e)
    (store_effects e) (frozen_cap_vars e) (lambda_param_cap_vars e) (contravariant e)
    (input_storage_cap_vars e) (deferred_input_stores e) (lambda_input_cap_vars e) (lambda_input_stores e)
    (deny_obligations e) (instantiations e) x (dispatch_owners e) (cap_epoch e).
Definition set_dispatch_owners x (e : InferenceEngine) : InferenceEngine :=
  mkEngine
    (next_var e) (substitutions e) (trait_impls e) (var_bounds e) (next_cap_var e) (cap_substitutions e)
    (cap_resolve_cache e) (cap_cycle_cache e) (slot_cap_vars e) (global_slot_cap_vars e) (effect_scope e)
    (store_effects e) (frozen_cap_vars e) (lambda_param_cap_vars e) (contravariant e)
    (input_storage_cap_vars e) (deferred_input_stores e) (lambda_input_cap_vars e) (lambda_input_stores e)
    (deny_obligations e) (instantiations e) (owner_poly e) x (cap_epoch e).
Definition set_cap_epoch x (e : InferenceEngine) : InferenceEngine :=
  mkEngine
    (next_var e) (substitutions e) (trait_impls e) (var_bounds e) (next_cap_var e) (cap_substitutions e)
    (cap_resolve_cache e) (cap_cycle_cache e) (slot_cap_vars e) (global_slot_cap_vars e) (effect_scope e)
    (store_effects e) (frozen_cap_vars e) (lambda_param_cap_vars e) (contravariant e)
    (input_storage_cap_vars e) (deferred_input_stores e) (lambda_input_cap_vars e) (lambda_input_stores e)
    (deny_obligations e) (instantiations e) (owner_poly e) (dispatch_owners e) x.

Section Engine.
(** The order in which a hash set gives its elements. *)
Context (hash_order : gset CapVarId -> list CapVarId).

Implicit Types (e : InferenceEngine) (row : CapRow) (v id : CapVarId).

Definition fresh_cap_var e : CapVarId * InferenceEngine :=
  (next_cap_var e, set_next_cap_var (next_cap_var e + 1) e).

(* ------------------------------------------------------------------ *)
(** ** Resolving                                                       *)
(* ------------------------------------------------------------------ *)

(** [cap_cycle_nodes] with its cache. *)
Definition cached_cycle_nodes e : res (gset CapVarId * InferenceEngine) :=
  match cap_cycle_cache e with
  | Some hit => Done (hit, e)
  | None =>
      X ← cap_cycle_nodes (cap_substitutions e) (hash_order (dom (cap_substitutions e)));
      Done (X, set_cap_cycle_cache (Some X) e)
  end.

(** The worklist loop of [resolve_cap_var] ([keep] empty) and
    [resolve_cap_row_keeping_slots] ([keep] the global slots): the bits, the open
    variables and the visited ones, or [None] for an unknown row. *)
Fixpoint chase (fuel : nat) (subst : gmap CapVarId CapRow) (keep : gset CapVarId) (stack : list CapVarId)
    (visited : gset CapVarId) (bits : CapBits) (open : list CapVarId)
  : res (option (CapBits * list CapVarId * gset CapVarId)) :=
  match stack with
  | [] => Done (Some (bits, open, visited))
  | cur :: stack =>
      match fuel with
      | O => OutOfFuel
      | S fuel =>
          if bool_decide (cur ∈ visited) then chase fuel subst keep stack visited bits open
          else
            let visited := {[cur]} ∪ visited in
            if bool_decide (cur ∈ keep) then chase fuel subst keep stack visited bits (open ++ [cur])
            else
              match subst !! cur with
              | None => chase fuel subst keep stack visited bits (open ++ [cur])
              | Some Unknown => Done None
              | Some (Resolved concrete vars) =>
                  chase fuel subst keep (rev vars ++ stack) visited (union_of_bits bits concrete) open
              end
      end
  end.

(** Enough for every variable to be pushed by all that mention it. *)
Definition chase_fuel (subst : gmap CapVarId CapRow) (stack : list CapVarId) : nat :=
  (cycle_fuel subst + length stack)%nat.

(** [Vec::dedup] *)
Fixpoint dedup (l : list CapVarId) : list CapVarId :=
  match l with
  | x :: ((y :: _) as l') => if x =? y then dedup l' else x :: dedup l'
  | _ => l
  end.

Definition sort_dedup (l : list CapVarId) : list CapVarId := dedup (sort_vars l).

Definition resolve_cap_var e v : res (CapRow * InferenceEngine) :=
  match cap_resolve_cache e !! v with
  | Some hit => Done (hit, e)
  | None =>
      found ← chase (chase_fuel (cap_substitutions e) [v]) (cap_substitutions e) ∅ [v] ∅ EMPTY [];
      '(result, e) ←
        match found with
        | None => Done (Unknown, e)
        | Some (bits, open, visited) =>
            '(cycles, e) ← cached_cycle_nodes e;
            let open := open ++ filter (fun c => c ∈ visited) (hash_order cycles) in
            Done (Resolved bits (sort_dedup open), e)
        end;
      Done (result, set_cap_resolve_cache (<[v := result]> (cap_resolve_cache e)) e)
  end.

Definition resolve_cap_row e row : res (CapRow * InferenceEngine) :=
  match row with
  | Unknown => Done (Unknown, e)
  | Resolved _ [] => Done (row, e)
  | Resolved concrete vars =>
      fold_res (fun '(out, e) v => '(r, e) ← resolve_cap_var e v; Done (union out r, e)) vars (closed concrete, e)
  end.

Definition resolve_cap_row_keeping_slots e row : res (CapRow * InferenceEngine) :=
  match row with
  | Unknown => Done (Unknown, e)
  | Resolved _ [] => Done (row, e)
  | Resolved concrete vars =>
      let stack := rev vars in
      let slots := global_slot_cap_vars e in
      found ← chase (chase_fuel (cap_substitutions e) stack) (cap_substitutions e) slots stack ∅ concrete [];
      match found with
      | None => Done (Unknown, e)
      | Some (bits, open, visited) =>
          '(cycles, e) ← cached_cycle_nodes e;
          let open := open ++ filter (fun c => c ∈ visited /\ c ∉ slots) (hash_order cycles) in
          Done (Resolved bits (sort_dedup open), e)
      end
  end.

Definition instantiate_row e row (cap_var_map : gmap CapVarId CapVarId) : res (CapRow * InferenceEngine) :=
  '(resolved, e) ← resolve_cap_row_keeping_slots e row;
  Done (foldl (fun out v => union out (var (default v (cap_var_map !! v)))) (closed (concrete_bits resolved))
          (var_ids resolved), e).

Definition resolve_own_cap_row e own : res (CapRow * InferenceEngine) := resolve_cap_row_keeping_slots e (var own).

(* ------------------------------------------------------------------ *)
(** ** Binding                                                         *)
(* ------------------------------------------------------------------ *)

Definition is_frozen e v : bool :=
  bool_decide (is_Some (frozen_cap_vars e !! v))
  || match effect_scope e with Some s => bool_decide (v ∈ poly s) | None => false end.

Definition record_param_store e (storage : CapVarId) row : InferenceEngine :=
  match effect_scope e with
  | Some s =>
      if bool_decide ((storage, row) ∈ param_stores s) then e
      else set_effect_scope (Some (mkScope (poly s) (touched s) (param_stores s ++ [(storage, row)]) (owner s))) e
  | None => e
  end.

(** The first lines of [bind_cap_var]. *)
Definition touch e id : InferenceEngine :=
  match effect_scope e with
  | Some s =>
      if bool_decide (id ∈ global_slot_cap_vars e)
      then set_effect_scope (Some (mkScope (poly s) (touched s ++ [id]) (param_stores s) (owner s))) e else e
  | None => e
  end.

(** The row without the variable it is bound to; [None] when nothing is left. *)
Definition without_self id row : option CapRow :=
  match row with
  | Resolved concrete vars =>
      if bool_decide (id ∈ vars) then
        let vars := filter (fun v => v <> id) vars in
        if (concrete =? EMPTY)%Z && match vars with [] => true | _ => false end then None
        else Some (Resolved concrete vars)
      else Some row
  | Unknown => Some row
  end.

(** What the variable is bound to afterwards; [None] when that changes nothing. *)
Definition merged_binding e id row : option CapRow :=
  match cap_substitutions e !! id with
  | Some existing =>
      let merged := union existing row in
      if bool_decide (merged = existing) then None else Some merged
  | None => Some row
  end.

Definition commit_binding e id merged : InferenceEngine :=
  set_cap_cycle_cache None (set_cap_resolve_cache ∅ (set_cap_epoch (cap_epoch e + 1)
    (set_cap_substitutions (<[id := merged]> (cap_substitutions e)) e))).

(** The walk of [store_into_input]. *)
Fixpoint slots_loop (fuel : nat) e (target : CapVarId) (stack : list CapVarId) (seen : gset CapVarId)
    (slots : list CapVarId) : res (list CapVarId) :=
  match stack with
  | [] => Done slots
  | v :: stack =>
      match fuel with
      | O => OutOfFuel
      | S fuel =>
          if bool_decide (v ∈ seen) then slots_loop fuel e target stack seen slots
          else
            let slots := if negb (v =? target) && bool_decide (v ∈ slot_cap_vars e) then slots ++ [v] else slots in
            let stack := match cap_substitutions e !! v with Some (Resolved _ vars) => rev vars ++ stack | _ => stack end in
            slots_loop fuel e target stack ({[v]} ∪ seen) slots
      end
  end.

Definition storage_slots e (target : CapVarId) : res (list CapVarId) :=
  slots ← slots_loop (chase_fuel (cap_substitutions e) [target]) e target [target] ∅ [];
  Done (sort_vars slots).

(** [store_into_input], given the [bind_cap_var] it calls. *)
Definition store_into_input_with (bind : InferenceEngine -> CapVarId -> CapRow -> res InferenceEngine)
    e (target : CapVarId) row : res InferenceEngine :=
  slots ← storage_slots e target;
  fold_res (fun e s =>
    if bool_decide (s ∈ input_storage_cap_vars e) && is_frozen e s then Done (record_param_store e s row)
    else bind e s row) slots e.

Fixpoint bind_loop (fuel : nat) e id row : res InferenceEngine :=
  match fuel with
  | O => OutOfFuel
  | S fuel =>
      let e := touch e id in
      match without_self id row with
      | None => Done e
      | Some row =>
          match merged_binding e id row with
          | None => Done e
          | Some merged =>
              let e := commit_binding e id merged in
              e ← match deferred_input_stores e !! id with
                  | Some rows =>
                      fold_res (fun e row => store_into_input_with (bind_loop fuel) e id row) rows
                        (set_deferred_input_stores (delete id (deferred_input_stores e)) e)
                  | None => Done e
                  end;
              match lambda_input_stores e !! id with
              | Some rows => fold_res (fun e row => store_into_input_with (bind_loop fuel) e id row) rows e
              | None => Done e
              end
          end
      end
  end.

(** A binding that recurses widens a row, which can happen only so often. *)
Definition bind_fuel e : nat :=
  let n := N.to_nat (next_cap_var e) in S (n * (n + 17)).

Definition bind_cap_var e id row : res InferenceEngine := bind_loop (bind_fuel e) e id row.

Definition store_into_input e target row : res InferenceEngine := store_into_input_with bind_cap_var e target row.

Definition record_lambda_store e (storage : CapVarId) row : res InferenceEngine :=
  let rows := default [] (lambda_input_stores e !! storage) in
  let rows := if bool_decide (row ∈ rows) then rows else rows ++ [row] in
  store_into_input (set_lambda_input_stores (<[storage := rows]> (lambda_input_stores e)) e) storage row.

(** The first loop of [unify_rows]: a flow into a variable of the destination. *)
Definition flow_into e (c2 : CapRow) v : res InferenceEngine :=
  if bool_decide (v ∈ input_storage_cap_vars e) && is_frozen e v then
    if bool_decide (v ∈ lambda_input_cap_vars e) then record_lambda_store e v c2
    else Done (record_param_store e v c2)
  else if bool_decide (cap_substitutions e !! v = None) || bool_decide (v ∈ slot_cap_vars e) then bind_cap_var e v c2
  else Done e.

(** The second loop: a closed destination hands its row to the open source. *)
Definition flow_back e (before : CapRow) v : res InferenceEngine :=
  let open := bool_decide (cap_substitutions e !! v = None) in
  if (open || bool_decide (v ∈ lambda_param_cap_vars e)) && negb (is_frozen e v) then bind_cap_var e v before
  else Done e.

Definition unify_rows e (c1 c2 : CapRow) : res InferenceEngine :=
  if bool_decide (c1 = c2) || is_unknown c1 then Done e
  else
    '(before, e) ← resolve_cap_row e c1;
    e ← fold_res (fun e v => flow_into e c2 v) (var_ids c1) e;
    if is_closed before && negb (is_unknown c2) then fold_res (fun e v => flow_back e before v) (var_ids c2) e
    else Done e.

(* ------------------------------------------------------------------ *)
(** ** Slots                                                           *)
(* ------------------------------------------------------------------ *)

Definition fresh_slot_cap_var e : CapVarId * InferenceEngine :=
  let '(id, e) := fresh_cap_var e in (id, set_slot_cap_vars ({[id]} ∪ slot_cap_vars e) e).

(** [for &v in caps.var_ids()] of [mark_slot_rows] *)
Definition mark_slot (global : bool) e v : InferenceEngine :=
  let e := set_slot_cap_vars ({[v]} ∪ slot_cap_vars e) e in
  if global then set_global_slot_cap_vars ({[v]} ∪ global_slot_cap_vars e) e else e.

Fixpoint mark_slot_rows e (ty : Ty) (global : bool) {struct ty} : InferenceEngine :=
  match ty with
  | Ty_Function _ ret caps => mark_slot_rows (foldl (mark_slot global) e (var_ids caps)) ret global
  | Ty_Array t _ | Ty_Set t => mark_slot_rows e t global
  | Ty_Tuple ts => fold_left (fun e t => mark_slot_rows e t global) ts e
  | Ty_Map k v => mark_slot_rows (mark_slot_rows e k global) v global
  | Ty_Option t | Ty_Reference t _ | Ty_Shared t | Ty_Weak t | Ty_Pointer t _ => mark_slot_rows e t global
  | Ty_Result o r => mark_slot_rows (mark_slot_rows e o global) r global
  | Ty_Struct _ gs | Ty_Enum _ gs => fold_left (fun e t => mark_slot_rows e t global) gs e
  | _ => e
  end.

Fixpoint type_has_fn (ty : Ty) : bool :=
  match ty with
  | Ty_Function _ _ _ => true
  | Ty_Array t _ | Ty_Set t => type_has_fn t
  | Ty_Tuple ts => existsb type_has_fn ts
  | Ty_Map k v => type_has_fn k || type_has_fn v
  | Ty_Option t | Ty_Reference t _ | Ty_Shared t | Ty_Weak t | Ty_Pointer t _ => type_has_fn t
  | Ty_Result o r => type_has_fn o || type_has_fn r
  | Ty_Struct _ gs | Ty_Enum _ gs => existsb type_has_fn gs
  | _ => false
  end.

Definition slot_row_for e row (keep_slot_refs : bool) : res (CapRow * InferenceEngine) :=
  match row with
  | Unknown => Done (Unknown, e)
  | Resolved concrete vars =>
      if keep_slot_refs && (concrete =? EMPTY)%Z && negb (match vars with [] => true | _ => false end)
         && forallb (fun v => bool_decide (v ∈ slot_cap_vars e)) vars
      then Done (row, e)
      else let '(slot, e) := fresh_slot_cap_var e in e ← bind_cap_var e slot row; Done (var slot, e)
  end.

(** A list of types, left to right, with the state. *)
Definition map_state {A B S} (f : S -> A -> res (B * S)) : list A -> S -> res (list B * S) :=
  fix go l s :=
    match l with
    | [] => Done ([], s)
    | a :: l => '(b, s) ← f s a; '(bs, s) ← go l s; Done (b :: bs, s)
    end.

Fixpoint generalize_rows (keep_slot_refs : bool) e (ty : Ty) {struct ty} : res (Ty * InferenceEngine) :=
  if negb (type_has_fn ty) then Done (ty, e)
  else
    match ty with
    | Ty_Function ps r c =>
        '(r, e) ← generalize_rows keep_slot_refs e r;
        '(c, e) ← slot_row_for e c keep_slot_refs;
        Done (Ty_Function ps r c, e)
    | Ty_Array t n => '(t, e) ← generalize_rows keep_slot_refs e t; Done (Ty_Array t n, e)
    | Ty_Set t => '(t, e) ← generalize_rows keep_slot_refs e t; Done (Ty_Set t, e)
    | Ty_Tuple ts => '(ts, e) ← map_state (generalize_rows keep_slot_refs) ts e; Done (Ty_Tuple ts, e)
    | Ty_Map k v =>
        '(k, e) ← generalize_rows keep_slot_refs e k;
        '(v, e) ← generalize_rows keep_slot_refs e v;
        Done (Ty_Map k v, e)
    | Ty_Option t => '(t, e) ← generalize_rows keep_slot_refs e t; Done (Ty_Option t, e)
    | Ty_Result o r =>
        '(o, e) ← generalize_rows keep_slot_refs e o;
        '(r, e) ← generalize_rows keep_slot_refs e r;
        Done (Ty_Result o r, e)
    | Ty_Struct n gs => '(gs, e) ← map_state (generalize_rows keep_slot_refs) gs e; Done (Ty_Struct n gs, e)
    | Ty_Enum n gs => '(gs, e) ← map_state (generalize_rows keep_slot_refs) gs e; Done (Ty_Enum n gs, e)
    | Ty_Reference t m => '(t, e) ← generalize_rows keep_slot_refs e t; Done (Ty_Reference t m, e)
    | Ty_Shared t => '(t, e) ← generalize_rows keep_slot_refs e t; Done (Ty_Shared t, e)
    | Ty_Weak t => '(t, e) ← generalize_rows keep_slot_refs e t; Done (Ty_Weak t, e)
    | Ty_Pointer t m => '(t, e) ← generalize_rows keep_slot_refs e t; Done (Ty_Pointer t m, e)
    | other => Done (other, e)
    end.

(** The rows of the containers inside a parameter's type. *)
Fixpoint storage_rows_in (ty : Ty) (in_container : bool) : list CapVarId :=
  match ty with
  | Ty_Function _ _ caps => if in_container then var_ids caps else []
  | Ty_Array t _ | Ty_Set t => storage_rows_in t true
  | Ty_Map k v => storage_rows_in k true ++ storage_rows_in v true
  | Ty_Struct _ gs => flat_map (fun g => storage_rows_in g true) gs
  | Ty_Reference t m | Ty_Pointer t m => storage_rows_in t (in_container || m)
  | Ty_Shared t | Ty_Weak t => storage_rows_in t in_container
  | _ => []
  end.

Definition mark_input e v : InferenceEngine :=
  set_input_storage_cap_vars ({[v]} ∪ input_storage_cap_vars e) (set_slot_cap_vars ({[v]} ∪ slot_cap_vars e) e).

Definition mark_input_storage e (param_types : list Ty) : InferenceEngine :=
  foldl mark_input e (flat_map (fun t => storage_rows_in t false) param_types).

Definition mark_lambda_input_storage e (param_ty : Ty) : InferenceEngine :=
  foldl (fun e v => set_lambda_input_cap_vars ({[v]} ∪ lambda_input_cap_vars e) (mark_input e v))
    e (storage_rows_in param_ty false).

Fixpoint row_vars_in (ty : Ty) : list CapVarId :=
  match ty with
  | Ty_Function ps r c => var_ids c ++ flat_map row_vars_in ps ++ row_vars_in r
  | Ty_Array t _ | Ty_Set t => row_vars_in t
  | Ty_Tuple ts => flat_map row_vars_in ts
  | Ty_Map k v => row_vars_in k ++ row_vars_in v
  | Ty_Option t | Ty_Reference t _ | Ty_Shared t | Ty_Weak t | Ty_Pointer t _ => row_vars_in t
  | Ty_Result o r => row_vars_in o ++ row_vars_in r
  | Ty_Struct _ gs | Ty_Enum _ gs => flat_map row_vars_in gs
  | _ => []
  end.

(** [freeze_rows_of] on the variables of its resolved types. *)
Definition freeze_vars e (vars : list CapVarId) : list CapVarId * InferenceEngine :=
  let vars := sort_dedup vars in
  (vars, foldl (fun e v => set_frozen_cap_vars (<[v := default 0 (frozen_cap_vars e !! v) + 1]> (frozen_cap_vars e)) e)
           e vars).

(** The counts are [u32]: [*n -= 1] panics on zero. *)
Definition unfreeze_rows e (vars : list CapVarId) : res InferenceEngine :=
  fold_res (fun e v =>
    match frozen_cap_vars e !! v with
    | Some n =>
        if n =? 0 then Panic
        else Done (set_frozen_cap_vars
                     (if n =? 1 then delete v (frozen_cap_vars e) else <[v := n - 1]> (frozen_cap_vars e)) e)
    | None => Done e
    end) vars e.

Definition mark_lambda_param_rows e (ty : Ty) : InferenceEngine :=
  let e := mark_slot_rows e ty false in
  match ty with
  | Ty_Function _ _ caps =>
      foldl (fun e v => set_lambda_param_cap_vars ({[v]} ∪ lambda_param_cap_vars e) e) e (var_ids caps)
  | _ => e
  end.

(* ------------------------------------------------------------------ *)
(** ** Trait bounds of type variables                                  *)
(* ------------------------------------------------------------------ *)

Definition fresh_var e : Ty * InferenceEngine := (Ty_Var (next_var e), set_next_var (next_var e + 1) e).

Definition set_var_bounds_of e (id : N) (bounds : list str) : InferenceEngine :=
  match bounds with [] => e | _ => set_var_bounds (<[id := bounds]> (var_bounds e)) e end.

Definition register_trait_impl e (type_name trait_name : str) : InferenceEngine :=
  set_trait_impls ({[(type_name, trait_name)]} ∪ trait_impls e) e.

Definition implements_trait e (type_name trait_name : str) : bool :=
  bool_decide ((type_name, trait_name) ∈ trait_impls e).

(** [contains], then [push] *)
Definition push_bound (bs : list str) (b : str) : list str := if bool_decide (b ∈ bs) then bs else bs ++ [b].

Definition check_var_bounds e (id : N) (bound_to : Ty) : TypeDiag + InferenceEngine :=
  match var_bounds e !! id with
  | None => inr e
  | Some bounds =>
      let named type_name :=
        match List.find (fun b => negb (implements_trait e type_name b)) bounds with
        | Some b => inl (D_UnsatisfiedBound b type_name)
        | None => inr e
        end in
      match bound_to with
      | Ty_Var other =>
          inr (set_var_bounds (<[other := foldl push_bound (default [] (var_bounds e !! other)) bounds]> (var_bounds e)) e)
      | Ty_Error => inr e
      | Ty_DynTrait trait_name =>
          match List.find (fun b => negb (bool_decide (b = trait_name))) bounds with
          | Some b => inl (D_UnsatisfiedBound b (ty_display bound_to))
          | None => inr e
          end
      | Ty_Struct name _ | Ty_Enum name _ => named name
      | other => named (ty_display other)
      end
  end.
End Engine.
