(* ===== verification/CapSolve.v ===== *)
(** What resolving a capability row computes ([resolve_cap_var],
    [resolve_cap_row], [resolve_cap_row_keeping_slots], [instantiate_row] of
    [kryos-types/src/infer.rs]): the authority and the open variables of
    everything the row reaches in the substitution, whatever the caches hold. *)

From stdpp Require Import relations.
From S2P Require Import Prelude Machine Token Capability CapRow CapCycles Ty CapVars.

#[local] Open Scope N_scope.

(* ------------------------------------------------------------------ *)
(** ** Sorting                                                         *)
(* ------------------------------------------------------------------ *)

Lemma elem_of_dedup l x : x ∈ dedup l <-> x ∈ l.
Proof.
  induction l as [|a [|b l] IH]; [done|done|]. change (dedup (a :: b :: l)) with
    (if a =? b then dedup (b :: l) else a :: dedup (b :: l)).
  destruct (N.eqb_spec a b) as [->|Hne].
  - rewrite IH, !elem_of_cons. tauto.
  - rewrite elem_of_cons, IH, !elem_of_cons. tauto.
Qed.

Lemma dedup_Sorted l : StronglySorted N.le l -> Sorted N.lt (dedup l).
Proof.
  intros Hs. apply StronglySorted_Sorted. induction l as [|a [|b l] IH]; [constructor|repeat constructor|].
  change (dedup (a :: b :: l)) with (if a =? b then dedup (b :: l) else a :: dedup (b :: l)).
  apply StronglySorted_inv in Hs as [Hs Ha]. specialize (IH Hs).
  destruct (N.eqb_spec a b) as [->|Hne]; [done|]. constructor; [done|].
  apply List.Forall_forall. intros x Hx%list_elem_of_In. rewrite elem_of_dedup in Hx.
  apply List.Forall_inv in Ha as Hab. apply StronglySorted_inv in Hs as [_ Hb]. rewrite List.Forall_forall in Hb.
  apply elem_of_cons in Hx as [->|Hx]; [lia|]. apply list_elem_of_In in Hx. specialize (Hb x Hx). lia.
Qed.

Lemma sort_dedup_spec l : Sorted N.lt (sort_dedup l) /\ forall x, x ∈ sort_dedup l <-> x ∈ l.
Proof.
  split.
  - apply dedup_Sorted. apply StronglySorted_merge_sort; intros x y; lia || apply _.
  - intros x. unfold sort_dedup, sort_vars. by rewrite elem_of_dedup, merge_sort_Permutation.
Qed.

(* ------------------------------------------------------------------ *)
(** ** The meaning of a resolved row                                   *)
(* ------------------------------------------------------------------ *)

Section Meaning.
Context (subst : gmap CapVarId CapRow) (keep : gset CapVarId).

Definition keep_edge (x y : CapVarId) : Prop := (x ∉ keep) /\ edge subst x y.

(** [x] is reached from [start] without passing through [keep]. *)
Definition reached (start : list CapVarId) (x : CapVarId) : Prop :=
  exists s, s ∈ start /\ rtc keep_edge s x.

(** The row [r] is what the bits [b0] and the variables [start] stand for. *)
Definition resolved_to (b0 : CapBits) (start : list CapVarId) (r : CapRow) : Prop :=
  match r with
  | Unknown => exists x, reached start x /\ (x ∉ keep) /\ subst !! x = Some Unknown
  | Resolved b vs =>
      wf_row r
      /\ (forall x, reached start x -> (x ∉ keep) -> subst !! x <> Some Unknown)
      /\ (forall c, granted b c <-> granted b0 c
           \/ exists x b' vs', reached start x /\ (x ∉ keep) /\ subst !! x = Some (Resolved b' vs') /\ granted b' c)
      /\ forall x, x ∈ vs <-> reached start x /\ (x ∈ keep \/ subst !! x = None \/ on_cycle subst x)
  end.

(** That determines the row. *)
Lemma resolved_to_det b0 start r1 r2 : resolved_to b0 start r1 -> resolved_to b0 start r2 -> r1 = r2.
Proof.
  destruct r1 as [b1 v1|], r2 as [b2 v2|]; cbn; [| |  |done].
  - intros (W1 & _ & G1 & V1) (W2 & _ & G2 & V2). apply row_ext; [done|done| |].
    + intros c. by rewrite G1, G2.
    + intros x. by rewrite V1, V2.
  - intros (_ & H & _) (x & Hx & Hk & Hu). by destruct (H x Hx Hk).
  - intros (x & Hx & Hk & Hu) (_ & H & _). by destruct (H x Hx Hk).
Qed.

Lemma reached_start start x : x ∈ start -> reached start x.
Proof. intros Hx. exists x. split; [done|apply rtc_refl]. Qed.

Lemma reached_edge start x y : reached start x -> keep_edge x y -> reached start y.
Proof. intros (s & Hs & Hr) He. exists s. split; [done|]. eapply rtc_r; [apply Hr|apply He]. Qed.

Lemma reached_app s1 s2 x : reached (s1 ++ s2) x <-> reached s1 x \/ reached s2 x.
Proof.
  unfold reached. setoid_rewrite elem_of_app. split.
  - intros (s & [Hs|Hs] & Hr); [left|right]; by exists s.
  - intros [(s & Hs & Hr)|(s & Hs & Hr)]; exists s; (split; [|done]); [by left|by right].
Qed.

Lemma reached_Permutation s1 s2 x : (forall y, y ∈ s1 <-> y ∈ s2) -> reached s1 x -> reached s2 x.
Proof. intros Hp (s & Hs & Hr). exists s. split; [by apply Hp|done]. Qed.

Lemma resolved_to_start b0 s1 s2 r :
  (forall y, y ∈ s1 <-> y ∈ s2) -> resolved_to b0 s1 r -> resolved_to b0 s2 r.
Proof.
  intros Hp. assert (Hr : forall x, reached s1 x <-> reached s2 x)
    by (intros x; split; apply reached_Permutation; intros y; by rewrite Hp).
  destruct r as [b vs|]; cbn; setoid_rewrite Hr; done.
Qed.

(** The variables that are not visited yet, and the stack. *)
Definition chase_cost (visited : gset CapVarId) (stack : list CapVarId) : nat :=
  (set_cost subst (universe subst ∖ visited) + length stack)%nat.

Lemma bound_universe x r : subst !! x = Some r -> x ∈ universe subst.
Proof. intros Hx. unfold universe. apply elem_of_union_l, elem_of_dom. by eexists. Qed.

Lemma set_cost_mono X Y : X ⊆ Y -> (set_cost subst X <= set_cost subst Y)%nat.
Proof.
  revert Y. induction X as [|x X Hx IH] using set_ind_L; intros Y HXY.
  { unfold set_cost. rewrite elements_empty. cbn. lia. }
  rewrite (set_cost_remove subst Y x), (set_cost_remove subst ({[x]} ∪ X) x) by set_solver.
  replace (({[x]} ∪ X) ∖ {[x]}) with X by set_solver. specialize (IH (Y ∖ {[x]}) ltac:(set_solver)). lia.
Qed.

Lemma chase_cost_skip cur visited stack : (chase_cost visited stack < chase_cost visited (cur :: stack))%nat.
Proof. unfold chase_cost. cbn. lia. Qed.

Lemma chase_cost_open cur visited stack :
  (chase_cost ({[cur]} ∪ visited) stack < chase_cost visited (cur :: stack))%nat.
Proof.
  unfold chase_cost. cbn. pose proof (set_cost_mono (universe subst ∖ ({[cur]} ∪ visited)) (universe subst ∖ visited)
    ltac:(set_solver)). lia.
Qed.

Lemma chase_cost_bound cur visited stack b vars :
  (cur ∉ visited) -> subst !! cur = Some (Resolved b vars) ->
  (chase_cost ({[cur]} ∪ visited) (rev vars ++ stack) < chase_cost visited (cur :: stack))%nat.
Proof.
  intros Hv Hs. unfold chase_cost. rewrite length_app, length_rev. cbn.
  rewrite (set_cost_remove subst (universe subst ∖ visited) cur).
  - replace (universe subst ∖ visited ∖ {[cur]}) with (universe subst ∖ ({[cur]} ∪ visited)) by set_solver.
    unfold node_cost, succs. rewrite Hs. lia.
  - apply elem_of_difference. split; [by eapply bound_universe|done].
Qed.

(* ------------------------------------------------------------------ *)
(** ** The worklist                                                    *)
(* ------------------------------------------------------------------ *)

Context (Wsubst : map_Forall (fun _ r => wf_row r) subst).
Context (b0 : CapBits) (start : list CapVarId) (Hb0 : (0 <= b0 < 2 ^ 15)%Z).

Record chase_inv (stack : list CapVarId) (visited : gset CapVarId) (bits : CapBits) (open : list CapVarId) : Prop := {
  ci_visited : forall x, x ∈ visited -> reached start x;
  ci_stack : forall x, x ∈ stack -> reached start x;
  ci_start : forall x, x ∈ start -> x ∈ visited \/ x ∈ stack;
  ci_closed : forall x y, x ∈ visited -> keep_edge x y -> y ∈ visited \/ y ∈ stack;
  ci_known : forall x, x ∈ visited -> (x ∉ keep) -> subst !! x <> Some Unknown;
  ci_range : (0 <= bits < 2 ^ 15)%Z;
  ci_bits : forall c, granted bits c <-> granted b0 c
    \/ exists x b' vs', x ∈ visited /\ (x ∉ keep) /\ subst !! x = Some (Resolved b' vs') /\ granted b' c;
  ci_open : forall x, x ∈ open <-> x ∈ visited /\ (x ∈ keep \/ subst !! x = None)
}.

Lemma chase_inv_start stack : (forall x, x ∈ stack <-> x ∈ start) -> chase_inv stack ∅ b0 [].
Proof.
  intros Hs. split; try set_solver.
Qed.

Lemma chase_inv_skip cur stack visited bits open :
  chase_inv (cur :: stack) visited bits open -> cur ∈ visited -> chase_inv stack visited bits open.
Proof.
  intros [H1 H2 H3 H4 H5 H6 H7 H8] Hc. split; try done.
  - intros x Hx. apply H2. by right.
  - intros x Hx. destruct (H3 x Hx) as [?|[->|?]%elem_of_cons]; auto.
  - intros x y Hx He. destruct (H4 x y Hx He) as [?|[->|?]%elem_of_cons]; auto.
Qed.

(** Visiting a variable that is left open. *)
Lemma chase_inv_open cur stack visited bits open :
  chase_inv (cur :: stack) visited bits open -> cur ∈ keep \/ subst !! cur = None ->
  chase_inv stack ({[cur]} ∪ visited) bits (open ++ [cur]).
Proof.
  intros [H1 H2 H3 H4 H5 H6 H7 H8] Hc.
  assert (Hno : forall y, ~ keep_edge cur y).
  { intros y [Hk He]. destruct Hc as [?|Hn]; [done|]. unfold edge, succs in He. rewrite Hn in He.
    by apply elem_of_nil in He. }
  split; try done.
  - intros x [->%elem_of_singleton|Hx]%elem_of_union; [apply H2; by left|by apply H1].
  - intros x Hx. apply H2. by right.
  - intros x Hx. destruct (H3 x Hx) as [?|[->|?]%elem_of_cons]; [left; set_solver|left; set_solver|by right].
  - intros x y [->%elem_of_singleton|Hx]%elem_of_union He; [by destruct (Hno y)|].
    destruct (H4 x y Hx He) as [?|[->|?]%elem_of_cons]; [left; set_solver|left; set_solver|by right].
  - intros x [->%elem_of_singleton|Hx]%elem_of_union Hk; [|by apply H5]. destruct Hc as [?|Hn]; [done|]. by rewrite Hn.
  - intros c. rewrite H7. split; (intros [?|(x & b' & vs' & Hx & Hk & Hs & Hg)]; [by left|right; exists x, b', vs']).
    + split; [set_solver|done].
    + apply elem_of_union in Hx as [->%elem_of_singleton|Hx]; [|done].
      destruct Hc as [?|Hn]; [done|congruence].
  - intros x. rewrite elem_of_app, H8, list_elem_of_singleton, elem_of_union, elem_of_singleton.
    split; [intros [[? ?]| ->]; auto|intros [[->|?] ?]; auto].
Qed.

(** Visiting a variable that is bound. *)
Lemma chase_inv_bound cur stack visited bits open b vars :
  chase_inv (cur :: stack) visited bits open -> (cur ∉ keep) -> subst !! cur = Some (Resolved b vars) ->
  chase_inv (rev vars ++ stack) ({[cur]} ∪ visited) (union_of_bits bits b) open.
Proof.
  intros [H1 H2 H3 H4 H5 H6 H7 H8] Hk Hs.
  assert (He : forall y, y ∈ vars -> keep_edge cur y).
  { intros y Hy. split; [done|]. unfold edge, succs. by rewrite Hs. }
  assert (Hrev : forall y, y ∈ rev vars <-> y ∈ vars) by (intros y; by rewrite !list_elem_of_In, <-in_rev).
  assert (Hcur : reached start cur) by (apply H2; by left).
  split.
  - intros x [->%elem_of_singleton|Hx]%elem_of_union; [done|by apply H1].
  - intros x [Hx%Hrev|Hx]%elem_of_app; [by eapply reached_edge, He|]. apply H2. by right.
  - intros x Hx. destruct (H3 x Hx) as [?|[->|?]%elem_of_cons]; [left; set_solver|left; set_solver|].
    right. apply elem_of_app. by right.
  - intros x y [->%elem_of_singleton|Hx]%elem_of_union Hxy.
    + right. apply elem_of_app. left. apply Hrev. destruct Hxy as [_ Hxy]. unfold edge, succs in Hxy. by rewrite Hs in Hxy.
    + destruct (H4 x y Hx Hxy) as [?|[->|?]%elem_of_cons]; [left; set_solver|left; set_solver|].
      right. apply elem_of_app. by right.
  - intros x [->%elem_of_singleton|Hx]%elem_of_union; [by rewrite Hs|by apply H5].
  - apply union_of_bits_range; [done|]. by destruct (Wsubst cur _ Hs).
  - intros c. rewrite granted_union, H7. split.
    + intros [[?|(x & b' & vs' & Hx & ?)]|Hg]; [by left|right; exists x, b', vs'; split; [set_solver|done]|].
      right. exists cur, b, vars. split; [set_solver|done].
    + intros [?|(x & b' & vs' & Hx & Hxk & Hsx & Hg)]; [by left; left|].
      apply elem_of_union in Hx as [->%elem_of_singleton|Hx]; [right; congruence|].
      left. right. by exists x, b', vs'.
  - intros x. rewrite H8, elem_of_union, elem_of_singleton. split; [intros [? ?]; auto|].
    intros [[->|?] Hx]; [|auto]. destruct Hx as [?|?]; [done|congruence].
Qed.

Lemma chase_loop_ok fuel stack visited bits open :
  chase_inv stack visited bits open -> (chase_cost visited stack <= fuel)%nat ->
  exists r, chase fuel subst keep stack visited bits open = Done r
    /\ match r with
       | Some (bits', open', visited') => chase_inv [] visited' bits' open'
       | None => exists x, reached start x /\ (x ∉ keep) /\ subst !! x = Some Unknown
       end.
Proof.
  revert stack visited bits open. induction fuel as [|fuel IH]; intros stack visited bits open HI Hf.
  all: destruct stack as [|cur stack]; [exists (Some (bits, open, visited)); by split|].
  { unfold chase_cost in Hf. cbn in Hf. lia. }
  cbn [chase]. case_bool_decide as Hv.
  { apply IH; [by eapply chase_inv_skip|]. pose proof (chase_cost_skip cur visited stack). lia. }
  case_bool_decide as Hk.
  { apply IH; [apply chase_inv_open; [done|by left]|]. pose proof (chase_cost_open cur visited stack). lia. }
  destruct (subst !! cur) as [[b vars|]|] eqn:Hs.
  - apply IH; [by apply chase_inv_bound|]. pose proof (chase_cost_bound cur visited stack b vars Hv Hs). lia.
  - exists None. split; [done|]. exists cur. split; [apply (ci_stack _ _ _ _ HI); by left|done].
  - apply IH; [apply chase_inv_open; [done|by right]|]. pose proof (chase_cost_open cur visited stack). lia.
Qed.

Lemma chase_done visited bits open x : chase_inv [] visited bits open -> x ∈ visited <-> reached start x.
Proof.
  intros HI. split; [by apply (ci_visited _ _ _ _ HI)|]. intros (s & Hs & Hr).
  assert (Hsv : s ∈ visited) by (destruct (ci_start _ _ _ _ HI s Hs) as [?|?%elem_of_nil]; done).
  clear Hs. induction Hr as [|x y z Hxy _ IH]; [done|]. apply IH.
  by destruct (ci_closed _ _ _ _ HI x y Hsv Hxy) as [?|?%elem_of_nil].
Qed.

(** The loop ends, and what it found is the resolved row once the variables on
    cycles are left open too. *)
Lemma chase_ok stack : (forall x, x ∈ stack <-> x ∈ start) ->
  exists r, chase (chase_fuel subst stack) subst keep stack ∅ b0 [] = Done r
    /\ match r with
       | Some (bits, open, visited) =>
           (forall x, x ∈ visited <-> reached start x)
           /\ forall vs, (forall x, x ∈ vs <-> x ∈ open \/ x ∈ visited /\ (x ∉ keep) /\ on_cycle subst x) ->
                resolved_to b0 start (Resolved bits (sort_dedup vs))
       | None => resolved_to b0 start Unknown
       end.
Proof.
  intros Hst. destruct (chase_loop_ok (chase_fuel subst stack) stack ∅ b0 []) as (r & Hr & HI).
  - by apply chase_inv_start.
  - unfold chase_cost, chase_fuel, cycle_fuel. by rewrite difference_empty_L.
  - exists r. split; [done|]. destruct r as [[[bits open] visited]|]; [|done].
    pose proof (chase_done visited bits open) as Hd. split; [intros x; by apply Hd|].
    intros vs Hvs. destruct (sort_dedup_spec vs) as [Hsort Hin]. destruct HI as [H1 H2 H3 H4 H5 H6 H7 H8] eqn:HIe.
    split; [by split|]. split; [|split].
    + intros x Hx. apply H5. by apply Hd.
    + intros c. rewrite H7. setoid_rewrite <-(Hd _ HI). done.
    + intros x. rewrite Hin, Hvs, H8, <-(Hd x HI). destruct (decide (x ∈ keep)); tauto.
Qed.
End Meaning.

(* ------------------------------------------------------------------ *)
(** ** The caches                                                      *)
(* ------------------------------------------------------------------ *)

(** Every cache entry is what resolving would compute now. *)
Record coherent (e : InferenceEngine) : Prop := {
  co_wf : map_Forall (fun _ r => wf_row r) (cap_substitutions e);
  co_rows : forall v r, cap_resolve_cache e !! v = Some r -> resolved_to (cap_substitutions e) ∅ EMPTY [v] r;
  co_cycles : forall X, cap_cycle_cache e = Some X -> forall x, x ∈ X <-> on_cycle (cap_substitutions e) x
}.

(** [e'] is [e] up to the caches. *)
Definition cache_step (e e' : InferenceEngine) : Prop :=
  e' = set_cap_cycle_cache (cap_cycle_cache e') (set_cap_resolve_cache (cap_resolve_cache e') e).

Lemma cache_step_refl e : cache_step e e.
Proof. unfold cache_step. by destruct e. Qed.

Lemma cache_step_trans e1 e2 e3 : cache_step e1 e2 -> cache_step e2 e3 -> cache_step e1 e3.
Proof. unfold cache_step. intros H1 H2. rewrite H2, H1. by destruct e1. Qed.

#[export] Instance cache_step_preorder : PreOrder cache_step.
Proof. split; [exact cache_step_refl|exact cache_step_trans]. Qed.

Lemma cache_step_subst e e' : cache_step e e' -> cap_substitutions e' = cap_substitutions e.
Proof. unfold cache_step. intros ->. by destruct e. Qed.

Lemma cache_step_slots e e' : cache_step e e' -> global_slot_cap_vars e' = global_slot_cap_vars e.
Proof. unfold cache_step. intros ->. by destruct e. Qed.

Lemma new_engine_coherent : coherent new_engine.
Proof. split; cbn; [apply map_Forall_empty|intros v r; by rewrite lookup_empty|done]. Qed.

Section Resolve.
Context (hash_order : gset CapVarId -> list CapVarId).
Context (Hhash : forall X, Permutation (hash_order X) (elements X)).

Lemma elem_of_hash_order X x : x ∈ hash_order X <-> x ∈ X.
Proof. by rewrite Hhash, elem_of_elements. Qed.

Lemma cached_cycle_nodes_ok e : coherent e ->
  exists X e', cached_cycle_nodes hash_order e = Done (X, e') /\ coherent e' /\ cache_step e e'
    /\ forall x, x ∈ X <-> on_cycle (cap_substitutions e) x.
Proof.
  intros HC. unfold cached_cycle_nodes. destruct (cap_cycle_cache e) as [X|] eqn:HX.
  - exists X, e. split; [done|]. split; [done|]. split; [done|]. by apply (co_cycles e HC).
  - destruct (cycle_nodes_ok (cap_substitutions e) (hash_order (dom (cap_substitutions e))) (Hhash _)) as (X & -> & Hspec).
    cbn [mbind res_bind]. eexists X, _. split; [reflexivity|]. split; [|split]; [..|done].
    + destruct HC as [H1 H2 H3]. split; cbn; [done|done|]. by intros ? [= <-].
    + unfold cache_step. by destruct e.
Qed.

Lemma resolve_cap_var_ok e v : coherent e ->
  exists r e', resolve_cap_var hash_order e v = Done (r, e') /\ coherent e' /\ cache_step e e'
    /\ resolved_to (cap_substitutions e) ∅ EMPTY [v] r.
Proof.
  intros HC. unfold resolve_cap_var. destruct (cap_resolve_cache e !! v) as [hit|] eqn:Hhit.
  { exists hit, e. split; [done|]. split; [done|]. split; [done|]. by apply (co_rows e HC). }
  assert (Hstep : forall e1 r, coherent e1 -> cache_step e e1 -> resolved_to (cap_substitutions e) ∅ EMPTY [v] r ->
    exists e', set_cap_resolve_cache (<[v := r]> (cap_resolve_cache e1)) e1 = e' /\ coherent e' /\ cache_step e e').
  { intros e1 r HC1 Hc Hr. eexists. split; [done|]. pose proof (cache_step_subst _ _ Hc) as Hs. split.
    - destruct HC1 as [H1 H2 H3]. split; cbn; [done| |done]. intros w rw. rewrite Hs in H2 |- *.
      destruct (decide (w = v)) as [->|Hne]; [rewrite lookup_insert_eq; by intros [= <-]|].
      rewrite lookup_insert_ne by done. apply H2.
    - etrans; [apply Hc|]. unfold cache_step. by destruct e1. }
  destruct (chase_ok (cap_substitutions e) ∅ (co_wf e HC) EMPTY [v] ltac:(unfold EMPTY; lia) [v]) as (r & -> & Hr); [done|].
  cbn [mbind res_bind]. destruct r as [[[bits open] visited]|].
  - destruct Hr as [Hv Hr]. destruct (cached_cycle_nodes_ok e HC) as (X & e1 & -> & HC1 & Hc1 & HX).
    cbn [mbind res_bind]. specialize (Hr (open ++ filter (fun c => c ∈ visited) (hash_order X))).
    destruct (Hstep e1 (Resolved bits (sort_dedup (open ++ filter (fun c => c ∈ visited) (hash_order X))))) as (e' & He & ? & ?);
      [done|done| |].
    + apply Hr. intros x. rewrite elem_of_app, list_elem_of_filter, elem_of_hash_order, HX. set_solver.
    + eexists _, e'. rewrite He. split; [done|]. split; [done|]. split; [done|]. apply Hr.
      intros x. rewrite elem_of_app, list_elem_of_filter, elem_of_hash_order, HX. set_solver.
  - destruct (Hstep e Unknown) as (e' & He & ? & ?); [done|done|done|]. eexists Unknown, e'. cbn. by rewrite He.
Qed.

(** The union of resolved rows resolves the union. *)
Lemma resolved_to_union subst b s1 s2 r1 r2 : (0 <= b < 2 ^ 15)%Z ->
  resolved_to subst ∅ b s1 r1 -> resolved_to subst ∅ EMPTY s2 r2 -> wf_row r2 ->
  resolved_to subst ∅ b (s1 ++ s2) (union r1 r2).
Proof.
  intros Hb H1 H2 W2. destruct r1 as [b1 v1|]; [|destruct H1 as (x & Hx & ?); exists x; split; [apply reached_app; by left|done]].
  destruct r2 as [b2 v2|]; [|destruct H2 as (x & Hx & ?); exists x; split; [apply reached_app; by right|done]].
  destruct H1 as (W1 & K1 & G1 & V1), H2 as (_ & K2 & G2 & V2).
  pose proof (wf_union _ _ W1 W2) as W. destruct (union_Resolved b1 v1 b2 v2 W1) as (vs & E & Hvs). rewrite E in *.
  split; [done|]. setoid_rewrite reached_app. split; [|split].
  - intros x [?|?]; [by apply K1|by apply K2].
  - intros c. rewrite granted_union, G1, G2. split.
    + intros [[?|(x & b' & vs' & ? & ?)]|[[]%granted_EMPTY|(x & b' & vs' & ? & ?)]]; [by left|right..];
        exists x, b', vs'; (split; [|done]); [by left|by right].
    + intros [?|(x & b' & vs' & [?|?] & ?)]; [by left; left|left; right|right; right]; by exists x, b', vs'.
  - intros x. rewrite Hvs, V1, V2. tauto.
Qed.

Lemma resolved_to_nil subst keep b : (0 <= b < 2 ^ 15)%Z -> resolved_to subst keep b [] (closed b).
Proof.
  intros Hb. assert (Hno : forall x, ~ reached subst keep [] x) by (intros x (s & Hs & _); by apply elem_of_nil in Hs).
  split; [by apply wf_closed|]. split; [intros x Hx; by apply Hno in Hx|]. split.
  - intros c. split; [by left|]. intros [?|(x & ? & ? & Hx & _)]; [done|by apply Hno in Hx].
  - intros x. rewrite elem_of_nil. split; [done|]. intros [Hx _]. by apply Hno in Hx.
Qed.

(** What a row resolves to; an unknown row stays unknown. *)
Definition row_resolved_to (subst : gmap CapVarId CapRow) (keep : gset CapVarId) (row r : CapRow) : Prop :=
  match row with
  | Unknown => r = Unknown
  | Resolved b vs => resolved_to subst keep b vs r
  end.

Lemma resolved_to_wf subst keep b s r : resolved_to subst keep b s r -> wf_row r.
Proof. destruct r; [by intros [? _]|done]. Qed.

Lemma resolve_cap_row_ok e row : coherent e -> wf_row row ->
  exists r e', resolve_cap_row hash_order e row = Done (r, e') /\ coherent e' /\ cache_step e e'
    /\ row_resolved_to (cap_substitutions e) ∅ row r.
Proof.
  intros HC Hw. destruct row as [b vs|]; [|by exists Unknown, e]. destruct Hw as [Hb Hsort].
  assert (Hfold : forall vs out e1 s, coherent e1 -> cache_step e e1 ->
    resolved_to (cap_substitutions e) ∅ b s out ->
    exists r e', fold_res (fun '(out, e) v => '(r, e) ← resolve_cap_var hash_order e v; Done (union out r, e)) vs (out, e1)
      = Done (r, e') /\ coherent e' /\ cache_step e e' /\ resolved_to (cap_substitutions e) ∅ b (s ++ vs) r).
  { clear vs Hsort. intros vs. induction vs as [|v vs IH]; intros out e1 s HC1 Hc1 Hr; cbn [fold_res].
    - exists out, e1. by rewrite app_nil_r.
    - destruct (resolve_cap_var_ok e1 v HC1) as (r & e2 & -> & HC2 & Hc2 & Hr2). cbn [mbind res_bind].
      rewrite (cache_step_subst _ _ Hc1) in Hr2.
      destruct (IH (union out r) e2 (s ++ [v])) as (r' & e' & He & ? & ? & Hr'); [done|by etrans| |].
      + apply resolved_to_union; [done..|]. by eapply resolved_to_wf.
      + exists r', e'. rewrite <-app_assoc in Hr'. done. }
  destruct vs as [|v vs].
  - exists (Resolved b []), e. split; [done|]. split; [done|]. split; [done|]. by apply resolved_to_nil.
  - apply (Hfold (v :: vs) (closed b) e []); [done|done|by apply resolved_to_nil].
Qed.

Lemma keeping_slots_ok e row : coherent e -> wf_row row ->
  exists r e', resolve_cap_row_keeping_slots hash_order e row = Done (r, e') /\ coherent e' /\ cache_step e e'
    /\ row_resolved_to (cap_substitutions e) (global_slot_cap_vars e) row r.
Proof.
  intros HC Hw. destruct row as [b vs|]; [|by exists Unknown, e]. destruct Hw as [Hb _].
  destruct vs as [|v vs].
  { exists (Resolved b []), e. split; [done|]. split; [done|]. split; [done|]. by apply resolved_to_nil. }
  unfold resolve_cap_row_keeping_slots. set (start := v :: vs).
  destruct (chase_ok (cap_substitutions e) (global_slot_cap_vars e) (co_wf e HC) b start Hb (rev start)) as (r & -> & Hr).
  { intros x. by rewrite !list_elem_of_In, <-in_rev. }
  cbn [mbind res_bind]. destruct r as [[[bits open] visited]|]; [|by exists Unknown, e].
  destruct Hr as [Hv Hr]. destruct (cached_cycle_nodes_ok e HC) as (X & e1 & -> & HC1 & Hc1 & HX).
  cbn [mbind res_bind]. eexists _, e1. split; [reflexivity|]. split; [done|]. split; [done|].
  apply Hr. intros x. rewrite elem_of_app, list_elem_of_filter, elem_of_hash_order, HX. tauto.
Qed.

(** Renaming the open variables of a row. *)
Lemma rename_row_ok bits vs (f : CapVarId -> CapVarId) : (0 <= bits < 2 ^ 15)%Z ->
  exists ws, foldl (fun out v => union out (var (f v))) (closed bits) vs = Resolved bits ws
    /\ wf_row (Resolved bits ws) /\ forall x, x ∈ ws <-> exists v, v ∈ vs /\ x = f v.
Proof.
  intros Hb. assert (Hgen : forall vs ws0, wf_row (Resolved bits ws0) ->
    exists ws, foldl (fun out v => union out (var (f v))) (Resolved bits ws0) vs = Resolved bits ws
      /\ wf_row (Resolved bits ws) /\ forall x, x ∈ ws <-> x ∈ ws0 \/ exists v, v ∈ vs /\ x = f v).
  { clear vs. intros vs. induction vs as [|v vs IH]; intros ws0 W0; cbn [foldl].
    { exists ws0. split; [done|]. split; [done|]. intros x. split; [by left|]. intros [?|(y & Hy & _)]; [done|].
      by apply elem_of_nil in Hy. }
    pose proof (wf_union _ _ W0 (wf_var (f v))) as W1. destruct (union_Resolved bits ws0 EMPTY [f v] W0) as (w1 & E & H1).
    unfold var in *. rewrite E in *. unfold union_of_bits, EMPTY in *. rewrite Z.lor_0_r in *.
    destruct (IH w1 W1) as (ws & -> & W & H). exists ws. split; [done|]. split; [done|]. intros x.
    rewrite H, H1, list_elem_of_singleton. setoid_rewrite elem_of_cons. split.
    - intros [[?| ->]|(y & ? & ?)]; [by left|right; exists v; by split; [left|]|right; exists y; by split; [right|]].
    - intros [?|(y & [->|?] & ?)]; [by left; left|left; by right|right; by exists y]. }
  destruct (Hgen vs []) as (ws & H & W & Hin); [by apply wf_closed|]. exists ws. split; [done|]. split; [done|].
  intros x. rewrite Hin, elem_of_nil. split; [by intros [?|?]|by right].
Qed.

(** A reference gets the authority of the row with its own copies of the open
    variables; of an unknown row, the bits of [ALL]. *)
Lemma instantiate_row_ok e row ren : coherent e -> wf_row row ->
  exists r e' ws, instantiate_row hash_order e row ren = Done (Resolved (concrete_bits r) ws, e')
    /\ coherent e' /\ cache_step e e' /\ row_resolved_to (cap_substitutions e) (global_slot_cap_vars e) row r
    /\ wf_row (Resolved (concrete_bits r) ws)
    /\ forall x, x ∈ ws <-> exists v, v ∈ var_ids r /\ x = default v (ren !! v).
Proof.
  intros HC Hw. unfold instantiate_row. destruct (keeping_slots_ok e row HC Hw) as (r & e' & -> & HC' & Hc & Hr).
  cbn [mbind res_bind]. assert (Wr : wf_row r) by (destruct row; [by eapply resolved_to_wf|by rewrite Hr]).
  destruct (rename_row_ok (concrete_bits r) (var_ids r) (fun v => default v (ren !! v))) as (ws & E & W & Hin).
  { destruct r; [by destruct Wr|done]. }
  rewrite E. by exists r, e', ws.
Qed.
End Resolve.

(** C25: with right caches, resolving a row ends and yields the one row that has
    the bits of everything it reaches in the substitution, and leaves open
    exactly the reachable variables that are unbound or lie on a cycle; it is
    unknown exactly when something unknown is reachable.  The caches stay right,
    and nothing but them changes. *)
Theorem resolve_cap_row_spec (hash_order : gset CapVarId -> list CapVarId) e row :
  (forall X, Permutation (hash_order X) (elements X)) -> coherent e -> wf_row row ->
  exists r e', resolve_cap_row hash_order e row = Done (r, e')
    /\ row_resolved_to (cap_substitutions e) ∅ row r
    /\ (forall r', row_resolved_to (cap_substitutions e) ∅ row r' -> r' = r)
    /\ coherent e' /\ cache_step e e'.
Proof.
  intros Hh HC Hw. destruct (resolve_cap_row_ok hash_order Hh e row HC Hw) as (r & e' & ? & ? & ? & Hr).
  exists r, e'. split; [done|]. split; [done|]. split; [|done].
  intros r' Hr'. destruct row as [b vs|]; [by eapply resolved_to_det|congruence].
Qed.

Definition cyclic_engine : InferenceEngine :=
  set_cap_substitutions {[ 0 := Resolved 1 [1]; 1 := Resolved 2 [2; 3]; 2 := Resolved 4 [1] ]}
    (set_next_cap_var 4 new_engine).

Lemma resolve_cap_row_spec_witness :
  (exists r e', resolve_cap_row elements cyclic_engine (Resolved 8 [0]) = Done (r, e')
    /\ row_resolved_to (cap_substitutions cyclic_engine) ∅ (Resolved 8 [0]) r
    /\ (forall r', row_resolved_to (cap_substitutions cyclic_engine) ∅ (Resolved 8 [0]) r' -> r' = r)
    /\ coherent e' /\ cache_step cyclic_engine e')
  /\ (fst <$> resolve_cap_row elements cyclic_engine (Resolved 8 [0])) = Done (Resolved 15 [1; 2; 3]).
Proof.
  split; [|vm_compute; reflexivity].
  apply (resolve_cap_row_spec elements cyclic_engine (Resolved 8 [0])); [done| |split; [lia|repeat constructor]].
  split; cbn; [|intros v r; by rewrite lookup_empty|done].
  apply map_Forall_insert_2; [split; [lia|repeat constructor]|].
  apply map_Forall_insert_2; [split; [lia|repeat constructor; lia]|].
  apply map_Forall_singleton. split; [lia|repeat constructor].
Defined.

(* ------------------------------------------------------------------ *)
(** ** The recursive expansion                                         *)
(* ------------------------------------------------------------------ *)

(** The form the comment on [resolve_cap_var] compares the worklist with: expand
    every variable, except those already on the path. *)
Fixpoint expand (fuel : nat) (subst : gmap CapVarId CapRow) (path : gset CapVarId) (v : CapVarId) : res CapRow :=
  match fuel with
  | O => OutOfFuel
  | S fuel =>
      if bool_decide (v ∈ path) then Done (var v)
      else
        match subst !! v with
        | None => Done (var v)
        | Some Unknown => Done Unknown
        | Some (Resolved concrete vars) =>
            fold_res (fun out w => r ← expand fuel subst ({[v]} ∪ path) w; Done (union out r)) vars (closed concrete)
        end
  end.

(** The two differ on the variables of a cycle that is entered from outside: the
    expansion leaves open where it came in, the worklist every one. *)
Lemma expand_differs :
  expand 10 (cap_substitutions cyclic_engine) ∅ 0 = Done (Resolved 7 [1; 3])
  /\ (fst <$> resolve_cap_var elements cyclic_engine 0) = Done (Resolved 7 [1; 2; 3]).
Proof. split; vm_compute; reflexivity. Qed.
