(* ===== verification/CapFlow.v ===== *)
(** Binding capability-row variables ([bind_cap_var], [store_into_input],
    [unify_rows] of [kryos-types/src/infer.rs]): the mutual recursion ends, rows
    only widen, the caches stay right, and a flow into a slot is seen by every
    later reader of the slot. *)

From stdpp Require Import relations.
From S2P Require Import Prelude Machine Token Capability CapRow CapCycles Ty CapVars CapSolve.

#[local] Open Scope N_scope.

(* ------------------------------------------------------------------ *)
(** ** The order of rows                                               *)
(* ------------------------------------------------------------------ *)

Definition row_le (r1 r2 : CapRow) : Prop :=
  match r1, r2 with
  | _, Unknown => True
  | Unknown, Resolved _ _ => False
  | Resolved b1 v1, Resolved b2 v2 => (forall c, granted b1 c -> granted b2 c) /\ (forall v, v ∈ v1 -> v ∈ v2)
  end.

#[export] Instance row_le_preorder : PreOrder row_le.
Proof.
  split.
  - intros [b v|]; cbn; auto.
  - intros [b1 v1|] [b2 v2|] [b3 v3|]; cbn; try done. intros [? ?] [? ?]. auto.
Qed.

Lemma row_le_union_l a b : wf_row a -> row_le a (union a b).
Proof.
  destruct a as [b1 v1|], b as [b2 v2|]; try done. intros W.
  destruct (union_Resolved b1 v1 b2 v2 W) as (vs & -> & Hvs). split.
  - intros c Hc. apply granted_union. by left.
  - intros v Hv. apply Hvs. by left.
Qed.

Lemma row_le_union_r a b : wf_row a -> row_le b (union a b).
Proof.
  destruct a as [b1 v1|], b as [b2 v2|]; try done. intros W.
  destruct (union_Resolved b1 v1 b2 v2 W) as (vs & -> & Hvs). split.
  - intros c Hc. apply granted_union. by right.
  - intros v Hv. apply Hvs. by right.
Qed.

Definition subst_le (s1 s2 : gmap CapVarId CapRow) : Prop :=
  forall v r, s1 !! v = Some r -> exists r', s2 !! v = Some r' /\ row_le r r'.

#[export] Instance subst_le_preorder : PreOrder subst_le.
Proof.
  split.
  - intros s v r Hr. by exists r.
  - intros s1 s2 s3 H12 H23 v r Hr. destruct (H12 v r Hr) as (r2 & H2 & L2).
    destruct (H23 v r2 H2) as (r3 & H3 & L3). exists r3. split; [done|by etrans].
Qed.

(* ------------------------------------------------------------------ *)
(** ** Rows over a bounded set of variables                            *)
(* ------------------------------------------------------------------ *)

Definition row_below (n : N) (r : CapRow) : Prop := wf_row r /\ forall v, v ∈ var_ids r -> v < n.

Lemma row_below_union n a b : row_below n a -> row_below n b -> row_below n (union a b).
Proof.
  intros [Wa Va] [Wb Vb]. split; [by apply wf_union|]. destruct a as [b1 v1|], b as [b2 v2|]; cbn [union];
    try (intros v Hv; by apply elem_of_nil in Hv).
  destruct (union_Resolved b1 v1 b2 v2 Wa) as (vs & [= <-] & Hvs). intros v [Hv|Hv]%Hvs; auto.
Qed.

Lemma row_below_mono n m r : n <= m -> row_below n r -> row_below m r.
Proof. intros Hle [W V]. split; [done|]. intros v Hv%V. lia. Qed.

Lemma row_below_var n v : v < n -> row_below n (var v).
Proof. intros Hv. split; [apply wf_var|]. by intros w ->%list_elem_of_singleton. Qed.

Definition caps_in (b : CapBits) : gset Capability :=
  list_to_set (List.filter (fun c => contains_bits b (from_capability c)) variants).

Lemma elem_of_caps_in b c : c ∈ caps_in b <-> granted b c.
Proof.
  unfold caps_in. rewrite elem_of_list_to_set, list_elem_of_In, filter_In, contains_bits_granted.
  split; [by intros [_ ?]|]. intros Hg. split; [|done]. destruct c; cbn; tauto.
Qed.

Definition row_height (n : N) (o : option CapRow) : nat :=
  match o with
  | None => 0
  | Some (Resolved b vs) => 1 + size (caps_in b) + size (list_to_set vs : gset CapVarId)
  | Some Unknown => 17 + N.to_nat n
  end.

Lemma size_below n (X : gset N) : (forall x, x ∈ X -> x < n) -> (size X <= N.to_nat n)%nat.
Proof.
  intros HX. etrans; [apply (subseteq_size X (list_to_set (map N.of_nat (seq 0 (N.to_nat n)))))|].
  - intros x Hx%HX. apply elem_of_list_to_set, list_elem_of_In, in_map_iff. exists (N.to_nat x).
    split; [lia|]. apply in_seq. lia.
  - etrans; [apply size_list_to_set_le|]. by rewrite length_map, length_seq.
Qed.

Lemma size_caps_in b : (size (caps_in b) <= 15)%nat.
Proof.
  etrans; [apply (subseteq_size _ (list_to_set variants))|vm_compute; lia].
  intros c _. by destruct c; apply (bool_decide_unpack _).
Qed.

Lemma row_height_max n r : row_below n r -> (row_height n (Some r) <= 17 + N.to_nat n)%nat.
Proof.
  destruct r as [b vs|]; cbn [row_height]; [|lia]. intros [_ Hv]. pose proof (size_caps_in b).
  pose proof (size_below n (list_to_set vs) ltac:(intros x; rewrite elem_of_list_to_set; apply Hv)). lia.
Qed.

(** A wider row is higher, unless it is the same. *)
Lemma row_height_le n r1 r2 : row_below n r1 -> row_below n r2 -> row_le r1 r2 ->
  (row_height n (Some r1) <= row_height n (Some r2))%nat
  /\ (r1 <> r2 -> (row_height n (Some r1) < row_height n (Some r2))%nat).
Proof.
  intros B1 B2 Hle. destruct r1 as [b1 v1|], r2 as [b2 v2|]; cbn [row_height] in *; [|  |done|split; [lia|done]].
  - destruct Hle as [Hb Hv]. destruct B1 as [W1 _], B2 as [W2 _].
    assert (Hc : caps_in b1 ⊆ caps_in b2) by (intros c; rewrite !elem_of_caps_in; apply Hb).
    assert (Hs : (list_to_set v1 : gset CapVarId) ⊆ list_to_set v2)
      by (intros v; rewrite !elem_of_list_to_set; apply Hv).
    pose proof (subseteq_size _ _ Hc). pose proof (subseteq_size _ _ Hs). split; [lia|]. intros Hne.
    destruct (decide (caps_in b2 ⊆ caps_in b1)) as [Hc'|Hc'].
    + destruct (decide ((list_to_set v2 : gset CapVarId) ⊆ list_to_set v1)) as [Hs'|Hs'].
      * destruct Hne. apply row_ext; [exact W1|exact W2| |].
        -- intros c. split; [apply Hb|]. intros Hg. by apply elem_of_caps_in, Hc', elem_of_caps_in.
        -- intros v. split; [apply Hv|]. intros Hin. by apply (elem_of_list_to_set (C := gset CapVarId)), Hs', elem_of_list_to_set.
      * pose proof (subset_size (list_to_set v1 : gset CapVarId) (list_to_set v2) ltac:(done)). lia.
    + pose proof (subset_size (caps_in b1) (caps_in b2) ltac:(done)). lia.
  - pose proof (size_caps_in b1). destruct B1 as [_ Hv].
    pose proof (size_below n (list_to_set v1) ltac:(intros x; rewrite elem_of_list_to_set; apply Hv)). lia.
Qed.

Definition subst_below (n : N) (s : gmap CapVarId CapRow) : Prop :=
  forall v r, s !! v = Some r -> v < n /\ row_below n r.

(** How far the rows of a substitution have been widened. *)
Definition height (n : N) (s : gmap CapVarId CapRow) : nat :=
  sum_list_with (fun v => row_height n (s !! N.of_nat v)) (seq 0 (N.to_nat n)).

Definition max_height (n : N) : nat := (N.to_nat n * (N.to_nat n + 17))%nat.

Lemma sum_list_with_le {A} (f g : A -> nat) l : (forall a, a ∈ l -> (f a <= g a)%nat) ->
  (sum_list_with f l <= sum_list_with g l)%nat.
Proof.
  induction l as [|a l IH]; intros Hl; [done|]. cbn. pose proof (Hl a ltac:(by left)).
  specialize (IH ltac:(intros; apply Hl; by right)). lia.
Qed.

Lemma sum_list_with_lt {A} (f g : A -> nat) l x : (forall a, a ∈ l -> (f a <= g a)%nat) ->
  x ∈ l -> (f x < g x)%nat -> (sum_list_with f l < sum_list_with g l)%nat.
Proof.
  induction l as [|a l IH]; intros Hl Hx Hlt; [by apply elem_of_nil in Hx|]. cbn.
  pose proof (Hl a ltac:(by left)). pose proof (sum_list_with_le f g l ltac:(intros; apply Hl; by right)).
  apply elem_of_cons in Hx as [->|Hx]; [lia|]. specialize (IH ltac:(intros; apply Hl; by right) Hx Hlt). lia.
Qed.

Lemma sum_list_with_const {A} k (l : list A) : (sum_list_with (fun _ => k) l = length l * k)%nat.
Proof. induction l as [|a l IH]; cbn; lia. Qed.

Lemma height_max n s : subst_below n s -> (height n s <= max_height n)%nat.
Proof.
  intros Hs. unfold height, max_height. etrans; [apply (sum_list_with_le _ (fun _ => 17 + N.to_nat n)%nat)|].
  - intros v _. destruct (s !! N.of_nat v) as [r|] eqn:Hr; [|cbn; lia]. apply row_height_max. by eapply Hs.
  - rewrite sum_list_with_const, length_seq. lia.
Qed.

Lemma row_height_mono n s1 s2 v : subst_below n s1 -> subst_below n s2 -> subst_le s1 s2 ->
  (row_height n (s1 !! v) <= row_height n (s2 !! v))%nat.
Proof.
  intros B1 B2 Hle. destruct (s1 !! v) as [r|] eqn:Hr; [|cbn; lia].
  destruct (Hle v r Hr) as (r' & Hr' & L). rewrite Hr'. apply row_height_le; [by eapply B1|by eapply B2|done].
Qed.

Lemma height_mono n s1 s2 : subst_below n s1 -> subst_below n s2 -> subst_le s1 s2 ->
  (height n s1 <= height n s2)%nat.
Proof. intros B1 B2 Hle. apply sum_list_with_le. intros v _. by apply row_height_mono. Qed.

Lemma height_lt n s1 s2 v : subst_below n s1 -> subst_below n s2 -> subst_le s1 s2 ->
  v < n -> (row_height n (s1 !! v) < row_height n (s2 !! v))%nat -> (height n s1 < height n s2)%nat.
Proof.
  intros B1 B2 Hle Hv Hlt. apply (sum_list_with_lt _ _ _ (N.to_nat v)).
  - intros a _. by apply row_height_mono.
  - apply list_elem_of_In, in_seq. lia.
  - by rewrite N2Nat.id.
Qed.

(* ------------------------------------------------------------------ *)
(** ** The invariant of the engine                                     *)
(* ------------------------------------------------------------------ *)

Definition stores_below (n : N) (m : gmap CapVarId (list CapRow)) : Prop :=
  forall v rows r, m !! v = Some rows -> r ∈ rows -> row_below n r.

Definition scope_below (n : N) (o : option EffectScope) : Prop :=
  forall s, o = Some s -> (forall v, v ∈ touched s -> v < n) /\ (forall v r, (v, r) ∈ param_stores s -> v < n /\ row_below n r).

Record engine_wf (e : InferenceEngine) : Prop := {
  ew_coherent : coherent e;
  ew_subst : subst_below (next_cap_var e) (cap_substitutions e);
  ew_deferred : stores_below (next_cap_var e) (deferred_input_stores e);
  ew_lambda : stores_below (next_cap_var e) (lambda_input_stores e);
  ew_scope : scope_below (next_cap_var e) (effect_scope e)
}.

Lemma new_engine_wf : engine_wf new_engine.
Proof.
  split; [apply new_engine_coherent|..|]; cbn; intros ?; intros; (done || by rewrite lookup_empty in *).
Qed.

Definition scope_step (o o' : option EffectScope) : Prop :=
  match o, o' with
  | None, None => True
  | Some s, Some s' => poly s' = poly s /\ owner s' = owner s
  | _, _ => False
  end.

#[export] Instance scope_step_preorder : PreOrder scope_step.
Proof.
  split; [by intros [s|]|]. intros [s1|] [s2|] [s3|]; cbn; try done. intros [-> ->] [-> ->]. done.
Qed.

(** What a row operation may change: the substitution widens, its caches and
    epoch, the pending stores and the record of the open scope follow. *)
Record row_step (e e' : InferenceEngine) : Prop := {
  rs_frame : e' = set_lambda_input_stores (lambda_input_stores e') (set_effect_scope (effect_scope e')
    (set_deferred_input_stores (deferred_input_stores e') (set_cap_epoch (cap_epoch e')
    (set_cap_cycle_cache (cap_cycle_cache e') (set_cap_resolve_cache (cap_resolve_cache e')
    (set_cap_substitutions (cap_substitutions e') e))))));
  rs_scope : scope_step (effect_scope e) (effect_scope e');
  rs_subst : subst_le (cap_substitutions e) (cap_substitutions e')
}.

#[export] Instance row_step_preorder : PreOrder row_step.
Proof.
  split.
  - intros e. split; [by destruct e|done|done].
  - intros e1 e2 e3 [F1 S1 L1] [F2 S2 L2]. split; [|by etrans|by etrans]. rewrite F2, F1. by destruct e1.
Qed.

Lemma cache_row_step e e' : cache_step e e' -> row_step e e'.
Proof. unfold cache_step. intros ->. split; by destruct e. Qed.

Section Frame.
Context (e e' : InferenceEngine) (Hs : row_step e e').

Lemma step_next : next_cap_var e' = next_cap_var e.
Proof. destruct Hs as [-> _ _]. by destruct e. Qed.
Lemma step_slots : slot_cap_vars e' = slot_cap_vars e.
Proof. destruct Hs as [-> _ _]. by destruct e. Qed.
Lemma step_global : global_slot_cap_vars e' = global_slot_cap_vars e.
Proof. destruct Hs as [-> _ _]. by destruct e. Qed.
Lemma step_input : input_storage_cap_vars e' = input_storage_cap_vars e.
Proof. destruct Hs as [-> _ _]. by destruct e. Qed.
Lemma step_lambda_input : lambda_input_cap_vars e' = lambda_input_cap_vars e.
Proof. destruct Hs as [-> _ _]. by destruct e. Qed.
Lemma step_lambda_param : lambda_param_cap_vars e' = lambda_param_cap_vars e.
Proof. destruct Hs as [-> _ _]. by destruct e. Qed.

Lemma step_frozen v : is_frozen e' v = is_frozen e v.
Proof.
  pose proof (rs_scope _ _ Hs) as Hsc. unfold is_frozen.
  assert (Hf : frozen_cap_vars e' = frozen_cap_vars e) by (destruct Hs as [-> _ _]; by destruct e).
  rewrite Hf. destruct (effect_scope e), (effect_scope e'); cbn in Hsc; try done. by destruct Hsc as [-> _].
Qed.
End Frame.

(* ------------------------------------------------------------------ *)
(** ** Loops over a list                                               *)
(* ------------------------------------------------------------------ *)

Lemma fold_res_ind {A B} (f : B -> A -> res B) (P : B -> Prop) (R : B -> B -> Prop) `{!PreOrder R} l b :
  (forall a b, a ∈ l -> P b -> exists b', f b a = Done b' /\ P b' /\ R b b') ->
  P b -> exists b', fold_res f l b = Done b' /\ P b' /\ R b b'.
Proof.
  revert b. induction l as [|a l IH]; intros b Hf Hb; cbn [fold_res]; [by exists b|].
  destruct (Hf a b ltac:(by left) Hb) as (b1 & -> & Hb1 & R1). cbn [mbind res_bind].
  destruct (IH b1) as (b2 & -> & ? & ?); [intros; apply Hf; [by right|done]|done|].
  exists b2. split; [done|]. split; [done|]. by etrans.
Qed.

(** A loop that establishes, for each element, something that later rounds keep. *)
Lemma fold_res_forall {A B} (f : B -> A -> res B) (P : B -> Prop) (R : B -> B -> Prop) `{!PreOrder R}
    (Q : A -> B -> Prop) l b :
  (forall a b, a ∈ l -> P b -> exists b', f b a = Done b' /\ P b' /\ R b b' /\ Q a b') ->
  (forall a b b', Q a b -> R b b' -> Q a b') ->
  P b -> exists b', fold_res f l b = Done b' /\ P b' /\ R b b' /\ forall a, a ∈ l -> Q a b'.
Proof.
  intros Hf HQ. revert b. induction l as [|a l IH] in Hf |- *; intros b Hb; cbn [fold_res].
  { exists b. split_and!; try done. intros a Ha. by apply elem_of_nil in Ha. }
  destruct (Hf a b ltac:(by left) Hb) as (b1 & -> & Hb1 & R1 & Q1). cbn [mbind res_bind].
  destruct (IH ltac:(intros; apply Hf; [by right|done]) b1 Hb1) as (b2 & -> & ? & R2 & Q2).
  exists b2. split; [done|]. split; [done|]. split; [by etrans|].
  intros x [->|Hx]%elem_of_cons; [by eapply HQ|by apply Q2].
Qed.

(* ------------------------------------------------------------------ *)
(** ** The slots behind a container                                    *)
(* ------------------------------------------------------------------ *)

Section Slots.
Context (e : InferenceEngine) (target : CapVarId).
Let subst := cap_substitutions e.

Record slots_inv (stack : list CapVarId) (seen : gset CapVarId) (slots : list CapVarId) : Prop := {
  si_seen : forall x, x ∈ seen -> reaches subst target x;
  si_stack : forall x, x ∈ stack -> reaches subst target x;
  si_target : target ∈ seen \/ target ∈ stack;
  si_closed : forall x y, x ∈ seen -> edge subst x y -> y ∈ seen \/ y ∈ stack;
  si_slots : forall x, x ∈ slots <-> x ∈ seen /\ x <> target /\ x ∈ slot_cap_vars e
}.

Lemma slots_inv_skip v stack seen slots :
  slots_inv (v :: stack) seen slots -> v ∈ seen -> slots_inv stack seen slots.
Proof.
  intros [H1 H2 H3 H4 H5] Hv. split; try done.
  - intros x Hx. apply H2. by right.
  - destruct H3 as [?|[->|?]%elem_of_cons]; auto.
  - intros x y Hx He. destruct (H4 x y Hx He) as [?|[->|?]%elem_of_cons]; auto.
Qed.

Lemma slots_inv_visit v stack seen slots : slots_inv (v :: stack) seen slots ->
  slots_inv (match subst !! v with Some (Resolved _ vars) => rev vars ++ stack | _ => stack end) ({[v]} ∪ seen)
    (if negb (v =? target) && bool_decide (v ∈ slot_cap_vars e) then slots ++ [v] else slots).
Proof.
  intros [H1 H2 H3 H4 H5]. assert (Hv : reaches subst target v) by (apply H2; by left).
  set (stack' := match subst !! v with Some (Resolved _ vars) => _ | _ => _ end).
  assert (Hst : forall x, x ∈ stack' <-> edge subst v x \/ x ∈ stack).
  { intros x. unfold stack', edge, succs. destruct (subst !! v) as [[b vars|]|].
    - rewrite elem_of_app. by rewrite !list_elem_of_In, <-in_rev.
    - rewrite elem_of_nil. split; [by right|by intros [?|?]].
    - rewrite elem_of_nil. split; [by right|by intros [?|?]]. }
  split.
  - intros x [->%elem_of_singleton|Hx]%elem_of_union; [done|by apply H1].
  - intros x [Hx|Hx]%Hst; [by eapply reaches_edge|]. apply H2. by right.
  - destruct H3 as [?|[->|?]%elem_of_cons]; [left; set_solver|left; set_solver|right; apply Hst; by right].
  - intros x y [->%elem_of_singleton|Hx]%elem_of_union He; [right; apply Hst; by left|].
    destruct (H4 x y Hx He) as [?|[->|?]%elem_of_cons]; [left; set_solver|left; set_solver|right; apply Hst; by right].
  - intros x. rewrite elem_of_union, elem_of_singleton. destruct (N.eqb_spec v target) as [->|Hne]; cbn [negb andb].
    + rewrite H5. split; [intros (? & ? & ?); auto|intros ([->|?] & ? & ?); done].
    + case_bool_decide as Hs; [rewrite elem_of_app, list_elem_of_singleton|]; rewrite H5; split.
      * intros [(? & ? & ?)| ->]; auto.
      * intros ([->|?] & ? & ?); auto.
      * intros (? & ? & ?); auto.
      * intros ([->|?] & ? & ?); done.
Qed.

Lemma slots_loop_ok fuel stack seen slots :
  slots_inv stack seen slots -> (chase_cost subst seen stack <= fuel)%nat ->
  exists r seen', slots_loop fuel e target stack seen slots = Done r /\ slots_inv [] seen' r.
Proof.
  revert stack seen slots. induction fuel as [|fuel IH]; intros stack seen slots HI Hf.
  all: destruct stack as [|v stack]; [by exists slots, seen|].
  { unfold chase_cost in Hf. cbn in Hf. lia. }
  cbn [slots_loop]. case_bool_decide as Hv.
  { apply IH; [by eapply slots_inv_skip|]. pose proof (chase_cost_skip subst v seen stack). lia. }
  apply IH; [by apply slots_inv_visit|]. fold subst. destruct (subst !! v) as [[b vars|]|] eqn:Hs.
  - pose proof (chase_cost_bound subst v seen stack b vars Hv Hs). lia.
  - pose proof (chase_cost_open subst v seen stack). lia.
  - pose proof (chase_cost_open subst v seen stack). lia.
Qed.

(** [store_into_input] writes into every slot reachable from its target. *)
Lemma storage_slots_ok : exists slots, storage_slots e target = Done slots
  /\ forall x, x ∈ slots <-> x <> target /\ x ∈ slot_cap_vars e /\ reaches subst target x.
Proof.
  destruct (slots_loop_ok (chase_fuel subst [target]) [target] ∅ []) as (r & seen & Hr & HI).
  - split; try set_solver.
  - unfold chase_cost, chase_fuel, cycle_fuel. by rewrite difference_empty_L.
  - unfold storage_slots. fold subst. rewrite Hr. cbn [mbind res_bind]. eexists. split; [done|]. intros x.
    unfold sort_vars. rewrite merge_sort_Permutation, (si_slots _ _ _ HI).
    assert (Hseen : forall x, x ∈ seen <-> reaches subst target x).
    { clear x. intros x. split; [by apply (si_seen _ _ _ HI)|]. intros Hx.
      assert (Ht : target ∈ seen) by (destruct (si_target _ _ _ HI) as [?|?%elem_of_nil]; done).
      assert (Hcl : forall a b, reaches subst a b -> a ∈ seen -> b ∈ seen); [|by eapply Hcl].
      clear -HI. induction 1 as [|a b c Hab _ IH]; [done|]. intros Ha. apply IH.
      by destruct (si_closed _ _ _ HI a b Ha Hab) as [?|?%elem_of_nil]. }
    rewrite Hseen. tauto.
Qed.
End Slots.

(* ------------------------------------------------------------------ *)
(** ** Binding ends, and widens                                        *)
(* ------------------------------------------------------------------ *)

(** The binding of [id] covers [row], a mention of [id] itself aside. *)
Definition holds (s : gmap CapVarId CapRow) (id : CapVarId) (row : CapRow) : Prop :=
  match without_self id row with
  | None => True
  | Some row' => exists r, s !! id = Some r /\ row_le row' r
  end.

Lemma holds_mono s s' id row : subst_le s s' -> holds s id row -> holds s' id row.
Proof.
  intros Hle. unfold holds. destruct (without_self id row) as [row'|]; [|done]. intros (r & Hr & L).
  destruct (Hle id r Hr) as (r' & Hr' & L'). exists r'. split; [done|by etrans].
Qed.

Lemma Sorted_filter (P : N -> Prop) `{!forall x, Decision (P x)} l : Sorted N.lt l -> Sorted N.lt (filter P l).
Proof.
  intros Hs%Sorted_StronglySorted; [|intros x y z; lia]. apply StronglySorted_Sorted.
  induction Hs as [|x l _ IH Hx]; [constructor|]. rewrite filter_cons. destruct (decide (P x)); [|done].
  constructor; [done|]. rewrite List.Forall_forall in Hx |- *.
  intros y Hy%list_elem_of_In%list_elem_of_filter. apply Hx, list_elem_of_In, Hy.
Qed.

Lemma without_self_below n id row row' : row_below n row -> without_self id row = Some row' -> row_below n row'.
Proof.
  intros [W V]. destruct row as [b vs|]; cbn [without_self]; [|by intros [= <-]].
  case_bool_decide; [|by intros [= <-]]. destruct (_ && _); [done|]. intros [= <-]. destruct W as [Wb Wv].
  split; [split; [done|by apply Sorted_filter]|]. intros v [_ Hv]%list_elem_of_filter. by apply V.
Qed.

Lemma touch_ok e id : engine_wf e -> id < next_cap_var e ->
  engine_wf (touch e id) /\ row_step e (touch e id) /\ cap_substitutions (touch e id) = cap_substitutions e.
Proof.
  intros W Hid. unfold touch. destruct (effect_scope e) as [s|] eqn:Hs; [|done].
  case_bool_decide; [|done]. destruct W as [WC WS WD WL WE]. split_and!.
  - destruct WC as [C1 C2 C3]. split; [by split|done|done|done|]. intros s' [= <-]. destruct (WE s Hs) as [Ht Hp].
    split; [|done]. cbn. intros v [Hv|Hv%list_elem_of_singleton]%elem_of_app; [by apply Ht|by subst].
  - split; [by destruct e|cbn; by rewrite Hs|done].
  - done.
Qed.

Lemma record_param_store_ok e v row : engine_wf e -> v < next_cap_var e -> row_below (next_cap_var e) row ->
  engine_wf (record_param_store e v row) /\ row_step e (record_param_store e v row).
Proof.
  intros W Hv Hrow. unfold record_param_store. destruct (effect_scope e) as [s|] eqn:Hs; [|done].
  case_bool_decide; [done|]. destruct W as [WC WS WD WL WE]. split.
  - destruct WC as [C1 C2 C3]. split; [by split|done|done|done|]. intros s' [= <-]. destruct (WE s Hs) as [Ht Hp].
    split; [done|]. cbn. intros w r [Hw|[= -> ->]%list_elem_of_singleton]%elem_of_app; [by apply Hp|done].
  - split; [by destruct e|cbn; by rewrite Hs|done].
Qed.

Lemma subst_below_insert n s id r : subst_below n s -> id < n -> row_below n r -> subst_below n (<[id := r]> s).
Proof.
  intros Hs Hid Hr v r' . destruct (decide (v = id)) as [->|Hne]; [rewrite lookup_insert_eq; by intros [= <-]|].
  rewrite lookup_insert_ne by done. apply Hs.
Qed.

Lemma commit_ok e id merged : engine_wf e -> id < next_cap_var e -> row_below (next_cap_var e) merged ->
  (forall r, cap_substitutions e !! id = Some r -> row_le r merged) ->
  engine_wf (commit_binding e id merged) /\ row_step e (commit_binding e id merged).
Proof.
  intros [WC WS WD WL WE] Hid Hm Hle. pose proof (subst_below_insert _ _ _ _ WS Hid Hm) as Hb. split.
  - split; [|exact Hb|done..]. split; cbn; [|intros v r; by rewrite lookup_empty|done].
    intros v r Hr. by destruct (Hb v r Hr) as [_ [? _]].
  - split; [by destruct e|by destruct e|]. intros v r Hr. cbn. destruct (decide (v = id)) as [->|Hne].
    + rewrite lookup_insert_eq. exists merged. split; [done|by apply Hle].
    + rewrite lookup_insert_ne by done. by exists r.
Qed.

Lemma reaches_below n s x y : subst_below n s -> reaches s x y -> x < n -> y < n.
Proof.
  intros Hs. induction 1 as [|x y z Hxy _ IH]; [done|]. intros _. apply IH. unfold edge, succs in Hxy.
  destruct (s !! x) as [[b vs|]|] eqn:Hx; try by apply elem_of_nil in Hxy.
  destruct (Hs x _ Hx) as [_ [_ V]]. by apply V.
Qed.

(** The engine, over [n] variables, with rows at least as wide as [h]. *)
Definition fits (n : N) (h : nat) (e : InferenceEngine) : Prop :=
  engine_wf e /\ next_cap_var e = n /\ (h <= height n (cap_substitutions e))%nat.

Lemma fits_step n h e e' : fits n h e -> engine_wf e' -> row_step e e' -> fits n h e'.
Proof.
  intros (W & Hn & Hh) W' Hs. pose proof (step_next _ _ Hs) as Hn'. split; [done|]. split; [congruence|].
  etrans; [apply Hh|]. apply height_mono; [rewrite <-Hn; apply W|rewrite <-Hn, <-Hn'; apply W'|apply Hs].
Qed.

Section Store.
Context (bind : InferenceEngine -> CapVarId -> CapRow -> res InferenceEngine) (n : N) (h : nat).
Context (Hbind : forall e id row, fits n h e -> id < n -> row_below n row ->
  exists e', bind e id row = Done e' /\ engine_wf e' /\ row_step e e' /\ holds (cap_substitutions e') id row).

Lemma store_into_input_ok e target row : fits n h e -> target < n -> row_below n row ->
  exists e', store_into_input_with bind e target row = Done e' /\ fits n h e' /\ row_step e e'
    /\ forall s, reaches (cap_substitutions e) target s -> s <> target -> s ∈ slot_cap_vars e ->
         ~ (s ∈ input_storage_cap_vars e /\ is_frozen e s = true) -> holds (cap_substitutions e') s row.
Proof.
  intros HF Ht Hrow. unfold store_into_input_with.
  destruct (storage_slots_ok e target) as (slots & -> & Hslots). cbn [mbind res_bind].
  set (Q := fun s e' => ~ (s ∈ input_storage_cap_vars e' /\ is_frozen e' s = true) -> holds (cap_substitutions e') s row).
  destruct (fold_res_forall (fun e s => if bool_decide (s ∈ input_storage_cap_vars e) && is_frozen e s
    then Done (record_param_store e s row) else bind e s row) (fits n h) row_step Q slots e) as (e' & -> & HF' & Hs & HQ).
  - intros s e1 (Hst & Hsl & Hr)%Hslots HF1. pose proof HF1 as (W1 & Hn1 & _).
    assert (Hsn : s < n).
    { destruct HF as (W & <- & _). by apply (reaches_below _ _ _ _ (ew_subst e W) Hr). }
    destruct (bool_decide _ && is_frozen e1 s) eqn:Hb.
    + destruct (record_param_store_ok e1 s row W1) as [W2 Hs2]; [by rewrite Hn1|by rewrite Hn1|].
      eexists. split; [done|]. split; [by eapply fits_step|]. split; [done|]. intros Hno. destruct Hno.
      apply andb_true_iff in Hb as [Hb Hf]. apply bool_decide_eq_true in Hb.
      by rewrite (step_input _ _ Hs2), (step_frozen _ _ Hs2).
    + destruct (Hbind e1 s row HF1 Hsn Hrow) as (e2 & -> & W2 & Hs2 & Hh).
      exists e2. split; [done|]. split; [by eapply fits_step|]. split; [done|]. by intros _.
  - intros s e1 e2 HQ1 Hs12. unfold Q in *. rewrite (step_input _ _ Hs12), (step_frozen _ _ Hs12).
    intros Hno. eapply holds_mono; [apply (rs_subst _ _ Hs12)|by apply HQ1].
  - done.
  - exists e'. split; [done|]. split; [done|]. split; [done|]. intros s Hr Hne Hsl Hno.
    apply HQ; [by apply Hslots|]. by rewrite (step_input _ _ Hs), (step_frozen _ _ Hs).
Qed.

Lemma store_rows_ok e target rows : fits n h e -> target < n -> (forall r, r ∈ rows -> row_below n r) ->
  exists e', fold_res (fun e row => store_into_input_with bind e target row) rows e = Done e'
    /\ fits n h e' /\ row_step e e'.
Proof.
  intros HF Ht Hrows. apply (fold_res_ind _ (fits n h) row_step); [|done]. intros row e1 Hr HF1.
  destruct (store_into_input_ok e1 target row HF1 Ht (Hrows row Hr)) as (e2 & ? & ? & ? & _). by exists e2.
Qed.
End Store.

Lemma take_deferred_ok e id : engine_wf e ->
  engine_wf (set_deferred_input_stores (delete id (deferred_input_stores e)) e)
  /\ row_step e (set_deferred_input_stores (delete id (deferred_input_stores e)) e).
Proof.
  intros [WC WS WD WL WE]. split.
  - destruct WC as [C1 C2 C3]. split; [by split|done| |done|done]. cbn. intros v rows r [_ Hr]%lookup_delete_Some. by eapply WD.
  - split; by destruct e.
Qed.

(** The height of a substitution grows with each binding that recurses. *)
Lemma commit_height e id merged : engine_wf e -> id < next_cap_var e -> row_below (next_cap_var e) merged ->
  (forall r, cap_substitutions e !! id = Some r -> row_le r merged /\ r <> merged) ->
  (height (next_cap_var e) (cap_substitutions e)
   < height (next_cap_var e) (cap_substitutions (commit_binding e id merged)))%nat.
Proof.
  intros W Hid Hm Hr. destruct (commit_ok e id merged W Hid Hm ltac:(intros r Hx; by apply Hr)) as [W' Hs].
  apply (height_lt _ _ _ id); [apply W|apply W'|apply Hs|done|]. cbn. rewrite lookup_insert_eq.
  destruct (cap_substitutions e !! id) as [r|] eqn:Hx; [|cbn; destruct merged; cbn; lia].
  destruct (Hr r eq_refl) as [L Hne]. apply row_height_le; [by eapply (ew_subst e W)|done|done|done].
Qed.

Lemma bind_loop_ok fuel e id row : engine_wf e -> id < next_cap_var e -> row_below (next_cap_var e) row ->
  (max_height (next_cap_var e) - height (next_cap_var e) (cap_substitutions e) < fuel)%nat ->
  exists e', bind_loop fuel e id row = Done e' /\ engine_wf e' /\ row_step e e'
    /\ holds (cap_substitutions e') id row.
Proof.
  revert e id row. induction fuel as [|fuel IH]; intros e id row W Hid Hrow Hf; [lia|].
  cbn [bind_loop]. destruct (touch_ok e id W Hid) as (W1 & S1 & E1). set (e1 := touch e id) in *.
  pose proof (step_next _ _ S1) as N1. unfold holds.
  destruct (without_self id row) as [row'|] eqn:Hws; [|by exists e1].
  assert (Hrow' : row_below (next_cap_var e) row') by (by eapply without_self_below).
  unfold merged_binding.
  assert (Hgo : forall merged, row_below (next_cap_var e) merged -> row_le row' merged ->
    (forall r, cap_substitutions e1 !! id = Some r -> row_le r merged /\ r <> merged) ->
    exists e', (e2 ← match deferred_input_stores (commit_binding e1 id merged) !! id with
        | Some rows => fold_res (fun e row => store_into_input_with (bind_loop fuel) e id row) rows
            (set_deferred_input_stores (delete id (deferred_input_stores (commit_binding e1 id merged))) (commit_binding e1 id merged))
        | None => Done (commit_binding e1 id merged)
        end;
        match lambda_input_stores e2 !! id with
        | Some rows => fold_res (fun e row => store_into_input_with (bind_loop fuel) e id row) rows e2
        | None => Done e2
        end) = Done e' /\ engine_wf e' /\ row_step e e'
      /\ exists r, cap_substitutions e' !! id = Some r /\ row_le row' r).
  { intros merged Hm Hle Hmr.
    destruct (commit_ok e1 id merged W1) as [W2 S2]; [by rewrite N1|by rewrite N1|intros r Hr; by apply Hmr|].
    pose proof (commit_height e1 id merged W1 ltac:(by rewrite N1) ltac:(by rewrite N1) Hmr) as Hlt.
    set (e2 := commit_binding e1 id merged) in *. pose proof (step_next _ _ S2) as N2. rewrite N1, E1 in Hlt.
    set (n := next_cap_var e) in *. set (h := height n (cap_substitutions e2)) in *.
    assert (Hbind : forall e id row, fits n h e -> id < n -> row_below n row ->
      exists e', bind_loop fuel e id row = Done e' /\ engine_wf e' /\ row_step e e' /\ holds (cap_substitutions e') id row).
    { intros e0 id0 row0 (W0 & N0 & H0) Hid0 Hrow0. apply IH; [done|by rewrite N0|by rewrite N0|]. rewrite N0.
      pose proof (height_max n (cap_substitutions e2) ltac:(rewrite <-N1, <-N2; apply W2)). lia. }
    assert (F2 : fits n h e2) by (split; [done|]; split; [congruence|done]).
    assert (Hd : exists e3, match deferred_input_stores e2 !! id with
        | Some rows => fold_res (fun e row => store_into_input_with (bind_loop fuel) e id row) rows
            (set_deferred_input_stores (delete id (deferred_input_stores e2)) e2)
        | None => Done e2 end = Done e3 /\ fits n h e3 /\ row_step e2 e3).
    { destruct (deferred_input_stores e2 !! id) as [rows|] eqn:Hrows; [|by exists e2].
      destruct (take_deferred_ok e2 id W2) as [W2' S2'].
      destruct (store_rows_ok (bind_loop fuel) n h Hbind (set_deferred_input_stores (delete id (deferred_input_stores e2)) e2) id rows)
        as (e3 & ? & ? & ?); [by eapply fits_step|done| |].
      - intros r Hr. destruct F2 as (_ & N2' & _). rewrite <-N2'. by eapply (ew_deferred e2 W2).
      - exists e3. split; [done|]. split; [done|by etrans]. }
    destruct Hd as (e3 & -> & F3 & S3). cbn [mbind res_bind].
    assert (Hl : exists e4, match lambda_input_stores e3 !! id with
        | Some rows => fold_res (fun e row => store_into_input_with (bind_loop fuel) e id row) rows e3
        | None => Done e3 end = Done e4 /\ fits n h e4 /\ row_step e3 e4).
    { destruct (lambda_input_stores e3 !! id) as [rows|] eqn:Hrows; [|by exists e3].
      apply store_rows_ok; [done|done|done|]. intros r Hr. destruct F3 as (W3 & N3 & _). rewrite <-N3.
      by eapply (ew_lambda e3 W3). }
    destruct Hl as (e4 & -> & F4 & S4). exists e4. split; [done|]. split; [apply F4|].
    assert (S24 : row_step e2 e4) by (by etrans). split; [etrans; [apply S1|]; by etrans|].
    destruct (rs_subst _ _ S24 id merged) as (r & Hr & L); [cbn; apply lookup_insert_eq|].
    exists r. split; [done|by etrans]. }
  destruct (cap_substitutions e1 !! id) as [existing|] eqn:Hex.
  - assert (Hex' : row_below (next_cap_var e) existing) by (rewrite E1 in Hex; by eapply (ew_subst e W)).
    case_bool_decide as Heq.
    + exists e1. split; [done|]. split; [done|]. split; [done|]. exists existing. split; [done|].
      rewrite <-Heq. apply row_le_union_r, Hex'.
    + apply Hgo; [by apply row_below_union|apply row_le_union_r, Hex'|]. intros r [= <-].
      split; [apply row_le_union_l, Hex'|congruence].
  - apply Hgo; [done|done|by intros r].
Qed.

Lemma bind_cap_var_ok e id row : engine_wf e -> id < next_cap_var e -> row_below (next_cap_var e) row ->
  exists e', bind_cap_var e id row = Done e' /\ engine_wf e' /\ row_step e e' /\ holds (cap_substitutions e') id row.
Proof.
  intros W Hid Hrow. apply bind_loop_ok; [done..|]. unfold bind_fuel, max_height. lia.
Qed.

(* ------------------------------------------------------------------ *)
(** ** Flows                                                           *)
(* ------------------------------------------------------------------ *)

(** The authority a variable, or a row, stands for. *)
Definition carries (s : gmap CapVarId CapRow) (v : CapVarId) (c : Capability) : Prop :=
  exists u, reaches s v u /\
    match s !! u with Some Unknown => True | Some (Resolved b _) => granted b c | None => False end.

Definition row_carries (s : gmap CapVarId CapRow) (r : CapRow) (c : Capability) : Prop :=
  match r with Unknown => True | Resolved b vs => granted b c \/ exists v, v ∈ vs /\ carries s v c end.

(** A variable that holds a row carries what the row carries. *)
Lemma holds_carries s v row c : holds s v row -> row_carries s row c -> carries s v c.
Proof.
  unfold holds. destruct row as [b vs|]; cbn [without_self row_carries].
  - intros Hh Hc. assert (Hself : carries s v c \/ granted b c \/ exists w, w ∈ vs /\ w <> v /\ carries s w c).
    { destruct Hc as [?|(w & Hw & Hwc)]; [by right; left|]. destruct (decide (w = v)) as [->|]; [by left|].
      right. right. by exists w. }
    destruct Hself as [?|Hrest]; [done|]. clear Hc.
    set (vs' := if bool_decide (v ∈ vs) then filter (fun w => w <> v) vs else vs).
    assert (Hvs : forall w, w ∈ vs -> w <> v -> w ∈ vs').
    { intros w Hw Hne. unfold vs'. case_bool_decide; [|done]. by apply list_elem_of_filter. }
    assert (Hrow : exists r, s !! v = Some r /\ row_le (Resolved b vs') r).
    { unfold vs' in *. case_bool_decide; [|done].
      destruct ((b =? EMPTY)%Z && _) eqn:He; [|done]. apply andb_true_iff in He as [Hb He].
      apply Z.eqb_eq in Hb. subst b. destruct Hrest as [Hg|(w & Hw & Hne & _)]; [by apply granted_EMPTY in Hg|].
      specialize (Hvs w Hw Hne). destruct (filter _ vs); [by apply elem_of_nil in Hvs|done]. }
    destruct Hrow as ([b' ws|] & Hr & Hle); [|exists v; split; [apply rtc_refl|by rewrite Hr]].
    destruct Hle as [Hb Hv]. destruct Hrest as [Hg|(w & Hw & Hne & (u & Hwu & Hu))].
    + exists v. split; [apply rtc_refl|]. rewrite Hr. by apply Hb.
    + exists u. split; [|done]. eapply rtc_l; [|apply Hwu]. unfold edge, succs. rewrite Hr. by apply Hv, Hvs.
  - intros (r & Hr & Hle) _. exists v. split; [apply rtc_refl|]. rewrite Hr. by destruct r.
Qed.

(** The authority a resolved row shows. *)
Definition shows (r : CapRow) (c : Capability) : Prop :=
  match r with Unknown => True | Resolved b _ => granted b c end.

Lemma reaches_keep_none s x y : rtc (keep_edge s ∅) x y <-> reaches s x y.
Proof.
  split; induction 1 as [|x y z Hxy _ IH]; try apply rtc_refl; (eapply rtc_l; [|apply IH]);
    [apply Hxy|split; [apply not_elem_of_empty|done]].
Qed.

(** Resolving finds exactly that authority. *)
Lemma resolved_shows s row r c : row_resolved_to s ∅ row r -> row_carries s row c <-> shows r c.
Proof.
  destruct row as [b vs|]; cbn [row_resolved_to row_carries]; [|by intros ->].
  destruct r as [b' ws|]; cbn [resolved_to shows].
  - intros (_ & Hk & Hg & _). rewrite Hg. split.
    + intros [?|(v & Hv & u & Hvu & Hu)]; [by left|right].
      assert (Hr : reached s ∅ vs u) by (exists v; split; [done|by apply reaches_keep_none]).
      destruct (s !! u) as [[b2 vs2|]|] eqn:Hsu; [|by destruct (Hk u Hr (not_elem_of_empty _))|done].
      exists u, b2, vs2. split; [done|]. split; [apply not_elem_of_empty|done].
    + intros [?|(x & b2 & vs2 & (v & Hv & Hvx) & _ & Hx & Hc)]; [by left|right].
      exists v. split; [done|]. exists x. split; [by apply reaches_keep_none|by rewrite Hx].
  - intros (x & (v & Hv & Hvx) & _ & Hx). split; [done|]. intros _. right. exists v. split; [done|].
    exists x. split; [by apply reaches_keep_none|by rewrite Hx].
Qed.

Section Unify.
Context (hash_order : gset CapVarId -> list CapVarId).
Context (Hhash : forall X, Permutation (hash_order X) (elements X)).

Lemma cache_step_wf e e' : engine_wf e -> coherent e' -> cache_step e e' -> engine_wf e'.
Proof. intros [WC WS WD WL WE] HC Hc. unfold cache_step in Hc. rewrite Hc in *. destruct e. by split. Qed.

Lemma fits_0 e : engine_wf e -> fits (next_cap_var e) 0 e.
Proof. intros W. split; [done|]. split; [done|lia]. Qed.

Lemma bind_fits n e id row : fits n 0 e -> id < n -> row_below n row ->
  exists e', bind_cap_var e id row = Done e' /\ engine_wf e' /\ row_step e e' /\ holds (cap_substitutions e') id row.
Proof. intros (W & <- & _). by apply bind_cap_var_ok. Qed.

Lemma record_lambda_store_ok e v row : engine_wf e -> v < next_cap_var e -> row_below (next_cap_var e) row ->
  exists e', record_lambda_store e v row = Done e' /\ engine_wf e' /\ row_step e e'.
Proof.
  intros W Hv Hrow. unfold record_lambda_store. set (e1 := set_lambda_input_stores _ e).
  assert (W1 : engine_wf e1).
  { destruct W as [[C1 C2 C3] WS WD WL WE]. split; [by split|done|done| |done]. cbn. intros w rows r Hw Hr.
    destruct (decide (w = v)) as [->|Hne]; [|rewrite lookup_insert_ne in Hw by done; by eapply WL].
    rewrite lookup_insert_eq in Hw. injection Hw as <-.
    assert (Hold : r ∈ default [] (lambda_input_stores e !! v) -> row_below (next_cap_var e) r).
    { destruct (lambda_input_stores e !! v) as [old|] eqn:Ho; [by eapply WL|]. intros Hn. by apply elem_of_nil in Hn. }
    case_bool_decide; [by apply Hold|]. apply elem_of_app in Hr as [?| ->%list_elem_of_singleton]; [by apply Hold|done]. }
  assert (S1 : row_step e e1) by (split; by destruct e).
  destruct (store_into_input_ok bind_cap_var (next_cap_var e) 0 (bind_fits _) e1 v row) as (e' & He & F & S & _);
    [apply (fits_0 e1 W1)|done|done|].
  exists e'. split; [exact He|]. split; [apply F|by etrans].
Qed.

Lemma flow_into_ok e c2 v : engine_wf e -> v < next_cap_var e -> row_below (next_cap_var e) c2 ->
  exists e', flow_into e c2 v = Done e' /\ engine_wf e' /\ row_step e e'
    /\ (v ∈ slot_cap_vars e \/ cap_substitutions e !! v = None ->
        ~ (v ∈ input_storage_cap_vars e /\ is_frozen e v = true) -> holds (cap_substitutions e') v c2).
Proof.
  intros W Hv Hrow. unfold flow_into. destruct (bool_decide _ && is_frozen e v) eqn:Hf.
  - apply andb_true_iff in Hf as [Hi Hf]. apply bool_decide_eq_true in Hi. case_bool_decide.
    + destruct (record_lambda_store_ok e v c2 W Hv Hrow) as (e' & ? & ? & ?). exists e'. split_and!; try done.
      intros _ []. done.
    + destruct (record_param_store_ok e v c2 W Hv Hrow). eexists. split_and!; try done. intros _ []. done.
  - destruct (bool_decide _ || _) eqn:Ho.
    + destruct (bind_cap_var_ok e v c2 W Hv Hrow) as (e' & ? & ? & ? & ?). by exists e'.
    + exists e. split_and!; try done. apply orb_false_iff in Ho as [Hn Hs].
      apply bool_decide_eq_false in Hn. apply bool_decide_eq_false in Hs. by intros [?|?].
Qed.

Lemma flow_back_ok e before v : engine_wf e -> v < next_cap_var e -> row_below (next_cap_var e) before ->
  exists e', flow_back e before v = Done e' /\ engine_wf e' /\ row_step e e'.
Proof.
  intros W Hv Hrow. unfold flow_back. destruct (_ && _); [|by exists e].
  destruct (bind_cap_var_ok e v before W Hv Hrow) as (e' & ? & ? & ? & _). by exists e'.
Qed.

(** Resolving keeps rows over the same variables. *)
Lemma resolved_below n s keep row r : subst_below n s -> row_below n row -> row_resolved_to s keep row r -> row_below n r.
Proof.
  intros Hs [W V]. destruct row as [b vs|]; cbn [row_resolved_to]; [|by intros ->].
  intros Hr. split; [by eapply resolved_to_wf|]. destruct r as [b' ws|]; [|intros v Hv; by apply elem_of_nil in Hv].
  destruct Hr as (_ & _ & _ & Hws). intros v Hv. apply Hws in Hv as [(x & Hx & Hxv) _].
  apply (reaches_below n s x v Hs); [|by apply V]. clear -Hxv.
  induction Hxv as [|x y z [_ Hxy] _ IH]; [apply rtc_refl|by eapply rtc_l].
Qed.

Lemma unify_rows_ok e c1 c2 : engine_wf e -> row_below (next_cap_var e) c1 -> row_below (next_cap_var e) c2 ->
  exists e', unify_rows hash_order e c1 c2 = Done e' /\ engine_wf e' /\ row_step e e'
    /\ (c1 <> c2 -> forall v, v ∈ var_ids c1 -> v ∈ slot_cap_vars e ->
        ~ (v ∈ input_storage_cap_vars e /\ is_frozen e v = true) -> holds (cap_substitutions e') v c2).
Proof.
  intros W B1 B2. unfold unify_rows. case_bool_decide as Heq; [by exists e|]. cbn [orb].
  destruct (is_unknown c1) eqn:Hu.
  { exists e. split_and!; try done. destruct c1; [done|]. intros _ v Hv. by apply elem_of_nil in Hv. }
  destruct (resolve_cap_row_ok hash_order Hhash e c1 (ew_coherent e W) (proj1 B1)) as (before & e1 & -> & C1 & S1 & Hr).
  cbn [mbind res_bind]. pose proof (cache_step_wf e e1 W C1 S1) as W1. apply cache_row_step in S1.
  pose proof (resolved_below _ _ _ _ _ (ew_subst e W) B1 Hr) as Bb.
  set (n := next_cap_var e) in *.
  set (Q := fun v e' => v ∈ slot_cap_vars e' -> ~ (v ∈ input_storage_cap_vars e' /\ is_frozen e' v = true) ->
    holds (cap_substitutions e') v c2).
  destruct (fold_res_forall (fun e v => flow_into e c2 v) (fits n 0) row_step Q (var_ids c1) e1) as (e2 & -> & F2 & S2 & HQ).
  - intros v e0 Hv (W0 & N0 & _). destruct (flow_into_ok e0 c2 v) as (e' & ? & W' & S' & Hh); [done|rewrite N0; by apply B1|by rewrite N0|].
    exists e'. split; [done|]. split; [split; [done|]; split; [by rewrite (step_next _ _ S')|lia]|]. split; [done|].
    unfold Q. rewrite (step_slots _ _ S'), (step_input _ _ S'), (step_frozen _ _ S'). intros Hs. apply Hh. by left.
  - intros v ea eb HQa Hab. unfold Q in *. rewrite (step_slots _ _ Hab), (step_input _ _ Hab), (step_frozen _ _ Hab).
    intros Hs Hno. eapply holds_mono; [apply (rs_subst _ _ Hab)|by apply HQa].
  - split; [done|]. split; [by rewrite (step_next _ _ S1)|lia].
  - cbn [mbind res_bind].
    assert (H3 : exists e3, (if is_closed before && negb (is_unknown c2) then fold_res (fun e v => flow_back e before v) (var_ids c2) e2
      else Done e2) = Done e3 /\ fits n 0 e3 /\ row_step e2 e3).
    { destruct (_ && _); [|by exists e2]. apply (fold_res_ind _ (fits n 0) row_step); [|done].
      intros v e0 Hv (W0 & N0 & _). destruct (flow_back_ok e0 before v) as (e' & ? & W' & S'); [done|rewrite N0; by apply B2|by rewrite N0|].
      exists e'. split; [done|]. split; [|done]. split; [done|]. split; [by rewrite (step_next _ _ S')|lia]. }
    destruct H3 as (e3 & -> & F3 & S3). exists e3. split; [done|]. split; [apply F3|].
    assert (S13 : row_step e e3) by (etrans; [apply S1|]; by etrans). split; [done|].
    intros _ v Hv Hs Hno. eapply holds_mono; [apply (rs_subst _ _ S3)|]. assert (S12 : row_step e e2) by (etrans; [apply S1|apply S2]).
    apply HQ; [done|by rewrite (step_slots _ _ S12)|]. by rewrite (step_input _ _ S12), (step_frozen _ _ S12).
Qed.
End Unify.
