(* ===== verification/CapOps.v ===== *)
(** The invariant of the inference engine and what its row operations promise:
    every operation ends and keeps the invariant, and authority that flows into a
    storage slot is seen by every later reader. *)

From stdpp Require Import relations.
From S2P Require Import Prelude Machine Token Capability CapRow CapCycles Ty CapVars CapSolve CapFlow.

#[local] Open Scope N_scope.

(* ------------------------------------------------------------------ *)
(** ** Types over a bounded set of row variables                       *)
(* ------------------------------------------------------------------ *)

Definition ty_below (n : N) (t : Ty) : Prop := forall s r, subterm s t -> r ∈ own_rows s -> row_below n r.

Lemma ty_below_step n t :
  ty_below n t <-> (forall r, r ∈ own_rows t -> row_below n r) /\ forall c, c ∈ children t -> ty_below n c.
Proof.
  split.
  - intros Ht. split; [intros r Hr; eapply Ht; [constructor|done]|].
    intros c Hc s r Hs Hr. eapply Ht; [by eapply subterm_child|done].
  - intros [Ho Hc] s r Hs Hr. inversion Hs as [|? c ? Hct Hsc]; subst; [by apply Ho|by eapply Hc].
Qed.

Lemma ty_below_mono n m t : n <= m -> ty_below n t -> ty_below m t.
Proof. intros Hle Ht s r Hs Hr. eapply row_below_mono; [done|by eapply Ht]. Qed.

(* ------------------------------------------------------------------ *)
(** ** Minting variables                                               *)
(* ------------------------------------------------------------------ *)

(** Like [row_step], but slots may be minted on the way. *)
Record grow_step (e e' : InferenceEngine) : Prop := {
  gs_next : next_cap_var e <= next_cap_var e';
  gs_subst : subst_le (cap_substitutions e) (cap_substitutions e');
  gs_slots : slot_cap_vars e ⊆ slot_cap_vars e';
  gs_types : substitutions e' = substitutions e /\ next_var e' = next_var e
    /\ trait_impls e' = trait_impls e /\ var_bounds e' = var_bounds e /\ contravariant e' = contravariant e
}.

#[export] Instance grow_step_preorder : PreOrder grow_step.
Proof.
  split.
  - intros e. by split; [lia|..].
  - intros e1 e2 e3 [N1 S1 L1 (T1 & V1 & I1 & B1 & C1)] [N2 S2 L2 (T2 & V2 & I2 & B2 & C2)].
    split; [lia|by etrans|by etrans|]. split_and!; congruence.
Qed.

Lemma row_grow_step e e' : row_step e e' -> grow_step e e'.
Proof.
  intros Hs. split.
  - by rewrite (step_next _ _ Hs).
  - apply Hs.
  - by rewrite (step_slots _ _ Hs).
  - destruct (rs_frame _ _ Hs) as []. destruct Hs as [-> _ _]. by destruct e.
Qed.

Lemma fresh_slot_ok e : engine_wf e ->
  engine_wf (snd (fresh_slot_cap_var e)) /\ grow_step e (snd (fresh_slot_cap_var e))
  /\ fst (fresh_slot_cap_var e) < next_cap_var (snd (fresh_slot_cap_var e)).
Proof.
  intros [[C1 C2 C3] WS WD WL WE]. cbn. split; [|split].
  - split; cbn.
    + by split.
    + intros v r Hr. destruct (WS v r Hr). split; [lia|]. eapply row_below_mono; [|done]. lia.
    + intros v rows r Hr Hin. eapply row_below_mono; [|by eapply WD]. lia.
    + intros v rows r Hr Hin. eapply row_below_mono; [|by eapply WL]. lia.
    + intros s Hs. destruct (WE s Hs) as [Ht Hp]. split; [intros v Hv%Ht; lia|].
      intros v r Hv%Hp. destruct Hv as [Hv Hr]. split; [lia|]. eapply row_below_mono; [|exact Hr]. lia.
  - split; cbn; [lia|done|set_solver|done].
  - lia.
Qed.

Lemma slot_row_for_ok e row keep : engine_wf e -> row_below (next_cap_var e) row ->
  exists r e', slot_row_for e row keep = Done (r, e') /\ engine_wf e' /\ grow_step e e' /\ row_below (next_cap_var e') r
    /\ (forall c, row_carries (cap_substitutions e') row c -> row_carries (cap_substitutions e') r c).
Proof.
  intros W Hrow. destruct row as [b vs|]; [|by exists Unknown, e]. cbn [slot_row_for].
  destruct (_ && _); [by exists (Resolved b vs), e|].
  destruct (fresh_slot_ok e W) as (W1 & G1 & Hlt). destruct (fresh_slot_cap_var e) as [slot e1]. cbn [fst snd] in *.
  destruct (bind_cap_var_ok e1 slot (Resolved b vs) W1 Hlt) as (e2 & -> & W2 & S2 & Hh).
  { eapply row_below_mono; [apply G1|done]. }
  cbn [mbind res_bind]. exists (var slot), e2. split; [done|]. split; [done|].
  split; [etrans; [apply G1|by apply row_grow_step]|]. split.
  - apply row_below_var. by rewrite (step_next _ _ S2).
  - intros c Hc. right. exists slot. split; [by left|by eapply holds_carries].
Qed.

Lemma map_state_ok {A B S} (f : S -> A -> res (B * S)) (P : S -> Prop) (R : S -> S -> Prop) `{!PreOrder R}
    (Q : A -> B -> S -> Prop) l s :
  (forall a s, a ∈ l -> P s -> exists b s', f s a = Done (b, s') /\ P s' /\ R s s' /\ Q a b s') ->
  (forall a b s s', Q a b s -> R s s' -> Q a b s') -> P s ->
  exists bs s', map_state f l s = Done (bs, s') /\ P s' /\ R s s' /\ Forall2 (fun a b => Q a b s') l bs.
Proof.
  intros Hf HQ. revert s. induction l as [|a l IH] in Hf |- *; intros s Hs.
  { by exists [], s. }
  destruct (Hf a s ltac:(by left) Hs) as (b & s1 & E1 & P1 & R1 & Q1).
  destruct (IH ltac:(intros; apply Hf; [by right|done]) s1 P1) as (bs & s2 & E2 & P2 & R2 & Q2).
  exists (b :: bs), s2. split; [|split; [done|split; [by etrans|]]].
  - cbn [map_state]. rewrite E1. cbn [mbind res_bind]. fold (map_state f). by rewrite E2.
  - constructor; [by eapply HQ|done].
Qed.

(** The same type up to its rows, over known variables. *)
Definition same_shape (e : InferenceEngine) (t t' : Ty) : Prop :=
  with_caps_erased_to_unknown t' = with_caps_erased_to_unknown t /\ ty_below (next_cap_var e) t'.

Definition gen_ok (keep : bool) (t : Ty) : Prop := forall e, engine_wf e -> ty_below (next_cap_var e) t ->
  exists t' e', generalize_rows keep e t = Done (t', e') /\ engine_wf e' /\ grow_step e e' /\ same_shape e' t t'.

Lemma same_shape_step e e' t t' : same_shape e t t' -> grow_step e e' -> same_shape e' t t'.
Proof. intros [He Hb] [Hn _ _ _]. split; [done|]. by eapply ty_below_mono. Qed.

Lemma gen_list_ok keep l e : (forall c, c ∈ l -> gen_ok keep c) -> engine_wf e ->
  (forall c, c ∈ l -> ty_below (next_cap_var e) c) ->
  exists l' e', map_state (generalize_rows keep) l e = Done (l', e') /\ engine_wf e' /\ grow_step e e'
    /\ Forall2 (same_shape e') l l'.
Proof.
  intros Hl W Hb. set (P := fun e1 => engine_wf e1 /\ grow_step e e1).
  destruct (map_state_ok (generalize_rows keep) P grow_step (fun a b s => same_shape s a b) l e)
    as (l' & e' & ? & [? ?] & ? & ?); [| | |by exists l', e'].
  - intros c e1 Hc [W1 G1]. destruct (Hl c Hc e1 W1) as (t' & e2 & ? & ? & ? & ?).
    { eapply ty_below_mono; [apply G1|by apply Hb]. }
    exists t', e2. split; [done|]. split; [split; [done|by etrans]|done].
  - intros a b s s'. apply same_shape_step.
  - by split.
Qed.

Lemma same_shape_list e l l' : Forall2 (same_shape e) l l' ->
  map with_caps_erased_to_unknown l' = map with_caps_erased_to_unknown l
  /\ forall c, c ∈ l' -> ty_below (next_cap_var e) c.
Proof.
  induction 1 as [|t t' l l' [He Hb] _ [IHe IHb]]; [split; [done|]; intros c Hc; by apply elem_of_nil in Hc|].
  split; [cbn; congruence|]. intros c [->|Hc]%elem_of_cons; [done|by apply IHb].
Qed.

Lemma same_shape_intro e t t' : with_caps_erased_to_unknown t' = with_caps_erased_to_unknown t ->
  own_rows t' = [] -> (forall c, c ∈ children t' -> ty_below (next_cap_var e) c) -> same_shape e t t'.
Proof.
  intros He Ho Hc. split; [done|]. apply ty_below_step. split; [|done]. rewrite Ho. intros r Hr. by apply elem_of_nil in Hr.
Qed.

Lemma generalize_rows_ok keep t : gen_ok keep t.
Proof.
  induction t as [t IH] using ty_children_ind. intros e W Ht.
  pose proof Ht as [Ho Hc]%ty_below_step.
  assert (Hsame : same_shape e t t) by done.
  assert (Hone : forall c e1, c ∈ children t -> engine_wf e1 -> grow_step e e1 ->
    exists t' e', generalize_rows keep e1 c = Done (t', e') /\ engine_wf e' /\ grow_step e1 e' /\ same_shape e' c t').
  { intros c e1 Hin W1 G1. apply (IH c Hin); [done|]. eapply ty_below_mono; [apply G1|by apply Hc]. }
  assert (Hlist : forall l, (forall c, c ∈ l -> c ∈ children t) ->
    exists l' e', map_state (generalize_rows keep) l e = Done (l', e') /\ engine_wf e' /\ grow_step e e'
      /\ Forall2 (same_shape e') l l').
  { intros l Hl. apply gen_list_ok; auto. }
  assert (Hid : exists t' e', Done (t, e) = Done (t', e') /\ engine_wf e' /\ grow_step e e' /\ same_shape e' t t')
    by (by exists t, e).
  unfold gen_ok in *. destruct t; cbn [generalize_rows]; destruct (negb _); try exact Hid; cbn [children] in *.
  (* one sub-type *)
  all: try (destruct (Hone _ e ltac:(by left) W ltac:(done)) as (t' & e1 & -> & W1 & G1 & [He Hb]);
    cbn [mbind res_bind]; eexists _, e1; (split; [reflexivity|]); (split; [done|]); (split; [done|]);
    apply same_shape_intro; [cbn; congruence|done|by intros c ->%list_elem_of_singleton]).
  (* a list of sub-types *)
  all: try (match goal with |- context [map_state _ ?l _] =>
      destruct (Hlist l ltac:(done)) as (l' & e1 & -> & W1 & G1 & [He Hb]%same_shape_list) end;
    cbn [mbind res_bind]; eexists _, e1; (split; [reflexivity|]); (split; [done|]); (split; [done|]);
    apply same_shape_intro; [cbn; congruence|done|done]).
  (* two sub-types *)
  1,2: (destruct (Hone t1 e ltac:(by left) W ltac:(done)) as (t1' & e1 & -> & W1 & G1 & [He Hb]);
    cbn [mbind res_bind];
    destruct (Hone t2 e1 ltac:(by right; left) W1 G1) as (t2' & e2 & -> & W2 & G2 & [He2 Hb2]);
    cbn [mbind res_bind]; eexists _, e2; (split; [reflexivity|]); (split; [done|]); (split; [by etrans|]);
    apply same_shape_intro; [cbn; congruence|done|];
    intros c [->| ->%list_elem_of_singleton]%elem_of_cons; [eapply ty_below_mono; [apply G2|done]|done]).
  (* a function *)
  destruct (Hone t e) as (r' & e1 & -> & W1 & G1 & [He Hb]); [apply elem_of_app; right; by left|done|done|].
  cbn [mbind res_bind]. destruct (slot_row_for_ok e1 caps keep W1) as (caps' & e2 & -> & W2 & G2 & Hcaps & _).
  { eapply row_below_mono; [apply G1|apply Ho; by left]. }
  cbn [mbind res_bind]. eexists _, e2. split; [reflexivity|]. split; [done|].
  assert (G : grow_step e e2) by by etrans. split; [done|]. split; [cbn; congruence|].
  apply ty_below_step. split; [by intros r ->%list_elem_of_singleton|].
  intros c [Hin| ->%list_elem_of_singleton]%elem_of_app.
  - eapply ty_below_mono; [apply G|]. apply Hc, elem_of_app. by left.
  - eapply ty_below_mono; [apply G2|done].
Qed.

(* ------------------------------------------------------------------ *)
(** ** What the operations promise                                     *)
(* ------------------------------------------------------------------ *)

Lemma fresh_cap_var_ok e : engine_wf e -> engine_wf (snd (fresh_cap_var e)).
Proof.
  intros W. destruct (fresh_slot_ok e W) as [[[C1 C2 C3] WS WD WL WE] _]. split; [by split|done..].
Qed.

(** C24: starting from the empty engine, every operation on row variables ends
    with a result, whatever the order of hash sets: the mutual recursion of
    binding and storing included.  It keeps the invariant that rows are well
    formed, over known variables, and that both caches hold what resolving would
    compute now; and bindings only ever widen. *)
Theorem engine_invariant (hash_order : gset CapVarId -> list CapVarId) e :
  (forall X, Permutation (hash_order X) (elements X)) -> engine_wf e ->
  engine_wf new_engine
  /\ engine_wf (snd (fresh_cap_var e))
  /\ (forall id row, id < next_cap_var e -> row_below (next_cap_var e) row ->
       exists e', bind_cap_var e id row = Done e' /\ engine_wf e' /\ row_step e e')
  /\ (forall target row, target < next_cap_var e -> row_below (next_cap_var e) row ->
       exists e', store_into_input e target row = Done e' /\ engine_wf e' /\ row_step e e')
  /\ (forall c1 c2, row_below (next_cap_var e) c1 -> row_below (next_cap_var e) c2 ->
       exists e', unify_rows hash_order e c1 c2 = Done e' /\ engine_wf e' /\ row_step e e')
  /\ (forall row, row_below (next_cap_var e) row ->
       exists r e', resolve_cap_row hash_order e row = Done (r, e') /\ engine_wf e' /\ cache_step e e'
         /\ row_below (next_cap_var e) r)
  /\ (forall keep t, ty_below (next_cap_var e) t ->
       exists t' e', generalize_rows keep e t = Done (t', e') /\ engine_wf e' /\ grow_step e e' /\ same_shape e' t t').
Proof.
  intros Hh W. split; [apply new_engine_wf|]. split; [by apply fresh_cap_var_ok|]. repeat apply conj.
  - intros id row Hid Hr. destruct (bind_cap_var_ok e id row W Hid Hr) as (e' & ? & ? & ? & _). by exists e'.
  - intros target row Ht Hr.
    destruct (store_into_input_ok bind_cap_var (next_cap_var e) 0 (bind_fits _) e target row) as (e' & ? & F & ? & _);
      [by apply fits_0|done|done|]. exists e'. split; [done|]. split; [apply F|done].
  - intros c1 c2 B1 B2. destruct (unify_rows_ok hash_order Hh e c1 c2 W B1 B2) as (e' & ? & ? & ? & _). by exists e'.
  - intros row B. destruct (resolve_cap_row_ok hash_order Hh e row (ew_coherent e W) (proj1 B)) as (r & e' & ? & C & S & Hr).
    exists r, e'. split; [done|]. split; [by eapply cache_step_wf|]. split; [done|].
    eapply resolved_below; [apply (ew_subst e W)|done|done].
  - intros keep t Ht. by apply generalize_rows_ok.
Qed.

Definition by_elements (X : gset CapVarId) : list CapVarId := elements X.

(** Two slots, a container's storage that waits for its first binding. *)
Definition example_engine : InferenceEngine :=
  set_deferred_input_stores {[ 2 := [Resolved 8 []] ]}
    (set_slot_cap_vars {[0; 1]} (set_next_cap_var 3 new_engine)).

Lemma example_engine_wf : engine_wf example_engine.
Proof.
  split; [split; cbn; [apply map_Forall_empty|intros v r; by rewrite lookup_empty|done]|..]; cbn.
  - intros v r. by rewrite lookup_empty.
  - intros v rows r Hv Hr. apply lookup_singleton_Some in Hv as [<- <-]. apply list_elem_of_singleton in Hr as ->.
    split; [split; [lia|constructor]|]. intros w Hw. by apply elem_of_nil in Hw.
  - intros v rows r. by rewrite lookup_empty.
  - by intros s.
Qed.

Lemma engine_invariant_witness :
  (exists e', bind_cap_var example_engine 2 (Resolved 0 [0; 1]) = Done e' /\ engine_wf e' /\ row_step example_engine e')
  /\ (cap_substitutions <$> bind_cap_var example_engine 2 (Resolved 0 [0; 1]))
     = Done {[ 0 := Resolved 8 []; 1 := Resolved 8 []; 2 := Resolved 0 [0; 1] ]}.
Proof.
  split; [|vm_compute; reflexivity].
  assert (Hb : row_below 3 (Resolved 0 [0; 1])).
  { split; [split; [lia|repeat constructor; lia]|]. intros v [->|[->|Hv%elem_of_nil]%elem_of_cons]%elem_of_cons; done. }
  apply (engine_invariant by_elements example_engine (fun X => Permutation_refl _) example_engine_wf); [done|exact Hb].
Defined.

(** C22: when a row flows into a destination row, every storage slot of the
    destination has afterwards, and after whatever is bound later, at least the
    authority of the row that flowed in, as resolving the slot shows: authority
    that only becomes known later included.  The slots that are frozen storage of
    a container handed to the body being checked are the exception: what flows
    into them is recorded at the store instead, and can be lost when the store is
    in a lambda ([lambda_helper_store_lost]). *)
Theorem slot_flow_sound (hash_order : gset CapVarId -> list CapVarId) e c1 c2 v :
  (forall X, Permutation (hash_order X) (elements X)) -> engine_wf e ->
  row_below (next_cap_var e) c1 -> row_below (next_cap_var e) c2 -> c1 <> c2 ->
  v ∈ var_ids c1 -> v ∈ slot_cap_vars e -> (v ∈ input_storage_cap_vars e -> is_frozen e v = false) ->
  exists e', unify_rows hash_order e c1 c2 = Done e' /\ engine_wf e'
    /\ forall later, engine_wf later -> row_step e' later ->
         exists r e'', resolve_cap_row hash_order later (var v) = Done (r, e'')
           /\ forall c, row_carries (cap_substitutions later) c2 c -> shows r c.
Proof.
  intros Hh W B1 B2 Hne Hv Hs Hf. destruct (unify_rows_ok hash_order Hh e c1 c2 W B1 B2) as (e' & He & W' & S & Hholds).
  exists e'. split; [done|]. split; [done|]. intros later WL SL.
  destruct (resolve_cap_row_ok hash_order Hh later (var v) (ew_coherent later WL) (wf_var v)) as (r & e'' & Hr & _ & _ & Hres).
  exists r, e''. split; [done|]. intros c Hc. eapply resolved_shows; [apply Hres|]. right. exists v. split; [by left|].
  eapply holds_carries; [|done]. eapply holds_mono; [apply (rs_subst _ _ SL)|]. apply Hholds; [done..|].
  intros [Hi Hfr]. rewrite (Hf Hi) in Hfr. done.
Qed.

(** The slot 0 takes the row of variable 2, whose authority is known only later. *)
Lemma slot_flow_sound_witness :
  (exists e', unify_rows by_elements example_engine (var 0) (var 2) = Done e' /\ engine_wf e'
    /\ forall later, engine_wf later -> row_step e' later ->
         exists r e'', resolve_cap_row by_elements later (var 0) = Done (r, e'')
           /\ forall c, row_carries (cap_substitutions later) (var 2) c -> shows r c)
  /\ (e ← unify_rows by_elements example_engine (var 0) (var 2);
      e ← bind_cap_var e 2 (closed 4);
      fst <$> resolve_cap_row by_elements e (var 0)) = Done (Resolved 4 []).
Proof.
  split; [|vm_compute; reflexivity].
  apply (slot_flow_sound by_elements example_engine (var 0) (var 2) 0); try done.
  - apply example_engine_wf.
  - by apply row_below_var.
  - by apply row_below_var.
  - by left.
Defined.

(* ------------------------------------------------------------------ *)
(** ** A store that is lost                                            *)
(* ------------------------------------------------------------------ *)

(** While the body of a lambda is checked, 0 is the storage of the container it
    was handed, frozen; 1 is the slot of the array it is later called with; 2 is
    a helper's copy of its own container parameter, bound to 0 by the call
    [helper(xs)] in the body. *)
Definition lambda_engine : InferenceEngine :=
  set_effect_scope (Some (mkScope ∅ [] [] None)) (set_cap_substitutions {[ 2 := Resolved 0 [0] ]}
    (set_lambda_input_cap_vars {[0]} (set_input_storage_cap_vars {[0]} (set_frozen_cap_vars {[ 0 := 1 ]}
      (set_slot_cap_vars {[0; 1]} (set_next_cap_var 3 new_engine)))))).

(** After the body: the freeze ends and the lambda is called with the array. *)
Definition called_with_array (e : InferenceEngine) : res (option CapRow) :=
  e ← unfreeze_rows e [0]; e ← bind_cap_var e 0 (var 1); Done (cap_substitutions e !! 1).

(** What the body pushes itself reaches the array; what a helper pushes for it
    is filed under a variable that no call maps, and is lost. *)
Lemma lambda_helper_store_lost :
  (e ← flow_into lambda_engine (closed 8) 0; called_with_array e) = Done (Some (Resolved 8 []))
  /\ (e ← store_into_input lambda_engine 2 (closed 8); called_with_array e) = Done None.
Proof. split; vm_compute; reflexivity. Qed.
