(* ===== verification/Infer.v ===== *)
(** Unification of types ([kryos-types/src/infer.rs]): resolving with a node
    budget, the occurs check, [unify] and the defaulting of variables. *)

From S2P Require Import Prelude Machine Utf8 Text Token Capability CapRow Ty CapVars.

#[local] Open Scope N_scope.

(** The closures [signed_rank] and [unsigned_rank] of [is_int_widening]. *)
Definition signed_rank (t : Ty) : option N :=
  match t with
  | Ty_I8 => Some 0 | Ty_I16 => Some 1 | Ty_I32 => Some 2 | Ty_I64 | Ty_ISize => Some 3 | Ty_I128 => Some 4
  | _ => None
  end.

Definition unsigned_rank (t : Ty) : option N :=
  match t with
  | Ty_U8 => Some 0 | Ty_U16 => Some 1 | Ty_U32 | Ty_USize => Some 2 | Ty_U64 => Some 3 | Ty_U128 => Some 4
  | _ => None
  end.

Definition is_int_widening (from to : Ty) : bool :=
  match to, from with
  | Ty_I64, (Ty_U8 | Ty_U16 | Ty_U32 | Ty_U64 | Ty_U128 | Ty_USize) => true
  | _, _ =>
      match signed_rank from, signed_rank to with
      | Some f, Some t => f <? t
      | _, _ =>
          match unsigned_rank from, unsigned_rank to with
          | Some f, Some t => f <? t
          | _, _ => false
          end
      end
  end.

Definition MAX_RESOLVE_NODES : nat := 4096.

(* ------------------------------------------------------------------ *)
(** ** Resolving                                                       *)
(* ------------------------------------------------------------------ *)

(** A list of types under one budget. *)
Definition map_budget (f : Ty -> nat -> option (Ty * nat)) : list Ty -> nat -> option (list Ty * nat) :=
  fix go l budget :=
    match l with
    | [] => Some ([], budget)
    | t :: l => '(t, budget) ← f t budget; '(l, budget) ← go l budget; Some (t :: l, budget)
    end.

Section Resolve.
Context (subst : gmap N Ty).

(** [budget] is the [&mut usize]; every call takes one from it before it calls
    itself, so [fuel] is enough from the start when it is at least the budget. *)
Fixpoint resolve_bounded (fuel : nat) (ty : Ty) (budget : nat) : option (Ty * nat) :=
  match fuel, budget with
  | S fuel, S budget =>
      match ty with
      | Ty_Var id =>
          match subst !! id with
          | Some resolved => resolve_bounded fuel resolved budget
          | None => Some (ty, budget)
          end
      | Ty_Array t n => '(t, budget) ← resolve_bounded fuel t budget; Some (Ty_Array t n, budget)
      | Ty_Tuple ts => '(ts, budget) ← map_budget (resolve_bounded fuel) ts budget; Some (Ty_Tuple ts, budget)
      | Ty_Map k v =>
          '(k, budget) ← resolve_bounded fuel k budget;
          '(v, budget) ← resolve_bounded fuel v budget;
          Some (Ty_Map k v, budget)
      | Ty_Set t => '(t, budget) ← resolve_bounded fuel t budget; Some (Ty_Set t, budget)
      | Ty_Option t => '(t, budget) ← resolve_bounded fuel t budget; Some (Ty_Option t, budget)
      | Ty_Result o r =>
          '(o, budget) ← resolve_bounded fuel o budget;
          '(r, budget) ← resolve_bounded fuel r budget;
          Some (Ty_Result o r, budget)
      | Ty_Struct n gs => '(gs, budget) ← map_budget (resolve_bounded fuel) gs budget; Some (Ty_Struct n gs, budget)
      | Ty_Enum n gs => '(gs, budget) ← map_budget (resolve_bounded fuel) gs budget; Some (Ty_Enum n gs, budget)
      | Ty_Function ps r c =>
          '(ps, budget) ← map_budget (resolve_bounded fuel) ps budget;
          '(r, budget) ← resolve_bounded fuel r budget;
          Some (Ty_Function ps r c, budget)
      | Ty_Reference t m => '(t, budget) ← resolve_bounded fuel t budget; Some (Ty_Reference t m, budget)
      | Ty_Shared t => '(t, budget) ← resolve_bounded fuel t budget; Some (Ty_Shared t, budget)
      | Ty_Weak t => '(t, budget) ← resolve_bounded fuel t budget; Some (Ty_Weak t, budget)
      | Ty_Pointer t m => '(t, budget) ← resolve_bounded fuel t budget; Some (Ty_Pointer t m, budget)
      | _ => Some (ty, budget)
      end
  | _, _ => None
  end.

(** The abort is a [Panic]. *)
Definition resolve (ty : Ty) : res Ty :=
  match resolve_bounded MAX_RESOLVE_NODES ty MAX_RESOLVE_NODES with
  | Some (resolved, _) => Done resolved
  | None => Panic
  end.

(** [any] over a list with a computation that may abort. *)
Definition any_res {A} (f : A -> res bool) : list A -> res bool :=
  fix go l := match l with [] => Done false | a :: l => b ← f a; if (b : bool) then Done true else go l end.

(** [fuel] bounds the depth of the type. *)
Fixpoint occurs_in (fuel : nat) (id : N) (ty : Ty) : res bool :=
  match fuel with
  | O => OutOfFuel
  | S fuel =>
      ty ← resolve ty;
      match ty with
      | Ty_Var other_id => Done (other_id =? id)
      | ty => any_res (occurs_in fuel id) (children ty)
      end
  end.
End Resolve.

(* ------------------------------------------------------------------ *)
(** ** Unification                                                     *)
(* ------------------------------------------------------------------ *)

(** What [unify] returns, and the state it leaves behind in either case. *)
Abbreviation unify_res := (res (option TypeDiag * InferenceEngine)).

Definition ok (e : InferenceEngine) : unify_res := Done (None, e).
Definition err (d : TypeDiag) (e : InferenceEngine) : unify_res := Done (Some d, e).

(** The [?] operator. *)
Definition and_then (m : unify_res) (k : InferenceEngine -> unify_res) : unify_res :=
  '(d, e) ← m; match d with Some d => err d e | None => k e end.

(** [for (t1, t2) in e1.iter().zip(e2.iter())] *)
Fixpoint unify_pairs (rec : InferenceEngine -> Ty -> Ty -> unify_res) (l1 l2 : list Ty) (e : InferenceEngine) : unify_res :=
  match l1, l2 with
  | t1 :: l1, t2 :: l2 => and_then (rec e t1 t2) (unify_pairs rec l1 l2)
  | _, _ => ok e
  end.

Definition is_opaque (params : list Ty) (ret : Ty) : bool :=
  match params, ret with [Ty_Error], Ty_Error => true | _, _ => false end.

Definition result_name : str := bytes "Result".
Definition option_name : str := bytes "Option".

Section Unify.
Context (hash_order : gset CapVarId -> list CapVarId).

(** The arms that bind a variable. *)
Definition bind_var (e : InferenceEngine) (id : N) (ty : Ty) : unify_res :=
  occurs ← occurs_in (substitutions e) (S MAX_RESOLVE_NODES) id ty;
  if (occurs : bool) then err (D_InfiniteType id ty) e
  else
    match check_var_bounds e id ty with
    | inl d => err d e
    | inr e =>
        '(ty, e) ← generalize_rows true e ty;
        ok (set_substitutions (<[id := ty]> (substitutions e)) e)
    end.

Definition mismatch (e : InferenceEngine) (a b : Ty) : unify_res := err (D_Mismatch a b) e.

(** The last arms, which look at no sub-type. *)
Definition unify_leaf (e : InferenceEngine) (a b : Ty) : unify_res :=
  match a, b with
  | Ty_Struct sname _, Ty_DynTrait trait_name | Ty_DynTrait trait_name, Ty_Struct sname _ =>
      if implements_trait e sname trait_name then ok e else err (D_MissingImpl trait_name sname) e
  | _, _ =>
      let same_trait := match a, b with Ty_DynTrait t1, Ty_DynTrait t2 => bool_decide (t1 = t2) | _, _ => false end in
      let never := match a, b with Ty_Never, _ | _, Ty_Never => true | _, _ => false end in
      let pointer_sized := match a, b with
        | (Ty_USize | Ty_ISize), _ => is_integer b
        | _, (Ty_USize | Ty_ISize) => is_integer a
        | _, _ => false
        end in
      if same_trait || never || is_int_widening a b || is_int_widening b a || pointer_sized then ok e
      else mismatch e a b
  end.

(** Two function types: parameters contravariant, then the result, then the rows. *)
Definition unify_function (rec : InferenceEngine -> Ty -> Ty -> unify_res) (e : InferenceEngine)
    (p1 : list Ty) (r1 : Ty) (c1 : CapRow) (p2 : list Ty) (r2 : Ty) (c2 : CapRow) : unify_res :=
  if is_opaque p1 r1 || is_opaque p2 r2 then ok e
  else if negb (Nat.eqb (length p1) (length p2)) then err (D_ParameterCount (length p1) (length p2)) e
  else
    let outer_contravariant := contravariant e in
    '(param_result, e) ← unify_pairs rec p1 p2 (set_contravariant (negb outer_contravariant) e);
    let e := set_contravariant outer_contravariant e in
    match param_result with
    | Some d => err d e
    | None =>
        and_then (rec e r1 r2) (fun e =>
          e ← (if outer_contravariant then unify_rows hash_order e c2 c1 else unify_rows hash_order e c1 c2); ok e)
    end.

(** The [match] of [unify], on resolved types. *)
Definition unify_resolved (rec : InferenceEngine -> Ty -> Ty -> unify_res) (e : InferenceEngine) (a b : Ty) : unify_res :=
  if is_error a || is_error b then ok e
  else if bool_decide (a = b) then ok e
  else
    match a, b with
    | Ty_Var id, _ => bind_var e id b
    | _, Ty_Var id => bind_var e id a
    | Ty_Array e1 _, Ty_Array e2 _ => rec e e1 e2
    | Ty_Tuple l1, Ty_Tuple l2 =>
        if negb (Nat.eqb (length l1) (length l2)) then err (D_TupleLength (length l1) (length l2)) e
        else unify_pairs rec l1 l2 e
    | Ty_Map k1 v1, Ty_Map k2 v2 => and_then (rec e k1 k2) (fun e => rec e v1 v2)
    | Ty_Set e1, Ty_Set e2 => rec e e1 e2
    | Ty_Option i1, Ty_Option i2 => rec e i1 i2
    | Ty_Result o1 e1, Ty_Result o2 e2 => and_then (rec e o1 o2) (fun e => rec e e1 e2)
    | Ty_Result o r, Ty_Enum name gs | Ty_Enum name gs, Ty_Result o r =>
        if bool_decide (name = result_name) then
          match gs with
          | [g0; g1] => and_then (rec e o g0) (fun e => rec e r g1)
          | _ => ok e
          end
        else unify_leaf e a b
    | Ty_Option i, Ty_Enum name gs | Ty_Enum name gs, Ty_Option i =>
        if bool_decide (name = option_name) then match gs with [g0] => rec e i g0 | _ => ok e end
        else unify_leaf e a b
    | Ty_Enum n1 g1, Ty_Enum n2 g2 =>
        if bool_decide (n1 = n2) && (bool_decide (n1 = result_name) || bool_decide (n1 = option_name))
           && negb (Nat.eqb (length g1) (length g2)) && (Nat.eqb (length g1) 0 || Nat.eqb (length g2) 0)
        then ok e
        else if bool_decide (n1 = n2) && Nat.eqb (length g1) (length g2) then unify_pairs rec g1 g2 e
        else unify_leaf e a b
    | Ty_Struct n1 g1, Ty_Struct n2 g2 =>
        if bool_decide (n1 = n2) && Nat.eqb (length g1) (length g2) then unify_pairs rec g1 g2 e
        else unify_leaf e a b
    | Ty_Function p1 r1 c1, Ty_Function p2 r2 c2 => unify_function rec e p1 r1 c1 p2 r2 c2
    | Ty_Reference i1 m1, Ty_Reference i2 m2 => if bool_decide (m1 = m2) then rec e i1 i2 else unify_leaf e a b
    | Ty_Shared i1, Ty_Shared i2 => rec e i1 i2
    | Ty_Weak i1, Ty_Weak i2 => rec e i1 i2
    | Ty_Pointer i1 m1, Ty_Pointer i2 m2 => if bool_decide (m1 = m2) then rec e i1 i2 else unify_leaf e a b
    | _, _ => unify_leaf e a b
    end.

Fixpoint unify (fuel : nat) (e : InferenceEngine) (a b : Ty) : unify_res :=
  match fuel with
  | O => OutOfFuel
  | S fuel =>
      a ← resolve (substitutions e) a;
      b ← resolve (substitutions e) b;
      unify_resolved (unify fuel) e a b
  end.

(** [literal_slot_type] *)
Definition literal_slot_type (e : InferenceEngine) (first : Ty) : res (Ty * InferenceEngine) :=
  resolved ← resolve (substitutions e) first;
  if negb (type_has_fn resolved) then Done (first, e) else generalize_rows false e resolved.

Definition freeze_rows_of (e : InferenceEngine) (tys : list Ty) : res (list CapVarId * InferenceEngine) :=
  resolved ← mapM (resolve (substitutions e)) tys;
  Done (freeze_vars e (flat_map row_vars_in resolved)).
End Unify.

(** [filter] over the ids of [default_numeric_vars]. *)
Fixpoint unresolved_vars (subst : gmap N Ty) (ids : list N) : res (list N) :=
  match ids with
  | [] => Done []
  | id :: ids =>
      resolved ← resolve subst (Ty_Var id);
      rest ← unresolved_vars subst ids;
      Done (match resolved with Ty_Var _ => id :: rest | _ => rest end)
  end.

(** [entry(id).or_insert(Type::Error)] *)
Definition or_insert_error (subst : gmap N Ty) (id : N) : gmap N Ty :=
  match subst !! id with Some _ => subst | None => <[id := Ty_Error]> subst end.

Definition default_numeric_vars (e : InferenceEngine) : res InferenceEngine :=
  unresolved ← unresolved_vars (substitutions e) (map N.of_nat (seq 0 (N.to_nat (next_var e))));
  Done (set_substitutions (foldl or_insert_error (substitutions e) unresolved) e).
