(* ===== verification/InferResolve.v ===== *)
(** Resolving types under a node budget ([resolve_bounded], [occurs_in] of
    [kryos-types/src/infer.rs]): what it returns is the substitution applied to
    the end, and it aborts exactly when that visits too many nodes. *)

From stdpp Require Import relations.
From S2P Require Import Prelude Machine Text Token Capability CapRow Ty CapVars CapSolve CapFlow CapOps Infer.

#[local] Open Scope nat_scope.

(* ------------------------------------------------------------------ *)
(** ** Equations                                                       *)
(* ------------------------------------------------------------------ *)

Lemma map_budget_cons f t l b :
  map_budget f (t :: l) b = '(t, b) ← f t b; '(l, b) ← map_budget f l b; Some (t :: l, b).
Proof. done. Qed.

Lemma map_budget_app f l1 l2 b :
  map_budget f (l1 ++ l2) b = '(l1, b) ← map_budget f l1 b; '(l2, b) ← map_budget f l2 b; Some (l1 ++ l2, b).
Proof.
  revert b. induction l1 as [|t l1 IH]; intros b; cbn [app].
  { cbn. by destruct (map_budget f l2 b) as [[? ?]|]. }
  rewrite !map_budget_cons. destruct (f t b) as [[t' b1]|]; [|done]. cbn [mbind option_bind]. rewrite IH.
  destruct (map_budget f l1 b1) as [[l1' b2]|]; [|done]. cbn [mbind option_bind].
  by destruct (map_budget f l2 b2) as [[l2' b3]|].
Qed.

Lemma map_budget_length f l b l' b' : map_budget f l b = Some (l', b') -> length l' = length l.
Proof.
  revert b l'. induction l as [|t l IH]; intros b l'; [by intros [= <- _]|]. rewrite map_budget_cons.
  destruct (f t b) as [[t' b1]|]; [|done]. cbn [mbind option_bind].
  destruct (map_budget f l b1) as [[l1 b2]|] eqn:E; [|done]. cbn [mbind option_bind]. intros [= <- ->].
  cbn. f_equal. by eapply IH.
Qed.

Section Resolve.
Context (subst : gmap N Ty).

(** The match of [resolve_bounded], all constructors but variables at once. *)
Lemma resolve_bounded_step fuel t b : resolve_bounded subst (S fuel) t (S b) =
  match t with
  | Ty_Var id => match subst !! id with Some r => resolve_bounded subst fuel r b | None => Some (t, b) end
  | _ => '(cs, b) ← map_budget (resolve_bounded subst fuel) (children t) b; Some (with_children t cs, b)
  end.
Proof.
  destruct t; try reflexivity; cbn [resolve_bounded children].
  all: try (rewrite map_budget_cons; destruct (resolve_bounded subst fuel _ b) as [[? ?]|]; [|done]; cbn [mbind option_bind]).
  all: try (rewrite map_budget_cons; destruct (resolve_bounded subst fuel _ _) as [[? ?]|]; done).
  all: try done.
  rewrite map_budget_app. destruct (map_budget _ _ _) as [[ps b1]|]; [|done]. cbn [mbind option_bind].
  rewrite map_budget_cons. destruct (resolve_bounded subst fuel t b1) as [[r b2]|]; [|done]. cbn [mbind option_bind].
  cbn [map_budget mbind option_bind]. by rewrite with_children_function.
Qed.

Lemma resolve_bounded_0 fuel t : resolve_bounded subst fuel t 0 = None.
Proof. by destruct fuel. Qed.

(* ------------------------------------------------------------------ *)
(** ** The substitution applied to the end                             *)
(* ------------------------------------------------------------------ *)

(** [resolves n t t']: applying the substitution until nothing changes turns [t]
    into [t'], over [n] nodes, those of the variables passed on the way included. *)
Inductive resolves : nat -> Ty -> Ty -> Prop :=
| resolves_var id : subst !! id = None -> resolves 1 (Ty_Var id) (Ty_Var id)
| resolves_bound id r n t : subst !! id = Some r -> resolves n r t -> resolves (S n) (Ty_Var id) t
| resolves_node t n cs : is_var t = false -> resolves_list n (children t) cs -> resolves (S n) t (with_children t cs)
with resolves_list : nat -> list Ty -> list Ty -> Prop :=
| resolves_nil : resolves_list 0 [] []
| resolves_cons n m t t' l l' : resolves n t t' -> resolves_list m l l' -> resolves_list (n + m) (t :: l) (t' :: l').

Scheme resolves_ind' := Minimality for resolves Sort Prop
with resolves_list_ind' := Minimality for resolves_list Sort Prop.
Combined Scheme resolves_mut from resolves_ind', resolves_list_ind'.

Lemma resolves_list_length n l l' : resolves_list n l l' -> length l' = length l.
Proof. induction 1; cbn; congruence. Qed.

Lemma resolves_list_Forall2 n l l' : resolves_list n l l' -> Forall2 (fun t t' => exists m, resolves m t t') l l'.
Proof. induction 1; constructor; eauto. Qed.

Lemma resolves_det_mut :
  (forall n t t', resolves n t t' -> forall m t2, resolves m t t2 -> m = n /\ t2 = t')
  /\ (forall n l l', resolves_list n l l' -> forall m l2, resolves_list m l l2 -> m = n /\ l2 = l').
Proof.
  apply resolves_mut.
  - intros id Hn m t2 H. inversion H as [|? ? ? ? Hs|? ? ? Hv]; subst; [done|congruence|done].
  - intros id r n t Hs _ IH m t2 H. inversion H as [? Hn|? r' n' ? Hs' Hr|? ? ? Hv]; subst; [congruence| |done].
    rewrite Hs in Hs'. injection Hs' as <-. destruct (IH _ _ Hr) as [-> ->]. done.
  - intros t n cs Hv _ IH m t2 H. inversion H as [|? ? ? ? ? ?|? ? cs' _ Hl]; subst; [done..|].
    destruct (IH _ _ Hl) as [-> ->]. done.
  - intros m l2 H. by inversion H.
  - intros n m t t' l l' _ IH _ IHl k l2 H. inversion H as [|? ? ? ? ? ? Ht Hl]; subst.
    destruct (IH _ _ Ht) as [-> ->], (IHl _ _ Hl) as [-> ->]. done.
Qed.

Lemma resolves_det n m t t1 t2 : resolves n t t1 -> resolves m t t2 -> n = m /\ t1 = t2.
Proof. intros H1 H2. by destruct (proj1 resolves_det_mut _ _ _ H1 _ _ H2) as [-> ->]. Qed.

(** The budget pays one for every node. *)
Lemma resolve_bounded_sound fuel t b t' b' :
  resolve_bounded subst fuel t b = Some (t', b') -> b' <= b /\ resolves (b - b') t t'.
Proof.
  revert t b t' b'. induction fuel as [|fuel IH]; intros t b t' b'; [done|]. destruct b as [|b]; [done|].
  rewrite resolve_bounded_step.
  assert (Hlist : forall l b l' b', map_budget (resolve_bounded subst fuel) l b = Some (l', b') ->
    b' <= b /\ resolves_list (b - b') l l').
  { clear t b t' b'. intros l. induction l as [|t l IHl]; intros b l' b'.
    - intros [= <- <-]. rewrite Nat.sub_diag. split; [lia|constructor].
    - rewrite map_budget_cons. destruct (resolve_bounded subst fuel t b) as [[t' b1]|] eqn:Et; [|done].
      cbn [mbind option_bind]. destruct (map_budget _ l b1) as [[l1 b2]|] eqn:El; [|done]. cbn [mbind option_bind].
      intros [= <- <-]. apply IH in Et as [? Ht]. apply IHl in El as [? Hl]. split; [lia|].
      replace (b - b2) with ((b - b1) + (b1 - b2)) by lia. by constructor. }
  destruct (is_var t) eqn:Hv.
  - destruct t; try done. destruct (subst !! id) as [r|] eqn:Hs.
    + intros [Hle Hr]%IH. split; [lia|]. replace (S b - b') with (S (b - b')) by lia. by econstructor.
    + intros [= <- <-]. split; [lia|]. replace (S b - b) with 1 by lia. by constructor.
  - intros Hr. assert (Hm : exists cs, map_budget (resolve_bounded subst fuel) (children t) b = Some (cs, b') /\ t' = with_children t cs).
    { destruct t; try done; (destruct (map_budget _ _ b) as [[cs b1]|]; [|done]); injection Hr as <- <-; by exists cs. }
    destruct Hm as (cs & [Hle Hl]%Hlist & ->). split; [lia|]. replace (S b - b') with (S (b - b')) by lia.
    by constructor.
Qed.

Lemma resolves_pos n t t' : resolves n t t' -> 1 <= n.
Proof. destruct 1; lia. Qed.

(** A type is resolved within any budget its nodes fit in. *)
Lemma resolve_bounded_complete_mut :
  (forall n t t', resolves n t t' -> forall fuel b, n <= b <= fuel -> resolve_bounded subst fuel t b = Some (t', b - n))
  /\ (forall n l l', resolves_list n l l' -> forall fuel b, n <= b <= fuel ->
        map_budget (resolve_bounded subst fuel) l b = Some (l', b - n)).
Proof.
  apply resolves_mut.
  - intros id Hn [|fuel] [|b] Hb; try lia. rewrite resolve_bounded_step, Hn. do 2 f_equal. lia.
  - intros id r n t Hs _ IH [|fuel] [|b] Hb; try lia. rewrite resolve_bounded_step, Hs. rewrite IH by lia. done.
  - intros t n cs Hv _ IH [|fuel] [|b] Hb; try lia. rewrite resolve_bounded_step.
    destruct t; try done; rewrite IH by lia; done.
  - intros fuel b Hb. cbn. do 2 f_equal. lia.
  - intros n m t t' l l' _ IH _ IHl fuel b Hb. rewrite map_budget_cons, IH by lia. cbn [mbind option_bind].
    rewrite IHl by lia. cbn [mbind option_bind]. do 2 f_equal. lia.
Qed.

Lemma resolve_spec t t' : resolve subst t = Done t' <-> exists n, resolves n t t' /\ n <= MAX_RESOLVE_NODES.
Proof.
  unfold resolve. split.
  - destruct (resolve_bounded _ _ t _) as [[r b]|] eqn:E; [|done]. intros [= <-].
    apply resolve_bounded_sound in E as [Hb Hr]. eexists. split; [apply Hr|lia].
  - intros (n & Hr & Hn). rewrite (proj1 resolve_bounded_complete_mut n t t' Hr) by lia. done.
Qed.

Lemma resolve_type_outcome t : resolve subst t = Panic \/ exists t', resolve subst t = Done t'.
Proof. unfold resolve. destruct (resolve_bounded _ _ t _) as [[r b]|]; eauto. Qed.

(* ------------------------------------------------------------------ *)
(** ** Resolved types                                                  *)
(* ------------------------------------------------------------------ *)

Definition var_in (id : N) (t : Ty) : Prop := subterm (Ty_Var id) t.
Definition full (t : Ty) : Prop := forall id, var_in id t -> subst !! id = None.

Lemma var_in_var id j : var_in id (Ty_Var j) <-> id = j.
Proof.
  split; [|intros ->; constructor]. intros H. inversion H as [|? c ? Hc]; subst; [done|]. by apply elem_of_nil in Hc.
Qed.

Lemma var_in_node id t : is_var t = false -> var_in id t <-> exists c, c ∈ children t /\ var_in id c.
Proof.
  intros Hv. split.
  - intros H. inversion H as [|? c ? Hc]; subst; [done|by exists c].
  - intros (c & Hc & H). by eapply subterm_child.
Qed.

Lemma full_child t c : full t -> c ∈ children t -> full c.
Proof. intros Hf Hc id Hid. apply Hf. by eapply subterm_child. Qed.

Lemma resolves_mut_full :
  (forall n t t', resolves n t t' -> full t' /\ ty_size t' <= n)
  /\ (forall n l l', resolves_list n l l' -> (forall t, t ∈ l' -> full t) /\ sum_list_with ty_size l' <= n).
Proof.
  apply resolves_mut.
  - intros id Hn. split; [by intros j ->%var_in_var|cbn; lia].
  - intros id r n t _ _ [? ?]. split; [done|lia].
  - intros t n cs Hv Hl [Hf Hs]. apply resolves_list_length in Hl. split.
    + intros id Hid. rewrite var_in_node in Hid by by rewrite is_var_with_children.
      destruct Hid as (c & Hc & Hid). rewrite children_with_children in Hc by done. by apply (Hf c Hc).
    + rewrite ty_size_children, children_with_children by done. lia.
  - split; [|cbn; lia]. intros t Ht. by apply elem_of_nil in Ht.
  - intros n m t t' l l' _ [Hf Hs] _ [Hfl Hsl]. split; [|cbn; lia]. intros x [->|Hx]%elem_of_cons; [done|by apply Hfl].
Qed.

Lemma resolves_full n t t' : resolves n t t' -> full t' /\ ty_size t' <= n.
Proof. apply resolves_mut_full. Qed.

(** A resolved type resolves to itself, node by node. *)
Lemma full_resolves t : full t -> resolves (ty_size t) t t.
Proof.
  induction t as [t IH] using ty_children_ind. intros Hf. destruct (is_var t) eqn:Hv.
  - destruct t; try done. apply resolves_var, Hf, var_in_var. done.
  - rewrite ty_size_children. rewrite <-(with_children_id t) at 3. apply resolves_node; [done|].
    assert (Hl : forall l, (forall c, c ∈ l -> c ∈ children t) -> resolves_list (sum_list_with ty_size l) l l).
    { intros l. induction l as [|c l IHl]; intros Hl; [constructor|]. cbn. constructor.
      - assert (Hc : c ∈ children t) by (apply Hl; by left). apply IH; [done|by eapply full_child].
      - apply IHl. intros x Hx. apply Hl. by right. }
    by apply Hl.
Qed.

Lemma resolve_full t : full t -> ty_size t <= MAX_RESOLVE_NODES -> resolve subst t = Done t.
Proof. intros Hf Hs. apply resolve_spec. exists (ty_size t). split; [by apply full_resolves|done]. Qed.

Lemma resolve_Done t t' : resolve subst t = Done t' -> full t' /\ ty_size t' <= MAX_RESOLVE_NODES.
Proof. intros (n & Hr & Hn)%resolve_spec. apply resolves_full in Hr as [? ?]. split; [done|lia]. Qed.

(* ------------------------------------------------------------------ *)
(** ** The occurs check                                                *)
(* ------------------------------------------------------------------ *)

Lemma any_res_spec {A} (f : A -> res bool) (g : A -> bool) l :
  (forall a, a ∈ l -> f a = Done (g a)) -> any_res f l = Done (existsb g l).
Proof.
  induction l as [|a l IH]; intros Hf; [done|]. cbn. rewrite Hf by by left. cbn.
  destruct (g a); [done|]. apply IH. intros x Hx. apply Hf. by right.
Qed.

Fixpoint occurs (fuel : nat) (id : N) (t : Ty) : bool :=
  match fuel with
  | O => false
  | S fuel => match t with Ty_Var j => (j =? id)%N | _ => existsb (occurs fuel id) (children t) end
  end.

Lemma occurs_var_in fuel id t : ty_size t <= fuel -> occurs fuel id t = true <-> var_in id t.
Proof.
  revert t. induction fuel as [|fuel IH]; intros t Hs; [rewrite ty_size_children in Hs; lia|].
  destruct (is_var t) eqn:Hv.
  - destruct t; try done. cbn. rewrite N.eqb_eq, var_in_var. split; congruence.
  - rewrite var_in_node by done.
    assert (Hex : existsb (occurs fuel id) (children t) = true <-> exists c, c ∈ children t /\ var_in id c).
    { rewrite existsb_exists. split.
      - intros (c & Hc%list_elem_of_In & Hid). exists c. split; [done|]. pose proof (child_size c t Hc).
        apply IH; [lia|done].
      - intros (c & Hc & Hid). exists c. split; [by apply list_elem_of_In|]. pose proof (child_size c t Hc).
        apply IH; [lia|done]. }
    by destruct t.
Qed.

(** On a resolved type the check looks at every variable, and does not abort. *)
Lemma occurs_in_full fuel id t : full t -> ty_size t <= MAX_RESOLVE_NODES -> ty_size t <= fuel ->
  exists b : bool, occurs_in subst fuel id t = Done b /\ (b = true <-> var_in id t).
Proof.
  intros Hf Hs Hfuel. exists (occurs fuel id t). split; [|by apply occurs_var_in].
  revert t Hf Hs Hfuel. induction fuel as [|fuel IH]; intros t Hf Hs Hfuel; [rewrite ty_size_children in Hfuel; lia|].
  cbn [occurs_in]. rewrite (resolve_full t Hf Hs). cbn [mbind res_bind].
  assert (Hany : any_res (occurs_in subst fuel id) (children t) = Done (existsb (occurs fuel id) (children t))).
  { apply any_res_spec. intros c Hc. pose proof (child_size c t Hc). apply IH; [by eapply full_child|lia|lia]. }
  by destruct t.
Qed.
End Resolve.
