(* ===== verification/InferSound.v ===== *)
(** Correctness of [unify] ([kryos-types/src/infer.rs]): it ends, it keeps the
    substitution acyclic and over known variables, and when it reports no
    mismatch the two types agree after substitution. *)

From stdpp Require Import relations.
From S2P Require Import Prelude Machine Text Token Capability CapRow CapCycles Ty CapVars CapSolve CapFlow CapOps Infer InferResolve.

#[local] Open Scope nat_scope.

(* ------------------------------------------------------------------ *)
(** ** Agreement of types                                              *)
(* ------------------------------------------------------------------ *)

(** The heads between which [unify] goes on to the sub-types. *)
Definition heads_match (a b : Ty) : bool :=
  match a, b with
  | Ty_Array _ _, Ty_Array _ _ | Ty_Tuple _, Ty_Tuple _ | Ty_Map _ _, Ty_Map _ _ | Ty_Set _, Ty_Set _
  | Ty_Option _, Ty_Option _ | Ty_Result _ _, Ty_Result _ _ | Ty_Function _ _ _, Ty_Function _ _ _
  | Ty_Shared _, Ty_Shared _ | Ty_Weak _, Ty_Weak _ => true
  | Ty_Struct n1 _, Ty_Struct n2 _ | Ty_Enum n1 _, Ty_Enum n2 _ => bool_decide (n1 = n2)
  | Ty_Reference _ m1, Ty_Reference _ m2 | Ty_Pointer _ m1, Ty_Pointer _ m2 => bool_decide (m1 = m2)
  | Ty_Result _ _, Ty_Enum n _ => bool_decide (n = result_name)
  | Ty_Option _, Ty_Enum n _ => bool_decide (n = option_name)
  | _, _ => false
  end.

(** The heads that are compatible whatever is below them. *)
Definition leaf_ok (impls : gset (str * str)) (a b : Ty) : bool :=
  match a, b with
  | Ty_Struct sname _, Ty_DynTrait trait_name | Ty_DynTrait trait_name, Ty_Struct sname _ =>
      bool_decide ((sname, trait_name) ∈ impls)
  | _, _ =>
      let same_trait := match a, b with Ty_DynTrait t1, Ty_DynTrait t2 => bool_decide (t1 = t2) | _, _ => false end in
      let never := match a, b with Ty_Never, _ | _, Ty_Never => true | _, _ => false end in
      let pointer_sized := match a, b with
        | (Ty_USize | Ty_ISize), _ => is_integer b
        | _, (Ty_USize | Ty_ISize) => is_integer a
        | _, _ => false
        end in
      same_trait || never || is_int_widening a b || is_int_widening b a || pointer_sized
  end.

(** Erased generics of the two standard enums. *)
Definition erased_ok (a b : Ty) : bool :=
  match a, b with
  | Ty_Enum n1 g1, Ty_Enum n2 g2 =>
      bool_decide (n1 = n2) && (bool_decide (n1 = result_name) || bool_decide (n1 = option_name))
      && negb (Nat.eqb (length g1) (length g2)) && (Nat.eqb (length g1) 0 || Nat.eqb (length g2) 0)
  | Ty_Result _ _, Ty_Enum n gs => bool_decide (n = result_name) && negb (Nat.eqb (length gs) 2)
  | Ty_Option _, Ty_Enum n gs => bool_decide (n = option_name) && negb (Nat.eqb (length gs) 1)
  | _, _ => false
  end.

Definition opaque_ok (a b : Ty) : bool :=
  match a, b with
  | Ty_Function p1 r1 _, Ty_Function p2 r2 _ => is_opaque p1 r1 || is_opaque p2 r2
  | _, _ => false
  end.

Section Agree.
Context (impls : gset (str * str)) (subst : gmap N Ty).

(** [a'] is [a] with some of its bound variables replaced by their bindings. *)
Inductive unfolds : Ty -> Ty -> Prop :=
| unfolds_refl t : unfolds t t
| unfolds_var id t t' : subst !! id = Some t -> unfolds t t' -> unfolds (Ty_Var id) t'
| unfolds_node t cs : is_var t = false -> unfolds_list (children t) cs -> unfolds t (with_children t cs)
with unfolds_list : list Ty -> list Ty -> Prop :=
| unfolds_nil : unfolds_list [] []
| unfolds_cons t t' l l' : unfolds t t' -> unfolds_list l l' -> unfolds_list (t :: l) (t' :: l').

Scheme unfolds_ind' := Minimality for unfolds Sort Prop
with unfolds_list_ind' := Minimality for unfolds_list Sort Prop.
Combined Scheme unfolds_mut from unfolds_ind', unfolds_list_ind'.

(** [a] and [b] agree under the substitution: equal up to rows, or compatible
    the way [unify] allows. *)
Inductive agree : Ty -> Ty -> Prop :=
| agree_same a b : with_caps_erased_to_unknown a = with_caps_erased_to_unknown b -> agree a b
| agree_error a : agree Ty_Error a
| agree_unfold a a' b : unfolds a a' -> agree a' b -> agree a b
| agree_opaque a b : opaque_ok a b = true -> agree a b
| agree_leaf a b : is_var a = false -> is_var b = false -> leaf_ok impls a b || erased_ok a b = true -> agree a b
| agree_kids a b : heads_match a b = true -> agree_list (children a) (children b) -> agree a b
| agree_sym a b : agree a b -> agree b a
with agree_list : list Ty -> list Ty -> Prop :=
| agree_nil : agree_list [] []
| agree_cons a b l1 l2 : agree a b -> agree_list l1 l2 -> agree_list (a :: l1) (b :: l2).

Scheme agree_ind' := Minimality for agree Sort Prop
with agree_list_ind' := Minimality for agree_list Sort Prop.
Combined Scheme agree_mut from agree_ind', agree_list_ind'.

Lemma agree_list_app l1 l2 k1 k2 : agree_list l1 l2 -> agree_list k1 k2 -> agree_list (l1 ++ k1) (l2 ++ k2).
Proof. induction 1; [done|]. intros Hk. cbn. constructor; auto. Qed.
End Agree.

(** Agreement of types without substituted variables. *)
Definition compatible (impls : gset (str * str)) : Ty -> Ty -> Prop := agree impls ∅.

Lemma unfolds_mono_mut (s1 s2 : gmap N Ty) : s1 ⊆ s2 ->
  (forall a b, unfolds s1 a b -> unfolds s2 a b) /\ (forall l1 l2, unfolds_list s1 l1 l2 -> unfolds_list s2 l1 l2).
Proof.
  intros Hs. apply unfolds_mut; intros; [constructor|eapply unfolds_var; [by eapply lookup_weaken|done]
    |by apply unfolds_node|constructor|by constructor].
Qed.

Lemma agree_mono_mut impls s1 s2 : s1 ⊆ s2 ->
  (forall a b, agree impls s1 a b -> agree impls s2 a b)
  /\ (forall l1 l2, agree_list impls s1 l1 l2 -> agree_list impls s2 l1 l2).
Proof.
  intros Hs. apply agree_mut; intros.
  - by apply agree_same.
  - by apply agree_error.
  - eapply agree_unfold; [|done]. by eapply (proj1 (unfolds_mono_mut s1 s2 Hs)).
  - by apply agree_opaque.
  - by apply agree_leaf.
  - by apply agree_kids.
  - by apply agree_sym.
  - constructor.
  - by constructor.
Qed.

Lemma agree_types_mono impls s1 s2 a b : s1 ⊆ s2 -> agree impls s1 a b -> agree impls s2 a b.
Proof. intros Hs. apply (agree_mono_mut impls s1 s2 Hs). Qed.

Lemma agree_list_mono impls s1 s2 l1 l2 : s1 ⊆ s2 -> agree_list impls s1 l1 l2 -> agree_list impls s2 l1 l2.
Proof. intros Hs. apply (agree_mono_mut impls s1 s2 Hs). Qed.

(* ------------------------------------------------------------------ *)
(** ** Agreement after resolving                                       *)
(* ------------------------------------------------------------------ *)

Lemma with_children_twice t cs ds : length cs = length (children t) -> length ds = length (children t) ->
  with_children (with_children t cs) ds = with_children t ds.
Proof.
  destruct t; cbn [children length]; try (destruct cs as [|? [|? [|? ?]]], ds as [|? [|? [|? ?]]]; cbn; congruence).
  rewrite length_app. cbn [length]. intros (ps' & r' & -> & _)%function_children_inv (qs & q & -> & _)%function_children_inv.
  by rewrite !with_children_function.
Qed.

(** The head of a type: its sub-types blanked. *)
Definition bare (t : Ty) : Ty := with_children t (map (fun _ => Ty_Void) (children t)).

Lemma map_const_length {A B C} (x : C) (l1 : list A) (l2 : list B) : length l1 = length l2 ->
  map (fun _ => x) l1 = map (fun _ => x) l2.
Proof. revert l2. induction l1 as [|a l1 IH]; intros [|b l2] Hl; try done. cbn in *. f_equal. apply IH. lia. Qed.

Lemma bare_with_children t cs : length cs = length (children t) -> bare (with_children t cs) = bare t.
Proof.
  intros Hl. unfold bare. rewrite children_with_children by done.
  rewrite with_children_twice by (rewrite ?length_map; done). f_equal. by apply map_const_length.
Qed.

Lemma bare_function ps r c : bare (Ty_Function ps r c) = Ty_Function (map (fun _ => Ty_Void) ps) Ty_Void c.
Proof. unfold bare. cbn [children]. rewrite map_app. cbn [map]. apply with_children_function. Qed.

(** Compatibility of heads looks at the heads only. *)
Lemma leaf_ok_bare impls a b : leaf_ok impls a b = leaf_ok impls (bare a) (bare b).
Proof.
  destruct a; rewrite ?bare_function; destruct b; rewrite ?bare_function; reflexivity.
Qed.

Lemma erased_ok_bare a b : erased_ok a b = erased_ok (bare a) (bare b).
Proof.
  destruct a; rewrite ?bare_function; try reflexivity; destruct b; rewrite ?bare_function; try reflexivity;
    cbn; by rewrite ?length_map.
Qed.

Lemma heads_match_bare a b : heads_match a b = heads_match (bare a) (bare b).
Proof.
  destruct a; rewrite ?bare_function; try reflexivity; destruct b; rewrite ?bare_function; reflexivity.
Qed.

Section Stable.
Context (impls : gset (str * str)) (subst : gmap N Ty).

Lemma resolves_bare n t t' : is_var t = false -> resolves subst n t t' -> bare t' = bare t /\ is_var t' = false.
Proof.
  intros Hv H. inversion H as [? ?|? ? ? ? ? ?|? k cs _ Hl]; subst; [done..|].
  apply resolves_list_length in Hl. split; [by apply bare_with_children|by rewrite is_var_with_children].
Qed.

Lemma resolves_error n t : resolves subst n Ty_Error t -> t = Ty_Error.
Proof.
  intros H. inversion H as [? ?|? ? ? ? ? ?|? ? cs _ Hl]; subst. cbn in Hl. by inversion Hl.
Qed.

Lemma resolves_opaque n ps r c t :
  is_opaque ps r = true -> resolves subst n (Ty_Function ps r c) t -> t = Ty_Function ps r c.
Proof.
  intros Ho H. destruct ps as [|[] [|? ?]]; try done. destruct r; try done.
  inversion H as [? ?|? ? ? ? ? ?|? ? cs _ Hl]; subst. cbn [children app] in Hl.
  inversion Hl as [|? ? ? t1 ? ? H1 Hl1]; subst. inversion Hl1 as [|? ? ? t2 ? ? H2 Hl2]; subst.
  inversion Hl2; subst. apply resolves_error in H1 as ->. apply resolves_error in H2 as ->. done.
Qed.

(** Resolving sees no rows. *)
Lemma erased_inj_bare a b : with_caps_erased_to_unknown a = with_caps_erased_to_unknown b ->
  is_var a = is_var b /\ (is_var a = true -> a = b)
  /\ length (children a) = length (children b)
  /\ map with_caps_erased_to_unknown (children a) = map with_caps_erased_to_unknown (children b)
  /\ forall cs, length cs = length (children a) ->
       with_caps_erased_to_unknown (with_children a cs) = with_caps_erased_to_unknown (with_children b cs).
Proof.
  intros He. assert (Hc : map with_caps_erased_to_unknown (children a) = map with_caps_erased_to_unknown (children b))
    by (by rewrite <-!erased_children, He).
  assert (Hl : length (children a) = length (children b)) by (apply (f_equal length) in Hc; by rewrite !length_map in Hc).
  split; [|split; [|split; [done|split; [done|]]]].
  - destruct a, b; done.
  - intros Hv. destruct a; try done. destruct b; try done.
  - intros cs Hcs. rewrite !erased_with_children by congruence. by rewrite He.
Qed.

Lemma resolves_erased_mut :
  (forall n a ra, resolves subst n a ra -> forall m b rb,
     with_caps_erased_to_unknown a = with_caps_erased_to_unknown b -> resolves subst m b rb ->
     with_caps_erased_to_unknown ra = with_caps_erased_to_unknown rb)
  /\ (forall n l rl, resolves_list subst n l rl -> forall m k rk,
     map with_caps_erased_to_unknown l = map with_caps_erased_to_unknown k -> resolves_list subst m k rk ->
     map with_caps_erased_to_unknown rl = map with_caps_erased_to_unknown rk).
Proof.
  apply resolves_mut.
  - intros id Hn m b rb He Hb. destruct (erased_inj_bare _ _ He) as (_ & Hv & _). rewrite <-(Hv eq_refl) in Hb.
    inversion Hb; subst; [done|congruence|done].
  - intros id r n t Hs _ IH m b rb He Hb. destruct (erased_inj_bare _ _ He) as (_ & Hv & _). rewrite <-(Hv eq_refl) in Hb.
    inversion Hb as [|? r' ? ? Hs' Hr|]; subst; [congruence| |done]. rewrite Hs in Hs'. injection Hs' as <-. by eapply IH.
  - intros t n cs Hv Hl IH m b rb He Hb. destruct (erased_inj_bare _ _ He) as (Hvb & _ & Hlen & Hc & Hw).
    rewrite Hv in Hvb. inversion Hb as [? ?|? ? ? ? ? ?|? ? cs' _ Hl']; subst; [done..|].
    specialize (IH _ _ _ Hc Hl'). apply resolves_list_length in Hl, Hl'.
    rewrite Hw by done. rewrite !erased_with_children by congruence. by rewrite IH.
  - intros m k rk He Hk. destruct k; [|done]. by inversion Hk.
  - intros n m t t' l l' _ IH _ IHl k kk rk He Hk. destruct kk as [|t2 kk]; [done|]. cbn in He. injection He as He Hel.
    inversion Hk as [|? ? ? t2' ? rl ? ?]; subst. cbn. f_equal; [by eapply IH|by eapply IHl].
Qed.

(** Unfolding changes no resolved type. *)
Lemma unfolds_resolves_mut :
  (forall a a', unfolds subst a a' -> forall n ra, resolves subst n a ra -> exists m, resolves subst m a' ra)
  /\ (forall l l', unfolds_list subst l l' -> forall n rl, resolves_list subst n l rl -> exists m, resolves_list subst m l' rl).
Proof.
  apply unfolds_mut.
  - intros t n ra H. by exists n.
  - intros id t t' Hs _ IH n ra H. inversion H as [? Hn|? r k ? Hr Hrt|]; subst; [congruence| |done].
    rewrite Hs in Hr. injection Hr as <-. by eapply IH.
  - intros t cs Hv Hu IH n ra H. inversion H as [? ?|? ? ? ? ? ?|? k ds _ Hl]; subst; [done..|].
    destruct (IH _ _ Hl) as [m Hm]. pose proof (resolves_list_length _ _ _ _ Hl) as Ll.
    pose proof (resolves_list_length _ _ _ _ Hm) as Lm. exists (S m).
    rewrite <-(with_children_twice t cs ds) by congruence.
    apply resolves_node; [by rewrite is_var_with_children|]. by rewrite children_with_children by congruence.
  - intros n rl H. by exists n.
  - intros t t' l l' _ IH _ IHl n rl H. inversion H as [|? ? ? t2 ? l2 Ht Hl]; subst.
    destruct (IH _ _ Ht) as [m1 H1], (IHl _ _ Hl) as [m2 H2]. exists (m1 + m2). by constructor.
Qed.

Lemma resolves_unfolds_mut :
  (forall n a ra, resolves subst n a ra -> unfolds subst a ra)
  /\ (forall n l rl, resolves_list subst n l rl -> unfolds_list subst l rl).
Proof.
  apply resolves_mut; intros; [constructor|by eapply unfolds_var|by apply unfolds_node|constructor|by constructor].
Qed.

(** Types that agree under a substitution are compatible once it is applied. *)
Lemma agree_resolves_mut :
  (forall a b, agree impls subst a b -> forall n m ra rb,
     resolves subst n a ra -> resolves subst m b rb -> compatible impls ra rb)
  /\ (forall l k, agree_list impls subst l k -> forall n m rl rk,
     resolves_list subst n l rl -> resolves_list subst m k rk -> agree_list impls ∅ rl rk).
Proof.
  apply agree_mut.
  - intros a b He n m ra rb Ha Hb. apply agree_same. by eapply resolves_erased_mut.
  - intros a n m ra rb Ha _. apply resolves_error in Ha as ->. apply agree_error.
  - intros a a' b Hu _ IH n m ra rb Ha Hb. destruct (proj1 unfolds_resolves_mut _ _ Hu _ _ Ha) as [k Hk]. by eapply IH.
  - intros a b Ho n m ra rb Ha Hb. destruct a; try done. destruct b; try done. cbn in Ho.
    apply agree_opaque. apply orb_true_iff in Ho as [Ho|Ho].
    + pose proof (resolves_opaque _ _ _ _ _ Ho Ha) as ->. destruct (resolves_bare _ _ _ (eq_refl : is_var (Ty_Function _ _ _) = false) Hb) as [Hb' _].
      rewrite bare_function in Hb'. destruct rb; try done. cbn. by rewrite Ho.
    + pose proof (resolves_opaque _ _ _ _ _ Ho Hb) as ->. destruct (resolves_bare _ _ _ (eq_refl : is_var (Ty_Function _ _ _) = false) Ha) as [Ha' _].
      rewrite bare_function in Ha'. destruct ra; try done. cbn. by rewrite Ho, orb_true_r.
  - intros a b Hva Hvb Ho n m ra rb Ha Hb. destruct (resolves_bare _ _ _ Hva Ha) as [Ba Va], (resolves_bare _ _ _ Hvb Hb) as [Bb Vb].
    apply agree_leaf; [done|done|]. by rewrite leaf_ok_bare, erased_ok_bare, Ba, Bb, <-leaf_ok_bare, <-erased_ok_bare.
  - intros a b Hh _ IH n m ra rb Ha Hb.
    assert (Hva : is_var a = false) by (by destruct a). assert (Hvb : is_var b = false) by (by destruct a, b).
    destruct (resolves_bare _ _ _ Hva Ha) as [Ba _], (resolves_bare _ _ _ Hvb Hb) as [Bb _].
    apply agree_kids; [by rewrite heads_match_bare, Ba, Bb, <-heads_match_bare|].
    inversion Ha as [? ?|? ? ? ? ? ?|? ? cs _ Hl]; subst; [done..|].
    inversion Hb as [? ?|? ? ? ? ? ?|? ? ds _ Hk]; subst; [done..|].
    rewrite !children_with_children by (by eapply resolves_list_length). by eapply IH.
  - intros a b _ IH n m ra rb Ha Hb. apply agree_sym. by eapply IH.
  - intros n m rl rk Hl Hk. inversion Hl; inversion Hk; subst. constructor.
  - intros a b l k _ IH _ IHl n m rl rk Hl Hk. inversion Hl; inversion Hk; subst. constructor; [by eapply IH|by eapply IHl].
Qed.

(** It is enough that the resolved types agree, under a later substitution. *)
Lemma agree_of_resolved subst' a b ra rb : subst ⊆ subst' -> resolve subst a = Done ra -> resolve subst b = Done rb ->
  agree impls subst' ra rb -> agree impls subst' a b.
Proof.
  intros Hs (n & Ha & _)%resolve_spec (m & Hb & _)%resolve_spec H.
  apply resolves_unfolds_mut in Ha, Hb. apply (proj1 (unfolds_mono_mut _ _ Hs)) in Ha, Hb.
  eapply agree_unfold; [apply Ha|]. apply agree_sym. eapply agree_unfold; [apply Hb|]. by apply agree_sym.
Qed.

Lemma agree_resolve a b ra rb : agree impls subst a b -> resolve subst a = Done ra -> resolve subst b = Done rb ->
  compatible impls ra rb.
Proof.
  intros Hab (n & Ha & _)%resolve_spec (m & Hb & _)%resolve_spec. by eapply agree_resolves_mut.
Qed.
End Stable.

(* ------------------------------------------------------------------ *)
(** ** The invariant                                                   *)
(* ------------------------------------------------------------------ *)

Definition mentions (subst : gmap N Ty) (x y : N) : Prop := exists t, subst !! x = Some t /\ var_in y t.

Definition known (e : InferenceEngine) (t : Ty) : Prop :=
  ty_below (next_cap_var e) t /\ forall id, var_in id t -> (id < next_var e)%N.

Record types_wf (e : InferenceEngine) : Prop := {
  tw_engine : engine_wf e;
  tw_known : forall id t, substitutions e !! id = Some t -> (id < next_var e)%N /\ known e t;
  tw_acyclic : forall id, ~ tc (mentions (substitutions e)) id id
}.

Lemma new_engine_types_wf : types_wf new_engine.
Proof.
  split; [apply new_engine_wf|intros id t; cbn; by rewrite lookup_empty|].
  intros id H. assert (Hno : forall x y, ~ mentions (substitutions new_engine) x y)
    by (intros x y (t & Ht & _); cbn in Ht; by rewrite lookup_empty in Ht).
  inversion H; by eapply Hno.
Qed.

(** Binding an unbound variable to a resolved type that does not mention it. *)
Lemma acyclic_insert (subst : gmap N Ty) id t :
  (forall x, ~ tc (mentions subst) x x) -> subst !! id = None ->
  (forall j, var_in j t -> subst !! j = None /\ j <> id) ->
  forall x, ~ tc (mentions (<[id := t]> subst)) x x.
Proof.
  intros Hac Hid Ht.
  (* the targets of the new variable mention nothing *)
  assert (Hend : forall j y, var_in j t -> ~ mentions (<[id := t]> subst) j y).
  { intros j y Hj (u & Hu & _). destruct (Ht j Hj) as [Hn Hne]. rewrite lookup_insert_ne in Hu by done. congruence. }
  assert (Hid_end : forall y, tc (mentions (<[id := t]> subst)) id y -> var_in y t).
  { intros y Hy. inversion Hy as [? ? H1|? z ? H1 H2]; subst; destruct H1 as (u & Hu & Hz);
      rewrite lookup_insert_eq in Hu; injection Hu as <-; [done|].
    inversion H2 as [? ? H3|? ? ? H3 _]; subst; by apply Hend in H3. }
  (* a path is one of before, or it meets the new variable *)
  assert (Hpath : forall x y, tc (mentions (<[id := t]> subst)) x y ->
    tc (mentions subst) x y \/ x = id \/ tc (mentions (<[id := t]> subst)) id y \/ y = id).
  { intros x y H. induction H as [x y (u & Hu & Hy)|x y z (u & Hu & Hy) H IH].
    - destruct (decide (x = id)) as [->|Hne]; [by right; left|]. rewrite lookup_insert_ne in Hu by done.
      left. apply tc_once. by exists u.
    - destruct (decide (x = id)) as [->|Hne]; [by right; left|]. rewrite lookup_insert_ne in Hu by done.
      destruct IH as [?|[->|[?|?]]]; [|by right; right; left|by right; right; left|by right; right; right].
      left. eapply tc_l; [by exists u|done]. }
  assert (Hidc : ~ tc (mentions (<[id := t]> subst)) id id).
  { intros H%Hid_end. by destruct (Ht id H). }
  intros x Hx. destruct (Hpath x x Hx) as [H|[->|[H| ->]]]; [by eapply Hac|done| |done].
  pose proof (Hid_end x H) as Hxt. inversion Hx as [? ? H3|? ? ? H3 _]; subst; by apply Hend in H3.
Qed.

(** What unification may change. *)
Record ty_step (e e' : InferenceEngine) : Prop := {
  ts_subst : substitutions e ⊆ substitutions e';
  ts_next : next_var e' = next_var e;
  ts_caps : (next_cap_var e <= next_cap_var e')%N;
  ts_impls : trait_impls e' = trait_impls e
}.

#[export] Instance ty_step_preorder : PreOrder ty_step.
Proof.
  split; [intros e; split; done|]. intros e1 e2 e3 [S1 N1 C1 I1] [S2 N2 C2 I2].
  split; [by etrans|congruence|lia|congruence].
Qed.

Lemma known_step e e' t : ty_step e e' -> known e t -> known e' t.
Proof.
  intros [_ Hn Hc _] [Hb Hv]. split; [by eapply ty_below_mono|]. intros id Hid. rewrite Hn. by apply Hv.
Qed.

Lemma known_child e t c : known e t -> c ∈ children t -> known e c.
Proof.
  intros [Hb Hv] Hc. split; [by apply (proj1 (ty_below_step _ t) Hb)|]. intros id Hid. apply Hv. by eapply subterm_child.
Qed.

Lemma resolves_known_mut e : types_wf e ->
  (forall n t t', resolves (substitutions e) n t t' -> known e t -> known e t')
  /\ (forall n l l', resolves_list (substitutions e) n l l' ->
       (forall t, t ∈ l -> known e t) -> forall t, t ∈ l' -> known e t).
Proof.
  intros W. apply resolves_mut.
  - done.
  - intros id r n t Hs _ IH _. by apply IH, (tw_known e W id).
  - intros t n cs Hv Hl IH Hk. apply resolves_list_length in Hl as Hlen. split.
    + apply ty_below_step. rewrite own_rows_with_children, children_with_children by done. split.
      * apply (proj1 (ty_below_step _ t) (proj1 Hk)).
      * intros c Hc. apply IH; [|done]. intros x Hx. by eapply known_child.
    + intros id Hid. rewrite var_in_node in Hid by by rewrite is_var_with_children.
      destruct Hid as (c & Hc & Hid). rewrite children_with_children in Hc by done.
      apply (IH ltac:(intros x Hx; by eapply known_child) c Hc). done.
  - intros _ t Ht. by apply elem_of_nil in Ht.
  - intros n m t t' l l' _ IH _ IHl Hk x [->|Hx]%elem_of_cons; [apply IH, Hk; by left|].
    apply IHl; [|done]. intros y Hy. apply Hk. by right.
Qed.

Lemma resolve_known e t t' : types_wf e -> known e t -> resolve (substitutions e) t = Done t' -> known e t'.
Proof. intros W Hk (n & Hr & _)%resolve_spec. by eapply (proj1 (resolves_known_mut e W)). Qed.
