(* ===== verification/InferUnify.v ===== *)
(** The proof that [unify] ends and is sound (see [InferSound] for agreement and
    the invariant), and the defaulting of variables. *)

From stdpp Require Import relations.
From S2P Require Import Prelude Machine Text Token Capability CapRow CapCycles Ty CapVars CapSolve CapFlow CapOps Infer InferResolve InferSound.

#[local] Open Scope nat_scope.

Definition e_agree (e : InferenceEngine) : Ty -> Ty -> Prop := agree (trait_impls e) (substitutions e).

Lemma e_agree_step e e' a b : ty_step e e' -> e_agree e a b -> e_agree e' a b.
Proof. intros S H. unfold e_agree. rewrite (ts_impls _ _ S). by eapply agree_types_mono; [apply S|]. Qed.

(** A call aborts, for the reason [B], or returns in a good state; with no
    diagnostic, [Q] holds. *)
Definition outcome (B : Prop) (e : InferenceEngine) (Q : InferenceEngine -> Prop) (m : unify_res) : Prop :=
  (m = Panic /\ B) \/ exists d e', m = Done (d, e') /\ types_wf e' /\ ty_step e e' /\ (d = None -> Q e').

Section Outcome.
Context (B : Prop).

Lemma outcome_ok e (Q : InferenceEngine -> Prop) : types_wf e -> Q e -> outcome B e Q (ok e).
Proof. intros W HQ. right. by exists None, e. Qed.

Lemma outcome_err e (Q : InferenceEngine -> Prop) d : types_wf e -> outcome B e Q (err d e).
Proof. intros W. right. by exists (Some d), e. Qed.

Lemma outcome_mono e (Q Q' : InferenceEngine -> Prop) m : outcome B e Q m ->
  (forall e', m = Done (None, e') -> ty_step e e' -> Q e' -> Q' e') -> outcome B e Q' m.
Proof.
  intros [[-> HB]|(d & e' & -> & W & S & HQ)] Hi; [by left|]. right. exists d, e'. split_and!; try done.
  intros ->. apply Hi; [done|done|by apply HQ].
Qed.

Lemma outcome_then e (Q Q' : InferenceEngine -> Prop) m k :
  outcome B e Q m -> (forall e', types_wf e' -> ty_step e e' -> Q e' -> outcome B e' Q' (k e')) ->
  outcome B e Q' (and_then m k).
Proof.
  intros [[-> HB]|(d & e1 & -> & W1 & S1 & HQ)] Hk; [by left|]. unfold and_then. cbn [mbind res_bind].
  destruct d as [d|]; [right; by exists (Some d), e1|].
  destruct (Hk e1 W1 S1 (HQ eq_refl)) as [[-> HB]|(d & e2 & -> & W2 & S2 & HQ2)]; [by left|].
  right. exists d, e2. split; [done|]. split; [done|]. split; [by etrans|done].
Qed.
End Outcome.

Lemma outcome_blame (B B' : Prop) e Q m : (B -> B') -> outcome B e Q m -> outcome B' e Q m.
Proof. intros HB [[-> ?]|H]; [left; auto|by right]. Qed.

(* ------------------------------------------------------------------ *)
(** ** The shape of the match                                          *)
(* ------------------------------------------------------------------ *)

Lemma and_then_ok m : and_then m ok = m.
Proof. unfold and_then. by destruct m as [[[d|] e]| |]. Qed.

Lemma and_then_ext m k1 k2 : (forall e, k1 e = k2 e) -> and_then m k1 = and_then m k2.
Proof. intros Hk. unfold and_then. destruct m as [[[d|] e]| |]; cbn; auto. Qed.

Lemma unify_pairs_one rec t1 t2 e : unify_pairs rec [t1] [t2] e = rec e t1 t2.
Proof. cbn [unify_pairs]. apply and_then_ok. Qed.

Lemma unify_pairs_two rec a1 a2 b1 b2 e :
  unify_pairs rec [a1; b1] [a2; b2] e = and_then (rec e a1 a2) (fun e => rec e b1 b2).
Proof. cbn [unify_pairs]. apply and_then_ext. intros e'. apply and_then_ok. Qed.

Definition pairs_case rec e a b (m : unify_res) : Prop :=
  heads_match a b = true /\ length (children a) = length (children b)
  /\ m = unify_pairs rec (children a) (children b) e.

Definition is_function (t : Ty) : bool := match t with Ty_Function _ _ _ => true | _ => false end.

(** The arms of [unify_resolved] that are not about variables or functions. *)
Lemma unify_resolved_cases hash_order rec e a b :
  is_var a = false -> is_var b = false -> is_function a && is_function b = false ->
  is_error a || is_error b = false -> a <> b ->
  let m := unify_resolved hash_order rec e a b in
  pairs_case rec e a b m \/ pairs_case rec e b a m
  \/ (m = ok e /\ (erased_ok a b = true \/ erased_ok b a = true))
  \/ m = unify_leaf e a b
  \/ (exists d, m = err d e).
Proof.
  intros Hva Hvb Hf He Hne. unfold unify_resolved. rewrite He, (bool_decide_false _ Hne). cbv zeta. unfold pairs_case.
  assert (Hleaf : forall m, m = unify_leaf e a b ->
    pairs_case rec e a b m \/ pairs_case rec e b a m
    \/ (m = ok e /\ (erased_ok a b = true \/ erased_ok b a = true)) \/ m = unify_leaf e a b \/ (exists d, m = err d e))
    by auto.
  unfold pairs_case in Hleaf.
  destruct a; try discriminate Hva; clear Hva; destruct b; try discriminate Hvb; try discriminate Hf; try (apply Hleaf; reflexivity).
  - left. split; [done|]. split; [done|]. symmetry. apply unify_pairs_one.
  - destruct (Nat.eqb_spec (length elements) (length elements0)) as [Hl|]; cbn [negb]; [|by do 4 right; eexists].
    by left.
  - left. split; [done|]. split; [done|]. symmetry. apply unify_pairs_two.
  - left. split; [done|]. split; [done|]. symmetry. apply unify_pairs_one.
  - left. split; [done|]. split; [done|]. symmetry. apply unify_pairs_one.
  - destruct (bool_decide (name = option_name)) eqn:Hn; [|by apply Hleaf].
    destruct generics as [|g [|g2 gs]]; [by do 2 right; left; split; [|left; unfold erased_ok; rewrite Hn]| |
      by do 2 right; left; split; [|left; unfold erased_ok; rewrite Hn]].
    left. split; [exact Hn|]. split; [done|]. symmetry. apply unify_pairs_one.
  - left. split; [done|]. split; [done|]. symmetry. apply unify_pairs_two.
  - destruct (bool_decide (name = result_name)) eqn:Hn; [|by apply Hleaf].
    destruct generics as [|g [|g2 [|g3 gs]]]; try by do 2 right; left; split; [|left; unfold erased_ok; rewrite Hn].
    left. split; [exact Hn|]. split; [done|]. symmetry. apply unify_pairs_two.
  - destruct (bool_decide (name = name0)) eqn:Hn; [|by apply Hleaf].
    destruct (Nat.eqb_spec (length generics) (length generics0)) as [Hl|]; [|by apply Hleaf]. by left.
  - destruct (bool_decide (name = option_name)) eqn:Hn; [|by apply Hleaf].
    destruct generics as [|g [|g2 gs]]; [by do 2 right; left; split; [|right; unfold erased_ok; rewrite Hn]| |
      by do 2 right; left; split; [|right; unfold erased_ok; rewrite Hn]].
    right. left. split; [exact Hn|]. split; [done|]. symmetry. apply unify_pairs_one.
  - destruct (bool_decide (name = result_name)) eqn:Hn; [|by apply Hleaf].
    destruct generics as [|g [|g2 [|g3 gs]]]; try by do 2 right; left; split; [|right; unfold erased_ok; rewrite Hn].
    right. left. split; [exact Hn|]. split; [done|]. symmetry. apply unify_pairs_two.
  - destruct (bool_decide (name = name0) && _ && _ && _) eqn:Her.
    { do 2 right. left. split; [done|]. left. exact Her. }
    destruct (bool_decide (name = name0)) eqn:Hn; [|by apply Hleaf].
    destruct (Nat.eqb_spec (length generics) (length generics0)) as [Hl|]; [|by apply Hleaf]. by left.
  - destruct (bool_decide (mutable = mutable0)) eqn:Hm; [|by apply Hleaf].
    left. split; [exact Hm|]. split; [done|]. symmetry. apply unify_pairs_one.
  - left. split; [done|]. split; [done|]. symmetry. apply unify_pairs_one.
  - left. split; [done|]. split; [done|]. symmetry. apply unify_pairs_one.
  - destruct (bool_decide (mutable = mutable0)) eqn:Hm; [|by apply Hleaf].
    left. split; [exact Hm|]. split; [done|]. symmetry. apply unify_pairs_one.
Qed.

Lemma unify_leaf_spec e a b :
  unify_leaf e a b = if leaf_ok (trait_impls e) a b then ok e else err (match a, b with
    | Ty_Struct sname _, Ty_DynTrait trait_name | Ty_DynTrait trait_name, Ty_Struct sname _ => D_MissingImpl trait_name sname
    | _, _ => D_Mismatch a b end) e.
Proof. destruct a; try reflexivity; destruct b; reflexivity. Qed.

(* ------------------------------------------------------------------ *)
(** ** Binding a variable                                              *)
(* ------------------------------------------------------------------ *)

Lemma var_in_erased id t : var_in id (with_caps_erased_to_unknown t) <-> var_in id t.
Proof.
  induction t as [t IH] using ty_children_ind. destruct (is_var t) eqn:Hv; [by destruct t|].
  rewrite !var_in_node by (by destruct t). rewrite erased_children. split.
  - intros (c & (c' & -> & Hc')%list_elem_of_fmap & Hid). exists c'. split; [done|]. by apply IH.
  - intros (c & Hc & Hid). exists (with_caps_erased_to_unknown c).
    split; [by apply list_elem_of_fmap_2|]. by apply IH.
Qed.

Lemma check_var_bounds_ok e id t e' : types_wf e -> check_var_bounds e id t = inr e' ->
  types_wf e' /\ ty_step e e' /\ substitutions e' = substitutions e.
Proof.
  intros W H. assert (Hcase : e' = e \/ exists bs, e' = set_var_bounds bs e).
  { revert H. unfold check_var_bounds. destruct (var_bounds e !! id) as [bs|]; [|intros [= <-]; by left].
    destruct t; try (intros [= <-]; by left); try (destruct (List.find _ _); [done|intros [= <-]; by left]).
    intros [= <-]. right. by eexists. }
  destruct Hcase as [->|[bs ->]]; [done|]. destruct W as [[[C1 C2 C3] WS WD WL WE] K A].
  split; [|by split]. split; [by split|done|done].
Qed.

Lemma bind_var_ok B e id t : types_wf e -> known e t -> full (substitutions e) t ->
  ty_size t <= MAX_RESOLVE_NODES -> substitutions e !! id = None -> (id < next_var e)%N -> t <> Ty_Var id ->
  outcome B e (fun e' => e_agree e' (Ty_Var id) t) (bind_var e id t).
Proof.
  intros W K Hf Hs Hid Hlt Hne. unfold bind_var.
  destruct (occurs_in_full (substitutions e) (S MAX_RESOLVE_NODES) id t Hf Hs ltac:(lia)) as (b & -> & Hb).
  cbn [mbind res_bind]. destruct b; [by apply outcome_err|].
  assert (Hno : ~ var_in id t) by (intros H; by apply Hb in H).
  destruct (check_var_bounds e id t) as [d|e1] eqn:Hc; [by apply outcome_err|].
  destruct (check_var_bounds_ok e id t e1 W Hc) as (W1 & S1 & E1).
  pose proof (known_step _ _ _ S1 K) as K1.
  destruct (generalize_rows_ok true t e1 (tw_engine e1 W1) (proj1 K1)) as (t' & e2 & -> & W2 & G & [He Hb2]).
  cbn [mbind res_bind]. destruct (gs_types _ _ G) as (T & V & I & _). rewrite T, E1.
  assert (Hv : forall j, var_in j t' <-> var_in j t) by (intros j; by rewrite <-var_in_erased, He, var_in_erased).
  right. eexists None, _. split; [reflexivity|]. set (e3 := set_substitutions _ e2).
  assert (Hsub : substitutions e ⊆ <[id := t']> (substitutions e)) by (by apply insert_subseteq).
  assert (S3 : ty_step e e3).
  { split; [done|..]; cbn; [by rewrite V, (ts_next _ _ S1)| |by rewrite I, (ts_impls _ _ S1)].
    pose proof (gs_next _ _ G). pose proof (ts_caps _ _ S1). lia. }
  split; [|split; [done|]].
  - split.
    + destruct W2 as [[C1 C2 C3] WS WD WL WE]. split; [by split|done..].
    + intros j u. cbn. destruct (decide (j = id)) as [->|Hj].
      * rewrite lookup_insert_eq. intros [= <-]. split; [by rewrite V, (ts_next _ _ S1)|]. split; [done|].
        intros k Hk%Hv. cbn. rewrite V, (ts_next _ _ S1). by apply (proj2 K).
      * rewrite lookup_insert_ne by done. intros Hu. destruct (tw_known e W j u Hu) as [? Ku].
        split; [by rewrite V, (ts_next _ _ S1)|]. by apply (known_step e e3).
    + cbn. apply acyclic_insert; [apply W|done|]. intros j Hj%Hv. split; [by apply Hf|by intros ->].
  - intros _. unfold e_agree. cbn. eapply agree_unfold; [eapply unfolds_var; [by apply lookup_insert_eq|constructor]|]. by apply agree_same.
Qed.

(* ------------------------------------------------------------------ *)
(** ** The recursive calls                                             *)
(* ------------------------------------------------------------------ *)

Section Step.
Context (hash_order : gset CapVarId -> list CapVarId).
Context (Hhash : forall X, Permutation (hash_order X) (elements X)).
Context (rec : InferenceEngine -> Ty -> Ty -> unify_res) (B : Prop) (e0 : InferenceEngine).
(** [K]: the calls that may be made; [Met]: the states they are made in. *)
Context (K : Ty -> Ty -> Prop) (Met : InferenceEngine -> Prop).
Context (Met_flip : forall b e, Met e -> Met (set_contravariant b e)).
Context (Met_call : forall e c d e', Met e -> K c d -> rec e c d = Done (None, e') -> Met e').
Context (Hrec : forall e c d, ty_step e0 e -> types_wf e -> Met e -> K c d ->
  outcome B e (fun e' => e_agree e' c d) (rec e c d)).

Lemma rec_ok e c d : ty_step e0 e -> types_wf e -> Met e -> K c d ->
  outcome B e (fun e' => e_agree e' c d /\ Met e') (rec e c d).
Proof.
  intros S W HA HK. eapply outcome_mono; [by apply Hrec|]. intros e' Hm _ Hag. split; [done|by eapply Met_call].
Qed.

Lemma unify_pairs_ok l1 l2 e : ty_step e0 e -> types_wf e -> Met e -> length l1 = length l2 ->
  (forall i c d, l1 !! i = Some c -> l2 !! i = Some d -> K c d) ->
  outcome B e (fun e' => agree_list (trait_impls e') (substitutions e') l1 l2 /\ Met e') (unify_pairs rec l1 l2 e).
Proof.
  revert l2 e. induction l1 as [|c l1 IH]; intros [|d l2] e S W HA Hl HK; try done.
  { apply outcome_ok; [done|split; [constructor|done]]. }
  cbn [unify_pairs]. eapply outcome_then; [apply rec_ok; [done|done|done|by apply (HK 0)]|].
  intros e1 W1 S1 [Hcd HA1]. cbn beta in Hcd.
  eapply outcome_mono; [apply (IH l2 e1); [by etrans|done|done|cbn in Hl; lia|exact (fun i => HK (Datatypes.S i))]|].
  intros e2 _ S2 [Hl2 HA2]. cbn beta. split; [|done]. constructor; [by apply (e_agree_step e1)|done].
Qed.

Lemma set_contravariant_wf b e : types_wf e -> types_wf (set_contravariant b e) /\ ty_step e (set_contravariant b e).
Proof.
  intros [[[C1 C2 C3] WS WD WL WE] Kn A]. split; [|by split]. split; [by split|done|done].
Qed.

Lemma unify_rows_types e c1 c2 : types_wf e -> row_below (next_cap_var e) c1 -> row_below (next_cap_var e) c2 ->
  exists e', unify_rows hash_order e c1 c2 = Done e' /\ types_wf e' /\ ty_step e e' /\ substitutions e' = substitutions e.
Proof.
  intros W B1 B2. destruct (unify_rows_ok hash_order Hhash e c1 c2 (tw_engine e W) B1 B2) as (e' & He & W' & S & _).
  exists e'. split; [done|]. destruct (gs_types _ _ (row_grow_step _ _ S)) as (T & V & I & _).
  assert (S' : ty_step e e') by (split; [by rewrite T|done|by rewrite (step_next _ _ S)|done]).
  split; [|by split]. split; [done| |by rewrite T; apply W]. intros id t. rewrite T, V. intros Ht.
  destruct (tw_known e W id t Ht). split; [done|]. by apply (known_step e e').
Qed.

Lemma unify_function_ok e p1 r1 c1 p2 r2 c2 : ty_step e0 e -> types_wf e -> Met e ->
  known e (Ty_Function p1 r1 c1) -> known e (Ty_Function p2 r2 c2) ->
  (forall i c d, (p1 ++ [r1]) !! i = Some c -> (p2 ++ [r2]) !! i = Some d -> K c d) ->
  outcome B e (fun e' => e_agree e' (Ty_Function p1 r1 c1) (Ty_Function p2 r2 c2))
    (unify_function hash_order rec e p1 r1 c1 p2 r2 c2).
Proof.
  intros S W HA K1 K2 HK. unfold unify_function.
  destruct (is_opaque p1 r1 || is_opaque p2 r2) eqn:Ho.
  { apply outcome_ok; [done|]. by apply agree_opaque. }
  destruct (Nat.eqb_spec (length p1) (length p2)) as [Hl|]; cbn [negb]; [|by apply outcome_err].
  destruct (set_contravariant_wf (negb (contravariant e)) e W) as [W' S'].
  set (e' := set_contravariant _ e) in *.
  assert (HKp : forall i c d, p1 !! i = Some c -> p2 !! i = Some d -> K c d).
  { intros i c d Hc Hd. by apply (HK i); apply lookup_app_l_Some. }
  assert (HKr : K r1 r2).
  { apply (HK (length p1)); [|rewrite Hl]; by rewrite lookup_app_r, Nat.sub_diag. }
  destruct (unify_pairs_ok p1 p2 e') as [[-> HB]|(d & e1 & -> & W1 & S1 & Hp)];
    [by etrans|done|by apply Met_flip|done|done|by left|].
  cbn [mbind res_bind]. destruct (set_contravariant_wf (contravariant e) e1 W1) as [W1' S1'].
  assert (S01 : ty_step e (set_contravariant (contravariant e) e1)) by (do 2 (etrans; [done|]); done).
  destruct d as [d|]; [right; by eexists (Some d), _|]. destruct (Hp eq_refl) as [Hp' HA1]. clear Hp.
  match goal with |- outcome B e ?Q ?m => assert (Hout : outcome B (set_contravariant (contravariant e) e1) Q m) end.
  { eapply outcome_then.
    - apply Hrec; [by etrans|done|by apply Met_flip|done].
    - intros e2 W2 S2 Hr. cbn beta in Hr.
      assert (S02 : ty_step e e2) by by etrans.
      assert (B1 : row_below (next_cap_var e2) c1)
        by (eapply (known_step _ _ _ S02 K1); [constructor|by left]).
      assert (B2 : row_below (next_cap_var e2) c2)
        by (eapply (known_step _ _ _ S02 K2); [constructor|by left]).
      assert (Hrows : exists e3, (if contravariant e then unify_rows hash_order e2 c2 c1 else unify_rows hash_order e2 c1 c2) = Done e3
        /\ types_wf e3 /\ ty_step e2 e3 /\ substitutions e3 = substitutions e2)
        by (destruct (contravariant e); by apply unify_rows_types).
      destruct Hrows as (e3 & -> & W3 & S3 & _). cbn [mbind res_bind]. right. exists None, e3.
      split; [done|]. split; [done|]. split; [done|]. intros _. apply agree_kids; [done|]. cbn [children].
      apply agree_list_app.
      + assert (S13 : ty_step e1 e3) by (etrans; [apply S1'|]; by etrans). rewrite (ts_impls _ _ S13).
        eapply agree_list_mono; [apply S13|done].
      + constructor; [|constructor]. by apply (e_agree_step e2). }
  destruct Hout as [[-> HB]|(d & e3 & -> & ? & ? & ?)]; [by left|right]. exists d, e3. split_and!; try done. by etrans.
Qed.

Lemma unify_resolved_ok e a b : ty_step e0 e -> types_wf e -> Met e -> known e a -> known e b ->
  full (substitutions e) a -> full (substitutions e) b -> ty_size a <= MAX_RESOLVE_NODES -> ty_size b <= MAX_RESOLVE_NODES ->
  (forall i c d, children a !! i = Some c -> children b !! i = Some d -> K c d /\ K d c) ->
  outcome B e (fun e' => e_agree e' a b) (unify_resolved hash_order rec e a b).
Proof.
  intros S W HA Ka Kb Fa Fb Sa Sb HK.
  destruct (is_error a || is_error b) eqn:He.
  { unfold unify_resolved. rewrite He. apply outcome_ok; [done|].
    apply orb_true_iff in He as [He|He]; [|apply agree_sym]; [destruct a|destruct b]; try done; apply agree_error. }
  destruct (decide (a = b)) as [->|Hne].
  { unfold unify_resolved. rewrite He, bool_decide_true by done. apply outcome_ok; [done|]. by apply agree_same. }
  destruct (is_var a) eqn:Hva.
  { destruct a; try done. unfold unify_resolved. rewrite He, bool_decide_false by done.
    apply bind_var_ok; try done; [by apply Fa, var_in_var|by apply (proj2 Ka), var_in_var]. }
  destruct (is_var b) eqn:Hvb.
  { destruct b; try done. assert (Hm : unify_resolved hash_order rec e a (Ty_Var id) = bind_var e id a).
    { unfold unify_resolved. rewrite He, bool_decide_false by done. by destruct a. }
    rewrite Hm. eapply outcome_mono; [apply bind_var_ok; try done; [by apply Fb, var_in_var|by apply (proj2 Kb), var_in_var]|].
    intros e' _ _ H. by apply agree_sym. }
  destruct (is_function a && is_function b) eqn:Hfn.
  { destruct a; try done. destruct b; try done. unfold unify_resolved. rewrite He, bool_decide_false by done.
    apply unify_function_ok; try done. intros i c d Hc Hd. by destruct (HK i c d Hc Hd). }
  destruct (unify_resolved_cases hash_order rec e a b Hva Hvb Hfn He Hne)
    as [(Hh & Hl & ->)|[(Hh & Hl & ->)|[(-> & Her)|[->|[d ->]]]]].
  - eapply outcome_mono; [apply unify_pairs_ok; try done; intros i c d Hc Hd; by destruct (HK i c d Hc Hd)|].
    intros e' _ _ [Hc _]. by apply agree_kids.
  - eapply outcome_mono; [apply unify_pairs_ok; try done; intros i c d Hc Hd; by destruct (HK i d c Hd Hc)|].
    intros e' _ _ [Hc _]. apply agree_sym. by apply agree_kids.
  - apply outcome_ok; [done|]. destruct Her as [Her|Her]; [|apply agree_sym]; apply agree_leaf; try done; by rewrite Her, orb_true_r.
  - rewrite unify_leaf_spec. destruct (leaf_ok _ a b) eqn:Hlf; [|by apply outcome_err].
    apply outcome_ok; [done|]. apply agree_leaf; [done|done|]. by rewrite Hlf.
  - by apply outcome_err.
Qed.
End Step.

(* ------------------------------------------------------------------ *)
(** ** Termination                                                     *)
(* ------------------------------------------------------------------ *)

(** The variables that are still unbound, and the size of a type once resolved. *)
Definition unbound (e : InferenceEngine) : nat := N.to_nat (next_var e) - size (dom (substitutions e)).
Definition rsize (e : InferenceEngine) (t : Ty) : nat :=
  match resolve (substitutions e) t with Done t' => ty_size t' | _ => 0 end.
Definition unify_cost (e : InferenceEngine) (a b : Ty) : nat :=
  unbound e * S MAX_RESOLVE_NODES + Nat.max (rsize e a) (rsize e b).

(** A fuel that is enough for every two types. *)
Definition unify_fuel (e : InferenceEngine) : nat := S (S (N.to_nat (next_var e)) * S MAX_RESOLVE_NODES).

Lemma rsize_max e t : rsize e t <= MAX_RESOLVE_NODES.
Proof.
  unfold rsize. destruct (resolve _ t) as [t'| |] eqn:Hr; [|lia|lia]. by apply resolve_Done in Hr as [_ ?].
Qed.

Lemma rsize_Done e t t' : resolve (substitutions e) t = Done t' -> rsize e t = ty_size t'.
Proof. unfold rsize. by intros ->. Qed.

Lemma dom_below e : types_wf e -> size (dom (substitutions e)) <= N.to_nat (next_var e).
Proof. intros W. apply size_below. intros id [t Ht]%elem_of_dom. by destruct (tw_known e W id t Ht). Qed.

(** A step binds nothing, or leaves fewer variables unbound. *)
Lemma unbound_step e e' : types_wf e' -> ty_step e e' ->
  substitutions e' = substitutions e \/ unbound e' < unbound e.
Proof.
  intros W' S. destruct (decide (substitutions e' = substitutions e)) as [|Hne]; [by left|right].
  pose proof (ts_subst _ _ S) as Hsub. pose proof (dom_below e' W') as Hmax. unfold unbound. rewrite (ts_next _ _ S) in *.
  assert (Hlt : size (dom (substitutions e)) < size (dom (substitutions e'))); [|lia].
  apply subset_size. split; [by apply subseteq_dom|]. intros Hdom. apply Hne. apply map_eq. intros id.
  destruct (substitutions e !! id) as [t|] eqn:Ht; [by eapply lookup_weaken|].
  apply not_elem_of_dom. intros Hin%Hdom. by apply not_elem_of_dom in Ht.
Qed.

Lemma cost_drop M u u' s s' fuel : u' < u -> s' < M -> u * M + s < S fuel -> u' * M + s' < fuel.
Proof. intros Hu Hs Hc. nia. Qed.

Lemma rsize_full e t : full (substitutions e) t -> ty_size t <= MAX_RESOLVE_NODES -> rsize e t = ty_size t.
Proof. intros Hf Hs. apply rsize_Done. by apply resolve_full. Qed.

(** A call on sub-types of resolved types costs less, whatever was bound before it. *)
Lemma unify_cost_drop e e1 ra rb c d fuel :
  types_wf e1 -> ty_step e e1 -> full (substitutions e) c -> full (substitutions e) d ->
  ty_size c < Nat.max (ty_size ra) (ty_size rb) -> ty_size d < Nat.max (ty_size ra) (ty_size rb) ->
  Nat.max (ty_size ra) (ty_size rb) <= MAX_RESOLVE_NODES ->
  unbound e * S MAX_RESOLVE_NODES + Nat.max (ty_size ra) (ty_size rb) < S fuel -> unify_cost e1 c d < fuel.
Proof.
  intros W1 S1 Fc Fd Sc Sd Smax Hc. unfold unify_cost. destruct (unbound_step e e1 W1 S1) as [Heq|Hlt].
  - rewrite <-Heq in Fc, Fd. rewrite (rsize_full e1 c), (rsize_full e1 d) by (done || lia).
    assert (Hu : unbound e1 = unbound e) by (unfold unbound; by rewrite Heq, (ts_next _ _ S1)). rewrite Hu. lia.
  - pose proof (rsize_max e1 c). pose proof (rsize_max e1 d). eapply cost_drop; [done|lia|done].
Qed.

Definition sub_of (ra rb c : Ty) : Prop := c ∈ children ra \/ c ∈ children rb.

Lemma sub_of_resolved e ra rb c : known e ra -> known e rb -> full (substitutions e) ra -> full (substitutions e) rb ->
  sub_of ra rb c -> known e c /\ full (substitutions e) c /\ ty_size c < Nat.max (ty_size ra) (ty_size rb).
Proof.
  intros Ka Kb Fa Fb [Hin|Hin]; pose proof (child_size _ _ Hin).
  - split; [by apply (known_child e ra)|]. split; [by apply (full_child _ ra)|lia].
  - split; [by apply (known_child e rb)|]. split; [by apply (full_child _ rb)|lia].
Qed.

(** Rewriting, where conversion would run the resolution. *)
Lemma bind_Done {A B} (a : A) (f : A -> res B) : Done a ≫= f = f a.
Proof. done. Qed.

Lemma bind_Panic {A B} (f : A -> res B) : Panic ≫= f = Panic.
Proof. done. Qed.

(** *** Why a call aborts *)

(** The components of the two resolved types that are unified, one with the other. *)
Definition pair_of (ra rb c d : Ty) : Prop :=
  exists i, (children ra !! i = Some c /\ children rb !! i = Some d)
            \/ (children rb !! i = Some c /\ children ra !! i = Some d).

(** Applying the substitution to [t] takes more nodes than the checker allows. *)
Definition too_large (e : InferenceEngine) (t : Ty) : Prop :=
  forall n t', resolves (substitutions e) n t t' -> MAX_RESOLVE_NODES < n.

Section Calls.
Context (hash_order : gset CapVarId -> list CapVarId).

(** The states that components of [ra] and [rb] are unified in: some were unified
    before them, without a diagnostic. *)
Inductive after (ra rb : Ty) (e : InferenceEngine) : InferenceEngine -> Prop :=
| after_none : after ra rb e e
| after_flip b e1 : after ra rb e e1 -> after ra rb e (set_contravariant b e1)
| after_call fuel c d e1 e2 : after ra rb e e1 -> pair_of ra rb c d ->
    unify hash_order fuel e1 c d = Done (None, e2) -> after ra rb e e2.

(** The calls that unifying [a] and [b] leads to, itself included. *)
Inductive calls : InferenceEngine -> Ty -> Ty -> InferenceEngine -> Ty -> Ty -> Prop :=
| calls_itself e a b : calls e a b e a b
| calls_part e a b ra rb e1 c d e2 x y :
    resolve (substitutions e) a = Done ra -> resolve (substitutions e) b = Done rb ->
    after ra rb e e1 -> pair_of ra rb c d -> calls e1 c d e2 x y -> calls e a b e2 x y.

(** One of them is given a type that is too large. *)
Definition meets_large e a b : Prop :=
  exists e1 x y, calls e a b e1 x y /\ (too_large e1 x \/ too_large e1 y).
End Calls.

Lemma resolve_too_large e t : resolve (substitutions e) t = Panic -> too_large e t.
Proof.
  intros Hp n t' Hr. apply Nat.nle_gt. intros Hn.
  assert (Hd : resolve (substitutions e) t = Done t') by (apply resolve_spec; by exists n). congruence.
Qed.

Lemma pair_sub ra rb c d : pair_of ra rb c d -> sub_of ra rb c /\ sub_of ra rb d.
Proof.
  unfold sub_of. intros (i & [[Hc Hd]|[Hc Hd]]); apply list_elem_of_lookup_2 in Hc, Hd; auto.
Qed.

(** Resolving both types first. *)
Lemma resolve_both_ok B (U : Ty -> Ty -> unify_res) e a b :
  types_wf e -> known e a -> known e b -> (too_large e a \/ too_large e b -> B) ->
  (forall ra rb, resolve (substitutions e) a = Done ra -> resolve (substitutions e) b = Done rb ->
     known e ra -> known e rb -> full (substitutions e) ra -> full (substitutions e) rb ->
     outcome B e (fun e' => e_agree e' ra rb) (U ra rb)) ->
  outcome B e (fun e' => e_agree e' a b)
    (a ← resolve (substitutions e) a; b ← resolve (substitutions e) b; U a b).
Proof.
  intros W Ka Kb HB HU.
  destruct (resolve_type_outcome (substitutions e) a) as [Ha|[ra Ha]].
  { left. rewrite Ha, bind_Panic. split; [done|]. apply HB. left. by apply resolve_too_large. }
  rewrite Ha, bind_Done.
  destruct (resolve_type_outcome (substitutions e) b) as [Hb|[rb Hb]].
  { left. rewrite Hb, bind_Panic. split; [done|]. apply HB. right. by apply resolve_too_large. }
  rewrite Hb, bind_Done.
  pose proof (resolve_known e a ra W Ka Ha) as Kra. pose proof (resolve_known e b rb W Kb Hb) as Krb.
  destruct (resolve_Done _ _ _ Ha) as [Fa _], (resolve_Done _ _ _ Hb) as [Fb _].
  eapply outcome_mono; [by apply HU|]. intros e' _ S' Hag.
  eapply agree_of_resolved; [apply S'|done|done|done].
Qed.

Lemma unify_step hash_order fuel e a b : unify hash_order (S fuel) e a b =
  (a ← resolve (substitutions e) a; b ← resolve (substitutions e) b; unify_resolved hash_order (unify hash_order fuel) e a b).
Proof. reflexivity. Qed.

Lemma unify_loop_ok hash_order (Hhash : forall X, Permutation (hash_order X) (elements X)) fuel e a b :
  types_wf e -> known e a -> known e b -> unify_cost e a b < fuel ->
  outcome (meets_large hash_order e a b) e (fun e' => e_agree e' a b) (unify hash_order fuel e a b).
Proof.
  revert e a b. induction fuel as [|fuel IH]; intros e a b W Ka Kb Hc; [lia|].
  rewrite unify_step.
  apply (resolve_both_ok _ (unify_resolved hash_order (unify hash_order fuel) e) e a b W Ka Kb).
  { intros Hl. exists e, a, b. split; [constructor|done]. }
  intros ra rb Ha Hb Kra Krb Fa Fb. pose proof (resolve_Done _ _ _ Ha) as [_ Sa]. pose proof (resolve_Done _ _ _ Hb) as [_ Sb].
  refine (unify_resolved_ok hash_order Hhash (unify hash_order fuel) _ e (pair_of ra rb) (after hash_order ra rb e)
    (after_flip _ _ _ _) (fun e1 c d e2 => after_call hash_order ra rb e fuel c d e1 e2) _ e ra rb (reflexivity e) W
    (after_none _ _ _ _) Kra Krb Fa Fb Sa Sb _).
  2: { intros i c d Hic Hid. split; exists i; auto. }
  intros e1 c d S1 W1 HA Hk. destruct (pair_sub ra rb c d Hk) as [Hkc Hkd].
  destruct (sub_of_resolved e ra rb c Kra Krb Fa Fb Hkc) as (Kc & Fc & Sc).
  destruct (sub_of_resolved e ra rb d Kra Krb Fa Fb Hkd) as (Kd & Fd & Sd).
  apply (outcome_blame (meets_large hash_order e1 c d)).
  { intros (e2 & x & y & Hcalls & Hl). exists e2, x, y. split; [|done]. by eapply calls_part. }
  apply IH; [done|by eapply known_step|by eapply known_step|].
  apply (unify_cost_drop e e1 ra rb c d fuel W1 S1 Fc Fd Sc Sd); [lia|].
  unfold unify_cost in Hc. rewrite (rsize_Done e a ra Ha), (rsize_Done e b rb Hb) in Hc. exact Hc.
Qed.

Lemma unify_fuel_enough e a b : unify_cost e a b < unify_fuel e.
Proof.
  pose proof (rsize_max e a). pose proof (rsize_max e b). unfold unify_cost, unify_fuel, unbound.
  revert H H0. generalize MAX_RESOLVE_NODES as M. generalize (rsize e a) as x, (rsize e b) as y.
  generalize (N.to_nat (next_var e)) as n. generalize (size (dom (substitutions e))) as k. intros. nia.
Qed.

(** C23: with the fuel [unify_fuel], which depends on the number of variables only,
    [unify] always ends.  It aborts only when the call, or one it leads to on
    components of its types, is given a type that takes more than 4096 nodes to
    resolve.  Otherwise it returns: the substitution has only grown, it is
    acyclic and over known variables, rows included; and when it reports no
    diagnostic, the two types are compatible once the substitution is applied:
    equal up to their rows and the coercions the checker allows. *)
Theorem unify_sound (hash_order : gset CapVarId -> list CapVarId) fuel e a b :
  (forall X, Permutation (hash_order X) (elements X)) ->
  types_wf e -> known e a -> known e b -> unify_fuel e <= fuel ->
  (unify hash_order fuel e a b = Panic /\ meets_large hash_order e a b)
  \/ exists d e', unify hash_order fuel e a b = Done (d, e') /\ types_wf e' /\ ty_step e e'
       /\ (d = None -> forall ra rb, resolve (substitutions e') a = Done ra -> resolve (substitutions e') b = Done rb ->
             compatible (trait_impls e') ra rb).
Proof.
  intros Hh W Ka Kb Hf. pose proof (unify_fuel_enough e a b).
  destruct (unify_loop_ok hash_order Hh fuel e a b W Ka Kb ltac:(lia)) as [?|(d & e' & ? & ? & ? & HQ)]; [by left|right].
  exists d, e'. split; [done|]. split; [done|]. split; [done|]. intros Hd ra rb. apply agree_resolve. by apply HQ.
Qed.

(** Two variables, and a pair of pairs that binds both. *)
Definition pair_engine : InferenceEngine := set_next_var 2 new_engine.
Definition pair_left : Ty := Ty_Tuple [Ty_Var 0; Ty_Option (Ty_Var 1)].
Definition pair_right : Ty := Ty_Tuple [Ty_Array (Ty_Var 1) None; Ty_Option Ty_I32].

Lemma pair_engine_wf : types_wf pair_engine.
Proof.
  destruct new_engine_wf as [[C1 C2 C3] WS WD WL WE]. split; [split; [by split|done..]| |].
  - intros id t. cbn. by rewrite lookup_empty.
  - apply (tw_acyclic new_engine new_engine_types_wf).
Qed.

Lemma pair_known t : t ∈ [pair_left; pair_right] -> known pair_engine t.
Proof.
  assert (Hk : forall t, known pair_engine t <->
    (forall r, r ∈ own_rows t -> row_below 0 r) /\ (match t with Ty_Var id => (id < 2)%N | _ => True end)
    /\ forall c, c ∈ children t -> known pair_engine c).
  { clear. intros t. split.
    - intros K. split; [apply (proj1 (ty_below_step _ t) (proj1 K))|]. split; [|intros c; by apply known_child].
      destruct t; try done. apply (proj2 K). by constructor.
    - intros (Ho & Hv & Hc). split; [apply ty_below_step; split; [done|intros c Hin; by apply Hc]|].
      intros id Hid. inversion Hid as [|? c ? Hin Hs]; subst; [done|]. by apply (proj2 (Hc c Hin)). }
  intros [->|[->|Hn%elem_of_nil]%elem_of_cons]%elem_of_cons; [..|done].
  all: repeat (apply Hk; split; [intros r Hr; by apply elem_of_nil in Hr|]; split; [done|]; cbn [children];
    let c := fresh "c" in let Hc := fresh "Hc" in intros c Hc;
    repeat (apply elem_of_cons in Hc as [->|Hc]; [|]); try by apply elem_of_nil in Hc).
Qed.

Lemma unify_sound_witness :
  ((unify elements (unify_fuel pair_engine) pair_engine pair_left pair_right = Panic
    /\ meets_large elements pair_engine pair_left pair_right)
   \/ exists d e', unify elements (unify_fuel pair_engine) pair_engine pair_left pair_right = Done (d, e') /\ types_wf e'
       /\ ty_step pair_engine e'
       /\ (d = None -> forall ra rb, resolve (substitutions e') pair_left = Done ra ->
             resolve (substitutions e') pair_right = Done rb -> compatible (trait_impls e') ra rb))
  /\ ('(d, e') ← unify elements (unify_fuel pair_engine) pair_engine pair_left pair_right;
      t ← resolve (substitutions e') pair_left; Done (d, t))
     = Done (None, Ty_Tuple [Ty_Array Ty_I32 None; Ty_Option Ty_I32]).
Proof.
  split; [|vm_compute; reflexivity].
  apply (unify_sound elements (unify_fuel pair_engine) pair_engine pair_left pair_right); [done| | | |lia].
  - apply pair_engine_wf.
  - apply pair_known. by left.
  - apply pair_known. right. by left.
Defined.

(* ------------------------------------------------------------------ *)
(** ** Defaulting                                                      *)
(* ------------------------------------------------------------------ *)

Lemma unresolved_vars_cons subst i ids : unresolved_vars subst (i :: ids) =
  (resolved ← resolve subst (Ty_Var i); rest ← unresolved_vars subst ids;
   Done (match resolved with Ty_Var _ => i :: rest | _ => rest end)).
Proof. reflexivity. Qed.

Lemma unresolved_vars_ok subst ids l : unresolved_vars subst ids = Done l ->
  forall id, id ∈ ids -> subst !! id = None -> id ∈ l.
Proof.
  revert l. induction ids as [|i ids IH]; intros l Hl id Hid Hn; [by apply elem_of_nil in Hid|].
  rewrite unresolved_vars_cons in Hl. apply res_bind_Done in Hl as (r & Hr & Hl). apply res_bind_Done in Hl as (rest & Hrest & Hl).
  apply elem_of_cons in Hid as [->|Hid].
  - assert (r = Ty_Var i) as ->.
    { apply resolve_spec in Hr as (n & Hr & _). by inversion Hr; subst; [|congruence|]. }
    injection Hl as <-. by left.
  - specialize (IH rest Hrest id Hid Hn). injection Hl as <-. destruct r; try done. by right.
Qed.

Lemma unresolved_vars_outcome subst ids :
  (unresolved_vars subst ids = Panic /\ exists id, id ∈ ids /\ resolve subst (Ty_Var id) = Panic)
  \/ exists l, unresolved_vars subst ids = Done l.
Proof.
  induction ids as [|i ids IH]; [right; by eexists|]. rewrite unresolved_vars_cons.
  destruct (resolve_type_outcome subst (Ty_Var i)) as [Hi|[r ->]].
  { left. rewrite Hi, bind_Panic. split; [done|]. exists i. split; [by left|done]. }
  rewrite bind_Done. destruct IH as [(-> & id & Hid & Hp)|[l ->]].
  - left. rewrite bind_Panic. split; [done|]. exists id. split; [by right|done].
  - rewrite bind_Done. right. by eexists.
Qed.

Lemma or_insert_error_ok subst l :
  subst ⊆ foldl or_insert_error subst l
  /\ (forall id, id ∈ l -> is_Some (foldl or_insert_error subst l !! id))
  /\ (forall id t, foldl or_insert_error subst l !! id = Some t -> subst !! id = Some t \/ (t = Ty_Error /\ id ∈ l))
  /\ ((forall x, ~ tc (mentions subst) x x) -> forall x, ~ tc (mentions (foldl or_insert_error subst l)) x x).
Proof.
  revert subst. induction l as [|i l IH]; intros subst; cbn [foldl].
  { split_and!; [done|intros id Hid; by apply elem_of_nil in Hid|by left|done]. }
  destruct (IH (or_insert_error subst i)) as (H1 & H2 & H3 & H4).
  assert (Hstep : subst ⊆ or_insert_error subst i /\ is_Some (or_insert_error subst i !! i)
    /\ (forall id t, or_insert_error subst i !! id = Some t -> subst !! id = Some t \/ (t = Ty_Error /\ id = i))
    /\ ((forall x, ~ tc (mentions subst) x x) -> forall x, ~ tc (mentions (or_insert_error subst i)) x x)).
  { unfold or_insert_error. destruct (subst !! i) as [t|] eqn:Hi; [by split_and!; [|by eexists|by left|]|]. split_and!.
    - by apply insert_subseteq.
    - rewrite lookup_insert_eq. by eexists.
    - intros id t. destruct (decide (id = i)) as [->|]; [rewrite lookup_insert_eq; intros [= <-]; by right|].
      rewrite lookup_insert_ne by done. by left.
    - intros Hac. apply acyclic_insert; [done|done|]. intros j Hj. inversion Hj as [|? c ? Hc]; subst. by apply elem_of_nil in Hc. }
  destruct Hstep as (S1 & S2 & S3 & S4). split_and!.
  - by etrans.
  - intros id [->|Hid]%elem_of_cons; [|by apply H2]. destruct S2 as [t Ht]. exists t. by eapply lookup_weaken.
  - intros id t [Ht|[-> Hin]]%H3; [|right; split; [done|by right]].
    apply S3 in Ht as [?|[-> ->]]; [by left|right; split; [done|by left]].
  - intros Hac. by apply H4, S4.
Qed.

(** After inference every variable is bound, those nothing was learned about
    to the error type and the others as before: the substitution stays acyclic, and
    no resolved type mentions a variable any more.  It aborts only when a variable
    stands for a type of more than 4096 nodes. *)
Lemma default_numeric_vars_spec e :
  types_wf e ->
  (default_numeric_vars e = Panic /\ exists id, (id < next_var e)%N /\ resolve (substitutions e) (Ty_Var id) = Panic)
  \/ exists e', default_numeric_vars e = Done e' /\ types_wf e' /\ ty_step e e'
       /\ e' = set_substitutions (substitutions e') e
       /\ (forall id, (id < next_var e)%N -> substitutions e' !! id = Some (default Ty_Error (substitutions e !! id)))
       /\ forall t t', known e t -> resolve (substitutions e') t = Done t' -> has_vars t' = false.
Proof.
  intros W. unfold default_numeric_vars.
  destruct (unresolved_vars_outcome (substitutions e) (map N.of_nat (seq 0 (N.to_nat (next_var e))))) as [(-> & id & Hid & Hp)|[l Hl]].
  { left. split; [done|]. exists id. split; [|done]. apply list_elem_of_In, in_map_iff in Hid as (k & <- & Hk%in_seq). lia. }
  right.
  rewrite Hl, bind_Done. eexists. split; [reflexivity|].
  destruct (or_insert_error_ok (substitutions e) l) as (H1 & H2 & H3 & H4).
  set (e' := set_substitutions (foldl or_insert_error (substitutions e) l) e).
  assert (Hall : forall id, (id < next_var e)%N -> is_Some (substitutions e' !! id)).
  { intros id Hid. cbn. destruct (substitutions e !! id) as [t|] eqn:Ht; [exists t; by eapply lookup_weaken|].
    apply H2, (unresolved_vars_ok _ _ _ Hl); [|done]. apply list_elem_of_In, in_map_iff. exists (N.to_nat id).
    split; [lia|]. apply in_seq. lia. }
  assert (Hbelow : forall id, id ∈ l -> (id < next_var e)%N).
  { clear -Hl. revert l Hl. assert (Hs : forall id, id ∈ map N.of_nat (seq 0 (N.to_nat (next_var e))) -> (id < next_var e)%N).
    { intros id (k & <- & Hk%in_seq)%list_elem_of_In%in_map_iff. lia. }
    revert Hs. generalize (map N.of_nat (seq 0 (N.to_nat (next_var e)))) as ids. intros ids. induction ids as [|i ids IH]; intros Hs l Hl id Hid.
    { injection Hl as <-. by apply elem_of_nil in Hid. }
    rewrite unresolved_vars_cons in Hl. apply res_bind_Done in Hl as (r & _ & Hl). apply res_bind_Done in Hl as (rest & Hrest & Hl).
    assert (Hr : forall x, x ∈ rest -> (x < next_var e)%N) by (apply (IH ltac:(intros x Hx; apply Hs; by right) rest Hrest)).
    injection Hl as <-. destruct r; try by apply Hr. apply elem_of_cons in Hid as [->|Hid]; [apply Hs; by left|by apply Hr]. }
  assert (S : ty_step e e') by (split; done).
  assert (W' : types_wf e').
  { destruct W as [[[C1 C2 C3] WS WD WL WE] Kn A]. split; [split; [by split|done..]| |by apply H4].
    intros id t [Ht|[-> Hin]]%H3.
    - destruct (Kn id t Ht) as [? Kt]. split; [done|]. by apply (known_step e e').
    - split; [by apply Hbelow|]. split.
      + intros s r Hs Hr. inversion Hs as [|? c ? Hc]; subst; [by apply elem_of_nil in Hr|by apply elem_of_nil in Hc].
      + intros j Hj. inversion Hj as [|? c ? Hc]; subst. by apply elem_of_nil in Hc. }
  split; [done|]. split; [done|]. split; [by destruct e|]. split.
  { intros id Hid. destruct (Hall id Hid) as [t Ht]. rewrite Ht. f_equal. cbn in Ht.
    destruct (substitutions e !! id) as [u|] eqn:Hu; cbn; [|apply H3 in Ht as [Ht|[-> _]]; congruence].
    pose proof (lookup_weaken _ _ _ _ Hu H1). congruence. }
  intros t t' Kt Hr. destruct (has_vars t') eqn:Hv; [|done]. apply has_vars_subterm in Hv as [id Hid].
  destruct (resolve_Done _ _ _ Hr) as [Hf _]. pose proof (resolve_known e' t t' W' (known_step _ _ _ S Kt) Hr) as Kt'.
  destruct (Hall id) as [u Hu]; [by apply (proj2 Kt')|]. rewrite (Hf id Hid) in Hu. done.
Qed.

Lemma default_numeric_vars_spec_witness :
  ((default_numeric_vars pair_engine = Panic
     /\ exists id, (id < next_var pair_engine)%N /\ resolve (substitutions pair_engine) (Ty_Var id) = Panic)
   \/ exists e', default_numeric_vars pair_engine = Done e' /\ types_wf e' /\ ty_step pair_engine e'
       /\ e' = set_substitutions (substitutions e') pair_engine
       /\ (forall id, (id < next_var pair_engine)%N ->
            substitutions e' !! id = Some (default Ty_Error (substitutions pair_engine !! id)))
       /\ forall t t', known pair_engine t -> resolve (substitutions e') t = Done t' -> has_vars t' = false)
  /\ (e' ← default_numeric_vars pair_engine; resolve (substitutions e') pair_left)
     = Done (Ty_Tuple [Ty_Error; Ty_Option Ty_Error]).
Proof. split; [apply (default_numeric_vars_spec pair_engine pair_engine_wf)|vm_compute; reflexivity]. Defined.
