(* ===== verification/CapReplay.v ===== *)
(** What the recording of stores and references keeps ([kryos-types/src/infer.rs],
    [end_store_effects] to [complete_references]): every filed row, effect and
    reference is over known variables, so replaying them at a reference ends, and
    bindings only widen. *)

From S2P Require Import Prelude Machine Text Token Capability CapRow CapCycles Ty CapVars CapSolve CapFlow CapOps CapDeny.

#[local] Open Scope N_scope.

(* ------------------------------------------------------------------ *)
(** ** The invariant of the records                                    *)
(* ------------------------------------------------------------------ *)

Definition ren_below (n : N) (ren : gmap CapVarId CapVarId) : Prop :=
  forall v w, ren !! v = Some w -> v < n /\ w < n.

Definition effects_below (n : N) (m : gmap CapVarId (list (CapVarId * CapRow))) : Prop :=
  forall own l slot row, m !! own = Some l -> (slot, row) ∈ l -> slot < n /\ row_below n row.

Definition inst_below (n : N) (r : Instantiation) : Prop :=
  in_callee r < n /\ (forall v w, (v, w) ∈ in_map r -> v < n /\ w < n)
  /\ forall c, in_own_copy r = Some c -> c < n.

Record deny_wf (e : InferenceEngine) : Prop := {
  dw_engine : engine_wf e;
  dw_effects : effects_below (next_cap_var e) (store_effects e);
  dw_obligations : forall ob, ob ∈ deny_obligations e -> row_below (next_cap_var e) (ob_row ob);
  dw_references : forall r, r ∈ instantiations e -> inst_below (next_cap_var e) r
}.

Lemma new_engine_deny_wf : deny_wf new_engine.
Proof.
  split; [apply new_engine_wf|cbn [new_engine store_effects]; intros ? ? ? ? Hl; by rewrite lookup_empty in Hl|..];
    intros x Hx; by apply elem_of_nil in Hx.
Qed.

Lemma inst_below_mono n m r : n <= m -> inst_below n r -> inst_below m r.
Proof.
  intros Hle (Hc & Hm & Ho). split; [lia|]. split; [intros v w Hv; destruct (Hm v w Hv); lia|].
  intros c Hx. specialize (Ho c Hx). lia.
Qed.

Lemma effects_below_mono n m s : n <= m -> effects_below n s -> effects_below m s.
Proof.
  intros Hle Hs own l slot row Hl Hin. destruct (Hs own l slot row Hl Hin).
  split; [lia|by eapply row_below_mono].
Qed.

(** The fields a row operation leaves alone. *)
Lemma step_records e e' : row_step e e' ->
  store_effects e' = store_effects e /\ deny_obligations e' = deny_obligations e
  /\ instantiations e' = instantiations e /\ owner_poly e' = owner_poly e /\ dispatch_owners e' = dispatch_owners e.
Proof. intros [-> _ _]. by destruct e. Qed.

Lemma deny_wf_step e e' : deny_wf e -> engine_wf e' -> row_step e e' -> deny_wf e'.
Proof.
  intros [W E O R] W' S. destruct (step_records _ _ S) as (E1 & E2 & E3 & _). pose proof (step_next _ _ S) as N.
  split; [done|..]; rewrite N; [by rewrite E1|by rewrite E2|by rewrite E3].
Qed.

Lemma inst_ren_below n r : inst_below n r -> ren_below n (list_to_map (in_map r)).
Proof. intros (_ & Hm & _) v w Hv. apply Hm. by apply elem_of_list_to_map_2. Qed.

(** A loop that keeps a property of the state. *)
Lemma fold_res_keeps {A B} (f : B -> A -> res B) (P : B -> Prop) l b :
  (forall a b, a ∈ l -> P b -> exists b', f b a = Done b' /\ P b') -> P b ->
  exists b', fold_res f l b = Done b' /\ P b'.
Proof.
  intros Hf. revert b. induction l as [|a l IH] in Hf |- *; intros b Hb; cbn [fold_res]; [by exists b|].
  destruct (Hf a b ltac:(by left) Hb) as (b1 & -> & Hb1). apply IH; [intros; apply Hf; [by right|done]|done].
Qed.

Section Replay.
Context (hash_order : gset CapVarId -> list CapVarId) (Hhash : forall X, Permutation (hash_order X) (elements X)).

Lemma keeping_below e row : engine_wf e -> row_below (next_cap_var e) row ->
  exists r e', resolve_cap_row_keeping_slots hash_order e row = Done (r, e') /\ engine_wf e' /\ cache_step e e'
    /\ row_below (next_cap_var e) r.
Proof.
  intros W B. destruct (keeping_slots_ok hash_order Hhash e row (ew_coherent e W) (proj1 B)) as (r & e' & E & C & S & Hr).
  exists r, e'. split; [done|]. split; [by eapply cache_step_wf|]. split; [done|].
  eapply resolved_below; [apply (ew_subst e W)|done|done].
Qed.

Lemma instantiate_below e row ren : engine_wf e -> row_below (next_cap_var e) row -> ren_below (next_cap_var e) ren ->
  exists r e', instantiate_row hash_order e row ren = Done (r, e') /\ engine_wf e' /\ cache_step e e'
    /\ row_below (next_cap_var e) r.
Proof.
  intros W B Hren.
  destruct (instantiate_row_ok hash_order Hhash e row ren (ew_coherent e W) (proj1 B)) as (r & e' & ws & E & C & S & Hr & Ww & Hws).
  pose proof (resolved_below _ _ _ _ _ (ew_subst e W) B Hr) as [_ Br].
  eexists _, e'. split; [done|]. split; [by eapply cache_step_wf|]. split; [done|]. split; [done|].
  intros x (v & Hv & ->)%Hws. destruct (ren !! v) as [w|] eqn:Hw; [by apply (Hren v w)|by apply Br].
Qed.

Lemma store_into_below e target row : engine_wf e -> target < next_cap_var e -> row_below (next_cap_var e) row ->
  exists e', store_into_input e target row = Done e' /\ engine_wf e' /\ row_step e e'.
Proof.
  intros W Ht B.
  destruct (store_into_input_ok bind_cap_var (next_cap_var e) 0 (bind_fits _) e target row) as (e' & ? & F & ? & _);
    [by apply fits_0|done|done|]. exists e'. split; [done|]. split; [apply F|done].
Qed.

Lemma defer_store_ok e target row : engine_wf e -> row_below (next_cap_var e) row ->
  engine_wf (defer_store e target row) /\ row_step e (defer_store e target row).
Proof.
  intros [WC WS WD WL WE] B. unfold defer_store. split; [|split; by destruct e].
  destruct WC as [C1 C2 C3]. split; [by split|done| |done|done]. cbn. intros v rows r Hv Hr.
  destruct (decide (v = target)) as [->|Hne]; [|rewrite lookup_insert_ne in Hv by done; by eapply WD].
  rewrite lookup_insert_eq in Hv. injection Hv as <-. apply elem_of_app in Hr as [Hr| ->%list_elem_of_singleton]; [|done].
  destruct (deferred_input_stores e !! target) as [old|] eqn:Ho; [by eapply WD|by apply elem_of_nil in Hr].
Qed.

(** [step_to e m]: the step ends in an engine that is as sound and only wider. *)
Definition step_to (e : InferenceEngine) (m : res InferenceEngine) : Prop :=
  exists e', m = Done e' /\ engine_wf e' /\ row_step e e'.

Lemma step_to_refl e : engine_wf e -> step_to e (Done e).
Proof. intros W. by exists e. Qed.

Lemma step_to_trans e e1 m : row_step e e1 -> step_to e1 m -> step_to e m.
Proof. intros S (e' & ? & ? & ?). exists e'. split; [done|]. split; [done|by etrans]. Qed.

Lemma step_to_bind e m k : step_to e m -> (forall e1, engine_wf e1 -> row_step e e1 -> step_to e1 (k e1)) ->
  step_to e (e1 ← m; k e1).
Proof.
  intros (e1 & -> & W1 & S1) Hk. cbn [mbind res_bind]. eapply step_to_trans; [done|by apply Hk].
Qed.

Lemma step_to_fold {A} (f : InferenceEngine -> A -> res InferenceEngine) l e :
  engine_wf e -> (forall a e1, a ∈ l -> engine_wf e1 -> row_step e e1 -> step_to e1 (f e1 a)) ->
  step_to e (fold_res f l e).
Proof.
  intros W Hf. destruct (fold_res_ind f (fun e1 => engine_wf e1 /\ row_step e e1) row_step l e) as (e' & ? & [? _] & ?).
  - intros a e1 Ha [W1 S1]. destruct (Hf a e1 Ha W1 S1) as (e2 & ? & ? & S2). exists e2.
    split; [done|]. split; [split; [done|by etrans]|done].
  - by split.
  - by exists e'.
Qed.

Lemma bind_step_to e id row : engine_wf e -> id < next_cap_var e -> row_below (next_cap_var e) row ->
  step_to e (bind_cap_var e id row).
Proof. intros W Hid B. destruct (bind_cap_var_ok e id row W Hid B) as (e' & ? & ? & ? & _). by exists e'. Qed.

Lemma instantiate_step_to e row ren k : engine_wf e -> row_below (next_cap_var e) row -> ren_below (next_cap_var e) ren ->
  (forall r e1, engine_wf e1 -> row_step e e1 -> row_below (next_cap_var e) r -> step_to e1 (k r e1)) ->
  step_to e ('(r, e1) ← instantiate_row hash_order e row ren; k r e1).
Proof.
  intros W B Hren Hk. destruct (instantiate_below e row ren W B Hren) as (r & e1 & -> & W1 & S1 & Br).
  cbn [mbind res_bind]. apply cache_row_step in S1. eapply step_to_trans; [done|by apply Hk].
Qed.

Lemma replay_ok e own ren : engine_wf e -> effects_below (next_cap_var e) (store_effects e) ->
  ren_below (next_cap_var e) ren -> step_to e (replay_store_effects hash_order e own ren).
Proof.
  intros W HE Hren. unfold replay_store_effects. destruct (store_effects e !! own) as [l|] eqn:Hl; [|by apply step_to_refl].
  apply step_to_fold; [done|]. intros [slot row] e1 Hin W1 S1. pose proof (step_next _ _ S1) as N1.
  destruct (HE own l slot row Hl Hin) as [Hslot Brow]. rewrite <-N1 in Hslot, Brow, Hren. unfold replay_one.
  apply instantiate_step_to; [done..|]. intros inst e2 W2 S2 Bi. pose proof (step_next _ _ S2) as N2.
  rewrite <-N2 in Hslot, Bi, Hren. case_bool_decide; [|by apply bind_step_to].
  destruct (ren !! slot) as [target|] eqn:Ht; [|by apply step_to_refl]. destruct (Hren slot target Ht) as [_ Htn].
  destruct (cap_substitutions e2 !! target); [by apply store_into_below|].
  destruct (defer_store_ok e2 target inst W2 Bi). by eexists.
Qed.

Lemma complete_copy_ok e ren v copy : engine_wf e -> ren_below (next_cap_var e) ren ->
  v < next_cap_var e -> copy < next_cap_var e -> step_to e (complete_copy hash_order ren e (v, copy)).
Proof.
  intros W Hren Hv Hc. unfold complete_copy. destruct (cap_substitutions e !! v); [|by apply step_to_refl].
  apply instantiate_step_to; [done|by apply row_below_var|done|]. intros r e1 W1 S1 B1.
  pose proof (step_next _ _ S1) as N1. rewrite <-N1 in B1, Hc. by apply bind_step_to.
Qed.

Lemma complete_reference_ok e r : engine_wf e -> effects_below (next_cap_var e) (store_effects e) ->
  inst_below (next_cap_var e) r -> step_to e (complete_reference hash_order e r).
Proof.
  intros W HE HR. unfold complete_reference. apply step_to_bind; [apply replay_ok; [done..|by apply inst_ren_below]|].
  intros e1 W1 S1. pose proof (step_next _ _ S1) as N1. rewrite <-N1 in HR. apply step_to_bind.
  - apply step_to_fold; [done|]. intros [v w] e2 Hin W2 S2. pose proof (step_next _ _ S2) as N2. rewrite <-N2 in HR.
    pose proof (inst_ren_below _ _ HR). destruct HR as (_ & Hm & _). destruct (Hm v w Hin). by apply complete_copy_ok.
  - intros e2 W2 S2. pose proof (step_next _ _ S2) as N2. rewrite <-N2 in HR. pose proof (inst_ren_below _ _ HR).
    destruct HR as (Hc & _ & Ho). destruct (in_own_copy r) as [copy|]; [|by apply step_to_refl].
    apply complete_copy_ok; [done..|by apply Ho].
Qed.

Lemma complete_rounds_ok rounds e refs : engine_wf e -> effects_below (next_cap_var e) (store_effects e) ->
  (forall r, r ∈ refs -> inst_below (next_cap_var e) r) -> step_to e (complete_rounds hash_order rounds e refs).
Proof.
  revert e. induction rounds as [|rounds IH]; intros e W HE HR; cbn [complete_rounds]; [by apply step_to_refl|].
  apply step_to_bind.
  - apply step_to_fold; [done|]. intros r e1 Hr W1 S1. destruct (step_records _ _ S1) as (E1 & _).
    apply complete_reference_ok; [done|..]; rewrite (step_next _ _ S1); [by rewrite E1|by apply HR].
  - intros e1 W1 S1. destruct (cap_epoch e1 =? cap_epoch e); [by apply step_to_refl|].
    destruct (step_records _ _ S1) as (E1 & _). apply IH; [done|..]; rewrite (step_next _ _ S1); [by rewrite E1|done].
Qed.

(* ------------------------------------------------------------------ *)
(** ** Recording                                                       *)
(* ------------------------------------------------------------------ *)

(** A mapped table of pairs, in the order of its keys, is the table. *)
Lemma elem_of_sorted_pairs ren v w : (v, w) ∈ sorted_pairs ren <-> ren !! v = Some w.
Proof. unfold sorted_pairs. rewrite merge_sort_Permutation. apply elem_of_map_to_list. Qed.

Lemma reference_row_ok e own ren sp : deny_wf e -> own < next_cap_var e -> ren_below (next_cap_var e) ren ->
  exists own_row charged e', reference_row hash_order e own ren sp = Done (own_row, charged, e') /\ deny_wf e'
    /\ subst_le (cap_substitutions e) (cap_substitutions e') /\ next_cap_var e <= next_cap_var e'
    /\ row_below (next_cap_var e') own_row /\ row_below (next_cap_var e') charged.
Proof.
  intros D Hown Hren. unfold reference_row, resolve_own_cap_row.
  destruct (replay_ok e own ren (dw_engine e D) (dw_effects e D) Hren) as (e1 & -> & W1 & S1). cbn [mbind res_bind].
  pose proof (deny_wf_step e e1 D W1 S1) as D1. pose proof (step_next _ _ S1) as N1. rewrite <-N1 in Hown, Hren.
  destruct (keeping_below e1 (var own) W1 (row_below_var _ _ Hown)) as (own_row & e2 & -> & W2 & S2%cache_row_step & B2).
  cbn [mbind res_bind]. pose proof (deny_wf_step e1 e2 D1 W2 S2) as D2. pose proof (step_next _ _ S2) as N2.
  rewrite <-N2 in Hown, Hren, B2.
  destruct (instantiate_below e2 own_row ren W2 B2 Hren) as (inst & e3 & -> & W3 & S3%cache_row_step & B3).
  cbn [mbind res_bind]. pose proof (deny_wf_step e2 e3 D2 W3 S3) as D3. pose proof (step_next _ _ S3) as N3.
  rewrite <-N3 in Hown, Hren, B2, B3.
  assert (S13 : subst_le (cap_substitutions e) (cap_substitutions e3)).
  { etrans; [apply (rs_subst _ _ S1)|]. etrans; [apply (rs_subst _ _ S2)|apply (rs_subst _ _ S3)]. }
  assert (Hcharge : exists charged copy e4,
    (if negb (bool_decide (ren = ∅)) && bool_decide (cap_substitutions e3 !! own = None)
        && negb (bool_decide (scope_owner e3 = Some own)) then
       let '(copy, e) := fresh_cap_var e3 in
       e ← bind_cap_var e copy (var own); Done (var copy, Some copy, e)
     else Done (inst, None, e3)) = Done (charged, copy, e4) /\ deny_wf e4
    /\ subst_le (cap_substitutions e3) (cap_substitutions e4) /\ next_cap_var e3 <= next_cap_var e4
    /\ row_below (next_cap_var e4) charged /\ (forall c, copy = Some c -> c < next_cap_var e4)).
  { destruct (_ && _); [|exists inst, None, e3; split_and!; done || lia].
    pose proof (fresh_cap_var_ok e3 W3) as Wf. cbn [fresh_cap_var] in *. set (copy := next_cap_var e3) in *.
    set (ef := set_next_cap_var (copy + 1) e3) in *. cbn [snd] in Wf.
    assert (Df : deny_wf ef).
    { destruct D3 as [_ HE HO HR]. split; [done|..]; cbn; [eapply effects_below_mono; [|done]; lia|..].
      - intros ob Hob. eapply row_below_mono; [|by apply HO]. lia.
      - intros r Hr. eapply inst_below_mono; [|by apply HR]. lia. }
    destruct (bind_cap_var_ok ef copy (var own) Wf) as (e4 & -> & W4 & S4 & _); [cbn; lia|apply row_below_var; cbn; lia|].
    cbn [mbind res_bind]. pose proof (step_next _ _ S4) as N4. exists (var copy), (Some copy), e4. cbn in N4. split; [done|].
    split; [by eapply deny_wf_step|]. split; [apply (rs_subst _ _ S4)|]. split; [lia|].
    split; [apply row_below_var; lia|]. intros c [= <-]. lia. }
  destruct Hcharge as (charged & copy & e4 & -> & D4 & S4 & N4 & B4 & Hcopy). cbn [mbind res_bind].
  exists own_row, charged. eexists. split; [reflexivity|].
  assert (B2' : row_below (next_cap_var e4) own_row) by (by eapply row_below_mono).
  case_bool_decide; [split_and!; try done; [by etrans|lia]|]. cbn. split; [|split_and!; try done; [by etrans|lia]].
  destruct D4 as [[[C1 C2 C3] WS WD WL WE] HE HO HR]. split; [split; [by split|done..]|done|done|].
  cbn. intros r [Hr| ->%list_elem_of_singleton]%elem_of_app; [by apply HR|]. split; [cbn; lia|]. split; [|done].
  cbn. intros v w Hv%elem_of_sorted_pairs. destruct (Hren v w Hv). lia.
Qed.

Lemma push_effect_elem l x y : y ∈ push_effect l x <-> y ∈ l \/ y = x.
Proof.
  unfold push_effect. case_bool_decide as Hx.
  - split; [by left|]. by intros [?| ->].
  - rewrite elem_of_app, list_elem_of_singleton. done.
Qed.

Lemma push_effects_elem entry found y : y ∈ foldl push_effect entry found <-> y ∈ entry \/ y ∈ found.
Proof.
  revert entry. induction found as [|x found IH]; intros entry; cbn [foldl].
  - split; [by left|]. by intros [?|?%elem_of_nil].
  - rewrite IH, push_effect_elem, elem_of_cons. tauto.
Qed.

Definition found_below (n : N) (found : list (CapVarId * CapRow)) : Prop :=
  forall slot row, (slot, row) ∈ found -> slot < n /\ row_below n row.

(** Keeping some variables of a row, and some of its bits or none. *)
Lemma filtered_below n r (P : CapVarId -> Prop) `{!forall v, Decision (P v)} b :
  row_below n r -> b = concrete_bits r \/ b = EMPTY -> row_below n (Resolved b (filter P (var_ids r))).
Proof.
  intros [Wr Br] Hb. split; [split|].
  - destruct Hb as [->| ->]; [|done]. destruct r; [apply Wr|done].
  - apply Sorted_filter. destruct r; [apply Wr|constructor].
  - intros v Hv. cbn in Hv. apply list_elem_of_filter in Hv as [_ Hv]. by apply Br.
Qed.

Lemma param_effect_ok s e found st : engine_wf e -> found_below (next_cap_var e) found ->
  fst st < next_cap_var e -> row_below (next_cap_var e) (snd st) ->
  exists found' e', param_effect hash_order s (found, e) st = Done (found', e') /\ engine_wf e' /\ row_step e e'
    /\ found_below (next_cap_var e') found'.
Proof.
  intros W HF Hst B. destruct st as [storage row]. unfold param_effect. cbn in Hst, B.
  destruct (keeping_below e row W B) as (flat & e1 & -> & W1 & S1%cache_row_step & B1). cbn [mbind res_bind].
  pose proof (step_next _ _ S1) as N1. rewrite <-N1 in HF, Hst, B1.
  destruct (_ && _); [by exists found, e1|]. eexists _, e1. split; [reflexivity|]. split; [done|]. split; [done|].
  intros slot r Hin%push_effect_elem. destruct Hin as [Hin|[= -> ->]]; [by apply HF|].
  split; [done|]. apply filtered_below; [done|by left].
Qed.

Lemma slot_effect_ok s e found seen slot : engine_wf e -> found_below (next_cap_var e) found -> slot < next_cap_var e ->
  exists found' seen' e', slot_effect hash_order s (found, seen, e) slot = Done (found', seen', e') /\ engine_wf e'
    /\ row_step e e' /\ found_below (next_cap_var e') found'.
Proof.
  intros W HF Hslot. unfold slot_effect. case_bool_decide; [by exists found, seen, e|].
  destruct (cap_substitutions e !! slot) as [binding|] eqn:Hb; [|by exists found, ({[slot]} ∪ seen), e].
  destruct (keeping_below e binding W) as (flat & e1 & -> & W1 & S1%cache_row_step & B1); [by eapply (ew_subst e W)|].
  cbn [mbind res_bind]. pose proof (step_next _ _ S1) as N1. rewrite <-N1 in HF, Hslot, B1.
  pose proof (filtered_below (next_cap_var e1) flat (fun v => v ∈ poly s) EMPTY B1 ltac:(by right)) as Bf.
  destruct (filter _ (var_ids flat)) as [|v vs]; [by exists found, ({[slot]} ∪ seen), e1|].
  eexists _, _, e1. split; [reflexivity|]. split; [done|]. split; [done|].
  intros slot' r Hin. apply elem_of_app in Hin as [Hin|Hin%list_elem_of_singleton]; [by apply HF|].
  injection Hin as -> ->. done.
Qed.

Lemma end_store_effects_ok e own : deny_wf e ->
  exists e', end_store_effects hash_order e own = Done e' /\ deny_wf e' /\ effect_scope e' = None.
Proof.
  intros D. unfold end_store_effects. destruct (effect_scope e) as [s|] eqn:Hs; [|by exists e].
  set (e0 := set_effect_scope None e).
  assert (D0 : deny_wf e0).
  { destruct D as [[[C1 C2 C3] WS WD WL WE] HE HO HR]. split; [split; [by split|done..]|done..]. }
  destruct own as [own|]; [|by exists e0]. destruct (_ || _); [by exists e0|].
  destruct (ew_scope e (dw_engine e D) s Hs) as [Ht Hp].
  set (P := fun '(found, e1) => engine_wf e1 /\ row_step e0 e1 /\ found_below (next_cap_var e1) found).
  assert (H1 : exists acc, fold_res (param_effect hash_order s) (param_stores s) ([], e0) = Done acc /\ P acc).
  { apply (fold_res_keeps _ P).
    - intros [v row] [found e1] Hin (W1 & S1 & F1). destruct (Hp v row Hin).
      destruct (param_effect_ok s e1 found (v, row) W1 F1) as (found' & e2 & E & W2 & S2 & F2);
        [by rewrite (step_next _ _ S1)..|]. exists (found', e2). split; [done|]. split; [done|]. split; [by etrans|done].
    - split; [apply D0|]. split; [done|]. intros ? ? Hin. by apply elem_of_nil in Hin. }
  destruct H1 as ([found e1] & -> & W1 & S1 & F1). cbn [mbind res_bind].
  set (Q := fun '((found, _, e1) : list (CapVarId * CapRow) * gset CapVarId * InferenceEngine) => engine_wf e1 /\ row_step e0 e1 /\ found_below (next_cap_var e1) found).
  assert (H2 : exists acc, fold_res (slot_effect hash_order s) (touched s) (found, ∅, e1) = Done acc /\ Q acc).
  { apply (fold_res_keeps _ Q); [|by split].
    intros v [[found' seen] e2] Hin (W2 & S2 & F2).
    destruct (slot_effect_ok s e2 found' seen v W2 F2) as (f3 & seen3 & e3 & E & W3 & S3 & F3);
      [rewrite (step_next _ _ S2); by apply Ht|].
    exists (f3, seen3, e3). split; [done|]. split; [done|]. split; [by etrans|done]. }
  destruct H2 as ([[f2 seen] e2] & -> & W2 & S2 & F2). cbn [mbind res_bind].
  assert (Hscope : effect_scope e2 = None) by (pose proof (rs_scope _ _ S2) as Hsc; change (scope_step None (effect_scope e2)) in Hsc;
    destruct (effect_scope e2); [destruct Hsc|reflexivity]).
  pose proof (deny_wf_step e0 e2 D0 W2 S2) as [_ HE HO HR].
  destruct f2 as [|x f2]; [by exists e2|]. set (found2 := x :: f2) in *. eexists. split; [reflexivity|].
  split; [|done]. destruct W2 as [[C1 C2 C3] WS WD WL WE]. split; [split; [by split|done..]| |done..].
  cbn [store_effects set_store_effects next_cap_var]. intros own' l slot row Hl Hin.
  destruct (decide (own' = own)) as [->|Hne]; [|rewrite lookup_insert_ne in Hl by done; by eapply HE].
  rewrite lookup_insert_eq in Hl. injection Hl as <-. apply (push_effects_elem _ (x :: f2)) in Hin as [Hin|Hin]; [|by apply F2].
  destruct (store_effects e2 !! own) as [old|] eqn:Ho; [by eapply HE|by apply elem_of_nil in Hin].
Qed.
End Replay.

(** C34: filing what a body does keeps the invariant that every deferred verdict,
    every reference and every store effect is over known variables, with the
    invariant of the engine: opening and closing the scope of a body, taking a
    reference, filing a verdict and dropping the last ones; each ends, and a
    reference only widens bindings. *)
Theorem records_invariant (hash_order : gset CapVarId -> list CapVarId) e :
  (forall X, Permutation (hash_order X) (elements X)) -> deny_wf e ->
  deny_wf new_engine
  /\ (forall poly_vars, deny_wf (begin_store_effects e poly_vars))
  /\ (forall own, deny_wf (set_effect_owner hash_order e own) /\ deny_wf (mark_dispatch_owner e own))
  /\ (forall own, exists e', end_store_effects hash_order e own = Done e' /\ deny_wf e' /\ effect_scope e' = None)
  /\ (forall own ren sp, own < next_cap_var e -> ren_below (next_cap_var e) ren ->
       exists own_row charged e', reference_row hash_order e own ren sp = Done (own_row, charged, e') /\ deny_wf e'
         /\ subst_le (cap_substitutions e) (cap_substitutions e')
         /\ row_below (next_cap_var e') own_row /\ row_below (next_cap_var e') charged)
  /\ (forall denied row sp, row_below (next_cap_var e) row -> deny_wf (record_deny_obligation e denied row sp))
  /\ (forall marks, deny_wf (truncate_denies e marks))
  /\ (forall denied row sp, truncate_denies (record_deny_obligation e denied row sp) (deny_marks e) = e).
Proof.
  intros Hh D. split; [apply new_engine_deny_wf|].
  assert (Hscope : forall s, (forall v, v ∈ touched s -> v < next_cap_var e) ->
    (forall v r, (v, r) ∈ param_stores s -> v < next_cap_var e /\ row_below (next_cap_var e) r) ->
    deny_wf (set_effect_scope (Some s) e)).
  { intros s Ht Hp. destruct D as [[[C1 C2 C3] WS WD WL WE] HE HO HR].
    split; [split; [by split|done..|]|done..]. by intros s' [= <-]. }
  split_and!.
  - intros vs. apply Hscope; cbn; [intros v Hv|intros v r Hv]; by apply elem_of_nil in Hv.
  - intros own. split.
    + unfold set_effect_owner. destruct (effect_scope e) as [s|] eqn:Hs; [|done].
      destruct (ew_scope e (dw_engine e D) s Hs) as [Ht Hp].
      destruct (Hscope (mkScope (poly s) (touched s) (param_stores s) (Some own)) Ht Hp) as [[[C1 C2 C3] WS WD WL WE] HE HO HR].
      split; [split; [by split|done..]|done..].
    + destruct D as [[[C1 C2 C3] WS WD WL WE] HE HO HR]. split; [split; [by split|done..]|done..].
  - intros own. by apply end_store_effects_ok.
  - intros own ren sp Hown Hren.
    destruct (reference_row_ok hash_order Hh e own ren sp D Hown Hren) as (own_row & charged & e' & ? & ? & ? & _ & ? & ?).
    by exists own_row, charged, e'.
  - intros denied row sp B. unfold record_deny_obligation. destruct (is_closed row); [done|].
    destruct D as [[[C1 C2 C3] WS WD WL WE] HE HO HR]. split; [split; [by split|done..]|done| |done].
    cbn. intros ob [Hob| ->%list_elem_of_singleton]%elem_of_app; [by apply HO|done].
  - intros marks. destruct D as [[[C1 C2 C3] WS WD WL WE] HE HO HR]. split; [split; [by split|done..]|done|..]; cbn.
    + intros ob Hob%elem_of_take. apply HO. destruct Hob as (i & Hob & _). by eapply list_elem_of_lookup_2.
    + intros r Hr%elem_of_take. apply HR. destruct Hr as (i & Hr & _). by eapply list_elem_of_lookup_2.
  - intros denied row sp. unfold record_deny_obligation, truncate_denies, deny_marks. destruct e; cbn.
    destruct (is_closed row); cbn; by rewrite ?take_app_length, ?firstn_all.
Qed.

(* ------------------------------------------------------------------ *)
(** ** An example                                                      *)
(* ------------------------------------------------------------------ *)

Definition block_span : Span := mkSpan 0 10 20.
Definition call_span : Span := mkSpan 0 30 40.
Definition denies_fs_read (row : CapRow) : DenyObligation := mkObligation [bytes "fs:read"] row block_span (Some 1) None.

(** A declaration with own row 1 calls its parameter, of row 0, in a block that
    denies [fs:read]; it is called once, with a closure of row 2. *)
Definition deny_engine : InferenceEngine :=
  set_deny_obligations [denies_fs_read (var 0)]
    (set_instantiations [mkInst None 1 [(0, 2)] call_span None]
      (set_cap_substitutions {[1 := Resolved 0 [0]; 2 := Resolved 16 []]} (set_next_cap_var 3 new_engine))).

Lemma wf_by_fields e : cap_resolve_cache e = ∅ -> cap_cycle_cache e = None -> deferred_input_stores e = ∅ ->
  lambda_input_stores e = ∅ -> effect_scope e = None -> subst_below (next_cap_var e) (cap_substitutions e) -> engine_wf e.
Proof.
  intros E1 E2 E3 E4 E5 Hs. split; [split|..].
  - intros v r Hr. by apply (Hs v r Hr).
  - intros v r. by rewrite E1, lookup_empty.
  - intros X. by rewrite E2.
  - done.
  - intros v rows r. by rewrite E3, lookup_empty.
  - intros v rows r. by rewrite E4, lookup_empty.
  - intros s. by rewrite E5.
Qed.

Lemma row_below_small n b v : v < n -> (0 <= b < 2 ^ 15)%Z -> row_below n (Resolved b [v]) /\ row_below n (Resolved b []).
Proof.
  intros Hv Hb. split; (split; [split; [done|repeat constructor]|]); [by intros w ->%list_elem_of_singleton|by intros w ?%elem_of_nil].
Qed.

Lemma deny_engine_wf : deny_wf deny_engine.
Proof.
  split.
  - apply wf_by_fields; try done. intros v r Hr.
    change (({[1 := Resolved 0 [0]; 2 := Resolved 16 []]} : gmap CapVarId CapRow) !! v = Some r) in Hr.
    apply lookup_insert_Some in Hr as [[<- <-]|[_ Hr]]; [split; [done|by apply row_below_small]|].
    apply lookup_singleton_Some in Hr as [<- <-]. split; [done|by apply (row_below_small 3 16 0)].
  - intros own l slot row Hl. change ((∅ : gmap CapVarId (list (CapVarId * CapRow))) !! own = Some l) in Hl. by rewrite lookup_empty in Hl.
  - intros ob ->%list_elem_of_singleton. by apply row_below_var.
  - intros r ->%list_elem_of_singleton. split; [done|]. split; [|done]. by intros v w [= -> ->]%list_elem_of_singleton.
Qed.

Lemma records_invariant_witness :
  (exists own_row charged e', reference_row elements deny_engine 1 {[ 0 := 2 ]} call_span = Done (own_row, charged, e')
    /\ deny_wf e' /\ subst_le (cap_substitutions deny_engine) (cap_substitutions e')
    /\ row_below (next_cap_var e') own_row /\ row_below (next_cap_var e') charged)
  /\ (fun '(own_row, charged, _) => (own_row, charged)) <$> reference_row elements deny_engine 1 {[ 0 := 2 ]} call_span
     = Done (Resolved 0 [0], Resolved 0 [2]).
Proof.
  split; [|vm_compute; reflexivity].
  apply (records_invariant elements deny_engine); [done|apply deny_engine_wf|done|].
  intros v w [<- <-]%lookup_singleton_Some. done.
Defined.
