(* ===== verification/CapSettle.v ===== *)
(** The verdict of [deny!] blocks ([kryos-types/src/infer.rs], [settle_denies]).

    [derived] and [violates] state, without a worklist, which verdicts the filed
    blocks call for; the worklist ends, within [settle_fuel], and its report is
    the verdicts of a set of derived obligations that covers every filed block
    and is closed under references. *)

From stdpp Require Import relations.
From S2P Require Import Prelude Machine Text Token Capability CapRow CapCycles Ty CapVars CapSolve CapFlow CapOps CapDeny CapReplay.

#[local] Open Scope N_scope.

(* ------------------------------------------------------------------ *)
(** ** All rows over the first [n] variables                           *)
(* ------------------------------------------------------------------ *)

Fixpoint sublists (l : list CapVarId) : list (list CapVarId) :=
  match l with [] => [[]] | x :: l => sublists l ++ map (cons x) (sublists l) end.

Lemma elem_of_sublists l vs : StronglySorted N.lt l -> StronglySorted N.lt vs -> (forall v, v ∈ vs -> v ∈ l) ->
  vs ∈ sublists l.
Proof.
  intros Hl. revert vs. induction Hl as [|x l Hl IH Hx]; intros vs Hvs Hin; cbn [sublists].
  { destruct vs as [|v vs]; [by left|]. by specialize (Hin v ltac:(by left)) as ?%elem_of_nil. }
  rewrite Forall_forall in Hx. apply elem_of_app. destruct Hvs as [|v vs Hvs Hv]; [left; apply IH; [constructor|]|].
  { intros v Hv. by apply elem_of_nil in Hv. }
  rewrite Forall_forall in Hv. destruct (decide (v = x)) as [->|Hne].
  - right. apply list_elem_of_In, List.in_map, list_elem_of_In, IH; [done|]. intros w Hw. specialize (Hv w Hw).
    destruct (proj1 (elem_of_cons _ _ _) (Hin w ltac:(by right))) as [->|?]; [lia|done].
  - left. apply IH; [by constructor; [|apply Forall_forall]|]. intros w Hw.
    destruct (proj1 (elem_of_cons _ _ _) (Hin v ltac:(by left))) as [?|Hvl]; [done|].
    specialize (Hx v Hvl). apply elem_of_cons in Hw as [->|Hw]; [done|].
    specialize (Hv w Hw).
    destruct (proj1 (elem_of_cons _ _ _) (Hin w ltac:(by right))) as [->|?]; [lia|done].
Qed.

Definition first_vars (n : N) : list CapVarId := map N.of_nat (seq 0 (N.to_nat n)).

Definition all_rows (n : N) : list CapRow :=
  Unknown :: flat_map (fun b => map (Resolved b) (sublists (first_vars n))) (seqZ 0 (2 ^ 15)).

Lemma first_vars_sorted n : StronglySorted N.lt (first_vars n).
Proof.
  unfold first_vars. generalize 0%nat as k. induction (N.to_nat n) as [|m IH]; intros k; cbn [seq map]; constructor; [apply IH|].
  apply Forall_forall. intros x (j & <- & Hj%in_seq)%list_elem_of_In%in_map_iff. lia.
Qed.

Lemma elem_of_all_rows n r : row_below n r -> r ∈ all_rows n.
Proof.
  intros [Wr Br]. destruct r as [b vs|]; [right|by left]. destruct Wr as [Hb Hs].
  apply list_elem_of_In, in_flat_map. exists b. split; [apply list_elem_of_In, elem_of_seqZ; lia|].
  apply List.in_map, list_elem_of_In, elem_of_sublists; [apply first_vars_sorted|apply Sorted_StronglySorted; [|done]|].
  - intros x y z. lia.
  - intros v Hv%Br. apply list_elem_of_In, in_map_iff. exists (N.to_nat v). split; [lia|]. apply in_seq. lia.
Qed.

(* ------------------------------------------------------------------ *)
(** ** What the blocks call for                                        *)
(* ------------------------------------------------------------------ *)

(** [e] is the engine when every reference has been completed. *)
Section Verdict.
Context (e : InferenceEngine) (refs : list Instantiation) (base : list DenyObligation).

Definition resolves_to (ob : DenyObligation) (r : CapRow) : Prop := row_resolved_to (cap_substitutions e) ∅ (ob_row ob) r.

(** The row of a reference's copy: the open variables are replaced by its own. *)
Definition copied_row (row : CapRow) (ren : gmap CapVarId CapVarId) (row' : CapRow) : Prop :=
  exists r ws, row_resolved_to (cap_substitutions e) (global_slot_cap_vars e) row r
    /\ row' = Resolved (concrete_bits r) ws /\ wf_row row'
    /\ forall x, x ∈ ws <-> exists v, v ∈ var_ids r /\ x = default v (ren !! v).

Definition copy_at (ob : DenyObligation) (r : Instantiation) (ob' : DenyObligation) : Prop :=
  exists row, copied_row (ob_row ob) (list_to_map (in_map r)) row
    /\ ob' = mkObligation (ob_denied ob) row (ob_span ob) (in_owner r) (Some (in_span r)).

(** The obligation still depends on a variable that nothing binds. *)
Definition depends (ob : DenyObligation) : Prop :=
  exists r v, resolves_to ob r /\ v ∈ var_ids r /\ cap_substitutions e !! v = None.

Definition referenced (ob : DenyObligation) (r : Instantiation) : Prop :=
  depends ob /\ r ∈ refs /\ ob_owner ob = Some (in_callee r).

(** The obligations a block gives rise to: as filed, and at each reference to the
    declaration that holds it, as long as it depends on what the reference passes. *)
Inductive derived : DenyObligation -> Prop :=
| derived_base ob : ob ∈ base -> derived ob
| derived_copy ob r ob' : derived ob -> referenced ob r -> copy_at ob r ob' -> derived ob'.

Definition violates (ob : DenyObligation) (name : str) : Prop :=
  exists r, resolves_to ob r /\ name ∈ denied_caps_used (ob_denied ob) (judged_bits e ob r).

(** The triple the worklist identifies an obligation by. *)
Definition has_key (ob : DenyObligation) (k : ObKey) : Prop :=
  exists r, resolves_to ob r /\ k = (ob_span ob, ob_owner ob, r).

Definition covered (dn : list DenyObligation) (ob : DenyObligation) : Prop :=
  exists ob' k, ob' ∈ dn /\ has_key ob' k /\ has_key ob k.

Definition key_universe : list ObKey :=
  flat_map (fun sp => flat_map (fun own => map (fun r => (sp, own, r)) (all_rows (next_cap_var e)))
    (map ob_owner base ++ map in_owner refs)) (map ob_span base).

Definition settle_bound : nat := length base + length key_universe * length refs.

Lemma derived_span ob : derived ob -> ob_span ob ∈ map ob_span base /\ ob_owner ob ∈ map ob_owner base ++ map in_owner refs.
Proof.
  induction 1 as [ob Hob|ob r ob' _ [IH _] (_ & Hr & _) (row & _ & ->)].
  - split; [|apply elem_of_app; left]; apply list_elem_of_In, List.in_map, list_elem_of_In, Hob.
  - split; [done|]. apply elem_of_app. right. change (in_owner r ∈ map in_owner refs). apply list_elem_of_In, List.in_map, list_elem_of_In, Hr.
Qed.

Lemma resolves_to_det ob r1 r2 : resolves_to ob r1 -> resolves_to ob r2 -> r1 = r2.
Proof.
  unfold resolves_to. destruct (ob_row ob); cbn [row_resolved_to]; [apply resolved_to_det|by intros -> ->].
Qed.

Lemma key_in_universe ob r : subst_below (next_cap_var e) (cap_substitutions e) -> derived ob ->
  row_below (next_cap_var e) (ob_row ob) -> resolves_to ob r -> (ob_span ob, ob_owner ob, r) ∈ key_universe.
Proof.
  intros Hs Hd Hb Hr. destruct (derived_span ob Hd) as [Hsp Hown]. apply list_elem_of_In, in_flat_map.
  exists (ob_span ob). split; [by apply list_elem_of_In|]. apply in_flat_map. exists (ob_owner ob).
  split; [by apply list_elem_of_In|]. apply List.in_map, list_elem_of_In, elem_of_all_rows. by eapply resolved_below.
Qed.
End Verdict.

(* ------------------------------------------------------------------ *)
(** ** The report                                                      *)
(* ------------------------------------------------------------------ *)

(** [reported out sp name]: the report has a violation of that block and name. *)
Definition reported (out : list DenyViolation) (sp : Span) (name : str) : Prop :=
  exists v, v ∈ out /\ dv_span v = sp /\ dv_denied v = name.

Definition report_keys (out : list DenyViolation) : list (Span * str) := map (fun v => (dv_span v, dv_denied v)) out.

Lemma report_spec ob out name : NoDup (report_keys out) ->
  NoDup (report_keys (report ob out name))
  /\ forall sp d, reported (report ob out name) sp d <-> reported out sp d \/ (sp = ob_span ob /\ d = name).
Proof.
  intros Hnd. unfold report. destruct (existsb _ out) eqn:Hex.
  - split; [done|]. intros sp d. split; [by left|]. intros [?|[-> ->]]; [done|].
    apply existsb_exists in Hex as (v & Hv & [H1%bool_decide_eq_true H2%bool_decide_eq_true]%andb_true_iff).
    exists v. by split; [apply list_elem_of_In|].
  - split.
    + unfold report_keys. rewrite map_app. apply NoDup_app. split; [done|]. split; [|apply NoDup_singleton].
      intros k Hk ->%list_elem_of_singleton. apply list_elem_of_In, in_map_iff in Hk as (v & [= H1 H2] & Hv).
      assert (existsb (fun v => bool_decide (dv_span v = ob_span ob) && bool_decide (dv_denied v = name)) out = true) as Hc;
        [|congruence].
      apply existsb_exists. exists v. split; [done|]. by rewrite H1, H2, !bool_decide_true.
    + intros sp d. unfold reported. setoid_rewrite elem_of_app. setoid_rewrite list_elem_of_singleton. split.
      * intros (v & [Hv| ->] & <- & <-); [left; by exists v|by right].
      * intros [(v & Hv & ? & ?)|[-> ->]]; [exists v; by split; [left|]|].
        exists (mkViolation (ob_span ob) name (ob_via ob)). by split; [right|].
Qed.

Lemma reports_spec ob names out : NoDup (report_keys out) ->
  NoDup (report_keys (foldl (report ob) out names))
  /\ forall sp d, reported (foldl (report ob) out names) sp d <-> reported out sp d \/ (sp = ob_span ob /\ d ∈ names).
Proof.
  revert out. induction names as [|n names IH]; intros out Hnd; cbn [foldl].
  { split; [done|]. intros sp d. rewrite elem_of_nil. tauto. }
  destruct (report_spec ob out n Hnd) as [Hnd' Hr]. destruct (IH _ Hnd') as [Hnd'' Hrs]. split; [done|].
  intros sp d. rewrite Hrs, Hr, elem_of_cons. tauto.
Qed.

Lemma violation_total a b : violation_le a b = true \/ violation_le b a = true.
Proof.
  unfold violation_le. rewrite (str_cmp_antisym (dv_denied a) (dv_denied b)).
  destruct (Z.eqb_spec (sp_file_id (dv_span a)) (sp_file_id (dv_span b))) as [->|];
    [rewrite Z.eqb_refl|rewrite (proj2 (Z.eqb_neq _ _)) by congruence; rewrite !Z.ltb_lt; lia].
  destruct (Z.eqb_spec (sp_start (dv_span a)) (sp_start (dv_span b))) as [->|];
    [rewrite Z.eqb_refl|rewrite (proj2 (Z.eqb_neq _ _)) by congruence; rewrite !Z.ltb_lt; lia].
  destruct (str_cmp _ _); auto.
Qed.

Definition in_order (a b : DenyViolation) : Prop := violation_le a b = true.

Lemma insert_violation_spec x l : Sorted in_order l ->
  Permutation (insert_violation x l) (x :: l) /\ Sorted in_order (insert_violation x l).
Proof.
  intros Hs. induction Hs as [|y l Hs [IHp IHs] Hy]; cbn [insert_violation]; [by split; [|repeat constructor]|].
  destruct (violation_le x y) eqn:Hxy; [split; [done|]; by repeat constructor|]. split; [by rewrite IHp, Permutation_swap|].
  constructor; [done|]. assert (Hyx : violation_le y x = true) by (destruct (violation_total x y); congruence).
  destruct l as [|z l]; cbn; [by constructor|]. destruct (violation_le x z); constructor; [done|by inversion Hy].
Qed.

Lemma sort_violations_spec l : Permutation (sort_violations l) l /\ Sorted in_order (sort_violations l).
Proof.
  induction l as [|x l [IHp IHs]]; [by split; [|constructor]|]. cbn [sort_violations foldr].
  destruct (insert_violation_spec x (sort_violations l) IHs) as [Hp Hs]. split; [by rewrite Hp, IHp|done].
Qed.

(* ------------------------------------------------------------------ *)
(** ** The worklist                                                    *)
(* ------------------------------------------------------------------ *)

Section Loop.
Context (e0 : InferenceEngine) (refs : list Instantiation) (base : list DenyObligation).

Record loop_inv (work dn : list DenyObligation) (seen : list ObKey) (out : list DenyViolation) : Prop := {
  li_derived : forall ob, ob ∈ work \/ ob ∈ dn -> derived e0 refs base ob /\ row_below (next_cap_var e0) (ob_row ob);
  li_seen : NoDup seen /\ forall k, k ∈ seen <-> exists ob, ob ∈ dn /\ has_key e0 ob k;
  li_out : NoDup (report_keys out) /\ forall sp d, reported out sp d <-> exists ob, ob ∈ dn /\ ob_span ob = sp /\ violates e0 ob d;
  li_base : forall ob, ob ∈ base -> ob ∈ work \/ covered e0 dn ob;
  li_refs : forall ob r, ob ∈ dn -> referenced e0 refs ob r ->
    exists ob', copy_at e0 ob r ob' /\ (ob' ∈ work \/ covered e0 dn ob')
}.

Lemma loop_inv_start : (forall ob, ob ∈ base -> row_below (next_cap_var e0) (ob_row ob)) -> loop_inv (rev base) [] [] [].
Proof.
  intros HB. assert (Hrev : forall ob, ob ∈ rev base <-> ob ∈ base) by (intros ob; by rewrite !list_elem_of_In, <-in_rev).
  split.
  - intros ob [Hob%Hrev|?%elem_of_nil]; [|done]. split; [by constructor|by apply HB].
  - split; [constructor|]. intros k. split; [by intros ?%elem_of_nil|by intros (ob & ?%elem_of_nil & _)].
  - split; [constructor|]. intros sp d. split; [by intros (v & ?%elem_of_nil & _)|by intros (ob & ?%elem_of_nil & _)].
  - intros ob Hob. left. by apply Hrev.
  - by intros ob r ?%elem_of_nil.
Qed.

(** An obligation whose triple was met is dropped. *)
Lemma loop_inv_skip ob work dn seen out k : loop_inv (ob :: work) dn seen out -> has_key e0 ob k -> k ∈ seen ->
  loop_inv work dn seen out.
Proof.
  intros [HD [Hnd HS] HO HB HR] Hk Hin. assert (Hob : covered e0 dn ob).
  { apply HS in Hin as (ob' & ? & ?). by exists ob', k. }
  assert (Hmove : forall x, x ∈ ob :: work \/ covered e0 dn x -> x ∈ work \/ covered e0 dn x).
  { intros x [[->|?]%elem_of_cons|?]; auto. }
  split; [|by split|done|..].
  - intros x [Hx|Hx]; apply HD; [left; by right|by right].
  - intros x Hx. by apply Hmove, HB.
  - intros x r Hx Hr. destruct (HR x r Hx Hr) as (y & Hc & Hy). exists y. split; [done|by apply Hmove].
Qed.

Lemma covered_more dn ob x : covered e0 dn x -> covered e0 (ob :: dn) x.
Proof. intros (y & k & ? & ? & ?). exists y, k. by split; [right|]. Qed.

(** A new one is judged, and its copies are queued. *)
Lemma loop_inv_take ob work dn seen out k more names : loop_inv (ob :: work) dn seen out -> has_key e0 ob k -> k ∉ seen ->
  (forall d, d ∈ names <-> violates e0 ob d) ->
  (forall ob', ob' ∈ more -> row_below (next_cap_var e0) (ob_row ob') /\ exists r, referenced e0 refs ob r /\ copy_at e0 ob r ob') ->
  (forall r, referenced e0 refs ob r -> exists ob', ob' ∈ more /\ copy_at e0 ob r ob') ->
  loop_inv (rev more ++ work) (ob :: dn) (k :: seen) (foldl (report ob) out names).
Proof.
  intros [HD [Hnd HS] [Hnk HO] HB HR] Hk Hni Hnames Hmore Hall.
  assert (Hself : covered e0 (ob :: dn) ob) by (exists ob, k; by split; [left|]).
  assert (Hrev : forall x, x ∈ rev more ++ work <-> x ∈ more \/ x ∈ work).
  { intros x. by rewrite elem_of_app, (list_elem_of_In (rev more)), <-in_rev, <-list_elem_of_In. }
  assert (Hmove : forall x, x ∈ ob :: work \/ covered e0 dn x -> x ∈ rev more ++ work \/ covered e0 (ob :: dn) x).
  { intros x [[->|?]%elem_of_cons|?]; [by right|left; apply Hrev; by right|right; by apply covered_more]. }
  destruct (HD ob ltac:(left; by left)) as [Hdob _]. split.
  - intros x [[Hx|Hx]%Hrev|[->|Hx]%elem_of_cons]; [|apply HD; left; by right|apply HD; left; by left|apply HD; by right].
    destruct (Hmore x Hx) as (Hb & r & Hr & Hc). split; [by eapply derived_copy|done].
  - split; [by constructor|]. intros k'. rewrite elem_of_cons, HS. setoid_rewrite elem_of_cons. split.
    + intros [->|(x & ? & ?)]; [exists ob; by split; [left|]|exists x; by split; [right|]].
    + intros (x & [->|?] & Hx); [left|right; by exists x]. destruct Hk as (r1 & H1 & ->), Hx as (r2 & H2 & ->).
      by rewrite (resolves_to_det _ _ _ _ H1 H2).
  - destruct (reports_spec ob names out Hnk) as [Hnk' Hrep]. split; [done|]. intros sp d. rewrite Hrep, HO, Hnames.
    setoid_rewrite elem_of_cons. split.
    + intros [(x & ? & ?)|[-> ?]]; [exists x; by split; [right|]|exists ob; by split; [left|]].
    + intros (x & [->|?] & Hs & ?); [by right|left; by exists x].
  - intros x Hx. by apply Hmove, HB.
  - intros x r [->|Hx]%elem_of_cons Hr.
    + destruct (Hall r Hr) as (y & Hy & Hc). exists y. split; [done|]. left. apply Hrev. by left.
    + destruct (HR x r Hx Hr) as (y & Hc & Hy). exists y. split; [done|]. by apply Hmove.
Qed.
End Loop.

Lemma Forall2_both {A B} (P : A -> B -> Prop) l k : Forall2 P l k ->
  (forall x, x ∈ l -> exists y, y ∈ k /\ P x y) /\ (forall y, y ∈ k -> exists x, x ∈ l /\ P x y).
Proof.
  induction 1 as [|a b l k Hab _ [IHl IHk]]; [by split; intros ? ?%elem_of_nil|]. setoid_rewrite elem_of_cons. split.
  - intros x [->|Hx]; [exists b; by split; [left|]|]. destruct (IHl x Hx) as (y & ? & ?). exists y. by split; [right|].
  - intros y [->|Hy]; [exists a; by split; [left|]|]. destruct (IHk y Hy) as (x & ? & ?). exists x. by split; [right|].
Qed.

Section Settle.
Context (hash_order : gset CapVarId -> list CapVarId) (Hhash : forall X, Permutation (hash_order X) (elements X)).

Section Run.
Context (e0 : InferenceEngine) (refs : list Instantiation) (base : list DenyObligation).
Context (HR : forall r, r ∈ refs -> inst_below (next_cap_var e0) r).

(** The engine of the loop: [e0] up to its caches. *)
Definition like (e : InferenceEngine) : Prop := engine_wf e /\ cache_step e0 e.

Lemma like_fields e : like e -> cap_substitutions e = cap_substitutions e0 /\ next_cap_var e = next_cap_var e0
  /\ global_slot_cap_vars e = global_slot_cap_vars e0 /\ dispatch_owners e = dispatch_owners e0 /\ owner_poly e = owner_poly e0.
Proof. intros [_ S]. unfold cache_step in S. rewrite S. by destruct e0. Qed.

Lemma judged_like e ob r : like e -> judged_bits e ob r = judged_bits e0 ob r.
Proof. intros (Es & _ & _ & Ed & Eo)%like_fields. unfold judged_bits. by rewrite Es, Ed, Eo. Qed.

Lemma resolve_like e ob : like e -> row_below (next_cap_var e0) (ob_row ob) ->
  exists r e', resolve_cap_row hash_order e (ob_row ob) = Done (r, e') /\ like e' /\ resolves_to e0 ob r.
Proof.
  intros L B. destruct L as [W S]. destruct (like_fields e (conj W S)) as (Es & En & _).
  destruct (resolve_cap_row_ok hash_order Hhash e (ob_row ob) (ew_coherent e W) (proj1 B)) as (r & e' & E & C & S' & Hr).
  exists r, e'. split; [done|]. split; [split; [by eapply cache_step_wf|by etrans]|]. unfold resolves_to. by rewrite <-Es.
Qed.

Lemma copy_like e ob r : like e -> row_below (next_cap_var e0) (ob_row ob) -> r ∈ refs ->
  exists ob' e', copy_obligation hash_order e ob r = Done (ob', e') /\ like e' /\ copy_at e0 ob r ob'
    /\ row_below (next_cap_var e0) (ob_row ob').
Proof.
  intros [W S] B Hr. destruct (like_fields e (conj W S)) as (Es & En & Eg & _).
  destruct (instantiate_row_ok hash_order Hhash e (ob_row ob) (list_to_map (in_map r)) (ew_coherent e W) (proj1 B))
    as (flat & e' & ws & E & C & S' & Hflat & Ww & Hws).
  unfold copy_obligation. rewrite E. cbn [mbind res_bind]. eexists _, e'. split; [reflexivity|].
  split; [split; [by eapply cache_step_wf|by etrans]|]. rewrite Es, Eg in Hflat. split.
  - eexists. split; [|reflexivity]. by exists flat, ws.
  - split; [done|]. cbn. intros x (v & Hv & ->)%Hws.
    pose proof (resolved_below (next_cap_var e0) (cap_substitutions e0) _ _ _ ltac:(rewrite <-Es, <-En; apply W) B Hflat) as [_ Bf].
    destruct (list_to_map (in_map r) !! v) as [w|] eqn:Hw; [|by apply Bf].
    by apply (inst_ren_below _ r (HR r Hr) v w).
Qed.

Lemma copies_like e ob own : like e -> row_below (next_cap_var e0) (ob_row ob) ->
  exists more e', copies hash_order refs e ob own = Done (more, e') /\ like e' /\ (length more <= length refs)%nat
    /\ (forall ob', ob' ∈ more -> row_below (next_cap_var e0) (ob_row ob')
          /\ exists r, r ∈ refs /\ in_callee r = own /\ copy_at e0 ob r ob')
    /\ (forall r, r ∈ refs -> in_callee r = own -> exists ob', ob' ∈ more /\ copy_at e0 ob r ob').
Proof.
  intros L B. unfold copies. set (calls := List.filter (fun r => in_callee r =? own) refs).
  assert (Hcalls : forall r, r ∈ calls <-> r ∈ refs /\ in_callee r = own).
  { intros r. unfold calls. by rewrite !list_elem_of_In, filter_In, N.eqb_eq. }
  destruct (map_state_ok (fun e r => copy_obligation hash_order e ob r) like cache_step
    (fun r ob' _ => copy_at e0 ob r ob' /\ row_below (next_cap_var e0) (ob_row ob')) calls e) as (more & e' & E & L' & _ & F).
  - intros r e1 [Hr _]%Hcalls L1. destruct (copy_like e1 ob r L1 B Hr) as (ob' & e2 & E & L2 & Hc & Hb).
    exists ob', e2. split; [done|]. split; [done|]. split; [|done]. destruct L1 as [_ S1], L2 as [_ S2].
    unfold cache_step in *. rewrite S1, S2. by destruct e0.
  - done.
  - done.
  - exists more, e'. split; [done|]. split; [done|]. split; [|split].
    + rewrite <-(Forall2_length _ _ _ F). apply List.filter_length_le.
    + intros ob' Hin. destruct (proj2 (Forall2_both _ _ _ F) ob' Hin) as (r & [? ?]%Hcalls & ? & ?). split; [done|by exists r].
    + intros r Hr Hown. destruct (proj1 (Forall2_both _ _ _ F) r) as (ob' & ? & ? & _); [by apply Hcalls|by exists ob'].
Qed.

Lemma seen_bound work dn seen out : engine_wf e0 -> loop_inv e0 refs base work dn seen out ->
  (length seen <= length (key_universe e0 refs base))%nat.
Proof.
  intros W [HD [Hnd HS] _ _ _]. apply submseteq_length, NoDup_submseteq; [done|].
  intros k (ob & Hob & r & Hr & ->)%HS. destruct (HD ob ltac:(by right)). by apply key_in_universe; [apply W|..].
Qed.

Lemma settle_loop_ok fuel work dn seen out e : engine_wf e0 -> like e -> loop_inv e0 refs base work dn seen out ->
  (length work + (length (key_universe e0 refs base) - length seen) * length refs <= fuel)%nat ->
  exists dn' seen' out' e', settle_loop hash_order fuel refs work seen out e = Done (out', e') /\ like e'
    /\ loop_inv e0 refs base [] dn' seen' out'.
Proof.
  intros W0. revert work dn seen out e. induction fuel as [|fuel IH]; intros work dn seen out e L I Hf.
  { destruct work as [|ob work]; [|cbn [length] in Hf; revert Hf; generalize ((length (key_universe e0 refs base) - length seen) * length refs)%nat; lia]. by exists dn, seen, out, e. }
  destruct work as [|ob work]; [by exists dn, seen, out, e|]. cbn [settle_loop].
  destruct (li_derived _ _ _ _ _ _ _ I ob ltac:(left; by left)) as [Hd B].
  destruct (resolve_like e ob L B) as (r & e1 & -> & L1 & Hr). cbn [mbind res_bind].
  set (k := (ob_span ob, ob_owner ob, r)). assert (Hk : has_key e0 ob k) by (by exists r).
  cbn [length] in Hf. case_bool_decide as Hseen; [apply (IH _ dn); [done|by eapply loop_inv_skip|lia]|].
  rewrite (judged_like e1 ob r L1). set (names := denied_caps_used (ob_denied ob) (judged_bits e0 ob r)).
  assert (Hnames : forall d, d ∈ names <-> violates e0 ob d).
  { intros d. split; [by exists r|]. intros (r' & Hr' & Hin). by rewrite (resolves_to_det _ _ _ _ Hr' Hr) in Hin. }
  destruct (like_fields e1 L1) as (Es & _).
  assert (Hgo : forall more e2, like e2 -> (length more <= length refs)%nat ->
    (forall ob', ob' ∈ more -> row_below (next_cap_var e0) (ob_row ob') /\ exists r, referenced e0 refs ob r /\ copy_at e0 ob r ob') ->
    (forall r, referenced e0 refs ob r -> exists ob', ob' ∈ more /\ copy_at e0 ob r ob') ->
    exists dn' seen' out' e', settle_loop hash_order fuel refs (rev more ++ work) (k :: seen) (foldl (report ob) out names) e2
      = Done (out', e') /\ like e' /\ loop_inv e0 refs base [] dn' seen' out').
  { intros more e2 L2 Hlen Hmore Hall.
    pose proof (loop_inv_take e0 refs base ob work dn seen out k more names I Hk Hseen Hnames Hmore Hall) as I2.
    pose proof (seen_bound _ _ _ _ W0 I2) as Hb. apply (IH _ (ob :: dn)); [done|done|].
    cbn [length] in Hb |- *. rewrite length_app, length_rev.
    assert (HU : exists d, (length (key_universe e0 refs base) = S (length seen) + d)%nat) by (apply Nat.le_exists_sub in Hb as (d & -> & _); exists d; lia).
    destruct HU as [d HU]. rewrite HU in *. replace (S (length seen) + d - length seen)%nat with (S d) in Hf by lia.
    replace (S (length seen) + d - S (length seen))%nat with d by lia. lia. }
  assert (Hnone : (forall r', ~ referenced e0 refs ob r') ->
    exists dn' seen' out' e', settle_loop hash_order fuel refs work (k :: seen) (foldl (report ob) out names) e1
      = Done (out', e') /\ like e' /\ loop_inv e0 refs base [] dn' seen' out').
  { intros Hno. apply (Hgo []); [done|cbn; lia|by intros ? ?%elem_of_nil|]. intros r' Hr'. by destruct (Hno r'). }
  destruct (ob_owner ob) as [own|] eqn:Hown; [|apply Hnone; intros r' (_ & _ & ?); congruence].
  destruct (existsb _ (var_ids r)) eqn:Hex.
  - destruct (copies_like e1 ob own L1 B) as (more & e2 & -> & L2 & Hlen & Hmore & Hall). cbn [mbind res_bind].
    assert (Hdep : depends e0 ob).
    { apply existsb_exists in Hex as (v & Hv%list_elem_of_In & Hb%bool_decide_eq_true). exists r, v. by rewrite <-Es. }
    apply Hgo; [done|done|..].
    + intros ob' Hin. destruct (Hmore ob' Hin) as (? & r' & ? & <- & ?). split; [done|]. exists r'. by split.
    + intros r' (_ & Hin & Ho). apply Hall; [done|congruence].
  - apply Hnone. intros r' ((r2 & v & Hr2 & Hv & Hn) & _). rewrite (resolves_to_det _ _ _ _ Hr2 Hr) in Hv.
    assert (existsb (fun v => bool_decide (cap_substitutions e1 !! v = None)) (var_ids r) = true) as Hc; [|congruence].
    apply existsb_exists. exists v. split; [by apply list_elem_of_In|]. by rewrite Es, bool_decide_true.
Qed.
End Run.

(** What the report [out] says of the blocks [base], when [dn] are the obligations
    looked at and [e1] is the engine with every reference completed. *)
Record verdict (e1 : InferenceEngine) (refs : list Instantiation) (base dn : list DenyObligation)
    (out : list DenyViolation) : Prop := {
  vd_base : forall ob, ob ∈ base -> covered e1 dn ob;
  vd_derived : forall ob, ob ∈ dn -> derived e1 refs base ob;
  vd_closed : forall ob r, ob ∈ dn -> referenced e1 refs ob r -> exists ob', copy_at e1 ob r ob' /\ covered e1 dn ob';
  vd_report : forall sp d, reported out sp d <-> exists ob, ob ∈ dn /\ ob_span ob = sp /\ violates e1 ob d;
  vd_once : NoDup (report_keys out);
  vd_sorted : Sorted in_order out
}.

Definition settle_fuel (e : InferenceEngine) : nat := settle_bound e (instantiations e) (deny_obligations e).

Lemma verdict_of_loop e1 refs base dn seen out : loop_inv e1 refs base [] dn seen out ->
  verdict e1 refs base dn (sort_violations out).
Proof.
  intros [HD _ [Hnd HO] HB HR]. destruct (sort_violations_spec out) as [Hp Hs]. split; [..|done].
  - intros ob Hob. by destruct (HB ob Hob) as [?%elem_of_nil|?].
  - intros ob Hob. by apply HD; right.
  - intros ob r Hob Hr. destruct (HR ob r Hob Hr) as (ob' & ? & [?%elem_of_nil|?]); [done|by exists ob'].
  - intros sp d. rewrite <-HO. unfold reported. by setoid_rewrite Hp.
  - unfold report_keys. by rewrite Hp.
Qed.

Lemma settle_denies_ok e fuel : deny_wf e -> (settle_fuel e <= fuel)%nat ->
  exists out e' e1 dn, settle_denies hash_order fuel e = Done (out, e') /\ engine_wf e'
    /\ row_step (set_instantiations [] (set_deny_obligations [] e)) e1 /\ cache_step e1 e'
    /\ verdict e1 (instantiations e) (deny_obligations e) dn out.
Proof.
  intros [W HE HO HR] Hf. unfold settle_denies, settle_fuel in *. set (e0 := set_instantiations [] _).
  set (base := deny_obligations e) in *. set (refs := instantiations e) in *.
  assert (W0 : engine_wf e0) by (destruct W as [[C1 C2 C3] WS WD WL WE]; split; [by split|done..]).
  destruct base as [|ob0 base'] eqn:Hbase.
  { exists [], e0, e0, []. split; [done|]. split; [done|]. split; [done|]. split; [done|].
    split; [by intros ? ?%elem_of_nil|by intros ? ?%elem_of_nil|by intros ? ? ?%elem_of_nil| |constructor|constructor].
    intros sp d. split; [by intros (v & ?%elem_of_nil & _)|by intros (ob & ?%elem_of_nil & _)]. }
  rewrite <-Hbase in *. clear Hbase ob0 base'.
  destruct (complete_rounds_ok hash_order Hhash 16 e0 refs W0 HE HR) as (e1 & E1 & W1 & S1).
  unfold complete_references. rewrite E1. cbn [mbind res_bind]. pose proof (step_next _ _ S1) as N1.
  change (next_cap_var e0) with (next_cap_var e) in N1.
  assert (Hlike : like e1 e1) by (split; done). rewrite <-N1 in HO, HR.
  destruct (settle_loop_ok e1 refs base HR fuel (rev base) [] [] [] e1 W1 Hlike (loop_inv_start e1 refs base HO))
    as (dn & seen & out & e' & -> & [W' S'] & I).
  { rewrite length_rev. cbn [length]. rewrite Nat.sub_0_r. unfold settle_bound, key_universe in *. by rewrite N1. }
  cbn [mbind res_bind]. exists (sort_violations out), e', e1, dn. split; [done|]. split; [done|]. split; [done|].
  split; [done|]. by eapply verdict_of_loop.
Qed.
End Settle.

(* ------------------------------------------------------------------ *)
(** ** Properties                                                      *)
(* ------------------------------------------------------------------ *)

(** C33: the worklist of [settle_denies] ends, within [settle_fuel], and its report
    is exact: there are obligations [dn], each derived from a filed block by
    references, that cover every filed block and every copy at a reference to the
    declaration that holds an obligation still open, such that a pair of block
    and name is reported exactly when one of them violates it; each pair once, in
    source order. *)
Theorem settle_denies_spec (hash_order : gset CapVarId -> list CapVarId) e fuel :
  (forall X, Permutation (hash_order X) (elements X)) -> deny_wf e -> (settle_fuel e <= fuel)%nat ->
  exists out e' e1 dn, settle_denies hash_order fuel e = Done (out, e') /\ engine_wf e'
    /\ row_step (set_instantiations [] (set_deny_obligations [] e)) e1 /\ cache_step e1 e'
    /\ verdict e1 (instantiations e) (deny_obligations e) dn out.
Proof. intros Hh D Hf. by apply settle_denies_ok. Qed.

Lemma derived_from_base e refs base ob : derived e refs base ob ->
  exists ob0, ob0 ∈ base /\ ob_span ob0 = ob_span ob /\ ob_denied ob0 = ob_denied ob.
Proof. induction 1 as [ob Hob|ob r ob' _ (ob0 & ? & ? & ?) _ (row & _ & ->)]; [by exists ob|by exists ob0]. Qed.

Lemma violates_carried e ob d dcap c r : d ∈ ob_denied ob -> parse_capability d = Some dcap -> satisfies c dcap = true ->
  resolves_to e ob r -> shows r c -> violates e ob d.
Proof.
  intros Hd Hp Hs Hr Hc. exists r. split; [done|]. apply denied_caps_used_spec. split; [done|]. exists dcap.
  assert (Hall : judged_bits e ob r = ALL -> exists c, parse_capability d = Some dcap /\ granted (judged_bits e ob r) c /\ satisfies c dcap = true).
  { intros ->. exists All. split; [done|]. split; [done|by destruct dcap]. }
  assert (Hrow : judged_bits e ob r = concrete_bits r -> exists c, parse_capability d = Some dcap
    /\ granted (judged_bits e ob r) c /\ satisfies c dcap = true).
  { intros E. destruct r as [b vs|]; [|by apply Hall]. exists c. by rewrite E. }
  revert Hall Hrow. unfold judged_bits. repeat case_match; auto.
Qed.

(** C21: no denied authority goes unreported: when a filed [deny!] block denies a
    capability and its row carries, under the final bindings, authority that
    includes it, the block is reported with that name; and every report is of a
    filed block, for a name it denies. *)
Theorem settle_denies_sound (hash_order : gset CapVarId -> list CapVarId) e fuel :
  (forall X, Permutation (hash_order X) (elements X)) -> deny_wf e -> (settle_fuel e <= fuel)%nat ->
  (forall ob ob', ob ∈ deny_obligations e -> ob' ∈ deny_obligations e -> ob_span ob = ob_span ob' -> ob_denied ob = ob_denied ob') ->
  exists out e', settle_denies hash_order fuel e = Done (out, e')
    /\ (forall ob d dcap c, ob ∈ deny_obligations e -> d ∈ ob_denied ob -> parse_capability d = Some dcap ->
         row_carries (cap_substitutions e') (ob_row ob) c -> satisfies c dcap = true -> reported out (ob_span ob) d)
    /\ (forall sp d, reported out sp d -> exists ob, ob ∈ deny_obligations e /\ ob_span ob = sp /\ d ∈ ob_denied ob
         /\ is_Some (parse_capability d)).
Proof.
  intros Hh D Hf Hspans. destruct (settle_denies_ok hash_order Hh e fuel D Hf) as (out & e' & e1 & dn & E & _ & _ & S & V).
  exists out, e'. split; [done|]. split.
  - intros ob d dcap c Hob Hd Hp Hc Hs. rewrite (cache_step_subst _ _ S) in Hc. apply (vd_report _ _ _ _ _ V).
    destruct (vd_base _ _ _ _ _ V ob Hob) as (ob' & k & Hin & (r' & Hr' & ->) & (r & Hr & [= Hsp Hown <-])).
    destruct (derived_from_base _ _ _ _ (vd_derived _ _ _ _ _ V ob' Hin)) as (ob0 & Hob0 & Hsp0 & Hd0).
    assert (Hden : ob_denied ob = ob_denied ob') by (rewrite <-Hd0; apply Hspans; [done|done|congruence]).
    exists ob'. split; [done|]. split; [done|]. rewrite Hden in Hd.
    eapply violates_carried; [done..|]. by apply (resolved_shows _ _ _ _ Hr).
  - intros sp d (ob & Hin & <- & r & _ & Hd)%(vd_report _ _ _ _ _ V).
    destruct (derived_from_base _ _ _ _ (vd_derived _ _ _ _ _ V ob Hin)) as (ob0 & Hob0 & Hsp0 & Hd0).
    apply denied_caps_used_spec in Hd as (Hd & dcap & c & Hp & _). exists ob0. rewrite Hd0, Hp. by eexists.
Qed.

(* ------------------------------------------------------------------ *)
(** ** Examples                                                        *)
(* ------------------------------------------------------------------ *)

Lemma settle_denies_spec_witness :
  (exists out e' e1 dn, settle_denies elements (settle_fuel deny_engine) deny_engine = Done (out, e') /\ engine_wf e'
    /\ row_step (set_instantiations [] (set_deny_obligations [] deny_engine)) e1 /\ cache_step e1 e'
    /\ verdict e1 (instantiations deny_engine) (deny_obligations deny_engine) dn out)
  /\ fst <$> settle_denies elements 4 deny_engine = Done [mkViolation block_span (bytes "fs:read") (Some call_span)].
Proof.
  split; [|vm_compute; reflexivity].
  apply (settle_denies_spec elements deny_engine); [done|apply deny_engine_wf|lia].
Defined.

(** The same block, in a declaration that reads files itself. *)
Definition reading_engine : InferenceEngine := set_deny_obligations [denies_fs_read (var 2)] deny_engine.

Lemma settle_denies_sound_witness :
  (exists out e', settle_denies elements (settle_fuel reading_engine) reading_engine = Done (out, e')
    /\ (forall ob d dcap c, ob ∈ deny_obligations reading_engine -> d ∈ ob_denied ob -> parse_capability d = Some dcap ->
         row_carries (cap_substitutions e') (ob_row ob) c -> satisfies c dcap = true -> reported out (ob_span ob) d)
    /\ (forall sp d, reported out sp d -> exists ob, ob ∈ deny_obligations reading_engine /\ ob_span ob = sp /\ d ∈ ob_denied ob
         /\ is_Some (parse_capability d)))
  /\ fst <$> settle_denies elements 2 reading_engine = Done [mkViolation block_span (bytes "fs:read") None].
Proof.
  split; [|vm_compute; reflexivity].
  apply (settle_denies_sound elements reading_engine); [done| |lia|].
  - destruct deny_engine_wf as [[[C1 C2 C3] WS WD WL WE] HE HO HR]. split; [split; [by split|done..]|done| |done].
    intros ob ->%list_elem_of_singleton. by apply row_below_var.
  - by intros ob ob' ->%list_elem_of_singleton ->%list_elem_of_singleton.
Defined.

(** Two obligations with the same triple need not have the same copies: a copy is
    taken of the row as filed, which may name a global slot where the resolved row
    names what the slot holds.  The one the worklist meets second is dropped, and
    with it the verdict of its copies. *)
Definition slot_engine (obligations : list DenyObligation) : InferenceEngine :=
  set_deny_obligations obligations
    (set_instantiations [mkInst None 1 [(0, 2)] call_span None]
      (set_global_slot_cap_vars {[3]} (set_cap_substitutions {[1 := Resolved 0 [0]; 2 := Resolved 16 []; 3 := Resolved 0 [0]]}
        (set_next_cap_var 4 new_engine)))).

Lemma same_triple_loses_verdict :
  fst <$> settle_denies elements 5 (slot_engine [denies_fs_read (var 3); denies_fs_read (var 0)])
    = Done [mkViolation block_span (bytes "fs:read") (Some call_span)]
  /\ fst <$> settle_denies elements 5 (slot_engine [denies_fs_read (var 0); denies_fs_read (var 3)]) = Done []
  /\ exists e', settle_denies elements 5 (slot_engine [denies_fs_read (var 0)])
       = Done ([mkViolation block_span (bytes "fs:read") (Some call_span)], e').
Proof. split_and!; [vm_compute; reflexivity..|eexists; vm_compute; reflexivity]. Qed.
